(* ===== verification/_CoqProject ===== *)
-Q . S2P
Prelude.v
CatalogNode.v
CatalogManager.v
CatalogTree.v
CatalogInvariant.v
CatalogOps.v
CatalogMove.v
CatalogTrash.v
CatalogExchange.v
CatalogSpec.v
CatalogDelta.v
CatalogReplay.v
CatalogClock.v
CatalogShard.v
Bytes.v
Text.v
Storage.v
Crypto.v
IoLogic.v
DurableTx.v
Encoding.v
CatalogCommit.v
CatalogLoad.v
CatalogCompact.v
CatalogSave.v
SaveLogic.v
SaveSafety.v
SaveSpec.v
SaveFound.v
EnvRuntime.v
Bitcoin.v
PaymentCard.v
ChunkCache.v
Frame.v
AgentWire.v
AntiReplay.v
CatalogSession.v
PagedList.v
DerivativeIndex.v
DerivativeCache.v
FileReplace.v
FileReplaceSafe.v
FileReplaceRecover.v
BlobReader.v
BlobReadSpec.v
BlobFinalize.v
FileReplaceService.v
Footprint.v
SaveFootprint.v
BlobFinalizeSpec.v
FileReplaceCommand.v
ChunkBatch.v
StorageGc.v
StorageGcSpec.v
StorageGcSafe.v
StorageGcCollect.v
StorageGcDemo.v
Artifacts.v
Rekey.v
RekeySpec.v
RekeySafe.v
RekeyPassword.v
RekeyRecover.v
RekeyDemo.v
MasterKey.v
MasterKeySafe.v
MediaInspect.v
MediaInspectSpec.v
MediaInspectTree.v
MediaCommand.v
MediaCommandSpec.v
MediaDemo.v
