(* ===== verification/Prelude.v ===== *)
(** * ChromVoid: a verification of the vault core

    ChromVoid is a local-first encrypted vault. Its Rust core keeps a catalog of
    files and directories in memory, guards and journals every change to it, stores
    it in shards with delta logs, and talks to remote devices in framed messages.
    The library follows that structure; every definition is a translation of the
    code it names, executable, with the clock and other outside input as arguments.

    ** The parts and the files that model them

    - Catalog nodes ([crates/core/src/catalog/node.rs], [path.rs], [types.rs],
      [error.rs]): [CatalogNode.v]. A node is a record with every field of the
      struct, its children in order; paths are the strings of the code, parsed by
      [parse_path].
    - Catalog manager ([catalog/manager.rs], [traversal.rs]): [CatalogManager.v]. The
      state is the tree, the index from ids to path strings, the id allocator and the
      version. An operation is a computation of a state-and-error monad: it returns
      its [Result] and the manager it leaves behind, also when it fails half-way.
      Theory: [CatalogTree.v] (the preorder walk of a tree and the focus lemma, which
      says what a mutation under a path does to the walk), [CatalogInvariant.v] (the
      invariant and tree surgery), [CatalogOps.v], [CatalogMove.v],
      [CatalogTrash.v], [CatalogExchange.v] (what each operation does, branch by
      branch). [CatalogSpec.v] states the guarantees.
    - Delta log ([catalog/delta.rs]): [CatalogDelta.v]; its replay theory and theorems
      are in [CatalogReplay.v].
    - Shards ([catalog/shard.rs], [sharded.rs], [system_shard.rs]): [CatalogShard.v].
    - Generic catalog commands ([rpc/commands/catalog/crud.rs], [mutate.rs], [exchange.rs],
      [trash.rs], [deltas.rs], [rpc/commands/guards.rs], the catalog part of
      [vault/session.rs]): [CatalogSession.v]; the trash shard that is read on demand is an argument. The handlers call the manager's operations, record
      deltas and invalidate the chunk cache.
    - Cache of decrypted chunks ([vault/decrypted_chunk_cache.rs]): [ChunkCache.v].
    - Remote protocol ([crates/protocol/src/frame.rs], [agent_wire.rs],
      [anti_replay.rs]): [Frame.v], [AgentWire.v], [AntiReplay.v].
    - Chunk storage ([storage/flat/chunks.rs]): [Storage.v]. A disk is a map from chunk
      names to bytes; every call has a fate: it runs, fails before or after its effect,
      or the machine crashes. [Bytes.v]: integers as bytes.
    - Encryption and chunk names ([crypto/chacha.rs], [crypto/blake3.rs]): [Crypto.v]. The
      AEAD, the hash and the random generator are the class [Crypto] with the laws
      [CryptoLaws]; JSON is the class [Serde] with the round-trip law [SerdeLaw];
      [Encoding.v] has concrete instances.
    - Durable transactions ([durable_tx/*.rs]): [DurableTx.v], with the two participant
      traits as classes.
    - Catalog persistence ([vault/catalog_persistence/*.rs]): [CatalogCommit.v] (commit and
      recovery), [CatalogLoad.v] (unlocking), [CatalogCompact.v] (compaction),
      [CatalogSave.v] (saving). Theory: [CatalogClock.v] (replay does not depend on
      the clock, up to the dates of directories), [SaveLogic.v] (a small logic of
      partial correctness for calls that may fail or crash), [SaveSafety.v] (what
      each phase of a save does to the disk), [SaveSpec.v] (the guarantees), [SaveFound.v]
      (what an unlock finds of one node, and saves of a session that changed one file).
    - Env Runtime domain ([env_runtime/*.rs]): [EnvRuntime.v]. The state holds secrets and
      profiles by id; each method is a computation that keeps the state on errors.
    - Bitcoin wallet ([wallet/bitcoin/selection.rs], [scan.rs], [signing.rs],
      [discovery.rs]): [Bitcoin.v]; the [bitcoin] crate and the explorer are classes.
    - Payment cards ([payment_card/mod.rs]): [PaymentCard.v].
    - Folder listings ([rpc/commands/catalog/paged_list.rs], the list handler of
      [crud.rs]): [PagedList.v], on the catalog of a session.
    - Text: [Text.v] decodes UTF-8 where the code works on characters.
    - Derivative index ([rpc/derivative_index.rs]): [DerivativeIndex.v] (the record, the
      cached and the free operations, compaction) and [DerivativeCache.v] (coherence of
      the cached index with the one on disk).
    - File replacement ([catalog_streams/file_replace_tx.rs],
      [file_streams/replace/chunks.rs]): [FileReplace.v]; theory in [FileReplaceSafe.v]
      (what each phase does to the disk) and [FileReplaceRecover.v] (recovery). The
      command around it ([file_streams/replace/service.rs], [rpc/stream.rs]):
      [FileReplaceService.v]; theory in [FileReplaceCommand.v].
    - Finishing a change of a file ([rpc/router/blob_finalize.rs], [VaultSession::save],
      [RpcRouter::save]): [BlobFinalize.v], on a router state of a session and the
      cached derivative index; theory in [BlobFinalizeSpec.v]. [Footprint.v] has the
      rules for what a computation may touch, [SaveFootprint.v] those of a save.
    - [IoLogic.v]: a logic of partial correctness for storage computations with and
      without a state in memory, and rules for runs with at most one fault.
    - Readers ([rpc/router/blob_range_reader.rs], [blob_reader.rs]): [BlobReader.v], on the
      chunk cache of [ChunkCache.v]; theory in [BlobReadSpec.v].
    - Storage garbage collection ([rpc/router/storage_gc]): [StorageGc.v], on the write batches
      of [storage/flat/batch.rs] in [ChunkBatch.v]; theory in [StorageGcSpec.v] (what
      the vault needs, and that the live set is that), [StorageGcSafe.v] (commands with faults), [StorageGcCollect.v] (without);
      concrete disks in [StorageGcDemo.v].
    - Artifacts ([storage/flat/artifacts.rs], [storage/flat.rs]) and the transactions kept in
      them ([durable_tx/artifact_store.rs]): [Artifacts.v], as entries of the disk under
      their file names.
    - Change of the password of a vault ([vault/rekey], [crypto/derive_vault_key.rs]):
      [Rekey.v], a computation on a session with its key; theory in [RekeySpec.v] (the
      chunks under both keys and their copies), [RekeySafe.v] (faults and crashes),
      [RekeyRecover.v] (recovery runs to its end), [RekeyPassword.v] (refused requests);
      concrete runs in [RekeyDemo.v].
    - Master password ([rpc/router/master_material.rs], [master_rekey.rs] and [master_rekey]):
      [MasterKey.v], on the fields of the router that the change touches; theory in
      [MasterKeySafe.v].
    - Media inspection ([media_inspector], [rpc/router/catalog_media_inspect]):
      [MediaInspect.v], a scan over any reader that can panic and run out of fuel, and
      [MediaCommand.v], the command on a session; theory in [MediaInspectSpec.v] (any
      reader), [MediaInspectTree.v] (files that are trees of boxes), [MediaCommandSpec.v]
      (stored files); concrete files in [MediaDemo.v].

    This file holds what they share: results and the state-and-error monad with its
    notations, 64-bit arithmetic with its wrap-around, string splitting and decimal
    printing, and generic lemmas on lists and strings.

    ** What the theorems show

    - Catalog: every manager reached from a new one by operations on ids that are in the
      tree or unknown to the index satisfies the invariant (well-formed tree, unique ids below the allocator,
      every node indexed under its path); what each operation returns and does on
      every branch, a failure leaving the manager as it was; trash followed by
      restore gives the old tree back; a move that its guards allow succeeds. As long
      as no directory with content is deleted the index is exact.
    - Deltas: a delta that applies has the stated effect on the shard's tree and one
      that does not leaves it alone; a batch is atomic; applying a delta twice is the
      same as applying it once (moves excepted).
    - Shards: splitting and merging is the identity on a catalog's tree; the root
      index describes the shards; the bookkeeping of the sharded manager agrees.
    - Session: the generic commands, exchange and trash included, remove, rename and move
      nothing in a system shard (the trash commands change the trash shard), and keep the
      manager's invariant.
    - Chunk cache: it stays within its bounds with exact byte accounting, returns what
      was inserted, never takes back a chunk from a reader older than an invalidation, and evicts the
      least recently used entries only.
    - Protocol: frames and fragmented messages round-trip, decoding is canonical,
      reassembly stays within its limit, a message id is never accepted twice in the
      window and only replays are refused.
    - Persistence: a commit, a compaction and a whole save are atomic: after any faults,
      crashes and interrupted recoveries the next unlock finds the old catalog or the
      new one, and the new one after an [Ok]; a save without faults succeeds. Assumed:
      encryption decrypts with the key and name it was made with, JSON reads what it
      wrote, no two chunk names in use collide, and a shard without pending deltas is
      stored as the session has it; a save that returned [Ok] leaves it so.
    - Env Runtime: every reachable state passes its integrity check; of two edits of one
      revision the second is refused.
    - Bitcoin: coins, outputs, change and fee balance, in the selection and in the
      transaction that is signed; discovery ends and misses nothing within the gap.
    - Payment cards: the check digit catches single errors and swaps; the search for a
      free title ends.
    - Listings: pages cover the sorted entries exactly once, show nodes that exist and
      nothing of a system shard, and batches respect their limits.
    - Derivatives: compaction removes what it should and nothing protected; the cached
      index answers as the one on disk as long as the storage does not fail.
    - File replacement: with at most one fault and the recovery of the next unlock, the
      file has its old chunks or the new ones as the catalog says; so for the whole
      command, with its finalization, save, undo and clean-up, and the catalog that the
      next unlock loads, when the derivative index can be read. A save touches no chunk
      of a file or derivative.
    - Readers: a range read in pieces of any sizes gives exactly its bytes, whatever is
      cached; a streamed file arrives complete when the storage does not fail.
    - Garbage collection: whatever the scans, the manifest and the faults are, the catalog,
      files, passwords, derivatives and transaction markers of the open vault stay and the next unlock finds the same catalog; without
      faults everything else goes, also other vaults and the backups of a pending
      replacement.
    - Password change: all or nothing under any faults, crashes and interrupted recoveries
      with either key; recovery cannot get stuck as long as nothing else uses the storage;
      requests that are not in order change nothing. Assumed besides the above: the
      marker sealed under the old key does not open under the new one.
    - Master password: its change ends with the old verifier or the new one under any
      faults and interrupted recoveries, and recovery without faults always finishes.
      Assumed besides the above: a transaction in the legacy form does not decode as a
      record.
    - Media inspection: it ends without a panic whatever the reader returns and reads at
      most 768 KiB; on an encoded tree of boxes it finds the tracks of the tree, and, on a
      storage that does not fail, the command puts that description into the catalog and saves it. The fuel of the scan is the limit on
      headers in units of eight bytes, which every box costs.
    - Some theorems show places where the code does not do what it means to: a deleted
      directory's descendants stay indexed and their ids can reach other nodes, an
      exchange re-issues reserved ids, system shard roots can be made through the
      generic commands, compacting a shard drops its recorded deltas, a failed save
      forgets what it was to save, a payable Bitcoin transfer is refused and the sum
      of its outputs wraps, a doubled slash lists the system shards, a failing deletion
      empties the derivative index, an interrupted recovery of a replacement blocks
      every later one, a failing read truncates a streamed file, an error in the clean up
      of a password change can lock the vault or lose later saves, and the change of
      another vault drops its marker.

    ** Bounds and fuel

    Recursion on trees and lists is structural. Some loops take fuel: the eviction
    loop of the cache (one step per entry), the fragment iterator (one step per
    byte is more than enough), the readers (a round for each byte asked for, two for a
    streamed file), address discovery (one step per address up to the gap
    after the last used one), the search for a free card title (one step per taken
    name and one more), a client that follows pages (one step per entry and one
    more); each has a lemma or theorem that its fuel suffices. The name
    search of the trash has the code's own bound of 10,000 candidates, the search
    for a free Env Runtime id its bound of 8 draws. [u64] additions of the id
    allocator and the versions wrap, as in a release build; [usize] is 64 bits. A history
    of operations steps only while the allocator is below the maximum of [u64]
    ([op_allowed]), and passes ids that are nodes of the tree or unknown to the index;
    the theorems on stale ids show why the second condition is needed.

    ** Not modelled

    Cryptography, serialization through serde, file and network I/O, the Noise
    handshake, the desktop application and the signing of transactions, which call
    external crates. Left for extension, in this order: the upload and
    erase transactions of blobs, the domain unit of work and the Env Runtime handlers
    on it, the repair of damaged shards, the other
    wallets' formats, and the credential provider's domain model. *)

From Stdlib Require Import Ascii String Sorting.Sorted.
From stdpp Require Import base gmap strings list pretty.
Open Scope Z_scope.
#[global] Arguments Ascii.eqb : simpl never.
#[global] Arguments String.append !_ _ / : simpl nomatch.

(** ** Results

    [Result<T, E>]: the error type is fixed per module, so it comes first. *)

Inductive result (E A : Type) : Type :=
  | Ok (a : A)
  | Err (e : E).
Arguments Ok {E A} a.
Arguments Err {E A} e.

#[export] Instance result_ret {E} : MRet (result E) := fun A a => Ok a.
#[export] Instance result_bind {E} : MBind (result E) := fun A B f r =>
  match r with Ok a => f a | Err e => Err e end.

(** [o.ok_or(e)]; with [?] it is [x ← ok_or o e; k]. *)
Definition ok_or {E A} (o : option A) (e : E) : result E A :=
  match o with Some a => Ok a | None => Err e end.

(** [r.map_err(f)]. *)
Definition map_err {E E' A} (f : E -> E') (r : result E A) : result E' A :=
  match r with Ok a => Ok a | Err e => Err (f e) end.

Definition is_ok {E A} (r : result E A) : bool :=
  match r with Ok _ => true | Err _ => false end.

Lemma bind_Ok_inv {E A B} (r : result E A) (f : A -> result E B) b :
  (x ← r; f x) = Ok b -> exists a, r = Ok a /\ f a = Ok b.
Proof. destruct r; cbn; [eauto | discriminate]. Qed.

Lemma ok_or_Ok_inv {E A} (o : option A) (e : E) a : ok_or o e = Ok a -> o = Some a.
Proof. destruct o; cbn; congruence. Qed.

(** ** Machine integers

    Unsigned integers are [Z] values kept in range by the operations below.
    [+] on an unsigned type is [wrap]ped at its width: this is what a release
    build computes (the workspace sets no [overflow-checks]); the theorems that
    need the mathematical sum carry the range hypothesis. *)

Definition U8_MAX : Z := 2 ^ 8 - 1.
Definition U16_MAX : Z := 2 ^ 16 - 1.
Definition U32_MAX : Z := 2 ^ 32 - 1.
Definition U64_MAX : Z := 2 ^ 64 - 1.

Definition is_u64 (x : Z) : Prop := 0 <= x <= U64_MAX.

Definition u64_wrap (x : Z) : Z := x `mod` 2 ^ 64.
Definition u32_wrap (x : Z) : Z := x `mod` 2 ^ 32.
Definition u64_add (x y : Z) : Z := u64_wrap (x + y).
Definition u64_saturating_add (x y : Z) : Z := Z.min (x + y) U64_MAX.
Definition u64_saturating_sub (x y : Z) : Z := Z.max (x - y) 0.
Definition u64_saturating_mul (x y : Z) : Z := Z.min (x * y) U64_MAX.
Definition u64_checked_add (x y : Z) : option Z :=
  if x + y <=? U64_MAX then Some (x + y) else None.
Definition u64_checked_sub (x y : Z) : option Z :=
  if y <=? x then Some (x - y) else None.

Lemma u64_wrap_small x : is_u64 x -> u64_wrap x = x.
Proof. unfold is_u64, u64_wrap, U64_MAX. intros. apply Z.mod_small. lia. Qed.

Lemma u64_add_small x y : is_u64 (x + y) -> u64_add x y = x + y.
Proof. apply u64_wrap_small. Qed.

Lemma u64_wrap_range x : is_u64 (u64_wrap x).
Proof.
  unfold is_u64, u64_wrap, U64_MAX.
  pose proof (Z.mod_pos_bound x (2 ^ 64)). lia.
Qed.

(** ** The clock

    [current_timestamp()] reads the system clock. An operation that reads it
    several times gets its readings from a [clock]: [clk n] is the operation's
    [n]-th reading, and nothing is assumed about how the readings relate. *)

Definition clock := nat -> Z.
Definition later (k : nat) (clk : clock) : clock := fun n => clk (k + n)%nat.

(** ** Strings

    A [str] is its UTF-8 byte sequence, one [ascii] per byte. All separators the
    code splits on are ASCII, so splitting bytes and splitting characters agree. *)

Definition slash : ascii := "/"%char.
Definition nul : ascii := Ascii.zero.

(** [s.split(c)]: always at least one piece. *)
Fixpoint split_char (c : ascii) (s : string) : list string :=
  match s with
  | EmptyString => [EmptyString]
  | String a s' =>
      if Ascii.eqb a c then EmptyString :: split_char c s'
      else match split_char c s' with
           | [] => [String a EmptyString]
           | w :: ws => String a w :: ws
           end
  end.

(** [s.contains(c)]. *)
Fixpoint contains_char (c : ascii) (s : string) : bool :=
  match s with
  | EmptyString => false
  | String a s' => Ascii.eqb a c || contains_char c s'
  end.

Definition string_is_empty (s : string) : bool :=
  match s with EmptyString => true | _ => false end.

(** [s.len()]: bytes. *)
Definition string_len (s : string) : nat := String.length s.

(** [parts.join(sep)] is [String.concat sep parts]. *)
Abbreviation str_join := String.concat.

(** [s.starts_with(p)]. *)
Definition starts_with (p s : string) : bool := String.prefix p s.

(** [s.contains(needle)]. *)
Fixpoint str_contains (needle s : string) : bool :=
  starts_with needle s || match s with EmptyString => false | String _ s' => str_contains needle s' end.

(** [s.trim_start_matches(c)]. *)
Fixpoint trim_start_char (c : ascii) (s : string) : string :=
  match s with
  | EmptyString => EmptyString
  | String a s' => if Ascii.eqb a c then trim_start_char c s' else s
  end.

(** [s.rsplit_once(c)]: around the last [c]. *)
Fixpoint rsplit_once (c : ascii) (s : string) : option (string * string) :=
  match s with
  | EmptyString => None
  | String a s' =>
      match rsplit_once c s' with
      | Some (l, r) => Some (String a l, r)
      | None => if Ascii.eqb a c then Some (EmptyString, s') else None
      end
  end.

(** Display of an unsigned integer in a [format!]. *)
Definition show_u64 (x : Z) : string := pretty (Z.to_N x).

Lemma split_char_nonempty c s : split_char c s <> [].
Proof.
  destruct s as [|a s]; cbn; [done|].
  destruct (Ascii.eqb a c); [done|]. by destruct (split_char c s).
Qed.

Lemma split_char_none c s : contains_char c s = false -> split_char c s = [s].
Proof.
  induction s as [|a s IH]; cbn; [done|].
  intros [-> Hs]%orb_false_iff. by rewrite (IH Hs).
Qed.

Lemma split_char_app c w s :
  contains_char c w = false ->
  split_char c (String.append w (String c s)) = w :: split_char c s.
Proof.
  induction w as [|a w IH]; cbn; [by rewrite Ascii.eqb_refl|].
  intros [-> Hw]%orb_false_iff. by rewrite (IH Hw).
Qed.

Lemma split_char_sep c s t :
  split_char c (String.append s (String c t)) = split_char c s ++ split_char c t.
Proof.
  induction s as [|a s IH]; cbn; [by rewrite Ascii.eqb_refl|].
  destruct (Ascii.eqb a c); cbn; [by rewrite IH|]. rewrite IH.
  pose proof (split_char_nonempty c s). by destruct (split_char c s).
Qed.

Lemma split_char_pieces c s : Forall (fun w => contains_char c w = false) (split_char c s).
Proof.
  induction s as [|a s IH]; cbn; [by repeat constructor|].
  destruct (Ascii.eqb a c) eqn:Ea; [by constructor|].
  destruct (split_char c s) as [|w ws]; [constructor; [cbn; by rewrite Ea | done]|].
  inversion IH; subst. constructor; [cbn; by rewrite Ea | done].
Qed.

Lemma split_char_join c ws :
  ws <> [] -> Forall (fun w => contains_char c w = false) ws ->
  split_char c (str_join (String c EmptyString) ws) = ws.
Proof.
  intros Hne Hws. induction Hws as [|w ws Hw Hws IH]; [done|].
  destruct ws as [|w' ws]; [by apply split_char_none|].
  change (str_join (String c "") (w :: w' :: ws))
    with (String.append w (String c (str_join (String c "") (w' :: ws)))).
  rewrite split_char_app by done. by rewrite IH.
Qed.

Lemma string_append_nil_r s : String.append s EmptyString = s.
Proof. induction s; cbn; congruence. Qed.

Lemma string_append_assoc s t u :
  String.append (String.append s t) u = String.append s (String.append t u).
Proof. induction s; cbn; congruence. Qed.

Lemma string_append_inj s t u : String.append s t = String.append s u -> t = u.
Proof. induction s; cbn; [done|]. intros [=]. auto. Qed.

Lemma contains_char_app c s t :
  contains_char c (String.append s t) = contains_char c s || contains_char c t.
Proof. induction s as [|a s IH]; cbn; [done|]. rewrite IH. by rewrite orb_assoc. Qed.

Lemma starts_with_app p s : starts_with p (String.append p s) = true.
Proof.
  unfold starts_with. induction p as [|a p IH]; cbn; [by destruct s|].
  destruct (ascii_dec a a); [done|congruence].
Qed.

Lemma starts_with_inv p s : starts_with p s = true -> exists r, s = String.append p r.
Proof.
  unfold starts_with. revert s. induction p as [|a p IH]; intros s Hs; [by exists s|].
  destruct s as [|b s]; [done|]. cbn in Hs. destruct (ascii_dec a b) as [->|]; [|done].
  destruct (IH s Hs) as [r ->]. by exists r.
Qed.

Lemma rsplit_once_Some c s l r :
  rsplit_once c s = Some (l, r) -> s = String.append l (String c r) /\ contains_char c r = false.
Proof.
  revert l. induction s as [|a s IH]; cbn; [done|]. intros l.
  destruct (rsplit_once c s) as [[l' r']|] eqn:E.
  - intros [= <- ->]. destruct (IH _ eq_refl) as [-> ?]. done.
  - destruct (Ascii.eqb a c) eqn:Ea; [|done]. apply Ascii.eqb_eq in Ea as ->. intros [= <- <-].
    split; [done|]. clear IH. induction s as [|b s IH]; [done|]. cbn in *.
    destruct (rsplit_once c s) as [[??]|]; [done|]. destruct (Ascii.eqb b c); [done|]. by apply IH.
Qed.

(** ** Lists *)

(** [iter().position(p)]. *)
Fixpoint position {A} (p : A -> bool) (l : list A) : option nat :=
  match l with
  | [] => None
  | x :: l' => if p x then Some 0%nat else S <$> position p l'
  end.

(** [iter_mut().find(p)] followed by an update of what was found: the first
    match is replaced, and the updater's own result is returned with the list. *)
Fixpoint update_first {A B} (p : A -> bool) (f : A -> option (B * A)) (l : list A)
    : option (B * list A) :=
  match l with
  | [] => None
  | x :: l' =>
      if p x then match f x with Some (b, x') => Some (b, x' :: l') | None => None end
      else match update_first p f l' with
           | Some (b, l'') => Some (b, x :: l'')
           | None => None
           end
  end.

(** [Vec::remove] of the first element satisfying [p]. *)
Fixpoint remove_first {A} (p : A -> bool) (l : list A) : option (A * list A) :=
  match l with
  | [] => None
  | x :: l' =>
      if p x then Some (x, l')
      else match remove_first p l' with
           | Some (y, l'') => Some (y, x :: l'')
           | None => None
           end
  end.

Lemma find_split {A} (p : A -> bool) l x :
  List.find p l = Some x ->
  exists l1 l2, l = l1 ++ x :: l2 /\ p x = true /\ Forall (fun y => p y = false) l1.
Proof.
  induction l as [|y l IH]; cbn; [done|].
  destruct (p y) eqn:Ey.
  - intros [= ->]. by exists [], l.
  - intros (l1 & l2 & -> & ? & ?)%IH. exists (y :: l1), l2. by repeat constructor.
Qed.

Lemma find_app_skip {A} (p : A -> bool) l1 x l2 :
  Forall (fun y => p y = false) l1 -> p x = true -> List.find p (l1 ++ x :: l2) = Some x.
Proof. induction 1 as [|y l1 Hy _ IH]; intros Hx; cbn; [by rewrite Hx|]. rewrite Hy. auto. Qed.

Lemma find_None_Forall {A} (p : A -> bool) l :
  List.find p l = None <-> Forall (fun y => p y = false) l.
Proof.
  induction l as [|y l IH]; cbn; [split; [constructor|done]|].
  destruct (p y) eqn:Ey; split.
  - done.
  - inversion 1; congruence.
  - intros ?%IH. by constructor.
  - inversion 1; subst. by apply IH.
Qed.

Lemma update_first_split {A B} (p : A -> bool) (f : A -> option (B * A)) l1 x l2 :
  Forall (fun y => p y = false) l1 -> p x = true ->
  update_first p f (l1 ++ x :: l2) =
    match f x with Some (b, x') => Some (b, l1 ++ x' :: l2) | None => None end.
Proof.
  induction 1 as [|y l1 Hy _ IH]; intros Hx; cbn.
  - rewrite Hx. by destruct (f x) as [[??]|].
  - rewrite Hy, IH by done. by destruct (f x) as [[??]|].
Qed.

Lemma update_first_none {A B} (p : A -> bool) (f : A -> option (B * A)) l :
  List.find p l = None -> update_first p f l = None.
Proof.
  induction l as [|y l IH]; cbn; [done|]. destruct (p y); [done|]. intros H. by rewrite IH.
Qed.

Lemma remove_first_split {A} (p : A -> bool) l x l' :
  remove_first p l = Some (x, l') ->
  exists l1 l2, l = l1 ++ x :: l2 /\ l' = l1 ++ l2 /\ p x = true /\
    Forall (fun y => p y = false) l1.
Proof.
  revert l'. induction l as [|y l IH]; cbn; [done|]. intros l'.
  destruct (p y) eqn:Ey.
  - intros [= -> ->]. by exists [], l'.
  - destruct (remove_first p l) as [[z l'']|] eqn:Er; [|done].
    intros [= -> <-]. destruct (IH _ eq_refl) as (l1 & l2 & -> & -> & ? & ?).
    exists (y :: l1), l2. by repeat constructor.
Qed.

Lemma remove_first_app {A} (p : A -> bool) l1 x l2 :
  Forall (fun y => p y = false) l1 -> p x = true ->
  remove_first p (l1 ++ x :: l2) = Some (x, l1 ++ l2).
Proof.
  induction 1 as [|y l1 Hy _ IH]; intros Hx; cbn; [by rewrite Hx|].
  by rewrite Hy, IH.
Qed.

Lemma remove_first_none {A} (p : A -> bool) l :
  remove_first p l = None <-> Forall (fun y => p y = false) l.
Proof.
  induction l as [|y l IH]; cbn; [split; [constructor|done]|].
  destruct (p y) eqn:Ey; [split; [done|inversion 1; congruence]|].
  destruct (remove_first p l) as [[z l']|] eqn:Er; split.
  - done.
  - inversion 1; subst. destruct IH as [_ IH]. by discriminate IH.
  - constructor; [done|]. by apply IH.
  - done.
Qed.

(** *** [slice::sort_by]

    A stable sort, here by insertion: an element goes before the first one that does not
    compare less. *)
Section StableSort.
Context {A : Type} (le : A -> A -> bool).

Fixpoint insert_sorted (x : A) (l : list A) : list A :=
  match l with
  | [] => [x]
  | y :: l' => if le x y then x :: l else y :: insert_sorted x l'
  end.

Definition stable_sort (l : list A) : list A := foldr insert_sorted [] l.

Lemma insert_sorted_perm x l : insert_sorted x l ≡ₚ x :: l.
Proof.
  induction l as [|y l IH]; cbn; [done|]. destruct (le x y); [done|]. rewrite IH. constructor.
Qed.

Lemma stable_sort_perm l : stable_sort l ≡ₚ l.
Proof. induction l as [|x l IH]; cbn; [done|]. by rewrite insert_sorted_perm, IH. Qed.

Context (le_total : forall x y, le x y = false -> le y x = true).
Context (le_trans : forall x y z, le x y = true -> le y z = true -> le x z = true).

Lemma stable_sort_sorted l : StronglySorted (fun x y => le x y = true) (stable_sort l).
Proof.
  induction l as [|x l IH]; cbn; [constructor|]. fold (stable_sort l).
  induction IH as [|y l' Hs IH' Hy]; cbn; [by repeat constructor|].
  destruct (le x y) eqn:E.
  - constructor; [by constructor|]. constructor; [done|]. eapply Forall_impl; [exact Hy|]. intros z. by apply le_trans.
  - constructor; [done|]. rewrite insert_sorted_perm. constructor; [by apply le_total|done].
Qed.

(** Elements that compare equal keep their order. *)
Lemma stable_sort_stable z l :
  List.filter (fun y => le z y && le y z) (stable_sort l) = List.filter (fun y => le z y && le y z) l.
Proof.
  induction l as [|x l IH]; cbn [stable_sort foldr List.filter]; [done|]. fold (stable_sort l). rewrite <- IH.
  generalize (stable_sort l) as l'. clear l IH. induction l' as [|y l' IH]; cbn [insert_sorted List.filter]; [done|].
  destruct (le x y) eqn:E; cbn [List.filter]; [done|]. rewrite IH.
  destruct (le z x && le x z) eqn:Ex; [|done]. destruct (le z y && le y z) eqn:Ey; [|done].
  apply andb_true_iff in Ex as [_ Ex], Ey as [Ey _]. by rewrite (le_trans x z y) in E.
Qed.
End StableSort.

(** ** Automation *)

Create HintDb catalog.

Ltac invert H := inversion H; subst; clear H.

(** Splits a hypothesis [... = Ok _] about a chain of [x ← _; _] into its steps. *)
Ltac ok_steps :=
  repeat match goal with
  | H : (mbind _ _) = Ok _ |- _ =>
      let a := fresh "a" in let H1 := fresh "Hstep" in let H2 := fresh "H" in
      apply bind_Ok_inv in H as (a & H1 & H2)
  | H : ok_or _ _ = Ok _ |- _ => apply ok_or_Ok_inv in H
  | H : Ok _ = Ok _ |- _ => injection H as H
  | H : Err _ = Ok _ |- _ => discriminate H
  end.
