(* ===== verification/CatalogNode.v ===== *)
(** * Catalog nodes, paths and errors

    Models [crates/core/src/types.rs] (NodeType), [crates/core/src/error.rs]
    (Error), [crates/core/src/catalog/node.rs] (CatalogNode and its methods) and
    [crates/core/src/catalog/path.rs] (parse_path, validate_name).

    A [CatalogNode] keeps every field of the struct; methods on [&mut self]
    return the new node. Each method that reads the clock takes the reading as
    an argument. *)

From S2P Require Import Prelude.
From Stdlib Require Import Ascii String.
From stdpp Require Import base gmap strings list.
Open Scope Z_scope.

(** ** Errors *)

(** [CatalogReplayReason] of delta.rs. *)
Inductive CatalogReplayReason :=
  | MissingSource
  | MissingTargetParent
  | NodeIdMismatch
  | NameCollision
  | InvalidParent
  | MalformedPath.

(** [CatalogDeltaReplayFailure] of delta.rs. *)
Record CatalogDeltaReplayFailure := mkReplayFailure {
  fail_seq : Z;
  fail_path : string;
  fail_node_id : option Z;
  fail_op : string;
  fail_reason : CatalogReplayReason;
}.

(** [Error] of error.rs. The payload of an I/O or serde error is its message.
    The last constructor is not a variant of the enum: it stands for a panic
    (an out-of-range index), which is the outcome of the call and not a value. *)
Inductive Error :=
  | EncryptionFailed (s : string)
  | DecryptionFailed (s : string)
  | KeyDerivationFailed (s : string)
  | InvalidDataFormat (s : string)
  | CatalogDeltaReplayFailed (f : CatalogDeltaReplayFailure)
  | KeystoreUnavailable (s : string)
  | StoragePepperRequired
  | StorageAdoptionRequired
  | StoragePepperInvalid (s : string)
  | UnsupportedStorageVersion (v : Z)
  | StorageIo (s : string)
  | ChunkNotFound (s : string)
  | InvalidChunkName (s : string)
  | NodeNotFound (id : Z)
  | InvalidName (s : string)
  | NameExists (s : string)
  | NotADirectory (id : Z)
  | CannotModifyRoot
  | InvalidPath (s : string)
  | VaultNotUnlocked
  | CatalogRepairRequired (s : string)
  | CatalogRepairUnsafe (s : string)
  | CatalogRepairStale
  | VaultAlreadyUnlocked
  | RekeyAlreadyInProgress
  | RekeyInvalidCurrentPassword
  | RekeyPasswordPolicy (s : string)
  | RekeyCancelled
  | UnknownCommand (s : string)
  | InvalidRequest (s : string)
  | SerializationError (s : string)
  | Panicked.

(** ** Data *)

Inductive NodeType := Dir | File | Symlink.

#[export] Instance NodeType_eq_dec : EqDecision NodeType.
Proof. solve_decision. Defined.

(** [impl From<u8> for NodeType]. *)
Definition NodeType_from_u8 (v : Z) : NodeType :=
  if v =? 0 then Dir else if v =? 1 then File else if v =? 2 then Symlink else Dir.

Definition DEFAULT_CHUNK_SIZE : Z := 16 * 1024.

Inductive CatalogMediaKind := Audio | Video.

Record CatalogMediaByteRange := mkByteRange { br_offset : Z; br_length : Z }.

Record CatalogMediaSegmentRange := mkSegmentRange {
  sr_offset : Z; sr_length : Z; sr_timestamp_us : Z;
}.

Record CatalogMediaStreamingMetadata := mkStreaming {
  duration_ms : option Z;
  bitrate_bps : option Z;
  width : option Z;
  height : option Z;
  fps_millis : option Z;
  moov_at_start : option bool;
  init_segment : option CatalogMediaByteRange;
  media_segments : option (list CatalogMediaSegmentRange);
}.

Record CatalogMediaInfo := mkMediaInfo {
  kind : CatalogMediaKind;
  audio_tracks : Z;
  video_tracks : Z;
  playback_mime_type : option string;
  codec_string : option string;
  mse_fragmented : option bool;
  streaming_metadata : option CatalogMediaStreamingMetadata;
}.

Record CatalogTrashMetadata := mkTrash {
  original_path : string;
  deleted_at : Z;
  trash_name : string;
}.

Inductive CatalogNode : Type := mkNode {
  node_id : Z;
  node_type : NodeType;
  node_name : string;
  node_size : Z;
  chunk_size : Z;
  birthtime : Z;
  modtime : Z;
  mime_type : option string;
  media_info : option CatalogMediaInfo;
  media_inspected_revision : Z;
  source_revision : Z;
  link_to : option string;
  node_trash : option CatalogTrashMetadata;
  children_opt : option (list CatalogNode);
}.

(** ** Field updates *)

Definition set_name (nm : string) (n : CatalogNode) : CatalogNode :=
  mkNode (node_id n) (node_type n) nm (node_size n) (chunk_size n) (birthtime n)
    (modtime n) (mime_type n) (media_info n) (media_inspected_revision n)
    (source_revision n) (link_to n) (node_trash n) (children_opt n).
Definition set_node_size (v : Z) (n : CatalogNode) : CatalogNode :=
  mkNode (node_id n) (node_type n) (node_name n) v (chunk_size n) (birthtime n)
    (modtime n) (mime_type n) (media_info n) (media_inspected_revision n)
    (source_revision n) (link_to n) (node_trash n) (children_opt n).
Definition set_node_chunk_size (v : Z) (n : CatalogNode) : CatalogNode :=
  mkNode (node_id n) (node_type n) (node_name n) (node_size n) v (birthtime n)
    (modtime n) (mime_type n) (media_info n) (media_inspected_revision n)
    (source_revision n) (link_to n) (node_trash n) (children_opt n).
Definition set_modtime (v : Z) (n : CatalogNode) : CatalogNode :=
  mkNode (node_id n) (node_type n) (node_name n) (node_size n) (chunk_size n)
    (birthtime n) v (mime_type n) (media_info n) (media_inspected_revision n)
    (source_revision n) (link_to n) (node_trash n) (children_opt n).
Definition set_mime_type (v : option string) (n : CatalogNode) : CatalogNode :=
  mkNode (node_id n) (node_type n) (node_name n) (node_size n) (chunk_size n)
    (birthtime n) (modtime n) v (media_info n) (media_inspected_revision n)
    (source_revision n) (link_to n) (node_trash n) (children_opt n).
Definition set_media_info (v : option CatalogMediaInfo) (n : CatalogNode) : CatalogNode :=
  mkNode (node_id n) (node_type n) (node_name n) (node_size n) (chunk_size n)
    (birthtime n) (modtime n) (mime_type n) v (media_inspected_revision n)
    (source_revision n) (link_to n) (node_trash n) (children_opt n).
Definition set_media_inspected_revision (v : Z) (n : CatalogNode) : CatalogNode :=
  mkNode (node_id n) (node_type n) (node_name n) (node_size n) (chunk_size n)
    (birthtime n) (modtime n) (mime_type n) (media_info n) v
    (source_revision n) (link_to n) (node_trash n) (children_opt n).
Definition set_source_revision (v : Z) (n : CatalogNode) : CatalogNode :=
  mkNode (node_id n) (node_type n) (node_name n) (node_size n) (chunk_size n)
    (birthtime n) (modtime n) (mime_type n) (media_info n) (media_inspected_revision n)
    v (link_to n) (node_trash n) (children_opt n).
Definition set_trash (v : option CatalogTrashMetadata) (n : CatalogNode) : CatalogNode :=
  mkNode (node_id n) (node_type n) (node_name n) (node_size n) (chunk_size n)
    (birthtime n) (modtime n) (mime_type n) (media_info n) (media_inspected_revision n)
    (source_revision n) (link_to n) v (children_opt n).
Definition set_children (v : option (list CatalogNode)) (n : CatalogNode) : CatalogNode :=
  mkNode (node_id n) (node_type n) (node_name n) (node_size n) (chunk_size n)
    (birthtime n) (modtime n) (mime_type n) (media_info n) (media_inspected_revision n)
    (source_revision n) (link_to n) (node_trash n) v.

(** ** Methods of CatalogNode *)

(** [next_source_revision]; [now] is the clock reading. *)
Definition next_source_revision (now previous : Z) : Z :=
  Z.max (Z.max now (u64_saturating_add previous 1)) 1.

Definition new_root (now : Z) : CatalogNode :=
  mkNode 0 Dir "/" 0 DEFAULT_CHUNK_SIZE now now None None 0 0 None None (Some []).

Definition new_dir (now : Z) (id : Z) (nm : string) : CatalogNode :=
  mkNode id Dir nm 0 DEFAULT_CHUNK_SIZE now now None None 0 0 None None (Some []).

(** [new_file] reads the clock twice: for the times and for the revision. *)
Definition new_file (now now_rev : Z) (id : Z) (nm : string) (sz : Z) (mime : option string)
    : CatalogNode :=
  mkNode id File nm sz DEFAULT_CHUNK_SIZE now now mime None 0
    (next_source_revision now_rev 0) None None None.

Definition is_dir (n : CatalogNode) : bool := bool_decide (node_type n = Dir).
Definition is_file (n : CatalogNode) : bool := bool_decide (node_type n = File).
Definition is_symlink (n : CatalogNode) : bool := bool_decide (node_type n = Symlink).

(** [children()]: the empty slice when there is no child vector. *)
Definition children (n : CatalogNode) : list CatalogNode := default [] (children_opt n).

Definition touch (now : Z) (n : CatalogNode) : CatalogNode := set_modtime now n.

(** [ensure_source_revision]: the returned revision and the node. *)
Definition ensure_source_revision (now : Z) (n : CatalogNode) : Z * CatalogNode :=
  let n' := if is_file n && (source_revision n =? 0)
            then set_source_revision (next_source_revision now 0) n else n in
  (source_revision n', n').

Definition bump_source_revision (now : Z) (n : CatalogNode) : Z * CatalogNode :=
  let n' := if is_file n
            then set_source_revision (next_source_revision now (source_revision n)) n
            else n in
  (source_revision n', n').

Definition has_name (nm : string) (n : CatalogNode) : bool := String.eqb (node_name n) nm.
Definition has_id (id : Z) (n : CatalogNode) : bool := node_id n =? id.

Definition find_child (nm : string) (n : CatalogNode) : option CatalogNode :=
  List.find (has_name nm) (children n).

(** [find_child_mut]: the caller's continuation receives the child and returns
    its result with the child it leaves behind; [None] from the continuation
    aborts the enclosing lookup, as [?] does there. *)
Definition find_child_mut {A} (nm : string) (k : CatalogNode -> option (A * CatalogNode))
    (n : CatalogNode) : option (A * CatalogNode) :=
  match children_opt n with
  | None => None
  | Some cs =>
      match update_first (has_name nm) k cs with
      | Some (a, cs') => Some (a, set_children (Some cs') n)
      | None => None
      end
  end.

Definition add_child (now : Z) (child : CatalogNode) (n : CatalogNode) : bool * CatalogNode :=
  match children_opt n with
  | Some cs => (true, touch now (set_children (Some (cs ++ [child])) n))
  | None => (false, n)
  end.

Definition remove_child (now : Z) (id : Z) (n : CatalogNode) : option CatalogNode * CatalogNode :=
  match children_opt n with
  | None => (None, n)
  | Some cs =>
      match remove_first (has_id id) cs with
      | None => (None, n)
      | Some (removed, cs') => (Some removed, set_modtime now (set_children (Some cs') n))
      end
  end.

Definition has_child (nm : string) (n : CatalogNode) : bool :=
  bool_decide (is_Some (find_child nm n)).

(** [count_nodes]: the node and everything below it. *)
Fixpoint count_nodes (n : CatalogNode) : Z :=
  match n with
  | mkNode _ _ _ _ _ _ _ _ _ _ _ _ _ co =>
      1 + match co with
          | None => 0
          | Some cs => foldr Z.add 0 (map count_nodes cs)
          end
  end.

(** [total_size]: file sizes below the node; [sum::<u64>] wraps at 64 bits. *)
Fixpoint total_size (n : CatalogNode) : Z :=
  match n with
  | mkNode _ ty _ sz _ _ _ _ _ _ _ _ _ co =>
      if bool_decide (ty = File) then sz
      else match co with
           | None => 0
           | Some cs => foldr u64_add 0 (map total_size cs)
           end
  end.

(** ** Paths *)

(** [parse_path]. *)
Definition parse_path (path : string) : list string :=
  List.filter (fun s => negb (string_is_empty s)) (split_char slash path).

(** [validate_name]. *)
Definition validate_name (nm : string) : result Error unit :=
  if string_is_empty nm then Err (InvalidName "name cannot be empty")
  else if contains_char slash nm || contains_char nul nm then
    Err (InvalidName (String.append "name contains invalid characters: " nm))
  else if String.eqb nm "." || String.eqb nm ".." then
    Err (InvalidName (String.append "reserved name: " nm))
  else Ok tt.
