(* ===== verification/CatalogManager.v ===== *)
(** * The catalog manager

    Models [crates/core/src/catalog/manager.rs] and
    [crates/core/src/catalog/traversal.rs]: the tree of nodes, the index from
    node ids to paths, and every operation on them. An operation is a value of
    the state-and-error monad [M]: it returns its [Result] together with the
    manager it leaves behind, also when it fails. *)

From S2P Require Import Prelude.
From S2P Require Import CatalogNode.
From Stdlib Require Import Ascii String.
From stdpp Require Import base gmap strings list pretty.
Open Scope Z_scope.

(** [CatalogManager]. *)
Record CatalogManager := mkManager {
  root : CatalogNode;
  next_node_id : Z;
  node_index : gmap Z (list string);
  version : Z;
}.

Definition set_root (r : CatalogNode) (m : CatalogManager) : CatalogManager :=
  mkManager r (next_node_id m) (node_index m) (version m).
Definition set_next (x : Z) (m : CatalogManager) : CatalogManager :=
  mkManager (root m) x (node_index m) (version m).
Definition set_index (ix : gmap Z (list string)) (m : CatalogManager) : CatalogManager :=
  mkManager (root m) (next_node_id m) ix (version m).
Definition set_version (v : Z) (m : CatalogManager) : CatalogManager :=
  mkManager (root m) (next_node_id m) (node_index m) v.

Definition ROOT_NODE_ID : Z := 0.
Definition PASSMANAGER_NODE_ID : Z := 1.
Definition FIRST_USER_NODE_ID : Z := PASSMANAGER_NODE_ID + 1.
Definition TRASH_ROOT_PATH : string := "/.trash".
Definition TRASH_SHARD_ID : string := ".trash".

(** ** The monad of catalog operations *)

Definition M (A : Type) : Type := CatalogManager -> result Error A * CatalogManager.

#[export] Instance M_ret : MRet M := fun A a m => (Ok a, m).
#[export] Instance M_bind : MBind M := fun A B f c m =>
  match c m with
  | (Ok a, m') => f a m'
  | (Err e, m') => (Err e, m')
  end.

Definition self : M CatalogManager := fun m => (Ok m, m).
Definition modify (f : CatalogManager -> CatalogManager) : M unit := fun m => (Ok tt, f m).
Definition lift {A} (r : result Error A) : M A := fun m => (r, m).
Definition throw {A} (e : Error) : M A := lift (Err e).

(** [let snapshot = self.clone(); match inner { Err(e) => { *self = snapshot; Err(e) } }]. *)
Definition atomically {A} (c : M A) : M A := fun m =>
  match c m with
  | (Ok a, m') => (Ok a, m')
  | (Err e, _) => (Err e, m)
  end.

(** ** Traversal (traversal.rs) *)

(** [collect_entries_into]: appends (id, path) in preorder, returns the largest id. *)
Fixpoint collect_entries_into (path : list string) (n : CatalogNode)
    (entries : list (Z * list string)) : Z * list (Z * list string) :=
  match n with
  | mkNode id _ nm _ _ _ _ _ _ _ _ _ _ co =>
      let path := path ++ [nm] in
      let entries := entries ++ [(id, path)] in
      match co with
      | None => (id, entries)
      | Some cs =>
          foldl (fun acc child =>
                   let '(max_id, entries) := acc in
                   let '(sub_max, entries) := collect_entries_into path child entries in
                   (Z.max max_id sub_max, entries))
                (id, entries) cs
      end
  end.

Definition rebuild_index (m : CatalogManager) : CatalogManager :=
  let '(max_id, entries) := collect_entries_into [] (root m) [] in
  mkManager (root m) (Z.max FIRST_USER_NODE_ID (u64_add max_id 1))
    (foldl (fun ix e => <[fst e := snd e]> ix) ∅ entries) (version m).

Definition skip_part (part : string) : bool := string_is_empty part || String.eqb part "/".

Fixpoint find_by_parts (parts : list string) (current : CatalogNode) : option CatalogNode :=
  match parts with
  | [] => Some current
  | part :: parts' =>
      if skip_part part then find_by_parts parts' current
      else match find_child part current with
           | None => None
           | Some c => find_by_parts parts' c
           end
  end.

Definition find_by_path (m : CatalogManager) (path : string) : option CatalogNode :=
  find_by_parts (parse_path path) (root m).

(** [find_by_parts_mut]: the continuation is the code that runs under the borrow. *)
Fixpoint find_by_parts_mut {A} (parts : list string) (k : CatalogNode -> option (A * CatalogNode))
    (current : CatalogNode) : option (A * CatalogNode) :=
  match parts with
  | [] => k current
  | part :: parts' =>
      if skip_part part then find_by_parts_mut parts' k current
      else find_child_mut part (find_by_parts_mut parts' k) current
  end.

(** [find_by_path_mut(path).ok_or(err)?], then code under the borrow. *)
Definition with_path_mut {A} (path : string) (err : Error) (k : CatalogNode -> A * CatalogNode)
    : M A := fun m =>
  match find_by_parts_mut (parse_path path) (fun n => Some (k n)) (root m) with
  | Some (a, r) => (Ok a, set_root r m)
  | None => (Err err, m)
  end.

Definition find_by_id (m : CatalogManager) (id : Z) : option CatalogNode :=
  match node_index m !! id with
  | None => None
  | Some path => find_by_path m (str_join "/" path)
  end.

(** [find_by_id_mut(id).ok_or(NodeNotFound(id))?], then code under the borrow. *)
Definition with_id_mut {A} (id : Z) (k : CatalogNode -> A * CatalogNode) : M A := fun m =>
  match node_index m !! id with
  | None => (Err (NodeNotFound id), m)
  | Some path => with_path_mut (str_join "/" path) (NodeNotFound id) k m
  end.

Fixpoint collect_descendant_ids (n : CatalogNode) : list Z :=
  match n with
  | mkNode _ _ _ _ _ _ _ _ _ _ _ _ _ co =>
      match co with
      | None => []
      | Some cs => concat (map (fun c => node_id c :: collect_descendant_ids c) cs)
      end
  end.

Definition remove_from_index (id : Z) (m : CatalogManager) : CatalogManager :=
  let to_remove := id :: match find_by_id m id with
                         | Some n => collect_descendant_ids n
                         | None => []
                         end in
  set_index (foldl (fun ix i => delete i ix) (node_index m) to_remove) m.

Definition list_path (m : CatalogManager) (path : string) : result Error (list CatalogNode) :=
  n ← ok_or (find_by_path m path) (InvalidPath path);
  if negb (is_dir n) then Err (NotADirectory (node_id n)) else Ok (children n).

(** The string [get_path] builds from an index path. *)
Definition path_string (path : list string) : string :=
  match List.filter (fun p => negb (string_is_empty p) && negb (String.eqb p "/")) path with
  | [] => "/"
  | parts => String.append "/" (str_join "/" parts)
  end.

Definition get_path (m : CatalogManager) (id : Z) : option string :=
  path_string <$> node_index m !! id.

(** ** Construction (manager.rs) *)

Definition new (now : Z) : CatalogManager :=
  mkManager (new_root now) FIRST_USER_NODE_ID {[ROOT_NODE_ID := ["/"]]} 0.

Definition from_root (r : CatalogNode) : CatalogManager :=
  rebuild_index (mkManager r FIRST_USER_NODE_ID ∅ 0).

Definition from_root_with_version (r : CatalogNode) (v : Z) : CatalogManager :=
  set_version v (from_root r).

(** Replaces the first child of that name or appends; the version stays. *)
Definition upsert_root_child (node : CatalogNode) (m : CatalogManager) : CatalogManager :=
  let r := match children_opt (root m) with
           | None => root m
           | Some cs =>
               match update_first (has_name (node_name node)) (fun _ => Some (tt, node)) cs with
               | Some (_, cs') => set_children (Some cs') (root m)
               | None => set_children (Some (cs ++ [node])) (root m)
               end
           end in
  rebuild_index (set_root r m).

(** ** Operations (manager.rs) *)

Definition bump_version : M unit := modify (fun m => set_version (u64_add (version m) 1) m).

Definition alloc_node_id : M Z := fun m =>
  (Ok (next_node_id m), set_next (u64_add (next_node_id m) 1) m).

Definition reserve_node_id : M Z := alloc_node_id.

Definition set_chunk_size (clk : clock) (id : Z) (sz : Z) : M unit :=
  with_id_mut id (fun n => (tt, touch (clk 0%nat) (set_node_chunk_size sz n))).

(** The checks both creation functions make on the parent; its id. *)
Definition check_parent (m : CatalogManager) (parent_path nm : string) : result Error Z :=
  parent ← ok_or (find_by_path m parent_path) (InvalidPath parent_path);
  if negb (is_dir parent) then Err (NotADirectory (node_id parent))
  else if has_child nm parent then Err (NameExists nm)
  else Ok (node_id parent).

(** Index entry for a node called [nm] under [parent_node_id]. *)
Definition index_under (parent_node_id : Z) (nm : string) (id : Z) (m : CatalogManager)
    : CatalogManager :=
  let path := default [] (node_index m !! parent_node_id) ++ [nm] in
  set_index (<[id := path]> (node_index m)) m.

Definition create_dir (clk : clock) (parent_path nm : string) : M Z :=
  lift (validate_name nm);;
  m ← self;
  parent_node_id ← lift (check_parent m parent_path nm);
  id ← alloc_node_id;
  let node := new_dir (clk 0%nat) id nm in
  modify (index_under parent_node_id nm id);;
  with_path_mut parent_path (InvalidPath parent_path) (add_child (clk 1%nat) node);;
  bump_version;;
  mret id.

Definition create_file_with_id (clk : clock) (parent_path nm : string) (id sz : Z)
    (mime : option string) : M Z :=
  lift (validate_name nm);;
  m ← self;
  (if bool_decide (is_Some (node_index m !! id)) then throw (NameExists nm) else mret tt);;
  parent_node_id ← lift (check_parent m parent_path nm);
  let node := new_file (clk 0%nat) (clk 1%nat) id nm sz mime in
  modify (fun m => set_next (Z.max (next_node_id m) (u64_saturating_add id 1)) m);;
  modify (index_under parent_node_id nm id);;
  with_path_mut parent_path (InvalidPath parent_path) (add_child (clk 2%nat) node);;
  bump_version;;
  mret id.

Definition create_file (clk : clock) (parent_path nm : string) (sz : Z) (mime : option string)
    : M Z :=
  id ← alloc_node_id;
  create_file_with_id clk parent_path nm id sz mime.

(** The path string of the parent: everything but the last index component. *)
Definition parent_join (path : list string) : string :=
  if bool_decide (1 < length path)%nat then str_join "/" (take (length path - 1) path) else "/".

(** [for id in ids { if let Some(p) = index.get_mut(&id) { p[depth] = nm } }];
    [None] when an index is out of range. *)
Fixpoint rename_index (depth : nat) (nm : string) (ids : list Z) (ix : gmap Z (list string))
    : option (gmap Z (list string)) :=
  match ids with
  | [] => Some ix
  | id :: ids' =>
      match ix !! id with
      | None => rename_index depth nm ids' ix
      | Some p =>
          if bool_decide (depth < length p)%nat
          then rename_index depth nm ids' (<[id := <[depth := nm]> p]> ix)
          else None
      end
  end.

Definition rename (clk : clock) (id : Z) (new_name : string) : M unit :=
  if id =? 0 then throw CannotModifyRoot else
  lift (validate_name new_name);;
  m ← self;
  path ← lift (ok_or (node_index m !! id) (NodeNotFound id));
  let parent_path := parent_join path in
  let old_name := default EmptyString (last path) in
  if String.eqb new_name old_name then mret tt else
  parent ← lift (ok_or (find_by_path m parent_path) (InvalidPath parent_path));
  if has_child new_name parent then throw (NameExists new_name) else
  found ← with_path_mut parent_path (InvalidPath parent_path) (fun parent =>
    match find_child_mut old_name
            (fun n => let n := touch (clk 0%nat) (set_name new_name n) in
                      Some (id :: collect_descendant_ids n, n)) parent with
    | Some (ids, parent) => (Ok ids, parent)
    | None => (Err (NodeNotFound id), parent)
    end);
  renamed_ids ← lift found;
  m ← self;
  ix ← lift (ok_or (rename_index (length path - 1) new_name renamed_ids (node_index m)) Panicked);
  modify (set_index ix);;
  bump_version.

(** The index update at the end of a move. *)
Definition move_index (old_prefix_len : nat) (new_path_prefix : list string) (ids : list Z)
    (ix : gmap Z (list string)) : gmap Z (list string) :=
  foldl (fun ix id =>
    match ix !! id with
    | Some p =>
        if bool_decide (old_prefix_len <= length p)%nat
        then <[id := new_path_prefix ++ drop old_prefix_len p]> ix
        else ix
    | None => ix
    end) ix ids.

(** What the destination directory says about the moved node: the id of the
    node it replaces, if any. *)
Definition check_destination (new_parent : CatalogNode) (destination_name : string) (id : Z)
    (source_is_dir replace_existing : bool) : result Error (option Z) :=
  match find_child destination_name new_parent with
  | Some existing =>
      if node_id existing =? id then Ok None
      else if negb replace_existing then Err (NameExists destination_name)
      else if is_dir existing || source_is_dir then Err (NameExists destination_name)
      else Ok (Some (node_id existing))
  | None => Ok None
  end.

(** Removes the file a move replaces. *)
Definition move_replace (clk : clock) (new_parent_path : string) (replace_node_id : option Z)
    : M unit :=
  match replace_node_id with
  | Some rid =>
      removed ← with_path_mut new_parent_path (InvalidPath new_parent_path)
                  (remove_child (clk 0%nat) rid);
      lift (ok_or removed (NodeNotFound rid));;
      modify (remove_from_index rid)
  | None => mret tt
  end.

(** Detaches the node, attaches it at its destination and updates the index. *)
Definition move_subtree (clk : clock) (id : Z) (current_path : list string)
    (new_parent_path : string) (new_parent_id : Z) (destination_name : string) : M unit :=
  let old_parent_path := parent_join current_path in
  removed ← with_path_mut old_parent_path (InvalidPath old_parent_path)
              (remove_child (clk 1%nat) id);
  node ← lift (ok_or removed (NodeNotFound id));
  let node := if String.eqb (node_name node) destination_name then node
              else set_name destination_name node in
  let node := touch (clk 2%nat) node in
  let moved_ids := id :: collect_descendant_ids node in
  with_path_mut new_parent_path (InvalidPath new_parent_path) (add_child (clk 3%nat) node);;
  modify (fun m =>
    let new_path_prefix := default [] (node_index m !! new_parent_id) ++ [destination_name] in
    set_index (move_index (length current_path) new_path_prefix moved_ids (node_index m)) m);;
  bump_version.

(** The target lies at or below the node: [current_path] is a prefix of its path. *)
Definition is_below (current_path : list string) (target_path : option (list string)) : bool :=
  match target_path with
  | Some target_path => bool_decide (length current_path <= length target_path)%nat
                        && bool_decide (take (length current_path) target_path = current_path)
  | None => false
  end.

Definition move_node_with_options_inner (clk : clock) (id : Z) (new_parent_path : string)
    (new_name : option string) (replace_existing : bool) : M unit :=
  if id =? 0 then throw CannotModifyRoot else
  m ← self;
  current_path ← lift (ok_or (node_index m !! id) (NodeNotFound id));
  let old_parent_path := parent_join current_path in
  nm ← lift (ok_or (last current_path) (NodeNotFound id));
  let destination_name := default nm new_name in
  lift (validate_name destination_name);;
  let old_parent_id := node_id <$> find_by_path m old_parent_path in
  let new_parent_id := node_id <$> find_by_path m new_parent_path in
  if bool_decide (is_Some old_parent_id) && bool_decide (old_parent_id = new_parent_id)
     && String.eqb destination_name nm
  then mret tt else
  new_parent ← lift (ok_or (find_by_path m new_parent_path) (InvalidPath new_parent_path));
  let new_parent_id := node_id new_parent in
  if negb (is_dir new_parent) then throw (NotADirectory (node_id new_parent)) else
  if new_parent_id =? id then throw (InvalidPath new_parent_path) else
  if is_below current_path (node_index m !! new_parent_id)
  then throw (InvalidPath new_parent_path) else
  source ← lift (ok_or (find_by_id m id) (NodeNotFound id));
  replace_node_id ← lift (check_destination new_parent destination_name id (is_dir source)
                            replace_existing);
  move_replace clk new_parent_path replace_node_id;;
  move_subtree clk id current_path new_parent_path new_parent_id destination_name.

Definition move_node_with_options (clk : clock) (id : Z) (new_parent_path : string)
    (new_name : option string) (replace_existing : bool) : M unit :=
  atomically (move_node_with_options_inner clk id new_parent_path new_name replace_existing).

Definition move_node (clk : clock) (id : Z) (new_parent_path : string) : M unit :=
  move_node_with_options clk id new_parent_path None false.

Definition delete_node (clk : clock) (id : Z) : M unit :=
  if id =? 0 then throw CannotModifyRoot else
  m ← self;
  path ← lift (ok_or (node_index m !! id) (NodeNotFound id));
  let parent_path := parent_join path in
  removed ← with_path_mut parent_path (InvalidPath parent_path) (remove_child (clk 0%nat) id);
  match removed with
  | Some _ => modify (remove_from_index id);; bump_version
  | None => mret tt
  end.

(** ** Trash *)

(** [split_parent_and_name]. *)
Definition split_parent_and_name (path : string) : option (string * string) :=
  let parts := List.filter (fun p => negb (string_is_empty p)) (split_char slash path) in
  match last parts with
  | None => None
  | Some nm =>
      let parent := if bool_decide (length parts = 1%nat) then "/"%string
                    else String.append "/" (str_join "/" (take (length parts - 1) parts)) in
      Some (parent, nm)
  end.

Definition ensure_trash_root (clk : clock) : M Z :=
  m ← self;
  match find_by_path m TRASH_ROOT_PATH with
  | Some n => if is_dir n then mret (node_id n) else throw (NotADirectory (node_id n))
  | None => create_dir clk "/" TRASH_SHARD_ID
  end.

(** The loop [for counter in 1..=10_000]: [fuel] candidates from [counter] on. *)
Fixpoint unique_trash_loop (base : string) (trash_root : CatalogNode) (fuel : nat) (counter : Z)
    : result Error string :=
  match fuel with
  | O => Err (NameExists base)
  | S fuel' =>
      let candidate := String.append base (String.append "." (show_u64 counter)) in
      validate_name candidate ≫= fun _ =>
      if negb (has_child candidate trash_root) then Ok candidate
      else unique_trash_loop base trash_root fuel' (counter + 1)
  end.

Definition unique_trash_name (m : CatalogManager) (original_name : string) (id : Z)
    : result Error string :=
  let base := String.append original_name
                (String.append "." (String.append (show_u64 id) ".trash")) in
  validate_name base ≫= fun _ =>
  trash_root ← ok_or (find_by_path m TRASH_ROOT_PATH) (InvalidPath TRASH_ROOT_PATH);
  if negb (has_child base trash_root) then Ok base
  else unique_trash_loop base trash_root (Z.to_nat 10000) 1.

Definition trash_node_inner (clk : clock) (id : Z) : M CatalogNode :=
  if id =? ROOT_NODE_ID then throw CannotModifyRoot else
  m ← self;
  original ← lift (ok_or (get_path m id) (NodeNotFound id));
  if String.eqb original TRASH_ROOT_PATH || starts_with "/.trash/" original
  then throw (InvalidPath original) else
  ensure_trash_root clk;;
  m ← self;
  n ← lift (ok_or (find_by_id m id) (NodeNotFound id));
  tname ← lift (unique_trash_name m (node_name n) id);
  let deleted := clk 2%nat in
  with_id_mut id (fun n => (tt, set_trash (Some (mkTrash original deleted tname)) n));;
  move_node_with_options_inner (later 3 clk) id TRASH_ROOT_PATH (Some tname) false;;
  m ← self;
  lift (ok_or (find_by_id m id) (NodeNotFound id)).

Definition trash_node (clk : clock) (id : Z) : M CatalogNode :=
  atomically (trash_node_inner clk id).

Definition list_trash (m : CatalogManager) : result Error (list CatalogNode) :=
  match find_by_path m TRASH_ROOT_PATH with
  | Some n => if is_dir n then Ok (children n) else Err (NotADirectory (node_id n))
  | None => Ok []
  end.

Definition restore_trashed_node_inner (clk : clock) (id : Z)
    (restore_parent_path restore_name : option string) : M CatalogNode :=
  if id =? ROOT_NODE_ID then throw CannotModifyRoot else
  m ← self;
  current ← lift (ok_or (get_path m id) (NodeNotFound id));
  if String.eqb current TRASH_ROOT_PATH || negb (starts_with "/.trash/" current)
  then throw (InvalidPath current) else
  trash ← lift (ok_or (n ← find_by_id m id; node_trash n) (InvalidPath current));
  names ← lift (ok_or (split_parent_and_name (original_path trash))
                  (InvalidPath (original_path trash)));
  let '(original_parent, original_name) := names in
  let destination_parent := default original_parent restore_parent_path in
  let destination_name := default original_name restore_name in
  lift (validate_name destination_name);;
  parent ← lift (ok_or (find_by_path m destination_parent) (InvalidPath destination_parent));
  if has_child destination_name parent then throw (NameExists destination_name) else
  with_id_mut id (fun n => (tt, set_trash None n));;
  move_node_with_options_inner clk id destination_parent (Some destination_name) false;;
  m ← self;
  lift (ok_or (find_by_id m id) (NodeNotFound id)).

Definition restore_trashed_node (clk : clock) (id : Z)
    (restore_parent_path restore_name : option string) : M CatalogNode :=
  atomically (restore_trashed_node_inner clk id restore_parent_path restore_name).

(** The loop of [empty_trash_inner]; each round's deletion reads the clock once. *)
Fixpoint empty_trash_loop (clk : clock) (ids : list Z) (removed : list CatalogNode)
    : M (list CatalogNode) :=
  match ids with
  | [] => mret removed
  | id :: ids' =>
      m ← self;
      let removed := removed ++ match find_by_id m id with Some n => [n] | None => [] end in
      delete_node clk id;;
      empty_trash_loop (later 1 clk) ids' removed
  end.

Definition empty_trash_inner (clk : clock) : M (list CatalogNode) :=
  m ← self;
  match find_by_path m TRASH_ROOT_PATH with
  | Some n => if is_dir n then empty_trash_loop clk (map node_id (children n)) []
              else throw (NotADirectory (node_id n))
  | None => mret []
  end.

Definition empty_trash (clk : clock) : M (list CatalogNode) :=
  atomically (empty_trash_inner clk).

(** ** Exchange *)

(** [parent_path_from_index]. *)
Definition parent_path_from_index (path : list string) : result Error string :=
  if bool_decide (length path <= 1)%nat then Err CannotModifyRoot
  else if bool_decide (length path = 2%nat) then Ok "/"%string
  else Ok (String.append "/" (str_join "/" (drop 1 (take (length path - 1) path)))).

Definition is_path_prefix (left right : list string) : bool :=
  bool_decide (length left < length right)%nat
  && bool_decide (take (length left) right = left).

Definition detach_child (clk : clock) (parent_path : string) (id : Z) : M CatalogNode :=
  removed ← with_path_mut parent_path (InvalidPath parent_path) (remove_child (clk 0%nat) id);
  lift (ok_or removed (NodeNotFound id)).

Definition attach_child (clk : clock) (parent_path : string) (node : CatalogNode) : M unit :=
  r ← with_path_mut parent_path (InvalidPath parent_path) (fun parent =>
    if negb (is_dir parent) then (Err (NotADirectory (node_id parent)), parent)
    else if has_child (node_name node) parent then (Err (NameExists (node_name node)), parent)
    else let '(_, parent) := add_child (clk 0%nat) node parent in (Ok tt, parent));
  lift r.

(** The exchange of two children of one directory: their names are swapped in place. *)
Definition exchange_siblings (clk : clock) (src_id dst_id : Z) (src_name dst_name : string)
    (parent : CatalogNode) : result Error unit * CatalogNode :=
  match children_opt parent with
  | None => (Err (NotADirectory (node_id parent)), parent)
  | Some cs =>
      match position (has_id src_id) cs with
      | None => (Err (NodeNotFound src_id), parent)
      | Some src_pos =>
          match position (has_id dst_id) cs with
          | None => (Err (NodeNotFound dst_id), parent)
          | Some dst_pos =>
              let cs := alter (fun n => touch (clk 0%nat) (set_name dst_name n)) src_pos cs in
              let cs := alter (fun n => touch (clk 1%nat) (set_name src_name n)) dst_pos cs in
              (Ok tt, touch (clk 2%nat) (set_children (Some cs) parent))
          end
      end
  end.

Definition exchange_nodes_inner (clk : clock) (src_id dst_id : Z) : M unit :=
  if (src_id =? ROOT_NODE_ID) || (dst_id =? ROOT_NODE_ID) then throw CannotModifyRoot else
  if src_id =? dst_id then mret tt else
  m ← self;
  src_path ← lift (ok_or (node_index m !! src_id) (NodeNotFound src_id));
  dst_path ← lift (ok_or (node_index m !! dst_id) (NodeNotFound dst_id));
  if is_path_prefix src_path dst_path || is_path_prefix dst_path src_path
  then throw (InvalidPath "cannot exchange ancestor and descendant") else
  src ← lift (ok_or (find_by_id m src_id) (NodeNotFound src_id));
  dst ← lift (ok_or (find_by_id m dst_id) (NodeNotFound dst_id));
  if negb (bool_decide (node_type src = node_type dst))
  then throw (InvalidPath "exchange requires same node type") else
  src_parent_path ← lift (parent_path_from_index src_path);
  dst_parent_path ← lift (parent_path_from_index dst_path);
  src_name ← lift (ok_or (last src_path) (NodeNotFound src_id));
  dst_name ← lift (ok_or (last dst_path) (NodeNotFound dst_id));
  (if String.eqb src_parent_path dst_parent_path then
     r ← with_path_mut src_parent_path (InvalidPath src_parent_path)
           (exchange_siblings clk src_id dst_id src_name dst_name);
     lift r
   else
     src_node ← detach_child clk src_parent_path src_id;
     dst_node ← detach_child (later 1 clk) dst_parent_path dst_id;
     let src_node := touch (clk 2%nat) (set_name dst_name src_node) in
     let dst_node := touch (clk 3%nat) (set_name src_name dst_node) in
     attach_child (later 4 clk) dst_parent_path src_node;;
     attach_child (later 5 clk) src_parent_path dst_node);;
  bump_version;;
  modify rebuild_index.

Definition exchange_nodes (clk : clock) (src_id dst_id : Z) : M unit :=
  atomically (exchange_nodes_inner clk src_id dst_id).
