(* ===== verification/CatalogTree.v ===== *)
(** * Theory of catalog trees

    Facts about [CatalogNode] trees that every client of the catalog uses: an
    induction principle, well-formedness, the preorder walk that lists every
    node with its path, and the focus lemma, which splits a tree at the node a
    path leads to and says what a mutation under that path does to the walk. *)

From S2P Require Import Prelude.
From S2P Require Import CatalogNode.
From S2P Require Import CatalogManager.
From Stdlib Require Import Ascii String.
From stdpp Require Import base gmap strings list.
Open Scope Z_scope.

(** ** Induction *)

Lemma node_ind (P : CatalogNode -> Prop) :
  (forall n, Forall P (children n) -> P n) -> forall n, P n.
Proof.
  intros Hstep. fix IH 1. intros n. apply Hstep.
  destruct n as [id ty nm sz ch bt mt mi me mr sr lt tr co]. cbn.
  destruct co as [cs|]; cbn; [|constructor].
  induction cs as [|c cs IHcs]; constructor; [apply IH | apply IHcs].
Qed.

Lemma set_children_id n cs : children_opt n = Some cs -> set_children (Some cs) n = n.
Proof. destruct n; cbn. by intros ->. Qed.

Lemma children_Some n cs : children_opt n = Some cs -> children n = cs.
Proof. unfold children. by intros ->. Qed.

Lemma children_in_opt n c : c ∈ children n -> exists cs, children_opt n = Some cs /\ c ∈ cs.
Proof.
  unfold children. destruct (children_opt n) as [cs|]; cbn; [eauto|]. by intros ?%not_elem_of_nil.
Qed.

Lemma count_nodes_eq n : count_nodes n = 1 + foldr Z.add 0 (map count_nodes (children n)).
Proof. by destruct n as [?????????????[]]. Qed.

Lemma total_size_eq n :
  total_size n = if is_file n then node_size n
                 else foldr u64_add 0 (map total_size (children n)).
Proof. by destruct n as [?????????????[]]. Qed.

(** ** Names *)

Definition name_ok (nm : string) : bool := is_ok (validate_name nm).

Lemma name_ok_spec nm :
  name_ok nm = true <->
  nm <> EmptyString /\ contains_char slash nm = false /\ contains_char nul nm = false
  /\ nm <> "."%string /\ nm <> ".."%string.
Proof.
  unfold name_ok, validate_name. destruct (string_is_empty nm) eqn:Ee.
  { destruct nm; [|done]. split; [done|]. by intros [? _]. }
  assert (nm <> EmptyString) by (intros ->; discriminate Ee).
  destruct (contains_char slash nm) eqn:Hs; cbn.
  { split; [done|]. by intros (_ & ? & _). }
  destruct (contains_char nul nm) eqn:Hn; cbn.
  { split; [done|]. by intros (_ & _ & ? & _). }
  destruct (String.eqb_spec nm "."), (String.eqb_spec nm ".."); cbn; split; intros; tauto || done.
Qed.

Lemma name_ok_validate nm : name_ok nm = true -> validate_name nm = Ok tt.
Proof. unfold name_ok. destruct (validate_name nm) as [[]|]; [done|done]. Qed.

Lemma validate_name_ok nm u : validate_name nm = Ok u -> name_ok nm = true.
Proof. unfold name_ok. by intros ->. Qed.

Lemma validate_name_err nm e : validate_name nm = Err e -> exists s, e = InvalidName s.
Proof.
  unfold validate_name. destruct (string_is_empty nm); [intros [= <-]; eauto|].
  destruct (_ || _); [intros [= <-]; eauto|]. destruct (_ || _); [intros [= <-]; eauto|done].
Qed.

(** A path component the lookup does not skip and splitting does not cut. *)
Definition part_ok (p : string) : Prop := p <> EmptyString /\ contains_char slash p = false.

Lemma name_ok_part nm : name_ok nm = true -> part_ok nm.
Proof. intros (? & ? & _)%name_ok_spec. by split. Qed.

Lemma part_ok_skip p : part_ok p -> skip_part p = false.
Proof.
  intros [Hne Hs]. unfold skip_part. apply orb_false_iff. split; [by destruct p|].
  apply String.eqb_neq. intros ->. discriminate Hs.
Qed.

Lemma parse_path_parts path : Forall part_ok (parse_path path).
Proof.
  unfold parse_path, part_ok. apply Forall_forall. intros p [Hin Hp]%list_elem_of_In%filter_In.
  pose proof (split_char_pieces slash path) as Hall.
  rewrite Forall_forall in Hall. split; [by destruct p|].
  by apply Hall, list_elem_of_In.
Qed.

Lemma filter_nonempty_parts qs :
  Forall part_ok qs -> List.filter (fun s => negb (string_is_empty s)) qs = qs.
Proof.
  induction 1 as [|q qs [Hq _] _ IH]; [done|]. destruct q; [done|]. cbn. by rewrite IH.
Qed.

Lemma parse_path_join qs : Forall part_ok qs -> parse_path (str_join "/" qs) = qs.
Proof.
  intros Hqs. destruct (decide (qs = [])) as [->|Hne]; [done|].
  unfold parse_path. rewrite split_char_join; [by apply filter_nonempty_parts|done|].
  eapply Forall_impl; [done|]. by intros p [_ ?].
Qed.

Lemma parse_path_slash s : parse_path (String slash s) = parse_path s.
Proof. done. Qed.

(** Reading back an index path joined with slashes. *)
Lemma parse_path_sep p nm :
  part_ok nm -> parse_path (String.append p (String slash nm)) = parse_path p ++ [nm].
Proof.
  intros Hok. unfold parse_path. rewrite split_char_sep, List.filter_app. f_equal.
  rewrite split_char_none by apply Hok. cbn. by destruct nm; [destruct Hok|].
Qed.

Lemma parse_index_path qs : Forall part_ok qs -> parse_path (str_join "/" ("/"%string :: qs)) = qs.
Proof.
  intros Hqs. destruct qs as [|q qs]; [done|].
  change (str_join "/" ("/"%string :: q :: qs))
    with (String slash (String slash (str_join "/" (q :: qs)))).
  rewrite !parse_path_slash. by apply parse_path_join.
Qed.

(** ** Well-formed trees *)

(** Directories have a child vector and nothing else has one; children have
    valid, pairwise different names; and so on below. *)
Fixpoint wf_node (n : CatalogNode) : bool :=
  match n with
  | mkNode _ ty _ _ _ _ _ _ _ _ _ _ _ co =>
      match co with
      | None => negb (bool_decide (ty = Dir))
      | Some cs =>
          bool_decide (ty = Dir)
          && forallb (fun c => name_ok (node_name c)) cs
          && bool_decide (NoDup (map node_name cs))
          && forallb wf_node cs
      end
  end.

Lemma forallb_Forall {A} (p : A -> bool) l : forallb p l = true <-> Forall (fun x => p x = true) l.
Proof. rewrite forallb_forall, Forall_forall. setoid_rewrite list_elem_of_In. done. Qed.

Lemma wf_node_leaf n : children_opt n = None -> wf_node n = negb (is_dir n).
Proof. destruct n; cbn. by intros ->. Qed.

Lemma wf_node_dir n cs :
  children_opt n = Some cs ->
  wf_node n = true <->
  node_type n = Dir /\ Forall (fun c => name_ok (node_name c) = true) cs
  /\ NoDup (map node_name cs) /\ Forall (fun c => wf_node c = true) cs.
Proof.
  destruct n; cbn. intros ->.
  rewrite !andb_true_iff, !bool_decide_eq_true, !forallb_Forall. tauto.
Qed.

Lemma wf_is_dir n : wf_node n = true -> is_dir n = true -> exists cs, children_opt n = Some cs.
Proof.
  intros Hwf Hd. destruct (children_opt n) eqn:E; [eauto|].
  rewrite wf_node_leaf in Hwf by done. by rewrite Hd in Hwf.
Qed.

Lemma wf_children_Some n cs : wf_node n = true -> children_opt n = Some cs -> is_dir n = true.
Proof. intros Hwf E. apply (wf_node_dir n cs E) in Hwf as [? _]. unfold is_dir. by apply bool_decide_eq_true. Qed.

Lemma find_by_name cs c :
  NoDup (map node_name cs) -> c ∈ cs -> List.find (has_name (node_name c)) cs = Some c.
Proof.
  induction cs as [|d cs IH]; [by intros _ ?%not_elem_of_nil|]. cbn.
  intros [Hd Hnd]%NoDup_cons [->|Hin]%elem_of_cons; unfold has_name at 1.
  - by rewrite String.eqb_refl.
  - destruct (String.eqb_spec (node_name d) (node_name c)) as [E|_]; [|by apply IH].
    exfalso. apply Hd. rewrite E. by apply list_elem_of_fmap_2.
Qed.

Lemma has_name_true nm n : has_name nm n = true <-> node_name n = nm.
Proof. apply String.eqb_eq. Qed.

Lemma find_child_Some nm n c :
  find_child nm n = Some c -> node_name c = nm /\ c ∈ children n.
Proof.
  intros [Hin Hn%has_name_true]%List.find_some. split; [done|]. by apply list_elem_of_In.
Qed.

Lemma has_child_false nm n : has_child nm n = false <-> nm ∉ map node_name (children n).
Proof.
  unfold has_child, find_child. rewrite bool_decide_eq_false, <- eq_None_not_Some.
  rewrite find_None_Forall, Forall_forall. setoid_rewrite list_elem_of_fmap.
  split.
  - intros H (c & -> & Hc). specialize (H c Hc). unfold has_name in H.
    by rewrite String.eqb_refl in H.
  - intros H c Hc. unfold has_name. apply String.eqb_neq. intros E. apply H. eauto.
Qed.

(** ** The preorder walk *)

(** Every node below (and including) [n]: id, type and path from the root. *)
Fixpoint walk (pre : list string) (n : CatalogNode) : list (Z * NodeType * list string) :=
  match n with
  | mkNode id ty nm _ _ _ _ _ _ _ _ _ _ co =>
      (id, ty, pre ++ [nm]) ::
      match co with
      | None => []
      | Some cs => concat (map (walk (pre ++ [nm])) cs)
      end
  end.

Abbreviation walk_list pre cs := (concat (map (walk pre) cs)).

Definition entry_id (e : Z * NodeType * list string) : Z := fst (fst e).
Definition entry_path (e : Z * NodeType * list string) : list string := snd e.

(** The ids of a tree, in preorder. *)
Definition ids (n : CatalogNode) : list Z := map entry_id (walk [] n).

Lemma walk_eq pre n :
  walk pre n = (node_id n, node_type n, pre ++ [node_name n])
               :: walk_list (pre ++ [node_name n]) (children n).
Proof. by destruct n as [?????????????[]]. Qed.

Lemma walk_list_app pre cs cs' :
  walk_list pre (cs ++ cs') = walk_list pre cs ++ walk_list pre cs'.
Proof. by rewrite map_app, concat_app. Qed.

Lemma walk_list_cons pre c cs : walk_list pre (c :: cs) = walk pre c ++ walk_list pre cs.
Proof. done. Qed.

Lemma elem_of_walk_list pre cs e : e ∈ walk_list pre cs <-> exists c, c ∈ cs /\ e ∈ walk pre c.
Proof.
  rewrite list_elem_of_In, in_concat. setoid_rewrite in_map_iff. split.
  - intros (x & (c & <- & Hc) & He). exists c. by rewrite !list_elem_of_In.
  - intros (c & Hc%list_elem_of_In & He%list_elem_of_In). eauto.
Qed.

(** Ids do not depend on where the tree hangs. *)
Lemma walk_ids pre pre' n : map entry_id (walk pre n) = map entry_id (walk pre' n).
Proof.
  revert pre pre'. induction n as [n IH] using node_ind. intros pre pre'.
  rewrite !(walk_eq _ n). cbn. f_equal. rewrite !concat_map, !map_map. f_equal.
  apply map_ext_in. intros c Hc. rewrite Forall_forall in IH. apply IH. by apply list_elem_of_In.
Qed.

Lemma walk_ids_nil pre n : map entry_id (walk pre n) = ids n.
Proof. apply walk_ids. Qed.

Lemma collect_descendant_ids_eq n :
  collect_descendant_ids n = concat (map (fun c => node_id c :: collect_descendant_ids c) (children n)).
Proof. by destruct n as [?????????????[]]. Qed.

(** [collect_descendant_ids] lists the ids below a node. *)
Lemma ids_descendants n : ids n = node_id n :: collect_descendant_ids n.
Proof.
  unfold ids. generalize (@nil string) as pre. induction n as [n IH] using node_ind. intros pre.
  rewrite walk_eq, collect_descendant_ids_eq. cbn. f_equal. rewrite concat_map, map_map. f_equal.
  apply map_ext_in. intros c Hc. rewrite Forall_forall in IH. apply IH. by apply list_elem_of_In.
Qed.

(** Moving a tree rewrites exactly the prefix of every path below it. *)
Definition reroot (k : nat) (new : list string) (e : Z * NodeType * list string)
    : Z * NodeType * list string := (fst e, new ++ drop k (snd e)).

Lemma walk_prefix pre n e : e ∈ walk pre n -> exists qs, snd e = (pre ++ [node_name n]) ++ qs.
Proof.
  revert pre. induction n as [n IH] using node_ind. intros pre. rewrite walk_eq.
  intros [->|(c & Hc & He)%elem_of_walk_list]%elem_of_cons.
  - exists []. by rewrite app_nil_r.
  - rewrite Forall_forall in IH. apply (IH c Hc) in He as (qs & ->).
    eexists. by rewrite <- !app_assoc.
Qed.

Lemma walk_reroot pre pre' n n' :
  children n' = children n -> node_id n' = node_id n -> node_type n' = node_type n ->
  walk pre' n' = map (reroot (S (length pre)) (pre' ++ [node_name n'])) (walk pre n).
Proof.
  revert n' pre pre'. induction n as [n IH] using node_ind. intros n' pre pre' Hc Hid Hty.
  rewrite !walk_eq. cbn. rewrite Hc, Hid, Hty. f_equal.
  - unfold reroot. cbn. rewrite drop_ge by (rewrite length_app; cbn; lia). by rewrite app_nil_r.
  - rewrite concat_map, map_map. f_equal. apply map_ext_in. intros c Hcin.
    rewrite Forall_forall in IH.
    rewrite (IH c ltac:(by apply list_elem_of_In) c (pre ++ [node_name n]) (pre' ++ [node_name n']))
      by done.
    apply map_ext_in. intros e He. unfold reroot. f_equal.
    apply list_elem_of_In, walk_prefix in He as (qs & ->).
    rewrite !length_app. cbn. rewrite <- !app_assoc. cbn.
    rewrite (drop_app_ge pre) by lia.
    rewrite (drop_app_ge pre) by lia.
    replace (S (length pre + 1) - length pre)%nat with 2%nat by lia.
    replace (S (length pre) - length pre)%nat with 1%nat by lia. done.
Qed.

(** ** The focus lemma *)

(** [m] is what [qs] leads to in [n]; [plug] puts another node in its place;
    [L] and [R] are the parts of the walk before and after it. *)
Record is_focus (pre qs : list string) (n m : CatalogNode) (plug : CatalogNode -> CatalogNode)
    (L R : list (Z * NodeType * list string)) (pre' : list string) : Prop := {
  foc_self : plug m = n;
  foc_path : pre' ++ [node_name m] = pre ++ node_name n :: qs;
  foc_find m' : node_name m' = node_name m -> find_by_parts qs (plug m') = Some m';
  foc_mut A (k : CatalogNode -> option (A * CatalogNode)) :
    find_by_parts_mut qs k n =
      match k m with Some (a, m') => Some (a, plug m') | None => None end;
  foc_walk m' : walk pre (plug m') = L ++ walk pre' m' ++ R;
  foc_wf_sub : wf_node n = true -> wf_node m = true;
  foc_wf m' : node_name m' = node_name m -> wf_node n = true -> wf_node m' = true ->
    wf_node (plug m') = true;
  foc_name m' : node_name m' = node_name m -> node_name (plug m') = node_name n;
  foc_id m' : node_id m' = node_id m -> node_id (plug m') = node_id n;
  foc_type m' : node_type m' = node_type m -> node_type (plug m') = node_type n;
}.

Lemma focus_nil pre n : is_focus pre [] n n (fun m => m) [] [] pre.
Proof.
  split; try done.
  - intros A k. cbn. by destruct (k n) as [[]|].
  - intros m'. cbn. by rewrite app_nil_r.
Qed.

Lemma focus_cons pre q qs n l1 c l2 m plug L R pre' :
  skip_part q = false ->
  children_opt n = Some (l1 ++ c :: l2) ->
  node_name c = q -> Forall (fun d => has_name q d = false) l1 ->
  is_focus (pre ++ [node_name n]) qs c m plug L R pre' ->
  is_focus pre (q :: qs) n m
    (fun m' => set_children (Some (l1 ++ plug m' :: l2)) n)
    ((node_id n, node_type n, pre ++ [node_name n])
       :: walk_list (pre ++ [node_name n]) l1 ++ L)
    (R ++ walk_list (pre ++ [node_name n]) l2)
    pre'.
Proof.
  intros Hskip Hco Hc Hl1 [Hself Hpath Hfind Hmut Hwalk Hsub Hwf Hname Hid Hty].
  split.
  - rewrite Hself. by apply set_children_id.
  - rewrite Hpath, Hc, <- app_assoc. done.
  - intros m' Hm'. cbn. rewrite Hskip. unfold find_child, children. cbn.
    rewrite find_app_skip; [by apply Hfind|done|]. apply has_name_true. by rewrite Hname.
  - intros A k. cbn. rewrite Hskip. unfold find_child_mut. rewrite Hco.
    rewrite update_first_split; [|done|by apply has_name_true].
    rewrite Hmut. by destruct (k m) as [[a m']|].
  - intros m'. rewrite walk_eq. cbn. f_equal.
    unfold children. cbn. rewrite walk_list_app, walk_list_cons, Hwalk. by rewrite <- !app_assoc.
  - intros Hn. apply Hsub. apply (wf_node_dir _ _ Hco) in Hn as (_ & _ & _ & Hall).
    rewrite Forall_forall in Hall. apply Hall. set_solver.
  - intros m' Hm' Hn Hwfm'.
    apply (wf_node_dir _ _ Hco) in Hn as (Hdir & Hok & Hnd & Hall).
    apply (wf_node_dir _ (l1 ++ plug m' :: l2)); [done|].
    rewrite Forall_app, Forall_cons in Hok. rewrite Forall_app, Forall_cons in Hall.
    rewrite !Forall_app, !Forall_cons. rewrite map_app in *. cbn in *.
    rewrite Hname by done. destruct Hall as (? & Hwfc & ?), Hok as (? & ? & ?).
    pose proof (Hwf m' Hm' Hwfc Hwfm'). by repeat split.
  - done.
  - done.
  - done.
Qed.

Lemma find_focus pre qs n m :
  Forall part_ok qs -> find_by_parts qs n = Some m ->
  exists plug L R pre', is_focus pre qs n m plug L R pre'.
Proof.
  intros Hqs. revert pre n. induction Hqs as [|q qs Hq Hqs IH]; intros pre n; cbn.
  - intros [= ->]. do 4 eexists. apply focus_nil.
  - rewrite part_ok_skip by done.
    destruct (find_child q n) as [c|] eqn:Ec; [|done]. intros Hm.
    destruct (IH (pre ++ [node_name n]) c Hm) as (plug & L & R & pre' & Hfoc).
    unfold find_child in Ec. apply find_split in Ec as (l1 & l2 & Hcs & Hn%has_name_true & Hl1).
    assert (children_opt n = Some (l1 ++ c :: l2)) as Hco.
    { unfold children in Hcs. destruct (children_opt n); cbn in Hcs; [congruence|].
      by destruct l1. }
    do 4 eexists. eapply focus_cons; eauto. by apply part_ok_skip.
Qed.

Lemma focus_mid pre qs n m plug L R pre' :
  is_focus pre qs n m plug L R pre' -> walk pre n = L ++ walk pre' m ++ R.
Proof. intros Hf. rewrite <- (foc_self _ _ _ _ _ _ _ _ Hf) at 1. apply Hf. Qed.

(** What a path leads to is listed in the walk under that path. *)
Lemma find_in_walk pre qs n m :
  Forall part_ok qs -> find_by_parts qs n = Some m ->
  (node_id m, node_type m, pre ++ node_name n :: qs) ∈ walk pre n.
Proof.
  intros Hqs Hm. destruct (find_focus pre qs n m Hqs Hm) as (plug & L & R & pre' & Hf).
  rewrite (focus_mid _ _ _ _ _ _ _ _ Hf), walk_eq, (foc_path _ _ _ _ _ _ _ _ Hf). set_solver.
Qed.

(** Conversely, every listed path leads to the node listed there. *)
Lemma walk_find pre n i ty p :
  wf_node n = true -> (i, ty, p) ∈ walk pre n ->
  exists qs m, p = pre ++ node_name n :: qs /\ Forall (fun q => name_ok q = true) qs
    /\ find_by_parts qs n = Some m /\ node_id m = i /\ node_type m = ty.
Proof.
  revert pre i ty p. induction n as [n IH] using node_ind. intros pre i ty p Hwf.
  rewrite walk_eq. intros [[= -> -> ->]|(c & Hc & He)%elem_of_walk_list]%elem_of_cons.
  - exists [], n. by repeat split.
  - rewrite Forall_forall in IH.
    destruct (children_in_opt n c Hc) as (cs & Hco & Hcs).
    apply (wf_node_dir _ _ Hco) in Hwf as (_ & Hok & Hnd & Hall).
    rewrite Forall_forall in Hok, Hall.
    destruct (IH c Hc _ _ _ _ (Hall c Hcs) He) as (qs & m & -> & Hqs & Hm & <- & <-).
    exists (node_name c :: qs), m. repeat split.
    + by rewrite <- app_assoc.
    + constructor; [by apply Hok|done].
    + cbn. rewrite part_ok_skip by (apply name_ok_part, Hok; done).
      unfold find_child. rewrite (children_Some _ _ Hco).
      rewrite find_by_name by done. done.
Qed.

Lemma name_ok_parts qs : Forall (fun q => name_ok q = true) qs -> Forall part_ok qs.
Proof. intros H. eapply Forall_impl; [done|]. apply name_ok_part. Qed.

#[export] Hint Resolve name_ok_part name_ok_parts part_ok_skip parse_path_parts : catalog.
