(* ===== verification/CatalogInvariant.v ===== *)
(** * The invariant of the catalog manager, and tree surgery

    [catalog_inv] is what every operation of the manager maintains: the tree is
    well formed, ids are unique and below the allocator, and the index holds the
    path of every node of the tree. The section lemmas describe what attaching,
    detaching and editing a node under a path does to the tree's walk; the
    operations' proofs (CatalogOps, CatalogMove) are compositions of them. *)

From S2P Require Import Prelude.
From S2P Require Import CatalogNode.
From S2P Require Import CatalogManager.
From S2P Require Import CatalogTree.
From Stdlib Require Import Ascii String.
From stdpp Require Import base gmap strings list.
Open Scope Z_scope.

Record catalog_inv (m : CatalogManager) : Prop := {
  inv_root_id : node_id (root m) = ROOT_NODE_ID;
  inv_root_name : node_name (root m) = "/"%string;
  inv_root_dir : is_dir (root m) = true;
  inv_wf : wf_node (root m) = true;
  inv_nodup : NoDup (ids (root m));
  inv_complete i ty p : (i, ty, p) ∈ walk [] (root m) -> node_index m !! i = Some p;
  inv_fresh i p : node_index m !! i = Some p -> 0 <= i < next_node_id m;
  inv_next : FIRST_USER_NODE_ID <= next_node_id m <= U64_MAX;
}.

(** An id the index knows only if the tree has it, where the index says. *)
Definition id_coherent (m : CatalogManager) (i : Z) : Prop :=
  forall p, node_index m !! i = Some p -> exists ty, (i, ty, p) ∈ walk [] (root m).

(** The index lists the nodes of the tree and nothing else. *)
Definition index_exact (m : CatalogManager) : Prop := forall i, id_coherent m i.

(** Every id the index tells the truth about keeps being told the truth about. *)
Definition coherent_le (m m' : CatalogManager) : Prop :=
  forall i, id_coherent m i -> id_coherent m' i.

#[export] Instance coherent_le_preorder : PreOrder coherent_le.
Proof. split; [by intros m i|]. intros m1 m2 m3 H1 H2 i Hi. by apply H2, H1. Qed.

Lemma coherent_le_exact m m' : coherent_le m m' -> index_exact m -> index_exact m'.
Proof. intros H Hex i. apply H, Hex. Qed.

(** ** An executable form, for concrete managers *)

Definition catalog_inv_check (m : CatalogManager) : bool :=
  bool_decide (node_id (root m) = ROOT_NODE_ID)
  && bool_decide (node_name (root m) = "/"%string)
  && is_dir (root m) && wf_node (root m) && bool_decide (NoDup (ids (root m)))
  && forallb (fun e => bool_decide (node_index m !! entry_id e = Some (entry_path e)))
       (walk [] (root m))
  && forallb (fun e => bool_decide (0 <= fst e < next_node_id m)) (map_to_list (node_index m))
  && bool_decide (FIRST_USER_NODE_ID <= next_node_id m <= U64_MAX).

Definition index_exact_check (m : CatalogManager) : bool :=
  forallb (fun e => existsb (fun w => bool_decide (entry_id w = fst e /\ entry_path w = snd e))
                      (walk [] (root m)))
    (map_to_list (node_index m)).

Lemma catalog_inv_check_sound m : catalog_inv_check m = true -> catalog_inv m.
Proof.
  unfold catalog_inv_check. rewrite !andb_true_iff, !forallb_Forall, !bool_decide_eq_true.
  rewrite !Forall_forall. setoid_rewrite bool_decide_eq_true.
  intros [[[[[[[H1 H2] H3] H4] H5] H6] H7] H8]. split; try done.
  - by apply bool_decide_eq_true.
  - intros i ty p Hin. apply (H6 (i, ty, p) Hin).
  - intros i p Hin. apply (H7 (i, p)). by apply elem_of_map_to_list.
Qed.

Lemma index_exact_check_sound m : index_exact_check m = true -> index_exact m.
Proof.
  unfold index_exact_check. rewrite forallb_Forall, Forall_forall. intros H i p Hp.
  apply elem_of_map_to_list in Hp. apply H in Hp.
  apply existsb_exists in Hp as ([[j ty] q] & Hin & [E1 E2]%bool_decide_eq_true).
  cbn in E1, E2. subst. exists ty. by apply list_elem_of_In.
Qed.

(** ** Lookups under the invariant *)

Lemma inv_find_path m path n :
  catalog_inv m -> find_by_path m path = Some n ->
  (node_id n, node_type n, "/"%string :: parse_path path) ∈ walk [] (root m).
Proof.
  intros Hinv Hn. apply (find_in_walk []) in Hn; [|apply parse_path_parts].
  by rewrite (inv_root_name _ Hinv) in Hn.
Qed.

Lemma inv_walk_find m i ty p :
  catalog_inv m -> (i, ty, p) ∈ walk [] (root m) ->
  exists qs n, p = "/"%string :: qs /\ Forall (fun q => name_ok q = true) qs
    /\ find_by_parts qs (root m) = Some n /\ node_id n = i /\ node_type n = ty.
Proof.
  intros Hinv Hin. apply walk_find in Hin as (qs & n & -> & ?); [|apply Hinv].
  exists qs, n. by rewrite (inv_root_name _ Hinv).
Qed.

(** Every listed node is found through its id. *)
Lemma inv_find_by_id m i ty p :
  catalog_inv m -> (i, ty, p) ∈ walk [] (root m) ->
  exists n, find_by_id m i = Some n /\ node_id n = i /\ node_type n = ty.
Proof.
  intros Hinv Hin. destruct (inv_walk_find m i ty p Hinv Hin) as (qs & n & -> & Hqs & Hn & Hi & Ht).
  exists n. split; [|done]. unfold find_by_id. rewrite (inv_complete _ Hinv _ _ _ Hin).
  unfold find_by_path. by rewrite parse_index_path by eauto with catalog.
Qed.

(** Paths are unique in a well-formed tree. *)
Lemma walk_paths_nodup pre n : wf_node n = true -> NoDup (map entry_path (walk pre n)).
Proof.
  revert pre. induction n as [n IH] using node_ind. intros pre Hwf. rewrite walk_eq. cbn.
  destruct (children_opt n) as [cs|] eqn:Hco.
  2: { unfold children. rewrite Hco. cbn. apply NoDup_cons. split; [set_solver|constructor]. }
  rewrite (children_Some _ _ Hco) in *.
  apply (wf_node_dir _ _ Hco) in Hwf as (_ & _ & Hnd & Hall). apply NoDup_cons. split.
  - intros (e & He & (c & Hc & Hin)%elem_of_walk_list)%list_elem_of_fmap.
    apply walk_prefix in Hin as (qs & Hqs). unfold entry_path in He. rewrite Hqs in He.
    apply (f_equal length) in He. rewrite !length_app in He. cbn in He. lia.
  - clear Hco. induction cs as [|c cs IHcs]; [constructor|].
    rewrite walk_list_cons, map_app. apply NoDup_cons in Hnd as [Hc Hnd].
    inversion IH as [|?? IHc IHl]; subst. inversion Hall as [|?? Hwc Hwl]; subst.
    apply NoDup_app. split_and!; [by apply IHc| |by apply IHcs].
    intros q (e & -> & He)%list_elem_of_fmap (e' & He' & (d & Hd & Hin)%elem_of_walk_list)%list_elem_of_fmap.
    apply walk_prefix in He as (q1 & E1), Hin as (q2 & E2). unfold entry_path in He'.
    rewrite E1, E2, <- !app_assoc in He'. apply app_inv_head in He' as [= E _].
    apply Hc. rewrite E. by apply list_elem_of_fmap_2.
Qed.

Lemma walk_path_inj pre n e e' :
  wf_node n = true -> e ∈ walk pre n -> e' ∈ walk pre n -> entry_path e = entry_path e' -> e = e'.
Proof.
  intros Hwf He He' Hp. pose proof (walk_paths_nodup pre n Hwf) as Hnd.
  apply list_elem_of_lookup in He as [i Hi], He' as [j Hj].
  assert (i = j) as ->.
  { eapply NoDup_lookup; [exact Hnd| |].
    - rewrite list_lookup_fmap, Hi. done.
    - rewrite list_lookup_fmap, Hj. cbn. by rewrite Hp. }
  congruence.
Qed.

(** ** Lookups and children *)

Lemma find_by_parts_app qs qs' n :
  find_by_parts (qs ++ qs') n = (c ← find_by_parts qs n; find_by_parts qs' c).
Proof.
  revert n. induction qs as [|q qs IH]; intros n; [done|]. cbn.
  destruct (skip_part q); [apply IH|]. destruct (find_child q n); [apply IH|done].
Qed.

Lemma find_by_parts_mut_none {A} qs (k : CatalogNode -> option (A * CatalogNode)) n :
  find_by_parts qs n = None -> find_by_parts_mut qs k n = None.
Proof.
  revert n. induction qs as [|q qs IH]; intros n; [done|]. cbn.
  destruct (skip_part q); [apply IH|]. unfold find_child, find_child_mut, children.
  destruct (children_opt n) as [cs|]; cbn; [|done].
  destruct (List.find (has_name q) cs) as [c|] eqn:Ef; intros H.
  - apply find_split in Ef as (l1 & l2 & -> & Hc & Hl1).
    rewrite update_first_split by done. by rewrite IH.
  - by rewrite update_first_none.
Qed.

(** A listed path ends at a child of the node its parent path leads to. *)
Lemma walk_find_child pre r i ty qs x :
  wf_node r = true -> (i, ty, pre ++ node_name r :: qs ++ [x]) ∈ walk pre r ->
  exists parent c, find_by_parts qs r = Some parent /\ find_child x parent = Some c
    /\ node_id c = i /\ node_type c = ty /\ node_name c = x /\ c ∈ children parent
    /\ Forall (fun q => name_ok q = true) qs /\ name_ok x = true.
Proof.
  intros Hwf Hin. apply walk_find in Hin as (qs' & c & E & Hqs & Hc & Hi & Ht); [|done].
  apply app_inv_head in E as [= <-]. apply Forall_app in Hqs as [Hqs Hx].
  apply Forall_cons in Hx as [Hx _].
  rewrite find_by_parts_app in Hc. destruct (find_by_parts qs r) as [parent|]; [|done].
  cbn in Hc. rewrite (part_ok_skip x) in Hc by (by apply name_ok_part).
  destruct (find_child x parent) as [c'|] eqn:Ec; [|done]. injection Hc as ->.
  destruct (find_child_Some _ _ _ Ec) as [Hn Hin]. exists parent, c. by split_and!.
Qed.

Lemma find_child_in_walk pre r qs parent c :
  Forall part_ok qs -> find_by_parts qs r = Some parent -> c ∈ children parent ->
  (node_id c, node_type c, pre ++ node_name r :: qs ++ [node_name c]) ∈ walk pre r.
Proof.
  intros Hqs Hp Hc. destruct (find_focus pre qs r parent Hqs Hp) as (plug & L & R & pre' & Hf).
  rewrite (focus_mid _ _ _ _ _ _ _ _ Hf), (walk_eq _ parent), (foc_path _ _ _ _ _ _ _ _ Hf).
  apply elem_of_app. right. apply elem_of_app. left. apply elem_of_cons. right.
  apply elem_of_walk_list. exists c. split; [done|]. rewrite walk_eq, <- app_assoc.
  apply elem_of_cons. by left.
Qed.

Lemma has_child_walk pre r qs parent nm :
  wf_node r = true -> Forall part_ok qs -> find_by_parts qs r = Some parent ->
  has_child nm parent = false <->
  (forall i ty, (i, ty, pre ++ node_name r :: qs ++ [nm]) ∉ walk pre r).
Proof.
  intros Hwf Hqs Hp. rewrite has_child_false, list_elem_of_fmap. split.
  - intros Hno i ty Hin. apply walk_find_child in Hin as (p & c & Hp' & _ & _ & _ & Hn & Hc & _); [|done].
    apply Hno. exists c. split; [done|]. congruence.
  - intros Hno (c & -> & Hc). eapply Hno. by eapply find_child_in_walk.
Qed.

Lemma ids_eq n : ids n = node_id n :: concat (map ids (children n)).
Proof.
  unfold ids. rewrite walk_eq. cbn. f_equal. rewrite concat_map, map_map. f_equal.
  apply map_ext. intros c. apply walk_ids.
Qed.

Lemma children_ids_nodup n : NoDup (ids n) -> NoDup (map node_id (children n)).
Proof.
  rewrite ids_eq. intros [_ Hnd]%NoDup_cons. induction (children n) as [|c cs IH]; [constructor|].
  cbn in *. apply NoDup_app in Hnd as (_ & Hdisj & Hnd). apply NoDup_cons. split; [|by apply IH].
  intros (d & Hd & Hin)%list_elem_of_fmap. apply (Hdisj (node_id c)).
  - rewrite ids_eq. set_solver.
  - apply list_elem_of_In, in_concat. exists (ids d). rewrite <- !list_elem_of_In. split.
    + by apply list_elem_of_fmap_2.
    + rewrite ids_eq, Hd. set_solver.
Qed.

Lemma focus_ids_nodup pre qs n m plug L R pre' :
  is_focus pre qs n m plug L R pre' -> NoDup (ids n) -> NoDup (ids m).
Proof.
  intros Hf. rewrite <- (walk_ids_nil pre n), <- (walk_ids_nil pre' m).
  rewrite (focus_mid _ _ _ _ _ _ _ _ Hf), !map_app.
  intros (_ & _ & (? & _ & _)%NoDup_app)%NoDup_app. done.
Qed.

Lemma remove_first_by_id cs c :
  NoDup (map node_id cs) -> c ∈ cs ->
  exists l1 l2, cs = l1 ++ c :: l2 /\ remove_first (has_id (node_id c)) cs = Some (c, l1 ++ l2).
Proof.
  intros Hnd (l1 & l2 & ->)%list_elem_of_split. exists l1, l2. split; [done|].
  rewrite map_app in Hnd. cbn in Hnd. apply NoDup_app in Hnd as (_ & Hdisj & _).
  apply remove_first_app; [|apply Z.eqb_refl]. apply Forall_forall. intros d Hd.
  apply Z.eqb_neq. intros E. apply (Hdisj (node_id d)); [by apply list_elem_of_fmap_2|].
  rewrite E. set_solver.
Qed.

(** ** Surgery *)

Definition same_root (r r' : CatalogNode) : Prop :=
  node_id r' = node_id r /\ node_name r' = node_name r /\ node_type r' = node_type r.

Lemma with_path_mut_focus m path n :
  find_by_path m path = Some n ->
  exists plug L R pre', is_focus [] (parse_path path) (root m) n plug L R pre' /\
    forall A err (k : CatalogNode -> A * CatalogNode),
      with_path_mut path err k m = (Ok (fst (k n)), set_root (plug (snd (k n))) m).
Proof.
  intros Hn. destruct (find_focus [] _ _ _ (parse_path_parts path) Hn) as (plug & L & R & pre' & Hf).
  exists plug, L, R, pre'. split; [done|]. intros A err k. unfold with_path_mut.
  rewrite (foc_mut _ _ _ _ _ _ _ _ Hf). by destruct (k n).
Qed.

Lemma with_path_mut_none {A} m path err (k : CatalogNode -> A * CatalogNode) :
  find_by_path m path = None -> with_path_mut path err k m = (Err err, m).
Proof. intros H. unfold with_path_mut. by rewrite find_by_parts_mut_none. Qed.

Lemma focus_same_root pre qs n m plug L R pre' m' :
  is_focus pre qs n m plug L R pre' -> same_root m m' -> same_root n (plug m').
Proof. intros Hf (Hi & Hn & Ht). split_and!; by apply Hf. Qed.

(** Attaching a well-formed subtree under a name the directory does not have. *)
Lemma attach_run m path err now node parent :
  wf_node (root m) = true -> find_by_path m path = Some parent -> is_dir parent = true ->
  has_child (node_name node) parent = false -> name_ok (node_name node) = true ->
  wf_node node = true ->
  exists r', with_path_mut path err (add_child now node) m = (Ok true, set_root r' m)
    /\ wf_node r' = true /\ same_root (root m) r'
    /\ walk [] r' ≡ₚ walk [] (root m) ++ walk (node_name (root m) :: parse_path path) node
    /\ find_by_parts (parse_path path ++ [node_name node]) r' = Some node.
Proof.
  intros Hwf Hp Hdir Hno Hok Hwn.
  destruct (with_path_mut_focus m path parent Hp) as (plug & L & R & pre' & Hf & Hrun).
  pose proof (foc_wf_sub _ _ _ _ _ _ _ _ Hf Hwf) as Hwp.
  destruct (wf_is_dir _ Hwp Hdir) as (cs & Hco).
  set (p' := touch now (set_children (Some (cs ++ [node])) parent)).
  assert (add_child now node parent = (true, p')) as Hadd by (unfold add_child; by rewrite Hco).
  exists (plug p'). rewrite (Hrun _ err (add_child now node)), Hadd. split; [done|].
  split_and!.
  - apply (foc_wf _ _ _ _ _ _ _ _ Hf); [done|done|].
    apply (wf_node_dir p' (cs ++ [node])); [done|].
    destruct (proj1 (wf_node_dir _ _ Hco) Hwp) as (Ht & Hoks & Hnd & Hall).
    rewrite !Forall_app, !Forall_singleton, map_app. split_and!; try done.
    apply NoDup_app. split_and!; [done| |by apply NoDup_singleton].
    intros x Hx Ex%list_elem_of_singleton. subst x. apply has_child_false in Hno.
    by rewrite (children_Some _ _ Hco) in Hno.
  - by eapply focus_same_root; [done|].
  - rewrite (focus_mid _ _ _ _ _ _ _ _ Hf), (foc_walk _ _ _ _ _ _ _ _ Hf).
    rewrite (walk_eq _ p'), (walk_eq _ parent), (children_Some _ _ Hco). cbn.
    rewrite (foc_path _ _ _ _ _ _ _ _ Hf). cbn.
    unfold children. cbn. rewrite walk_list_app. cbn. rewrite app_nil_r. solve_Permutation.
  - rewrite find_by_parts_app, (foc_find _ _ _ _ _ _ _ _ Hf) by done. cbn.
    rewrite part_ok_skip by (by apply name_ok_part). unfold find_child. change (children p') with (cs ++ [node]).
    rewrite find_app_skip; [done| |by apply has_name_true].
    apply has_child_false in Hno. rewrite (children_Some _ _ Hco), list_elem_of_fmap in Hno.
    apply Forall_forall. intros d Hd. apply not_true_iff_false. rewrite has_name_true.
    intros E. apply Hno. by exists d.
Qed.

(** Detaching a child. *)
Lemma detach_run m path err now parent c :
  wf_node (root m) = true -> NoDup (ids (root m)) ->
  find_by_path m path = Some parent -> c ∈ children parent ->
  exists r', with_path_mut path err (remove_child now (node_id c)) m = (Ok (Some c), set_root r' m)
    /\ wf_node r' = true /\ same_root (root m) r'
    /\ walk [] (root m) ≡ₚ walk [] r' ++ walk (node_name (root m) :: parse_path path) c.
Proof.
  intros Hwf Hnd Hp Hc.
  destruct (with_path_mut_focus m path parent Hp) as (plug & L & R & pre' & Hf & Hrun).
  pose proof (foc_wf_sub _ _ _ _ _ _ _ _ Hf Hwf) as Hwp.
  destruct (children_in_opt _ _ Hc) as (cs & Hco & Hcs).
  pose proof (children_ids_nodup _ (focus_ids_nodup _ _ _ _ _ _ _ _ Hf Hnd)) as Hcnd.
  rewrite (children_Some _ _ Hco) in Hcnd.
  destruct (remove_first_by_id cs c Hcnd Hcs) as (l1 & l2 & Hsplit & Hrem).
  set (p' := set_modtime now (set_children (Some (l1 ++ l2)) parent)).
  assert (remove_child now (node_id c) parent = (Some c, p')) as Hrm
    by (unfold remove_child; by rewrite Hco, Hrem).
  exists (plug p'). rewrite (Hrun _ err (remove_child now (node_id c))), Hrm. split; [done|].
  split_and!.
  - apply (foc_wf _ _ _ _ _ _ _ _ Hf); [done|done|].
    apply (wf_node_dir p' (l1 ++ l2)); [done|]. subst cs.
    destruct (proj1 (wf_node_dir _ _ Hco) Hwp) as (Ht & Hoks & Hnds & Hall).
    rewrite Forall_app, Forall_cons in Hoks, Hall. rewrite map_app in Hnds. cbn in Hnds.
    destruct Hoks as (? & _ & ?), Hall as (? & _ & ?).
    rewrite !Forall_app, map_app. split_and!; try done.
    apply NoDup_app in Hnds as (? & Hdisj & [_ ?]%NoDup_cons).
    apply NoDup_app. split_and!; [done| |done]. intros x Hx Hx2. apply (Hdisj x Hx). apply elem_of_cons. by right.
  - by eapply focus_same_root; [done|].
  - rewrite (focus_mid _ _ _ _ _ _ _ _ Hf), (foc_walk _ _ _ _ _ _ _ _ Hf).
    rewrite (walk_eq _ p'), (walk_eq _ parent), (children_Some _ _ Hco). cbn.
    rewrite (foc_path _ _ _ _ _ _ _ _ Hf). cbn.
    unfold children. cbn. rewrite Hsplit, !walk_list_app. cbn. solve_Permutation.
Qed.

(** Editing a node without touching its id, type, name or children. *)
Definition same_shape (n n' : CatalogNode) : Prop :=
  same_root n n' /\ children_opt n' = children_opt n.

Lemma same_shape_walk pre n n' : same_shape n n' -> walk pre n' = walk pre n.
Proof.
  intros [(Hi & Hn & Ht) Hc]. rewrite !walk_eq. unfold children. by rewrite Hi, Hn, Ht, Hc.
Qed.

Lemma same_shape_wf n n' : same_shape n n' -> wf_node n' = wf_node n.
Proof.
  intros [(Hi & Hn & Ht) Hc]. destruct n as [?????????????co], n' as [?????????????co'].
  cbn in *. subst. done.
Qed.

Lemma edit_run {A} m path err (k : CatalogNode -> A * CatalogNode) n :
  wf_node (root m) = true -> find_by_path m path = Some n -> same_shape n (snd (k n)) ->
  exists r', with_path_mut path err k m = (Ok (fst (k n)), set_root r' m)
    /\ wf_node r' = true /\ same_root (root m) r' /\ walk [] r' = walk [] (root m)
    /\ find_by_parts (parse_path path) r' = Some (snd (k n)).
Proof.
  intros Hwf Hn Hs.
  destruct (with_path_mut_focus m path n Hn) as (plug & L & R & pre' & Hf & Hrun).
  exists (plug (snd (k n))). rewrite Hrun. split; [done|].
  pose proof (foc_wf_sub _ _ _ _ _ _ _ _ Hf Hwf) as Hwn.
  destruct Hs as [Hr Hc]. split_and!.
  - apply (foc_wf _ _ _ _ _ _ _ _ Hf); [apply Hr|done|]. by rewrite (same_shape_wf n).
  - by eapply focus_same_root.
  - rewrite (focus_mid _ _ _ _ _ _ _ _ Hf), (foc_walk _ _ _ _ _ _ _ _ Hf).
    by rewrite (same_shape_walk _ n).
  - apply (foc_find _ _ _ _ _ _ _ _ Hf), Hr.
Qed.
