(* ===== verification/CatalogOps.v ===== *)
(** * Catalog operations: construction, creation, renaming, deletion

    For each operation: a run lemma that says, under the invariant, exactly
    which branch it takes and what it leaves behind, and from it the invariant. *)

From S2P Require Import Prelude.
From S2P Require Import CatalogNode.
From S2P Require Import CatalogManager.
From S2P Require Import CatalogTree.
From S2P Require Import CatalogInvariant.
From Stdlib Require Import Ascii String.
From stdpp Require Import base gmap strings list.
Open Scope Z_scope.

(** ** Rebuilding the index *)

Abbreviation index_entries w := (map (fun e => (entry_id e, entry_path e)) w).

Lemma collect_entries_eq path n es :
  snd (collect_entries_into path n es) = es ++ index_entries (walk path n).
Proof.
  revert path es. induction n as [n IH] using node_ind. intros path es.
  destruct n as [id ty nm sz ch bt mt mi me mr sr lt tr co]. destruct co as [cs|]; [|done].
  cbn in *. rewrite concat_map. cbn.
  assert (forall mx es0, snd (foldl (fun acc child =>
      let '(max_id, entries) := acc in
      let '(sub_max, entries) := collect_entries_into (path ++ [nm]) child entries in
      (Z.max max_id sub_max, entries)) (mx, es0) cs)
      = es0 ++ concat (map (fun w => index_entries w) (map (walk (path ++ [nm])) cs))) as Hl.
  { induction IH as [|c cs Hc _ IHcs]; intros mx es0; cbn; [by rewrite app_nil_r|].
    destruct (collect_entries_into (path ++ [nm]) c es0) as [sub es1] eqn:Ec.
    rewrite IHcs. pose proof (Hc (path ++ [nm]) es0) as E. rewrite Ec in E. cbn in E. subst es1.
    by rewrite <- app_assoc. }
  rewrite Hl. by rewrite <- app_assoc.
Qed.

Lemma collect_entries_max path n es :
  fst (collect_entries_into path n es) ∈ ids n
  /\ Forall (fun i => i <= fst (collect_entries_into path n es)) (ids n).
Proof.
  revert path es. induction n as [n IH] using node_ind. intros path es. rewrite ids_eq.
  destruct n as [id ty nm sz ch bt mt mi me mr sr lt tr co].
  destruct co as [cs|]; [|by repeat constructor]. cbn in *.
  set (f := fun acc child => _). set (es1 := es ++ [(id, path ++ [nm])]).
  assert (forall mx es0, exists m1, fst (foldl f (mx, es0) cs) = m1 /\ mx <= m1
      /\ (m1 = mx \/ m1 ∈ concat (map ids cs)) /\ Forall (fun i => i <= m1) (concat (map ids cs))) as Hl.
  { clear es1. induction IH as [|c cs Hc _ IHcs]; intros mx es0.
    - exists mx. split_and!; [done|lia|by left|constructor].
    - cbn. destruct (Hc (path ++ [nm]) es0) as [Hin Hmax].
      destruct (collect_entries_into (path ++ [nm]) c es0) as [sub es1]. cbn in Hin, Hmax.
      destruct (IHcs (Z.max mx sub) es1) as (m1 & E & Hle & Hor & Hall).
      exists m1. split_and!; [done|lia| |].
      + destruct Hor as [->|]; [|right; by apply elem_of_app; right].
        destruct (Z.max_spec mx sub) as [[_ ->]|[_ ->]]; [|by left].
        right. apply elem_of_app. by left.
      + apply Forall_app. split; [|done]. eapply Forall_impl; [exact Hmax|]. cbn. lia. }
  destruct (Hl id es1) as (m1 & E & Hle & Hor & Hall). fold f. rewrite E. split.
  - apply elem_of_cons. tauto.
  - by constructor.
Qed.

Lemma foldl_insert_notin (l : list (Z * list string)) (ix : gmap Z (list string)) i :
  i ∉ map fst l -> foldl (fun ix e => <[fst e := snd e]> ix) ix l !! i = ix !! i.
Proof.
  revert ix. induction l as [|[j q] l IH]; intros ix Hi; [done|].
  cbn in *. apply not_elem_of_cons in Hi as [Hne Hi]. rewrite IH by done.
  by rewrite lookup_insert_ne.
Qed.

Lemma foldl_insert_lookup (l : list (Z * list string)) (ix : gmap Z (list string)) i p :
  NoDup (map fst l) ->
  (foldl (fun ix e => <[fst e := snd e]> ix) ix l !! i = Some p <->
   (i, p) ∈ l \/ (i ∉ map fst l) /\ ix !! i = Some p).
Proof.
  revert ix. induction l as [|[j q] l IH]; intros ix Hnd; cbn.
  - split; [intros ?; right; split; [apply not_elem_of_nil|done]|].
    intros [?%not_elem_of_nil|[_ ?]]; done.
  - cbn in Hnd. apply NoDup_cons in Hnd as [Hj Hnd]. rewrite IH by done.
    rewrite elem_of_cons, not_elem_of_cons. destruct (decide (i = j)) as [->|Hne].
    + rewrite lookup_insert_eq. split.
      * intros [Hin|[_ [= ->]]]; [|by left; left]. left. by right.
      * intros [[[= ->]|Hin]|[[? _] _]]; [|by left|done]. by right.
    + rewrite lookup_insert_ne by done. split.
      * intros [Hin|[Hn Hi]]; [by left; right|]. right. done.
      * intros [[[= ? ?]|Hin]|[[_ Hn] Hi]]; [done|by left|by right].
Qed.

(** [rebuild_index] makes the index exact for any tree with unique ids. *)
Lemma rebuild_index_lookup m i p :
  NoDup (ids (root m)) ->
  (node_index (rebuild_index m) !! i = Some p) <-> exists ty, (i, ty, p) ∈ walk [] (root m).
Proof.
  intros Hnd. unfold rebuild_index.
  pose proof (collect_entries_eq [] (root m) []) as E.
  destruct (collect_entries_into [] (root m) []) as [mx es]. cbn in *. subst es.
  rewrite foldl_insert_lookup.
  - rewrite list_elem_of_fmap. split.
    + intros [([[j ty] q] & [= -> ->] & Hin)|[_ Hi]]; [eauto|done].
    + intros [ty Hin]. left. by exists (i, ty, p).
  - rewrite map_map. apply Hnd.
Qed.

Lemma rebuild_index_next m :
  Forall (fun i => 0 <= i < U64_MAX) (ids (root m)) ->
  (forall i, i ∈ ids (root m) -> i < next_node_id (rebuild_index m))
  /\ FIRST_USER_NODE_ID <= next_node_id (rebuild_index m) <= U64_MAX.
Proof.
  intros Hr. unfold rebuild_index.
  destruct (collect_entries_max [] (root m) []) as [Hin Hmax].
  destruct (collect_entries_into [] (root m) []) as [mx es]. cbn in *.
  rewrite Forall_forall in Hr, Hmax. pose proof (Hr _ Hin) as Hb.
  rewrite u64_add_small by (unfold is_u64; lia). split.
  - intros i Hi%Hmax. lia.
  - unfold FIRST_USER_NODE_ID, PASSMANAGER_NODE_ID, U64_MAX in *. lia.
Qed.

Lemma walk_entry_ids n i ty p : (i, ty, p) ∈ walk [] n -> i ∈ ids n.
Proof. intros H. unfold ids. apply list_elem_of_fmap. by exists (i, ty, p). Qed.

Lemma ids_walk_entry n i : i ∈ ids n -> exists ty p, (i, ty, p) ∈ walk [] n.
Proof. unfold ids. intros ([[j ty] p] & -> & H)%list_elem_of_fmap. eauto. Qed.

(** Any well-formed tree with unique, in-range ids becomes a sound manager. *)
Lemma rebuild_index_inv m :
  node_id (root m) = ROOT_NODE_ID -> node_name (root m) = "/"%string -> is_dir (root m) = true ->
  wf_node (root m) = true -> NoDup (ids (root m)) ->
  Forall (fun i => 0 <= i < U64_MAX) (ids (root m)) ->
  catalog_inv (rebuild_index m) /\ index_exact (rebuild_index m).
Proof.
  intros Hid Hn Hd Hwf Hnd Hr.
  destruct (rebuild_index_next m Hr) as [Hlt Hnext].
  assert (root (rebuild_index m) = root m) as Hroot
    by (unfold rebuild_index; by destruct (collect_entries_into _ _ _)).
  split.
  - split; rewrite ?Hroot; try done.
    + intros i ty p Hin. apply rebuild_index_lookup; eauto.
    + intros i p Hi. apply rebuild_index_lookup in Hi as [ty Hin]; [|done].
      apply walk_entry_ids in Hin. rewrite Forall_forall in Hr. pose proof (Hr _ Hin).
      pose proof (Hlt _ Hin). lia.
  - intros i p Hi. rewrite Hroot. by apply rebuild_index_lookup.
Qed.

Lemma inv_ids_range m : catalog_inv m -> Forall (fun i => 0 <= i < U64_MAX) (ids (root m)).
Proof.
  intros Hinv. apply Forall_forall. intros i (ty & p & Hin)%ids_walk_entry.
  apply (inv_complete _ Hinv), (inv_fresh _ Hinv) in Hin. pose proof (inv_next _ Hinv). lia.
Qed.

Lemma new_inv now : catalog_inv (new now) /\ index_exact (new now).
Proof.
  split.
  - split; try done.
    + apply NoDup_singleton.
    + intros i ty p. cbn. intros [= -> -> ->]%list_elem_of_singleton. done.
    + intros i p. cbn. intros [<- _]%lookup_singleton_Some.
      unfold ROOT_NODE_ID, FIRST_USER_NODE_ID, PASSMANAGER_NODE_ID. lia.
  - intros i p. cbn. intros [<- <-]%lookup_singleton_Some. exists Dir. by apply list_elem_of_singleton.
Qed.

(** Exposes the monad's structure without unfolding the operations' bodies. *)
Ltac run_monad :=
  cbv beta iota zeta delta [mbind M_bind mret M_ret self lift throw modify bump_version].

Lemma M_bind_eq {A B} (c : M A) (f : A -> M B) m :
  (c ≫= f) m = match c m with (Ok a, m') => f a m' | (Err e, m') => (Err e, m') end.
Proof. done. Qed.

Lemma M_bind_self {B} (f : CatalogManager -> M B) m : (self ≫= f) m = f m m.
Proof. done. Qed.

Lemma M_bind_lift {A B} (r : result Error A) (f : A -> M B) m :
  (lift r ≫= f) m = match r with Ok a => f a m | Err e => (Err e, m) end.
Proof. done. Qed.

(** ** Creating nodes *)

Lemma same_root_dir r r' : same_root r r' -> is_dir r' = is_dir r.
Proof. unfold is_dir. by intros (_ & _ & ->). Qed.

Lemma walk_perm_ids r es : walk [] r ≡ₚ es -> ids r ≡ₚ map entry_id es.
Proof. intros H. unfold ids. by rewrite H. Qed.

(** A node with an unused id was added to the tree and to the index. *)
Lemma insert_inv m r' id ty path nx v :
  catalog_inv m -> same_root (root m) r' -> wf_node r' = true ->
  walk [] r' ≡ₚ (id, ty, path) :: walk [] (root m) ->
  node_index m !! id = None -> 0 <= id < nx -> next_node_id m <= nx <= U64_MAX ->
  let m' := mkManager r' nx (<[id := path]> (node_index m)) v in
  catalog_inv m' /\ coherent_le m m'.
Proof.
  intros Hinv Hsr Hwf Hw Hnone Hid Hnx m'.
  assert (forall j ty' q, (j, ty', q) ∈ walk [] (root m) -> j <> id) as Hne.
  { intros j ty' q Hj ->. apply (inv_complete _ Hinv) in Hj. congruence. }
  split.
  - destruct Hinv as [H1 H2 H3 H4 H5 H6 H7 H8]. split; cbn.
    + rewrite <- H1. apply Hsr.
    + rewrite <- H2. apply Hsr.
    + by rewrite (same_root_dir _ _ Hsr).
    + done.
    + rewrite (walk_perm_ids _ _ Hw). cbn. apply NoDup_cons. split; [|done].
      intros (ty' & q & Hj)%ids_walk_entry. by apply Hne in Hj.
    + intros j ty' q. rewrite Hw, elem_of_cons. intros [[= -> -> ->]|Hj].
      * by rewrite lookup_insert_eq.
      * rewrite lookup_insert_ne; [by eapply H6|]. apply Hne in Hj. congruence.
    + intros j q. destruct (decide (id = j)) as [->|Hj]; [lia|].
      rewrite lookup_insert_ne by done. intros ?%H7. lia.
    + lia.
  - intros j Hco q. cbn. setoid_rewrite Hw. destruct (decide (id = j)) as [->|Hj].
    + rewrite lookup_insert_eq. intros [= <-]. exists ty. by left.
    + rewrite lookup_insert_ne by done. intros [ty' Hin]%Hco. exists ty'. by right.
Qed.

Lemma index_of_parent m path parent :
  catalog_inv m -> find_by_path m path = Some parent ->
  node_index m !! node_id parent = Some ("/"%string :: parse_path path).
Proof. intros Hinv Hp. eapply (inv_complete _ Hinv). by apply inv_find_path. Qed.

Lemma check_parent_ok m path nm i :
  check_parent m path nm = Ok i ->
  exists parent, find_by_path m path = Some parent /\ is_dir parent = true
    /\ has_child nm parent = false /\ i = node_id parent.
Proof.
  unfold check_parent. intros H. ok_steps. rename Hstep into Hp.
  destruct (is_dir a) eqn:Hd; [|done]. cbn in H0. destruct (has_child nm a) eqn:Hc; [done|].
  injection H0 as <-. by exists a.
Qed.

Lemma inv_next_none m : catalog_inv m -> node_index m !! next_node_id m = None.
Proof.
  intros Hinv. apply eq_None_not_Some. intros [p Hp]. apply (inv_fresh _ Hinv) in Hp. lia.
Qed.

(** The tail both creation functions share: index, attach, bump the version. *)
Lemma create_tail_run m path err now parent node nx :
  catalog_inv m -> find_by_path m path = Some parent -> is_dir parent = true ->
  has_child (node_name node) parent = false -> name_ok (node_name node) = true ->
  wf_node node = true -> children node = [] ->
  exists r', same_root (root m) r' /\ wf_node r' = true
    /\ walk [] r' ≡ₚ (node_id node, node_type node, "/"%string :: parse_path path ++ [node_name node])
                      :: walk [] (root m)
    /\ find_by_parts (parse_path path ++ [node_name node]) r' = Some node
    /\ (modify (index_under (node_id parent) (node_name node) (node_id node));;
        with_path_mut path err (add_child now node);; bump_version;; mret (node_id node))
         (set_next nx m)
       = (Ok (node_id node),
          mkManager r' nx
            (<[node_id node := "/"%string :: parse_path path ++ [node_name node]]> (node_index m))
            (u64_add (version m) 1)).
Proof.
  intros Hinv Hp Hd Hno Hok Hwn Hleaf.
  set (m1 := index_under (node_id parent) (node_name node) (node_id node) (set_next nx m)).
  destruct (attach_run m1 path err now node parent) as (r' & Hrun & Hwf & Hsr & Hw & Hat);
    [apply Hinv|done..|].
  exists r'. split_and!; [done|done| |done|].
  - rewrite Hw. unfold m1. cbn. rewrite (walk_eq _ node), Hleaf, (inv_root_name _ Hinv). cbn. solve_Permutation.
  - unfold mbind, M_bind. cbn. fold m1. rewrite Hrun. cbn. do 2 f_equal.
    unfold m1, index_under, set_version, set_root. cbn. by rewrite (index_of_parent m path parent).
Qed.

Lemma create_dir_eq clk path nm m :
  create_dir clk path nm m =
    match validate_name nm, check_parent m path nm with
    | Err e, _ => (Err e, m)
    | Ok _, Err e => (Err e, m)
    | Ok _, Ok pid =>
        (modify (index_under pid nm (next_node_id m));;
         with_path_mut path (InvalidPath path)
           (add_child (clk 1%nat) (new_dir (clk 0%nat) (next_node_id m) nm));;
         bump_version;; mret (next_node_id m)) (set_next (u64_add (next_node_id m) 1) m)
    end.
Proof.
  unfold create_dir, mbind, M_bind, lift, self. cbn.
  destruct (validate_name nm); [|done]. by destruct (check_parent m path nm).
Qed.

Lemma create_file_with_id_eq clk path nm id sz mime m :
  create_file_with_id clk path nm id sz mime m =
    match validate_name nm, bool_decide (is_Some (node_index m !! id)), check_parent m path nm with
    | Err e, _, _ => (Err e, m)
    | Ok _, true, _ => (Err (NameExists nm), m)
    | Ok _, false, Err e => (Err e, m)
    | Ok _, false, Ok pid =>
        (modify (index_under pid nm id);;
         with_path_mut path (InvalidPath path)
           (add_child (clk 2%nat) (new_file (clk 0%nat) (clk 1%nat) id nm sz mime));;
         bump_version;; mret id)
          (set_next (Z.max (next_node_id m) (u64_saturating_add id 1)) m)
    end.
Proof.
  unfold create_file_with_id, mbind, M_bind, lift, self, throw. cbn.
  destruct (validate_name nm); [|done]. case_bool_decide; [done|].
  by destruct (check_parent m path nm).
Qed.

Lemma create_dir_run clk path nm m :
  catalog_inv m ->
  (exists e, create_dir clk path nm m = (Err e, m)) \/
  exists parent r', find_by_path m path = Some parent /\ is_dir parent = true
    /\ has_child nm parent = false /\ name_ok nm = true
    /\ same_root (root m) r' /\ wf_node r' = true
    /\ walk [] r' ≡ₚ (next_node_id m, Dir, "/"%string :: parse_path path ++ [nm]) :: walk [] (root m)
    /\ find_by_parts (parse_path path ++ [nm]) r' = Some (new_dir (clk 0%nat) (next_node_id m) nm)
    /\ create_dir clk path nm m =
       (Ok (next_node_id m),
        mkManager r' (u64_add (next_node_id m) 1)
          (<[next_node_id m := "/"%string :: parse_path path ++ [nm]]> (node_index m))
          (u64_add (version m) 1)).
Proof.
  intros Hinv. rewrite create_dir_eq.
  destruct (validate_name nm) as [u|e] eqn:Hv; [|eauto]. apply validate_name_ok in Hv.
  destruct (check_parent m path nm) as [i|e] eqn:Hc; [|eauto].
  apply check_parent_ok in Hc as (parent & Hp & Hd & Hno & ->). right.
  destruct (create_tail_run m path (InvalidPath path) (clk 1%nat) parent
              (new_dir (clk 0%nat) (next_node_id m) nm) (u64_add (next_node_id m) 1))
    as (r' & Hsr & Hwf & Hw & Hat & Hrun); try done.
  exists parent, r'. split_and!; done.
Qed.

Lemma create_file_with_id_run clk path nm id sz mime m :
  catalog_inv m ->
  (exists e, create_file_with_id clk path nm id sz mime m = (Err e, m)) \/
  exists parent r', find_by_path m path = Some parent /\ is_dir parent = true
    /\ has_child nm parent = false /\ name_ok nm = true /\ node_index m !! id = None
    /\ same_root (root m) r' /\ wf_node r' = true
    /\ walk [] r' ≡ₚ (id, File, "/"%string :: parse_path path ++ [nm]) :: walk [] (root m)
    /\ find_by_parts (parse_path path ++ [nm]) r'
       = Some (new_file (clk 0%nat) (clk 1%nat) id nm sz mime)
    /\ create_file_with_id clk path nm id sz mime m =
       (Ok id,
        mkManager r' (Z.max (next_node_id m) (u64_saturating_add id 1))
          (<[id := "/"%string :: parse_path path ++ [nm]]> (node_index m))
          (u64_add (version m) 1)).
Proof.
  intros Hinv. rewrite create_file_with_id_eq.
  destruct (validate_name nm) as [u|e] eqn:Hv; [|eauto]. apply validate_name_ok in Hv.
  case_bool_decide as Hidx; [eauto|]. apply eq_None_not_Some in Hidx.
  destruct (check_parent m path nm) as [i|e] eqn:Hc; [|eauto].
  apply check_parent_ok in Hc as (parent & Hp & Hd & Hno & ->). right.
  destruct (create_tail_run m path (InvalidPath path) (clk 2%nat) parent
              (new_file (clk 0%nat) (clk 1%nat) id nm sz mime)
              (Z.max (next_node_id m) (u64_saturating_add id 1)))
    as (r' & Hsr & Hwf & Hw & Hat & Hrun); try done.
  exists parent, r'. split_and!; done.
Qed.

Lemma create_dir_inv clk path nm m :
  catalog_inv m -> next_node_id m < U64_MAX ->
  let m' := snd (create_dir clk path nm m) in
  catalog_inv m' /\ coherent_le m m'.
Proof.
  intros Hinv Hnx. destruct (create_dir_run clk path nm m Hinv)
    as [[e ->]|(parent & r' & _ & _ & _ & _ & Hsr & Hwf & Hw & _ & ->)]; [done|].
  pose proof (inv_next _ Hinv) as Hn.
  assert (0 <= next_node_id m) by (unfold FIRST_USER_NODE_ID, PASSMANAGER_NODE_ID in Hn; lia).
  rewrite u64_add_small by (unfold is_u64; lia).
  eapply insert_inv; try done; [by apply inv_next_none|lia..].
Qed.

Lemma create_file_with_id_inv clk path nm id sz mime m :
  catalog_inv m -> 0 <= id < U64_MAX ->
  let m' := snd (create_file_with_id clk path nm id sz mime m) in
  catalog_inv m' /\ coherent_le m m'.
Proof.
  intros Hinv Hid. destruct (create_file_with_id_run clk path nm id sz mime m Hinv)
    as [[e ->]|(parent & r' & _ & _ & _ & _ & Hidx & Hsr & Hwf & Hw & _ & ->)]; [done|].
  pose proof (inv_next _ Hinv) as Hn. unfold u64_saturating_add.
  eapply insert_inv; try done; lia.
Qed.

(** Allocating an id, used or not, keeps the invariant. *)
Lemma alloc_inv m :
  catalog_inv m -> next_node_id m < U64_MAX ->
  let m' := snd (alloc_node_id m) in catalog_inv m' /\ coherent_le m m'.
Proof.
  intros Hinv Hnx. cbn. pose proof (inv_next _ Hinv) as Hn.
  assert (0 <= next_node_id m) by (unfold FIRST_USER_NODE_ID, PASSMANAGER_NODE_ID in Hn; lia).
  rewrite u64_add_small by (unfold is_u64; lia). split; [|by intros i].
  destruct Hinv as [H1 H2 H3 H4 H5 H6 H7 H8]. split; cbn; try done; [|lia].
  intros i p ?%H7. lia.
Qed.

Lemma create_file_inv clk path nm sz mime m :
  catalog_inv m -> next_node_id m < U64_MAX ->
  let m' := snd (create_file clk path nm sz mime m) in
  catalog_inv m' /\ coherent_le m m'.
Proof.
  intros Hinv Hnx. unfold create_file, mbind, M_bind.
  destruct (alloc_inv m Hinv Hnx) as [Hinv1 Hex1]. cbn in *.
  pose proof (inv_next _ Hinv) as Hn.
  destruct (create_file_with_id_inv clk path nm (next_node_id m) sz mime
              (set_next (u64_add (next_node_id m) 1) m) Hinv1) as [Hi He].
  - unfold FIRST_USER_NODE_ID, PASSMANAGER_NODE_ID in Hn. lia.
  - split; [done|]. by transitivity (set_next (u64_add (next_node_id m) 1) m).
Qed.

(** ** Live ids *)

(** A node of the tree other than the root, seen through the index. *)
Record live_child (m : CatalogManager) (id : Z) (qs : list string) (x : string)
    (parent c : CatalogNode) : Prop := {
  lc_index : node_index m !! id = Some ("/"%string :: qs ++ [x]);
  lc_parts : Forall (fun q => name_ok q = true) qs;
  lc_name_ok : name_ok x = true;
  lc_parent : find_by_parts qs (root m) = Some parent;
  lc_child : find_child x parent = Some c;
  lc_in : c ∈ children parent;
  lc_id : node_id c = id;
  lc_name : node_name c = x;
  lc_walk : (id, node_type c, "/"%string :: qs ++ [x]) ∈ walk [] (root m);
  lc_find : find_by_id m id = Some c;
}.

Lemma live_child_of_index m id p :
  catalog_inv m -> id_coherent m id -> id <> 0 -> node_index m !! id = Some p ->
  exists qs x parent c, p = "/"%string :: qs ++ [x] /\ live_child m id qs x parent c.
Proof.
  intros Hinv Hco Hid Hp. destruct (Hco p Hp) as [ty Hin].
  destruct (inv_walk_find _ _ _ _ Hinv Hin) as (qs0 & n & -> & Hqs0 & Hn & Hi & Ht).
  destruct (decide (qs0 = [])) as [->|Hne].
  { cbn in Hn. injection Hn as <-. by rewrite (inv_root_id _ Hinv) in Hi. }
  destruct (exists_last Hne) as (qs & x & ->).
  assert ("/"%string :: qs ++ [x] = [] ++ node_name (root m) :: qs ++ [x]) as Ep
    by (by rewrite (inv_root_name _ Hinv)).
  rewrite Ep in Hin.
  apply walk_find_child in Hin as (parent & c & Hpar & Hc & Hci & Hct & Hcn & Hcin & Hqs & Hx);
    [|apply Hinv].
  assert (n = c) as ->.
  { rewrite find_by_parts_app, Hpar in Hn. cbn in Hn.
    rewrite (part_ok_skip x), Hc in Hn by (by apply name_ok_part). congruence. }
  exists qs, x, parent, c. split; [done|]. split; try done.
  - rewrite Hct. by destruct (Hco _ Hp) as [ty' Hin'];
      destruct (inv_find_by_id _ _ _ _ Hinv Hin') as (n' & Hn' & _ & Htn');
      unfold find_by_id in Hn'; rewrite Hp in Hn'; unfold find_by_path in Hn';
      rewrite parse_index_path, Hn in Hn' by eauto with catalog;
      injection Hn' as <-; rewrite Hct in Htn'; subst ty'.
  - unfold find_by_id. rewrite Hp. unfold find_by_path.
    by rewrite parse_index_path by eauto with catalog.
Qed.

Lemma parent_join_eq qs x :
  Forall (fun q => name_ok q = true) qs ->
  parent_join ("/"%string :: qs ++ [x]) = str_join "/" ("/"%string :: qs)
  /\ parse_path (parent_join ("/"%string :: qs ++ [x])) = qs.
Proof.
  intros Hqs. assert (parent_join ("/"%string :: qs ++ [x]) = str_join "/" ("/"%string :: qs)) as E.
  { unfold parent_join. cbn. rewrite length_app. cbn. rewrite bool_decide_true by lia.
    replace (length qs + 1 - 0)%nat with (S (length qs)) by lia. cbn.
    by rewrite take_app_length. }
  rewrite E. split; [done|]. apply parse_index_path. eauto with catalog.
Qed.

Lemma live_parent_path m id qs x parent c :
  live_child m id qs x parent c ->
  find_by_path m (parent_join ("/"%string :: qs ++ [x])) = Some parent.
Proof.
  intros [? Hqs ? Hp ? ? ? ? ? ?]. unfold find_by_path.
  by rewrite (proj2 (parent_join_eq qs x Hqs)).
Qed.

(** ** Editing a node in place *)

Lemma same_walk_inv m r' :
  catalog_inv m -> same_root (root m) r' -> wf_node r' = true -> walk [] r' = walk [] (root m) ->
  catalog_inv (set_root r' m) /\ coherent_le m (set_root r' m).
Proof.
  intros [H1 H2 H3 H4 H5 H6 H7 H8] Hsr Hwf Hw. split.
  - split; cbn; rewrite ?Hw; try done.
    + rewrite <- H1. apply Hsr.
    + rewrite <- H2. apply Hsr.
    + by rewrite (same_root_dir _ _ Hsr).
  - intros i Hi. unfold id_coherent. cbn. by rewrite Hw.
Qed.

(** A live id reaches its node for editing, and only that node changes. *)
Lemma with_id_mut_run {A} m id ty p (k : CatalogNode -> A * CatalogNode) :
  catalog_inv m -> (id, ty, p) ∈ walk [] (root m) ->
  (forall n, same_shape n (snd (k n))) ->
  exists n r', find_by_id m id = Some n /\ node_id n = id
    /\ with_id_mut id k m = (Ok (fst (k n)), set_root r' m)
    /\ wf_node r' = true /\ same_root (root m) r' /\ walk [] r' = walk [] (root m)
    /\ find_by_id (set_root r' m) id = Some (snd (k n)).
Proof.
  intros Hinv Hin Hk. pose proof (inv_complete _ Hinv _ _ _ Hin) as Hp.
  destruct (inv_find_by_id _ _ _ _ Hinv Hin) as (n & Hn & Hi & _).
  exists n. pose proof Hn as Hfind. unfold find_by_id in Hn. rewrite Hp in Hn.
  destruct (edit_run m (str_join "/" p) (NodeNotFound id) k n) as (r' & Hrun & Hwf & Hsr & Hw & Hf);
    [apply Hinv|done|apply Hk|].
  exists r'. split_and!; try done.
  - unfold with_id_mut. by rewrite Hp.
  - unfold find_by_id. cbn. rewrite Hp. done.
Qed.

Lemma set_chunk_size_inv clk id sz m :
  catalog_inv m -> id_coherent m id ->
  let m' := snd (set_chunk_size clk id sz m) in
  catalog_inv m' /\ coherent_le m m'.
Proof.
  intros Hinv Hco. unfold set_chunk_size. destruct (node_index m !! id) as [p|] eqn:Hp.
  - destruct (Hco _ Hp) as [ty Hin].
    destruct (with_id_mut_run m id ty p
                (fun n => (tt, touch (clk 0%nat) (set_node_chunk_size sz n))))
      as (n & r' & _ & _ & -> & Hwf & Hsr & Hw & _); [done..|].
    by apply same_walk_inv.
  - unfold with_id_mut. by rewrite Hp.
Qed.

(** ** Deletion *)

(** A subtree left the tree; the index lost nothing but entries of its ids. *)
Lemma remove_inv m r' W ix v :
  catalog_inv m -> same_root (root m) r' -> wf_node r' = true ->
  walk [] (root m) ≡ₚ walk [] r' ++ W ->
  (forall i p, ix !! i = Some p -> node_index m !! i = Some p) ->
  (forall i, i ∉ map entry_id W -> ix !! i = node_index m !! i) ->
  catalog_inv (mkManager r' (next_node_id m) ix v).
Proof.
  intros [H1 H2 H3 H4 H5 H6 H7 H8] Hsr Hwf Hw Hsub Hkeep.
  assert (NoDup (ids r' ++ map entry_id W)) as Hnd.
  { unfold ids. by rewrite <- map_app, <- Hw. }
  apply NoDup_app in Hnd as (Hnd & Hdisj & _).
  split; cbn; try done.
  - rewrite <- H1. apply Hsr.
  - rewrite <- H2. apply Hsr.
  - by rewrite (same_root_dir _ _ Hsr).
  - intros i ty p Hin. rewrite Hkeep.
    + apply (H6 i ty). rewrite Hw. apply elem_of_app. by left.
    + apply Hdisj. by eapply walk_entry_ids.
  - intros i p Hi. by apply (H7 i p), Hsub.
Qed.

(** After a detachment nothing is left at the detached path. *)
Lemma detached_gone m r' qs x c :
  catalog_inv m -> same_root (root m) r' -> wf_node r' = true ->
  walk [] (root m) ≡ₚ walk [] r' ++ walk ("/"%string :: qs) c -> node_name c = x ->
  Forall part_ok (qs ++ [x]) -> find_by_parts (qs ++ [x]) r' = None.
Proof.
  intros Hinv Hsr Hwf Hw Hx Hparts. destruct (find_by_parts (qs ++ [x]) r') as [n|] eqn:Hn; [|done].
  exfalso. apply (find_in_walk []) in Hn; [|done]. destruct Hsr as (_ & Hname & _).
  rewrite Hname, (inv_root_name _ Hinv) in Hn.
  pose proof (walk_paths_nodup [] (root m) (inv_wf _ Hinv)) as Hnd.
  rewrite Hw, map_app in Hnd. apply NoDup_app in Hnd as (_ & Hdisj & _).
  apply (Hdisj ("/"%string :: qs ++ [x])).
  - apply list_elem_of_fmap. eexists. split; [|exact Hn]. done.
  - rewrite walk_eq, Hx. cbn. apply elem_of_cons. by left.
Qed.

Lemma remove_from_index_detached m r' id qs x c :
  catalog_inv m -> same_root (root m) r' -> wf_node r' = true ->
  node_index m !! id = Some ("/"%string :: qs ++ [x]) ->
  walk [] (root m) ≡ₚ walk [] r' ++ walk ("/"%string :: qs) c -> node_name c = x ->
  Forall part_ok (qs ++ [x]) ->
  remove_from_index id (set_root r' m) = set_index (delete id (node_index m)) (set_root r' m).
Proof.
  intros Hinv Hsr Hwf Hp Hw Hx Hparts. unfold remove_from_index, find_by_id. cbn. rewrite Hp.
  unfold find_by_path. cbn [root]. rewrite parse_index_path by done.
  cbn [root set_root]. by rewrite (detached_gone m r' qs x c).
Qed.

Lemma delete_node_run clk id m :
  catalog_inv m -> id_coherent m id ->
  (exists e, delete_node clk id m = (Err e, m)
     /\ (id = 0 /\ e = CannotModifyRoot \/ node_index m !! id = None /\ e = NodeNotFound id)) \/
  exists qs x parent c r', live_child m id qs x parent c
    /\ same_root (root m) r' /\ wf_node r' = true
    /\ walk [] (root m) ≡ₚ walk [] r' ++ walk ("/"%string :: qs) c
    /\ delete_node clk id m =
       (Ok tt, mkManager r' (next_node_id m) (delete id (node_index m)) (u64_add (version m) 1)).
Proof.
  intros Hinv Hco. unfold delete_node, throw, lift. destruct (Z.eqb_spec id 0) as [->|Hid].
  { left. eexists. split; [done|]. by left. }
  unfold mbind, M_bind, self, lift. cbn. destruct (node_index m !! id) as [p|] eqn:Hp; cbn.
  2: { left. eexists. split; [done|]. by right. }
  right. destruct (live_child_of_index _ _ _ Hinv Hco Hid Hp) as (qs & x & parent & c & -> & Hl).
  destruct (parent_join_eq qs x (lc_parts _ _ _ _ _ _ Hl)) as [_ Hparse].
  edestruct (detach_run m (parent_join ("/"%string :: qs ++ [x]))) as (r' & Hrun & Hwf & Hsr & Hw);
    [apply Hinv|apply Hinv|by eapply live_parent_path|apply Hl|].
  rewrite (lc_id _ _ _ _ _ _ Hl) in Hrun. rewrite Hparse, (inv_root_name _ Hinv) in Hw.
  rewrite Hrun. unfold modify, bump_version, modify. cbn.
  exists qs, x, parent, c, r'. split_and!; try done.
  erewrite remove_from_index_detached; try done; [apply Hl|].
  apply Forall_app. split; [apply name_ok_parts, Hl|]. constructor; [apply name_ok_part, Hl|done].
Qed.

Lemma delete_node_inv clk id m :
  catalog_inv m -> id_coherent m id -> catalog_inv (snd (delete_node clk id m)).
Proof.
  intros Hinv Hco. destruct (delete_node_run clk id m Hinv Hco)
    as [(e & -> & _)|(qs & x & parent & c & r' & Hl & Hsr & Hwf & Hw & ->)]; [done|].
  eapply remove_inv; try done.
  - intros i p [_ Hi]%lookup_delete_Some. done.
  - intros i Hi. rewrite lookup_delete_ne; [done|]. intros ->. apply Hi.
    rewrite walk_ids_nil, ids_eq, (lc_id _ _ _ _ _ _ Hl). by left.
Qed.
