(* ===== verification/CatalogMove.v ===== *)
(** * Catalog operations that relocate subtrees: rename, move, exchange

    Renaming and moving both take a subtree from one path to another and rewrite
    the index entries of exactly the ids in it; [relocate_inv] is the common
    argument. Exchange rebuilds the index instead. *)

From S2P Require Import Prelude.
From S2P Require Import CatalogNode.
From S2P Require Import CatalogManager.
From S2P Require Import CatalogTree.
From S2P Require Import CatalogInvariant.
From S2P Require Import CatalogOps.
From Stdlib Require Import Ascii String.
From stdpp Require Import base gmap strings list.
Open Scope Z_scope.

(** The tree [c'] is [c] under another name (times and trash mark may differ). *)
Definition same_subtree (c c' : CatalogNode) : Prop :=
  node_id c' = node_id c /\ node_type c' = node_type c /\ children_opt c' = children_opt c.

Lemma same_subtree_children c c' : same_subtree c c' -> children c' = children c.
Proof. intros (_ & _ & H). unfold children. by rewrite H. Qed.

Lemma same_subtree_ids c c' : same_subtree c c' -> ids c' = ids c.
Proof. intros H. rewrite !ids_eq, (same_subtree_children _ _ H). by destruct H as [-> _]. Qed.

Lemma same_subtree_wf c c' : same_subtree c c' -> wf_node c' = wf_node c.
Proof.
  intros (Hi & Ht & Hc). destruct c as [?????????????co], c' as [?????????????co'].
  cbn in *. subst. done.
Qed.

Lemma same_subtree_descendants c c' :
  same_subtree c c' -> collect_descendant_ids c' = collect_descendant_ids c.
Proof. intros H. by rewrite !collect_descendant_ids_eq, (same_subtree_children _ _ H). Qed.

Lemma relocate_inv m r' W P P' c c' ix v :
  catalog_inv m -> same_root (root m) r' -> wf_node r' = true -> same_subtree c c' ->
  walk [] (root m) ≡ₚ W ++ walk P c -> walk [] r' ≡ₚ W ++ walk P' c' ->
  (forall i p, i ∈ ids c -> node_index m !! i = Some p ->
     ix !! i = Some ((P' ++ [node_name c']) ++ drop (S (length P)) p)) ->
  (forall i, i ∉ ids c -> ix !! i = node_index m !! i) ->
  let m' := mkManager r' (next_node_id m) ix v in
  catalog_inv m' /\ coherent_le m m'.
Proof.
  intros Hinv Hsr Hwf Hsub Hw Hw' Hmoved Hkeep m'.
  pose proof (walk_reroot P P' c c' (same_subtree_children _ _ Hsub)
                (proj1 Hsub) (proj1 (proj2 Hsub))) as Hre.
  assert (NoDup (map entry_id W ++ ids c)) as Hnd.
  { rewrite <- (walk_ids_nil P c), <- map_app, <- Hw. apply Hinv. }
  pose proof Hnd as (_ & Hdisj & _)%NoDup_app.
  assert (forall i p, i ∈ ids c -> node_index m !! i = Some p -> exists ty,
            (i, ty, p) ∈ walk P c) as Hidx.
  { intros i p Hi Hp. rewrite <- (walk_ids_nil P c) in Hi.
    apply list_elem_of_fmap in Hi as ([[j ty] q] & -> & Hin). exists ty. cbn in *.
    rewrite (inv_complete _ Hinv j ty q) in Hp; [congruence|].
    rewrite Hw. apply elem_of_app. by right. }
  assert (forall i ty p, (i, ty, p) ∈ walk [] r' -> ix !! i = Some p) as Hcomplete.
  { intros i ty p. rewrite Hw', elem_of_app. intros [Hin|Hin].
    - rewrite Hkeep.
      + apply (inv_complete _ Hinv i ty). rewrite Hw. apply elem_of_app. by left.
      + apply Hdisj. apply list_elem_of_fmap. by exists (i, ty, p).
    - rewrite Hre in Hin. apply list_elem_of_fmap in Hin as ([[j ty'] q] & [= -> -> ->] & Hin).
      cbn. apply Hmoved.
      + rewrite <- (walk_ids_nil P c). apply list_elem_of_fmap. by exists (j, ty', q).
      + apply (inv_complete _ Hinv j ty'). rewrite Hw. apply elem_of_app. by right. }
  split.
  - split; cbn; try done.
    + rewrite <- (inv_root_id _ Hinv). apply Hsr.
    + rewrite <- (inv_root_name _ Hinv). apply Hsr.
    + rewrite (same_root_dir _ _ Hsr). apply Hinv.
    + rewrite (walk_perm_ids _ _ Hw'), map_app, walk_ids_nil, (same_subtree_ids _ _ Hsub). done.
    + intros i p Hi. destruct (decide (i ∈ ids c)) as [Hin|Hin].
      * rewrite <- (walk_ids_nil P c) in Hin.
        apply list_elem_of_fmap in Hin as ([[j ty] q] & -> & Hin). cbn in *.
        eapply (inv_fresh _ Hinv j q), (inv_complete _ Hinv j ty q).
        rewrite Hw. apply elem_of_app. by right.
      * rewrite Hkeep in Hi by done. by eapply (inv_fresh _ Hinv).
    + apply Hinv.
  - intros i Hco p Hi. cbn in *. destruct (decide (i ∈ ids c)) as [Hin|Hin].
    + pose proof Hin as Hin'. rewrite <- (walk_ids_nil P c) in Hin'.
      apply list_elem_of_fmap in Hin' as ([[j ty] q] & -> & Hin'). cbn in *.
      assert (node_index m !! j = Some q) as Hq.
      { apply (inv_complete _ Hinv j ty q). rewrite Hw. apply elem_of_app. by right. }
      rewrite (Hmoved j q Hin Hq) in Hi. injection Hi as <-. exists ty.
      rewrite Hw'. apply elem_of_app. right. rewrite Hre. apply list_elem_of_fmap.
      by exists (j, ty, q).
    + rewrite Hkeep in Hi by done. destruct (Hco p Hi) as [ty Hin']. exists ty.
      rewrite Hw in Hin'. rewrite Hw'. apply elem_of_app in Hin' as [Hin'|Hin'].
      * apply elem_of_app. by left.
      * exfalso. apply Hin. rewrite <- (walk_ids_nil P c). apply list_elem_of_fmap.
        by exists (i, ty, p).
Qed.

(** ** Rename *)

Lemma rename_index_spec depth nm l (ix : gmap Z (list string)) :
  NoDup l -> (forall i p, i ∈ l -> ix !! i = Some p -> (depth < length p)%nat) ->
  exists ix', rename_index depth nm l ix = Some ix' /\
    forall i, ix' !! i = if decide (i ∈ l) then (fun p => <[depth := nm]> p) <$> ix !! i else ix !! i.
Proof.
  intros Hnd. revert ix. induction Hnd as [|j l Hj Hnd IH]; intros ix Hlen; cbn.
  - exists ix. split; [done|]. intros i. by rewrite decide_False by apply not_elem_of_nil.
  - destruct (ix !! j) as [p|] eqn:Hp.
    + rewrite bool_decide_true by (apply (Hlen j p); [by left|done]).
      destruct (IH (<[j := <[depth := nm]> p]> ix)) as (ix' & Hix' & Hl).
      { intros i q Hi. rewrite lookup_insert_ne by (by intros ->).
        apply Hlen. by right. }
      exists ix'. split; [done|]. intros i. rewrite Hl. destruct (decide (i = j)) as [->|Hne].
      * rewrite decide_False by done. rewrite decide_True by (by left).
        by rewrite lookup_insert_eq, Hp.
      * rewrite lookup_insert_ne by done. apply decide_ext. rewrite elem_of_cons. tauto.
    + destruct (IH ix) as (ix' & Hix' & Hl).
      { intros i q Hi. apply Hlen. by right. }
      exists ix'. split; [done|]. intros i. rewrite Hl. destruct (decide (i = j)) as [->|Hne].
      * rewrite decide_False by done. rewrite decide_True by (by left). by rewrite Hp.
      * apply decide_ext. rewrite elem_of_cons. tauto.
Qed.

(** The code rename runs under the parent's borrow. *)
Definition rename_child (now : Z) (id : Z) (old_name new_name : string) (parent : CatalogNode)
    : result Error (list Z) * CatalogNode :=
  match find_child_mut old_name
          (fun n => let n := touch now (set_name new_name n) in
                    Some (id :: collect_descendant_ids n, n)) parent with
  | Some (ids, parent) => (Ok ids, parent)
  | None => (Err (NodeNotFound id), parent)
  end.

Lemma rename_child_run m path err now id old new_name parent c :
  wf_node (root m) = true -> find_by_path m path = Some parent ->
  find_child old parent = Some c -> has_child new_name parent = false -> name_ok new_name = true ->
  exists r' W, with_path_mut path err (rename_child now id old new_name) m
      = (Ok (Ok (id :: collect_descendant_ids c)), set_root r' m)
    /\ wf_node r' = true /\ same_root (root m) r'
    /\ walk [] (root m) ≡ₚ W ++ walk (node_name (root m) :: parse_path path) c
    /\ walk [] r' ≡ₚ W ++ walk (node_name (root m) :: parse_path path)
                            (touch now (set_name new_name c)).
Proof.
  intros Hwf Hp Hc Hno Hok.
  destruct (with_path_mut_focus m path parent Hp) as (plug & L & R & pre' & Hf & Hrun).
  pose proof (foc_wf_sub _ _ _ _ _ _ _ _ Hf Hwf) as Hwp.
  pose proof Hc as Hc'. unfold find_child in Hc'.
  apply find_split in Hc' as (l1 & l2 & Hcs & Hcn & Hl1).
  assert (children_opt parent = Some (l1 ++ c :: l2)) as Hco.
  { unfold children in Hcs. destruct (children_opt parent); cbn in Hcs; [congruence|].
    by destruct l1. }
  set (c' := touch now (set_name new_name c)).
  set (p' := set_children (Some (l1 ++ c' :: l2)) parent).
  assert (rename_child now id old new_name parent
          = (Ok (id :: collect_descendant_ids c), p')) as Hrc.
  { unfold rename_child, find_child_mut. rewrite Hco, update_first_split by done.
    cbv beta iota zeta. fold c'. by rewrite (same_subtree_descendants c c'). }
  exists (plug p'), (L ++ (node_id parent, node_type parent, pre' ++ [node_name parent])
    :: (walk_list (pre' ++ [node_name parent]) l1 ++ walk_list (pre' ++ [node_name parent]) l2) ++ R).
  rewrite Hrun, Hrc. split; [done|]. split_and!.
  - apply (foc_wf _ _ _ _ _ _ _ _ Hf); [done|done|].
    destruct (proj1 (wf_node_dir _ _ Hco) Hwp) as (Ht & Hoks & Hnd & Hall).
    apply (wf_node_dir p' (l1 ++ c' :: l2)); [done|].
    rewrite Forall_app, Forall_cons in Hoks, Hall. rewrite map_app in Hnd. cbn in Hnd.
    destruct Hoks as (? & _ & ?), Hall as (? & Hwc & ?).
    rewrite <- (same_subtree_wf c c') in Hwc by done.
    rewrite !Forall_app, !Forall_cons, map_app. cbn. split_and!; try done.
    apply has_child_false in Hno. rewrite Hcs, map_app in Hno. cbn in Hno.
    rewrite not_elem_of_app, not_elem_of_cons in Hno. destruct Hno as (Hn1 & _ & Hn2).
    apply NoDup_app in Hnd as (? & Hdisj & [_ ?]%NoDup_cons).
    apply NoDup_app. split_and!; [done| |by apply NoDup_cons].
    intros y Hy1 [->|Hy2]%elem_of_cons; [done|]. apply (Hdisj y Hy1). by right.
  - by eapply focus_same_root; [done|].
  - rewrite (focus_mid _ _ _ _ _ _ _ _ Hf), (walk_eq _ parent), (children_Some _ _ Hco).
    rewrite (foc_path _ _ _ _ _ _ _ _ Hf). rewrite walk_list_app, walk_list_cons. cbn.
    solve_Permutation.
  - rewrite (foc_walk _ _ _ _ _ _ _ _ Hf), (walk_eq _ p').
    change (children p') with (l1 ++ c' :: l2). change (node_name p') with (node_name parent).
    rewrite (foc_path _ _ _ _ _ _ _ _ Hf), walk_list_app, walk_list_cons. cbn.
    solve_Permutation.
Qed.

(** Index paths of a subtree all start with the subtree's own path. *)
Lemma index_in_subtree m W P c i p :
  catalog_inv m -> walk [] (root m) ≡ₚ W ++ walk P c -> i ∈ ids c -> node_index m !! i = Some p ->
  exists rest, p = (P ++ [node_name c]) ++ rest.
Proof.
  intros Hinv Hw Hi Hp. rewrite <- (walk_ids_nil P c) in Hi.
  apply list_elem_of_fmap in Hi as ([[j ty] q] & -> & Hin). cbn in *.
  rewrite (inv_complete _ Hinv j ty q) in Hp by (rewrite Hw; apply elem_of_app; by right).
  injection Hp as <-. by apply walk_prefix in Hin.
Qed.

Lemma subtree_ids_nodup m W P c :
  catalog_inv m -> walk [] (root m) ≡ₚ W ++ walk P c -> NoDup (ids c).
Proof.
  intros Hinv Hw. pose proof (inv_nodup _ Hinv) as Hall.
  rewrite (walk_perm_ids _ _ Hw), map_app, (walk_ids_nil P c) in Hall.
  by apply NoDup_app in Hall as (_ & _ & ?).
Qed.

Lemma insert_reroot (P : list string) x y rest :
  <[length P := y]> ((P ++ [x]) ++ rest) = (P ++ [y]) ++ drop (S (length P)) ((P ++ [x]) ++ rest).
Proof.
  rewrite <- !app_assoc. cbn. rewrite insert_app_r_alt by lia.
  rewrite Nat.sub_diag. cbn. rewrite drop_app_ge by lia.
  replace (S (length P) - length P)%nat with 1%nat by lia. done.
Qed.

Lemma rename_eq clk id nn m p :
  id <> 0 -> name_ok nn = true -> node_index m !! id = Some p ->
  let old_name := default EmptyString (last p) in
  rename clk id nn m =
    if String.eqb nn old_name then (Ok tt, m) else
    match find_by_path m (parent_join p) with
    | None => (Err (InvalidPath (parent_join p)), m)
    | Some parent =>
        if has_child nn parent then (Err (NameExists nn), m) else
        match with_path_mut (parent_join p) (InvalidPath (parent_join p))
                (rename_child (clk 0%nat) id old_name nn) m with
        | (Ok (Ok ids), m1) =>
            match rename_index (length p - 1) nn ids (node_index m1) with
            | Some ix => (Ok tt, set_version (u64_add (version m1) 1) (set_index ix m1))
            | None => (Err Panicked, m1)
            end
        | (Ok (Err e), m1) | (Err e, m1) => (Err e, m1)
        end
    end.
Proof.
  intros Hid Hok Hp old. unfold rename. rewrite (proj2 (Z.eqb_neq id 0) Hid).
  rewrite (name_ok_validate _ Hok). run_monad. rewrite Hp. cbn [ok_or].
  fold old. destruct (String.eqb nn old); [done|].
  destruct (find_by_path m (parent_join p)) as [parent|]; [|done]. cbn [ok_or].
  destruct (has_child nn parent); [done|]. unfold rename_child.
  destruct (with_path_mut _ _ _ m) as [[[]|] m1]; [|done..].
  by destruct (rename_index _ _ _ _).
Qed.

Lemma rename_run clk id nn m :
  catalog_inv m -> id_coherent m id ->
  (exists e, rename clk id nn m = (Err e, m) /\ e <> Panicked) \/
  (exists qs parent c, live_child m id qs nn parent c /\ rename clk id nn m = (Ok tt, m)) \/
  exists qs x parent c r' W ix, live_child m id qs x parent c
    /\ nn <> x /\ has_child nn parent = false /\ name_ok nn = true
    /\ wf_node r' = true /\ same_root (root m) r'
    /\ walk [] (root m) ≡ₚ W ++ walk ("/"%string :: qs) c
    /\ walk [] r' ≡ₚ W ++ walk ("/"%string :: qs) (touch (clk 0%nat) (set_name nn c))
    /\ (forall i, ix !! i = if decide (i ∈ ids c)
                            then (fun p => <[S (length qs) := nn]> p) <$> node_index m !! i
                            else node_index m !! i)
    /\ rename clk id nn m = (Ok tt, mkManager r' (next_node_id m) ix (u64_add (version m) 1)).
Proof.
  intros Hinv Hco. destruct (Z.eqb_spec id 0) as [->|Hid]; [left; by eexists|].
  destruct (validate_name nn) as [u|e] eqn:Hv.
  2: { left. exists e. unfold rename. rewrite (proj2 (Z.eqb_neq id 0) Hid), Hv. run_monad.
       split; [done|]. by apply validate_name_err in Hv as [s ->]. }
  destruct (node_index m !! id) as [p|] eqn:Hp.
  2: { left. exists (NodeNotFound id). unfold rename.
       rewrite (proj2 (Z.eqb_neq id 0) Hid), Hv. run_monad. by rewrite Hp. }
  apply validate_name_ok in Hv.
  destruct (live_child_of_index _ _ _ Hinv Hco Hid Hp) as (qs & x & parent & c & -> & Hl).
  destruct (parent_join_eq qs x (lc_parts _ _ _ _ _ _ Hl)) as [_ Hparse].
  rewrite (rename_eq clk id nn m _ Hid Hv Hp).
  rewrite (app_comm_cons qs [x]), last_snoc. cbn [from_option Datatypes.id].
  rewrite <- (app_comm_cons qs [x]).
  destruct (String.eqb_spec nn x) as [->|Hne]; [right; left; by exists qs, parent, c|].
  rewrite (live_parent_path _ _ _ _ _ _ Hl).
  destruct (has_child nn parent) eqn:Hno; [left; by eexists|]. right. right.
  destruct (rename_child_run m (parent_join ("/"%string :: qs ++ [x]))
              (InvalidPath (parent_join ("/"%string :: qs ++ [x]))) (clk 0%nat) id x nn parent c)
    as (r' & W & Hrun & Hwf & Hsr & Hw & Hw');
    [apply Hinv|by eapply live_parent_path|apply Hl|done|done|].
  rewrite Hrun, Hparse, (inv_root_name _ Hinv) in *.
  assert (id :: collect_descendant_ids c = ids c) as Hids
    by (rewrite ids_descendants; by rewrite (lc_id _ _ _ _ _ _ Hl)).
  pose proof (subtree_ids_nodup _ _ _ _ Hinv Hw) as Hnd.
  replace (length ("/"%string :: qs ++ [x]) - 1)%nat with (S (length qs))
    by (cbn; rewrite length_app; cbn; lia).
  destruct (rename_index_spec (S (length qs)) nn (id :: collect_descendant_ids c) (node_index m))
    as (ix & Hix & Hlook).
  { by rewrite Hids. }
  { intros i q Hi Hq. rewrite Hids in Hi.
    destruct (index_in_subtree _ _ _ _ _ _ Hinv Hw Hi Hq) as (rest & ->).
    rewrite !length_app. cbn. lia. }
  cbn [node_index set_root]. rewrite Hix.
  exists qs, x, parent, c, r', W, ix. rewrite Hids in Hlook. by split_and!.
Qed.

Lemma rename_inv clk id nn m :
  catalog_inv m -> id_coherent m id ->
  let m' := snd (rename clk id nn m) in
  catalog_inv m' /\ coherent_le m m'.
Proof.
  intros Hinv Hco. destruct (rename_run clk id nn m Hinv Hco)
    as [(e & -> & _)|[(qs & parent & c & _ & ->)|
        (qs & x & parent & c & r' & W & ix & Hl & Hne & Hno & Hok & Hwf & Hsr & Hw & Hw' & Hix & ->)]];
    [done|done|].
  eapply (relocate_inv m r' W ("/"%string :: qs) ("/"%string :: qs) c
            (touch (clk 0%nat) (set_name nn c))); try done.
  - intros i p Hi Hp. rewrite Hix, decide_True, Hp by done. cbn [fmap option_fmap option_map].
    destruct (index_in_subtree _ _ _ _ _ _ Hinv Hw Hi Hp) as (rest & ->).
    f_equal. apply (insert_reroot ("/"%string :: qs)).
  - intros i Hi. by rewrite Hix, decide_False.
Qed.

(** ** Move *)

Lemma move_index_lookup k pre l (ix : gmap Z (list string)) i :
  NoDup l ->
  move_index k pre l ix !! i =
    if decide (i ∈ l)
    then (fun p => if bool_decide (k <= length p)%nat then pre ++ drop k p else p) <$> ix !! i
    else ix !! i.
Proof.
  intros Hnd. revert ix. unfold move_index. induction Hnd as [|j l Hj Hnd IH]; intros ix; cbn.
  - by rewrite decide_False by apply not_elem_of_nil.
  - rewrite IH. destruct (decide (i = j)) as [->|Hne].
    + rewrite decide_False by done. rewrite decide_True by (by left).
      destruct (ix !! j) as [p|] eqn:Hp; [|done]. cbn.
      case_bool_decide; [by rewrite lookup_insert_eq|done].
    + assert (match ix !! j with
              | Some p => if bool_decide (k ≤ length p)%nat then <[j:=pre ++ drop k p]> ix else ix
              | None => ix end !! i = ix !! i) as ->.
      { destruct (ix !! j); [|done]. case_bool_decide; [by rewrite lookup_insert_ne|done]. }
      apply decide_ext. rewrite elem_of_cons. tauto.
Qed.

Lemma walk_find_path m path i ty :
  catalog_inv m -> (i, ty, "/"%string :: parse_path path) ∈ walk [] (root m) ->
  exists n, find_by_path m path = Some n /\ node_id n = i /\ node_type n = ty.
Proof.
  intros Hinv Hin. destruct (inv_walk_find _ _ _ _ Hinv Hin) as (qs & n & [= <-] & _ & Hn & ?).
  by exists n.
Qed.

Lemma inv_walk_perm m r' :
  catalog_inv m -> same_root (root m) r' -> wf_node r' = true ->
  (exists W, walk [] (root m) ≡ₚ walk [] r' ++ W) -> catalog_inv (set_root r' m).
Proof. intros Hinv Hsr Hwf [W Hw]. eapply (remove_inv m r' W); done. Qed.

Lemma live_child_wf m id qs x parent c :
  catalog_inv m -> live_child m id qs x parent c -> wf_node c = true.
Proof.
  intros Hinv Hl.
  destruct (find_focus [] qs (root m) parent) as (? & ? & ? & ? & Hf); [apply name_ok_parts, Hl|apply Hl|].
  pose proof (foc_wf_sub _ _ _ _ _ _ _ _ Hf (inv_wf _ Hinv)) as Hwp.
  destruct (children_in_opt _ _ (lc_in _ _ _ _ _ _ Hl)) as (cs & Hco & Hin).
  destruct (proj1 (wf_node_dir _ _ Hco) Hwp) as (_ & _ & _ & Hall).
  rewrite Forall_forall in Hall. by apply Hall.
Qed.

Definition moved_node (clk : clock) (destination_name : string) (c : CatalogNode) : CatalogNode :=
  touch (clk 2%nat) (if String.eqb (node_name c) destination_name then c
                     else set_name destination_name c).

Lemma moved_node_spec clk d c :
  same_subtree c (moved_node clk d c) /\ node_name (moved_node clk d c) = d.
Proof. unfold moved_node. destruct (String.eqb_spec (node_name c) d); [|done]. by split. Qed.

(** The core of a move, when the destination name is free and the destination
    is not at or below the node. *)
Lemma move_subtree_run clk id qs x parent c m npp np dest :
  catalog_inv m -> live_child m id qs x parent c -> name_ok dest = true ->
  find_by_path m npp = Some np -> is_dir np = true ->
  (forall rest, "/"%string :: parse_path npp <> ("/"%string :: qs ++ [x]) ++ rest) ->
  (forall i ty, (i, ty, "/"%string :: parse_path npp ++ [dest]) ∉ walk [] (root m)) ->
  exists r' W ix, same_root (root m) r' /\ wf_node r' = true
    /\ walk [] (root m) ≡ₚ W ++ walk ("/"%string :: qs) c
    /\ walk [] r' ≡ₚ W ++ walk ("/"%string :: parse_path npp) (moved_node clk dest c)
    /\ (forall i p, i ∈ ids c -> node_index m !! i = Some p ->
          ix !! i = Some (("/"%string :: parse_path npp ++ [dest]) ++ drop (S (S (length qs))) p))
    /\ (forall i, i ∉ ids c -> ix !! i = node_index m !! i)
    /\ find_by_parts (parse_path npp ++ [dest]) r' = Some (moved_node clk dest c)
    /\ move_subtree clk id ("/"%string :: qs ++ [x]) npp (node_id np) dest m
       = (Ok tt, mkManager r' (next_node_id m) ix (u64_add (version m) 1)).
Proof.
  intros Hinv Hl Hok Hnp Hdir Hnot Hfree.
  destruct (parent_join_eq qs x (lc_parts _ _ _ _ _ _ Hl)) as [_ Hparse].
  destruct (detach_run m (parent_join ("/"%string :: qs ++ [x]))
              (InvalidPath (parent_join ("/"%string :: qs ++ [x]))) (clk 1%nat) parent c)
    as (r2 & Hrun & Hwf2 & Hsr2 & Hw);
    [apply Hinv|apply Hinv|by eapply live_parent_path|apply Hl|].
  rewrite (lc_id _ _ _ _ _ _ Hl) in Hrun. rewrite Hparse, (inv_root_name _ Hinv) in Hw.
  assert (catalog_inv (set_root r2 m)) as Hinv2 by (apply inv_walk_perm; eauto).
  (* the destination directory is still there *)
  pose proof (inv_find_path _ _ _ Hinv Hnp) as Hnpw. rewrite Hw, elem_of_app in Hnpw.
  destruct Hnpw as [Hnpw|Hnpw].
  2: { apply walk_prefix in Hnpw as (rest & E). cbn in E. exfalso. eapply (Hnot rest).
       rewrite E, (lc_name _ _ _ _ _ _ Hl). by rewrite <- app_comm_cons. }
  destruct (walk_find_path (set_root r2 m) npp _ _ Hinv2 Hnpw) as (np2 & Hnp2 & Hid2 & Hty2).
  destruct (moved_node_spec clk dest c) as [Hsub Hmn].
  destruct (attach_run (set_root r2 m) npp (InvalidPath npp) (clk 3%nat) (moved_node clk dest c) np2)
    as (r3 & Hrun3 & Hwf3 & Hsr3 & Hw3 & Hat3).
  { apply Hinv2. }
  { done. }
  { unfold is_dir in *. by rewrite Hty2. }
  { rewrite Hmn. apply (has_child_walk [] r2 (parse_path npp) np2 dest Hwf2); [apply parse_path_parts|done|].
    intros i ty Hin. destruct Hsr2 as (_ & Hn2 & _). rewrite Hn2, (inv_root_name _ Hinv) in Hin.
    apply (Hfree i ty). rewrite Hw. apply elem_of_app. by left. }
  { by rewrite Hmn. }
  { rewrite (same_subtree_wf _ _ Hsub). by apply (live_child_wf m id qs x parent). }
  cbn in Hw3. rewrite (proj1 (proj2 Hsr2)), (inv_root_name _ Hinv) in Hw3.
  pose proof (subtree_ids_nodup _ _ _ _ Hinv Hw) as Hnd.
  exists r3, (walk [] r2),
    (move_index (S (S (length qs))) ("/"%string :: parse_path npp ++ [dest]) (ids c) (node_index m)).
  split_and!.
  - destruct Hsr2 as (? & ? & ?), Hsr3 as (? & ? & ?). unfold same_root. cbn in *. split_and!; congruence.
  - done.
  - done.
  - done.
  - intros i p Hi Hp. rewrite move_index_lookup by done. rewrite decide_True, Hp by done. cbn [fmap option_fmap option_map].
    destruct (index_in_subtree _ _ _ _ _ _ Hinv Hw Hi Hp) as (rest & ->).
    rewrite bool_decide_true; [done|]. rewrite !length_app. cbn. lia.
  - intros i Hi. rewrite move_index_lookup by done. by rewrite decide_False.
  - by rewrite Hmn in Hat3.
  - unfold move_subtree. run_monad. rewrite Hrun. cbn [ok_or]. fold (moved_node clk dest c).
    rewrite Hrun3. cbn [node_index set_root].
    rewrite (index_of_parent m npp np Hinv Hnp), (same_subtree_descendants _ _ Hsub).
    rewrite <- (lc_id _ _ _ _ _ _ Hl), <- ids_descendants. cbn [from_option Datatypes.id].
    replace (length ("/"%string :: qs ++ [x])) with (S (S (length qs)))
      by (cbn; rewrite length_app; cbn; lia).
    done.
Qed.

Lemma check_destination_none np dest id sd repl :
  check_destination np dest id sd repl = Ok None ->
  has_child dest np = false \/ exists ex, find_child dest np = Some ex /\ node_id ex = id.
Proof.
  unfold check_destination, has_child. destruct (find_child dest np) as [ex|]; [|by left].
  destruct (Z.eqb_spec (node_id ex) id); [eauto|].
  destruct repl; [|done]. by destruct (is_dir ex || sd).
Qed.

Lemma check_destination_some np dest id sd repl rid :
  check_destination np dest id sd repl = Ok (Some rid) ->
  exists ex, find_child dest np = Some ex /\ node_id ex = rid /\ rid <> id
    /\ is_dir ex = false /\ repl = true.
Proof.
  unfold check_destination. destruct (find_child dest np) as [ex|]; [|done].
  destruct (Z.eqb_spec (node_id ex) id); [done|].
  destruct repl; [|done]. destruct (is_dir ex) eqn:?; [done|]. destruct sd; [done|].
  intros [= <-]. by exists ex.
Qed.

Lemma wf_not_dir_children n : wf_node n = true -> is_dir n = false -> children n = [].
Proof.
  intros Hwf Hd. unfold children. destruct (children_opt n) as [cs|] eqn:E; [|done].
  by rewrite (wf_children_Some n cs) in Hd.
Qed.

Lemma find_child_live m path np dest ex :
  catalog_inv m -> find_by_path m path = Some np -> find_child dest np = Some ex ->
  live_child m (node_id ex) (parse_path path) dest np ex.
Proof.
  intros Hinv Hnp Hex. destruct (find_child_Some _ _ _ Hex) as [Hn Hin].
  pose proof (find_child_in_walk [] _ _ _ _ (parse_path_parts path) Hnp Hin) as Hw.
  rewrite Hn, (inv_root_name _ Hinv) in Hw. cbn in Hw.
  pose proof (inv_complete _ Hinv _ _ _ Hw) as Hi.
  assert (node_id ex <> 0) as Hne.
  { intros E. pose proof (find_in_walk [] [] (root m) (root m) ltac:(done) eq_refl) as Hr.
    rewrite (inv_root_id _ Hinv) in Hr. apply (inv_complete _ Hinv) in Hr.
    unfold ROOT_NODE_ID in Hr. rewrite E, Hr in Hi. by destruct (parse_path path). }
  destruct (live_child_of_index m (node_id ex) ("/"%string :: parse_path path ++ [dest]) Hinv)
    as (qs & x & p & c & E & Hl); [|done|exact Hi|].
  { intros p Hp. rewrite Hi in Hp. injection Hp as <-. eauto. }
  injection E as E. apply app_inj_tail in E as [<- <-].
  pose proof (lc_parent _ _ _ _ _ _ Hl) as Hp. unfold find_by_path in Hnp. rewrite Hnp in Hp.
  injection Hp as <-. pose proof (lc_child _ _ _ _ _ _ Hl) as Hc. rewrite Hex in Hc.
  by injection Hc as <-.
Qed.

Lemma move_replace_run clk m npp np dest ex :
  catalog_inv m -> find_by_path m npp = Some np -> find_child dest np = Some ex ->
  is_dir ex = false ->
  exists r', same_root (root m) r' /\ wf_node r' = true
    /\ walk [] (root m) ≡ₚ walk [] r' ++ [(node_id ex, node_type ex, "/"%string :: parse_path npp ++ [dest])]
    /\ move_replace clk npp (Some (node_id ex)) m
       = (Ok tt, mkManager r' (next_node_id m) (delete (node_id ex) (node_index m)) (version m)).
Proof.
  intros Hinv Hnp Hex Hd. pose proof (find_child_live _ _ _ _ _ Hinv Hnp Hex) as Hl.
  destruct (detach_run m npp (InvalidPath npp) (clk 0%nat) np ex) as (r' & Hrun & Hwf & Hsr & Hw);
    [apply Hinv|apply Hinv|done|apply Hl|].
  rewrite (inv_root_name _ Hinv) in Hw.
  exists r'. split_and!; [done|done| |].
  - rewrite Hw, (walk_eq _ ex), (wf_not_dir_children ex), (lc_name _ _ _ _ _ _ Hl);
      [done|by eapply live_child_wf|done].
  - unfold move_replace. run_monad. rewrite Hrun. cbn [ok_or].
    rewrite (remove_from_index_detached m r' (node_id ex) (parse_path npp) dest ex);
      [done|done|done|done|apply Hl|done|apply Hl|].
    apply Forall_app. split; [apply parse_path_parts|]. constructor; [apply name_ok_part, Hl|done].
Qed.

Lemma move_eq clk id npp nn repl m qs x :
  id <> 0 -> node_index m !! id = Some ("/"%string :: qs ++ [x]) ->
  let dest := default x nn in
  let cur := "/"%string :: qs ++ [x] in
  move_node_with_options_inner clk id npp nn repl m =
    match validate_name dest with
    | Err e => (Err e, m)
    | Ok _ =>
    if bool_decide (is_Some (node_id <$> find_by_path m (parent_join cur)))
       && bool_decide (node_id <$> find_by_path m (parent_join cur) = node_id <$> find_by_path m npp)
       && String.eqb dest x
    then (Ok tt, m) else
    match find_by_path m npp with
    | None => (Err (InvalidPath npp), m)
    | Some np =>
    if negb (is_dir np) then (Err (NotADirectory (node_id np)), m) else
    if node_id np =? id then (Err (InvalidPath npp), m) else
    if is_below cur (node_index m !! node_id np) then (Err (InvalidPath npp), m) else
    match find_by_id m id with
    | None => (Err (NodeNotFound id), m)
    | Some source =>
    match check_destination np dest id (is_dir source) repl with
    | Err e => (Err e, m)
    | Ok rep => (move_replace clk npp rep;; move_subtree clk id cur npp (node_id np) dest) m
    end end end end.
Proof.
  intros Hid Hp dest cur. unfold move_node_with_options_inner.
  rewrite (proj2 (Z.eqb_neq id 0) Hid).
  rewrite (M_bind_self _ m), (M_bind_lift _ _ m), Hp. cbn [ok_or].
  rewrite (M_bind_lift _ _ m), app_comm_cons, last_snoc. cbn [ok_or]. fold dest.
  rewrite <- app_comm_cons. fold cur. rewrite (M_bind_lift _ _ m).
  destruct (validate_name dest); [|done].
  destruct (bool_decide _ && _ && _); [done|].
  rewrite (M_bind_lift _ _ m). destruct (find_by_path m npp) as [np|]; [|done]. cbn [ok_or].
  destruct (is_dir np); [|done]. cbn [negb]. destruct (node_id np =? id); [done|].
  destruct (is_below _ _); [done|]. rewrite (M_bind_lift _ _ m).
  destruct (find_by_id m id) as [source|]; [|done]. cbn [ok_or].
  rewrite (M_bind_lift _ _ m). by destruct (check_destination _ _ _ _ _).
Qed.

Lemma is_below_false cur tp rest : is_below cur (Some tp) = false -> tp <> cur ++ rest.
Proof.
  unfold is_below. intros H ->. rewrite take_app_length, length_app in H.
  rewrite !bool_decide_true in H; [done|done|lia].
Qed.

(** After the replaced file is gone: the invariant, coherence, and the name free. *)
Lemma replaced_inv m r' rid ty path v :
  catalog_inv m -> same_root (root m) r' -> wf_node r' = true ->
  walk [] (root m) ≡ₚ walk [] r' ++ [(rid, ty, path)] ->
  let m' := mkManager r' (next_node_id m) (delete rid (node_index m)) v in
  catalog_inv m' /\ coherent_le m m'
  /\ (forall i ty', (i, ty', path) ∉ walk [] r').
Proof.
  intros Hinv Hsr Hwf Hw m'. split_and!.
  - eapply remove_inv; try done.
    + intros i p [_ ?]%lookup_delete_Some. done.
    + intros i Hi. rewrite lookup_delete_ne; [done|]. intros ->. apply Hi. by left.
  - intros i Hco p Hi. cbn in Hi. apply lookup_delete_Some in Hi as [Hne Hi]. destruct (Hco p Hi) as [ty' Hin].
    exists ty'. rewrite Hw in Hin. apply elem_of_app in Hin as [Hin|Hin]; [done|].
    apply list_elem_of_singleton in Hin. congruence.
  - intros i ty' Hin. pose proof (walk_paths_nodup [] (root m) (inv_wf _ Hinv)) as Hnd.
    rewrite Hw, map_app in Hnd. apply NoDup_app in Hnd as (_ & Hdisj & _).
    apply (Hdisj path); [|by left]. apply list_elem_of_fmap. by exists (i, ty', path).
Qed.

(** What a successful, effective move did. *)
Record moved (clk : clock) (m m' : CatalogManager) (id : Z) (npp dest : string)
    (qs : list string) (c : CatalogNode) (W gone : list (Z * NodeType * list string)) : Prop := {
  mv_index : node_index m !! id = Some ("/"%string :: qs ++ [node_name c]);
  mv_id : node_id c = id;
  mv_dest : name_ok dest = true;
  mv_before : walk [] (root m) ≡ₚ W ++ walk ("/"%string :: qs) c ++ gone;
  mv_after : walk [] (root m') ≡ₚ W ++ walk ("/"%string :: parse_path npp) (moved_node clk dest c);
  mv_find : gone = [] -> find_by_id m id = Some c;
  mv_at : find_by_parts (parse_path npp ++ [dest]) (root m') = Some (moved_node clk dest c);
  mv_next : next_node_id m' = next_node_id m;
  mv_version : version m' = u64_add (version m) 1;
}.

Lemma move_subtree_moved clk id qs x parent c m npp np dest :
  catalog_inv m -> live_child m id qs x parent c -> name_ok dest = true ->
  find_by_path m npp = Some np -> is_dir np = true ->
  (forall rest, "/"%string :: parse_path npp <> ("/"%string :: qs ++ [x]) ++ rest) ->
  (forall i ty, (i, ty, "/"%string :: parse_path npp ++ [dest]) ∉ walk [] (root m)) ->
  exists m' W, move_subtree clk id ("/"%string :: qs ++ [x]) npp (node_id np) dest m = (Ok tt, m')
    /\ moved clk m m' id npp dest qs c W []
    /\ catalog_inv m' /\ coherent_le m m'.
Proof.
  intros Hinv Hl Hok Hnp Hdir Hnot Hfree.
  destruct (move_subtree_run clk id qs x parent c m npp np dest)
    as (r' & W & ix & Hsr & Hwf & Hw & Hw' & Hmoved & Hkeep & Hat & Hrun); try done.
  destruct (moved_node_spec clk dest c) as [Hsub Hmn].
  destruct (relocate_inv m r' W ("/"%string :: qs) ("/"%string :: parse_path npp) c
              (moved_node clk dest c) ix (u64_add (version m) 1)) as [Hinv' Hco']; try done.
  { intros i p Hi Hp. by rewrite Hmn, (Hmoved i p Hi Hp). }
  eexists _, W. split_and!; [exact Hrun| |exact Hinv'|exact Hco'].
  split; try done; [|apply Hl|by rewrite app_nil_r|intros _; apply Hl].
  rewrite (lc_name _ _ _ _ _ _ Hl). apply Hl.
Qed.

Lemma move_run clk id npp nn repl m :
  catalog_inv m -> id_coherent m id ->
  (exists e, move_node_with_options_inner clk id npp nn repl m = (Err e, m)) \/
  (exists qs x parent c, live_child m id qs x parent c /\ default x nn = x
     /\ (node_id <$> find_by_path m npp) = Some (node_id parent)
     /\ move_node_with_options_inner clk id npp nn repl m = (Ok tt, m)) \/
  exists qs c W gone m', moved clk m m' id npp (default (node_name c) nn) qs c W gone
    /\ (gone = [] \/ repl = true /\ exists rid ty, ty <> Dir
          /\ gone = [(rid, ty, "/"%string :: parse_path npp ++ [default (node_name c) nn])])
    /\ catalog_inv m' /\ coherent_le m m'
    /\ move_node_with_options_inner clk id npp nn repl m = (Ok tt, m').
Proof.
  intros Hinv Hco. destruct (Z.eqb_spec id 0) as [->|Hid]; [left; by eexists|].
  destruct (node_index m !! id) as [p|] eqn:Hp.
  2: { left. unfold move_node_with_options_inner. rewrite (proj2 (Z.eqb_neq id 0) Hid).
       run_monad. rewrite Hp. by eexists. }
  destruct (live_child_of_index _ _ _ Hinv Hco Hid Hp) as (qs & x & parent & c & -> & Hl).
  rewrite (move_eq clk id npp nn repl m qs x Hid Hp). set (dest := default x nn).
  destruct (validate_name dest) as [u|e] eqn:Hv; [|left; by eexists].
  apply validate_name_ok in Hv.
  pose proof (live_parent_path _ _ _ _ _ _ Hl) as Hpar. rewrite Hpar.
  destruct (bool_decide _ && _ && _) eqn:Hnoop.
  { right. left. rewrite !andb_true_iff, !bool_decide_eq_true in Hnoop.
    destruct Hnoop as [[_ E] Ed%String.eqb_eq]. exists qs, x, parent, c. by split_and!. }
  destruct (find_by_path m npp) as [np|] eqn:Hnp; [|left; by eexists].
  destruct (is_dir np) eqn:Hdir; [|left; by eexists]. cbn [negb].
  destruct (Z.eqb_spec (node_id np) id) as [|Hnpid]; [left; by eexists|].
  rewrite (index_of_parent m npp np Hinv Hnp).
  destruct (is_below _ _) eqn:Hbelow; [left; by eexists|].
  rewrite (lc_find _ _ _ _ _ _ Hl).
  destruct (check_destination np dest id (is_dir c) repl) as [rep|e] eqn:Hdst; [|left; by eexists].
  right. right. pose proof (lc_name _ _ _ _ _ _ Hl) as Hx.
  destruct rep as [rid|].
  - apply check_destination_some in Hdst as (ex & Hex & <- & Hne & Hexd & ->).
    destruct (move_replace_run clk m npp np dest ex Hinv Hnp Hex Hexd) as (r1 & Hsr & Hwf & Hw & Hrun).
    destruct (replaced_inv m r1 _ _ _ (version m) Hinv Hsr Hwf Hw) as (Hinv1 & Hco1 & Hfree).
    set (m1 := mkManager r1 _ _ _) in *.
    assert (node_index m1 !! id = Some ("/"%string :: qs ++ [x])) as Hp1
      by (cbn; by rewrite lookup_delete_ne).
    destruct (live_child_of_index m1 id _ Hinv1 (Hco1 _ Hco) Hid Hp1) as (qs1 & x1 & par1 & c1 & E & Hl1).
    injection E as E. apply app_inj_tail in E as [<- <-].
    pose proof (inv_find_path _ _ _ Hinv Hnp) as Hnpw. rewrite Hw, elem_of_app in Hnpw.
    destruct Hnpw as [Hnpw|Hnpw%list_elem_of_singleton].
    2: { exfalso. injection Hnpw as _ _ E. apply (f_equal length) in E.
         rewrite length_app in E. cbn in E. lia. }
    destruct (walk_find_path m1 npp _ _ Hinv1 Hnpw) as (np1 & Hnp1 & Hid1 & Hty1).
    destruct (move_subtree_moved clk id qs x par1 c1 m1 npp np1 dest)
      as (m' & W & Hrun' & Hmv & Hinv' & Hco'); try done.
    { unfold is_dir in *. by rewrite Hty1. }
    { intros rest. by apply is_below_false. }
    pose proof (lc_name _ _ _ _ _ _ Hl1) as Hx1.
    exists qs, c1, W, [(node_id ex, node_type ex, "/"%string :: parse_path npp ++ [dest])], m'.
    rewrite Hx1. fold dest. split_and!.
    + destruct Hmv as [E1 E2 E3 E4 E5 E6 E7 E8 E9]. split; try done; [by rewrite Hx1|].
      rewrite Hw. cbn in E4. rewrite E4. by rewrite app_nil_r, <- app_assoc.
    + right. split; [done|]. eexists _, _. split; [|done].
      intros E. unfold is_dir in Hexd. by rewrite E in Hexd.
    + done.
    + by transitivity m1.
    + rewrite M_bind_eq, Hrun. fold m1. by rewrite <- Hid1.
  - destruct (check_destination_none _ _ _ _ _ Hdst) as [Hno|(ex & Hex & Hexid)].
    2: { exfalso. pose proof (find_child_live _ _ _ _ _ Hinv Hnp Hex) as Hl'.
         pose proof (lc_index _ _ _ _ _ _ Hl') as Hi'. rewrite Hexid, Hp in Hi'.
         injection Hi' as E. apply app_inj_tail in E as [Eq Ed].
         pose proof (lc_parent _ _ _ _ _ _ Hl) as E1. pose proof Hnp as E2.
         unfold find_by_path in E2. rewrite <- Eq, E1 in E2. injection E2 as ->.
         rewrite !bool_decide_true in Hnoop by (done || by eexists).
         rewrite <- Ed, String.eqb_refl in Hnoop. done. }
    destruct (move_subtree_moved clk id qs x parent c m npp np dest)
      as (m' & W & Hrun' & Hmv & Hinv' & Hco'); try done.
    { intros rest. by apply is_below_false. }
    { pose proof (proj1 (has_child_walk [] _ _ _ dest (inv_wf _ Hinv) (parse_path_parts npp) Hnp) Hno) as H.
      by rewrite (inv_root_name _ Hinv) in H. }
    exists qs, c, W, [], m'. rewrite Hx. fold dest. split_and!; [done|by left|done|done|].
    by rewrite M_bind_eq.
Qed.

Lemma move_inv clk id npp nn repl m :
  catalog_inv m -> id_coherent m id ->
  let m' := snd (move_node_with_options clk id npp nn repl m) in
  catalog_inv m' /\ coherent_le m m'.
Proof.
  intros Hinv Hco. unfold move_node_with_options, atomically.
  destruct (move_run clk id npp nn repl m Hinv Hco)
    as [[e ->]|[(qs & x & parent & c & _ & _ & _ & ->)|(qs & c & W & gone & m' & _ & _ & ? & ? & ->)]];
    done.
Qed.
