(* ===== verification/CatalogTrash.v ===== *)
(** * Catalog operations on the trash

    Trashing is an in-place edit (the trash record) followed by a move under
    [/.trash]; restoring is the converse. Run lemmas and invariants. *)

From S2P Require Import Prelude.
From S2P Require Import CatalogNode.
From S2P Require Import CatalogManager.
From S2P Require Import CatalogTree.
From S2P Require Import CatalogInvariant.
From S2P Require Import CatalogOps.
From S2P Require Import CatalogMove.
From Stdlib Require Import Ascii String.
From stdpp Require Import base gmap strings list.
Open Scope Z_scope.

Lemma atomically_inv {A} (c : M A) (Q : CatalogManager -> Prop) m :
  Q m -> (forall a m', c m = (Ok a, m') -> Q m') -> Q (snd (atomically c m)).
Proof.
  intros Hm H. unfold atomically. destruct (c m) as [[a|e] m'] eqn:E; [|done]. by eapply H.
Qed.

(** ** Path strings *)

Lemma filter_parts qs :
  Forall part_ok qs ->
  List.filter (fun p => negb (string_is_empty p) && negb (String.eqb p "/")) qs = qs.
Proof.
  induction 1 as [|q qs Hq _ IH]; [done|]. cbn. apply part_ok_skip in Hq.
  unfold skip_part in Hq. rewrite <- negb_orb, Hq. cbn. by rewrite IH.
Qed.

Lemma path_string_eq qs :
  Forall part_ok qs -> qs <> [] ->
  path_string ("/"%string :: qs) = String.append "/" (str_join "/" qs).
Proof.
  intros Hqs Hne. unfold path_string. cbn [List.filter].
  change (negb (string_is_empty "/") && negb (String.eqb "/" "/")) with false. cbv iota.
  rewrite filter_parts by done. by destruct qs.
Qed.

Lemma parse_path_string qs : Forall part_ok qs -> parse_path (path_string ("/"%string :: qs)) = qs.
Proof.
  intros Hqs. destruct (decide (qs = [])) as [->|Hne]; [done|].
  rewrite path_string_eq by done. change (String.append "/" (str_join "/" qs))
    with (String slash (str_join "/" qs)). rewrite parse_path_slash. by apply parse_path_join.
Qed.

(** The original parent and name are read back from a recorded path. *)
Lemma split_path_string qs x :
  Forall part_ok (qs ++ [x]) ->
  exists par, split_parent_and_name (path_string ("/"%string :: qs ++ [x])) = Some (par, x)
    /\ parse_path par = qs.
Proof.
  intros Hqs. unfold split_parent_and_name.
  change (List.filter _ (split_char slash (path_string ("/"%string :: qs ++ [x]))))
    with (parse_path (path_string ("/"%string :: qs ++ [x]))).
  rewrite parse_path_string, last_snoc by done. eexists. split; [done|].
  apply Forall_app in Hqs as [Hqs _]. rewrite length_app. cbn [length].
  case_bool_decide as Hlen.
  - destruct qs; [done|]. cbn in Hlen. lia.
  - replace (length qs + 1 - 1)%nat with (length qs) by lia. rewrite take_app_length.
    change (String.append "/" (str_join "/" qs)) with (String slash (str_join "/" qs)).
    rewrite parse_path_slash. by apply parse_path_join.
Qed.

Lemma below_trash_string x :
  name_ok x = true -> starts_with "/.trash/" (path_string ["/"; ".trash"; x]%string) = true.
Proof.
  intros Hx%name_ok_part. rewrite path_string_eq; [|by repeat constructor; try apply Hx|done].
  apply (starts_with_app "/.trash/" x).
Qed.

(** The trash directory exists after [ensure_trash_root], and nothing else changed. *)
Lemma ensure_trash_root_run clk m :
  catalog_inv m -> next_node_id m < U64_MAX ->
  (exists e, ensure_trash_root clk m = (Err e, m)) \/
  exists i m1 extra, ensure_trash_root clk m = (Ok i, m1)
    /\ catalog_inv m1 /\ coherent_le m m1
    /\ walk [] (root m1) ≡ₚ extra ++ walk [] (root m)
    /\ (extra = [] \/ extra = [(next_node_id m, Dir, ["/"; ".trash"]%string)])
    /\ (forall j p, node_index m !! j = Some p -> node_index m1 !! j = Some p).
Proof.
  intros Hinv Hnx. unfold ensure_trash_root. rewrite M_bind_self.
  destruct (find_by_path m TRASH_ROOT_PATH) as [n|] eqn:Hn.
  - destruct (is_dir n) eqn:Hd; [|left; by eexists]. right.
    exists (node_id n), m, []. split_and!; try done. by left.
  - destruct (create_dir_inv clk "/" TRASH_SHARD_ID m Hinv Hnx) as [Hinv1 Hco1].
    destruct (create_dir_run clk "/" TRASH_SHARD_ID m Hinv)
      as [[e E]|(parent & r' & _ & _ & _ & _ & Hsr & Hwf & Hw & _ & E)]; rewrite E in *; [left; by eexists|].
    right. eexists _, _, [_]. split_and!; [done|done|done|exact Hw|by right|].
    intros j p Hj. cbn. rewrite lookup_insert_ne; [done|]. intros <-.
    by rewrite (inv_next_none _ Hinv) in Hj.
Qed.

(** What a successful [trash_node] did, step by step. *)
Record trashed (clk : clock) (m m2 m' : CatalogManager) (id : Z) (n : CatalogNode)
    (qs : list string) (x : string) (c : CatalogNode)
    (tname : string) (extra W : list (Z * NodeType * list string)) : Prop := {
  tr_index : node_index m !! id = Some ("/"%string :: qs ++ [x]);
  tr_path : get_path m id = Some (path_string ("/"%string :: qs ++ [x]));
  tr_outside : path_string ("/"%string :: qs ++ [x]) <> TRASH_ROOT_PATH
    /\ starts_with "/.trash/" (path_string ("/"%string :: qs ++ [x])) = false;
  tr_extra : extra = [] \/ extra = [(next_node_id m, Dir, ["/"; ".trash"]%string)];
  tr_prep : walk [] (root m2) ≡ₚ extra ++ walk [] (root m);
  tr_prep_inv : catalog_inv m2;
  tr_moved : moved (later 3 clk) m2 m' id TRASH_ROOT_PATH tname qs c W [];
  tr_name : node_name c = x;
  tr_record : node_trash c = Some (mkTrash (path_string ("/"%string :: qs ++ [x])) (clk 2%nat) tname);
  tr_result : find_by_id m' id = Some n;
  tr_inv : catalog_inv m';
  tr_le : coherent_le m m';
}.

Lemma trash_node_run clk id m n m' :
  catalog_inv m -> id_coherent m id -> next_node_id m < U64_MAX ->
  trash_node_inner clk id m = (Ok n, m') ->
  exists m2 qs x c tname extra W, trashed clk m m2 m' id n qs x c tname extra W.
Proof.
  intros Hinv Hco Hnx. unfold trash_node_inner, ROOT_NODE_ID.
  destruct (Z.eqb_spec id 0) as [|Hid]; [done|]. rewrite M_bind_self, M_bind_lift.
  destruct (get_path m id) as [orig|] eqn:Horig; [|done]. cbn [ok_or].
  pose proof Horig as Horig'. unfold get_path in Horig'.
  destruct (node_index m !! id) as [p|] eqn:Hp; [|done]. cbn in Horig'. injection Horig' as Ho.
  destruct (live_child_of_index _ _ _ Hinv Hco Hid Hp) as (qs & x & parent & c0 & -> & Hl0).
  destruct (_ || _) eqn:Hout; [done|]. apply orb_false_iff in Hout as [Hout1%String.eqb_neq Hout2].
  rewrite M_bind_eq.
  destruct (ensure_trash_root_run clk m Hinv Hnx)
    as [[e ->]|(i & m1 & extra & -> & Hinv1 & Hco1 & Hw1 & Hextra & Hkeep)]; [done|].
  rewrite M_bind_self, M_bind_lift.
  destruct (find_by_id m1 id) as [n1|] eqn:Hn1; [|done]. cbn [ok_or]. rewrite M_bind_lift.
  destruct (unique_trash_name m1 (node_name n1) id) as [tname|] eqn:Htn; [|done].
  rewrite M_bind_eq. destruct (Hco1 _ Hco _ (Hkeep _ _ Hp)) as [ty Hin].
  destruct (with_id_mut_run m1 id ty _
              (fun n => (tt, set_trash (Some (mkTrash orig (clk 2%nat) tname)) n)) Hinv1 Hin)
    as (n2 & r2 & Hn2 & _ & -> & Hwf2 & Hsr2 & Hw2 & Hfind2); [done|].
  destruct (same_walk_inv m1 r2 Hinv1 Hsr2 Hwf2 Hw2) as [Hinv2 Hco2].
  set (m2 := set_root r2 m1) in *. rewrite M_bind_eq.
  assert (node_index m2 !! id = Some ("/"%string :: qs ++ [x])) as Hp2 by (by apply Hkeep).
  destruct (move_run (later 3 clk) id TRASH_ROOT_PATH (Some tname) false m2 Hinv2)
    as [[e ->]|[(qs' & x' & par & c & Hl & Hx & Hpar & _)|
                (qs' & c & W & gone & m3 & Hmv & Hgone & Hinv3 & Hco3 & ->)]];
    [by apply Hco2, Hco1|done| |].
  - (* already under the trash directory: excluded by the path test *)
    exfalso. pose proof (lc_index _ _ _ _ _ _ Hl) as Hi. rewrite Hp2 in Hi.
    injection Hi as E. apply app_inj_tail in E as [<- <-].
    destruct (find_by_path m2 TRASH_ROOT_PATH) as [tr|] eqn:Htr; [|done]. injection Hpar as Hpar.
    pose proof (index_of_parent m2 TRASH_ROOT_PATH tr Hinv2 Htr) as H1.
    pose proof (find_in_walk [] qs (root m2) par
                  (name_ok_parts _ (lc_parts _ _ _ _ _ _ Hl)) (lc_parent _ _ _ _ _ _ Hl)) as H2.
    apply (inv_complete _ Hinv2) in H2. rewrite (inv_root_name _ Hinv2), <- Hpar, H1 in H2.
    injection H2 as <-. rewrite <- Ho in Hout2.
    change (parse_path TRASH_ROOT_PATH) with [".trash"%string] in Hout2. cbn [app] in Hout2.
    by rewrite (below_trash_string x (lc_name_ok _ _ _ _ _ _ Hl)) in Hout2.
  - rewrite M_bind_self. unfold lift. intros E.
    destruct (find_by_id m3 id) as [n3|] eqn:Hn3; [|done]. injection E as -> ->.
    destruct Hgone as [->|[? _]]; [|done].
    pose proof (mv_index _ _ _ _ _ _ _ _ _ _ Hmv) as Hi. rewrite Hp2 in Hi.
    injection Hi as E. apply app_inj_tail in E as [<- Ex].
    pose proof (mv_find _ _ _ _ _ _ _ _ _ _ Hmv eq_refl) as Hc. rewrite Hfind2 in Hc.
    injection Hc as <-.
    eexists m2, qs, x, _, tname, extra, W. split; [done| | |done| |exact Hinv2|exact Hmv| | |done|done|].
    + by rewrite Ho.
    + rewrite Ho. by split.
    + change (root m2) with r2. by rewrite Hw2.
    + done.
    + cbn. by rewrite <- Ho.
    + etransitivity; [exact Hco1|]. etransitivity; [exact Hco2|]. done.
Qed.

(** ** Restoring *)

(** A move succeeds whenever the destination directory exists outside the
    node's own subtree and has no child of the destination name. *)
Lemma move_forward clk id npp dest repl m qs x parent c np :
  catalog_inv m -> id <> 0 -> live_child m id qs x parent c -> name_ok dest = true ->
  find_by_path m npp = Some np -> is_dir np = true -> has_child dest np = false ->
  (forall rest, "/"%string :: parse_path npp <> ("/"%string :: qs ++ [x]) ++ rest) ->
  exists m' W, move_node_with_options_inner clk id npp (Some dest) repl m = (Ok tt, m')
    /\ moved clk m m' id npp dest qs c W [] /\ catalog_inv m' /\ coherent_le m m'.
Proof.
  intros Hinv Hid Hl Hok Hnp Hdir Hno Hnot.
  rewrite (move_eq clk id npp (Some dest) repl m qs x Hid (lc_index _ _ _ _ _ _ Hl)).
  cbn [from_option Datatypes.id]. rewrite (name_ok_validate _ Hok), (live_parent_path _ _ _ _ _ _ Hl), Hnp.
  pose proof (index_of_parent m npp np Hinv Hnp) as Hi.
  assert (find_child dest np = None) as Hnone.
  { unfold has_child in Hno. apply bool_decide_eq_false in Hno. by apply eq_None_not_Some. }
  destruct (bool_decide _ && _ && _) eqn:Hnoop.
  { exfalso. rewrite !andb_true_iff, !bool_decide_eq_true in Hnoop.
    destruct Hnoop as [[_ [= E]] ->%String.eqb_eq].
    pose proof (find_in_walk [] qs (root m) parent
                  (name_ok_parts _ (lc_parts _ _ _ _ _ _ Hl)) (lc_parent _ _ _ _ _ _ Hl)) as Hw.
    apply (inv_complete _ Hinv) in Hw. rewrite (inv_root_name _ Hinv), E, Hi in Hw.
    injection Hw as Hq. pose proof (lc_parent _ _ _ _ _ _ Hl) as Hp. unfold find_by_path in Hnp.
    rewrite Hq, Hp in Hnp. injection Hnp as ->. by rewrite (lc_child _ _ _ _ _ _ Hl) in Hnone. }
  rewrite Hdir. cbn [negb]. destruct (Z.eqb_spec (node_id np) id) as [E|_].
  { exfalso. rewrite E, (lc_index _ _ _ _ _ _ Hl) in Hi. injection Hi as Hi.
    apply (Hnot []). by rewrite app_nil_r, Hi. }
  rewrite Hi. destruct (is_below _ _) eqn:Hbelow.
  { exfalso. unfold is_below in Hbelow. rewrite andb_true_iff, !bool_decide_eq_true in Hbelow.
    destruct Hbelow as [_ E]. eapply Hnot. symmetry. rewrite <- E at 1. apply take_drop. }
  rewrite (lc_find _ _ _ _ _ _ Hl). unfold check_destination. rewrite Hnone.
  destruct (move_subtree_moved clk id qs x parent c m npp np dest)
    as (m' & W & Hrun & Hmv & Hinv' & Hco'); try done.
  - pose proof (proj1 (has_child_walk [] _ _ _ dest (inv_wf _ Hinv) (parse_path_parts npp) Hnp) Hno) as H.
    by rewrite (inv_root_name _ Hinv) in H.
  - exists m', W. by rewrite M_bind_eq.
Qed.

(** A path below the trash directory has it as its first component. *)
Lemma below_trash_parts qs x :
  Forall part_ok (qs ++ [x]) -> starts_with "/.trash/" (path_string ("/"%string :: qs ++ [x])) = true ->
  head qs = Some ".trash"%string.
Proof.
  intros Hok [r Hr]%starts_with_inv. assert (qs ++ [x] <> []) as Hne by (by destruct qs).
  rewrite path_string_eq in Hr by done. apply (f_equal (split_char slash)) in Hr.
  change (String.append "/" (str_join "/" (qs ++ [x]))) with (String slash (str_join "/" (qs ++ [x]))) in Hr.
  change (String.append "/.trash/" r) with (String slash (String.append ".trash" (String slash r))) in Hr.
  assert (forall t, split_char slash (String slash t) = EmptyString :: split_char slash t) as Hs by done.
  rewrite !Hs, split_char_app in Hr by done. injection Hr as Hr. revert Hr.
  rewrite split_char_join; [|done|by eapply Forall_impl; [exact Hok|]; intros ? []].
  pose proof (split_char_nonempty slash r). destruct qs as [|q qs]; [|by intros [= ->]].
  intros [= _ E]. by rewrite <- E in *.
Qed.

(** Whatever [restore_trashed_node] does successfully is an edit and a move. *)
Lemma restore_run clk id rp rn m n m' :
  catalog_inv m -> id_coherent m id ->
  restore_trashed_node_inner clk id rp rn m = (Ok n, m') ->
  exists m2 qs c W par dest, walk [] (root m2) = walk [] (root m) /\ head qs = Some ".trash"%string
    /\ moved clk m2 m' id par dest qs c W [] /\ node_trash c = None
    /\ catalog_inv m' /\ coherent_le m m' /\ find_by_id m' id = Some n.
Proof.
  intros Hinv Hco. unfold restore_trashed_node_inner, ROOT_NODE_ID.
  destruct (Z.eqb_spec id 0) as [|Hid]; [done|]. rewrite M_bind_self, M_bind_lift.
  destruct (get_path m id) as [cur|] eqn:Hcur; [|done]. cbn [ok_or].
  unfold get_path in Hcur. destruct (node_index m !! id) as [p|] eqn:Hp; [|done].
  destruct (live_child_of_index _ _ _ Hinv Hco Hid Hp) as (qs & x & parent & c & -> & Hl).
  destruct (_ || _) eqn:Hout; [done|]. apply orb_false_iff in Hout as [_ Hout%negb_false_iff].
  injection Hcur as <-. rewrite M_bind_lift, (lc_find _ _ _ _ _ _ Hl). cbn [mbind option_bind].
  destruct (node_trash c) as [trash|]; [|done]. cbn [ok_or]. rewrite M_bind_lift.
  destruct (split_parent_and_name (original_path trash)) as [[op on]|]; [|done]. cbn [ok_or].
  set (par := default op rp). set (dest := default on rn). rewrite M_bind_lift.
  destruct (validate_name dest) eqn:Hv; [|done]. rewrite M_bind_lift.
  destruct (find_by_path m par) as [np|] eqn:Hnp; [|done]. cbn [ok_or].
  destruct (has_child dest np) eqn:Hno; [done|]. rewrite M_bind_eq.
  destruct (with_id_mut_run m id _ _ (fun n => (tt, set_trash None n)) Hinv (lc_walk _ _ _ _ _ _ Hl))
    as (n2 & r2 & Hn2 & _ & -> & Hwf2 & Hsr2 & Hw2 & Hfind2); [done|].
  destruct (same_walk_inv m r2 Hinv Hsr2 Hwf2 Hw2) as [Hinv2 Hco2].
  set (m2 := set_root r2 m) in *. rewrite M_bind_eq.
  destruct (move_run clk id par (Some dest) false m2 Hinv2)
    as [[e ->]|[(qs' & x' & par' & c' & Hl' & Hx & Hpar & _)|
                (qs' & c' & W & gone & m3 & Hmv & Hgone & Hinv3 & Hco3 & ->)]];
    [by apply Hco2|done| |].
  - exfalso. cbn in Hx. subst x'.
    destruct (find_by_path m2 par) as [np2|] eqn:Hnp2; [|done]. injection Hpar as Hpar.
    pose proof (index_of_parent m2 par np2 Hinv2 Hnp2) as H1.
    pose proof (find_in_walk [] qs' (root m2) par'
                  (name_ok_parts _ (lc_parts _ _ _ _ _ _ Hl')) (lc_parent _ _ _ _ _ _ Hl')) as H2.
    apply (inv_complete _ Hinv2) in H2. rewrite (inv_root_name _ Hinv2), <- Hpar, H1 in H2.
    injection H2 as <-.
    eapply (proj1 (has_child_walk [] _ _ _ dest (inv_wf _ Hinv) (parse_path_parts par) Hnp) Hno).
    rewrite (inv_root_name _ Hinv), <- Hw2. apply (lc_walk _ _ _ _ _ _ Hl').
  - rewrite M_bind_self. unfold lift. intros E.
    destruct (find_by_id m3 id) as [n3|] eqn:Hn3; [|done]. injection E as -> ->.
    destruct Hgone as [->|[? _]]; [|done].
    pose proof (mv_find _ _ _ _ _ _ _ _ _ _ Hmv eq_refl) as Hc. rewrite Hfind2 in Hc.
    injection Hc as <-.
    pose proof (mv_index _ _ _ _ _ _ _ _ _ _ Hmv) as Hi. change (node_index m2) with (node_index m) in Hi.
    rewrite Hp in Hi. injection Hi as [E Ex]%app_inj_tail. subst qs'.
    exists m2, qs, (set_trash None n2), W, par, dest. split_and!; try done; [|by transitivity m2].
    apply (below_trash_parts qs x); [|done]. apply Forall_app. split; [by apply name_ok_parts, Hl|].
    apply Forall_singleton, name_ok_part, Hl.
Qed.

Lemma trash_node_inv clk id m :
  catalog_inv m -> id_coherent m id -> next_node_id m < U64_MAX ->
  let m' := snd (trash_node clk id m) in catalog_inv m' /\ coherent_le m m'.
Proof.
  intros Hinv Hco Hnx. apply (atomically_inv _ (fun m' => catalog_inv m' /\ coherent_le m m')); [done|].
  intros n m' E. destruct (trash_node_run clk id m n m' Hinv Hco Hnx E) as (?&?&?&?&?&?&?&[]). done.
Qed.

Lemma restore_trashed_node_inv clk id rp rn m :
  catalog_inv m -> id_coherent m id ->
  let m' := snd (restore_trashed_node clk id rp rn m) in catalog_inv m' /\ coherent_le m m'.
Proof.
  intros Hinv Hco. apply (atomically_inv _ (fun m' => catalog_inv m' /\ coherent_le m m')); [done|].
  intros n m' E. destruct (restore_run clk id rp rn m n m' Hinv Hco E) as (?&?&?&?&?&?&?&?&?&?&?&?&?). done.
Qed.
