(* ===== verification/CatalogExchange.v ===== *)
(** * Exchanging two nodes, emptying the trash

    [exchange_nodes] swaps two nodes of the same type, inside one directory or
    across two, and rebuilds the index; [empty_trash] deletes every child of
    [/.trash]. Run lemmas and invariants. *)

From S2P Require Import Prelude.
From S2P Require Import CatalogNode.
From S2P Require Import CatalogManager.
From S2P Require Import CatalogTree.
From S2P Require Import CatalogInvariant.
From S2P Require Import CatalogOps.
From S2P Require Import CatalogMove.
From S2P Require Import CatalogTrash.
From Stdlib Require Import Ascii String.
From stdpp Require Import base gmap strings list.
Open Scope Z_scope.

(** ** Lists *)

Lemma position_lookup {A} (p : A -> bool) l x :
  x ∈ l -> p x = true -> (forall y, y ∈ l -> p y = true -> y = x) ->
  exists i, position p l = Some i /\ l !! i = Some x.
Proof.
  induction l as [|y l IH]; intros Hx Hp Huniq; [by apply not_elem_of_nil in Hx|]. cbn.
  destruct (p y) eqn:Ey.
  - exists 0%nat. split; [done|]. cbn. f_equal. apply Huniq; [by left|done].
  - apply elem_of_cons in Hx as [->|Hx]; [congruence|].
    destruct IH as (i & -> & Hi); [done|done|intros z Hz; apply Huniq; by right|].
    by exists (S i).
Qed.

Lemma alter_perm {A} (f : A -> A) l i x :
  l !! i = Some x -> exists rest, l ≡ₚ x :: rest /\ alter f i l ≡ₚ f x :: rest.
Proof.
  revert i. induction l as [|y l IH]; intros [|i]; cbn; try done.
  - intros [= ->]. by exists l.
  - intros (rest & H1 & H2)%IH. exists (y :: rest). cbn. rewrite H1 at 1.
    change (alter f (S i) (y :: l)) with (y :: alter f i l). rewrite H2. split; apply perm_swap.
Qed.

Lemma alter_two_perm {A} (f g : A -> A) l i j x y :
  i <> j -> l !! i = Some x -> l !! j = Some y ->
  exists rest, l ≡ₚ x :: y :: rest /\ alter g j (alter f i l) ≡ₚ f x :: g y :: rest.
Proof.
  revert i j. induction l as [|z l IH]; intros [|i] [|j] Hij Hi Hj; try done.
  - injection Hi as ->. destruct (alter_perm g l j y Hj) as (rest & H1 & H2).
    exists rest. change (alter g (S j) (alter f 0%nat (x :: l))) with (f x :: alter g j l).
    by rewrite H1 at 1; rewrite H2.
  - injection Hj as ->. destruct (alter_perm f l i x Hi) as (rest & H1 & H2).
    exists rest. change (alter g 0%nat (alter f (S i) (y :: l))) with (g y :: alter f i l).
    rewrite H1 at 1. rewrite H2. split; apply perm_swap.
  - destruct (IH i j) as (rest & H1 & H2); [congruence|done|done|].
    exists (z :: rest). change (alter g (S j) (alter f (S i) (z :: l))) with (z :: alter g j (alter f i l)).
    rewrite H1 at 1. rewrite H2. split; solve_Permutation.
Qed.

Lemma walk_list_perm pre cs cs' : cs ≡ₚ cs' -> walk_list pre cs ≡ₚ walk_list pre cs'.
Proof.
  induction 1 as [|c cs cs' _ IH|c d cs|cs1 cs2 cs3 _ IH1 _ IH2].
  - done.
  - by rewrite !walk_list_cons, IH.
  - rewrite !walk_list_cons. solve_Permutation.
  - by rewrite IH1.
Qed.

(** ** Paths of the index *)

Lemma parent_path_from_index_eq qs x :
  Forall part_ok qs ->
  exists s, parent_path_from_index ("/"%string :: qs ++ [x]) = Ok s /\ parse_path s = qs.
Proof.
  intros Hqs. unfold parent_path_from_index. cbn [length]. rewrite length_app. cbn [length].
  rewrite bool_decide_false by lia. case_bool_decide as Hlen.
  - destruct qs; [|cbn in Hlen; lia]. by exists "/"%string.
  - replace (S (length qs + 1) - 1)%nat with (S (length qs)) by lia. cbn [take drop].
    rewrite take_app_length. eexists. split; [done|].
    rewrite drop_0. change (String.append "/" (str_join "/" qs)) with (String slash (str_join "/" qs)).
    rewrite parse_path_slash. by apply parse_path_join.
Qed.

Lemma is_path_prefix_false l r rest : is_path_prefix l r = false -> rest <> [] -> r <> l ++ rest.
Proof.
  unfold is_path_prefix. rewrite andb_false_iff, !bool_decide_eq_false. intros H Hrest ->.
  rewrite length_app, take_app_length in H. destruct rest; [done|]. cbn in H. destruct H; [lia|done].
Qed.

(** A directory the walk lists is found by its path. *)
Lemma walk_find_parts r path i ty :
  wf_node r = true -> node_name r = "/"%string -> (i, ty, "/"%string :: parse_path path) ∈ walk [] r ->
  exists n, find_by_parts (parse_path path) r = Some n /\ node_id n = i /\ node_type n = ty.
Proof.
  intros Hwf Hname Hin. apply walk_find in Hin as (qs & n & E & _ & Hn & Hi & Ht); [|done].
  rewrite Hname in E. injection E as <-. by exists n.
Qed.

Lemma same_root_trans r1 r2 r3 : same_root r1 r2 -> same_root r2 r3 -> same_root r1 r3.
Proof. intros (? & ? & ?) (? & ? & ?). split_and!; congruence. Qed.

Lemma attach_child_eq clk path node m parent b m' :
  find_by_path m path = Some parent -> is_dir parent = true ->
  has_child (node_name node) parent = false ->
  with_path_mut path (InvalidPath path) (add_child (clk 0%nat) node) m = (Ok b, m') ->
  attach_child clk path node m = (Ok tt, m').
Proof.
  intros Hp Hd Hno. destruct (with_path_mut_focus m path parent Hp) as (plug & L & R & pre' & _ & Hrun).
  unfold attach_child. rewrite M_bind_eq, !Hrun, Hd, Hno. cbn [negb].
  destruct (add_child (clk 0%nat) node parent) as [b' p']. cbn [fst snd]. by intros [= -> <-].
Qed.

(** ** The exchange *)

(** What a successful exchange did to the tree [r]: the subtrees [c] and [d]
    swapped their places and names, everything else stayed. *)
Record swapped (r r' : CatalogNode) (P Q : list string) (x y : string) (src dst : Z) : Prop := {
  sw_root : same_root r r';
  sw_wf : wf_node r' = true;
  sw_walk : exists W c c' d d', same_subtree c c' /\ same_subtree d d'
    /\ node_id c = src /\ node_id d = dst
    /\ node_name c = x /\ node_name d = y /\ node_name c' = y /\ node_name d' = x
    /\ walk [] r ≡ₚ W ++ walk ("/"%string :: P) c ++ walk ("/"%string :: Q) d
    /\ walk [] r' ≡ₚ W ++ walk ("/"%string :: Q) c' ++ walk ("/"%string :: P) d';
}.

Lemma swapped_ids r r' P Q x y src dst : swapped r r' P Q x y src dst -> ids r' ≡ₚ ids r.
Proof.
  intros [_ _ (W & c & c' & d & d' & Hc & Hd & _ & _ & _ & _ & _ & _ & Hw & Hw')].
  rewrite (walk_perm_ids _ _ Hw), (walk_perm_ids _ _ Hw'), !map_app, !walk_ids_nil.
  rewrite (same_subtree_ids _ _ Hc), (same_subtree_ids _ _ Hd). solve_Permutation.
Qed.

Lemma wf_node_perm n n' cs cs' :
  children_opt n = Some cs -> children_opt n' = Some cs' -> node_type n' = node_type n ->
  wf_node n = true -> map node_name cs' ≡ₚ map node_name cs ->
  Forall (fun c => wf_node c = true) cs' -> wf_node n' = true.
Proof.
  intros Hco Hco' Ht Hwf Hnames Hall.
  destruct (proj1 (wf_node_dir _ _ Hco) Hwf) as (Hdir & Hoks & Hnd & _).
  apply (wf_node_dir _ _ Hco'). split_and!; [congruence| |by rewrite Hnames|done].
  apply (List.Forall_map node_name (fun nm => name_ok nm = true)). rewrite Hnames.
  by apply List.Forall_map.
Qed.

Lemma exchange_siblings_run clk m path err parent src dst x y c d :
  catalog_inv m -> find_by_path m path = Some parent ->
  c ∈ children parent -> d ∈ children parent -> src <> dst ->
  node_id c = src -> node_id d = dst -> node_name c = x -> node_name d = y ->
  exists r', with_path_mut path err (exchange_siblings clk src dst x y) m = (Ok (Ok tt), set_root r' m)
    /\ swapped (root m) r' (parse_path path) (parse_path path) x y src dst.
Proof.
  intros Hinv Hp Hc Hd Hne Hci Hdi Hcn Hdn.
  destruct (with_path_mut_focus m path parent Hp) as (plug & L & R & pre' & Hf & Hrun).
  pose proof (foc_wf_sub _ _ _ _ _ _ _ _ Hf (inv_wf _ Hinv)) as Hwp.
  destruct (children_in_opt _ _ Hc) as (cs & Hco & Hcs). rewrite (children_Some _ _ Hco) in Hd.
  pose proof (children_ids_nodup _ (focus_ids_nodup _ _ _ _ _ _ _ _ Hf (inv_nodup _ Hinv))) as Hnd.
  rewrite (children_Some _ _ Hco) in Hnd.
  assert (forall e z, e ∈ cs -> z ∈ cs -> node_id z = node_id e -> z = e) as Huniq.
  { intros e z [i Hi]%list_elem_of_lookup [j Hj]%list_elem_of_lookup E.
    assert (i = j) as ->; [|congruence].
    eapply NoDup_lookup; [exact Hnd| |]; rewrite list_lookup_fmap, ?Hi, ?Hj; cbn; [done|by rewrite E]. }
  destruct (position_lookup (has_id src) cs c) as (i & Hpi & Hi);
    [done|unfold has_id; lia|intros z Hz Hzi; apply Huniq; [done..|unfold has_id in Hzi; lia]|].
  destruct (position_lookup (has_id dst) cs d) as (j & Hpj & Hj);
    [done|unfold has_id; lia|intros z Hz Hzi; apply Huniq; [done..|unfold has_id in Hzi; lia]|].
  assert (i <> j) as Hij by (intros ->; congruence).
  set (f := fun n => touch (clk 0%nat) (set_name y n)).
  set (g := fun n => touch (clk 1%nat) (set_name x n)).
  destruct (alter_two_perm f g cs i j c d Hij Hi Hj) as (rest & Hperm & Hperm').
  set (p' := touch (clk 2%nat) (set_children (Some (alter g j (alter f i cs))) parent)).
  assert (exchange_siblings clk src dst x y parent = (Ok tt, p')) as Hex
    by (unfold exchange_siblings; by rewrite Hco, Hpi, Hpj).
  exists (plug p'). rewrite Hrun, Hex. split; [done|]. split.
  - by eapply focus_same_root; [done|].
  - apply (foc_wf _ _ _ _ _ _ _ _ Hf); [done|apply Hinv|].
    apply (wf_node_perm parent p' cs (alter g j (alter f i cs))); try done.
    + rewrite (Permutation_map node_name Hperm), (Permutation_map node_name Hperm').
      cbn. rewrite Hcn, Hdn. apply perm_swap.
    + destruct (proj1 (wf_node_dir _ _ Hco) Hwp) as (_ & _ & _ & Hall).
      rewrite Hperm in Hall. rewrite Hperm'. apply Forall_cons in Hall as [? [? ?]%Forall_cons].
      repeat (apply Forall_cons; split); [by rewrite (same_subtree_wf c)|by rewrite (same_subtree_wf d)|done].
  - exists (L ++ (node_id parent, node_type parent, pre' ++ [node_name parent])
             :: walk_list (pre' ++ [node_name parent]) rest ++ R), c, (f c), d, (g d).
    split_and!; try done.
    + rewrite (focus_mid _ _ _ _ _ _ _ _ Hf), (walk_eq _ parent), (children_Some _ _ Hco).
      rewrite (walk_list_perm _ _ _ Hperm), !walk_list_cons.
      rewrite (foc_path _ _ _ _ _ _ _ _ Hf), (inv_root_name _ Hinv). cbn. solve_Permutation.
    + rewrite (foc_walk _ _ _ _ _ _ _ _ Hf), (walk_eq _ p').
      change (children p') with (alter g j (alter f i cs)). change (node_name p') with (node_name parent).
      rewrite (walk_list_perm _ _ _ Hperm'), !walk_list_cons.
      rewrite (foc_path _ _ _ _ _ _ _ _ Hf), (inv_root_name _ Hinv). cbn. solve_Permutation.
Qed.

(** An entry outside the subtree below [P ++ [x]] survives its removal. *)
Lemma survives r r' P c e :
  walk [] r ≡ₚ walk [] r' ++ walk ("/"%string :: P) c -> e ∈ walk [] r ->
  (forall rest, snd e <> ("/"%string :: P ++ [node_name c]) ++ rest) -> e ∈ walk [] r'.
Proof.
  intros Hw He Hout. rewrite Hw in He. apply elem_of_app in He as [He|He]; [done|].
  apply walk_prefix in He as (rest & E). exfalso. apply (Hout rest). rewrite E. by cbn.
Qed.

(** The parent of a live node, as an entry of the walk. *)
Lemma live_parent_entry m id qs x parent c :
  catalog_inv m -> live_child m id qs x parent c ->
  (node_id parent, Dir, "/"%string :: qs) ∈ walk [] (root m).
Proof.
  intros Hinv Hl. pose proof (find_in_walk [] qs (root m) parent
    (name_ok_parts _ (lc_parts _ _ _ _ _ _ Hl)) (lc_parent _ _ _ _ _ _ Hl)) as Hin.
  rewrite (inv_root_name _ Hinv) in Hin. cbn in Hin. destruct (children_in_opt _ _ (lc_in _ _ _ _ _ _ Hl)) as (cs & Hco & _).
  destruct (find_focus [] qs (root m) parent) as (? & ? & ? & ? & Hf); [apply name_ok_parts, Hl|apply Hl|].
  pose proof (foc_wf_sub _ _ _ _ _ _ _ _ Hf (inv_wf _ Hinv)) as Hwp.
  destruct (proj1 (wf_node_dir _ _ Hco) Hwp) as (Ht & _). by rewrite Ht in Hin.
Qed.

(** A detached subtree goes below a directory of what is left of the tree. *)
Lemma attach_child_run clk m path node i :
  wf_node (root m) = true -> node_name (root m) = "/"%string ->
  (i, Dir, "/"%string :: parse_path path) ∈ walk [] (root m) ->
  (forall j ty, (j, ty, "/"%string :: parse_path path ++ [node_name node]) ∉ walk [] (root m)) ->
  name_ok (node_name node) = true -> wf_node node = true ->
  exists r', attach_child clk path node m = (Ok tt, set_root r' m)
    /\ wf_node r' = true /\ same_root (root m) r'
    /\ walk [] r' ≡ₚ walk [] (root m) ++ walk ("/"%string :: parse_path path) node.
Proof.
  intros Hwf Hname Hin Hfree Hok Hwn.
  destruct (walk_find_parts _ _ _ _ Hwf Hname Hin) as (p & Hp & _ & Ht).
  assert (is_dir p = true) as Hd by (unfold is_dir; by rewrite Ht).
  assert (has_child (node_name node) p = false) as Hno.
  { apply (has_child_walk [] (root m) (parse_path path) p _ Hwf (parse_path_parts path) Hp).
    rewrite Hname. exact Hfree. }
  destruct (attach_run m path (InvalidPath path) (clk 0%nat) node p) as (r' & Hrun & Hwf' & Hsr & Hw & _);
    try done.
  exists r'. rewrite Hname in Hw. split_and!; try done. by eapply attach_child_eq.
Qed.

Lemma detach_child_run clk m path parent c :
  catalog_inv m -> find_by_path m path = Some parent -> c ∈ children parent ->
  exists r', detach_child clk path (node_id c) m = (Ok c, set_root r' m)
    /\ wf_node r' = true /\ same_root (root m) r' /\ catalog_inv (set_root r' m)
    /\ walk [] (root m) ≡ₚ walk [] r' ++ walk ("/"%string :: parse_path path) c.
Proof.
  intros Hinv Hp Hc.
  destruct (detach_run m path (InvalidPath path) (clk 0%nat) parent c (inv_wf _ Hinv) (inv_nodup _ Hinv) Hp Hc)
    as (r' & Hrun & Hwf & Hsr & Hw).
  rewrite (inv_root_name _ Hinv) in Hw. exists r'. split_and!; try done; [|by apply inv_walk_perm; eauto].
  unfold detach_child. by rewrite M_bind_eq, Hrun.
Qed.

(** The body of the exchange across two directories. *)
Definition exchange_across (clk : clock) (sp dp : string) (src dst : Z) (x y : string) : M unit :=
  src_node ← detach_child clk sp src;
  dst_node ← detach_child (later 1 clk) dp dst;
  let src_node := touch (clk 2%nat) (set_name y src_node) in
  let dst_node := touch (clk 3%nat) (set_name x dst_node) in
  attach_child (later 4 clk) dp src_node;;
  attach_child (later 5 clk) sp dst_node.

(** Neither path lies at or below the other. *)
Definition apart (P Q : list string) (x y : string) : Prop :=
  (forall rest, "/"%string :: Q ++ [y] <> ("/"%string :: P ++ [x]) ++ rest)
  /\ (forall rest, "/"%string :: P ++ [x] <> ("/"%string :: Q ++ [y]) ++ rest).

Lemma apart_of_prefix P Q x y :
  P ++ [x] <> Q ++ [y] ->
  is_path_prefix ("/"%string :: P ++ [x]) ("/"%string :: Q ++ [y]) = false ->
  is_path_prefix ("/"%string :: Q ++ [y]) ("/"%string :: P ++ [x]) = false -> apart P Q x y.
Proof.
  intros HPQ H1 H2. split; intros [|r rest]; try (by apply is_path_prefix_false);
    rewrite app_nil_r; intros [= E]; by apply HPQ.
Qed.

(** A directory that is a proper ancestor of a path apart from another is not below it. *)
Lemma apart_parent P Q x y rest :
  apart P Q x y -> "/"%string :: Q <> ("/"%string :: P ++ [x]) ++ rest.
Proof.
  intros [H _] E. apply (H (rest ++ [y])).
  rewrite app_assoc. change ("/"%string :: Q ++ [y]) with (("/"%string :: Q) ++ [y]). by rewrite E.
Qed.

Lemma parent_not_below (P : list string) x rest : "/"%string :: P <> ("/"%string :: P ++ [x]) ++ rest.
Proof. intros E. apply (f_equal length) in E. cbn in E. rewrite !length_app in E. cbn in E. lia. Qed.

Lemma apart_sym P Q x y : apart P Q x y -> apart Q P y x.
Proof. intros [? ?]. by split. Qed.

Lemma live_child_nonroot m id qs x parent c :
  catalog_inv m -> live_child m id qs x parent c -> id <> 0.
Proof.
  intros Hinv Hl ->. pose proof (lc_index _ _ _ _ _ _ Hl) as H0.
  pose proof (index_of_parent m "/" (root m) Hinv eq_refl) as Hr.
  rewrite (inv_root_id _ Hinv) in Hr. change (parse_path "/") with (@nil string) in Hr.
  unfold ROOT_NODE_ID in Hr. rewrite H0 in Hr. by destruct qs.
Qed.

(** A live node apart from a detached subtree stays live. *)
Lemma live_after_detach m r1 P Q c dst y q d :
  catalog_inv m -> catalog_inv (set_root r1 m) -> live_child m dst Q y q d ->
  walk [] (root m) ≡ₚ walk [] r1 ++ walk ("/"%string :: P) c -> apart P Q (node_name c) y ->
  exists q1 d1, live_child (set_root r1 m) dst Q y q1 d1.
Proof.
  intros Hinv Hinv1 Hd Hw1 [Hsd _].
  pose proof (survives _ _ _ _ _ Hw1 (lc_walk _ _ _ _ _ _ Hd) Hsd) as Hin1.
  destruct (live_child_of_index (set_root r1 m) dst ("/"%string :: Q ++ [y]) Hinv1)
    as (Q' & y' & q1 & d1 & [= [<- <-]%app_inj_tail] & Hd1); [| |apply Hd|by eauto].
  - intros p' Hp'. cbn in Hp'. rewrite (lc_index _ _ _ _ _ _ Hd) in Hp'. injection Hp' as <-. by eexists.
  - exact (live_child_nonroot m dst Q y q d Hinv Hd).
Qed.

(** Both nodes detached: their parents are still there and their places are free. *)
Lemma detach_two_run clk m sp dp src dst P Q x y p q c d :
  catalog_inv m -> live_child m src P x p c -> live_child m dst Q y q d ->
  parse_path sp = P -> parse_path dp = Q -> apart P Q x y ->
  exists r1 r2 d1, detach_child clk sp src m = (Ok c, set_root r1 m)
    /\ detach_child (later 1 clk) dp dst (set_root r1 m) = (Ok d1, set_root r2 m)
    /\ wf_node r2 = true /\ same_root (root m) r2 /\ wf_node d1 = true
    /\ node_id d1 = dst /\ node_name d1 = y
    /\ walk [] (root m) ≡ₚ walk [] r2 ++ walk ("/"%string :: P) c ++ walk ("/"%string :: Q) d1
    /\ (node_id p, Dir, "/"%string :: P) ∈ walk [] r2
    /\ (node_id q, Dir, "/"%string :: Q) ∈ walk [] r2.
Proof.
  intros Hinv Hc Hd Hsp Hdp Hap. pose proof (lc_name _ _ _ _ _ _ Hc) as Hx.
  destruct (detach_child_run clk m sp p c Hinv) as (r1 & Hr1 & Hwf1 & Hsr1 & Hinv1 & Hw1);
    [unfold find_by_path; rewrite Hsp; apply Hc|apply Hc|].
  rewrite Hsp in Hw1. rewrite (lc_id _ _ _ _ _ _ Hc) in Hr1.
  destruct (live_after_detach m r1 P Q c dst y q d Hinv Hinv1 Hd Hw1) as (q1 & d1 & Hd1);
    [by rewrite Hx|]. pose proof (lc_name _ _ _ _ _ _ Hd1) as Hy.
  destruct (detach_child_run (later 1 clk) (set_root r1 m) dp q1 d1 Hinv1)
    as (r2 & Hr2 & Hwf2 & Hsr2 & Hinv2 & Hw2);
    [unfold find_by_path; rewrite Hdp; apply Hd1|apply Hd1|].
  rewrite Hdp in Hw2. rewrite (lc_id _ _ _ _ _ _ Hd1) in Hr2. cbn [root set_root] in *.
  exists r1, r2, d1. split_and!; try done.
  - by eapply same_root_trans.
  - by eapply (live_child_wf (set_root r1 m)).
  - apply Hd1.
  - rewrite Hw1, Hw2. solve_Permutation.
  - eapply survives; [exact Hw2|eapply survives; [exact Hw1|by eapply live_parent_entry|]|]; cbn.
    + intros rest. apply parent_not_below.
    + intros rest. rewrite Hy. by apply (apart_parent _ _ _ x), apart_sym.
  - eapply survives; [exact Hw2|eapply survives; [exact Hw1|by eapply live_parent_entry|]|]; cbn.
    + intros rest. rewrite Hx. by apply (apart_parent _ _ _ y).
    + intros rest. apply parent_not_below.
Qed.

Lemma exchange_across_run clk m sp dp src dst P Q x y p q c d :
  catalog_inv m -> live_child m src P x p c -> live_child m dst Q y q d ->
  parse_path sp = P -> parse_path dp = Q -> apart P Q x y ->
  exists r', exchange_across clk sp dp src dst x y m = (Ok tt, set_root r' m)
    /\ swapped (root m) r' P Q x y src dst.
Proof.
  intros Hinv Hc Hd Hsp Hdp Hap. pose proof (lc_name _ _ _ _ _ _ Hc) as Hx.
  destruct (detach_two_run clk m sp dp src dst P Q x y p q c d)
    as (r1 & r2 & d1 & Hr1 & Hr2 & Hwf2 & Hsr2 & Hwd & Hid & Hy & Hw & HP & HQ); try done.
  assert (node_name r2 = "/"%string) as Hname2 by (rewrite (proj1 (proj2 Hsr2)); apply Hinv).
  (* both places are free *)
  pose proof (walk_paths_nodup [] (root m) (inv_wf _ Hinv)) as Hnd.
  rewrite Hw, !map_app in Hnd. apply NoDup_app in Hnd as (_ & Hdisj & _).
  assert (forall j ty, (j, ty, "/"%string :: Q ++ [y]) ∉ walk [] r2) as HfQ.
  { intros j ty Hj. apply (list_elem_of_fmap_2 entry_path) in Hj. apply (Hdisj _ Hj), elem_of_app. right.
    rewrite walk_eq, Hy. cbn. by left. }
  assert (forall j ty, (j, ty, "/"%string :: P ++ [x]) ∉ walk [] r2) as HfP.
  { intros j ty Hj. apply (list_elem_of_fmap_2 entry_path) in Hj. apply (Hdisj _ Hj), elem_of_app. left.
    rewrite walk_eq, Hx. cbn. by left. }
  set (c' := touch (clk 2%nat) (set_name y c)). set (d' := touch (clk 3%nat) (set_name x d1)).
  destruct (attach_child_run (later 4 clk) (set_root r2 m) dp c' (node_id q))
    as (r3 & Hr3 & Hwf3 & Hsr3 & Hw3); try done; try (by rewrite Hdp).
  { apply Hd. }
  { rewrite (same_subtree_wf c) by done. by eapply live_child_wf. }
  cbn [root set_root] in *. rewrite Hdp in Hw3.
  destruct (attach_child_run (later 5 clk) (set_root r3 m) sp d' (node_id p))
    as (r4 & Hr4 & Hwf4 & Hsr4 & Hw4); try done.
  { cbn [root set_root]. by rewrite (proj1 (proj2 Hsr3)). }
  { rewrite Hsp. cbn. rewrite Hw3. apply elem_of_app. by left. }
  { intros j ty. rewrite Hsp. cbn. rewrite Hw3, elem_of_app. intros [Hj|Hj]; [by eapply HfP|].
    apply walk_prefix in Hj as (rest & E). by apply (proj2 Hap rest). }
  { apply Hc. }
  { by rewrite (same_subtree_wf d1). }
  cbn [root set_root] in *. rewrite Hsp in Hw4. exists r4. split.
  - unfold exchange_across. rewrite M_bind_eq, Hr1, M_bind_eq, Hr2. cbv zeta. fold c' d'.
    rewrite M_bind_eq, Hr3. exact Hr4.
  - split; [exact (same_root_trans _ _ _ Hsr2 (same_root_trans _ _ _ Hsr3 Hsr4))|done|].
    exists (walk [] r2), c, c', d1, d'. split_and!; try done; [apply Hc|].
    rewrite Hw4, Hw3. solve_Permutation.
Qed.

(** The body of the exchange, both cases. *)
Definition exchange_body (clk : clock) (sp dp : string) (src dst : Z) (x y : string) : M unit :=
  if String.eqb sp dp then
    r ← with_path_mut sp (InvalidPath sp) (exchange_siblings clk src dst x y);
    lift r
  else exchange_across clk sp dp src dst x y.

Lemma exchange_eq clk m src dst P Q x y p q c d sp dp :
  catalog_inv m -> live_child m src P x p c -> live_child m dst Q y q d -> src <> dst ->
  parent_path_from_index ("/"%string :: P ++ [x]) = Ok sp ->
  parent_path_from_index ("/"%string :: Q ++ [y]) = Ok dp ->
  exchange_nodes_inner clk src dst m =
    if is_path_prefix ("/"%string :: P ++ [x]) ("/"%string :: Q ++ [y])
       || is_path_prefix ("/"%string :: Q ++ [y]) ("/"%string :: P ++ [x])
    then (Err (InvalidPath "cannot exchange ancestor and descendant"), m) else
    if negb (bool_decide (node_type c = node_type d))
    then (Err (InvalidPath "exchange requires same node type"), m) else
    match exchange_body clk sp dp src dst x y m with
    | (Ok _, m') => (Ok tt, rebuild_index (set_version (u64_add (version m') 1) m'))
    | (Err e, m') => (Err e, m')
    end.
Proof.
  intros Hinv Hc Hd Hne Hsp Hdp. unfold exchange_nodes_inner, ROOT_NODE_ID.
  pose proof (live_child_nonroot _ _ _ _ _ _ Hinv Hc). pose proof (live_child_nonroot _ _ _ _ _ _ Hinv Hd).
  rewrite (proj2 (Z.eqb_neq src 0)), (proj2 (Z.eqb_neq dst 0)), (proj2 (Z.eqb_neq src dst)) by done.
  cbn [orb]. rewrite M_bind_self, M_bind_lift, (lc_index _ _ _ _ _ _ Hc). cbn [ok_or].
  rewrite M_bind_lift, (lc_index _ _ _ _ _ _ Hd). cbn [ok_or].
  destruct (_ || _); [done|].
  rewrite M_bind_lift, (lc_find _ _ _ _ _ _ Hc). cbn [ok_or].
  rewrite M_bind_lift, (lc_find _ _ _ _ _ _ Hd). cbn [ok_or].
  destruct (negb _); [done|]. rewrite !M_bind_lift, Hsp, M_bind_lift, Hdp.
  rewrite !app_comm_cons, !last_snoc. cbn [ok_or]. rewrite !M_bind_lift.
  fold (exchange_across clk sp dp src dst x y). fold (exchange_body clk sp dp src dst x y).
  rewrite M_bind_eq. by destruct (exchange_body _ _ _ _ _ _ _ m) as [[[]|] m'].
Qed.

(** Two live nodes of the same type, neither above the other, are exchanged. *)
Lemma exchange_forward clk m src dst P Q x y p q c d :
  catalog_inv m -> live_child m src P x p c -> live_child m dst Q y q d -> src <> dst ->
  node_type c = node_type d ->
  is_path_prefix ("/"%string :: P ++ [x]) ("/"%string :: Q ++ [y]) = false ->
  is_path_prefix ("/"%string :: Q ++ [y]) ("/"%string :: P ++ [x]) = false ->
  exists r', swapped (root m) r' P Q x y src dst
    /\ exchange_nodes_inner clk src dst m
       = (Ok tt, rebuild_index (mkManager r' (next_node_id m) (node_index m) (u64_add (version m) 1))).
Proof.
  intros Hinv Hc Hd Hne Hty H1 H2.
  destruct (parent_path_from_index_eq P x) as (sp & Esp & Hsp); [apply name_ok_parts, Hc|].
  destruct (parent_path_from_index_eq Q y) as (dp & Edp & Hdp); [apply name_ok_parts, Hd|].
  rewrite (exchange_eq clk m src dst P Q x y p q c d sp dp) by done.
  rewrite H1, H2, bool_decide_true by done. cbn [orb negb]. unfold exchange_body.
  destruct (String.eqb_spec sp dp) as [->|Hneq].
  - rewrite Hsp in Hdp. subst Q.
    assert (q = p) as -> by (pose proof (lc_parent _ _ _ _ _ _ Hc); pose proof (lc_parent _ _ _ _ _ _ Hd); congruence).
    destruct (exchange_siblings_run clk m dp (InvalidPath dp) p src dst x y c d) as (r' & Hrun & Hsw);
      try done; try apply Hc; try apply Hd.
    { unfold find_by_path. rewrite Hsp. apply Hc. }
    rewrite Hsp in Hsw. exists r'. split; [done|]. by rewrite M_bind_eq, Hrun.
  - destruct (exchange_across_run clk m sp dp src dst P Q x y p q c d) as (r' & Hrun & Hsw); try done.
    { apply apart_of_prefix; [|done..]. intros E. apply Hne.
      pose proof (lc_walk _ _ _ _ _ _ Hc) as W1. pose proof (lc_walk _ _ _ _ _ _ Hd) as W2.
      rewrite E in W1. by injection (walk_path_inj _ _ _ _ (inv_wf _ Hinv) W1 W2 eq_refl). }
    exists r'. split; [done|]. by rewrite Hrun.
Qed.

Lemma swapped_inv m r' P Q x y src dst v :
  catalog_inv m -> swapped (root m) r' P Q x y src dst ->
  let m' := rebuild_index (mkManager r' (next_node_id m) (node_index m) v) in
  catalog_inv m' /\ index_exact m'.
Proof.
  intros Hinv Hsw. pose proof (swapped_ids _ _ _ _ _ _ _ _ Hsw) as Hids. destruct Hsw as [(Hi & Hn & Ht) Hwf _].
  apply rebuild_index_inv; cbn [root].
  - rewrite Hi. apply Hinv.
  - rewrite Hn. apply Hinv.
  - unfold is_dir. rewrite Ht. apply Hinv.
  - done.
  - rewrite Hids. apply Hinv.
  - rewrite Hids. by apply inv_ids_range.
Qed.

Lemma exchange_run clk src dst m :
  catalog_inv m -> id_coherent m src -> id_coherent m dst ->
  (exists e, exchange_nodes_inner clk src dst m = (Err e, m)) \/
  (src = dst /\ exchange_nodes_inner clk src dst m = (Ok tt, m)) \/
  exists r' P Q x y, swapped (root m) r' P Q x y src dst
    /\ exchange_nodes_inner clk src dst m
       = (Ok tt, rebuild_index (mkManager r' (next_node_id m) (node_index m) (u64_add (version m) 1))).
Proof.
  intros Hinv Hcs Hcd.
  destruct (decide (src = 0 \/ dst = 0)) as [H0|H0].
  { left. eexists. unfold exchange_nodes_inner. by destruct H0 as [->| ->]; rewrite ?orb_true_r. }
  destruct (decide (src = dst)) as [->|Hne].
  { right. left. split; [done|]. unfold exchange_nodes_inner, ROOT_NODE_ID. rewrite Z.eqb_refl.
    by rewrite (proj2 (Z.eqb_neq dst 0)) by tauto. }
  destruct (node_index m !! src) as [ps|] eqn:Hps.
  2: { left. eexists. unfold exchange_nodes_inner, ROOT_NODE_ID.
       rewrite !(proj2 (Z.eqb_neq _ _)) by tauto. cbn [orb]. by rewrite M_bind_self, M_bind_lift, Hps. }
  destruct (live_child_of_index m src ps Hinv Hcs) as (P & x & p & c & -> & Hc); [tauto|done|].
  destruct (node_index m !! dst) as [pd|] eqn:Hpd.
  2: { left. eexists. unfold exchange_nodes_inner, ROOT_NODE_ID.
       rewrite !(proj2 (Z.eqb_neq _ _)) by tauto. cbn [orb]. rewrite M_bind_self, M_bind_lift, Hps. cbn [ok_or]. by rewrite M_bind_lift, Hpd. }
  destruct (live_child_of_index m dst pd Hinv Hcd) as (Q & y & q & d & -> & Hd); [tauto|done|].
  destruct (parent_path_from_index_eq P x) as (sp & Esp & Hsp); [apply name_ok_parts, Hc|].
  destruct (parent_path_from_index_eq Q y) as (dp & Edp & Hdp); [apply name_ok_parts, Hd|].
  pose proof (exchange_eq clk m src dst P Q x y p q c d sp dp Hinv Hc Hd Hne Esp Edp) as E.
  destruct (_ || _) eqn:Hpre in E; [left; by eexists|].
  apply orb_false_iff in Hpre as [H1 H2].
  destruct (bool_decide (node_type c = node_type d)) eqn:Hty in E; [|left; eexists; exact E].
  apply bool_decide_eq_true in Hty. right. right.
  destruct (exchange_forward clk m src dst P Q x y p q c d) as (r' & Hsw & Hrun); try done.
  by exists r', P, Q, x, y.
Qed.

Lemma exchange_nodes_inv clk src dst m :
  catalog_inv m -> id_coherent m src -> id_coherent m dst ->
  let m' := snd (exchange_nodes clk src dst m) in catalog_inv m' /\ coherent_le m m'.
Proof.
  intros Hinv Hcs Hcd. apply (atomically_inv _ (fun m' => catalog_inv m' /\ coherent_le m m')); [done|].
  intros [] m' E. destruct (exchange_run clk src dst m Hinv Hcs Hcd)
    as [[e E']|[[_ E']|(r' & P & Q & x & y & Hsw & E')]]; rewrite E' in E; [done| |]; injection E as <-; [done|].
  destruct (swapped_inv m r' P Q x y src dst (u64_add (version m) 1) Hinv Hsw) as [? Hex].
  split; [done|]. intros i _. apply Hex.
Qed.

(** ** Emptying the trash *)

(** A node listed at some path is a live child there. *)
Lemma live_child_of_walk m i ty qs x :
  catalog_inv m -> (i, ty, "/"%string :: qs ++ [x]) ∈ walk [] (root m) ->
  id_coherent m i /\ exists parent c, live_child m i qs x parent c.
Proof.
  intros Hinv Hin. pose proof (inv_complete _ Hinv _ _ _ Hin) as Hi.
  assert (id_coherent m i) as Hco.
  { intros p Hp. rewrite Hi in Hp. injection Hp as <-. by exists ty. }
  split; [done|]. destruct (decide (i = 0)) as [->|Hne].
  - pose proof (index_of_parent m "/" (root m) Hinv eq_refl) as Hr.
    rewrite (inv_root_id _ Hinv) in Hr. change (parse_path "/") with (@nil string) in Hr.
    unfold ROOT_NODE_ID in Hr. rewrite Hr in Hi. by destruct qs.
  - destruct (live_child_of_index m i _ Hinv Hco Hne Hi)
      as (qs' & x' & parent & c & [= [<- <-]%app_inj_tail] & Hl). by eauto.
Qed.

(** An id in the tree is never stale. *)
Lemma in_tree_coherent m i : catalog_inv m -> i ∈ ids (root m) -> id_coherent m i.
Proof.
  intros Hinv (ty & p & Hin)%ids_walk_entry q Hq.
  rewrite (inv_complete _ Hinv _ _ _ Hin) in Hq. injection Hq as <-. by exists ty.
Qed.

Definition in_trash (m : CatalogManager) (i : Z) : Prop :=
  exists ty nm, (i, ty, ["/"; ".trash"; nm]%string) ∈ walk [] (root m).

Lemma empty_trash_loop_run clk l acc m :
  catalog_inv m -> NoDup l -> Forall (in_trash m) l ->
  exists removed m', empty_trash_loop clk l acc m = (Ok (acc ++ removed), m')
    /\ catalog_inv m' /\ next_node_id m' = next_node_id m /\ map node_id removed = l
    /\ same_root (root m) (root m')
    /\ walk [] (root m) ≡ₚ walk [] (root m') ++ walk_list ["/"; ".trash"]%string removed.
Proof.
  revert clk acc m. induction l as [|i l IH]; intros clk acc m Hinv Hnd Hall.
  { exists [], m. split_and!; try done; by rewrite ?app_nil_r. }
  apply NoDup_cons in Hnd as [Hi Hnd]. apply Forall_cons in Hall as [(ty & nm & Hin) Hall].
  destruct (live_child_of_walk m i ty [".trash"%string] nm Hinv Hin) as (Hco & p0 & c0 & Hl0).
  destruct (delete_node_run clk i m Hinv Hco)
    as [(e & _ & H)|(qs & x & parent & c & r' & Hl & Hsr & Hwf & Hw & Hrun)].
  { exfalso. pose proof (live_child_nonroot _ _ _ _ _ _ Hinv Hl0) as Hne.
    pose proof (lc_index _ _ _ _ _ _ Hl0). destruct H as [[? _]|[? _]]; congruence. }
  pose proof (lc_index _ _ _ _ _ _ Hl) as E. rewrite (lc_index _ _ _ _ _ _ Hl0) in E.
  injection E as E. apply (app_inj_tail [".trash"%string]) in E as [<- <-].
  pose proof (delete_node_inv clk i m Hinv Hco) as Hinv1. rewrite Hrun in Hinv1. cbn [snd] in Hinv1.
  set (m1 := mkManager r' _ _ _) in *.
  destruct (IH (later 1 clk) (acc ++ [c]) m1 Hinv1 Hnd) as (removed & m' & Hloop & Hinv' & Hnx & Hids & Hsr' & Hw').
  { apply Forall_forall. intros j Hj. destruct (proj1 (Forall_forall _ _) Hall j Hj) as (ty' & nm' & Hin').
    exists ty', nm'. eapply survives; [exact Hw|exact Hin'|]. rewrite (lc_name _ _ _ _ _ _ Hl). cbn.
    intros rest [= -> <-]. apply Hi.
    injection (walk_path_inj _ _ _ _ (inv_wf _ Hinv) Hin Hin' eq_refl) as <- _. done. }
  exists (c :: removed), m'. split_and!; try done.
  - cbn [empty_trash_loop]. rewrite M_bind_self, (lc_find _ _ _ _ _ _ Hl), M_bind_eq, Hrun, Hloop.
    by rewrite <- app_assoc.
  - cbn. by rewrite Hids, (lc_id _ _ _ _ _ _ Hl).
  - by eapply same_root_trans.
  - rewrite Hw, walk_list_cons. change (root m1) with r' in Hw'. rewrite Hw'. solve_Permutation.
Qed.

(** Emptying the trash removes every child of the trash directory, whatever its
    subtree, and nothing else. *)
Lemma empty_trash_run clk m n :
  catalog_inv m -> find_by_path m TRASH_ROOT_PATH = Some n -> is_dir n = true ->
  exists removed m', empty_trash clk m = (Ok removed, m')
    /\ catalog_inv m' /\ next_node_id m' = next_node_id m
    /\ map node_id removed = map node_id (children n)
    /\ walk [] (root m) ≡ₚ walk [] (root m') ++ walk_list ["/"; ".trash"]%string removed.
Proof.
  intros Hinv Hn Hd.
  destruct (empty_trash_loop_run clk (map node_id (children n)) [] m Hinv)
    as (removed & m' & Hloop & Hinv' & Hnx & Hids & Hsr & Hw).
  - destruct (with_path_mut_focus m _ _ Hn) as (plug & L & R & pre' & Hf & _).
    exact (children_ids_nodup _ (focus_ids_nodup _ _ _ _ _ _ _ _ Hf (inv_nodup _ Hinv))).
  - apply List.Forall_map, Forall_forall. intros c Hc. exists (node_type c), (node_name c).
    pose proof (find_child_in_walk [] (root m) [".trash"%string] n c) as H.
    rewrite (inv_root_name _ Hinv) in H. apply H; [by repeat constructor|done|done].
  - exists removed, m'. split_and!; try done. unfold empty_trash, atomically, empty_trash_inner.
    by rewrite M_bind_self, Hn, Hd, Hloop.
Qed.

Lemma empty_trash_inv clk m : catalog_inv m -> catalog_inv (snd (empty_trash clk m)).
Proof.
  intros Hinv. destruct (find_by_path m TRASH_ROOT_PATH) as [n|] eqn:Hn.
  - destruct (is_dir n) eqn:Hd.
    + by destruct (empty_trash_run clk m n Hinv Hn Hd) as (removed & m' & -> & Hinv' & _).
    + unfold empty_trash, atomically, empty_trash_inner. by rewrite M_bind_self, Hn, Hd.
  - unfold empty_trash, atomically, empty_trash_inner. by rewrite M_bind_self, Hn.
Qed.
