(* ===== verification/CatalogSpec.v ===== *)
(** * What the catalog manager guarantees

    The theorems about [CatalogManager]: the invariant of every reachable
    manager, the functional behaviour of each operation, the round trip through
    the trash, and the two places where the bookkeeping of ids goes wrong. *)

From S2P Require Import Prelude.
From S2P Require Import CatalogNode.
From S2P Require Import CatalogManager.
From S2P Require Import CatalogTree.
From S2P Require Import CatalogInvariant.
From S2P Require Import CatalogOps.
From S2P Require Import CatalogMove.
From S2P Require Import CatalogTrash.
From S2P Require Import CatalogExchange.
From Stdlib Require Import Ascii String.
From stdpp Require Import base gmap strings list.
Open Scope Z_scope.

(** ** Sequences of operations *)

Inductive op :=
  | OpCreateDir (parent_path nm : string)
  | OpCreateFile (parent_path nm : string) (sz : Z) (mime : option string)
  | OpCreateFileWithId (parent_path nm : string) (id sz : Z) (mime : option string)
  | OpReserve
  | OpSetChunkSize (id sz : Z)
  | OpRename (id : Z) (new_name : string)
  | OpMove (id : Z) (new_parent_path : string) (new_name : option string) (replace_existing : bool)
  | OpDelete (id : Z)
  | OpTrash (id : Z)
  | OpRestore (id : Z) (parent_path nm : option string)
  | OpEmptyTrash
  | OpExchange (src dst : Z).

(** The manager an operation leaves behind, on success and on failure. *)
Definition run_op (clk : clock) (o : op) (m : CatalogManager) : CatalogManager :=
  match o with
  | OpCreateDir p nm => snd (create_dir clk p nm m)
  | OpCreateFile p nm sz mime => snd (create_file clk p nm sz mime m)
  | OpCreateFileWithId p nm id sz mime => snd (create_file_with_id clk p nm id sz mime m)
  | OpReserve => snd (reserve_node_id m)
  | OpSetChunkSize id sz => snd (set_chunk_size clk id sz m)
  | OpRename id nm => snd (rename clk id nm m)
  | OpMove id p nm r => snd (move_node_with_options clk id p nm r m)
  | OpDelete id => snd (delete_node clk id m)
  | OpTrash id => snd (trash_node clk id m)
  | OpRestore id p nm => snd (restore_trashed_node clk id p nm m)
  | OpEmptyTrash => snd (empty_trash clk m)
  | OpExchange s d => snd (exchange_nodes clk s d m)
  end.

(** An id the caller may pass: a node of the tree, or an id the index does not know. *)
Definition known_or_unused (m : CatalogManager) (i : Z) : Prop :=
  i ∈ ids (root m) \/ node_index m !! i = None.

#[export] Instance known_or_unused_dec m i : Decision (known_or_unused m i).
Proof. unfold known_or_unused. apply _. Defined.

Definition op_allowed (m : CatalogManager) (o : op) : Prop :=
  next_node_id m < U64_MAX /\
  match o with
  | OpCreateFileWithId _ _ id _ _ => 0 <= id < U64_MAX
  | OpSetChunkSize id _ | OpRename id _ | OpMove id _ _ _ | OpDelete id | OpTrash id
  | OpRestore id _ _ => known_or_unused m id
  | OpExchange s d => known_or_unused m s /\ known_or_unused m d
  | _ => True
  end.

#[export] Instance op_allowed_dec m o : Decision (op_allowed m o).
Proof. destruct o; unfold op_allowed; apply _. Defined.

(** Managers reached from an empty catalog. *)
Inductive reachable : CatalogManager -> Prop :=
  | reach_new now : reachable (new now)
  | reach_op clk o m : reachable m -> op_allowed m o -> reachable (run_op clk o m).

(** A whole history, for concrete runs: [None] when a step is not allowed. *)
Fixpoint run_history (clk : clock) (os : list op) (m : CatalogManager) : option CatalogManager :=
  match os with
  | [] => Some m
  | o :: os' => if bool_decide (op_allowed m o) then run_history clk os' (run_op clk o m) else None
  end.

Lemma run_history_reachable clk os m m' :
  reachable m -> run_history clk os m = Some m' -> reachable m'.
Proof.
  revert m. induction os as [|o os IH]; intros m Hm; cbn; [congruence|].
  case_bool_decide as Ho; [|done]. apply IH. by constructor.
Qed.

Lemma known_or_unused_coherent m i : catalog_inv m -> known_or_unused m i -> id_coherent m i.
Proof.
  intros Hinv [H|H]; [by apply in_tree_coherent|]. intros p Hp. congruence.
Qed.

(** Operations that never remove a node with children: a replaced file has none. *)
Definition keeps_children (m : CatalogManager) (o : op) : Prop :=
  match o with
  | OpDelete id => forall n, find_by_id m id = Some n -> children n = []
  | OpEmptyTrash => False
  | _ => True
  end.

(** Deleting a node without children leaves no stale entry. *)
Lemma delete_leaf_coherent clk id m :
  catalog_inv m -> id_coherent m id -> (forall n, find_by_id m id = Some n -> children n = []) ->
  coherent_le m (snd (delete_node clk id m)).
Proof.
  intros Hinv Hco Hleaf. destruct (delete_node_run clk id m Hinv Hco)
    as [(e & -> & _)|(qs & x & parent & c & r' & Hl & Hsr & Hwf & Hw & ->)]; [done|].
  intros i Hi p. cbn [snd node_index root]. intros [Hne Hp]%lookup_delete_Some.
  destruct (Hi p Hp) as [ty Hin]. exists ty. rewrite Hw, elem_of_app in Hin. destruct Hin as [|Hin]; [done|].
  rewrite walk_eq, (Hleaf _ (lc_find _ _ _ _ _ _ Hl)) in Hin.
  apply list_elem_of_singleton in Hin. injection Hin as E _ _. rewrite (lc_id _ _ _ _ _ _ Hl) in E. congruence.
Qed.

Lemma run_op_inv clk o m :
  catalog_inv m -> op_allowed m o ->
  catalog_inv (run_op clk o m) /\ (keeps_children m o -> coherent_le m (run_op clk o m)).
Proof.
  intros Hinv [Hnx Ho]. pose proof (known_or_unused_coherent m) as Hco.
  destruct o; cbn [run_op keeps_children].
  - destruct (create_dir_inv clk parent_path nm m Hinv Hnx); done.
  - destruct (create_file_inv clk parent_path nm sz mime m Hinv Hnx); done.
  - destruct (create_file_with_id_inv clk parent_path nm id sz mime m Hinv Ho); done.
  - destruct (alloc_inv m Hinv Hnx); done.
  - destruct (set_chunk_size_inv clk id sz m Hinv (Hco _ Hinv Ho)); done.
  - destruct (rename_inv clk id new_name m Hinv (Hco _ Hinv Ho)); done.
  - destruct (move_inv clk id new_parent_path new_name replace_existing m Hinv (Hco _ Hinv Ho)); done.
  - split; [apply (delete_node_inv clk id m Hinv (Hco _ Hinv Ho))|].
    apply (delete_leaf_coherent clk id m Hinv (Hco _ Hinv Ho)).
  - destruct (trash_node_inv clk id m Hinv (Hco _ Hinv Ho) Hnx); done.
  - destruct (restore_trashed_node_inv clk id parent_path nm m Hinv (Hco _ Hinv Ho)); done.
  - split; [by apply empty_trash_inv|done].
  - destruct Ho as [Hs Hd]. destruct (exchange_nodes_inv clk src dst m Hinv (Hco _ Hinv Hs) (Hco _ Hinv Hd)); done.
Qed.

(** ** Creation *)

(** Why a node may not be created at [path] under the name [nm]. *)
Inductive create_refused (m : CatalogManager) (path nm : string) : Error -> Prop :=
  | refused_name s : name_ok nm = false -> create_refused m path nm (InvalidName s)
  | refused_path :
      name_ok nm = true -> find_by_path m path = None -> create_refused m path nm (InvalidPath path)
  | refused_not_dir parent :
      name_ok nm = true -> find_by_path m path = Some parent -> is_dir parent = false ->
      create_refused m path nm (NotADirectory (node_id parent))
  | refused_exists parent :
      name_ok nm = true -> find_by_path m path = Some parent -> is_dir parent = true ->
      has_child nm parent = true -> create_refused m path nm (NameExists nm).

(** What a creation did: one entry more, found under its id and under its path. *)
Record created (m m' : CatalogManager) (path : string) (node : CatalogNode) : Prop := {
  cr_fresh : node_index m !! node_id node = None;
  cr_walk : walk [] (root m') ≡ₚ
    (node_id node, node_type node, "/"%string :: parse_path path ++ [node_name node]) :: walk [] (root m);
  cr_by_id : find_by_id m' (node_id node) = Some node;
  cr_others i : i <> node_id node -> node_index m' !! i = node_index m !! i;
  cr_version : version m' = u64_add (version m) 1;
}.

Lemma check_parent_err m path nm e :
  name_ok nm = true -> check_parent m path nm = Err e -> create_refused m path nm e.
Proof.
  intros Hok. unfold check_parent. destruct (find_by_path m path) as [parent|] eqn:Hp; cbn.
  - destruct (is_dir parent) eqn:Hd; cbn.
    + destruct (has_child nm parent) eqn:Hh; [|done]. intros [= <-]. by eapply refused_exists.
    + intros [= <-]. by eapply refused_not_dir.
  - intros [= <-]. by apply refused_path.
Qed.

Lemma not_name_ok nm e : validate_name nm = Err e -> name_ok nm = false.
Proof. intros H. unfold name_ok. by rewrite H. Qed.

Lemma created_intro m r' nx path parent node :
  catalog_inv m -> find_by_path m path = Some parent -> name_ok (node_name node) = true ->
  node_index m !! node_id node = None ->
  walk [] r' ≡ₚ (node_id node, node_type node, "/"%string :: parse_path path ++ [node_name node])
                 :: walk [] (root m) ->
  find_by_parts (parse_path path ++ [node_name node]) r' = Some node ->
  created m (mkManager r' nx
    (<[node_id node := "/"%string :: parse_path path ++ [node_name node]]> (node_index m))
    (u64_add (version m) 1)) path node.
Proof.
  intros Hinv Hp Hok Hfresh Hw Hat. split; try done.
  - unfold find_by_id, find_by_path. cbn [node_index root]. rewrite lookup_insert_eq.
    rewrite parse_index_path; [done|]. apply Forall_app. split; [apply parse_path_parts|].
    constructor; [by apply name_ok_part|done].
  - intros i Hi. cbn. by rewrite lookup_insert_ne.
Qed.

(** [create_dir] either adds one empty directory, with the next free id, that is
    found under its id and its path, every other entry and index path unchanged,
    or leaves the manager alone and reports which check failed. *)
Theorem create_dir_correct clk path nm m :
  catalog_inv m -> next_node_id m < U64_MAX ->
  match create_dir clk path nm m with
  | (Ok id, m') => id = next_node_id m /\ next_node_id m' = id + 1
      /\ created m m' path (new_dir (clk 0%nat) id nm)
      /\ (exists parent, find_by_path m path = Some parent /\ is_dir parent = true
            /\ has_child nm parent = false)
  | (Err e, m') => m' = m /\ create_refused m path nm e
  end.
Proof.
  intros Hinv Hnx. pose proof (inv_next _ Hinv) as Hn.
  destruct (create_dir_run clk path nm m Hinv)
    as [[e E]|(parent & r' & Hp & Hd & Hno & Hok & Hsr & Hwf & Hw & Hat & E)]; rewrite E.
  - split; [done|]. rewrite create_dir_eq in E.
    destruct (validate_name nm) as [u|e'] eqn:Hv.
    + apply validate_name_ok in Hv. destruct (check_parent m path nm) as [i|e'] eqn:Hc.
      * exfalso. apply check_parent_ok in Hc as (parent & Hp & Hd & Hno & ->).
        destruct (create_tail_run m path (InvalidPath path) (clk 1%nat) parent
          (new_dir (clk 0%nat) (next_node_id m) nm) (u64_add (next_node_id m) 1))
          as (r' & _ & _ & _ & _ & Hrun); try done. discriminate (eq_trans (eq_sym E) Hrun).
      * injection E as ->. by apply check_parent_err.
    + injection E as ->. destruct (validate_name_err _ _ Hv) as [s ->].
      apply refused_name. by eapply not_name_ok.
  - unfold FIRST_USER_NODE_ID, PASSMANAGER_NODE_ID in Hn. split_and!; [done| | |by eauto].
    + cbn. apply u64_add_small. unfold is_u64. lia.
    + by apply (created_intro m r' _ path parent (new_dir (clk 0%nat) (next_node_id m) nm)); try done;
        apply inv_next_none.
Qed.

(** [create_file_with_id] adds exactly the requested file under the requested id
    and keeps the allocator above it, or changes nothing: an id the index already
    knows is refused, and so is what [create_dir] refuses. *)
Theorem create_file_with_id_correct clk path nm id sz mime m :
  catalog_inv m -> 0 <= id < U64_MAX ->
  match create_file_with_id clk path nm id sz mime m with
  | (Ok i, m') => i = id
      /\ created m m' path (new_file (clk 0%nat) (clk 1%nat) id nm sz mime)
      /\ next_node_id m <= next_node_id m' /\ id < next_node_id m'
      /\ (exists parent, find_by_path m path = Some parent /\ is_dir parent = true
            /\ has_child nm parent = false)
  | (Err e, m') => m' = m /\
      (create_refused m path nm e \/ is_Some (node_index m !! id) /\ e = NameExists nm)
  end.
Proof.
  intros Hinv Hid. destruct (create_file_with_id_run clk path nm id sz mime m Hinv)
    as [[e E]|(parent & r' & Hp & Hd & Hno & Hok & Hidx & Hsr & Hwf & Hw & Hat & E)]; rewrite E.
  - split; [done|]. rewrite create_file_with_id_eq in E.
    destruct (validate_name nm) as [u|e'] eqn:Hv.
    + case_bool_decide as Hi; [right; split; [done|by injection E]|left].
      apply validate_name_ok in Hv. destruct (check_parent m path nm) as [i|e'] eqn:Hc.
      * exfalso. apply check_parent_ok in Hc as (parent & Hp & Hd & Hno & ->).
        destruct (create_tail_run m path (InvalidPath path) (clk 2%nat) parent
          (new_file (clk 0%nat) (clk 1%nat) id nm sz mime)
          (Z.max (next_node_id m) (u64_saturating_add id 1)))
          as (r' & _ & _ & _ & _ & Hrun); try done. discriminate (eq_trans (eq_sym E) Hrun).
      * injection E as ->. by apply check_parent_err.
    + left. injection E as ->. destruct (validate_name_err _ _ Hv) as [s ->].
      apply refused_name. by eapply not_name_ok.
  - cbn [next_node_id]. unfold u64_saturating_add. split_and!; [done| |lia|lia|by eauto].
    by apply (created_intro m r' _ path parent (new_file (clk 0%nat) (clk 1%nat) id nm sz mime)).
Qed.

(** ** Lookup *)

(** under the invariant every node of the tree is found under its id, and the
    path string the manager gives for it leads back to the same node. *)
Theorem id_path_lookup m i :
  catalog_inv m -> i ∈ ids (root m) ->
  exists n s, find_by_id m i = Some n /\ node_id n = i
    /\ get_path m i = Some s /\ find_by_path m s = Some n.
Proof.
  intros Hinv (ty & p & Hin)%ids_walk_entry.
  destruct (inv_walk_find m i ty p Hinv Hin) as (qs & n & -> & Hqs & Hn & Hi & _).
  pose proof (inv_complete _ Hinv _ _ _ Hin) as Hidx. pose proof (name_ok_parts _ Hqs) as Hparts.
  exists n, (path_string ("/"%string :: qs)). unfold find_by_id, get_path, find_by_path.
  rewrite Hidx. by rewrite parse_index_path, parse_path_string.
Qed.

(** ** Renaming, moving, deleting *)

Inductive rename_refused (m : CatalogManager) (id : Z) (nn : string) : Error -> Prop :=
  | rename_root : id = 0 -> rename_refused m id nn CannotModifyRoot
  | rename_name s : name_ok nn = false -> rename_refused m id nn (InvalidName s)
  | rename_unknown : node_index m !! id = None -> rename_refused m id nn (NodeNotFound id)
  | rename_exists qs x parent c :
      live_child m id qs x parent c -> nn <> x -> has_child nn parent = true ->
      rename_refused m id nn (NameExists nn).

Lemma rename_refusals clk id nn m e :
  catalog_inv m -> id_coherent m id -> e <> Panicked ->
  rename clk id nn m = (Err e, m) -> rename_refused m id nn e.
Proof.
  intros Hinv Hco Hnp E. destruct (decide (id = 0)) as [->|Hid].
  { injection E as <-. by constructor. }
  destruct (validate_name nn) as [u|e'] eqn:Hv.
  2: { unfold rename in E. rewrite (proj2 (Z.eqb_neq id 0)), M_bind_lift, Hv in E by done.
       injection E as ->. destruct (validate_name_err _ _ Hv) as [s ->].
       apply rename_name. by eapply not_name_ok. }
  destruct (node_index m !! id) as [p|] eqn:Hp.
  2: { unfold rename in E. rewrite (proj2 (Z.eqb_neq id 0)), M_bind_lift, Hv, M_bind_self, M_bind_lift, Hp in E by done.
       injection E as <-. by constructor. }
  apply validate_name_ok in Hv. rewrite (rename_eq clk id nn m p Hid Hv Hp) in E.
  destruct (live_child_of_index _ _ _ Hinv Hco Hid Hp) as (qs & x & parent & c & -> & Hl).
  rewrite app_comm_cons, last_snoc in E. cbn [from_option Datatypes.id] in E.
  destruct (String.eqb_spec nn x) as [|Hx]; [done|].
  rewrite <- app_comm_cons, (live_parent_path _ _ _ _ _ _ Hl) in E.
  destruct (has_child nn parent) eqn:Hh; [injection E as <-; by eapply rename_exists|].
  destruct (rename_child_run m (parent_join ("/"%string :: qs ++ [x]))
    (InvalidPath (parent_join ("/"%string :: qs ++ [x]))) (clk 0%nat) id x nn parent c)
    as (r' & W & Hrun & _); [apply Hinv|by eapply live_parent_path|apply Hl|done|done|].
  rewrite Hrun in E. destruct (rename_index _ _ _ _); [done|]. by injection E as <-.
Qed.

(** [rename] of a live id renames that node in place and carries its whole
    subtree to the new path, keeping ids and the rest of the tree; renaming to the
    current name is a no-op; a refusal changes nothing and has one of four reasons;
    the slice update of the index never goes out of bounds. *)
Theorem rename_correct clk id nn m :
  catalog_inv m -> known_or_unused m id ->
  match rename clk id nn m with
  | (Ok _, m') => catalog_inv m' /\
      exists qs c W, node_id c = id
        /\ walk [] (root m) ≡ₚ W ++ walk ("/"%string :: qs) c
        /\ walk [] (root m') ≡ₚ W ++ walk ("/"%string :: qs) (set_name nn c)
        /\ version m' = if String.eqb nn (node_name c) then version m else u64_add (version m) 1
  | (Err e, m') => m' = m /\ e <> Panicked /\ rename_refused m id nn e
  end.
Proof.
  intros Hinv Hk. pose proof (known_or_unused_coherent m id Hinv Hk) as Hco.
  pose proof (rename_inv clk id nn m Hinv Hco) as [Hinv' _].
  destruct (rename_run clk id nn m Hinv Hco)
    as [(e & E & Hnp)|[(qs & parent & c & Hl & E)|
        (qs & x & parent & c & r' & W & ix & Hl & Hx & _ & _ & _ & _ & Hw & Hw' & _ & E)]].
  - pose proof (rename_refusals clk id nn m e Hinv Hco Hnp E). by rewrite E.
  - rewrite E. split; [done|]. pose proof (lc_name _ _ _ _ _ _ Hl) as Hn.
    destruct (detach_run m (parent_join ("/"%string :: qs ++ [nn])) (InvalidPath EmptyString) 0 parent c)
      as (r' & _ & _ & _ & Hw); [apply Hinv|apply Hinv|by eapply live_parent_path|apply Hl|].
    rewrite (proj2 (parent_join_eq qs nn (lc_parts _ _ _ _ _ _ Hl))), (inv_root_name _ Hinv) in Hw.
    exists qs, c, (walk [] r'). split_and!; [apply Hl|done| |by rewrite Hn, String.eqb_refl].
    rewrite <- Hn. destruct c. done.
  - rewrite E in *. split; [done|]. exists qs, c, W. split_and!; [apply Hl|done| |].
    + cbn [root]. by rewrite Hw', !walk_eq.
    + rewrite (lc_name _ _ _ _ _ _ Hl). by destruct (String.eqb_spec nn x).
Qed.

(** C9: a move that succeeds carries the node's subtree, ids included, to the
    destination under the destination name and leaves the rest of the tree in
    place, apart from the single file it replaces when replacing was asked for; it
    does nothing only when the node is in the destination under that name already.
    A move that fails, after whatever steps, leaves the manager as it was. *)
Theorem move_correct clk id npp nn repl m :
  catalog_inv m -> known_or_unused m id ->
  match move_node_with_options clk id npp nn repl m with
  | (Ok _, m') => catalog_inv m' /\
      ((m' = m /\ exists c, find_by_id m id = Some c /\ default (node_name c) nn = node_name c
          /\ node_index m !! id = Some ("/"%string :: parse_path npp ++ [node_name c])) \/
       exists qs c W gone, let dest := default (node_name c) nn in
         node_id c = id
         /\ walk [] (root m) ≡ₚ W ++ walk ("/"%string :: qs) c ++ gone
         /\ walk [] (root m') ≡ₚ W ++ walk ("/"%string :: parse_path npp) (set_name dest c)
         /\ (gone = [] \/ repl = true /\ exists rid ty, ty <> Dir
               /\ gone = [(rid, ty, "/"%string :: parse_path npp ++ [dest])])
         /\ version m' = u64_add (version m) 1)
  | (Err _, m') => m' = m
  end.
Proof.
  intros Hinv Hk. pose proof (known_or_unused_coherent m id Hinv Hk) as Hco.
  unfold move_node_with_options, atomically.
  destruct (move_run clk id npp nn repl m Hinv Hco)
    as [[e ->]|[(qs & x & parent & c & Hl & Hx & Hp & ->)|(qs & c & W & gone & m' & Hmv & Hgone & Hinv' & _ & ->)]]; [done|..].
  { split; [done|]. left. split; [done|]. exists c. pose proof (lc_name _ _ _ _ _ _ Hl) as Hn. rewrite Hn.
    split_and!; [apply Hl|done|]. rewrite (lc_index _ _ _ _ _ _ Hl). do 2 f_equal. f_equal.
    destruct (find_by_path m npp) as [np|] eqn:Hnp; [|done]. injection Hp as Hp. pose proof (index_of_parent m npp np Hinv Hnp) as Hi.
    pose proof (find_in_walk [] qs (root m) parent (Forall_impl _ _ _ (lc_parts _ _ _ _ _ _ Hl) name_ok_part) (lc_parent _ _ _ _ _ _ Hl)) as Hw.
    apply (inv_complete _ Hinv) in Hw. rewrite <- Hp, Hi in Hw. injection Hw as _ ->. done. }
  split; [done|]. right. exists qs, c, W, gone.
  destruct (moved_node_spec clk (default (node_name c) nn) c) as [(Hi & Ht & Hch) Hn].
  split_and!; [apply Hmv|apply Hmv| |done|apply Hmv].
  rewrite (mv_after _ _ _ _ _ _ _ _ _ _ Hmv), !walk_eq. unfold children.
  by rewrite Hi, Ht, Hch, Hn.
Qed.

(** a node can always be moved into a directory that is neither the node nor
    below it and has no child of the destination name; it is then found there. *)
Theorem move_succeeds clk id npp nn repl m n path np :
  catalog_inv m -> id <> ROOT_NODE_ID -> id ∈ ids (root m) -> find_by_id m id = Some n ->
  node_index m !! id = Some path ->
  let dest := default (node_name n) nn in
  name_ok dest = true -> find_by_path m npp = Some np -> is_dir np = true ->
  has_child dest np = false -> ~ path `prefix_of` ("/"%string :: parse_path npp) ->
  exists m' n', move_node_with_options clk id npp nn repl m = (Ok tt, m')
    /\ find_by_path m' (String.append npp (String slash dest)) = Some n'
    /\ node_id n' = id /\ children n' = children n.
Proof.
  intros Hinv Hid Hin Hn Hp dest Hok Hnp Hd Hno Hbelow.
  destruct (live_child_of_index m id path Hinv (in_tree_coherent _ _ Hinv Hin) Hid Hp)
    as (qs & x & parent & c & -> & Hl).
  rewrite (lc_find _ _ _ _ _ _ Hl) in Hn. injection Hn as <-.
  destruct (move_forward clk id npp dest repl m qs x parent c np) as (m' & W & Hrun & Hmv & _ & _); try done.
  { intros rest E. apply Hbelow. by exists rest. }
  assert (move_node_with_options_inner clk id npp nn repl m
          = move_node_with_options_inner clk id npp (Some dest) repl m) as E.
  { rewrite !(move_eq clk id npp _ repl m qs x Hid (lc_index _ _ _ _ _ _ Hl)).
    unfold dest. by rewrite (lc_name _ _ _ _ _ _ Hl). }
  exists m', (moved_node clk dest c). unfold move_node_with_options, atomically. rewrite E, Hrun.
  destruct (moved_node_spec clk dest c) as [Hsub _].
  split_and!; [done| |rewrite (proj1 Hsub); apply Hl|by apply same_subtree_children].
  unfold find_by_path. rewrite parse_path_sep by (by apply name_ok_part). apply Hmv.
Qed.

(** A path that left the tree is not found any more. *)
Lemma removed_not_found m r' W p :
  catalog_inv m -> same_root (root m) r' -> walk [] (root m) ≡ₚ walk [] r' ++ W ->
  p ∈ map entry_path W -> find_by_path (set_root r' m) (str_join "/" p) = None.
Proof.
  intros Hinv Hsr Hw Hp. destruct (find_by_path _ _) as [n|] eqn:Hn; [|done]. exfalso.
  pose proof (walk_paths_nodup [] (root m) (inv_wf _ Hinv)) as Hnd.
  rewrite Hw, map_app in Hnd. apply NoDup_app in Hnd as (_ & Hdisj & _). apply (Hdisj p); [|done].
  apply list_elem_of_fmap in Hp as ([[i ty] q] & -> & Hin). cbn [entry_path snd] in *.
  assert ((i, ty, q) ∈ walk [] (root m)) as Hin' by (rewrite Hw; apply elem_of_app; by right).
  destruct (inv_walk_find _ _ _ _ Hinv Hin') as (qs & n' & -> & Hqs & _).
  unfold find_by_path in Hn. apply name_ok_parts in Hqs. rewrite parse_index_path in Hn by done.
  apply (find_in_walk []) in Hn; [|done]. cbn [root set_root] in Hn.
  rewrite (proj1 (proj2 Hsr)), (inv_root_name _ Hinv) in Hn.
  apply (list_elem_of_fmap_2 entry_path) in Hn. exact Hn.
Qed.

(** [delete] removes the node and its whole subtree from the tree and nothing
    else, none of the removed ids resolves any more, and the node's own index entry
    is dropped; it refuses the root and ids the index does not know, changing
    nothing. *)
Theorem delete_correct clk id m :
  catalog_inv m -> known_or_unused m id ->
  match delete_node clk id m with
  | (Ok _, m') => catalog_inv m' /\
      exists qs c, node_id c = id /\ find_by_id m id = Some c
        /\ walk [] (root m) ≡ₚ walk [] (root m') ++ walk ("/"%string :: qs) c
        /\ node_index m' !! id = None
        /\ (forall i, i ∈ ids c -> find_by_id m' i = None)
  | (Err e, m') => m' = m /\
      (id = 0 /\ e = CannotModifyRoot \/ node_index m !! id = None /\ e = NodeNotFound id)
  end.
Proof.
  intros Hinv Hk. pose proof (known_or_unused_coherent m id Hinv Hk) as Hco.
  pose proof (delete_node_inv clk id m Hinv Hco) as Hinv'.
  destruct (delete_node_run clk id m Hinv Hco)
    as [(e & -> & H)|(qs & x & parent & c & r' & Hl & Hsr & Hwf & Hw & E)]; [done|].
  rewrite E in *. split; [done|]. exists qs, c.
  split_and!; [apply Hl|apply Hl|done|apply lookup_delete_eq|].
  intros i Hi. unfold find_by_id. cbn [node_index].
  destruct (decide (i = id)) as [->|Hne]; [by rewrite lookup_delete_eq|].
  rewrite lookup_delete_ne by done. destruct (node_index m !! i) as [p|] eqn:Hp; [|done].
  apply (removed_not_found m r' _ p Hinv Hsr Hw).
  rewrite <- (walk_ids_nil ("/"%string :: qs)) in Hi. apply list_elem_of_fmap in Hi as ([[j ty] q] & -> & Hin).
  assert ((j, ty, q) ∈ walk [] (root m)) as Hin' by (rewrite Hw; apply elem_of_app; by right).
  apply (inv_complete _ Hinv) in Hin'. cbn in Hp. rewrite Hp in Hin'. injection Hin' as <-.
  apply (list_elem_of_fmap_2 entry_path) in Hin. exact Hin.
Qed.

(** ** Exchanging nodes *)

(** C22: two nodes of the same type, neither an ancestor of the other, can always be
    exchanged, in one directory or across two: each subtree, ids included, takes the
    other's place and name, the rest of the tree stays, and the rebuilt index lists
    exactly the nodes of the tree. *)
Theorem exchange_correct clk src dst m sn dn sp dp :
  catalog_inv m -> src <> dst -> src <> ROOT_NODE_ID -> dst <> ROOT_NODE_ID ->
  src ∈ ids (root m) -> dst ∈ ids (root m) ->
  find_by_id m src = Some sn -> find_by_id m dst = Some dn -> node_type sn = node_type dn ->
  node_index m !! src = Some sp -> node_index m !! dst = Some dp ->
  ~ sp `prefix_of` dp -> ~ dp `prefix_of` sp ->
  exists m' P Q W c d, exchange_nodes clk src dst m = (Ok tt, m')
    /\ catalog_inv m' /\ index_exact m' /\ version m' = u64_add (version m) 1
    /\ node_id c = src /\ node_id d = dst
    /\ walk [] (root m) ≡ₚ W ++ walk P c ++ walk Q d
    /\ walk [] (root m') ≡ₚ W ++ walk Q (set_name (node_name d) c) ++ walk P (set_name (node_name c) d).
Proof.
  intros Hinv Hne Hs0 Hd0 Hs Hd Hsn Hdn Hty Hsp Hdp H1 H2.
  destruct (live_child_of_index m src sp Hinv (in_tree_coherent _ _ Hinv Hs) Hs0 Hsp)
    as (P & x & p & c & -> & Hc).
  destruct (live_child_of_index m dst dp Hinv (in_tree_coherent _ _ Hinv Hd) Hd0 Hdp)
    as (Q & y & q & d & -> & Hdl).
  rewrite (lc_find _ _ _ _ _ _ Hc) in Hsn. rewrite (lc_find _ _ _ _ _ _ Hdl) in Hdn.
  injection Hsn as <-. injection Hdn as <-.
  assert (forall l r, ~ l `prefix_of` r -> is_path_prefix l r = false) as Hpre.
  { intros l r Hlr. apply andb_false_iff. right. apply bool_decide_eq_false. intros E.
    apply Hlr. rewrite <- E. by exists (drop (length l) r); rewrite take_drop. }
  destruct (exchange_forward clk m src dst P Q x y p q c d) as (r' & Hsw & Hrun); try done; try by apply Hpre.
  destruct (swapped_inv m r' P Q x y src dst (u64_add (version m) 1) Hinv Hsw) as [Hinv' Hex].
  destruct Hsw as [_ _ (W & c1 & c1' & d1 & d1' & (Ec1 & Ec2 & Ec3) & (Ed1 & Ed2 & Ed3) & Hci & Hdi & Hcn & Hdn & Hcn' & Hdn' & Hw & Hw')].
  eexists _, _, _, W, c1, d1. unfold exchange_nodes, atomically. rewrite Hrun. split_and!; try done.
  - unfold rebuild_index. by destruct (collect_entries_into _ _ _).
  - unfold rebuild_index. destruct (collect_entries_into _ _ _). cbn [root]. rewrite Hw'.
    rewrite !walk_eq. unfold children. cbn. rewrite Ec1, Ec2, Ec3, Ed1, Ed2, Ed3, Hcn', Hdn', Hcn, Hdn. done.
Qed.

(** ** The trash *)

(** emptying the trash always succeeds on a catalog with a trash directory: it
    returns the trashed nodes, removes exactly their subtrees, and the trash then
    lists nothing. *)
Theorem empty_trash_correct clk m n :
  catalog_inv m -> find_by_path m TRASH_ROOT_PATH = Some n -> is_dir n = true ->
  exists removed m', empty_trash clk m = (Ok removed, m') /\ catalog_inv m'
    /\ map node_id removed = map node_id (children n)
    /\ walk [] (root m) ≡ₚ walk [] (root m') ++ walk_list ["/"; ".trash"]%string removed
    /\ list_trash m' = Ok [].
Proof.
  intros Hinv Hn Hd. destruct (empty_trash_run clk m n Hinv Hn Hd) as (removed & m' & E & Hinv' & _ & Hids & Hw).
  exists removed, m'. split_and!; try done.
  assert ((node_id n, Dir, ["/"; ".trash"]%string) ∈ walk [] (root m')) as Hin.
  { pose proof (inv_find_path m TRASH_ROOT_PATH n Hinv Hn) as H. rewrite Hw in H.
    unfold is_dir in Hd. apply bool_decide_eq_true in Hd. rewrite Hd in H.
    apply elem_of_app in H as [H|(c & _ & H)%elem_of_walk_list]; [exact H|].
    apply walk_prefix in H as (rest & H). cbn in H. discriminate H. }
  destruct (walk_find_path m' TRASH_ROOT_PATH _ _ Hinv' Hin) as (n' & Hn' & Hi' & Ht').
  unfold list_trash. rewrite Hn'. unfold is_dir. rewrite Ht'. cbn. f_equal.
  destruct (children n') as [|c cs] eqn:Hcs; [done|]. exfalso.
  pose proof (find_child_in_walk [] (root m') [".trash"%string] n' c) as Hc.
  rewrite Hcs, (inv_root_name _ Hinv') in Hc. specialize (Hc ltac:(by repeat constructor) Hn' ltac:(by left)).
  pose proof (inv_nodup _ Hinv) as Hnd. rewrite (walk_perm_ids _ _ Hw), map_app in Hnd.
  apply NoDup_app in Hnd as (_ & Hdisj & _).
  apply (Hdisj (node_id c)); [exact (list_elem_of_fmap_2 entry_id _ _ Hc)|].
  assert (node_id c ∈ map node_id removed) as (rm & Erm & Hrm)%list_elem_of_fmap.
  { rewrite Hids. assert ((node_id c, node_type c, [] ++ "/"%string :: [".trash"%string] ++ [node_name c])
            ∈ walk [] (root m)) as Hcm by (rewrite Hw; apply elem_of_app; by left).
    rewrite <- (inv_root_name _ Hinv) in Hcm.
    destruct (walk_find_child _ _ _ _ _ _ (inv_wf _ Hinv) Hcm) as (par & c0 & Hpar & _ & <- & _ & _ & Hc0 & _).
    assert (Some par = Some n) as [= ->] by (rewrite <- Hpar; exact Hn). by apply list_elem_of_fmap_2. }
  rewrite Erm. apply list_elem_of_fmap. exists (node_id rm, node_type rm, ["/"; ".trash"; node_name rm]%string).
  split; [done|]. apply elem_of_walk_list. exists rm. split; [done|]. rewrite walk_eq. by left.
Qed.

Lemma below_trash_prefix x rest :
  Forall part_ok (x :: rest) ->
  starts_with "/.trash/" (path_string ("/" :: ".trash" :: x :: rest)%string) = true.
Proof.
  intros Hp. rewrite path_string_eq; [|constructor; [by split|done]|done].
  apply (starts_with_app "/.trash/" (str_join "/" (x :: rest))).
Qed.

(** A moved node is found under its id. *)
Lemma moved_find clk m m' id npp dest qs c W gone :
  catalog_inv m' -> moved clk m m' id npp dest qs c W gone ->
  find_by_id m' id = Some (moved_node clk dest c)
  /\ (id, node_type c, "/"%string :: parse_path npp ++ [dest]) ∈ walk [] (root m').
Proof.
  intros Hinv' Hmv. destruct (moved_node_spec clk dest c) as [(Hi & Ht & _) Hn].
  assert ((id, node_type c, "/"%string :: parse_path npp ++ [dest]) ∈ walk [] (root m')) as Hin.
  { rewrite (mv_after _ _ _ _ _ _ _ _ _ _ Hmv). apply elem_of_app. right. rewrite walk_eq, Hi, Ht, Hn.
    rewrite (mv_id _ _ _ _ _ _ _ _ _ _ Hmv). by left. }
  split; [|done]. unfold find_by_id. rewrite (inv_complete _ Hinv' _ _ _ Hin). unfold find_by_path.
  rewrite parse_index_path; [apply Hmv|]. apply Forall_app. split; [apply parse_path_parts|].
  constructor; [apply name_ok_part, Hmv|done].
Qed.

(** Where a trashed node is and what it carries. *)
Lemma trashed_live clk m m2 m' id n qs x c tname extra W :
  trashed clk m m2 m' id n qs x c tname extra W ->
  n = moved_node (later 3 clk) tname c
  /\ exists tr, live_child m' id [".trash"%string] tname tr n.
Proof.
  intros Htr. pose proof (tr_inv _ _ _ _ _ _ _ _ _ _ _ _ Htr) as Hinv'.
  destruct (moved_find _ _ _ _ _ _ _ _ _ _ Hinv' (tr_moved _ _ _ _ _ _ _ _ _ _ _ _ Htr)) as [Hf Hin].
  rewrite (tr_result _ _ _ _ _ _ _ _ _ _ _ _ Htr) in Hf. injection Hf as Hn. split; [done|].
  destruct (live_child_of_walk m' id _ [".trash"%string] tname Hinv' Hin) as (_ & tr & c' & Hl).
  exists tr. pose proof (lc_find _ _ _ _ _ _ Hl) as H.
  rewrite (tr_result _ _ _ _ _ _ _ _ _ _ _ _ Htr) in H. by injection H as ->.
Qed.

Lemma trashed_before clk m m2 m' id n qs x c tname extra W :
  trashed clk m m2 m' id n qs x c tname extra W -> exists p, live_child m2 id qs x p c.
Proof.
  intros Htr. pose proof (tr_moved _ _ _ _ _ _ _ _ _ _ _ _ Htr) as Hmv.
  assert ((id, node_type c, "/"%string :: qs ++ [x]) ∈ walk [] (root m2)) as Hin.
  { rewrite (mv_before _ _ _ _ _ _ _ _ _ _ Hmv). apply elem_of_app. right. apply elem_of_app. left.
    rewrite walk_eq, (mv_id _ _ _ _ _ _ _ _ _ _ Hmv), (tr_name _ _ _ _ _ _ _ _ _ _ _ _ Htr). by left. }
  destruct (live_child_of_walk m2 id _ qs x (tr_prep_inv _ _ _ _ _ _ _ _ _ _ _ _ Htr) Hin) as (_ & p & c' & Hl).
  exists p. pose proof (lc_find _ _ _ _ _ _ Hl) as H.
  rewrite (mv_find _ _ _ _ _ _ _ _ _ _ Hmv eq_refl) in H. by injection H as ->.
Qed.

(** The place a trashed node came from is still there, and free. *)
Lemma trashed_origin clk m m2 m' id n qs x c tname extra W par :
  trashed clk m m2 m' id n qs x c tname extra W -> parse_path par = qs ->
  exists np, find_by_path m' par = Some np /\ is_dir np = true /\ has_child x np = false.
Proof.
  intros Htr Hpar. pose proof (tr_moved _ _ _ _ _ _ _ _ _ _ _ _ Htr) as Hmv.
  pose proof (tr_prep_inv _ _ _ _ _ _ _ _ _ _ _ _ Htr) as Hinv2.
  destruct (trashed_before _ _ _ _ _ _ _ _ _ _ _ _ Htr) as [p Hl].
  pose proof (tr_inv _ _ _ _ _ _ _ _ _ _ _ _ Htr) as Hinv'.
  pose proof (mv_before _ _ _ _ _ _ _ _ _ _ Hmv) as Hb. rewrite app_nil_r in Hb.
  pose proof (mv_after _ _ _ _ _ _ _ _ _ _ Hmv) as Ha.
  pose proof (live_parent_entry _ _ _ _ _ _ Hinv2 Hl) as Hp. rewrite Hb, elem_of_app in Hp.
  destruct Hp as [Hp|Hp].
  2: { apply walk_prefix in Hp as (rest & E). cbn [snd] in E. rewrite <- app_comm_cons in E.
       by apply parent_not_below in E. }
  assert ((node_id p, Dir, "/"%string :: parse_path par) ∈ walk [] (root m')) as Hin.
  { rewrite Hpar, Ha. apply elem_of_app. by left. }
  destruct (walk_find_path m' par _ _ Hinv' Hin) as (np & Hnp & _ & Ht).
  exists np. split_and!; [done|unfold is_dir; by rewrite Ht|].
  apply (has_child_walk [] (root m') (parse_path par) np x (inv_wf _ Hinv') (parse_path_parts par) Hnp).
  intros i ty. rewrite (inv_root_name _ Hinv'), Hpar, Ha, elem_of_app. intros [Hi|Hi].
  - pose proof (walk_paths_nodup [] (root m2) (inv_wf _ Hinv2)) as Hnd.
    rewrite Hb, map_app in Hnd. apply NoDup_app in Hnd as (_ & Hdisj & _).
    apply (Hdisj ("/"%string :: qs ++ [x])); [exact (list_elem_of_fmap_2 entry_path _ _ Hi)|].
    rewrite walk_eq, (tr_name _ _ _ _ _ _ _ _ _ _ _ _ Htr). cbn. by left.
  - apply walk_prefix in Hi as (rest & E). cbn [snd app] in E.
    destruct (moved_node_spec (later 3 clk) tname c) as [_ Hn]. rewrite Hn in E.
    change (parse_path TRASH_ROOT_PATH) with [".trash"%string] in E. cbn [app] in E.
    destruct (tr_outside _ _ _ _ _ _ _ _ _ _ _ _ Htr) as [_ Ho]. rewrite E in Ho.
    rewrite below_trash_prefix in Ho; [done|]. injection E as E.
    assert (Forall part_ok (qs ++ [x])) as Hall.
    { apply Forall_app. split; [apply name_ok_parts, Hl|]. constructor; [apply name_ok_part, Hl|done]. }
    rewrite E in Hall. cbn in Hall. by apply Forall_cons in Hall as [_ ?].
Qed.

(** A directory and a free name in it, seen through trees with the same walk. *)
Lemma same_walk_dir m m3 par np x :
  catalog_inv m -> catalog_inv m3 -> walk [] (root m3) = walk [] (root m) ->
  find_by_path m par = Some np -> is_dir np = true -> has_child x np = false ->
  exists np3, find_by_path m3 par = Some np3 /\ is_dir np3 = true /\ has_child x np3 = false.
Proof.
  intros Hinv Hinv3 Hw Hnp Hd Hno. pose proof (inv_find_path _ _ _ Hinv Hnp) as Hin. rewrite <- Hw in Hin.
  destruct (walk_find_path m3 par _ _ Hinv3 Hin) as (np3 & Hnp3 & _ & Ht).
  exists np3. split_and!; [done|unfold is_dir in *; by rewrite Ht|].
  apply (has_child_walk [] _ _ _ x (inv_wf _ Hinv3) (parse_path_parts par) Hnp3). rewrite Hw.
  rewrite (inv_root_name _ Hinv3), <- (inv_root_name _ Hinv).
  by apply (has_child_walk [] _ _ _ x (inv_wf _ Hinv) (parse_path_parts par) Hnp).
Qed.

(** The guards of [restore_trashed_node_inner], for a node in the trash. *)
Lemma restore_eq clk m id tname tr n orig par x np :
  live_child m id [".trash"%string] tname tr n -> id <> 0 -> node_trash n = Some orig ->
  split_parent_and_name (original_path orig) = Some (par, x) -> name_ok x = true ->
  find_by_path m par = Some np -> has_child x np = false ->
  restore_trashed_node_inner clk id None None m =
    (with_id_mut id (fun n => (tt, set_trash None n));;
     move_node_with_options_inner clk id par (Some x) false;;
     m ← self;
     lift (ok_or (find_by_id m id) (NodeNotFound id))) m.
Proof.
  intros Hl Hid Htrash Hsplit Hok Hnp Hno. unfold restore_trashed_node_inner, ROOT_NODE_ID.
  rewrite (proj2 (Z.eqb_neq id 0) Hid), M_bind_self, M_bind_lift. unfold get_path.
  rewrite (lc_index _ _ _ _ _ _ Hl). cbn [fmap option_fmap option_map ok_or app].
  pose proof (below_trash_string tname (lc_name_ok _ _ _ _ _ _ Hl)) as Hb. rewrite Hb.
  destruct (String.eqb_spec (path_string ["/"; ".trash"; tname]%string) TRASH_ROOT_PATH) as [E|_].
  { exfalso. by rewrite E in Hb. }
  cbn [negb orb]. rewrite M_bind_lift, (lc_find _ _ _ _ _ _ Hl). cbn [mbind option_bind].
  rewrite Htrash. cbn [ok_or]. rewrite M_bind_lift, Hsplit. cbn [ok_or from_option Datatypes.id].
  rewrite M_bind_lift, (name_ok_validate _ Hok), M_bind_lift, Hnp. cbn [ok_or]. by rewrite Hno.
Qed.

Lemma restore_forward clk clk' m m2 m' id n qs x c tname extra W :
  id <> 0 -> trashed clk m m2 m' id n qs x c tname extra W ->
  exists n'' m'', restore_trashed_node_inner clk' id None None m' = (Ok n'', m'')
    /\ node_id n'' = id /\ node_trash n'' = None /\ walk [] (root m'') ≡ₚ walk [] (root m2).
Proof.
  intros Hid Htr. destruct (trashed_live _ _ _ _ _ _ _ _ _ _ _ _ Htr) as (Hn & tr & Hl).
  destruct (trashed_before _ _ _ _ _ _ _ _ _ _ _ _ Htr) as [p Hlb].
  pose proof (tr_inv _ _ _ _ _ _ _ _ _ _ _ _ Htr) as Hinv'.
  pose proof (tr_moved _ _ _ _ _ _ _ _ _ _ _ _ Htr) as Hmv.
  destruct (moved_node_spec (later 3 clk) tname c) as [Hsub1 Hname1].
  assert (node_trash n = node_trash c) as Htn by (rewrite Hn; unfold moved_node; by destruct (String.eqb _ _)).
  rewrite (tr_record _ _ _ _ _ _ _ _ _ _ _ _ Htr) in Htn.
  destruct (split_path_string qs x) as (par & Hsplit & Hpar).
  { apply Forall_app. split; [apply name_ok_parts, Hlb|]. constructor; [apply name_ok_part, Hlb|done]. }
  destruct (trashed_origin _ _ _ _ _ _ _ _ _ _ _ _ par Htr Hpar) as (np & Hnp & Hd & Hno).
  rewrite (restore_eq clk' m' id tname tr n _ par x np Hl Hid Htn Hsplit (lc_name_ok _ _ _ _ _ _ Hlb) Hnp Hno).
  destruct (with_id_mut_run m' id _ _ (fun n => (tt, set_trash None n)) Hinv' (lc_walk _ _ _ _ _ _ Hl))
    as (n2 & r3 & Hn2 & _ & Hrun & Hwf3 & Hsr3 & Hw3 & Hfind3); [done|].
  rewrite (lc_find _ _ _ _ _ _ Hl) in Hn2. injection Hn2 as <-. rewrite M_bind_eq, Hrun.
  destruct (same_walk_inv m' r3 Hinv' Hsr3 Hwf3 Hw3) as [Hinv3 _]. set (m3 := set_root r3 m') in *.
  destruct (same_walk_dir m' m3 par np x Hinv' Hinv3 Hw3 Hnp Hd Hno) as (np3 & Hnp3 & Hd3 & Hno3).
  pose proof (lc_walk _ _ _ _ _ _ Hl) as Hlw. rewrite <- Hw3 in Hlw.
  destruct (live_child_of_walk m3 id _ [".trash"%string] tname Hinv3 Hlw) as (_ & tr3 & c3 & Hl3).
  assert (c3 = set_trash None n) as -> by (pose proof (lc_find _ _ _ _ _ _ Hl3) as H; rewrite Hfind3 in H; by injection H).
  destruct (move_forward clk' id par x false m3 [".trash"%string] tname tr3 (set_trash None n) np3)
    as (m4 & W' & Hrun4 & Hmv4 & Hinv4 & _); try done; [apply Hlb| |].
  { intros rest E. rewrite Hpar in E. injection E as E.
    destruct (tr_outside _ _ _ _ _ _ _ _ _ _ _ _ Htr) as [_ Ho]. rewrite E in Ho. cbn [app] in Ho.
    rewrite below_trash_prefix in Ho; [done|].
    assert (Forall part_ok (qs ++ [x])) as Hall.
    { apply Forall_app. split; [apply name_ok_parts, Hlb|]. constructor; [apply name_ok_part, Hlb|done]. }
    rewrite E in Hall. cbn [app] in Hall. by apply Forall_cons in Hall as [_ ?]. }
  destruct (moved_find _ _ _ _ _ _ _ _ _ _ Hinv4 Hmv4) as [Hf4 _].
  exists (moved_node clk' x (set_trash None n)), m4. rewrite M_bind_eq, Hrun4, M_bind_self, Hf4.
  destruct (moved_node_spec clk' x (set_trash None n)) as [Hsub2 Hname2].
  split_and!; [done|rewrite (proj1 Hsub2); apply Hl|unfold moved_node; by destruct (String.eqb _ _)|].
  (* the walks *)
  assert (W ≡ₚ W') as HW.
  { pose proof (mv_before _ _ _ _ _ _ _ _ _ _ Hmv4) as Hb4. change (root m3) with r3 in Hb4.
    rewrite app_nil_r, Hw3, (mv_after _ _ _ _ _ _ _ _ _ _ Hmv), <- Hn in Hb4.
    rewrite (same_shape_walk _ n (set_trash None n)) in Hb4 by done.
    by apply Permutation_app_inv_r in Hb4. }
  rewrite (mv_after _ _ _ _ _ _ _ _ _ _ Hmv4), <- HW, (mv_before _ _ _ _ _ _ _ _ _ _ Hmv), app_nil_r, Hpar.
  apply Permutation_app_head. rewrite !walk_eq.
  rewrite (proj1 Hsub2), (proj1 (proj2 Hsub2)), Hname2, (same_subtree_children _ _ Hsub2).
  change (node_id (set_trash None n)) with (node_id n). change (node_type (set_trash None n)) with (node_type n).
  change (children (set_trash None n)) with (children n). rewrite Hn.
  by rewrite (proj1 Hsub1), (proj1 (proj2 Hsub1)), (same_subtree_children _ _ Hsub1), (tr_name _ _ _ _ _ _ _ _ _ _ _ _ Htr).
Qed.

(** C19: a node put into the trash can be restored right away, with no destination
    named: [restore_trashed_node] succeeds, the tree is the one before the deletion
    (up to the [/.trash] directory when it had to be created), and the restored node
    carries no trash record. *)
Theorem trash_restore_roundtrip clk clk' id m n m' :
  catalog_inv m -> known_or_unused m id -> next_node_id m < U64_MAX ->
  trash_node clk id m = (Ok n, m') ->
  exists n'' m'' extra, restore_trashed_node clk' id None None m' = (Ok n'', m'')
    /\ node_id n'' = id /\ node_trash n'' = None
    /\ walk [] (root m'') ≡ₚ extra ++ walk [] (root m)
    /\ (extra = [] \/ extra = [(next_node_id m, Dir, ["/"; ".trash"]%string)]).
Proof.
  intros Hinv Hk Hnx E. pose proof (known_or_unused_coherent m id Hinv Hk) as Hco.
  assert (trash_node_inner clk id m = (Ok n, m')) as E'.
  { unfold trash_node, atomically in E. destruct (trash_node_inner clk id m) as [[a|e] ?]; congruence. }
  destruct (trash_node_run clk id m n m' Hinv Hco Hnx E') as (m2 & qs & x & c & tname & extra & W & Htr).
  destruct (decide (id = 0)) as [->|Hid]; [done|].
  destruct (restore_forward clk clk' m m2 m' id n qs x c tname extra W Hid Htr) as (n'' & m'' & Hrun & Hi & Ht & Hw).
  exists n'', m'', extra. unfold restore_trashed_node, atomically. rewrite Hrun. split_and!; try done.
  - rewrite Hw. apply Htr.
  - apply Htr.
Qed.

(** ** The invariant *)

(** C1: every manager reached from an empty catalog by any sequence of operations,
    successful or not, whose ids are nodes of the tree or unknown to the index, has
    a well-formed tree with unique sibling names and unique ids, an index that gives
    the path of every node, and an allocator above every known id. *)
Theorem reachable_inv m : reachable m -> catalog_inv m.
Proof.
  induction 1 as [now|clk o m _ IH Ho]; [apply new_inv|]. by apply run_op_inv.
Qed.

(** as long as no directory is removed together with children, the index lists
    exactly the nodes of the tree after every operation. *)
Theorem index_stays_exact clk o m :
  catalog_inv m -> index_exact m -> op_allowed m o -> keeps_children m o ->
  catalog_inv (run_op clk o m) /\ index_exact (run_op clk o m).
Proof.
  intros Hinv Hex Ho Hk. destruct (run_op_inv clk o m Hinv Ho) as [Hinv' Hco].
  split; [done|]. by eapply coherent_le_exact; [apply Hco|].
Qed.

(** deleting a directory leaves the index entries of everything below it behind:
    each id of a proper descendant is still indexed under its old path although no
    node of the tree has it. *)
Theorem delete_leaves_descendants_indexed clk id m c i :
  catalog_inv m -> id <> ROOT_NODE_ID -> id ∈ ids (root m) -> find_by_id m id = Some c ->
  i ∈ collect_descendant_ids c ->
  exists m', delete_node clk id m = (Ok tt, m')
    /\ (i ∉ ids (root m')) /\ is_Some (node_index m' !! i) /\ ~ id_coherent m' i.
Proof.
  intros Hinv Hid Hin Hc Hi. pose proof (in_tree_coherent m id Hinv Hin) as Hco.
  destruct (delete_node_run clk id m Hinv Hco)
    as [(e & _ & [[? _]|[H _]])|(qs & x & parent & c' & r' & Hl & Hsr & Hwf & Hw & E)]; [done| |].
  { apply ids_walk_entry in Hin as (ty & p & Hin). apply (inv_complete _ Hinv) in Hin. congruence. }
  rewrite (lc_find _ _ _ _ _ _ Hl) in Hc. injection Hc as <-.
  assert (i ∈ ids c') as Hic by (rewrite ids_descendants; by right).
  assert (i <> id) as Hne.
  { pose proof (subtree_ids_nodup _ _ _ _ Hinv Hw) as Hnd. rewrite ids_descendants in Hnd.
    apply NoDup_cons in Hnd as [Hnd _]. rewrite (lc_id _ _ _ _ _ _ Hl) in Hnd. congruence. }
  assert (i ∉ ids r') as Hout.
  { pose proof (inv_nodup _ Hinv) as Hnd. rewrite (walk_perm_ids _ _ Hw), map_app, !walk_ids_nil in Hnd.
    apply NoDup_app in Hnd as (_ & Hdisj & _). intros H. by apply (Hdisj i). }
  assert (is_Some (node_index m !! i)) as [p Hp].
  { rewrite <- (walk_ids_nil ("/"%string :: qs)) in Hic. apply list_elem_of_fmap in Hic as ([[j ty] p] & -> & Hj).
    exists p. apply (inv_complete _ Hinv j ty). rewrite Hw. apply elem_of_app. by right. }
  eexists. split; [exact E|]. cbn [node_index root]. rewrite lookup_delete_ne by done.
  split_and!; [done|by exists p|].
  intros Hcoh. destruct (Hcoh p) as [ty Hin']; [cbn; by rewrite lookup_delete_ne|].
  apply Hout. by eapply walk_entry_ids.
Qed.

(** ** Concrete runs *)

Definition ticks : clock := fun n => 1700 + Z.of_nat n.

Definition history (os : list op) : CatalogManager :=
  default (new 0) (run_history ticks os (new 1000)).

Lemma history_reachable os :
  match run_history ticks os (new 1000) with Some _ => true | None => false end = true ->
  reachable (history os).
Proof.
  unfold history. destruct (run_history ticks os (new 1000)) as [m|] eqn:E; [|done]. intros _.
  by eapply run_history_reachable; [apply (reach_new 1000)|].
Qed.

(** A directory with a file in it, a second directory, and two files beside it. *)
Definition demo : CatalogManager :=
  history [OpCreateDir "/" "docs"; OpCreateFile "/docs" "a.txt" 10 None; OpCreateDir "/" "pics";
           OpCreateFile "/pics" "b.png" 20 (Some "image/png"%string); OpCreateFile "/" "c.txt" 30 None].

(** The directory of [demo] deleted and created again, with a new file of the old name. *)
Definition demo_recreated : CatalogManager :=
  history [OpCreateDir "/" "docs"; OpCreateFile "/docs" "a.txt" 10 None; OpDelete 2;
           OpCreateDir "/" "docs"; OpCreateFile "/docs" "a.txt" 11 None].

(** a stale id of a deleted subtree reaches whatever is created at its old path:
    renaming the deleted file 3 renames the new file 5, whose own index entry is then
    wrong, so that the live node 5 is no longer found under its id. *)
Theorem stale_id_hits_other_node :
  reachable demo_recreated
  /\ (3 ∉ ids (root demo_recreated))
  /\ node_id <$> find_by_id demo_recreated 3 = Some 5
  /\ let '(r, m') := rename ticks 3 "renamed.txt" demo_recreated in
     r = Ok tt /\ 5 ∈ ids (root m') /\ find_by_id m' 5 = None.
Proof.
  split_and!.
  - apply history_reachable. vm_compute. reflexivity.
  - apply (bool_decide_eq_true_1 (3 ∉ ids (root demo_recreated))). vm_compute. reflexivity.
  - vm_compute. reflexivity.
  - destruct (rename ticks 3 "renamed.txt" demo_recreated) as [r m'] eqn:E.
    vm_compute in E. injection E as <- <-. split_and!; [done| |vm_compute; reflexivity].
    apply (bool_decide_eq_true_1 (5 ∈ _)). vm_compute. reflexivity.
Qed.

(** an exchange of two nodes rebuilds the index and with it resets the allocator,
    so that the id a caller reserved before is given to the next node created, and the
    upload the id was reserved for is then refused under a name that does not exist. *)
Theorem exchange_reissues_reserved_id :
  let m0 := history [OpCreateDir "/" "a"; OpCreateDir "/" "b"] in
  let '(r, m1) := reserve_node_id m0 in
  let '(x, m2) := exchange_nodes ticks 2 3 m1 in
  let '(d, m3) := create_dir ticks "/" "c" m2 in
  let '(u, _) := create_file_with_id ticks "/" "upload.bin" 4 100 None m3 in
  r = Ok 4 /\ x = Ok tt /\ d = Ok 4 /\ u = Err (NameExists "upload.bin")
  /\ find_by_path m3 "/upload.bin" = None.
Proof. vm_compute. repeat split; reflexivity. Qed.

(** ** The theorems at concrete managers *)

Ltac by_computation := vm_compute; first [reflexivity | congruence].

Lemma demo_inv : catalog_inv demo.
Proof. apply catalog_inv_check_sound. by_computation. Qed.

Lemma demo_exact : index_exact demo.
Proof. apply index_exact_check_sound. by_computation. Qed.

Lemma demo_knows i : bool_decide (i ∈ ids (root demo)) = true -> i ∈ ids (root demo).
Proof. apply bool_decide_eq_true_1. Qed.

Lemma demo_may_use i : bool_decide (i ∈ ids (root demo)) = true -> known_or_unused demo i.
Proof. intros H. left. by apply demo_knows. Qed.

Lemma create_dir_correct_witness :
  match create_dir ticks "/docs" "new" demo with
  | (Ok id, m') => id = 7 /\ created demo m' "/docs" (new_dir 1700 7 "new")
  | (Err _, _) => False
  end.
Proof.
  pose proof (create_dir_correct ticks "/docs" "new" demo demo_inv eq_refl) as H.
  assert (is_ok (fst (create_dir ticks "/docs" "new" demo)) = true) as Hok by by_computation.
  assert (next_node_id demo = 7) as Hn by by_computation.
  destruct (create_dir ticks "/docs" "new" demo) as [[id|e] m'].
  - destruct H as (-> & _ & H & _). rewrite Hn in H |- *. by split.
  - done.
Defined.

Lemma create_file_with_id_correct_witness :
  match create_file_with_id ticks "/docs" "new" 40 5 None demo with
  | (Ok id, m') => id = 40 /\ created demo m' "/docs" (new_file 1700 1701 40 "new" 5 None)
  | (Err _, _) => False
  end.
Proof.
  pose proof (create_file_with_id_correct ticks "/docs" "new" 40 5 None demo demo_inv
                ltac:(unfold U64_MAX; lia)) as H.
  assert (is_ok (fst (create_file_with_id ticks "/docs" "new" 40 5 None demo)) = true) as Hok by by_computation.
  destruct (create_file_with_id ticks "/docs" "new" 40 5 None demo) as [[id|e] m'].
  - destruct H as (-> & H & _). by split.
  - done.
Defined.

Lemma id_path_lookup_witness :
  exists n s, find_by_id demo 3 = Some n /\ node_id n = 3
    /\ get_path demo 3 = Some s /\ find_by_path demo s = Some n.
Proof. apply (id_path_lookup demo 3 demo_inv). apply demo_knows. by_computation. Defined.

Lemma rename_correct_witness :
  exists m', rename ticks 2 "papers" demo = (Ok tt, m') /\ catalog_inv m'.
Proof.
  assert (known_or_unused demo 2) as Hk by (apply demo_may_use; by_computation).
  pose proof (rename_correct ticks 2 "papers" demo demo_inv Hk) as H.
  assert (is_ok (fst (rename ticks 2 "papers" demo)) = true) as Hok by by_computation.
  destruct (rename ticks 2 "papers" demo) as [[[]|e] m'].
  - exists m'. by destruct H.
  - done.
Defined.

Definition demo_moved : CatalogManager := snd (move_node_with_options ticks 2 "/pics" (Some "papers"%string) false demo).

Lemma move_correct_witness :
  catalog_inv demo_moved /\
  ((demo_moved = demo /\ exists c, find_by_id demo 2 = Some c /\ default (node_name c) (Some "papers"%string) = node_name c
      /\ node_index demo !! 2 = Some ("/"%string :: parse_path "/pics" ++ [node_name c])) \/
   exists qs c W gone, let dest := default (node_name c) (Some "papers"%string) in
     node_id c = 2
     /\ walk [] (root demo) ≡ₚ W ++ walk ("/"%string :: qs) c ++ gone
     /\ walk [] (root demo_moved) ≡ₚ W ++ walk ("/"%string :: parse_path "/pics") (set_name dest c)
     /\ (gone = [] \/ false = true /\ exists rid ty, ty <> Dir
           /\ gone = [(rid, ty, "/"%string :: parse_path "/pics" ++ [dest])])
     /\ version demo_moved = u64_add (version demo) 1).
Proof.
  assert (known_or_unused demo 2) as Hk by (apply demo_may_use; by_computation).
  pose proof (move_correct ticks 2 "/pics" (Some "papers"%string) false demo demo_inv Hk) as H.
  assert (is_ok (fst (move_node_with_options ticks 2 "/pics" (Some "papers"%string) false demo)) = true)
    as Hok by by_computation.
  unfold demo_moved. destruct (move_node_with_options ticks 2 "/pics" (Some "papers"%string) false demo) as [[[]|e] m'].
  - exact H.
  - done.
Defined.

Definition node_at (m : CatalogManager) (path : string) : CatalogNode :=
  default (new_root 0) (find_by_path m path).

Lemma move_succeeds_witness :
  exists m' n', move_node_with_options ticks 2 "/pics" None false demo = (Ok tt, m')
    /\ find_by_path m' "/pics/docs" = Some n'
    /\ node_id n' = 2 /\ children n' = children (node_at demo "/docs").
Proof.
  apply (move_succeeds ticks 2 "/pics" None false demo (node_at demo "/docs") ["/"; "docs"]%string
           (node_at demo "/pics") demo_inv); try by_computation.
  - apply demo_knows. by_computation.
  - intros [rest E]. vm_compute in E. discriminate E.
Defined.

Lemma delete_correct_witness :
  exists m', delete_node ticks 2 demo = (Ok tt, m') /\ catalog_inv m'.
Proof.
  assert (known_or_unused demo 2) as Hk by (apply demo_may_use; by_computation).
  pose proof (delete_correct ticks 2 demo demo_inv Hk) as H.
  assert (is_ok (fst (delete_node ticks 2 demo)) = true) as Hok by by_computation.
  destruct (delete_node ticks 2 demo) as [[[]|e] m'].
  - exists m'. by destruct H.
  - done.
Defined.

Lemma exchange_correct_witness :
  exists m' P Q W c d, exchange_nodes ticks 3 6 demo = (Ok tt, m')
    /\ catalog_inv m' /\ index_exact m' /\ version m' = u64_add (version demo) 1
    /\ node_id c = 3 /\ node_id d = 6
    /\ walk [] (root demo) ≡ₚ W ++ walk P c ++ walk Q d
    /\ walk [] (root m') ≡ₚ W ++ walk Q (set_name (node_name d) c) ++ walk P (set_name (node_name c) d).
Proof.
  apply (exchange_correct ticks 3 6 demo (node_at demo "/docs/a.txt") (node_at demo "/c.txt")
           ["/"; "docs"; "a.txt"]%string ["/"; "c.txt"]%string demo_inv); try by_computation.
  - apply demo_knows. by_computation.
  - apply demo_knows. by_computation.
  - intros [rest E]. vm_compute in E. discriminate E.
  - intros [rest E]. vm_compute in E. discriminate E.
Defined.

(** [demo] with its first directory in the trash. *)
Definition demo_trash : result Error CatalogNode * CatalogManager := trash_node ticks 2 demo.
Definition demo_trashed_node : CatalogNode :=
  match fst demo_trash with Ok n => n | Err _ => root demo end.

Lemma demo_trash_inv : catalog_inv (snd demo_trash).
Proof. apply catalog_inv_check_sound. by_computation. Qed.

Lemma empty_trash_correct_witness :
  exists removed m', empty_trash ticks (snd demo_trash) = (Ok removed, m') /\ catalog_inv m'
    /\ map node_id removed = map node_id (children (node_at (snd demo_trash) "/.trash"))
    /\ walk [] (root (snd demo_trash)) ≡ₚ walk [] (root m') ++ walk_list ["/"; ".trash"]%string removed
    /\ list_trash m' = Ok [].
Proof.
  apply (empty_trash_correct ticks (snd demo_trash) (node_at (snd demo_trash) "/.trash") demo_trash_inv);
    by_computation.
Defined.

Lemma trash_restore_roundtrip_witness :
  exists n'' m'' extra, restore_trashed_node ticks 2 None None (snd demo_trash) = (Ok n'', m'')
    /\ node_id n'' = 2 /\ node_trash n'' = None
    /\ walk [] (root m'') ≡ₚ extra ++ walk [] (root demo)
    /\ (extra = [] \/ extra = [(next_node_id demo, Dir, ["/"; ".trash"]%string)]).
Proof.
  apply (trash_restore_roundtrip ticks ticks 2 demo demo_trashed_node (snd demo_trash) demo_inv).
  - apply demo_may_use. by_computation.
  - by_computation.
  - by_computation.
Defined.

Lemma reachable_inv_witness : reachable demo /\ catalog_inv demo.
Proof.
  assert (reachable demo) as H by (apply history_reachable; by_computation).
  split; [exact H|exact (reachable_inv demo H)].
Defined.

Lemma index_stays_exact_witness : index_exact (run_op ticks (OpTrash 2) demo).
Proof.
  apply (index_stays_exact ticks (OpTrash 2) demo demo_inv demo_exact); [|done].
  split; [by_computation|]. apply demo_may_use. by_computation.
Defined.

Lemma delete_leaves_descendants_indexed_witness :
  exists m', delete_node ticks 2 demo = (Ok tt, m')
    /\ (3 ∉ ids (root m')) /\ is_Some (node_index m' !! 3) /\ ~ id_coherent m' 3.
Proof.
  apply (delete_leaves_descendants_indexed ticks 2 demo (node_at demo "/docs") 3 demo_inv);
    try by_computation.
  - apply demo_knows. by_computation.
  - apply (bool_decide_eq_true_1 (3 ∈ _)). by_computation.
Defined.
