(* ===== verification/CatalogDelta.v ===== *)
(** * Catalog deltas

    Models [crates/core/src/catalog/delta.rs]: the operations a shard's log
    records, and their replay on the shard's tree. [apply_delta] returns the
    outcome together with the tree it leaves behind, also when it fails; [now] is
    the clock reading of the one node it touches. *)

From S2P Require Import Prelude.
From S2P Require Import CatalogNode.
From S2P Require Import CatalogManager.
From S2P Require Import CatalogTree.
From S2P Require Import CatalogInvariant.
From Stdlib Require Import Ascii String.
From stdpp Require Import base gmap strings list.
Open Scope Z_scope.

Definition MAX_DELTAS : Z := 100.
Definition MAX_DELTA_SIZE : Z := 256 * 1024.

Record PartialNode := mkPartial {
  pn_name : option string;
  pn_size : option Z;
  pn_mime_type : option string;
  pn_media_info : option (option CatalogMediaInfo);
  pn_media_inspected_revision : option Z;
  pn_modtime : option Z;
  pn_source_revision : option Z;
}.

Inductive DeltaOp :=
  | Create (node : CatalogNode)
  | Update (fields : PartialNode)
  | Delete
  | Move (new_parent : string) (new_name : option string).

Record DeltaEntry := mkDelta {
  de_seq : Z;
  de_ts : Z;
  de_op : DeltaOp;
  de_path : string;
  de_node_id : option Z;
}.

Definition de_create (now seq : Z) (path : string) (node : CatalogNode) : DeltaEntry :=
  mkDelta seq now (Create node) path (Some (node_id node)).
Definition de_update (now seq : Z) (path : string) (fields : PartialNode) : DeltaEntry :=
  mkDelta seq now (Update fields) path None.
Definition de_delete (now seq : Z) (path : string) : DeltaEntry :=
  mkDelta seq now Delete path None.
Definition de_move (now seq : Z) (path new_parent : string) (new_name : option string) : DeltaEntry :=
  mkDelta seq now (Move new_parent new_name) path None.
Definition with_node_id (id : Z) (d : DeltaEntry) : DeltaEntry :=
  mkDelta (de_seq d) (de_ts d) (de_op d) (de_path d) (Some id).

(** ** The log *)

Record DeltaLog := mkLog {
  log_shard_id : string;
  from_version : Z;
  to_version : Z;
  entries : list DeltaEntry;
}.

Definition log_new (shard_id : string) : DeltaLog := mkLog shard_id 0 0 [].
Definition log_push (e : DeltaEntry) (l : DeltaLog) : DeltaLog :=
  mkLog (log_shard_id l) (from_version l) (de_seq e) (entries l ++ [e]).
Definition log_len (l : DeltaLog) : Z := Z.of_nat (length (entries l)).
Definition log_should_compact (l : DeltaLog) : bool := MAX_DELTAS <=? log_len l.
Definition log_clear (l : DeltaLog) : DeltaLog :=
  mkLog (log_shard_id l) (to_version l) (to_version l) [].

(** ** Failures and outcomes *)

Definition delta_op_name (o : DeltaOp) : string :=
  match o with
  | Create _ => "create"
  | Update _ => "update"
  | Delete => "delete"
  | Move _ _ => "move"
  end.

Definition failure (d : DeltaEntry) (reason : CatalogReplayReason) : CatalogDeltaReplayFailure :=
  mkReplayFailure (de_seq d) (de_path d) (de_node_id d) (delta_op_name (de_op d)) reason.

Inductive DeltaApplyOutcome := Applied | AlreadyApplied.

Definition is_applied (o : DeltaApplyOutcome) : bool :=
  match o with Applied | AlreadyApplied => true end.

Definition Replay (A : Type) : Type := result CatalogDeltaReplayFailure A.

(** ** Lookup *)

Definition split_parent_name (path : string) : option (string * string) :=
  match rsplit_once slash path with
  | None => None
  | Some (parent_path, nm) =>
      if string_is_empty nm then None
      else Some (if string_is_empty parent_path then "/"%string else parent_path, nm)
  end.

(** The components [find_node] walks: unlike [parse_path], inner empty ones stay. *)
Definition node_parts (path : string) : list string :=
  if String.eqb path "/" || string_is_empty path then []
  else split_char slash (trim_start_char slash path).

Fixpoint find_parts (parts : list string) (current : CatalogNode) : option CatalogNode :=
  match parts with
  | [] => Some current
  | part :: parts' =>
      match find_child part current with
      | None => None
      | Some c => find_parts parts' c
      end
  end.

Definition find_node (root : CatalogNode) (path : string) : option CatalogNode :=
  find_parts (node_parts path) root.

Fixpoint find_parts_mut {A} (parts : list string) (k : CatalogNode -> option (A * CatalogNode))
    (current : CatalogNode) : option (A * CatalogNode) :=
  match parts with
  | [] => k current
  | part :: parts' => find_child_mut part (find_parts_mut parts' k) current
  end.

(** [find_node_mut], with the code that runs under the borrow. *)
Definition find_node_mut {A} (path : string) (k : CatalogNode -> A * CatalogNode)
    (root : CatalogNode) : option (A * CatalogNode) :=
  find_parts_mut (node_parts path) (fun n => Some (k n)) root.

Fixpoint find_node_by_id (root : CatalogNode) (id : Z) : option CatalogNode :=
  match root with
  | mkNode i _ _ _ _ _ _ _ _ _ _ _ _ co =>
      if i =? id then Some root
      else match co with
           | None => None
           | Some cs =>
               foldr (fun c found => match find_node_by_id c id with
                                     | Some n => Some n
                                     | None => found
                                     end) None cs
           end
  end.

Definition is_absent_node_id (root : CatalogNode) (id : option Z) : bool :=
  match id with
  | Some id => match find_node_by_id root id with None => true | Some _ => false end
  | None => false
  end.

Definition id_mismatch (d : DeltaEntry) (n : CatalogNode) : bool :=
  match de_node_id d with Some id => negb (node_id n =? id) | None => false end.

Definition destination_has_node (root : CatalogNode) (parent_path nm : string) (id : option Z) : bool :=
  match id with
  | None => false
  | Some id =>
      match find_node root parent_path ≫= find_child nm with
      | Some child => node_id child =? id
      | None => false
      end
  end.

(** ** Replay *)

(** The [Create] arm, on the parent. *)
Definition create_in (now : Z) (d : DeltaEntry) (node parent : CatalogNode)
    : Replay DeltaApplyOutcome * CatalogNode :=
  if negb (is_dir parent) then (Err (failure d InvalidParent), parent)
  else if existsb (fun c => (node_id c =? node_id node) && String.eqb (node_name c) (node_name node))
            (children parent)
  then (Ok AlreadyApplied, parent)
  else if existsb (has_name (node_name node)) (children parent)
  then (Err (failure d NameCollision), parent)
  else if existsb (has_id (node_id node)) (children parent)
  then (Err (failure d NodeIdMismatch), parent)
  else let '(added, parent) := add_child now node parent in
       (if added then Ok Applied else Err (failure d InvalidParent), parent).

(** The field updates of the [Update] arm. *)
Definition update_fields (f : PartialNode) (n : CatalogNode) : CatalogNode :=
  let n := match pn_name f with Some v => set_name v n | None => n end in
  let n := match pn_size f with Some v => set_node_size v n | None => n end in
  let n := match pn_mime_type f with Some v => set_mime_type (Some v) n | None => n end in
  let n := match pn_media_info f with Some v => set_media_info v n | None => n end in
  let n := match pn_media_inspected_revision f with
           | Some v => set_media_inspected_revision v n
           | None => n
           end in
  let n := match pn_modtime f with Some v => set_modtime v n | None => n end in
  match pn_source_revision f with Some v => set_source_revision v n | None => n end.

Definition update_in (d : DeltaEntry) (f : PartialNode) (n : CatalogNode)
    : Replay DeltaApplyOutcome * CatalogNode :=
  if id_mismatch d n then (Err (failure d NodeIdMismatch), n) else (Ok Applied, update_fields f n).

Inductive DeleteApplyState := Removed | MissingParent | MissingChild.

Definition remove_in (now : Z) (d : DeltaEntry) (nm : string) (parent : CatalogNode)
    : Replay DeleteApplyState * CatalogNode :=
  if negb (is_dir parent) then (Err (failure d InvalidParent), parent)
  else match children_opt parent with
       | None => (Err (failure d InvalidParent), parent)
       | Some cs =>
           match remove_first (has_name nm) cs with
           | None => (Ok MissingChild, parent)
           | Some (c, cs') =>
               if id_mismatch d c then (Err (failure d NodeIdMismatch), parent)
               else (Ok Removed, touch now (set_children (Some cs') parent))
           end
       end.

Definition remove_child_by_name (now : Z) (root : CatalogNode) (parent_path nm : string)
    (d : DeltaEntry) : Replay DeleteApplyState * CatalogNode :=
  match find_node_mut parent_path (remove_in now d nm) root with
  | None => (Ok MissingParent, root)
  | Some (r, root) => (r, root)
  end.

Definition detach_in (d : DeltaEntry) (nm : string) (parent : CatalogNode)
    : Replay (option CatalogNode) * CatalogNode :=
  if negb (is_dir parent) then (Err (failure d InvalidParent), parent)
  else match children_opt parent with
       | None => (Err (failure d InvalidParent), parent)
       | Some cs =>
           match remove_first (has_name nm) cs with
           | None => (Ok None, parent)
           | Some (c, cs') =>
               if id_mismatch d c then (Err (failure d NodeIdMismatch), parent)
               else (Ok (Some c), set_children (Some cs') parent)
           end
       end.

Definition detach_child_by_name (root : CatalogNode) (parent_path nm : string) (d : DeltaEntry)
    : Replay (option CatalogNode) * CatalogNode :=
  match find_node_mut parent_path (detach_in d nm) root with
  | None => (Ok None, root)
  | Some (r, root) => (r, root)
  end.

(** Puts a detached node back under its old parent, under its old name. *)
Definition restore_detached_node (now : Z) (root : CatalogNode) (old_parent_path original_name : string)
    (node : CatalogNode) (renamed : bool) : CatalogNode :=
  let node := if renamed then set_name original_name node else node in
  match find_node_mut old_parent_path (add_child now node) root with
  | Some (_, root) => root
  | None => root
  end.

(** The attachment of a moved node: the outcome and the parent, or the reason
    for which the caller puts the node back. *)
Definition attach_in (now : Z) (d : DeltaEntry) (node parent : CatalogNode)
    : (CatalogReplayReason + Replay DeltaApplyOutcome) * CatalogNode :=
  if negb (is_dir parent) then (inl InvalidParent, parent)
  else if existsb (has_name (node_name node)) (children parent) then (inl NameCollision, parent)
  else let '(added, parent) := add_child now node parent in
       (inr (if added then Ok Applied else Err (failure d InvalidParent)), parent).

Definition apply_move (now : Z) (d : DeltaEntry) (new_parent : string) (new_name : option string)
    (root : CatalogNode) : Replay DeltaApplyOutcome * CatalogNode :=
  match split_parent_name (de_path d) with
  | None => (Err (failure d MalformedPath), root)
  | Some (old_parent_path, nm) =>
      let target_name := default nm new_name in
      match detach_child_by_name root old_parent_path nm d with
      | (Err e, root) => (Err e, root)
      | (Ok None, root) =>
          if destination_has_node root new_parent target_name (de_node_id d)
          then (Ok AlreadyApplied, root) else (Err (failure d MissingSource), root)
      | (Ok (Some node), root) =>
          let renamed := match new_name with Some _ => true | None => false end in
          let node := match new_name with Some n => set_name n node | None => node end in
          match find_node_mut new_parent (attach_in now d node) root with
          | None => (Err (failure d MissingTargetParent),
                     restore_detached_node now root old_parent_path nm node renamed)
          | Some (inl reason, root) =>
              (Err (failure d reason), restore_detached_node now root old_parent_path nm node renamed)
          | Some (inr r, root) => (r, root)
          end
      end
  end.

Definition apply_delta (now : Z) (root : CatalogNode) (d : DeltaEntry)
    : Replay DeltaApplyOutcome * CatalogNode :=
  match de_op d with
  | Create node =>
      match find_node_mut (de_path d) (create_in now d node) root with
      | None => (Err (failure d MissingTargetParent), root)
      | Some (r, root) => (r, root)
      end
  | Update f =>
      if string_is_empty (de_path d) then (Err (failure d MalformedPath), root)
      else match find_node_mut (de_path d) (update_in d f) root with
           | None => (Err (failure d MissingSource), root)
           | Some (r, root) => (r, root)
           end
  | Delete =>
      match split_parent_name (de_path d) with
      | None => (Err (failure d MalformedPath), root)
      | Some (parent_path, nm) =>
          match remove_child_by_name now root parent_path nm d with
          | (Err e, root) => (Err e, root)
          | (Ok Removed, root) => (Ok Applied, root)
          | (Ok MissingParent, root) =>
              if is_absent_node_id root (de_node_id d) then (Ok AlreadyApplied, root)
              else (Err (failure d MissingTargetParent), root)
          | (Ok MissingChild, root) =>
              if is_absent_node_id root (de_node_id d) then (Ok AlreadyApplied, root)
              else (Err (failure d MissingSource), root)
          end
      end
  | Move new_parent new_name => apply_move now d new_parent new_name root
  end.

(** The loop of [apply_deltas]; [clk] gives each delta its clock reading. *)
Fixpoint apply_deltas_loop (clk : clock) (original : CatalogNode) (ds : list DeltaEntry)
    (root : CatalogNode) (applied : Z) : result Error Z * CatalogNode :=
  match ds with
  | [] => (Ok applied, root)
  | d :: ds' =>
      match apply_delta (clk 0%nat) root d with
      | (Ok outcome, root) =>
          apply_deltas_loop (later 1 clk) original ds' root
            (if is_applied outcome then u32_wrap (applied + 1) else applied)
      | (Err f, _) => (Err (CatalogDeltaReplayFailed f), original)
      end
  end.

Definition apply_deltas (clk : clock) (root : CatalogNode) (ds : list DeltaEntry)
    : result Error Z * CatalogNode :=
  apply_deltas_loop clk root ds root 0.
