(* ===== verification/CatalogReplay.v ===== *)
(** * Replaying deltas

    What [apply_delta] and [apply_deltas] do to a well-formed tree: the effect of
    each operation, what a failed or repeated delta leaves behind, and how the
    replay of a recorded operation relates to the operation of the manager. *)

From Stdlib Require Import Ascii String.
From stdpp Require Import base gmap strings list.
From S2P Require Import Prelude.
From S2P Require Import CatalogNode.
From S2P Require Import CatalogManager.
From S2P Require Import CatalogTree.
From S2P Require Import CatalogInvariant.
From S2P Require Import CatalogOps.
From S2P Require Import CatalogMove.
From S2P Require Import CatalogExchange.
From S2P Require Import CatalogDelta.
Open Scope Z_scope.

(** ** Paths of deltas *)

Lemma filter_trim_start path :
  List.filter (fun s => negb (string_is_empty s)) (split_char slash (trim_start_char slash path))
  = parse_path path.
Proof.
  unfold parse_path. induction path as [|a path IH]; [done|]. cbn [trim_start_char].
  destruct (Ascii.eqb a slash) eqn:Ea; [|done]. rewrite IH. cbn [split_char]. by rewrite Ea.
Qed.

Lemma find_parts_names ps r n :
  wf_node r = true -> find_parts ps r = Some n -> Forall (fun p => name_ok p = true) ps.
Proof.
  revert r. induction ps as [|p ps IH]; intros r Hwf; [constructor|]. cbn.
  destruct (find_child p r) as [c|] eqn:Hc; [|done]. intros Hn.
  apply find_child_Some in Hc as [Hcn (cs & Hco & Hin)%children_in_opt].
  destruct (proj1 (wf_node_dir _ _ Hco) Hwf) as (_ & Hoks & _ & Hall).
  rewrite Forall_forall in Hoks, Hall. constructor; [rewrite <- Hcn; by apply Hoks|].
  apply (IH c); [by apply Hall|done].
Qed.

Lemma node_parts_parse path : Forall part_ok (node_parts path) -> node_parts path = parse_path path.
Proof.
  intros H. rewrite <- (filter_nonempty_parts _ H). unfold node_parts in *.
  destruct (_ || _) eqn:E; [|apply filter_trim_start].
  apply orb_true_iff in E as [->%String.eqb_eq|E]; [done|]. by destruct path.
Qed.

Lemma find_parts_eq ps r : Forall part_ok ps -> find_parts ps r = find_by_parts ps r.
Proof.
  intros H. revert r. induction H as [|p ps Hp _ IH]; intros r; [done|]. cbn.
  rewrite (part_ok_skip p Hp). destruct (find_child p r); [apply IH|done].
Qed.

Lemma find_parts_mut_eq {A} ps (k : CatalogNode -> option (A * CatalogNode)) r :
  Forall part_ok ps -> find_parts_mut ps k r = find_by_parts_mut ps k r.
Proof.
  intros H. revert r. induction H as [|p ps Hp _ IH]; intros r; [done|]. cbn.
  assert (forall cs, update_first (has_name p) (find_parts_mut ps k) cs
                     = update_first (has_name p) (find_by_parts_mut ps k) cs) as E.
  { induction cs as [|c cs IHcs]; [done|]. cbn. by rewrite IH, IHcs. }
  rewrite (part_ok_skip p Hp). unfold find_child_mut. destruct (children_opt r); [by rewrite E|done].
Qed.

Lemma find_parts_mut_none {A} ps (k : CatalogNode -> option (A * CatalogNode)) r :
  find_parts ps r = None -> find_parts_mut ps k r = None.
Proof.
  revert r. induction ps as [|p ps IH]; intros r; [done|]. cbn. unfold find_child, find_child_mut, children.
  destruct (children_opt r) as [cs|]; [|done]. cbn [from_option Datatypes.id].
  destruct (List.find (has_name p) cs) as [c|] eqn:Hc; [|by rewrite update_first_none].
  intros H. apply find_split in Hc as (l1 & l2 & -> & Hp & Hl1).
  rewrite update_first_split by done. by rewrite (IH c H).
Qed.

(** A path of a delta leads to a node, which can then be edited in its context, or nowhere. *)
Variant located (r : CatalogNode) (path : string) : Prop :=
  | located_none :
      find_node r path = None ->
      (forall A (k : CatalogNode -> A * CatalogNode), find_node_mut path k r = None) -> located r path
  | located_at n plug L R pre' :
      find_node r path = Some n ->
      is_focus [] (parse_path path) r n plug L R pre' ->
      (forall A (k : CatalogNode -> A * CatalogNode),
         find_node_mut path k r = Some (fst (k n), plug (snd (k n)))) -> located r path.

Lemma locate r path : wf_node r = true -> located r path.
Proof.
  intros Hwf. destruct (find_node r path) as [n|] eqn:Hn.
  - pose proof (name_ok_parts _ (find_parts_names _ _ _ Hwf Hn)) as Hparts.
    pose proof (node_parts_parse _ Hparts) as E. pose proof Hn as Hn'. unfold find_node in Hn'.
    rewrite find_parts_eq, E in Hn' by done.
    destruct (find_focus [] (parse_path path) r n) as (plug & L & R & pre' & Hf); [apply parse_path_parts|done|].
    eapply located_at; [done|exact Hf|]. intros A k. unfold find_node_mut.
    rewrite find_parts_mut_eq, E, (foc_mut _ _ _ _ _ _ _ _ Hf) by done. by destruct (k n).
  - apply located_none; [done|]. intros A k. by apply find_parts_mut_none.
Qed.

(** ** Changing the children of a directory *)

(** [r'] is [r] with the children [cs'] in place of [cs] in the directory at [qs]. *)
Record recast (r r' : CatalogNode) (qs : list string) (cs cs' : list CatalogNode) : Prop := {
  rc_wf : wf_node r' = true;
  rc_root : same_root r r';
  rc_walk : exists W, walk [] r ≡ₚ W ++ walk_list (node_name r :: qs) cs
    /\ walk [] r' ≡ₚ W ++ walk_list (node_name r :: qs) cs';
}.

Lemma focus_recast qs r p plug L R pre' p' cs cs' :
  is_focus [] qs r p plug L R pre' -> wf_node r = true ->
  children_opt p = Some cs -> children_opt p' = Some cs' -> same_root p p' ->
  Forall (fun c => name_ok (node_name c) = true) cs' -> NoDup (map node_name cs') ->
  Forall (fun c => wf_node c = true) cs' ->
  recast r (plug p') qs cs cs'.
Proof.
  intros Hf Hwf Hco Hco' Hsr Hoks Hnd Hall.
  pose proof (foc_wf_sub _ _ _ _ _ _ _ _ Hf Hwf) as Hwp. split.
  - apply (foc_wf _ _ _ _ _ _ _ _ Hf); [apply Hsr|done|]. apply (wf_node_dir _ _ Hco').
    destruct (proj1 (wf_node_dir _ _ Hco) Hwp) as (Ht & _). destruct Hsr as (_ & _ & Ht').
    split_and!; try done. congruence.
  - by eapply focus_same_root.
  - exists (L ++ (node_id p, node_type p, pre' ++ [node_name p]) :: R). split.
    + rewrite (focus_mid _ _ _ _ _ _ _ _ Hf), (walk_eq _ p), (children_Some _ _ Hco).
      rewrite (foc_path _ _ _ _ _ _ _ _ Hf). cbn. solve_Permutation.
    + rewrite (foc_walk _ _ _ _ _ _ _ _ Hf), (walk_eq _ p'), (children_Some _ _ Hco').
      destruct Hsr as (-> & -> & ->). rewrite (foc_path _ _ _ _ _ _ _ _ Hf). cbn. solve_Permutation.
Qed.

Lemma existsb_name nm cs : existsb (has_name nm) cs = false <-> nm ∉ map node_name cs.
Proof.
  induction cs as [|c cs IH]; cbn; [split; [intros _; apply not_elem_of_nil|done]|].
  rewrite orb_false_iff, IH, not_elem_of_cons. unfold has_name.
  destruct (String.eqb_spec (node_name c) nm); split; intros [? ?]; split; try done; congruence.
Qed.

(** A node added below the directory at [path]. *)
Lemma attach_tree {A} r path (k : CatalogNode -> A * CatalogNode) now node p :
  wf_node r = true -> find_node r path = Some p -> is_dir p = true ->
  existsb (has_name (node_name node)) (children p) = false ->
  name_ok (node_name node) = true -> wf_node node = true -> snd (k p) = snd (add_child now node p) ->
  exists r', find_node_mut path k r = Some (fst (k p), r') /\ wf_node r' = true /\ same_root r r'
    /\ walk [] r' ≡ₚ walk [] r ++ walk (node_name r :: parse_path path) node
    /\ find_node r' path = Some (snd (k p)).
Proof.
  intros Hwf Hp Hd Hno Hok Hwn Hk. pose proof (name_ok_parts _ (find_parts_names _ _ _ Hwf Hp)) as Hparts.
  destruct (locate r path Hwf) as [Hnone _|p1 plug L R pre' Hp1 Hf Hmut]; [congruence|].
  assert (p1 = p) as -> by congruence.
  destruct (wf_is_dir p (foc_wf_sub _ _ _ _ _ _ _ _ Hf Hwf) Hd) as [cs Hco].
  rewrite (children_Some _ _ Hco) in Hno. apply existsb_name in Hno.
  destruct (proj1 (wf_node_dir _ _ Hco) (foc_wf_sub _ _ _ _ _ _ _ _ Hf Hwf)) as (_ & Hoks & Hnd & Hall).
  exists (plug (snd (k p))). split; [apply Hmut|].
  destruct (focus_recast (parse_path path) r p plug L R pre' (snd (k p)) cs (cs ++ [node]))
    as [Hwf' Hsr (W & Hw & Hw')]; try done.
  - rewrite Hk. unfold add_child. by rewrite Hco.
  - rewrite Hk. unfold add_child. by rewrite Hco.
  - apply Forall_app. split; [done|by constructor].
  - rewrite map_app. apply NoDup_app. split_and!; [done| |apply NoDup_singleton].
    intros x Hx ->%list_elem_of_singleton. done.
  - apply Forall_app. split; [done|by constructor].
  - split_and!; [done|done| |].
    + rewrite Hw', Hw, walk_list_app, walk_list_cons. cbn. solve_Permutation.
    + unfold find_node. rewrite find_parts_eq, (node_parts_parse _ Hparts) by done.
      apply (foc_find _ _ _ _ _ _ _ _ Hf). rewrite Hk. unfold add_child. by rewrite Hco.
Qed.

(** The child [nm] removed from the directory at [path]; [p'] is the directory after. *)
Lemma detach_tree {A} r path (k : CatalogNode -> A * CatalogNode) nm p c cs cs' :
  wf_node r = true -> find_node r path = Some p -> children_opt p = Some cs ->
  remove_first (has_name nm) cs = Some (c, cs') ->
  same_root p (snd (k p)) -> children_opt (snd (k p)) = Some cs' ->
  exists r', find_node_mut path k r = Some (fst (k p), r') /\ wf_node r' = true /\ same_root r r'
    /\ walk [] r ≡ₚ walk [] r' ++ walk (node_name r :: parse_path path) c
    /\ node_name c = nm /\ wf_node c = true /\ name_ok nm = true
    /\ find_node r' path = Some (snd (k p)) /\ nm ∉ map node_name cs'.
Proof.
  intros Hwf Hp Hco Hrem Hsr Hco'.
  destruct (locate r path Hwf) as [Hnone _|p1 plug L R pre' Hp1 Hf Hmut]; [congruence|].
  assert (p1 = p) as -> by congruence.
  pose proof (name_ok_parts _ (find_parts_names _ _ _ Hwf Hp)) as Hparts.
  destruct (proj1 (wf_node_dir _ _ Hco) (foc_wf_sub _ _ _ _ _ _ _ _ Hf Hwf)) as (_ & Hoks & Hnd & Hall).
  apply remove_first_split in Hrem as (l1 & l2 & -> & -> & Hn & _). apply has_name_true in Hn.
  apply Forall_app in Hoks as [Hok1 [Hokc Hok2]%Forall_cons], Hall as [Hall1 [Hallc Hall2]%Forall_cons].
  rewrite map_app in Hnd. cbn in Hnd. apply NoDup_app in Hnd as (Hnd1 & Hdisj & [Hnc Hnd2]%NoDup_cons).
  exists (plug (snd (k p))). split; [apply Hmut|].
  destruct (focus_recast (parse_path path) r p plug L R pre' (snd (k p)) (l1 ++ c :: l2) (l1 ++ l2))
    as [Hwf' Hsr' (W & Hw & Hw')]; try done.
  - by apply Forall_app.
  - rewrite map_app. apply NoDup_app. split_and!; try done. intros x Hx Hx2. apply (Hdisj x Hx). by right.
  - by apply Forall_app.
  - split_and!; try done.
    + rewrite Hw', Hw, !walk_list_app, walk_list_cons. solve_Permutation.
    + by rewrite <- Hn.
    + unfold find_node. rewrite find_parts_eq, (node_parts_parse _ Hparts) by done.
      apply (foc_find _ _ _ _ _ _ _ _ Hf). apply Hsr.
    + rewrite map_app, elem_of_app. intros [H|H].
      * apply (Hdisj nm H). rewrite Hn. by left.
      * apply Hnc. by rewrite Hn.
Qed.

Lemma split_parent_name_parse path par nm :
  split_parent_name path = Some (par, nm) -> parse_path path = parse_path par ++ [nm] /\ part_ok nm.
Proof.
  unfold split_parent_name. destruct (rsplit_once slash path) as [[l r]|] eqn:E; [|done].
  apply rsplit_once_Some in E as [-> Hr]. destruct (string_is_empty r) eqn:Hr0; [done|]. intros [= <- ->].
  assert (part_ok nm) as Hp by (split; [by intros ->|done]). split; [|done].
  rewrite parse_path_sep by done. f_equal. by destruct l.
Qed.

(** ** Effects *)

(** Deltas the code records: valid names, well-formed nodes, updates that keep the name. *)
Definition delta_ok (d : DeltaEntry) : bool :=
  match de_op d with
  | Create node => wf_node node && name_ok (node_name node)
  | Update f => match pn_name f with None => true | Some _ => false end
  | Delete => true
  | Move _ nn => match nn with Some n => name_ok n | None => true end
  end.

(** What an applied delta means for the entries of the tree. *)
Definition delta_effect (d : DeltaEntry) (r r' : CatalogNode) : Prop :=
  let at_path p := node_name r :: parse_path p in
  match de_op d with
  | Create node => walk [] r' ≡ₚ walk [] r ++ walk (at_path (de_path d)) node
  | Update f => walk [] r' = walk [] r
      /\ exists n, find_node r (de_path d) = Some n /\ find_node r' (de_path d) = Some (update_fields f n)
  | Delete => exists P c, P ++ [node_name c] = at_path (de_path d)
      /\ id_mismatch d c = false /\ walk [] r ≡ₚ walk [] r' ++ walk P c
  | Move np nn => exists P c W, P ++ [node_name c] = at_path (de_path d)
      /\ id_mismatch d c = false /\ walk [] r ≡ₚ W ++ walk P c
      /\ walk [] r' ≡ₚ W ++ walk (at_path np) (set_name (default (node_name c) nn) c)
  end.

(** The outcome of a delta and the tree it leaves. *)
Definition replayed (d : DeltaEntry) (r : CatalogNode) (x : Replay DeltaApplyOutcome * CatalogNode) : Prop :=
  wf_node (snd x) = true /\ same_root r (snd x) /\
  match fst x with
  | Ok Applied => delta_effect d r (snd x)
  | Ok AlreadyApplied => snd x = r
  | Err _ => walk [] (snd x) ≡ₚ walk [] r
  end.

Lemma replayed_same d r res :
  wf_node r = true -> res <> Ok Applied -> replayed d r (res, r).
Proof. intros Hwf Hres. split_and!; cbn; try done. by destruct res as [[]|]. Qed.

Lemma create_replayed now r d node :
  wf_node r = true -> delta_ok d = true -> de_op d = Create node -> replayed d r (apply_delta now r d).
Proof.
  intros Hwf Hok Hop. unfold delta_ok in Hok. rewrite Hop in Hok. apply andb_true_iff in Hok as [Hwn Hokn].
  unfold apply_delta. rewrite Hop.
  destruct (locate r (de_path d) Hwf) as [_ Hmut|p plug L R pre' Hp Hf Hmut]; [by rewrite Hmut; apply replayed_same|].
  destruct (create_in now d node p) as [res p'] eqn:E. pose proof E as E'. unfold create_in in E.
  assert (p' = p -> res <> Ok Applied -> replayed d r
    match find_node_mut (de_path d) (create_in now d node) r with
    | Some (r0, root) => (r0, root) | None => (Err (failure d MissingTargetParent), r) end) as Hkeep.
  { intros -> Hres. rewrite Hmut, E'. cbn. rewrite (foc_self _ _ _ _ _ _ _ _ Hf). by apply replayed_same. }
  destruct (is_dir p) eqn:Hd; cbn [negb] in E; [|injection E as <- <-; by apply Hkeep].
  destruct (existsb _ _); [injection E as <- <-; by apply Hkeep|].
  destruct (existsb (has_name _) _) eqn:Hno; [injection E as <- <-; by apply Hkeep|].
  destruct (existsb (has_id _) _); [injection E as <- <-; by apply Hkeep|].
  destruct (wf_is_dir p (foc_wf_sub _ _ _ _ _ _ _ _ Hf Hwf) Hd) as [cs Hco].
  unfold add_child in E. rewrite Hco in E. injection E as <- <-.
  destruct (attach_tree r (de_path d) (create_in now d node) now node p) as (r' & Hrun & Hwf' & Hsr & Hw & _); try done.
  { rewrite E'. unfold add_child. by rewrite Hco. }
  rewrite Hrun, E'. split_and!; try done. cbn. unfold delta_effect. by rewrite Hop.
Qed.

Lemma update_fields_shape f n : pn_name f = None -> same_shape n (update_fields f n).
Proof.
  intros H. unfold update_fields. rewrite H. destruct f as [nm sz mime mi mr mt sr]. cbn.
  by destruct sz, mime, mi, mr, mt, sr.
Qed.

Lemma update_replayed now r d f :
  wf_node r = true -> delta_ok d = true -> de_op d = Update f -> replayed d r (apply_delta now r d).
Proof.
  intros Hwf Hok Hop. unfold delta_ok in Hok. rewrite Hop in Hok.
  destruct (pn_name f) eqn:Hname; [done|]. unfold apply_delta. rewrite Hop.
  destruct (string_is_empty (de_path d)); [by apply replayed_same|].
  destruct (locate r (de_path d) Hwf) as [_ Hmut|n plug L R pre' Hn Hf Hmut]; [by rewrite Hmut; apply replayed_same|].
  rewrite Hmut. unfold update_in. destruct (id_mismatch d n); cbn.
  { rewrite (foc_self _ _ _ _ _ _ _ _ Hf). by apply replayed_same. }
  destruct (update_fields_shape f n Hname) as [Hsr Hch]. set (n' := update_fields f n) in *.
  pose proof (name_ok_parts _ (find_parts_names _ _ _ Hwf Hn)) as Hparts.
  assert (same_shape n n') as Hsh by done. split_and!; cbn.
  - apply (foc_wf _ _ _ _ _ _ _ _ Hf); [apply Hsr|done|]. rewrite (same_shape_wf _ _ Hsh).
    by apply (foc_wf_sub _ _ _ _ _ _ _ _ Hf).
  - by eapply focus_same_root.
  - unfold delta_effect. rewrite Hop. split.
    + rewrite (foc_walk _ _ _ _ _ _ _ _ Hf), (focus_mid _ _ _ _ _ _ _ _ Hf).
      by rewrite (same_shape_walk _ _ _ Hsh).
    + exists n. split; [done|]. unfold find_node. rewrite find_parts_eq, (node_parts_parse _ Hparts) by done.
      apply (foc_find _ _ _ _ _ _ _ _ Hf). apply Hsr.
Qed.

(** Both removals by name: nothing happens, or the named child is taken out. *)
Variant taken (d : DeltaEntry) (nm : string) (r : CatalogNode) (path : string) (p : CatalogNode) : Prop :=
  | taken_none : (is_dir p = false \/ nm ∉ map node_name (children p)) -> taken d nm r path p
  | taken_mismatch c cs cs' :
      is_dir p = true -> children_opt p = Some cs -> remove_first (has_name nm) cs = Some (c, cs') ->
      id_mismatch d c = true -> taken d nm r path p
  | taken_child c cs cs' :
      is_dir p = true -> children_opt p = Some cs -> remove_first (has_name nm) cs = Some (c, cs') ->
      id_mismatch d c = false -> taken d nm r path p.

Lemma take_child d nm r path p :
  wf_node r = true -> find_node r path = Some p -> taken d nm r path p.
Proof.
  intros Hwf Hp. destruct (locate r path Hwf) as [Hnone _|p1 plug L R pre' Hp1 Hf _]; [congruence|].
  assert (p1 = p) as -> by congruence.
  destruct (is_dir p) eqn:Hd; [|by apply taken_none; left].
  destruct (wf_is_dir p (foc_wf_sub _ _ _ _ _ _ _ _ Hf Hwf) Hd) as [cs Hco].
  destruct (remove_first (has_name nm) cs) as [[c cs']|] eqn:Hrem.
  - destruct (id_mismatch d c) eqn:Hid; [by eapply taken_mismatch|by eapply taken_child].
  - apply taken_none. right. rewrite (children_Some _ _ Hco). apply existsb_name.
    apply remove_first_none in Hrem. clear -Hrem. induction Hrem as [|c cs Hc _ IH]; [done|].
    cbn. by rewrite Hc.
Qed.

Lemma remove_first_absent nm cs : nm ∉ map node_name cs -> remove_first (has_name nm) cs = None.
Proof.
  intros H. apply remove_first_none, Forall_forall. intros c Hc. destruct (has_name nm c) eqn:E; [|done].
  apply has_name_true in E. exfalso. apply H. rewrite <- E. by apply list_elem_of_fmap_2.
Qed.

Lemma delete_replayed now r d :
  wf_node r = true -> de_op d = Delete -> replayed d r (apply_delta now r d).
Proof.
  intros Hwf Hop. unfold apply_delta. rewrite Hop.
  destruct (split_parent_name (de_path d)) as [[par nm]|] eqn:Hsp; [|by apply replayed_same].
  destruct (split_parent_name_parse _ _ _ Hsp) as [Hparse _]. unfold remove_child_by_name.
  assert (forall reason, replayed d r
    (if is_absent_node_id r (de_node_id d) then (Ok AlreadyApplied, r) else (Err (failure d reason), r))) as Hkeep
    by (intros reason; destruct (is_absent_node_id r (de_node_id d)); by apply replayed_same).
  destruct (locate r par Hwf) as [_ Hmut|p plug L R pre' Hp Hf Hmut]; [rewrite Hmut; apply Hkeep|].
  destruct (take_child d nm r par p Hwf Hp) as [Hnone|c cs cs' Hd Hco Hrem Hid|c cs cs' Hd Hco Hrem Hid].
  - rewrite Hmut. unfold remove_in. destruct (is_dir p) eqn:Hd; cbn [negb].
    + destruct (wf_is_dir p (foc_wf_sub _ _ _ _ _ _ _ _ Hf Hwf) Hd) as [cs Hco].
      destruct Hnone as [?|Hno]; [done|]. rewrite (children_Some _ _ Hco) in Hno.
      rewrite Hco, (remove_first_absent _ _ Hno). cbn. rewrite (foc_self _ _ _ _ _ _ _ _ Hf). apply Hkeep.
    + cbn. rewrite (foc_self _ _ _ _ _ _ _ _ Hf). by apply replayed_same.
  - rewrite Hmut. unfold remove_in. rewrite Hd, Hco, Hrem, Hid. cbn.
    rewrite (foc_self _ _ _ _ _ _ _ _ Hf). by apply replayed_same.
  - assert (remove_in now d nm p = (Ok Removed, touch now (set_children (Some cs') p))) as E
      by (unfold remove_in; by rewrite Hd, Hco, Hrem, Hid).
    destruct (detach_tree r par (remove_in now d nm) nm p c cs cs')
      as (r' & Hrun & Hwf' & Hsr & Hw & Hcn & _); try done; [by rewrite E|by rewrite E|].
    rewrite Hrun, E. split_and!; try done. cbn. unfold delta_effect. rewrite Hop.
    exists (node_name r :: parse_path par), c. split_and!; try done. by rewrite Hcn, Hparse.
Qed.

(** A detached node goes back where it was. *)
Lemma restore_detached now r r1 par nm p c cs cs' d :
  wf_node r = true -> find_node r par = Some p -> children_opt p = Some cs -> is_dir p = true ->
  remove_first (has_name nm) cs = Some (c, cs') ->
  find_node_mut par (detach_in d nm) r = Some (Ok (Some c), r1) -> id_mismatch d c = false ->
  let r2 := restore_detached_node now r1 par nm c false in
  wf_node r2 = true /\ same_root r r2 /\ walk [] r2 ≡ₚ walk [] r.
Proof.
  intros Hwf Hp Hco Hd Hrem Hrun Hid.
  assert (detach_in d nm p = (Ok (Some c), set_children (Some cs') p)) as E
    by (unfold detach_in; by rewrite Hd, Hco, Hrem, Hid).
  destruct (detach_tree r par (detach_in d nm) nm p c cs cs')
    as (r1' & Hrun' & Hwf1 & Hsr1 & Hw1 & Hcn & Hwc & Hok & Hfind & Hno); try done;
    [by rewrite E|by rewrite E|].
  rewrite Hrun in Hrun'. injection Hrun' as _ <-. rewrite E in Hfind. cbn in Hfind.
  destruct (attach_tree r1 par (add_child now c) now c (set_children (Some cs') p))
    as (r2 & Hrun2 & Hwf2 & Hsr2 & Hw2 & _); try done; [by rewrite Hcn; apply existsb_name|by rewrite Hcn|].
  cbn. unfold restore_detached_node. rewrite Hrun2. split_and!; [done|by eapply same_root_trans|].
  rewrite Hw2, Hw1. by rewrite (proj1 (proj2 Hsr1)).
Qed.

Lemma set_name_back n nm nn : node_name n = nm -> set_name nm (set_name nn n) = n.
Proof. destruct n. cbn. by intros <-. Qed.

Lemma move_replayed now r d np nn :
  wf_node r = true -> delta_ok d = true -> de_op d = Move np nn -> replayed d r (apply_delta now r d).
Proof.
  intros Hwf Hokd Hop. unfold delta_ok in Hokd. rewrite Hop in Hokd.
  unfold apply_delta. rewrite Hop. unfold apply_move.
  destruct (split_parent_name (de_path d)) as [[par nm]|] eqn:Hsp; [|by apply replayed_same].
  destruct (split_parent_name_parse _ _ _ Hsp) as [Hparse _]. unfold detach_child_by_name.
  assert (replayed d r (if destination_has_node r np (default nm nn) (de_node_id d)
    then (Ok AlreadyApplied, r) else (Err (failure d MissingSource), r))) as Hkeep
    by (destruct (destination_has_node _ _ _ _); by apply replayed_same).
  destruct (locate r par Hwf) as [_ Hmut|p plug L R pre' Hp Hf Hmut]; [by rewrite Hmut|].
  destruct (take_child d nm r par p Hwf Hp) as [Hnone|c cs cs' Hd Hco Hrem Hid|c cs cs' Hd Hco Hrem Hid].
  - rewrite Hmut. unfold detach_in. destruct (is_dir p) eqn:Hd; cbn [negb].
    + destruct (wf_is_dir p (foc_wf_sub _ _ _ _ _ _ _ _ Hf Hwf) Hd) as [cs Hco].
      destruct Hnone as [?|Hno]; [done|]. rewrite (children_Some _ _ Hco) in Hno.
      rewrite Hco, (remove_first_absent _ _ Hno). cbn [fst snd].
      by rewrite (foc_self _ _ _ _ _ _ _ _ Hf).
    + cbn. rewrite (foc_self _ _ _ _ _ _ _ _ Hf). by apply replayed_same.
  - rewrite Hmut. unfold detach_in. rewrite Hd, Hco, Hrem, Hid. cbn.
    rewrite (foc_self _ _ _ _ _ _ _ _ Hf). by apply replayed_same.
  - assert (detach_in d nm p = (Ok (Some c), set_children (Some cs') p)) as E
      by (unfold detach_in; by rewrite Hd, Hco, Hrem, Hid).
    destruct (detach_tree r par (detach_in d nm) nm p c cs cs')
      as (r1 & Hrun & Hwf1 & Hsr1 & Hw1 & Hcn & Hwc & Hok & Hfind & Hno); try done;
      [by rewrite E|by rewrite E|].
    rewrite Hrun, E. cbn [fst].
    rewrite E in Hrun. cbn [fst] in Hrun.
    set (node := match nn with Some n => set_name n c | None => c end).
    assert (node = set_name (default (node_name c) nn) c) as Hnode
      by (unfold node; destruct nn; [done|]; by destruct c).
    assert (restore_detached_node now r1 par nm node (match nn with Some _ => true | None => false end)
            = restore_detached_node now r1 par nm c false) as Hback.
    { unfold restore_detached_node, node. destruct nn; [by rewrite set_name_back|done]. }
    pose proof (restore_detached now r r1 par nm p c cs cs' d Hwf Hp Hco Hd Hrem Hrun Hid) as (Hwfb & Hsrb & Hwb).
    assert (forall reason, replayed d r (Err (failure d reason),
      restore_detached_node now r1 par nm node (match nn with Some _ => true | None => false end))) as Hrest
      by (intros reason; rewrite Hback; done).
    destruct (locate r1 np Hwf1) as [_ Hmut1|q plug1 L1 R1 pre1 Hq Hf1 Hmut1]; [rewrite Hmut1; apply Hrest|].
    destruct (attach_in now d node q) as [res q'] eqn:Ea. pose proof Ea as Ea'. unfold attach_in in Ea.
    destruct (is_dir q) eqn:Hdq; cbn [negb] in Ea.
    2: { injection Ea as <- <-. rewrite Hmut1, Ea'. cbn. rewrite (foc_self _ _ _ _ _ _ _ _ Hf1). apply Hrest. }
    destruct (existsb _ _) eqn:Hnoq.
    { injection Ea as <- <-. rewrite Hmut1, Ea'. cbn. rewrite (foc_self _ _ _ _ _ _ _ _ Hf1). apply Hrest. }
    destruct (wf_is_dir q (foc_wf_sub _ _ _ _ _ _ _ _ Hf1 Hwf1) Hdq) as [qs Hcq].
    unfold add_child in Ea. rewrite Hcq in Ea. injection Ea as <- <-.
    destruct (attach_tree r1 np (attach_in now d node) now node q)
      as (r2 & Hrun2 & Hwf2 & Hsr2 & Hw2 & _); try done.
    { rewrite Hnode. destruct nn as [n|]; [done|]. cbn. by rewrite Hcn. }
    { rewrite Hnode. by rewrite (same_subtree_wf c). }
    { rewrite Ea'. unfold add_child. by rewrite Hcq. }
    rewrite Hrun2, Ea'. split_and!; cbn; try done; [exact (same_root_trans _ _ _ Hsr1 Hsr2)|].
    unfold delta_effect. rewrite Hop. exists (node_name r :: parse_path par), c, (walk [] r1).
    split_and!; try done; [by rewrite Hcn, Hparse|].
    rewrite Hw2, <- Hnode. by rewrite (proj1 (proj2 Hsr1)).
Qed.

Lemma apply_delta_replayed now r d :
  wf_node r = true -> delta_ok d = true -> replayed d r (apply_delta now r d).
Proof.
  intros Hwf Hok. destruct (de_op d) as [node|f| |np nn] eqn:Hop.
  - by eapply create_replayed.
  - by eapply update_replayed.
  - by apply delete_replayed.
  - by eapply move_replayed.
Qed.

(** ** Repeated deltas *)

Lemma find_node_by_id_eq r id :
  find_node_by_id r id = if node_id r =? id then Some r
    else foldr (fun c found => match find_node_by_id c id with Some n => Some n | None => found end)
           None (children r).
Proof. destruct r as [? ? ? ? ? ? ? ? ? ? ? ? ? [cs|]]; done. Qed.

Lemma find_node_by_id_None r id : find_node_by_id r id = None <-> id ∉ ids r.
Proof.
  induction r as [r IH] using node_ind. rewrite find_node_by_id_eq, ids_eq.
  destruct (Z.eqb_spec (node_id r) id) as [<-|Hne].
  { split; [done|]. intros H. exfalso. apply H. by left. }
  rewrite not_elem_of_cons. transitivity (id ∉ concat (map ids (children r))).
  2: { split; [|tauto]. intros H. split; [congruence|done]. }
  induction IH as [|c cs Hc _ IHcs]; cbn; [split; [intros _; apply not_elem_of_nil|done]|].
  rewrite not_elem_of_app, <- Hc, <- IHcs. destruct (find_node_by_id c id); [|tauto]. split; [done|]. by intros [? _].
Qed.

Lemma create_again now r d node p :
  wf_node r = true -> de_op d = Create node -> find_node r (de_path d) = Some p -> is_dir p = true ->
  existsb (fun c => (node_id c =? node_id node) && String.eqb (node_name c) (node_name node)) (children p) = true ->
  apply_delta now r d = (Ok AlreadyApplied, r).
Proof.
  intros Hwf Hop Hp Hd Hex. unfold apply_delta. rewrite Hop.
  destruct (locate r (de_path d) Hwf) as [Hnone _|p1 plug L R pre' Hp1 Hf Hmut]; [congruence|].
  assert (p1 = p) as -> by congruence. rewrite Hmut. unfold create_in. rewrite Hd, Hex. cbn.
  by rewrite (foc_self _ _ _ _ _ _ _ _ Hf).
Qed.

(** A [Create] that was applied, or found applied, is found applied from then on. *)
Lemma create_idempotent now now' r d node o r1 :
  wf_node r = true -> delta_ok d = true -> de_op d = Create node ->
  apply_delta now r d = (Ok o, r1) -> apply_delta now' r1 d = (Ok AlreadyApplied, r1).
Proof.
  intros Hwf Hok Hop E. pose proof (create_replayed now r d node Hwf Hok Hop) as (Hwf1 & _ & _).
  rewrite E in Hwf1. cbn in Hwf1. unfold delta_ok in Hok. rewrite Hop in Hok. apply andb_true_iff in Hok as [Hwn Hokn].
  unfold apply_delta in E. rewrite Hop in E.
  destruct (locate r (de_path d) Hwf) as [_ Hmut|p plug L R pre' Hp Hf Hmut]; [by rewrite Hmut in E|].
  destruct (create_in now d node p) as [res p'] eqn:Ec. pose proof Ec as Ec'. unfold create_in in Ec.
  destruct (is_dir p) eqn:Hd; cbn [negb] in Ec; [|by rewrite Hmut, Ec' in E; injection Ec as <- <-].
  destruct (existsb _ _) eqn:Hsame.
  { rewrite Hmut, Ec' in E. injection Ec as <- <-. cbn in E. rewrite (foc_self _ _ _ _ _ _ _ _ Hf) in E.
    injection E as _ <-. by eapply create_again. }
  destruct (existsb (has_name _) _) eqn:Hno; [by rewrite Hmut, Ec' in E; injection Ec as <- <-|].
  destruct (existsb (has_id _) _); [by rewrite Hmut, Ec' in E; injection Ec as <- <-|].
  destruct (attach_tree r (de_path d) (create_in now d node) now node p) as (r' & Hrun & _ & _ & _ & Hfind); try done.
  { rewrite Ec'. by destruct (add_child now node p); injection Ec as <- <-. }
  rewrite Hrun, Ec' in E. injection E as _ <-. rewrite Ec' in Hfind.
  destruct (wf_is_dir p (foc_wf_sub _ _ _ _ _ _ _ _ Hf Hwf) Hd) as [cs Hco].
  unfold add_child in Ec. rewrite Hco in Ec. injection Ec as <- <-.
  eapply create_again; [done|done|exact Hfind|done|]. cbn. unfold children. cbn.
  rewrite existsb_app. cbn. by rewrite Z.eqb_refl, String.eqb_refl, orb_true_r.
Qed.

Lemma delete_again now r d par nm id :
  wf_node r = true -> de_op d = Delete -> split_parent_name (de_path d) = Some (par, nm) ->
  de_node_id d = Some id -> id ∉ ids r ->
  (forall p, find_node r par = Some p -> is_dir p = true /\ nm ∉ map node_name (children p)) ->
  apply_delta now r d = (Ok AlreadyApplied, r).
Proof.
  intros Hwf Hop Hsp Hid Habs Hno. unfold apply_delta. rewrite Hop, Hsp. unfold remove_child_by_name.
  assert (is_absent_node_id r (de_node_id d) = true) as Ha.
  { rewrite Hid. cbn. by rewrite (proj2 (find_node_by_id_None r id)). }
  destruct (locate r par Hwf) as [_ Hmut|p plug L R pre' Hp Hf Hmut]; [by rewrite Hmut, Ha|].
  destruct (Hno p Hp) as [Hd Hn]. destruct (wf_is_dir p (foc_wf_sub _ _ _ _ _ _ _ _ Hf Hwf) Hd) as [cs Hco].
  rewrite (children_Some _ _ Hco) in Hn. rewrite Hmut. unfold remove_in.
  rewrite Hd, Hco, (remove_first_absent _ _ Hn). cbn. by rewrite (foc_self _ _ _ _ _ _ _ _ Hf), Ha.
Qed.

(** A [Delete] that names its node is found applied from then on. *)
Lemma delete_idempotent now now' r d id o r1 :
  wf_node r = true -> NoDup (ids r) -> de_op d = Delete -> de_node_id d = Some id ->
  apply_delta now r d = (Ok o, r1) -> apply_delta now' r1 d = (Ok AlreadyApplied, r1).
Proof.
  intros Hwf Hnd Hop Hid E. pose proof (delete_replayed now r d Hwf Hop) as (Hwf1 & _ & _).
  rewrite E in Hwf1. cbn in Hwf1. unfold apply_delta in E. rewrite Hop in E.
  destruct (split_parent_name (de_path d)) as [[par nm]|] eqn:Hsp; [|done]. unfold remove_child_by_name in E.
  assert (forall reason r0, (if is_absent_node_id r0 (de_node_id d) then (Ok AlreadyApplied, r0)
            else (Err (failure d reason), r0)) = (Ok o, r1) -> r0 = r1 /\ id ∉ ids r1) as Habs.
  { intros reason r0. rewrite Hid. cbn. destruct (find_node_by_id r0 id) eqn:Hf; [done|].
    intros [= _ <-]. split; [done|]. by apply find_node_by_id_None. }
  destruct (locate r par Hwf) as [Hnone Hmut|p plug L R pre' Hp Hf Hmut].
  { rewrite Hmut in E. apply Habs in E as [<- Ha]. eapply delete_again; try done. intros p Hp. congruence. }
  destruct (take_child d nm r par p Hwf Hp) as [Hnone|c cs cs' Hd Hco Hrem Him|c cs cs' Hd Hco Hrem Him].
  - rewrite Hmut in E. unfold remove_in in E. destruct (is_dir p) eqn:Hd; [|done]. cbn [negb] in E.
    destruct Hnone as [?|Hn]; [done|].
    destruct (wf_is_dir p (foc_wf_sub _ _ _ _ _ _ _ _ Hf Hwf) Hd) as [cs Hco].
    rewrite (children_Some _ _ Hco) in Hn. rewrite Hco, (remove_first_absent _ _ Hn) in E. cbn in E.
    rewrite (foc_self _ _ _ _ _ _ _ _ Hf) in E. apply Habs in E as [<- Ha].
    eapply delete_again; try done. intros p1 Hp1. rewrite Hp in Hp1. injection Hp1 as <-.
    by rewrite (children_Some _ _ Hco).
  - rewrite Hmut in E. unfold remove_in in E. by rewrite Hd, Hco, Hrem, Him in E.
  - assert (remove_in now d nm p = (Ok Removed, touch now (set_children (Some cs') p))) as Er
      by (unfold remove_in; by rewrite Hd, Hco, Hrem, Him).
    destruct (detach_tree r par (remove_in now d nm) nm p c cs cs')
      as (r' & Hrun & _ & _ & Hw & _ & _ & _ & Hfind & Hno); try done; [by rewrite Er|by rewrite Er|].
    rewrite Hrun, Er in E. injection E as _ <-. rewrite Er in Hfind.
    eapply delete_again; try done.
    + unfold id_mismatch in Him. rewrite Hid in Him. apply negb_false_iff, Z.eqb_eq in Him as <-.
      rewrite (walk_perm_ids _ _ Hw), map_app, !walk_ids_nil in Hnd. apply NoDup_app in Hnd as (_ & Hdisj & _).
      intros Hin. apply (Hdisj _ Hin). rewrite ids_eq. by left.
    + intros p1 Hp1. rewrite Hfind in Hp1. injection Hp1 as <-. done.
Qed.

Lemma update_fields_twice f n : update_fields f (update_fields f n) = update_fields f n.
Proof.
  destruct f as [nm sz mime mi mr mt sr], n. unfold update_fields. cbn.
  by destruct nm, sz, mime, mi, mr, mt, sr.
Qed.

(** An [Update] that keeps the name can be applied any number of times. *)
Lemma update_idempotent now now' r d f o r1 :
  wf_node r = true -> delta_ok d = true -> de_op d = Update f ->
  apply_delta now r d = (Ok o, r1) -> apply_delta now' r1 d = (Ok Applied, r1).
Proof.
  intros Hwf Hok Hop E. unfold delta_ok in Hok. rewrite Hop in Hok. destruct (pn_name f) eqn:Hname; [done|].
  unfold apply_delta in *. rewrite Hop in *. destruct (string_is_empty (de_path d)); [done|].
  destruct (locate r (de_path d) Hwf) as [_ Hmut|n plug L R pre' Hn Hf Hmut]; [by rewrite Hmut in E|].
  rewrite Hmut in E. unfold update_in in E at 1 2. destruct (id_mismatch d n) eqn:Hid; [done|].
  cbn in E. injection E as _ <-. destruct (update_fields_shape f n Hname) as [Hsr _].
  pose proof (name_ok_parts _ (find_parts_names _ _ _ Hwf Hn)) as Hparts.
  assert (find_by_parts (parse_path (de_path d)) (plug (update_fields f n)) = Some (update_fields f n)) as Hfind
    by (apply (foc_find _ _ _ _ _ _ _ _ Hf); apply Hsr).
  destruct (find_focus [] _ _ _ (parse_path_parts (de_path d)) Hfind) as (plug1 & L1 & R1 & pre1 & Hf1).
  unfold find_node_mut. rewrite find_parts_mut_eq, (node_parts_parse _ Hparts) by done.
  rewrite (foc_mut _ _ _ _ _ _ _ _ Hf1). unfold update_in, id_mismatch in *. rewrite (proj1 Hsr), Hid.
  by rewrite update_fields_twice, (foc_self _ _ _ _ _ _ _ _ Hf1).
Qed.

(** ** Theorems *)

(** C23: replaying one recorded delta on a well-formed tree keeps it well formed with
    the same root; when it is applied the tree changes exactly as the operation says
    (one subtree added, one node's fields set, one subtree removed, one subtree moved
    under its new name), when it was applied before the tree is untouched, and when it
    fails the entries of the tree are those it had, a node detached for a move being
    back at its old path under its old name. *)
Theorem apply_delta_correct now r d :
  wf_node r = true -> delta_ok d = true ->
  let '(res, r') := apply_delta now r d in
  wf_node r' = true /\ same_root r r' /\
  match res with
  | Ok Applied => delta_effect d r r'
  | Ok AlreadyApplied => r' = r
  | Err _ => walk [] r' ≡ₚ walk [] r
  end.
Proof.
  intros Hwf Hok. pose proof (apply_delta_replayed now r d Hwf Hok) as H.
  by destruct (apply_delta now r d) as [res r'].
Qed.

Lemma find_parts_mut_from {A} ps (k : CatalogNode -> option (A * CatalogNode)) r a r' :
  find_parts_mut ps k r = Some (a, r') -> exists n n', k n = Some (a, n').
Proof.
  revert r r'. induction ps as [|p ps IH]; intros r r'; cbn; [by eauto|]. unfold find_child_mut.
  destruct (children_opt r) as [cs|]; [|done].
  destruct (update_first (has_name p) (find_parts_mut ps k) cs) as [[a' cs']|] eqn:E; [|done].
  intros [= -> _]. revert cs' E. induction cs as [|c cs IHcs]; intros cs'; cbn; [done|].
  destruct (has_name p c).
  - destruct (find_parts_mut ps k c) as [[a' c']|] eqn:Ec; [|done]. intros [= -> _]. by eapply IH.
  - destruct (update_first _ _ cs) as [[a' cs'']|] eqn:Ec; [|done]. intros [= -> _]. by eapply IHcs.
Qed.

Lemma find_node_mut_from {A} path (k : CatalogNode -> A * CatalogNode) r a r' :
  find_node_mut path k r = Some (a, r') -> exists n n', k n = (a, n').
Proof. intros (n & n' & [= H])%find_parts_mut_from. by eauto. Qed.

(** Every branch of a replay step that returns an error builds it from the delta. *)
Ltac failure_cases E :=
  repeat (case_match; try first [discriminate E | injection E as <- _; by eauto]).

(** A failure names the delta it comes from. *)
Lemma apply_delta_failure now r d e r' :
  apply_delta now r d = (Err e, r') -> exists reason, e = failure d reason.
Proof.
  unfold apply_delta. destruct (de_op d) as [node|f| |np nn].
  - destruct (find_node_mut _ _ _) as [[res r1]|] eqn:E; [|intros [= <- _]; by eauto].
    apply find_node_mut_from in E as (n & n' & E). intros [= -> _]. unfold create_in in E.
    failure_cases E.
  - destruct (string_is_empty _); [intros [= <- _]; by eauto|].
    destruct (find_node_mut _ _ _) as [[res r1]|] eqn:E; [|intros [= <- _]; by eauto].
    apply find_node_mut_from in E as (n & n' & E). intros [= -> _]. unfold update_in in E.
    failure_cases E.
  - destruct (split_parent_name _) as [[par nm]|]; [|intros [= <- _]; by eauto]. unfold remove_child_by_name.
    destruct (find_node_mut _ _ _) as [[res r1]|] eqn:E;
      [|destruct (is_absent_node_id _ _); [done|]; intros [= <- _]; by eauto].
    apply find_node_mut_from in E as (n & n' & E).
    destruct res as [[]|e1]; [done| | |];
      try (destruct (is_absent_node_id _ _); [done|]; intros [= <- _]; by eauto).
    intros [= -> _]. unfold remove_in in E.
    failure_cases E.
  - unfold apply_move. destruct (split_parent_name _) as [[par nm]|]; [|intros [= <- _]; by eauto].
    destruct (detach_child_by_name r par nm d) as [[[node|]|e1] r1] eqn:E.
    + destruct (find_node_mut _ _ _) as [[[reason|res] r2]|] eqn:E2; try (intros [= <- _]; by eauto).
      apply find_node_mut_from in E2 as (n & n' & E2). intros [= -> _]. unfold attach_in in E2.
      failure_cases E2.
    + destruct (destination_has_node _ _ _ _); [done|]. intros [= <- _]. by eauto.
    + intros [= <- _]. unfold detach_child_by_name in E.
      destruct (find_node_mut _ _ _) as [[res r2]|] eqn:E2; [|done]. injection E as -> _.
      apply find_node_mut_from in E2 as (n & n' & E2). unfold detach_in in E2.
      failure_cases E2.
Qed.

(** Each delta of [ds] succeeds on the tree its predecessors left, from [r] to [r']; the
    clock is read once for each. *)
Inductive replays : clock -> CatalogNode -> list DeltaEntry -> CatalogNode -> Prop :=
  | replays_nil clk r : replays clk r [] r
  | replays_cons clk r d o r1 ds r' :
      apply_delta (clk 0%nat) r d = (Ok o, r1) -> replays (later 1 clk) r1 ds r' -> replays clk r (d :: ds) r'.

(** [d] is the first delta of [ds] that fails, with [f], on the tree the ones before it left. *)
Definition fails_at (clk : clock) (r : CatalogNode) (ds : list DeltaEntry) (d : DeltaEntry) (f : CatalogDeltaReplayFailure) : Prop :=
  exists before after r1, ds = before ++ d :: after /\ replays clk r before r1
    /\ fst (apply_delta (clk (length before)) r1 d) = Err f.

Lemma fails_at_cons clk r d0 o r1 ds d f :
  apply_delta (clk 0%nat) r d0 = (Ok o, r1) -> fails_at (later 1 clk) r1 ds d f -> fails_at clk r (d0 :: ds) d f.
Proof.
  intros E (before & after & r2 & -> & Hr & Hf). exists (d0 :: before), after, r2. split_and!; [done|by econstructor|done].
Qed.

Lemma apply_deltas_loop_run clk orig ds r n :
  wf_node r = true -> forallb delta_ok ds = true -> 0 <= n -> n + Z.of_nat (length ds) <= U32_MAX ->
  match apply_deltas_loop clk orig ds r n with
  | (Err e, r') => r' = orig /\ exists d reason, fails_at clk r ds d (failure d reason) /\ e = CatalogDeltaReplayFailed (failure d reason)
  | (Ok k, r') => k = n + Z.of_nat (length ds) /\ replays clk r ds r' /\ wf_node r' = true /\ same_root r r'
  end.
Proof.
  revert clk r n. induction ds as [|d ds IH]; intros clk r n Hwf Hok Hn Hlen; cbn.
  { split_and!; [lia|constructor|done|done]. }
  cbn in Hok. apply andb_true_iff in Hok as [Hokd Hok]. cbn [length] in Hlen.
  pose proof (apply_delta_replayed (clk 0%nat) r d Hwf Hokd) as (Hwf1 & Hsr1 & _).
  destruct (apply_delta (clk 0%nat) r d) as [[o|e] r1] eqn:E; cbn in Hwf1, Hsr1.
  - replace (if is_applied o then u32_wrap (n + 1) else n) with (n + 1)
      by (destruct o; cbn; unfold u32_wrap; rewrite Z.mod_small; unfold U32_MAX in Hlen; lia).
    specialize (IH (later 1 clk) r1 (n + 1) Hwf1 Hok ltac:(lia) ltac:(lia)).
    destruct (apply_deltas_loop _ _ _ _ _) as [[k|e] r'].
    + destruct IH as (-> & ? & ? & ?). split_and!; [lia|by econstructor|done|by eapply same_root_trans].
    + destruct IH as (-> & d' & reason & ? & ->). split; [done|]. exists d', reason. split; [by eapply fails_at_cons|done].
  - destruct (apply_delta_failure _ _ _ _ _ E) as [reason ->]. split; [done|].
    exists d, reason. split; [|done]. exists [], ds, r. split_and!; [done|constructor|cbn; by rewrite E].
Qed.

(** C25: a log is replayed as a whole or not at all: on success the tree is the one that every
    delta, applied in order to what its predecessors left, leads to, well formed with the
    same root, and every delta counts as applied; on failure the tree is the one before the
    replay and the error names the first delta that fails and why. *)
Theorem apply_deltas_atomic clk r ds :
  wf_node r = true -> forallb delta_ok ds = true -> Z.of_nat (length ds) <= U32_MAX ->
  match apply_deltas clk r ds with
  | (Ok n, r') => n = Z.of_nat (length ds) /\ replays clk r ds r' /\ wf_node r' = true /\ same_root r r'
  | (Err e, r') => r' = r /\ exists d reason, fails_at clk r ds d (failure d reason) /\ e = CatalogDeltaReplayFailed (failure d reason)
  end.
Proof. intros Hwf Hok Hlen. apply (apply_deltas_loop_run clk r ds r 0); [done|done|lia|lia]. Qed.

(** a delta that was replayed may be replayed again: creations, updates that keep
    the name, and deletions that carry the id of their node succeed a second time and
    leave the tree exactly as the first replay left it. *)
Theorem replay_idempotent now now' r d o r1 :
  wf_node r = true -> NoDup (ids r) -> delta_ok d = true -> is_Some (de_node_id d) ->
  (forall np nn, de_op d <> Move np nn) ->
  apply_delta now r d = (Ok o, r1) -> exists o', apply_delta now' r1 d = (Ok o', r1).
Proof.
  intros Hwf Hnd Hok [id Hid] Hmove E. destruct (de_op d) as [node|f| |np nn] eqn:Hop.
  - eexists. by eapply create_idempotent.
  - eexists. by eapply update_idempotent.
  - eexists. by eapply delete_idempotent.
  - by destruct (Hmove np nn).
Qed.

(** ** The theorems at a concrete shard *)

Definition demo_shard : CatalogNode :=
  snd (add_child 5 (snd (add_child 4 (new_file 3 3 5 "b.txt" 20 None) (new_dir 2 4 "sub")))
    (snd (add_child 4 (new_file 3 3 3 "a.txt" 10 None) (new_dir 1 2 "docs")))).

Definition demo_move : DeltaEntry := with_node_id 3 (de_move 9 1 "/a.txt" "/sub" (Some "c.txt"%string)).
Definition demo_delete : DeltaEntry := with_node_id 4 (de_delete 9 2 "/sub").

Lemma apply_delta_correct_witness :
  wf_node (snd (apply_delta 10 demo_shard demo_move)) = true
  /\ delta_effect demo_move demo_shard (snd (apply_delta 10 demo_shard demo_move)).
Proof.
  pose proof (apply_delta_correct 10 demo_shard demo_move eq_refl eq_refl) as H.
  assert (fst (apply_delta 10 demo_shard demo_move) = Ok Applied) as Hr by (vm_compute; reflexivity).
  destruct (apply_delta 10 demo_shard demo_move) as [res r']. cbn in Hr. subst res.
  by destruct H as (? & _ & ?).
Defined.

Lemma apply_deltas_atomic_witness :
  match apply_deltas (fun _ => 10) demo_shard [demo_move; demo_delete] with
  | (Ok n, r') => n = 2 /\ replays (fun _ => 10) demo_shard [demo_move; demo_delete] r' /\ wf_node r' = true /\ same_root demo_shard r'
  | (Err _, _) => False
  end.
Proof.
  pose proof (apply_deltas_atomic (fun _ => 10) demo_shard [demo_move; demo_delete] eq_refl eq_refl) as H.
  assert (Z.of_nat (length [demo_move; demo_delete]) <= U32_MAX) as Hlen by (vm_compute; discriminate).
  specialize (H Hlen).
  assert (is_ok (fst (apply_deltas (fun _ => 10) demo_shard [demo_move; demo_delete])) = true) as Hok
    by (vm_compute; reflexivity).
  destruct (apply_deltas (fun _ => 10) demo_shard [demo_move; demo_delete]) as [[n|e] r']; [exact H|done].
Defined.

Lemma replay_idempotent_witness :
  exists o', apply_delta 11 (snd (apply_delta 10 demo_shard demo_delete)) demo_delete
    = (Ok o', snd (apply_delta 10 demo_shard demo_delete)).
Proof.
  apply (replay_idempotent 10 11 demo_shard demo_delete Applied).
  - reflexivity.
  - apply (bool_decide_eq_true_1 (NoDup (ids demo_shard))). vm_compute. reflexivity.
  - reflexivity.
  - by exists 4.
  - done.
  - vm_compute. reflexivity.
Defined.
