(* ===== verification/CatalogClock.v ===== *)
(** * Replaying a log at another time

    A replay dates the directories it touches, so replaying one log twice gives trees
    that differ in the times of directories. [sim] relates such trees; replay respects
    it, whatever the clock says. [save.rs] relies on this: it tries a log before writing
    it, and the log is replayed again whenever the catalog is loaded. *)

From Stdlib Require Import Ascii String.
From stdpp Require Import base gmap strings list.
From S2P Require Import Prelude.
From S2P Require Import CatalogNode.
From S2P Require Import CatalogManager.
From S2P Require Import CatalogTree.
From S2P Require Import CatalogDelta.
From S2P Require Import CatalogReplay.
Open Scope Z_scope.

(** ** Trees up to the times of directories *)

Fixpoint erase (n : CatalogNode) : CatalogNode :=
  match n with
  | mkNode i ty nm sz ck bt mt mime mi mir sr lt tr co =>
      mkNode i ty nm sz ck bt (if bool_decide (ty = Dir) then 0 else mt) mime mi mir sr lt tr
        (match co with None => None | Some cs => Some (map erase cs) end)
  end.

Definition sim (a b : CatalogNode) : Prop := erase a = erase b.

#[export] Instance sim_equivalence : Equivalence sim.
Proof. split; unfold sim; [by intros ?|by intros ??|by intros ?? ? -> ]. Qed.

Definition sims (cs ds : list CatalogNode) : Prop := Forall2 sim cs ds.

Lemma sims_map cs ds : sims cs ds <-> map erase cs = map erase ds.
Proof.
  split.
  - induction 1 as [|c d cs ds H _ IH]; cbn; [done|]. by rewrite H, IH.
  - revert ds. induction cs as [|c cs IH]; intros [|d ds]; cbn; try done; [by constructor|].
    intros [= H1 H2]. constructor; [done|by apply IH].
Qed.

#[export] Instance sims_equivalence : Equivalence sims.
Proof.
  split.
  - intros cs. by apply sims_map.
  - intros cs ds. rewrite !sims_map. done.
  - intros cs ds es. rewrite !sims_map. congruence.
Qed.

(** What similar nodes share. *)
Lemma sim_inv a b :
  sim a b ->
  node_id a = node_id b /\ node_type a = node_type b /\ node_name a = node_name b
  /\ node_size a = node_size b /\ chunk_size a = chunk_size b /\ birthtime a = birthtime b
  /\ mime_type a = mime_type b /\ media_info a = media_info b
  /\ media_inspected_revision a = media_inspected_revision b
  /\ source_revision a = source_revision b /\ link_to a = link_to b /\ node_trash a = node_trash b
  /\ (is_dir a = false -> modtime a = modtime b)
  /\ option_Forall2 sims (children_opt a) (children_opt b).
Proof.
  unfold sim, is_dir. destruct a, b. cbn. intros [= -> -> -> -> -> -> Hm -> -> -> -> -> -> Hc].
  split_and!; try done.
  - intros E. by rewrite E in Hm.
  - destruct children_opt as [cs|], children_opt0 as [ds|]; try discriminate Hc; constructor.
    apply sims_map. congruence.
Qed.

Ltac sim_inv H :=
  let H' := fresh in pose proof (sim_inv _ _ H) as H';
  decompose [and] H'; clear H'.

Lemma sim_is_dir a b : sim a b -> is_dir a = is_dir b.
Proof. intros H. unfold is_dir. sim_inv H. by replace (node_type b) with (node_type a). Qed.

Lemma sim_name a b : sim a b -> node_name a = node_name b.
Proof. intros H. by sim_inv H. Qed.
Lemma sim_id a b : sim a b -> node_id a = node_id b.
Proof. intros H. by sim_inv H. Qed.

Lemma sim_children a b : sim a b -> sims (children a) (children b).
Proof.
  intros H. sim_inv H. unfold children. destruct (children_opt a), (children_opt b); cbn;
    match goal with H : option_Forall2 _ _ _ |- _ => inversion H; subst; done end.
Qed.

#[export] Instance set_children_sim : Proper (option_Forall2 sims ==> sim ==> sim) set_children.
Proof.
  intros co co' Hc a b H. unfold sim, set_children in *. destruct a, b. cbn in *.
  injection H as -> -> -> -> -> -> -> -> -> -> -> -> -> _. f_equal.
  destruct Hc as [cs ds Hc%sims_map|]; [by rewrite Hc|done].
Qed.

(** A setter of one field is compatible: the other fields agree. *)
Ltac setter_sim :=
  let a := fresh "a" in let b := fresh "b" in let H := fresh "H" in let Hm := fresh "Hm" in let Hc := fresh "Hc" in
  intros a b H; unfold sim in *; destruct a, b; cbn in *;
  injection H as -> -> -> -> -> -> Hm -> -> -> -> -> -> Hc; by rewrite ?Hm, ?Hc.

#[export] Instance set_name_sim nm : Proper (sim ==> sim) (set_name nm).
Proof. setter_sim. Qed.
#[export] Instance set_node_size_sim v : Proper (sim ==> sim) (set_node_size v).
Proof. setter_sim. Qed.
#[export] Instance set_mime_type_sim v : Proper (sim ==> sim) (set_mime_type v).
Proof. setter_sim. Qed.
#[export] Instance set_media_info_sim v : Proper (sim ==> sim) (set_media_info v).
Proof. setter_sim. Qed.
#[export] Instance set_media_inspected_revision_sim v : Proper (sim ==> sim) (set_media_inspected_revision v).
Proof. setter_sim. Qed.
#[export] Instance set_modtime_sim v : Proper (sim ==> sim) (set_modtime v).
Proof. setter_sim. Qed.
#[export] Instance set_source_revision_sim v : Proper (sim ==> sim) (set_source_revision v).
Proof. setter_sim. Qed.

(** Dating a directory is invisible. *)
Lemma touch_sim now now' a b : is_dir a = true -> sim a b -> sim (touch now a) (touch now' b).
Proof.
  intros Hd H. unfold is_dir in Hd. unfold sim, touch, set_modtime in *. destruct a, b. cbn in *.
  injection H as -> -> -> -> -> -> _ -> -> -> -> -> -> Hc. by rewrite Hd, Hc.
Qed.

#[export] Instance update_fields_sim f : Proper (sim ==> sim) (update_fields f).
Proof.
  intros a b H. unfold update_fields. destruct f as [name size mime info rev mt src]. cbn.
  assert (forall {V} (o : option V) (g : V -> CatalogNode -> CatalogNode) x y,
            (forall v, Proper (sim ==> sim) (g v)) -> sim x y ->
            sim (match o with Some v => g v x | None => x end) (match o with Some v => g v y | None => y end)) as Hset.
  { intros V [v|] g x y Hg Hxy; [by apply Hg|done]. }
  apply (Hset _ src set_source_revision); [apply _|]. apply (Hset _ mt set_modtime); [apply _|].
  apply (Hset _ rev set_media_inspected_revision); [apply _|]. apply (Hset _ info set_media_info); [apply _|].
  apply (Hset _ mime (fun v => set_mime_type (Some v))); [intros v; apply _|].
  apply (Hset _ size set_node_size); [apply _|]. by apply (Hset _ name set_name); [apply _|].
Qed.

(** ** Lookup *)

Lemma sims_existsb (p : CatalogNode -> bool) cs ds :
  (forall a b, sim a b -> p a = p b) -> sims cs ds -> existsb p cs = existsb p ds.
Proof. intros Hp. induction 1 as [|a b cs ds H _ IH]; cbn; [done|]. by rewrite (Hp _ _ H), IH. Qed.

Lemma sims_find (p : CatalogNode -> bool) cs ds :
  (forall a b, sim a b -> p a = p b) -> sims cs ds -> option_Forall2 sim (List.find p cs) (List.find p ds).
Proof.
  intros Hp. induction 1 as [|a b cs ds H _ IH]; cbn; [constructor|]. rewrite (Hp _ _ H).
  destruct (p b); [by constructor|done].
Qed.

Lemma sims_remove (p : CatalogNode -> bool) cs ds :
  (forall a b, sim a b -> p a = p b) -> sims cs ds ->
  option_Forall2 (fun x y => sim (fst x) (fst y) /\ sims (snd x) (snd y)) (remove_first p cs) (remove_first p ds).
Proof.
  intros Hp. induction 1 as [|a b cs ds H Hcs IH]; cbn; [constructor|]. rewrite (Hp _ _ H).
  destruct (p b); [by constructor|].
  destruct IH as [[x xs] [y ys] [Hx Hxs]|]; constructor. cbn in *. split; [done|by constructor].
Qed.

Lemma has_name_sim nm a b : sim a b -> has_name nm a = has_name nm b.
Proof. intros H. unfold has_name. by rewrite (sim_name _ _ H). Qed.
Lemma has_id_sim id a b : sim a b -> has_id id a = has_id id b.
Proof. intros H. unfold has_id. by rewrite (sim_id _ _ H). Qed.

Section Mut.
Context {A : Type} (R : A -> A -> Prop).

Definition same_outcome (x y : A * CatalogNode) : Prop := R (fst x) (fst y) /\ sim (snd x) (snd y).

Lemma update_first_sim (p : CatalogNode -> bool) (k k' : CatalogNode -> option (A * CatalogNode)) cs ds :
  (forall a b, sim a b -> p a = p b) -> (forall a b, sim a b -> option_Forall2 same_outcome (k a) (k' b)) ->
  sims cs ds ->
  option_Forall2 (fun x y => R (fst x) (fst y) /\ sims (snd x) (snd y)) (update_first p k cs) (update_first p k' ds).
Proof.
  intros Hp Hk. induction 1 as [|a b cs ds H Hcs IH]; cbn; [constructor|]. rewrite (Hp _ _ H).
  destruct (p b).
  - destruct (Hk _ _ H) as [[x n] [y m] [HR Hn]|]; constructor. cbn in *. split; [done|by constructor].
  - destruct IH as [[x xs] [y ys] [Hx Hxs]|]; constructor. cbn in *. split; [done|by constructor].
Qed.

Lemma find_parts_mut_sim ps (k k' : CatalogNode -> option (A * CatalogNode)) a b :
  (forall a b, sim a b -> option_Forall2 same_outcome (k a) (k' b)) -> sim a b ->
  option_Forall2 same_outcome (find_parts_mut ps k a) (find_parts_mut ps k' b).
Proof.
  intros Hk. revert a b. induction ps as [|q ps IH]; intros a b H; cbn [find_parts_mut]; [by apply Hk|].
  unfold find_child_mut. sim_inv H.
  match goal with Hc : option_Forall2 sims _ _ |- _ => destruct Hc as [cs ds Hcs|]; [|constructor] end.
  destruct (update_first_sim (has_name q) _ _ _ _ (has_name_sim q) IH Hcs) as [[x xs] [y ys] [HR Hs]|]; constructor.
  split; [done|]. cbn. apply set_children_sim; [by constructor|done].
Qed.

Lemma find_node_mut_sim path (k k' : CatalogNode -> A * CatalogNode) a b :
  (forall a b, sim a b -> same_outcome (k a) (k' b)) -> sim a b ->
  option_Forall2 same_outcome (find_node_mut path k a) (find_node_mut path k' b).
Proof. intros Hk. apply find_parts_mut_sim. intros x y H. constructor. by apply Hk. Qed.
End Mut.

Lemma find_parts_sim ps a b : sim a b -> option_Forall2 sim (find_parts ps a) (find_parts ps b).
Proof.
  revert a b. induction ps as [|q ps IH]; intros a b H; cbn; [by constructor|]. unfold find_child.
  destruct (sims_find (has_name q) _ _ (has_name_sim q) (sim_children _ _ H)); [by apply IH|constructor].
Qed.

Lemma find_node_by_id_sim a b id : sim a b -> option_Forall2 sim (find_node_by_id a id) (find_node_by_id b id).
Proof.
  revert b. induction a as [a IH] using node_ind. intros b H. pose proof (sim_id _ _ H) as Hi.
  sim_inv H. destruct a as [i ? ? ? ? ? ? ? ? ? ? ? ? co], b as [j ? ? ? ? ? ? ? ? ? ? ? ? co'].
  cbn [node_id children_opt] in *. subst j. cbn [find_node_by_id]. destruct (i =? id); [by constructor|].
  match goal with Hc : option_Forall2 sims _ _ |- _ => destruct Hc as [cs ds Hcs|]; [|constructor] end.
  change (children _) with cs in IH. clear -Hcs IH. rewrite Forall_forall in IH.
  induction Hcs as [|c d cs ds Hc Hcs IHcs]; cbn; [constructor|].
  destruct (IH c ltac:(left) d Hc); [by constructor|]. apply IHcs. intros x Hx. apply IH. by right.
Qed.

(** ** One delta *)

Lemma add_child_sim now now' c c' a b :
  is_dir a = true -> sim c c' -> sim a b -> same_outcome eq (add_child now c a) (add_child now' c' b).
Proof.
  intros Hd Hc H. unfold add_child. pose proof H as H0. sim_inv H.
  match goal with Hc : option_Forall2 sims _ _ |- _ => destruct Hc as [cs ds Hcs|] end; split; cbn; try done.
  apply touch_sim; [by rewrite <- Hd|]. apply set_children_sim; [|done]. constructor.
  apply Forall2_app; [done|by repeat constructor].
Qed.

Lemma id_mismatch_sim d a b : sim a b -> id_mismatch d a = id_mismatch d b.
Proof. intros H. unfold id_mismatch. by rewrite (sim_id _ _ H). Qed.

Lemma create_in_sim now now' d node a b : sim a b -> same_outcome eq (create_in now d node a) (create_in now' d node b).
Proof.
  intros H. unfold create_in. rewrite <- (sim_is_dir _ _ H). destruct (is_dir a) eqn:Hd; [|done]. cbn [negb].
  rewrite <- (sims_existsb (fun c => (node_id c =? node_id node) && String.eqb (node_name c) (node_name node))
                _ _ ltac:(intros x y Hxy; cbv beta; by rewrite (sim_id _ _ Hxy), (sim_name _ _ Hxy)) (sim_children _ _ H)).
  rewrite <- !(sims_existsb _ _ _ (has_name_sim _) (sim_children _ _ H)).
  rewrite <- !(sims_existsb _ _ _ (has_id_sim _) (sim_children _ _ H)).
  destruct (existsb _ _); [done|]. destruct (existsb _ _); [done|]. destruct (existsb _ _); [done|].
  destruct (add_child_sim now now' node node a b Hd) as [E Hs]; [done..|].
  destruct (add_child now node a) as [x a'], (add_child now' node b) as [y b']. cbn in *. subst. by split.
Qed.

Lemma update_in_sim d f a b : sim a b -> same_outcome eq (update_in d f a) (update_in d f b).
Proof.
  intros H. unfold update_in. rewrite (id_mismatch_sim d _ _ H). destruct (id_mismatch d b); split; cbn; try done.
  by apply update_fields_sim.
Qed.

Lemma remove_in_sim now now' d nm a b : sim a b -> same_outcome eq (remove_in now d nm a) (remove_in now' d nm b).
Proof.
  intros H. unfold remove_in. rewrite <- (sim_is_dir _ _ H). destruct (is_dir a) eqn:Hd; [|done]. cbn [negb].
  pose proof H as H0. sim_inv H0.
  match goal with Hc : option_Forall2 sims _ _ |- _ => destruct Hc as [cs ds Hcs|]; [|done] end.
  destruct (sims_remove _ _ _ (has_name_sim nm) Hcs) as [[c cs'] [c' ds'] [Hc Hcs']|]; [|done]. cbn [fst snd] in *.
  rewrite (id_mismatch_sim d _ _ Hc). destruct (id_mismatch d c'); split; cbn; try done.
  apply touch_sim; [by rewrite <- Hd|]. apply set_children_sim; [by constructor|done].
Qed.

Definition found_sim (x y : Replay (option CatalogNode)) : Prop :=
  match x, y with
  | Ok (Some c), Ok (Some c') => sim c c'
  | Ok None, Ok None => True
  | Err e, Err e' => e = e'
  | _, _ => False
  end.

Lemma detach_in_sim d nm a b : sim a b -> same_outcome found_sim (detach_in d nm a) (detach_in d nm b).
Proof.
  intros H. unfold detach_in. rewrite <- (sim_is_dir _ _ H). destruct (is_dir a) eqn:Hd; [|done]. cbn [negb].
  pose proof H as H0. sim_inv H0.
  match goal with Hc : option_Forall2 sims _ _ |- _ => destruct Hc as [cs ds Hcs|]; [|done] end.
  destruct (sims_remove _ _ _ (has_name_sim nm) Hcs) as [[c cs'] [c' ds'] [Hc Hcs']|]; [|done]. cbn [fst snd] in *.
  rewrite (id_mismatch_sim d _ _ Hc). destruct (id_mismatch d c'); split; cbn; try done.
  apply set_children_sim; [by constructor|done].
Qed.

Lemma attach_in_sim now now' d c c' a b :
  sim c c' -> sim a b -> same_outcome eq (attach_in now d c a) (attach_in now' d c' b).
Proof.
  intros Hc H. unfold attach_in. rewrite <- (sim_is_dir _ _ H). destruct (is_dir a) eqn:Hd; [|done]. cbn [negb].
  rewrite (sim_name _ _ Hc), <- (sims_existsb _ _ _ (has_name_sim _) (sim_children _ _ H)).
  destruct (existsb _ _); [done|].
  destruct (add_child_sim now now' c c' a b Hd) as [E Hs]; [done..|].
  destruct (add_child now c a) as [x a'], (add_child now' c' b) as [y b']. cbn in *. subst. by split.
Qed.

(** The outcomes agree, and so do the trees of a success. *)
Definition replayed_alike {E X} (x y : result E X * CatalogNode) : Prop :=
  fst x = fst y /\ (is_ok (fst x) = true -> sim (snd x) (snd y)).

Lemma destination_has_node_sim a b p nm id : sim a b -> destination_has_node a p nm id = destination_has_node b p nm id.
Proof.
  intros H. unfold destination_has_node. destruct id as [id|]; [|done]. unfold find_node.
  destruct (find_parts_sim (node_parts p) _ _ H) as [x y Hxy|]; [|done]. cbn. unfold find_child.
  destruct (sims_find _ _ _ (has_name_sim nm) (sim_children _ _ Hxy)) as [c c' Hc|]; [|done]. by rewrite (sim_id _ _ Hc).
Qed.

Lemma apply_move_sim now now' d np nn a b :
  sim a b -> replayed_alike (apply_move now d np nn a) (apply_move now' d np nn b).
Proof.
  intros H. unfold apply_move. destruct (split_parent_name (de_path d)) as [[par nm]|]; [|done].
  unfold detach_child_by_name.
  destruct (find_node_mut_sim found_sim par _ _ a b (detach_in_sim d nm) H) as [[x a1] [y b1] [Hxy H1]|];
    cbn [fst snd] in *.
  2:{ rewrite (destination_has_node_sim a b) by done. by destruct (destination_has_node _ _ _ _). }
  destruct x as [[c|]|e], y as [[c'|]|e']; try done; cbn in Hxy.
  3:{ by subst e'. }
  2:{ rewrite (destination_has_node_sim a1 b1) by done. by destruct (destination_has_node _ _ _ _). }
  set (c1 := match nn with Some n => set_name n c | None => c end).
  set (c1' := match nn with Some n => set_name n c' | None => c' end).
  assert (sim c1 c1') as Hc1 by (unfold c1, c1'; destruct nn; [by apply set_name_sim|done]).
  destruct (find_node_mut_sim eq np _ _ a1 b1 (fun x y => attach_in_sim now now' d c1 c1' x y Hc1) H1)
    as [[x a2] [y b2] [Hxy' H2]|]; cbn [fst snd] in *; [|done].
  subst y. by destruct x.
Qed.

Lemma apply_delta_sim now now' a b d :
  sim a b -> replayed_alike (apply_delta now a d) (apply_delta now' b d).
Proof.
  intros H. unfold apply_delta. destruct (de_op d) as [node|f| |np nn].
  - destruct (find_node_mut_sim eq (de_path d) _ _ a b (create_in_sim now now' d node) H) as [[x a1] [y b1] [Hxy H1]|];
      [|done]. cbn in *. subst. done.
  - destruct (string_is_empty (de_path d)); [done|].
    destruct (find_node_mut_sim eq (de_path d) _ _ a b (update_in_sim d f) H) as [[x a1] [y b1] [Hxy H1]|]; [|done].
    cbn in *. subst. done.
  - destruct (split_parent_name (de_path d)) as [[par nm]|]; [|done]. unfold remove_child_by_name.
    assert (forall x y : CatalogNode, sim x y -> is_absent_node_id x (de_node_id d) = is_absent_node_id y (de_node_id d))
      as Habs.
    { intros x y Hxy. unfold is_absent_node_id. destruct (de_node_id d) as [i|]; [|done].
      by destruct (find_node_by_id_sim x y i Hxy). }
    destruct (find_node_mut_sim eq par _ _ a b (remove_in_sim now now' d nm) H) as [[x a1] [y b1] [Hxy H1]|];
      cbn [fst snd] in *.
    + subst y. destruct x as [[]|]; cbn; rewrite ?(Habs a1 b1) by done; try done; by destruct (is_absent_node_id _ _).
    + rewrite (Habs a b) by done. by destruct (is_absent_node_id _ _).
  - by apply apply_move_sim.
Qed.

(** ** A log *)

Lemma apply_deltas_loop_sim clk clk' o o' ds a b n :
  sim a b -> replayed_alike (apply_deltas_loop clk o ds a n) (apply_deltas_loop clk' o' ds b n).
Proof.
  revert clk clk' a b n. induction ds as [|d ds IH]; intros clk clk' a b n H; cbn [apply_deltas_loop]; [done|].
  destruct (apply_delta_sim (clk 0%nat) (clk' 0%nat) a b d H) as [E Hs].
  destruct (apply_delta (clk 0%nat) a d) as [x a1], (apply_delta (clk' 0%nat) b d) as [y b1]. cbn in *. subst y.
  destruct x as [o1|e]; [|done]. by apply IH, Hs.
Qed.

(** Replaying a log is independent of the clock, up to the times of directories. *)
Lemma apply_deltas_sim clk clk' ds a b : sim a b -> replayed_alike (apply_deltas clk a ds) (apply_deltas clk' b ds).
Proof. apply apply_deltas_loop_sim. Qed.

(** Replaying two logs in a row is replaying the whole. *)
Lemma apply_deltas_loop_app clk o ds1 ds2 a n :
  apply_deltas_loop clk o (ds1 ++ ds2) a n =
  match apply_deltas_loop clk o ds1 a n with
  | (Ok n1, a1) => apply_deltas_loop (later (length ds1) clk) o ds2 a1 n1
  | (Err e, a1) => (Err e, a1)
  end.
Proof.
  revert clk a n. induction ds1 as [|d ds1 IH]; intros clk a n; [done|]. cbn [app apply_deltas_loop length].
  destruct (apply_delta (clk 0%nat) a d) as [[o1|e] a1]; [|done]. rewrite IH. done.
Qed.

(** The trees do not depend on the count of applied deltas, nor on what a failure returns. *)
Lemma apply_deltas_loop_tree clk o o' ds a n n' m r :
  apply_deltas_loop clk o ds a n = (Ok m, r) -> exists m', apply_deltas_loop clk o' ds a n' = (Ok m', r).
Proof.
  revert clk a n n'. induction ds as [|d ds IH]; intros clk a n n'; cbn [apply_deltas_loop].
  { intros [= _ ->]. by eexists. }
  destruct (apply_delta (clk 0%nat) a d) as [[o1|e] a1]; [|done]. apply IH.
Qed.

Lemma apply_deltas_app clk ds1 ds2 a n1 a1 n2 a2 :
  apply_deltas clk a ds1 = (Ok n1, a1) -> apply_deltas (later (length ds1) clk) a1 ds2 = (Ok n2, a2) ->
  exists n, apply_deltas clk a (ds1 ++ ds2) = (Ok n, a2).
Proof.
  unfold apply_deltas. intros H1 H2. rewrite apply_deltas_loop_app, H1. by eapply apply_deltas_loop_tree.
Qed.
