(* ===== verification/CatalogShard.v ===== *)
(** * Shards

    Models [crates/core/src/catalog/shard.rs] (shard data and metadata, the root
    index), [crates/core/src/catalog/sharded.rs] (the sharded catalog manager, and
    splitting a catalog into shards and merging it back) and
    [crates/core/src/catalog/system_shard.rs] (which shards are system shards).
    A [HashMap] is a [gmap]; what iterates over one yields its entries in some
    order, here [map_to_list]'s, and no theorem depends on which. *)

From Stdlib Require Import Ascii String.
From stdpp Require Import base gmap strings list.
From S2P Require Import Prelude.
From S2P Require Import CatalogNode.
From S2P Require Import CatalogManager.
From S2P Require Import CatalogTree.
From S2P Require Import CatalogInvariant.
From S2P Require Import CatalogOps.
From S2P Require Import CatalogExchange.
From S2P Require Import CatalogDelta.
From S2P Require Import CatalogReplay.
Open Scope Z_scope.

(** ** System shards (system_shard.rs) *)

Definition PASSMANAGER_SHARD_ID : string := ".passmanager".
Definition PASSKEYS_SHARD_ID : string := ".passkeys".
Definition WALLET_SHARD_ID : string := ".wallet".
Definition ENV_RUNTIME_SHARD_ID : string := ".cv-env-runtime".

Definition SYSTEM_SHARD_IDS : list string :=
  [PASSMANAGER_SHARD_ID; WALLET_SHARD_ID; PASSKEYS_SHARD_ID; TRASH_SHARD_ID; ENV_RUNTIME_SHARD_ID].
Definition EAGER_SYSTEM_SHARD_IDS : list string := [PASSMANAGER_SHARD_ID; PASSKEYS_SHARD_ID].

Definition is_system_shard_id (shard_id : string) : bool := bool_decide (shard_id ∈ SYSTEM_SHARD_IDS).
Definition is_eager_system_shard_id (shard_id : string) : bool :=
  bool_decide (shard_id ∈ EAGER_SYSTEM_SHARD_IDS).

(** [shard_id_from_path]: the first non-empty component. *)
Definition shard_id_from_path (path : string) : option string :=
  head (List.filter (fun s => negb (string_is_empty s)) (split_char slash path)).

Definition is_system_path (path : string) : bool :=
  match shard_id_from_path path with
  | Some id => is_system_shard_id id
  | None => false
  end.

(** ** Shard data (shard.rs) *)

Inductive LoadStrategy := Eager | Lazy | Paginated.

#[export] Instance LoadStrategy_eq_dec : EqDecision LoadStrategy.
Proof. solve_decision. Defined.

Record ShardRootSummary := mkSummary { summary_node : CatalogNode; has_children : bool }.

(** [ShardRootSummary::from_node]. *)
Definition summary_from_node (n : CatalogNode) : ShardRootSummary :=
  mkSummary (set_children None n) (match children n with [] => false | _ => true end).

Record ShardMeta := mkMeta {
  sm_shard_id : string;
  sm_context : string;
  sm_version : Z;
  sm_base_version : Z;
  sm_size : Z;
  sm_node_count : Z;
  sm_strategy : LoadStrategy;
  sm_has_deltas : bool;
  sm_delta_count : Z;
  sm_last_delta_seq : Z;
  sm_snapshot_seq : Z;
  sm_root_summary : option ShardRootSummary;
}.

Definition meta_new (shard_id : string) (strategy : LoadStrategy) : ShardMeta :=
  mkMeta shard_id (String.append "shard:" shard_id) 0 0 0 0 strategy false 0 0 0 None.
Definition meta_passmanager : ShardMeta := meta_new ".passmanager" Eager.
Definition meta_eager_system (shard_id : string) : ShardMeta := meta_new shard_id Eager.

Definition meta_update_stats (node_count size : Z) (s : ShardMeta) : ShardMeta :=
  mkMeta (sm_shard_id s) (sm_context s) (sm_version s) (sm_base_version s) size node_count
    (sm_strategy s) (sm_has_deltas s) (sm_delta_count s) (sm_last_delta_seq s) (sm_snapshot_seq s)
    (sm_root_summary s).
Definition meta_update_root_summary (r : CatalogNode) (s : ShardMeta) : ShardMeta :=
  mkMeta (sm_shard_id s) (sm_context s) (sm_version s) (sm_base_version s) (sm_size s)
    (sm_node_count s) (sm_strategy s) (sm_has_deltas s) (sm_delta_count s) (sm_last_delta_seq s)
    (sm_snapshot_seq s) (Some (summary_from_node r)).
Definition meta_set_versions (v b : Z) (s : ShardMeta) : ShardMeta :=
  mkMeta (sm_shard_id s) (sm_context s) v b (sm_size s) (sm_node_count s) (sm_strategy s)
    (sm_has_deltas s) (sm_delta_count s) (sm_last_delta_seq s) (sm_snapshot_seq s) (sm_root_summary s).
Definition meta_increment_version (s : ShardMeta) : ShardMeta :=
  meta_set_versions (u64_add (sm_version s) 1) (sm_base_version s) s.

(** [record_delta]; [delta_count] is a [u32]. *)
Definition meta_record_delta (delta_seq : Z) (s : ShardMeta) : ShardMeta :=
  mkMeta (sm_shard_id s) (sm_context s) (u64_add (sm_version s) 1) (sm_base_version s) (sm_size s)
    (sm_node_count s) (sm_strategy s) true (u32_wrap (sm_delta_count s + 1)) delta_seq
    (sm_snapshot_seq s) (sm_root_summary s).
Definition meta_clear_deltas (s : ShardMeta) : ShardMeta :=
  mkMeta (sm_shard_id s) (sm_context s) (sm_version s) (sm_version s) (sm_size s)
    (sm_node_count s) (sm_strategy s) false 0 (sm_last_delta_seq s) (sm_snapshot_seq s)
    (sm_root_summary s).

Record RootIndex := mkRootIndex {
  ri_v : Z;
  ri_format : string;
  ri_root_version : Z;
  ri_created_at : Z;
  ri_shards : gmap string ShardMeta;
}.

Definition index_new (now : Z) : RootIndex := mkRootIndex 2 "sharded" 0 now ∅.
Definition upsert_shard (meta : ShardMeta) (ri : RootIndex) : RootIndex :=
  mkRootIndex (ri_v ri) (ri_format ri) (u64_add (ri_root_version ri) 1) (ri_created_at ri)
    (<[sm_shard_id meta := meta]> (ri_shards ri)).
Definition get_shard_meta (ri : RootIndex) (shard_id : string) : option ShardMeta :=
  ri_shards ri !! shard_id.

(** [get_shard_mut(id)], with the code that runs on what it finds. *)
Definition with_shard_meta (shard_id : string) (f : ShardMeta -> ShardMeta) (ri : RootIndex) : RootIndex :=
  mkRootIndex (ri_v ri) (ri_format ri) (ri_root_version ri) (ri_created_at ri)
    (alter f shard_id (ri_shards ri)).
Definition eager_shards (ri : RootIndex) : list ShardMeta :=
  List.filter (fun s => bool_decide (sm_strategy s = Eager)) (map snd (map_to_list (ri_shards ri))).
Definition shard_ids (ri : RootIndex) : list string := map fst (map_to_list (ri_shards ri)).
Definition is_sharded (ri : RootIndex) : bool :=
  (ri_v ri =? 2) && String.eqb (ri_format ri) "sharded".

Record Shard := mkShard {
  sh_v : Z;
  sh_id : string;
  sh_version : Z;
  sh_base_version : Z;
  sh_root : CatalogNode;
}.

Definition shard_new (shard_id : string) (r : CatalogNode) : Shard := mkShard 2 shard_id 0 0 r.
Definition shard_node_count (s : Shard) : Z := u64_wrap (count_nodes (sh_root s)).
Definition shard_size (s : Shard) : Z := total_size (sh_root s).
Definition shard_increment_version (s : Shard) : Shard :=
  mkShard (sh_v s) (sh_id s) (u64_add (sh_version s) 1) (sh_base_version s) (sh_root s).
Definition shard_compact (s : Shard) : Shard :=
  mkShard (sh_v s) (sh_id s) (sh_version s) (sh_version s) (sh_root s).
Definition has_pending_deltas (s : Shard) : bool := sh_base_version s <? sh_version s.

(** ** The sharded manager (sharded.rs) *)

Definition DEFAULT_SHARD_SIZE : Z := 1000.

Record ShardedCatalogManager := mkSharded {
  root_index : RootIndex;
  loaded_shards : gmap string Shard;
  delta_logs : gmap string DeltaLog;
  dirty_shards : list string;
}.

Definition sharded_new (now : Z) : ShardedCatalogManager := mkSharded (index_new now) ∅ ∅ [].
Definition from_root_index (ri : RootIndex) : ShardedCatalogManager := mkSharded ri ∅ ∅ [].
Definition is_shard_loaded (m : ShardedCatalogManager) (shard_id : string) : bool :=
  bool_decide (is_Some (loaded_shards m !! shard_id)).

Definition load_shard (shard_id : string) (s : Shard) (m : ShardedCatalogManager) : ShardedCatalogManager :=
  mkSharded (root_index m) (<[shard_id := s]> (loaded_shards m)) (delta_logs m) (dirty_shards m).

Definition load_shard_with_deltas (clk : clock) (shard_id : string) (s : Shard) (ds : list DeltaEntry)
    (m : ShardedCatalogManager) : result Error unit * ShardedCatalogManager :=
  match ds with
  | [] => (Ok tt, load_shard shard_id s m)
  | _ =>
      match apply_deltas clk (sh_root s) ds with
      | (Err e, _) => (Err e, m)
      | (Ok _, r) =>
          let v := match last ds with Some d => de_seq d | None => sh_version s end in
          (Ok tt, load_shard shard_id (mkShard (sh_v s) (sh_id s) v (sh_base_version s) r) m)
      end
  end.

Definition eager_shard_ids (m : ShardedCatalogManager) : list string :=
  map sm_shard_id (eager_shards (root_index m)).

Definition mark_dirty (shard_id : string) (m : ShardedCatalogManager) : ShardedCatalogManager :=
  if bool_decide (shard_id ∈ dirty_shards m) then m
  else mkSharded (root_index m) (loaded_shards m) (delta_logs m) (dirty_shards m ++ [shard_id]).
Definition clear_dirty (m : ShardedCatalogManager) : ShardedCatalogManager :=
  mkSharded (root_index m) (loaded_shards m) (delta_logs m) [].

Definition add_delta (shard_id : string) (e : DeltaEntry) (m : ShardedCatalogManager) : ShardedCatalogManager :=
  let log := log_push e (default (log_new shard_id) (delta_logs m !! shard_id)) in
  mark_dirty shard_id
    (mkSharded (with_shard_meta shard_id (meta_record_delta (to_version log)) (root_index m))
       (loaded_shards m) (<[shard_id := log]> (delta_logs m)) (dirty_shards m)).

Definition should_compact (m : ShardedCatalogManager) (shard_id : string) : bool :=
  match delta_logs m !! shard_id with
  | Some log => log_should_compact log
  | None => false
  end.

Definition compact_shard (shard_id : string) (m : ShardedCatalogManager)
    : result Error unit * ShardedCatalogManager :=
  match loaded_shards m !! shard_id with
  | None => (Err (InvalidPath (String.append "Shard not loaded: " shard_id)), m)
  | Some s =>
      let s := shard_compact s in
      (Ok tt,
       mkSharded
         (with_shard_meta shard_id
            (fun meta => meta_update_stats (shard_node_count s) (shard_size s) (meta_clear_deltas meta))
            (root_index m))
         (<[shard_id := s]> (loaded_shards m)) (alter log_clear shard_id (delta_logs m)) (dirty_shards m))
  end.

(** ** Splitting and merging *)

Definition split_into_shards (r : CatalogNode) (max_nodes_per_shard : option Z) : list Shard :=
  map (fun c => shard_new (node_name c) c) (children r).

Definition shard_meta_of (s : Shard) : ShardMeta :=
  let strategy := if is_eager_system_shard_id (sh_id s) then Eager else Lazy in
  meta_set_versions (sh_version s) (sh_base_version s)
    (meta_update_root_summary (sh_root s)
       (meta_update_stats (shard_node_count s) (shard_size s) (meta_new (sh_id s) strategy))).

Definition create_root_index_from_shards (now : Z) (shards : list Shard) : RootIndex :=
  foldl (fun ri s => upsert_shard (shard_meta_of s) ri) (index_new now) shards.

(** [merge_shards_to_catalog]: [clk] dates the root, then each addition. *)
Definition merge_shards_to_catalog (clk : clock) (shards : list Shard) : CatalogNode :=
  snd (foldl (fun '(clk, r) s => (later 1 clk, snd (add_child (clk 0%nat) (sh_root s) r)))
         (later 1 clk, new_root (clk 0%nat)) shards).

(** ** Splitting and merging preserve the catalog *)

Lemma merge_children clk shards :
  let r := merge_shards_to_catalog clk shards in
  children_opt r = Some (map sh_root shards) /\ node_id r = ROOT_NODE_ID
  /\ node_name r = "/"%string /\ node_type r = Dir.
Proof.
  unfold merge_shards_to_catalog.
  assert (forall clk r cs, children_opt r = Some cs ->
    let r' := snd (foldl (fun '(clk, r) s => (later 1 clk, snd (add_child (clk 0%nat) (sh_root s) r))) (clk, r) shards) in
    children_opt r' = Some (cs ++ map sh_root shards) /\ node_id r' = node_id r
    /\ node_name r' = node_name r /\ node_type r' = node_type r) as H.
  { induction shards as [|s shards IH]; intros clk' r cs Hco; cbn.
    { by rewrite app_nil_r. }
    destruct (IH (later 1 clk') (snd (add_child (clk' 0%nat) (sh_root s) r)) (cs ++ [sh_root s])) as (H1 & H2 & H3 & H4).
    { unfold add_child. by rewrite Hco. }
    rewrite <- app_assoc in H1. unfold add_child in *. rewrite Hco in *. by split_and!. }
  destruct (H (later 1 clk) (new_root (clk 0%nat)) [] eq_refl) as (H1 & H2 & H3 & H4). by split_and!.
Qed.

Lemma split_roots r : map sh_root (split_into_shards r None) = children r.
Proof. unfold split_into_shards. rewrite map_map. cbn. apply map_id. Qed.

(** The root rebuilt from a catalog's shards has the same entries. *)
Lemma merge_split_walk clk m :
  catalog_inv m ->
  let r := merge_shards_to_catalog clk (split_into_shards (root m) None) in
  same_root (root m) r /\ children_opt r = Some (children (root m)) /\ walk [] r = walk [] (root m)
  /\ wf_node r = true.
Proof.
  intros Hinv. destruct (merge_children clk (split_into_shards (root m) None)) as (H1 & H2 & H3 & H4).
  rewrite split_roots in H1. cbv zeta. set (r := merge_shards_to_catalog _ _) in *.
  assert (node_type (root m) = Dir) as Ht by exact (bool_decide_eq_true_1 _ (inv_root_dir _ Hinv)).
  destruct (wf_is_dir _ (inv_wf _ Hinv) (inv_root_dir _ Hinv)) as [cs Hcs].
  assert (same_root (root m) r) as Hsr by (split_and!; [rewrite H2|rewrite H3|rewrite H4]; symmetry; [apply Hinv..|done]).
  split_and!; try done.
  - rewrite !walk_eq, (children_Some _ _ H1). destruct Hsr as (-> & -> & ->). done.
  - apply (wf_node_dir _ _ H1). rewrite (children_Some _ _ Hcs).
    destruct (proj1 (wf_node_dir _ _ Hcs) (inv_wf _ Hinv)) as (? & ? & ? & ?). by split_and!.
Qed.

(** C27: writing a catalog as shards and merging them back loses nothing: the rebuilt
    manager satisfies the invariant, has the same top-level subtrees, and its index
    lists exactly the nodes of the tree, each under the id and path it had. *)
Theorem split_merge_roundtrip clk m v :
  catalog_inv m ->
  let m' := from_root_with_version (merge_shards_to_catalog clk (split_into_shards (root m) None)) v in
  catalog_inv m' /\ index_exact m' /\ version m' = v
  /\ children (root m') = children (root m)
  /\ (forall i p, node_index m' !! i = Some p <-> i ∈ ids (root m) /\ node_index m !! i = Some p).
Proof.
  intros Hinv. destruct (merge_split_walk clk m Hinv) as ((Hi & Hn & Ht) & Hco & Hw & Hwf).
  set (r := merge_shards_to_catalog _ _) in *. cbv zeta.
  set (m0 := mkManager r FIRST_USER_NODE_ID ∅ 0).
  assert (ids r = ids (root m)) as Hids by (unfold ids; by rewrite Hw).
  assert (root (rebuild_index m0) = r) as Hroot
    by (unfold rebuild_index; by destruct (collect_entries_into _ _ _)).
  destruct (rebuild_index_inv m0) as [Hinv' Hex'].
  { cbn. rewrite Hi. apply Hinv. }
  { cbn. rewrite Hn. apply Hinv. }
  { unfold is_dir. cbn. rewrite Ht. apply Hinv. }
  { done. }
  { change (root m0) with r. rewrite Hids. apply Hinv. }
  { change (root m0) with r. rewrite Hids. by apply inv_ids_range. }
  unfold from_root_with_version, from_root. fold m0. split_and!.
  - by destruct Hinv'.
  - exact Hex'.
  - done.
  - cbn [root set_version]. by rewrite Hroot, (children_Some _ _ Hco).
  - intros i p. cbn [node_index set_version]. rewrite rebuild_index_lookup by (change (root m0) with r; rewrite Hids; apply Hinv).
    change (root m0) with r. rewrite Hw. split.
    + intros [ty Hin]. split; [by eapply walk_entry_ids|by eapply (inv_complete _ Hinv)].
    + intros [(ty & q & Hin)%ids_walk_entry Hp]. rewrite (inv_complete _ Hinv _ _ _ Hin) in Hp.
      injection Hp as <-. by exists ty.
Qed.

(** ** The root index of a catalog *)

Lemma index_fold_shards ri shards :
  NoDup (map sh_id shards) ->
  let ri' := foldl (fun ri s => upsert_shard (shard_meta_of s) ri) ri shards in
  (forall s, s ∈ shards -> ri_shards ri' !! sh_id s = Some (shard_meta_of s))
  /\ (forall id, id ∉ map sh_id shards -> ri_shards ri' !! id = ri_shards ri !! id)
  /\ ri_root_version ri' = foldl (fun v _ => u64_add v 1) (ri_root_version ri) shards.
Proof.
  revert ri. induction shards as [|s shards IH]; intros ri Hnd; cbn.
  { split_and!; try done. intros s Hs. by apply not_elem_of_nil in Hs. }
  apply NoDup_cons in Hnd as [Hs Hnd]. destruct (IH (upsert_shard (shard_meta_of s) ri) Hnd) as (H1 & H2 & H3).
  cbv zeta in *. split_and!.
  - intros s' [->|Hs']%elem_of_cons; [|by apply H1]. rewrite H2 by done. cbn. apply lookup_insert_eq.
  - intros id [Hne Hid]%not_elem_of_cons. rewrite H2 by done. cbn. by apply lookup_insert_ne.
  - done.
Qed.

(** the root index of a catalog has one entry per top-level node and no other,
    each with the node count and size of its subtree, its summary without children, no
    pending deltas, and the eager strategy exactly for the two eager system shards. *)
Theorem root_index_of_catalog now m nm meta :
  catalog_inv m ->
  let ri := create_root_index_from_shards now (split_into_shards (root m) None) in
  is_sharded ri = true /\
  (get_shard_meta ri nm = Some meta <->
   exists c, find_child nm (root m) = Some c /\ meta = shard_meta_of (shard_new nm c))
  /\ (get_shard_meta ri nm = Some meta -> sm_delta_count meta = 0 /\ sm_has_deltas meta = false
        /\ (sm_strategy meta = Eager <-> nm = ".passmanager"%string \/ nm = ".passkeys"%string)).
Proof.
  intros Hinv ri. destruct (wf_is_dir _ (inv_wf _ Hinv) (inv_root_dir _ Hinv)) as [cs Hcs].
  destruct (proj1 (wf_node_dir _ _ Hcs) (inv_wf _ Hinv)) as (_ & _ & Hnd & _).
  assert (map sh_id (split_into_shards (root m) None) = map node_name cs) as Hids.
  { unfold split_into_shards. by rewrite map_map, (children_Some _ _ Hcs). }
  destruct (index_fold_shards (index_new now) (split_into_shards (root m) None)) as (H1 & H2 & _);
    [by rewrite Hids|]. fold (create_root_index_from_shards now (split_into_shards (root m) None)) in H1, H2.
  fold ri in H1, H2. rewrite Hids in H2.
  assert (forall meta, get_shard_meta ri nm = Some meta <->
    exists c, find_child nm (root m) = Some c /\ meta = shard_meta_of (shard_new nm c)) as Hiff.
  { intros meta'. unfold get_shard_meta, find_child. rewrite (children_Some _ _ Hcs). split.
    - intros Hm. destruct (decide (nm ∈ map node_name cs)) as [Hin|Hout].
      + apply list_elem_of_fmap in Hin as (c & -> & Hc). exists c. split; [by apply find_by_name|].
        specialize (H1 (shard_new (node_name c) c)). cbn in H1. rewrite H1 in Hm; [by injection Hm|].
        unfold split_into_shards. rewrite (children_Some _ _ Hcs). by apply (list_elem_of_fmap_2 (fun c => shard_new (node_name c) c)).
      + rewrite H2 in Hm by done. done.
    - intros (c & Hc & ->). apply find_some in Hc as [Hc Hn%has_name_true]. apply list_elem_of_In in Hc. subst nm.
      apply (H1 (shard_new (node_name c) c)). unfold split_into_shards. rewrite (children_Some _ _ Hcs).
      by apply (list_elem_of_fmap_2 (fun c => shard_new (node_name c) c)). }
  split_and!; [|apply Hiff|].
  - unfold ri, create_root_index_from_shards. clear.
    assert (forall r0 l, ri_v (foldl (fun r s => upsert_shard (shard_meta_of s) r) r0 l) = ri_v r0
      /\ ri_format (foldl (fun r s => upsert_shard (shard_meta_of s) r) r0 l) = ri_format r0) as H.
    { intros r0 l. revert r0. induction l as [|s l IH]; intros r0; [done|]. cbn. by destruct (IH (upsert_shard (shard_meta_of s) r0)). }
    unfold is_sharded. by destruct (H (index_new now) (split_into_shards (root m) None)) as [-> ->].
  - intros (c & Hc & ->)%Hiff. cbn. split_and!; try done. unfold is_eager_system_shard_id. cbn.
    case_bool_decide as He; unfold EAGER_SYSTEM_SHARD_IDS in He; rewrite !elem_of_cons in He;
      split; try done; try tauto.
    intros _. destruct He as [->|[->|He]]; [by left|by right|by apply not_elem_of_nil in He].
Qed.

(** ** The bookkeeping of deltas *)

Definition log_entries (m : ShardedCatalogManager) (id : string) : list DeltaEntry :=
  match delta_logs m !! id with Some log => entries log | None => [] end.

(** The metadata of every shard agrees with its log. *)
Definition in_sync (m : ShardedCatalogManager) : Prop :=
  forall id meta, ri_shards (root_index m) !! id = Some meta ->
    sm_delta_count meta = Z.of_nat (length (log_entries m id))
    /\ sm_has_deltas meta = negb (bool_decide (log_entries m id = []))
    /\ (forall d, last (log_entries m id) = Some d -> sm_last_delta_seq meta = de_seq d).

(** The operations that touch the logs or the loaded shards. *)
Inductive sharded_op :=
  | OpLoad (id : string) (s : Shard)
  | OpLoadWithDeltas (clk : clock) (id : string) (s : Shard) (ds : list DeltaEntry)
  | OpMarkDirty (id : string)
  | OpClearDirty
  | OpAddDelta (id : string) (e : DeltaEntry)
  | OpCompact (id : string).

Definition run_sharded (o : sharded_op) (m : ShardedCatalogManager) : ShardedCatalogManager :=
  match o with
  | OpLoad id s => load_shard id s m
  | OpLoadWithDeltas clk id s ds => snd (load_shard_with_deltas clk id s ds m)
  | OpMarkDirty id => mark_dirty id m
  | OpClearDirty => clear_dirty m
  | OpAddDelta id e => add_delta id e m
  | OpCompact id => snd (compact_shard id m)
  end.

Definition logs_bounded (m : ShardedCatalogManager) : Prop :=
  forall id, Z.of_nat (length (log_entries m id)) < U32_MAX.

Lemma in_sync_ext m m' :
  root_index m' = root_index m -> delta_logs m' = delta_logs m -> in_sync m -> in_sync m'.
Proof. intros Hr Hl H id meta. unfold log_entries. rewrite Hr, Hl. apply H. Qed.

Lemma mark_dirty_parts id m :
  root_index (mark_dirty id m) = root_index m /\ delta_logs (mark_dirty id m) = delta_logs m
  /\ loaded_shards (mark_dirty id m) = loaded_shards m /\ id ∈ dirty_shards (mark_dirty id m).
Proof.
  unfold mark_dirty. case_bool_decide; [done|]. split_and!; try done. cbn. apply elem_of_app. right. by left.
Qed.

Lemma add_delta_sync id e m : logs_bounded m -> in_sync m -> in_sync (add_delta id e m).
Proof.
  intros Hb Hs. unfold add_delta. set (log := log_push e _). eapply in_sync_ext; [apply mark_dirty_parts..|].
  assert (entries log = log_entries m id ++ [e]) as Hlog.
  { unfold log, log_entries. by destruct (delta_logs m !! id). }
  intros id' meta. unfold log_entries. cbn [root_index with_shard_meta ri_shards delta_logs].
  destruct (decide (id = id')) as [<-|Hne].
  - rewrite lookup_alter_eq, lookup_insert_eq. intros (meta0 & Hm & ->)%fmap_Some_1.
    destruct (Hs _ _ Hm) as (Hc & _ & _). rewrite Hlog, last_snoc, length_app. cbn [length]. split_and!.
    + cbn [sm_delta_count meta_record_delta]. rewrite Hc. unfold u32_wrap. rewrite Z.mod_small; [lia|]. specialize (Hb id). unfold U32_MAX in Hb. lia.
    + rewrite bool_decide_false; [done|]. by destruct (log_entries m id).
    + intros d [= <-]. done.
  - rewrite lookup_alter_ne, lookup_insert_ne by done. apply Hs.
Qed.

Lemma compact_sync id m : in_sync m -> in_sync (snd (compact_shard id m)).
Proof.
  intros Hs. unfold compact_shard. destruct (loaded_shards m !! id) as [s|]; [|done].
  intros id' meta. unfold log_entries. cbn [snd root_index with_shard_meta ri_shards delta_logs].
  destruct (decide (id = id')) as [<-|Hne].
  - rewrite !lookup_alter_eq. intros (meta0 & Hm & ->)%fmap_Some_1. cbn.
    by destruct (delta_logs m !! id) as [log|]; cbn; split_and!.
  - rewrite !lookup_alter_ne by done. apply Hs.
Qed.

(** the metadata of the sharded manager stays in step with its logs: after every
    operation each shard's delta count is the length of its log, its flag says whether
    the log is non-empty, and its last sequence number is that of the last entry; a
    shard with a recorded delta is marked dirty. *)
Theorem sharded_in_sync o m :
  logs_bounded m -> in_sync m ->
  in_sync (run_sharded o m)
  /\ (forall id e, o = OpAddDelta id e ->
        id ∈ dirty_shards (run_sharded o m)
        /\ log_entries (run_sharded o m) id = log_entries m id ++ [e]).
Proof.
  intros Hb Hs. split.
  - destruct o as [id s|clk id s ds|id| |id e|id]; cbn.
    + by apply (in_sync_ext m).
    + unfold load_shard_with_deltas. destruct ds as [|d ds]; [by apply (in_sync_ext m)|].
      destruct (apply_deltas clk (sh_root s) (d :: ds)) as [[n|e] r]; [by apply (in_sync_ext m)|done].
    + by apply (in_sync_ext m); [apply mark_dirty_parts..|].
    + by apply (in_sync_ext m).
    + by apply add_delta_sync.
    + by apply compact_sync.
  - intros id e ->. cbn. unfold add_delta. set (m1 := mkSharded _ _ _ _).
    destruct (mark_dirty_parts id m1) as (_ & Hl & _ & Hd). split; [done|].
    unfold log_entries. rewrite Hl. cbn. rewrite lookup_insert_eq. by destruct (delta_logs m !! id).
Qed.

(** compacting a shard of the sharded manager discards the deltas recorded for it:
    the log is emptied while the tree kept as the shard's snapshot is the one loaded
    before they were recorded. *)
Theorem compaction_drops_deltas id e m s :
  loaded_shards m !! id = Some s ->
  exists m' s', compact_shard id (add_delta id e m) = (Ok tt, m')
    /\ loaded_shards m' !! id = Some s' /\ sh_root s' = sh_root s /\ log_entries m' id = [].
Proof.
  intros Hs. unfold add_delta. set (m1 := mkSharded _ _ _ _).
  destruct (mark_dirty_parts id m1) as (Hr & Hl & Hld & _). unfold compact_shard.
  rewrite Hld. cbn [loaded_shards m1]. rewrite Hs. eexists _, (shard_compact s). split_and!; [done| |done|].
  - cbn. apply lookup_insert_eq.
  - unfold log_entries. cbn. rewrite Hl. cbn. by rewrite lookup_alter_eq, lookup_insert_eq.
Qed.

(** ** The theorems at concrete values *)

Definition demo_catalog : CatalogManager :=
  snd (create_dir (fun _ => 7) "/" ".passmanager"
    (snd (create_file (fun _ => 6) "/docs" "a.txt" 10 None
      (snd (create_dir (fun _ => 5) "/" "docs" (new 0)))))).

Lemma demo_catalog_inv : catalog_inv demo_catalog.
Proof. apply catalog_inv_check_sound. vm_compute. reflexivity. Qed.

Lemma split_merge_roundtrip_witness :
  let m' := from_root_with_version
              (merge_shards_to_catalog (fun _ => 9) (split_into_shards (root demo_catalog) None)) 4 in
  catalog_inv m' /\ index_exact m' /\ version m' = 4.
Proof. destruct (split_merge_roundtrip (fun _ => 9) demo_catalog 4 demo_catalog_inv) as (H1 & H2 & H3 & _). auto. Defined.

Definition docs_meta : ShardMeta :=
  shard_meta_of (shard_new "docs" (default (new_root 0) (find_child "docs" (root demo_catalog)))).

Lemma root_index_of_catalog_witness :
  sm_delta_count docs_meta = 0 /\ sm_node_count docs_meta = 2
  /\ get_shard_meta (create_root_index_from_shards 9 (split_into_shards (root demo_catalog) None)) "docs"
     = Some docs_meta.
Proof.
  destruct (root_index_of_catalog 9 demo_catalog "docs" docs_meta demo_catalog_inv) as (_ & H & _).
  split_and!; [reflexivity|vm_compute; reflexivity|]. apply H.
  exists (default (new_root 0) (find_child "docs" (root demo_catalog))). split; [vm_compute; reflexivity|reflexivity].
Defined.

Definition demo_sharded : ShardedCatalogManager :=
  load_shard "docs" (shard_new "docs" demo_shard)
    (from_root_index (upsert_shard (meta_new "docs" Lazy) (index_new 0))).

Lemma sharded_in_sync_witness : in_sync (run_sharded (OpAddDelta "docs" demo_delete) demo_sharded).
Proof.
  apply (sharded_in_sync (OpAddDelta "docs" demo_delete) demo_sharded).
  - intros id. unfold log_entries. cbn. unfold U32_MAX. rewrite lookup_empty. cbn. lia.
  - intros id meta. unfold log_entries. cbn. rewrite lookup_empty.
    intros [[<- <-]|[_ H]]%lookup_insert_Some; [done|]. by rewrite lookup_empty in H.
Defined.

Lemma compaction_drops_deltas_witness :
  exists m' s', compact_shard "docs" (add_delta "docs" demo_delete demo_sharded) = (Ok tt, m')
    /\ loaded_shards m' !! "docs"%string = Some s' /\ sh_root s' = demo_shard /\ log_entries m' "docs" = [].
Proof. apply (compaction_drops_deltas "docs" demo_delete demo_sharded (shard_new "docs" demo_shard)). reflexivity. Defined.
