(* ===== verification/Bytes.v ===== *)
(** * Bytes

    Bytes are [Byte.byte]; machine integers are [Z]. Big- and little-endian
    encodings of integers and lower-case hex, shared by the protocol frames and
    the names of chunks. *)

From Stdlib Require Import Strings.Byte Ascii String.
From stdpp Require Import base list strings.
From S2P Require Import Prelude.
Open Scope Z_scope.

(** ** Endianness *)

Definition Z_of_byte (b : byte) : Z := Z.of_N (Byte.to_N b).
Definition byte_of_Z (x : Z) : byte := default x00 (Byte.of_N (Z.to_N (x `mod` 256))).

(** [x.to_be_bytes()] of an [n]-byte integer. *)
Fixpoint to_be_bytes (n : nat) (x : Z) : list byte :=
  match n with
  | O => []
  | S n' => to_be_bytes n' (x `div` 256) ++ [byte_of_Z x]
  end.

(** [from_be_bytes(bs)]. *)
Definition from_be_bytes (bs : list byte) : Z := foldl (fun acc b => acc * 256 + Z_of_byte b) 0 bs.

Lemma Z_of_byte_range b : 0 <= Z_of_byte b < 256.
Proof. unfold Z_of_byte. pose proof (Byte.to_N_bounded b). lia. Qed.

Lemma byte_of_Z_of_byte b : byte_of_Z (Z_of_byte b) = b.
Proof.
  unfold byte_of_Z. rewrite Z.mod_small by apply Z_of_byte_range. unfold Z_of_byte.
  by rewrite N2Z.id, Byte.of_to_N.
Qed.

Lemma Z_of_byte_of_Z x : Z_of_byte (byte_of_Z x) = x `mod` 256.
Proof.
  unfold byte_of_Z, Z_of_byte. pose proof (Z.mod_pos_bound x 256 ltac:(lia)).
  destruct (Byte.of_N (Z.to_N (x `mod` 256))) as [b|] eqn:E.
  - cbn. apply Byte.to_of_N in E. rewrite E. lia.
  - apply Byte.of_N_None_iff in E. lia.
Qed.

Lemma length_to_be_bytes n x : length (to_be_bytes n x) = n.
Proof. revert x. induction n as [|n IH]; intros x; cbn; [done|]. rewrite length_app, IH. cbn. lia. Qed.

Lemma from_be_bytes_snoc bs b : from_be_bytes (bs ++ [b]) = from_be_bytes bs * 256 + Z_of_byte b.
Proof. unfold from_be_bytes. by rewrite foldl_app. Qed.

Lemma from_be_bytes_nonneg bs : 0 <= from_be_bytes bs.
Proof.
  induction bs as [|b bs IH] using rev_ind; [done|]. rewrite from_be_bytes_snoc.
  pose proof (Z_of_byte_range b). lia.
Qed.

Lemma from_to_be_bytes n x : 0 <= x < 256 ^ Z.of_nat n -> from_be_bytes (to_be_bytes n x) = x.
Proof.
  revert x. induction n as [|n IH]; intros x Hx; [cbn in *; lia|]. cbn [to_be_bytes].
  rewrite from_be_bytes_snoc, IH, Z_of_byte_of_Z.
  - pose proof (Z.div_mod x 256 ltac:(lia)). lia.
  - rewrite Nat2Z.inj_succ, Z.pow_succ_r in Hx by lia.
    split; [apply Z.div_pos; lia|]. apply Z.div_lt_upper_bound; lia.
Qed.

Lemma to_from_be_bytes bs : to_be_bytes (length bs) (from_be_bytes bs) = bs.
Proof.
  induction bs as [|b bs IH] using rev_ind; [done|]. rewrite length_app, from_be_bytes_snoc. cbn [length].
  rewrite Nat.add_1_r. cbn [to_be_bytes]. pose proof (Z_of_byte_range b) as Hb. f_equal.
  - rewrite Z.div_add_l by lia. rewrite (Z.div_small (Z_of_byte b)) by lia. by rewrite Z.add_0_r.
  - f_equal. rewrite <- (byte_of_Z_of_byte b) at 2. unfold byte_of_Z. do 3 f_equal.
    by rewrite Z.add_comm, Z_mod_plus_full.
Qed.

Lemma from_be_bytes_bound bs : from_be_bytes bs < 256 ^ Z.of_nat (length bs).
Proof.
  induction bs as [|b bs IH] using rev_ind; [done|]. rewrite from_be_bytes_snoc, length_app. cbn [length].
  rewrite Nat.add_1_r, Nat2Z.inj_succ, Z.pow_succ_r by lia. pose proof (Z_of_byte_range b). lia.
Qed.

(** [x.to_le_bytes()] of an [n]-byte integer. *)
Definition to_le_bytes (n : nat) (x : Z) : list byte := rev (to_be_bytes n x).

Lemma length_to_le_bytes n x : length (to_le_bytes n x) = n.
Proof. unfold to_le_bytes. by rewrite length_rev, length_to_be_bytes. Qed.

Lemma to_be_bytes_inj n x y :
  0 <= x < 256 ^ Z.of_nat n -> 0 <= y < 256 ^ Z.of_nat n ->
  to_be_bytes n x = to_be_bytes n y -> x = y.
Proof. intros Hx Hy E. by rewrite <- (from_to_be_bytes n x Hx), E, from_to_be_bytes. Qed.

Lemma to_le_bytes_inj n x y :
  0 <= x < 256 ^ Z.of_nat n -> 0 <= y < 256 ^ Z.of_nat n ->
  to_le_bytes n x = to_le_bytes n y -> x = y.
Proof.
  intros Hx Hy E. apply (to_be_bytes_inj n); [done..|]. unfold to_le_bytes in E.
  by rewrite <- (rev_involutive (to_be_bytes n x)), E, rev_involutive.
Qed.

(** ** Cutting into chunks *)

(** [content.chunks(n)], for an [n] that is not 0 (there it panics). *)
Fixpoint chunks_fuel (fuel n : nat) (content : list byte) : list (list byte) :=
  match fuel, content with
  | O, _ | _, [] => []
  | S fuel, _ => take n content :: chunks_fuel fuel n (drop n content)
  end.

Definition chunks_of (n : nat) (content : list byte) : list (list byte) := chunks_fuel (length content) n content.

Lemma concat_chunks n content : (0 < n)%nat -> concat (chunks_of n content) = content.
Proof.
  intros Hn. unfold chunks_of. assert (length content <= length content)%nat as Hf by lia. revert Hf.
  generalize (length content) at 2 3 as fuel. intros fuel. revert content.
  induction fuel as [|fuel IH]; intros [|b content] Hf; cbn [length] in Hf; [done|lia|done|].
  cbn [chunks_fuel concat]. rewrite IH; [apply take_drop|]. rewrite length_drop. cbn [length]. lia.
Qed.

Lemma length_chunks n content :
  (0 < n)%nat -> Z.of_nat (length (chunks_of n content)) = (Z.of_nat (length content) + (Z.of_nat n - 1)) / Z.of_nat n.
Proof.
  intros Hn. unfold chunks_of. assert (length content <= length content)%nat as Hf by lia. revert Hf.
  generalize (length content) at 2 3 as fuel. intros fuel. revert content.
  induction fuel as [|fuel IH]; intros [|b content] Hf; cbn [length] in Hf.
  - cbn. symmetry. apply Z.div_small. lia.
  - lia.
  - cbn. symmetry. apply Z.div_small. lia.
  - assert (exists k, length (b :: content) = k /\ (0 < k)%nat) as (k & Ek & Hk) by (eexists; split; [done|cbn; lia]).
    rewrite Ek. cbn [chunks_fuel length]. rewrite Nat2Z.inj_succ, IH; rewrite length_drop, Ek; [|cbn [length] in Ek; lia].
    destruct (decide (k <= n)%nat) as [Hle|Hgt].
    + replace (k - n)%nat with 0%nat by lia. rewrite (Z.div_small (Z.of_nat 0 + _)) by lia.
      apply (Z.div_unique _ _ 1 (Z.of_nat k - 1)); lia.
    + replace (Z.of_nat k + (Z.of_nat n - 1)) with (Z.of_nat (k - n) + (Z.of_nat n - 1) + 1 * Z.of_nat n) by lia.
      rewrite Z.div_add by lia. lia.
Qed.

Lemma chunks_fuel_lookup fuel n i content :
  (0 < n)%nat -> (length content <= fuel)%nat -> (i * n < length content)%nat ->
  chunks_fuel fuel n content !! i = Some (take n (drop (i * n) content)).
Proof.
  intros Hn. revert i content. induction fuel as [|fuel IH]; intros i [|b content] Hf Hi; cbn [length] in Hf, Hi; try lia.
  destruct i as [|i]; [done|]. cbn [chunks_fuel lookup list_lookup]. rewrite IH.
  - rewrite drop_drop. do 2 f_equal.
  - rewrite length_drop. cbn [length]. lia.
  - rewrite length_drop. cbn [length]. lia.
Qed.

Lemma lookup_chunks n i content :
  (0 < n)%nat -> (i * n < length content)%nat -> chunks_of n content !! i = Some (take n (drop (i * n) content)).
Proof. intros Hn Hi. by apply chunks_fuel_lookup. Qed.
