(* ===== verification/Text.v ===== *)
(** * Text: the characters of a string

    A [str] is its UTF-8 bytes. Where the code works on characters ([chars], [trim],
    [char::is_control], [char::is_whitespace]) the bytes are decoded to code points here.
    [chars] is total: bytes that are not UTF-8, which no [str] holds, are read as U+FFFD.
    [chars_of_chars] and [of_chars_chars] say that it is the inverse of encoding. *)

From Stdlib Require Import Ascii String.
From stdpp Require Import base list strings.
From S2P Require Import Prelude.
Open Scope Z_scope.

Definition code (a : ascii) : Z := Z.of_N (N_of_ascii a).
Definition byte_char (x : Z) : ascii := ascii_of_N (Z.to_N x).

Lemma code_range a : 0 <= code a < 256.
Proof. unfold code. pose proof (N_ascii_bounded a). lia. Qed.

Lemma code_byte_char x : 0 <= x < 256 -> code (byte_char x) = x.
Proof. intros. unfold code, byte_char. rewrite N_ascii_embedding by lia. lia. Qed.

Lemma byte_char_code a : byte_char (code a) = a.
Proof. unfold code, byte_char. by rewrite N2Z.id, ascii_N_embedding. Qed.

(** ** UTF-8 *)

(** A Unicode scalar value: the values of a [char]. *)
Definition is_char (c : Z) : bool := (0 <=? c) && (c <? 55296) || (57344 <=? c) && (c <=? 1114111).

Definition len_utf8 (c : Z) : Z := if c <? 128 then 1 else if c <? 2048 then 2 else if c <? 65536 then 3 else 4.

Definition encode_utf8 (c : Z) (rest : string) : string :=
  let cont i := byte_char (128 + (c `div` 64 ^ i) `mod` 64) in
  if c <? 128 then String (byte_char c) rest
  else if c <? 2048 then String (byte_char (192 + c `div` 64)) (String (cont 0) rest)
  else if c <? 65536 then String (byte_char (224 + c `div` 64 ^ 2)) (String (cont 1) (String (cont 0) rest))
  else String (byte_char (240 + c `div` 64 ^ 3)) (String (cont 2) (String (cont 1) (String (cont 0) rest))).

(** [cs.iter().collect::<String>()]. *)
Definition of_chars (cs : list Z) : string := foldr encode_utf8 EmptyString cs.

Definition is_cont (a : ascii) : bool := (128 <=? code a) && (code a <? 192).
Definition char2 (a b : ascii) : Z := (code a - 192) * 64 + (code b - 128).
Definition char3 (a b c : ascii) : Z := ((code a - 224) * 64 + (code b - 128)) * 64 + (code c - 128).
Definition char4 (a b c d : ascii) : Z :=
  (((code a - 240) * 64 + (code b - 128)) * 64 + (code c - 128)) * 64 + (code d - 128).

Definition REPLACEMENT : Z := 65533.

(** Each form is read only where it is the shortest, and never as a surrogate. *)
Definition form2 (a b : ascii) : bool := (194 <=? code a) && (code a <? 224) && is_cont b.
Definition form3 (a b c : ascii) : bool :=
  (224 <=? code a) && (code a <? 240) && is_cont b && is_cont c && (2048 <=? char3 a b c) && is_char (char3 a b c).
Definition form4 (a b c d : ascii) : bool :=
  (240 <=? code a) && (code a <? 248) && is_cont b && is_cont c && is_cont d
  && (65536 <=? char4 a b c d) && is_char (char4 a b c d).

(** [s.chars()]. *)
Fixpoint chars (s : string) : list Z :=
  match s with
  | EmptyString => []
  | String a r =>
      if code a <? 128 then code a :: chars r else
      match r with
      | EmptyString => [REPLACEMENT]
      | String b r1 =>
          if form2 a b then char2 a b :: chars r1 else
          match r1 with
          | EmptyString => REPLACEMENT :: chars r
          | String c r2 =>
              if form3 a b c then char3 a b c :: chars r2 else
              match r2 with
              | EmptyString => REPLACEMENT :: chars r
              | String d r3 => if form4 a b c d then char4 a b c d :: chars r3 else REPLACEMENT :: chars r
              end
          end
      end
  end.

(** [s] is UTF-8, as every [str] is. *)
Definition is_utf8 (s : string) : bool := String.eqb (of_chars (chars s)) s.

(** ** Classes of characters *)

(** [char::is_whitespace]: the characters with the property White_Space. *)
Definition is_whitespace (c : Z) : bool :=
  (9 <=? c) && (c <=? 13) || (c =? 32) || (c =? 133) || (c =? 160) || (c =? 5760)
  || (8192 <=? c) && (c <=? 8202) || (c =? 8232) || (c =? 8233) || (c =? 8239) || (c =? 8287) || (c =? 12288).

(** [char::is_control]: the general category Cc. *)
Definition is_control (c : Z) : bool := (0 <=? c) && (c <? 32) || (127 <=? c) && (c <? 160).

Definition is_ascii_lowercase (c : Z) : bool := (97 <=? c) && (c <=? 122).
Definition is_ascii_uppercase (c : Z) : bool := (65 <=? c) && (c <=? 90).
Definition is_ascii_alphabetic (c : Z) : bool := is_ascii_lowercase c || is_ascii_uppercase c.
Definition is_ascii_digit (c : Z) : bool := (48 <=? c) && (c <=? 57).
Definition is_ascii_alphanumeric (c : Z) : bool := is_ascii_alphabetic c || is_ascii_digit c.

(** [s.bytes()] as numbers, and [s.is_ascii()]. *)
Definition bytes_of (s : string) : list Z := map code (list_ascii_of_string s).
Definition is_ascii (s : string) : bool := forallb (fun b => b <? 128) (bytes_of s).

(** ** Trimming *)

Fixpoint trim_start_if (p : Z -> bool) (cs : list Z) : list Z :=
  match cs with
  | [] => []
  | c :: cs' => if p c then trim_start_if p cs' else cs
  end.

Definition trim_if (p : Z -> bool) (cs : list Z) : list Z :=
  rev (trim_start_if p (rev (trim_start_if p cs))).

(** [s.trim()]. *)
Definition trim (s : string) : string := of_chars (trim_if is_whitespace (chars s)).

(** ** Lemmas *)

Lemma is_char_range c : is_char c = true -> 0 <= c <= 1114111.
Proof. unfold is_char. lia. Qed.

(** The base-64 digits of a code point. *)
Lemma cont_digit c i : 0 <= i ->
  code (byte_char (128 + (c `div` 64 ^ i) `mod` 64)) = 128 + (c `div` 64 ^ i) `mod` 64.
Proof. intros Hi. apply code_byte_char. pose proof (Z.mod_pos_bound (c `div` 64 ^ i) 64). lia. Qed.

(** Decoding what [encode_utf8] wrote. *)
Lemma chars_encode c rest : is_char c = true -> chars (encode_utf8 c rest) = c :: chars rest.
Proof.
  intros Hc. pose proof (is_char_range c Hc) as Hr. unfold encode_utf8.
  destruct (c <? 128) eqn:E1; [cbn [chars]; rewrite code_byte_char by lia; by rewrite E1|].
  assert (code (byte_char (128 + (c `div` 64 ^ 0) `mod` 64)) = 128 + c `mod` 64) as D0
    by (rewrite cont_digit by lia; by rewrite Z.div_1_r).
  destruct (c <? 2048) eqn:E2; [|destruct (c <? 65536) eqn:E3].
  - assert (code (byte_char (192 + c `div` 64)) = 192 + c `div` 64) as D1.
    { apply code_byte_char. Z.to_euclidean_division_equations; lia. }
    cbn [chars]. unfold form2, is_cont, char2. rewrite D0, D1.
    replace (192 + c `div` 64 <? 128) with false by (Z.to_euclidean_division_equations; lia).
    replace (_ && _ && _) with true by (Z.to_euclidean_division_equations; lia).
    f_equal. Z.to_euclidean_division_equations; lia.
  - pose proof (cont_digit c 1 ltac:(lia)) as D1. change (64 ^ 1) with 64 in *.
    assert (code (byte_char (224 + c `div` 64 ^ 2)) = 224 + c `div` 4096) as D2.
    { apply code_byte_char. change (64 ^ 2) with 4096. Z.to_euclidean_division_equations; lia. }
    assert (((224 + c `div` 4096 - 224) * 64 + (128 + (c `div` 64) `mod` 64 - 128)) * 64 + (128 + c `mod` 64 - 128) = c) as Ec
      by (Z.to_euclidean_division_equations; lia).
    cbn [chars]. unfold form2, form3, is_cont, char3. rewrite D0, D1, D2, Ec, Hc.
    replace (224 + c `div` 4096 <? 128) with false by (Z.to_euclidean_division_equations; lia).
    replace (_ && (224 + c `div` 4096 <? 224) && _) with false by (Z.to_euclidean_division_equations; lia).
    replace (_ && true) with true; [done|]. Z.to_euclidean_division_equations; lia.
  - pose proof (cont_digit c 1 ltac:(lia)) as D1. pose proof (cont_digit c 2 ltac:(lia)) as D2.
    change (64 ^ 1) with 64 in *. change (64 ^ 2) with 4096 in *.
    assert (code (byte_char (240 + c `div` 64 ^ 3)) = 240 + c `div` 262144) as D3.
    { apply code_byte_char. change (64 ^ 3) with 262144. Z.to_euclidean_division_equations; lia. }
    assert ((((240 + c `div` 262144 - 240) * 64 + (128 + (c `div` 4096) `mod` 64 - 128)) * 64
             + (128 + (c `div` 64) `mod` 64 - 128)) * 64 + (128 + c `mod` 64 - 128) = c) as Ec
      by (Z.to_euclidean_division_equations; lia).
    cbn [chars]. unfold form2, form3, form4, is_cont, char3, char4. rewrite D0, D1, D2, D3, Ec, Hc.
    replace (240 + c `div` 262144 <? 128) with false by (Z.to_euclidean_division_equations; lia).
    replace (_ && (240 + c `div` 262144 <? 224) && _) with false by (Z.to_euclidean_division_equations; lia).
    replace (240 + c `div` 262144 <? 240) with false by (Z.to_euclidean_division_equations; lia).
    rewrite andb_false_r. cbn [andb].
    replace (_ && true) with true; [done|]. Z.to_euclidean_division_equations; lia.
Qed.

Lemma chars_of_chars cs : Forall (fun c => is_char c = true) cs -> chars (of_chars cs) = cs.
Proof.
  unfold of_chars. induction 1 as [|c cs Hc Hcs IH]; [done|]. cbn [foldr]. by rewrite chars_encode, IH.
Qed.

Lemma is_char_char2 a b : form2 a b = true -> is_char (char2 a b) = true.
Proof. unfold form2, is_cont, char2, is_char. lia. Qed.

(** Whatever the bytes, [chars] gives characters. *)
Lemma chars_are_chars s : Forall (fun c => is_char c = true) (chars s).
Proof.
  induction s as [s IH] using (well_founded_induction (Wf_nat.well_founded_ltof _ String.length)).
  unfold Wf_nat.ltof in IH. destruct s as [|a r]; [constructor|]. cbn [chars].
  assert (Forall (fun c => is_char c = true) (chars r)) as Hr by (apply IH; cbn; lia).
  destruct (code a <? 128) eqn:Ea.
  { constructor; [|done]. unfold is_char. pose proof (code_range a). lia. }
  destruct r as [|b r1]; [by repeat constructor|].
  destruct (form2 a b) eqn:E2; [constructor; [by apply is_char_char2|apply IH; cbn; lia]|].
  destruct r1 as [|c r2]; [by constructor|].
  destruct (form3 a b c) eqn:E3.
  { constructor; [|apply IH; cbn; lia]. by apply andb_true_iff in E3 as [_ ?]. }
  destruct r2 as [|d r3]; [by constructor|].
  destruct (form4 a b c d) eqn:E4; [|by constructor].
  constructor; [|apply IH; cbn; lia]. by apply andb_true_iff in E4 as [_ ?].
Qed.

Lemma of_chars_utf8 cs : Forall (fun c => is_char c = true) cs -> is_utf8 (of_chars cs) = true.
Proof. intros Hcs. unfold is_utf8. rewrite chars_of_chars by done. apply String.eqb_refl. Qed.

Lemma of_chars_app cs cs' : of_chars (cs ++ cs') = String.append (of_chars cs) (of_chars cs').
Proof.
  unfold of_chars. induction cs as [|c cs IH]; [done|]. cbn [app foldr]. rewrite IH. unfold encode_utf8.
  repeat case_match; done.
Qed.

(** ASCII text: bytes and characters are the same. *)
Lemma chars_ascii s : is_ascii s = true -> chars s = bytes_of s.
Proof.
  unfold is_ascii, bytes_of. induction s as [|a s IH]; [done|]. cbn [list_ascii_of_string map forallb chars].
  intros [Ha Hs]%andb_true_iff. rewrite Ha. by rewrite IH.
Qed.

(** *** [trim] *)

Lemma trim_start_if_split p cs :
  exists l, cs = l ++ trim_start_if p cs /\ Forall (fun c => p c = true) l
    /\ (forall c, head (trim_start_if p cs) = Some c -> p c = false).
Proof.
  induction cs as [|c cs IH]; [by exists []|]. cbn. destruct (p c) eqn:E.
  - destruct IH as (l & Hl & ? & ?). exists (c :: l). cbn. rewrite <- Hl. auto.
  - exists []. split; [done|]. split; [constructor|]. cbn. by intros ? [= <-].
Qed.

Lemma last_head_rev {A} (l : list A) : last l = head (rev l).
Proof. induction l as [|x l _] using rev_ind; [done|]. by rewrite last_snoc, rev_app_distr. Qed.

(** What [trim_if] keeps, and what it drops. *)
Lemma trim_if_split p cs :
  exists l r, cs = l ++ trim_if p cs ++ r /\ Forall (fun c => p c = true) l /\ Forall (fun c => p c = true) r
    /\ (forall c, head (trim_if p cs) = Some c -> p c = false)
    /\ (forall c, last (trim_if p cs) = Some c -> p c = false).
Proof.
  unfold trim_if. destruct (trim_start_if_split p cs) as (l & Hl & Hpl & Hh). set (m := trim_start_if p cs) in *.
  destruct (trim_start_if_split p (rev m)) as (r & Hr & Hpr & Hh'). set (t := trim_start_if p (rev m)) in *.
  assert (m = rev t ++ rev r) as Hm by (rewrite <- rev_app_distr, <- Hr; by rewrite rev_involutive).
  exists l, (rev r). split; [by rewrite <- Hm|]. split; [done|]. split; [by apply Forall_rev|]. split.
  - intros c Hc. apply Hh. rewrite Hm. by destruct (rev t).
  - intros c Hc. apply Hh'. by rewrite last_head_rev, rev_involutive in Hc.
Qed.

Lemma trim_start_if_id p cs : (forall c, head cs = Some c -> p c = false) -> trim_start_if p cs = cs.
Proof. destruct cs as [|c cs]; [done|]. cbn. intros H. by rewrite (H c). Qed.

Lemma trim_if_id p cs :
  (forall c, head cs = Some c -> p c = false) -> (forall c, last cs = Some c -> p c = false) -> trim_if p cs = cs.
Proof.
  intros Hh Hl. unfold trim_if. rewrite (trim_start_if_id p cs) by done.
  rewrite trim_start_if_id; [apply rev_involutive|]. intros c Hc. apply Hl. by rewrite last_head_rev.
Qed.

Lemma Forall_trim_if p (Q : Z -> Prop) cs : Forall Q cs -> Forall Q (trim_if p cs).
Proof.
  destruct (trim_if_split p cs) as (l & r & E & _). rewrite E at 1. rewrite !Forall_app. tauto.
Qed.

Lemma chars_trim s : chars (trim s) = trim_if is_whitespace (chars s).
Proof. apply chars_of_chars, Forall_trim_if, chars_are_chars. Qed.

Lemma trim_idem s : trim (trim s) = trim s.
Proof.
  unfold trim at 1. rewrite chars_trim. destruct (trim_if_split is_whitespace (chars s)) as (l & r & _ & _ & _ & Hh & Hl).
  by rewrite (trim_if_id _ _ Hh Hl).
Qed.

Lemma trim_utf8 s : is_utf8 (trim s) = true.
Proof. apply of_chars_utf8, Forall_trim_if, chars_are_chars. Qed.
