(* ===== verification/Storage.v ===== *)
(** * Chunk storage

    Models the chunk operations of [crates/core/src/storage/flat/chunks.rs] behind
    [crates/core/src/storage/flat.rs], in a monad of computations on a disk that can fail
    and crash. The disk maps chunk names to contents; temporary files are not chunks
    and are left out, and a completed operation is durable, which is what the syncs
    of the code are for.

    Every call to the storage or to the random number generator meets a fate: it runs,
    it fails before or after its effect (the faults of [backend.rs], and a rename that
    succeeds with a sync that does not), or the process dies there. The fates of a run are given
    with the world; when they are used up, every further call runs. [triple] is a Hoare
    logic with a crash condition over all fates at once. *)

From Stdlib Require Import Strings.Byte Ascii String.
From stdpp Require Import base gmap strings list.
From S2P Require Import Prelude.
From S2P Require Import CatalogNode.
Open Scope Z_scope.

(** ** The world *)

Abbreviation Disk := (gmap string (list byte)).

Inductive fate := Runs | FailsBefore | FailsAfter | Crashes.

Record World := mkWorld { disk : Disk; fates : list fate; draws : nat }.

(** Why a computation stopped early: an [Err] of the code, or the end of the process. *)
Inductive stop := Failed (e : Error) | Crashed.

Definition IO (A : Type) : Type := World -> result stop A * World.

#[export] Instance IO_ret : MRet IO := fun A a w => (Ok a, w).
#[export] Instance IO_bind : MBind IO := fun A B f c w =>
  match c w with
  | (Ok a, w') => f a w'
  | (Err e, w') => (Err e, w')
  end.

(** [r?] for a pure [Result]. *)
Definition io_lift {A} (r : result Error A) : IO A := fun w => (map_err Failed r, w).
Definition io_throw {A} (e : Error) : IO A := io_lift (Err e).

(** The result of a computation as a value: what [let _ = c], [match c] and
    [c.map_err(..)] see. A crash is not a value. *)
Definition attempt {A} (c : IO A) : IO (result Error A) := fun w =>
  match c w with
  | (Ok a, w') => (Ok (Ok a), w')
  | (Err (Failed e), w') => (Ok (Err e), w')
  | (Err Crashed, w') => (Err Crashed, w')
  end.

Definition io_map_err {A} (f : Error -> Error) (c : IO A) : IO A :=
  r ← attempt c; io_lift (map_err f r).

(** A call to the outside with effect [eff]. *)
Definition call {A} (eff : Disk -> result Error A * Disk) : IO A := fun w =>
  let fs := tail (fates w) in
  match fates w with
  | [] | Runs :: _ =>
      (map_err Failed (fst (eff (disk w))), mkWorld (snd (eff (disk w))) fs (draws w))
  | FailsBefore :: _ => (Err (Failed (StorageIo "fault")), mkWorld (disk w) fs (draws w))
  | FailsAfter :: _ =>
      (Err (Failed (StorageIo "fault")), mkWorld (snd (eff (disk w))) fs (draws w))
  | Crashes :: _ => (Err Crashed, mkWorld (disk w) fs (draws w))
  end.

(** Computations that also change a value of type [S] in memory. What they did to it
    stays when they stop. *)
Definition StIO (S A : Type) : Type := S -> World -> result stop A * S * World.

#[export] Instance StIO_ret S : MRet (StIO S) := fun A a s w => (Ok a, s, w).
#[export] Instance StIO_bind S : MBind (StIO S) := fun A B f c s w =>
  match c s w with
  | (Ok a, s', w') => f a s' w'
  | (Err e, s', w') => (Err e, s', w')
  end.

Definition io {S A} (c : IO A) : StIO S A := fun s w => let '(r, w') := c w in (r, s, w').
Definition st_get {S} : StIO S S := fun s w => (Ok s, s, w).
Definition st_modify {S} (f : S -> S) : StIO S unit := fun s w => (Ok tt, f s, w).
Definition st_put {S} (s : S) : StIO S unit := st_modify (fun _ => s).

(** [c] on a value that nobody sees afterwards. *)
Definition st_run {S A} (s : S) (c : StIO S A) : IO A := fun w =>
  let '(x, _, w') := c s w in (x, w').

Definition st_attempt {S A} (c : StIO S A) : StIO S (result Error A) := fun s w =>
  match c s w with
  | (Ok a, s', w') => (Ok (Ok a), s', w')
  | (Err (Failed e), s', w') => (Ok (Err e), s', w')
  | (Err Crashed, s', w') => (Err Crashed, s', w')
  end.

(** ** Operations *)

(** [b.is_ascii_digit() || (b'a'..=b'f').contains(&b)]. *)
Definition is_hex_digit (c : ascii) : bool :=
  let n := N_of_ascii c in
  ((48 <=? n)%N && (n <=? 57)%N) || ((97 <=? n)%N && (n <=? 102)%N).

Fixpoint all_chars (f : ascii -> bool) (s : string) : bool :=
  match s with
  | EmptyString => true
  | String c s' => f c && all_chars f s'
  end.

Definition validate_chunk_name (name : string) : result Error unit :=
  let e := InvalidChunkName
             (String.append "chunk name must be 64 lowercase hex characters: " name) in
  if negb (String.length name =? 64)%nat then Err e
  else if negb (all_chars is_hex_digit name) then Err e
  else Ok tt.

(** The path of a chunk file below the base path. *)
Definition chunk_path (name : string) : result Error (list string) :=
  validate_chunk_name name ≫= fun _ =>
  Ok ["chunks"%string; substring 0 1 name; substring 1 2 name; name].

Definition read_chunk (name : string) : IO (list byte) :=
  io_lift (chunk_path name);;
  call (fun d => (ok_or (d !! name) (ChunkNotFound name), d)).

Definition write_chunk_atomic (name : string) (data : list byte) : IO unit :=
  io_lift (chunk_path name);;
  call (fun d => (Ok tt, <[name := data]> d)).

Definition delete_chunk (name : string) : IO unit :=
  io_lift (chunk_path name);;
  call (fun d => (Ok tt, delete name d)).

Definition chunk_exists (name : string) : IO bool :=
  io_lift (chunk_path name);;
  call (fun d => (Ok (bool_decide (is_Some (d !! name))), d)).

Definition sync : IO unit := call (fun d => (Ok tt, d)).

Definition valid_name (name : string) : bool := is_ok (validate_chunk_name name).

(** ** Crash logic

    From a disk with [P], [c] returns with [Q], or stops at a fault with the disk in [C];
    without faults it returns. Calls use up the fates from the front. *)

(** [fs'] is what calls left of [fs], and what they left after a fault. *)
Definition uses (fs fs' : list fate) : Prop := exists pre, fs = pre ++ fs'.
Definition faulted (fs fs' : list fate) : Prop := exists pre f, f <> Runs /\ fs = pre ++ f :: fs'.

Lemma uses_refl fs : uses fs fs.
Proof. by exists []. Qed.

Lemma uses_trans fs1 fs2 fs3 : uses fs1 fs2 -> uses fs2 fs3 -> uses fs1 fs3.
Proof. intros [p1 ->] [p2 ->]. exists (p1 ++ p2). by rewrite app_assoc. Qed.

Lemma uses_faulted fs1 fs2 fs3 : uses fs1 fs2 -> faulted fs2 fs3 -> faulted fs1 fs3.
Proof. intros [p1 ->] (p2 & f & Hf & ->). exists (p1 ++ p2), f. by rewrite <- app_assoc. Qed.

Lemma faulted_uses fs fs' : faulted fs fs' -> uses fs fs'.
Proof. intros (p & f & _ & ->). exists (p ++ [f]). by rewrite <- app_assoc. Qed.

Lemma uses_nil fs : uses [] fs -> fs = [].
Proof. intros [p E]. symmetry in E. by apply app_eq_nil in E as [_ ->]. Qed.

Lemma faulted_nil fs : ~ faulted [] fs.
Proof. intros (p & f & _ & E). by destruct p. Qed.

Lemma faulted_head f fs : f <> Runs -> faulted (f :: fs) fs.
Proof. by exists [], f. Qed.

Lemma uses_tail fs : uses fs (tail fs).
Proof. destruct fs as [|f fs]; [by exists []|by exists [f]]. Qed.

Definition triple {A} (P : Disk -> Prop) (c : IO A) (Q : A -> Disk -> Prop) (C : Disk -> Prop) : Prop :=
  forall w, P (disk w) ->
  match c w with
  | (Ok a, w') => Q a (disk w') /\ uses (fates w) (fates w')
  | (Err _, w') => C (disk w') /\ faulted (fates w) (fates w')
  end.

Section Rules.
Context {A B : Type}.
Implicit Types (P : Disk -> Prop) (Q : A -> Disk -> Prop) (C : Disk -> Prop).

Lemma triple_ret P a Q C : (forall d, P d -> Q a d) -> triple P (mret a : IO A) Q C.
Proof. intros H w Hw. cbn. split; [auto|apply uses_refl]. Qed.

Lemma triple_bind P (c : IO A) (k : A -> IO B) Q (R : B -> Disk -> Prop) C :
  triple P c Q C -> (forall a, triple (Q a) (k a) R C) -> triple P (c ≫= k) R C.
Proof.
  intros Hc Hk w Hw. specialize (Hc w Hw). unfold mbind, IO_bind. destruct (c w) as [[a|e] w1]; [|done].
  destruct Hc as [Ha Hf]. specialize (Hk a w1 Ha). destruct (k a w1) as [[b|e] w2].
  - destruct Hk. split; [done|]. by eapply uses_trans.
  - destruct Hk. split; [done|]. by eapply uses_faulted.
Qed.

Lemma triple_conseq P P' (c : IO A) Q Q' C C' :
  triple P' c Q' C' -> (forall d, P d -> P' d) -> (forall a d, Q' a d -> Q a d) ->
  (forall d, C' d -> C d) -> triple P c Q C.
Proof.
  intros H HP HQ HC w Hw. specialize (H w (HP _ Hw)). destruct (c w) as [[a|e] w'].
  - destruct H. split; auto.
  - destruct H. split; auto.
Qed.

Lemma triple_pre P P' (c : IO A) Q C :
  triple P' c Q C -> (forall d, P d -> P' d) -> triple P c Q C.
Proof. intros H HP w Hw. apply H, HP, Hw. Qed.

Lemma triple_or P1 P2 (c : IO A) Q C :
  triple P1 c Q C -> triple P2 c Q C -> triple (fun d => P1 d \/ P2 d) c Q C.
Proof. intros H1 H2 w [Hw|Hw]; [by apply H1|by apply H2]. Qed.

Lemma triple_exists {X} (P : X -> Disk -> Prop) (c : IO A) Q C :
  (forall x, triple (P x) c Q C) -> triple (fun d => exists x, P x d) c Q C.
Proof. intros H w [x Hw]. by apply (H x). Qed.

Lemma triple_pure (phi : Prop) P (c : IO A) Q C :
  (phi -> triple P c Q C) -> triple (fun d => phi /\ P d) c Q C.
Proof. intros H w [Hp Hw]. by apply (H Hp). Qed.

Lemma triple_call P (eff : Disk -> result Error A * Disk) Q C :
  (forall d, P d -> C d /\ C (snd (eff d)) /\ exists a, fst (eff d) = Ok a /\ Q a (snd (eff d))) ->
  triple P (call eff) Q C.
Proof.
  intros H w Hw. destruct (H _ Hw) as (Hc & Hc' & a & Ha & Hq). unfold call.
  destruct (fates w) as [|f fs]; [cbn; rewrite Ha; cbn; split; [done|apply uses_refl]|].
  assert (uses (f :: fs) fs) by (by exists [f]).
  destruct f; cbn; rewrite ?Ha; cbn; (split; [done|]); try done; by apply faulted_head.
Qed.

Lemma triple_lift P (r : result Error A) a Q C :
  r = Ok a -> (forall d, P d -> Q a d) -> triple P (io_lift r) Q C.
Proof. intros -> H w Hw. cbn. split; [auto|apply uses_refl]. Qed.

(** An attempted computation goes on after a failure. *)
Lemma triple_attempt P (c : IO A) Q C :
  triple P c Q C ->
  triple P (attempt c) (fun r d => match r with Ok a => Q a d | Err _ => C d end) C.
Proof.
  intros H w Hw. specialize (H w Hw). unfold attempt.
  destruct (c w) as [[a|[e|]] w']; destruct H; split; auto. by apply faulted_uses.
Qed.
End Rules.

(** A step whose crash condition is implied by its postcondition's. *)
Lemma triple_seq {A B} P (c : IO A) (k : IO B) (Q : Disk -> Prop) R C :
  triple P c (fun _ => Q) C -> triple Q k R C -> triple P (c;; k) R C.
Proof. intros Hc Hk. by apply (triple_bind _ _ _ (fun _ => Q)). Qed.

Lemma chunk_path_ok n : valid_name n = true -> exists p, chunk_path n = Ok p.
Proof.
  unfold valid_name, chunk_path. destruct (validate_chunk_name n) as [[]|e]; [|done]. intros _.
  eexists. reflexivity.
Qed.

Section Operations.
Implicit Types (P C : Disk -> Prop) (n : string).

Lemma named_call {A} P n (eff : Disk -> result Error A * Disk) Q C :
  valid_name n = true ->
  (forall d, P d -> C d /\ C (snd (eff d)) /\ exists a, fst (eff d) = Ok a /\ Q a (snd (eff d))) ->
  triple P (io_lift (chunk_path n);; call eff) Q C.
Proof.
  intros [p Hp]%chunk_path_ok H. apply (triple_seq _ _ _ P).
  - by apply (triple_lift _ _ p).
  - by apply triple_call.
Qed.

Lemma triple_write P n data Q C :
  valid_name n = true -> (forall d, P d -> C d) ->
  (forall d, P d -> C (<[n := data]> d) /\ Q (<[n := data]> d)) ->
  triple P (write_chunk_atomic n data) (fun _ => Q) C.
Proof. intros Hv Hc H. apply named_call; [done|]. intros d Hd. cbn. destruct (H d Hd). eauto 10. Qed.

Lemma triple_delete P n Q C :
  valid_name n = true -> (forall d, P d -> C d) ->
  (forall d, P d -> C (delete n d) /\ Q (delete n d)) ->
  triple P (delete_chunk n) (fun _ => Q) C.
Proof. intros Hv Hc H. apply named_call; [done|]. intros d Hd. cbn. destruct (H d Hd). eauto 10. Qed.

Lemma triple_read P n Q C :
  valid_name n = true -> (forall d, P d -> C d) ->
  (forall d, P d -> exists data, d !! n = Some data /\ Q data d) ->
  triple P (read_chunk n) Q C.
Proof.
  intros Hv Hc H. apply named_call; [done|]. intros d Hd. cbn. destruct (H d Hd) as (data & -> & Hq).
  cbn. eauto 10.
Qed.

Lemma triple_chunk_exists P n (Q : bool -> Disk -> Prop) C :
  valid_name n = true -> (forall d, P d -> C d) ->
  (forall d, P d -> Q (bool_decide (is_Some (d !! n))) d) ->
  triple P (chunk_exists n) Q C.
Proof. intros Hv Hc H. apply named_call; [done|]. intros d Hd. cbn. eauto 10. Qed.

Lemma triple_sync P C : (forall d, P d -> C d) -> triple P sync (fun _ => P) C.
Proof. intros Hc. apply triple_call. intros d Hd. cbn. eauto 10. Qed.
End Operations.

(** ** Runs

    [run_io fs k c d] is the disk after [c] with the fates [fs] from disk [d], and
    what it returned; [k] counts the random draws before. *)
Definition run_io {A} (fs : list fate) (k : nat) (c : IO A) (d : Disk) : result stop A * Disk :=
  let '(r, w) := c (mkWorld d fs k) in (r, disk w).

Lemma triple_run {A} P (c : IO A) Q C fs k d :
  triple P c Q C -> P d ->
  match run_io fs k c d with
  | (Ok a, d') => Q a d'
  | (Err _, d') => C d'
  end.
Proof.
  intros H Hd. specialize (H (mkWorld d fs k) Hd). unfold run_io.
  destruct (c _) as [[a|e] w]; by destruct H.
Qed.

(** Without faults it returns. *)
Lemma triple_world_ok {A} P (c : IO A) Q C k d :
  triple P c Q C -> P d -> exists a d' k', c (mkWorld d [] k) = (Ok a, mkWorld d' [] k') /\ Q a d'.
Proof.
  intros Hc Hd. specialize (Hc (mkWorld d [] k) Hd).
  destruct (c _) as [[a|e] [d' fs k']]; [|by destruct Hc as [_ []%faulted_nil]].
  destruct Hc as [Hq Hf]. cbn in *. apply uses_nil in Hf as ->. eauto 10.
Qed.

Lemma triple_run_ok {A} P (c : IO A) Q C k d :
  triple P c Q C -> P d -> exists a d', run_io [] k c d = (Ok a, d') /\ Q a d'.
Proof.
  intros H Hd. specialize (H (mkWorld d [] k) Hd). unfold run_io.
  destruct (c _) as [[a|e] w]; [|by destruct H as [_ []%faulted_nil]]. destruct H. eauto.
Qed.

(** [c] started over and over, each time with its own fates. *)
Fixpoint interrupted (schedule : list (list fate * nat)) (c : IO unit) (d : Disk) : Disk :=
  match schedule with
  | [] => d
  | (fs, k) :: schedule' => interrupted schedule' c (snd (run_io fs k c d))
  end.

Lemma interrupted_inv (C : Disk -> Prop) c Q schedule d :
  triple C c Q C -> (forall a d, Q a d -> C d) -> C d -> C (interrupted schedule c d).
Proof.
  intros Hc HQ. revert d. induction schedule as [|[fs k] schedule IH]; intros d Hd; [done|]. cbn.
  apply IH. pose proof (triple_run _ _ _ _ fs k d Hc Hd) as H. destruct (run_io fs k c d) as [[a|e] d']; [by eapply HQ|done].
Qed.
