(* ===== verification/Crypto.v ===== *)
(** * Encryption and chunk names

    Models [crates/core/src/crypto/chacha.rs] (the layout of encrypted data) and
    [crates/core/src/crypto/blake3.rs] (the names of chunks). BLAKE3, the AEAD and the
    random generator are external: the class [Crypto] holds them and [CryptoLaws] what
    their documentation promises. Serialization by serde_json is external too: [Serde]
    and [SerdeLaw]. *)

From Stdlib Require Import Strings.Byte Ascii String.
From stdpp Require Import base gmap strings list.
From S2P Require Import Prelude.
From S2P Require Import CatalogNode.
From S2P Require Import Bytes.
From S2P Require Import Storage.
Open Scope Z_scope.

Definition NONCE_SIZE : nat := 12.
Definition TAG_SIZE : nat := 16.
Definition KEY_SIZE : nat := 32.

(** ** What comes from outside *)

Class Crypto := {
  blake3 : list byte -> list byte;
  random_nonce : nat -> list byte;
  aead_encrypt (key nonce aad msg : list byte) : option (list byte);
  aead_decrypt (key nonce aad ciphertext : list byte) : option (list byte);
}.

Class CryptoLaws (cr : Crypto) : Prop := {
  blake3_length m : length (blake3 m) = KEY_SIZE;
  random_length k : length (random_nonce k) = NONCE_SIZE;
  aead_length key nonce aad msg c :
    aead_encrypt key nonce aad msg = Some c -> length c = (length msg + TAG_SIZE)%nat;
  aead_opens key nonce aad msg c :
    aead_encrypt key nonce aad msg = Some c -> aead_decrypt key nonce aad c = Some msg;
}.

Class Serde (A : Type) := {
  to_vec : A -> option (list byte);
  from_slice : list byte -> option A;
}.

Class SerdeLaw (A : Type) `{Serde A} : Prop :=
  from_to_vec (x : A) bs : to_vec x = Some bs -> from_slice bs = Some x.

(** ** Encryption *)

Section Encryption.
Context `{cr : Crypto}.

(** [getrandom(&mut nonce_bytes)]: a call to the system, with a fate. *)
Definition getrandom : IO (list byte) := fun w =>
  let '(r, w') := call (fun d => (Ok (random_nonce (draws w)), d)) w in
  (r, mkWorld (disk w') (fates w') (S (draws w'))).

Definition encrypt (plaintext key aad : list byte) : IO (list byte) :=
  nonce ← io_map_err (fun _ => EncryptionFailed "getrandom") getrandom;
  ciphertext ← io_lift (ok_or (aead_encrypt key nonce aad plaintext) (EncryptionFailed "aead"));
  mret (nonce ++ ciphertext).

Definition decrypt (encrypted key aad : list byte) : result Error (list byte) :=
  if (length encrypted <? NONCE_SIZE + TAG_SIZE)%nat
  then Err (InvalidDataFormat (String.append "encrypted data too short: "
         (String.append (show_u64 (Z.of_nat (length encrypted)))
            (String.append " bytes (minimum " (String.append (show_u64 (Z.of_nat (NONCE_SIZE + TAG_SIZE))) ")")))))
  else ok_or (aead_decrypt key (take NONCE_SIZE encrypted) aad (drop NONCE_SIZE encrypted))
         (DecryptionFailed "authentication failed").

(** [serde_json::to_vec(x)?] followed by [encrypt]. *)
Definition seal {A} `{Serde A} (x : A) (key aad : list byte) : IO (list byte) :=
  plain ← io_lift (ok_or (to_vec x) (SerializationError "to_vec"));
  encrypt plain key aad.

(** A value that serializes, into a message the cipher accepts. *)
Definition sealable {A} `{Serde A} (key aad : list byte) (x : A) : Prop :=
  exists plain, to_vec x = Some plain /\ forall nonce, is_Some (aead_encrypt key nonce aad plain).

(** [bs] is an encryption of [x] under [key] and [aad]. *)
Definition opens_to {A} `{Serde A} (key aad bs : list byte) (x : A) : Prop :=
  exists plain, decrypt bs key aad = Ok plain /\ from_slice plain = Some x.

Context {crl : CryptoLaws cr}.

Lemma decrypt_of_encrypted key nonce aad msg c :
  length nonce = NONCE_SIZE -> aead_encrypt key nonce aad msg = Some c ->
  decrypt (nonce ++ c) key aad = Ok msg.
Proof.
  intros Hn Hc. unfold decrypt. rewrite length_app, (aead_length _ _ _ _ _ Hc), Hn.
  destruct (Nat.ltb_spec (NONCE_SIZE + (length msg + TAG_SIZE)) (NONCE_SIZE + TAG_SIZE)); [lia|].
  rewrite take_app_length', drop_app_length' by done. by rewrite (aead_opens _ _ _ _ _ Hc).
Qed.

Lemma triple_getrandom (P C : Disk -> Prop) :
  (forall d, P d -> C d) -> triple P getrandom (fun bs d => length bs = NONCE_SIZE /\ P d) C.
Proof.
  intros HC w Hw. unfold getrandom.
  assert (triple P (call (fun d => (Ok (random_nonce (draws w)), d))) (fun bs d => length bs = NONCE_SIZE /\ P d) C) as H.
  { apply triple_call. intros d Hd. cbn. split_and!; [auto..|]. eexists. split; [done|]. by split; [apply random_length|]. }
  specialize (H w Hw). by destruct (call _ w) as [[a|e] w'].
Qed.

Lemma triple_encrypt plain key aad (P C : Disk -> Prop) :
  (forall nonce, is_Some (aead_encrypt key nonce aad plain)) -> (forall d, P d -> C d) ->
  triple P (encrypt plain key aad) (fun bs d => decrypt bs key aad = Ok plain /\ P d) C.
Proof.
  intros Hok HC. unfold encrypt.
  apply (triple_bind _ _ _ (fun nonce d => length nonce = NONCE_SIZE /\ P d)).
  { intros w Hw. pose proof (triple_getrandom P C HC w Hw) as H1. unfold io_map_err, attempt, mbind, IO_bind.
    destruct (getrandom w) as [[n|[e|]] w']; cbn; destruct H1; by split. }
  intros nonce. apply triple_pure. intros Hn. destruct (Hok nonce) as [c Hc]. rewrite Hc.
  apply (triple_bind _ _ _ (fun c' d => c' = c /\ P d)); [by eapply triple_lift|]. intros c'.
  apply triple_pure. intros ->. apply triple_ret. intros d Hd. split; [|done]. by apply decrypt_of_encrypted.
Qed.

(** Sealing does not touch the disk, and what it returns opens again. *)
Lemma triple_seal {A} `{SerdeLaw A} (x : A) key aad (P C : Disk -> Prop) :
  sealable key aad x -> (forall d, P d -> C d) ->
  triple P (seal x key aad) (fun bs d => opens_to key aad bs x /\ P d) C.
Proof.
  intros (plain & Hv & Hok) HC. unfold seal. rewrite Hv.
  apply (triple_bind _ _ _ (fun p d => p = plain /\ P d)); [by eapply triple_lift|]. intros p.
  apply triple_pure. intros ->. eapply triple_conseq; [by apply (triple_encrypt plain key aad P C)|done| |done].
  intros bs d [Hd ?]. split; [|done]. exists plain. split; [done|by apply from_to_vec].
Qed.
End Encryption.

(** ** Names of chunks *)

Section Names.
Context `{cr : Crypto}.

(** [HEX_CHARS[i]]. *)
Definition hex_char (i : Z) : ascii :=
  ascii_of_N (Z.to_N (if i <? 10 then 48 + i else 87 + i)).

Fixpoint hex_encode (data : list byte) : string :=
  match data with
  | [] => EmptyString
  | b :: data' =>
      String (hex_char (Z.shiftr (Z_of_byte b) 4))
        (String (hex_char (Z.land (Z_of_byte b) 15)) (hex_encode data'))
  end.

(** [s.as_bytes()]. *)
Fixpoint as_bytes (s : string) : list byte :=
  match s with
  | EmptyString => []
  | String c s' => byte_of_ascii c :: as_bytes s'
  end.

Definition chunk_name (vault_key context : list byte) (index : Z) : string :=
  hex_encode (blake3 (vault_key ++ context ++ to_le_bytes 4 index)).

Definition chunk_name_u64 (vault_key context : list byte) (index : Z) : string :=
  hex_encode (blake3 (vault_key ++ context ++ to_le_bytes 8 index)).

Definition ROOT_INDEX_CONTEXT : string := "catalog:root".
Definition CATALOG_COMMIT_CONTEXT : string := "catalog:commit".
Definition BLOB_CONTEXT : string := "blob".

Definition root_index_chunk_name (vault_key : list byte) (index : Z) : string :=
  chunk_name vault_key (as_bytes ROOT_INDEX_CONTEXT) index.

Definition catalog_commit_chunk_name (vault_key : list byte) : string :=
  chunk_name vault_key (as_bytes CATALOG_COMMIT_CONTEXT) 0.

Definition shard_chunk_name (vault_key : list byte) (shard_id : string) (index : Z) : string :=
  chunk_name vault_key (as_bytes (String.append "shard:" shard_id)) index.

Definition shard_snapshot_chunk_name (vault_key : list byte) (shard_id : string) (snapshot_seq : Z) : string :=
  if snapshot_seq =? 0 then shard_chunk_name vault_key shard_id 0
  else chunk_name_u64 vault_key (as_bytes (String.append "shard:" shard_id)) snapshot_seq.

Definition delta_chunk_name (vault_key : list byte) (shard_id : string) (sequence : Z) : string :=
  chunk_name_u64 vault_key (as_bytes (String.append "delta:" shard_id)) sequence.

(** [((node_id as u64) << 32) | (part_index as u64)]. *)
Definition blob_chunk_idx (node_id part_index : Z) : Z := Z.lor (Z.shiftl node_id 32) part_index.

Definition blob_chunk_name (vault_key : list byte) (node_id part_index : Z) : string :=
  chunk_name_u64 vault_key (as_bytes BLOB_CONTEXT) (blob_chunk_idx node_id part_index).

Definition CATALOG_CONTEXT : string := "catalog".
Definition OTP_CONTEXT : string := "otp".
Definition DERIVATIVE_INDEX_CONTEXT : string := "derivative-index".
Definition DERIVATIVE_WRITE_TX_CONTEXT : string := "derivative-write-tx".

Definition catalog_chunk_name (vault_key : list byte) (index : Z) : string :=
  chunk_name vault_key (as_bytes CATALOG_CONTEXT) index.

Definition otp_chunk_name (vault_key : list byte) (node_id : Z) : string :=
  chunk_name vault_key (as_bytes OTP_CONTEXT ++ to_le_bytes 8 node_id) 0.

(** ["{node_id}:{source_version}:{tier}:{version}"]. *)
Definition derivative_label (node_id source_version : Z) (tier : string) (version : Z) : string :=
  String.append (show_u64 node_id) (String.append ":" (String.append (show_u64 source_version)
    (String.append ":" (String.append tier (String.append ":" (show_u64 version)))))).

Definition derivative_chunk_name (vault_key : list byte) (node_id source_version : Z) (tier : string)
    (version part_index : Z) : string :=
  chunk_name vault_key
    (as_bytes (String.append "derivative:" (derivative_label node_id source_version tier version))) part_index.

Definition derivative_meta_chunk_name (vault_key : list byte) (node_id source_version : Z) (tier : string)
    (version : Z) : string :=
  chunk_name vault_key
    (as_bytes (String.append "derivative-meta:" (derivative_label node_id source_version tier version))) 0.

Definition derivative_index_chunk_name (vault_key : list byte) : string :=
  chunk_name vault_key (as_bytes DERIVATIVE_INDEX_CONTEXT) 0.

Definition derivative_write_tx_marker_name (vault_key : list byte) : string :=
  chunk_name vault_key (as_bytes DERIVATIVE_WRITE_TX_CONTEXT) 0.
End Names.

(** ** Names are valid and, where BLAKE3 does not collide, distinct *)

Lemma hex_chars_valid b :
  is_hex_digit (hex_char (Z.shiftr (Z_of_byte b) 4)) && is_hex_digit (hex_char (Z.land (Z_of_byte b) 15)) = true.
Proof. destruct b; reflexivity. Qed.

Definition unhex (c : ascii) : Z :=
  let n := Z.of_N (N_of_ascii c) in if n <? 97 then n - 48 else n - 87.

Lemma unhex_hex b :
  byte_of_Z (unhex (hex_char (Z.shiftr (Z_of_byte b) 4)) * 16 + unhex (hex_char (Z.land (Z_of_byte b) 15))) = b.
Proof. destruct b; reflexivity. Qed.

Lemma hex_encode_inj xs ys : hex_encode xs = hex_encode ys -> xs = ys.
Proof.
  revert ys. induction xs as [|x xs IH]; intros [|y ys]; cbn [hex_encode]; [done|discriminate..|].
  intros E. injection E as E1 E2 E3. apply IH in E3 as ->. f_equal.
  by rewrite <- (unhex_hex x), E1, E2, unhex_hex.
Qed.

Lemma valid_name_ok n : valid_name n = true -> validate_chunk_name n = Ok tt.
Proof. unfold valid_name. by destruct (validate_chunk_name n) as [[]|e]. Qed.

Lemma hex_encode_valid bs : length bs = KEY_SIZE -> valid_name (hex_encode bs) = true.
Proof.
  intros Hl. unfold valid_name, validate_chunk_name.
  assert (String.length (hex_encode bs) = (2 * length bs)%nat) as ->.
  { clear Hl. induction bs as [|b bs IH]; cbn; lia. }
  rewrite Hl. cbn [negb Nat.eqb Nat.mul Nat.add KEY_SIZE].
  assert (all_chars is_hex_digit (hex_encode bs) = true) as ->; [|done].
  clear Hl. induction bs as [|b bs IH]; cbn [hex_encode all_chars]; [done|].
  pose proof (hex_chars_valid b) as [H1 H2]%andb_true_iff. by rewrite H1, H2, IH.
Qed.

(** The catalog's chunks, and what is hashed for the name of each. *)
Inductive chunk_ref :=
  | RootRef
  | CommitRef
  | SnapshotRef (shard_id : string) (snapshot_seq : Z)
  | DeltaRef (shard_id : string) (sequence : Z).

Definition ref_context (r : chunk_ref) : string :=
  match r with
  | RootRef => ROOT_INDEX_CONTEXT
  | CommitRef => CATALOG_COMMIT_CONTEXT
  | SnapshotRef id _ => String.append "shard:" id
  | DeltaRef id _ => String.append "delta:" id
  end.

Definition ref_index (r : chunk_ref) : list byte :=
  match r with
  | RootRef | CommitRef => to_le_bytes 4 0
  | SnapshotRef _ seq => if seq =? 0 then to_le_bytes 4 0 else to_le_bytes 8 seq
  | DeltaRef _ seq => to_le_bytes 8 seq
  end.

Definition ref_preimage (key : list byte) (r : chunk_ref) : list byte :=
  key ++ as_bytes (ref_context r) ++ ref_index r.

(** Sequence numbers a vault can reach; shard ids are node names, which hold no NUL. *)
Definition ref_ok (r : chunk_ref) : Prop :=
  match r with
  | RootRef | CommitRef => True
  | SnapshotRef id seq => contains_char nul id = false /\ 0 <= seq < 2 ^ 24
  | DeltaRef id seq => 0 <= seq < 2 ^ 64
  end.

Section NameFacts.
Context `{cr : Crypto} {crl : CryptoLaws cr}.

Definition ref_name (key : list byte) (r : chunk_ref) : string :=
  match r with
  | RootRef => root_index_chunk_name key 0
  | CommitRef => catalog_commit_chunk_name key
  | SnapshotRef id seq => shard_snapshot_chunk_name key id seq
  | DeltaRef id seq => delta_chunk_name key id seq
  end.

Lemma ref_name_eq key r : ref_name key r = hex_encode (blake3 (ref_preimage key r)).
Proof.
  destruct r; try reflexivity. unfold ref_name, shard_snapshot_chunk_name, ref_preimage, ref_index.
  destruct (Z.eqb_spec snapshot_seq 0); reflexivity.
Qed.

Lemma ref_name_valid key r : valid_name (ref_name key r) = true.
Proof. rewrite ref_name_eq. apply hex_encode_valid, blake3_length. Qed.

Lemma chunk_name_valid key ctx i : valid_name (chunk_name key ctx i) = true.
Proof. apply hex_encode_valid, blake3_length. Qed.

Lemma chunk_name_u64_valid key ctx i : valid_name (chunk_name_u64 key ctx i) = true.
Proof. apply hex_encode_valid, blake3_length. Qed.

(** C38: the two functions that chunk names are derived with give names the storage accepts,
    64 lowercase hexadecimal digits, for every key, context and index: so do the names of
    the catalog, of blobs, secrets and derivatives, and every marker and backup name, whose
    context other modules put together. *)
Theorem chunk_names_valid key i j n v tier sid :
  (forall context index, validate_chunk_name (chunk_name key context index) = Ok tt)
  /\ (forall context index, validate_chunk_name (chunk_name_u64 key context index) = Ok tt)
  /\ Forall (fun name => validate_chunk_name name = Ok tt)
    [catalog_chunk_name key i; root_index_chunk_name key i; catalog_commit_chunk_name key;
     shard_chunk_name key sid i; shard_snapshot_chunk_name key sid i; delta_chunk_name key sid i;
     blob_chunk_name key n i; otp_chunk_name key n; derivative_chunk_name key n v tier i j;
     derivative_meta_chunk_name key n v tier i; derivative_index_chunk_name key; derivative_write_tx_marker_name key].
Proof.
  assert (forall ctx i, validate_chunk_name (chunk_name key ctx i) = Ok tt) as H32.
  { intros ctx k. apply valid_name_ok, chunk_name_valid. }
  assert (forall ctx i, validate_chunk_name (chunk_name_u64 key ctx i) = Ok tt) as H64.
  { intros ctx k. apply valid_name_ok, chunk_name_u64_valid. }
  split_and!; [exact H32|exact H64|].
  unfold shard_snapshot_chunk_name, catalog_chunk_name, root_index_chunk_name, catalog_commit_chunk_name,
    shard_chunk_name, delta_chunk_name, blob_chunk_name, otp_chunk_name, derivative_chunk_name,
    derivative_meta_chunk_name, derivative_index_chunk_name, derivative_write_tx_marker_name.
  destruct (i =? 0); repeat apply Forall_cons_2; try apply Forall_nil_2;
    lazymatch goal with
    | |- validate_chunk_name (chunk_name _ _ _) = _ => apply H32
    | |- validate_chunk_name (chunk_name_u64 _ _ _) = _ => apply H64
    end.
Qed.
End NameFacts.

Lemma as_bytes_app s t : as_bytes (String.append s t) = as_bytes s ++ as_bytes t.
Proof. induction s as [|c s IH]; [done|]. change (String.append (String c s) t) with (String c (String.append s t)).
  cbn [as_bytes]. by rewrite IH. Qed.

Lemma as_bytes_inj s t : as_bytes s = as_bytes t -> s = t.
Proof.
  revert t. induction s as [|a s IH]; intros [|b t]; cbn [as_bytes]; [done|discriminate..|].
  intros [= E1 E2]. f_equal; [|by apply IH].
  by rewrite <- (ascii_of_byte_of_ascii a), E1, ascii_of_byte_of_ascii.
Qed.

Lemma as_bytes_no_nul s : contains_char nul s = false -> x00 ∉ as_bytes s.
Proof.
  induction s as [|c s IH]; [intros _ H; by apply elem_of_nil in H|].
  cbn [contains_char as_bytes]. intros [Hc Hs]%orb_false_iff. intros [E|H]%elem_of_cons; [|by apply IH].
  apply Ascii.eqb_neq in Hc. apply Hc. rewrite <- (ascii_of_byte_of_ascii c), <- E. reflexivity.
Qed.

(** The fourth byte of a sequence number below [2^24] is zero. *)
Lemma le_bytes_small seq : 0 <= seq < 2 ^ 24 -> x00 ∈ take 4 (to_le_bytes 8 seq).
Proof.
  intros H. unfold to_le_bytes. cbn [to_be_bytes app rev take].
  replace (((seq `div` 256) `div` 256) `div` 256) with 0.
  - do 3 right. left.
  - rewrite !Z.div_div by lia. symmetry. apply Z.div_small. lia.
Qed.

Lemma snapshot_kinds_apart id id' seq :
  ref_ok (SnapshotRef id 0) -> 0 <= seq < 2 ^ 24 ->
  as_bytes id ++ to_le_bytes 4 0 <> as_bytes id' ++ to_le_bytes 8 seq.
Proof.
  intros [Hnul _] Hs E. apply (as_bytes_no_nul id Hnul).
  assert (as_bytes id = as_bytes id' ++ take 4 (to_le_bytes 8 seq)) as ->.
  { apply (f_equal (take (length (as_bytes id)))) in E as E'.
    rewrite take_app_length in E'. rewrite E', take_app. f_equal.
    - apply (f_equal length) in E. rewrite !length_app, !length_to_le_bytes in E.
      rewrite take_ge by lia. done.
    - apply (f_equal length) in E. rewrite !length_app, !length_to_le_bytes in E. f_equal. lia. }
  apply elem_of_app. right. by apply le_bytes_small.
Qed.

Lemma app_tail_inj (xs ys : list byte) n a b :
  xs ++ to_le_bytes n a = ys ++ to_le_bytes n b -> xs = ys /\ to_le_bytes n a = to_le_bytes n b.
Proof. intros E. apply app_inj_2 in E; [done|]. by rewrite !length_to_le_bytes. Qed.

(** What is hashed for two different chunks of a catalog differs. *)
Lemma ref_preimage_inj key r1 r2 :
  ref_ok r1 -> ref_ok r2 -> ref_preimage key r1 = ref_preimage key r2 -> r1 = r2.
Proof.
  intros H1 H2 E. apply app_inv_head in E.
  destruct r1 as [| |i s|i s], r2 as [| |j t|j t]; cbn [ref_context ref_index] in E;
    rewrite ?as_bytes_app in E; try done; try discriminate E.
  - rewrite <- !app_assoc in E. apply app_inv_head in E. destruct (Z.eqb_spec s 0) as [->|Hs], (Z.eqb_spec t 0) as [->|Ht].
    + apply app_tail_inj in E as [->%as_bytes_inj _]. done.
    + by apply snapshot_kinds_apart in E; [|destruct H2..].
    + symmetry in E. by apply snapshot_kinds_apart in E; [|destruct H1..].
    + apply app_tail_inj in E as [->%as_bytes_inj E]. apply to_le_bytes_inj in E as ->; [done|..]; cbn in *; lia.
  - rewrite <- !app_assoc in E. apply app_inv_head in E. apply app_tail_inj in E as [->%as_bytes_inj E].
    apply to_le_bytes_inj in E as ->; [done|..]; cbn in *; lia.
Qed.

(** BLAKE3 does not collide on what is hashed for these chunks. *)
Definition no_collision `{Crypto} (key : list byte) (rs : list chunk_ref) : Prop :=
  forall r1 r2, r1 ∈ rs -> r2 ∈ rs ->
  blake3 (ref_preimage key r1) = blake3 (ref_preimage key r2) -> ref_preimage key r1 = ref_preimage key r2.

(** Different chunks of a catalog have different names. *)
Lemma ref_name_inj `{Crypto} key rs r1 r2 :
  no_collision key rs -> Forall ref_ok rs -> r1 ∈ rs -> r2 ∈ rs ->
  ref_name key r1 = ref_name key r2 -> r1 = r2.
Proof.
  intros Hnc Hok Hr1 Hr2 E. rewrite Forall_forall in Hok. rewrite !ref_name_eq in E.
  apply (ref_preimage_inj key); [by apply Hok..|]. apply Hnc; [done..|]. by apply hex_encode_inj.
Qed.

(** ** An instance

    The laws can hold: a polynomial hash, counting nonces and a cipher that appends
    an empty tag; bytes are written through [Countable]'s encoding. For the concrete
    runs of the theorems that assume the laws. *)

Definition toy_hash (m : list byte) : list byte :=
  to_be_bytes KEY_SIZE (foldl (fun acc b => (acc * 257 + Z_of_byte b + 1) `mod` (2 ^ 31 - 1)) 0 m).

Definition toy_crypto : Crypto := {|
  blake3 := toy_hash;
  random_nonce k := to_be_bytes NONCE_SIZE (Z.of_nat k);
  aead_encrypt _ _ _ msg := Some (msg ++ replicate TAG_SIZE x00);
  aead_decrypt _ _ _ c := Some (take (length c - TAG_SIZE) c);
|}.

Lemma toy_crypto_laws : CryptoLaws toy_crypto.
Proof.
  split; cbn [blake3 random_nonce aead_encrypt aead_decrypt toy_crypto].
  - intros m. exact (length_to_be_bytes KEY_SIZE _).
  - intros k. exact (length_to_be_bytes NONCE_SIZE _).
  - intros _ _ _ msg c [= <-]. by rewrite length_app.
  - intros _ _ _ msg c [= <-]. rewrite length_app, Nat.add_sub. f_equal. apply take_app_length.
Qed.

Fixpoint bits_of_pos (p : positive) : list byte :=
  match p with
  | xH => []
  | xO q => x00 :: bits_of_pos q
  | xI q => x01 :: bits_of_pos q
  end.

Fixpoint pos_of_bits (bs : list byte) : positive :=
  match bs with
  | [] => xH
  | x00 :: bs' => xO (pos_of_bits bs')
  | _ :: bs' => xI (pos_of_bits bs')
  end.

Lemma pos_of_bits_of_pos p : pos_of_bits (bits_of_pos p) = p.
Proof. induction p; cbn; congruence. Qed.

(** Serialization through a faithful view [f] of [A] in a countable type. *)
Definition view_serde {A B} `{Countable B} (f : A -> B) (g : B -> A) : Serde A := {|
  to_vec x := Some (bits_of_pos (encode (f x)));
  from_slice bs := g <$> decode (pos_of_bits bs);
|}.

Lemma view_serde_law {A B} `{Countable B} (f : A -> B) (g : B -> A) :
  (forall x, g (f x) = x) -> @SerdeLaw A (view_serde f g).
Proof.
  intros Hfg x bs. unfold to_vec, from_slice, view_serde. intros [= <-].
  rewrite pos_of_bits_of_pos, decode_encode. cbn. by rewrite Hfg.
Qed.

Lemma toy_sealable {A B} `{Countable B} (f : A -> B) (g : B -> A) key aad x :
  @sealable toy_crypto A (view_serde f g) key aad x.
Proof. exists (bits_of_pos (encode (f x))). split; [done|]. intros nonce. by eexists. Qed.

(** An encryption of [x] in this instance. *)
Definition toy_seal {A} `{Serde A} (x : A) : list byte :=
  to_be_bytes NONCE_SIZE 0 ++ default [] (to_vec x) ++ replicate TAG_SIZE x00.

Lemma toy_seal_opens {A B} `{Countable B} (f : A -> B) (g : B -> A) key aad x :
  (forall x, g (f x) = x) ->
  @opens_to toy_crypto A (view_serde f g) key aad (@toy_seal A (view_serde f g) x) x.
Proof.
  intros Hfg. exists (bits_of_pos (encode (f x))). split.
  - apply (decrypt_of_encrypted (crl:=toy_crypto_laws) key (to_be_bytes NONCE_SIZE 0)); [|done].
    apply length_to_be_bytes.
  - by apply (view_serde_law f g Hfg).
Qed.

Lemma chunk_names_valid_witness :
  Forall (fun name => validate_chunk_name name = Ok tt)
    (let key := replicate KEY_SIZE x07 in
     [@catalog_chunk_name toy_crypto key 3; @root_index_chunk_name toy_crypto key 3; @catalog_commit_chunk_name toy_crypto key;
      @shard_chunk_name toy_crypto key "docs" 3; @shard_snapshot_chunk_name toy_crypto key "docs" 3;
      @delta_chunk_name toy_crypto key "docs" 3; @blob_chunk_name toy_crypto key 5 3; @otp_chunk_name toy_crypto key 5;
      @derivative_chunk_name toy_crypto key 5 7 "thumb" 3 4; @derivative_meta_chunk_name toy_crypto key 5 7 "thumb" 3;
      @derivative_index_chunk_name toy_crypto key; @derivative_write_tx_marker_name toy_crypto key]).
Proof.
  exact (proj2 (proj2 (@chunk_names_valid toy_crypto toy_crypto_laws (replicate KEY_SIZE x07) 3 4 5 7 "thumb" "docs"))).
Defined.
