(* ===== verification/IoLogic.v ===== *)
(** * Partial correctness of storage computations

    A logic for computations that may fail on their own, on the disk ([ensures]) and on
    the disk and a value in memory ([saves]). *)

From Stdlib Require Import Strings.Byte Ascii String.
From stdpp Require Import base gmap strings list.
From S2P Require Import Prelude.
From S2P Require Import CatalogNode.
From S2P Require Import Bytes.
From S2P Require Import Storage.
From S2P Require Import Crypto.
Open Scope Z_scope.

(** ** Partial correctness

    [ensures P c Q C]: from [P], [c] returns with [Q] or stops, at whatever fault, with the
    disk in [C]. Unlike [triple] it allows errors of the code's own. *)

Definition ensures {A} (P : Disk -> Prop) (c : IO A) (Q : A -> Disk -> Prop) (C : Disk -> Prop) : Prop :=
  forall w, P (disk w) ->
  match c w with
  | (Ok a, w') => Q a (disk w')
  | (Err _, w') => C (disk w')
  end.

(** The same for a computation on a value in memory. *)
Definition saves {S A} (P : S -> Disk -> Prop) (c : StIO S A) (Q : A -> S -> Disk -> Prop)
    (C : Disk -> Prop) : Prop :=
  forall s w, P s (disk w) ->
  match c s w with
  | (Ok a, s', w') => Q a s' (disk w')
  | (Err _, _, w') => C (disk w')
  end.

Section Ensures.
Context {A B : Type}.
Implicit Types (P C : Disk -> Prop) (Q : A -> Disk -> Prop).

Lemma ensures_triple P (c : IO A) Q C : triple P c Q C -> ensures P c Q C.
Proof. intros H w Hw. specialize (H w Hw). destruct (c w) as [[]]; by destruct H. Qed.

Lemma ensures_conseq P P' (c : IO A) Q Q' C :
  ensures P' c Q' C -> (forall d, P d -> P' d) -> (forall a d, Q' a d -> Q a d) -> ensures P c Q C.
Proof. intros H HP HQ w Hw. specialize (H w (HP _ Hw)). destruct (c w) as [[]]; auto. Qed.

Lemma ensures_crash P (c : IO A) Q C C' : ensures P c Q C' -> (forall d, C' d -> C d) -> ensures P c Q C.
Proof. intros H HC w Hw. specialize (H w Hw). destruct (c w) as [[]]; auto. Qed.

(** A fact about the disk before may be used after it, if it is kept. *)
Lemma ensures_known P (c : IO A) Q C : (forall d, P d -> ensures (eq d) c Q C) -> ensures P c Q C.
Proof. intros H w Hw. by apply (H _ Hw). Qed.

Lemma ensures_ret P (a : A) Q C : (forall d, P d -> Q a d) -> ensures P (mret a) Q C.
Proof. intros H w Hw. cbn. auto. Qed.

Lemma ensures_bind P (c : IO A) (f : A -> IO B) Q (R : B -> Disk -> Prop) C :
  ensures P c Q C -> (forall a, ensures (Q a) (f a) R C) -> ensures P (c ≫= f) R C.
Proof.
  intros Hc Hf w Hw. specialize (Hc w Hw). unfold mbind, IO_bind. destruct (c w) as [[a|e] w1]; [|done].
  by apply Hf.
Qed.

Lemma ensures_pure (phi : Prop) P (c : IO A) Q C :
  (phi -> ensures P c Q C) -> ensures (fun d => P d /\ phi) c Q C.
Proof. intros H w [Hw Hp]. by apply H. Qed.

Lemma ensures_when (phi : Prop) P (c : IO A) Q C :
  (phi -> ensures P c Q C) -> ensures (fun d => phi /\ P d) c Q C.
Proof. intros H w [Hp Hw]. by apply H. Qed.

Lemma ensures_lift P (r : result Error A) C :
  (forall d, P d -> C d) -> ensures P (io_lift r) (fun a d => P d /\ r = Ok a) C.
Proof. intros HC w Hw. unfold io_lift. destruct r; cbn; auto. Qed.

Lemma ensures_call P (eff : Disk -> result Error A * Disk) Q C :
  (forall d, P d -> C d /\ C (snd (eff d)) /\ forall a, fst (eff d) = Ok a -> Q a (snd (eff d))) ->
  ensures P (call eff) Q C.
Proof.
  intros H w Hw. destruct (H _ Hw) as (Hc & Hc' & Hq). unfold call.
  destruct (fates w) as [|[] fs]; cbn; try done; destruct (fst (eff (disk w))); cbn; auto.
Qed.

Lemma ensures_attempt P (c : IO A) Q C :
  ensures P c Q C ->
  ensures P (attempt c) (fun r d => match r with Ok a => Q a d | Err _ => C d end) C.
Proof. intros H w Hw. specialize (H w Hw). unfold attempt. by destruct (c w) as [[a|[e|]] w']. Qed.
End Ensures.

Section EnsuresOps.
Implicit Types (P C : Disk -> Prop).

Lemma ensures_named {A} P n (eff : Disk -> result Error A * Disk) Q C :
  (forall d, P d -> C d /\ C (snd (eff d)) /\ forall a, fst (eff d) = Ok a -> Q a (snd (eff d))) ->
  ensures P (io_lift (chunk_path n);; call eff) Q C.
Proof.
  intros H. apply (ensures_bind _ _ _ (fun _ => P)); [|intros _; by apply ensures_call].
  eapply (ensures_conseq P P); [apply ensures_lift; intros d Hd; by apply (H d)|done|by intros ?? []].
Qed.

Lemma ensures_read P n C :
  (forall d, P d -> C d) -> ensures P (read_chunk n) (fun bs d => P d /\ d !! n = Some bs) C.
Proof.
  intros HC. apply ensures_named. intros d Hd. cbn. split_and!; [auto..|].
  intros a Ha%ok_or_Ok_inv. done.
Qed.

Lemma ensures_exists P n C :
  (forall d, P d -> C d) -> ensures P (chunk_exists n) (fun b d => P d /\ b = bool_decide (is_Some (d !! n))) C.
Proof. intros HC. apply ensures_named. intros d Hd. cbn. split_and!; [auto..|]. by intros a [= <-]. Qed.

(** A read that is tried leaves the disk alone, and gives what is there if anything. *)
Lemma ensures_try_read P n C :
  (forall d, P d -> C d) ->
  ensures P (attempt (read_chunk n)) (fun r d => P d /\ forall bs, r = Ok bs -> d !! n = Some bs) C.
Proof.
  intros HC. apply (ensures_crash _ _ _ _ P); [|done]. eapply (ensures_conseq P P).
  - apply ensures_attempt. by apply (ensures_read P n P).
  - done.
  - intros [bs|e] d; cbn; [intros [? ?]; split; [done|]; by intros ? [= <-]|]. intros ?. by split.
Qed.

Lemma ensures_write P n bs C :
  (forall d, P d -> C d) -> (forall d, P d -> C (<[n := bs]> d)) ->
  ensures P (write_chunk_atomic n bs) (fun _ d => exists d0, P d0 /\ d = <[n := bs]> d0) C.
Proof. intros HC HC'. apply ensures_named. intros d Hd. cbn. split_and!; eauto. Qed.
End EnsuresOps.

Section EnsuresSeal.
Context `{cr : Crypto} {crl : CryptoLaws cr}.

Lemma ensures_encrypt plain key aad (P C : Disk -> Prop) :
  (forall d, P d -> C d) ->
  ensures P (encrypt plain key aad) (fun bs d => P d /\ decrypt bs key aad = Ok plain) C.
Proof.
  intros HC. unfold encrypt.
  apply (ensures_bind _ _ _ (fun nonce d => P d /\ length nonce = NONCE_SIZE)).
  { intros w Hw. pose proof (triple_getrandom P C HC w Hw) as H1. unfold io_map_err, attempt, mbind, IO_bind.
    destruct (getrandom w) as [[n|[e|]] w']; cbn; destruct H1 as [H1 ?]; try done. by destruct H1. }
  intros nonce. apply ensures_pure. intros Hn. eapply ensures_bind; [by apply ensures_lift|].
  intros c. apply ensures_pure. intros Hc%ok_or_Ok_inv. apply ensures_ret. intros d Hd. split; [done|].
  by apply decrypt_of_encrypted.
Qed.

Lemma ensures_seal {A} `{SerdeLaw A} (x : A) key aad (P C : Disk -> Prop) :
  (forall d, P d -> C d) ->
  ensures P (seal x key aad) (fun bs d => P d /\ opens_to key aad bs x) C.
Proof.
  intros HC. unfold seal. eapply ensures_bind; [by apply ensures_lift|]. intros plain.
  apply ensures_pure. intros Hp%ok_or_Ok_inv. eapply (ensures_conseq P P); [by apply ensures_encrypt|done|].
  intros bs d [Hd Ho]. split; [done|]. exists plain. split; [done|by apply from_to_vec].
Qed.
End EnsuresSeal.

Section Saves.
Context {S A B : Type}.
Implicit Types (P : S -> Disk -> Prop) (Q : A -> S -> Disk -> Prop) (C : Disk -> Prop).

Lemma saves_ret P (a : A) Q C : (forall s d, P s d -> Q a s d) -> saves P (mret a) Q C.
Proof. intros H s w Hw. cbn. auto. Qed.

Lemma saves_bind P (c : StIO S A) (f : A -> StIO S B) Q (R : B -> S -> Disk -> Prop) C :
  saves P c Q C -> (forall a, saves (Q a) (f a) R C) -> saves P (c ≫= f) R C.
Proof.
  intros Hc Hf s w Hw. specialize (Hc s w Hw). unfold mbind, StIO_bind. destruct (c s w) as [[[a|e] s1] w1]; [|done].
  by apply Hf.
Qed.

Lemma saves_conseq P P' (c : StIO S A) Q Q' C :
  saves P' c Q' C -> (forall s d, P s d -> P' s d) -> (forall a s d, Q' a s d -> Q a s d) -> saves P c Q C.
Proof. intros H HP HQ s w Hw. specialize (H s w (HP _ _ Hw)). destruct (c s w) as [[[]]]; auto. Qed.

Lemma saves_io P (c : IO A) Q C :
  (forall s, ensures (P s) c (fun a d => Q a s d) C) -> saves P (io c) Q C.
Proof. intros H s w Hw. specialize (H s w Hw). unfold io. by destruct (c w) as [[a|e] w']. Qed.

(** The state may be taken as fixed at the start of a computation. *)
Lemma saves_at P (c : StIO S A) Q C :
  (forall s0, saves (fun s d => P s d /\ s = s0) c Q C) -> saves P c Q C.
Proof. intros H s w Hw. by apply (H s s w). Qed.

Lemma saves_pure (phi : Prop) P (c : StIO S A) Q C :
  (phi -> saves P c Q C) -> saves (fun s d => P s d /\ phi) c Q C.
Proof. intros H s w [Hw Hp]. by apply H. Qed.

Lemma saves_exists {X} (P : X -> S -> Disk -> Prop) (c : StIO S A) Q C :
  (forall x, saves (P x) c Q C) -> saves (fun s d => exists x, P x s d) c Q C.
Proof. intros H s w [x Hw]. by apply (H x). Qed.
End Saves.

Lemma saves_state {S} (P : S -> Disk -> Prop) C : saves P st_get (fun st s d => P s d /\ st = s) C.
Proof. intros s w Hw. cbn. auto. Qed.

Lemma saves_on {S} (P : S -> Disk -> Prop) f (Q : S -> Disk -> Prop) C :
  (forall s d, P s d -> Q (f s) d) -> saves P (st_modify f) (fun _ => Q) C.
Proof. intros H s w Hw. cbn. auto. Qed.

Lemma saves_seq {S A B} (P : S -> Disk -> Prop) (c : StIO S A) (k : StIO S B) Q R C :
  saves P c (fun _ => Q) C -> saves Q k R C -> saves P (c;; k) R C.
Proof. intros Hc Hk. by apply (saves_bind _ _ _ (fun _ => Q)). Qed.

(** *** A known state

    Most steps start in a state that is known, with a fact about the disk. *)

Definition at_state {S} (g : S) (K : Disk -> Prop) (s : S) (d : Disk) : Prop := s = g /\ K d.

Section AtState.
Context {S A B : Type} (g : S).
Implicit Types (K C : Disk -> Prop).

Lemma at_intro (P : S -> Disk -> Prop) (c : StIO S A) Q C :
  (forall g, saves (at_state g (P g)) c Q C) -> saves P c Q C.
Proof. intros H s w Hw. by apply (H s). Qed.

Lemma at_on f K (k : StIO S A) Q C :
  saves (at_state (f g) K) k Q C -> saves (at_state g K) (st_modify f;; k) Q C.
Proof. intros H. apply (saves_seq _ _ _ (at_state (f g) K)); [|done]. apply saves_on. by intros s d [-> ?]. Qed.

Lemma at_on_last f K (Q : unit -> S -> Disk -> Prop) C :
  (forall d, K d -> Q tt (f g) d) -> saves (at_state g K) (st_modify f) Q C.
Proof. intros H s w [-> Hw]. cbn. auto. Qed.

Lemma at_get K (k : S -> StIO S A) Q C :
  saves (at_state g K) (k g) Q C -> saves (at_state g K) (st_get ≫= k) Q C.
Proof.
  intros H s w [-> Hw]. unfold mbind, StIO_bind, st_get. by apply H.
Qed.

Lemma at_io K (c : IO A) (k : A -> StIO S B) Q R C :
  ensures K c Q C -> (forall a, saves (at_state g (Q a)) (k a) R C) ->
  saves (at_state g K) (io c ≫= k) R C.
Proof.
  intros Hc Hk. apply (saves_bind _ _ _ (fun a => at_state g (Q a))); [|done].
  intros s w [-> Hw]. specialize (Hc w Hw). unfold io. destruct (c w) as [[a|e] w']; [by split|done].
Qed.

Lemma at_bind K (c : StIO S A) (k : A -> StIO S B) Q R C :
  saves (at_state g K) c Q C -> (forall a g', saves (at_state g' (Q a g')) (k a) R C) ->
  saves (at_state g K) (c ≫= k) R C.
Proof. intros Hc Hk. apply (saves_bind _ _ _ Q); [done|]. intros a s w Hw. by apply (Hk a s). Qed.

Lemma at_ret K (a : A) (Q : A -> S -> Disk -> Prop) C :
  (forall d, K d -> Q a g d) -> saves (at_state g K) (mret a) Q C.
Proof. intros H s w [-> Hw]. cbn. auto. Qed.

Lemma at_pure (phi : Prop) K (c : StIO S A) Q C :
  (phi -> saves (at_state g K) c Q C) -> saves (at_state g (fun d => K d /\ phi)) c Q C.
Proof. intros H s w [-> [Hw Hp]]. by apply (H Hp). Qed.

Lemma at_known K (c : StIO S A) Q C :
  (forall d, K d -> saves (at_state g (eq d)) c Q C) -> saves (at_state g K) c Q C.
Proof. intros H s w [-> Hw]. by apply (H _ Hw). Qed.
End AtState.

(** ** Total correctness with memory

    Like [triple], with a value in memory: from [P], [c] returns with [Q] or stops at a
    fault with the memory and the disk in [C]; without faults it returns. *)

Definition st_triple {S A} (P : S -> Disk -> Prop) (c : StIO S A) (Q : A -> S -> Disk -> Prop)
    (C : S -> Disk -> Prop) : Prop :=
  forall s w, P s (disk w) ->
  match c s w with
  | (Ok a, s', w') => Q a s' (disk w') /\ uses (fates w) (fates w')
  | (Err _, s', w') => C s' (disk w') /\ faulted (fates w) (fates w')
  end.

Section StTriple.
Context {S A B : Type}.
Implicit Types (P : S -> Disk -> Prop) (Q : A -> S -> Disk -> Prop) (C : S -> Disk -> Prop).

Lemma st_triple_ret P (a : A) Q C : (forall s d, P s d -> Q a s d) -> st_triple P (mret a) Q C.
Proof. intros H s w Hw. cbn. split; [auto|apply uses_refl]. Qed.

Lemma st_triple_bind P (c : StIO S A) (f : A -> StIO S B) Q (R : B -> S -> Disk -> Prop) C :
  st_triple P c Q C -> (forall a, st_triple (Q a) (f a) R C) -> st_triple P (c ≫= f) R C.
Proof.
  intros Hc Hf s w Hw. specialize (Hc s w Hw). unfold mbind, StIO_bind.
  destruct (c s w) as [[[a|e] s1] w1]; [|done]. destruct Hc as [Hq Hn].
  specialize (Hf a s1 w1 Hq). destruct (f a s1 w1) as [[[b|e] s2] w2].
  - destruct Hf. split; [done|]. by eapply uses_trans.
  - destruct Hf. split; [done|]. by eapply uses_faulted.
Qed.

Lemma st_triple_io P (c : IO A) Q C :
  (forall s, triple (P s) c (fun a d => Q a s d) (C s)) -> st_triple P (io c) Q C.
Proof. intros H s w Hw. specialize (H s w Hw). unfold io. by destruct (c w) as [[a|e] w']. Qed.

Lemma st_triple_conseq P P' (c : StIO S A) Q Q' C C' :
  st_triple P' c Q' C' -> (forall s d, P s d -> P' s d) -> (forall a s d, Q' a s d -> Q a s d) ->
  (forall s d, C' s d -> C s d) -> st_triple P c Q C.
Proof.
  intros H HP HQ HC s w Hw. specialize (H s w (HP _ _ Hw)). destruct (c s w) as [[[a|e] s'] w']; destruct H; split; auto.
Qed.

Lemma st_triple_pure (phi : Prop) P (c : StIO S A) Q C :
  (phi -> st_triple P c Q C) -> st_triple (fun s d => phi /\ P s d) c Q C.
Proof. intros H s w [Hp Hw]. by apply H. Qed.

(** The memory and the disk may be taken as known at the start. *)
Lemma st_triple_known P (c : StIO S A) Q C :
  (forall s0 d0, P s0 d0 -> st_triple (fun s d => s = s0 /\ d = d0) c Q C) -> st_triple P c Q C.
Proof. intros H s w Hw. by apply (H _ _ Hw). Qed.

Lemma st_triple_get P (f : S -> StIO S A) Q C :
  (forall s0, st_triple (fun s d => s = s0 /\ P s d) (f s0) Q C) -> st_triple P (st_get ≫= f) Q C.
Proof. intros H s w Hw. unfold mbind, StIO_bind, st_get. by apply (H s). Qed.
End StTriple.

Lemma st_triple_modify {S} (P : S -> Disk -> Prop) f (Q : S -> Disk -> Prop) C :
  (forall s d, P s d -> Q (f s) d) -> st_triple P (st_modify f) (fun _ => Q) C.
Proof. intros H s w Hw. cbn. split; [auto|apply uses_refl]. Qed.

Lemma st_triple_seq {S A B} (P : S -> Disk -> Prop) (c : StIO S A) (k : StIO S B) Q R C :
  st_triple P c (fun _ => Q) C -> st_triple Q k R C -> st_triple P (c;; k) R C.
Proof. intros Hc Hk. by apply (st_triple_bind _ _ _ (fun _ => Q)). Qed.

Lemma triple_st_run {S A} (s : S) P (c : StIO S A) Q C :
  st_triple (fun s' d => s' = s /\ P d) c (fun a _ => Q a) (fun _ => C) -> triple P (st_run s c) Q C.
Proof. intros H w Hw. specialize (H s w (conj eq_refl Hw)). unfold st_run. by destruct (c s w) as [[[a|e] s'] w']. Qed.

(** [c?] for a computation that returns a result of its own. *)
Definition st_rbind {S E A B} (c : StIO S (result E A)) (k : A -> StIO S (result E B)) : StIO S (result E B) :=
  r ← c;
  match r with
  | Ok x => k x
  | Err e => mret (Err e)
  end.

(** ** A list of deletions *)

(** The disk without the chunks [ns]. *)
Definition without (ns : list string) (d : Disk) : Disk := foldl (fun d n => delete n d) d ns.

Lemma without_app ns ns' d : without (ns ++ ns') d = without ns' (without ns d).
Proof. apply foldl_app. Qed.

Lemma lookup_without ns d n : without ns d !! n = if bool_decide (n ∈ ns) then None else d !! n.
Proof.
  revert d. induction ns as [|m ns IH]; intros d; cbn [without foldl].
  - by rewrite bool_decide_false by apply not_elem_of_nil.
  - fold (without ns (delete m d)). rewrite IH. destruct (decide (n ∈ ns)) as [Hn|Hn].
    + rewrite !bool_decide_true by (by constructor || done). done.
    + rewrite (bool_decide_false (n ∈ ns)) by done. destruct (decide (n = m)) as [->|Hm].
      * rewrite bool_decide_true by set_solver. apply lookup_delete_eq.
      * rewrite bool_decide_false by set_solver. by apply lookup_delete_ne.
Qed.

(** ** Failures that are handled *)

(** [match c { Ok(x) => k(x), Err(e) => h(e) }]. *)
Definition catch {A B} (c : IO A) (h : Error -> IO B) (k : A -> IO B) : IO B :=
  r ← attempt c;
  match r with
  | Ok x => k x
  | Err e => h e
  end.

Lemma triple_catch {A B} P (c : IO A) (h : Error -> IO B) (k : A -> IO B) Q E R C :
  triple P c Q E -> (forall d, E d -> C d) -> (forall e, triple E (h e) R C) -> (forall x, triple (Q x) (k x) R C) ->
  triple P (catch c h k) R C.
Proof.
  intros Hc HE Hh Hk. eapply triple_bind.
  - eapply triple_conseq; [apply triple_attempt, Hc|done|by intros|exact HE].
  - intros [x|e]; auto.
Qed.

(** The disk may be taken as known at the start. *)
Lemma triple_known {A} P (c : IO A) Q C : (forall d, P d -> triple (eq d) c Q C) -> triple P c Q C.
Proof. intros H w Hw. by apply (H _ Hw). Qed.

(** [let _ = c]. *)
Definition ignore {A} (c : IO A) : IO unit := attempt c;; mret tt.

Lemma triple_ignore {A} P (c : IO A) (Q : A -> Disk -> Prop) R C :
  triple P c Q R -> (forall a d, Q a d -> R d) -> (forall d, R d -> C d) -> triple P (ignore c) (fun _ => R) C.
Proof.
  intros Hc HQ HR. eapply triple_bind.
  - eapply triple_conseq; [apply triple_attempt, Hc|done|by intros|exact HR].
  - intros [a|e]; apply triple_ret; eauto.
Qed.

(** ** One fault

    A world in which at most one call goes wrong, in whatever way. After the fault
    everything runs, so what handles it can be reasoned about without faults. *)

Definition one_fault (fs : list fate) : Prop := fs = [] \/ exists n f, fs = replicate n Runs ++ [f].

Lemma one_fault_tail f fs : one_fault (f :: fs) -> one_fault fs /\ (f <> Runs -> fs = []).
Proof.
  intros [?|(n & g & E)]; [done|]. destruct n as [|n]; cbn in E; injection E as -> ->.
  - split; [by left|done].
  - split; [right; by exists n, g|done].
Qed.

Lemma one_fault_uses fs fs' : one_fault fs -> uses fs fs' -> one_fault fs'.
Proof.
  intros Hof [pre ->]. induction pre as [|f pre IH]; [done|]. apply IH. by apply one_fault_tail in Hof as [? _].
Qed.

Lemma one_fault_faulted fs fs' : one_fault fs -> faulted fs fs' -> fs' = [].
Proof.
  intros Hof (pre & f & Hf & ->). assert (one_fault (f :: fs')) as H.
  { eapply one_fault_uses; [exact Hof|]. by exists pre. }
  apply one_fault_tail in H as [_ H]. auto.
Qed.

(** Without faults, from [P], [c] returns with [Q]. *)
Definition calm {A} (P : Disk -> Prop) (c : IO A) (Q : A -> Disk -> Prop) : Prop :=
  forall w, fates w = [] -> P (disk w) -> exists a w', c w = (Ok a, w') /\ Q a (disk w') /\ fates w' = [].

Section Calm.
Context {A B : Type}.
Implicit Types (P : Disk -> Prop) (Q : A -> Disk -> Prop).

Lemma calm_triple P (c : IO A) Q C : triple P c Q C -> calm P c Q.
Proof.
  intros H w Hf Hw. specialize (H w Hw). rewrite Hf in H. destruct (c w) as [[a|e] w'].
  - destruct H as [Hq Hu%uses_nil]. eauto 10.
  - by destruct H as [_ []%faulted_nil].
Qed.

Lemma calm_ret P (a : A) Q : (forall d, P d -> Q a d) -> calm P (mret a) Q.
Proof. intros H w Hf Hw. exists a, w. split_and!; [done|auto|done]. Qed.

Lemma calm_bind P (c : IO A) (k : A -> IO B) Q (R : B -> Disk -> Prop) :
  calm P c Q -> (forall a, calm (Q a) (k a) R) -> calm P (c ≫= k) R.
Proof.
  intros Hc Hk w Hf Hw. destruct (Hc w Hf Hw) as (a & w1 & E & Hq & Hf1). unfold mbind, IO_bind. rewrite E. by apply Hk.
Qed.

Lemma calm_conseq P P' (c : IO A) Q Q' :
  calm P' c Q' -> (forall d, P d -> P' d) -> (forall a d, Q' a d -> Q a d) -> calm P c Q.
Proof. intros H HP HQ w Hf Hw. destruct (H w Hf (HP _ Hw)) as (a & w' & E & Hq & Hf'). eauto 10. Qed.

Lemma calm_pure (phi : Prop) P (c : IO A) Q : (phi -> calm P c Q) -> calm (fun d => phi /\ P d) c Q.
Proof. intros H w Hf [Hp Hw]. by apply H. Qed.

Lemma calm_known P (c : IO A) Q : (forall d, P d -> calm (eq d) c Q) -> calm P c Q.
Proof. intros H w Hf Hw. by apply (H _ Hw). Qed.

Lemma calm_catch P (c : IO A) (h : Error -> IO B) (k : A -> IO B) Q (R : B -> Disk -> Prop) :
  calm P c Q -> (forall x, calm (Q x) (k x) R) -> calm P (catch c h k) R.
Proof.
  intros Hc Hk w Hf Hw. destruct (Hc w Hf Hw) as (a & w1 & E & Hq & Hf1).
  unfold catch, attempt, mbind, IO_bind. rewrite E. by apply Hk.
Qed.

Lemma calm_ignore P (c : IO A) (Q : Disk -> Prop) : calm P c (fun _ => Q) -> calm P (ignore c) (fun _ => Q).
Proof.
  intros Hc w Hf Hw. destruct (Hc w Hf Hw) as (a & w1 & E & Hq & Hf1).
  unfold ignore, attempt, mbind, IO_bind. rewrite E. cbn. eauto 10.
Qed.
End Calm.

Lemma calm_seq {A B} P (c : IO A) (k : IO B) (Q : Disk -> Prop) R :
  calm P c (fun _ => Q) -> calm Q k R -> calm P (c;; k) R.
Proof. intros Hc Hk. by apply (calm_bind _ _ _ (fun _ => Q)). Qed.

(** From [P], with at most one fault, [c] returns with [Q], fails with the disk in [F], or
    dies with the disk in [C]. *)
Definition single {A} (P : Disk -> Prop) (c : IO A) (Q : A -> Disk -> Prop) (F C : Disk -> Prop) : Prop :=
  forall w, one_fault (fates w) -> P (disk w) ->
  match c w with
  | (Ok a, w') => Q a (disk w') /\ uses (fates w) (fates w')
  | (Err (Failed _), w') => F (disk w') /\ faulted (fates w) (fates w')
  | (Err Crashed, w') => C (disk w') /\ faulted (fates w) (fates w')
  end.

Section Single.
Context {A B : Type}.
Implicit Types (P F C : Disk -> Prop) (Q : A -> Disk -> Prop).

Lemma single_triple P (c : IO A) Q C : triple P c Q C -> single P c Q C C.
Proof. intros H w _ Hw. specialize (H w Hw). by destruct (c w) as [[a|[e|]] w']. Qed.

Lemma single_ret P (a : A) Q F C : (forall d, P d -> Q a d) -> single P (mret a) Q F C.
Proof. intros H w _ Hw. split; [auto|apply uses_refl]. Qed.

Lemma single_conseq P P' (c : IO A) Q Q' F F' C C' :
  single P' c Q' F' C' -> (forall d, P d -> P' d) -> (forall a d, Q' a d -> Q a d) ->
  (forall d, F' d -> F d) -> (forall d, C' d -> C d) -> single P c Q F C.
Proof.
  intros H HP HQ HF HC w Hof Hw. specialize (H w Hof (HP _ Hw)).
  destruct (c w) as [[a|[e|]] w']; destruct H; split; auto.
Qed.

Lemma single_bind P (c : IO A) (k : A -> IO B) Q (R : B -> Disk -> Prop) F C :
  single P c Q F C -> (forall a, single (Q a) (k a) R F C) -> single P (c ≫= k) R F C.
Proof.
  intros Hc Hk w Hof Hw. specialize (Hc w Hof Hw). unfold mbind, IO_bind.
  destruct (c w) as [[a|[e|]] w1]; [|done..]. destruct Hc as [Hq Hu].
  specialize (Hk a w1 (one_fault_uses _ _ Hof Hu) Hq).
  destruct (k a w1) as [[b|[e|]] w2]; destruct Hk; (split; [done|]);
    [by eapply uses_trans|by eapply uses_faulted..].
Qed.

Lemma single_pure (phi : Prop) P (c : IO A) Q F C :
  (phi -> single P c Q F C) -> single (fun d => phi /\ P d) c Q F C.
Proof. intros H w Hof [Hp Hw]. by apply H. Qed.

Lemma single_fact (phi : Prop) P (c : IO A) Q F C :
  (forall d, P d -> phi) -> (phi -> single P c Q F C) -> single P c Q F C.
Proof. intros Hp H w Hof Hw. apply H; eauto. Qed.

Lemma single_exists {X} (P : X -> Disk -> Prop) (c : IO A) Q F C :
  (forall x, single (P x) c Q F C) -> single (fun d => exists x, P x d) c Q F C.
Proof. intros H w Hof [x Hw]. by apply (H x). Qed.

(** A handler runs without faults. *)
Lemma single_catch P (c : IO A) (h : Error -> IO B) (k : A -> IO B) Q E (R : B -> Disk -> Prop) F C :
  single P c Q E C -> (forall e, calm E (h e) R) -> (forall x, single (Q x) (k x) R F C) ->
  single P (catch c h k) R F C.
Proof.
  intros Hc Hh Hk w Hof Hw. specialize (Hc w Hof Hw). unfold catch, attempt, mbind, IO_bind.
  destruct (c w) as [[a|[e|]] w1]; [| |done].
  - destruct Hc as [Hq Hu]. specialize (Hk a w1 (one_fault_uses _ _ Hof Hu) Hq).
    destruct (k a w1) as [[b|[e|]] w2]; destruct Hk; (split; [done|]);
      [by eapply uses_trans|by eapply uses_faulted..].
  - destruct Hc as [He Hf]. pose proof (one_fault_faulted _ _ Hof Hf) as En.
    destruct (Hh e w1 En He) as (b & w2 & -> & Hr & E2). split; [done|]. rewrite E2, <- En. by apply faulted_uses.
Qed.
End Single.

Lemma single_seq {A B} P (c : IO A) (k : IO B) (Q : Disk -> Prop) R F C :
  single P c (fun _ => Q) F C -> single Q k R F C -> single P (c;; k) R F C.
Proof. intros Hc Hk. by apply (single_bind _ _ _ (fun _ => Q)). Qed.
