(* ===== verification/DurableTx.v ===== *)
(** * Durable transactions

    Models [crates/core/src/durable_tx]: the versioned, encrypted marker record by which
    a multi-step change of the storage survives a crash. The trait
    [DurableTxEncryptedParticipant] is a type class; the store's operations are
    functions of the participant. [TxContract] is what a participant promises, and
    [recover_settles] what the store makes of it: recovery, interrupted any number of
    times anywhere, settles the transaction. *)

From Stdlib Require Import Strings.Byte Ascii String.
From stdpp Require Import base gmap strings list.
From S2P Require Import Prelude.
From S2P Require Import CatalogNode.
From S2P Require Import Storage.
From S2P Require Import Crypto.
Open Scope Z_scope.

(** ** Records and participants *)

Inductive DurableTxPhase := Staging | Committing.

Record DurableTxRecord (T : Type) := mkTxRecord {
  tx_version : Z;
  tx_kind : string;
  tx_id : string;
  tx_phase : DurableTxPhase;
  tx_payload : T;
}.
Arguments mkTxRecord {T}.
Arguments tx_version {T}.
Arguments tx_kind {T}.
Arguments tx_id {T}.
Arguments tx_phase {T}.
Arguments tx_payload {T}.

(** The trait with its associated type [T]. Its unencrypted methods default to
    [Ok(())]. *)
Class DurableTxParticipant (P T : Type) := {
  KIND : string;
  VERSION : Z;
  marker_context : P -> string;
  marker_name : P -> list byte -> string;
  validate_payload : P -> T -> bool;
  rollback_staging : P -> option (list byte) -> DurableTxRecord T -> IO unit;
  recover_committing : P -> option (list byte) -> DurableTxRecord T -> IO unit;
  cleanup : P -> option (list byte) -> DurableTxRecord T -> IO unit;
}.
Arguments KIND P T {_}.
Arguments VERSION P T {_}.

Class DurableTxEncryptedParticipant (P T : Type) `{DurableTxParticipant P T} := {
  rollback_staging_encrypted : P -> list byte -> DurableTxRecord T -> IO unit;
  recover_committing_encrypted : P -> list byte -> DurableTxRecord T -> IO unit;
  cleanup_encrypted : P -> list byte -> DurableTxRecord T -> IO unit;
}.

(** ** The codec and the store *)

Section Store.
Context `{cr : Crypto}.
Context {P T : Type} `{DurableTxParticipant P T}.

Definition decode_record {TP} `{Serde (DurableTxRecord TP)} (bytes : list byte) : option (DurableTxRecord TP) :=
  match from_slice bytes with
  | Some record =>
      if (tx_version record =? VERSION P T) && String.eqb (tx_kind record) (KIND P T)
         && negb (string_is_empty (tx_id record))
      then Some record else None
  | None => None
  end.

Definition tx_record {TP} (id : string) (phase : DurableTxPhase) (payload : TP) : DurableTxRecord TP :=
  mkTxRecord (VERSION P T) (KIND P T) id phase payload.

Definition encode_record {TP} `{Serde (DurableTxRecord TP)} (id : string) (phase : DurableTxPhase)
    (payload : TP) : result Error (list byte) :=
  ok_or (to_vec (tx_record id phase payload)) (SerializationError "to_vec").

Definition validate_participant_record (participant : P) (record : DurableTxRecord T)
    : option (DurableTxRecord T) :=
  if validate_payload participant (tx_payload record) then Some record else None.

Context (vault_key : list byte) (participant : P).

Definition store_marker : string := marker_name participant vault_key.

Definition read_plaintext : IO (option (list byte)) :=
  exists_ ← chunk_exists store_marker;
  if negb exists_ then mret None else
  encrypted ← read_chunk store_marker;
  match decrypt encrypted vault_key (as_bytes store_marker) with
  | Ok plaintext => mret (Some plaintext)
  | Err _ => mret None
  end.

Definition read_record {TP} `{Serde (DurableTxRecord TP)} : IO (option (DurableTxRecord TP)) :=
  plaintext ← read_plaintext;
  match plaintext with
  | Some plaintext => mret (decode_record plaintext)
  | None => mret None
  end.

Definition read_participant_record `{Serde (DurableTxRecord T)} : IO (option (DurableTxRecord T)) :=
  record ← read_record;
  match record with
  | Some record => mret (validate_participant_record participant record)
  | None => mret None
  end.

Definition read_legacy_payload {TP} `{Serde TP} : IO (option TP) :=
  plaintext ← read_plaintext;
  match plaintext with
  | Some plaintext => mret (from_slice plaintext)
  | None => mret None
  end.

Definition write_record {TP} `{Serde (DurableTxRecord TP)} (id : string) (phase : DurableTxPhase)
    (payload : TP) : IO unit :=
  encrypted ← (plaintext ← io_lift (encode_record id phase payload);
               encrypt plaintext vault_key (as_bytes store_marker));
  write_chunk_atomic store_marker encrypted;;
  sync.

Definition write_staging `{Serde (DurableTxRecord T)} (id : string) (payload : T) : IO unit :=
  write_record id Staging payload.

Definition write_committing `{Serde (DurableTxRecord T)} (id : string) (payload : T) : IO unit :=
  write_record id Committing payload.

Definition delete_record : IO unit :=
  delete_chunk store_marker;;
  sync.

Definition store_delete : IO unit := delete_record.

(** ** Recovery *)

Definition recover_participant_record (key : option (list byte)) (record : DurableTxRecord T) : IO unit :=
  (match tx_phase record with
   | Staging => rollback_staging participant key record
   | Committing => recover_committing participant key record
   end);;
  cleanup participant key record.

Definition recover_participant `{Serde (DurableTxRecord T)} : IO unit :=
  record ← read_participant_record;
  match record with
  | Some record => recover_participant_record (Some vault_key) record;; store_delete
  | None => mret tt
  end.

Context `{!DurableTxEncryptedParticipant P T}.

Definition recover_encrypted_participant_record (record : DurableTxRecord T) : IO unit :=
  (match tx_phase record with
   | Staging => rollback_staging_encrypted participant vault_key record
   | Committing => recover_committing_encrypted participant vault_key record
   end);;
  cleanup_encrypted participant vault_key record.

Definition recover_encrypted_participant `{Serde (DurableTxRecord T)} : IO unit :=
  record ← read_participant_record;
  match record with
  | Some record => recover_encrypted_participant_record record;; store_delete
  | None => mret tt
  end.
End Store.
Arguments store_marker {P T _} vault_key participant.
Arguments read_participant_record {cr P T _} vault_key participant {_}.
Arguments read_legacy_payload {cr P T _} vault_key participant {TP _}.
Arguments write_staging {cr P T _} vault_key participant {_} id payload.
Arguments write_committing {cr P T _} vault_key participant {_} id payload.
Arguments delete_record {P T _} vault_key participant.
Arguments store_delete {P T _} vault_key participant.

(** ** What a participant promises

    [Staged], [Committed] and [Settled] speak of the disk without the marker: what a
    crash may leave under a staging marker, under a committing marker, and what holds
    once the transaction is over. *)

Record TxContract `{cr : Crypto} {P T : Type} `{DurableTxEncryptedParticipant P T}
    (key : list byte) (p : P) (Staged Committed Settled : DurableTxRecord T -> Disk -> Prop) : Prop := {
  tc_marker_valid : valid_name (store_marker key p) = true;
  tc_rollback r (m : option (list byte)) :
    tx_phase r = Staging ->
    triple (fun d => d !! store_marker key p = m /\ Staged r (delete (store_marker key p) d))
      (recover_encrypted_participant_record key p r)
      (fun _ d => d !! store_marker key p = m /\ Settled r (delete (store_marker key p) d))
      (fun d => d !! store_marker key p = m /\ Staged r (delete (store_marker key p) d));
  tc_recover r (m : option (list byte)) :
    tx_phase r = Committing ->
    triple (fun d => d !! store_marker key p = m /\ Committed r (delete (store_marker key p) d))
      (recover_encrypted_participant_record key p r)
      (fun _ d => d !! store_marker key p = m /\ Settled r (delete (store_marker key p) d))
      (fun d => d !! store_marker key p = m /\ Committed r (delete (store_marker key p) d));
  tc_rolled_back r d : tx_phase r = Staging -> Settled r d -> Staged r d;
  tc_recovered r d : tx_phase r = Committing -> Settled r d -> Committed r d;
}.

Section Recovery.
Context `{cr : Crypto} {crl : CryptoLaws cr}.
Context {P T : Type} `{DurableTxEncryptedParticipant P T} `{SerdeLaw (DurableTxRecord T)}.
Context (key : list byte) (p : P).
Abbreviation mk := (store_marker key p).

(** The record [r] is in the marker chunk, in a form the store accepts. *)
Definition accepted (r : DurableTxRecord T) : Prop :=
  tx_version r = VERSION P T /\ tx_kind r = KIND P T /\ string_is_empty (tx_id r) = false
  /\ validate_payload p (tx_payload r) = true.

Definition marked (r : DurableTxRecord T) (d : Disk) : Prop :=
  accepted r /\ exists bs, d !! mk = Some bs /\ opens_to key (as_bytes mk) bs r.

Lemma decode_accepted r plain :
  accepted r -> from_slice plain = Some r -> decode_record (P:=P) (T:=T) plain = Some r.
Proof.
  intros (Hv & Hk & Hi & _) E. unfold decode_record. rewrite E, Hv, Hk, Hi.
  by rewrite Z.eqb_refl, String.eqb_refl.
Qed.

Lemma triple_read_marked r (Q C : Disk -> Prop) :
  valid_name mk = true -> (forall d, Q d -> marked r d) -> (forall d, Q d -> C d) ->
  triple Q (read_participant_record key p) (fun o d => o = Some r /\ Q d) C.
Proof.
  intros Hv Hm HC.
  assert (triple Q (read_plaintext key p)
            (fun o d => (accepted r /\ exists plain, o = Some plain /\ from_slice plain = Some r) /\ Q d) C) as Hp.
  { apply (triple_bind _ _ _ (fun b d => b = true /\ Q d)).
    { apply triple_chunk_exists; [done..|]. intros d Hd. destruct (Hm d Hd) as (_ & bs & E & _).
      rewrite E. by split. }
    intros b. apply triple_pure. intros ->. cbn [negb].
    apply (triple_bind _ _ _ (fun bs d => (accepted r /\ opens_to key (as_bytes mk) bs r) /\ Q d)).
    { apply triple_read; [done..|]. intros d Hd. destruct (Hm d Hd) as (Ha & bs & E & Ho). eauto. }
    intros bs. apply triple_pure. intros [Ha (plain & -> & E)]. apply triple_ret. eauto. }
  unfold read_participant_record, read_record.
  apply (triple_bind _ _ _ (fun o d => (accepted r /\ o = Some r) /\ Q d)).
  { eapply triple_bind; [apply Hp|]. intros o. apply triple_pure. intros (Ha & plain & -> & E).
    apply triple_ret. intros d Hd. by rewrite (decode_accepted r plain). }
  intros o. apply triple_pure. intros [Ha ->]. apply triple_ret. intros d Hd. split; [|done].
  unfold validate_participant_record. destruct Ha as (_ & _ & _ & ->). done.
Qed.

Lemma triple_read_plain_unmarked (Q C : Disk -> Prop) :
  valid_name mk = true -> (forall d, Q d -> d !! mk = None) -> (forall d, Q d -> C d) ->
  triple Q (read_plaintext key p) (fun o d => o = None /\ Q d) C.
Proof.
  intros Hv Hm HC. apply (triple_bind _ _ _ (fun b d => b = false /\ Q d)).
  - apply triple_chunk_exists; [done..|]. intros d Hd. rewrite (Hm d Hd). by split.
  - intros b. apply triple_pure. intros ->. by apply triple_ret.
Qed.

Lemma triple_read_unmarked (Q C : Disk -> Prop) :
  valid_name mk = true -> (forall d, Q d -> d !! mk = None) -> (forall d, Q d -> C d) ->
  triple Q (read_participant_record key p) (fun o d => o = None /\ Q d) C.
Proof.
  intros Hv Hm HC. apply (triple_bind _ _ _ (fun o d => o = None /\ Q d)).
  - apply (triple_bind _ _ _ (fun o d => o = None /\ Q d)); [by apply triple_read_plain_unmarked|].
    intros o. apply triple_pure. intros ->. by apply triple_ret.
  - intros o. apply triple_pure. intros ->. by apply triple_ret.
Qed.

(** Writing the marker. *)
Lemma triple_write_record id phase (t : T) (Q C : Disk -> Prop) :
  valid_name mk = true -> sealable key (as_bytes mk) (tx_record (P:=P) (T:=T) id phase t) ->
  string_is_empty id = false -> validate_payload p t = true ->
  (forall d, Q d -> C d) ->
  (forall d d', Q d -> delete mk d' = delete mk d -> marked (tx_record (P:=P) (T:=T) id phase t) d' -> C d') ->
  triple Q (write_record key p id phase t)
    (fun _ d' => marked (tx_record (P:=P) (T:=T) id phase t) d' /\ exists d, Q d /\ delete mk d' = delete mk d) C.
Proof.
  intros Hv Hs Hid Hval HC Hmk. unfold write_record.
  eapply triple_bind; [by apply (triple_seal _ _ _ Q)|]. intros bs. apply triple_pure. intros Ho.
  assert (forall d, Q d -> marked (tx_record (P:=P) (T:=T) id phase t) (<[mk := bs]> d)
            /\ exists d0, Q d0 /\ delete mk (<[mk := bs]> d) = delete mk d0) as Hw.
  { intros d Hd. split.
    - split; [by split_and!|]. exists bs. by rewrite lookup_insert_eq.
    - exists d. split; [done|]. apply delete_insert_eq. }
  eapply triple_seq; [|apply triple_sync].
  - apply triple_write; [done..|]. intros d Hd. destruct (Hw d Hd) as [Hm (d0 & Hd0 & E)].
    split; [by eapply Hmk|]. eauto.
  - intros d (Hm & d0 & Hd0 & E). by eapply Hmk.
Qed.

(** ** Recovery settles *)

Context (Staged Committed Settled : DurableTxRecord T -> Disk -> Prop).
Context (contract : TxContract key p Staged Committed Settled).

(** The disk while a transaction of the family [tx] is in doubt, or over. *)
Definition settled (tx : DurableTxRecord T -> Prop) (d : Disk) : Prop :=
  exists r, tx r /\ d !! mk = None /\ Settled r (delete mk d).

Definition in_doubt (tx : DurableTxRecord T -> Prop) (d : Disk) : Prop :=
  (exists r, tx r /\ marked r d
     /\ match tx_phase r with
        | Staging => Staged r (delete mk d)
        | Committing => Committed r (delete mk d)
        end)
  \/ settled tx d.

Lemma triple_store_delete (Q C : Disk -> Prop) (R : Disk -> Prop) :
  valid_name mk = true -> (forall d, Q d -> C d) -> (forall d, Q d -> R (delete mk d)) ->
  (forall d, R d -> C d) -> triple Q (store_delete key p) (fun _ => R) C.
Proof.
  intros Hv HC HR HRC. eapply triple_seq; [|by apply triple_sync].
  apply triple_delete; [done..|]. intros d Hd. eauto.
Qed.

Lemma recover_settles_marked (tx : DurableTxRecord T -> Prop) r (A : Disk -> Prop) :
  tx r ->
  (forall m, triple (fun d => d !! mk = m /\ A (delete mk d)) (recover_encrypted_participant_record key p r)
     (fun _ d => d !! mk = m /\ Settled r (delete mk d)) (fun d => d !! mk = m /\ A (delete mk d))) ->
  (forall d, marked r d -> A (delete mk d) -> in_doubt tx d) ->
  (forall d, Settled r d -> A d) ->
  triple (fun d => marked r d /\ A (delete mk d)) (recover_encrypted_participant key p)
    (fun _ => settled tx) (in_doubt tx).
Proof.
  intros Htx Hrec Hdoubt Hset. pose proof (tc_marker_valid _ _ _ _ _ contract) as Hv.
  unfold recover_encrypted_participant.
  eapply triple_bind; [apply (triple_read_marked r (fun d => marked r d /\ A (delete mk d)))|].
  - done.
  - by intros d [? ?].
  - intros d [? ?]. by apply Hdoubt.
  - intros o. apply triple_pure. intros ->.
    apply (triple_seq _ _ _ (fun d => marked r d /\ Settled r (delete mk d))).
    + apply (triple_pre _ (fun d => exists m, (exists bs, m = Some bs /\ accepted r /\ opens_to key (as_bytes mk) bs r)
                                    /\ d !! mk = m /\ A (delete mk d))).
      * apply triple_exists. intros m. apply triple_pure. intros (bs & -> & Ha & Ho).
        eapply triple_conseq; [apply (Hrec (Some bs))|done|..].
        -- intros _ d [E Hs]. split; [by split; eauto|done].
        -- intros d [E Hs]. apply Hdoubt; [by split; eauto|done].
      * intros d [(Ha & bs & E & Ho) Hs]. exists (Some bs). eauto 10.
    + apply triple_store_delete; [done|..].
      * intros d [Hm Hs]. apply Hdoubt; auto.
      * intros d [Hm Hs]. exists r. rewrite lookup_delete_eq, delete_delete_eq. done.
      * intros d Hd. by right.
Qed.

(** Recovery of a transaction in doubt settles it; interrupted or failing at any call, it
    leaves it in doubt, so it can be run again. *)
Lemma recover_settles tx :
  triple (in_doubt tx) (recover_encrypted_participant key p) (fun _ => settled tx) (in_doubt tx).
Proof.
  apply triple_or.
  - apply triple_exists. intros r. apply triple_pure. intros Htx.
    destruct (tx_phase r) eqn:Ep; apply recover_settles_marked; try done.
    + intros m. by apply (tc_rollback _ _ _ _ _ contract).
    + intros d Hm Hs. left. exists r. rewrite Ep. done.
    + intros d. by apply (tc_rolled_back _ _ _ _ _ contract).
    + intros m. by apply (tc_recover _ _ _ _ _ contract).
    + intros d Hm Hs. left. exists r. rewrite Ep. done.
    + intros d. by apply (tc_recovered _ _ _ _ _ contract).
  - unfold recover_encrypted_participant.
    eapply triple_bind; [apply (triple_read_unmarked (settled tx))|].
    + apply contract.
    + intros d (r & _ & E & _). done.
    + intros d Hd. by right.
    + intros o. apply triple_pure. intros ->. by apply triple_ret.
Qed.
End Recovery.
