(* ===== verification/Encoding.v ===== *)
(** * A concrete serialization

    The theorems on persistence assume only that what serde_json wrote it reads back
    ([SerdeLaw]). Here is an instance: catalog nodes, deltas, shards and root indexes as
    trees of integers and strings, written as bytes. Concrete runs use it. *)

From Stdlib Require Import Strings.Byte Ascii String.
From stdpp Require Import base gmap strings list countable.
From S2P Require Import Prelude.
From S2P Require Import CatalogNode.
From S2P Require Import CatalogTree.
From S2P Require Import CatalogDelta.
From S2P Require Import CatalogShard.
From S2P Require Import Storage.
From S2P Require Import Crypto.
From S2P Require Import DurableTx.
Open Scope Z_scope.

(** ** Values as trees *)

Abbreviation json := (gen_tree (Z + string)).

Definition eZ (z : Z) : json := GenLeaf (inl z).
Definition eS (s : string) : json := GenLeaf (inr s).
Definition eB (b : bool) : json := eZ (if b then 1 else 0).
Definition eO {A} (f : A -> json) (o : option A) : json :=
  match o with None => GenNode 0 [] | Some x => GenNode 1 [f x] end.
Definition eL {A} (f : A -> json) (l : list A) : json := GenNode 2 (map f l).

Definition dZ (t : json) : Z := match t with GenLeaf (inl z) => z | _ => 0 end.
Definition dS (t : json) : string := match t with GenLeaf (inr s) => s | _ => EmptyString end.
Definition dB (t : json) : bool := dZ t =? 1.
Definition dO {A} (g : json -> A) (t : json) : option A := match t with GenNode _ [x] => Some (g x) | _ => None end.
Definition dL {A} (g : json -> A) (t : json) : list A := match t with GenNode _ ts => map g ts | _ => [] end.

Lemma dB_eB b : dB (eB b) = b.
Proof. by destruct b. Qed.

Lemma dO_eO {A} (f : A -> json) g (o : option A) : (forall x, g (f x) = x) -> dO g (eO f o) = o.
Proof. intros Hg. destruct o as [x|]; [|done]. exact (f_equal Some (Hg x)). Qed.

Lemma dL_eL {A} (f : A -> json) g (l : list A) : Forall (fun x => g (f x) = x) l -> dL g (eL f l) = l.
Proof.
  intros Hg. unfold dL, eL. rewrite map_map. induction Hg as [|x l Hx _ IH]; [done|]. cbn [map]. by rewrite Hx, IH.
Qed.

Lemma dL_eL_all {A} (f : A -> json) g (l : list A) : (forall x, g (f x) = x) -> dL g (eL f l) = l.
Proof. intros Hg. apply dL_eL, Forall_true, Hg. Qed.

(** ** Nodes *)

Definition of_range (r : CatalogMediaByteRange) : json := GenNode 3 [eZ (br_offset r); eZ (br_length r)].
Definition to_range (t : json) : CatalogMediaByteRange :=
  match t with GenNode _ [a; b] => mkByteRange (dZ a) (dZ b) | _ => mkByteRange 0 0 end.
Definition of_segment (r : CatalogMediaSegmentRange) : json :=
  GenNode 3 [eZ (sr_offset r); eZ (sr_length r); eZ (sr_timestamp_us r)].
Definition to_segment (t : json) : CatalogMediaSegmentRange :=
  match t with GenNode _ [a; b; c] => mkSegmentRange (dZ a) (dZ b) (dZ c) | _ => mkSegmentRange 0 0 0 end.

Definition of_streaming (s : CatalogMediaStreamingMetadata) : json :=
  GenNode 3 [eO eZ (duration_ms s); eO eZ (bitrate_bps s); eO eZ (width s); eO eZ (height s);
             eO eZ (fps_millis s); eO eB (moov_at_start s); eO of_range (init_segment s);
             eO (eL of_segment) (media_segments s)].
Definition to_streaming (t : json) : CatalogMediaStreamingMetadata :=
  match t with
  | GenNode _ [d; b; w; h; f; m; i; s] =>
      mkStreaming (dO dZ d) (dO dZ b) (dO dZ w) (dO dZ h) (dO dZ f) (dO dB m) (dO to_range i) (dO (dL to_segment) s)
  | _ => mkStreaming None None None None None None None None
  end.

Definition of_media (i : CatalogMediaInfo) : json :=
  GenNode 3 [eB (match kind i with Audio => false | Video => true end); eZ (audio_tracks i); eZ (video_tracks i);
             eO eS (playback_mime_type i); eO eS (codec_string i); eO eB (mse_fragmented i);
             eO of_streaming (streaming_metadata i)].
Definition to_media (t : json) : CatalogMediaInfo :=
  match t with
  | GenNode _ [k; a; v; p; c; f; s] =>
      mkMediaInfo (if dB k then Video else Audio) (dZ a) (dZ v) (dO dS p) (dO dS c) (dO dB f) (dO to_streaming s)
  | _ => mkMediaInfo Audio 0 0 None None None None
  end.

Lemma to_of_range r : to_range (of_range r) = r.
Proof. by destruct r. Qed.
Lemma to_of_segment r : to_segment (of_segment r) = r.
Proof. by destruct r. Qed.

Lemma dO_Z o : dO dZ (eO eZ o) = o.
Proof. by apply dO_eO. Qed.
Lemma dO_S o : dO dS (eO eS o) = o.
Proof. by apply dO_eO. Qed.
Lemma dO_B o : dO dB (eO eB o) = o.
Proof. apply dO_eO, dB_eB. Qed.

Lemma to_of_streaming s : to_streaming (of_streaming s) = s.
Proof.
  unfold to_streaming, of_streaming. rewrite !dO_Z, dO_B, (dO_eO of_range), (dO_eO (eL of_segment)).
  - by destruct s.
  - intros l. apply dL_eL_all, to_of_segment.
  - apply to_of_range.
Qed.

Lemma to_of_media i : to_media (of_media i) = i.
Proof.
  unfold to_media, of_media. rewrite dB_eB, !dO_S, dO_B, (dO_eO of_streaming) by apply to_of_streaming.
  by destruct i as [[] ? ? ? ? ? ?].
Qed.

Definition of_trash (t : CatalogTrashMetadata) : json :=
  GenNode 3 [eS (original_path t); eZ (deleted_at t); eS (trash_name t)].
Definition to_trash (t : json) : CatalogTrashMetadata :=
  match t with GenNode _ [a; b; c] => mkTrash (dS a) (dZ b) (dS c) | _ => mkTrash "" 0 "" end.

Lemma to_of_trash t : to_trash (of_trash t) = t.
Proof. by destruct t. Qed.

Definition type_code (t : NodeType) : Z := match t with Dir => 0 | File => 1 | Symlink => 2 end.

Definition no_node : CatalogNode := mkNode 0 Dir "" 0 0 0 0 None None 0 0 None None None.

Fixpoint of_node (n : CatalogNode) : json :=
  GenNode 3 [eZ (node_id n); eZ (type_code (node_type n)); eS (node_name n); eZ (node_size n);
             eZ (chunk_size n); eZ (birthtime n); eZ (modtime n); eO eS (mime_type n);
             eO of_media (media_info n); eZ (media_inspected_revision n); eZ (source_revision n);
             eO eS (link_to n); eO of_trash (node_trash n);
             match children_opt n with None => GenNode 0 [] | Some cs => GenNode 1 (map of_node cs) end].

Fixpoint to_node (t : json) : CatalogNode :=
  match t with
  | GenNode _ [id; ty; nm; sz; ch; bt; mt; mi; me; mr; sr; lt; tr; co] =>
      mkNode (dZ id) (NodeType_from_u8 (dZ ty)) (dS nm) (dZ sz) (dZ ch) (dZ bt) (dZ mt) (dO dS mi)
        (dO to_media me) (dZ mr) (dZ sr) (dO dS lt) (dO to_trash tr)
        (match co with GenNode 1 ts => Some (map to_node ts) | _ => None end)
  | _ => no_node
  end.

Lemma to_of_node n : to_node (of_node n) = n.
Proof.
  induction n as [n IH] using node_ind.
  destruct n as [id ty nm sz ch bt mt mi me mr sr lt tr co]. cbn [of_node to_node].
  cbn [node_id node_type node_name node_size chunk_size birthtime modtime mime_type media_info
       media_inspected_revision source_revision link_to node_trash children_opt].
  rewrite !dO_S, (dO_eO of_media), (dO_eO of_trash) by (apply to_of_media || apply to_of_trash).
  assert (NodeType_from_u8 (dZ (eZ (type_code ty))) = ty) as -> by by destruct ty.
  f_equal. destruct co as [cs|]; [|done]. f_equal. cbn in IH. rewrite map_map.
  induction IH as [|c cs Hc _ IHcs]; [done|]. cbn [map]. by rewrite Hc, IHcs.
Qed.

(** ** Deltas, shards and the root index *)

Definition of_partial (f : PartialNode) : json :=
  GenNode 3 [eO eS (pn_name f); eO eZ (pn_size f); eO eS (pn_mime_type f);
             eO (eO of_media) (pn_media_info f); eO eZ (pn_media_inspected_revision f);
             eO eZ (pn_modtime f); eO eZ (pn_source_revision f)].
Definition to_partial (t : json) : PartialNode :=
  match t with
  | GenNode _ [n; s; m; i; r; t; v] =>
      mkPartial (dO dS n) (dO dZ s) (dO dS m) (dO (dO to_media) i) (dO dZ r) (dO dZ t) (dO dZ v)
  | _ => mkPartial None None None None None None None
  end.

Lemma to_of_partial f : to_partial (of_partial f) = f.
Proof.
  unfold to_partial, of_partial. rewrite !dO_S, !dO_Z, (dO_eO (eO of_media)); [by destruct f|].
  intros o. apply dO_eO, to_of_media.
Qed.

Definition of_op (o : DeltaOp) : json :=
  match o with
  | Create n => GenNode 0 [of_node n]
  | Update f => GenNode 1 [of_partial f]
  | Delete => GenNode 2 []
  | Move p n => GenNode 3 [eS p; eO eS n]
  end.
Definition to_op (t : json) : DeltaOp :=
  match t with
  | GenNode 0 [n] => Create (to_node n)
  | GenNode 1 [f] => Update (to_partial f)
  | GenNode _ [p; n] => Move (dS p) (dO dS n)
  | _ => Delete
  end.

Lemma to_of_op o : to_op (of_op o) = o.
Proof.
  destruct o as [n|f| |p n]; cbn [to_op of_op]; [by rewrite to_of_node|by rewrite to_of_partial|done|].
  by rewrite dO_S.
Qed.

Definition of_delta (d : DeltaEntry) : json :=
  GenNode 3 [eZ (de_seq d); eZ (de_ts d); of_op (de_op d); eS (de_path d); eO eZ (de_node_id d)].
Definition to_delta (t : json) : DeltaEntry :=
  match t with
  | GenNode _ [s; t; o; p; i] => mkDelta (dZ s) (dZ t) (to_op o) (dS p) (dO dZ i)
  | _ => mkDelta 0 0 Delete "" None
  end.

Lemma to_of_delta d : to_delta (of_delta d) = d.
Proof. unfold to_delta, of_delta. rewrite to_of_op, dO_Z. by destruct d. Qed.

Definition of_shard (s : Shard) : json :=
  GenNode 3 [eZ (sh_v s); eS (sh_id s); eZ (sh_version s); eZ (sh_base_version s); of_node (sh_root s)].
Definition to_shard (t : json) : Shard :=
  match t with
  | GenNode _ [v; i; ver; b; r] => mkShard (dZ v) (dS i) (dZ ver) (dZ b) (to_node r)
  | _ => mkShard 0 "" 0 0 no_node
  end.

Lemma to_of_shard s : to_shard (of_shard s) = s.
Proof. unfold to_shard, of_shard. rewrite to_of_node. by destruct s. Qed.

Definition strategy_code (s : LoadStrategy) : Z := match s with Eager => 0 | Lazy => 1 | Paginated => 2 end.
Definition code_strategy (n : Z) : LoadStrategy := if n =? 0 then Eager else if n =? 1 then Lazy else Paginated.

Definition of_summary (s : ShardRootSummary) : json := GenNode 3 [of_node (summary_node s); eB (has_children s)].
Definition to_summary (t : json) : ShardRootSummary :=
  match t with GenNode _ [n; h] => mkSummary (to_node n) (dB h) | _ => mkSummary no_node false end.

Lemma to_of_summary s : to_summary (of_summary s) = s.
Proof. unfold to_summary, of_summary. rewrite to_of_node, dB_eB. by destruct s. Qed.

Definition of_meta (m : ShardMeta) : json :=
  GenNode 3 [eS (sm_shard_id m); eS (sm_context m); eZ (sm_version m); eZ (sm_base_version m); eZ (sm_size m);
             eZ (sm_node_count m); eZ (strategy_code (sm_strategy m)); eB (sm_has_deltas m); eZ (sm_delta_count m);
             eZ (sm_last_delta_seq m); eZ (sm_snapshot_seq m); eO of_summary (sm_root_summary m)].
Definition to_meta (t : json) : ShardMeta :=
  match t with
  | GenNode _ [id; ctx; v; bv; sz; nc; st; hd; dc; ls; ss; rs] =>
      mkMeta (dS id) (dS ctx) (dZ v) (dZ bv) (dZ sz) (dZ nc) (code_strategy (dZ st)) (dB hd) (dZ dc) (dZ ls)
        (dZ ss) (dO to_summary rs)
  | _ => meta_new "" Lazy
  end.

Lemma to_of_meta m : to_meta (of_meta m) = m.
Proof.
  unfold to_meta, of_meta. rewrite dB_eB, (dO_eO of_summary) by apply to_of_summary.
  destruct m as [id ctx v bv sz nc st hd dc ls ss rs]. by destruct st.
Qed.

Definition of_entry (km : string * ShardMeta) : json := GenNode 3 [eS (fst km); of_meta (snd km)].
Definition to_entry (t : json) : string * ShardMeta :=
  match t with GenNode _ [k; m] => (dS k, to_meta m) | _ => (EmptyString, meta_new "" Lazy) end.

Definition of_root (ri : RootIndex) : json :=
  GenNode 3 [eZ (ri_v ri); eS (ri_format ri); eZ (ri_root_version ri); eZ (ri_created_at ri);
             eL of_entry (map_to_list (ri_shards ri))].
Definition to_root (t : json) : RootIndex :=
  match t with
  | GenNode _ [v; f; rv; c; l] =>
      mkRootIndex (dZ v) (dS f) (dZ rv) (dZ c) (list_to_map (dL to_entry l))
  | _ => mkRootIndex 0 "" 0 0 ∅
  end.

Lemma to_of_root ri : to_root (of_root ri) = ri.
Proof.
  unfold to_root, of_root. rewrite dL_eL_all.
  - rewrite list_to_map_to_list. by destruct ri.
  - intros [k m]. unfold to_entry, of_entry. cbn [fst snd]. by rewrite to_of_meta.
Qed.

(** ** The instances *)

Definition delta_serde : Serde DeltaEntry := view_serde of_delta to_delta.
Definition shard_serde : Serde Shard := view_serde of_shard to_shard.
Definition root_serde : Serde RootIndex := view_serde of_root to_root.

Lemma delta_serde_law : @SerdeLaw DeltaEntry delta_serde.
Proof. apply view_serde_law, to_of_delta. Qed.

Lemma shard_serde_law : @SerdeLaw Shard shard_serde.
Proof. apply view_serde_law, to_of_shard. Qed.

Lemma root_serde_law : @SerdeLaw RootIndex root_serde.
Proof. apply view_serde_law, to_of_root. Qed.

(** ** Transaction records *)

Definition phase_code (p : DurableTxPhase) : bool := match p with Staging => false | Committing => true end.
Definition code_phase (b : bool) : DurableTxPhase := if b then Committing else Staging.

Lemma code_phase_code ph : code_phase (dB (eB (phase_code ph))) = ph.
Proof. by destruct ph. Qed.

Section TxEncoding.
Context {T : Type} (f : T -> json) (g : json -> T).

Definition of_tx (r : DurableTxRecord T) : json :=
  GenNode 3 [eZ (tx_version r); eS (tx_kind r); eS (tx_id r); eB (phase_code (tx_phase r)); f (tx_payload r)].
Definition to_tx (t : json) : DurableTxRecord T :=
  match t with
  | GenNode _ [v; kd; id; ph; p] => mkTxRecord (dZ v) (dS kd) (dS id) (code_phase (dB ph)) (g p)
  | _ => mkTxRecord 0 "" "" Staging (g t)
  end.

Definition tx_serde_of : Serde (DurableTxRecord T) := view_serde of_tx to_tx.

Lemma tx_serde_of_law : (forall x, g (f x) = x) -> @SerdeLaw _ tx_serde_of.
Proof.
  intros Hgf. apply view_serde_law. intros r. unfold to_tx, of_tx. rewrite code_phase_code, Hgf. by destruct r.
Qed.

Lemma toy_sealable_tx key aad x : @sealable toy_crypto _ tx_serde_of key aad x.
Proof. apply toy_sealable. Qed.
End TxEncoding.
