(* ===== verification/CatalogCommit.v ===== *)
(** * Committing a catalog

    Models [transaction.rs], [chunks.rs], [root_index.rs] and [types.rs] of
    [crates/core/src/vault/catalog_persistence]: a save has written new chunks; the commit
    makes the new root index current and removes the chunks it replaces, under a
    durable transaction. *)

From Stdlib Require Import Strings.Byte Ascii String.
From stdpp Require Import base gmap strings list sorting.
From S2P Require Import Prelude.
From S2P Require Import CatalogNode.
From S2P Require Import CatalogShard.
From S2P Require Import Bytes.
From S2P Require Import Storage.
From S2P Require Import Crypto.
From S2P Require Import DurableTx.
From S2P Require Import Encoding.
Open Scope Z_scope.

(** ** Data *)

Record CatalogCommitRecord := mkCommitRecord {
  cc_v : Z;
  cc_id : string;
  cc_phase : DurableTxPhase;
  cc_root_version : Z;
  cc_new_chunks : list string;
  cc_old_chunks : list string;
  cc_root_index : RootIndex;
}.

Definition cc_set_phase (ph : DurableTxPhase) (r : CatalogCommitRecord) : CatalogCommitRecord :=
  mkCommitRecord (cc_v r) (cc_id r) ph (cc_root_version r) (cc_new_chunks r) (cc_old_chunks r) (cc_root_index r).

(** ** Chunk lists *)

(** [from..=to]. *)
Definition seq_inclusive (from to : Z) : list Z := seqZ from (to - from + 1).

Definition string_le (a b : string) : Prop := String.leb a b = true.

#[export] Instance string_le_dec : RelDecision string_le.
Proof. intros a b. unfold string_le. apply _. Defined.

(** [chunks.dedup()]: drops repeated neighbours. *)
Fixpoint dedup_adjacent (l : list string) : list string :=
  match l with
  | [] => []
  | x :: l' =>
      match dedup_adjacent l' with
      | [] => [x]
      | y :: l'' => if String.eqb x y then y :: l'' else x :: y :: l''
      end
  end.

Definition unique (chunks : list string) : list string := dedup_adjacent (merge_sort string_le chunks).

Fixpoint delete_chunks (chunks : list string) : IO unit :=
  match chunks with
  | [] => mret tt
  | c :: cs => delete_chunk c;; delete_chunks cs
  end.

Fixpoint all_chunks_exist (chunks : list string) : IO bool :=
  match chunks with
  | [] => mret true
  | c :: cs => e ← chunk_exists c; if negb e then mret false else all_chunks_exist cs
  end.

Section Commit.
Context `{cr : Crypto}.
Context `{Serde RootIndex, Serde CatalogCommitRecord, Serde (DurableTxRecord CatalogCommitRecord)}.

Definition chunks_for_meta (vault_key : list byte) (meta : ShardMeta) : list string :=
  shard_snapshot_chunk_name vault_key (sm_shard_id meta) (sm_snapshot_seq meta)
  :: (if sm_has_deltas meta
      then map (delta_chunk_name vault_key (sm_shard_id meta))
             (seq_inclusive (u64_saturating_add (sm_base_version meta) 1) (sm_last_delta_seq meta))
      else []).

(** ** The root index *)

(** [serde_json::from_slice(&decrypt(..)?)?]. *)
Definition open_sealed {A} `{Serde A} (encrypted key aad : list byte) : result Error A :=
  decrypt encrypted key aad ≫= fun plain => ok_or (from_slice plain) (SerializationError "from_slice").

Definition read_root_index (vault_key : list byte) (root_name : string) : IO (option RootIndex) :=
  e ← chunk_exists root_name;
  if negb e then mret None else
  encrypted ← read_chunk root_name;
  root_index ← io_lift (open_sealed encrypted vault_key (as_bytes root_name));
  mret (if is_sharded root_index then Some root_index else None).

Definition write_root_index (vault_key : list byte) (root_index : RootIndex) : IO unit :=
  let root_name := root_index_chunk_name vault_key 0 in
  root_enc ← seal root_index vault_key (as_bytes root_name);
  write_chunk_atomic root_name root_enc.

(** The chunks a catalog on disk consists of. *)
Definition live_catalog_chunk_names (vault_key : list byte) : IO (gset string) :=
  let root_name := root_index_chunk_name vault_key 0 in
  e ← chunk_exists root_name;
  let live : gset string := if (e : bool) then {[root_name]} else ∅ in
  let commit_name := catalog_commit_chunk_name vault_key in
  e ← chunk_exists commit_name;
  let live : gset string := if (e : bool) then {[commit_name]} ∪ live else live in
  ri ← read_root_index vault_key root_name;
  match ri with
  | None => mret live
  | Some ri =>
      mret (foldl (fun live meta => live ∪ list_to_set (chunks_for_meta vault_key meta)) live
              (map snd (map_to_list (ri_shards ri))))
  end.

(** ** The participant *)

Inductive CatalogCommitParticipant := TheCatalogCommit.

#[export] Instance commit_participant : DurableTxParticipant CatalogCommitParticipant CatalogCommitRecord := {
  KIND := "catalog_commit";
  VERSION := 1;
  marker_context _ := "catalog:commit:v1"%string;
  marker_name _ key := catalog_commit_chunk_name key;
  validate_payload _ payload := cc_v payload =? 1;
  rollback_staging _ _ _ := mret tt;
  recover_committing _ _ _ := mret tt;
  cleanup _ _ _ := mret tt;
}.

#[export] Instance commit_encrypted_participant
    : DurableTxEncryptedParticipant CatalogCommitParticipant CatalogCommitRecord := {
  rollback_staging_encrypted _ _ record := delete_chunks (cc_new_chunks (tx_payload record));
  recover_committing_encrypted _ key record :=
    let payload := tx_payload record in
    e ← all_chunks_exist (cc_new_chunks payload);
    if (e : bool) then
      write_root_index key (cc_root_index payload);;
      delete_chunks (cc_old_chunks payload)
    else delete_chunks (cc_new_chunks payload);
  cleanup_encrypted _ _ _ := sync;
}.

(** ** [CatalogCommitService] *)

Context (vault_key : list byte).

Definition write_commit_record (record : CatalogCommitRecord) : IO unit :=
  match cc_phase record with
  | Staging => write_staging vault_key TheCatalogCommit (cc_id record) record
  | Committing => write_committing vault_key TheCatalogCommit (cc_id record) record
  end.

Definition delete_commit_record : IO unit := store_delete vault_key TheCatalogCommit.

Definition read_legacy_commit_record : IO (option CatalogCommitRecord) :=
  payload ← read_legacy_payload vault_key TheCatalogCommit;
  match payload with
  | Some record =>
      if cc_v record =? 1 then mret (Some record)
      else attempt (delete_record vault_key TheCatalogCommit);; mret None
  | None =>
      e ← chunk_exists (catalog_commit_chunk_name vault_key);
      (if (e : bool) then attempt (delete_record vault_key TheCatalogCommit);; mret tt else mret tt);;
      mret None
  end.

Definition recover_incomplete_commit : IO unit :=
  record ← read_participant_record vault_key TheCatalogCommit;
  if bool_decide (is_Some record)
  then recover_encrypted_participant vault_key TheCatalogCommit
  else
    record ← read_legacy_commit_record;
    match record with
    | None => mret tt
    | Some record =>
        (match cc_phase record with
         | Staging => delete_chunks (cc_new_chunks record);; delete_commit_record
         | Committing =>
             e ← all_chunks_exist (cc_new_chunks record);
             (if (e : bool) then
                write_root_index vault_key (cc_root_index record);;
                delete_chunks (cc_old_chunks record)
              else delete_chunks (cc_new_chunks record));;
             delete_commit_record
         end);;
        sync
    end.

Definition commit_root_index_update (root_index : RootIndex) (new_chunks old_chunks : list string)
    (commit_id : string) : IO unit :=
  let record := mkCommitRecord 1 commit_id Staging (ri_root_version root_index)
                  (unique new_chunks) (unique old_chunks) root_index in
  write_commit_record record;;
  sync;;
  let record := cc_set_phase Committing record in
  write_commit_record record;;
  sync;;
  write_root_index vault_key root_index;;
  delete_commit_record;;
  delete_chunks (cc_old_chunks record);;
  sync.
End Commit.

(** ** Steps *)

Lemma elem_of_dedup_adjacent n l : n ∈ dedup_adjacent l <-> n ∈ l.
Proof.
  induction l as [|x l IH]; cbn; [done|]. rewrite elem_of_cons, <- IH.
  destruct (dedup_adjacent l) as [|y l']; [by rewrite elem_of_cons|].
  destruct (String.eqb_spec x y) as [->|]; rewrite !elem_of_cons; tauto.
Qed.

Lemma elem_of_unique n l : n ∈ unique l <-> n ∈ l.
Proof. unfold unique. by rewrite elem_of_dedup_adjacent, merge_sort_Permutation. Qed.

Lemma triple_delete_chunks (I C : Disk -> Prop) cs :
  (forall n, n ∈ cs -> valid_name n = true) -> (forall d, I d -> C d) ->
  (forall d n, n ∈ cs -> I d -> I (delete n d)) ->
  triple I (delete_chunks cs) (fun _ d => I d /\ forall n, n ∈ cs -> d !! n = None) C.
Proof.
  intros Hv HC HI.
  assert (forall done, triple (fun d => I d /\ forall n, n ∈ done -> d !! n = None) (delete_chunks cs)
    (fun _ d => I d /\ forall n, n ∈ done ++ cs -> d !! n = None) C) as H.
  { induction cs as [|c cs IH]; intros dn; cbn [delete_chunks].
    { apply triple_ret. by rewrite app_nil_r. }
    apply (triple_seq _ _ _ (fun d => I d /\ forall n, n ∈ dn ++ [c] -> d !! n = None)).
    - apply triple_delete; [apply Hv; left|intros d [? ?]; by apply HC|].
      intros d [Hd Hdn]. split; [apply HC|split]; try (apply HI; [left|done]).
      intros n [Hn| ->%list_elem_of_singleton]%elem_of_app; [|apply lookup_delete_eq].
      destruct (decide (n = c)) as [->|]; [apply lookup_delete_eq|]. rewrite lookup_delete_ne by done. by apply Hdn.
    - replace (dn ++ c :: cs) with ((dn ++ [c]) ++ cs) by by rewrite <- app_assoc.
      apply IH; intros; [apply Hv|apply HI]; try done; by right. }
  eapply triple_conseq; [apply (H [])|..]; try done. intros d Hd. split; [done|].
  intros n Hn. by apply elem_of_nil in Hn.
Qed.

Lemma triple_all_exist (I C : Disk -> Prop) cs :
  (forall n, n ∈ cs -> valid_name n = true) -> (forall d, I d -> C d) ->
  (forall d n, n ∈ cs -> I d -> is_Some (d !! n)) ->
  triple I (all_chunks_exist cs) (fun b d => b = true /\ I d) C.
Proof.
  intros Hv HC HI. induction cs as [|c cs IH]; cbn [all_chunks_exist]; [by apply triple_ret|].
  apply (triple_bind _ _ _ (fun b d => b = true /\ I d)).
  - apply triple_chunk_exists; [apply Hv; left|done|]. intros d Hd. split; [|done].
    apply bool_decide_eq_true_2, HI; [left|done].
  - intros b. apply triple_pure. intros ->. cbn [negb]. apply IH; intros; [apply Hv|eapply HI]; try done; by right.
Qed.

Section Atomicity.
Context `{cr : Crypto} {crl : CryptoLaws cr}.
Context `{SerdeLaw RootIndex, Serde CatalogCommitRecord, SerdeLaw (DurableTxRecord CatalogCommitRecord)}.
Context (key : list byte) (D0 : Disk) (ri : RootIndex) (new old : list string) (id : string).
Abbreviation mk := (catalog_commit_chunk_name key).
Abbreviation rn := (root_index_chunk_name key 0).

Lemma marker_valid : valid_name mk = true.
Proof. apply (ref_name_valid key CommitRef). Qed.

Lemma root_valid : valid_name rn = true.
Proof. apply (ref_name_valid key RootRef). Qed.

(** The root index on the disk [d]. *)
Definition root_is (x : RootIndex) (d : Disk) : Prop :=
  exists bs, d !! rn = Some bs /\ opens_to key (as_bytes rn) bs x.

Lemma triple_write_root (x : RootIndex) (Q R C : Disk -> Prop) :
  sealable key (as_bytes rn) x -> (forall d, Q d -> C d) -> (forall d, R d -> C d) ->
  (forall d bs, Q d -> opens_to key (as_bytes rn) bs x -> R (<[rn := bs]> d)) ->
  triple Q (write_root_index key x) (fun _ => R) C.
Proof.
  intros Hs HC HRC HR. eapply triple_bind; [by apply (triple_seal _ _ _ Q)|]. intros bs. apply triple_pure. intros Ho.
  apply triple_write; [apply root_valid|done|]. eauto.
Qed.

(** Without a marker, recovery changes nothing. *)
Lemma recover_unmarked (Q C : Disk -> Prop) :
  (forall d, Q d -> d !! mk = None) -> (forall d, Q d -> C d) ->
  triple Q (recover_incomplete_commit key) (fun _ => Q) C.
Proof.
  intros HN HQ. apply (triple_bind _ _ _ (fun o d => o = None /\ Q d)).
  { apply triple_read_unmarked; [apply marker_valid|done..]. }
  intros o. apply triple_pure. intros ->. cbn [bool_decide decide_rel].
  apply (triple_bind _ _ _ (fun o d => o = None /\ Q d)).
  - apply (triple_bind _ _ _ (fun o d => o = None /\ Q d)).
    { apply (triple_bind _ _ _ (fun o d => o = None /\ Q d)).
      - by apply triple_read_plain_unmarked; [apply marker_valid|..].
      - intros o. apply triple_pure. intros ->. by apply triple_ret. }
    intros o. apply triple_pure. intros ->.
    apply (triple_bind _ _ _ (fun e d => e = false /\ Q d)).
    { apply triple_chunk_exists; [apply marker_valid|done|]. intros d Hd. by rewrite HN. }
    intros e. apply triple_pure. intros ->.
    apply (triple_seq _ _ _ Q); by apply triple_ret.
  - intros o. apply triple_pure. intros ->. by apply triple_ret.
Qed.

Definition commit_record (ph : DurableTxPhase) : CatalogCommitRecord :=
  mkCommitRecord 1 id ph (ri_root_version ri) (unique new) (unique old) ri.

Definition commit_tx (r : DurableTxRecord CatalogCommitRecord) : Prop :=
  tx_payload r = commit_record (tx_phase r).

(** What a commit needs: the new chunks are on disk, no other commit is pending, the
    names are chunk names and do not clash. *)
Record commit_ready : Prop := {
  cr_unmarked : D0 !! mk = None;
  cr_id : string_is_empty id = false;
  cr_valid n : n ∈ new \/ n ∈ old -> valid_name n = true;
  cr_marker_root : mk <> rn;
  cr_root_new : rn ∉ new;
  cr_root_old : rn ∉ old;
  cr_marker_new : mk ∉ new;
  cr_marker_old : mk ∉ old;
  cr_disjoint n : n ∈ new -> n ∉ old;
  cr_exist n : n ∈ new -> is_Some (D0 !! n);
  cr_root_sealable : sealable key (as_bytes rn) ri;
  cr_record_sealable ph :
    sealable key (as_bytes mk)
      (tx_record (P:=CatalogCommitParticipant) (T:=CatalogCommitRecord) id ph (commit_record ph));
}.

(** [d] is [D0] outside of [S]. *)
Definition keeps (S : list string) (d : Disk) : Prop := forall n, n ∉ S -> d !! n = D0 !! n.

(** The commit did not happen, or it did; new chunks, or replaced ones, may be left over. *)
Definition not_committed (d : Disk) : Prop := keeps new d.
Definition committed (d : Disk) : Prop := root_is ri d /\ keeps (rn :: old) d.

Definition Staged (r : DurableTxRecord CatalogCommitRecord) (d : Disk) : Prop :=
  commit_tx r /\ not_committed d.
Definition Committed (r : DurableTxRecord CatalogCommitRecord) (d : Disk) : Prop :=
  commit_tx r /\ (keeps [] d \/ committed d).
Definition Settled (r : DurableTxRecord CatalogCommitRecord) (d : Disk) : Prop :=
  commit_tx r /\ match tx_phase r with Staging => not_committed d | Committing => committed d end.

Lemma keeps_delete S n d : n ∈ S -> keeps S d -> keeps S (delete n d).
Proof. intros Hn Hk x Hx. rewrite lookup_delete_ne; [by apply Hk|]. intros ->. done. Qed.

Lemma keeps_insert S n v d : n ∈ S -> keeps S d -> keeps S (<[n := v]> d).
Proof. intros Hn Hk x Hx. rewrite lookup_insert_ne; [by apply Hk|]. intros ->. done. Qed.

Lemma keeps_mono S S' d : (forall n, n ∈ S -> n ∈ S') -> keeps S d -> keeps S' d.
Proof. intros HS Hk n Hn. apply Hk. auto. Qed.

Context (ready : commit_ready).

Lemma not_committed_delete d n : n ∈ unique new -> not_committed d -> not_committed (delete n d).
Proof. rewrite elem_of_unique. apply keeps_delete. Qed.

Lemma committed_delete d n : n ∈ unique old -> committed d -> committed (delete n d).
Proof.
  rewrite elem_of_unique. intros Hn [(bs & E & Ho) Hk]. split.
  - exists bs. split; [|done]. rewrite lookup_delete_ne; [done|]. intros ->. by apply (cr_root_old ready).
  - apply keeps_delete; [by right|done].
Qed.

Lemma committed_root d bs : keeps [] d \/ committed d -> opens_to key (as_bytes rn) bs ri -> committed (<[rn := bs]> d).
Proof.
  intros Hd Ho. split; [exists bs; by rewrite lookup_insert_eq|]. apply keeps_insert; [left|].
  destruct Hd as [Hd|[_ Hd]]; [|done]. eapply keeps_mono; [|done]. intros n Hn. by apply elem_of_nil in Hn.
Qed.

Lemma new_exists d n : keeps [] d \/ committed d -> n ∈ unique new -> is_Some (d !! n).
Proof.
  rewrite elem_of_unique. intros Hd Hn.
  assert (d !! n = D0 !! n) as ->; [|by apply (cr_exist ready)].
  destruct Hd as [Hd|[_ Hd]]; apply Hd; [apply not_elem_of_nil|].
  intros [->|Ho]%elem_of_cons; [by apply (cr_root_new ready)|by apply (cr_disjoint ready n)].
Qed.

(** The same, under the marker. *)
Abbreviation under A m := (fun d : Disk => d !! mk = m /\ A (delete mk d)).

Lemma under_delete (A : Disk -> Prop) m d n :
  n <> mk -> (A (delete mk d) -> A (delete n (delete mk d))) -> under A m d -> under A m (delete n d).
Proof. intros Hn HA [E Hd]. rewrite lookup_delete_ne by done. rewrite delete_delete. auto. Qed.

Lemma under_root (A B : Disk -> Prop) m d bs :
  (A (delete mk d) -> B (<[rn := bs]> (delete mk d))) -> under A m d -> under B m (<[rn := bs]> d).
Proof.
  intros HA [E Hd]. pose proof (cr_marker_root ready) as Hne. rewrite lookup_insert_ne by done.
  rewrite delete_insert_ne by done. auto.
Qed.

Lemma new_valid n : n ∈ unique new -> valid_name n = true.
Proof. rewrite elem_of_unique. intros. apply (cr_valid ready). by left. Qed.
Lemma old_valid n : n ∈ unique old -> valid_name n = true.
Proof. rewrite elem_of_unique. intros. apply (cr_valid ready). by right. Qed.
Lemma new_not_marker n : n ∈ unique new -> n <> mk.
Proof. rewrite elem_of_unique. intros Hn ->. by apply (cr_marker_new ready). Qed.
Lemma old_not_marker n : n ∈ unique old -> n <> mk.
Proof. rewrite elem_of_unique. intros Hn ->. by apply (cr_marker_old ready). Qed.

Lemma rollback_step r m :
  tx_phase r = Staging -> commit_tx r ->
  triple (under not_committed m) (recover_encrypted_participant_record key TheCatalogCommit r)
    (fun _ => under not_committed m) (under not_committed m).
Proof.
  intros Ep Htx. unfold recover_encrypted_participant_record. rewrite Ep.
  assert (cc_new_chunks (tx_payload r) = unique new) as Hnew by by rewrite Htx.
  cbn [rollback_staging_encrypted cleanup_encrypted commit_encrypted_participant]. rewrite Hnew.
  eapply triple_seq; [|by apply triple_sync].
  eapply triple_conseq; [apply (triple_delete_chunks (under not_committed m) (under not_committed m))|..]; try done.
  - apply new_valid.
  - intros d n Hn. apply under_delete; [by apply new_not_marker|]. by apply not_committed_delete.
  - by intros _ d [Hd _].
Qed.

Abbreviation committing := (fun d => keeps [] d \/ committed d).

Lemma recover_step r m :
  tx_phase r = Committing -> commit_tx r ->
  triple (under committing m) (recover_encrypted_participant_record key TheCatalogCommit r)
    (fun _ => under committed m) (under committing m).
Proof.
  intros Ep Htx. unfold recover_encrypted_participant_record. rewrite Ep.
  assert (tx_payload r = commit_record Committing) as Hp by by rewrite Htx, Ep.
  cbn [recover_committing_encrypted cleanup_encrypted commit_encrypted_participant]. rewrite Hp.
  cbn [cc_new_chunks cc_old_chunks cc_root_index commit_record].
  assert (forall d, under committed m d -> under committing m d) as Hin by (intros d [? ?]; split; [done|by right]).
  eapply triple_seq; [|by apply triple_sync].
  eapply triple_bind; [apply (triple_all_exist (under committing m))|].
  - apply new_valid.
  - done.
  - intros d n Hn [_ Hd]. rewrite <- (lookup_delete_ne d mk n) by (symmetry; by apply new_not_marker).
    by apply new_exists.
  - intros e. apply triple_pure. intros ->. apply (triple_seq _ _ _ (under committed m)).
    + apply triple_write_root; [apply (cr_root_sealable ready)|done|done|].
      intros d bs Hd Ho. apply (under_root committing committed m); [|done]. intros Hc. by apply committed_root.
    + eapply triple_conseq; [apply (triple_delete_chunks (under committed m) (under committed m))|..]; try done.
      * apply old_valid.
      * intros d n Hn. apply under_delete; [by apply old_not_marker|]. by apply committed_delete.
      * by intros _ d [Hd _].
Qed.

(** The commit keeps the contract of a durable transaction. *)
Lemma commit_contract : TxContract key TheCatalogCommit Staged Committed Settled.
Proof.
  split.
  - apply marker_valid.
  - intros r m Ep. apply (triple_pre _ (fun d => commit_tx r /\ under not_committed m d)); [|by intros d (? & ? & ?)].
    apply triple_pure. intros Htx.
    eapply triple_conseq; [by apply (rollback_step r m)|intros d Hd; exact Hd|..].
    + intros _ d [? ?]. split; [done|]. split; [done|]. by rewrite Ep.
    + intros d [? ?]. by split.
  - intros r m Ep. apply (triple_pre _ (fun d => commit_tx r /\ under committing m d)); [|by intros d (? & ? & ?)].
    apply triple_pure. intros Htx.
    eapply triple_conseq; [by apply (recover_step r m)|intros d Hd; exact Hd|..].
    + intros _ d [? ?]. split; [done|]. split; [done|]. by rewrite Ep.
    + intros d [? ?]. by split.
  - intros r d Ep [Htx Hs]. rewrite Ep in Hs. by split.
  - intros r d Ep [Htx Hs]. rewrite Ep in Hs. split; [done|by right].
Qed.

(** A commit in doubt, and over. *)
Definition commit_in_doubt : Disk -> Prop := in_doubt key TheCatalogCommit Staged Committed Settled commit_tx.
Definition commit_settled : Disk -> Prop := settled key TheCatalogCommit Settled commit_tx.

Lemma commit_settled_spec d :
  commit_settled d -> d !! mk = None /\ (not_committed (delete mk d) \/ committed (delete mk d)).
Proof.
  intros (r & _ & E & _ & Hs). split; [done|]. destruct (tx_phase r); auto.
Qed.

(** Recovery decides a commit in doubt, whatever interrupted it. *)
Lemma recover_commit :
  triple commit_in_doubt (recover_incomplete_commit key) (fun _ => commit_settled) commit_in_doubt.
Proof.
  pose proof (recover_settles key TheCatalogCommit _ _ _ commit_contract commit_tx) as Hrec.
  apply triple_or.
  - apply triple_exists. intros r. apply triple_pure. intros Htx.
    set (Q := fun d : Disk => marked key TheCatalogCommit r d /\ _).
    assert (forall d, Q d -> commit_in_doubt d) as HQ by (intros d Hd; left; by exists r).
    apply (triple_bind _ _ _ (fun o d => o = Some r /\ Q d)).
    + apply triple_read_marked; [apply marker_valid|by intros d [? ?]|done].
    + intros o. apply triple_pure. intros ->. rewrite bool_decide_eq_true_2 by by eexists.
      eapply triple_pre; [exact Hrec|done].
  - apply recover_unmarked; [|intros d Hd; by right]. by intros d (r & _ & E & _).
Qed.

Lemma keeps_base S : keeps S (delete mk D0).
Proof.
  intros n _. destruct (decide (n = mk)) as [->|Hn].
  - rewrite lookup_delete_eq. symmetry. apply (cr_unmarked ready).
  - by rewrite lookup_delete_ne.
Qed.

Abbreviation record ph := (tx_record (P:=CatalogCommitParticipant) id ph (commit_record ph)).

(** The stages of a commit, from the first marker to the new root index. *)
Definition stage (ph : DurableTxPhase) (d : Disk) : Prop :=
  marked key TheCatalogCommit (record ph) d /\ delete mk d = delete mk D0.
Definition stage_root (d : Disk) : Prop :=
  marked key TheCatalogCommit (record Committing) d /\ committed (delete mk d).
Definition stage_done (d : Disk) : Prop := d !! mk = None /\ committed (delete mk d).

Lemma start_in_doubt d : d = D0 -> commit_in_doubt d.
Proof.
  intros ->. right. exists (record Staging). split; [done|]. split; [apply (cr_unmarked ready)|].
  split; [done|]. apply keeps_base.
Qed.

Lemma stage_in_doubt ph d : stage ph d -> commit_in_doubt d.
Proof.
  intros [Hm E]. left. exists (record ph). split; [by destruct ph|]. split; [done|].
  change (store_marker key TheCatalogCommit) with mk. rewrite E.
  destruct ph; (split; [done|]); [|left]; apply keeps_base.
Qed.

Lemma stage_root_in_doubt d : stage_root d -> commit_in_doubt d.
Proof. intros [Hm Hc]. left. exists (record Committing). split; [done|]. split; [done|]. split; [done|]. by right. Qed.

Lemma stage_done_in_doubt d : stage_done d -> commit_in_doubt d.
Proof. intros [Hm Hc]. right. exists (record Committing). by split_and!. Qed.

Lemma write_stage ph (Q : Disk -> Prop) :
  (forall d, Q d -> commit_in_doubt d) -> (forall d, Q d -> delete mk d = delete mk D0) ->
  triple Q (write_commit_record key (commit_record ph)) (fun _ => stage ph) commit_in_doubt.
Proof.
  intros HC HE.
  assert (write_commit_record key (commit_record ph) = write_record key TheCatalogCommit id ph (commit_record ph))
    as -> by by destruct ph.
  eapply triple_conseq; [apply (triple_write_record key TheCatalogCommit id ph (commit_record ph) Q commit_in_doubt)|..].
  - apply marker_valid.
  - apply (cr_record_sealable ready).
  - apply (cr_id ready).
  - done.
  - done.
  - intros d d' Hd E Hm. apply (stage_in_doubt ph). split; [done|]. etransitivity; [exact E|]. by apply HE.
  - done.
  - intros _ d' (Hm & d & Hd & E). split; [done|]. etransitivity; [exact E|]. by apply HE.
  - done.
Qed.

Lemma marked_other r d n v : n <> mk -> marked key TheCatalogCommit r d -> marked key TheCatalogCommit r (<[n := v]> d).
Proof.
  intros Hn (Ha & bs & E & Ho). split; [done|]. exists bs. split; [|done].
  change (store_marker key TheCatalogCommit) with mk in *. by rewrite lookup_insert_ne.
Qed.

(** The commit itself: it returns with the new root index in place and the replaced
    chunks gone; stopped anywhere, it is in doubt. *)
Lemma commit_runs :
  triple (fun d => d = D0) (commit_root_index_update key ri new old id)
    (fun _ d => stage_done d /\ forall n, n ∈ old -> d !! n = None) commit_in_doubt.
Proof.
  unfold commit_root_index_update.
  apply (triple_seq _ _ _ (stage Staging)).
  { apply (write_stage Staging); [apply start_in_doubt|by intros d ->]. }
  eapply triple_seq; [apply triple_sync; apply stage_in_doubt|].
  apply (triple_seq _ _ _ (stage Committing)).
  { apply (write_stage Committing); [apply stage_in_doubt|by intros d [? ?]]. }
  eapply triple_seq; [apply triple_sync; apply stage_in_doubt|].
  apply (triple_seq _ _ _ stage_root).
  { apply triple_write_root; [apply (cr_root_sealable ready)|apply stage_in_doubt|apply stage_root_in_doubt|].
    intros d bs [Hm E] Ho. pose proof (cr_marker_root ready) as Hne. split; [by apply marked_other|].
    rewrite delete_insert_ne by done. apply committed_root; [|done]. left. rewrite E. apply keeps_base. }
  apply (triple_seq _ _ _ stage_done).
  { apply triple_store_delete; [apply marker_valid|apply stage_root_in_doubt| |apply stage_done_in_doubt].
    intros d [_ Hc]. split; [apply lookup_delete_eq|]. by rewrite delete_delete_eq. }
  apply (triple_seq _ _ _ (fun d => stage_done d /\ forall n, n ∈ old -> d !! n = None)).
  - eapply triple_conseq; [apply (triple_delete_chunks stage_done commit_in_doubt)|..].
    + apply old_valid.
    + apply stage_done_in_doubt.
    + intros d n Hn [E Hc]. pose proof (old_not_marker n Hn).
      split; [by rewrite lookup_delete_ne|]. rewrite delete_delete. by apply committed_delete.
    + done.
    + intros _ d [Hd Hn]. split; [done|]. intros n Ho. apply Hn. by apply elem_of_unique.
    + done.
  - apply triple_sync. intros d [Hd _]. by apply stage_done_in_doubt.
Qed.

(** A run of the commit, and any number of interrupted recoveries after it. *)
Lemma commit_then_recoveries fs k schedule :
  let '(r, d1) := run_io fs k (commit_root_index_update key ri new old id) D0 in
  let d2 := interrupted schedule (recover_incomplete_commit key) d1 in
  commit_in_doubt d2 /\ (r = Ok tt -> stage_done d2).
Proof.
  pose proof (triple_run _ _ _ _ fs k D0 commit_runs eq_refl) as Hrun.
  destruct (run_io fs k _ D0) as [r d1].
  split.
  - apply (interrupted_inv commit_in_doubt _ (fun _ => commit_settled)).
    + apply recover_commit.
    + intros _ d Hd. by right.
    + destruct r as [[]|e]; [|done]. by apply stage_done_in_doubt, Hrun.
  - intros ->. apply (interrupted_inv stage_done _ (fun _ => stage_done)); [|done|by destruct Hrun].
    apply recover_unmarked; [|done]. by intros d [? _].
Qed.
End Atomicity.

(** What the next recovery makes of it. *)
Lemma commit_recovers `{CryptoLaws} `{SerdeLaw RootIndex, Serde CatalogCommitRecord,
    SerdeLaw (DurableTxRecord CatalogCommitRecord)} key D0 ri new old id fs k schedule k' :
  commit_ready key D0 ri new old id ->
  let '(r, d1) := run_io fs k (commit_root_index_update key ri new old id) D0 in
  let d2 := interrupted schedule (recover_incomplete_commit key) d1 in
  exists d3 k3, recover_incomplete_commit key (mkWorld d2 [] k') = (Ok tt, mkWorld d3 [] k3)
    /\ d3 !! catalog_commit_chunk_name key = None
    /\ (not_committed D0 new d3 \/ committed key D0 ri old d3)
    /\ (r = Ok tt -> committed key D0 ri old d3).
Proof.
  intros Hready. pose proof (commit_then_recoveries key D0 ri new old id Hready fs k schedule) as Hrun.
  destruct (run_io fs k _ D0) as [r d1]. destruct Hrun as [Hdoubt Hok].
  set (d2 := interrupted _ _ _) in *. cbv zeta.
  destruct (triple_world_ok _ _ _ _ k' d2 (recover_commit key D0 ri new old id Hready) Hdoubt)
    as ([] & d3 & k3 & E & Hs).
  exists d3, k3. apply commit_settled_spec in Hs as [Hm Hs]. rewrite delete_id in Hs by done.
  split_and!; [done..|]. intros Hr.
  destruct (triple_world_ok (eq d2) _ (fun _ => eq d2) (fun _ => True) k' d2
              ltac:(apply recover_unmarked; [|done]; by intros d <-; apply (Hok Hr)) eq_refl)
    as ([] & d4 & k4 & E' & <-).
  rewrite E in E'. injection E' as -> _. destruct (Hok Hr) as [_ Hc]. by rewrite delete_id in Hc.
Qed.

(** C10: a commit is atomic under crashes. Let it run with any faults and be cut off
    anywhere, and let recovery be cut off any number of times; the next recovery
    succeeds, leaves no marker, and the disk is what it was before but for the new
    chunks, or has the new root index and is otherwise what it was but for the replaced
    chunks. If the commit returned [Ok] it is the latter. *)
Theorem commit_crash_atomic `{CryptoLaws} `{SerdeLaw RootIndex, Serde CatalogCommitRecord,
    SerdeLaw (DurableTxRecord CatalogCommitRecord)} key D0 ri new old id fs k schedule k' :
  commit_ready key D0 ri new old id ->
  let '(r, d1) := run_io fs k (commit_root_index_update key ri new old id) D0 in
  let d2 := interrupted schedule (recover_incomplete_commit key) d1 in
  exists d3, run_io [] k' (recover_incomplete_commit key) d2 = (Ok tt, d3)
    /\ d3 !! catalog_commit_chunk_name key = None
    /\ (not_committed D0 new d3 \/ committed key D0 ri old d3)
    /\ (r = Ok tt -> committed key D0 ri old d3).
Proof.
  intros Hready. pose proof (commit_recovers key D0 ri new old id fs k schedule k' Hready) as Hrun.
  destruct (run_io fs k _ D0) as [r d1]. destruct Hrun as (d3 & k3 & E & Hrest).
  exists d3. split; [|done]. unfold run_io. by rewrite E.
Qed.

(** ** A concrete commit

    A disk on which the snapshot of one shard is being replaced. *)

Definition of_commit (r : CatalogCommitRecord) : json :=
  GenNode 3 [eZ (cc_v r); eS (cc_id r); eB (phase_code (cc_phase r)); eZ (cc_root_version r);
             eL eS (cc_new_chunks r); eL eS (cc_old_chunks r); of_root (cc_root_index r)].
Definition to_commit (t : json) : CatalogCommitRecord :=
  match t with
  | GenNode _ [v; id; ph; rv; n; o; ri] =>
      mkCommitRecord (dZ v) (dS id) (code_phase (dB ph)) (dZ rv) (dL dS n) (dL dS o) (to_root ri)
  | _ => mkCommitRecord 0 "" Staging 0 [] [] (to_root t)
  end.

Lemma to_of_commit r : to_commit (of_commit r) = r.
Proof.
  unfold to_commit, of_commit. rewrite code_phase_code, !dL_eL_all, to_of_root by done. by destruct r.
Qed.

Definition commit_serde : Serde CatalogCommitRecord := view_serde of_commit to_commit.
Definition tx_serde : Serde (DurableTxRecord CatalogCommitRecord) := tx_serde_of of_commit to_commit.

Lemma tx_serde_law : @SerdeLaw _ tx_serde.
Proof. apply tx_serde_of_law, to_of_commit. Qed.

Definition demo_key : list byte := replicate KEY_SIZE x07.

Definition demo_meta (snapshot_seq : Z) : ShardMeta :=
  mkMeta "docs" "shard:docs" 3 3 10 2 Lazy false 0 3 snapshot_seq None.
Definition demo_root (snapshot_seq : Z) : RootIndex :=
  mkRootIndex 2 "sharded" (7 + snapshot_seq) 1000 {["docs"%string := demo_meta snapshot_seq]}.
Definition demo_snapshot (snapshot_seq : Z) : string :=
  @shard_snapshot_chunk_name toy_crypto demo_key "docs" snapshot_seq.

Definition demo_disk : Disk :=
  list_to_map [(@root_index_chunk_name toy_crypto demo_key 0, @toy_seal _ root_serde (demo_root 0));
               (demo_snapshot 0, [x01; x02]); (demo_snapshot 1, [x03])].

Lemma demo_ready :
  @commit_ready toy_crypto root_serde tx_serde demo_key demo_disk (demo_root 1)
    [demo_snapshot 1] [demo_snapshot 0] "catalog-8".
Proof.
  split.
  - vm_compute. reflexivity.
  - reflexivity.
  - intros n [->%list_elem_of_singleton| ->%list_elem_of_singleton]; vm_compute; reflexivity.
  - vm_compute. discriminate.
  - apply (bool_decide_unpack _). vm_compute. exact I.
  - apply (bool_decide_unpack _). vm_compute. exact I.
  - apply (bool_decide_unpack _). vm_compute. exact I.
  - apply (bool_decide_unpack _). vm_compute. exact I.
  - intros n ->%list_elem_of_singleton. apply (bool_decide_unpack _). vm_compute. exact I.
  - intros n ->%list_elem_of_singleton. apply (bool_decide_unpack _). vm_compute. exact I.
  - apply toy_sealable.
  - intros ph. apply toy_sealable.
Qed.

#[local] Existing Instances toy_crypto toy_crypto_laws root_serde commit_serde tx_serde
  root_serde_law tx_serde_law.

(** The commit dies after the second marker write, a first recovery while it removes the
    old snapshot. *)
Definition demo_faults : list fate := [Runs; Runs; Runs; Runs; Runs; Runs; Runs; Runs; Crashes].
Definition demo_schedule : list (list fate * nat) := [([Runs; Runs; Runs; Runs; Runs; Runs; Runs; Crashes], 9%nat)].

Lemma commit_crash_atomic_witness :
  commit_ready demo_key demo_disk (demo_root 1) [demo_snapshot 1] [demo_snapshot 0] "catalog-8"
  /\ let '(r, d1) := run_io demo_faults 0
                       (commit_root_index_update demo_key (demo_root 1) [demo_snapshot 1] [demo_snapshot 0]
                          "catalog-8") demo_disk in
     let d2 := interrupted demo_schedule (recover_incomplete_commit demo_key) d1 in
     exists d3, run_io [] 20 (recover_incomplete_commit demo_key) d2 = (Ok tt, d3)
       /\ d3 !! catalog_commit_chunk_name demo_key = None
       /\ (not_committed demo_disk [demo_snapshot 1] d3
           \/ committed demo_key demo_disk (demo_root 1) [demo_snapshot 0] d3)
       /\ (r = Ok tt -> committed demo_key demo_disk (demo_root 1) [demo_snapshot 0] d3).
Proof.
  pose proof (commit_crash_atomic demo_key demo_disk (demo_root 1) [demo_snapshot 1] [demo_snapshot 0]
                "catalog-8" demo_faults 0 demo_schedule 20 demo_ready) as H.
  split; [exact demo_ready|]. destruct (run_io demo_faults 0 _ demo_disk) as [r d1]. exact H.
Defined.
