(* ===== verification/CatalogLoad.v ===== *)
(** * Loading a catalog

    Models [load.rs] of [crates/core/src/vault/catalog_persistence]: recovery of an
    interrupted commit, the root index, every shard's snapshot and delta log, and the
    catalog merged from them. A [HashMap] is iterated in some order, here
    [map_to_list]'s. The replay of the [i]-th shard reads the clock [clks i]. *)

From Stdlib Require Import Strings.Byte Ascii String.
From stdpp Require Import base gmap strings list.
From S2P Require Import Prelude.
From S2P Require Import CatalogNode.
From S2P Require Import CatalogManager.
From S2P Require Import CatalogDelta.
From S2P Require Import CatalogShard.
From S2P Require Import Bytes.
From S2P Require Import Storage.
From S2P Require Import Crypto.
From S2P Require Import DurableTx.
From S2P Require Import Encoding.
From S2P Require Import CatalogCommit.
Open Scope Z_scope.

Inductive CatalogLoadKind := LoadedSharded | NoCatalog.

Record CatalogLoadOutcome := mkLoadOutcome {
  lo_catalog : CatalogManager;
  lo_kind : CatalogLoadKind;
}.

Definition with_shard_id (msg shard_id : string) : string :=
  String.append msg (String.append " (shard_id=" (String.append shard_id ")")).

Definition with_shard_seq (msg shard_id : string) (seq : Z) : string :=
  String.append msg (String.append " (shard_id=" (String.append shard_id
    (String.append " seq=" (String.append (show_u64 seq) ")")))).

Definition too_many_deltas (shard_id : string) (from to : Z) : string :=
  String.append "shard delta log exceeds MAX_DELTAS (" (String.append (show_u64 MAX_DELTAS)
    (String.append ") (shard_id=" (String.append shard_id
      (String.append " from=" (String.append (show_u64 from)
        (String.append " to=" (String.append (show_u64 to) ")"))))))).

Section Load.
Context `{cr : Crypto}.
Context `{Serde RootIndex, Serde Shard, Serde DeltaEntry,
          Serde CatalogCommitRecord, Serde (DurableTxRecord CatalogCommitRecord)}.
Context (vault_key : list byte).

(** [decrypt] and [from_slice] with their errors mapped. *)
Definition open_strict {A} `{Serde A} (encrypted : list byte) (name : string) (bad_key bad_json : string)
    : result Error A :=
  map_err (fun _ => InvalidDataFormat bad_key) (decrypt encrypted vault_key (as_bytes name)) ≫= fun plain =>
  ok_or (from_slice plain) (InvalidDataFormat bad_json).

Definition read_sharded_root_index_strict : IO (option RootIndex) :=
  let root_name := root_index_chunk_name vault_key 0 in
  e ← chunk_exists root_name;
  if negb e then mret None else
  encrypted ← read_chunk root_name;
  root_index ← io_lift (open_strict encrypted root_name
    "root index chunk exists but failed to decrypt (corrupt catalog)"
    "root index chunk exists but failed to parse (corrupt catalog)");
  if negb (is_sharded root_index) then mret None else mret (Some root_index).

Definition read_shard_snapshot_strict (meta : ShardMeta) : IO Shard :=
  let name := shard_snapshot_chunk_name vault_key (sm_shard_id meta) (sm_snapshot_seq meta) in
  e ← chunk_exists name;
  if negb e
  then io_throw (InvalidDataFormat
         (with_shard_id "shard snapshot referenced by root index is missing" (sm_shard_id meta)))
  else
  encrypted ← read_chunk name;
  io_lift (open_strict encrypted name
    (with_shard_id "shard snapshot failed to decrypt" (sm_shard_id meta))
    (with_shard_id "shard snapshot failed to parse" (sm_shard_id meta))).

(** The loop over [from..=to]; [loaded] counts the deltas read so far. *)
Fixpoint read_deltas (shard_id : string) (from to : Z) (seqs : list Z) (loaded : Z) : IO (list DeltaEntry) :=
  match seqs with
  | [] => mret []
  | seq :: seqs' =>
      if MAX_DELTAS <=? loaded
      then io_throw (InvalidDataFormat (too_many_deltas shard_id from to))
      else
      let delta_name := delta_chunk_name vault_key shard_id seq in
      encrypted ← read_chunk delta_name;
      delta ← io_lift (open_strict encrypted delta_name
        (with_shard_seq "delta chunk failed to decrypt" shard_id seq)
        (with_shard_seq "delta chunk failed to parse" shard_id seq));
      deltas ← read_deltas shard_id from to seqs' (loaded + 1);
      mret (delta :: deltas)
  end.

Definition apply_persisted_deltas_with_guard (clk : clock) (meta : ShardMeta) (shard : Shard) : IO Shard :=
  if negb (sm_has_deltas meta) then mret shard else
  let from := u64_saturating_add (sm_base_version meta) 1 in
  let to := sm_last_delta_seq meta in
  if to <? from then mret shard else
  deltas ← read_deltas (sm_shard_id meta) from to (seq_inclusive from to) 0;
  match last deltas with
  | None => mret shard
  | Some d =>
      let '(r, root) := apply_deltas clk (sh_root shard) deltas in
      io_lift r;;
      mret (mkShard (sh_v shard) (sh_id shard) (de_seq d) (sh_base_version shard) root)
  end.

Definition load_full_shard_from_meta (clk : clock) (meta : ShardMeta) : IO Shard :=
  shard ← read_shard_snapshot_strict meta;
  shard ← apply_persisted_deltas_with_guard clk meta shard;
  mret (mkShard (sh_v shard) (sh_id shard) (sm_version meta) (sm_base_version meta) (sh_root shard)).

Fixpoint load_shards (clks : nat -> clock) (metas : list ShardMeta) : IO (list Shard) :=
  match metas with
  | [] => mret []
  | meta :: metas' =>
      shard ← load_full_shard_from_meta (clks 0%nat) meta;
      shards ← load_shards (fun i => clks (S i)) metas';
      mret (shard :: shards)
  end.

Definition try_load_sharded_catalog (clk : clock) (clks : nat -> clock) : IO (option CatalogManager) :=
  ri ← read_sharded_root_index_strict;
  match ri with
  | None => mret None
  | Some root_index =>
      shards ← load_shards clks (map snd (map_to_list (ri_shards root_index)));
      let root := merge_shards_to_catalog clk shards in
      mret (Some (from_root_with_version root (ri_root_version root_index)))
  end.

Definition load_for_unlock (clk : clock) (clks : nat -> clock) : IO CatalogLoadOutcome :=
  recover_incomplete_commit vault_key;;
  sharded ← try_load_sharded_catalog clk clks;
  match sharded with
  | Some sharded => mret (mkLoadOutcome sharded LoadedSharded)
  | None => mret (mkLoadOutcome (new (clk 0%nat)) NoCatalog)
  end.

(** [load_shard(shard_id)]: one shard, if it is there. *)
Definition load_shard_by_id (clk : clock) (shard_id : string) : IO (option Shard) :=
  ri ← read_root_index vault_key (root_index_chunk_name vault_key 0);
  match ri with
  | None => mret None
  | Some root_index =>
      match get_shard_meta root_index shard_id with
      | None => mret None
      | Some meta =>
          e ← chunk_exists (shard_snapshot_chunk_name vault_key shard_id (sm_snapshot_seq meta));
          if negb e then mret None
          else shard ← load_full_shard_from_meta clk meta; mret (Some shard)
      end
  end.
End Load.

(** ** Loading reads the chunks of the catalog only *)

(** [c] does the same on both disks and changes neither. *)
Definition same_run {A} (d d' : Disk) (c : IO A) : Prop :=
  forall k k', exists r, c (mkWorld d [] k) = (r, mkWorld d [] k) /\ c (mkWorld d' [] k') = (r, mkWorld d' [] k').

Section SameRun.
Context (d d' : Disk).

Lemma same_ret {A} (a : A) : same_run d d' (mret a).
Proof. intros k k'. by eexists. Qed.

Lemma same_lift {A} (r : result Error A) : same_run d d' (io_lift r).
Proof. intros k k'. by eexists. Qed.

Lemma same_bind {A B} (c : IO A) (f : A -> IO B) :
  same_run d d' c -> (forall a k, c (mkWorld d [] k) = (Ok a, mkWorld d [] k) -> same_run d d' (f a)) ->
  same_run d d' (c ≫= f).
Proof.
  intros Hc Hf k k'. destruct (Hc k k') as (r & E1 & E2). unfold mbind, IO_bind. rewrite E1, E2.
  destruct r as [a|e]; [by apply (Hf a k)|by eexists].
Qed.

Lemma same_read n : d !! n = d' !! n -> same_run d d' (read_chunk n).
Proof.
  intros E. apply same_bind; [apply same_lift|]. intros _ _ _ k k'. unfold call. cbn. rewrite E. by eexists.
Qed.

Lemma same_exists n : d !! n = d' !! n -> same_run d d' (chunk_exists n).
Proof.
  intros E. apply same_bind; [apply same_lift|]. intros _ _ _ k k'. unfold call. cbn. rewrite E. by eexists.
Qed.
End SameRun.

(** The chunks of the catalog with root index [ri]. *)
Definition live_chunk `{Crypto} (key : list byte) (ri : RootIndex) (n : string) : Prop :=
  exists meta, meta ∈ map snd (map_to_list (ri_shards ri)) /\ n ∈ chunks_for_meta key meta.

Section LoadReads.
Context `{cr : Crypto}.
Context `{Serde RootIndex, Serde Shard, Serde DeltaEntry,
          Serde CatalogCommitRecord, Serde (DurableTxRecord CatalogCommitRecord)}.
Context (key : list byte) (d d' : Disk).

Lemma same_read_deltas id from to seqs loaded :
  (forall seq, seq ∈ seqs -> d !! delta_chunk_name key id seq = d' !! delta_chunk_name key id seq) ->
  same_run d d' (read_deltas key id from to seqs loaded).
Proof.
  revert loaded. induction seqs as [|seq seqs IH]; intros loaded Hs; cbn [read_deltas]; [apply same_ret|].
  destruct (MAX_DELTAS <=? loaded); [apply same_lift|].
  apply same_bind; [apply same_read, Hs; left|]. intros enc _ _.
  apply same_bind; [apply same_lift|]. intros de _ _.
  apply same_bind; [apply IH; intros; apply Hs; by right|]. intros ds _ _. apply same_ret.
Qed.

Lemma same_load_shard clk meta :
  (forall n, n ∈ chunks_for_meta key meta -> d !! n = d' !! n) ->
  same_run d d' (load_full_shard_from_meta key clk meta).
Proof.
  intros Hn. pose proof (Hn _ ltac:(left)) as Hsnap. apply same_bind.
  { apply same_bind; [by apply same_exists|]. intros e _ _. destruct e; [|apply same_lift].
    apply same_bind; [by apply same_read|]. intros enc _ _. apply same_lift. }
  intros sh _ _. apply same_bind; [|intros ? _ _; apply same_ret].
  unfold apply_persisted_deltas_with_guard. destruct (sm_has_deltas meta) eqn:Hd; [|apply same_ret]. cbn [negb].
  destruct (_ <? _); [apply same_ret|]. apply same_bind.
  - apply same_read_deltas. intros seq Hseq. apply Hn. right. rewrite Hd. by apply list_elem_of_fmap_2.
  - intros ds _ _. destruct (last ds); [|apply same_ret]. destruct (apply_deltas _ _ _) as [r root].
    apply same_bind; [apply same_lift|]. intros _ _ _. apply same_ret.
Qed.

Lemma same_load_shards clks metas :
  (forall meta n, meta ∈ metas -> n ∈ chunks_for_meta key meta -> d !! n = d' !! n) ->
  same_run d d' (load_shards key clks metas).
Proof.
  revert clks. induction metas as [|meta metas IH]; intros clks Hn; cbn [load_shards]; [apply same_ret|].
  apply same_bind; [apply same_load_shard; intros n; by apply Hn; left|]. intros sh _ _.
  apply same_bind; [|intros ? _ _; apply same_ret]. apply IH. intros m n Hm. apply Hn. by right.
Qed.

Lemma io_bind_Ok {A B} (c : IO A) (f : A -> IO B) w b w' :
  (c ≫= f) w = (Ok b, w') -> exists a w1, c w = (Ok a, w1) /\ f a w1 = (Ok b, w').
Proof. unfold mbind, IO_bind. destruct (c w) as [[a|e] w1]; [eauto|discriminate]. Qed.

Lemma read_chunk_Ok n k bs w' :
  read_chunk n (mkWorld d [] k) = (Ok bs, w') -> d !! n = Some bs /\ w' = mkWorld d [] k.
Proof.
  intros (p & w1 & E1 & E2)%io_bind_Ok. unfold io_lift in E1. destruct (chunk_path n) as [p'|]; [|discriminate E1].
  injection E1 as <- <-. unfold call in E2. cbn in E2. destruct (d !! n) as [bs'|]; [|discriminate E2].
  by injection E2 as <- <-.
Qed.

Lemma root_read k ri w' :
  read_sharded_root_index_strict key (mkWorld d [] k) = (Ok (Some ri), w') -> root_is key ri d /\ is_sharded ri = true.
Proof.
  intros (e & w1 & E1 & E2)%io_bind_Ok.
  assert (w1 = mkWorld d [] k) as ->.
  { apply io_bind_Ok in E1 as (p & w2 & E & E1). unfold io_lift in E. injection E as _ <-.
    unfold call in E1. cbn in E1. by injection E1 as _ <-. }
  destruct e; [|discriminate E2]. cbn [negb] in E2.
  apply io_bind_Ok in E2 as (bs & w2 & [Hbs ->]%read_chunk_Ok & E2).
  apply io_bind_Ok in E2 as (ri' & w3 & E & E2). unfold io_lift in E.
  assert (ri' = ri /\ is_sharded ri = true) as [-> Hsh].
  { destruct (is_sharded ri') eqn:Es; [|discriminate E2]. by injection E2 as <- _. }
  split; [|done]. exists bs. split; [done|]. unfold open_strict in E.
  destruct (decrypt _ _ _) as [plain|] eqn:Ed; [|discriminate E]. cbn in E.
  destruct (from_slice plain) as [x|] eqn:Ex; [|discriminate E]. injection E as -> _. by exists plain.
Qed.

(** Two disks with the same root index, that agree on its chunks, load the same. *)
Lemma same_load clk clks :
  d !! root_index_chunk_name key 0 = d' !! root_index_chunk_name key 0 ->
  (forall ri n, root_is key ri d -> is_sharded ri = true -> live_chunk key ri n -> d !! n = d' !! n) ->
  same_run d d' (try_load_sharded_catalog key clk clks).
Proof.
  intros Hroot Hlive. set (rn := root_index_chunk_name key 0) in *. apply same_bind.
  { apply same_bind; [by apply same_exists|]. intros [] _ _; [|apply same_ret]. cbn [negb].
    apply same_bind; [by apply same_read|]. intros enc _ _.
    apply same_bind; [apply same_lift|]. intros ri _ _. destruct (is_sharded ri); apply same_ret. }
  intros o k Ho. destruct o as [ri|]; [|apply same_ret].
  apply root_read in Ho as [Hri Hsh].
  apply same_bind; [|intros ? _ _; apply same_ret].
  apply same_load_shards. intros meta n Hm Hn. apply (Hlive ri); [done..|]. by exists meta.
Qed.
End LoadReads.

(** ** Loading after a crash *)

Section LoadAfterCrash.
Context `{cr : Crypto} {crl : CryptoLaws cr}.
Context `{SerdeLaw RootIndex, Serde Shard, Serde DeltaEntry,
          Serde CatalogCommitRecord, SerdeLaw (DurableTxRecord CatalogCommitRecord)}.
Context (key : list byte) (clk : clock) (clks : nat -> clock).

(** What unlocking the vault finds on a disk. *)
Definition unlocked (k : nat) (d : Disk) : result stop CatalogLoadOutcome :=
  fst (run_io [] k (load_for_unlock key clk clks) d).

Lemma unlocked_recovered k k0 k1 d d1 :
  recover_incomplete_commit key (mkWorld d [] k) = (Ok tt, mkWorld d1 [] k1) ->
  same_run d1 d1 (try_load_sharded_catalog key clk clks) ->
  d1 !! catalog_commit_chunk_name key = None ->
  unlocked k d = unlocked k0 d1.
Proof.
  intros E Hs Hm.
  destruct (triple_world_ok (eq d1) _ (fun _ => eq d1) (fun _ => True) k0 d1
              ltac:(apply recover_unmarked; [|done]; by intros ? <-) eq_refl) as ([] & ? & k2 & E' & <-).
  unfold unlocked, run_io, load_for_unlock, mbind, IO_bind. rewrite E, E'.
  destruct (Hs k1 k2) as (r & -> & ->). by destruct r as [[m|]|].
Qed.

Lemma same_unlocked k k' d d' :
  same_run d d' (try_load_sharded_catalog key clk clks) ->
  d !! catalog_commit_chunk_name key = None -> d' !! catalog_commit_chunk_name key = None ->
  unlocked k d = unlocked k' d'.
Proof.
  intros Hs Hm Hm'.
  destruct (triple_world_ok (eq d) _ (fun _ => eq d) (fun _ => True) k d
              ltac:(apply recover_unmarked; [|done]; by intros ? <-) eq_refl) as ([] & ? & k1 & E & <-).
  destruct (triple_world_ok (eq d') _ (fun _ => eq d') (fun _ => True) k' d'
              ltac:(apply recover_unmarked; [|done]; by intros ? <-) eq_refl) as ([] & ? & k2 & E' & <-).
  unfold unlocked, run_io, load_for_unlock, mbind, IO_bind. rewrite E, E'.
  destruct (Hs k1 k2) as (r & -> & ->). by destruct r as [[m|]|].
Qed.

Lemma opens_to_fun aad bs (x y : RootIndex) : opens_to key aad bs x -> opens_to key aad bs y -> x = y.
Proof. intros (p & E1 & E2) (q & E3 & E4). congruence. Qed.

Context (D0 : Disk) (ri : RootIndex) (new old : list string) (id : string).
Abbreviation mk := (catalog_commit_chunk_name key).
Abbreviation rn := (root_index_chunk_name key 0).
Context (ready : commit_ready key D0 ri new old id).
Context (old_apart : forall ri0 n, root_is key ri0 D0 -> live_chunk key ri0 n -> n ∉ new).
Context (new_apart : forall n, live_chunk key ri n -> (n ∉ old) /\ n <> rn).

Lemma unlocked_not_committed k k' d :
  d !! mk = None -> not_committed D0 new d -> unlocked k d = unlocked k' D0.
Proof.
  intros Hm Hd. symmetry. apply same_unlocked; [|apply ready|done]. apply same_load.
  - symmetry. apply Hd, (cr_root_new _ _ _ _ _ _ ready).
  - intros ri0 n Hri _ Hn. symmetry. apply Hd. by apply (old_apart ri0).
Qed.

Lemma unlocked_committed k k' d :
  d !! mk = None -> committed key D0 ri old d ->
  exists bs, opens_to key (as_bytes rn) bs ri /\ unlocked k d = unlocked k' (<[rn := bs]> D0).
Proof.
  intros Hm [(bs & E & Ho) Hd]. exists bs. split; [done|]. symmetry.
  pose proof (cr_marker_root _ _ _ _ _ _ ready) as Hne.
  apply same_unlocked; [|rewrite lookup_insert_ne by done; apply ready|done]. apply same_load.
  - by rewrite lookup_insert_eq.
  - intros ri' n (bs' & E' & Ho') _ Hn. rewrite lookup_insert_eq in E'. injection E' as <-.
    rewrite (opens_to_fun _ _ _ _ Ho' Ho) in Hn. destruct (new_apart n Hn) as [Hno Hnr].
    rewrite lookup_insert_ne by done. symmetry. apply Hd. intros [?|?]%elem_of_cons; done.
Qed.
End LoadAfterCrash.

(** C4: the catalog survives a crash. A save has put new chunks on the disk [D0] that the
    current root index does not use, and commits a new root index that does not use the
    chunks it replaces. Whatever faults and crashes the commit and later recoveries meet,
    the next unlock finds the catalog that unlocking [D0] would have found, or the one
    of [D0] with the new root index in place; after a commit that returned [Ok], the latter. *)
Theorem load_after_crash `{CryptoLaws} `{SerdeLaw RootIndex, Serde Shard, Serde DeltaEntry,
    Serde CatalogCommitRecord, SerdeLaw (DurableTxRecord CatalogCommitRecord)}
    key clk clks D0 ri new old id fs k schedule k' :
  commit_ready key D0 ri new old id ->
  (forall ri0 n, root_is key ri0 D0 -> live_chunk key ri0 n -> n ∉ new) ->
  (forall n, live_chunk key ri n -> (n ∉ old) /\ n <> root_index_chunk_name key 0) ->
  let '(r, d1) := run_io fs k (commit_root_index_update key ri new old id) D0 in
  let d2 := interrupted schedule (recover_incomplete_commit key) d1 in
  let found := unlocked key clk clks k' in
  let new_catalog := exists bs, opens_to key (as_bytes (root_index_chunk_name key 0)) bs ri
                       /\ found d2 = found (<[root_index_chunk_name key 0 := bs]> D0) in
  (found d2 = found D0 \/ new_catalog) /\ (r = Ok tt -> new_catalog).
Proof.
  intros Hready Hold Hnew. pose proof (commit_recovers key D0 ri new old id fs k schedule k' Hready) as Hc.
  destruct (run_io fs k _ D0) as [r d1]. destruct Hc as (d3 & k3 & E & Hm & Hd & Hok). cbv zeta.
  assert (forall ki, unlocked key clk clks k' (interrupted schedule (recover_incomplete_commit key) d1)
                     = unlocked key clk clks ki d3) as Hrec.
  { intros ki. eapply unlocked_recovered; [exact E| |done]. apply same_load; [done|]. done. }
  split.
  - rewrite (Hrec k'). destruct Hd as [Hd|Hd]; [left|right].
    + by eapply unlocked_not_committed.
    + by eapply unlocked_committed.
  - intros Hr. rewrite (Hrec k'). eapply unlocked_committed; eauto.
Qed.

(** ** A concrete crash *)

#[local] Existing Instances toy_crypto toy_crypto_laws root_serde commit_serde tx_serde
  root_serde_law tx_serde_law shard_serde delta_serde.

Lemma demo_live seq n : live_chunk demo_key (demo_root seq) n -> n = demo_snapshot seq.
Proof.
  intros (meta & Hm & Hn). cbn [ri_shards demo_root] in Hm. rewrite map_to_list_singleton in Hm.
  apply list_elem_of_singleton in Hm as ->. by apply list_elem_of_singleton in Hn.
Qed.

Lemma demo_old_root ri0 : root_is demo_key ri0 demo_disk -> ri0 = demo_root 0.
Proof.
  intros (bs & E & Ho). apply (opens_to_fun _ _ _ _ _ Ho). unfold demo_disk in E.
  change (list_to_map ((?k, ?v) :: ?l)) with (<[k := v]> (list_to_map l : Disk)) in E.
  rewrite lookup_insert_eq in E. injection E as <-. apply toy_seal_opens, to_of_root.
Qed.

Definition demo_load_faults : list fate := [Runs; Runs; Runs; Runs; FailsAfter].

Lemma load_after_crash_witness :
  commit_ready demo_key demo_disk (demo_root 1) [demo_snapshot 1] [demo_snapshot 0] "catalog-8"
  /\ let '(r, d1) := run_io demo_load_faults 0
                       (commit_root_index_update demo_key (demo_root 1) [demo_snapshot 1] [demo_snapshot 0]
                          "catalog-8") demo_disk in
     let d2 := interrupted demo_schedule (recover_incomplete_commit demo_key) d1 in
     let found := unlocked demo_key (fun _ => 0) (fun _ _ => 0) 20 in
     let new_catalog := exists bs, opens_to demo_key (as_bytes (root_index_chunk_name demo_key 0)) bs (demo_root 1)
                          /\ found d2 = found (<[root_index_chunk_name demo_key 0 := bs]> demo_disk) in
     (found d2 = found demo_disk \/ new_catalog) /\ (r = Ok tt -> new_catalog).
Proof.
  assert (forall ri0 n, root_is demo_key ri0 demo_disk -> live_chunk demo_key ri0 n -> n ∉ [demo_snapshot 1]) as H1.
  { intros ri0 n ->%demo_old_root ->%demo_live. apply (bool_decide_unpack _). vm_compute. exact I. }
  assert (forall n, live_chunk demo_key (demo_root 1) n ->
            (n ∉ [demo_snapshot 0]) /\ n <> root_index_chunk_name demo_key 0) as H2.
  { intros n ->%demo_live. split; apply (bool_decide_unpack _); vm_compute; exact I. }
  pose proof (load_after_crash demo_key (fun _ => 0) (fun _ _ => 0) demo_disk (demo_root 1) [demo_snapshot 1]
                [demo_snapshot 0] "catalog-8" demo_load_faults 0 demo_schedule 20 demo_ready H1 H2) as H.
  split; [exact demo_ready|]. destruct (run_io demo_load_faults 0 _ demo_disk) as [r d1]. exact H.
Defined.
