(* ===== verification/CatalogCompact.v ===== *)
(** * Compacting a shard

    Models [compaction.rs] of [crates/core/src/vault/catalog_persistence]: the delta log of a
    shard is replayed on its snapshot and replaced by a new snapshot. *)

From Stdlib Require Import Strings.Byte Ascii String.
From stdpp Require Import base gmap strings list.
From S2P Require Import Prelude.
From S2P Require Import CatalogNode.
From S2P Require Import CatalogManager.
From S2P Require Import CatalogDelta.
From S2P Require Import CatalogReplay.
From S2P Require Import CatalogShard.
From S2P Require Import Bytes.
From S2P Require Import Storage.
From S2P Require Import Crypto.
From S2P Require Import DurableTx.
From S2P Require Import Encoding.
From S2P Require Import CatalogCommit.
From S2P Require Import CatalogLoad.
Open Scope Z_scope.

Record PreparedShardCompaction := mkPrepared {
  pc_new_chunks : list string;
  pc_old_chunks : list string;
  pc_new_version : Z;
  pc_chunks_written : Z;
}.

(** [clear_deltas], then [last_delta_seq = version], the new snapshot and the statistics. *)
Definition compacted_meta (snapshot_seq : Z) (shard : Shard) (m : ShardMeta) : ShardMeta :=
  let m := meta_clear_deltas m in
  let m := mkMeta (sm_shard_id m) (sm_context m) (sm_version m) (sm_base_version m) (sm_size m)
             (sm_node_count m) (sm_strategy m) (sm_has_deltas m) (sm_delta_count m) (sm_version m)
             snapshot_seq (sm_root_summary m) in
  meta_update_root_summary (sh_root shard) (meta_update_stats (shard_node_count shard) (shard_size shard) m).

(** [e.to_string()] of the errors of [decrypt]. *)
Definition decrypt_error_text (e : Error) : string :=
  match e with
  | InvalidDataFormat s => String.append "Invalid data format: " s
  | DecryptionFailed s => String.append "Decryption failed: " s
  | _ => ""
  end.

Section Compact.
Context `{cr : Crypto}.
Context `{Serde RootIndex, Serde Shard, Serde DeltaEntry,
          Serde CatalogCommitRecord, Serde (DurableTxRecord CatalogCommitRecord)}.
Context (vault_key : list byte).

(** The loop over the log: a delta chunk that cannot be read counts as missing. *)
Fixpoint read_delta_log (shard_id : string) (seqs : list Z) : IO (list DeltaEntry) :=
  match seqs with
  | [] => mret []
  | seq :: seqs' =>
      let delta_name := delta_chunk_name vault_key shard_id seq in
      delta_enc ← io_map_err (fun _ => ChunkNotFound delta_name) (read_chunk delta_name);
      delta_plain ← io_lift (map_err (fun e => DecryptionFailed (decrypt_error_text e))
                               (decrypt delta_enc vault_key (as_bytes delta_name)));
      delta ← io_lift (ok_or (from_slice delta_plain) (SerializationError "from_slice"));
      deltas ← read_delta_log shard_id seqs';
      mret (delta :: deltas)
  end.

(** The meta to compact, inserted for a system shard that has none. *)
Definition meta_to_compact (root_index : RootIndex) (shard_id : string) : result Error (ShardMeta * RootIndex) :=
  match get_shard_meta root_index shard_id with
  | Some meta => Ok (meta, root_index)
  | None =>
      if is_eager_system_shard_id shard_id then
        let root_index := upsert_shard (meta_eager_system shard_id) root_index in
        meta ← ok_or (get_shard_meta root_index shard_id) (InvalidDataFormat "Shard meta insert failed");
        Ok (meta, root_index)
      else Err (InvalidDataFormat (String.append "Shard not found: " shard_id))
  end.

(** [prepare_shard_compaction(&mut root_index, shard_id)]; [clk] dates the replay. *)
Definition prepare_shard_compaction (clk : clock) (root_index : RootIndex) (shard_id : string)
    : IO (PreparedShardCompaction * RootIndex) :=
  found ← io_lift (meta_to_compact root_index shard_id);
  let '(meta, root_index) := (found : ShardMeta * RootIndex) in
  if negb (sm_has_deltas meta)
  then mret (mkPrepared [] [] (sm_version meta) 0, root_index)
  else
  let snap_name := shard_snapshot_chunk_name vault_key shard_id (sm_snapshot_seq meta) in
  e ← chunk_exists snap_name;
  if negb e then io_throw (ChunkNotFound snap_name) else
  snap_enc ← read_chunk snap_name;
  shard ← io_lift (open_sealed snap_enc vault_key (as_bytes snap_name));
  let from := u64_saturating_add (sm_base_version meta) 1 in
  let to := sm_last_delta_seq meta in
  root ← (if from <=? to then
            deltas ← read_delta_log shard_id (seq_inclusive from to);
            let '(r, root) := apply_deltas clk (sh_root shard) deltas in
            io_lift r;; mret root
          else mret (sh_root shard));
  let shard := mkShard (sh_v shard) (sh_id shard) (sm_version meta) (sm_version meta) root in
  let new_snapshot_seq := u64_saturating_add (sm_snapshot_seq meta) 1 in
  let snapshot_name := shard_snapshot_chunk_name vault_key shard_id new_snapshot_seq in
  enc ← seal shard vault_key (as_bytes snapshot_name);
  write_chunk_atomic snapshot_name enc;;
  let root_index := with_shard_meta shard_id (compacted_meta new_snapshot_seq shard) root_index in
  mret (mkPrepared [snapshot_name] (chunks_for_meta vault_key meta) (sm_version meta) 1, root_index).

(** [compact_shard]. *)
Definition compact_shard_on_disk (clk : clock) (root_index : RootIndex) (shard_id : string)
    : IO (RootIndex * Z * Z) :=
  recover_incomplete_commit vault_key;;
  prepared ← prepare_shard_compaction clk root_index shard_id;
  let '(prepared, root_index) := (prepared : PreparedShardCompaction * RootIndex) in
  if pc_chunks_written prepared =? 0 then mret (root_index, pc_new_version prepared, 0) else
  commit_root_index_update vault_key root_index (pc_new_chunks prepared) (pc_old_chunks prepared)
    (String.append "catalog-compact-" (String.append shard_id
       (String.append "-" (show_u64 (pc_new_version prepared)))));;
  mret (root_index, pc_new_version prepared, pc_chunks_written prepared).
End Compact.

(** ** What a shard's chunks hold *)

Section Runs.
Context `{cr : Crypto} {crl : CryptoLaws cr}.
Context `{Serde RootIndex, SerdeLaw Shard, Serde DeltaEntry,
          Serde CatalogCommitRecord, Serde (DurableTxRecord CatalogCommitRecord)}.
Context (key : list byte).
Abbreviation quiet d k := (mkWorld d [] k).

Definition holds {A} `{Serde A} (d : Disk) (name : string) (x : A) : Prop :=
  exists bs, d !! name = Some bs /\ opens_to key (as_bytes name) bs x.

Lemma read_chunk_run d k n bs :
  valid_name n = true -> d !! n = Some bs -> read_chunk n (quiet d k) = (Ok bs, quiet d k).
Proof.
  intros [p Hp]%chunk_path_ok E. unfold read_chunk, mbind, IO_bind, io_lift. rewrite Hp. cbn.
  unfold call. cbn. by rewrite E.
Qed.

Lemma chunk_exists_run d k n bs :
  valid_name n = true -> d !! n = Some bs -> chunk_exists n (quiet d k) = (Ok true, quiet d k).
Proof.
  intros [p Hp]%chunk_path_ok E. unfold chunk_exists, mbind, IO_bind, io_lift. rewrite Hp. cbn.
  unfold call. cbn. by rewrite E.
Qed.

Lemma open_strict_opens {A} `{Serde A} bs name (b1 b2 : string) (x : A) :
  open_strict key bs name b1 b2 = Ok x <-> opens_to key (as_bytes name) bs x.
Proof.
  unfold open_strict, opens_to. destruct (decrypt _ _ _) as [plain|]; cbn.
  - destruct (from_slice plain) eqn:E; cbn; split.
    + intros [= ->]. by exists plain.
    + intros (p & [= <-] & E'). congruence.
    + done.
    + intros (p & [= <-] & E'). congruence.
  - split; [done|]. by intros (p & ? & _).
Qed.

Lemma open_sealed_opens {A} `{Serde A} bs aad (x : A) :
  opens_to key aad bs x -> open_sealed bs key aad = Ok x.
Proof. intros (plain & E1 & E2). unfold open_sealed. rewrite E1. cbn. by rewrite E2. Qed.

Lemma read_strict_inv {A B} `{Serde A} d k name (b1 b2 : string) (f : A -> IO B) b w' :
  (enc ← read_chunk name; x ← io_lift (open_strict key enc name b1 b2); f x) (quiet d k) = (Ok b, w') ->
  exists x : A, holds d name x /\ f x (quiet d k) = (Ok b, w').
Proof.
  intros (bs & w1 & [E ->]%read_chunk_Ok & E2)%io_bind_Ok.
  apply io_bind_Ok in E2 as (x & w2 & Ex & E2). unfold io_lift in Ex.
  destruct (open_strict key bs name b1 b2) as [y|] eqn:Ey; [|discriminate Ex]. injection Ex as -> <-.
  apply open_strict_opens in Ey. exists x. split; [by exists bs|done].
Qed.

Lemma read_deltas_inv d k id from to seqs loaded ds w' :
  read_deltas key id from to seqs loaded (quiet d k) = (Ok ds, w') ->
  w' = quiet d k /\ Forall2 (fun seq de => holds d (delta_chunk_name key id seq) de) seqs ds.
Proof.
  revert loaded ds w'. induction seqs as [|seq seqs IH]; intros loaded ds w'; cbn [read_deltas].
  { intros [= <- <-]. split; [done|constructor]. }
  destruct (MAX_DELTAS <=? loaded); [discriminate|].
  intros (de & Hde & (ds' & w1 & [-> Hds]%IH & E)%io_bind_Ok)%read_strict_inv.
  injection E as <- <-. split; [done|]. by constructor.
Qed.

Lemma read_delta_log_run d k id seqs ds :
  Forall2 (fun seq de => holds d (delta_chunk_name key id seq) de) seqs ds ->
  read_delta_log key id seqs (quiet d k) = (Ok ds, quiet d k).
Proof.
  induction 1 as [|seq de seqs ds (bs & E & plain & Ep & Ef) _ IH]; [done|]. cbn [read_delta_log].
  unfold io_map_err, attempt, mbind, IO_bind in *.
  rewrite (read_chunk_run d k _ bs) by (done || apply chunk_name_u64_valid). cbn. rewrite Ep. cbn. rewrite Ef. cbn.
  by rewrite IH.
Qed.

(** The log of a shard: empty, or the deltas from [base_version + 1] on. *)
Definition log_seqs (meta : ShardMeta) : list Z :=
  if sm_has_deltas meta
  then seq_inclusive (u64_saturating_add (sm_base_version meta) 1) (sm_last_delta_seq meta) else [].

(** What loading a shard computes. *)
Definition shard_holds (d : Disk) (clk : clock) (meta : ShardMeta) (s : Shard) : Prop :=
  exists sh ds n, holds d (shard_snapshot_chunk_name key (sm_shard_id meta) (sm_snapshot_seq meta)) sh
  /\ Forall2 (fun seq de => holds d (delta_chunk_name key (sm_shard_id meta) seq) de) (log_seqs meta) ds
  /\ apply_deltas clk (sh_root sh) ds = (Ok n, sh_root s)
  /\ s = mkShard (sh_v sh) (sh_id sh) (sm_version meta) (sm_base_version meta) (sh_root s).

Lemma log_seqs_nil meta :
  sm_has_deltas meta = false \/ sm_last_delta_seq meta < u64_saturating_add (sm_base_version meta) 1 ->
  log_seqs meta = [].
Proof.
  intros Hm. unfold log_seqs, seq_inclusive. destruct (sm_has_deltas meta); [|done].
  destruct Hm as [?|Hm]; [done|]. unfold seqZ. by replace (Z.to_nat _) with O by lia.
Qed.

Lemma load_shard_inv d k clk meta s w' :
  load_full_shard_from_meta key clk meta (quiet d k) = (Ok s, w') -> shard_holds d clk meta s.
Proof.
  intros (sh & w1 & Esh & E)%io_bind_Ok.
  assert (holds d (shard_snapshot_chunk_name key (sm_shard_id meta) (sm_snapshot_seq meta)) sh /\ w1 = quiet d k)
    as [Hsh ->].
  { apply io_bind_Ok in Esh as (e & w2 & E1 & Esh).
    assert (w2 = quiet d k) as ->.
    { apply io_bind_Ok in E1 as (p & w3 & E2 & E1). unfold io_lift in E2. injection E2 as _ <-.
      unfold call in E1. cbn in E1. by injection E1 as _ <-. }
    destruct e; [|discriminate Esh]. cbn [negb] in Esh.
    apply io_bind_Ok in Esh as (bs & w3 & [Ebs ->]%read_chunk_Ok & Esh). unfold io_lift in Esh.
    destruct (open_strict _ _ _ _ _) as [y|] eqn:Ey; [|discriminate Esh]. injection Esh as -> <-.
    apply open_strict_opens in Ey. split; [by exists bs|done]. }
  apply io_bind_Ok in E as (sh' & w2 & Eap & E). injection E as <- <-.
  unfold apply_persisted_deltas_with_guard in Eap.
  destruct (sm_has_deltas meta) eqn:Hd; cbn [negb] in Eap.
  2:{ injection Eap as <- <-. exists sh, [], 0. rewrite log_seqs_nil by by left. by split_and!. }
  destruct (Z.ltb_spec (sm_last_delta_seq meta) (u64_saturating_add (sm_base_version meta) 1)) as [Hlt|Hge].
  { injection Eap as <- <-. exists sh, [], 0. rewrite log_seqs_nil by by right. by split_and!. }
  apply io_bind_Ok in Eap as (ds & w3 & [-> Hds]%read_deltas_inv & Eap).
  assert (log_seqs meta = seq_inclusive (u64_saturating_add (sm_base_version meta) 1) (sm_last_delta_seq meta)) as Hl
    by (unfold log_seqs; by rewrite Hd).
  rewrite <- Hl in Hds. exists sh, ds.
  destruct (last ds) as [dl|] eqn:El.
  - destruct (apply_deltas clk (sh_root sh) ds) as [[n|e] root] eqn:Ea; [|discriminate Eap].
    injection Eap as <- <-. exists n. by split_and!.
  - apply last_None in El as ->. injection Eap as <- <-. exists 0. by split_and!.
Qed.

Lemma snapshot_valid id seq : valid_name (shard_snapshot_chunk_name key id seq) = true.
Proof. apply (ref_name_valid key (SnapshotRef id seq)). Qed.

Lemma load_snapshot_run d k clk meta sh :
  holds d (shard_snapshot_chunk_name key (sm_shard_id meta) (sm_snapshot_seq meta)) sh ->
  sm_has_deltas meta = false ->
  load_full_shard_from_meta key clk meta (quiet d k)
  = (Ok (mkShard (sh_v sh) (sh_id sh) (sm_version meta) (sm_base_version meta) (sh_root sh)), quiet d k).
Proof.
  intros (bs & E & Ho) Hd. unfold load_full_shard_from_meta, read_shard_snapshot_strict, apply_persisted_deltas_with_guard.
  rewrite Hd. cbn [negb]. unfold mbind, IO_bind.
  rewrite (chunk_exists_run d k _ bs) by (done || apply snapshot_valid). cbn [negb].
  rewrite (read_chunk_run d k _ bs) by (done || apply snapshot_valid). unfold io_lift.
  rewrite (proj2 (open_strict_opens _ _ _ _ sh) Ho). done.
Qed.

Lemma seal_write_run {A} `{SerdeLaw A} d k name (x : A) :
  valid_name name = true -> sealable key (as_bytes name) x ->
  exists bs k', (enc ← seal x key (as_bytes name); write_chunk_atomic name enc) (quiet d k)
    = (Ok tt, quiet (<[name := bs]> d) k') /\ opens_to key (as_bytes name) bs x.
Proof.
  intros Hv Hs.
  assert (triple (eq d) (enc ← seal x key (as_bytes name); write_chunk_atomic name enc)
            (fun _ d' => exists bs, d' = <[name := bs]> d /\ opens_to key (as_bytes name) bs x) (fun _ => True)) as Ht.
  { eapply triple_bind; [by apply (triple_seal x key (as_bytes name) (eq d))|]. intros bs.
    apply triple_pure. intros Ho. apply triple_write; [done..|]. intros ? <-. split; [done|]. by exists bs. }
  destruct (triple_world_ok _ _ _ _ k d Ht eq_refl) as ([] & d' & k' & E & bs & -> & Ho). eauto.
Qed.

(** The replay that [prepare_shard_compaction] does. *)
Lemma replay_run d k clk meta s sh ds n :
  Forall2 (fun seq de => holds d (delta_chunk_name key (sm_shard_id meta) seq) de) (log_seqs meta) ds ->
  sm_has_deltas meta = true -> apply_deltas clk (sh_root sh) ds = (Ok n, sh_root s) ->
  (if u64_saturating_add (sm_base_version meta) 1 <=? sm_last_delta_seq meta then
     deltas ← read_delta_log key (sm_shard_id meta)
                (seq_inclusive (u64_saturating_add (sm_base_version meta) 1) (sm_last_delta_seq meta));
     let '(r, root) := apply_deltas clk (sh_root sh) deltas in
     io_lift r;; mret root
   else mret (sh_root sh)) (quiet d k) = (Ok (sh_root s), quiet d k).
Proof.
  intros Hds Hd Ha. destruct (Z.leb_spec (u64_saturating_add (sm_base_version meta) 1) (sm_last_delta_seq meta)).
  - unfold log_seqs in Hds. rewrite Hd in Hds. unfold mbind, IO_bind at 1.
    rewrite (read_delta_log_run d k _ _ ds Hds), Ha. done.
  - rewrite (log_seqs_nil meta) in Hds by by right. apply Forall2_nil_inv_l in Hds as ->.
    injection Ha as _ Ha. by rewrite Ha.
Qed.

Definition compacted (meta : ShardMeta) (s : Shard) : Shard :=
  mkShard (sh_v s) (sh_id s) (sm_version meta) (sm_version meta) (sh_root s).

Lemma prepare_run d k clk ri id meta s w' :
  load_full_shard_from_meta key clk meta (quiet d k) = (Ok s, w') ->
  get_shard_meta ri id = Some meta -> sm_shard_id meta = id -> sm_has_deltas meta = true ->
  let seq := u64_saturating_add (sm_snapshot_seq meta) 1 in
  let name := shard_snapshot_chunk_name key id seq in
  sealable key (as_bytes name) (compacted meta s) ->
  exists bs k', prepare_shard_compaction key clk ri id (quiet d k)
    = (Ok (mkPrepared [name] (chunks_for_meta key meta) (sm_version meta) 1,
           with_shard_meta id (compacted_meta seq (compacted meta s)) ri), quiet (<[name := bs]> d) k')
  /\ opens_to key (as_bytes name) bs (compacted meta s).
Proof.
  intros (sh & ds & n & (bs & Ebs & Ho) & Hds & Ha & Hs)%load_shard_inv Hmeta <- Hd seq name Hseal.
  destruct (seal_write_run d k name (compacted meta s)) as (bs' & k' & E & Ho'); [apply snapshot_valid|done|].
  exists bs', k'. split; [|done].
  unfold prepare_shard_compaction, meta_to_compact. rewrite Hmeta. unfold mbind at 1, IO_bind at 1. cbn [io_lift map_err].
  rewrite Hd. cbn [negb]. unfold mbind at 1, IO_bind at 1.
  rewrite (chunk_exists_run d k _ bs) by (done || apply snapshot_valid). cbn [negb]. unfold mbind at 1, IO_bind at 1.
  rewrite (read_chunk_run d k _ bs) by (done || apply snapshot_valid). unfold mbind at 1, IO_bind at 1.
  unfold io_lift at 1. rewrite (open_sealed_opens bs _ sh Ho). cbn [map_err].
  unfold mbind at 1, IO_bind at 1. rewrite (replay_run d k clk meta s sh ds n Hds Hd Ha).
  assert (mkShard (sh_v sh) (sh_id sh) (sm_version meta) (sm_version meta) (sh_root s) = compacted meta s) as ->
    by (pose proof (f_equal sh_v Hs) as Ev; pose proof (f_equal sh_id Hs) as Ei; cbn in Ev, Ei;
        unfold compacted; by rewrite Ev, Ei).
  fold seq name. unfold mbind, IO_bind in E |- *. destruct (seal (compacted meta s) key (as_bytes name) (quiet d k)) as [[enc|e] w1];
    [|discriminate E]. by rewrite E.
Qed.
End Runs.

(** C26: compacting a shard keeps its content. If the shard loads as [s], its log is
    replayed into the snapshot of the next sequence number, all other chunks stay, the shard's
    entry in the root index has no deltas left, and loading the shard through that entry
    gives [s] again, based on its own version. *)
Theorem compaction_preserves_shard `{CryptoLaws} `{Serde RootIndex, SerdeLaw Shard, Serde DeltaEntry}
    key d k clk ri id meta s w' :
  load_full_shard_from_meta key clk meta (mkWorld d [] k) = (Ok s, w') ->
  get_shard_meta ri id = Some meta -> sm_shard_id meta = id -> sm_has_deltas meta = true ->
  let name := shard_snapshot_chunk_name key id (u64_saturating_add (sm_snapshot_seq meta) 1) in
  sealable key (as_bytes name) (compacted meta s) ->
  exists ri' d' k' meta', prepare_shard_compaction key clk ri id (mkWorld d [] k)
      = (Ok (mkPrepared [name] (chunks_for_meta key meta) (sm_version meta) 1, ri'), mkWorld d' [] k')
    /\ (forall n, n <> name -> d' !! n = d !! n)
    /\ get_shard_meta ri' id = Some meta' /\ chunks_for_meta key meta' = [name]
    /\ (forall id', id' <> id -> get_shard_meta ri' id' = get_shard_meta ri id')
    /\ forall clk' k'', load_full_shard_from_meta key clk' meta' (mkWorld d' [] k'')
                        = (Ok (compacted meta s), mkWorld d' [] k'').
Proof.
  intros Hload Hmeta Hid Hd name Hseal.
  destruct (prepare_run key d k clk ri id meta s w' Hload Hmeta Hid Hd Hseal) as (bs & k' & E & Ho).
  set (seq := u64_saturating_add (sm_snapshot_seq meta) 1) in *.
  exists (with_shard_meta id (compacted_meta seq (compacted meta s)) ri), (<[name := bs]> d), k',
    (compacted_meta seq (compacted meta s) meta).
  split_and!.
  - exact E.
  - intros n Hn. by apply lookup_insert_ne.
  - unfold get_shard_meta, with_shard_meta in *. cbn. by rewrite lookup_alter_eq, Hmeta.
  - unfold chunks_for_meta. cbn. by rewrite Hid.
  - intros id' Hne. unfold get_shard_meta, with_shard_meta. cbn. by rewrite lookup_alter_ne.
  - intros clk' k''. rewrite (load_snapshot_run key _ k'' clk' _ (compacted meta s)); [done| |done]. cbn. rewrite Hid.
    exists bs. by rewrite lookup_insert_eq.
Qed.

(** ** A concrete compaction: a shard with two deltas. *)

#[local] Existing Instances toy_crypto toy_crypto_laws root_serde shard_serde delta_serde shard_serde_law.

Definition demo_log_meta : ShardMeta := mkMeta "docs" "shard:docs" 2 0 10 2 Lazy true 2 2 0 None.
Definition demo_log_root : RootIndex := mkRootIndex 2 "sharded" 7 1000 {["docs"%string := demo_log_meta]}.

Definition demo_log_disk : Disk :=
  list_to_map [(shard_snapshot_chunk_name demo_key "docs" 0, toy_seal (shard_new "docs" demo_shard));
               (delta_chunk_name demo_key "docs" 1, toy_seal demo_move);
               (delta_chunk_name demo_key "docs" 2, toy_seal demo_delete)].

Definition demo_loaded : Shard :=
  mkShard 2 "docs" 2 0 (snd (apply_deltas (fun _ => 10) demo_shard [demo_move; demo_delete])).

Lemma demo_loads :
  exists w', load_full_shard_from_meta demo_key (fun _ => 10) demo_log_meta (mkWorld demo_log_disk [] 0)
             = (Ok demo_loaded, w').
Proof.
  assert (fst (load_full_shard_from_meta demo_key (fun _ => 10) demo_log_meta (mkWorld demo_log_disk [] 0))
          = Ok demo_loaded) as E by (vm_compute; reflexivity).
  destruct (load_full_shard_from_meta _ _ _ _) as [r w']. exists w'. by rewrite <- E.
Qed.

Lemma compaction_preserves_shard_witness :
  let name := shard_snapshot_chunk_name demo_key "docs" 1 in
  exists ri' d' k' meta', prepare_shard_compaction demo_key (fun _ => 10) demo_log_root "docs" (mkWorld demo_log_disk [] 0)
      = (Ok (mkPrepared [name] (chunks_for_meta demo_key demo_log_meta) 2 1, ri'), mkWorld d' [] k')
    /\ (forall n, n <> name -> d' !! n = demo_log_disk !! n)
    /\ get_shard_meta ri' "docs" = Some meta' /\ chunks_for_meta demo_key meta' = [name]
    /\ (forall id', id' <> "docs"%string -> get_shard_meta ri' id' = get_shard_meta demo_log_root id')
    /\ forall clk' k'', load_full_shard_from_meta demo_key clk' meta' (mkWorld d' [] k'')
                        = (Ok (compacted demo_log_meta demo_loaded), mkWorld d' [] k'').
Proof.
  destruct demo_loads as [w' Hload].
  exact (compaction_preserves_shard demo_key demo_log_disk 0 (fun _ => 10) demo_log_root "docs" demo_log_meta
           demo_loaded w' Hload eq_refl eq_refl eq_refl (toy_sealable _ _ _ _ _)).
Defined.
