(* ===== verification/CatalogSave.v ===== *)
(** * Saving a catalog

    Models [save.rs] of [crates/core/src/vault/catalog_persistence]: what is written for
    each shard (a new snapshot, or its pending deltas when replaying them gives the shard), and the
    commit at the end. The locals that the code mutates, and the two mutable arguments,
    are a [SaveState]; a failing save returns the state it leaves behind. *)

From Stdlib Require Import Strings.Byte Ascii String.
From stdpp Require Import base gmap strings list sorting.
From S2P Require Import Prelude.
From S2P Require Import CatalogNode.
From S2P Require Import CatalogManager.
From S2P Require Import CatalogTree.
From S2P Require Import CatalogDelta.
From S2P Require Import CatalogReplay.
From S2P Require Import CatalogShard.
From S2P Require Import Bytes.
From S2P Require Import Storage.
From S2P Require Import Crypto.
From S2P Require Import DurableTx.
From S2P Require Import Encoding.
From S2P Require Import CatalogCommit.
From S2P Require Import CatalogLoad.
From S2P Require Import CatalogCompact.
Open Scope Z_scope.

(** ** Comparing trees *)

#[export] Instance CatalogMediaKind_eq_dec : EqDecision CatalogMediaKind.
Proof. solve_decision. Defined.
#[export] Instance CatalogMediaByteRange_eq_dec : EqDecision CatalogMediaByteRange.
Proof. solve_decision. Defined.
#[export] Instance CatalogMediaSegmentRange_eq_dec : EqDecision CatalogMediaSegmentRange.
Proof. solve_decision. Defined.
#[export] Instance CatalogMediaStreamingMetadata_eq_dec : EqDecision CatalogMediaStreamingMetadata.
Proof. solve_decision. Defined.
#[export] Instance CatalogMediaInfo_eq_dec : EqDecision CatalogMediaInfo.
Proof. solve_decision. Defined.

Definition catalog_node_payload_equivalent (left right : CatalogNode) : bool :=
  if negb (bool_decide (node_id left = node_id right))
     || negb (bool_decide (node_type left = node_type right))
     || negb (bool_decide (node_name left = node_name right))
     || negb (bool_decide (node_size left = node_size right))
     || negb (bool_decide (chunk_size left = chunk_size right))
     || negb (bool_decide (mime_type left = mime_type right))
     || negb (bool_decide (media_info left = media_info right))
     || negb (bool_decide (media_inspected_revision left = media_inspected_revision right))
     || negb (bool_decide (source_revision left = source_revision right))
     || negb (bool_decide (link_to left = link_to right))
  then false
  else negb (is_file left)
       || bool_decide (birthtime left = birthtime right) && bool_decide (modtime left = modtime right).

Fixpoint catalog_nodes_replay_equivalent (replayed intended : CatalogNode) {struct replayed} : bool :=
  if negb (catalog_node_payload_equivalent replayed intended) then false
  else
    match children_opt replayed with
    | None => match children intended with [] => true | _ => false end
    | Some cs =>
        (fix go (rs is_ : list CatalogNode) {struct rs} : bool :=
           match rs, is_ with
           | [], [] => true
           | r :: rs', i :: is' => catalog_nodes_replay_equivalent r i && go rs' is'
           | _, _ => false
           end) cs (children intended)
    end.

Fixpoint catalog_preserves_existing_nodes (existing intended : CatalogNode) : bool :=
  if negb (catalog_node_payload_equivalent existing intended) then false
  else
    match children_opt existing with
    | None => true
    | Some cs =>
        forallb (fun existing_child =>
          match List.find (fun c => node_id c =? node_id existing_child) (children intended) with
          | Some intended_child => catalog_preserves_existing_nodes existing_child intended_child
          | None => false
          end) cs
    end.

(** [collect_catalog_node_ids]: the set of ids, while they are new. *)
Fixpoint collect_catalog_node_ids (node : CatalogNode) (node_ids : gset Z) : bool * gset Z :=
  if bool_decide (node_id node ∈ node_ids) then (false, node_ids)
  else
    match children_opt node with
    | None => (true, {[node_id node]} ∪ node_ids)
    | Some cs =>
        (fix go (cs : list CatalogNode) (acc : gset Z) {struct cs} : bool * gset Z :=
           match cs with
           | [] => (true, acc)
           | c :: cs' =>
               let '(ok, acc) := collect_catalog_node_ids c acc in
               if (ok : bool) then go cs' acc else (false, acc)
           end) cs ({[node_id node]} ∪ node_ids)
    end.

Definition catalog_node_ids_unique (root : CatalogNode) : bool := fst (collect_catalog_node_ids root ∅).

Fixpoint max_catalog_node_id (node : CatalogNode) : Z :=
  match children_opt node with
  | None => node_id node
  | Some cs => foldl (fun max_id c => Z.max max_id (max_catalog_node_id c)) (node_id node) cs
  end.

Definition shard_snapshot_needs_rewrite (existing current : Shard) : bool :=
  negb (bool_decide (node_id (sh_root existing) = node_id (sh_root current)))
  || negb (bool_decide (node_type (sh_root existing) = node_type (sh_root current)))
  || negb (bool_decide (node_name (sh_root existing) = node_name (sh_root current))).

(** ** Deltas *)

Definition set_seq (seq : Z) (d : DeltaEntry) : DeltaEntry :=
  mkDelta seq (de_ts d) (de_op d) (de_path d) (de_node_id d).

Fixpoint assign_delta_sequences (deltas : list DeltaEntry) (first_seq : Z) : list DeltaEntry :=
  match deltas with
  | [] => []
  | d :: ds => set_seq first_seq d :: assign_delta_sequences ds (u64_saturating_add first_seq 1)
  end.

Definition pending_delta_chain_reaches_limit (meta : ShardMeta) (pending_count : Z) : bool :=
  if pending_count =? 0 then false else
  let persisted_count :=
    if sm_has_deltas meta && (sm_base_version meta <=? sm_last_delta_seq meta)
    then u64_saturating_sub (sm_last_delta_seq meta) (sm_base_version meta) else 0 in
  let persisted_count := Z.max persisted_count (sm_delta_count meta) in
  MAX_DELTAS <=? u64_saturating_add persisted_count pending_count.

Definition has_existing_node_mutation_delta (deltas : list DeltaEntry) : bool :=
  existsb (fun d => match de_op d with Delete | Move _ _ | Update _ => true | Create _ => false end) deltas.

Definition ensure_snapshot_fallback_preserves_existing_nodes (meta : ShardMeta)
    (existing intended : CatalogNode) (assigned_deltas : list DeltaEntry) : result Error unit :=
  if negb (catalog_node_ids_unique intended)
  then Err (InvalidDataFormat
         (with_shard_id "refusing snapshot fallback with duplicate node ids" (sm_shard_id meta)))
  else if has_existing_node_mutation_delta assigned_deltas
          || catalog_preserves_existing_nodes existing intended
  then Ok tt
  else Err (InvalidDataFormat
         (with_shard_id "refusing snapshot fallback that would drop nodes without delete delta" (sm_shard_id meta))).

(** ** Shards to persist *)

(** The eager system shards always exist on disk; missing ones are made up. *)
Fixpoint add_eager_shards (clk : clock) (ids : list string) (shards : list Shard) (next_id : Z) : list Shard :=
  match ids with
  | [] => shards
  | id :: ids' =>
      if existsb (fun s => String.eqb (sh_id s) id) shards then add_eager_shards clk ids' shards next_id
      else add_eager_shards (later 1 clk) ids'
             (shards ++ [shard_new id (new_dir (clk 0%nat) next_id id)]) (u64_saturating_add next_id 1)
  end.

Definition persistence_shards (clk : clock) (catalog : CatalogManager) : list Shard :=
  add_eager_shards clk EAGER_SYSTEM_SHARD_IDS (split_into_shards (root catalog) None)
    (u64_saturating_add (max_catalog_node_id (root catalog)) 1).

(** ** The state of a save *)

Record SaveState := mkSave {
  sv_root_index : RootIndex;
  sv_old_chunks : list string;
  sv_new_chunks : list string;
  sv_pending : gmap string (list DeltaEntry);
  sv_persisted : list (string * DeltaEntry);
}.

Abbreviation SIO := (StIO SaveState).

Definition save_state : SIO SaveState := st_get.
Definition on_save (f : SaveState -> SaveState) : SIO unit := st_modify f.

Definition set_root_index (ri : RootIndex) (s : SaveState) : SaveState :=
  mkSave ri (sv_old_chunks s) (sv_new_chunks s) (sv_pending s) (sv_persisted s).
Definition push_old (cs : list string) (s : SaveState) : SaveState :=
  mkSave (sv_root_index s) (sv_old_chunks s ++ cs) (sv_new_chunks s) (sv_pending s) (sv_persisted s).
Definition push_new (cs : list string) (s : SaveState) : SaveState :=
  mkSave (sv_root_index s) (sv_old_chunks s) (sv_new_chunks s ++ cs) (sv_pending s) (sv_persisted s).
Definition set_pending (id : string) (ds : list DeltaEntry) (s : SaveState) : SaveState :=
  mkSave (sv_root_index s) (sv_old_chunks s) (sv_new_chunks s) (<[id := ds]> (sv_pending s)) (sv_persisted s).
Definition push_persisted (p : string * DeltaEntry) (s : SaveState) : SaveState :=
  mkSave (sv_root_index s) (sv_old_chunks s) (sv_new_chunks s) (sv_pending s) (sv_persisted s ++ [p]).

Definition set_root_version (v : Z) (ri : RootIndex) : RootIndex :=
  mkRootIndex (ri_v ri) (ri_format ri) v (ri_created_at ri) (ri_shards ri).
Definition set_shards (m : gmap string ShardMeta) (ri : RootIndex) : RootIndex :=
  mkRootIndex (ri_v ri) (ri_format ri) (ri_root_version ri) (ri_created_at ri) m.

(** [meta.strategy = ..; meta.context = ..]. *)
Definition meta_set_strategy (strategy : LoadStrategy) (m : ShardMeta) : ShardMeta :=
  mkMeta (sm_shard_id m) (String.append "shard:" (sm_shard_id m)) (sm_version m) (sm_base_version m)
    (sm_size m) (sm_node_count m) strategy (sm_has_deltas m) (sm_delta_count m) (sm_last_delta_seq m)
    (sm_snapshot_seq m) (sm_root_summary m).

(** [clear_deltas()], [last_delta_seq = version], [snapshot_seq = seq]. *)
Definition meta_rebase (seq : Z) (m : ShardMeta) : ShardMeta :=
  let m := meta_clear_deltas m in
  mkMeta (sm_shard_id m) (sm_context m) (sm_version m) (sm_base_version m) (sm_size m) (sm_node_count m)
    (sm_strategy m) (sm_has_deltas m) (sm_delta_count m) (sm_version m) seq (sm_root_summary m).

(** A meta at [new_version] with a fresh snapshot and no deltas. *)
Definition meta_at_version (seq new_version : Z) (shard : Shard) (m : ShardMeta) : ShardMeta :=
  meta_update_root_summary (sh_root shard) (meta_update_stats (shard_node_count shard) (shard_size shard)
    (mkMeta (sm_shard_id m) (sm_context m) new_version new_version (sm_size m) (sm_node_count m)
       (sm_strategy m) false 0 new_version seq (sm_root_summary m))).

Definition with_versions (v : Z) (s : Shard) : Shard := mkShard (sh_v s) (sh_id s) v v (sh_root s).

Definition strategy_of (id : string) : LoadStrategy := if is_eager_system_shard_id id then Eager else Lazy.

(** Eager system shards first, then by name. *)
Definition delta_shard_le (a b : string) : Prop :=
  match is_eager_system_shard_id a, is_eager_system_shard_id b with
  | true, false => True
  | false, true => False
  | _, _ => string_le a b
  end.

#[export] Instance delta_shard_le_dec : RelDecision delta_shard_le.
Proof. intros a b. unfold delta_shard_le. destruct (is_eager_system_shard_id a), (is_eager_system_shard_id b); apply _. Defined.

Section Save.
Context `{cr : Crypto}.
Context `{Serde RootIndex, Serde Shard, Serde DeltaEntry,
          Serde CatalogCommitRecord, Serde (DurableTxRecord CatalogCommitRecord)}.
Context (vault_key : list byte).
(** [clks id] dates the replays of the shard [id]. *)
Context (clk : clock) (clks : string -> clock).

(** ** Reading back *)

Definition read_shard_snapshot (meta : ShardMeta) : IO Shard :=
  let snapshot_name := shard_snapshot_chunk_name vault_key (sm_shard_id meta) (sm_snapshot_seq meta) in
  encrypted ← read_chunk snapshot_name;
  io_lift (open_sealed encrypted vault_key (as_bytes snapshot_name)).

Fixpoint read_delta_chunks (shard_id : string) (seqs : list Z) : IO (list DeltaEntry) :=
  match seqs with
  | [] => mret []
  | seq :: seqs' =>
      let delta_name := delta_chunk_name vault_key shard_id seq in
      encrypted ← read_chunk delta_name;
      delta ← io_lift (open_sealed encrypted vault_key (as_bytes delta_name));
      deltas ← read_delta_chunks shard_id seqs';
      mret (delta :: deltas)
  end.

Definition read_persisted_deltas (meta : ShardMeta) : IO (list DeltaEntry) :=
  if negb (sm_has_deltas meta) then mret [] else
  let from := u64_saturating_add (sm_base_version meta) 1 in
  let to := sm_last_delta_seq meta in
  if to <? from then mret [] else read_delta_chunks (sm_shard_id meta) (seq_inclusive from to).

Definition pending_delta_chain_needs_snapshot_fallback (meta : ShardMeta)
    (assigned_deltas : list DeltaEntry) (intended_shard : Shard) : IO bool :=
  let clk := clks (sm_shard_id meta) in
  replayed ← read_shard_snapshot meta;
  persisted_deltas ← (if sm_has_deltas meta then read_persisted_deltas meta else mret []);
  let '(r, existing_root) := apply_deltas clk (sh_root replayed) persisted_deltas in
  io_lift r;;
  let '(r, replayed_root) := apply_deltas (later (length persisted_deltas) clk) existing_root assigned_deltas in
  match r with
  | Ok _ =>
      if catalog_nodes_replay_equivalent replayed_root (sh_root intended_shard) then mret false
      else
        io_lift (ensure_snapshot_fallback_preserves_existing_nodes meta existing_root
                   (sh_root intended_shard) assigned_deltas);;
        mret true
  | Err (CatalogDeltaReplayFailed _) =>
      io_lift (ensure_snapshot_fallback_preserves_existing_nodes meta existing_root
                 (sh_root intended_shard) assigned_deltas);;
      mret true
  | Err error => io_throw error
  end.

(** ** Snapshots *)

Definition meta_for_shard (root_index : RootIndex) (shard : Shard) : ShardMeta :=
  let strategy := strategy_of (sh_id shard) in
  let meta := default (meta_new (sh_id shard) strategy) (ri_shards root_index !! sh_id shard) in
  meta_update_root_summary (sh_root shard)
    (meta_update_stats (shard_node_count shard) (shard_size shard) (meta_set_strategy strategy meta)).

Definition new_shard_metas (root_index : RootIndex) (shards : list Shard) : gmap string ShardMeta :=
  foldl (fun m s => let meta := meta_for_shard root_index s in <[sm_shard_id meta := meta]> m) ∅ shards.

(** The chunks of shards that are gone. *)
Definition removed_shard_chunks (previous : RootIndex) (new_shards : gmap string ShardMeta) : list string :=
  concat (map (fun meta => if bool_decide (is_Some (new_shards !! sm_shard_id meta)) then []
                           else chunks_for_meta vault_key meta)
            (map snd (map_to_list (ri_shards previous)))).

(** Whether the snapshot on disk must be replaced, and whether because its root changed. *)
Definition snapshot_check (snapshot_name : string) (shard : Shard) : IO (bool * bool) :=
  e ← chunk_exists snapshot_name;
  if negb e then mret (true, false) else
  enc ← attempt (read_chunk snapshot_name);
  match enc ≫= fun enc => open_sealed (A:=Shard) enc vault_key (as_bytes snapshot_name) with
  | Ok existing => if shard_snapshot_needs_rewrite existing shard then mret (true, true) else mret (false, false)
  | Err _ => mret (true, false)
  end.

(** One round of the snapshot loop; whether the shard was rewritten. *)
Definition save_snapshot (previous : option RootIndex) (shard : Shard) : SIO bool :=
  let old_meta := ri ← previous; ri_shards ri !! sh_id shard in
  let old_snapshot_seq := from_option sm_snapshot_seq 0 old_meta in
  let old_snapshot_name := shard_snapshot_chunk_name vault_key (sh_id shard) old_snapshot_seq in
  chk ← io (snapshot_check old_snapshot_name shard);
  let '(needs_write, root_id_changed) := (chk : bool * bool) in
  if negb needs_write then mret false else
  st ← save_state;
  match get_shard_meta (sv_root_index st) (sh_id shard) with
  | None => mret false
  | Some meta =>
      let meta := if root_id_changed then meta_increment_version meta else meta in
      on_save (push_old (from_option (chunks_for_meta vault_key) [] old_meta));;
      let seq := if bool_decide (is_Some old_meta) then u64_saturating_add old_snapshot_seq 1 else 0 in
      let meta := meta_rebase seq meta in
      on_save (fun s => set_root_index (with_shard_meta (sh_id shard) (fun _ => meta) (sv_root_index s)) s);;
      let base := with_versions (sm_base_version meta) shard in
      let snapshot_name := shard_snapshot_chunk_name vault_key (sh_id shard) seq in
      enc ← io (seal base vault_key (as_bytes snapshot_name));
      on_save (push_new [snapshot_name]);;
      io (write_chunk_atomic snapshot_name enc);;
      mret true
  end.

Fixpoint save_snapshots (previous : option RootIndex) (shards : list Shard) : SIO (gset string) :=
  match shards with
  | [] => mret ∅
  | shard :: shards' =>
      rewritten ← save_snapshot previous shard;
      rest ← save_snapshots previous shards';
      mret (if (rewritten : bool) then {[sh_id shard]} ∪ rest else rest)
  end.

Definition write_full_snapshot_for_shard (shard : Shard) (old_meta : option ShardMeta) (new_version : Z) : SIO unit :=
  st ← save_state;
  match get_shard_meta (sv_root_index st) (sh_id shard) with
  | None => mret tt
  | Some meta =>
      on_save (push_old (from_option (chunks_for_meta vault_key) [] old_meta));;
      let seq := match old_meta with Some m => u64_saturating_add (sm_snapshot_seq m) 1 | None => 0 end in
      on_save (fun s => set_root_index
        (with_shard_meta (sh_id shard) (meta_at_version seq new_version shard) (sv_root_index s)) s);;
      let snapshot := with_versions new_version shard in
      let snapshot_name := shard_snapshot_chunk_name vault_key (sh_id shard) seq in
      enc ← io (seal snapshot vault_key (as_bytes snapshot_name));
      io (write_chunk_atomic snapshot_name enc);;
      on_save (push_new [snapshot_name])
  end.

(** ** Deltas *)

(** [serde_json::to_vec(delta)?] and the size check. *)
Definition delta_bytes (delta : DeltaEntry) : result Error (list byte) :=
  plain ← ok_or (to_vec delta) (SerializationError "to_vec");
  if MAX_DELTA_SIZE <? Z.of_nat (length plain) then Err (InvalidDataFormat "delta too large") else Ok plain.

Fixpoint check_delta_sizes (deltas : list DeltaEntry) : result Error unit :=
  match deltas with
  | [] => Ok tt
  | d :: ds => delta_bytes d ≫= fun _ => check_delta_sizes ds
  end.

(** The shards whose pending deltas do not reproduce them, in the order of the map. *)
Fixpoint fallback_shards (shards : list Shard) (root_index : RootIndex) (rewritten : gset string)
    (pending : list (string * list DeltaEntry)) : IO (gset string) :=
  match pending with
  | [] => mret ∅
  | (id, deltas) :: pending' =>
      needs ←
        (if bool_decide (deltas = []) || bool_decide (id ∈ rewritten) then mret false else
         match get_shard_meta root_index id, List.find (fun s => String.eqb (sh_id s) id) shards with
         | Some meta, Some intended_shard =>
             let assigned := assign_delta_sequences deltas (u64_saturating_add (sm_version meta) 1) in
             if pending_delta_chain_reaches_limit meta (Z.of_nat (length assigned)) then mret true
             else pending_delta_chain_needs_snapshot_fallback meta assigned intended_shard
         | _, _ => mret false
         end);
      rest ← fallback_shards shards root_index rewritten pending';
      mret (if (needs : bool) then {[id]} ∪ rest else rest)
  end.

(** The loop over the deltas of one shard; [written] are the ones behind it. *)
Fixpoint write_deltas (id : string) (written deltas : list DeltaEntry) (next_seq : Z) : SIO unit :=
  match deltas with
  | [] => mret tt
  | delta :: deltas' =>
      let delta := set_seq next_seq delta in
      on_save (set_pending id (written ++ delta :: deltas'));;
      let delta_name := delta_chunk_name vault_key id next_seq in
      plain ← io (io_lift (delta_bytes delta));
      enc ← io (encrypt plain vault_key (as_bytes delta_name));
      io (write_chunk_atomic delta_name enc);;
      on_save (push_new [delta_name]);;
      on_save (push_persisted (id, delta));;
      on_save (fun s => set_root_index (with_shard_meta id (meta_record_delta next_seq) (sv_root_index s)) s);;
      write_deltas id (written ++ [delta]) deltas' (u64_saturating_add next_seq 1)
  end.

Definition compact_if_full (id : string) : SIO unit :=
  st ← save_state;
  match get_shard_meta (sv_root_index st) id with
  | Some meta =>
      if sm_has_deltas meta && (MAX_DELTAS <=? sm_delta_count meta) then
        res ← io (prepare_shard_compaction vault_key (clks id) (sv_root_index st) id);
        let '(prepared, root_index) := (res : PreparedShardCompaction * RootIndex) in
        on_save (set_root_index root_index);;
        on_save (push_new (pc_new_chunks prepared));;
        on_save (push_old (pc_old_chunks prepared))
      else mret tt
  | None => mret tt
  end.

(** One round of the delta loop. *)
Definition save_deltas (previous : option RootIndex) (shards : list Shard) (rewritten fallback : gset string)
    (id : string) : SIO unit :=
  st ← save_state;
  match sv_pending st !! id with
  | None | Some [] => mret tt
  | Some deltas =>
      if bool_decide (id ∈ rewritten) then on_save (set_pending id [])
      else if bool_decide (id ∈ fallback) then
        match List.find (fun s => String.eqb (sh_id s) id) shards with
        | None => on_save (set_pending id [])
        | Some shard =>
            let old_meta := ri ← previous; ri_shards ri !! id in
            let pending_count := Z.of_nat (length deltas) in
            let new_version := match get_shard_meta (sv_root_index st) id with
                               | Some meta => u64_saturating_add (sm_version meta) pending_count
                               | None => pending_count
                               end in
            write_full_snapshot_for_shard shard old_meta new_version;;
            on_save (set_pending id [])
        end
      else
        match get_shard_meta (sv_root_index st) id with
        | None => on_save (set_pending id [])
        | Some meta =>
            write_deltas id [] deltas (u64_saturating_add (sm_version meta) 1);;
            on_save (set_pending id []);;
            compact_if_full id
        end
  end.

Fixpoint save_all_deltas (previous : option RootIndex) (shards : list Shard) (rewritten fallback : gset string)
    (ids : list string) : SIO unit :=
  match ids with
  | [] => mret tt
  | id :: ids' =>
      save_deltas previous shards rewritten fallback id;;
      save_all_deltas previous shards rewritten fallback ids'
  end.

Fixpoint existing_chunks (chunks : list string) : IO (list string) :=
  match chunks with
  | [] => mret []
  | c :: cs => e ← chunk_exists c; rest ← existing_chunks cs; mret (if (e : bool) then c :: rest else rest)
  end.

(** ** [save] *)

(** [save] up to the commit: everything is written, nothing is current yet. Returns the
    new chunks that are on disk. *)
Definition prepare_save (catalog : CatalogManager) : SIO (list string) :=
  io (recover_incomplete_commit vault_key);;
  previous ← io (read_root_index vault_key (root_index_chunk_name vault_key 0));
  let root_index := set_root_version (version catalog) (default (index_new (clk 0%nat)) previous) in
  let shards := persistence_shards (later 1 clk) catalog in
  let new_shards := new_shard_metas root_index shards in
  on_save (push_old (from_option (fun ri => removed_shard_chunks ri new_shards) [] previous));;
  on_save (set_root_index (set_shards new_shards root_index));;
  rewritten ← save_snapshots previous shards;
  st ← save_state;
  io (io_lift (check_delta_sizes (concat (map snd (map_to_list (sv_pending st))))));;
  fallback ← io (fallback_shards shards (sv_root_index st) rewritten (map_to_list (sv_pending st)));
  save_all_deltas previous shards rewritten fallback
    (merge_sort delta_shard_le (map fst (map_to_list (sv_pending st))));;
  st ← save_state;
  io (existing_chunks (sv_new_chunks st)).

Definition save (catalog : CatalogManager) : SIO (Z * Z) :=
  durable ← prepare_save catalog;
  st ← save_state;
  io (commit_root_index_update vault_key (sv_root_index st) durable (sv_old_chunks st)
        (String.append "catalog-" (show_u64 (version catalog))));;
  mret (ri_root_version (sv_root_index st), Z.of_nat (size (ri_shards (sv_root_index st)))).

(** [save] as it is called: what is left of the pending deltas, and what was persisted. *)
Definition run_save (catalog : CatalogManager) (pending : gmap string (list DeltaEntry)) (w : World)
    : result stop (Z * Z) * gmap string (list DeltaEntry) * list (string * DeltaEntry) * World :=
  let '(r, s, w') := save catalog (mkSave (index_new (clk 0%nat)) [] [] pending []) w in
  (r, sv_pending s, sv_persisted s, w').
End Save.
