(* ===== verification/SaveLogic.v ===== *)
(** * Reasoning about a save

    For the theory of [CatalogSave.v]: replay equivalence of trees does not see the times
    of directories. *)

From Stdlib Require Import Strings.Byte Ascii String.
From stdpp Require Import base gmap strings list sorting.
From S2P Require Import Prelude.
From S2P Require Import CatalogNode.
From S2P Require Import CatalogManager.
From S2P Require Import CatalogTree.
From S2P Require Import CatalogInvariant.
From S2P Require Import CatalogDelta.
From S2P Require Import CatalogReplay.
From S2P Require Import CatalogClock.
From S2P Require Import CatalogShard.
From S2P Require Import Bytes.
From S2P Require Import Storage.
From S2P Require Import Crypto.
From S2P Require Import IoLogic.
From S2P Require Import DurableTx.
From S2P Require Import Encoding.
From S2P Require Import CatalogCommit.
From S2P Require Import CatalogLoad.
From S2P Require Import CatalogCompact.
From S2P Require Import CatalogSave.
Open Scope Z_scope.

(** ** Equivalent trees *)

Lemma payload_equivalent_sim a b x :
  sim a b -> catalog_node_payload_equivalent a x = catalog_node_payload_equivalent b x.
Proof.
  intros H. pose proof (sim_inv _ _ H) as (E1 & E2 & E3 & E4 & E5 & E6 & E7 & E8 & E9 & E10 & E11 & _ & E13 & _).
  unfold catalog_node_payload_equivalent, is_file. rewrite <- E1, <- E2, <- E3, <- E4, <- E5, <- E6, <- E7, <- E8, <- E9, <- E10, <- E11.
  destruct (negb _ || _); [done|]. destruct (bool_decide (node_type a = File)) eqn:Et; [|done].
  cbn. rewrite <- E13; [done|]. apply bool_decide_eq_true in Et. unfold is_dir. by rewrite Et.
Qed.

Lemma equivalent_sim a b x :
  sim a b -> catalog_nodes_replay_equivalent a x = catalog_nodes_replay_equivalent b x.
Proof.
  revert b x. induction a as [a IH] using node_ind. intros b x H.
  pose proof (payload_equivalent_sim _ _ x H) as Hp.
  assert (option_Forall2 sims (children_opt a) (children_opt b)) as Hc by apply (sim_inv _ _ H).
  unfold children in IH. destruct a as [? ? ? ? ? ? ? ? ? ? ? ? ? co], b as [? ? ? ? ? ? ? ? ? ? ? ? ? co'].
  cbn [catalog_nodes_replay_equivalent]. rewrite Hp. destruct (negb _); [done|]. cbn [children_opt] in *.
  destruct Hc as [cs ds Hc|]; [|done]. cbn [default from_option id] in IH.
  generalize (children x) as xs. clear -IH Hc.
  induction Hc as [|c d cs ds Hcd _ IHc]; intros [|x xs]; try done.
  apply Forall_cons in IH as [Hh Ht]. rewrite (Hh d x Hcd). f_equal. by apply IHc.
Qed.

(** What a catalog holds: everything of its nodes but the times of directories, and the trash
    records only when asked for. A node without children is one with an empty list of them. *)
Fixpoint content (trash : bool) (n : CatalogNode) : CatalogNode :=
  match n with
  | mkNode i ty nm sz ck bt mt mime mi mir sr lt tr co =>
      mkNode i ty nm sz ck (if bool_decide (ty = File) then bt else 0) (if bool_decide (ty = File) then mt else 0)
        mime mi mir sr lt (if trash then tr else None)
        (Some (match co with None => [] | Some cs => map (content trash) cs end))
  end.

Lemma content_sim trash a b : sim a b -> content trash a = content trash b.
Proof.
  revert b. induction a as [a IH] using node_ind. intros b H.
  pose proof (sim_inv _ _ H) as (E1 & E2 & E3 & E4 & E5 & E6 & E7 & E8 & E9 & E10 & E11 & E12 & E13 & Hc).
  unfold children in IH. destruct a as [i ty nm sz ck bt mt mime mi mir sr lt tr co], b as [i' ty' nm' sz' ck' bt' mt' mime' mi' mir' sr' lt' tr' co'].
  cbn in *. subst. f_equal.
  - destruct ty'; try done. by apply E13.
  - f_equal. destruct Hc as [cs ds Hc|]; [|done]. cbn in *. clear -IH Hc.
    induction Hc as [|c d cs ds Hcd _ IHc]; [done|]. apply Forall_cons in IH as [Hh Ht]. cbn. f_equal; auto.
Qed.

(** Trees the comparison of a save finds equivalent hold the same, but for trash records. *)
Lemma payload_equivalent_fields a b :
  catalog_node_payload_equivalent a b = true ->
  node_id a = node_id b /\ node_type a = node_type b /\ node_name a = node_name b /\ node_size a = node_size b
  /\ chunk_size a = chunk_size b /\ mime_type a = mime_type b /\ media_info a = media_info b
  /\ media_inspected_revision a = media_inspected_revision b /\ source_revision a = source_revision b
  /\ link_to a = link_to b /\ (node_type a = File -> birthtime a = birthtime b /\ modtime a = modtime b).
Proof.
  unfold catalog_node_payload_equivalent. destruct (_ || _) eqn:E; [done|].
  rewrite !orb_false_iff, !negb_false_iff, !bool_decide_eq_true in E. intros Ht. split_and!; try tauto.
  intros Hf. unfold is_file in Ht. rewrite Hf in Ht. cbn in Ht. by apply andb_true_iff in Ht as [?%bool_decide_eq_true ?%bool_decide_eq_true].
Qed.

Lemma equivalent_content a b : catalog_nodes_replay_equivalent a b = true -> content false a = content false b.
Proof.
  revert b. induction a as [a IH] using node_ind. intros b Hab.
  assert (catalog_node_payload_equivalent a b = true) as Hp.
  { destruct a. cbn [catalog_nodes_replay_equivalent] in Hab. by destruct (catalog_node_payload_equivalent _ b). }
  pose proof (payload_equivalent_fields _ _ Hp) as (E1 & E2 & E3 & E4 & E5 & E6 & E7 & E8 & E9 & E10 & Et).
  unfold children in IH. destruct a as [i ty nm sz ck bt mt mime mi mir sr lt tr co], b as [i' ty' nm' sz' ck' bt' mt' mime' mi' mir' sr' lt' tr' co'].
  cbn [catalog_nodes_replay_equivalent] in Hab. rewrite Hp in Hab. clear Hp. cbn in *. subst.
  assert (forall x y : Z, (ty' = File -> x = y) ->
    (if bool_decide (ty' = File) then x else 0) = (if bool_decide (ty' = File) then y else 0)) as Hif.
  { intros x y Hxy. case_bool_decide; auto. }
  rewrite (Hif bt bt'), (Hif mt mt') by (intros Hf; by apply Et). do 2 f_equal. clear Hif Et.
  destruct co as [cs|]; [|by destruct co' as [[|]|]]. cbn in IH.
  assert (forall ds, (fix go (rs is_ : list CatalogNode) {struct rs} : bool :=
           match rs, is_ with
           | [], [] => true
           | r :: rs', i :: is' => catalog_nodes_replay_equivalent r i && go rs' is'
           | _, _ => false
           end) cs ds = true -> map (content false) cs = map (content false) ds) as Hl.
  { clear -IH. induction IH as [|c cs Hc _ IHc]; intros [|d ds]; try done.
    intros [Hcd Hds]%andb_true_iff. cbn. f_equal; auto. }
  unfold children in Hab. cbn in Hab. rewrite (Hl _ Hab). by destruct co'.
Qed.
