(* ===== verification/SaveSafety.v ===== *)
(** * Saving is safe and complete

    The theory of [CatalogSave.v]. Everything a save writes before its commit goes to
    chunks that the catalog on disk does not use, so a save that stops early changes
    nothing that an unlock reads; and what it has written by the time it commits
    loads, shard by shard, as the catalog being saved. *)

From Stdlib Require Import Strings.Byte Ascii String.
From stdpp Require Import base gmap strings list sorting.
From S2P Require Import Prelude.
From S2P Require Import CatalogNode.
From S2P Require Import CatalogManager.
From S2P Require Import CatalogTree.
From S2P Require Import CatalogInvariant.
From S2P Require Import CatalogDelta.
From S2P Require Import CatalogReplay.
From S2P Require Import CatalogClock.
From S2P Require Import CatalogShard.
From S2P Require Import Bytes.
From S2P Require Import Storage.
From S2P Require Import Crypto.
From S2P Require Import IoLogic.
From S2P Require Import DurableTx.
From S2P Require Import Encoding.
From S2P Require Import CatalogCommit.
From S2P Require Import CatalogLoad.
From S2P Require Import CatalogCompact.
From S2P Require Import CatalogSave.
From S2P Require Import SaveLogic.
Open Scope Z_scope.

(** ** Shard metadata *)

(** The bookkeeping of a shard: its log is [base_version + 1 .. version], short enough to
    be loaded, and counted. *)
Record meta_wf (m : ShardMeta) : Prop := {
  mw_base : 0 <= sm_base_version m;
  mw_count : sm_delta_count m = sm_version m - sm_base_version m;
  mw_range : 0 <= sm_delta_count m < MAX_DELTAS;
  mw_has : sm_has_deltas m = bool_decide (0 < sm_delta_count m);
  mw_last : sm_last_delta_seq m = sm_version m;
  mw_seq : 0 <= sm_snapshot_seq m;
}.

(** A metadata whose chunk numbers are below [B]. *)
Definition meta_below (B : Z) (m : ShardMeta) : Prop := sm_snapshot_seq m < B /\ sm_version m < B.

(** ** What is stored for a shard *)

Section Stored.
Context `{cr : Crypto} {crl : CryptoLaws cr}.
Context `{Serde RootIndex, Serde Shard, Serde DeltaEntry,
          Serde CatalogCommitRecord, Serde (DurableTxRecord CatalogCommitRecord)}.
Context (key : list byte).
Abbreviation quiet d k := (mkWorld d [] k).

(** The chunks of [m] on [d] replay to a tree that holds what [r] does; with its trash records,
    when [T]. *)
Definition stored (d : Disk) (m : ShardMeta) (T : Prop) (r : CatalogNode) : Prop :=
  exists sh ds, holds key d (shard_snapshot_chunk_name key (sm_shard_id m) (sm_snapshot_seq m)) sh
  /\ Forall2 (fun q de => holds key d (delta_chunk_name key (sm_shard_id m) q) de) (log_seqs m) ds
  /\ exists clk n r', apply_deltas clk (sh_root sh) ds = (Ok n, r')
     /\ content false r' = content false r /\ (T -> content true r' = content true r).

Lemma holds_same {A} `{Serde A} d d' n (x : A) : d !! n = d' !! n -> holds key d n x -> holds key d' n x.
Proof. intros E (bs & Hb & Ho). exists bs. by rewrite <- E. Qed.

Lemma stored_weaken d m (T T' : Prop) r : (T' -> T) -> stored d m T r -> stored d m T' r.
Proof.
  intros HT (sh & ds & Hsh & Hds & clk & n & r' & Ha & Hc & Ht). exists sh, ds. split_and!; [done..|].
  exists clk, n, r'. auto.
Qed.

Lemma stored_same d d' m T r :
  (forall n, n ∈ chunks_for_meta key m -> d !! n = d' !! n) -> stored d m T r -> stored d' m T r.
Proof.
  intros E (sh & ds & Hsh & Hds & Hr). exists sh, ds. split_and!; [|..|done].
  - eapply holds_same; [|done]. apply E. left.
  - assert (forall q, q ∈ log_seqs m -> d !! delta_chunk_name key (sm_shard_id m) q
              = d' !! delta_chunk_name key (sm_shard_id m) q) as Eq.
    { intros q Hq. apply E. right. unfold log_seqs in Hq. destruct (sm_has_deltas m); [|by apply elem_of_nil in Hq].
      by apply list_elem_of_fmap_2. }
    clear E Hsh Hr. induction Hds as [|q de qs ds Hq _ IH]; constructor.
    + eapply holds_same; [|done]. apply Eq. left.
    + apply IH. intros q' Hq'. apply Eq. by right.
Qed.

Lemma stored_snapshot d m T sh r :
  holds key d (shard_snapshot_chunk_name key (sm_shard_id m) (sm_snapshot_seq m)) sh ->
  sm_has_deltas m = false -> sh_root sh = r -> stored d m T r.
Proof.
  intros Hsh Hd <-. exists sh, []. rewrite log_seqs_nil by by left. split_and!; [done|constructor|].
  exists (fun _ => 0), 0, (sh_root sh). done.
Qed.

Lemma read_deltas_run d k id from to seqs loaded ds :
  Forall2 (fun q de => holds key d (delta_chunk_name key id q) de) seqs ds ->
  loaded + Z.of_nat (length seqs) <= MAX_DELTAS ->
  read_deltas key id from to seqs loaded (quiet d k) = (Ok ds, quiet d k).
Proof.
  intros Hds. revert loaded. induction Hds as [|q de seqs ds (bs & E & Ho) _ IH]; intros loaded Hl; [done|].
  cbn [read_deltas length] in *. destruct (Z.leb_spec MAX_DELTAS loaded); [lia|]. unfold mbind, IO_bind.
  rewrite (read_chunk_run d k _ bs) by (done || apply chunk_name_u64_valid). unfold io_lift.
  rewrite (proj2 (open_strict_opens key bs _ _ _ de) Ho). cbn [map_err]. unfold mbind, IO_bind in IH.
  by rewrite IH by lia.
Qed.

Lemma wf_log_seqs m :
  meta_wf m -> sm_version m < U64_MAX ->
  log_seqs m = seqZ (sm_base_version m + 1) (sm_version m - sm_base_version m).
Proof.
  intros [] Hu. unfold log_seqs, seq_inclusive. rewrite mw_has0. case_bool_decide.
  - rewrite mw_last0. unfold u64_saturating_add. rewrite Z.min_l by lia. f_equal. lia.
  - replace (sm_version m - sm_base_version m) with 0 by lia. done.
Qed.

(** What is stored loads, at any time. *)
Lemma stored_loads d m T r clk k :
  stored d m T r -> meta_wf m -> sm_version m < U64_MAX ->
  exists s, load_full_shard_from_meta key clk m (quiet d k) = (Ok s, quiet d k)
    /\ content false (sh_root s) = content false r /\ (T -> content true (sh_root s) = content true r).
Proof.
  intros (sh & ds & (bs & E & Ho) & Hds & clk0 & n & r' & Ha & Hr) Hwf Hu.
  unfold load_full_shard_from_meta, read_shard_snapshot_strict, mbind, IO_bind.
  rewrite (chunk_exists_run d k _ bs) by (done || apply snapshot_valid). cbn [negb].
  rewrite (read_chunk_run d k _ bs) by (done || apply snapshot_valid). unfold io_lift. rewrite (proj2 (open_strict_opens key bs _ _ _ sh) Ho). cbn [map_err].
  pose proof (wf_log_seqs m Hwf Hu) as Hl. pose proof (Forall2_length _ _ _ Hds) as Hlen.
  unfold apply_persisted_deltas_with_guard. destruct (sm_has_deltas m) eqn:Hd; cbn [negb].
  2:{ rewrite log_seqs_nil in Hds by by left. apply Forall2_nil_inv_l in Hds as ->.
      injection Ha as _ <-. eexists. split; [done|]. done. }
  rewrite (mw_has _ Hwf) in Hd. apply bool_decide_eq_true in Hd.
  pose proof (mw_count _ Hwf). pose proof (mw_range _ Hwf). pose proof (mw_base _ Hwf). rewrite (mw_last _ Hwf).
  unfold u64_saturating_add. rewrite Z.min_l by lia.
  destruct (Z.ltb_spec (sm_version m) (sm_base_version m + 1)); [lia|].
  assert (seq_inclusive (sm_base_version m + 1) (sm_version m) = log_seqs m) as ->.
  { rewrite Hl. unfold seq_inclusive. f_equal. lia. }
  unfold mbind, IO_bind. rewrite (read_deltas_run d k _ _ _ _ 0 ds Hds) by (rewrite Hl, length_seqZ; lia).
  destruct (last ds) as [dl|] eqn:El.
  - destruct (apply_deltas_sim clk clk0 ds (sh_root sh) (sh_root sh)) as [Ef Hs]; [done|].
    rewrite Ha in Ef, Hs. destruct (apply_deltas clk (sh_root sh) ds) as [x t]. cbn [fst snd] in *. subst x.
    eexists. split; [done|]. cbn [sh_root]. by rewrite !(content_sim _ _ _ (Hs eq_refl)).
  - apply last_None in El as ->. rewrite Hl, length_seqZ in Hlen. cbn in Hlen. lia.
Qed.
End Stored.

(** ** What a save starts from *)

(** The chunks of the shards [ids] with numbers below [B], the root index and the marker. *)
Definition refs_at (id : string) (q : Z) : list chunk_ref := [SnapshotRef id q; DeltaRef id q].
Definition shard_refs (B : Z) (id : string) : list chunk_ref := concat (map (refs_at id) (seqZ 0 B)).
Definition save_refs (B : Z) (ids : list string) : list chunk_ref :=
  RootRef :: CommitRef :: concat (map (shard_refs B) ids).

Lemma elem_of_concat_map {A C} (f : A -> list C) l x :
  x ∈ concat (map f l) <-> exists a, a ∈ l /\ x ∈ f a.
Proof.
  rewrite list_elem_of_In, in_concat. split.
  - intros (l' & (a & <- & Ha)%in_map_iff & Hx). exists a. by rewrite !list_elem_of_In.
  - intros (a & Ha & Hx). exists (f a). rewrite <- !list_elem_of_In. split; [by apply list_elem_of_fmap_2|done].
Qed.

Definition previous_meta (prev : option RootIndex) (id : string) : option ShardMeta :=
  ri ← prev; ri_shards ri !! id.

Definition pending_of (pending : gmap string (list DeltaEntry)) (id : string) : list DeltaEntry :=
  default [] (pending !! id).

(** The shards of the catalog on disk and of the one being saved. *)
Definition save_ids (prev : option RootIndex) (shards : list Shard) : list string :=
  map sh_id shards ++ map fst (map_to_list (from_option ri_shards ∅ prev)).

(** The metadata the save starts from for a shard. *)
Definition base_meta (prev : option RootIndex) (s : Shard) : ShardMeta :=
  meta_for_shard (default (index_new 0) prev) s.

Section Ready.
Context `{cr : Crypto}.
Context `{Serde RootIndex, Serde Shard, Serde DeltaEntry,
          Serde CatalogCommitRecord, Serde (DurableTxRecord CatalogCommitRecord)}.
Context (key : list byte) (D0 : Disk) (prev : option RootIndex) (shards : list Shard)
        (pending : gmap string (list DeltaEntry)) (B : Z).

(** The save keeps the snapshot that is on disk for [s]. *)
Definition kept (s : Shard) : Prop :=
  exists sh, holds key D0 (shard_snapshot_chunk_name key (sh_id s) (sm_snapshot_seq (base_meta prev s))) sh
    /\ shard_snapshot_needs_rewrite sh s = false.

(** Replayed on what is stored for [s], its pending deltas give its trash records if they give
    the rest of it. A save does not compare trash records. *)
Definition trash_recorded (s : Shard) : Prop :=
  forall sh ds clk n r0 n' r1,
    holds key D0 (shard_snapshot_chunk_name key (sh_id s) (sm_snapshot_seq (base_meta prev s))) sh ->
    Forall2 (fun q de => holds key D0 (delta_chunk_name key (sh_id s) q) de) (log_seqs (base_meta prev s)) ds ->
    apply_deltas clk (sh_root sh) ds = (Ok n, r0) ->
    apply_deltas (later (length ds) clk) r0
      (assign_delta_sequences (pending_of pending (sh_id s)) (u64_saturating_add (sm_version (base_meta prev s)) 1)) = (Ok n', r1) ->
    content false r1 = content false (sh_root s) -> content true r1 = content true (sh_root s).

(** [prev] is the root index on [D0] and is well-formed, no commit is pending; the chunk numbers stay
    small and their names are apart; a shard without pending deltas whose snapshot is
    kept is stored already: its changes were saved before. *)
Record save_ready : Prop := {
  sr_unmarked : D0 !! catalog_commit_chunk_name key = None;
  sr_prev : match prev with
            | Some ri => root_is key ri D0 /\ is_sharded ri = true
            | None => D0 !! root_index_chunk_name key 0 = None
            end;
  sr_metas id m : previous_meta prev id = Some m -> sm_shard_id m = id /\ meta_wf m;
  sr_nodup : NoDup (map sh_id shards);
  sr_bound : B <= 2 ^ 24;
  sr_below id m : previous_meta prev id = Some m -> meta_below (B - 1) m;
  sr_pending s : s ∈ shards ->
    sm_version (base_meta prev s) + Z.of_nat (length (pending_of pending (sh_id s))) + 1 < B;
  sr_nul id : id ∈ save_ids prev shards -> contains_char nul id = false;
  sr_names : no_collision key (save_refs B (save_ids prev shards));
  sr_current s : s ∈ shards -> pending_of pending (sh_id s) = [] -> kept s ->
    stored key D0 (base_meta prev s) True (sh_root s);
}.
End Ready.

Section SaveProof.
Context `{cr : Crypto} {crl : CryptoLaws cr}.
Context `{SerdeLaw RootIndex, SerdeLaw Shard, SerdeLaw DeltaEntry,
          Serde CatalogCommitRecord, SerdeLaw (DurableTxRecord CatalogCommitRecord)}.
Context (key : list byte) (clks : string -> clock) (D0 : Disk) (prev : option RootIndex) (shards : list Shard)
        (pending : gmap string (list DeltaEntry)) (B : Z).
Context (ready : save_ready key D0 prev shards pending B).
Abbreviation mk := (catalog_commit_chunk_name key).
Abbreviation rn := (root_index_chunk_name key 0).
Abbreviation old_meta := (previous_meta prev).
Abbreviation base := (base_meta prev).
Abbreviation ids := (save_ids prev shards).

Definition next_seq (id : string) : Z :=
  match old_meta id with Some m => sm_snapshot_seq m + 1 | None => 0 end.

Definition old_version (id : string) : Z := from_option sm_version 0 (old_meta id).

(** *** Names *)

Definition in_scope (r : chunk_ref) : Prop :=
  match r with
  | RootRef | CommitRef => True
  | SnapshotRef id q | DeltaRef id q => id ∈ ids /\ 0 <= q < B
  end.

Lemma in_scope_refs r : in_scope r -> r ∈ save_refs B ids.
Proof.
  unfold save_refs, shard_refs. destruct r as [| |id q|id q]; cbn [in_scope]; [intros _; left|intros _; right; left|..];
    intros [Hid Hq]; do 2 right; apply elem_of_concat_map; exists id; (split; [done|]);
    apply elem_of_concat_map; exists q; (split; [apply elem_of_seqZ; lia|]); rewrite list_elem_of_In; cbn; auto.
Qed.

Lemma save_refs_ok : Forall ref_ok (save_refs B ids).
Proof.
  pose proof (sr_bound _ _ _ _ _ _ ready) as HB. pose proof (sr_nul _ _ _ _ _ _ ready) as Hnul.
  unfold save_refs. repeat (constructor; [done|]). apply Forall_forall. intros r Hr.
  apply elem_of_concat_map in Hr as (id & Hid & (q & Hq%elem_of_seqZ & Hr)%elem_of_concat_map).
  rewrite list_elem_of_In in Hr. destruct Hr as [<-|[<-|[]]]; cbn; [split; [by apply Hnul|lia]|lia].
Qed.

Lemma name_inj r1 r2 : in_scope r1 -> in_scope r2 -> ref_name key r1 = ref_name key r2 -> r1 = r2.
Proof.
  intros Hr1 Hr2. apply (ref_name_inj key (save_refs B ids)); [apply ready|apply save_refs_ok|by apply in_scope_refs..].
Qed.

Lemma shard_in_ids s : s ∈ shards -> sh_id s ∈ ids.
Proof. intros Hs. apply elem_of_app. left. by apply list_elem_of_fmap_2. Qed.

Lemma old_in_ids id m : old_meta id = Some m -> id ∈ ids.
Proof.
  intros Hm. apply elem_of_app. right. unfold previous_meta in Hm. destruct prev as [ri|]; [|done]. cbn in *.
  apply list_elem_of_fmap. exists (id, m). split; [done|]. by apply elem_of_map_to_list.
Qed.

(** The chunks of a shard. *)
Definition chunk_of (m : ShardMeta) (r : chunk_ref) : Prop :=
  match r with
  | SnapshotRef id q => id = sm_shard_id m /\ q = sm_snapshot_seq m
  | DeltaRef id q => id = sm_shard_id m /\ sm_base_version m < q <= sm_version m
  | _ => False
  end.

Lemma chunks_of_meta m n :
  meta_wf m -> sm_version m < U64_MAX ->
  n ∈ chunks_for_meta key m <-> exists r, chunk_of m r /\ n = ref_name key r.
Proof.
  intros Hwf Hu. pose proof (wf_log_seqs m Hwf Hu) as Hl. unfold log_seqs in Hl. unfold chunks_for_meta.
  assert ((if sm_has_deltas m then map (delta_chunk_name key (sm_shard_id m))
             (seq_inclusive (u64_saturating_add (sm_base_version m) 1) (sm_last_delta_seq m)) else [])
          = map (delta_chunk_name key (sm_shard_id m)) (seqZ (sm_base_version m + 1) (sm_version m - sm_base_version m))) as ->.
  { rewrite <- Hl. by destruct (sm_has_deltas m). }
  rewrite elem_of_cons, list_elem_of_fmap. split.
  - intros [->|(q & -> & Hq%elem_of_seqZ)].
    + by exists (SnapshotRef (sm_shard_id m) (sm_snapshot_seq m)).
    + exists (DeltaRef (sm_shard_id m) q). cbn. split; [split; [done|lia]|done].
  - intros ([| |id q|id q] & Hr & ->); cbn in Hr; [done..|destruct Hr as [-> ->]; by left|].
    destruct Hr as [-> Hq]. right. exists q. split; [done|]. apply elem_of_seqZ. lia.
Qed.

Lemma chunk_in_scope m r : sm_shard_id m ∈ ids -> meta_wf m -> meta_below B m -> chunk_of m r -> in_scope r.
Proof.
  intros Hid Hwf [Hb1 Hb2]. pose proof (mw_seq _ Hwf). pose proof (mw_base _ Hwf).
  destruct r as [| |id q|id q]; cbn; intros Hr; try done; destruct Hr as [-> ?]; (split; [done|lia]).
Qed.

Lemma below_u64 m : meta_below B m -> sm_version m < U64_MAX.
Proof. intros [_ ?]. pose proof (sr_bound _ _ _ _ _ _ ready). unfold U64_MAX. lia. Qed.

Lemma old_meta_facts id m :
  old_meta id = Some m -> sm_shard_id m = id /\ meta_wf m /\ meta_below B m /\ sm_version m < U64_MAX.
Proof.
  intros Hm. destruct (sr_metas _ _ _ _ _ _ ready _ _ Hm). pose proof (sr_below _ _ _ _ _ _ ready _ _ Hm) as [? ?].
  assert (meta_below B m) by (split; lia). split_and!; try done; try by apply below_u64.
Qed.

Lemma base_facts s :
  s ∈ shards -> sm_shard_id (base s) = sh_id s /\ meta_wf (base s) /\ meta_below B (base s)
  /\ sm_version (base s) = old_version (sh_id s)
  /\ sm_snapshot_seq (base s) = from_option sm_snapshot_seq 0 (old_meta (sh_id s)).
Proof.
  intros Hs. pose proof (sr_pending _ _ _ _ _ _ ready s Hs) as Hp.
  unfold old_version. unfold base_meta, meta_for_shard in *.
  assert (ri_shards (default (index_new 0) prev) !! sh_id s = old_meta (sh_id s)) as E.
  { unfold previous_meta. destruct prev; [done|]. cbn. by rewrite lookup_empty. }
  rewrite E in *. destruct (old_meta (sh_id s)) as [m|] eqn:Hm; cbn in *.
  - destruct (old_meta_facts _ _ Hm) as (? & [] & [? ?] & ?). split_and!; try done.
  - assert (0 < B) by lia. split_and!; try done; try (split; cbn; done).
Qed.

(** *** Fresh chunks *)

(** The chunks a save may write for the shards [W]. *)
Definition fresh (W : gset string) (r : chunk_ref) : Prop :=
  match r with
  | SnapshotRef id q => id ∈ W /\ q = next_seq id
  | DeltaRef id q => id ∈ W /\ old_version id < q < B
  | _ => False
  end.

Definition ours (W : gset string) : Prop := forall id, id ∈ W -> id ∈ map sh_id shards.

Lemma next_seq_range id : id ∈ map sh_id shards -> 0 <= next_seq id < B.
Proof.
  intros (s & -> & Hs)%list_elem_of_fmap. unfold next_seq. destruct (old_meta (sh_id s)) as [m|] eqn:Hm.
  - destruct (old_meta_facts _ _ Hm) as (_ & Hwf & _). pose proof (mw_seq _ Hwf).
    destruct (sr_below _ _ _ _ _ _ ready _ _ Hm). lia.
  - destruct (base_facts s Hs) as (_ & Hwf & [? ?] & _). pose proof (mw_seq _ Hwf). lia.
Qed.

Lemma old_version_range id : 0 <= old_version id.
Proof.
  unfold old_version. destruct (old_meta id) as [m|] eqn:Hm; cbn; [|done].
  destruct (old_meta_facts _ _ Hm) as (_ & [] & _). lia.
Qed.

Lemma fresh_in_scope W r : ours W -> fresh W r -> in_scope r.
Proof.
  intros HW. assert (forall id, id ∈ W -> id ∈ ids) as Hids by (intros id Hid; apply elem_of_app; left; by apply HW).
  destruct r as [| |id q|id q]; cbn; intros Hr; try done; destruct Hr as [Hid Hq]; (split; [by apply Hids|]).
  - subst q. by apply next_seq_range, HW.
  - pose proof (old_version_range id). lia.
Qed.

(** What an unlock of [D0] reads. *)
Definition protected (n : string) : Prop :=
  n = mk \/ n = rn \/ exists id m, old_meta id = Some m /\ n ∈ chunks_for_meta key m.

Lemma fresh_unprotected W r : ours W -> fresh W r -> ~ protected (ref_name key r).
Proof.
  intros HW Hf. pose proof (fresh_in_scope W r HW Hf) as Hs. intros [E|[E|(id & m & Hm & Hn)]].
  - by rewrite (name_inj r CommitRef Hs I E) in Hf.
  - by rewrite (name_inj r RootRef Hs I E) in Hf.
  - destruct (old_meta_facts _ _ Hm) as (Hid & Hwf & Hb & Hu).
    apply chunks_of_meta in Hn as (r' & Hr' & E); [|done..].
    rewrite (name_inj r r' Hs) in Hf; [|by eapply chunk_in_scope; [rewrite Hid; by eapply old_in_ids|..]|done].
    destruct r' as [| |i q|i q]; cbn in *; try done; destruct Hr' as [-> Hq], Hf as [_ Hf]; rewrite Hid in Hf.
    + unfold next_seq in Hf. rewrite Hm in Hf. lia.
    + unfold old_version in Hf. rewrite Hm in Hf. cbn in Hf. lia.
Qed.

(** An unlock of [d] sees what one of [D0] sees. *)
Definition Safe (d : Disk) : Prop := forall n, protected n -> d !! n = D0 !! n.

Lemma Safe_insert W r d bs : ours W -> fresh W r -> Safe d -> Safe (<[ref_name key r := bs]> d).
Proof.
  intros HW Hf Hd n Hn. rewrite lookup_insert_ne; [by apply Hd|]. intros <-. by eapply fresh_unprotected.
Qed.

(** *** The invariant of a save *)

Abbreviation metas σ := (ri_shards (sv_root_index σ)).

(** The shard [s] is on the disk in its final form. *)
Definition settled (σ : SaveState) (d : Disk) (s : Shard) : Prop :=
  exists m, metas σ !! sh_id s = Some m /\ sm_shard_id m = sh_id s /\ meta_wf m /\ meta_below B m
    /\ stored key d m (trash_recorded key D0 prev pending s) (sh_root s).

(** [s] was written ([W]), or nothing was done for it yet and [Φ] is known of it. *)
Definition status (W : gset string) (Φ : Shard -> Prop) (σ : SaveState) (d : Disk) (s : Shard) : Prop :=
  (sh_id s ∈ W /\ settled σ d s) \/ ((sh_id s ∉ W) /\ metas σ !! sh_id s = Some (base s) /\ Φ s).

(** A replaced chunk is one of a shard that is gone, or that has a new snapshot and no log. *)
Definition replaced (σ : SaveState) (n : string) : Prop :=
  exists id m, old_meta id = Some m /\ n ∈ chunks_for_meta key m
    /\ ((id ∉ map sh_id shards)
        \/ exists m', metas σ !! id = Some m' /\ sm_shard_id m' = id /\ sm_snapshot_seq m' = next_seq id
                      /\ sm_has_deltas m' = false).

(** [X] are shards being worked on; [dn] those whose pending deltas were dealt with. *)
Record Core (version : Z) (W : gset string) (Φ : Shard -> Prop) (dn X : list string)
    (σ : SaveState) (d : Disk) : Prop := {
  co_ours : ours W;
  co_disk n : n ∉ sv_new_chunks σ -> d !! n = D0 !! n;
  co_new n : n ∈ sv_new_chunks σ -> exists r, n = ref_name key r /\ fresh W r;
  co_old n : n ∈ sv_old_chunks σ -> replaced σ n;
  co_sharded : is_sharded (sv_root_index σ) = true;
  co_version : ri_root_version (sv_root_index σ) = version;
  co_dom id : is_Some (metas σ !! id) <-> id ∈ map sh_id shards;
  co_pending id : id ∉ dn -> sv_pending σ !! id = pending !! id;
  co_status s : s ∈ shards -> sh_id s ∉ X -> status W Φ σ d s;
}.

Lemma core_safe v W Φ dn X σ d : Core v W Φ dn X σ d -> Safe d.
Proof.
  intros Hc n Hn. apply (co_disk _ _ _ _ _ _ _ Hc). intros (r & -> & Hf)%(co_new _ _ _ _ _ _ _ Hc).
  eapply fresh_unprotected; [|done..]. apply Hc.
Qed.

(** Chunks of other shards do not matter to what is stored for one. *)
Lemma stored_other d m T x r bs :
  meta_wf m -> meta_below B m -> sm_shard_id m ∈ ids -> in_scope r ->
  ~ chunk_of m r -> stored key d m T x -> stored key (<[ref_name key r := bs]> d) m T x.
Proof.
  intros Hwf Hb Hid Hr Hne. apply stored_same. intros n Hn.
  apply chunks_of_meta in Hn as (r' & Hr' & ->); [|done|by apply below_u64].
  rewrite lookup_insert_ne; [done|]. intros E. apply Hne.
  rewrite (name_inj r r'); [done|done|by eapply chunk_in_scope|done].
Qed.

Definition ref_shard (r : chunk_ref) : option string :=
  match r with SnapshotRef id _ | DeltaRef id _ => Some id | _ => None end.

Lemma settled_other σ d s r bs :
  s ∈ shards -> in_scope r -> ref_shard r <> Some (sh_id s) -> settled σ d s ->
  settled σ (<[ref_name key r := bs]> d) s.
Proof.
  intros Hs Hr Hne (m & Hm & Hid & Hwf & Hb & Hst). exists m. split_and!; try done.
  apply stored_other; try done; [rewrite Hid; by apply shard_in_ids|].
  destruct r as [| |i q|i q]; cbn in *; [intros []..| |]; intros [-> _]; congruence.
Qed.

Lemma id_inj s s' : s ∈ shards -> s' ∈ shards -> sh_id s = sh_id s' -> s = s'.
Proof.
  intros (i & Hi)%list_elem_of_lookup (j & Hj)%list_elem_of_lookup E.
  assert (i = j) as ->; [|congruence]. eapply NoDup_lookup; [apply (sr_nodup _ _ _ _ _ _ ready)|..];
    rewrite list_lookup_fmap; [rewrite Hi|rewrite Hj]; cbn; [done|by rewrite E].
Qed.

(** *** A new snapshot for a shard *)

Definition put_meta (id : string) (m : ShardMeta) (ri : RootIndex) : RootIndex := with_shard_meta id (fun _ => m) ri.

Lemma lookup_put_meta id id' m ri :
  ri_shards (put_meta id m ri) !! id'
  = if decide (id = id') then (fun _ => m) <$> ri_shards ri !! id' else ri_shards ri !! id'.
Proof.
  cbn. case_decide as E; [subst; apply lookup_alter_eq|by apply lookup_alter_ne].
Qed.

(** The metadata of a shard with the next snapshot and no log. *)
Definition rewritten_meta (s : Shard) (m : ShardMeta) : Prop :=
  sm_shard_id m = sh_id s /\ meta_wf m /\ meta_below B m /\ sm_snapshot_seq m = next_seq (sh_id s)
  /\ sm_has_deltas m = false.

Lemma replaced_put σ σ' id m n :
  sv_root_index σ' = put_meta id m (sv_root_index σ) -> sm_shard_id m = id -> sm_snapshot_seq m = next_seq id ->
  sm_has_deltas m = false -> replaced σ n -> replaced σ' n.
Proof.
  intros E Hid Hseq Hd (i & mo & Hmo & Hn & Hr). exists i, mo. split_and!; try done.
  destruct Hr as [?|(m' & Hm' & Hrest)]; [by left|]. right. rewrite E, lookup_put_meta.
  case_decide as Ei; [subst i; rewrite Hm'; by exists m|by exists m'].
Qed.

Lemma core_rewrite v W Φ dn σ σ' d s m bs sh :
  let n := shard_snapshot_chunk_name key (sh_id s) (next_seq (sh_id s)) in
  Core v W Φ dn [] σ d -> s ∈ shards -> sh_id s ∉ W -> rewritten_meta s m ->
  opens_to key (as_bytes n) bs sh -> sh_root sh = sh_root s ->
  sv_root_index σ' = put_meta (sh_id s) m (sv_root_index σ) ->
  sv_old_chunks σ' = sv_old_chunks σ ++ from_option (chunks_for_meta key) [] (old_meta (sh_id s)) ->
  sv_new_chunks σ' = sv_new_chunks σ ++ [n] -> sv_pending σ' = sv_pending σ ->
  Core v ({[sh_id s]} ∪ W) Φ dn [] σ' (<[n := bs]> d).
Proof.
  intros n Hc Hs HW (Hid & Hwf & Hb & Hseq & Hd) Ho Hroot Eri Eold Enew Epend.
  assert (sh_id s ∈ map sh_id shards) as Hin by by apply list_elem_of_fmap_2.
  assert (n = ref_name key (SnapshotRef (sh_id s) (next_seq (sh_id s)))) as En by done.
  assert (ours ({[sh_id s]} ∪ W)) as HW'.
  { intros i [->%elem_of_singleton|Hi]%elem_of_union; [done|by apply (co_ours _ _ _ _ _ _ _ Hc)]. }
  assert (fresh ({[sh_id s]} ∪ W) (SnapshotRef (sh_id s) (next_seq (sh_id s)))) as Hf.
  { split; [by apply elem_of_union_l, elem_of_singleton|done]. }
  split; rewrite ?Eold, ?Enew, ?Epend; try apply Hc; try done.
  - intros n' Hn'. rewrite not_elem_of_app in Hn'. destruct Hn' as [Hn1 Hn2].
    rewrite lookup_insert_ne; [by apply (co_disk _ _ _ _ _ _ _ Hc)|]. intros ->. apply Hn2. left.
  - intros n' [(r & -> & Hr)%(co_new _ _ _ _ _ _ _ Hc)| ->%list_elem_of_singleton]%elem_of_app.
    + exists r. split; [done|]. destruct r; cbn in *; rewrite ?elem_of_union; intuition.
    + by eexists.
  - intros n' [Hn'%(co_old _ _ _ _ _ _ _ Hc)|Hn']%elem_of_app.
    + eapply replaced_put; [apply Eri|done..].
    + destruct (old_meta (sh_id s)) as [mo|] eqn:Hmo; [|by apply elem_of_nil in Hn'].
      exists (sh_id s), mo. split_and!; [done..|]. right. rewrite Eri, lookup_put_meta, decide_True by done.
      destruct (proj2 (co_dom _ _ _ _ _ _ _ Hc (sh_id s)) Hin) as [m0 ->]. by exists m.
  - rewrite Eri. apply Hc.
  - rewrite Eri. apply Hc.
  - intros i. rewrite Eri, lookup_put_meta. case_decide; [rewrite fmap_is_Some|]; apply Hc.
  - intros s' Hs' _. destruct (decide (sh_id s' = sh_id s)) as [E|Hne].
    + left. rewrite (id_inj s' s) by done. split; [by apply elem_of_union_l, elem_of_singleton|]. exists m. rewrite Eri, lookup_put_meta, decide_True by done.
      destruct (proj2 (co_dom _ _ _ _ _ _ _ Hc (sh_id s)) Hin) as [m0 ->]. split_and!; try done.
      eapply stored_snapshot; [|done..]. rewrite Hid, Hseq. exists bs. fold n. by rewrite lookup_insert_eq.
    + destruct (co_status _ _ _ _ _ _ _ Hc s' Hs') as [[Hin' Hst]|(Hout & Hm & HΦ)]; [apply not_elem_of_nil|left|right].
      * split; [by apply elem_of_union_r|]. rewrite En.
        destruct (settled_other σ d s' (SnapshotRef (sh_id s) (next_seq (sh_id s))) bs) as (m' & Hm' & Hrest); try done;
          [by eapply fresh_in_scope|cbn; congruence|].
        exists m'. rewrite Eri, lookup_put_meta, decide_False by done. done.
      * split_and!; [by rewrite not_elem_of_union, not_elem_of_singleton| |done]. by rewrite Eri, lookup_put_meta, decide_False.
Qed.

Lemma rebased_meta s m seq :
  s ∈ shards -> m = base s \/ m = meta_increment_version (base s) -> seq = next_seq (sh_id s) ->
  rewritten_meta s (meta_rebase seq m).
Proof.
  intros Hs Hm ->. destruct (base_facts s Hs) as (Hid & [] & [? ?] & _).
  pose proof (sr_pending _ _ _ _ _ _ ready s Hs) as Hp. pose proof (sr_bound _ _ _ _ _ _ ready).
  destruct (next_seq_range (sh_id s)) as [? ?]; [by apply list_elem_of_fmap_2|].
  assert (sm_shard_id m = sh_id s /\ 0 <= sm_version m < B) as [Hid' [? ?]].
  { destruct Hm as [-> | ->]; cbn [meta_increment_version meta_set_versions sm_shard_id sm_version]; [split; [done|lia]|].
    split; [done|]. rewrite u64_add_small; [lia|]. unfold is_u64, U64_MAX. lia. }
  split_and!; try done. by split; cbn; rewrite ?Z.sub_diag.
Qed.

(** The snapshot of an untouched shard is the one that was on disk. *)
Lemma untouched_chunk v W Φ dn X σ d s r :
  Core v W Φ dn X σ d -> s ∈ shards -> sh_id s ∉ W -> in_scope r -> ref_shard r = Some (sh_id s) ->
  d !! ref_name key r = D0 !! ref_name key r.
Proof.
  intros Hc Hs HW Hr Hrs. apply (co_disk _ _ _ _ _ _ _ Hc). intros (r' & E & Hf)%(co_new _ _ _ _ _ _ _ Hc).
  rewrite (name_inj r r') in Hrs; [|done|eapply fresh_in_scope; [apply Hc|done]|done].
  destruct r'; cbn in *; try done; injection Hrs as ->; by destruct Hf.
Qed.

Lemma snapshot_check_spec (K : Disk -> Prop) n s :
  (forall d, K d -> Safe d) ->
  ensures K (snapshot_check key n s)
    (fun chk d => K d /\ (fst chk = false -> exists sh, holds key d n sh /\ shard_snapshot_needs_rewrite sh s = false)) Safe.
Proof.
  intros HK. unfold snapshot_check. apply (ensures_bind _ _ _ (fun _ => K)).
  { eapply (ensures_conseq K K); [by apply ensures_exists|done|by intros ?? []]. }
  intros e. destruct e; cbn [negb]; [|by apply ensures_ret].
  eapply ensures_bind; [by apply ensures_try_read|]. intros r.
  destruct r as [bs|]; cbn; [|apply ensures_ret; by intros d []].
  destruct (open_sealed bs key (as_bytes n)) as [sh|] eqn:Eo; [|apply ensures_ret; by intros d []].
  destruct (shard_snapshot_needs_rewrite sh s) eqn:En; apply ensures_ret; intros d [Hd Hbs]; (split; [done|]);
    cbn; [done|]. intros _. exists sh. split; [|done]. exists bs. split; [by apply Hbs|].
  unfold open_sealed in Eo. destruct (decrypt _ _ _) as [plain|] eqn:Ed; [|done]. cbn in Eo.
  exists plain. split; [done|]. by apply ok_or_Ok_inv in Eo.
Qed.

(** *** The snapshot loop *)

(** The shards in [done] that were not rewritten keep their snapshots. *)
Definition checked_snapshots (done : list string) (s : Shard) : Prop := sh_id s ∈ done -> kept key D0 prev s.

Lemma core_weaken v W (Φ Ψ : Shard -> Prop) dn X σ d :
  (forall s, s ∈ shards -> sh_id s ∉ W -> Φ s -> Ψ s) -> Core v W Φ dn X σ d -> Core v W Ψ dn X σ d.
Proof.
  intros HΦ Hc. split; try apply Hc. intros s Hs HX.
  destruct (co_status _ _ _ _ _ _ _ Hc s Hs HX) as [?|(? & ? & ?)]; [by left|right; auto].
Qed.

Lemma next_seq_code s :
  s ∈ shards ->
  (if bool_decide (is_Some (old_meta (sh_id s)))
   then u64_saturating_add (from_option sm_snapshot_seq 0 (old_meta (sh_id s))) 1 else 0) = next_seq (sh_id s).
Proof.
  intros Hs. destruct (next_seq_range (sh_id s)) as [_ Hr]; [by apply list_elem_of_fmap_2|].
  pose proof (sr_bound _ _ _ _ _ _ ready). unfold next_seq in *.
  destruct (old_meta (sh_id s)) as [m|] eqn:Hm; cbn; [|done].
  unfold u64_saturating_add, U64_MAX. lia.
Qed.

Lemma kept_of_disk v W Φ dn X σ d s sh :
  Core v W Φ dn X σ d -> s ∈ shards -> sh_id s ∉ W ->
  holds key d (shard_snapshot_chunk_name key (sh_id s) (sm_snapshot_seq (base s))) sh ->
  shard_snapshot_needs_rewrite sh s = false -> kept key D0 prev s.
Proof.
  intros Hc Hs HW Hsh Hn. exists sh. split; [|done]. eapply holds_same; [|exact Hsh].
  destruct (base_facts s Hs) as (Hid & Hwf & [Hb _] & _). pose proof (mw_seq _ Hwf).
  apply (untouched_chunk v W Φ dn X σ d s (SnapshotRef (sh_id s) (sm_snapshot_seq (base s)))); try done.
  split; [by apply shard_in_ids|lia].
Qed.

Lemma save_snapshot_spec v W done s :
  s ∈ shards -> sh_id s ∉ W ->
  saves (Core v W (checked_snapshots done) [] []) (save_snapshot key prev s)
    (fun b => Core v (if b then {[sh_id s]} ∪ W else W) (checked_snapshots (sh_id s :: done)) [] []) Safe.
Proof.
  intros Hs HW. apply at_intro. intros σ. unfold save_snapshot.
  change (ri ← prev; ri_shards ri !! sh_id s) with (old_meta (sh_id s)).
  eapply at_io; [apply snapshot_check_spec; intros d; apply core_safe|].
  intros [needs changed]. destruct needs; cbn [negb fst].
  2:{ apply at_ret. intros d [Hc Hk]. destruct (Hk eq_refl) as (sh & Hsh & Hn).
      destruct (base_facts s Hs) as (_ & _ & _ & _ & Eseq). rewrite <- Eseq in Hsh.
      eapply core_weaken; [|done]. intros s' Hs' HW' Hk' [E|Hin]%elem_of_cons; [|by apply Hk'].
      rewrite (id_inj s' s) by done. by eapply kept_of_disk. }
  apply at_get.
  destruct (get_shard_meta (sv_root_index σ) (sh_id s)) as [meta|] eqn:Em.
  2:{ apply at_ret. intros d [Hc _]. destruct (proj2 (co_dom _ _ _ _ _ _ _ Hc (sh_id s))) as [m0 Hm0];
        [by apply list_elem_of_fmap_2|]. unfold get_shard_meta in Em. congruence. }
  apply at_on. cbv zeta. rewrite next_seq_code by done. apply at_on.
  set (m1 := if changed then _ else _). set (sh := with_versions _ s).
  set (n := shard_snapshot_chunk_name key (sh_id s) (next_seq (sh_id s))).
  eapply at_io; [apply (ensures_seal sh); intros d [Hc _]; by eapply core_safe|]. intros bs.
  apply at_on. set (σ' := push_new _ _).
  assert (forall d, ((Core v W (checked_snapshots done) [] [] σ d /\ (true = false -> exists sh0, holds key d
      (shard_snapshot_chunk_name key (sh_id s) (from_option sm_snapshot_seq 0 (old_meta (sh_id s)))) sh0
      /\ shard_snapshot_needs_rewrite sh0 s = false)) /\ opens_to key (as_bytes n) bs sh) ->
    Core v ({[sh_id s]} ∪ W) (checked_snapshots (sh_id s :: done)) [] [] σ' (<[n := bs]> d)) as Hfin.
  { intros d [[Hc _] Ho]. apply (core_weaken _ _ (checked_snapshots done)).
    { intros s' _ Hs' Hk [E|?]%elem_of_cons; [|by apply Hk]. exfalso. apply Hs'. rewrite E. set_solver. }
    eapply (core_rewrite v W _ [] σ σ' d s (meta_rebase (next_seq (sh_id s)) m1) bs sh); try done.
    apply rebased_meta; [done| |done].
    destruct (co_status _ _ _ _ _ _ _ Hc s Hs (not_elem_of_nil _)) as [[? _]|(_ & Hm & _)]; [done|].
    unfold get_shard_meta in Em. rewrite Hm in Em. injection Em as <-. unfold m1. destruct changed; auto. }
  eapply at_io.
  - apply ensures_write; intros d Hd; [destruct Hd as [[Hc _] _]; by eapply core_safe|].
    eapply core_safe, Hfin, Hd.
  - intros u. apply at_ret. intros d (d0 & Hd0 & ->). by apply Hfin.
Qed.

Lemma save_snapshots_spec v W done ss :
  (forall s, s ∈ ss -> s ∈ shards) -> (forall s, s ∈ ss -> sh_id s ∉ W) -> NoDup (map sh_id ss) ->
  saves (Core v W (checked_snapshots done) [] []) (save_snapshots key prev ss)
    (fun R => Core v (R ∪ W) (checked_snapshots (reverse (map sh_id ss) ++ done)) [] []) Safe.
Proof.
  revert W done. induction ss as [|s ss IH]; intros W done Hin HW Hnd; cbn [save_snapshots].
  { apply saves_ret. intros σ d Hc. by rewrite (left_id_L ∅ (∪)). }
  apply NoDup_cons in Hnd as [Hni Hnd].
  eapply saves_bind; [apply save_snapshot_spec; [apply Hin; left|apply HW; left]|]. intros b.
  eapply saves_bind; [apply IH|].
  - intros s' Hs'. apply Hin. by right.
  - intros s' Hs'. assert (sh_id s' <> sh_id s) by (intros E; apply Hni; rewrite <- E; by apply list_elem_of_fmap_2).
    assert (sh_id s' ∉ W) by (apply HW; by right). destruct b; [|done].
    rewrite not_elem_of_union, not_elem_of_singleton. done.
  - done.
  - intros R. apply saves_ret. intros σ d Hc. cbn [map]. rewrite reverse_cons, <- app_assoc. cbn [app].
    destruct b; [|done]. by rewrite (assoc_L (∪)), (comm_L (∪) R) in Hc.
Qed.

(** *** Which shards are written as deltas *)

(** The deltas [ds'] of [s] replay to it, on what is on disk. *)
Definition replay_checked (s : Shard) (ds' : list DeltaEntry) : Prop :=
  sm_delta_count (base s) + Z.of_nat (length ds') < MAX_DELTAS
  /\ exists sh ds clk n r0 n' r1,
       holds key D0 (shard_snapshot_chunk_name key (sh_id s) (sm_snapshot_seq (base s))) sh
       /\ Forall2 (fun q de => holds key D0 (delta_chunk_name key (sh_id s) q) de) (log_seqs (base s)) ds
       /\ apply_deltas clk (sh_root sh) ds = (Ok n, r0)
       /\ apply_deltas (later (length ds) clk) r0
            (assign_delta_sequences ds' (u64_saturating_add (sm_version (base s)) 1)) = (Ok n', r1)
       /\ catalog_nodes_replay_equivalent r1 (sh_root s) = true.

Section Untouched.
(** On the disks of [K], the chunks of [s] are those of [D0]. *)
Context (K : Disk -> Prop) (s : Shard) (Hs : s ∈ shards).
Context (HK : forall d, K d -> Safe d).
Context (Hsame : forall d r, K d -> in_scope r -> ref_shard r = Some (sh_id s) -> d !! ref_name key r = D0 !! ref_name key r).

Lemma open_sealed_inv {A} `{Serde A} bs aad (x : A) : open_sealed bs key aad = Ok x -> opens_to key aad bs x.
Proof.
  unfold open_sealed. destruct (decrypt bs key aad) as [plain|] eqn:Ed; [|done]. cbn.
  intros Hx%ok_or_Ok_inv. by exists plain.
Qed.

Lemma read_ref_spec r :
  in_scope r -> ref_shard r = Some (sh_id s) ->
  ensures K (read_chunk (ref_name key r)) (fun bs d => K d /\ D0 !! ref_name key r = Some bs) Safe.
Proof.
  intros Hr Hrs. eapply (ensures_conseq K K); [by apply ensures_read|done|].
  intros bs d [Hd E]. split; [done|]. by rewrite <- (Hsame d r).
Qed.

Lemma read_delta_chunks_spec seqs :
  (forall q, q ∈ seqs -> 0 <= q < B) ->
  ensures K (read_delta_chunks key (sh_id s) seqs)
    (fun ds d => K d /\ Forall2 (fun q de => holds key D0 (delta_chunk_name key (sh_id s) q) de) seqs ds) Safe.
Proof.
  induction seqs as [|q seqs IH]; intros Hq; cbn [read_delta_chunks].
  { apply ensures_ret. intros d Hd. split; [done|constructor]. }
  eapply ensures_bind; [apply (read_ref_spec (DeltaRef (sh_id s) q)); [split; [by apply shard_in_ids|apply Hq; left]|done]|].
  intros bs. apply ensures_pure. intros Ebs. eapply ensures_bind; [by apply ensures_lift|].
  intros de. apply ensures_pure. intros Ho%open_sealed_inv. eapply ensures_bind; [apply IH; intros q' Hq'; apply Hq; by right|].
  intros ds. apply ensures_pure. intros Hds. apply ensures_ret. intros d Hd. split; [done|].
  constructor; [by exists bs|done].
Qed.

Lemma read_persisted_spec :
  ensures K (if sm_has_deltas (base s) then read_persisted_deltas key (base s) else mret [])
    (fun ds d => K d /\ Forall2 (fun q de => holds key D0 (delta_chunk_name key (sh_id s) q) de) (log_seqs (base s)) ds) Safe.
Proof.
  destruct (base_facts s Hs) as (Hid & Hwf & Hb & _). pose proof (below_u64 _ Hb) as Hu.
  pose proof (wf_log_seqs _ Hwf Hu) as Hl. unfold read_persisted_deltas.
  destruct (sm_has_deltas (base s)) eqn:Hd; cbn [negb].
  - assert (log_seqs (base s) = seq_inclusive (u64_saturating_add (sm_base_version (base s)) 1) (sm_last_delta_seq (base s))) as El.
    { unfold log_seqs. by rewrite Hd. }
    destruct (_ <? _) eqn:Hlt.
    + apply Z.ltb_lt in Hlt. rewrite log_seqs_nil by by right. apply ensures_ret. intros d Hk. split; [done|constructor].
    + rewrite <- El, Hid. apply read_delta_chunks_spec. rewrite Hl. intros q Hq%elem_of_seqZ.
      pose proof (mw_base _ Hwf). destruct Hb. lia.
  - rewrite log_seqs_nil by by left. apply ensures_ret. intros d Hk. split; [done|constructor].
Qed.

Lemma read_snapshot_spec :
  ensures K (read_shard_snapshot key (base s))
    (fun sh d => K d /\ holds key D0 (shard_snapshot_chunk_name key (sh_id s) (sm_snapshot_seq (base s))) sh) Safe.
Proof.
  destruct (base_facts s Hs) as (Hid & Hwf & [Hb _] & _). pose proof (mw_seq _ Hwf).
  unfold read_shard_snapshot. rewrite Hid.
  eapply ensures_bind; [apply (read_ref_spec (SnapshotRef (sh_id s) (sm_snapshot_seq (base s))));
    [split; [by apply shard_in_ids|lia]|done]|].
  intros bs. apply ensures_pure. intros E. eapply (ensures_conseq K K); [by apply ensures_lift|done|].
  intros sh d [Hd Ho%open_sealed_inv]. split; [done|]. by exists bs.
Qed.

Lemma needs_fallback_spec ds' :
  sm_delta_count (base s) + Z.of_nat (length ds') < MAX_DELTAS ->
  ensures K (pending_delta_chain_needs_snapshot_fallback key clks (base s)
               (assign_delta_sequences ds' (u64_saturating_add (sm_version (base s)) 1)) s)
    (fun b d => K d /\ (b = false -> replay_checked s ds')) Safe.
Proof.
  intros Hcount. unfold pending_delta_chain_needs_snapshot_fallback.
  set (assigned := assign_delta_sequences _ _). set (clk := clks _).
  eapply ensures_bind; [apply read_snapshot_spec|]. intros sh. apply ensures_pure. intros Hsh.
  eapply ensures_bind; [apply read_persisted_spec|]. intros ds. apply ensures_pure. intros Hds.
  destruct (apply_deltas clk (sh_root sh) ds) as [x r0] eqn:E0.
  eapply ensures_bind; [by apply ensures_lift|]. intros n. apply ensures_pure. intros ->.
  destruct (apply_deltas (later (length ds) clk) r0 assigned) as [[n'|e] r1] eqn:E1.
  - destruct (catalog_nodes_replay_equivalent r1 (sh_root s)) eqn:Eq.
    + apply ensures_ret. intros d Hd. split; [done|]. intros _. split; [done|].
      by exists sh, ds, clk, n, r0, n', r1.
    + eapply ensures_bind; [by apply ensures_lift|]. intros u. apply ensures_ret. by intros d [? _].
  - assert (ensures K (io_lift (ensure_snapshot_fallback_preserves_existing_nodes (base s) r0 (sh_root s) assigned);; mret true)
      (fun b d => K d /\ (b = false -> replay_checked s ds')) Safe) as Hfb.
    { eapply ensures_bind; [by apply ensures_lift|]. intros u. apply ensures_ret. by intros d [? _]. }
    assert (forall e', ensures K (io_throw e') (fun (b : bool) d => K d /\ (b = false -> replay_checked s ds')) Safe) as Hth.
    { intros e' w Hw. by apply HK. }
    destruct e; done.
Qed.
End Untouched.

Lemma limit_count s n :
  s ∈ shards -> 0 < n -> pending_delta_chain_reaches_limit (base s) n = false -> sm_delta_count (base s) + n < MAX_DELTAS.
Proof.
  intros Hs Hn. destruct (base_facts s Hs) as (_ & [] & _). unfold pending_delta_chain_reaches_limit.
  destruct (Z.eqb_spec n 0); [lia|]. intros Hlim%Z.leb_gt. unfold u64_saturating_add, U64_MAX, MAX_DELTAS in *. lia.
Qed.

(** The shards of [pend] that are not rewritten and not in the result replay. *)
Lemma fallback_spec v R (σ : SaveState) pend :
  ensures (Core v R (checked_snapshots (reverse (map sh_id shards))) [] [] σ)
    (fallback_shards key clks shards (sv_root_index σ) R pend)
    (fun F d => Core v R (checked_snapshots (reverse (map sh_id shards))) [] [] σ d
       /\ forall s ds', s ∈ shards -> (sh_id s, ds') ∈ pend -> ds' <> [] -> sh_id s ∉ R -> sh_id s ∉ F ->
          replay_checked s ds') Safe.
Proof.
  induction pend as [|[id ds'] pend IH]; cbn [fallback_shards].
  { apply ensures_ret. intros d Hd. split; [done|]. intros s ds' _ Hin. by apply elem_of_nil in Hin. }
  set (K := Core _ _ _ _ _ _) in *.
  apply (ensures_bind _ _ _ (fun b d => K d /\ forall s, s ∈ shards -> sh_id s = id -> ds' <> [] -> id ∉ R ->
           b = false -> replay_checked s ds')).
  { destruct (bool_decide (ds' = []) || bool_decide (id ∈ R)) eqn:Eskip.
    { apply ensures_ret. intros d Hd. split; [done|]. intros s _ _ Hne HR _.
      by rewrite !bool_decide_false in Eskip. }
    apply orb_false_iff in Eskip as [Hne%bool_decide_eq_false HR%bool_decide_eq_false].
    destruct (get_shard_meta (sv_root_index σ) id) as [meta|] eqn:Em.
    2:{ apply ensures_ret. intros d Hd. split; [done|]. intros s Hs <- _ _ _.
        destruct (proj2 (co_dom _ _ _ _ _ _ _ Hd (sh_id s))) as [m0 Hm0]; [by apply list_elem_of_fmap_2|].
        unfold get_shard_meta in Em. congruence. }
    destruct (List.find (fun s => String.eqb (sh_id s) id) shards) as [s|] eqn:Es.
    2:{ apply ensures_ret. intros d Hd. split; [done|]. intros s Hs <- _ _ _.
        rewrite list_elem_of_In in Hs. apply (find_none _ _ Es) in Hs. by rewrite String.eqb_refl in Hs. }
    apply find_some in Es as [Hs Eid%String.eqb_eq]. rewrite <- list_elem_of_In in Hs. subst id.
    apply ensures_known. intros d0 Hd0.
    destruct (co_status _ _ _ _ _ _ _ Hd0 s Hs (not_elem_of_nil _)) as [[? _]|(_ & Hm & _)]; [done|].
    unfold get_shard_meta in Em. rewrite Hm in Em. injection Em as <-.
    assert (forall r, in_scope r -> ref_shard r = Some (sh_id s) -> d0 !! ref_name key r = D0 !! ref_name key r) as Hsame.
    { intros r. by eapply untouched_chunk. }
    set (assigned := assign_delta_sequences ds' _).
    assert (length assigned = length ds') as Hlen.
    { unfold assigned. generalize (u64_saturating_add (sm_version (base s)) 1). clear. induction ds'; intros q; cbn; auto. }
    rewrite Hlen. destruct (pending_delta_chain_reaches_limit _ _) eqn:El.
    { apply ensures_ret. intros d <-. by split. }
    eapply ensures_conseq; [apply (needs_fallback_spec (eq d0) s Hs)|..].
    - intros d <-. by eapply core_safe.
    - intros d r <-. apply Hsame.
    - apply limit_count; [done|destruct ds'; [done|cbn; lia]|done].
    - done.
    - intros b d [<- Hb]. split; [done|]. intros s' Hs' E _ _ Hbf. rewrite (id_inj s' s) by done. auto. }
  intros b. eapply ensures_bind.
  { apply ensures_known. intros d0 [Hd0 Hb]. eapply (ensures_conseq (eq d0) K); [apply IH|by intros d <-|].
    instantiate (1 := fun F d => (K d /\ (forall s ds'0, s ∈ shards -> (sh_id s, ds'0) ∈ pend -> ds'0 <> [] ->
      sh_id s ∉ R -> sh_id s ∉ F -> replay_checked s ds'0)) /\ (forall s, s ∈ shards -> sh_id s = id -> ds' <> [] -> id ∉ R ->
           b = false -> replay_checked s ds')). cbn. intros F d Hd. by split. }
  intros F. apply ensures_ret. intros d [[Hd HF] Hb]. split; [done|].
  intros s ds0 Hs [[= E ->]|Hin]%elem_of_cons Hne HR HF'.
  - apply Hb; try done; [by rewrite <- E|]. destruct b; [|done]. exfalso. apply HF'. rewrite E. set_solver.
  - apply HF; try done. destruct b; [|done]. set_solver.
Qed.

(** *** Writing deltas *)

(** Nothing left to do for the pending deltas of [dn]. *)
Definition deltas_done (dn : list string) (s : Shard) : Prop :=
  kept key D0 prev s /\ (sh_id s ∈ dn -> pending_of pending (sh_id s) = []).

(** No replaced chunk is one of a shard that still has its snapshot. *)
Lemma replaced_elsewhere σ n s m :
  replaced σ n -> s ∈ shards -> metas σ !! sh_id s = Some m -> sm_snapshot_seq m = sm_snapshot_seq (base s) ->
  exists id mo, id <> sh_id s /\ old_meta id = Some mo /\ n ∈ chunks_for_meta key mo
    /\ ((id ∉ map sh_id shards) \/ exists m', metas σ !! id = Some m' /\ sm_shard_id m' = id
          /\ sm_snapshot_seq m' = next_seq id /\ sm_has_deltas m' = false).
Proof.
  intros (id & mo & Hmo & Hn & Hr) Hs Hm Hseq. exists id, mo. split_and!; try done. intros ->.
  destruct Hr as [Hr|(m' & Hm' & _ & Hseq' & _)]; [by apply Hr, list_elem_of_fmap_2|].
  destruct (base_facts s Hs) as (_ & _ & _ & _ & Eseq). rewrite Hmo in Eseq. unfold next_seq in Hseq'. rewrite Hmo in Hseq'.
  cbn [from_option] in Eseq. rewrite Hm in Hm'. injection Hm' as <-. lia.
Qed.

(** A delta chunk for a shard that is being worked on. *)
Lemma core_delta v W Φ dn σ σ' d s m f q bs :
  let n := delta_chunk_name key (sh_id s) q in
  Core v W Φ dn [sh_id s] σ d -> s ∈ shards -> sh_id s ∈ W -> sh_id s ∈ dn -> old_version (sh_id s) < q < B ->
  metas σ !! sh_id s = Some m -> sm_snapshot_seq m = sm_snapshot_seq (base s) ->
  sv_root_index σ' = with_shard_meta (sh_id s) f (sv_root_index σ) ->
  sv_old_chunks σ' = sv_old_chunks σ -> sv_new_chunks σ' = sv_new_chunks σ ++ [n] ->
  (forall i, i <> sh_id s -> sv_pending σ' !! i = sv_pending σ !! i) ->
  Core v W Φ dn [sh_id s] σ' (<[n := bs]> d).
Proof.
  intros n Hc Hs HW Hdn Hq Hm Hseq Eri Eold Enew Epend.
  assert (n = ref_name key (DeltaRef (sh_id s) q)) as En by done.
  assert (fresh W (DeltaRef (sh_id s) q)) as Hf by done.
  assert (forall i, i <> sh_id s -> metas σ' !! i = metas σ !! i) as Hmetas.
  { intros i Hi. rewrite Eri. cbn. by apply lookup_alter_ne. }
  split; rewrite ?Eold, ?Enew; try apply Hc.
  - intros n' [Hn1 Hn2]%not_elem_of_app. rewrite lookup_insert_ne; [by apply (co_disk _ _ _ _ _ _ _ Hc)|].
    intros ->. apply Hn2. left.
  - intros n' [Hn'|Hn']%elem_of_app; [by apply (co_new _ _ _ _ _ _ _ Hc)|].
    apply list_elem_of_singleton in Hn' as ->. by eexists.
  - intros n' Hn'%(co_old _ _ _ _ _ _ _ Hc).
    destruct (replaced_elsewhere _ _ _ _ Hn' Hs Hm Hseq) as (i & mo & Hi & Hmo & Hin & Hr).
    exists i, mo. by rewrite Hmetas.
  - rewrite Eri. apply Hc.
  - rewrite Eri. apply Hc.
  - intros i. destruct (decide (i = sh_id s)) as [->|Hi]; [|rewrite Hmetas by done; apply Hc].
    rewrite Eri. cbn. rewrite lookup_alter_eq, fmap_is_Some. apply Hc.
  - intros i Hi. rewrite Epend; [by apply Hc|]. by intros ->.
  - intros s' Hs' HX. assert (sh_id s' <> sh_id s) as Hne by (intros E; apply HX; rewrite E; left).
    destruct (co_status _ _ _ _ _ _ _ Hc s' Hs' HX) as [[Hin Hst]|(Hout & Hm' & HΦ)]; [left|right].
    + split; [done|]. rewrite En. destruct (settled_other σ d s' (DeltaRef (sh_id s) q) bs) as (m' & Hm' & Hrest); try done.
      * eapply fresh_in_scope; [apply Hc|done].
      * cbn. congruence.
      * exists m'. by rewrite Hmetas.
    + by rewrite Hmetas.
Qed.

Section WriteDeltas.
Context (v : Z) (W : gset string) (Φ : Shard -> Prop) (dn : list string) (s : Shard).
Context (Hs : s ∈ shards).
Abbreviation id := (sh_id s).
Abbreviation ver := (sm_version (base s)).

(** The deltas [wr] of [s] are on disk. *)
Record writing (wr : list DeltaEntry) (σ : SaveState) (d : Disk) : Prop := {
  wr_core : Core v W Φ dn [id] σ d;
  wr_in : id ∈ W /\ id ∈ dn;
  wr_meta : exists m, metas σ !! id = Some m /\ meta_wf m /\ sm_shard_id m = id
    /\ sm_version m = ver + Z.of_nat (length wr) /\ sm_base_version m = sm_base_version (base s)
    /\ sm_snapshot_seq m = sm_snapshot_seq (base s);
  wr_base n : n ∈ chunks_for_meta key (base s) -> d !! n = D0 !! n;
  wr_deltas : Forall2 (fun q de => holds key d (delta_chunk_name key id q) de)
                (seqZ (ver + 1) (Z.of_nat (length wr))) wr;
}.

Lemma record_wf m q :
  meta_wf m -> sm_delta_count m + 1 < MAX_DELTAS -> sm_version m + 1 <= U64_MAX -> q = sm_version m + 1 ->
  meta_wf (meta_record_delta q m) /\ sm_version (meta_record_delta q m) = sm_version m + 1.
Proof.
  intros [] Hc Hu ->. unfold MAX_DELTAS in *.
  assert (u64_add (sm_version m) 1 = sm_version m + 1) as Ev by (apply u64_add_small; unfold is_u64; lia).
  assert (u32_wrap (sm_delta_count m + 1) = sm_delta_count m + 1) as Ec by (unfold u32_wrap; rewrite Z.mod_small; lia).
  split; [|by cbn]. split; cbn; rewrite ?Ev, ?Ec; try done; try lia.
  - unfold MAX_DELTAS. lia.
  - rewrite bool_decide_true by lia. done.
Qed.

Lemma delta_not_base q n :
  old_version id < q < B -> n ∈ chunks_for_meta key (base s) -> n <> delta_chunk_name key id q.
Proof.
  intros Hq Hn E. destruct (base_facts s Hs) as (Hid & Hwf & Hb & Hv & _).
  apply chunks_of_meta in Hn as (r & Hr & ->); [|done|by apply below_u64].
  assert (r = DeltaRef id q) as ->.
  { apply name_inj; [| |done].
    - eapply chunk_in_scope; [rewrite Hid; by apply shard_in_ids|done..].
    - split; [by apply shard_in_ids|]. pose proof (old_version_range id). lia. }
  destruct Hr as [_ Hr]. rewrite Hv in Hr. lia.
Qed.

Lemma delta_bytes_opens de plain bs aad :
  delta_bytes de = Ok plain -> decrypt bs key aad = Ok plain -> opens_to key aad bs de.
Proof.
  unfold delta_bytes. intros Hp Hd. exists plain. split; [done|]. apply from_to_vec.
  destruct (to_vec de) as [p|]; [|done]. cbn in Hp. destruct (_ <? _); [done|]. by injection Hp as ->.
Qed.

(** Earlier deltas stay as they are. *)
Lemma Forall2_delta_other q seqs (ds : list DeltaEntry) d bs :
  old_version id < q < B -> (forall q', q' ∈ seqs -> 0 <= q' < q) ->
  Forall2 (fun q de => holds key d (delta_chunk_name key id q) de) seqs ds ->
  Forall2 (fun q' de => holds key (<[delta_chunk_name key id q := bs]> d) (delta_chunk_name key id q') de) seqs ds.
Proof.
  intros Hq Hlt Hds. induction Hds as [|q' de seqs ds Hh _ IH]; constructor.
  - eapply holds_same; [|exact Hh]. rewrite lookup_insert_ne; [done|]. intros E.
    specialize (Hlt q' ltac:(left)).
    assert (DeltaRef id q = DeltaRef id q') as [= ?]; [|lia].
    pose proof (shard_in_ids s Hs). apply name_inj; [split; [done|lia]..|done].
  - apply IH. intros. apply Hlt. by right.
Qed.

(** One more delta. *)
Lemma writing_step wr de bs σ σ' d :
  let q := ver + 1 + Z.of_nat (length wr) in
  writing wr σ d -> sm_delta_count (base s) + Z.of_nat (length wr) + 1 < MAX_DELTAS -> q < B ->
  opens_to key (as_bytes (delta_chunk_name key id q)) bs de ->
  sv_root_index σ' = with_shard_meta id (meta_record_delta q) (sv_root_index σ) ->
  sv_old_chunks σ' = sv_old_chunks σ -> sv_new_chunks σ' = sv_new_chunks σ ++ [delta_chunk_name key id q] ->
  (forall i, i <> id -> sv_pending σ' !! i = sv_pending σ !! i) ->
  writing (wr ++ [de]) σ' (<[delta_chunk_name key id q := bs]> d).
Proof.
  intros q Hw Hcount Hq Ho Eri Eold Enew Epend. destruct Hw as [Hc [HW Hdn] (m & Hm & Hwf & Hid & Hv & Hbv & Hseq) Hb Hds].
  destruct (base_facts s Hs) as (_ & Hwfb & _ & Ever & _). pose proof (sr_bound _ _ _ _ _ _ ready).
  pose proof (old_version_range id). assert (old_version id < q < B) as Hqr by (unfold q; lia).
  assert (sm_delta_count m = sm_delta_count (base s) + Z.of_nat (length wr)) as Hcm.
  { rewrite (mw_count _ Hwf), (mw_count _ Hwfb). lia. }
  destruct (record_wf m q Hwf) as [Hwf' Hv']; [lia|unfold U64_MAX; lia|unfold q; lia|].
  split.
  - eapply core_delta; try done. 
  - done.
  - exists (meta_record_delta q m). rewrite Eri. cbn [with_shard_meta ri_shards]. rewrite lookup_alter_eq, Hm.
    split_and!; try done. rewrite Hv', length_app. cbn [length]. lia.
  - intros n Hn. rewrite lookup_insert_ne; [by apply Hb|]. symmetry. by apply delta_not_base.
  - rewrite length_app. cbn [length]. replace (Z.of_nat (length wr + 1)) with (Z.of_nat (length wr) + 1) by lia.
    rewrite seqZ_app by lia. apply Forall2_app.
    + apply (Forall2_delta_other q); [done|intros q' Hq'%elem_of_seqZ; unfold q in *; lia|done].
    + constructor; [|constructor]. exists bs. by rewrite lookup_insert_eq.
Qed.

Lemma write_deltas_spec wr ds :
  sm_delta_count (base s) + Z.of_nat (length wr) + Z.of_nat (length ds) < MAX_DELTAS ->
  ver + Z.of_nat (length wr) + Z.of_nat (length ds) + 1 < B ->
  saves (writing wr) (write_deltas key id wr ds (ver + 1 + Z.of_nat (length wr)))
    (fun _ => writing (wr ++ assign_delta_sequences ds (ver + 1 + Z.of_nat (length wr)))) Safe.
Proof.
  pose proof (sr_bound _ _ _ _ _ _ ready) as HB.
  revert wr. induction ds as [|de ds IH]; intros wr Hcount Hver; cbn [write_deltas assign_delta_sequences length] in *.
  { apply saves_ret. intros σ d Hw. by rewrite app_nil_r. }
  set (q := ver + 1 + Z.of_nat (length wr)) in *. set (de' := set_seq q de).
  apply at_intro. intros σ. apply at_on.
  eapply at_io; [apply ensures_lift; intros d Hw; eapply core_safe, Hw|]. intros plain. apply at_pure. intros Hplain.
  eapply at_io; [apply ensures_encrypt; intros d Hw; eapply core_safe, Hw|]. intros bs. apply at_pure. intros Hbs.
  pose proof (delta_bytes_opens _ _ _ _ Hplain Hbs) as Ho.
  assert (forall d, writing wr σ d ->
    writing (wr ++ [de']) (set_root_index (with_shard_meta id (meta_record_delta q)
        (sv_root_index (push_persisted (id, de') (push_new [delta_chunk_name key id q] (set_pending id (wr ++ de' :: ds) σ)))))
      (push_persisted (id, de') (push_new [delta_chunk_name key id q] (set_pending id (wr ++ de' :: ds) σ))))
      (<[delta_chunk_name key id q := bs]> d)) as Hstep.
  { intros d Hw. eapply writing_step; try done; [lia|unfold q; lia|].
    intros i Hi. cbn. by rewrite lookup_insert_ne. }
  eapply at_io; [apply ensures_write; intros d Hw; [eapply core_safe, Hw|eapply core_safe, Hstep, Hw]|].
  intros u. do 3 apply at_on.
  assert (u64_saturating_add q 1 = ver + 1 + Z.of_nat (length (wr ++ [de']))) as ->.
  { unfold u64_saturating_add, U64_MAX. rewrite length_app. cbn [length]. unfold q. lia. }
  replace (wr ++ de' :: assign_delta_sequences ds (ver + 1 + Z.of_nat (length (wr ++ [de']))))
    with ((wr ++ [de']) ++ assign_delta_sequences ds (ver + 1 + Z.of_nat (length (wr ++ [de']))))
    by by rewrite <- app_assoc.
  eapply saves_conseq; [apply (IH (wr ++ [de'])); rewrite length_app; cbn [length]; lia| |done].
  intros σ' d [-> (d0 & Hw & ->)]. by apply Hstep.
Qed.

(** All deltas of a shard that replays are on disk: it is stored. *)
Lemma writing_settled ds' σ d :
  writing (assign_delta_sequences ds' (ver + 1)) σ d -> ver + Z.of_nat (length ds') + 1 < B ->
  ds' = pending_of pending (sh_id s) -> replay_checked s ds' -> Core v W Φ dn [] σ d.
Proof.
  intros Hw Hver Hpend (Hcount & sh & ds & clk & n & r0 & n' & r1 & Hsh & Hds & E0 & E1 & Heq).
  destruct Hw as [Hc [HW Hdn] (m & Hm & Hwf & Hid & Hv & Hbv & Hseq) Hb Hnew].
  destruct (base_facts s Hs) as (Hidb & Hwfb & Hbb & _ & _). pose proof (sr_bound _ _ _ _ _ _ ready).
  assert (length (assign_delta_sequences ds' (ver + 1)) = length ds') as Hlen.
  { generalize (ver + 1). clear. induction ds'; intros q; cbn; auto. }
  rewrite Hlen in *. assert (meta_below B m) as Hbm by (destruct Hbb; split; lia).
  split; try apply Hc. intros s' Hs' _. destruct (decide (sh_id s' = id)) as [E|Hne].
  2:{ apply (co_status _ _ _ _ _ _ _ Hc s' Hs'). intros E%list_elem_of_singleton. done. }
  left. rewrite (id_inj s' s) by done. split; [done|]. exists m. split_and!; try done.
  exists sh, (ds ++ assign_delta_sequences ds' (ver + 1)). rewrite Hid, Hseq.
  assert (u64_saturating_add ver 1 = ver + 1) as Esat by (unfold u64_saturating_add, U64_MAX; lia). rewrite Esat in E1.
  split_and!.
  - eapply holds_same; [|exact Hsh]. symmetry. apply Hb. rewrite <- Hidb. left.
  - rewrite (wf_log_seqs m) by (done || by apply below_u64). rewrite Hv, Hbv.
    replace (ver + Z.of_nat (length ds') - sm_base_version (base s))
      with ((ver - sm_base_version (base s)) + Z.of_nat (length ds')) by lia.
    pose proof (mw_count _ Hwfb). pose proof (mw_range _ Hwfb).
    rewrite seqZ_app by lia. apply Forall2_app.
    + rewrite <- wf_log_seqs by (done || by apply below_u64).
      assert (forall q, q ∈ log_seqs (base s) -> D0 !! delta_chunk_name key id q = d !! delta_chunk_name key id q) as Hsame.
      { intros q Hq. symmetry. apply Hb. right. unfold log_seqs in Hq. rewrite <- Hidb.
        destruct (sm_has_deltas (base s)); [by apply list_elem_of_fmap_2|by apply elem_of_nil in Hq]. }
      clear -Hds Hsame. induction Hds as [|q de qs ds Hq _ IH]; constructor.
      * eapply holds_same; [|done]. apply Hsame. left.
      * apply IH. intros. apply Hsame. by right.
    + replace (sm_base_version (base s) + 1 + (ver - sm_base_version (base s))) with (ver + 1) by lia. done.
  - destruct (apply_deltas_app clk ds _ _ _ _ _ _ E0 E1) as [n'' E2]. pose proof (equivalent_content _ _ Heq) as Heq'. exists clk, n'', r1. split_and!; [done..|].
    intros HT. rewrite <- Esat, Hpend in E1. by eapply HT.
Qed.
End WriteDeltas.

(** *** A snapshot in place of deltas *)

Lemma with_meta_put id f m ri : ri_shards ri !! id = Some m -> with_shard_meta id f ri = put_meta id (f m) ri.
Proof.
  intros Hm. unfold put_meta, with_shard_meta. f_equal. apply map_eq. intros i.
  destruct (decide (id = i)) as [<-|Hi]; [by rewrite !lookup_alter_eq, Hm|by rewrite !lookup_alter_ne].
Qed.

Lemma write_full_spec v W Φ dn s nv :
  s ∈ shards -> sh_id s ∉ W -> 0 <= nv < B ->
  saves (Core v W Φ dn []) (write_full_snapshot_for_shard key s (old_meta (sh_id s)) nv)
    (fun _ => Core v ({[sh_id s]} ∪ W) Φ dn []) Safe.
Proof.
  intros Hs HW Hnv. apply at_intro. intros σ. unfold write_full_snapshot_for_shard. apply at_get.
  destruct (get_shard_meta (sv_root_index σ) (sh_id s)) as [meta|] eqn:Em.
  2:{ apply at_known. intros d Hc. exfalso. destruct (proj2 (co_dom _ _ _ _ _ _ _ Hc (sh_id s))) as [m0 Hm0];
        [by apply list_elem_of_fmap_2|]. unfold get_shard_meta in Em. congruence. }
  apply at_on. cbv zeta.
  assert ((match old_meta (sh_id s) with Some m => u64_saturating_add (sm_snapshot_seq m) 1 | None => 0 end)
          = next_seq (sh_id s)) as ->.
  { rewrite <- (next_seq_code s) by done. by destruct (old_meta (sh_id s)). }
  apply at_on. set (sh := with_versions nv s). set (n := shard_snapshot_chunk_name key (sh_id s) (next_seq (sh_id s))).
  eapply at_io; [apply (ensures_seal sh); intros d Hc; by eapply core_safe|]. intros bs. apply at_pure. intros Ho.
  set (σ' := set_root_index _ _).
  assert (forall d, Core v W Φ dn [] σ d -> Core v ({[sh_id s]} ∪ W) Φ dn [] (push_new [n] σ') (<[n := bs]> d)) as Hfin.
  { intros d Hc. destruct (next_seq_range (sh_id s)); [by apply list_elem_of_fmap_2|].
    destruct (co_status _ _ _ _ _ _ _ Hc s Hs (not_elem_of_nil _)) as [[? _]|(_ & Hm & _)]; [done|].
    destruct (base_facts s Hs) as (Hid & _).
    eapply (core_rewrite v W Φ dn σ _ d s (meta_at_version (next_seq (sh_id s)) nv s (base s)) bs sh); try done.
    - split_and!; [exact Hid| |split; cbn; lia|done..]. split; cbn; try done; lia.
    - cbn. by apply with_meta_put. }
  eapply at_io; [apply ensures_write; intros d Hc; [by eapply core_safe|eapply core_safe, Hfin, Hc]|].
  intros u. apply at_on_last. intros d (d0 & Hc & ->). by apply Hfin.
Qed.

(** *** The delta loop *)

Lemma core_pending v W (Φ : Shard -> Prop) dn X σ d id ds :
  Core v W Φ dn X σ d -> Core v W Φ (id :: dn) X (set_pending id ds σ) d.
Proof.
  intros Hc. split; try apply Hc. intros i [Hi Hdn]%not_elem_of_cons. cbn. rewrite lookup_insert_ne by done. by apply Hc.
Qed.

Lemma core_skip v W dn X σ d id :
  pending_of pending id = [] \/ id ∈ W \/ id ∉ map sh_id shards ->
  Core v W (deltas_done dn) (id :: dn) X σ d -> Core v W (deltas_done (id :: dn)) (id :: dn) X σ d.
Proof.
  intros Hid. apply core_weaken. intros s Hs HW [Hk Hp]. split; [done|].
  intros [E|?]%elem_of_cons; [|by apply Hp]. rewrite E in *. destruct Hid as [?|[?|Hid]]; [done..|].
  exfalso. apply Hid. rewrite <- E. by apply list_elem_of_fmap_2.
Qed.

(** Starting to write the deltas of an untouched shard. *)
Lemma writing_start v W Φ dn s σ d :
  Core v W Φ (sh_id s :: dn) [] σ d -> s ∈ shards -> sh_id s ∉ W ->
  writing v ({[sh_id s]} ∪ W) Φ (sh_id s :: dn) s [] σ d.
Proof.
  intros Hc Hs HW. destruct (base_facts s Hs) as (Hid & Hwf & Hb & _).
  destruct (co_status _ _ _ _ _ _ _ Hc s Hs (not_elem_of_nil _)) as [[? _]|(_ & Hm & _)]; [done|].
  assert (sh_id s ∈ map sh_id shards) as Hin by by apply list_elem_of_fmap_2.
  split.
  - split; try apply Hc.
    + intros i [->%elem_of_singleton|?]%elem_of_union; [done|by apply (co_ours _ _ _ _ _ _ _ Hc)].
    + intros n (r & -> & Hr)%(co_new _ _ _ _ _ _ _ Hc). exists r. split; [done|].
      destruct r; cbn in *; rewrite ?elem_of_union; intuition.
    + intros s' Hs' HX. assert (sh_id s' <> sh_id s) as Hne by (intros E; apply HX; rewrite E; left).
      destruct (co_status _ _ _ _ _ _ _ Hc s' Hs' (not_elem_of_nil _)) as [[? ?]|(? & ? & ?)]; [left|right];
        rewrite ?not_elem_of_union, ?elem_of_union, ?not_elem_of_singleton; auto.
  - rewrite elem_of_union, elem_of_singleton. split; [by left|left].
  - exists (base s). cbn [length]. split_and!; try done. lia.
  - intros n Hn. apply chunks_of_meta in Hn as (r & Hr & ->); [|done|by apply below_u64].
    eapply untouched_chunk; try done.
    + eapply chunk_in_scope; [rewrite Hid; by apply shard_in_ids|done..].
    + destruct r; try done; destruct Hr as [Hr _]; cbn; by rewrite Hr, Hid.
  - constructor.
Qed.

Definition skip_case (id : string) (W : gset string) : Prop :=
  pending_of pending id = [] \/ id ∈ W \/ id ∉ map sh_id shards.

(** What one round of the loop achieves. *)
Definition delta_round (v : Z) (W : gset string) (dn : list string) (id : string) (σ : SaveState) (d : Disk) : Prop :=
  exists W', (forall i, i ∈ W' -> i ∈ W \/ i = id) /\ W ⊆ W' /\ Core v W' (deltas_done (id :: dn)) (id :: dn) [] σ d.

Lemma round_skip v W dn id σ d ds :
  skip_case id W -> Core v W (deltas_done dn) dn [] σ d -> delta_round v W dn id (set_pending id ds σ) d.
Proof.
  intros Hid Hc. exists W. split_and!; [by left|done|]. apply core_skip; [done|]. by apply core_pending.
Qed.

Lemma round_write v W dn s σ d :
  s ∈ shards -> Core v ({[sh_id s]} ∪ W) (deltas_done dn) (sh_id s :: dn) [] σ d -> delta_round v W dn (sh_id s) σ d.
Proof.
  intros Hs Hc. exists ({[sh_id s]} ∪ W). split_and!.
  - intros i [?%elem_of_singleton|?]%elem_of_union; auto.
  - apply union_subseteq_r.
  - apply core_skip; [|done]. right. left. by apply elem_of_union_l, elem_of_singleton.
Qed.

(** A shard written as deltas never reaches the compaction of [save]. *)
Lemma compact_not_full v W Φ dn s (Q : unit -> SaveState -> Disk -> Prop) :
  s ∈ shards -> sh_id s ∈ W -> (forall σ d, Core v W Φ dn [] σ d -> Q tt σ d) ->
  saves (Core v W Φ dn []) (compact_if_full key clks (sh_id s)) Q Safe.
Proof.
  intros Hs HW HQ. apply at_intro. intros σ. unfold compact_if_full. apply at_get. apply at_known. intros d Hc.
  destruct (co_status _ _ _ _ _ _ _ Hc s Hs (not_elem_of_nil _)) as [(_ & m & Hm & _ & Hwf & _)|(? & _)]; [|done].
  unfold get_shard_meta. rewrite Hm. pose proof (mw_range _ Hwf).
  destruct (Z.leb_spec MAX_DELTAS (sm_delta_count m)); [lia|]. rewrite andb_false_r.
  apply at_ret. intros d' <-. auto.
Qed.

Lemma save_deltas_write v W dn s :
  let ds := pending_of pending (sh_id s) in
  s ∈ shards -> sh_id s ∉ W -> replay_checked s ds ->
  saves (Core v W (deltas_done dn) dn [])
    (write_deltas key (sh_id s) [] ds (u64_saturating_add (sm_version (base s)) 1);;
     on_save (set_pending (sh_id s) []);; compact_if_full key clks (sh_id s))
    (fun _ => delta_round v W dn (sh_id s)) Safe.
Proof.
  intros ds Hs HW Hchk. pose proof (sr_pending _ _ _ _ _ _ ready s Hs) as Hp. pose proof (sr_bound _ _ _ _ _ _ ready).
  assert (u64_saturating_add (sm_version (base s)) 1 = sm_version (base s) + 1 + Z.of_nat (length (@nil DeltaEntry))) as ->.
  { unfold u64_saturating_add, U64_MAX. cbn [length]. lia. }
  eapply (saves_seq _ _ _ (writing v ({[sh_id s]} ∪ W) (deltas_done dn) (sh_id s :: dn) s
    (assign_delta_sequences ds (sm_version (base s) + 1 + Z.of_nat (length (@nil DeltaEntry)))))).
  { eapply saves_conseq; [apply (write_deltas_spec v ({[sh_id s]} ∪ W) (deltas_done dn) (sh_id s :: dn) s Hs [] ds)|..].
    - destruct Hchk as [Hcount _]. cbn [length]. lia.
    - fold ds in Hp. cbn [length]. lia.
    - intros σ d Hc. apply writing_start; [|done..]. split; try apply Hc. intros i [_ ?]%not_elem_of_cons. by apply Hc.
    - done. }
  cbn [length]. rewrite Z.add_0_r.
  eapply (saves_seq _ _ _ (Core v ({[sh_id s]} ∪ W) (deltas_done dn) (sh_id s :: dn) [])).
  - apply saves_on. intros σ d Hw. apply writing_settled in Hw; [|done|fold ds in Hp; lia|done|done].
    split; try apply Hw. intros i Hi. cbn. rewrite lookup_insert_ne; [by apply Hw|]. intros <-. apply Hi. left.
  - apply compact_not_full; [done|by apply elem_of_union_l, elem_of_singleton|]. intros σ d. by apply round_write.
Qed.

Lemma save_deltas_spec v W dn R F id :
  id ∉ dn -> (forall i, i ∈ W -> i ∈ R \/ i ∈ dn) -> R ⊆ W ->
  (forall s, s ∈ shards -> sh_id s = id -> pending_of pending id <> [] -> id ∉ R -> id ∉ F ->
     replay_checked s (pending_of pending id)) ->
  saves (Core v W (deltas_done dn) dn []) (save_deltas key clks prev shards R F id)
    (fun _ => delta_round v W dn id) Safe.
Proof.
  intros Hdn HWR HRW Hchk. apply at_intro. intros σ. unfold save_deltas. apply at_get.
  apply at_known. intros d Hc. pose proof (co_pending _ _ _ _ _ _ _ Hc id Hdn) as Ep. rewrite Ep.
  destruct (pending !! id) as [ds|] eqn:Epd.
  2:{ apply at_ret. intros d' <-. exists W. split_and!; [by left|done|]. apply core_skip; [left; unfold pending_of; by rewrite Epd|].
      split; try apply Hc. intros i [_ ?]%not_elem_of_cons. by apply Hc. }
  assert (pending_of pending id = ds) as Eof by (unfold pending_of; by rewrite Epd).
  destruct ds as [|de ds]; [|set (deltas := de :: ds) in *].
  { apply at_ret. intros d' <-. exists W. split_and!; [by left|done|]. apply core_skip; [by left|].
    split; try apply Hc. intros i [_ ?]%not_elem_of_cons. by apply Hc. }
  assert (forall dsx, skip_case id W -> saves (at_state σ (eq d)) (on_save (set_pending id dsx)) (fun _ => delta_round v W dn id) Safe) as Hskip.
  { intros dsx Hsk. apply at_on_last. intros d' <-. by apply round_skip. }
  case_bool_decide as HR; [apply Hskip; right; left; by apply HRW|].
  assert (id ∉ W) as HW by (intros Hin; destruct (HWR _ Hin); done).
  case_bool_decide as HF.
  - destruct (List.find (fun s => String.eqb (sh_id s) id) shards) as [s|] eqn:Es.
    2:{ apply Hskip. right. right. intros (s & -> & Hs)%list_elem_of_fmap. rewrite list_elem_of_In in Hs.
        apply (find_none _ _ Es) in Hs. by rewrite String.eqb_refl in Hs. }
    apply find_some in Es as [Hs <-%String.eqb_eq]. rewrite <- list_elem_of_In in Hs.
    destruct (co_status _ _ _ _ _ _ _ Hc s Hs (not_elem_of_nil _)) as [[? _]|(_ & Hm & _)]; [done|].
    unfold get_shard_meta. rewrite Hm. destruct (base_facts s Hs) as (_ & Hwf & _ & _).
    pose proof (sr_pending _ _ _ _ _ _ ready s Hs) as Hp. rewrite Eof in Hp. pose proof (sr_bound _ _ _ _ _ _ ready).
    pose proof (mw_base _ Hwf). pose proof (mw_count _ Hwf). pose proof (mw_range _ Hwf).
    eapply saves_seq.
    + eapply saves_conseq; [apply (write_full_spec v W (deltas_done dn) dn s)|..]; try done.
      * unfold u64_saturating_add, U64_MAX. lia.
      * by intros σ' d' [-> <-].
    + apply saves_on. intros σ' d' Hc'. apply round_write; [done|]. by apply core_pending.
  - destruct (get_shard_meta (sv_root_index σ) id) as [m|] eqn:Em.
    2:{ apply Hskip. right. right. intros Hin. destruct (proj2 (co_dom _ _ _ _ _ _ _ Hc id) Hin) as [m0 Hm0].
        unfold get_shard_meta in Em. congruence. }
    unfold get_shard_meta in Em.
    destruct (proj1 (list_elem_of_fmap _ _ _) (proj1 (co_dom _ _ _ _ _ _ _ Hc id) (ex_intro _ _ Em))) as (s & -> & Hs).
    destruct (co_status _ _ _ _ _ _ _ Hc s Hs (not_elem_of_nil _)) as [[? _]|(_ & Hm & _)]; [done|].
    rewrite Em in Hm. injection Hm as ->. rewrite <- Eof.
    eapply saves_conseq; [apply (save_deltas_write v W dn s Hs HW)| |done].
    + apply Hchk; try done. by rewrite Eof.
    + by intros σ' d' [-> <-].
Qed.

Lemma save_all_deltas_spec v R F W dn l :
  NoDup l -> (forall i, i ∈ l -> i ∉ dn) -> (forall i, i ∈ W -> i ∈ R \/ i ∈ dn) -> R ⊆ W ->
  (forall s, s ∈ shards -> pending_of pending (sh_id s) <> [] -> sh_id s ∉ R -> sh_id s ∉ F ->
     replay_checked s (pending_of pending (sh_id s))) ->
  saves (Core v W (deltas_done dn) dn []) (save_all_deltas key clks prev shards R F l)
    (fun _ σ d => exists W', Core v W' (deltas_done (reverse l ++ dn)) (reverse l ++ dn) [] σ d) Safe.
Proof.
  intros Hnd Hdn HWR HRW Hchk. revert W dn Hdn HWR HRW Hnd.
  induction l as [|id l IH]; intros W dn Hdn HWR HRW Hnd; cbn [save_all_deltas].
  { apply saves_ret. intros σ d Hc. by exists W. }
  apply NoDup_cons in Hnd as [Hni Hnd]. eapply saves_seq.
  { apply (save_deltas_spec v W dn R F id); [apply Hdn; left|done|done|].
    intros s Hs <-. by apply Hchk. }
  apply saves_exists. intros W'. intros σ w (HW' & HWW' & Hc).
  rewrite reverse_cons, <- app_assoc. cbn [app].
  apply (IH W' (id :: dn)); try done.
  - intros i Hi [->|?]%elem_of_cons; [done|]. by apply (Hdn i); [right|].
  - intros i [Hi| ->]%HW'; [|right; left]. destruct (HWR _ Hi); [by left|by right; right].
  - set_solver.
Qed.

(** *** The end of the loop *)

(** When the pending deltas were all dealt with, every shard is on disk. *)
Lemma all_settled v W dn σ d s :
  Core v W (deltas_done dn) dn [] σ d -> (forall id, is_Some (pending !! id) -> id ∈ dn) -> s ∈ shards -> settled σ d s.
Proof.
  intros Hc Hall Hs.
  destruct (co_status _ _ _ _ _ _ _ Hc s Hs (not_elem_of_nil _)) as [[_ ?]|(HW & Hm & Hk & Hp)]; [done|].
  destruct (base_facts s Hs) as (Hid & Hwf & Hb & _). exists (base s). split_and!; try done.
  assert (pending_of pending (sh_id s) = []) as Hpend.
  { destruct (pending !! sh_id s) as [ds|] eqn:E; [by apply Hp, Hall; rewrite E|]. unfold pending_of. by rewrite E. }
  eapply stored_same; [|eapply stored_weaken; [|by apply (sr_current _ _ _ _ _ _ ready)]; done].
  intros n Hn. apply chunks_of_meta in Hn as (r & Hr & ->); [|done|by apply below_u64]. symmetry.
  eapply untouched_chunk; try done.
  - eapply chunk_in_scope; [rewrite Hid; by apply shard_in_ids|done..].
  - destruct r; try done; destruct Hr as [Hr _]; cbn; by rewrite Hr, Hid.
Qed.

(** *** What the commit needs *)

(** The chunks of the new catalog are none of those the commit removes. *)
Lemma new_chunks_stay v W Φ dn σ d s m n :
  Core v W Φ dn [] σ d -> s ∈ shards -> metas σ !! sh_id s = Some m -> sm_shard_id m = sh_id s -> meta_wf m ->
  meta_below B m -> n ∈ chunks_for_meta key m -> (n ∉ sv_old_chunks σ) /\ n <> rn /\ n <> mk.
Proof.
  intros Hc Hs Hm Hid Hwf Hb Hn. apply chunks_of_meta in Hn as (r & Hr & ->); [|done|by apply below_u64].
  assert (in_scope r) as Hsc by (eapply chunk_in_scope; [rewrite Hid; by apply shard_in_ids|done..]).
  split_and!.
  - intros (id & mo & Hmo & Hn & Hrep)%(co_old _ _ _ _ _ _ _ Hc).
    destruct (old_meta_facts _ _ Hmo) as (Hido & Hwfo & Hbo & Huo).
    apply chunks_of_meta in Hn as (r' & Hr' & E); [|done..].
    rewrite (name_inj r r') in Hr;
      [|done|eapply chunk_in_scope; [rewrite Hido; by eapply old_in_ids|done..]|done].
    assert (id = sh_id s) as ->.
    { destruct r'; try done; destruct Hr as [E1 _], Hr' as [E2 _]; congruence. }
    destruct Hrep as [Hrep|(m' & Hm' & _ & Hseq & Hd)]; [by apply Hrep, list_elem_of_fmap_2|].
    rewrite Hm in Hm'. injection Hm' as <-. unfold next_seq in Hseq. rewrite Hmo in Hseq.
    rewrite (mw_has _ Hwf) in Hd. apply bool_decide_eq_false in Hd. pose proof (mw_count _ Hwf).
    destruct r'; try done; destruct Hr as [_ Hr], Hr' as [_ Hr']; lia.
  - intros E. by rewrite (name_inj r RootRef Hsc I E) in Hr.
  - intros E. by rewrite (name_inj r CommitRef Hsc I E) in Hr.
Qed.

Lemma replaced_protected σ n : replaced σ n -> protected n.
Proof. intros (id & m & Hm & Hn & _). right. right. by exists id, m. Qed.

Lemma replaced_not_reserved σ n : replaced σ n -> n <> rn /\ n <> mk /\ valid_name n = true.
Proof.
  intros (id & m & Hm & Hn & _). destruct (old_meta_facts _ _ Hm) as (Hid & Hwf & Hb & Hu).
  apply chunks_of_meta in Hn as (r & Hr & ->); [|done..].
  assert (in_scope r) as Hsc by (eapply chunk_in_scope; [rewrite Hid; by eapply old_in_ids|done..]).
  split_and!; [intros E; by rewrite (name_inj r RootRef Hsc I E) in Hr
              |intros E; by rewrite (name_inj r CommitRef Hsc I E) in Hr|apply ref_name_valid].
Qed.

Lemma core_commit_ready v W Φ dn σ d durable id :
  Core v W Φ dn [] σ d -> (forall n, n ∈ durable -> n ∈ sv_new_chunks σ /\ is_Some (d !! n)) ->
  string_is_empty id = false -> (forall x : RootIndex, sealable key (as_bytes rn) x) ->
  (forall x : DurableTxRecord CatalogCommitRecord, sealable key (as_bytes mk) x) ->
  commit_ready key d (sv_root_index σ) durable (sv_old_chunks σ) id.
Proof.
  intros Hc Hdur Hid Hseal1 Hseal2.
  assert (forall n, n ∈ durable -> ~ protected n /\ valid_name n = true) as Hnew.
  { intros n [(r & -> & Hf)%(co_new _ _ _ _ _ _ _ Hc) _]%Hdur. split; [|apply ref_name_valid].
    eapply fresh_unprotected; [apply Hc|done]. }
  assert (forall n, n ∈ sv_old_chunks σ -> n <> rn /\ n <> mk /\ valid_name n = true) as Hold.
  { intros n Hn%(co_old _ _ _ _ _ _ _ Hc). by eapply replaced_not_reserved. }
  split; try done.
  - rewrite (core_safe _ _ _ _ _ _ _ Hc mk) by by left. apply ready.
  - intros n [Hn|Hn]; [by destruct (Hnew _ Hn)|by destruct (Hold _ Hn) as (_ & _ & ?)].
  - intros E. by apply (name_inj CommitRef RootRef I I) in E.
  - intros Hn. destruct (Hnew _ Hn) as [Hp _]. apply Hp. right. by left.
  - intros Hn. by destruct (Hold _ Hn) as (? & ? & _).
  - intros Hn. destruct (Hnew _ Hn) as [Hp _]. apply Hp. by left.
  - intros Hn. by destruct (Hold _ Hn) as (? & ? & _).
  - intros n Hn Hn'%(co_old _ _ _ _ _ _ _ Hc). destruct (Hnew _ Hn) as [Hp _]. apply Hp. by eapply replaced_protected.
  - intros n Hn. by apply Hdur.
Qed.
End SaveProof.
