(* ===== verification/SaveSpec.v ===== *)
(** * What saving guarantees

    The theory of [SaveSafety.v] put together over the whole of [save], and the guarantees:
    a save survives crashes, and what it saves is what the next unlock finds. *)

From Stdlib Require Import Strings.Byte Ascii String.
From stdpp Require Import base gmap strings list sorting.
From S2P Require Import Prelude.
From S2P Require Import CatalogNode.
From S2P Require Import CatalogManager.
From S2P Require Import CatalogTree.
From S2P Require Import CatalogInvariant.
From S2P Require Import CatalogSpec.
From S2P Require Import CatalogDelta.
From S2P Require Import CatalogReplay.
From S2P Require Import CatalogShard.
From S2P Require Import Bytes.
From S2P Require Import Storage.
From S2P Require Import Crypto.
From S2P Require Import IoLogic.
From S2P Require Import DurableTx.
From S2P Require Import Encoding.
From S2P Require Import CatalogCommit.
From S2P Require Import CatalogLoad.
From S2P Require Import CatalogCompact.
From S2P Require Import CatalogSave.
From S2P Require Import SaveLogic.
From S2P Require Import SaveSafety.
Open Scope Z_scope.

(** ** The shards of a catalog *)

Lemma add_eager_shards_nodup clk ids shards next :
  NoDup (map sh_id shards) -> NoDup (map sh_id (add_eager_shards clk ids shards next)).
Proof.
  revert clk shards next. induction ids as [|id ids IH]; intros clk shards next Hnd; cbn [add_eager_shards]; [done|].
  destruct (existsb _ shards) eqn:E; [by apply IH|]. apply IH. rewrite map_app. cbn [map].
  apply NoDup_app. split_and!; [done| |apply NoDup_singleton].
  intros x (s & -> & Hs)%list_elem_of_fmap Hx%list_elem_of_singleton. cbn in Hx.
  assert (existsb (fun s0 => String.eqb (sh_id s0) id) shards = true) as E'; [|congruence].
  apply existsb_exists. exists s. rewrite <- list_elem_of_In. split; [done|]. by apply String.eqb_eq.
Qed.

(** The shards to write have different ids. *)
Lemma persistence_shards_nodup clk m : catalog_inv m -> NoDup (map sh_id (persistence_shards clk m)).
Proof.
  intros Hinv. apply add_eager_shards_nodup.
  destruct (wf_is_dir _ (inv_wf _ Hinv) (inv_root_dir _ Hinv)) as [cs Hcs].
  destruct (proj1 (wf_node_dir _ _ Hcs) (inv_wf _ Hinv)) as (_ & _ & Hnd & _).
  unfold split_into_shards. by rewrite map_map, (children_Some _ _ Hcs).
Qed.

Definition insert_meta (ri : RootIndex) (m : gmap string ShardMeta) (s : Shard) : gmap string ShardMeta :=
  <[sm_shard_id (meta_for_shard ri s) := meta_for_shard ri s]> m.

Section NewMetas.
Context (ri : RootIndex).
Context (meta_id : forall s, sm_shard_id (meta_for_shard ri s) = sh_id s).

Lemma insert_metas_other ss M id : id ∉ map sh_id ss -> foldl (insert_meta ri) M ss !! id = M !! id.
Proof.
  revert M. induction ss as [|s ss IH]; intros M Hid; [done|]. cbn [map foldl] in Hid |- *. apply not_elem_of_cons in Hid as [Hne Hid].
  rewrite IH by done. unfold insert_meta. rewrite meta_id. by apply lookup_insert_ne.
Qed.

Lemma new_shard_metas_lookup ss s :
  NoDup (map sh_id ss) -> s ∈ ss -> new_shard_metas ri ss !! sh_id s = Some (meta_for_shard ri s).
Proof.
  unfold new_shard_metas. change (fun m s => _) with (insert_meta ri). generalize (∅ : gmap string ShardMeta) as M.
  induction ss as [|s' ss IH]; intros M Hnd Hs; [by apply elem_of_nil in Hs|]. cbn [foldl].
  apply NoDup_cons in Hnd as [Hni Hnd]. apply elem_of_cons in Hs as [->|Hs]; [|by apply IH].
  rewrite insert_metas_other by done. unfold insert_meta. by rewrite meta_id, lookup_insert_eq.
Qed.

Lemma new_shard_metas_dom ss id : is_Some (new_shard_metas ri ss !! id) <-> id ∈ map sh_id ss.
Proof.
  unfold new_shard_metas. change (fun m s => _) with (insert_meta ri).
  assert (forall M, is_Some (foldl (insert_meta ri) M ss !! id) <-> is_Some (M !! id) \/ id ∈ map sh_id ss) as Hf.
  { induction ss as [|s ss IH]; intros M; cbn [foldl map].
    - rewrite elem_of_nil. tauto.
    - rewrite IH, elem_of_cons. unfold insert_meta. rewrite meta_id.
      destruct (decide (sh_id s = id)) as [<-|Hne].
      + rewrite lookup_insert_eq. split; [tauto|]. intros _. left. by eexists.
      + rewrite lookup_insert_ne by done. split; [tauto|]. intros [?|[E|?]]; [tauto| |tauto]. by symmetry in E. }
  rewrite Hf, lookup_empty. split; [intros [[? ?]|?]; done|tauto].
Qed.
End NewMetas.

(** ** A save up to its commit *)

Section Prepare.
Context `{cr : Crypto} {crl : CryptoLaws cr}.
Context `{SerdeLaw RootIndex, SerdeLaw Shard, SerdeLaw DeltaEntry,
          Serde CatalogCommitRecord, SerdeLaw (DurableTxRecord CatalogCommitRecord)}.
Context (key : list byte) (clk : clock) (clks : string -> clock) (D0 : Disk) (prev : option RootIndex)
        (m : CatalogManager) (pending : gmap string (list DeltaEntry)) (B : Z).
Abbreviation shards := (persistence_shards (later 1 clk) m).
Context (ready : save_ready key D0 prev shards pending B).
Abbreviation mk := (catalog_commit_chunk_name key).
Abbreviation rn := (root_index_chunk_name key 0).
Abbreviation CORE := (Core key D0 prev shards pending B (version m)).
Abbreviation SAFE := (Safe key D0 prev).

Lemma safe_D0 d : D0 = d -> SAFE d.
Proof. by intros <- n. Qed.

Lemma recover_spec : ensures (eq D0) (recover_incomplete_commit key) (fun _ => eq D0) SAFE.
Proof.
  apply ensures_triple, recover_unmarked; [|apply safe_D0]. intros d <-. apply ready.
Qed.

Lemma read_root_spec : ensures (eq D0) (read_root_index key rn) (fun o d => D0 = d /\ o = prev) SAFE.
Proof.
  unfold read_root_index. eapply ensures_bind; [apply ensures_exists, safe_D0|]. intros e.
  apply ensures_known. intros d [<- ->]. pose proof (sr_prev _ _ _ _ _ _ ready) as Hprev.
  destruct prev as [ri|].
  - destruct Hprev as [(bs & E & Ho) Hsh]. rewrite bool_decide_true by by eexists. cbn [negb].
    eapply ensures_bind; [apply ensures_read; by intros ? <- ?|]. intros bs'. apply ensures_known. intros d [<- E'].
    rewrite E in E'. injection E' as <-. rewrite (open_sealed_opens key bs _ ri Ho).
    eapply ensures_bind; [apply ensures_lift; by intros ? <- ?|]. intros ri'. apply ensures_ret.
    intros d [<- [= <-]]. by rewrite Hsh.
  - rewrite Hprev. rewrite bool_decide_false by by intros [? ?]. apply ensures_ret. by intros d <-.
Qed.

Abbreviation start_index := (set_root_version (version m) (default (index_new (clk 0%nat)) prev)).
Abbreviation start_metas := (new_shard_metas start_index shards).

Lemma start_lookup id : ri_shards start_index !! id = previous_meta prev id.
Proof. unfold previous_meta. destruct prev; [done|]. cbn. by rewrite lookup_empty. Qed.

Lemma start_meta s : meta_for_shard start_index s = base_meta prev s.
Proof.
  unfold base_meta, meta_for_shard. rewrite start_lookup. unfold previous_meta. destruct prev; [done|].
  cbn. by rewrite lookup_empty.
Qed.

Lemma start_meta_id s : sm_shard_id (meta_for_shard start_index s) = sh_id s.
Proof.
  unfold meta_for_shard. rewrite start_lookup. destruct (previous_meta prev (sh_id s)) as [mo|] eqn:E; [|done].
  cbn. by destruct (sr_metas _ _ _ _ _ _ ready _ _ E).
Qed.

(** The state in which the snapshot loop starts. *)
Definition start_state (pers : list (string * DeltaEntry)) : SaveState :=
  mkSave (set_shards start_metas start_index)
    (from_option (fun ri => removed_shard_chunks key ri start_metas) [] prev) [] pending pers.

Lemma start_core pers : CORE ∅ (checked_snapshots key D0 prev []) [] [] (start_state pers) D0.
Proof.
  split; cbn [start_state sv_new_chunks sv_old_chunks sv_root_index sv_pending]; try done.
  - intros n Hn. by apply elem_of_nil in Hn.
  - intros n Hn. generalize start_metas, (new_shard_metas_dom start_index start_meta_id shards), Hn. clear Hn.
    intros M HM Hn.
    assert (exists ri, prev = Some ri /\ n ∈ removed_shard_chunks key ri M) as (ri & Eprev & Hn').
    { clear -Hn. destruct prev as [ri|]; [exists ri; split; [done|exact Hn]|by apply elem_of_nil in Hn]. }
    clear Hn. rename Hn' into Hn. unfold removed_shard_chunks in Hn.
    apply elem_of_concat_map in Hn as (mo & Hmo & Hn). apply list_elem_of_fmap in Hmo as ([id mo'] & -> & Hin).
    apply elem_of_map_to_list in Hin. cbn [snd] in *.
    assert (previous_meta prev id = Some mo') as Hold by (unfold previous_meta; by rewrite Eprev).
    destruct (sr_metas _ _ _ _ _ _ ready _ _ Hold) as [Hid _].
    case_bool_decide as Hd; [by apply elem_of_nil in Hn|].
    exists id, mo'. split_and!; [done..|]. left. rewrite <- Hid.
    by rewrite <- HM.
  - unfold is_sharded. cbn. pose proof (sr_prev _ _ _ _ _ _ ready) as Hp. destruct prev; [by destruct Hp|done].
  - intros id. by apply new_shard_metas_dom, start_meta_id.
  - intros s Hs _. right. split_and!; [apply not_elem_of_empty| |intros Hx; by apply elem_of_nil in Hx].
    cbn [start_state sv_root_index set_shards ri_shards].
    rewrite <- start_meta. apply new_shard_metas_lookup; [apply start_meta_id|apply ready|done].
Qed.

(** What is there when the commit starts. *)
Record prepared (durable : list string) (σ : SaveState) (d : Disk) : Prop := {
  pr_core : exists W dn, CORE W (deltas_done key D0 prev pending dn) dn [] σ d;
  pr_settled s : s ∈ shards -> settled key D0 prev pending B σ d s;
  pr_durable n : n ∈ durable -> n ∈ sv_new_chunks σ /\ is_Some (d !! n);
}.

Lemma existing_spec (K : Disk -> Prop) ns :
  (forall d, K d -> SAFE d) ->
  ensures K (existing_chunks ns) (fun l d => K d /\ forall n, n ∈ l -> n ∈ ns /\ is_Some (d !! n)) SAFE.
Proof.
  intros HK. apply ensures_known. intros d0 Hd0.
  eapply (ensures_conseq _ (eq d0) _ _ (fun l d => d0 = d /\ forall n, n ∈ l -> n ∈ ns /\ is_Some (d0 !! n)));
    [|done|by intros l d [<- ?]].
  assert (forall d, d0 = d -> SAFE d) as Hs0 by (intros d <-; by apply HK).
  induction ns as [|n ns IH]; cbn [existing_chunks].
  { apply ensures_ret. intros d <-. split; [done|]. intros n Hn. by apply elem_of_nil in Hn. }
  eapply ensures_bind; [by apply ensures_exists|]. intros e. apply ensures_known. intros d [<- ->].
  eapply ensures_bind; [exact IH|]. intros l. apply ensures_pure. intros Hl. apply ensures_ret. intros d <-. split; [done|].
  intros n' Hn'. case_bool_decide.
  - apply elem_of_cons in Hn' as [->|Hn']; [split; [left|done]|]. destruct (Hl _ Hn'). split; [by right|done].
  - destruct (Hl _ Hn'). split; [by right|done].
Qed.

Lemma start_pending W Φ σ d : CORE W Φ [] [] σ d -> sv_pending σ = pending.
Proof. intros Hc. apply map_eq. intros i. apply (co_pending _ _ _ _ _ _ _ _ _ _ _ _ _ Hc), not_elem_of_nil. Qed.

Lemma prepare_spec pers :
  saves (at_state (mkSave (index_new (clk 0%nat)) [] [] pending pers) (eq D0)) (prepare_save key clk clks m)
    prepared SAFE.
Proof.
  unfold prepare_save. eapply at_io; [apply recover_spec|]. intros u.
  eapply at_io; [apply read_root_spec|]. intros o. apply at_pure. intros ->. cbv zeta. do 2 apply at_on.
  change (at_state _ (eq D0)) with (at_state (start_state pers) (eq D0)).
  eapply saves_bind.
  { eapply saves_conseq; [apply (save_snapshots_spec key clks D0 prev shards pending B ready (version m) ∅ [] shards)| |done].
    - done.
    - intros s _. apply not_elem_of_empty.
    - apply ready.
    - intros σ d [-> <-]. apply start_core. }
  intros R. rewrite app_nil_r, (right_id_L ∅ (∪)).
  apply at_intro. intros σ. apply at_get. apply at_known. intros d Hc. rewrite (start_pending _ _ _ _ Hc).
  eapply at_io; [apply ensures_lift; intros d' <-; eapply core_safe; [exact ready|exact Hc]|]. intros u'. apply at_pure. intros _.
  eapply at_io.
  { eapply ensures_conseq; [apply (fallback_spec key clks D0 prev shards pending B ready (version m) R σ)| |done].
    by intros d' <-. }
  intros F. apply at_pure. intros HF.
  eapply saves_seq.
  { eapply saves_conseq; [apply (save_all_deltas_spec key clks D0 prev shards pending B ready (version m) R F R [])| |done].
    - rewrite merge_sort_Permutation. apply NoDup_fst_map_to_list.
    - intros i _. apply not_elem_of_nil.
    - by left.
    - done.
    - intros s Hs Hne HR HF'. apply HF; try done. apply elem_of_map_to_list. unfold pending_of in *.
      by destruct (pending !! sh_id s).
    - intros σ' d' [-> Hc']. eapply core_weaken; [|exact Hc']. intros s Hs _ Hk. split.
      + apply Hk. rewrite elem_of_reverse. by apply list_elem_of_fmap_2.
      + intros Hx. by apply elem_of_nil in Hx. }
  rewrite app_nil_r. apply saves_exists. intros W'. apply at_intro. intros σ'. apply at_get.
  intros σ0 w [-> Hw].
  pose proof (existing_spec (eq (disk w)) (sv_new_chunks σ') ltac:(intros d' <-; eapply core_safe; [exact ready|exact Hw])
                w eq_refl) as Hex.
  unfold io. destruct (existing_chunks _ w) as [[durable|e] w']; [|done]. destruct Hex as [Ed Hdur]. rewrite <- Ed in *.
  split; [by eauto| |done].
  intros s Hs. eapply all_settled; [exact ready|exact Hw| |done].
  intros id [ds Hds]. rewrite elem_of_reverse, merge_sort_Permutation.
  apply list_elem_of_fmap. exists (id, ds). split; [done|]. by apply elem_of_map_to_list.
Qed.
End Prepare.

(** ** What the next unlock finds *)

(** The catalog found has the version of [m], and for every shard of [m] a top-level
    subtree that holds what the shard does (with its trash records, if [recorded]), and no
    other; its index is the one of its tree. *)
Definition saved_as (recorded : Shard -> Prop) (shards : list Shard) (m : CatalogManager)
    (found : result stop CatalogLoadOutcome) : Prop :=
  exists o, found = Ok o /\ lo_kind o = LoadedSharded /\ version (lo_catalog o) = version m
  /\ lo_catalog o = from_root_with_version (root (lo_catalog o)) (version m)
  /\ node_id (root (lo_catalog o)) = ROOT_NODE_ID /\ node_name (root (lo_catalog o)) = "/"%string
  /\ exists ss, ss ≡ₚ shards
     /\ Forall2 (fun r s => content false r = content false (sh_root s)
                            /\ (recorded s -> content true r = content true (sh_root s)))
          (children (root (lo_catalog o))) ss.

(** Every one of the shards is stored, with no commit pending: [sr_current] and [sr_unmarked]
    of the next save. *)
Definition all_current `{Crypto, Serde RootIndex, Serde Shard, Serde DeltaEntry} (key : list byte)
    (recorded : Shard -> Prop) (shards : list Shard) (d : Disk) : Prop :=
  d !! catalog_commit_chunk_name key = None
  /\ exists ri, root_is key ri d
     /\ forall s, s ∈ shards -> stored key d (base_meta (Some ri) s) (recorded s) (sh_root s).

Lemma Forall2_choose {A C} (P : A -> C -> Prop) l : (forall a, a ∈ l -> exists c, P a c) -> exists cs, Forall2 P l cs.
Proof.
  induction l as [|a l IH]; intros Hl; [by exists []|].
  destruct (Hl a) as [c Hc]; [left|]. destruct IH as [cs Hcs]; [intros x Hx; apply Hl; by right|].
  exists (c :: cs). by constructor.
Qed.

Section Found.
Context `{cr : Crypto} {crl : CryptoLaws cr}.
Context `{SerdeLaw RootIndex, SerdeLaw Shard, SerdeLaw DeltaEntry,
          Serde CatalogCommitRecord, SerdeLaw (DurableTxRecord CatalogCommitRecord)}.
Context (key : list byte) (clk : clock) (clks : string -> clock) (D0 : Disk) (prev : option RootIndex)
        (m : CatalogManager) (pending : gmap string (list DeltaEntry)) (B : Z).
Abbreviation shards := (persistence_shards (later 1 clk) m).
Context (ready : save_ready key D0 prev shards pending B).
Abbreviation mk := (catalog_commit_chunk_name key).
Abbreviation rn := (root_index_chunk_name key 0).
Abbreviation quiet d k := (mkWorld d [] k).
Abbreviation PREPARED := (prepared key clk D0 prev m pending B).
Abbreviation RECORDED := (trash_recorded key D0 prev pending).

Lemma load_shards_run d k clks' (recorded : Shard -> Prop) metas ss :
  Forall2 (fun meta s => stored key d meta (recorded s) (sh_root s) /\ meta_wf meta /\ sm_version meta < U64_MAX) metas ss ->
  exists loaded, load_shards key clks' metas (quiet d k) = (Ok loaded, quiet d k)
    /\ Forall2 (fun l s => content false (sh_root l) = content false (sh_root s)
                           /\ (recorded s -> content true (sh_root l) = content true (sh_root s))) loaded ss.
Proof.
  intros Hss. revert clks'. induction Hss as [|meta s metas ss (Hst & Hwf & Hu) _ IH]; intros clks'; [by exists []|].
  destruct (stored_loads key d meta (recorded s) (sh_root s) (clks' 0%nat) k Hst Hwf Hu) as (l & El & Heq).
  destruct (IH (fun i => clks' (S i))) as (ls & Els & Hls). exists (l :: ls). cbn [load_shards].
  unfold mbind, IO_bind in *. rewrite El, Els. split; [done|by constructor].
Qed.

(** A root index whose shards are stored loads as the catalog they make up. *)
Lemma stored_catalog_loads d bs ri (recorded : Shard -> Prop) ss shards0 m0 clk' clks' k :
  d !! mk = None -> d !! rn = Some bs -> opens_to key (as_bytes rn) bs ri -> is_sharded ri = true ->
  ri_root_version ri = version m0 -> ss ≡ₚ shards0 ->
  Forall2 (fun meta s => stored key d meta (recorded s) (sh_root s) /\ meta_wf meta /\ sm_version meta < U64_MAX)
    (map snd (map_to_list (ri_shards ri))) ss ->
  saved_as recorded shards0 m0 (unlocked key clk' clks' k d).
Proof.
  intros Hmk Ebs Ho Hsh Hv Hperm Hss.
  destruct (triple_world_ok (eq d) _ (fun _ => eq d) (fun _ => True) k d
              ltac:(apply recover_unmarked; [|done]; by intros ? <-) eq_refl) as ([] & ? & k1 & E & <-).
  destruct (load_shards_run d k1 clks' recorded _ ss Hss) as (loaded & El & Hl).
  exists (mkLoadOutcome (from_root_with_version (merge_shards_to_catalog clk' loaded) (version m0)) LoadedSharded).
  assert (root (from_root_with_version (merge_shards_to_catalog clk' loaded) (version m0))
          = merge_shards_to_catalog clk' loaded) as Hroot.
  { unfold from_root_with_version, from_root, rebuild_index. by destruct (collect_entries_into _ _ _). }
  destruct (merge_children clk' loaded) as (Hco & Hrid & Hrn & _). cbn [lo_catalog lo_kind]. rewrite Hroot.
  split_and!; try done.
  - unfold unlocked, run_io, load_for_unlock, mbind, IO_bind. rewrite E.
    unfold try_load_sharded_catalog, read_sharded_root_index_strict, mbind, IO_bind.
    rewrite (chunk_exists_run d k1 _ bs) by (done || apply root_valid). cbn [negb].
    rewrite (read_chunk_run d k1 _ bs) by (done || apply root_valid). unfold io_lift.
    rewrite (proj2 (open_strict_opens key bs _ _ _ ri) Ho). cbn [map_err].
    rewrite Hsh. cbn [negb]. cbn -[load_shards merge_shards_to_catalog from_root_with_version].
    rewrite El. cbn -[merge_shards_to_catalog from_root_with_version]. by rewrite Hv.
  - exists ss. split; [done|]. rewrite (children_Some _ _ Hco). by apply Forall2_fmap_l.
Qed.

(** Every shard of the new root index is one of the catalog. *)
Lemma prepared_meta durable σ d id meta :
  PREPARED durable σ d -> ri_shards (sv_root_index σ) !! id = Some meta ->
  exists s, s ∈ shards /\ sh_id s = id /\ sm_shard_id meta = id /\ meta_wf meta /\ meta_below B meta
    /\ stored key d meta (RECORDED s) (sh_root s).
Proof.
  intros Hp Hm. destruct (pr_core _ _ _ _ _ _ _ _ _ _ Hp) as (W & dn & Hc).
  assert (id ∈ map sh_id shards) as Hin by (apply (co_dom _ _ _ _ _ _ _ _ _ _ _ _ _ Hc); by eexists).
  apply list_elem_of_fmap in Hin as (s & -> & Hs).
  destruct (pr_settled _ _ _ _ _ _ _ _ _ _ Hp s Hs) as (m' & Hm' & Hid & Hwf & Hb & Hst).
  rewrite Hm in Hm'. injection Hm' as <-. exists s. by split_and!.
Qed.

Lemma prepared_shards durable σ d :
  PREPARED durable σ d ->
  exists ss, ss ≡ₚ shards
  /\ Forall2 (fun meta s => stored key d meta (RECORDED s) (sh_root s) /\ meta_wf meta /\ sm_version meta < U64_MAX
                /\ (forall n, n ∈ chunks_for_meta key meta -> n <> rn))
       (map snd (map_to_list (ri_shards (sv_root_index σ)))) ss.
Proof.
  intros Hp. set (M := ri_shards (sv_root_index σ)).
  destruct (pr_core _ _ _ _ _ _ _ _ _ _ Hp) as (W & dn & Hc).
  destruct (Forall2_choose (fun (x : string * ShardMeta) s => s ∈ shards /\ sh_id s = fst x
      /\ stored key d (snd x) (RECORDED s) (sh_root s) /\ meta_wf (snd x) /\ sm_version (snd x) < U64_MAX
      /\ (forall n, n ∈ chunks_for_meta key (snd x) -> n <> rn)) (map_to_list M)) as [ss Hss].
  { intros [id meta] Hin%elem_of_map_to_list.
    destruct (prepared_meta _ _ _ _ _ Hp Hin) as (s & Hs & Hid & Hmid & Hwf & Hb & Hst). exists s.
    split_and!; try done; [eapply below_u64; [exact ready|done]|].
    cbn [snd]. intros n Hn. subst id. by destruct (new_chunks_stay key D0 prev shards pending B ready _ _ _ _ _ _ _ _ _ Hc Hs Hin Hmid Hwf Hb Hn) as (_ & ? & _). }
  assert (map sh_id ss = map fst (map_to_list M)) as Hids.
  { clear -Hss. induction Hss as [|x s l ss (_ & E & _) _ IH]; [done|]. cbn. by rewrite E, IH. }
  assert (forall s, s ∈ ss -> s ∈ shards) as Hsub.
  { clear -Hss. induction Hss as [|x s l ss (Hs & _) _ IH]; intros s' Hs'; [by apply elem_of_nil in Hs'|].
    apply elem_of_cons in Hs' as [->|?]; auto. }
  assert (NoDup (map sh_id ss)) as Hnd by (rewrite Hids; apply NoDup_fst_map_to_list).
  exists ss. split.
  - apply NoDup_Permutation; [by eapply NoDup_fmap_1|eapply NoDup_fmap_1, (sr_nodup _ _ _ _ _ _ ready)|].
    intros s. split; [apply Hsub|]. intros Hs.
    assert (sh_id s ∈ map sh_id ss) as Hin.
    { rewrite Hids. destruct (proj2 (co_dom _ _ _ _ _ _ _ _ _ _ _ _ _ Hc (sh_id s))) as [meta Hm]; [by apply list_elem_of_fmap_2|].
      apply list_elem_of_fmap. exists (sh_id s, meta). split; [done|]. by apply elem_of_map_to_list. }
    apply list_elem_of_fmap in Hin as (s' & E & Hs'). rewrite (id_inj key D0 prev shards pending B ready s s'); [done|done|by apply Hsub|done].
  - clear -Hss. induction Hss as [|x s l ss (_ & _ & Hx) _ IH]; cbn; by constructor.
Qed.

(** The catalog that the commit is about to make current. *)
Lemma prepared_loads durable σ d bs clk' clks' k :
  PREPARED durable σ d -> opens_to key (as_bytes rn) bs (sv_root_index σ) ->
  saved_as RECORDED shards m (unlocked key clk' clks' k (<[rn := bs]> d)).
Proof.
  intros Hp Ho. destruct (pr_core _ _ _ _ _ _ _ _ _ _ Hp) as (W & dn & Hc).
  set (d' := <[rn := bs]> d).
  assert (rn <> mk) as Hne.
  { intros E. by apply (name_inj key D0 prev shards pending B ready RootRef CommitRef I I) in E. }
  assert (d' !! mk = None) as Hmk.
  { unfold d'. rewrite lookup_insert_ne by done.
    rewrite (core_safe key D0 prev shards pending B ready _ _ _ _ _ _ _ Hc mk) by by left. apply ready. }
  destruct (prepared_shards _ _ _ Hp) as (ss & Hperm & Hss).
  eapply stored_catalog_loads; [done|apply lookup_insert_eq|exact Ho|apply Hc|apply Hc|exact Hperm|].
  eapply Forall2_impl; [exact Hss|]. intros meta s (Hst & Hwf & Hu & Hn). split_and!; [|done..].
  eapply stored_same; [|exact Hst]. intros n Hin. unfold d'. rewrite lookup_insert_ne; [done|]. intros <-. by eapply Hn.
Qed.
End Found.

(** ** The guarantee *)

Section Guarantee.
Context `{cr : Crypto} {crl : CryptoLaws cr}.
Context `{SerdeLaw RootIndex, SerdeLaw Shard, SerdeLaw DeltaEntry,
          Serde CatalogCommitRecord, SerdeLaw (DurableTxRecord CatalogCommitRecord)}.
Context (key : list byte) (clk : clock) (clks : string -> clock) (D0 : Disk) (prev : option RootIndex)
        (m : CatalogManager) (pending : gmap string (list DeltaEntry)) (B : Z).
Abbreviation shards := (persistence_shards (later 1 clk) m).
Context (ready : save_ready key D0 prev shards pending B).
Abbreviation mk := (catalog_commit_chunk_name key).
Abbreviation rn := (root_index_chunk_name key 0).
Abbreviation SAFE := (Safe key D0 prev).
Abbreviation PREPARED := (prepared key clk D0 prev m pending B).
Abbreviation RECORDED := (trash_recorded key D0 prev pending).

(** The chunks of a catalog whose root index is on [D0] are protected. *)
Lemma live_protected ri n : root_is key ri D0 -> live_chunk key ri n -> protected key prev n.
Proof.
  intros (bs & E & Ho) (meta & Hmeta & Hn). pose proof (sr_prev _ _ _ _ _ _ ready) as Hp.
  right. right. apply list_elem_of_fmap in Hmeta as ([id meta'] & -> & Hin%elem_of_map_to_list).
  exists id, meta'. split; [|done]. unfold previous_meta. destruct prev as [ri0|]; [|congruence].
  destruct Hp as [(bs0 & E0 & Ho0) _]. rewrite E in E0. injection E0 as <-.
  by rewrite (opens_to_fun _ _ _ _ _ Ho0 Ho).
Qed.

Lemma safe_unlocked clk' clks' k k' d : SAFE d -> unlocked key clk' clks' k d = unlocked key clk' clks' k' D0.
Proof.
  intros Hd. symmetry. apply same_unlocked.
  - apply same_load.
    + symmetry. apply Hd. right. by left.
    + intros ri n Hri _ Hn. symmetry. apply Hd. by eapply live_protected.
  - apply ready.
  - rewrite Hd by by left. apply ready.
Qed.

Lemma safe_interrupted schedule d : SAFE d -> interrupted schedule (recover_incomplete_commit key) d = d.
Proof.
  intros Hd. symmetry. eapply (interrupted_inv (eq d) _ (fun _ => eq d)); try done.
  apply recover_unmarked; [|done]. intros d' <-. rewrite Hd by by left. apply ready.
Qed.

Context (root_seals : forall x : RootIndex, sealable key (as_bytes rn) x).
Context (record_seals : forall x : DurableTxRecord CatalogCommitRecord, sealable key (as_bytes mk) x).

Abbreviation commit_name := (String.append "catalog-" (show_u64 (version m))).

Lemma prepared_ready durable σ d :
  PREPARED durable σ d -> commit_ready key d (sv_root_index σ) durable (sv_old_chunks σ) commit_name.
Proof.
  intros Hp. destruct (pr_core _ _ _ _ _ _ _ _ _ _ Hp) as (W & dn & Hc).
  apply (core_commit_ready key D0 prev shards pending B ready _ _ _ _ _ _ _ _ Hc); try done. apply Hp.
Qed.

Lemma prepared_apart durable σ d :
  PREPARED durable σ d ->
  SAFE d /\ (forall ri0 n, root_is key ri0 d -> live_chunk key ri0 n -> n ∉ durable)
  /\ (forall n, live_chunk key (sv_root_index σ) n -> (n ∉ sv_old_chunks σ) /\ n <> rn).
Proof.
  intros Hp. destruct (pr_core _ _ _ _ _ _ _ _ _ _ Hp) as (W & dn & Hc).
  assert (SAFE d) as Hs by (eapply core_safe; [exact ready|exact Hc]). split_and!; [done|..].
  - intros ri0 n (bs & E & Ho) Hn Hdur. rewrite Hs in E by (right; by left).
    destruct (pr_durable _ _ _ _ _ _ _ _ _ _ Hp n Hdur) as [(r & -> & Hf)%(co_new _ _ _ _ _ _ _ _ _ _ _ _ _ Hc) _].
    eapply fresh_unprotected; [exact ready|apply Hc|exact Hf|]. eapply live_protected; [by exists bs|done].
  - intros n (meta & Hmeta & Hn). apply list_elem_of_fmap in Hmeta as ([id meta'] & -> & Hin%elem_of_map_to_list).
    destruct (prepared_meta key clk D0 prev m pending B _ _ _ _ _ Hp Hin) as (s & Hs' & <- & Hmid & Hwf & Hb & _).
    by destruct (new_chunks_stay key D0 prev shards pending B ready _ _ _ _ _ _ _ _ _ Hc Hs' Hin Hmid Hwf Hb Hn) as (? & ? & _).
Qed.

(** After the commit every shard is stored under the root index that is on the disk. *)
Lemma committed_current durable σ d0 d :
  PREPARED durable σ d0 -> d !! mk = None -> committed key d0 (sv_root_index σ) (sv_old_chunks σ) d ->
  all_current key RECORDED shards d.
Proof.
  intros Hp Hmk [Hroot Hd]. split; [done|]. exists (sv_root_index σ). split; [done|]. intros s Hs.
  destruct (pr_core _ _ _ _ _ _ _ _ _ _ Hp) as (W & dn & Hc).
  destruct (pr_settled _ _ _ _ _ _ _ _ _ _ Hp s Hs) as (meta & Hm & Hid & Hwf & Hb & Hst).
  assert (stored key d meta (RECORDED s) (sh_root s)) as Hst'.
  { eapply stored_same; [|exact Hst]. intros n Hn. symmetry. apply Hd.
    destruct (new_chunks_stay key D0 prev shards pending B ready _ _ _ _ _ _ _ _ _ Hc Hs Hm Hid Hwf Hb Hn) as (? & ? & _).
    by apply not_elem_of_cons. }
  unfold base_meta, meta_for_shard. cbn [default from_option id]. rewrite Hm. exact Hst'.
Qed.

(** A name that is not one of the catalog's. *)
Definition foreign (n : string) : Prop := forall r, in_scope prev shards B r -> n <> ref_name key r.

(** What the recovery after a save leaves on the disk: no marker; what an unlock finds there is what
    it would have found on [D0], or the saved catalog. *)
Record settles (clk' : clock) (clks' : nat -> clock) (ok : bool) (d d3 : Disk) : Prop := {
  st_unmarked : d3 !! mk = None;
  st_found k : unlocked key clk' clks' k d3 = unlocked key clk' clks' k D0 \/ saved_as RECORDED shards m (unlocked key clk' clks' k d3);
  st_saved : ok = true -> d3 = d /\ all_current key RECORDED shards d /\ forall k, saved_as RECORDED shards m (unlocked key clk' clks' k d3);
  st_live : ok = true -> forall ri n, root_is key ri d -> live_chunk key ri n -> exists r, in_scope prev shards B r /\ n = ref_name key r;
  st_frame : d3 = d \/ forall n, foreign n -> d3 !! n = D0 !! n;
}.

(** The chunks of the committed root index are the catalog's. *)
Lemma committed_live durable σ d0 d ri n :
  PREPARED durable σ d0 -> committed key d0 (sv_root_index σ) (sv_old_chunks σ) d -> root_is key ri d -> live_chunk key ri n ->
  exists r, in_scope prev shards B r /\ n = ref_name key r.
Proof.
  intros Hp [(bs & E & Ho) _] (bs' & E' & Ho') (meta & Hmeta & Hn). rewrite E in E'. injection E' as <-.
  rewrite (opens_to_fun _ _ _ _ _ Ho' Ho) in Hmeta. apply list_elem_of_fmap in Hmeta as ([id meta'] & -> & Hin%elem_of_map_to_list).
  destruct (prepared_meta key clk D0 prev m pending B _ _ _ _ _ Hp Hin) as (s & Hs & <- & Hmid & Hwf & Hb & _).
  apply chunks_of_meta in Hn as (r & Hr & ->); [|done|by eapply below_u64]. exists r. split; [|done].
  eapply chunk_in_scope; [cbn [snd] in *; rewrite Hmid; apply elem_of_app; left; by apply list_elem_of_fmap_2|done..].
Qed.

Lemma prepared_foreign durable σ d n :
  PREPARED durable σ d -> foreign n ->
  d !! n = D0 !! n /\ (n ∉ durable) /\ n ∉ rn :: sv_old_chunks σ.
Proof.
  intros Hp Hn. destruct (pr_core _ _ _ _ _ _ _ _ _ _ Hp) as (W & dn & Hc).
  assert (n ∉ sv_new_chunks σ) as Hnew.
  { intros (r & -> & Hf)%(co_new _ _ _ _ _ _ _ _ _ _ _ _ _ Hc). eapply (Hn r); [|done]. eapply fresh_in_scope; [exact ready|apply Hc|exact Hf]. }
  split_and!.
  - by apply (co_disk _ _ _ _ _ _ _ _ _ _ _ _ _ Hc).
  - intros [? _]%(pr_durable _ _ _ _ _ _ _ _ _ _ Hp). done.
  - intros [->|Ho]%elem_of_cons; [by apply (Hn RootRef)|].
    apply (co_old _ _ _ _ _ _ _ _ _ _ _ _ _ Hc) in Ho as (id & m' & Hm' & Hin & _).
    destruct (old_meta_facts key D0 prev shards pending B ready id m' Hm') as (Hid & Hwf & Hb & Hu).
    apply chunks_of_meta in Hin as (r & Hr & ->); [|done..]. apply (Hn r); [|done].
    eapply chunk_in_scope; [rewrite Hid; by eapply old_in_ids|done..].
Qed.

(** The commit of what was prepared. *)
Lemma commit_prepared durable σ w schedule clk' clks' k' :
  PREPARED durable σ (disk w) ->
  let '(r, w') := commit_root_index_update key (sv_root_index σ) durable (sv_old_chunks σ) commit_name w in
  let d := interrupted schedule (recover_incomplete_commit key) (disk w') in
  exists d3 k3, recover_incomplete_commit key (mkWorld d [] k') = (Ok tt, mkWorld d3 [] k3) /\ settles clk' clks' (is_ok r) d d3.
Proof.
  intros Hp. destruct (prepared_apart _ _ _ Hp) as (Hs & Hold & Hnew). pose proof (prepared_ready _ _ _ Hp) as Hr.
  pose proof (commit_recovers key (disk w) (sv_root_index σ) durable (sv_old_chunks σ) commit_name (fates w) (draws w) schedule k' Hr) as Hc.
  pose proof (commit_then_recoveries key (disk w) (sv_root_index σ) durable (sv_old_chunks σ) commit_name Hr (fates w) (draws w) schedule) as Ht.
  pose proof (fun n => prepared_foreign durable σ (disk w) n Hp) as Hfor.
  unfold run_io in Hc, Ht. destruct w as [d0 fs kk]. cbn [disk fates draws] in *.
  destruct (commit_root_index_update _ _ _ _ _ _) as [r w']. cbv zeta in *. destruct Hc as (d3 & k3 & E & Hm & Hd & Hok).
  destruct Ht as [_ Hok2]. set (d := interrupted _ _ _) in *. exists d3, k3. split; [exact E|].
  assert (committed key d0 (sv_root_index σ) (sv_old_chunks σ) d3 ->
          forall k, saved_as RECORDED shards m (unlocked key clk' clks' k d3)) as Hsaved.
  { intros Hcm k. destruct (unlocked_committed key clk' clks' d0 _ durable _ commit_name Hr Hnew k k d3 Hm Hcm) as (bs & Ho & ->).
    by eapply prepared_loads. }
  split; [done|..].
  - intros k. destruct Hd as [Hd|Hd]; [left|right; auto].
    rewrite (unlocked_not_committed key clk' clks' d0 _ durable _ commit_name Hr Hold k k d3 Hm Hd). by apply safe_unlocked.
  - destruct r as [[]|e]; [intros _|done]. destruct (Hok2 eq_refl) as [Hmk Hcm]. rewrite delete_id in Hcm by done.
    destruct (triple_world_ok (eq d) _ (fun _ => eq d) (fun _ => True) k' d
                ltac:(apply recover_unmarked; [|done]; by intros ? <-) eq_refl) as ([] & d4 & k4 & E' & <-).
    rewrite E in E'. injection E' as -> _. split_and!; [done|by eapply committed_current|auto].
  - destruct r as [[]|e]; [intros _|done]. destruct (Hok2 eq_refl) as [Hmk Hcm]. rewrite delete_id in Hcm by done.
    intros ri n. by eapply committed_live.
  - right. intros n Hn. destruct (Hfor n Hn) as (<- & Hdur & Hrest). destruct Hd as [Hd|[_ Hd]]; by apply Hd.
Qed.

(** The whole save. *)
Lemma save_settles fs k schedule clk' clks' k' :
  let '(r, _, _, w) := run_save key clk clks m pending (mkWorld D0 fs k) in
  let d := interrupted schedule (recover_incomplete_commit key) (disk w) in
  exists d3 k3, recover_incomplete_commit key (mkWorld d [] k') = (Ok tt, mkWorld d3 [] k3) /\ settles clk' clks' (is_ok r) d d3.
Proof.
  unfold run_save, save.
  pose proof (prepare_spec key clk clks D0 prev m pending B ready [] (mkSave (index_new (clk 0%nat)) [] [] pending [])
                (mkWorld D0 fs k) (conj eq_refl eq_refl)) as Hp.
  unfold mbind at 1, StIO_bind at 1. destruct (prepare_save _ _ _ _ _ _) as [[[durable|e] σ] w].
  - unfold mbind, StIO_bind, save_state, st_get, io. cbn beta iota.
    pose proof (commit_prepared durable σ w schedule clk' clks' k' Hp) as Hc.
    destruct (commit_root_index_update _ _ _ _ _ _) as [[[]|e] w']; exact Hc.
  - cbn zeta. rewrite safe_interrupted by done.
    assert (disk w !! mk = None) as Hm.
    { rewrite (Hp mk); [apply ready|by left]. }
    destruct (triple_world_ok (eq (disk w)) _ (fun _ => eq (disk w)) (fun _ => True) k' (disk w)
                ltac:(apply recover_unmarked; [|done]; by intros ? <-) eq_refl) as ([] & ? & k3 & E & <-).
    exists (disk w), k3. split; [exact E|]. split; [done| |done|done|by left]. intros k0. left. by apply safe_unlocked.
Qed.
End Guarantee.

(** C2: saving is crash-safe and complete. Let a save start from a disk with a well-formed
    catalog on which every shard that has no pending delta, and whose snapshot the save keeps,
    is stored as the catalog has it ([save_ready]); let it run with any storage and
    random-generator faults, and stop anywhere; let recovery be cut off any
    number of times. The next unlock finds what it would have found before the save, or
    the saved catalog: the version, and for every shard of the catalog a top-level
    subtree with the same nodes, all fields but the times of directories, and nothing else;
    with the same trash records where the pending deltas carry them ([trash_recorded]). After
    a save that returned [Ok] it is the latter, and every shard is then stored as the
    catalog has it, as a next save wants. *)
Theorem save_crash_safe `{CryptoLaws} `{SerdeLaw RootIndex, SerdeLaw Shard, SerdeLaw DeltaEntry,
    Serde CatalogCommitRecord, SerdeLaw (DurableTxRecord CatalogCommitRecord)}
    key clk clks D0 prev m pending B fs k schedule clk' clks' k' :
  let shards := persistence_shards (later 1 clk) m in
  let recorded := trash_recorded key D0 prev pending in
  save_ready key D0 prev shards pending B ->
  (forall x : RootIndex, sealable key (as_bytes (root_index_chunk_name key 0)) x) ->
  (forall x : DurableTxRecord CatalogCommitRecord, sealable key (as_bytes (catalog_commit_chunk_name key)) x) ->
  let '(r, _, _, w) := run_save key clk clks m pending (mkWorld D0 fs k) in
  let found := unlocked key clk' clks' k' in
  let d := interrupted schedule (recover_incomplete_commit key) (disk w) in
  (found d = found D0 \/ saved_as recorded shards m (found d))
  /\ (is_ok r = true -> saved_as recorded shards m (found d) /\ all_current key recorded shards d).
Proof.
  intros shards recorded Hready Hs1 Hs2.
  pose proof (save_settles key clk clks D0 prev m pending B Hready Hs1 Hs2 fs k schedule clk' clks' k') as Hs.
  destruct (run_save _ _ _ _ _ _) as [[[r p] ps] w]. destruct Hs as (d3 & k3 & E & [Hm Hf Hok _ _]). cbv zeta.
  assert (unlocked key clk' clks' k' (interrupted schedule (recover_incomplete_commit key) (disk w))
          = unlocked key clk' clks' k' d3) as ->.
  { eapply unlocked_recovered; [exact E| |done]. by apply same_load. }
  split; [apply Hf|]. intros (-> & Hc & Hsv)%Hok. done.
Qed.

(** ** Saving succeeds *)

Section Progress.
Context `{cr : Crypto} {crl : CryptoLaws cr}.
Context `{SerdeLaw RootIndex, SerdeLaw Shard, SerdeLaw DeltaEntry,
          Serde CatalogCommitRecord, SerdeLaw (DurableTxRecord CatalogCommitRecord)}.
Context (key : list byte).
Context (shard_seals : forall n (x : Shard), sealable key (as_bytes n) x).
Abbreviation quiet d k := (mkWorld d [] k).

(** The new chunks have chunk names, and no deltas are pending. *)
Definition plain_state (σ : SaveState) : Prop :=
  (forall n, n ∈ sv_new_chunks σ -> valid_name n = true) /\ sv_pending σ = ∅.

(** Without faults, [c] returns, from any disk. *)
Definition returns {A} (c : SIO A) (σ : SaveState) : Prop :=
  plain_state σ -> forall d k, exists a σ' d' k', c σ (quiet d k) = (Ok a, σ', quiet d' k') /\ plain_state σ'.

Lemma returns_ret {A} (a : A) σ : returns (mret a) σ.
Proof. intros Hσ d k. exists a, σ, d, k. by split. Qed.

Lemma returns_bind {A B} (c : SIO A) (f : A -> SIO B) σ :
  returns c σ -> (forall a σ', returns (f a) σ') -> returns (c ≫= f) σ.
Proof.
  intros Hc Hf Hσ d k. destruct (Hc Hσ d k) as (a & σ1 & d1 & k1 & E & Hσ1).
  destruct (Hf a σ1 Hσ1 d1 k1) as (b & σ2 & d2 & k2 & E2 & Hσ2). exists b, σ2, d2, k2.
  unfold mbind, StIO_bind. by rewrite E.
Qed.

Lemma returns_on f σ : (plain_state σ -> plain_state (f σ)) -> returns (on_save f) σ.
Proof. intros Hf Hσ d k. exists tt, (f σ), d, k. split; [done|auto]. Qed.

Lemma returns_state σ : returns save_state σ.
Proof. intros Hσ d k. exists σ, σ, d, k. by split. Qed.

Lemma returns_io {A} (c : IO A) σ : (forall d k, exists a d' k', c (quiet d k) = (Ok a, quiet d' k')) -> returns (io c) σ.
Proof.
  intros Hc Hσ d k. destruct (Hc d k) as (a & d' & k' & E). exists a, σ, d', k'. unfold io. by rewrite E.
Qed.

(** A total computation in the crash logic returns. *)
Lemma returns_triple {A} (c : IO A) σ : (forall d, triple (eq d) c (fun _ _ => True) (fun _ => True)) -> returns (io c) σ.
Proof.
  intros Hc. apply returns_io. intros d k.
  destruct (triple_world_ok _ _ _ _ k d (Hc d) eq_refl) as (a & d' & k' & E & _). eauto.
Qed.

Lemma snapshot_check_returns n s σ : valid_name n = true -> returns (io (snapshot_check key n s)) σ.
Proof.
  intros Hv. apply returns_io. intros d k. unfold snapshot_check, mbind, IO_bind. apply chunk_path_ok in Hv as [p Hp].
  unfold chunk_exists, mbind, IO_bind, io_lift. rewrite Hp. cbn. case_bool_decide as Hd; cbn; [|eauto].
  destruct Hd as [bs E]. unfold attempt, read_chunk, mbind, IO_bind, io_lift. rewrite Hp. cbn. rewrite E. cbn.
  destruct (open_sealed bs key (as_bytes n)) as [sh|]; cbn; [destruct (shard_snapshot_needs_rewrite sh s)|]; eauto.
Qed.

Lemma save_snapshot_returns prev s σ : returns (save_snapshot key prev s) σ.
Proof.
  unfold save_snapshot. apply returns_bind; [apply snapshot_check_returns, snapshot_valid|]. intros [nw ch] σ1.
  destruct nw; cbn [negb]; [|apply returns_ret]. apply returns_bind; [apply returns_state|]. intros st σ2.
  destruct (get_shard_meta _ _) as [meta|]; [|apply returns_ret]. cbv zeta.
  apply returns_bind; [by apply returns_on|]. intros _ σ3. apply returns_bind; [by apply returns_on|]. intros _ σ4.
  set (n := shard_snapshot_chunk_name key _ _). apply returns_bind.
  { apply returns_triple. intros d. eapply triple_conseq; [apply (triple_seal _ _ _ (eq d) (fun _ => True)); [apply shard_seals|done]|done..]. }
  intros enc σ5. apply returns_bind.
  { apply returns_on. intros [Hv Hp]. split; [|done]. intros n' [?| ->%list_elem_of_singleton]%elem_of_app; [auto|apply snapshot_valid]. }
  intros _ σ6. apply returns_bind; [|intros; apply returns_ret].
  apply returns_triple. intros d. apply triple_write; [apply snapshot_valid|done..].
Qed.

Lemma save_snapshots_returns prev ss σ : returns (save_snapshots key prev ss) σ.
Proof.
  revert σ. induction ss as [|s ss IH]; intros σ; cbn [save_snapshots]; [apply returns_ret|].
  apply returns_bind; [apply save_snapshot_returns|]. intros b σ1. apply returns_bind; [apply IH|]. intros R σ2. apply returns_ret.
Qed.

Lemma existing_returns ns σ : (forall n, n ∈ ns -> valid_name n = true) -> returns (io (existing_chunks ns)) σ.
Proof.
  intros Hv. apply returns_triple. intros d. induction ns as [|n ns IH]; cbn [existing_chunks]; [by apply triple_ret|].
  apply (triple_bind _ _ _ (fun _ => eq d)); [by apply triple_chunk_exists; [apply Hv; left|..]|]. intros e.
  eapply triple_bind; [apply IH; intros x Hx; apply Hv; by right|]. intros l. by apply triple_ret.
Qed.

Lemma read_root_returns D0 prev shards pending B k :
  save_ready key D0 prev shards pending B ->
  read_root_index key (root_index_chunk_name key 0) (quiet D0 k) = (Ok prev, quiet D0 k).
Proof.
  intros Hready. pose proof (sr_prev _ _ _ _ _ _ Hready) as Hprev. unfold read_root_index, mbind, IO_bind.
  destruct prev as [ri|].
  - destruct Hprev as [(bs & E & Ho) Hsh].
    rewrite (chunk_exists_run D0 k _ bs) by (done || apply root_valid). cbn [negb].
    rewrite (read_chunk_run D0 k _ bs) by (done || apply root_valid). unfold io_lift.
    rewrite (open_sealed_opens key bs _ ri Ho). cbn. by rewrite Hsh.
  - destruct (chunk_path_ok _ (root_valid key)) as [p Hp].
    unfold chunk_exists, mbind, IO_bind, io_lift. rewrite Hp. cbn. rewrite Hprev. done.
Qed.

Lemma io_bind_run {A B} (c : IO A) (f : A -> SIO B) σ w a w' : c w = (Ok a, w') -> (io c ≫= f) σ w = f a σ w'.
Proof. intros E. unfold mbind, StIO_bind, io. by rewrite E. Qed.

Lemma prepare_returns clk clks D0 prev m B k pers :
  save_ready key D0 prev (persistence_shards (later 1 clk) m) ∅ B ->
  exists durable σ d' k', prepare_save key clk clks m (mkSave (index_new (clk 0%nat)) [] [] ∅ pers) (quiet D0 k)
    = (Ok durable, σ, quiet d' k').
Proof.
  intros Hready. unfold prepare_save.
  destruct (triple_world_ok (eq D0) _ (fun _ => eq D0) (fun _ => True) k D0
              ltac:(apply recover_unmarked; [|done]; intros ? <-; apply Hready) eq_refl) as ([] & ? & k1 & E & <-).
  rewrite (io_bind_run _ _ _ _ _ _ E), (io_bind_run _ _ _ _ _ _ (read_root_returns _ _ _ _ _ _ Hready)).
  match goal with |- exists a b d e, ?c ?σ ?w = _ =>
    assert (returns c σ) as Hret; [|destruct (Hret ltac:(by split; [intros n Hn; by apply elem_of_nil in Hn|]) D0 k1)
      as (a & b & d & e & Er & _); by eauto 10] end.
  cbv zeta. apply returns_bind; [by apply returns_on|]. intros _ σ1. apply returns_bind; [by apply returns_on|]. intros _ σ2.
  apply returns_bind; [apply save_snapshots_returns|]. intros R σ3.
  intros Hσ3 d k3. unfold mbind at 1, StIO_bind at 1, save_state at 1, st_get at 1. destruct Hσ3 as [Hv Hp]. rewrite Hp.
  rewrite map_to_list_empty. cbn [map concat check_delta_sizes fallback_shards].
  change (merge_sort delta_shard_le []) with (@nil string). cbn [save_all_deltas].
  unfold io, mbind, StIO_bind, io_lift, save_state, st_get. cbn.
  destruct (existing_returns (sv_new_chunks σ3) σ3 Hv (conj Hv Hp) d k3) as (l & σ' & d' & k' & Ee & Hσ').
  exists l, σ', d', k'. split; [exact Ee|done].
Qed.
End Progress.

(** without faults, a save with no pending deltas succeeds: it returns the catalog's
    version and the number of its shards. *)
Theorem save_succeeds `{CryptoLaws} `{SerdeLaw RootIndex, SerdeLaw Shard, SerdeLaw DeltaEntry,
    Serde CatalogCommitRecord, SerdeLaw (DurableTxRecord CatalogCommitRecord)}
    key clk clks D0 prev m B k :
  let shards := persistence_shards (later 1 clk) m in
  save_ready key D0 prev shards ∅ B ->
  (forall n (x : Shard), sealable key (as_bytes n) x) ->
  (forall x : RootIndex, sealable key (as_bytes (root_index_chunk_name key 0)) x) ->
  (forall x : DurableTxRecord CatalogCommitRecord, sealable key (as_bytes (catalog_commit_chunk_name key)) x) ->
  fst (fst (fst (run_save key clk clks m ∅ (mkWorld D0 [] k)))) = Ok (version m, Z.of_nat (length shards)).
Proof.
  intros shards Hready Hs1 Hs2 Hs3. unfold run_save, save.
  destruct (prepare_returns key Hs1 clk clks D0 prev m B k [] Hready) as (durable & σ & d & k1 & E).
  pose proof (prepare_spec key clk clks D0 prev m ∅ B Hready [] (mkSave (index_new (clk 0%nat)) [] [] ∅ [])
                (mkWorld D0 [] k) (conj eq_refl eq_refl)) as Hp.
  unfold mbind at 1, StIO_bind at 1. rewrite E in *. unfold mbind, StIO_bind, save_state, st_get, io. cbn beta iota.
  pose proof (prepared_ready key clk D0 prev m ∅ B Hready Hs2 Hs3 _ _ _ Hp) as Hc.
  destruct (triple_world_ok _ _ _ _ k1 d (commit_runs key d _ _ _ _ Hc) eq_refl) as ([] & d' & k' & -> & _). cbn.
  destruct (pr_core _ _ _ _ _ _ _ _ _ _ Hp) as (W & dn & Hcore). rewrite (co_version _ _ _ _ _ _ _ _ _ _ _ _ _ Hcore).
  do 3 f_equal. destruct (prepared_shards key clk D0 prev m ∅ B Hready _ _ _ Hp) as (ss & Hperm & Hss).
  apply Forall2_length in Hss. rewrite length_map, length_map_to_list in Hss. rewrite Hss. by rewrite Hperm.
Qed.

(** ** A concrete save: one file was added to a catalog of two. *)

#[local] Existing Instances toy_crypto toy_crypto_laws root_serde commit_serde tx_serde
  root_serde_law tx_serde_law shard_serde delta_serde shard_serde_law delta_serde_law.

Definition demo_clock : clock := fun _ => 500.
Definition demo_before : CatalogManager :=
  history [OpCreateDir "/" "docs"; OpCreateFile "/docs" "a.txt" 10 None].
Definition demo_after : CatalogManager := snd (create_file (fun _ => 2000) "/docs" "b.txt" 20 None demo_before).
Definition demo_shards : list Shard := persistence_shards (later 1 demo_clock) demo_after.
Definition demo_docs : Shard :=
  shard_new "docs" (default (new_root 0) (find_child "docs" (root demo_before))).
Definition demo_added : CatalogNode := default (new_root 0) (find_by_path demo_after "/docs/b.txt").
Definition demo_pending : gmap string (list DeltaEntry) := {["docs"%string := [de_create 2000 0 "/" demo_added]]}.

Definition demo_saved_metas : gmap string ShardMeta :=
  list_to_map [("docs"%string, meta_new "docs" Lazy); (".passmanager"%string, meta_new ".passmanager" Eager);
               (".passkeys"%string, meta_new ".passkeys" Eager)].
Definition demo_saved_root : RootIndex := mkRootIndex 2 "sharded" 2 0 demo_saved_metas.

Definition demo_saved_disk : Disk :=
  <[root_index_chunk_name demo_key 0 := toy_seal demo_saved_root]>
  (list_to_map (map (fun s => (shard_snapshot_chunk_name demo_key (sh_id s) 0, toy_seal s)) (demo_docs :: tail demo_shards))).

#[local] Instance byte_eq_dec : EqDecision byte := Byte.byte_eq_dec.

Definition collision_free `{Crypto} (key : list byte) (rs : list chunk_ref) : bool :=
  let hs := map (fun r => (blake3 (ref_preimage key r), ref_preimage key r)) rs in
  forallb (fun x => forallb (fun y => negb (bool_decide (fst x = fst y)) || bool_decide (snd x = snd y)) hs) hs.

Lemma collision_free_sound `{Crypto} key rs : collision_free key rs = true -> no_collision key rs.
Proof.
  unfold collision_free. intros Hc r1 r2 Hr1 Hr2 E. rewrite forallb_forall in Hc.
  rewrite list_elem_of_In in Hr1, Hr2.
  specialize (Hc _ (in_map _ _ _ Hr1)). rewrite forallb_forall in Hc. specialize (Hc _ (in_map _ _ _ Hr2)).
  cbn in Hc. rewrite bool_decide_true in Hc by done. cbn in Hc. by apply bool_decide_eq_true in Hc.
Qed.

Lemma demo_prev_meta id m :
  previous_meta (Some demo_saved_root) id = Some m ->
  (id = "docs" \/ id = ".passmanager" \/ id = ".passkeys")%string /\ sm_shard_id m = id /\ meta_wf m /\ meta_below 2 m.
Proof.
  unfold previous_meta. cbn [mbind option_bind ri_shards demo_saved_root].
  intros Hm%elem_of_list_to_map_2. rewrite !elem_of_cons in Hm.
  destruct Hm as [[= -> ->]|[[= -> ->]|[[= -> ->]|Hm]]]; [..|by apply elem_of_nil in Hm];
    (split; [tauto|]); (split; [done|]); (split; [split; done|split; done]).
Qed.

(** Every shard but the changed one is on the disk. *)
Definition demo_on_disk (s : Shard) : bool :=
  let m := base_meta (Some demo_saved_root) s in
  negb (bool_decide (pending_of demo_pending (sh_id s) = []))
  || (bool_decide (demo_saved_disk !! shard_snapshot_chunk_name demo_key (sm_shard_id m) (sm_snapshot_seq m)
                   = Some (toy_seal s))
      && negb (sm_has_deltas m)).

Lemma demo_shards_on_disk s : s ∈ demo_shards -> demo_on_disk s = true.
Proof.
  assert (forallb demo_on_disk demo_shards = true) as Hb by (vm_compute; reflexivity).
  rewrite forallb_forall in Hb. rewrite list_elem_of_In. apply Hb.
Qed.

Lemma demo_save_ready :
  save_ready demo_key demo_saved_disk (Some demo_saved_root) demo_shards demo_pending 3.
Proof.
  split.
  - vm_compute. reflexivity.
  - split; [|done]. exists (toy_seal demo_saved_root). split; [apply lookup_insert_eq|]. apply toy_seal_opens, to_of_root.
  - intros id m Hm. by destruct (demo_prev_meta id m Hm) as (_ & ? & ? & _).
  - apply (bool_decide_unpack _). vm_compute. exact I.
  - lia.
  - intros id m Hm. by destruct (demo_prev_meta id m Hm) as (_ & _ & _ & ?).
  - assert (forallb (fun s => bool_decide (sm_version (base_meta (Some demo_saved_root) s)
      + Z.of_nat (length (pending_of demo_pending (sh_id s))) + 1 < 3)) demo_shards = true) as Hb by (vm_compute; reflexivity).
    intros s Hs. rewrite forallb_forall in Hb. rewrite list_elem_of_In in Hs. by apply (bool_decide_eq_true_1 _), Hb.
  - assert (forallb (fun i => negb (contains_char nul i)) (save_ids (Some demo_saved_root) demo_shards) = true) as Hb
      by (vm_compute; reflexivity).
    intros i Hi. rewrite forallb_forall in Hb. rewrite list_elem_of_In in Hi. by apply negb_true_iff, Hb.
  - apply collision_free_sound. vm_compute. reflexivity.
  - intros s Hs Hp _. pose proof (demo_shards_on_disk s Hs) as Hd. unfold demo_on_disk in Hd.
    rewrite bool_decide_true in Hd by done. apply andb_true_iff in Hd as [Hd%bool_decide_eq_true Hn%negb_true_iff].
    apply (stored_snapshot demo_key _ _ _ s); [|done|done]. exists (toy_seal s). split; [done|]. apply toy_seal_opens, to_of_shard.
Qed.

(** The save fails at its 25th call to the disk, and the machine crashes in the recovery
    that follows. *)
Definition demo_save_faults : list fate := repeat Runs 24 ++ [FailsAfter; Crashes].
Definition demo_save_schedule : list (list fate * nat) := [([Runs; Crashes], 40%nat)].

Lemma save_crash_safe_witness :
  save_ready demo_key demo_saved_disk (Some demo_saved_root) demo_shards demo_pending 3
  /\ let '(r, _, _, w) := run_save demo_key demo_clock (fun _ => demo_clock) demo_after demo_pending
                            (mkWorld demo_saved_disk demo_save_faults 0) in
     let found := unlocked demo_key demo_clock (fun _ => demo_clock) 60 in
     let d := interrupted demo_save_schedule (recover_incomplete_commit demo_key) (disk w) in
     let recorded := trash_recorded demo_key demo_saved_disk (Some demo_saved_root) demo_pending in
     (found d = found demo_saved_disk \/ saved_as recorded demo_shards demo_after (found d))
     /\ (is_ok r = true -> saved_as recorded demo_shards demo_after (found d) /\ all_current demo_key recorded demo_shards d).
Proof.
  pose proof (save_crash_safe demo_key demo_clock (fun _ => demo_clock) demo_saved_disk (Some demo_saved_root)
                demo_after demo_pending 3 demo_save_faults 0 demo_save_schedule demo_clock (fun _ => demo_clock) 60
                demo_save_ready (fun x => toy_sealable _ _ _ _ x) (fun x => toy_sealable _ _ _ _ x)) as H.
  split; [exact demo_save_ready|]. destruct (run_save _ _ _ _ _ _) as [[[r p] ps] w]. exact H.
Defined.

(** The first save of a vault: nothing is on the disk. *)
Lemma first_save_ready : save_ready demo_key ∅ None demo_shards ∅ 2.
Proof.
  split; try done.
  - apply (bool_decide_unpack _). vm_compute. exact I.
  - assert (forallb (fun i => negb (contains_char nul i)) (save_ids None demo_shards) = true) as Hb
      by (vm_compute; reflexivity).
    intros i Hi. rewrite forallb_forall in Hb. rewrite list_elem_of_In in Hi. by apply negb_true_iff, Hb.
  - apply collision_free_sound. vm_compute. reflexivity.
  - intros s _ _ (sh & (bs & Hbs & _) & _). by rewrite lookup_empty in Hbs.
Qed.

Lemma save_succeeds_witness :
  save_ready demo_key ∅ None demo_shards ∅ 2
  /\ fst (fst (fst (run_save demo_key demo_clock (fun _ => demo_clock) demo_after ∅ (mkWorld ∅ [] 0))))
     = Ok (version demo_after, Z.of_nat (length demo_shards)).
Proof.
  split; [exact first_save_ready|].
  exact (save_succeeds demo_key demo_clock (fun _ => demo_clock) ∅ None demo_after 2 0 first_save_ready
           (fun _ x => toy_sealable _ _ _ _ x) (fun x => toy_sealable _ _ _ _ x) (fun x => toy_sealable _ _ _ _ x)).
Defined.

(** ** A save that fails forgets what it was to save

    [save] clears the pending deltas of a shard as soon as their chunks are written, before the
    commit, and nothing puts them back when the commit fails. *)

Definition found_names (found : result stop CatalogLoadOutcome) : list (string * list string) :=
  match found with
  | Ok o => map (fun n => (node_name n, map node_name (children n))) (children (root (lo_catalog o)))
  | Err _ => []
  end.

(** Save the catalog with the file b.txt added, the commit failing to write its marker; then save
    again, without faults, with the deltas the first save left behind. *)
Definition save_twice : bool * list DeltaEntry * bool * list (string * list string) :=
  let save_now := run_save demo_key demo_clock (fun _ => demo_clock) demo_after in
  let '(r1, pending, _, w1) := save_now demo_pending (mkWorld demo_saved_disk (repeat Runs 16 ++ [FailsBefore]) 0) in
  let '(r2, _, _, w2) := save_now pending w1 in
  (is_ok r1, pending_of pending "docs", is_ok r2,
   found_names (unlocked demo_key demo_clock (fun _ => demo_clock) 60 (disk w2))).

(** When a save fails in its commit, the pending deltas are gone from the session although they
    were not saved: the next save reports success and what was added, the file b.txt of the
    catalog in memory, is missing from the catalog the next unlock finds. *)
Theorem failed_save_loses_changes :
  (node_name <$> find_by_path demo_after "/docs/b.txt") = Some "b.txt"%string
  /\ save_twice = (false, [], true,
       [(".passkeys", []); (".passmanager", []); ("docs", ["a.txt"])]%string).
Proof. split; vm_compute; reflexivity. Qed.
