(* ===== verification/SaveFound.v ===== *)
(** * What an unlock finds of the nodes of a saved catalog

    A save is tied to what the next unlock loads, node by node: a file of the saved catalog
    has, in the catalog that is found, every field it had in memory; and a session that
    changed one file and recorded a delta for it is one a save is right for. *)

From Stdlib Require Import Strings.Byte Ascii String.
From stdpp Require Import base countable gmap strings list.
From S2P Require Import Prelude.
From S2P Require Import CatalogNode.
From S2P Require Import CatalogManager.
From S2P Require Import CatalogTree.
From S2P Require Import CatalogInvariant.
From S2P Require Import CatalogOps.
From S2P Require Import CatalogDelta.
From S2P Require Import CatalogShard.
From S2P Require Import Bytes.
From S2P Require Import Storage.
From S2P Require Import Crypto.
From S2P Require Import IoLogic.
From S2P Require Import DurableTx.
From S2P Require Import CatalogCommit.
From S2P Require Import CatalogLoad.
From S2P Require Import CatalogCompact.
From S2P Require Import CatalogSave.
From S2P Require Import SaveLogic.
From S2P Require Import SaveSafety.
From S2P Require Import SaveSpec.
Open Scope Z_scope.

(** ** Trees that hold the same *)

Lemma content_fields t a b :
  content t a = content t b ->
  node_id a = node_id b /\ node_type a = node_type b /\ node_name a = node_name b /\ source_revision a = source_revision b
  /\ map (content t) (children a) = map (content t) (children b).
Proof.
  destruct a as [? ? ? ? ? ? ? ? ? ? ? ? ? [?|]], b as [? ? ? ? ? ? ? ? ? ? ? ? ? [?|]]; cbn; intros [= ]; split_and!; done.
Qed.

Lemma map_content_Forall2 t cs ds : map (content t) cs = map (content t) ds <-> Forall2 (fun c d => content t c = content t d) cs ds.
Proof.
  split.
  - revert ds. induction cs as [|c cs IH]; intros [|d ds] E; [constructor|done|done|]. cbn in E. injection E as E1 E2. constructor; auto.
  - induction 1 as [|c d cs ds E _ IH]; [done|]. cbn. by rewrite E, IH.
Qed.

Lemma walk_content t pre a b : content t a = content t b -> walk pre a = walk pre b.
Proof.
  revert pre b. induction a as [a IH] using node_ind. intros pre b E.
  apply content_fields in E as (E1 & E2 & E3 & _ & Hc%map_content_Forall2). rewrite !walk_eq, E1, E2, E3. f_equal.
  clear E1 E2 E3. revert IH. induction Hc as [|c d cs ds E _ IHc]; intros IH; [done|].
  apply Forall_cons in IH as [Hh Ht]. rewrite !walk_list_cons, (Hh _ d E). f_equal. auto.
Qed.

Lemma find_child_content t q a b :
  content t a = content t b ->
  option_Forall2 (fun c d => content t c = content t d) (find_child q a) (find_child q b).
Proof.
  intros (_ & _ & _ & _ & Hc%map_content_Forall2)%content_fields. unfold find_child.
  induction Hc as [|c d cs ds E _ IH]; cbn; [constructor|]. unfold has_name at 1 3.
  rewrite (proj1 (proj2 (proj2 (content_fields _ _ _ E)))). destruct (String.eqb _ _); [by constructor|exact IH].
Qed.

Lemma find_by_parts_content t qs a b n :
  content t a = content t b -> find_by_parts qs b = Some n -> exists n', find_by_parts qs a = Some n' /\ content t n' = content t n.
Proof.
  revert a b. induction qs as [|q qs IH]; intros a b E Hn; cbn [find_by_parts] in *.
  { injection Hn as <-. eauto. }
  destruct (skip_part q); [by eapply IH|]. pose proof (find_child_content t q a b E) as Hf.
  destruct (find_child q b) as [d|]; [|done]. inversion Hf as [c d' Ecd Ec|]; subst. by eapply IH.
Qed.

(** ** The nodes of the catalog that is found *)

Section Found.
Context (recorded : Shard -> Prop) (shards : list Shard) (m : CatalogManager) (o : CatalogLoadOutcome).
Context (saved : saved_as recorded shards m (Ok o)).
Context (ids_apart : NoDup (ROOT_NODE_ID :: concat (map (fun s => ids (sh_root s)) shards))).
Context (names : forall s, s ∈ shards -> node_name (sh_root s) = sh_id s) (names_apart : NoDup (map sh_id shards)).

Lemma found_children :
  exists ss, ss ≡ₚ shards
  /\ Forall2 (fun r s => content false r = content false (sh_root s)) (children (root (lo_catalog o))) ss.
Proof.
  destruct saved as (o' & [= <-] & _ & _ & _ & _ & _ & ss & Hp & Hf). exists ss. split; [done|].
  eapply Forall2_impl; [exact Hf|]. by intros r s [].
Qed.

Lemma found_ids : NoDup (ids (root (lo_catalog o))).
Proof.
  destruct found_children as (ss & Hp & Hf). destruct saved as (o' & [= <-] & _ & _ & _ & Hr & _).
  unfold ids. rewrite walk_eq. cbn [map app]. unfold entry_id at 1. cbn [fst]. rewrite Hr.
  assert (map entry_id (walk_list [node_name (root (lo_catalog o))] (children (root (lo_catalog o))))
          = concat (map (fun s => ids (sh_root s)) ss)) as ->.
  { generalize [node_name (root (lo_catalog o))] as pre. intros pre. clear -Hf.
    induction Hf as [|r s rs ss E _ IH]; [done|]. rewrite walk_list_cons, map_app, IH.
    rewrite (walk_content _ _ _ _ E), walk_ids_nil. done. }
  rewrite Hp. exact ids_apart.
Qed.

Lemma found_names : NoDup (map node_name (children (root (lo_catalog o)))).
Proof.
  destruct found_children as (ss & Hp & Hf).
  assert (map node_name (children (root (lo_catalog o))) = map sh_id ss) as ->; [|by rewrite Hp].
  assert (forall s, s ∈ ss -> node_name (sh_root s) = sh_id s) as Hn by (intros s Hs; apply names; by rewrite <- Hp).
  clear -Hf Hn. induction Hf as [|r s rs ss E _ IH]; [done|]. cbn. f_equal.
  - rewrite (proj1 (proj2 (proj2 (content_fields _ _ _ E)))). apply Hn. left.
  - apply IH. intros s' Hs'. apply Hn. by right.
Qed.

(** A node of a saved shard is found under its id, as it was. *)
Lemma found_node s id ty rest n :
  s ∈ shards -> Forall part_ok (sh_id s :: rest) ->
  (id, ty, "/"%string :: sh_id s :: rest) ∈ walk ["/"%string] (sh_root s) ->
  find_by_parts rest (sh_root s) = Some n ->
  exists n', find_by_id (lo_catalog o) id = Some n' /\ content false n' = content false n.
Proof.
  intros Hs Hok Hin Hn. destruct found_children as (ss & Hp & Hf). pose proof found_ids as Hnd. pose proof found_names as Hnames.
  rewrite <- Hp in Hs. apply list_elem_of_lookup in Hs as [i Hi].
  destruct (Forall2_lookup_r _ _ _ _ _ Hf Hi) as (c & Hc & E).
  destruct saved as (o' & [= <-] & _ & _ & Hcat & Hr & Hrn & _).
  assert (node_index (lo_catalog o) !! id = Some ("/"%string :: sh_id s :: rest)) as Hidx.
  { rewrite Hcat. unfold from_root_with_version, from_root. cbn [node_index set_version].
    apply rebuild_index_lookup; [exact Hnd|]. cbn [root]. exists ty. rewrite walk_eq. right. rewrite Hrn. cbn [app].
    apply elem_of_walk_list. exists c. split; [by eapply list_elem_of_lookup_2|]. by rewrite (walk_content _ _ _ _ E). }
  unfold find_by_id. rewrite Hidx. unfold find_by_path. rewrite parse_index_path by done.
  cbn [find_by_parts]. apply Forall_cons in Hok as [Hq Hok]. rewrite (part_ok_skip _ Hq).
  assert (node_name c = sh_id s) as Ec.
  { rewrite (proj1 (proj2 (proj2 (content_fields _ _ _ E)))). apply names. rewrite <- Hp. by eapply list_elem_of_lookup_2. }
  unfold find_child. rewrite <- Ec, find_by_name; [|done|by eapply list_elem_of_lookup_2].
  by eapply find_by_parts_content.
Qed.
End Found.

(** ** A session that changed one file *)

(** The trees agree in their structure, and but for the top-level subtree [q]. *)
Definition child_edit (q : string) (c c' : CatalogNode) : Prop :=
  node_name c' = node_name c /\ (forall pre, walk pre c' = walk pre c) /\ (node_name c <> q -> c' = c).

Definition top_edit (q : string) (r r' : CatalogNode) : Prop :=
  node_id r' = node_id r /\ Forall2 (child_edit q) (children r) (children r').

#[export] Instance child_edit_preorder q : PreOrder (child_edit q).
Proof.
  split; [by intros c|]. intros a b c (E1 & W1 & H1) (E2 & W2 & H2). split_and!; [congruence| |].
  - intros pre. by rewrite W2.
  - intros Hne. rewrite H2 by congruence. auto.
Qed.

#[export] Instance top_edit_preorder q : PreOrder (top_edit q).
Proof.
  split; [intros r; split; [done|reflexivity]|]. intros a b c [E1 F1] [E2 F2]. split; [congruence|]. by etrans.
Qed.

Lemma update_first_each {A} f (k : CatalogNode -> option (A * CatalogNode)) cs a cs' :
  update_first f k cs = Some (a, cs') ->
  Forall2 (fun c c' => c' = c \/ f c = true /\ exists b, k c = Some (b, c')) cs cs'.
Proof.
  revert cs'. induction cs as [|c cs IH]; intros cs' E; cbn [update_first] in E; [done|].
  destruct (f c) eqn:Ef.
  - destruct (k c) as [[b c']|] eqn:Ek; [|done]. injection E as -> <-. constructor; [right; eauto|].
    apply Forall2_same_length_lookup. split; [done|]. intros i x y Hx Hy. left. congruence.
  - destruct (update_first f k cs) as [[b cs1]|]; [|done]. injection E as -> <-. constructor; [by left|]. by apply IH.
Qed.

Lemma find_mut_shape {A} qs (k : CatalogNode -> A * CatalogNode) n a n' :
  (forall n, same_shape n (snd (k n))) ->
  find_by_parts_mut qs (fun n => Some (k n)) n = Some (a, n') ->
  node_id n' = node_id n /\ node_name n' = node_name n /\ forall pre, walk pre n' = walk pre n.
Proof.
  intros Hk. revert n a n'. induction qs as [|q qs IH]; intros n a n' E; cbn [find_by_parts_mut] in E.
  - injection E as E. pose proof (Hk n) as Hs. rewrite E in Hs. cbn in Hs. pose proof Hs as [(? & ? & _) _].
    split_and!; [done..|]. intros pre. by apply same_shape_walk.
  - destruct (skip_part q); [by eapply IH|]. unfold find_child_mut in E. destruct (children_opt n) as [cs|] eqn:Hcs; [|done].
    destruct (update_first _ _ cs) as [[b cs']|] eqn:Eu; [|done]. injection E as -> <-.
    apply update_first_each in Eu. destruct n as [? ? nm ? ? ? ? ? ? ? ? ? ? co]. cbn in Hcs. subst co. cbn [set_children].
    split_and!; [done..|]. intros pre. rewrite !walk_eq. cbn. f_equal.
    generalize (pre ++ [nm]). intros pre'. clear -Eu IH. induction Eu as [|c c' cs cs' [->|(_ & b & Ec)] _ IHc]; [done|..].
    + by rewrite !walk_list_cons, IHc.
    + rewrite !walk_list_cons, IHc. f_equal. by apply (IH _ _ _ Ec).
Qed.

Lemma find_mut_top {A} q qs (k : CatalogNode -> A * CatalogNode) r a r' :
  part_ok q -> (forall n, same_shape n (snd (k n))) ->
  find_by_parts_mut (q :: qs) (fun n => Some (k n)) r = Some (a, r') -> top_edit q r r'.
Proof.
  intros Hq Hk E. pose proof (find_mut_shape _ _ _ _ _ Hk E) as (Hi & _). split; [done|].
  cbn [find_by_parts_mut] in E. rewrite (part_ok_skip _ Hq) in E.
  unfold find_child_mut in E. unfold children. destruct (children_opt r) as [cs|] eqn:Hcs; [|done].
  destruct (update_first _ _ cs) as [[b cs']|] eqn:Eu; [|done]. injection E as -> <-.
  apply update_first_each in Eu. destruct r. cbn. eapply Forall2_impl; [exact Eu|].
  intros c c' [->|(Hn & b & Ec)]; [reflexivity|]. unfold has_name in Hn. apply String.eqb_eq in Hn.
  pose proof (find_mut_shape _ _ _ _ _ Hk Ec) as (_ & ? & ?). by split_and!.
Qed.

Lemma fold_max_spec (f : CatalogNode -> Z) cs x :
  let y := foldl (fun z c => Z.max z (f c)) x cs in (y = x \/ exists c, c ∈ cs /\ y = f c) /\ x <= y /\ forall c, c ∈ cs -> f c <= y.
Proof.
  revert x. induction cs as [|c cs IH]; intros x; cbn [foldl].
  { split_and!; [by left|done|]. intros c Hc. by apply elem_of_nil in Hc. }
  destruct (IH (Z.max x (f c))) as (Hy & Hx & Hc). split_and!.
  - destruct Hy as [Hy|(c' & Hc' & Hy)]; [|right; exists c'; split; [by right|done]].
    rewrite Hy. destruct (Z.max_spec x (f c)) as [[_ E]|[_ E]]; rewrite E; [right; exists c|by left].
    split; [apply elem_of_cons; by left|done].
  - lia.
  - intros c' [->|Hc']%elem_of_cons; [lia|auto].
Qed.

Lemma max_id_spec n : max_catalog_node_id n ∈ ids n /\ forall i, i ∈ ids n -> i <= max_catalog_node_id n.
Proof.
  induction n as [n IH] using node_ind. rewrite ids_eq.
  assert (max_catalog_node_id n = foldl (fun z c => Z.max z (max_catalog_node_id c)) (node_id n) (children n)) as ->.
  { by destruct n as [? ? ? ? ? ? ? ? ? ? ? ? ? [?|]]. }
  destruct (fold_max_spec max_catalog_node_id (children n) (node_id n)) as (Hy & Hx & Hc). rewrite Forall_forall in IH. split.
  - apply elem_of_cons. destruct Hy as [Hy|(c & Hin & Hy)]; rewrite Hy; [by left|right]. apply elem_of_concat_map.
    exists c. split; [done|]. by apply IH.
  - intros i [->|(c & Hin & Hi)%elem_of_concat_map]%elem_of_cons; [done|]. specialize (Hc c Hin). destruct (IH c Hin) as [_ Hle]. specialize (Hle i Hi). lia.
Qed.

Lemma max_id_walk a b : walk [] a = walk [] b -> max_catalog_node_id a = max_catalog_node_id b.
Proof.
  intros E. destruct (max_id_spec a) as [Ha1 Ha2], (max_id_spec b) as [Hb1 Hb2]. unfold ids in *. rewrite E in *.
  apply Z.le_antisymm; auto.
Qed.

Definition shard_edit (q : string) (s s' : Shard) : Prop :=
  sh_id s' = sh_id s /\ child_edit q (sh_root s) (sh_root s') /\ (sh_id s <> q -> s' = s).

#[export] Instance shard_edit_preorder q : PreOrder (shard_edit q).
Proof.
  split; [intros s; split_and!; [done|reflexivity|done]|]. intros a b c (E1 & W1 & H1) (E2 & W2 & H2).
  split_and!; [congruence|by etrans|]. intros Hne. rewrite H2 by congruence. auto.
Qed.

Lemma add_eager_edit q clk es ss ss' next :
  Forall2 (shard_edit q) ss ss' -> Forall2 (shard_edit q) (add_eager_shards clk es ss next) (add_eager_shards clk es ss' next).
Proof.
  revert clk ss ss' next. induction es as [|e es IH]; intros clk ss ss' next Hf; cbn [add_eager_shards]; [done|].
  assert (existsb (fun s => String.eqb (sh_id s) e) ss' = existsb (fun s => String.eqb (sh_id s) e) ss) as ->.
  { clear -Hf. induction Hf as [|s s' ss ss' (E & _) _ IH]; [done|]. cbn. by rewrite E, IH. }
  destruct (existsb _ ss); [by apply IH|]. apply IH, Forall2_app; [done|]. constructor; [reflexivity|constructor].
Qed.

(** The shards that are saved, after such a change. *)
Lemma persistence_edit q clk m m' :
  top_edit q (root m) (root m') -> walk [] (root m') = walk [] (root m) ->
  Forall2 (shard_edit q) (persistence_shards clk m) (persistence_shards clk m').
Proof.
  intros [_ Hc] Hw. unfold persistence_shards. rewrite (max_id_walk _ _ Hw). apply add_eager_edit.
  unfold split_into_shards. apply Forall2_fmap. eapply Forall2_impl; [exact Hc|]. intros c c' He. pose proof He as (E & _ & H).
  split_and!; [by cbn|done|]. cbn. intros Hne. by rewrite (H Hne).
Qed.

Lemma add_eager_names clk es ss next s :
  (forall s, s ∈ ss -> node_name (sh_root s) = sh_id s) -> s ∈ add_eager_shards clk es ss next -> node_name (sh_root s) = sh_id s.
Proof.
  revert clk ss next. induction es as [|e es IH]; intros clk ss next Hn Hs; cbn [add_eager_shards] in Hs; [auto|].
  destruct (existsb _ ss); [by eapply IH|]. eapply IH; [|exact Hs]. intros s' [Hs'| ->%list_elem_of_singleton]%elem_of_app; auto.
Qed.

Lemma persistence_names clk m s : s ∈ persistence_shards clk m -> node_name (sh_root s) = sh_id s.
Proof. apply add_eager_names. intros s' (c & -> & _)%list_elem_of_fmap. done. Qed.

Lemma add_eager_keeps clk es ss next s : s ∈ ss -> s ∈ add_eager_shards clk es ss next.
Proof.
  revert clk ss next. induction es as [|e es IH]; intros clk ss next Hs; cbn [add_eager_shards]; [done|].
  destruct (existsb _ ss); apply IH; [done|]. apply elem_of_app. by left.
Qed.

Section Edited.
Context `{cr : Crypto} {crl : CryptoLaws cr}.
Context `{SerdeLaw RootIndex, SerdeLaw Shard, SerdeLaw DeltaEntry,
          Serde CatalogCommitRecord, SerdeLaw (DurableTxRecord CatalogCommitRecord)}.
Context (key : list byte) (D0 d : Disk) (prev : option RootIndex) (ss ss' : list Shard)
        (pending pending' : gmap string (list DeltaEntry)) (B : Z) (q : string).
Context (ready : save_ready key D0 prev ss pending B) (edits : Forall2 (shard_edit q) ss ss').
Context (same_disk : forall r, in_scope prev ss B r -> d !! ref_name key r = D0 !! ref_name key r).

Lemma edit_ids : map sh_id ss' = map sh_id ss.
Proof. clear -edits. revert edits. induction 1 as [|s s' l l' (E & _) _ IH]; [done|]. cbn. by rewrite E, IH. Qed.

Lemma edit_back s' : s' ∈ ss' -> exists s, s ∈ ss /\ shard_edit q s s'.
Proof.
  intros [i Hi]%list_elem_of_lookup. destruct (Forall2_lookup_r _ _ _ _ _ edits Hi) as (s & Hs & He).
  exists s. split; [by eapply list_elem_of_lookup_2|done].
Qed.

Lemma base_meta_version s s' : sh_id s' = sh_id s -> sm_version (base_meta prev s') = sm_version (base_meta prev s).
Proof. intros E. unfold base_meta, meta_for_shard. rewrite E. reflexivity. Qed.

Lemma base_same_disk s n : s ∈ ss -> n ∈ chunks_for_meta key (base_meta prev s) -> d !! n = D0 !! n.
Proof.
  intros Hs Hn. destruct (base_facts key D0 prev ss pending B ready s Hs) as (Hid & Hwf & Hb & _).
  pose proof (below_u64 key D0 prev ss pending B ready _ Hb) as Hu.
  apply chunks_of_meta in Hn as (r & Hr & ->); [|done..]. apply same_disk. eapply chunk_in_scope; [|done..].
  rewrite Hid. apply elem_of_app. left. by apply list_elem_of_fmap_2.
Qed.

(** The shard [q] has one delta more, and the others are as they were: a save is ready. *)
Lemma save_ready_edited :
  (forall id, id <> q -> pending_of pending' id = pending_of pending id) ->
  pending_of pending' q <> [] -> (length (pending_of pending' q) <= S (length (pending_of pending q)))%nat ->
  (forall s, s ∈ ss -> sh_id s = q -> sm_version (base_meta prev s) + Z.of_nat (length (pending_of pending q)) + 2 < B) ->
  save_ready key d prev ss' pending' B.
Proof.
  intros Hother Hq Hlen Hslack. pose proof ready as [Hm Hp Hme Hnd Hbd Hbl Hpe Hnu Hna Hcu].
  assert (save_ids prev ss' = save_ids prev ss) as Eids by (unfold save_ids; by rewrite edit_ids).
  split; try done.
  - pose proof (same_disk CommitRef I) as Ec. cbn [ref_name] in Ec. by rewrite Ec.
  - pose proof (same_disk RootRef I) as Er. cbn [ref_name] in Er. destruct prev as [ri|]; [|congruence].
    destruct Hp as [(bs & E & Ho) Hsh]. split; [|done]. exists bs. by rewrite Er.
  - by rewrite edit_ids.
  - intros s' Hs'. destruct (edit_back s' Hs') as (s & Hs & E & _). rewrite (base_meta_version s s' E), E.
    destruct (decide (sh_id s = q)) as [Eq|Hne]; [|rewrite Hother by done; by apply Hpe].
    rewrite Eq. specialize (Hslack s Hs Eq). lia.
  - intros id. rewrite Eids. apply Hnu.
  - by rewrite Eids.
  - intros s' Hs' Hpend Hkept. destruct (edit_back s' Hs') as (s & Hs & E & _ & Hsame).
    assert (sh_id s <> q) as Hne by (intros Eq; by rewrite E, Eq in Hpend). rewrite (Hsame Hne) in *. rewrite Hother in Hpend by done.
    apply (stored_same key D0); [intros n Hn; symmetry; by eapply base_same_disk|]. apply Hcu; [done..|].
    destruct Hkept as (sh & Hh & Hr). exists sh. split; [|done]. eapply holds_same; [|exact Hh]. apply (base_same_disk s); [done|].
    destruct (base_facts key D0 prev ss pending B ready s Hs) as (Hid & _). unfold chunks_for_meta. rewrite Hid. left.
Qed.
End Edited.

(** The node [id] of a catalog that was saved is found as it was. *)
Lemma saved_node recorded clk m o id ty shard rest n :
  catalog_inv m -> (id, ty, "/"%string :: shard :: rest) ∈ walk [] (root m) -> find_by_id m id = Some n ->
  NoDup (ROOT_NODE_ID :: concat (map (fun s => ids (sh_root s)) (persistence_shards clk m))) ->
  saved_as recorded (persistence_shards clk m) m (Ok o) ->
  exists n', find_by_id (lo_catalog o) id = Some n' /\ content false n' = content false n.
Proof.
  intros Hinv Hin Hn Hids Hsaved. destruct (inv_walk_find _ _ _ _ Hinv Hin) as (qs & n1 & [= <-] & Hqs%name_ok_parts & Hf & _).
  unfold find_by_id in Hn. rewrite (inv_complete _ Hinv _ _ _ Hin) in Hn. unfold find_by_path in Hn.
  rewrite parse_index_path in Hn by done. rewrite Hf in Hn. injection Hn as <-.
  pose proof (persistence_shards_nodup clk m Hinv) as Hnd.
  destruct (wf_is_dir _ (inv_wf _ Hinv) (inv_root_dir _ Hinv)) as [cs Hcs].
  destruct (proj1 (wf_node_dir _ _ Hcs) (inv_wf _ Hinv)) as (_ & _ & Hnames & _).
  rewrite walk_eq, (inv_root_name _ Hinv), (children_Some _ _ Hcs) in Hin. cbn [app] in Hin.
  apply elem_of_cons in Hin as [[=]|(c & Hc & Hw)%elem_of_walk_list].
  destruct (walk_prefix _ _ _ Hw) as (tl & E). cbn in E. injection E as -> _.
  cbn [find_by_parts] in Hf. pose proof Hqs as [Hq _]%Forall_cons. rewrite (part_ok_skip _ Hq) in Hf. unfold find_child in Hf.
  rewrite (children_Some _ _ Hcs), find_by_name in Hf by done.
  apply (found_node recorded (persistence_shards clk m) m o Hsaved Hids (fun s => persistence_names clk m s) Hnd
           (shard_new (node_name c) c) id ty rest n1); try done.
  apply add_eager_keeps. unfold split_into_shards. rewrite (children_Some _ _ Hcs). by apply (list_elem_of_fmap_2 (fun c => shard_new (node_name c) c)).
Qed.

(** ** The load of an unlock, once the commit is recovered *)

Section LoadRuns.
Context `{cr : Crypto} {crl : CryptoLaws cr} `{Serde RootIndex, Serde Shard, Serde DeltaEntry, Serde CatalogCommitRecord,
  SerdeLaw (DurableTxRecord CatalogCommitRecord)}.
Context (key : list byte) (clk : clock) (clks : nat -> clock).

Lemma load_runs k k0 k1 d d1 :
  recover_incomplete_commit key (mkWorld d [] k) = (Ok tt, mkWorld d1 [] k1) -> d1 !! catalog_commit_chunk_name key = None ->
  load_for_unlock key clk clks (mkWorld d [] k) = (unlocked key clk clks k0 d1, mkWorld d1 [] k1).
Proof.
  intros E Hm. assert (same_run d1 d1 (try_load_sharded_catalog key clk clks)) as Hs by (by apply same_load).
  rewrite <- (unlocked_recovered key clk clks k k0 k1 d d1 E Hs Hm).
  unfold unlocked, run_io, load_for_unlock, mbind, IO_bind. rewrite E.
  destruct (Hs k1 k1) as (r & -> & _). by destruct r as [[m|]|].
Qed.

Lemma load_runs_unmarked k k0 d :
  d !! catalog_commit_chunk_name key = None ->
  exists k1, load_for_unlock key clk clks (mkWorld d [] k) = (unlocked key clk clks k0 d, mkWorld d [] k1).
Proof.
  intros Hm. destruct (triple_world_ok (eq d) _ (fun _ => eq d) (fun _ => True) k d
    ltac:(apply recover_unmarked; [|done]; by intros ? <-) eq_refl) as ([] & ? & k1 & E & <-). exists k1. by apply load_runs.
Qed.
End LoadRuns.
