(* ===== verification/EnvRuntime.v ===== *)
(** * The Env Runtime domain

    crates/core/src/env_runtime: secrets with their metadata, profiles that map
    environment variables to secrets, their validation and the optimistic revisions.
    [EnvRuntimeStateV1] is the state, each method of it a function in a state-and-error
    monad; the clock reading and the random draws are arguments. Theorems: every state the
    operations reach passes [validate_integrity], an operation that reports an error
    changes nothing, and of two edits of one revision the second is refused. *)

From Stdlib Require Import Strings.Byte Ascii String.
From stdpp Require Import base gmap strings list sorting.
From S2P Require Import Prelude.
From S2P Require Import Bytes.
From S2P Require Import Text.
From S2P Require Import Crypto.
Open Scope Z_scope.

(** ** Errors *)

Inductive EnvRuntimeErrorCode :=
  | VaultRequired | EnvNotFound | ValidationFailed | RevisionConflict | SecretInUse
  | ResolutionFailed | ReauthFailed | ReauthLocked | EnvInternal.

Record EnvRuntimeError := mkEnvError { ere_code : EnvRuntimeErrorCode; ere_message : string }.
Abbreviation EnvRuntimeResult := (result EnvRuntimeError).

Definition validation (message : string) : EnvRuntimeError := mkEnvError ValidationFailed message.
Definition secret_not_found : EnvRuntimeError := mkEnvError EnvNotFound "Env secret not found".
Definition profile_not_found : EnvRuntimeError := mkEnvError EnvNotFound "Env profile not found".
Definition revision_conflict : EnvRuntimeError := mkEnvError RevisionConflict "Env Runtime revision conflict".
Definition internal (message : string) : EnvRuntimeError := mkEnvError EnvInternal message.

(** ** Records *)

Definition ENV_RUNTIME_RECORD_VERSION : Z := 1.

Record EnvSecretMetadataRecordV1 := mkSecret {
  es_version : Z; es_id : string; es_label : string; es_revision : Z;
  es_created_at_epoch_ms : Z; es_updated_at_epoch_ms : Z;
}.

Record AgentSecretMetadataV1 := mkSecretMetadata {
  as_id : string; as_label : string; as_revision : Z; as_usage_count : Z;
}.

Record EnvVariableMappingV1 := mkMapping { ev_name : string; ev_secret_id : string }.

Record EnvProfileRecordV1 := mkProfile {
  ep_version : Z; ep_id : string; ep_slug : string; ep_label : string; ep_description : option string;
  ep_revision : Z; ep_variables : list EnvVariableMappingV1;
  ep_created_at_epoch_ms : Z; ep_updated_at_epoch_ms : Z;
}.

Record AgentProfileMetadataV1 := mkProfileMetadata {
  ap_id : string; ap_slug : string; ap_label : string; ap_description : option string;
  ap_revision : Z; ap_variables : list EnvVariableMappingV1;
}.

(** ** Validation *)

Definition MAX_SLUG_BYTES : nat := 64.
Definition MAX_LABEL_BYTES : nat := 80.
Definition MAX_DESCRIPTION_BYTES : nat := 512.
Definition MAX_ENV_NAME_BYTES : nat := 128.
Definition MAX_PROFILE_VARIABLES : nat := 128.
Definition MAX_SECRET_VALUE_BYTES : Z := 65536.

Definition is_slug_edge (byte : Z) : bool := is_ascii_lowercase byte || is_ascii_digit byte.

Definition hyphen : Z := 45.
Definition underscore : Z := 95.
Definition newline : Z := 10.

Definition validate_slug (slug : string) : EnvRuntimeResult unit :=
  if string_is_empty slug || (MAX_SLUG_BYTES <? string_len slug)%nat || negb (is_ascii slug)
  then Err (validation "slug must contain 1-64 ASCII characters") else
  let bytes := bytes_of slug in
  if negb (is_slug_edge (default 0 (head bytes))) || negb (is_slug_edge (default 0 (last bytes)))
  then Err (validation "slug must start and end with a lowercase ASCII letter or digit") else
  if negb (forallb (fun b => is_slug_edge b || (b =? hyphen) || (b =? underscore)) bytes)
  then Err (validation "slug may contain only lowercase ASCII letters, digits, hyphens, and underscores") else
  Ok tt.

Definition normalize_label (label : string) : EnvRuntimeResult string :=
  let normalized := trim label in
  if string_is_empty normalized || (MAX_LABEL_BYTES <? string_len normalized)%nat
  then Err (validation "label must contain 1-80 UTF-8 bytes") else
  if existsb is_control (chars normalized)
  then Err (validation "label must not contain control characters") else
  Ok normalized.

Definition normalize_description (description : option string) : EnvRuntimeResult (option string) :=
  match description with
  | None => Ok None
  | Some description =>
      let normalized := trim description in
      if string_is_empty normalized then Ok None else
      if (MAX_DESCRIPTION_BYTES <? string_len normalized)%nat
      then Err (validation "description must not exceed 512 UTF-8 bytes") else
      if existsb (fun c => negb (c =? newline) && is_control c) (chars normalized)
      then Err (validation "description must not contain control characters other than newline") else
      Ok (Some normalized)
  end.

Definition validate_env_name (name : string) : EnvRuntimeResult unit :=
  if string_is_empty name || (MAX_ENV_NAME_BYTES <? string_len name)%nat || negb (is_ascii name)
  then Err (validation "environment variable name must contain 1-128 ASCII characters") else
  let first := default 0 (head (bytes_of name)) in
  if negb (first =? underscore) && negb (is_ascii_alphabetic first)
  then Err (validation "environment variable name must start with an ASCII letter or underscore") else
  if negb (forallb (fun b => (b =? underscore) || is_ascii_alphanumeric b) (tail (bytes_of name)))
  then Err (validation "environment variable name may contain only ASCII letters, digits, and underscores") else
  Ok tt.

(** The loop of [validate_variables]; [names] is the set of names seen. *)
Fixpoint validate_mappings (names : gset string) (variables : list EnvVariableMappingV1) : EnvRuntimeResult unit :=
  match variables with
  | [] => Ok tt
  | v :: vs =>
      _ ← validate_env_name (ev_name v);
      if bool_decide (ev_name v ∈ names)
      then Err (validation "environment variable names must be unique within a profile") else
      if string_is_empty (ev_secret_id v)
      then Err (validation "environment variable mapping secret_id is required") else
      validate_mappings ({[ev_name v]} ∪ names) vs
  end.

Definition validate_variables (variables : list EnvVariableMappingV1) : EnvRuntimeResult unit :=
  if bool_decide (variables = []) || (MAX_PROFILE_VARIABLES <? length variables)%nat
  then Err (validation "profile must contain 1-128 environment variable mappings") else
  validate_mappings ∅ variables.

Definition validate_secret_value (value : string) : EnvRuntimeResult unit :=
  if string_is_empty value || (MAX_SECRET_VALUE_BYTES <? Z.of_nat (string_len value))
  then Err (validation "secret value must contain 1-65536 UTF-8 bytes") else
  if existsb (fun b => b =? 0) (bytes_of value)
  then Err (validation "secret value must not contain NUL bytes") else
  Ok tt.

(** ** State *)

Definition MAX_SECRETS : nat := 1024.
Definition MAX_PROFILES : nat := 256.

Record EnvRuntimeStateV1 := mkEnv {
  env_version : Z;
  env_secrets : gmap string EnvSecretMetadataRecordV1;
  env_profiles : gmap string EnvProfileRecordV1;
}.

Definition env_default : EnvRuntimeStateV1 := mkEnv ENV_RUNTIME_RECORD_VERSION ∅ ∅.

(** Iteration over a [BTreeMap]: in the order of the keys. *)
Definition key_le {V} (x y : string * V) : Prop := String.leb x.1 y.1 = true.
#[export] Instance key_le_dec {V} : RelDecision (@key_le V).
Proof. intros x y. unfold key_le. solve_decision. Defined.
Definition btree_entries {V} (m : gmap string V) : list (string * V) := merge_sort key_le (map_to_list m).
Definition btree_values {V} (m : gmap string V) : list V := map snd (btree_entries m).

Definition contains_key {V} (m : gmap string V) (k : string) : bool := bool_decide (is_Some (m !! k)).

(** [b"._:-".contains(&byte)]. *)
Definition is_id_mark (b : Z) : bool := (b =? 46) || (b =? underscore) || (b =? 58) || (b =? hyphen).

Definition is_valid_record_id (id : string) : bool :=
  negb (string_is_empty id) && (string_len id <=? 128)%nat
  && forallb (fun b => is_ascii_alphanumeric b || is_id_mark b) (bytes_of id).

Definition references_missing (s : EnvRuntimeStateV1) (variables : list EnvVariableMappingV1) : bool :=
  existsb (fun v => negb (contains_key (env_secrets s) (ev_secret_id v))) variables.

(** The body of the loop over the secrets. *)
Definition check_secret (entry : string * EnvSecretMetadataRecordV1) : EnvRuntimeResult unit :=
  let '(id, secret) := entry in
  if negb (es_version secret =? ENV_RUNTIME_RECORD_VERSION) || negb (String.eqb id (es_id secret))
     || negb (is_valid_record_id id) || (es_revision secret =? 0)
  then Err (internal "Invalid Env Runtime secret metadata") else
  _ ← map_err (fun _ => internal "Invalid Env Runtime secret label") (normalize_label (es_label secret));
  Ok tt.

(** The body of the loop over the profiles; [slugs] is the set of slugs seen. *)
Definition check_profile (s : EnvRuntimeStateV1) (slugs : gset string) (entry : string * EnvProfileRecordV1)
    : EnvRuntimeResult unit :=
  let '(id, profile) := entry in
  if negb (ep_version profile =? ENV_RUNTIME_RECORD_VERSION) || negb (String.eqb id (ep_id profile))
     || negb (is_valid_record_id id) || (ep_revision profile =? 0)
  then Err (internal "Invalid Env Runtime profile") else
  _ ← map_err (fun _ => internal "Invalid Env Runtime profile slug") (validate_slug (ep_slug profile));
  _ ← map_err (fun _ => internal "Invalid Env Runtime profile label") (normalize_label (ep_label profile));
  _ ← map_err (fun _ => internal "Invalid Env Runtime profile description")
        (normalize_description (ep_description profile));
  _ ← map_err (fun _ => internal "Invalid Env Runtime profile mappings")
        (validate_variables (ep_variables profile));
  if bool_decide (ep_slug profile ∈ slugs) then Err (internal "Duplicate Env Runtime profile slug") else
  if references_missing s (ep_variables profile)
  then Err (internal "Env Runtime profile references a missing secret") else
  Ok tt.

Fixpoint check_secrets (entries : list (string * EnvSecretMetadataRecordV1)) : EnvRuntimeResult unit :=
  match entries with
  | [] => Ok tt
  | e :: entries' => _ ← check_secret e; check_secrets entries'
  end.

Fixpoint check_profiles (s : EnvRuntimeStateV1) (slugs : gset string) (entries : list (string * EnvProfileRecordV1))
    : EnvRuntimeResult unit :=
  match entries with
  | [] => Ok tt
  | e :: entries' => _ ← check_profile s slugs e; check_profiles s ({[ep_slug e.2]} ∪ slugs) entries'
  end.

Definition validate_integrity (s : EnvRuntimeStateV1) : EnvRuntimeResult unit :=
  if negb (env_version s =? ENV_RUNTIME_RECORD_VERSION)
  then Err (internal "Unsupported Env Runtime state version") else
  if (MAX_SECRETS <? size (env_secrets s))%nat || (MAX_PROFILES <? size (env_profiles s))%nat
  then Err (internal "Env Runtime state exceeds v1 record limits") else
  _ ← check_secrets (btree_entries (env_secrets s));
  check_profiles s ∅ (btree_entries (env_profiles s)).

(** ** Operations *)

(** A method with [&mut self]: the state is kept where an error is returned. *)
Definition Env (A : Type) : Type := EnvRuntimeStateV1 -> EnvRuntimeResult A * EnvRuntimeStateV1.

#[export] Instance Env_ret : MRet Env := fun A a s => (Ok a, s).
#[export] Instance Env_bind : MBind Env := fun A B f c s =>
  match c s with
  | (Ok a, s') => f a s'
  | (Err e, s') => (Err e, s')
  end.

Definition env_lift {A} (r : EnvRuntimeResult A) : Env A := fun s => (r, s).
Definition env_state : Env EnvRuntimeStateV1 := fun s => (Ok s, s).
Definition env_throw {A} (e : EnvRuntimeError) : Env A := env_lift (Err e).
Definition on_secrets (f : gmap string EnvSecretMetadataRecordV1 -> gmap string EnvSecretMetadataRecordV1) : Env unit :=
  fun s => (Ok tt, mkEnv (env_version s) (f (env_secrets s)) (env_profiles s)).
Definition on_profiles (f : gmap string EnvProfileRecordV1 -> gmap string EnvProfileRecordV1) : Env unit :=
  fun s => (Ok tt, mkEnv (env_version s) (env_secrets s) (f (env_profiles s))).

(** [getrandom] fills 16 bytes or fails; a draw is the number they spell. *)
Definition rng := nat -> option Z.

Definition record_id (prefix : string) (draw : Z) : string :=
  String.append prefix (String.append "_" (hex_encode (to_be_bytes 16 draw))).

Fixpoint unique_id_from (tries n : nat) (prefix : string) (exists_ : string -> bool) (draws : rng)
    : EnvRuntimeResult string :=
  match tries with
  | O => Err (internal "Failed to allocate unique Env Runtime id")
  | S tries' =>
      draw ← ok_or (draws n) (internal "Failed to generate Env Runtime id");
      let encoded := record_id prefix draw in
      if negb (exists_ encoded) then Ok encoded else unique_id_from tries' (S n) prefix exists_ draws
  end.

Definition unique_id (prefix : string) (exists_ : string -> bool) (draws : rng) : EnvRuntimeResult string :=
  unique_id_from 8 0 prefix exists_ draws.

Definition require_revision (actual expected : Z) : EnvRuntimeResult unit :=
  if actual =? expected then Ok tt else Err revision_conflict.

Definition advance_revision (revision updated_at now : Z) : EnvRuntimeResult (Z * Z) :=
  revision ← ok_or (u64_checked_add revision 1) revision_conflict;
  Ok (revision, Z.max now (u64_saturating_add updated_at 1)).

Definition uses_secret (secret_id : string) (p : EnvProfileRecordV1) : bool :=
  existsb (fun v => String.eqb (ev_secret_id v) secret_id) (ep_variables p).

Definition secret_usage_count (s : EnvRuntimeStateV1) (secret_id : string) : Z :=
  Z.of_nat (length (List.filter (uses_secret secret_id) (btree_values (env_profiles s)))).

Definition secret_projection (s : EnvRuntimeStateV1) (secret : EnvSecretMetadataRecordV1) : AgentSecretMetadataV1 :=
  mkSecretMetadata (es_id secret) (es_label secret) (es_revision secret) (secret_usage_count s (es_id secret)).

Definition profile_projection (p : EnvProfileRecordV1) : AgentProfileMetadataV1 :=
  mkProfileMetadata (ep_id p) (ep_slug p) (ep_label p) (ep_description p) (ep_revision p) (ep_variables p).

Definition require_secret_references (s : EnvRuntimeStateV1) (variables : list EnvVariableMappingV1)
    : EnvRuntimeResult unit :=
  if references_missing s variables then Err (validation "Env profile references a missing secret") else Ok tt.

Definition secret_count (s : EnvRuntimeStateV1) : Z := Z.of_nat (size (env_secrets s)).
Definition profile_count (s : EnvRuntimeStateV1) : Z := Z.of_nat (size (env_profiles s)).

Definition list_secrets (s : EnvRuntimeStateV1) : list AgentSecretMetadataV1 :=
  map (secret_projection s) (btree_values (env_secrets s)).

Definition secret_by_id (s : EnvRuntimeStateV1) (secret_id : string) : EnvRuntimeResult EnvSecretMetadataRecordV1 :=
  ok_or (env_secrets s !! secret_id) secret_not_found.

Definition create_secret (label : string) (now : Z) (draws : rng) : Env AgentSecretMetadataV1 :=
  s ← env_state;
  if (MAX_SECRETS <=? size (env_secrets s))%nat
  then env_throw (validation "Env Runtime supports at most 1024 secrets") else
  id ← env_lift (unique_id "envsec" (contains_key (env_secrets s)) draws);
  label ← env_lift (normalize_label label);
  let secret := mkSecret ENV_RUNTIME_RECORD_VERSION id label 1 now now in
  let metadata := secret_projection s secret in
  on_secrets (<[id := secret]>);;
  mret metadata.

(** [label.map(normalize_label).transpose()]. *)
Definition normalize_label_opt (label : option string) : EnvRuntimeResult (option string) :=
  match label with Some l => l' ← normalize_label l; Ok (Some l') | None => Ok None end.

Definition update_secret (secret_id : string) (base_revision : Z) (label : option string) (now : Z)
    : Env AgentSecretMetadataV1 :=
  label ← env_lift (normalize_label_opt label);
  s ← env_state;
  let usage_count := secret_usage_count s secret_id in
  secret ← env_lift (secret_by_id s secret_id);
  env_lift (require_revision (es_revision secret) base_revision);;
  rev ← env_lift (advance_revision (es_revision secret) (es_updated_at_epoch_ms secret) now);
  let '(revision, updated_at_epoch_ms) := (rev : Z * Z) in
  let secret := mkSecret (es_version secret) (es_id secret) (default (es_label secret) label) revision
                  (es_created_at_epoch_ms secret) updated_at_epoch_ms in
  on_secrets (<[secret_id := secret]>);;
  mret (mkSecretMetadata (es_id secret) (es_label secret) (es_revision secret) usage_count).

Definition delete_secret (secret_id : string) (base_revision : Z) : Env unit :=
  s ← env_state;
  secret ← env_lift (secret_by_id s secret_id);
  env_lift (require_revision (es_revision secret) base_revision);;
  if 0 <? secret_usage_count s secret_id
  then env_throw (mkEnvError SecretInUse "Env secret is referenced by a profile") else
  on_secrets (delete secret_id).

Definition list_profiles (s : EnvRuntimeStateV1) : list AgentProfileMetadataV1 :=
  map profile_projection (btree_values (env_profiles s)).

Definition find_profile (s : EnvRuntimeStateV1) (profile_ref : string) : option EnvProfileRecordV1 :=
  match env_profiles s !! profile_ref with
  | Some p => Some p
  | None => List.find (fun p => String.eqb (ep_slug p) profile_ref) (btree_values (env_profiles s))
  end.

Definition get_profile (s : EnvRuntimeStateV1) (profile_ref : string) : EnvRuntimeResult AgentProfileMetadataV1 :=
  ok_or (profile_projection <$> find_profile s profile_ref) profile_not_found.

Definition profile_by_id (s : EnvRuntimeStateV1) (profile_id : string) : EnvRuntimeResult EnvProfileRecordV1 :=
  ok_or (env_profiles s !! profile_id) profile_not_found.

Definition create_profile (slug label : string) (description : option string) (variables : list EnvVariableMappingV1)
    (now : Z) (draws : rng) : Env AgentProfileMetadataV1 :=
  s ← env_state;
  if (MAX_PROFILES <=? size (env_profiles s))%nat
  then env_throw (validation "Env Runtime supports at most 256 profiles") else
  env_lift (validate_slug slug);;
  env_lift (validate_variables variables);;
  env_lift (require_secret_references s variables);;
  if existsb (fun p => String.eqb (ep_slug p) slug) (btree_values (env_profiles s))
  then env_throw (validation "Env profile slug already exists") else
  id ← env_lift (unique_id "envprof" (contains_key (env_profiles s)) draws);
  label ← env_lift (normalize_label label);
  description ← env_lift (normalize_description description);
  let profile := mkProfile ENV_RUNTIME_RECORD_VERSION id slug label description 1 variables now now in
  on_profiles (<[id := profile]>);;
  mret (profile_projection profile).

Definition update_profile (profile_id : string) (base_revision : Z) (slug label : string) (description : option string)
    (variables : list EnvVariableMappingV1) (now : Z) : Env AgentProfileMetadataV1 :=
  env_lift (validate_slug slug);;
  env_lift (validate_variables variables);;
  s ← env_state;
  env_lift (require_secret_references s variables);;
  label ← env_lift (normalize_label label);
  description ← env_lift (normalize_description description);
  if existsb (fun p => negb (String.eqb (ep_id p) profile_id) && String.eqb (ep_slug p) slug)
       (btree_values (env_profiles s))
  then env_throw (validation "Env profile slug already exists") else
  profile ← env_lift (profile_by_id s profile_id);
  env_lift (require_revision (ep_revision profile) base_revision);;
  rev ← env_lift (advance_revision (ep_revision profile) (ep_updated_at_epoch_ms profile) now);
  let '(revision, updated_at_epoch_ms) := (rev : Z * Z) in
  let profile := mkProfile (ep_version profile) (ep_id profile) slug label description revision variables
                   (ep_created_at_epoch_ms profile) updated_at_epoch_ms in
  on_profiles (<[profile_id := profile]>);;
  mret (profile_projection profile).

Definition delete_profile (profile_id : string) (base_revision : Z) : Env unit :=
  s ← env_state;
  profile ← env_lift (profile_by_id s profile_id);
  env_lift (require_revision (ep_revision profile) base_revision);;
  on_profiles (delete profile_id).

(** ** Lemmas on maps in key order *)

Lemma elem_btree_entries {V} (m : gmap string V) e : e ∈ btree_entries m <-> m !! e.1 = Some e.2.
Proof.
  unfold btree_entries. rewrite merge_sort_Permutation. destruct e as [k v]. apply elem_of_map_to_list.
Qed.

Lemma elem_btree_values {V} (m : gmap string V) v : v ∈ btree_values m <-> exists k, m !! k = Some v.
Proof.
  unfold btree_values. rewrite list_elem_of_fmap. split.
  - intros ([k w] & -> & Hw%elem_btree_entries). by exists k.
  - intros [k Hk]. exists (k, v). by rewrite elem_btree_entries.
Qed.

Lemma btree_keys_nodup {V} (m : gmap string V) : NoDup (map fst (btree_entries m)).
Proof.
  unfold btree_entries. assert (map fst (merge_sort key_le (map_to_list m)) ≡ₚ map fst (map_to_list m)) as ->
    by (by rewrite merge_sort_Permutation). apply NoDup_fst_map_to_list.
Qed.

Lemma contains_key_spec {V} (m : gmap string V) k : contains_key m k = true <-> is_Some (m !! k).
Proof. unfold contains_key. apply bool_decide_eq_true. Qed.

Lemma existsb_values {V} (p : V -> bool) (m : gmap string V) :
  existsb p (btree_values m) = false <-> forall k v, m !! k = Some v -> p v = false.
Proof.
  rewrite <- not_true_iff_false, existsb_exists. split.
  - intros Hn k v Hv. apply not_true_iff_false. intros Hp. apply Hn. exists v.
    rewrite <- list_elem_of_In, elem_btree_values. eauto.
  - intros Hall (v & (k & Hk)%list_elem_of_In%elem_btree_values & Hp). by rewrite (Hall k v Hk) in Hp.
Qed.

(** ** Integrity, declaratively *)

Record secret_ok (id : string) (secret : EnvSecretMetadataRecordV1) : Prop := {
  so_version : es_version secret = ENV_RUNTIME_RECORD_VERSION;
  so_id : es_id secret = id;
  so_valid : is_valid_record_id id = true;
  so_revision : es_revision secret <> 0;
  so_label : is_ok (normalize_label (es_label secret)) = true;
}.

Record profile_ok (id : string) (profile : EnvProfileRecordV1) : Prop := {
  po_version : ep_version profile = ENV_RUNTIME_RECORD_VERSION;
  po_id : ep_id profile = id;
  po_valid : is_valid_record_id id = true;
  po_revision : ep_revision profile <> 0;
  po_slug : validate_slug (ep_slug profile) = Ok tt;
  po_label : is_ok (normalize_label (ep_label profile)) = true;
  po_description : is_ok (normalize_description (ep_description profile)) = true;
  po_variables : validate_variables (ep_variables profile) = Ok tt;
}.

(** What a user of the state relies on: records are sound, slugs name one profile, and
    every variable of a profile refers to a secret that exists. *)
Record env_ok (s : EnvRuntimeStateV1) : Prop := {
  eo_version : env_version s = ENV_RUNTIME_RECORD_VERSION;
  eo_secrets_max : (size (env_secrets s) <= MAX_SECRETS)%nat;
  eo_profiles_max : (size (env_profiles s) <= MAX_PROFILES)%nat;
  eo_secrets id secret : env_secrets s !! id = Some secret -> secret_ok id secret;
  eo_profiles id profile : env_profiles s !! id = Some profile -> profile_ok id profile;
  eo_slugs id1 p1 id2 p2 : env_profiles s !! id1 = Some p1 -> env_profiles s !! id2 = Some p2 ->
    ep_slug p1 = ep_slug p2 -> id1 = id2;
  eo_references id profile v : env_profiles s !! id = Some profile -> v ∈ ep_variables profile ->
    is_Some (env_secrets s !! ev_secret_id v);
}.

Lemma references_missing_false s vs :
  references_missing s vs = false <-> forall v, v ∈ vs -> is_Some (env_secrets s !! ev_secret_id v).
Proof.
  unfold references_missing. rewrite <- not_true_iff_false, existsb_exists. split.
  - intros Hn v Hv. apply contains_key_spec, negb_false_iff, not_true_iff_false. intros Hc.
    apply Hn. exists v. by rewrite <- list_elem_of_In.
  - intros Hall (v & Hv%list_elem_of_In & Hc%negb_true_iff). apply not_true_iff_false in Hc. apply Hc.
    by apply contains_key_spec, Hall.
Qed.

Lemma check_secret_ok id secret : check_secret (id, secret) = Ok tt <-> secret_ok id secret.
Proof.
  unfold check_secret. destruct (_ || _ || _ || _) eqn:E.
  - split; [done|]. intros []. subst. rewrite so_version0, String.eqb_refl, so_valid0 in E. cbn in E. lia.
  - rewrite !orb_false_iff, !negb_false_iff, Z.eqb_eq, String.eqb_eq, Z.eqb_neq in E.
    destruct E as [[[Hv ->] Hi] Hr].
    split; [|by intros [_ _ _ _ Hl]; destruct (normalize_label _)].
    intros Hc. split; [done..|]. by destruct (normalize_label _).
Qed.

Lemma check_profile_ok s slugs id profile :
  check_profile s slugs (id, profile) = Ok tt <->
  profile_ok id profile /\ (ep_slug profile ∉ slugs)
  /\ (forall v, v ∈ ep_variables profile -> is_Some (env_secrets s !! ev_secret_id v)).
Proof.
  rewrite <- references_missing_false. unfold check_profile. destruct (_ || _ || _ || _) eqn:E.
  - split; [done|]. intros [[] _]. subst. rewrite po_version0, String.eqb_refl, po_valid0 in E. cbn in E. lia.
  - rewrite !orb_false_iff, !negb_false_iff, Z.eqb_eq, String.eqb_eq, Z.eqb_neq in E.
    destruct E as [[[Hv ->] Hi] Hr]. split.
    + intros Hc. destruct (validate_slug _) as [[]|] eqn:Hs; [|done]. cbn in Hc.
      destruct (normalize_label _) as [?|] eqn:Hl; [|done]. cbn in Hc.
      destruct (normalize_description _) as [?|] eqn:Hd; [|done]. cbn in Hc.
      destruct (validate_variables _) as [[]|] eqn:Hvs; [|done]. cbn in Hc.
      case_bool_decide; [done|]. destruct (references_missing _ _) eqn:Hm; [done|].
      repeat split; try done; [by rewrite Hl|by rewrite Hd].
    + intros [[_ _ _ _ Hs Hl Hd Hvs] [Hn Hm]]. rewrite Hs. cbn.
      destruct (normalize_label _); [|done]. cbn. destruct (normalize_description _); [|done]. cbn.
      rewrite Hvs. cbn. rewrite bool_decide_false by done. by rewrite Hm.
Qed.

Lemma check_secrets_ok es : check_secrets es = Ok tt <-> forall e, e ∈ es -> secret_ok e.1 e.2.
Proof.
  induction es as [|[id sec] es IH]; cbn [check_secrets]; [split; [intros _ e He; by apply elem_of_nil in He|done]|]. split.
  - intros H. destruct (check_secret _) as [[]|] eqn:E; [|done]. cbn in H. apply check_secret_ok in E.
    intros e [->|He]%elem_of_cons; [done|]. by apply IH.
  - intros Hall. assert (check_secret (id, sec) = Ok tt) as ->.
    { apply check_secret_ok. apply (Hall (id, sec)). by left. }
    cbn. apply IH. intros e He. apply Hall. by right.
Qed.

Lemma check_profiles_ok s slugs es :
  check_profiles s slugs es = Ok tt <->
  (forall e, e ∈ es -> check_profile s slugs e = Ok tt) /\ NoDup (map (fun e => ep_slug e.2) es).
Proof.
  revert slugs. induction es as [|e es IH]; intros slugs; cbn [check_profiles map].
  { split; [|done]. intros _. split; [|constructor]. intros e He. by apply elem_of_nil in He. }
  assert (forall e', check_profile s ({[ep_slug e.2]} ∪ slugs) e' = Ok tt <->
            check_profile s slugs e' = Ok tt /\ ep_slug e'.2 <> ep_slug e.2) as Hext.
  { intros [id p]. rewrite !check_profile_ok. cbn. rewrite not_elem_of_union, not_elem_of_singleton. tauto. }
  split.
  - intros H. destruct (check_profile s slugs e) as [[]|] eqn:E; [|done]. cbn in H. apply IH in H as [Ha Hd].
    split.
    + intros e' [->|He]%elem_of_cons; [done|]. by apply Hext, Ha.
    + constructor; [|done]. intros ([id p] & Hs & He)%list_elem_of_fmap. by apply Ha, Hext in He as [_ He].
  - intros [Ha [Hn Hd]%NoDup_cons]. rewrite (Ha e) by by left. cbn. apply IH. split; [|done].
    intros e' He. apply Hext. split; [by apply Ha; right|]. intros Hs. apply Hn. rewrite <- Hs.
    apply (list_elem_of_fmap_2 (fun e => ep_slug e.2)), He.
Qed.

Lemma NoDup_map_keys {A B} (f : A -> B) l :
  NoDup l -> (forall x y, x ∈ l -> y ∈ l -> f x = f y -> x = y) -> NoDup (map f l).
Proof.
  induction 1 as [|x l Hx Hl IH]; intros Hinj; [constructor|]. constructor.
  - intros (y & Hy & Hin)%list_elem_of_fmap. apply Hinj in Hy as ->; [done|by left|by right].
  - apply IH. intros a b Ha Hb. apply Hinj; by right.
Qed.

(** [validate_integrity] decides the declarative form. *)
Lemma validate_integrity_ok s : validate_integrity s = Ok tt <-> env_ok s.
Proof.
  unfold validate_integrity. split.
  - destruct (negb _) eqn:Ev; [done|]. destruct (_ || _) eqn:Em; [done|].
    destruct (check_secrets _) as [[]|] eqn:Es; [|done]. cbn.
    intros [Hp Hd]%check_profiles_ok. rewrite check_secrets_ok in Es.
    apply negb_false_iff, Z.eqb_eq in Ev. apply orb_false_iff in Em as [Hm1%Nat.ltb_ge Hm2%Nat.ltb_ge].
    split; [done..| | | |].
    + intros id sec H. apply (Es (id, sec)). by apply elem_btree_entries.
    + intros id p H. assert ((id, p) ∈ btree_entries (env_profiles s)) as He by by apply elem_btree_entries.
      by apply Hp, check_profile_ok in He as [? _].
    + intros id1 p1 id2 p2 H1 H2 Hs.
      assert ((id1, p1) = (id2, p2)) as [= ->]; [|done].
      apply (elem_btree_entries _ (_, _)), list_elem_of_lookup in H1 as [i Hi], H2 as [j Hj].
      assert (i = j) as ->; [|congruence].
      eapply (NoDup_lookup _ i j (ep_slug p1) Hd); rewrite list_lookup_fmap; [by rewrite Hi|rewrite Hj; cbn; congruence].
    + intros id p v H. assert ((id, p) ∈ btree_entries (env_profiles s)) as He by by apply elem_btree_entries.
      apply Hp, check_profile_ok in He as (_ & _ & Hr). apply Hr.
  - intros [Hv Hm1 Hm2 Hs Hp Hsl Hr]. rewrite Hv. cbn [negb]. rewrite Z.eqb_refl. cbn [negb].
    replace (_ || _) with false by (symmetry; apply orb_false_iff; split; apply Nat.ltb_ge; lia).
    assert (check_secrets (btree_entries (env_secrets s)) = Ok tt) as ->.
    { apply check_secrets_ok. intros [id sec] He%elem_btree_entries. by apply Hs. }
    cbn. apply check_profiles_ok. split.
    + intros [id p] He%elem_btree_entries. cbn in He. apply check_profile_ok. split; [by apply Hp|].
      split; [apply not_elem_of_empty|]. intros v. by eapply Hr.
    + apply NoDup_map_keys; [eapply NoDup_fmap_1, btree_keys_nodup|].
      intros [i p] [j q] Hi%elem_btree_entries Hj%elem_btree_entries Hs'. cbn in *.
      rewrite (Hsl i p j q) in * by done. congruence.
Qed.

(** ** Errors leave the state as it was *)

(** [c] only looks at the state; [c] changes it only when it succeeds. *)
Definition reads {A} (c : Env A) : Prop := forall s, (c s).2 = s.
Definition clean {A} (c : Env A) : Prop := forall s e s', c s = (Err e, s') -> s' = s.

Lemma reads_lift {A} (r : EnvRuntimeResult A) : reads (env_lift r).
Proof. done. Qed.
Lemma reads_state : reads env_state.
Proof. done. Qed.
Lemma clean_throw {A} e : clean (@env_throw A e).
Proof. by intros s e' s' [= _ <-]. Qed.
Lemma clean_on_secrets f : clean (on_secrets f).
Proof. done. Qed.
Lemma clean_on_profiles f : clean (on_profiles f).
Proof. done. Qed.
Lemma clean_on_secrets_ret {A} f (a : A) : clean (on_secrets f;; mret a).
Proof. done. Qed.
Lemma clean_on_profiles_ret {A} f (a : A) : clean (on_profiles f;; mret a).
Proof. done. Qed.

Lemma clean_bind {A B} (c : Env A) (f : A -> Env B) : reads c -> (forall a, clean (f a)) -> clean (c ≫= f).
Proof.
  intros Hc Hf s e s'. unfold mbind, Env_bind. pose proof (Hc s) as Hs. destruct (c s) as [[a|e'] s1]; cbn in Hs; subst.
  - apply Hf.
  - by intros [= _ <-].
Qed.

Create HintDb env.
#[export] Hint Resolve reads_lift reads_state clean_throw clean_on_secrets clean_on_profiles
  clean_on_secrets_ret clean_on_profiles_ret : env.

Ltac solve_clean :=
  repeat first [ progress (auto with env; [])
               | apply clean_bind; [solve [auto with env]|intros]
               | case_match ]; auto with env.

(** The requests that change the state. *)
Inductive env_request :=
  | CreateSecret (label : string) (now : Z) (draws : rng)
  | UpdateSecret (id : string) (base_revision : Z) (label : option string) (now : Z)
  | DeleteSecret (id : string) (base_revision : Z)
  | CreateProfile (slug label : string) (description : option string) (variables : list EnvVariableMappingV1)
      (now : Z) (draws : rng)
  | UpdateProfile (id : string) (base_revision : Z) (slug label : string) (description : option string)
      (variables : list EnvVariableMappingV1) (now : Z)
  | DeleteProfile (id : string) (base_revision : Z).

Definition void {A} (c : Env A) : Env unit := _ ← c; mret tt.

Definition env_perform (r : env_request) : Env unit :=
  match r with
  | CreateSecret label now draws => void (create_secret label now draws)
  | UpdateSecret id base label now => void (update_secret id base label now)
  | DeleteSecret id base => delete_secret id base
  | CreateProfile slug label description vs now draws => void (create_profile slug label description vs now draws)
  | UpdateProfile id base slug label description vs now => void (update_profile id base slug label description vs now)
  | DeleteProfile id base => delete_profile id base
  end.

Lemma clean_void {A} (c : Env A) : clean c -> clean (void c).
Proof.
  intros Hc s e s'. unfold void, mbind, Env_bind. destruct (c s) as [[a|e'] s1] eqn:E; [done|].
  intros [= _ <-]. by eapply Hc.
Qed.

Lemma create_secret_clean label now draws : clean (create_secret label now draws).
Proof. unfold create_secret. solve_clean. Qed.
Lemma update_secret_clean id base label now : clean (update_secret id base label now).
Proof. unfold update_secret. solve_clean. Qed.
Lemma delete_secret_clean id base : clean (delete_secret id base).
Proof. unfold delete_secret. solve_clean. Qed.
Lemma create_profile_clean slug label description vs now draws :
  clean (create_profile slug label description vs now draws).
Proof. unfold create_profile. solve_clean. Qed.
Lemma update_profile_clean id base slug label description vs now :
  clean (update_profile id base slug label description vs now).
Proof. unfold update_profile. solve_clean. Qed.
Lemma delete_profile_clean id base : clean (delete_profile id base).
Proof. unfold delete_profile. solve_clean. Qed.

#[export] Hint Resolve clean_void create_secret_clean update_secret_clean delete_secret_clean
  create_profile_clean update_profile_clean delete_profile_clean : env.

Lemma env_perform_clean r : clean (env_perform r).
Proof. destruct r; cbn [env_perform]; auto with env. Qed.

(** ** What a successful operation did *)

Lemma Env_bind_Ok {A B} (c : Env A) (f : A -> Env B) s b s2 :
  (c ≫= f) s = (Ok b, s2) -> exists a s1, c s = (Ok a, s1) /\ f a s1 = (Ok b, s2).
Proof. unfold mbind, Env_bind. destruct (c s) as [[a|e] s1]; [by eauto|done]. Qed.

Lemma lift_bind_Ok {A B} (r : EnvRuntimeResult A) (f : A -> Env B) s b s2 :
  (env_lift r ≫= f) s = (Ok b, s2) -> exists a, r = Ok a /\ f a s = (Ok b, s2).
Proof. unfold mbind, Env_bind, env_lift. destruct r; [by eauto|done]. Qed.

Lemma state_bind_Ok {B} (f : EnvRuntimeStateV1 -> Env B) s b s2 :
  (env_state ≫= f) s = (Ok b, s2) -> f s s = (Ok b, s2).
Proof. done. Qed.

Lemma if_throw_Ok {A} (b : bool) e (c : Env A) s a s2 :
  (if b then env_throw e else c) s = (Ok a, s2) -> b = false /\ c s = (Ok a, s2).
Proof. by destruct b. Qed.

Lemma require_revision_Ok actual expected : require_revision actual expected = Ok tt -> actual = expected.
Proof. unfold require_revision. destruct (actual =? expected) eqn:E; [|done]. lia. Qed.

Lemma advance_revision_Ok revision updated_at now r :
  advance_revision revision updated_at now = Ok r ->
  revision + 1 <= U64_MAX /\ r = (revision + 1, Z.max now (u64_saturating_add updated_at 1)).
Proof.
  unfold advance_revision, u64_checked_add. destruct (revision + 1 <=? U64_MAX) eqn:E; [|done].
  cbn. intros [= <-]. split; [lia|done].
Qed.

(** Step [H : c s = (Ok a, s')] through the monad. *)
Ltac env_step H :=
  lazymatch type of H with
  | (env_state ≫= _) _ = _ => apply state_bind_Ok in H; cbv beta in H
  | (env_lift _ ≫= _) _ = _ =>
      let a := fresh "a" in let E := fresh "E" in apply lift_bind_Ok in H as (a & E & H); cbv beta in H
  | (if _ then env_throw _ else _) _ = _ => let E := fresh "E" in apply if_throw_Ok in H as [E H]
  | _ => cbv zeta in H
  end.

Lemma create_secret_Ok label now draws s r s' :
  create_secret label now draws s = (Ok r, s') ->
  exists id l, (size (env_secrets s) < MAX_SECRETS)%nat
    /\ unique_id "envsec" (contains_key (env_secrets s)) draws = Ok id /\ normalize_label label = Ok l
    /\ s' = mkEnv (env_version s) (<[id := mkSecret ENV_RUNTIME_RECORD_VERSION id l 1 now now]> (env_secrets s))
              (env_profiles s)
    /\ r = mkSecretMetadata id l 1 (secret_usage_count s id).
Proof.
  unfold create_secret. intros H. do 6 env_step H. injection H as <- <-. exists a, a0.
  split; [by apply Nat.leb_gt|done].
Qed.

Lemma update_secret_Ok id base label now s r s' :
  update_secret id base label now s = (Ok r, s') ->
  exists l sec, normalize_label_opt label = Ok l /\ env_secrets s !! id = Some sec /\ es_revision sec = base
    /\ base + 1 <= U64_MAX
    /\ let sec' := mkSecret (es_version sec) (es_id sec) (default (es_label sec) l) (base + 1)
         (es_created_at_epoch_ms sec) (Z.max now (u64_saturating_add (es_updated_at_epoch_ms sec) 1)) in
       s' = mkEnv (env_version s) (<[id := sec']> (env_secrets s)) (env_profiles s)
       /\ r = mkSecretMetadata (es_id sec) (es_label sec') (base + 1) (secret_usage_count s id).
Proof.
  unfold update_secret. intros H. do 6 env_step H. destruct a1. apply ok_or_Ok_inv in E0.
  apply require_revision_Ok in E1. apply advance_revision_Ok in E2 as [Hm ->]. injection H as <- <-.
  exists a, a0. rewrite <- E1. done.
Qed.

Lemma delete_secret_Ok id base s r s' :
  delete_secret id base s = (Ok r, s') ->
  exists sec, env_secrets s !! id = Some sec /\ es_revision sec = base /\ secret_usage_count s id <= 0
    /\ s' = mkEnv (env_version s) (delete id (env_secrets s)) (env_profiles s).
Proof.
  unfold delete_secret. intros H. do 4 env_step H. destruct a0. apply ok_or_Ok_inv in E.
  apply require_revision_Ok in E0. injection H as <- <-. exists a. split; [done|]. split; [done|].
  split; [lia|done].
Qed.

Lemma create_profile_Ok slug label description vs now draws s r s' :
  create_profile slug label description vs now draws s = (Ok r, s') ->
  exists id l d, (size (env_profiles s) < MAX_PROFILES)%nat /\ validate_slug slug = Ok tt
    /\ validate_variables vs = Ok tt /\ references_missing s vs = false
    /\ (forall i p, env_profiles s !! i = Some p -> ep_slug p <> slug)
    /\ unique_id "envprof" (contains_key (env_profiles s)) draws = Ok id
    /\ normalize_label label = Ok l /\ normalize_description description = Ok d
    /\ let p := mkProfile ENV_RUNTIME_RECORD_VERSION id slug l d 1 vs now now in
       s' = mkEnv (env_version s) (env_secrets s) (<[id := p]> (env_profiles s)) /\ r = profile_projection p.
Proof.
  unfold create_profile. intros H. do 10 env_step H. destruct a, a0, a1. injection H as <- <-.
  exists a2, a3, a4. split; [by apply Nat.leb_gt|]. split; [done|]. split; [done|].
  split; [unfold require_secret_references in E2; by destruct (references_missing s vs)|].
  split; [|done]. intros i p Hp. rewrite existsb_values in E3. apply String.eqb_neq. by eapply E3.
Qed.

Lemma update_profile_Ok id base slug label description vs now s r s' :
  update_profile id base slug label description vs now s = (Ok r, s') ->
  exists p l d, validate_slug slug = Ok tt /\ validate_variables vs = Ok tt /\ references_missing s vs = false
    /\ normalize_label label = Ok l /\ normalize_description description = Ok d
    /\ (forall i q, env_profiles s !! i = Some q -> ep_id q <> id -> ep_slug q <> slug)
    /\ env_profiles s !! id = Some p /\ ep_revision p = base /\ base + 1 <= U64_MAX
    /\ let p' := mkProfile (ep_version p) (ep_id p) slug l d (base + 1) vs (ep_created_at_epoch_ms p)
                   (Z.max now (u64_saturating_add (ep_updated_at_epoch_ms p) 1)) in
       s' = mkEnv (env_version s) (env_secrets s) (<[id := p']> (env_profiles s)) /\ r = profile_projection p'.
Proof.
  unfold update_profile. intros H. do 11 env_step H. destruct a, a0, a1, a5.
  apply ok_or_Ok_inv in E5. apply require_revision_Ok in E6. apply advance_revision_Ok in E7 as [Hm ->].
  injection H as <- <-. exists a4, a2, a3. rewrite <- E6. do 2 (split; [done|]).
  split; [unfold require_secret_references in E1; by destruct (references_missing s vs)|].
  do 2 (split; [done|]). split; [|done]. intros i q Hq Hne%String.eqb_neq. rewrite existsb_values in E4.
  specialize (E4 _ _ Hq). cbn in E4. rewrite Hne in E4. by apply String.eqb_neq.
Qed.

Lemma delete_profile_Ok id base s r s' :
  delete_profile id base s = (Ok r, s') ->
  exists p, env_profiles s !! id = Some p /\ ep_revision p = base
    /\ s' = mkEnv (env_version s) (env_secrets s) (delete id (env_profiles s)).
Proof.
  unfold delete_profile. intros H. do 3 env_step H. destruct a0. apply ok_or_Ok_inv in E.
  apply require_revision_Ok in E0. injection H as <- <-. by exists a.
Qed.

(** ** Integrity is preserved *)

Lemma normalize_label_idem l n : normalize_label l = Ok n -> normalize_label n = Ok n.
Proof.
  unfold normalize_label. destruct (_ || _) eqn:E1; [done|]. destruct (existsb _ _) eqn:E2; [done|].
  intros [= <-]. by rewrite trim_idem, E1, E2.
Qed.

Lemma normalize_description_idem d n : normalize_description d = Ok n -> normalize_description n = Ok n.
Proof.
  unfold normalize_description at 1. destruct d as [d|]; [|by intros [= <-]].
  destruct (string_is_empty _) eqn:E0; [by intros [= <-]|]. destruct (_ <? _)%nat eqn:E1; [done|].
  destruct (existsb _ _) eqn:E2; [done|]. intros [= <-]. unfold normalize_description. by rewrite trim_idem, E0, E1, E2.
Qed.

Lemma unique_id_from_Ok tries n prefix ex draws id :
  unique_id_from tries n prefix ex draws = Ok id -> ex id = false /\ exists m draw, draws m = Some draw /\ id = record_id prefix draw.
Proof.
  revert n. induction tries as [|tries IH]; intros n; cbn [unique_id_from]; [done|].
  destruct (draws n) as [draw|] eqn:E; [|done]. cbn.
  destruct (ex (record_id prefix draw)) eqn:Ex; cbn; [apply IH|]. intros [= <-]. eauto.
Qed.

Lemma unique_id_Ok {V} (m : gmap string V) prefix draws id :
  unique_id prefix (contains_key m) draws = Ok id ->
  m !! id = None /\ exists n draw, draws n = Some draw /\ id = record_id prefix draw.
Proof.
  intros [Hn Hd]%unique_id_from_Ok. split; [|done]. unfold contains_key in Hn.
  by apply bool_decide_eq_false, eq_None_not_Some in Hn.
Qed.

Lemma bytes_of_app s t : bytes_of (String.append s t) = bytes_of s ++ bytes_of t.
Proof. unfold bytes_of. induction s as [|a s IH]; [done|]. cbn. by rewrite IH. Qed.

Lemma hex_encode_alphanumeric bs : forallb is_ascii_alphanumeric (bytes_of (hex_encode bs)) = true.
Proof. induction bs as [|b bs IH]; [done|]. cbn. unfold bytes_of in IH. rewrite IH. by destruct b. Qed.

Lemma hex_encode_length bs : String.length (hex_encode bs) = (2 * length bs)%nat.
Proof. induction bs as [|b bs IH]; [done|]. cbn [hex_encode String.length length]. rewrite IH. lia. Qed.

Lemma string_length_app s t : String.length (String.append s t) = (String.length s + String.length t)%nat.
Proof. induction s as [|a s IH]; [done|]. cbn. by rewrite IH. Qed.

Lemma record_id_valid prefix draw :
  is_valid_record_id prefix = true -> (string_len prefix <= 95)%nat -> is_valid_record_id (record_id prefix draw) = true.
Proof.
  unfold is_valid_record_id, record_id. rewrite !andb_true_iff. intros [[Hne _] Hb] Hl. split; [split|].
  - by destruct prefix.
  - apply Nat.leb_le. unfold string_len in *. rewrite !string_length_app, hex_encode_length, length_to_be_bytes. cbn. lia.
  - rewrite !bytes_of_app, !forallb_app, Hb. cbn -[hex_encode]. apply forallb_forall. intros b Hin.
    pose proof (hex_encode_alphanumeric (to_be_bytes 16 draw)) as Hh. rewrite forallb_forall in Hh. by rewrite Hh.
Qed.

Lemma usage_count_zero s id :
  secret_usage_count s id <= 0 -> forall i p v, env_profiles s !! i = Some p -> v ∈ ep_variables p -> ev_secret_id v <> id.
Proof.
  unfold secret_usage_count. intros Hc i p v Hp Hv Hid.
  assert (p ∈ List.filter (uses_secret id) (btree_values (env_profiles s))) as Hin.
  { apply list_elem_of_In, filter_In. split; [apply list_elem_of_In, elem_btree_values; eauto|].
    apply existsb_exists. exists v. by rewrite <- list_elem_of_In, Hid, String.eqb_refl. }
  destruct (List.filter _ _); [by apply elem_of_nil in Hin|cbn in Hc; lia].
Qed.

(** Integrity, and the revisions are [u64]s. *)
Definition revisions_typed (s : EnvRuntimeStateV1) : Prop :=
  map_Forall (fun _ sec => is_u64 (es_revision sec)) (env_secrets s)
  /\ map_Forall (fun _ p => is_u64 (ep_revision p)) (env_profiles s).

Definition env_inv (s : EnvRuntimeStateV1) : Prop := env_ok s /\ revisions_typed s.

Lemma is_u64_1 : is_u64 1.
Proof. unfold is_u64, U64_MAX. lia. Qed.

Lemma create_secret_inv label now draws s r s' :
  create_secret label now draws s = (Ok r, s') -> env_inv s -> env_inv s'.
Proof.
  intros (id & l & Hmax & [Hf (n & d & _ & Hid)]%unique_id_Ok & Hl & -> & _)%create_secret_Ok [[] [Ht1 Ht2]].
  split; [|split; [apply map_Forall_insert_2; [apply is_u64_1|done]|done]]. split; cbn; try done.
  - rewrite map_size_insert_None by done. lia.
  - intros i sec [[<- <-]|[_ Hs]]%lookup_insert_Some; [|by apply eo_secrets0].
    split; cbn; try done; [rewrite Hid; apply record_id_valid; [done|cbn; lia]|]. by rewrite (normalize_label_idem _ _ Hl).
  - intros i p v Hp Hv. destruct (eo_references0 i p v Hp Hv) as [sec Hs]. rewrite lookup_insert_is_Some.
    destruct (decide (id = ev_secret_id v)); [by left|right]. by split; [|exists sec].
Qed.

Lemma update_secret_inv id base label now s r s' :
  update_secret id base label now s = (Ok r, s') -> env_inv s -> env_inv s'.
Proof.
  intros (l & sec & Hl & Hs & Hb & Hmax & -> & _)%update_secret_Ok [[] [Ht1 Ht2]].
  assert (is_u64 base) as Hbu by (rewrite <- Hb; by apply (Ht1 id sec)). unfold is_u64 in Hbu.
  split; [|split; [apply map_Forall_insert_2; [split; cbn; lia|done]|done]]. split; cbn; try done.
  - by rewrite map_size_insert_Some.
  - intros i sec' [[<- <-]|[_ Hs']]%lookup_insert_Some; [|by apply eo_secrets0].
    destruct (eo_secrets0 _ _ Hs). split; cbn; try done; [lia|].
    unfold normalize_label_opt in Hl. destruct label as [l'|]; [|by injection Hl as <-].
    destruct (normalize_label l') as [n|] eqn:En; [|done]. injection Hl as <-. cbn. by rewrite (normalize_label_idem _ _ En).
  - intros i p v Hp Hv. destruct (eo_references0 i p v Hp Hv) as [sec' Hs']. rewrite lookup_insert_is_Some.
    destruct (decide (id = ev_secret_id v)); [by left|right]. by split; [|exists sec'].
Qed.

Lemma delete_secret_inv id base s r s' : delete_secret id base s = (Ok r, s') -> env_inv s -> env_inv s'.
Proof.
  intros (sec & Hs & Hb & Hu & ->)%delete_secret_Ok [[] [Ht1 Ht2]].
  split; [|split; [by apply map_Forall_delete|done]]. split; cbn; try done.
  - rewrite map_size_delete. destruct (_ !! id); cbn; unfold Datatypes.id; lia.
  - intros i sec' [_ Hs']%lookup_delete_Some. by apply eo_secrets0.
  - intros i p v Hp Hv. rewrite lookup_delete_ne; [by eapply eo_references0|].
    intros E. by apply (usage_count_zero s id Hu i p v).
Qed.

Lemma create_profile_inv slug label description vs now draws s r s' :
  create_profile slug label description vs now draws s = (Ok r, s') -> env_inv s -> env_inv s'.
Proof.
  intros (id & l & d & Hmax & Hsl & Hvs & Hr & Hnew & [Hf (n & dr & _ & Hid)]%unique_id_Ok & Hl & Hd & -> & _)%create_profile_Ok
    [[] [Ht1 Ht2]]. rewrite references_missing_false in Hr.
  split; [|split; [done|apply map_Forall_insert_2; [apply is_u64_1|done]]]. split; cbn; try done.
  - rewrite map_size_insert_None by done. lia.
  - intros i p [[<- <-]|[_ Hp]]%lookup_insert_Some; [|by apply eo_profiles0].
    split; cbn; try done; [rewrite Hid; apply record_id_valid; [done|cbn; lia]| |].
    + by rewrite (normalize_label_idem _ _ Hl).
    + by rewrite (normalize_description_idem _ _ Hd).
  - intros i p j q [[<- <-]|[_ Hp]]%lookup_insert_Some [[<- <-]|[_ Hq]]%lookup_insert_Some Hpq; cbn in Hpq;
      [done|by apply Hnew in Hq|by apply Hnew in Hp|by eapply eo_slugs0].
  - intros i p v [[<- <-]|[_ Hp]]%lookup_insert_Some Hv; [by apply Hr|by eapply eo_references0].
Qed.

Lemma update_profile_inv id base slug label description vs now s r s' :
  update_profile id base slug label description vs now s = (Ok r, s') -> env_inv s -> env_inv s'.
Proof.
  intros (p & l & d & Hsl & Hvs & Hr & Hl & Hd & Hnew & Hp & Hb & Hmax & -> & _)%update_profile_Ok [[] [Ht1 Ht2]].
  rewrite references_missing_false in Hr.
  assert (is_u64 base) as Hbu by (rewrite <- Hb; by apply (Ht2 id p)). unfold is_u64 in Hbu.
  assert (forall j q, env_profiles s !! j = Some q -> j <> id -> ep_slug q <> slug) as Hnew'.
  { intros j q Hq Hj. apply (Hnew j q Hq). by rewrite (po_id _ _ (eo_profiles0 _ _ Hq)). }
  split; [|split; [done|apply map_Forall_insert_2; [split; cbn; lia|done]]]. split; cbn; try done.
  - by rewrite map_size_insert_Some.
  - intros i q [[<- <-]|[_ Hq]]%lookup_insert_Some; [|by apply eo_profiles0].
    destruct (eo_profiles0 _ _ Hp). split; cbn; try done; [lia| |].
    + by rewrite (normalize_label_idem _ _ Hl).
    + by rewrite (normalize_description_idem _ _ Hd).
  - intros i q j q' [[<- <-]|[Hi Hq]]%lookup_insert_Some [[<- <-]|[Hj Hq']]%lookup_insert_Some E; cbn in E;
      [done|by apply Hnew' in Hq'|by apply Hnew' in Hq|by eapply eo_slugs0].
  - intros i q v [[<- <-]|[_ Hq]]%lookup_insert_Some Hv; [by apply Hr|by eapply eo_references0].
Qed.

Lemma delete_profile_inv id base s r s' : delete_profile id base s = (Ok r, s') -> env_inv s -> env_inv s'.
Proof.
  intros (p & Hp & Hb & ->)%delete_profile_Ok [[] [Ht1 Ht2]].
  split; [|split; [done|by apply map_Forall_delete]]. split; cbn; try done.
  - rewrite map_size_delete. destruct (_ !! id); cbn; unfold Datatypes.id; lia.
  - intros i q [_ Hq]%lookup_delete_Some. by apply eo_profiles0.
  - intros i q j q' [_ Hq]%lookup_delete_Some [_ Hq']%lookup_delete_Some. by apply eo_slugs0.
  - intros i q v [_ Hq]%lookup_delete_Some. by eapply eo_references0.
Qed.

Lemma void_Ok {A} (c : Env A) s r s' : void c s = (Ok r, s') -> exists a, c s = (Ok a, s').
Proof. unfold void. intros (a & s1 & H & [= <- <-])%Env_bind_Ok. by exists a. Qed.

Lemma env_perform_inv r s : env_inv s -> env_inv (env_perform r s).2.
Proof.
  destruct (env_perform r s) as [[u|e] s'] eqn:E; intros Hs; cbn; [|by rewrite (env_perform_clean r s e s' E)].
  revert Hs. destruct r; cbn in E; (apply void_Ok in E as [a E] || idtac).
  - by eapply create_secret_inv.
  - by eapply update_secret_inv.
  - by eapply delete_secret_inv.
  - by eapply create_profile_inv.
  - by eapply update_profile_inv.
  - by eapply delete_profile_inv.
Qed.

(** The state after a history of requests, some of them refused. *)
Definition env_after (rs : list env_request) (s : EnvRuntimeStateV1) : EnvRuntimeStateV1 :=
  foldl (fun s r => (env_perform r s).2) s rs.

Lemma env_after_inv rs s : env_inv s -> env_inv (env_after rs s).
Proof. revert s. induction rs as [|r rs IH]; intros s Hs; [done|]. cbn. by apply IH, env_perform_inv. Qed.

Lemma env_default_inv : env_inv env_default.
Proof.
  split; [|split; apply map_Forall_empty].
  split; cbn [env_secrets env_profiles env_default]; try (rewrite map_size_empty; lia); try done.
Qed.

(** ** Theorems *)

(** C15: Whatever requests are made of an empty Env Runtime, with whatever labels, slugs,
    descriptions, variables, clock readings and random draws, some of them refused: the state passes
    its own integrity check, so what is saved can be loaded again. In particular every variable
    of a profile refers to a secret that exists, and slugs are unique. *)
Theorem env_integrity rs : validate_integrity (env_after rs env_default) = Ok tt.
Proof. apply validate_integrity_ok, env_after_inv, env_default_inv. Qed.

(** *** No lost updates *)

Definition never_draws (id : string) (r : env_request) : Prop :=
  match r with
  | CreateSecret _ _ draws => forall n d, draws n = Some d -> record_id "envsec" d <> id
  | CreateProfile _ _ _ _ _ draws => forall n d, draws n = Some d -> record_id "envprof" d <> id
  | _ => True
  end.

(** The secret is gone, or at a revision above [base]; the same for a profile. *)
Definition secret_beyond (id : string) (base : Z) (s : EnvRuntimeStateV1) : Prop :=
  forall sec, env_secrets s !! id = Some sec -> base < es_revision sec.
Definition profile_beyond (id : string) (base : Z) (s : EnvRuntimeStateV1) : Prop :=
  forall p, env_profiles s !! id = Some p -> base < ep_revision p.

Lemma perform_beyond id base r s :
  never_draws id r ->
  (secret_beyond id base s -> secret_beyond id base (env_perform r s).2)
  /\ (profile_beyond id base s -> profile_beyond id base (env_perform r s).2).
Proof.
  destruct (env_perform r s) as [[u|e] s'] eqn:E; cbn; [|by rewrite (env_perform_clean r s e s' E)].
  unfold secret_beyond, profile_beyond.
  destruct r; cbn in E; (apply void_Ok in E as [a E] || idtac); intros Hn; cbn in Hn.
  - apply create_secret_Ok in E as (i & l & _ & [_ (n & d & Hd & ->)]%unique_id_Ok & _ & -> & _). cbn. split; [|done].
    intros Hb sec. rewrite lookup_insert_ne by by eapply Hn. apply Hb.
  - apply update_secret_Ok in E as (l & sec & _ & Hs & <- & _ & -> & _). cbn. split; [|done].
    intros Hb sec' [[<- <-]|[_ Hs']]%lookup_insert_Some; [|by apply Hb]. cbn. specialize (Hb _ Hs). lia.
  - apply delete_secret_Ok in E as (sec & _ & _ & _ & ->). cbn. split; [|done].
    intros Hb sec' [_ Hs]%lookup_delete_Some. by apply Hb.
  - apply create_profile_Ok in E as (i & l & d & _ & _ & _ & _ & _ & [_ (n & dr & Hd & ->)]%unique_id_Ok & _ & _ & -> & _).
    cbn. split; [done|]. intros Hb p. rewrite lookup_insert_ne by by eapply Hn. apply Hb.
  - apply update_profile_Ok in E as (p & l & d & _ & _ & _ & _ & _ & _ & Hp & <- & _ & -> & _). cbn. split; [done|].
    intros Hb q [[<- <-]|[_ Hq]]%lookup_insert_Some; [|by apply Hb]. cbn. specialize (Hb _ Hp). lia.
  - apply delete_profile_Ok in E as (p & _ & _ & ->). cbn. split; [done|].
    intros Hb q [_ Hq]%lookup_delete_Some. by apply Hb.
Qed.

Lemma after_beyond id base rs s :
  Forall (never_draws id) rs ->
  (secret_beyond id base s -> secret_beyond id base (env_after rs s))
  /\ (profile_beyond id base s -> profile_beyond id base (env_after rs s)).
Proof.
  intros Hrs. revert s. induction Hrs as [|r rs Hr Hrs IH]; intros s; [done|]. cbn.
  destruct (perform_beyond id base r s Hr) as [H1 H2]. destruct (IH (env_perform r s).2) as [I1 I2].
  split; intros Hb; [by apply I1, H1|by apply I2, H2].
Qed.

(** The edits of the record [id] that are based on revision [base]. *)
Definition edits (id : string) (base : Z) (r : env_request) : Prop :=
  match r with
  | UpdateSecret i b _ _ | DeleteSecret i b | UpdateProfile i b _ _ _ _ _ | DeleteProfile i b => i = id /\ b = base
  | _ => False
  end.

Definition edits_secret (r : env_request) : bool :=
  match r with UpdateSecret _ _ _ _ | DeleteSecret _ _ => true | _ => false end.

Lemma edit_beyond id base r s :
  edits id base r -> is_ok (env_perform r s).1 = true ->
  if edits_secret r then secret_beyond id base (env_perform r s).2 /\ ~ secret_beyond id base s
  else profile_beyond id base (env_perform r s).2 /\ ~ profile_beyond id base s.
Proof.
  destruct (env_perform r s) as [[u|e] s'] eqn:E; [|done]. intros He _. cbn. unfold secret_beyond, profile_beyond.
  destruct r; cbn in He; try done; destruct He as [-> ->]; cbn in E; (apply void_Ok in E as [a E] || idtac); cbn.
  - apply update_secret_Ok in E as (l & sec & _ & Hs & <- & _ & -> & _). split; [|intros H; apply H in Hs; lia].
    intros sec'. cbn. rewrite lookup_insert_eq. intros [= <-]. cbn. lia.
  - apply delete_secret_Ok in E as (sec & Hs & <- & _ & ->). split; [|intros H; apply H in Hs; lia].
    intros sec'. cbn. by rewrite lookup_delete_eq.
  - apply update_profile_Ok in E as (p & l & d & _ & _ & _ & _ & _ & _ & Hp & <- & _ & -> & _).
    split; [|intros H; apply H in Hp; lia]. intros q. cbn. rewrite lookup_insert_eq. intros [= <-]. cbn. lia.
  - apply delete_profile_Ok in E as (p & Hp & <- & ->). split; [|intros H; apply H in Hp; lia].
    intros q. cbn. by rewrite lookup_delete_eq.
Qed.

(** C18: Once an edit of a secret or a profile that was based on a revision has succeeded, no later
    edit of the same record based on that revision succeeds, whatever happens in between (unless
    the random generator draws the record's id again after a deletion), and the refused edit
    changes nothing: updates are never lost. *)
Theorem no_lost_updates id base s r rs r' :
  edits id base r -> edits id base r' -> edits_secret r = edits_secret r' -> Forall (never_draws id) rs ->
  is_ok (env_perform r s).1 = true ->
  let s' := env_after rs (env_perform r s).2 in
  is_ok (env_perform r' s').1 = false /\ (env_perform r' s').2 = s'.
Proof.
  intros Hr Hr' Hk Hrs Hok. cbn zeta. pose proof (edit_beyond id base r s Hr Hok) as Hb.
  set (s1 := env_after rs _). destruct (after_beyond id base rs (env_perform r s).2 Hrs) as [H1 H2].
  destruct (env_perform r' s1) as [[u|e] s2] eqn:E; cbn; [exfalso|split; [done|by eapply env_perform_clean]].
  pose proof (edit_beyond id base r' s1 Hr' ltac:(by rewrite E)) as Hb'. rewrite Hk in Hb.
  destruct (edits_secret r'); destruct Hb as [Hb _], Hb' as [_ Hb']; apply Hb'; [by apply H1|by apply H2].
Qed.

(** *** Finding a profile *)

Lemma find_unique {A} (p : A -> bool) l x :
  x ∈ l -> p x = true -> (forall y, y ∈ l -> p y = true -> y = x) -> List.find p l = Some x.
Proof.
  intros Hx Hp Hu. destruct (List.find p l) as [y|] eqn:E.
  - apply find_some in E as [Hy%list_elem_of_In Hpy]. by rewrite (Hu y).
  - apply list_elem_of_In in Hx. by rewrite (find_none _ _ E x Hx) in Hp.
Qed.

(** In every state that is reached, a profile is found under its id, and under its slug unless
    that is the id of a profile; what is found under a reference has it as its id or its slug. *)
Theorem profile_lookup rs id p :
  let s := env_after rs env_default in
  env_profiles s !! id = Some p ->
  get_profile s id = Ok (profile_projection p)
  /\ (env_profiles s !! ep_slug p = None -> get_profile s (ep_slug p) = Ok (profile_projection p))
  /\ (forall ref q, get_profile s ref = Ok q -> ap_id q = ref \/ ap_slug q = ref).
Proof.
  cbn zeta. destruct (env_after_inv rs _ env_default_inv) as [[] _]. set (s := env_after rs env_default) in *.
  intros Hp. unfold get_profile, find_profile.
  split; [by rewrite Hp|]. split.
  - intros ->. rewrite (find_unique _ _ p); [done|apply elem_btree_values; eauto|apply String.eqb_refl|].
    intros q [j Hq]%elem_btree_values Hs%String.eqb_eq. rewrite (eo_slugs0 _ _ _ _ Hq Hp Hs) in Hq. congruence.
  - intros ref q. destruct (env_profiles s !! ref) as [q'|] eqn:E.
    + intros [= <-]. left. by rewrite <- (po_id _ _ (eo_profiles0 _ _ E)).
    + destruct (List.find _ _) as [q'|] eqn:Ef; [|done]. intros [= <-]. right.
      by apply find_some in Ef as [_ ?%String.eqb_eq].
Qed.

(** ** A concrete history *)

Definition demo_draws (k : Z) : rng := fun n => Some (k + Z.of_nat n).
Definition demo_secret_id : string := record_id "envsec" 7.
Definition demo_profile_id : string := record_id "envprof" 9.
Definition demo_requests : list env_request := [
  CreateSecret "  Token " 100 (demo_draws 7);
  CreateProfile "local_dev" "Local dev" None [mkMapping "TOKEN" demo_secret_id] 101 (demo_draws 9);
  DeleteSecret demo_secret_id 1;
  CreateSecret " " 102 (demo_draws 7)].
Definition demo_env : EnvRuntimeStateV1 := env_after demo_requests env_default.

(** The label is trimmed; the secret in use and the empty label are refused. *)
Example demo_env_secrets :
  list_secrets demo_env = [mkSecretMetadata demo_secret_id "Token" 1 1]
  /\ (env_perform (DeleteSecret demo_secret_id 1) demo_env).1
     = Err (mkEnvError SecretInUse "Env secret is referenced by a profile")
  /\ profile_count demo_env = 1.
Proof. split_and!; vm_compute; reflexivity. Qed.

Definition demo_edit (now : Z) : env_request := UpdateSecret demo_secret_id 1 (Some "Renamed"%string) now.

Lemma no_lost_updates_witness :
  is_ok (env_perform (demo_edit 50) demo_env).1 = true
  /\ let s' := env_after [DeleteProfile demo_profile_id 1] (env_perform (demo_edit 50) demo_env).2 in
     is_ok (env_perform (DeleteSecret demo_secret_id 1) s').1 = false
     /\ (env_perform (DeleteSecret demo_secret_id 1) s').2 = s'.
Proof.
  split; [vm_compute; reflexivity|].
  apply (no_lost_updates demo_secret_id 1 demo_env (demo_edit 50) [DeleteProfile demo_profile_id 1]
           (DeleteSecret demo_secret_id 1)); [done..|repeat constructor|vm_compute; reflexivity].
Defined.

Definition demo_profile : EnvProfileRecordV1 :=
  mkProfile 1 demo_profile_id "local_dev" "Local dev" None 1 [mkMapping "TOKEN" demo_secret_id] 101 101.

Lemma profile_lookup_witness :
  get_profile demo_env demo_profile_id = Ok (profile_projection demo_profile)
  /\ (env_profiles demo_env !! "local_dev"%string = None ->
      get_profile demo_env "local_dev" = Ok (profile_projection demo_profile))
  /\ (forall ref q, get_profile demo_env ref = Ok q -> ap_id q = ref \/ ap_slug q = ref).
Proof. apply (profile_lookup demo_requests demo_profile_id demo_profile). vm_compute. reflexivity. Defined.
