(* ===== verification/Bitcoin.v ===== *)
(** * The Bitcoin wallet: coins, fees and discovery

    crates/core/src/wallet/bitcoin: scanning addresses for unspent outputs, choosing the coins
    of a transfer and its fee, building the transaction to sign, revalidating the coins
    and discovering used addresses. What the code calls outside the repository is a
    parameter: the [bitcoin] crate ([BitcoinLib]: addresses, scripts, the virtual size of a
    transaction) and the block explorer behind the trait [BitcoinProvider].
    Theorems: the chosen coins pay exactly outputs, fee and change; a maximal transfer
    spends everything; discovery ends and finds the used addresses up to the gap. *)

From Stdlib Require Import Strings.Byte Ascii String.
From stdpp Require Import base gmap strings list sorting pretty.
From S2P Require Import Prelude.
From S2P Require Import Bytes.
From S2P Require Import Text.
From S2P Require Import Crypto.
Open Scope Z_scope.

(** ** Errors of the wallet *)

Inductive WalletChainErrorCode :=
  | InvalidInput | UnsupportedChain | UnsupportedAccountModel | UnsupportedWalletContract | UnsupportedAsset
  | UnsupportedTonPayload | UnsupportedProviderSurface | AddressGapLimitReached | InvalidAddress
  | InsufficientFunds | FeeEstimationFailed | PreparationStale | ProviderUnavailable | BroadcastRejected
  | BroadcastUnknown | WalletInternal.

Record WalletChainError := mkWalletError { wce_code : WalletChainErrorCode; wce_message : string }.
Abbreviation wallet_result := (result WalletChainError).

Definition invalid_input (message : string) : WalletChainError := mkWalletError InvalidInput message.
Definition insufficient_funds : WalletChainError := mkWalletError InsufficientFunds "Insufficient funds".
Definition preparation_stale (message : string) : WalletChainError := mkWalletError PreparationStale message.

(** ** Hexadecimal *)

Definition hex_string (bytes : list byte) : string := hex_encode bytes.

Definition hex_nibble (b : Z) : wallet_result Z :=
  if is_ascii_digit b then Ok (b - 48)
  else if (97 <=? b) && (b <=? 102) then Ok (b - 97 + 10)
  else if (65 <=? b) && (b <=? 70) then Ok (b - 65 + 10)
  else Err (invalid_input "invalid hex character").

Fixpoint hex_pairs (s : string) : wallet_result (list byte) :=
  match s with
  | String a (String b s') =>
      hi ← hex_nibble (code a);
      lo ← hex_nibble (code b);
      rest ← hex_pairs s';
      Ok (byte_of_Z (Z.lor (Z.shiftl hi 4) lo) :: rest)
  | _ => Ok []
  end.

Definition parse_hex (input : string) : wallet_result (list byte) :=
  if negb (Nat.even (string_len input)) then Err (invalid_input "hex string length is odd") else hex_pairs input.

Lemma hex_pairs_encode bs : hex_pairs (hex_encode bs) = Ok bs.
Proof. induction bs as [|b bs IH]; [done|]. cbn [hex_encode hex_pairs]. rewrite IH. by destruct b. Qed.

Lemma hex_even bs : Nat.even (string_len (hex_encode bs)) = true.
Proof. induction bs as [|b bs IH]; [done|]. done. Qed.

(** What the wallet writes as hex it reads back. *)
Lemma parse_hex_string bs : parse_hex (hex_string bs) = Ok bs.
Proof. unfold parse_hex, hex_string. by rewrite hex_even, hex_pairs_encode. Qed.

(** ** Transactions *)

Record OutPoint := mkOutPoint { op_txid : list byte; op_vout : Z }.
Record TxIn := mkTxIn { ti_previous : OutPoint; ti_script_sig : list byte; ti_sequence : Z; ti_witness : list (list byte) }.
Record TxOut := mkTxOut { to_value : Z; to_script_pubkey : list byte }.
Record Transaction := mkTx { tx_version : Z; tx_lock_time : Z; tx_input : list TxIn; tx_output : list TxOut }.

Definition SEQUENCE_MAX : Z := U32_MAX.
Definition null_outpoint : OutPoint := mkOutPoint (replicate 32 x00) U32_MAX.

(** The [bitcoin] crate: [Transaction::vsize], [Script::minimal_non_dust] in satoshi,
    a mainnet address as its canonical text and its script, [Txid::from_str]. *)
Class BitcoinLib := {
  vsize : Transaction -> Z;
  minimal_non_dust : list byte -> Z;
  mainnet_address : string -> option (string * list byte);
  txid_from_str : string -> option (list byte);
}.

(** ** Coins *)

Record BitcoinUtxo := mkUtxo {
  bu_txid : string; bu_vout : Z; bu_value : Z; bu_address : string; bu_script_pubkey : string;
  bu_confirmed : bool; bu_confirmations : Z; bu_block_height : option Z;
}.

Definition outpoint_key (u : BitcoinUtxo) : string :=
  String.append (bu_txid u) (String.append ":" (show_u64 (bu_vout u))).

Record ScanAddress := mkScan {
  sa_account_id : string; sa_purpose : string; sa_index : Z; sa_address : string; sa_public_key : string;
  sa_derivation_path : string; sa_script_pubkey : string;
}.

Record LocatedUtxo := mkLocated { lu_utxo : BitcoinUtxo; lu_owner : ScanAddress }.

Record BitcoinPreparedOutputV1 := mkOutput { bo_address : string; bo_amount : Z; bo_script_pubkey : string }.

Record BitcoinPreparedUtxoV1 := mkPreparedUtxo {
  pu_txid : string; pu_vout : Z; pu_value : Z; pu_address : string; pu_script_pubkey : string;
  pu_account_id : string; pu_purpose : string; pu_index : Z; pu_derivation_path : string; pu_public_key : string;
}.

Record BitcoinPreparedChangeV1 := mkChange {
  bc_address : string; bc_amount : Z; bc_script_pubkey : string; bc_account_id : string;
  bc_purpose : string; bc_index : Z; bc_derivation_path : string; bc_public_key : string;
}.

Definition set_change_amount (amount : Z) (c : BitcoinPreparedChangeV1) : BitcoinPreparedChangeV1 :=
  mkChange (bc_address c) amount (bc_script_pubkey c) (bc_account_id c) (bc_purpose c) (bc_index c)
    (bc_derivation_path c) (bc_public_key c).

(** The account update that goes with a change address is carried along; [T] is its type. *)
Record BitcoinChangeTarget (T : Type) := mkTarget { ct_change : BitcoinPreparedChangeV1; ct_materialization : option T }.
Arguments mkTarget {T} _ _.
Arguments ct_change {T} _.
Arguments ct_materialization {T} _.

Record UtxoSelection (T : Type) := mkSelection {
  us_selected : list BitcoinPreparedUtxoV1;
  us_fee : Z;
  us_change : option BitcoinPreparedChangeV1;
  us_change_materialization : option T;
  us_dust_change_to_fee : bool;
}.
Arguments mkSelection {T} _ _ _ _ _.
Arguments us_selected {T} _.
Arguments us_fee {T} _.
Arguments us_change {T} _.
Arguments us_change_materialization {T} _.
Arguments us_dust_change_to_fee {T} _.

Definition BITCOIN_DUST_THRESHOLD_SATS : Z := 294.
Definition BITCOIN_ADDRESS_GAP : Z := 20.

Definition prepared_utxo (u : LocatedUtxo) : wallet_result BitcoinPreparedUtxoV1 :=
  Ok (mkPreparedUtxo (bu_txid (lu_utxo u)) (bu_vout (lu_utxo u)) (bu_value (lu_utxo u)) (bu_address (lu_utxo u))
        (bu_script_pubkey (lu_utxo u)) (sa_account_id (lu_owner u)) (sa_purpose (lu_owner u)) (sa_index (lu_owner u))
        (sa_derivation_path (lu_owner u)) (sa_public_key (lu_owner u))).

(** [iter().map(f).collect::<Result<Vec<_>, _>>()]. *)
Fixpoint collect_results {A B} (f : A -> wallet_result B) (l : list A) : wallet_result (list B) :=
  match l with
  | [] => Ok []
  | x :: l' => y ← f x; ys ← collect_results f l'; Ok (y :: ys)
  end.

Definition script_from_hex (hex : string) : wallet_result (list byte) := parse_hex hex.

(** [amounts.sum::<u64>()]: the additions wrap. *)
Definition sum_u64 (l : list Z) : Z := foldl u64_add 0 l.

(** [try_fold] with [checked_add]. *)
Definition checked_sum (l : list Z) : option Z :=
  foldl (fun acc x => sum ← acc; u64_checked_add sum x) (Some 0) l.

Section Selection.
Context `{BitcoinLib}.

Definition estimate_input : TxIn :=
  mkTxIn null_outpoint [] SEQUENCE_MAX [replicate 73 x00; replicate 33 x00].

Definition estimate_tx (input_count : nat) (output_scripts : list (list byte)) (change_script : option (list byte))
    : Transaction :=
  mkTx 2 0 (replicate input_count estimate_input)
    (map (mkTxOut 1000) (output_scripts ++ from_option (fun s => [s]) [] change_script)).

Definition estimate_fee (input_count : nat) (output_scripts : list (list byte)) (change_script : option (list byte))
    (fee_rate_sat_vb : Z) : wallet_result Z :=
  Ok (Z.max (u64_saturating_mul (vsize (estimate_tx input_count output_scripts change_script)) fee_rate_sat_vb)
            fee_rate_sat_vb).

Section Select.
Context {T : Type}.
Context (output_sum : Z) (output_scripts : list (list byte)) (change_target : option (BitcoinChangeTarget T))
        (change_script : option (list byte)) (fee_rate_sat_vb : Z).

(** What one round of the loop decides once the coins pay the outputs and the fee without
    change: [None] is the [continue]. *)
Definition settle_change (selected_count : nat) (selected_sum no_change_remainder : Z)
    : wallet_result (option (Z * option BitcoinPreparedChangeV1 * option T * bool)) :=
  let dust := (0 <? no_change_remainder) && (no_change_remainder <? BITCOIN_DUST_THRESHOLD_SATS) in
  let keep := Ok (Some (u64_saturating_sub selected_sum output_sum, None, None, dust)) in
  match change_target, change_script with
  | Some target, Some script =>
      if BITCOIN_DUST_THRESHOLD_SATS <=? no_change_remainder then
        fee_with_change ← estimate_fee selected_count output_scripts (Some script) fee_rate_sat_vb;
        if u64_saturating_add output_sum fee_with_change <=? selected_sum then
          let change_amount := u64_saturating_sub selected_sum (u64_saturating_add output_sum fee_with_change) in
          if BITCOIN_DUST_THRESHOLD_SATS <=? change_amount then
            Ok (Some (fee_with_change, Some (set_change_amount change_amount (ct_change target)),
                      ct_materialization target, dust))
          else Ok (Some (u64_saturating_sub selected_sum output_sum, None, None, dust || (0 <? change_amount)))
        else Ok None
      else keep
  | _, _ => keep
  end.

(** The loop over the coins. *)
Fixpoint select_from (selected : list LocatedUtxo) (selected_sum : Z) (utxos : list LocatedUtxo)
    : wallet_result (UtxoSelection T) :=
  match utxos with
  | [] => Err insufficient_funds
  | utxo :: utxos' =>
      let selected := selected ++ [utxo] in
      let selected_sum := u64_saturating_add selected_sum (bu_value (lu_utxo utxo)) in
      no_change_fee ← estimate_fee (length selected) output_scripts None fee_rate_sat_vb;
      if selected_sum <? u64_saturating_add output_sum no_change_fee then select_from selected selected_sum utxos' else
      let no_change_remainder := u64_saturating_sub selected_sum (u64_saturating_add output_sum no_change_fee) in
      settled ← settle_change (length selected) selected_sum no_change_remainder;
      match settled with
      | None => select_from selected selected_sum utxos'
      | Some (fee, change, change_materialization, dust_change_to_fee) =>
          selected ← collect_results prepared_utxo selected;
          Ok (mkSelection selected fee change change_materialization dust_change_to_fee)
      end
  end.
End Select.

(** [change_target.map(|change| script_from_hex(..)).transpose()]. *)
Definition target_script {T} (change_target : option (BitcoinChangeTarget T)) : wallet_result (option (list byte)) :=
  match change_target with
  | Some target => s ← script_from_hex (bc_script_pubkey (ct_change target)); Ok (Some s)
  | None => Ok None
  end.

Definition output_scripts_of (outputs : list BitcoinPreparedOutputV1) : wallet_result (list (list byte)) :=
  collect_results (fun o => script_from_hex (bo_script_pubkey o)) outputs.

Definition select_utxos {T} (utxos : list LocatedUtxo) (outputs : list BitcoinPreparedOutputV1)
    (change_target : option (BitcoinChangeTarget T)) (fee_rate_sat_vb : Z) : wallet_result (UtxoSelection T) :=
  let output_sum := sum_u64 (map bo_amount outputs) in
  output_scripts ← output_scripts_of outputs;
  change_script ← target_script change_target;
  select_from output_sum output_scripts change_target change_script fee_rate_sat_vb [] 0 utxos.

Definition set_amount (amount : Z) (o : BitcoinPreparedOutputV1) : BitcoinPreparedOutputV1 :=
  mkOutput (bo_address o) amount (bo_script_pubkey o).

(** [outputs] is updated in place: the new outputs are returned with the selection. *)
Definition select_max_utxos {T} (utxos : list LocatedUtxo) (outputs : list BitcoinPreparedOutputV1)
    (max_output_index : nat) (fee_rate_sat_vb : Z) : wallet_result (UtxoSelection T * list BitcoinPreparedOutputV1) :=
  max_output ← ok_or (outputs !! max_output_index) (invalid_input "max output index is out of range");
  if bool_decide (utxos = []) then Err insufficient_funds else
  output_scripts ← output_scripts_of outputs;
  selected_sum ← ok_or (checked_sum (map (fun u => bu_value (lu_utxo u)) utxos)) insufficient_funds;
  other_output_sum ← ok_or (checked_sum (map bo_amount (delete max_output_index outputs))) insufficient_funds;
  fee ← estimate_fee (length utxos) output_scripts None fee_rate_sat_vb;
  max_amount ← ok_or (u64_checked_sub selected_sum (u64_saturating_add other_output_sum fee)) insufficient_funds;
  script ← script_from_hex (bo_script_pubkey max_output);
  if max_amount <? minimal_non_dust script then Err insufficient_funds else
  selected ← collect_results prepared_utxo utxos;
  Ok (mkSelection selected fee None None false, <[max_output_index := set_amount max_amount max_output]> outputs).
End Selection.

(** ** The block explorer *)

Record BitcoinAddressStats := mkStats { st_funded_txo_sum : Z; st_spent_txo_sum : Z; st_tx_count : Z }.
Record BitcoinAddressStatus := mkStatus { as_chain_stats : BitcoinAddressStats; as_mempool_stats : BitcoinAddressStats }.

Definition is_used (s : BitcoinAddressStatus) : bool :=
  (0 <? st_tx_count (as_chain_stats s)) || (0 <? st_tx_count (as_mempool_stats s))
  || (0 <? st_funded_txo_sum (as_chain_stats s)) || (0 <? st_funded_txo_sum (as_mempool_stats s)).

Definition confirmed_balance (s : BitcoinAddressStatus) : Z :=
  u64_saturating_sub (st_funded_txo_sum (as_chain_stats s)) (st_spent_txo_sum (as_chain_stats s)).
Definition pending_in (s : BitcoinAddressStatus) : Z := st_funded_txo_sum (as_mempool_stats s).
Definition pending_out (s : BitcoinAddressStatus) : Z := st_spent_txo_sum (as_mempool_stats s).

(** The trait, its errors already mapped by [provider_error]. *)
Class BitcoinProvider := {
  address_status : string -> wallet_result BitcoinAddressStatus;
  address_utxos : string -> wallet_result (list BitcoinUtxo);
}.

Record DerivedAddress := mkDerived {
  da_address : string; da_public_key : string; da_derivation_path : string; da_script_pubkey : string;
}.

Record AllocatedAddressV1 := mkAllocated {
  aa_account_id : string; aa_purpose : string; aa_index : Z; aa_address : string; aa_public_key : string;
  aa_derivation_path : string; aa_created_at : Z; aa_last_observed_at : option Z;
}.

Section Scan.
Context `{BitcoinLib}.

Definition parse_mainnet_address (address : string) : wallet_result (string * list byte) :=
  ok_or (mainnet_address address) (mkWalletError InvalidAddress "invalid Bitcoin address").

(** [seen] are the addresses met so far. *)
Fixpoint dedupe_from (seen : gset string) (addresses : list AllocatedAddressV1) : list ScanAddress :=
  match addresses with
  | [] => []
  | a :: addresses' =>
      if bool_decide (aa_address a ∈ seen) then dedupe_from seen addresses' else
      let rest := dedupe_from ({[aa_address a]} ∪ seen) addresses' in
      match parse_mainnet_address (aa_address a) with
      | Ok (_, script) =>
          mkScan (aa_account_id a) (aa_purpose a) (aa_index a) (aa_address a) (aa_public_key a)
            (aa_derivation_path a) (hex_string script) :: rest
      | Err _ => rest
      end
  end.

Definition dedupe_addresses (addresses : list AllocatedAddressV1) : list ScanAddress := dedupe_from ∅ addresses.

Context `{BitcoinProvider}.

(** [by_address]: collecting into a [HashMap] keeps the last owner of an address. *)
Definition owners (addresses : list ScanAddress) : gmap string ScanAddress :=
  foldl (fun m a => <[sa_address a := a]> m) ∅ addresses.

Definition located_at (a : ScanAddress) (u : BitcoinUtxo) : BitcoinUtxo :=
  mkUtxo (bu_txid u) (bu_vout u) (bu_value u) (sa_address a) (sa_script_pubkey a) (bu_confirmed u)
    (bu_confirmations u) (bu_block_height u).

Definition locate (by_address : gmap string ScanAddress) (a : ScanAddress) (us : list BitcoinUtxo) : list LocatedUtxo :=
  omap (fun u => let u := located_at a u in mkLocated u <$> by_address !! bu_address u) us.

Fixpoint collect_from (by_address : gmap string ScanAddress) (addresses : list ScanAddress)
    : wallet_result (list LocatedUtxo) :=
  match addresses with
  | [] => Ok []
  | a :: addresses' =>
      us ← address_utxos (sa_address a);
      rest ← collect_from by_address addresses';
      Ok (locate by_address a us ++ rest)
  end.

(** Larger coins first, then by outpoint: [a] does not compare greater than [b]. *)
Definition coin_le (a b : LocatedUtxo) : bool :=
  let x := lu_utxo a in let y := lu_utxo b in
  (bu_value y <? bu_value x)
  || (bu_value y =? bu_value x)
     && (String.ltb (bu_txid x) (bu_txid y) || String.eqb (bu_txid x) (bu_txid y) && (bu_vout x <=? bu_vout y)).

Definition collect_utxos (addresses : list ScanAddress) : wallet_result (list LocatedUtxo) :=
  out ← collect_from (owners addresses) addresses;
  Ok (stable_sort coin_le out).

(** [spendable] in [prepare]: confirmed and not locked by a live preparation. *)
Definition spendable_utxos (locked : gset string) (all_utxos : list LocatedUtxo) : list LocatedUtxo :=
  List.filter (fun u => bu_confirmed (lu_utxo u) && negb (bool_decide (outpoint_key (lu_utxo u) ∈ locked))) all_utxos.

Fixpoint balance_from (confirmed pend_in pend_out : Z) (addresses : list ScanAddress) : wallet_result (Z * Z * Z) :=
  match addresses with
  | [] => Ok (confirmed, pend_in, pend_out)
  | a :: addresses' =>
      status ← address_status (sa_address a);
      balance_from (u64_saturating_add confirmed (confirmed_balance status))
        (u64_saturating_add pend_in (pending_in status)) (u64_saturating_add pend_out (pending_out status)) addresses'
  end.

Record WalletBalance := mkBalance {
  wb_spendable : string; wb_pending_in : string; wb_pending_out : string; wb_total : string; wb_amount_unit : string;
}.

Definition balance_for_addresses (addresses : list ScanAddress) : wallet_result WalletBalance :=
  sums ← balance_from 0 0 0 addresses;
  let '(confirmed, pend_in, pend_out) := (sums : Z * Z * Z) in
  Ok (mkBalance (show_u64 confirmed) (show_u64 pend_in) (show_u64 pend_out)
        (show_u64 (u64_saturating_sub (u64_saturating_add confirmed pend_in) pend_out)) "satoshi").

Definition still_spendable (utxo : BitcoinPreparedUtxoV1) (current : option BitcoinUtxo) : bool :=
  match current with
  | Some c => bu_confirmed c && (bu_value c =? pu_value utxo)
  | None => false
  end.

Fixpoint revalidate_selected_utxos (selected : list BitcoinPreparedUtxoV1) : wallet_result unit :=
  match selected with
  | [] => Ok tt
  | utxo :: selected' =>
      us ← address_utxos (pu_address utxo);
      let current := List.find (fun c => String.eqb (bu_txid c) (pu_txid utxo) && (bu_vout c =? pu_vout utxo)) us in
      if still_spendable utxo current then revalidate_selected_utxos selected'
      else Err (preparation_stale "Bitcoin selected UTXO is no longer spendable")
  end.
End Scan.

(** ** The transaction to sign *)

Inductive WalletFeeTier := FeeSlow | FeeStandard | FeeFast.

Record BitcoinPreparedPayloadV1 := mkPayload {
  bp_kind : string; bp_account_id : string; bp_account_model : string;
  bp_outputs : list BitcoinPreparedOutputV1; bp_selected_utxos : list BitcoinPreparedUtxoV1;
  bp_change : option BitcoinPreparedChangeV1; bp_fee : Z; bp_fee_rate_sat_vb : Z; bp_fee_tier : WalletFeeTier;
  bp_dust_threshold : Z; bp_warning_codes : list string;
}.

Definition unsigned_transaction `{BitcoinLib} (prepared : BitcoinPreparedPayloadV1) : wallet_result Transaction :=
  outputs ← collect_results (fun o => s ← script_from_hex (bo_script_pubkey o); Ok (mkTxOut (bo_amount o) s))
              (bp_outputs prepared);
  outputs ← (match bp_change prepared with
             | Some change => s ← script_from_hex (bc_script_pubkey change);
                              Ok (outputs ++ [mkTxOut (bc_amount change) s])
             | None => Ok outputs
             end : wallet_result (list TxOut));
  input ← collect_results (fun u =>
            txid ← ok_or (txid_from_str (pu_txid u)) (preparation_stale "Bitcoin UTXO txid invalid");
            Ok (mkTxIn (mkOutPoint txid (pu_vout u)) [] SEQUENCE_MAX [])) (bp_selected_utxos prepared);
  Ok (mkTx 2 0 input outputs).

(** ** Discovery *)

Record ChainDiscovery := mkDiscovery {
  cd_addresses : list AllocatedAddressV1; cd_last_used : option DerivedAddress; cd_next_index : Z;
}.

Definition u32_saturating_add (x y : Z) : Z := Z.min (x + y) U32_MAX.

Section Discovery.
Context `{BitcoinProvider}.
(** [derive_address_from_account_xpub] for one account and chain, by index. *)
Context (derive : Z -> wallet_result DerivedAddress) (account_id purpose : string) (now : Z).

Definition allocated (index : Z) (d : DerivedAddress) : AllocatedAddressV1 :=
  mkAllocated account_id purpose index (da_address d) (da_public_key d) (da_derivation_path d) now (Some now).

(** The [while] loop; [None] when the fuel runs out. *)
Fixpoint discover_loop (fuel : nat) (addresses : list AllocatedAddressV1) (last_used : option DerivedAddress)
    (unused_run index : Z) : option (wallet_result (list AllocatedAddressV1 * option DerivedAddress)) :=
  if unused_run <? BITCOIN_ADDRESS_GAP then
    match fuel with
    | O => None
    | S fuel' =>
        match derive index with
        | Err e => Some (Err e)
        | Ok derived =>
            match address_status (da_address derived) with
            | Err e => Some (Err e)
            | Ok status =>
                if is_used status
                then discover_loop fuel' (addresses ++ [allocated index derived]) (Some derived) 0
                       (u32_saturating_add index 1)
                else discover_loop fuel' addresses last_used (u32_wrap (unused_run + 1)) (u32_saturating_add index 1)
            end
        end
    end
  else Some (Ok (addresses, last_used)).

Definition max_next_index (addresses : list AllocatedAddressV1) : Z :=
  foldl Z.max 0 (map (fun a => u32_saturating_add (aa_index a) 1) addresses).

Definition discover_chain (fuel : nat) : option (wallet_result ChainDiscovery) :=
  found ← discover_loop fuel [] None 0 0;
  Some (pair ← found; Ok (mkDiscovery pair.1 pair.2 (max_next_index pair.1))).
End Discovery.

(** ** Lemmas: sums *)

Definition total (l : list Z) : Z := foldr Z.add 0 l.
Definition coin_values (l : list LocatedUtxo) : list Z := map (fun u => bu_value (lu_utxo u)) l.

Lemma total_app l l' : total (l ++ l') = total l + total l'.
Proof. unfold total. induction l as [|x l IH]; cbn; [done|]. rewrite IH. lia. Qed.

Lemma sum_nonneg l : Forall (Z.le 0) l -> 0 <= total l.
Proof. unfold total. induction 1; cbn; lia. Qed.

Lemma coin_values_app l l' : coin_values (l ++ l') = coin_values l ++ coin_values l'.
Proof. apply map_app. Qed.

(** [sum::<u64>()] is the sum as long as that fits. *)
Lemma sum_u64_total l : Forall (Z.le 0) l -> total l <= U64_MAX -> sum_u64 l = total l.
Proof.
  unfold sum_u64. enough (forall a, 0 <= a -> Forall (Z.le 0) l -> a + total l <= U64_MAX ->
    foldl u64_add a l = a + total l) as Hg by (intros; rewrite Hg; [done|lia..|done|lia]).
  induction l as [|x l IH]; intros a Ha Hl Hm; cbn in *; [lia|]. fold (total l) in *. inversion Hl as [|? ? Hx Hl']; subst.
  pose proof (sum_nonneg l Hl'). rewrite u64_add_small by (unfold is_u64; lia).
  rewrite IH by (done || lia). lia.
Qed.

Lemma checked_sum_None l : foldl (fun acc x => sum ← acc; u64_checked_add sum x) None l = None.
Proof. by induction l. Qed.

Lemma checked_sum_Some l s : checked_sum l = Some s -> s = total l /\ (l <> [] -> s <= U64_MAX).
Proof.
  unfold checked_sum. enough (forall a, foldl (fun acc x => sum ← acc; u64_checked_add sum x) (Some a) l = Some s ->
    s = a + total l /\ (l <> [] -> s <= U64_MAX)) as Hg by apply Hg.
  induction l as [|x l IH]; intros a; cbn; [intros [= <-]; split; [lia|done]|].
  unfold u64_checked_add at 2. destruct (a + x <=? U64_MAX) eqn:E; cbn; [|by rewrite checked_sum_None].
  intros Hs. destruct (IH _ Hs) as [-> Hm]. fold (total l). split; [lia|]. intros _.
  destruct l; [cbn; lia|]. rewrite <- Z.add_assoc in Hm |- *. by apply Hm.
Qed.

Lemma collect_results_Ok {A B} (f : A -> wallet_result B) l ys :
  collect_results f l = Ok ys -> Forall2 (fun x y => f x = Ok y) l ys.
Proof.
  revert ys. induction l as [|x l IH]; intros ys; cbn; [intros [= <-]; constructor|].
  destruct (f x) eqn:E; [|done]. cbn. destruct (collect_results f l); [|done]. cbn. intros [= <-].
  constructor; [done|by apply IH].
Qed.

Lemma collect_results_map {A B C} (f : A -> wallet_result B) (g : B -> C) (h : A -> C) l ys :
  (forall x y, f x = Ok y -> g y = h x) -> collect_results f l = Ok ys -> map g ys = map h l.
Proof.
  intros Hgh Hf%collect_results_Ok. induction Hf as [|x y l ys Hy _ IH]; [done|]. cbn. by rewrite (Hgh x y), IH.
Qed.

Lemma prepared_values l ys :
  collect_results prepared_utxo l = Ok ys -> map pu_value ys = coin_values l.
Proof.
  apply (collect_results_map prepared_utxo). by intros u y [= <-].
Qed.

(** ** What a selection is *)

Ltac sel_cbn := cbn [us_selected us_fee us_change us_change_materialization from_option bc_amount set_change_amount].

Section SelectProof.
Context `{BitcoinLib} {T : Type}.
Context (output_sum : Z) (scripts : list (list byte)) (target : option (BitcoinChangeTarget T))
        (change_script : option (list byte)) (rate : Z).
Context (Hrate : 0 <= rate).

(** The fee [estimate_fee] gives. *)
Definition fee_of (n : nat) (change : option (list byte)) : Z :=
  Z.max (u64_saturating_mul (vsize (estimate_tx n scripts change)) rate) rate.

Lemma estimate_fee_of n change : estimate_fee n scripts change rate = Ok (fee_of n change).
Proof. done. Qed.

Lemma fee_of_nonneg n change : 0 <= fee_of n change.
Proof. unfold fee_of. lia. Qed.

(** [sel] spends the coins [coins]: they pay the outputs, the fee and the change exactly; the
    change is not dust and goes to the target; without change the fee is less than the dust
    threshold above what the size asks for. *)
Record selection_of (coins : list LocatedUtxo) (sel : UtxoSelection T) : Prop := {
  so_selected : collect_results prepared_utxo coins = Ok (us_selected sel);
  so_balance : total (coin_values coins) = output_sum + us_fee sel + from_option bc_amount 0 (us_change sel);
  so_fee : fee_of (length coins) (match us_change sel with Some _ => change_script | None => None end) <= us_fee sel;
  so_change c : us_change sel = Some c -> exists t, target = Some t /\ c = set_change_amount (bc_amount c) (ct_change t)
    /\ BITCOIN_DUST_THRESHOLD_SATS <= bc_amount c /\ us_change_materialization sel = ct_materialization t
    /\ us_fee sel = fee_of (length coins) change_script;
  so_no_change : us_change sel = None -> us_change_materialization sel = None
    /\ forall t script, target = Some t -> change_script = Some script ->
       us_fee sel < Z.max (fee_of (length coins) None) (fee_of (length coins) (Some script)) + BITCOIN_DUST_THRESHOLD_SATS;
}.

(** The coins cannot pay the outputs and the fee, or what is left over is worth a change output
    they cannot pay. *)
Definition falls_short (coins : list LocatedUtxo) : Prop :=
  total (coin_values coins) < output_sum + fee_of (length coins) None
  \/ exists t script, target = Some t /\ change_script = Some script
     /\ output_sum + fee_of (length coins) None + BITCOIN_DUST_THRESHOLD_SATS <= total (coin_values coins)
     /\ total (coin_values coins) < output_sum + fee_of (length coins) (Some script).

Lemma saturating_le a b s : s < U64_MAX -> (u64_saturating_add a b <=? s) = (a + b <=? s).
Proof. unfold u64_saturating_add. lia. Qed.

Lemma settle_change_spec coins :
  let sum := total (coin_values coins) in
  let n := length coins in
  sum < U64_MAX -> output_sum + fee_of n None <= sum ->
  match settle_change output_sum scripts target change_script rate n sum (sum - (output_sum + fee_of n None)) with
  | Ok None => falls_short coins
  | Ok (Some (fee, change, mat, dust)) =>
      forall selected, collect_results prepared_utxo coins = Ok selected ->
      selection_of coins (mkSelection selected fee change mat dust)
  | Err _ => False
  end.
Proof.
  cbn zeta. remember (total (coin_values coins)) as sum eqn:Esum. remember (length coins) as n eqn:En.
  intros Hmax Hpay. pose proof (fee_of_nonneg n None) as Hf. unfold settle_change.
  assert (u64_saturating_sub sum output_sum = sum - output_sum) as Hsub by (unfold u64_saturating_sub; lia).
  destruct target as [t|] eqn:Et; [destruct change_script as [script|] eqn:Es|].
  - destruct (BITCOIN_DUST_THRESHOLD_SATS <=? _) eqn:Ed.
    + rewrite estimate_fee_of. cbn [mbind result_bind]. rewrite saturating_le by done.
      pose proof (fee_of_nonneg n (Some script)) as Hf'.
      destruct (output_sum + fee_of n (Some script) <=? sum) eqn:Ew.
      * replace (u64_saturating_sub _ (u64_saturating_add _ _)) with (sum - (output_sum + fee_of n (Some script)))
          by (unfold u64_saturating_sub, u64_saturating_add; lia).
        destruct (BITCOIN_DUST_THRESHOLD_SATS <=? sum - (output_sum + fee_of n (Some script))) eqn:Ec; intros selected Hsel.
        -- split; sel_cbn; rewrite <- ?Esum, <- ?En, ?Es, ?Et; [done|lia|lia| |done]. intros c [= <-]. exists t. split_and!; try done. sel_cbn. lia.
        -- rewrite Hsub. split; sel_cbn; rewrite <- ?Esum, <- ?En, ?Es, ?Et; [done|lia|lia|done|]. intros _. split; [done|].
           intros t' script' [= <-] [= <-]. lia.
      * right. exists t, script. rewrite <- ?Esum, <- ?En. split_and!; [done|done|lia|lia].
    + intros selected Hsel. rewrite Hsub. split; sel_cbn; rewrite <- ?Esum, <- ?En, ?Es, ?Et; [done|lia|lia|done|]. intros _. split; [done|].
      intros t' script' _ [= <-]. lia.
  - intros selected Hsel. rewrite Hsub. split; sel_cbn; rewrite <- ?Esum, <- ?En, ?Es, ?Et; [done|lia|lia|done|]. done.
  - intros selected Hsel. rewrite Hsub. split; sel_cbn; rewrite <- ?Esum, <- ?En, ?Es, ?Et; [done|lia|lia|done|]. done.
Qed.

Lemma collect_prepared l : exists ys, collect_results prepared_utxo l = Ok ys.
Proof.
  induction l as [|u l [ys IH]]; [by exists []|]. cbn. rewrite IH. cbn. by eexists.
Qed.

Lemma select_from_spec utxos pre :
  Forall (Z.le 0) (coin_values (pre ++ utxos)) -> total (coin_values (pre ++ utxos)) < U64_MAX ->
  match select_from output_sum scripts target change_script rate pre (total (coin_values pre)) utxos with
  | Ok sel => exists coins rest, pre ++ utxos = coins ++ rest /\ (length pre < length coins)%nat /\ selection_of coins sel
  | Err e => e = insufficient_funds
      /\ forall coins rest, pre ++ utxos = coins ++ rest -> (length pre < length coins)%nat -> falls_short coins
  end.
Proof.
  revert pre. induction utxos as [|u utxos IH]; intros pre Hpos Hmax; cbn [select_from].
  { split; [done|]. intros coins rest E Hl. apply (f_equal length) in E. rewrite !length_app in E. cbn in E. lia. }
  assert (pre ++ u :: utxos = (pre ++ [u]) ++ utxos) as Eapp by by rewrite <- app_assoc.
  set (coins := pre ++ [u]) in *. rewrite Eapp in *.
  assert (u64_saturating_add (total (coin_values pre)) (bu_value (lu_utxo u)) = total (coin_values coins)) as ->.
  { unfold u64_saturating_add, coins in *. rewrite !coin_values_app, !total_app in *. rewrite !Forall_app in Hpos.
    cbn in *. destruct Hpos as [_ Hr]. apply sum_nonneg in Hr. lia. }
  rewrite estimate_fee_of. cbn [mbind result_bind].
  assert (total (coin_values coins) < U64_MAX) as Hmc.
  { rewrite coin_values_app, total_app in Hmax. rewrite coin_values_app, Forall_app in Hpos.
    destruct Hpos as [_ Hr%sum_nonneg]. lia. }
  assert (length pre < length coins)%nat as Hlen by (unfold coins; rewrite length_app; cbn; lia).
  assert (falls_short coins ->
          match select_from output_sum scripts target change_script rate coins (total (coin_values coins)) utxos with
          | Ok sel => exists coins' rest, coins ++ utxos = coins' ++ rest /\ (length pre < length coins')%nat /\ selection_of coins' sel
          | Err e => e = insufficient_funds
              /\ forall coins' rest, coins ++ utxos = coins' ++ rest -> (length pre < length coins')%nat -> falls_short coins'
          end) as Hcont.
  { intros Hshort. specialize (IH coins Hpos Hmax). destruct (select_from _ _ _ _ _ _ _ _) as [sel|e].
    - destruct IH as (c & r & ? & ? & ?). exists c, r. split_and!; [done|lia|done].
    - destruct IH as [-> IH]. split; [done|]. intros c r E Hc.
      destruct (decide (length coins < length c)%nat) as [|Hn]; [by eapply IH|].
      assert (length c = length coins) as El by (unfold coins in *; rewrite length_app in *; cbn in *; lia).
      symmetry in El. apply app_inj_1 in E as [<- _]; done. }
  rewrite Z.ltb_antisym, saturating_le by done. destruct (_ <=? _) eqn:Epay; cbn [negb].
  - replace (u64_saturating_sub _ _) with (total (coin_values coins) - (output_sum + fee_of (length coins) None))
      by (unfold u64_saturating_sub, u64_saturating_add; lia).
    pose proof (settle_change_spec coins Hmc ltac:(lia)) as Hs.
    destruct (settle_change _ _ _ _ _ _ _ _) as [[[[[fee change] mat] dust]|]|e]; cbn [mbind result_bind]; [|by apply Hcont|done].
    destruct (collect_prepared coins) as [ys Hys]. rewrite Hys. cbn. exists coins, utxos. split_and!; [done|done|by apply Hs].
  - apply Hcont. left. lia.
Qed.
End SelectProof.

(** ** Theorems: selection *)

(** The hypotheses a block explorer's answers satisfy: amounts are unsigned, and all coins
    together are worth less than [u64::MAX] satoshi (all bitcoin are worth 2.1e15). *)
Record coins_fit (utxos : list LocatedUtxo) (outputs : list BitcoinPreparedOutputV1) (rate : Z) : Prop := {
  cf_coins : Forall (Z.le 0) (coin_values utxos);
  cf_total : total (coin_values utxos) < U64_MAX;
  cf_amounts : Forall (Z.le 0) (map bo_amount outputs);
  cf_rate : 0 <= rate;
}.

(** The coins [select_utxos] chooses are a non-empty prefix of the coins offered, and pay exactly
    the requested outputs (when their sum fits 64 bits), the fee and the change. The fee is at least what the size of the
    transaction asks for; a change output is never dust and goes to the change target; with a
    change target but without change, the fee is less than the dust threshold above what one
    of the two estimates asks for. *)
Theorem select_utxos_balanced `{BitcoinLib} {T} utxos outputs (target : option (BitcoinChangeTarget T)) rate sel :
  coins_fit utxos outputs rate -> total (map bo_amount outputs) <= U64_MAX ->
  select_utxos utxos outputs target rate = Ok sel ->
  exists scripts change_script n,
    output_scripts_of outputs = Ok scripts /\ target_script target = Ok change_script /\ (0 < n)%nat
    /\ selection_of (total (map bo_amount outputs)) scripts target change_script rate (take n utxos) sel.
Proof.
  intros [Hc Ht Ha Hr] Hm. unfold select_utxos. destruct (output_scripts_of outputs) as [scripts|] eqn:Es; [|done]. cbn.
  destruct (target_script target) as [cs|] eqn:Ec; [|done]. cbn. rewrite sum_u64_total by done. intros Hs.
  pose proof (select_from_spec (total (map bo_amount outputs)) scripts target cs rate Hr utxos [] Hc Ht)
    as Hsp. cbn in Hsp. rewrite Hs in Hsp. destruct Hsp as (coins & rest & -> & Hl & Hok).
  exists scripts, cs, (length coins). rewrite take_app_length. done.
Qed.

(** [select_utxos] reports insufficient funds only when every choice of the first coins falls
    short: the coins do not pay the outputs and the fee, or they leave at least the dust
    threshold but cannot pay the fee of the transaction with a change output. *)
Theorem select_utxos_refusal `{BitcoinLib} {T} utxos outputs (target : option (BitcoinChangeTarget T)) rate scripts change_script e :
  coins_fit utxos outputs rate -> total (map bo_amount outputs) <= U64_MAX ->
  output_scripts_of outputs = Ok scripts -> target_script target = Ok change_script ->
  select_utxos utxos outputs target rate = Err e ->
  e = insufficient_funds
  /\ forall n, (0 < n <= length utxos)%nat ->
     falls_short (total (map bo_amount outputs)) scripts target change_script rate (take n utxos).
Proof.
  intros [Hc Ht Ha Hr] Hm Es Ec. unfold select_utxos. rewrite Es. cbn. rewrite Ec. cbn. rewrite sum_u64_total by done.
  intros Hs. pose proof (select_from_spec (total (map bo_amount outputs)) scripts target change_script rate Hr utxos [] Hc Ht)
    as Hsp. cbn in Hsp. rewrite Hs in Hsp. destruct Hsp as [-> Hall]. split; [done|]. intros n Hn.
  apply (Hall _ (drop n utxos)); [by rewrite take_drop|]. rewrite length_take. lia.
Qed.

(** *** A maximal transfer *)

Lemma sum_delete_at l i x : l !! i = Some x -> total l = x + total (delete i l).
Proof.
  revert i. induction l as [|y l IH]; intros [|i] Hi; try done; [by injection Hi as ->|].
  change (y + total l = x + (y + total (delete i l))). rewrite (IH i Hi). lia.
Qed.

Lemma delete_insert_same {A} (l : list A) i x : delete i (<[i := x]> l) = delete i l.
Proof. revert i. induction l as [|y l IH]; intros [|i]; cbn; try done. by rewrite IH. Qed.

Lemma map_delete {A B} (f : A -> B) l i : map f (delete i l) = delete i (map f l).
Proof. revert i. induction l as [|y l IH]; intros [|i]; cbn; try done. by rewrite IH. Qed.

(** A maximal transfer spends all the coins: they pay exactly the outputs, with the chosen one
    raised to what is left, and the fee the size asks for; the raised output is not dust, the
    other outputs are untouched, and there is no change. *)
Theorem select_max_spends_all `{BitcoinLib} {T} utxos outputs i rate (sel : UtxoSelection T) outputs' :
  coins_fit utxos outputs rate ->
  select_max_utxos utxos outputs i rate = Ok (sel, outputs') ->
  exists o script scripts, outputs !! i = Some o /\ script_from_hex (bo_script_pubkey o) = Ok script
    /\ output_scripts_of outputs = Ok scripts
    /\ us_fee sel = fee_of scripts rate (length utxos) None /\ us_change sel = None
    /\ map pu_value (us_selected sel) = coin_values utxos
    /\ total (coin_values utxos) = total (map bo_amount outputs') + us_fee sel
    /\ exists amount, minimal_non_dust script <= amount /\ outputs' = <[i := set_amount amount o]> outputs.
Proof.
  intros [Hc Ht Ha Hr]. unfold select_max_utxos. intros H1.
  apply bind_Ok_inv in H1 as (o & Ho%ok_or_Ok_inv & H1). destruct (bool_decide _) eqn:Ene; [done|].
  apply bind_Ok_inv in H1 as (scripts & Es & H1). apply bind_Ok_inv in H1 as (sum & Hsum%ok_or_Ok_inv & H1).
  apply bind_Ok_inv in H1 as (other & Hother%ok_or_Ok_inv & H1). apply bind_Ok_inv in H1 as (fee & Hfee & H1).
  apply bind_Ok_inv in H1 as (amount & Hamount%ok_or_Ok_inv & H1). apply bind_Ok_inv in H1 as (script & Hs & H1).
  destruct (_ <? _) eqn:Edust; [done|]. apply bind_Ok_inv in H1 as (selected & Hsel & H1).
  injection H1 as <- <-. injection Hfee as <-. apply checked_sum_Some in Hsum as [-> _], Hother as [-> _].
  exists o, script, scripts. do 3 (split; [done|]). sel_cbn. split; [done|]. split; [done|]. split; [by apply prepared_values|].
  split; [|exists amount; split; [lia|done]].
  assert (map bo_amount (<[i:=set_amount amount o]> outputs) !! i = Some amount) as Hi.
  { rewrite list_lookup_fmap, list_lookup_insert_eq by (by eapply lookup_lt_Some). done. }
  rewrite (sum_delete_at _ _ _ Hi), <- map_delete, delete_insert_same.
  unfold u64_checked_sub in Hamount. destruct (_ <=? _) eqn:Ele in Hamount; [|done]. injection Hamount as <-.
  fold (fee_of scripts rate (length utxos) None) in *. unfold coin_values in *.
  unfold u64_saturating_add in *. lia.
Qed.

(** *** The transaction that is signed *)

(** An input that spends the coin, and an output that pays an amount to a script. *)
Definition spends `{BitcoinLib} (i : TxIn) (u : BitcoinPreparedUtxoV1) : Prop :=
  txid_from_str (pu_txid u) = Some (op_txid (ti_previous i)) /\ op_vout (ti_previous i) = pu_vout u.
Definition pays (o : TxOut) (amount : Z) (script : string) : Prop :=
  to_value o = amount /\ script_from_hex script = Ok (to_script_pubkey o).

Lemma unsigned_transaction_Ok `{BitcoinLib} p tx :
  unsigned_transaction p = Ok tx ->
  Forall2 spends (tx_input tx) (bp_selected_utxos p)
  /\ exists outs change, tx_output tx = outs ++ change
     /\ Forall2 (fun o b => pays o (bo_amount b) (bo_script_pubkey b)) outs (bp_outputs p)
     /\ match bp_change p with
        | Some c => exists o, change = [o] /\ pays o (bc_amount c) (bc_script_pubkey c)
        | None => change = []
        end.
Proof.
  unfold unsigned_transaction. intros Ht. apply bind_Ok_inv in Ht as (outs & Ho & Ht).
  apply bind_Ok_inv in Ht as (outs' & Hc & Ht). apply bind_Ok_inv in Ht as (ins & Hi & [= <-]). cbn [tx_output tx_input]. split.
  - apply collect_results_Ok in Hi. apply Forall2_flip. eapply Forall2_impl; [exact Hi|].
    intros u i (t & Ht%ok_or_Ok_inv & [= <-])%bind_Ok_inv. by split.
  - exists outs. apply collect_results_Ok in Ho.
    assert (Forall2 (fun o b => pays o (bo_amount b) (bo_script_pubkey b)) outs (bp_outputs p)) as Hp.
    { apply Forall2_flip. eapply Forall2_impl; [exact Ho|]. intros b o (sc & Hs & [= <-])%bind_Ok_inv. by split. }
    destruct (bp_change p) as [c|]; cbn in Hc.
    + apply bind_Ok_inv in Hc as (sc & Hs & [= <-]). eexists. split; [done|]. split; [done|]. eexists. split; [done|]. by split.
    + injection Hc as <-. exists []. split_and!; [by rewrite app_nil_r|done|done].
Qed.

Lemma pays_total outs bs :
  Forall2 (fun o b => pays o (bo_amount b) (bo_script_pubkey b)) outs bs -> total (map to_value outs) = total (map bo_amount bs).
Proof. induction 1 as [|o b outs bs [Hv _] _ IH]; [done|]. unfold total in *. cbn. lia. Qed.

(** C14: when the requested amounts add up to at most the largest [u64], the transaction to sign
    for a transfer spends the chosen coins and only them, each by its transaction id and
    output number; it pays the requested amounts to the requested scripts, in order, and then
    the change; and what goes in comes out: the values of the coins are the values of the
    outputs plus the fee shown to the user. *)
Theorem transfer_conserves_value `{BitcoinLib} {T} utxos (target : option (BitcoinChangeTarget T)) rate sel p tx :
  coins_fit utxos (bp_outputs p) rate -> total (map bo_amount (bp_outputs p)) <= U64_MAX ->
  select_utxos utxos (bp_outputs p) target rate = Ok sel ->
  bp_selected_utxos p = us_selected sel -> bp_change p = us_change sel -> bp_fee p = us_fee sel ->
  unsigned_transaction p = Ok tx ->
  let coins := take (length (tx_input tx)) utxos in
  Forall2 (fun i u => txid_from_str (bu_txid (lu_utxo u)) = Some (op_txid (ti_previous i))
                      /\ op_vout (ti_previous i) = bu_vout (lu_utxo u)) (tx_input tx) coins
  /\ (exists outs change, tx_output tx = outs ++ change
        /\ Forall2 (fun o b => pays o (bo_amount b) (bo_script_pubkey b)) outs (bp_outputs p)
        /\ match bp_change p with
           | Some c => exists o, change = [o] /\ pays o (bc_amount c) (bc_script_pubkey c)
           | None => change = []
           end)
  /\ total (coin_values coins) = total (map to_value (tx_output tx)) + bp_fee p.
Proof.
  intros [Hc Ht Ha Hr] Hm Hs Hsel Hch Hfee (Hin & outs & change & Eo & Hout & Hchange)%unsigned_transaction_Ok. unfold select_utxos in Hs.
  apply bind_Ok_inv in Hs as (scripts & _ & Hs). apply bind_Ok_inv in Hs as (cs & _ & Hs).
  rewrite sum_u64_total in Hs by done.
  pose proof (select_from_spec (total (map bo_amount (bp_outputs p))) scripts target cs rate Hr utxos [] Hc Ht) as Hsp.
  cbn in Hsp. rewrite Hs in Hsp. destruct Hsp as (coins & rest & -> & _ & [Hselected Hbal _ _ _]).
  cbn zeta. rewrite <- Hsel in Hselected. pose proof (collect_results_Ok _ _ _ Hselected) as Hprep.
  assert (length (tx_input tx) = length coins) as ->
    by (rewrite (Forall2_length _ _ _ Hin); symmetry; by apply (Forall2_length _ _ _ Hprep)).
  rewrite take_app_length. split_and!.
  - clear -Hin Hprep. revert Hprep. generalize coins as us. induction Hin as [|i u ins sel' [Hi Hv] _ IH]; intros us Hprep.
    { inversion Hprep. constructor. }
    inversion Hprep as [|x y us' sel'' Hy Hrest]; subst. injection Hy as <-. constructor; [by split|by apply IH].
  - by exists outs, change.
  - rewrite Hbal, Eo, map_app, total_app, (pays_total _ _ Hout), Hfee, <- Hch.
    destruct (bp_change p) as [c|]; [destruct Hchange as (o & -> & Hv & _)|rewrite Hchange]; cbn; lia.
Qed.

(** ** Discovery ends *)

Section DiscoveryProof.
Context `{BitcoinProvider}.
Context (derive : Z -> wallet_result DerivedAddress) (account_id purpose : string) (now : Z).

(** Address and status of an index, when both are known. *)
Definition looked_up (i : nat) : option (DerivedAddress * BitcoinAddressStatus) :=
  match derive (Z.of_nat i) with
  | Ok d => match address_status (da_address d) with Ok s => Some (d, s) | Err _ => None end
  | Err _ => None
  end.

Definition used (i : nat) : bool := from_option (fun ds => is_used ds.2) false (looked_up i).

(** The entries for the used addresses among [n] indices from [i]. *)
Definition found_from (i n : nat) : list AllocatedAddressV1 :=
  omap (fun j => if used j then (fun ds => allocated account_id purpose now (Z.of_nat j) ds.1) <$> looked_up j else None)
    (seq i n).

Context (limit : nat).
Context (answers : forall i, (i < limit + 20)%nat -> is_Some (looked_up i)).
Context (unused_above : forall i, (limit <= i)%nat -> used i = false).
Context (limit_u32 : Z.of_nat limit + 20 <= U32_MAX).

Lemma discover_loop_spec fuel addresses last_used run index :
  (run <= 20)%nat -> (run <= index)%nat -> (index - run <= limit)%nat -> (limit + 20 - index <= fuel)%nat ->
  (forall j, (index - run <= j < index)%nat -> used j = false) ->
  exists n last', (index + n <= limit + 20)%nat /\ (20 <= index + n)%nat
    /\ (forall j, (index + n - 20 <= j < index + n)%nat -> used j = false)
    /\ discover_loop derive account_id purpose now fuel addresses last_used (Z.of_nat run) (Z.of_nat index)
       = Some (Ok (addresses ++ found_from index n, last')).
Proof.
  revert addresses last_used run index. induction fuel as [|fuel IH]; intros addresses last run index Hr Hi Hl Hf Hu;
    (destruct (decide (run = 20)%nat) as [->|Hne];
     [exists 0%nat, last; split_and!; [lia|lia|intros j Hj; apply Hu; lia|cbn; by rewrite app_nil_r]|]); [lia|].
  cbn [discover_loop]. unfold BITCOIN_ADDRESS_GAP. replace (Z.of_nat run <? 20) with true by lia.
  destruct (answers index) as [[d st] Hds]; [lia|]. pose proof Hds as Hds'. unfold looked_up in Hds'.
  destruct (derive (Z.of_nat index)) as [d'|]; [|done]. destruct (address_status (da_address d')) as [st'|]; [|done].
  injection Hds' as -> ->.
  assert (u32_saturating_add (Z.of_nat index) 1 = Z.of_nat (S index)) as -> by (unfold u32_saturating_add; lia).
  assert (used index = is_used st) as Eu by (unfold used; by rewrite Hds).
  assert (forall n, found_from index (S n)
    = (if is_used st then [allocated account_id purpose now (Z.of_nat index) d] else []) ++ found_from (S index) n) as Ef.
  { intros n. unfold found_from. cbn [seq omap list_omap]. rewrite Eu, Hds. by destruct (is_used st). }
  destruct (is_used st) eqn:Est.
  - assert (index < limit)%nat as Hlt.
    { destruct (decide (limit <= index)%nat) as [Hle|]; [|lia]. by rewrite unused_above in Eu. }
    destruct (IH (addresses ++ [allocated account_id purpose now (Z.of_nat index) d]) (Some d) 0%nat (S index))
      as (n & last' & ? & ? & ? & E); [lia..|intros j Hj; lia|].
    exists (S n), last'. rewrite Ef, Nat.add_succ_r. change (Z.of_nat 0) with 0 in E. rewrite E, <- app_assoc. done.
  - assert (u32_wrap (Z.of_nat run + 1) = Z.of_nat (S run)) as ->.
    { unfold u32_wrap. rewrite Z.mod_small; lia. }
    destruct (IH addresses last (S run) (S index)) as (n & last' & ? & ? & ? & E); [lia..| |].
    { intros j Hj. destruct (decide (j = index)) as [->|]; [done|]. apply Hu. lia. }
    exists (S n), last'. rewrite Ef, Nat.add_succ_r, E. done.
Qed.
End DiscoveryProof.

Lemma foldl_max_bound a l : a <= foldl Z.max a l /\ Forall (fun x => x <= foldl Z.max a l) l.
Proof.
  revert a. induction l as [|x l IH]; intros a; cbn; [split; [lia|constructor]|].
  destruct (IH (Z.max a x)) as [Ha Hl]. split; [lia|]. constructor; [lia|done].
Qed.

Lemma foldl_max_attained a l : foldl Z.max a l = a \/ foldl Z.max a l ∈ l.
Proof.
  revert a. induction l as [|x l IH]; intros a; cbn; [by left|]. destruct (IH (Z.max a x)) as [E|E]; [|right; by right].
  destruct (Z.max_spec a x) as [[_ Em]|[_ Em]]; rewrite Em, E in *; [right; left|by left].
Qed.

(** C31: Discovery of a chain of addresses terminates once some index on no address is used (and
    the explorer answers): within [limit + 20] rounds it stops after twenty unused addresses in a row,
    it lists every used address before that point in order, and the next index is above all of them. *)
Theorem discover_chain_terminates `{BitcoinProvider} derive account_id purpose now limit :
  (forall i, (i < limit + 20)%nat -> is_Some (looked_up derive i)) ->
  (forall i, (limit <= i)%nat -> used derive i = false) ->
  Z.of_nat limit + 20 <= U32_MAX ->
  exists stop d, discover_chain derive account_id purpose now (limit + 20) = Some (Ok d)
    /\ (20 <= stop <= limit + 20)%nat
    /\ (forall i, (stop - 20 <= i < stop)%nat -> used derive i = false)
    /\ cd_addresses d = found_from derive account_id purpose now 0 stop
    /\ (forall i, (i < stop)%nat -> used derive i = true -> Z.of_nat i < cd_next_index d)
    /\ (cd_next_index d = 0 \/ exists i, (i < stop)%nat /\ used derive i = true /\ cd_next_index d = Z.of_nat i + 1).
Proof.
  intros Ha Hu Hl.
  destruct (discover_loop_spec derive account_id purpose now limit Ha Hu Hl (limit + 20) [] None 0 0)
    as (n & last' & Hn & Hn' & Hgap & E); [lia..|].
  change (Z.of_nat 0) with 0 in E. cbn [app Nat.add] in *.
  set (found := found_from derive account_id purpose now 0 n) in *.
  exists n, (mkDiscovery found last' (max_next_index found)). unfold discover_chain. rewrite E. cbn.
  assert (forall a, a ∈ found <-> exists i ds, (i < n)%nat /\ used derive i = true /\ looked_up derive i = Some ds
    /\ a = allocated account_id purpose now (Z.of_nat i) ds.1) as Hin.
  { intros a. unfold found, found_from. rewrite list_elem_of_omap. split.
    - intros (i & Hi%elem_of_seq & Hf). destruct (used derive i) eqn:Ei; [|done].
      destruct (looked_up derive i) as [ds|] eqn:Eds; [|done]. injection Hf as <-. exists i, ds. split_and!; [lia|done..].
    - intros (i & ds & Hi & Hus & Hds & ->). exists i. rewrite elem_of_seq, Hus, Hds. split; [lia|done]. }
  assert (forall i, (i < n)%nat -> u32_saturating_add (Z.of_nat i) 1 = Z.of_nat i + 1) as Hsat
    by (intros; unfold u32_saturating_add; lia).
  split; [done|]. split; [lia|]. split; [done|]. split; [done|]. unfold max_next_index. split.
  - intros i Hi Hus. destruct (Ha i) as [ds Hds]; [lia|].
    destruct (foldl_max_bound 0 (map (fun a => u32_saturating_add (aa_index a) 1) found)) as [_ Hf].
    rewrite Forall_forall in Hf. specialize (Hf (Z.of_nat i + 1)). rewrite <- (Hsat i Hi) in Hf at 1.
    enough (Z.of_nat i + 1 <= foldl Z.max 0 (map (fun a => u32_saturating_add (aa_index a) 1) found)) by lia.
    apply Hf, list_elem_of_fmap. exists (allocated account_id purpose now (Z.of_nat i) ds.1). split; [done|].
    apply Hin. eauto 10.
  - destruct (foldl_max_attained 0 (map (fun a => u32_saturating_add (aa_index a) 1) found)) as [->|Hf]; [by left|right].
    apply list_elem_of_fmap in Hf as (a & -> & (i & ds & Hi & Hus & _ & ->)%Hin). exists i. split_and!; [done|done|].
    cbn. by apply Hsat.
Qed.

(** ** A concrete wallet *)

(** Sizes of P2WPKH transactions: 11 virtual bytes, 68 per input, 31 per output. *)
#[local] Instance demo_bitcoin : BitcoinLib := {|
  vsize tx := 11 + 68 * Z.of_nat (length (tx_input tx)) + 31 * Z.of_nat (length (tx_output tx));
  minimal_non_dust _ := 294;
  mainnet_address a := Some (a, []);
  txid_from_str t := Some (as_bytes t);
|}.

Definition demo_owner : ScanAddress := mkScan "acc" "receive" 0 "bc1-ours" "" "m/84'/0'/0'/0/0" "0014".
Definition demo_coin (vout value : Z) : LocatedUtxo :=
  mkLocated (mkUtxo "aa" vout value "bc1-ours" "0014" true 6 None) demo_owner.
Definition demo_output (amount : Z) : BitcoinPreparedOutputV1 := mkOutput "bc1-theirs" amount "0014".
Definition demo_target : BitcoinChangeTarget unit :=
  mkTarget (mkChange "bc1-change" 0 "0014" "acc" "change" 3 "m/84'/0'/0'/1/3" "") (Some tt).
Definition demo_coins : list LocatedUtxo := [demo_coin 0 6000; demo_coin 1 5000; demo_coin 2 100].

Lemma demo_coins_fit outputs rate :
  Forall (Z.le 0) (map bo_amount outputs) -> 0 <= rate -> coins_fit demo_coins outputs rate.
Proof. intros. split; [repeat constructor; cbn; lia|vm_compute; reflexivity|done|done]. Qed.

Definition demo_selection : UtxoSelection unit :=
  mkSelection (map (fun u => match prepared_utxo u with Ok p => p | Err _ => mkPreparedUtxo "" 0 0 "" "" "" "" 0 "" "" end)
                 (take 2 demo_coins))
    418 (Some (set_change_amount 3582 (ct_change demo_target))) (Some tt) false.

Lemma demo_select : select_utxos demo_coins [demo_output 7000] (Some demo_target) 2 = Ok demo_selection.
Proof. vm_compute. reflexivity. Qed.

Lemma select_utxos_balanced_witness :
  exists scripts change_script n,
    output_scripts_of [demo_output 7000] = Ok scripts /\ target_script (Some demo_target) = Ok change_script
    /\ (0 < n)%nat /\ selection_of 7000 scripts (Some demo_target) change_script 2 (take n demo_coins) demo_selection.
Proof.
  apply (select_utxos_balanced demo_coins [demo_output 7000] (Some demo_target) 2 demo_selection);
    [apply demo_coins_fit; [repeat constructor; cbn; lia|lia]|vm_compute; discriminate|exact demo_select].
Defined.

Lemma select_utxos_refusal_witness :
  select_utxos demo_coins [demo_output 11000] (Some demo_target) 2 = Err insufficient_funds
  /\ forall n, (0 < n <= 3)%nat ->
     falls_short 11000 [[x00; x14]] (Some demo_target) (Some [x00; x14]) 2 (take n demo_coins).
Proof.
  split; [vm_compute; reflexivity|].
  refine (proj2 (select_utxos_refusal demo_coins [demo_output 11000] (Some demo_target) 2 [[x00; x14]] (Some [x00; x14])
                   insufficient_funds _ _ _ _ _));
    [apply demo_coins_fit; [repeat constructor; cbn; lia|lia]|vm_compute; discriminate|reflexivity..|vm_compute; reflexivity].
Defined.

Lemma select_max_spends_all_witness :
  exists outputs' (sel : UtxoSelection unit), select_max_utxos demo_coins [demo_output 1000; demo_output 0] 1 2 = Ok (sel, outputs')
    /\ total (coin_values demo_coins) = total (map bo_amount outputs') + us_fee sel.
Proof.
  destruct (select_max_utxos (T:=unit) demo_coins [demo_output 1000; demo_output 0] 1 2) as [[sel outputs']|] eqn:E;
    [|vm_compute in E; discriminate].
  exists outputs', sel. split; [reflexivity|].
  destruct (select_max_spends_all demo_coins [demo_output 1000; demo_output 0] 1 2 sel outputs') as
    (o & script & scripts & _ & _ & _ & _ & _ & _ & Hb & _); [apply demo_coins_fit; [repeat constructor; cbn; lia|lia]|exact E|].
  exact Hb.
Defined.

Definition demo_payload : BitcoinPreparedPayloadV1 :=
  mkPayload "bitcoin_prepared_payload_v1" "acc" "utxo" [demo_output 7000] (us_selected demo_selection)
    (us_change demo_selection) (us_fee demo_selection) 2 FeeStandard 294 [].

Lemma transfer_conserves_value_witness :
  exists tx, unsigned_transaction demo_payload = Ok tx
    /\ let coins := take (length (tx_input tx)) demo_coins in
       Forall2 (fun i u => txid_from_str (bu_txid (lu_utxo u)) = Some (op_txid (ti_previous i))
                           /\ op_vout (ti_previous i) = bu_vout (lu_utxo u)) (tx_input tx) coins
       /\ (exists outs change, tx_output tx = outs ++ change
             /\ Forall2 (fun o b => pays o (bo_amount b) (bo_script_pubkey b)) outs (bp_outputs demo_payload)
             /\ match bp_change demo_payload with
                | Some c => exists o, change = [o] /\ pays o (bc_amount c) (bc_script_pubkey c)
                | None => change = []
                end)
       /\ total (coin_values coins) = total (map to_value (tx_output tx)) + bp_fee demo_payload.
Proof.
  destruct (unsigned_transaction demo_payload) as [tx|] eqn:E; [|vm_compute in E; discriminate].
  exists tx. split; [reflexivity|].
  refine (transfer_conserves_value demo_coins (Some demo_target) 2 demo_selection demo_payload tx _ _ demo_select
            eq_refl eq_refl eq_refl E);
    [apply demo_coins_fit; [repeat constructor; cbn; lia|lia]|vm_compute; discriminate].
Defined.

(** An explorer that knows the addresses 0, 1 and 5 of a chain. *)
Definition demo_derive (i : Z) : wallet_result DerivedAddress :=
  Ok (mkDerived (show_u64 i) "" (String.append "m/84'/0'/0'/0/" (show_u64 i)) "").
#[local] Instance demo_explorer : BitcoinProvider := {|
  address_status a := Ok (mkStatus (mkStats 0 0 (if bool_decide (a ∈ ["0"; "1"; "5"]%string) then 1 else 0)) (mkStats 0 0 0));
  address_utxos a := Ok [];
|}.

Lemma show_nat_inj i j : show_u64 (Z.of_nat i) = show_u64 (Z.of_nat j) -> i = j.
Proof. unfold show_u64. intros E%(inj pretty). lia. Qed.

Lemma demo_unused i : (6 <= i)%nat -> used demo_derive i = false.
Proof.
  intros Hi. unfold used, looked_up, demo_derive. cbn. unfold is_used. cbn.
  rewrite bool_decide_false; [done|]. rewrite !elem_of_cons, elem_of_nil.
  intros [E|[E|[E|[]]]];
    [apply (show_nat_inj i 0) in E|apply (show_nat_inj i 1) in E|apply (show_nat_inj i 5) in E]; lia.
Qed.

Lemma discover_chain_terminates_witness :
  exists stop d, discover_chain demo_derive "acc" "receive" 7 (6 + 20) = Some (Ok d)
    /\ (20 <= stop <= 6 + 20)%nat
    /\ (forall i, (stop - 20 <= i < stop)%nat -> used demo_derive i = false)
    /\ cd_addresses d = found_from demo_derive "acc" "receive" 7 0 stop
    /\ (forall i, (i < stop)%nat -> used demo_derive i = true -> Z.of_nat i < cd_next_index d)
    /\ (cd_next_index d = 0 \/ exists i, (i < stop)%nat /\ used demo_derive i = true /\ cd_next_index d = Z.of_nat i + 1).
Proof.
  apply (discover_chain_terminates demo_derive "acc" "receive" 7 6); [|exact demo_unused|vm_compute; discriminate].
  intros i _. eexists. reflexivity.
Defined.

Example demo_discovery :
  option_map (fun r => match r with Ok d => (map aa_index (cd_addresses d), cd_next_index d) | Err _ => ([], -1) end)
    (discover_chain demo_derive "acc" "receive" 7 26) = Some ([0; 1; 5], 6).
Proof. vm_compute. reflexivity. Qed.

(** ** Where the code does not do what it means to *)

(** A transfer the coins can pay is refused: the single coin pays the output and the fee of a
    transaction without change, but what is left over is above the dust threshold and below the
    cost of a change output, so the coin is skipped and insufficient funds reported. *)
Theorem payable_transfer_refused :
  let coin := demo_coin 0 9600 in
  select_utxos [coin] [demo_output 7000] (Some demo_target) 20 = Err insufficient_funds
  /\ total (coin_values [coin]) = 7000 + fee_of [[x00; x14]] 20 1 None + 400
  /\ is_ok (select_utxos [coin] [demo_output 7000] (@None (BitcoinChangeTarget unit)) 20) = true.
Proof. split_and!; vm_compute; reflexivity. Qed.

(** The sum of the requested amounts wraps: two outputs of 2^63 satoshi and more together count as
    1000, so one small coin is taken to pay for them. *)
Theorem output_sum_wraps :
  let outputs := [demo_output (2 ^ 63); demo_output (2 ^ 63 + 1000)] in
  match select_utxos demo_coins outputs (Some demo_target) 1 with
  | Ok sel => total (map pu_value (us_selected sel)) = 6000 /\ 2 ^ 64 <= total (map bo_amount outputs)
  | Err _ => False
  end.
Proof. vm_compute. split; [reflexivity|discriminate]. Qed.
