(* ===== verification/PaymentCard.v ===== *)
(** * Payment cards

    crates/core/src/payment_card: the network of a card number, how it is printed, its check
    digit, and the default names of cards. [lower_char] (Unicode lower case of a character) is
    a parameter of reading a stored brand. Theorems: the check digit catches every wrong digit
    and every swap of neighbours but 0 and 9; the search for a free name ends with the first
    free one; normalized numbers stay as they are. *)

From Stdlib Require Import Ascii String.
From stdpp Require Import base strings list pretty.
From S2P Require Import Prelude.
From S2P Require Import Text.
Open Scope Z_scope.

Definition MIN_NUMBER_DIGITS : nat := 12.
Definition MAX_NUMBER_DIGITS : nat := 19.
Definition CODE_DIGITS : nat * nat := (3, 4)%nat.
Definition FOURS : list nat := [4; 4; 4; 4; 3]%nat.

Inductive CardNetwork := Visa | Mastercard | Mir | Amex | UnionPay | Jcb | Discover | DinersClub | Maestro.

#[export] Instance CardNetwork_eq_dec : EqDecision CardNetwork.
Proof. solve_decision. Defined.

Definition wire (n : CardNetwork) : string :=
  match n with
  | Visa => "visa" | Mastercard => "mastercard" | Mir => "mir" | Amex => "amex" | UnionPay => "unionpay"
  | Jcb => "jcb" | Discover => "discover" | DinersClub => "dinersclub" | Maestro => "maestro"
  end.

Definition display_name (n : CardNetwork) : string :=
  match n with
  | Visa => "Visa" | Mastercard => "Mastercard" | Mir => "Мир" | Amex => "American Express" | UnionPay => "UnionPay"
  | Jcb => "JCB" | Discover => "Discover" | DinersClub => "Diners Club" | Maestro => "Maestro"
  end.

(** [a..=b] contains [x]. *)
Definition within (a b x : Z) : bool := (a <=? x) && (x <=? b).
Definition within_nat (r : nat * nat) (x : nat) : bool := (r.1 <=? x)%nat && (x <=? r.2)%nat.

Definition names_network (key : string) : option CardNetwork :=
  if String.eqb key "visa" then Some Visa
  else if String.eqb key "mastercard" then Some Mastercard
  else if String.eqb key "mir" || String.eqb key "мир" then Some Mir
  else if String.eqb key "amex" || String.eqb key "americanexpress" then Some Amex
  else if String.eqb key "unionpay" || String.eqb key "chinaunionpay" || String.eqb key "cup" then Some UnionPay
  else if String.eqb key "jcb" then Some Jcb
  else if String.eqb key "discover" then Some Discover
  else if String.eqb key "dinersclub" || String.eqb key "diners" then Some DinersClub
  else if String.eqb key "maestro" then Some Maestro
  else None.

Definition from_wire (lower_char : Z -> list Z) (value : string) : option CardNetwork :=
  let kept := List.filter (fun c => negb (is_whitespace c) && negb (c =? 45) && negb (c =? 95)) (chars value) in
  names_network (of_chars (concat (map lower_char kept))).

(** ** Digits *)

(** [digits_of]: the ASCII digits among the characters, as their values. *)
Definition digits_of (value : string) : list Z :=
  map (fun c => c - 48) (List.filter is_ascii_digit (chars value)).

(** The digits as the [String] they are in the code. *)
Definition digits_string (ds : list Z) : string := of_chars (map (fun d => d + 48) ds).

Definition number_of (ds : list Z) : Z := foldl (fun acc d => acc * 10 + d) 0 ds.

(** [digits.get(..n).and_then(parse).unwrap_or(-1)]. *)
Definition prefix_number (ds : list Z) (n : nat) : Z :=
  if (n <=? length ds)%nat then number_of (take n ds) else -1.

Definition starts_digits (p ds : list Z) : bool := bool_decide (take (length p) ds = p).

Definition from_digits (ds : list Z) : option CardNetwork :=
  if (length ds <? 2)%nat then None else
  let two := prefix_number ds 2 in
  let three := prefix_number ds 3 in
  let four := prefix_number ds 4 in
  let long := (4 <=? length ds)%nat in
  if long && within 2200 2204 four then Some Mir
  else if long && within 2221 2720 four || within 51 55 two then Some Mastercard
  else if (two =? 34) || (two =? 37) then Some Amex
  else if starts_digits [4] ds then Some Visa
  else if long && within 3528 3589 four then Some Jcb
  else if starts_digits [6; 0; 1; 1] ds || starts_digits [6; 5] ds || within 644 649 three then Some Discover
  else if starts_digits [6; 2] ds then Some UnionPay
  else if within 300 305 three || (two =? 36) || (two =? 38) || (two =? 39) then Some DinersClub
  else if (two =? 50) || within 56 69 two then Some Maestro
  else None.

Definition detect (number : string) : option CardNetwork := from_digits (digits_of number).

Definition lengths (n : CardNetwork) : nat * nat :=
  match n with
  | Mastercard => (16, 16)
  | Amex => (15, 15)
  | Visa => (13, 19)
  | UnionPay | DinersClub => (14, 19)
  | Mir | Jcb | Discover => (16, 19)
  | Maestro => (MIN_NUMBER_DIGITS, MAX_NUMBER_DIGITS)
  end%nat.

Definition usual_length (n : CardNetwork) : option nat :=
  match n with
  | Amex => Some 15%nat
  | DinersClub => Some 14%nat
  | Visa | Mastercard | Mir | Jcb | Discover => Some 16%nat
  | UnionPay | Maestro => None
  end.

Definition groups (n : CardNetwork) : list nat :=
  match n with
  | Amex => [4; 6; 5]
  | DinersClub => [4; 6; 4; 5]
  | _ => FOURS
  end%nat.

Definition code_digits (n : CardNetwork) : nat := match n with Amex => 4 | _ => 3 end.

(** ** Formats *)

Record CardFormat := mkFormat {
  cf_network : option CardNetwork; cf_groups : list nat; cf_max_digits : nat; cf_printed_digits : nat;
  cf_code_digits : nat;
}.

(** The loop that cuts the groups to the longest number. *)
Fixpoint cut_groups (max covered : nat) (source : list nat) : list nat :=
  match source with
  | [] => []
  | size :: source' =>
      if (max <=? covered)%nat then []
      else let size := Nat.min size (max - covered) in size :: cut_groups max (covered + size) source'
  end.

Definition format_of (network : option CardNetwork) : CardFormat :=
  let max_digits := from_option (fun n => (lengths n).2) MAX_NUMBER_DIGITS network in
  let source := from_option groups FOURS network in
  mkFormat network (cut_groups max_digits 0 source) max_digits
    (default 16%nat (n ← network; usual_length n)) (from_option code_digits CODE_DIGITS.2 network).

(** ** The check digit *)

Definition luhn_digit (index : nat) (digit : Z) : Z :=
  if Nat.odd index then (let doubled := digit * 2 in if 9 <? doubled then doubled - 9 else doubled) else digit.

Definition luhn (ds : list Z) : bool :=
  let sum := foldl (fun acc x => u32_wrap (acc + x)) 0 (imap luhn_digit (rev ds)) in
  sum `mod` 10 =? 0.

Record NumberInspection := mkInspection {
  ni_format : CardFormat; ni_complete : bool; ni_valid_length : bool; ni_checksum_valid : bool; ni_storable : bool;
}.

Definition inspect (number : string) : NumberInspection :=
  let digits := digits_of number in
  let network := from_digits digits in
  let format := format_of network in
  let count := length digits in
  let checksum_valid := (MIN_NUMBER_DIGITS <=? count)%nat && luhn digits in
  let valid_length := within_nat (from_option lengths (MIN_NUMBER_DIGITS, MAX_NUMBER_DIGITS) network) count in
  let usual := n ← network; usual_length n in
  let complete := (cf_max_digits format <=? count)%nat || (bool_decide (usual = Some count) && checksum_valid) in
  mkInspection format complete valid_length checksum_valid (within_nat (MIN_NUMBER_DIGITS, MAX_NUMBER_DIGITS) count).

Definition normalize_number (value : string) : option string :=
  let digits := digits_of value in
  if within_nat (MIN_NUMBER_DIGITS, MAX_NUMBER_DIGITS) (length digits) then Some (digits_string digits) else None.

Definition normalize_code (value : string) : option string :=
  let digits := digits_of value in
  if within_nat CODE_DIGITS (length digits) then Some (digits_string digits) else None.

(** ** Names *)

Definition default_title (network : option CardNetwork) (last4 : string) : string :=
  match network with
  | Some n => String.append (display_name n) (String.append " •••• " last4)
  | None => String.append "•••• " last4
  end.

Fixpoint strip_prefix (p s : string) : option string :=
  match p, s with
  | EmptyString, _ => Some s
  | String a p', String b s' => if Ascii.eqb a b then strip_prefix p' s' else None
  | String _ _, EmptyString => None
  end.

(** [s.strip_suffix(c)]. *)
Fixpoint strip_suffix_char (c : ascii) (s : string) : option string :=
  match s with
  | EmptyString => None
  | String a EmptyString => if Ascii.eqb a c then Some EmptyString else None
  | String a s' => String a <$> strip_suffix_char c s'
  end.

Definition is_default_title (title : string) (network : option CardNetwork) (last4 : string) : bool :=
  match strip_prefix (default_title network last4) title with
  | None => false
  | Some rest =>
      string_is_empty rest
      || match rest ← strip_prefix " (" rest; strip_suffix_char ")"%char rest with
         | Some number => negb (string_is_empty number) && forallb is_ascii_digit (bytes_of number)
         | None => false
         end
  end.

Definition numbered_title (base : string) (number : Z) : string :=
  String.append base (String.append " (" (String.append (show_u64 number) ")")).

(** The search through [(2..)]; [None] when the fuel runs out. *)
Fixpoint find_title (fuel : nat) (base : string) (taken : string -> bool) (number : Z) : option string :=
  match fuel with
  | O => None
  | S fuel' =>
      let candidate := numbered_title base number in
      if negb (taken candidate) then Some candidate else find_title fuel' base taken (number + 1)
  end.

Definition unique_title (fuel : nat) (base : string) (taken : string -> bool) : option string :=
  if negb (taken base) then Some base else find_title fuel base taken 2.

(** ** The check digit catches errors *)

Definition is_digit (d : Z) : Prop := 0 <= d <= 9.

(** The weighted sum from position [k] on. *)
Fixpoint luhn_sum (k : nat) (l : list Z) : Z :=
  match l with
  | [] => 0
  | d :: l' => luhn_digit k d + luhn_sum (S k) l'
  end.

Lemma luhn_digit_range k d : is_digit d -> 0 <= luhn_digit k d <= 9.
Proof. unfold is_digit, luhn_digit. intros. destruct (Nat.odd k); [|lia]. cbn zeta. destruct (9 <? d * 2) eqn:E; lia. Qed.

Lemma luhn_sum_range k l : Forall is_digit l -> 0 <= luhn_sum k l <= 9 * Z.of_nat (length l).
Proof.
  intros Hl. revert k. induction Hl as [|d l Hd Hl IH]; intros k; cbn; [lia|].
  pose proof (luhn_digit_range k d Hd). specialize (IH (S k)). lia.
Qed.

Lemma luhn_sum_app k l l' : luhn_sum k (l ++ l') = luhn_sum k l + luhn_sum (k + length l) l'.
Proof.
  revert k. induction l as [|d l IH]; intros k; cbn; [by rewrite Nat.add_0_r|].
  rewrite IH, Nat.add_succ_r. cbn. lia.
Qed.

Lemma wrapped_sum l k a :
  Forall is_digit l -> 0 <= a -> a + 9 * Z.of_nat (length l) < 2 ^ 32 ->
  foldl (fun acc x => u32_wrap (acc + x)) a (imap (fun i => luhn_digit (k + i)) l) = a + luhn_sum k l.
Proof.
  intros Hl. revert k a. induction Hl as [|d l Hd Hl IH]; intros k a Ha Hm; cbn [imap foldl luhn_sum length] in *; [lia|].
  pose proof (luhn_digit_range k d Hd). rewrite Nat.add_0_r. unfold u32_wrap at 2. rewrite Z.mod_small by lia.
  rewrite (imap_ext _ (fun i => luhn_digit (S k + i))) by (intros; unfold compose; f_equal; lia).
  rewrite IH by lia. lia.
Qed.

(** Card numbers are short: the sum does not wrap. *)
Lemma luhn_spec ds :
  Forall is_digit ds -> (length ds <= MAX_NUMBER_DIGITS)%nat -> luhn ds = (luhn_sum 0 (rev ds) `mod` 10 =? 0).
Proof.
  intros Hd Hl. unfold luhn. rewrite (imap_ext _ (fun i => luhn_digit (0 + i))) by done.
  rewrite wrapped_sum; [done|by apply Forall_rev|lia|]. rewrite length_rev. unfold MAX_NUMBER_DIGITS in Hl. lia.
Qed.

Lemma luhn_digit_inj k d d' : is_digit d -> is_digit d' -> luhn_digit k d = luhn_digit k d' -> d = d'.
Proof.
  unfold is_digit, luhn_digit. intros. destruct (Nat.odd k); [|lia]. cbn zeta in *.
  destruct (9 <? d * 2) eqn:E, (9 <? d' * 2) eqn:E'; lia.
Qed.

(** The check digit catches every single wrong digit, and every swap of two neighbouring digits except
    that of 0 and 9: a card number that passes does not pass after such an error. *)
Theorem luhn_catches_errors l1 l2 a b :
  Forall is_digit (l1 ++ a :: l2) -> is_digit b -> a <> b ->
  (length (l1 ++ a :: l2) <= MAX_NUMBER_DIGITS)%nat -> luhn (l1 ++ a :: l2) = true ->
  luhn (l1 ++ b :: l2) = false
  /\ forall c l3, l2 = c :: l3 -> a <> c -> ~ (a = 0 /\ c = 9) -> ~ (a = 9 /\ c = 0) -> luhn (l1 ++ c :: a :: l3) = false.
Proof.
  intros Hd Hb Hab Hl. pose proof Hd as [Hd1 [Ha Hd2]%Forall_cons]%Forall_app. rewrite length_app in Hl. cbn in Hl.
  rewrite luhn_spec by (done || rewrite length_app; cbn; lia). rewrite rev_app_distr. cbn [rev]. rewrite <- app_assoc. cbn [app].
  rewrite luhn_sum_app. cbn [luhn_sum]. rewrite Z.eqb_eq. intros Hok. split.
  - rewrite luhn_spec; [|apply Forall_app; split; [done|]; repeat (constructor; [done|]); done|rewrite length_app; cbn; lia].
    rewrite rev_app_distr. cbn [rev]. rewrite <- app_assoc. cbn [app]. rewrite luhn_sum_app. cbn [luhn_sum].
    set (k := (0 + length (rev l2))%nat) in *. pose proof (luhn_digit_range k a Ha). pose proof (luhn_digit_range k b Hb).
    apply Z.eqb_neq. intros E. apply Hab, (luhn_digit_inj k); [done..|].
    Z.to_euclidean_division_equations; lia.
  - intros c l3 -> Hac H09 H90. apply Forall_cons in Hd2 as [Hc Hd3]. cbn in Hl.
    rewrite luhn_spec; [|apply Forall_app; split; [done|]; repeat (constructor; [done|]); done|rewrite length_app; cbn; lia].
    rewrite rev_app_distr. cbn [rev] in *. rewrite <- !app_assoc in *. cbn [app] in *.
    rewrite luhn_sum_app in *. cbn [luhn_sum] in *. rewrite length_app in Hok. cbn [length] in Hok.
    rewrite Nat.add_1_r in Hok. cbn [Nat.add] in *. set (k := length (rev l3)) in *. clearbody k.
    set (x := luhn_sum 0 (rev l3)) in *. set (y := luhn_sum (S (S k)) (rev l1)) in *. clearbody x y.
    apply Z.eqb_neq. intros E. unfold luhn_digit in Hok, E. rewrite !Nat.odd_succ, <- !Nat.negb_odd in Hok, E.
    unfold is_digit in *.
    destruct (Nat.odd k); cbn [negb] in *; cbn zeta in *;
      destruct (9 <? a * 2) eqn:E1, (9 <? c * 2) eqn:E2; Z.to_euclidean_division_equations; lia.
Qed.

(** ** Names *)

Lemma strip_prefix_app p s : strip_prefix p (String.append p s) = Some s.
Proof. induction p as [|a p IH]; cbn; [done|]. by rewrite Ascii.eqb_refl. Qed.

Lemma strip_suffix_char_app c s : strip_suffix_char c (String.append s (String c EmptyString)) = Some s.
Proof.
  induction s as [|a s IH]; cbn; [by rewrite Ascii.eqb_refl|]. rewrite IH. by destruct s.
Qed.

Lemma pretty_digits x s :
  forallb is_ascii_digit (bytes_of s) = true -> forallb is_ascii_digit (bytes_of (pretty_N_go x s)) = true.
Proof.
  revert s. induction (N.lt_wf_0 x) as [x _ IH]; intros s Hs. destruct (decide (0 < x)%N) as [Hx|Hx].
  - rewrite pretty_N_go_step by done. apply IH; [by apply N.div_lt|]. cbn. unfold bytes_of in Hs. rewrite Hs, andb_true_r.
    unfold pretty_N_char. by repeat case_match.
  - replace x with 0%N by lia. by rewrite pretty_N_go_0.
Qed.

Lemma pretty_go_nonempty x s : string_is_empty s = false -> string_is_empty (pretty_N_go x s) = false.
Proof.
  revert s. induction (N.lt_wf_0 x) as [x _ IH]; intros s Hs. destruct (decide (0 < x)%N) as [Hx|Hx].
  - rewrite pretty_N_go_step by done. by apply IH; [apply N.div_lt|].
  - replace x with 0%N by lia. by rewrite pretty_N_go_0.
Qed.

Lemma show_u64_digits x : string_is_empty (show_u64 x) = false /\ forallb is_ascii_digit (bytes_of (show_u64 x)) = true.
Proof.
  unfold show_u64, pretty, pretty_N. case_decide as E; [done|]. rewrite pretty_N_go_step by lia.
  split; [by apply pretty_go_nonempty|]. apply pretty_digits. cbn. rewrite andb_true_r. unfold pretty_N_char. by repeat case_match.
Qed.

Lemma numbered_title_inj base x y : 0 <= x -> 0 <= y -> numbered_title base x = numbered_title base y -> x = y.
Proof.
  unfold numbered_title. intros Hx Hy E%string_append_inj%string_append_inj.
  apply (f_equal (strip_suffix_char ")"%char)) in E. rewrite !strip_suffix_char_app in E. injection E as E.
  unfold show_u64 in E. apply (inj pretty) in E. lia.
Qed.

Lemma find_title_None fuel base taken number :
  find_title fuel base taken number = None ->
  forall m, number <= m < number + Z.of_nat fuel -> taken (numbered_title base m) = true.
Proof.
  revert number. induction fuel as [|fuel IH]; intros number; cbn [find_title]; [lia|].
  destruct (taken (numbered_title base number)) eqn:E; cbn; [|done]. intros H m Hm.
  destruct (decide (m = number)) as [->|]; [done|]. apply (IH (number + 1)); [done|lia].
Qed.

Lemma find_title_Some fuel base taken number t :
  find_title fuel base taken number = Some t ->
  exists m, number <= m /\ t = numbered_title base m /\ taken t = false
    /\ forall k, number <= k < m -> taken (numbered_title base k) = true.
Proof.
  revert number. induction fuel as [|fuel IH]; intros number; cbn [find_title]; [done|].
  destruct (taken (numbered_title base number)) eqn:E; cbn.
  - intros (m & Hm & -> & Ht & Hall)%IH. exists m. split_and!; [lia|done|done|]. intros k Hk.
    destruct (decide (k = number)) as [->|]; [done|]. apply Hall. lia.
  - intros [= <-]. exists number. split_and!; [lia|done|done|lia].
Qed.

(** As many candidates are taken as there are names: one more is free. *)
Lemma find_title_enough base taken names number :
  0 <= number -> (forall t, taken t = true -> t ∈ names) ->
  exists t, find_title (S (length names)) base taken number = Some t.
Proof.
  intros Hn Hfin. destruct (find_title (S (length names)) base taken number) as [t|] eqn:E; [by exists t|].
  pose proof (find_title_None _ _ _ _ E) as Hall.
  set (cands := map (fun i => numbered_title base (number + Z.of_nat i)) (seq 0 (S (length names)))).
  assert (NoDup cands) as Hnd.
  { apply NoDup_fmap_2_strong; [|apply NoDup_seq]. intros i j Hi Hj Eij. apply numbered_title_inj in Eij; lia. }
  assert (cands ⊆ names) as Hsub.
  { intros t (i & -> & Hi%elem_of_seq)%list_elem_of_fmap. apply Hfin, Hall. lia. }
  pose proof (submseteq_length _ _ (NoDup_submseteq _ _ Hnd Hsub)) as Hlen.
  unfold cands in Hlen. rewrite length_map, length_seq in Hlen. lia.
Qed.

(** The search for a free name ends whenever finitely many names are taken, after at most one candidate more
    than that, with the first name that is free: the name itself, or the least number from 2 on;
    and a numbered default title is recognised as one. *)
Theorem unique_title_terminates network last4 taken names :
  (forall t, taken t = true -> t ∈ names) ->
  let base := default_title network last4 in
  exists t, unique_title (S (length names)) base taken = Some t
    /\ taken t = false /\ is_default_title t network last4 = true
    /\ (t = base \/ exists m, 2 <= m /\ t = numbered_title base m /\ taken base = true
          /\ forall k, 2 <= k < m -> taken (numbered_title base k) = true).
Proof.
  intros Hfin base. unfold unique_title. destruct (taken base) eqn:Eb; cbn [negb].
  - destruct (find_title_enough base taken names 2 ltac:(lia) Hfin) as [t Ht]. exists t. split; [done|].
    apply find_title_Some in Ht as (m & Hm & -> & Hfree & Hall). split; [done|]. split; [|right; eauto 6].
    unfold is_default_title. fold base. unfold numbered_title. rewrite strip_prefix_app.
    destruct (show_u64_digits m) as [Hne Hdig].
    set (rest := String.append (show_u64 m) ")"). cbn [String.append string_is_empty orb].
    change (String " " (String "(" rest)) with (String.append " (" rest). rewrite strip_prefix_app. cbn [mbind option_bind].
    unfold rest. rewrite strip_suffix_char_app, Hne, Hdig. done.
  - exists base. split; [done|]. split; [done|]. split; [|by left]. unfold is_default_title. fold base.
    rewrite <- (string_append_nil_r base) at 2. by rewrite strip_prefix_app.
Qed.

(** ** Numbers and codes *)

Lemma digits_of_digits ds : Forall is_digit ds -> digits_of (digits_string ds) = ds.
Proof.
  intros Hd. unfold digits_of, digits_string. rewrite chars_of_chars.
  - induction Hd as [|d ds Hd _ IH]; [done|]. cbn [map List.filter]. unfold is_digit in Hd.
    assert (is_ascii_digit (d + 48) = true) as -> by (unfold is_ascii_digit; lia). cbn [map]. rewrite IH. f_equal. lia.
  - apply Forall_forall. intros c (d & -> & Hin)%list_elem_of_fmap. rewrite Forall_forall in Hd. specialize (Hd d Hin).
    unfold is_digit, is_char in *. lia.
Qed.

Lemma digits_of_are_digits v : Forall is_digit (digits_of v).
Proof.
  apply Forall_forall. intros d (c & -> & [_ Hc]%list_elem_of_In%filter_In)%list_elem_of_fmap.
  unfold is_ascii_digit, is_digit in *. lia.
Qed.

Lemma lengths_storable n c : within_nat (lengths n) c = true -> within_nat (MIN_NUMBER_DIGITS, MAX_NUMBER_DIGITS) c = true.
Proof.
  unfold within_nat, MIN_NUMBER_DIGITS, MAX_NUMBER_DIGITS.
  destruct n; cbn -[Nat.leb]; rewrite !andb_true_iff, !Nat.leb_le; unfold MIN_NUMBER_DIGITS, MAX_NUMBER_DIGITS; lia.
Qed.

Lemma valid_length_storable v : ni_valid_length (inspect v) = true -> ni_storable (inspect v) = true.
Proof. unfold inspect. cbn. destruct (from_digits (digits_of v)) as [n|]; [apply lengths_storable|done]. Qed.

(** What the vault stores of a card number is the number read again: storing it a second time
    changes nothing, and its network, checks and digits are those of the number typed. A number of a length its network issues
    is one the vault stores, and one that reads as complete and is not too long has a
    length its network issues. *)
Theorem stored_number_is_faithful v n :
  normalize_number v = Some n ->
  normalize_number n = Some n /\ digits_of n = digits_of v /\ inspect n = inspect v
  /\ (forall v', ni_valid_length (inspect v') = true -> ni_storable (inspect v') = true)
  /\ (ni_complete (inspect v) = true -> (length (digits_of v) <= cf_max_digits (ni_format (inspect v)))%nat ->
      ni_valid_length (inspect v) = true).
Proof.
  unfold normalize_number. destruct (within_nat _ _) eqn:Ew; [|done]. intros [= <-].
  pose proof (digits_of_digits _ (digits_of_are_digits v)) as Hd. rewrite Hd, Ew. split; [done|]. split; [done|].
  split; [unfold inspect; by rewrite Hd|]. split; [apply valid_length_storable|]. unfold inspect. cbn [ni_valid_length ni_storable ni_complete ni_format cf_max_digits].
  set (c := length (digits_of v)) in *. destruct (from_digits (digits_of v)) as [net|]; [|by intros _ _].
  cbn [from_option format_of cf_max_digits mbind option_bind]. intros Hc Hmax.
  apply orb_true_iff in Hc as [Hc%Nat.leb_le|[Hc%bool_decide_eq_true _]%andb_true_iff].
  - assert (c = (lengths net).2) as -> by (cbn in *; lia). unfold within_nat. rewrite Nat.leb_refl, andb_true_r.
    apply Nat.leb_le. destruct net; cbn; unfold MIN_NUMBER_DIGITS, MAX_NUMBER_DIGITS; lia.
  - unfold within_nat. destruct net; cbn in Hc |- *; try discriminate Hc; injection Hc as <-; reflexivity.
Qed.

(** The printed groups cover the longest number of a network exactly. *)
Lemma groups_cover network : list_sum (cf_groups (format_of network)) = cf_max_digits (format_of network).
Proof. by destruct network as [[]|]. Qed.

(** ** Concrete cards *)

Lemma luhn_catches_errors_witness :
  luhn ([4; 2; 4; 2; 4; 2; 4; 2; 4; 2; 4; 2; 4] ++ 2 :: [4; 2]) = true
  /\ luhn ([4; 2; 4; 2; 4; 2; 4; 2; 4; 2; 4; 2; 4] ++ 3 :: [4; 2]) = false
  /\ luhn ([4; 2; 4; 2; 4; 2; 4; 2; 4; 2; 4; 2; 4] ++ 4 :: 2 :: [2]) = false.
Proof.
  split; [reflexivity|].
  destruct (luhn_catches_errors [4; 2; 4; 2; 4; 2; 4; 2; 4; 2; 4; 2; 4] [4; 2] 2 3) as [H1 H2];
    [repeat (constructor; [unfold is_digit; lia|]); constructor|unfold is_digit; lia|lia|cbn; unfold MAX_NUMBER_DIGITS; lia|reflexivity|].
  split; [exact H1|]. apply (H2 4 [2]); [reflexivity|lia|lia|lia].
Defined.

Definition demo_taken (t : string) : bool := bool_decide (t ∈ ["Visa •••• 1111"; "Visa •••• 1111 (2)"]%string).

Lemma unique_title_terminates_witness :
  let base := default_title (Some Visa) "1111" in
  exists t, unique_title 3 base demo_taken = Some t
    /\ demo_taken t = false /\ is_default_title t (Some Visa) "1111" = true
    /\ (t = base \/ exists m, 2 <= m /\ t = numbered_title base m /\ demo_taken base = true
          /\ forall k, 2 <= k < m -> demo_taken (numbered_title base k) = true).
Proof.
  apply (unique_title_terminates (Some Visa) "1111" demo_taken ["Visa •••• 1111"; "Visa •••• 1111 (2)"]%string).
  intros t Ht. by apply bool_decide_eq_true in Ht.
Defined.

Lemma stored_number_is_faithful_witness :
  normalize_number "4242424242424242" = Some "4242424242424242"%string
  /\ inspect "4242424242424242" = inspect "4242 4242-4242 4242".
Proof.
  destruct (stored_number_is_faithful "4242 4242-4242 4242" "4242424242424242") as (H1 & _ & H3 & _);
    [vm_compute; reflexivity|]. split; [exact H1|exact H3].
Defined.

Example demo_inspection :
  let i := inspect "3782 822463 10005" in
  (cf_network (ni_format i), cf_groups (ni_format i), ni_complete i, ni_checksum_valid i) = (Some Amex, [4; 6; 5]%nat, true, true).
Proof. vm_compute. reflexivity. Qed.
