(* ===== verification/ChunkCache.v ===== *)
(** * The cache of decrypted chunks

    Models [crates/core/src/vault/decrypted_chunk_cache.rs]: a bounded cache of
    plaintext chunks, keyed by node, revision and chunk, with a generation counter
    that keeps readers that started before an invalidation from putting old
    plaintext back. The mutex makes every method one atomic step, so a method is a
    function on the state; counters saturate as in the code. [usize] is 64 bits. *)

From Stdlib Require Import Strings.Byte.
From stdpp Require Import base gmap list.
From S2P Require Import Prelude.
Open Scope Z_scope.

(** The limits of a build for Android and of any other build; the rest of the development is
    about the latter. *)
Definition default_max_bytes (android : bool) : Z := if android then 4 * 1024 * 1024 else 8 * 1024 * 1024.
Definition default_max_entries (android : bool) : Z := if android then 64 else 128.
Definition DEFAULT_MAX_BYTES : Z := default_max_bytes false.
Definition DEFAULT_MAX_ENTRIES : Z := default_max_entries false.

Record DecryptedChunkCacheKey := mkKey {
  key_node_id : Z;
  key_source_revision : Z;
  key_chunk_index : Z;
  key_chunk_size : Z;
}.

#[export] Instance key_eq_dec : EqDecision DecryptedChunkCacheKey.
Proof. solve_decision. Defined.

#[export] Instance key_countable : Countable DecryptedChunkCacheKey :=
  inj_countable' (fun k => (key_node_id k, key_source_revision k, key_chunk_index k, key_chunk_size k))
    (fun '(a, b, c, d) => mkKey a b c d) (fun k => match k with mkKey _ _ _ _ => eq_refl end).

Record CacheEntry := mkEntry { plaintext : list byte; last_access : Z }.

Definition len (p : list byte) : Z := Z.of_nat (length p).

Record CacheState := mkState {
  cs_entries : gmap DecryptedChunkCacheKey CacheEntry;
  cs_bytes : Z;
  cs_generation : Z;
  cs_access_counter : Z;
  cs_hits : Z;
  cs_misses : Z;
  cs_inserts : Z;
  cs_evictions : Z;
}.

Definition empty_state : CacheState := mkState ∅ 0 0 0 0 0 0 0.

(** [DecryptedChunkCache]: the limits are fixed, the state is behind the mutex. *)
Record DecryptedChunkCache := mkCache { max_bytes : Z; max_entries : Z; state : CacheState }.

Definition cache_new (max_bytes max_entries : Z) : DecryptedChunkCache :=
  mkCache max_bytes max_entries empty_state.
Definition new_default : DecryptedChunkCache := cache_new DEFAULT_MAX_BYTES DEFAULT_MAX_ENTRIES.

Definition generation (c : DecryptedChunkCache) : Z := cs_generation (state c).
Definition with_state (c : DecryptedChunkCache) (s : CacheState) : DecryptedChunkCache :=
  mkCache (max_bytes c) (max_entries c) s.

Definition entry_count (s : CacheState) : Z := Z.of_nat (size (cs_entries s)).

Definition cache_get (key : DecryptedChunkCacheKey) (c : DecryptedChunkCache)
    : option (list byte) * DecryptedChunkCache :=
  if (key_source_revision key =? 0) || (max_bytes c =? 0) || (max_entries c =? 0) then (None, c) else
  let s := state c in
  let access := u64_saturating_add (cs_access_counter s) 1 in
  match cs_entries s !! key with
  | None =>
      (None, with_state c (mkState (cs_entries s) (cs_bytes s) (cs_generation s) access (cs_hits s)
                             (u64_saturating_add (cs_misses s) 1) (cs_inserts s) (cs_evictions s)))
  | Some e =>
      (Some (plaintext e),
       with_state c (mkState (<[key := mkEntry (plaintext e) access]> (cs_entries s)) (cs_bytes s)
                       (cs_generation s) access (u64_saturating_add (cs_hits s) 1) (cs_misses s)
                       (cs_inserts s) (cs_evictions s)))
  end.

(** [iter().min_by_key(f)]: the first minimum in iteration order. *)
Fixpoint min_by_key {A} (f : A -> Z) (l : list A) : option A :=
  match l with
  | [] => None
  | x :: l' =>
      match min_by_key f l' with
      | None => Some x
      | Some y => if f x <=? f y then Some x else Some y
      end
  end.

Definition over_capacity (c : DecryptedChunkCache) (s : CacheState) : bool :=
  (max_bytes c <? cs_bytes s) || (max_entries c <? entry_count s).

(** One round of the loop of [evict_over_capacity]; [None] when there is no entry. *)
Definition evict_one (s : CacheState) : option CacheState :=
  match min_by_key (fun e => last_access (snd e)) (map_to_list (cs_entries s)) with
  | None => None
  | Some (key, e) =>
      Some (mkState (delete key (cs_entries s)) (u64_saturating_sub (cs_bytes s) (len (plaintext e)))
              (cs_generation s) (cs_access_counter s) (cs_hits s) (cs_misses s) (cs_inserts s)
              (u64_saturating_add (cs_evictions s) 1))
  end.

Fixpoint evict_loop (fuel : nat) (c : DecryptedChunkCache) (s : CacheState) : CacheState :=
  match fuel with
  | O => s
  | S fuel' =>
      if over_capacity c s
      then match evict_one s with
           | None => s
           | Some s' => evict_loop fuel' c s'
           end
      else s
  end.

(** [evict_over_capacity]: every round removes an entry, so as many rounds as there are
    entries are enough ([evict_loop_done]). *)
Definition evict_over_capacity (c : DecryptedChunkCache) (s : CacheState) : CacheState :=
  evict_loop (S (size (cs_entries s))) c s.

Definition insert_shared (gen : Z) (key : DecryptedChunkCacheKey) (p : list byte)
    (c : DecryptedChunkCache) : bool * DecryptedChunkCache :=
  if (key_source_revision key =? 0) || (max_bytes c =? 0) || (max_entries c =? 0)
     || (len p =? 0) || (max_bytes c <? len p)
  then (false, c) else
  let s := state c in
  if negb (cs_generation s =? gen) then (false, c) else
  let access := u64_saturating_add (cs_access_counter s) 1 in
  let bytes := match cs_entries s !! key with
               | Some previous => u64_saturating_sub (cs_bytes s) (len (plaintext previous))
               | None => cs_bytes s
               end in
  let s := mkState (<[key := mkEntry p access]> (delete key (cs_entries s)))
             (u64_saturating_add bytes (len p)) (cs_generation s) access (cs_hits s) (cs_misses s)
             (u64_saturating_add (cs_inserts s) 1) (cs_evictions s) in
  (true, with_state c (evict_over_capacity c s)).

Definition cache_insert (gen : Z) (key : DecryptedChunkCacheKey) (p : list byte)
    (c : DecryptedChunkCache) : DecryptedChunkCache := snd (insert_shared gen key p c).

(** [retain] with the byte count it collects. *)
Definition removed_bytes (id : Z) (m : gmap DecryptedChunkCacheKey CacheEntry) : Z :=
  foldl (fun acc e => if key_node_id (fst e) =? id
                      then u64_saturating_add acc (len (plaintext (snd e))) else acc)
    0 (map_to_list m).

Definition invalidate_node (id : Z) (c : DecryptedChunkCache) : DecryptedChunkCache :=
  let s := state c in
  with_state c
    (mkState (filter (fun e => key_node_id (fst e) <> id) (cs_entries s))
       (u64_saturating_sub (cs_bytes s) (removed_bytes id (cs_entries s)))
       (u64_saturating_add (cs_generation s) 1) (cs_access_counter s) (cs_hits s) (cs_misses s)
       (cs_inserts s) (cs_evictions s)).

Definition clear_entries_and_advance_generation (s : CacheState) : CacheState :=
  mkState ∅ 0 (u64_saturating_add (cs_generation s) 1) (cs_access_counter s) (cs_hits s) (cs_misses s)
    (cs_inserts s) (cs_evictions s).

Definition cache_clear (c : DecryptedChunkCache) : DecryptedChunkCache :=
  with_state c (clear_entries_and_advance_generation (state c)).

(** ** The bytes held *)

Abbreviation cached := (DecryptedChunkCacheKey * CacheEntry)%type.

Definition sum_len (l : list cached) : Z := foldr (fun e acc => len (plaintext (snd e)) + acc) 0 l.
Definition sum_node (id : Z) (l : list cached) : Z :=
  foldr (fun e acc => (if key_node_id (fst e) =? id then len (plaintext (snd e)) else 0) + acc) 0 l.

Definition total (m : gmap DecryptedChunkCacheKey CacheEntry) : Z := sum_len (map_to_list m).

Lemma len_nonneg p : 0 <= len p.
Proof. unfold len. lia. Qed.

Lemma sum_len_perm l l' : l ≡ₚ l' -> sum_len l = sum_len l'.
Proof. unfold sum_len, sum_node. induction 1; cbn in *; lia. Qed.

Lemma sum_node_perm id l l' : l ≡ₚ l' -> sum_node id l = sum_node id l'.
Proof. unfold sum_len, sum_node. induction 1; cbn in *; lia. Qed.

Lemma sum_len_nonneg l : 0 <= sum_len l.
Proof. unfold sum_len. induction l as [|e l IH]; cbn; [lia|]. pose proof (len_nonneg (plaintext (snd e))). lia. Qed.

Lemma total_nonneg m : 0 <= total m.
Proof. apply sum_len_nonneg. Qed.

Lemma total_insert m k e : m !! k = None -> total (<[k := e]> m) = len (plaintext e) + total m.
Proof. intros H. unfold total. by rewrite (sum_len_perm _ _ (map_to_list_insert m k e H)). Qed.

Lemma total_delete m k e : m !! k = Some e -> total m = len (plaintext e) + total (delete k m).
Proof. intros H. unfold total. by rewrite <- (sum_len_perm _ _ (map_to_list_delete m k e H)). Qed.

Lemma total_touch m k e a : m !! k = Some e -> total (<[k := mkEntry (plaintext e) a]> m) = total m.
Proof.
  intros H. rewrite <- insert_delete_eq, total_insert by apply lookup_delete_eq.
  by rewrite (total_delete m k e H).
Qed.

Lemma removed_bytes_eq id m : total m <= U64_MAX -> removed_bytes id m = sum_node id (map_to_list m).
Proof.
  unfold removed_bytes, total. intros Hle.
  assert (forall l acc, 0 <= acc -> acc + sum_len l <= U64_MAX ->
    foldl (fun acc e => if key_node_id (fst e) =? id
                        then u64_saturating_add acc (len (plaintext (snd e))) else acc) acc l
    = acc + sum_node id l) as H.
  { induction l as [|e l IH]; intros acc Hacc Hsum; cbn [foldl]; [cbn; lia|].
    change (sum_len (e :: l)) with (len (plaintext (snd e)) + sum_len l) in Hsum.
    change (sum_node id (e :: l)) with ((if key_node_id (fst e) =? id then len (plaintext (snd e)) else 0) + sum_node id l).
    pose proof (len_nonneg (plaintext (snd e))). pose proof (sum_len_nonneg l).
    destruct (key_node_id (fst e) =? id); rewrite IH; unfold u64_saturating_add; lia. }
  rewrite H; lia.
Qed.

Lemma total_filter id m :
  total (filter (fun e => key_node_id (fst e) <> id) m) = total m - sum_node id (map_to_list m).
Proof.
  induction m as [|k e m Hk IH] using map_ind; [by rewrite map_filter_empty|].
  rewrite total_insert by done.
  rewrite (sum_node_perm _ _ _ (map_to_list_insert m k e Hk)). cbn [sum_node foldr fst snd]. fold (sum_node id (map_to_list m)).
  destruct (Z.eqb_spec (key_node_id k) id) as [E|E].
  - rewrite map_filter_insert_False by (cbn; tauto). rewrite delete_id by done. lia.
  - rewrite map_filter_insert_True by done. rewrite total_insert; [lia|].
    apply map_lookup_filter_None. by left.
Qed.

(** ** The invariant *)

Record cache_inv (c : DecryptedChunkCache) : Prop := {
  ci_limits : 0 <= 2 * max_bytes c <= U64_MAX /\ 0 <= max_entries c <= U64_MAX;
  ci_bytes : cs_bytes (state c) = total (cs_entries (state c));
  ci_capacity : cs_bytes (state c) <= max_bytes c /\ entry_count (state c) <= max_entries c;
  ci_keys k e : cs_entries (state c) !! k = Some e ->
    key_source_revision k <> 0 /\ plaintext e <> [] /\ last_access e <= cs_access_counter (state c);
  ci_counter : 0 <= cs_access_counter (state c) <= U64_MAX;
  ci_generation : 0 <= cs_generation (state c) <= U64_MAX;
}.

Lemma min_by_key_Some {A} (f : A -> Z) l x :
  min_by_key f l = Some x -> x ∈ l /\ forall y, y ∈ l -> f x <= f y.
Proof.
  revert x. induction l as [|z l IH]; intros x; cbn; [done|].
  destruct (min_by_key f l) as [y|] eqn:E.
  - destruct (IH y eq_refl) as [Hy Hmin].
    destruct (Z.leb_spec (f z) (f y)); intros [= <-]; (split; [|intros w [->|Hw]%elem_of_cons]).
    + by left.
    + lia.
    + specialize (Hmin w Hw). lia.
    + by right.
    + lia.
    + by apply Hmin.
  - intros [= <-]. destruct l as [|y l]; [|cbn in E; by destruct (min_by_key f l) as [w|]; [destruct (f y <=? f w)|]].
    split; [by left|]. intros y [->|Hy]%elem_of_cons; [lia|by apply not_elem_of_nil in Hy].
Qed.

Lemma min_by_key_None {A} (f : A -> Z) l : min_by_key f l = None -> l = [].
Proof. destruct l as [|x l]; [done|]. cbn. destruct (min_by_key f l) as [y|]; [by destruct (f x <=? f y)|done]. Qed.

(** A round removes the least recently used entry. *)
Lemma evict_one_spec s s' :
  cs_bytes s = total (cs_entries s) -> evict_one s = Some s' ->
  exists k e, cs_entries s !! k = Some e
    /\ (forall k' e', cs_entries s !! k' = Some e' -> last_access e <= last_access e')
    /\ cs_entries s' = delete k (cs_entries s) /\ cs_bytes s' = total (cs_entries s')
    /\ cs_generation s' = cs_generation s /\ cs_access_counter s' = cs_access_counter s
    /\ S (size (cs_entries s')) = size (cs_entries s).
Proof.
  intros Hb. unfold evict_one. destruct (min_by_key _ _) as [[k e]|] eqn:E; [|done]. intros [= <-].
  apply min_by_key_Some in E as [Hin Hmin]. apply elem_of_map_to_list in Hin.
  exists k, e. split_and!; try done; cbn.
  - intros k' e' H. apply (Hmin (k', e')). by apply elem_of_map_to_list.
  - rewrite Hb, (total_delete _ k e Hin). unfold u64_saturating_sub. pose proof (total_nonneg (delete k (cs_entries s))). lia.
  - rewrite map_size_delete_Some by (by eexists). pose proof (map_size_ne_0_lookup_2 (cs_entries s) k ltac:(by eexists)). lia.
Qed.

Lemma over_capacity_false c s :
  over_capacity c s = false <-> cs_bytes s <= max_bytes c /\ entry_count s <= max_entries c.
Proof. unfold over_capacity. rewrite orb_false_iff, !Z.ltb_ge. tauto. Qed.

Lemma evict_one_None c s :
  0 <= max_bytes c -> 0 <= max_entries c -> cs_bytes s = total (cs_entries s) ->
  evict_one s = None -> over_capacity c s = false.
Proof.
  intros Hb He Ht. unfold evict_one. destruct (min_by_key _ _) as [[k e]|] eqn:E; [done|]. intros _.
  apply min_by_key_None, map_to_list_empty_iff in E. apply over_capacity_false. unfold entry_count.
  rewrite Ht, E. change (total ∅) with 0. rewrite map_size_empty. lia.
Qed.

(** The eviction loop terminates within its fuel, below both limits, having removed
    only entries used no later than those it kept. *)
Lemma evict_loop_done fuel c s :
  0 <= max_bytes c -> 0 <= max_entries c -> cs_bytes s = total (cs_entries s) ->
  (size (cs_entries s) < fuel)%nat ->
  let s' := evict_loop fuel c s in
  over_capacity c s' = false /\ cs_bytes s' = total (cs_entries s') /\ cs_entries s' ⊆ cs_entries s
  /\ cs_generation s' = cs_generation s /\ cs_access_counter s' = cs_access_counter s
  /\ (forall k e k' e', cs_entries s !! k = Some e -> cs_entries s' !! k = None ->
        cs_entries s' !! k' = Some e' -> last_access e <= last_access e').
Proof.
  intros Hb He. revert s. induction fuel as [|fuel IH]; intros s Ht Hf; [lia|]. cbn.
  destruct (over_capacity c s) eqn:Ho.
  2: { split_and!; try done. intros k e k' e' H1 H2. congruence. }
  destruct (evict_one s) as [s1|] eqn:E1; [|by rewrite (evict_one_None c s Hb He Ht E1) in Ho].
  destruct (evict_one_spec s s1 Ht E1) as (k0 & e0 & Hk0 & Hmin & Hent & Ht1 & Hg & Ha & Hsz).
  destruct (IH s1 Ht1 ltac:(lia)) as (H1 & H2 & H3 & H4 & H5 & H6). split_and!; try done; try congruence.
  - etransitivity; [exact H3|]. rewrite Hent. apply delete_subseteq.
  - intros k e k' e' Hk Hnone Hk'. destruct (decide (k = k0)) as [->|Hne].
    + assert (e = e0) as -> by congruence. apply (Hmin k').
      pose proof (lookup_weaken _ _ _ _ Hk' H3) as H. rewrite Hent in H. by apply lookup_delete_Some in H as [_ ?].
    + eapply (H6 k e k'); try done. by rewrite Hent, lookup_delete_ne.
Qed.

(** The most recently used entry survives when it fits on its own. *)
Lemma evict_loop_keeps fuel c s key e :
  cs_bytes s = total (cs_entries s) -> cs_entries s !! key = Some e ->
  len (plaintext e) <= max_bytes c -> 1 <= max_entries c ->
  (forall k' e', cs_entries s !! k' = Some e' -> k' <> key -> last_access e' < last_access e) ->
  cs_entries (evict_loop fuel c s) !! key = Some e.
Proof.
  intros Ht Hk Hlen Hme Hmax. revert s Ht Hk Hmax. induction fuel as [|fuel IH]; intros s Ht Hk Hmax; [done|]. cbn.
  destruct (over_capacity c s) eqn:Ho; [|done]. destruct (evict_one s) as [s1|] eqn:E1; [|done].
  destruct (evict_one_spec s s1 Ht E1) as (k0 & e0 & Hk0 & Hmin & Hent & Ht1 & _).
  destruct (decide (k0 = key)) as [->|Hne].
  - exfalso. assert (e0 = e) as -> by congruence.
    assert (cs_entries s = {[key := e]}) as Honly.
    { apply map_eq. intros k'. destruct (decide (k' = key)) as [->|Hne]; [by rewrite lookup_singleton_eq|].
      rewrite lookup_singleton_ne by done. destruct (cs_entries s !! k') as [e'|] eqn:E'; [|done].
      specialize (Hmin k' e' E'). specialize (Hmax k' e' E' Hne). lia. }
    assert (over_capacity c s = false); [|congruence]. apply over_capacity_false.
    unfold entry_count. rewrite Ht, Honly, map_size_singleton. split; [|lia].
    rewrite <- insert_empty, total_insert by done. change (total ∅) with 0. lia.
  - apply IH; [done|rewrite Hent; by rewrite lookup_delete_ne|].
    intros k' e'. rewrite Hent. intros [_ H]%lookup_delete_Some. by apply Hmax.
Qed.

(** ** The operations keep the invariant *)

Lemma counter_step x : 0 <= x <= U64_MAX -> x <= u64_saturating_add x 1 <= U64_MAX.
Proof. unfold u64_saturating_add. lia. Qed.

Lemma cache_get_inv key c : cache_inv c -> cache_inv (snd (cache_get key c)).
Proof.
  intros [Hlim Hb Hcap Hk Hc Hg]. unfold cache_get. destruct (_ || _); [done|].
  pose proof (counter_step _ Hc). destruct (cs_entries (state c) !! key) as [e|] eqn:E; split; cbn; try done; try lia.
  - by rewrite (total_touch _ key e).
  - unfold entry_count in *. cbn. rewrite map_size_insert_Some by (by eexists). done.
  - intros k' e'. destruct (decide (k' = key)) as [->|Hne].
    + rewrite lookup_insert_eq. intros [= <-]. destruct (Hk _ _ E) as (? & ? & _). by split_and!.
    + rewrite lookup_insert_ne by done. intros (? & ? & ?)%Hk. split_and!; try done. lia.
  - intros k' e' (? & ? & ?)%Hk. split_and!; try done. lia.
Qed.

(** The state just before the eviction of an accepted insertion. *)
Lemma insert_prepared c gen key p :
  cache_inv c -> fst (insert_shared gen key p c) = true ->
  exists s0, insert_shared gen key p c = (true, with_state c (evict_over_capacity c s0))
    /\ cs_entries s0 = <[key := mkEntry p (cs_access_counter s0)]> (delete key (cs_entries (state c)))
    /\ cs_bytes s0 = total (cs_entries s0) /\ cs_generation s0 = cs_generation (state c)
    /\ cs_access_counter s0 = u64_saturating_add (cs_access_counter (state c)) 1
    /\ key_source_revision key <> 0 /\ p <> [] /\ len p <= max_bytes c /\ 1 <= max_entries c
    /\ cs_generation (state c) = gen.
Proof.
  intros [Hlim Hb Hcap Hk Hc Hg]. unfold insert_shared.
  destruct (Z.eqb_spec (key_source_revision key) 0); [done|]. destruct (Z.eqb_spec (max_bytes c) 0); [done|].
  destruct (Z.eqb_spec (max_entries c) 0); [done|]. destruct (Z.eqb_spec (len p) 0) as [|Hp]; [done|].
  destruct (Z.ltb_spec (max_bytes c) (len p)); [done|]. cbn [orb].
  destruct (Z.eqb_spec (cs_generation (state c)) gen); [|done]. cbn [negb]. intros _.
  eexists. split; [reflexivity|]. cbn. split_and!; try done; try lia.
  - rewrite total_insert by apply lookup_delete_eq. cbn [plaintext].
    pose proof (total_nonneg (delete key (cs_entries (state c)))).
    destruct (cs_entries (state c) !! key) as [prev|] eqn:E.
    + rewrite Hb, (total_delete _ key prev E). rewrite Hb, (total_delete _ key prev E) in Hcap.
      pose proof (len_nonneg (plaintext prev)). unfold u64_saturating_add, u64_saturating_sub. lia.
    + rewrite delete_id by done. rewrite Hb. rewrite Hb in Hcap. unfold u64_saturating_add. lia.
  - intros ->. by apply Hp.
Qed.

Lemma insert_shared_false gen key p c :
  fst (insert_shared gen key p c) = false -> snd (insert_shared gen key p c) = c.
Proof. unfold insert_shared. destruct (_ || _); [done|]. by destruct (negb _). Qed.

Lemma cache_insert_inv gen key p c : cache_inv c -> cache_inv (snd (insert_shared gen key p c)).
Proof.
  intros Hinv. destruct (fst (insert_shared gen key p c)) eqn:Ef; [|by rewrite insert_shared_false].
  destruct (insert_prepared c gen key p Hinv Ef) as (s0 & -> & Hent & Ht & Hg & Ha & Hkey & Hp & _).
  destruct Hinv as [Hlim Hb Hcap Hk Hc Hgen]. pose proof (counter_step _ Hc).
  destruct (evict_loop_done (S (size (cs_entries s0))) c s0) as (Ho & Ht' & Hsub & Hg' & Ha' & _); [lia|lia|done|lia|].
  apply over_capacity_false in Ho. split; cbn [snd state with_state max_bytes max_entries]; try done;
    unfold evict_over_capacity in *; rewrite ?Hg', ?Ha', ?Hg; try lia.
  intros k' e' Hk'. pose proof (lookup_weaken _ _ _ _ Hk' Hsub) as Hk0. clear Hk'. rename Hk0 into Hk'.
  rewrite Hent in Hk'. apply lookup_insert_Some in Hk' as [[<- <-]|[Hne [_ Hk']%lookup_delete_Some]]; [by split_and!|].
  destruct (Hk _ _ Hk') as (? & ? & ?). split_and!; try done. lia.
Qed.

Lemma invalidate_inv id c : cache_inv c -> cache_inv (invalidate_node id c).
Proof.
  intros [Hlim Hb Hcap Hk Hc Hg]. pose proof (counter_step _ Hg).
  assert (cs_bytes (state (invalidate_node id c)) = total (cs_entries (state (invalidate_node id c)))) as Hb'.
  { cbn. rewrite removed_bytes_eq by lia. rewrite Hb, total_filter. unfold u64_saturating_sub.
    pose proof (total_nonneg (filter (fun e => key_node_id (fst e) <> id) (cs_entries (state c)))) as H1.
    rewrite total_filter in H1. lia. }
  split; try done; try (cbn; lia).
  - rewrite Hb'. cbn. split.
    + rewrite total_filter. rewrite Hb in Hcap.
      assert (0 <= sum_node id (map_to_list (cs_entries (state c)))); [|lia].
      generalize (map_to_list (cs_entries (state c))) as l. unfold sum_node.
      induction l as [|e l IH]; cbn; [lia|]. pose proof (len_nonneg (plaintext (snd e))). destruct (_ =? _); lia.
    + unfold entry_count in *. cbn.
      pose proof (map_size_filter (fun e => key_node_id (fst e) <> id) (cs_entries (state c))). lia.
  - intros k' e' [Hk' _]%map_lookup_filter_Some. by apply Hk.
Qed.

Lemma clear_inv c : cache_inv c -> cache_inv (cache_clear c).
Proof.
  intros [Hlim Hb Hcap Hk Hc Hg]. pose proof (counter_step _ Hg). split; cbn; try done; try lia.
  unfold entry_count. cbn. rewrite map_size_empty. lia.
Qed.

(** ** Theorems *)

Inductive cache_op :=
  | CacheGet (key : DecryptedChunkCacheKey)
  | CacheInsert (gen : Z) (key : DecryptedChunkCacheKey) (p : list byte)
  | CacheInvalidate (id : Z)
  | CacheClear.

Definition run_cache (o : cache_op) (c : DecryptedChunkCache) : DecryptedChunkCache :=
  match o with
  | CacheGet key => snd (cache_get key c)
  | CacheInsert gen key p => snd (insert_shared gen key p c)
  | CacheInvalidate id => invalidate_node id c
  | CacheClear => cache_clear c
  end.

(** C33: after any sequence of operations on a new cache the byte counter is exactly the
    number of plaintext bytes held, both limits are respected, and no entry is empty or
    belongs to revision 0. *)
Theorem cache_bounded mb me os :
  0 <= 2 * mb <= U64_MAX -> 0 <= me <= U64_MAX ->
  let c := foldl (fun c o => run_cache o c) (cache_new mb me) os in
  cs_bytes (state c) = total (cs_entries (state c))
  /\ total (cs_entries (state c)) <= mb /\ entry_count (state c) <= me
  /\ (forall k e, cs_entries (state c) !! k = Some e -> key_source_revision k <> 0 /\ plaintext e <> []).
Proof.
  intros Hmb Hme.
  assert (cache_inv (cache_new mb me)) as Hnew.
  { split; cbn; try done; try lia. unfold entry_count. cbn. rewrite map_size_empty. lia. }
  assert (forall c, cache_inv c -> max_bytes c = mb -> max_entries c = me ->
    let c' := foldl (fun c o => run_cache o c) c os in
    cache_inv c' /\ max_bytes c' = mb /\ max_entries c' = me) as Hrun.
  { induction os as [|o os IH]; intros c Hc Hb He; [done|]. cbn [foldl].
    apply IH; destruct o as [key|gen key p|id|]; cbn [run_cache].
    - by apply cache_get_inv.
    - by apply cache_insert_inv.
    - by apply invalidate_inv.
    - by apply clear_inv.
    - unfold cache_get. destruct (_ || _); [done|]. by destruct (_ !! _).
    - unfold insert_shared. destruct (_ || _); [done|]. by destruct (negb _).
    - done.
    - done.
    - unfold cache_get. destruct (_ || _); [done|]. by destruct (_ !! _).
    - unfold insert_shared. destruct (_ || _); [done|]. by destruct (negb _).
    - done.
    - done. }
  destruct (Hrun (cache_new mb me) Hnew eq_refl eq_refl) as ([_ Hb Hcap Hk _ _] & Emb & Eme).
  cbv zeta in *. set (c := foldl _ _ _) in *. split_and!; [done|lia|lia|].
  intros k e (? & ? & _)%Hk. done.
Qed.

(** a chunk that was accepted is served: right after an insertion that returned
    [true], whatever had to be evicted for it, the lookup of its key returns exactly the
    inserted plaintext. *)
Theorem insert_then_get gen key p c :
  cache_inv c -> cs_access_counter (state c) < U64_MAX ->
  fst (insert_shared gen key p c) = true ->
  fst (cache_get key (snd (insert_shared gen key p c))) = Some p.
Proof.
  intros Hinv Hctr Hins.
  destruct (insert_prepared c gen key p Hinv Hins) as (s0 & -> & Hent & Ht & Hg & Ha & Hkey & Hp & Hlen & Hme & _).
  destruct Hinv as [Hlim Hb Hcap Hk Hc Hgen]. cbn [snd].
  assert (cs_entries (evict_over_capacity c s0) !! key = Some (mkEntry p (cs_access_counter s0))) as Hfound.
  { apply evict_loop_keeps; try done.
    - rewrite Hent. apply lookup_insert_eq.
    - intros k' e'. rewrite Hent. intros [[? _]|[_ [_ H]%lookup_delete_Some]]%lookup_insert_Some Hne; [congruence|].
      destruct (Hk _ _ H) as (_ & _ & Hle). cbn. rewrite Ha. unfold u64_saturating_add. lia. }
  unfold cache_get. cbn [max_bytes max_entries with_state state].
  assert (0 < len p) by (destruct p; [done|unfold len; cbn; lia]).
  destruct (Z.eqb_spec (key_source_revision key) 0); [done|]. destruct (Z.eqb_spec (max_bytes c) 0); [lia|].
  destruct (Z.eqb_spec (max_entries c) 0); [lia|]. cbn [orb]. by rewrite Hfound.
Qed.

(** ** Generations *)

Lemma evict_loop_kept fuel c s :
  cs_generation (evict_loop fuel c s) = cs_generation s /\ cs_entries (evict_loop fuel c s) ⊆ cs_entries s.
Proof.
  revert s. induction fuel as [|fuel IH]; intros s; cbn; [done|]. destruct (over_capacity c s); [|done].
  unfold evict_one. destruct (min_by_key _ _) as [[k e]|]; [|done]. destruct (IH (mkState (delete k (cs_entries s))
    (u64_saturating_sub (cs_bytes s) (len (plaintext e))) (cs_generation s) (cs_access_counter s) (cs_hits s) (cs_misses s)
    (cs_inserts s) (u64_saturating_add (cs_evictions s) 1))) as [-> Hs]. split; [done|]. etrans; [exact Hs|]. apply delete_subseteq.
Qed.

(** One operation: the generation does not go back, and an entry was there or was inserted
    with the current generation. *)
Lemma run_cache_step o c :
  generation c <= U64_MAX ->
  generation c <= generation (run_cache o c) <= U64_MAX
  /\ forall k e, cs_entries (state (run_cache o c)) !! k = Some e ->
     (exists e0, cs_entries (state c) !! k = Some e0 /\ plaintext e0 = plaintext e) \/ o = CacheInsert (generation c) k (plaintext e).
Proof.
  intros Hg. unfold generation in *. destruct o as [key|gen key p|id|]; cbn [run_cache].
  - unfold cache_get. destruct (_ || _); cbn [snd]; [split; [lia|eauto]|].
    destruct (cs_entries (state c) !! key) as [e0|] eqn:E; cbn; [|split; [lia|eauto]]. split; [lia|].
    intros k e [[<- <-]|[_ Hk]]%lookup_insert_Some; eauto.
  - unfold insert_shared. destruct (_ || _); cbn [snd]; [split; [lia|eauto]|].
    destruct (Z.eqb_spec (cs_generation (state c)) gen) as [<-|]; cbn [negb snd]; [|split; [lia|eauto]].
    cbn [state with_state]. unfold evict_over_capacity. set (s0 := mkState _ _ _ _ _ _ _ _). set (fuel := S (size (cs_entries s0))).
    destruct (evict_loop_kept fuel c s0) as [Eg Hs]. rewrite Eg. cbn. split; [lia|]. intros k e Hk.
    apply (lookup_weaken _ _ _ _ Hk) in Hs. cbn in Hs. apply lookup_insert_Some in Hs as [[<- <-]|[_ [_ Hk']%lookup_delete_Some]]; [by right|].
    left. eauto.
  - cbn. unfold u64_saturating_add. split; [lia|]. intros k e [Hk _]%map_lookup_filter_Some. eauto.
  - cbn. unfold u64_saturating_add. split; [lia|]. intros k e Hk. by rewrite lookup_empty in Hk.
Qed.

Definition run_all (os : list cache_op) (c : DecryptedChunkCache) : DecryptedChunkCache := foldl (fun c o => run_cache o c) c os.

Lemma run_all_steps os c :
  generation c <= U64_MAX ->
  generation c <= generation (run_all os c) <= U64_MAX
  /\ forall k e, cs_entries (state (run_all os c)) !! k = Some e ->
     (exists e0, cs_entries (state c) !! k = Some e0 /\ plaintext e0 = plaintext e)
     \/ exists gen, CacheInsert gen k (plaintext e) ∈ os /\ generation c <= gen.
Proof.
  revert c. induction os as [|o os IH]; intros c Hg; [split; [cbn; lia|eauto]|].
  change (run_all (o :: os) c) with (run_all os (run_cache o c)). destruct (run_cache_step o c Hg) as [Hg1 He1].
  destruct (IH (run_cache o c)) as [Hg2 He2]; [lia|]. split; [lia|]. intros k e Hk.
  destruct (He2 k e Hk) as [(e0 & H0 & <-)|(gen & Hin & Hle)].
  - destruct (He1 k e0 H0) as [Hold| ->]; [by left|]. right. eexists. split; [by left|lia].
  - right. exists gen. split; [by right|lia].
Qed.

(** C34: a reader takes the generation of the cache; then any operations follow, an invalidation
    of a node, and any operations again. From the invalidation on, no insertion with the
    reader's generation is accepted, for any node; what the cache holds of the node was
    inserted after the invalidation with a later generation, so by a reader that started
    after it; and the invalidation itself leaves the chunks of other nodes. *)
Theorem invalidation_is_final mb me before during after id :
  let c1 := run_all before (cache_new mb me) in
  let c2 := run_all during c1 in
  let c3 := run_all after (invalidate_node id c2) in
  generation c2 < U64_MAX ->
  (forall key p, insert_shared (generation c1) key p c3 = (false, c3))
  /\ (forall k e, key_node_id k = id -> cs_entries (state c3) !! k = Some e ->
        exists gen, CacheInsert gen k (plaintext e) ∈ after /\ generation c1 < gen)
  /\ (forall k, key_node_id k <> id -> cs_entries (state (invalidate_node id c2)) !! k = cs_entries (state c2) !! k).
Proof.
  intros c1 c2 c3 Hgen. destruct (run_all_steps before (cache_new mb me)) as [Hg1 _]; [done|]. fold c1 in Hg1.
  destruct (run_all_steps during c1) as [Hg2 _]; [lia|]. fold c2 in Hg2.
  assert (generation (invalidate_node id c2) = generation c2 + 1) as Egi by (unfold generation in *; cbn; unfold u64_saturating_add; lia).
  destruct (run_all_steps after (invalidate_node id c2)) as [Hg3 He3]; [lia|]. fold c3 in Hg3, He3. split_and!.
  - intros key p. unfold insert_shared. destruct (_ || _); [done|].
    destruct (Z.eqb_spec (cs_generation (state c3)) (generation c1)) as [E|]; [|done]. unfold generation in *. lia.
  - intros k e Hk He. destruct (He3 k e He) as [(e0 & H0 & _)|(gen & Hin & Hle)].
    + cbn in H0. apply map_lookup_filter_Some in H0 as [_ Hne]. by destruct Hne.
    + exists gen. split; [done|lia].
  - intros k Hk. cbn. destruct (cs_entries (state c2) !! k) as [e|] eqn:E.
    + by apply map_lookup_filter_Some.
    + apply map_lookup_filter_None. by left.
Qed.

(** eviction is least-recently-used: an entry an insertion evicts was last used no
    later than every entry it keeps. *)
Theorem eviction_is_lru gen key p c k e k' e' :
  cache_inv c -> k <> key -> cs_entries (state c) !! k = Some e ->
  let c' := snd (insert_shared gen key p c) in
  cs_entries (state c') !! k = None -> cs_entries (state c') !! k' = Some e' ->
  last_access e <= last_access e'.
Proof.
  intros Hinv Hne Hk c' Hgone Hk'. subst c'.
  destruct (fst (insert_shared gen key p c)) eqn:Ef; [|rewrite insert_shared_false in Hgone; congruence].
  destruct (insert_prepared c gen key p Hinv Ef) as (s0 & E & Hent & Ht & _). rewrite E in *.
  destruct Hinv as [Hlim _ _ _ _ _].
  destruct (evict_loop_done (S (size (cs_entries s0))) c s0) as (_ & _ & _ & _ & _ & Hlru); [lia|lia|done|lia|].
  eapply (Hlru k e k' e'); [|done|done]. by rewrite Hent, lookup_insert_ne, lookup_delete_ne.
Qed.

(** ** At concrete values *)

Definition demo_key (i : Z) : DecryptedChunkCacheKey := mkKey 7 1 i 16.
Definition demo_cache : DecryptedChunkCache :=
  foldl (fun c o => run_cache o c) (cache_new 4 2)
    [CacheInsert 0 (demo_key 0) [x01; x02]; CacheInsert 0 (demo_key 1) [x03; x04]].

Lemma demo_cache_inv : cache_inv demo_cache.
Proof.
  assert (cache_inv (cache_new 4 2)) as Hnew.
  { split; cbn; try done; try (unfold U64_MAX; lia). }
  by apply cache_insert_inv, cache_insert_inv.
Qed.

Lemma cache_bounded_witness :
  let c := foldl (fun c o => run_cache o c) (cache_new 4 2) [CacheInsert 0 (demo_key 0) [x01; x02]] in
  cs_bytes (state c) = total (cs_entries (state c)).
Proof. apply (cache_bounded 4 2 [CacheInsert 0 (demo_key 0) [x01; x02]]); unfold U64_MAX; lia. Defined.

Lemma insert_then_get_witness :
  fst (cache_get (demo_key 2) (snd (insert_shared 0 (demo_key 2) [x05] demo_cache))) = Some [x05].
Proof. apply (insert_then_get 0 (demo_key 2) [x05] demo_cache demo_cache_inv); vm_compute; reflexivity. Defined.

Lemma invalidation_is_final_witness :
  let c1 := run_all [CacheInsert 0 (demo_key 0) [x01; x02]] (cache_new 4 2) in
  let c2 := run_all [CacheInsert 0 (demo_key 1) [x03]; CacheClear] c1 in
  let c3 := run_all [CacheInsert 2 (demo_key 1) [x04]] (invalidate_node 7 c2) in
  (forall key p, insert_shared (generation c1) key p c3 = (false, c3))
  /\ (forall k e, key_node_id k = 7 -> cs_entries (state c3) !! k = Some e ->
        exists gen, CacheInsert gen k (plaintext e) ∈ [CacheInsert 2 (demo_key 1) [x04]] /\ generation c1 < gen)
  /\ (forall k, key_node_id k <> 7 -> cs_entries (state (invalidate_node 7 c2)) !! k = cs_entries (state c2) !! k).
Proof.
  pose proof (invalidation_is_final 4 2 [CacheInsert 0 (demo_key 0) [x01; x02]] [CacheInsert 0 (demo_key 1) [x03]; CacheClear]
                [CacheInsert 2 (demo_key 1) [x04]] 7 ltac:(vm_compute; reflexivity)) as Hw.
  exact Hw.
Defined.

Lemma eviction_is_lru_witness :
  exists e e', cs_entries (state demo_cache) !! demo_key 0 = Some e
    /\ cs_entries (state demo_cache) !! demo_key 1 = Some e' /\ last_access e <= last_access e'.
Proof.
  exists (mkEntry [x01; x02] 1), (mkEntry [x03; x04] 2).
  assert (cs_entries (state demo_cache) !! demo_key 0 = Some (mkEntry [x01; x02] 1)) as H0 by (vm_compute; reflexivity).
  split; [exact H0|]. split; [vm_compute; reflexivity|].
  apply (eviction_is_lru 0 (demo_key 2) [x05] demo_cache (demo_key 0) (mkEntry [x01; x02] 1) (demo_key 1)
           (mkEntry [x03; x04] 2) demo_cache_inv); [done|exact H0|vm_compute; reflexivity|vm_compute; reflexivity].
Defined.
