(* ===== verification/Frame.v ===== *)
(** * Protocol frames

    Models [crates/protocol/src/frame.rs]: the binary frame of the remote protocol,
    its encoding and decoding. Bytes are [Byte.byte]; [u64] and [u32] are [Z]. *)

From Stdlib Require Import Strings.Byte Ascii String.
From stdpp Require Import base list strings.
From S2P Require Import Prelude.
From S2P Require Import Bytes.
Open Scope Z_scope.

(** ** Frames *)

Definition FLAG_HAS_CONTINUATION : Z := 1.
Definition HEADER_SIZE : Z := 14.
Definition MAX_PAYLOAD_SIZE : Z := 16 * 1024 * 1024.
Definition NOISE_TRANSPORT_TAG_BYTES : Z := 16.
Definition MAX_HANDSHAKE_MSG : Z := 65535.
Definition MAX_FRAME_PAYLOAD_SIZE : Z := MAX_HANDSHAKE_MSG - HEADER_SIZE - NOISE_TRANSPORT_TAG_BYTES.

Inductive FrameType := RpcRequest | RpcResponse | Heartbeat | FrameError.

#[export] Instance FrameType_eq_dec : EqDecision FrameType.
Proof. solve_decision. Defined.

(** [frame_type as u8]. *)
Definition frame_type_byte (t : FrameType) : byte :=
  match t with RpcRequest => x01 | RpcResponse => x02 | Heartbeat => x03 | FrameError => x04 end.

Definition from_byte (b : byte) : option FrameType :=
  match b with
  | x01 => Some RpcRequest
  | x02 => Some RpcResponse
  | x03 => Some Heartbeat
  | x04 => Some FrameError
  | _ => None
  end.

Record Frame := mkFrame {
  frame_type : FrameType;
  message_id : Z;
  flags : byte;
  payload : list byte;
}.

Definition payload_len (p : list byte) : Z := Z.of_nat (length p).

Definition has_continuation (f : Frame) : bool :=
  negb (Z.land (Z_of_byte (flags f)) FLAG_HAS_CONTINUATION =? 0).

(** [flags & !FLAG_HAS_CONTINUATION != 0]. *)
Definition reserved_flags (b : byte) : bool :=
  negb (Z.land (Z_of_byte b) (255 - FLAG_HAS_CONTINUATION) =? 0).

Definition encode (f : Frame) : list byte :=
  let len := if payload_len (payload f) <=? U32_MAX then payload_len (payload f) else U32_MAX in
  [frame_type_byte (frame_type f)] ++ to_be_bytes 8 (message_id f) ++ [flags f]
  ++ to_be_bytes 4 len ++ payload f.

(** [bytes[a..b]] for [a <= b <= bytes.len()], which every slice below satisfies. *)
Definition slice (a b : nat) (bs : list byte) : list byte := take (b - a) (drop a bs).

Definition decode (bs : list byte) : result string Frame :=
  if payload_len bs <? HEADER_SIZE then Err "frame too short"%string else
  t ← ok_or (head bs ≫= from_byte) "unsupported frame type"%string;
  let mid := from_be_bytes (slice 1 9 bs) in
  let fl := default x00 (bs !! 9%nat) in
  if reserved_flags fl then Err "unsupported flags"%string else
  let plen := from_be_bytes (slice 10 14 bs) in
  if MAX_FRAME_PAYLOAD_SIZE <? plen then Err "payload too large"%string else
  if negb (payload_len bs =? HEADER_SIZE + plen) then Err "payload length mismatch"%string else
  Ok (mkFrame t mid fl (drop 14 bs)).

(** [frame_continuation]. *)
Definition frame_continuation (t : FrameType) (mid : Z) (p : list byte) (has_more : bool) : Frame :=
  mkFrame t mid (if has_more then x01 else x00) p.

(** [validate_timestamp]; [now] is the wall clock in seconds. *)
Definition validate_timestamp (now timestamp_secs : Z) : result string unit :=
  if 300 <? Z.abs (timestamp_secs - now) then Err "timestamp out of range"%string else Ok tt.

(** The frames that can be sent. *)
Definition sendable (f : Frame) : bool :=
  bool_decide (0 <= message_id f <= U64_MAX) && negb (reserved_flags (flags f))
  && (payload_len (payload f) <=? MAX_FRAME_PAYLOAD_SIZE).

Lemma sendable_spec f :
  sendable f = true <->
  0 <= message_id f <= U64_MAX /\ reserved_flags (flags f) = false
  /\ payload_len (payload f) <= MAX_FRAME_PAYLOAD_SIZE.
Proof. unfold sendable. rewrite !andb_true_iff, bool_decide_eq_true, negb_true_iff, Z.leb_le. tauto. Qed.

Lemma max_frame_payload : MAX_FRAME_PAYLOAD_SIZE = 65505.
Proof. reflexivity. Qed.

Lemma from_byte_frame_type t : from_byte (frame_type_byte t) = Some t.
Proof. by destruct t. Qed.

Lemma frame_type_from_byte b t : from_byte b = Some t -> b = frame_type_byte t.
Proof. destruct b; cbn; intros [= <-]; done. Qed.

(** The parts of an encoded frame, at their offsets. *)
Lemma encode_parts f :
  payload_len (payload f) <= U32_MAX ->
  let bs := encode f in
  payload_len bs = HEADER_SIZE + payload_len (payload f)
  /\ head bs = Some (frame_type_byte (frame_type f)) /\ slice 1 9 bs = to_be_bytes 8 (message_id f)
  /\ bs !! 9%nat = Some (flags f) /\ slice 10 14 bs = to_be_bytes 4 (payload_len (payload f))
  /\ drop 14 bs = payload f.
Proof.
  intros Hlen. unfold encode. rewrite (proj2 (Z.leb_le _ _) Hlen).
  pose proof (length_to_be_bytes 8 (message_id f)) as H8.
  pose proof (length_to_be_bytes 4 (payload_len (payload f))) as H4.
  set (m := to_be_bytes 8 (message_id f)) in *. set (l := to_be_bytes 4 (payload_len (payload f))) in *.
  assert (length ([frame_type_byte (frame_type f)] ++ m) = 9%nat) as L1 by (rewrite length_app, H8; done).
  assert (length ([frame_type_byte (frame_type f)] ++ m ++ [flags f]) = 10%nat) as L2 by (rewrite !length_app, H8; done).
  assert (length ([frame_type_byte (frame_type f)] ++ m ++ [flags f] ++ l) = 14%nat) as L3 by (rewrite !length_app, H8, H4; done).
  cbv zeta. split_and!.
  - unfold payload_len, HEADER_SIZE. rewrite !length_app, H8, H4. cbn [length]. lia.
  - done.
  - unfold slice. change (drop 1 ([frame_type_byte (frame_type f)] ++ m ++ [flags f] ++ l ++ payload f))
      with (m ++ [flags f] ++ l ++ payload f). by apply take_app_length'.
  - rewrite (app_assoc [_] m), lookup_app_r by lia. rewrite L1. done.
  - unfold slice. rewrite (app_assoc m), (app_assoc [_]), drop_app_length' by done.
    by apply take_app_length'.
  - rewrite (app_assoc [flags f]), (app_assoc m), (app_assoc [_]). by apply drop_app_length'.
Qed.

(** every frame within the protocol's limits survives the wire: decoding its
    encoding gives the frame back. *)
Theorem frame_roundtrip f : sendable f = true -> decode (encode f) = Ok f.
Proof.
  intros (Hid & Hfl & Hlen)%sendable_spec. rewrite max_frame_payload in Hlen.
  destruct (encode_parts f) as (H1 & H2 & H3 & H4 & H5 & H6); [unfold U32_MAX; lia|].
  cbv zeta in *. unfold decode. rewrite H1, H2, H3, H4, H5, H6. unfold payload_len, HEADER_SIZE in *.
  rewrite (proj2 (Z.ltb_ge _ _)) by lia. cbn [mbind option_bind]. rewrite from_byte_frame_type. cbn [ok_or mbind result_bind from_option Datatypes.id].
  rewrite Hfl, !from_to_be_bytes by (cbn; unfold U64_MAX in Hid; lia).
  rewrite max_frame_payload, (proj2 (Z.ltb_ge _ _)) by lia. rewrite Z.eqb_refl. cbn [negb]. by destruct f.
Qed.

(** decoding accepts only canonical encodings within the limits: what it returns
    encodes back to exactly the bytes it was given. *)
Theorem decode_canonical bs f : decode bs = Ok f -> encode f = bs /\ sendable f = true.
Proof.
  unfold decode. destruct (Z.ltb_spec (payload_len bs) HEADER_SIZE) as [|Hlen]; [done|].
  do 14 (destruct bs as [|? bs]; [exfalso; unfold payload_len, HEADER_SIZE in Hlen; cbn in Hlen; lia|]).
  cbn [head mbind option_bind]. destruct (from_byte b) as [t|] eqn:Ht; [|done].
  apply frame_type_from_byte in Ht as ->. cbn [ok_or mbind result_bind].
  change (slice 1 9 _) with [b0; b1; b2; b3; b4; b5; b6; b7].
  change (slice 10 14 _) with [b9; b10; b11; b12].
  change (default x00 _) with b8. change (drop 14 _) with bs.
  destruct (reserved_flags b8) eqn:Hfl; [done|].
  destruct (Z.ltb_spec MAX_FRAME_PAYLOAD_SIZE (from_be_bytes [b9; b10; b11; b12])) as [|Hmax]; [done|].
  destruct (Z.eqb_spec (payload_len (frame_type_byte t :: b0 :: b1 :: b2 :: b3 :: b4 :: b5 :: b6 :: b7 :: b8
    :: b9 :: b10 :: b11 :: b12 :: bs)) (HEADER_SIZE + from_be_bytes [b9; b10; b11; b12])) as [Hl|]; [|done].
  cbn [negb]. intros [= <-].
  assert (payload_len bs = from_be_bytes [b9; b10; b11; b12]) as Hpl
    by (unfold payload_len, HEADER_SIZE in *; cbn [length] in Hl; lia).
  rewrite max_frame_payload in Hmax. split.
  - unfold encode. cbn [frame_type message_id flags payload].
    rewrite (proj2 (Z.leb_le _ _)) by (unfold U32_MAX; lia). rewrite Hpl.
    pose proof (to_from_be_bytes [b9; b10; b11; b12]) as E4.
    pose proof (to_from_be_bytes [b0; b1; b2; b3; b4; b5; b6; b7]) as E8.
    cbn [length] in E4, E8. by rewrite E4, E8.
  - apply sendable_spec. cbn [message_id flags payload]. rewrite max_frame_payload. split_and!; [| |done|lia].
    + apply from_be_bytes_nonneg.
    + pose proof (from_be_bytes_bound [b0; b1; b2; b3; b4; b5; b6; b7]) as H. change (256 ^ Z.of_nat (length [b0; b1; b2; b3; b4; b5; b6; b7])) with (U64_MAX + 1) in H. lia.
Qed.

(** ** At concrete values *)

Definition demo_frame : Frame := mkFrame RpcResponse 513 x01 [x68; x69].

Lemma frame_roundtrip_witness : decode (encode demo_frame) = Ok demo_frame.
Proof. apply (frame_roundtrip demo_frame). vm_compute. reflexivity. Defined.

Lemma decode_canonical_witness : encode demo_frame = encode demo_frame /\ sendable demo_frame = true.
Proof. apply (decode_canonical (encode demo_frame) demo_frame). vm_compute. reflexivity. Defined.
