(* ===== verification/AgentWire.v ===== *)
(** * Fragmentation of agent messages

    Models [crates/protocol/src/agent_wire.rs]: a logical message is cut into frames
    that fit one transport message, and put together again on the other side with a
    bounded buffer. [usize] is 64 bits. *)

From Stdlib Require Import Strings.Byte.
From stdpp Require Import base list.
From S2P Require Import Prelude.
From S2P Require Import Bytes.
From S2P Require Import Frame.
Open Scope Z_scope.

Definition AGENT_FRAGMENT_REASSEMBLY_TIMEOUT_SECS : Z := 30.

Inductive AgentWireError :=
  | LogicalFrameHasFlags
  | MessageTooLarge
  | InvalidContinuationSize
  | FragmentSequenceMismatch.

(** ** Cutting *)

Record AgentFrameFragments := mkFragments {
  frag_frame : Frame;
  frag_offset : Z;
  frag_done : bool;
}.

Definition agent_frame_fragments (f : Frame) (max_message_bytes : Z)
    : result AgentWireError AgentFrameFragments :=
  if negb (Z_of_byte (flags f) =? 0) then Err LogicalFrameHasFlags
  else if max_message_bytes <? payload_len (payload f) then Err MessageTooLarge
  else Ok (mkFragments f 0 false).

(** [Iterator::next]; the slice is in range because [offset <= end <= len]. *)
Definition fragments_next (it : AgentFrameFragments) : option (Frame * AgentFrameFragments) :=
  if frag_done it then None else
  let f := frag_frame it in
  let last := Z.min (u64_saturating_add (frag_offset it) MAX_FRAME_PAYLOAD_SIZE) (payload_len (payload f)) in
  let done := last =? payload_len (payload f) in
  let p := slice (Z.to_nat (frag_offset it)) (Z.to_nat last) (payload f) in
  Some (frame_continuation (frame_type f) (message_id f) p (negb done), mkFragments f last done).

(** [collect()], for at most [fuel] items. *)
Fixpoint collect (fuel : nat) (it : AgentFrameFragments) : list Frame * AgentFrameFragments :=
  match fuel with
  | O => ([], it)
  | S fuel' =>
      match fragments_next it with
      | None => ([], it)
      | Some (f, it') => let '(fs, it'') := collect fuel' it' in (f :: fs, it'')
      end
  end.

(** All fragments: a frame of [n] bytes has at most [n + 1] of them ([collect_complete]). *)
Definition all_fragments (it : AgentFrameFragments) : list Frame :=
  fst (collect (S (length (payload (frag_frame it)))) it).

(** ** Reassembly *)

Record PartialAgentFrame := mkPartialFrame {
  pf_type : FrameType;
  pf_message_id : Z;
  pf_payload : list byte;
}.

Record AgentFrameReassembler := mkReassembler {
  max_message_bytes : Z;
  partial : option PartialAgentFrame;
}.

Definition reassembler_new (max : Z) : AgentFrameReassembler := mkReassembler max None.
Definition is_reassembling (r : AgentFrameReassembler) : bool := bool_decide (is_Some (partial r)).

Definition validate_non_final (max : Z) (p : list byte) (current_len : Z) : result AgentWireError unit :=
  if negb (payload_len p =? MAX_FRAME_PAYLOAD_SIZE) then Err InvalidContinuationSize else
  total ← ok_or (u64_checked_add current_len (payload_len p)) MessageTooLarge;
  if max <=? total then Err MessageTooLarge else Ok tt.

(** The branch of [push] for a frame that continues a partial message. *)
Definition push_partial (p : PartialAgentFrame) (f : Frame) (r : AgentFrameReassembler)
    : result AgentWireError (option Frame) * AgentFrameReassembler :=
  if negb (bool_decide (pf_type p = frame_type f)) || negb (pf_message_id p =? message_id f)
  then (Err FragmentSequenceMismatch, r) else
  let has_more := has_continuation f in
  let current_len := payload_len (pf_payload p) in
  match (if has_more then validate_non_final (max_message_bytes r) (payload f) current_len
         else if payload_len (payload f) =? 0 then Err InvalidContinuationSize else Ok tt) with
  | Err e => (Err e, r)
  | Ok _ =>
      match ok_or (u64_checked_add current_len (payload_len (payload f))) MessageTooLarge with
      | Err e => (Err e, r)
      | Ok total =>
          if max_message_bytes r <? total then (Err MessageTooLarge, r) else
          let p := mkPartialFrame (pf_type p) (pf_message_id p) (pf_payload p ++ payload f) in
          if has_more then (Ok None, mkReassembler (max_message_bytes r) (Some p))
          else (Ok (Some (mkFrame (pf_type p) (pf_message_id p) x00 (pf_payload p))),
                mkReassembler (max_message_bytes r) None)
      end
  end.

Definition push (f : Frame) (r : AgentFrameReassembler)
    : result AgentWireError (option Frame) * AgentFrameReassembler :=
  if reserved_flags (flags f) then (Err LogicalFrameHasFlags, r) else
  match partial r with
  | None =>
      if negb (has_continuation f) then
        if max_message_bytes r <? payload_len (payload f) then (Err MessageTooLarge, r) else (Ok (Some f), r)
      else match validate_non_final (max_message_bytes r) (payload f) 0 with
           | Err e => (Err e, r)
           | Ok _ => (Ok None, mkReassembler (max_message_bytes r)
                                 (Some (mkPartialFrame (frame_type f) (message_id f) (payload f))))
           end
  | Some p => push_partial p f r
  end.

(** A receiver feeding frames until the first error, and the messages it completes. *)
Fixpoint feed (fs : list Frame) (r : AgentFrameReassembler)
    : result AgentWireError (list Frame) * AgentFrameReassembler :=
  match fs with
  | [] => (Ok [], r)
  | f :: fs' =>
      match push f r with
      | (Err e, r') => (Err e, r')
      | (Ok out, r') =>
          match feed fs' r' with
          | (Err e, r'') => (Err e, r'')
          | (Ok outs, r'') => (Ok (match out with Some m => m :: outs | None => outs end), r'')
          end
      end
  end.

(** ** Cutting terminates and loses nothing *)

Lemma flags_zero b : reserved_flags b = false -> Z.land (Z_of_byte b) FLAG_HAS_CONTINUATION = 0 -> b = x00.
Proof. by destruct b. Qed.

Lemma flags_continuation t mid p more :
  reserved_flags (flags (frame_continuation t mid p more)) = false
  /\ has_continuation (frame_continuation t mid p more) = more.
Proof. by destruct more. Qed.

(** The fragments of the rest of a payload, from [off] on. *)
Inductive fragmented (f : Frame) : Z -> list Frame -> Prop :=
  | frag_last off p :
      payload_len p <= MAX_FRAME_PAYLOAD_SIZE -> drop (Z.to_nat off) (payload f) = p ->
      fragmented f off [frame_continuation (frame_type f) (message_id f) p false]
  | frag_more off p fs :
      payload_len p = MAX_FRAME_PAYLOAD_SIZE -> 0 <= off ->
      off + MAX_FRAME_PAYLOAD_SIZE < payload_len (payload f) ->
      take (Z.to_nat MAX_FRAME_PAYLOAD_SIZE) (drop (Z.to_nat off) (payload f)) = p ->
      fragmented f (off + MAX_FRAME_PAYLOAD_SIZE) fs ->
      fragmented f off (frame_continuation (frame_type f) (message_id f) p true :: fs).

#[local] Opaque MAX_FRAME_PAYLOAD_SIZE.

Lemma max_frame_pos : 0 < MAX_FRAME_PAYLOAD_SIZE < U64_MAX.
Proof. rewrite max_frame_payload. unfold U64_MAX. lia. Qed.

Lemma collect_complete fuel f off :
  0 <= off -> off <= payload_len (payload f) -> payload_len (payload f) <= U64_MAX - MAX_FRAME_PAYLOAD_SIZE ->
  payload_len (payload f) - off < Z.of_nat fuel ->
  fragmented f off (fst (collect fuel (mkFragments f off false)))
  /\ frag_done (snd (collect fuel (mkFragments f off false))) = true.
Proof.
  revert off. induction fuel as [|fuel IH]; intros off Hoff Hle Hu Hf; [lia|]. cbn [collect].
  unfold fragments_next. cbn [frag_done frag_frame frag_offset]. pose proof max_frame_pos as Hpos.
  unfold u64_saturating_add. rewrite (Z.min_l (off + MAX_FRAME_PAYLOAD_SIZE) U64_MAX) by lia.
  destruct (Z_le_gt_dec (payload_len (payload f)) (off + MAX_FRAME_PAYLOAD_SIZE)) as [Hlast|Hmore].
  - rewrite Z.min_r by lia. rewrite Z.eqb_refl. cbn [negb].
    destruct fuel as [|fuel]; cbn [collect fst snd]; (split; [|done]).
    all: apply frag_last; unfold slice, payload_len in *; rewrite take_ge by (rewrite length_drop; lia); [|done];
      rewrite length_drop; lia.
  - rewrite Z.min_l by lia. rewrite (proj2 (Z.eqb_neq _ _)) by lia. cbn [negb].
    destruct (IH (off + MAX_FRAME_PAYLOAD_SIZE)) as [IH1 IH2]; [lia|lia|lia|lia|].
    destruct (collect fuel (mkFragments f (off + MAX_FRAME_PAYLOAD_SIZE) false)) as [fs it]. cbn [fst snd] in *.
    split; [|done]. unfold slice.
    replace (Z.to_nat (off + MAX_FRAME_PAYLOAD_SIZE) - Z.to_nat off)%nat with (Z.to_nat MAX_FRAME_PAYLOAD_SIZE) by lia.
    apply frag_more; try done; try lia. unfold payload_len in *. rewrite length_take, length_drop. lia.
Qed.

Lemma fragmented_sendable f off fs :
  fragmented f off fs -> 0 <= message_id f <= U64_MAX -> Forall (fun g => sendable g = true) fs.
Proof.
  intros Hf Hid. induction Hf as [off p Hp _|off p fs Hp _ _ _ _ IH]; constructor; try done;
    apply sendable_spec; split_and!; cbn; try done; try lia.
Qed.

Lemma fragmented_payload f off fs :
  fragmented f off fs -> concat (map payload fs) = drop (Z.to_nat off) (payload f).
Proof.
  induction 1 as [off p _ Hd|off p fs _ Hoff Hlt Ht _ IH]; cbn; [by rewrite app_nil_r|].
  rewrite IH, <- Ht. pose proof max_frame_pos.
  rewrite Z2Nat.inj_add, <- drop_drop by lia. apply take_drop.
Qed.

(** ** Putting together *)

Lemma checked_add_ok x y : x + y <= U64_MAX -> u64_checked_add x y = Some (x + y).
Proof. intros H. unfold u64_checked_add. by rewrite (proj2 (Z.leb_le _ _) H). Qed.

Lemma validate_non_final_ok max p cur :
  payload_len p = MAX_FRAME_PAYLOAD_SIZE -> 0 <= cur -> cur + MAX_FRAME_PAYLOAD_SIZE < max -> max <= U64_MAX ->
  validate_non_final max p cur = Ok tt.
Proof.
  intros Hp Hc Hlt Hmax. unfold validate_non_final. rewrite Hp, Z.eqb_refl. cbn [negb].
  rewrite checked_add_ok by lia. cbn. by rewrite (proj2 (Z.leb_gt _ _)) by lia.
Qed.

Lemma payload_len_app p q : payload_len (p ++ q) = payload_len p + payload_len q.
Proof. unfold payload_len. rewrite length_app. lia. Qed.

Lemma payload_len_take f off :
  0 <= off <= payload_len (payload f) -> payload_len (take (Z.to_nat off) (payload f)) = off.
Proof. unfold payload_len. intros H. rewrite length_take. lia. Qed.

(** The rest of a message completes the part received before. *)
Lemma feed_rest f max off fs :
  fragmented f off fs -> 0 < off < payload_len (payload f) -> payload_len (payload f) <= max -> max <= U64_MAX ->
  feed fs (mkReassembler max (Some (mkPartialFrame (frame_type f) (message_id f) (take (Z.to_nat off) (payload f)))))
  = (Ok [mkFrame (frame_type f) (message_id f) x00 (payload f)], reassembler_new max).
Proof.
  intros Hf. induction Hf as [off p Hp Hd|off p fs Hp Hoff Hlt Ht Hf IH]; intros Hrange Hle Hmax.
  - assert (payload_len p = payload_len (payload f) - off) as Hlen
      by (rewrite <- Hd; unfold payload_len; rewrite length_drop; unfold payload_len in Hrange; lia).
    cbn [feed]. unfold push. destruct (flags_continuation (frame_type f) (message_id f) p false) as [-> Hc].
    cbn [partial]. unfold push_partial. rewrite Hc. cbn [pf_type pf_message_id pf_payload frame_type message_id payload frame_continuation].
    rewrite bool_decide_true, Z.eqb_refl by done. cbn [negb orb].
    rewrite payload_len_take by lia. rewrite (proj2 (Z.eqb_neq (payload_len p) 0)) by lia.
    rewrite checked_add_ok by lia. cbn [ok_or max_message_bytes]. rewrite (proj2 (Z.ltb_ge _ _)) by lia.
    rewrite <- Hd, take_drop. done.
  - pose proof max_frame_pos. cbn [feed]. unfold push.
    destruct (flags_continuation (frame_type f) (message_id f) p true) as [-> Hc].
    cbn [partial]. unfold push_partial. rewrite Hc. cbn [pf_type pf_message_id pf_payload frame_type message_id payload frame_continuation].
    rewrite bool_decide_true, Z.eqb_refl by done. cbn [negb orb max_message_bytes].
    rewrite payload_len_take, validate_non_final_ok by lia. rewrite checked_add_ok by lia. cbn [ok_or].
    rewrite (proj2 (Z.ltb_ge _ _)) by lia.
    assert (take (Z.to_nat off) (payload f) ++ p = take (Z.to_nat (off + MAX_FRAME_PAYLOAD_SIZE)) (payload f)) as ->.
    { rewrite <- Ht, Z2Nat.inj_add, take_take_drop by lia. done. }
    rewrite IH by lia. done.
Qed.

(** C29: a message within the limit goes through: cutting it terminates, every fragment
    fits one transport frame, the fragments carry exactly its bytes, and a receiver fed
    with them in order completes exactly this one message and is ready for the next. *)
Theorem fragment_roundtrip f max :
  Z_of_byte (flags f) = 0 -> 0 <= message_id f <= U64_MAX ->
  payload_len (payload f) <= max -> max <= U64_MAX - MAX_FRAME_PAYLOAD_SIZE ->
  exists it, agent_frame_fragments f max = Ok it
    /\ frag_done (snd (collect (S (length (payload f))) it)) = true
    /\ Forall (fun g => sendable g = true) (all_fragments it)
    /\ concat (map payload (all_fragments it)) = payload f
    /\ feed (all_fragments it) (reassembler_new max) = (Ok [f], reassembler_new max).
Proof.
  intros Hfl Hid Hle Hmax. pose proof max_frame_pos as Hpos. exists (mkFragments f 0 false).
  assert (f = mkFrame (frame_type f) (message_id f) x00 (payload f)) as Hf0.
  { destruct f as [t i fl p]. cbn in *. f_equal. rewrite <- (byte_of_Z_of_byte fl), Hfl. done. }
  destruct (collect_complete (S (length (payload f))) f 0) as [Hfr Hdone];
    [lia|unfold payload_len; lia|lia|unfold payload_len; lia|].
  change (fst (collect _ _)) with (all_fragments (mkFragments f 0 false)) in Hfr.
  split_and!.
  - unfold agent_frame_fragments. rewrite Hfl, (proj2 (Z.ltb_ge _ _)) by lia. done.
  - exact Hdone.
  - by eapply fragmented_sendable.
  - by rewrite (fragmented_payload _ _ _ Hfr).
  - inversion Hfr as [off p Hp Hd E0 E1|off p fs Hp Hoff Hlt Ht Hrest E0 E1]; subst off.
    + change (drop (Z.to_nat 0) (payload f)) with (payload f) in Hd. subst p.
      assert (frame_continuation (frame_type f) (message_id f) (payload f) false = f) as -> by (by rewrite Hf0).
      cbn [feed]. unfold push. assert (flags f = x00) as Hx by (by rewrite Hf0).
      assert (has_continuation f = false) as Hnc by (unfold has_continuation; by rewrite Hx).
      rewrite Hx, Hnc. change (reserved_flags x00) with false. cbn [negb partial reassembler_new max_message_bytes].
      by rewrite (proj2 (Z.ltb_ge _ _)) by lia.
    + change (drop (Z.to_nat 0) (payload f)) with (payload f) in Ht.
      cbn [feed]. unfold push. destruct (flags_continuation (frame_type f) (message_id f) p true) as [-> ->].
      cbn [negb partial reassembler_new max_message_bytes payload frame_continuation frame_type message_id].
      rewrite validate_non_final_ok by lia. rewrite Z.add_0_l in Hrest. rewrite <- Ht.
      rewrite (feed_rest f max MAX_FRAME_PAYLOAD_SIZE fs) by (done || lia). by rewrite <- Hf0.
Qed.

(** ** What a receiver holds *)

(** The bytes of the message being put together: always a whole number of full frames,
    and strictly below the limit. *)
Definition held (r : AgentFrameReassembler) : list byte :=
  match partial r with Some p => pf_payload p | None => [] end.

Definition reassembler_inv (r : AgentFrameReassembler) : Prop :=
  match partial r with
  | None => True
  | Some p => payload_len (pf_payload p) < max_message_bytes r
      /\ exists k, 0 < k /\ payload_len (pf_payload p) = k * MAX_FRAME_PAYLOAD_SIZE
  end.

Lemma validate_non_final_inv max p cur u :
  validate_non_final max p cur = Ok u -> payload_len p = MAX_FRAME_PAYLOAD_SIZE /\ cur + payload_len p < max.
Proof.
  unfold validate_non_final. destruct (Z.eqb_spec (payload_len p) MAX_FRAME_PAYLOAD_SIZE) as [E|]; [|done]. cbn [negb].
  unfold u64_checked_add. destruct (Z.leb_spec (cur + payload_len p) U64_MAX); [|done]. cbn.
  destruct (Z.leb_spec max (cur + payload_len p)); [done|]. done.
Qed.

(** One frame: the buffer and what is completed, byte for byte. *)
Lemma push_step f r :
  reassembler_inv r ->
  let '(res, r') := push f r in
  reassembler_inv r' /\ max_message_bytes r' = max_message_bytes r /\
  match res with
  | Err _ => r' = r
  | Ok None => held r' = held r ++ payload f
  | Ok (Some m) => payload m = held r ++ payload f /\ held r' = [] /\ payload_len (payload m) <= max_message_bytes r
      /\ frame_type m = frame_type f /\ message_id m = message_id f /\ flags m = x00
  end.
Proof.
  intros Hinv. unfold push, held. destruct (reserved_flags (flags f)) eqn:Hres; [done|].
  destruct (partial r) as [p|] eqn:Hp.
  - unfold push_partial. unfold reassembler_inv in Hinv. rewrite Hp in Hinv. destruct Hinv as (Hlt & k & Hk & Hlen).
    assert (reassembler_inv r) as Hinv by (unfold reassembler_inv; rewrite Hp; eauto).
    case_bool_decide as Ht; [|done]. destruct (Z.eqb_spec (pf_message_id p) (message_id f)) as [Hi|]; [|done]. cbn [negb orb].
    destruct (has_continuation f).
    + destruct (validate_non_final _ _ _) as [u|e] eqn:Hv; [|done]. apply validate_non_final_inv in Hv as [Hpl Hsum].
      unfold u64_checked_add. destruct (Z.leb_spec (payload_len (pf_payload p) + payload_len (payload f)) U64_MAX); [|done].
      cbn [ok_or]. destruct (Z.ltb_spec (max_message_bytes r) (payload_len (pf_payload p) + payload_len (payload f))); [done|].
      split_and!; try done. unfold reassembler_inv. cbn. rewrite payload_len_app. split; [lia|]. exists (k + 1). lia.
    + destruct (payload_len (payload f) =? 0); [done|]. unfold u64_checked_add.
      destruct (Z.leb_spec (payload_len (pf_payload p) + payload_len (payload f)) U64_MAX); [|done].
      cbn [ok_or]. destruct (Z.ltb_spec (max_message_bytes r) (payload_len (pf_payload p) + payload_len (payload f))); [done|].
      split_and!; try done. cbn. rewrite payload_len_app. lia.
  - destruct (has_continuation f) eqn:Hc; cbn [negb].
    + destruct (validate_non_final _ _ _) as [u|e] eqn:Hv; [|done]. apply validate_non_final_inv in Hv as [Hpl Hsum].
      split_and!; try done. unfold reassembler_inv. cbn. split; [lia|]. exists 1. lia.
    + destruct (Z.ltb_spec (max_message_bytes r) (payload_len (payload f))); [done|]. split_and!; try done.
      * by rewrite Hp.
      * apply flags_zero; [done|]. unfold has_continuation in Hc. by apply negb_false_iff, Z.eqb_eq in Hc.
Qed.

Lemma feed_step fs r :
  reassembler_inv r ->
  let '(res, r') := feed fs r in
  reassembler_inv r' /\ max_message_bytes r' = max_message_bytes r /\
  match res with
  | Err _ => True
  | Ok outs => held r ++ concat (map payload fs) = concat (map payload outs) ++ held r'
      /\ Forall (fun m => payload_len (payload m) <= max_message_bytes r /\ flags m = x00) outs
  end.
Proof.
  revert r. induction fs as [|f fs IH]; intros r Hinv; cbn [feed].
  { split_and!; try done. cbn. by rewrite app_nil_r. }
  pose proof (push_step f r Hinv) as Hpush. destruct (push f r) as [[out|e] r1].
  2: { destruct Hpush as (H1 & H2 & _). by split_and!. }
  destruct Hpush as (Hinv1 & Hmax1 & Hout). specialize (IH r1 Hinv1).
  destruct (feed fs r1) as [[outs|e] r2]; destruct IH as (Hinv2 & Hmax2 & Hfeed); (split; [done|split; [congruence|]]); [|done].
  destruct Hfeed as [Hbytes Hall]. rewrite Hmax1 in Hall. destruct out as [m|]; cbn [map concat].
  - destruct Hout as (Hm & Hh & Hlen & _ & _ & Hfl). rewrite Hh in Hbytes. cbn in Hbytes. split.
    + rewrite app_assoc, <- Hm, Hbytes. by rewrite app_assoc.
    + by constructor.
  - split; [|done]. by rewrite app_assoc, <- Hout.
Qed.

(** C30: whatever frames arrive, in whatever order, the receiver never holds as much as
    its byte limit, and what it completes is byte for byte what it received: the
    payloads it was given, concatenated, are the payloads of the completed messages in
    order followed by what is still held; each completed message is within the limit and
    carries no transport flags. *)
Theorem reassembly_bounded fs max :
  0 < max ->
  let '(res, r') := feed fs (reassembler_new max) in
  payload_len (held r') < max /\
  match res with
  | Err _ => True
  | Ok outs => concat (map payload fs) = concat (map payload outs) ++ held r'
      /\ Forall (fun m => payload_len (payload m) <= max /\ flags m = x00) outs
  end.
Proof.
  intros Hmax. pose proof (feed_step fs (reassembler_new max) I) as H.
  destruct (feed fs (reassembler_new max)) as [res r']. destruct H as (Hinv & Hm & H). split.
  - unfold held. unfold reassembler_inv in Hinv. cbn in Hm. rewrite Hm in Hinv.
    destruct (partial r') as [p|]; [apply Hinv|done].
  - by destruct res.
Qed.

(** ** At concrete values *)

Definition demo_message : Frame := mkFrame RpcRequest 42 x00 [x61; x62; x63].

Lemma fragment_roundtrip_witness :
  exists it, agent_frame_fragments demo_message 1000 = Ok it
    /\ feed (all_fragments it) (reassembler_new 1000) = (Ok [demo_message], reassembler_new 1000).
Proof.
  destruct (fragment_roundtrip demo_message 1000) as (it & H1 & _ & _ & _ & H2);
    [reflexivity|cbn; unfold U64_MAX; lia|vm_compute; discriminate|rewrite max_frame_payload; unfold U64_MAX; lia|].
  by exists it.
Defined.

Lemma reassembly_bounded_witness :
  let '(res, r') := feed [demo_message; demo_message] (reassembler_new 1000) in
  payload_len (held r') < 1000.
Proof.
  pose proof (reassembly_bounded [demo_message; demo_message] 1000 eq_refl) as H.
  destruct (feed [demo_message; demo_message] (reassembler_new 1000)) as [res r']. apply H.
Defined.
