(* ===== verification/AntiReplay.v ===== *)
(** * Anti-replay window

    Models [crates/protocol/src/anti_replay.rs]. [Instant]s are [Z] seconds; a call that
    reads the clock twice takes both readings. *)

From Stdlib Require Import String Sorted.
From stdpp Require Import base gmap list strings.
From S2P Require Import Prelude.
Open Scope Z_scope.

Definition REPLAY_WINDOW_SECS : Z := 300.

Record AntiReplay := mkAntiReplay {
  last_seen : Z;
  recently_seen : gmap Z Z;
  active_stream_id : option Z;
}.

Definition anti_replay_new : AntiReplay := mkAntiReplay 0 ∅ None.

Definition set_active_stream (id : Z) (a : AntiReplay) : AntiReplay :=
  mkAntiReplay (last_seen a) (recently_seen a) (Some id).
Definition clear_active_stream (a : AntiReplay) : AntiReplay :=
  mkAntiReplay (last_seen a) (recently_seen a) None.

(** [check]: [now] is the reading for the cutoff, [now'] the one stored with the id. *)
Definition check_id (now now' : Z) (id : Z) (a : AntiReplay) : result string unit * AntiReplay :=
  if id =? 0 then (Err "invalid message_id"%string, a) else
  if bool_decide (active_stream_id a = Some id) then (Ok tt, a) else
  let cutoff := now - REPLAY_WINDOW_SECS in
  let seen := filter (fun e => cutoff < snd e) (recently_seen a) in
  let a := mkAntiReplay (last_seen a) seen (active_stream_id a) in
  if last_seen a =? 0 then (Ok tt, mkAntiReplay id (<[id := now']> seen) (active_stream_id a)) else
  if id <=? last_seen a then (Err "replay"%string, a) else
  if bool_decide (is_Some (seen !! id)) then (Err "duplicate"%string, a) else
  (Ok tt, mkAntiReplay id (<[id := now']> seen) (active_stream_id a)).

(** ** Sessions *)

Inductive event :=
  | EvStream (id : Z)
  | EvEndStream
  | EvCheck (now now' id : Z).

(** What a session accepted outside its active streams, newest first, and its state. *)
Fixpoint session (es : list event) (acc : list Z) (a : AntiReplay) : list Z * AntiReplay :=
  match es with
  | [] => (acc, a)
  | EvStream id :: es' => session es' acc (set_active_stream id a)
  | EvEndStream :: es' => session es' acc (clear_active_stream a)
  | EvCheck now now' id :: es' =>
      match check_id now now' id a with
      | (Ok _, a') =>
          session es' (if bool_decide (active_stream_id a = Some id) then acc else id :: acc) a'
      | (Err _, a') => session es' acc a'
      end
  end.

(** Every remembered id is at most [last_seen]. *)
Record replay_inv (a : AntiReplay) : Prop := {
  ri_nonneg : 0 <= last_seen a;
  ri_seen id t : recently_seen a !! id = Some t -> id <= last_seen a;
}.

Lemma check_id_step now now' id a :
  0 <= id -> replay_inv a ->
  let '(res, a') := check_id now now' id a in
  replay_inv a' /\ last_seen a <= last_seen a' /\ res <> Err "duplicate"%string
  /\ match res with
     | Ok _ => (active_stream_id a = Some id /\ a' = a) \/
         (active_stream_id a <> Some id /\ last_seen a < id /\ last_seen a' = id)
     | Err _ => last_seen a' = last_seen a
         /\ (id = 0 \/ active_stream_id a <> Some id /\ id <= last_seen a /\ last_seen a <> 0)
     end.
Proof.
  intros Hid [Hn Hs]. unfold check_id. destruct (Z.eqb_spec id 0) as [->|Hne].
  { split_and!; try done. by left. }
  case_bool_decide as Hact; [split_and!; try done; by left|].
  set (seen := filter _ (recently_seen a)).
  assert (forall j t, seen !! j = Some t -> j <= last_seen a) as Hseen.
  { intros j t [Hj _]%map_lookup_filter_Some. by apply (Hs j t). }
  assert (forall x, last_seen a < x ->
    replay_inv (mkAntiReplay x (<[x := now']> seen) (active_stream_id a))) as Hins.
  { intros x Hx. split; cbn; [lia|]. intros j t [[<- _]|[_ Hj]]%lookup_insert_Some; [lia|].
    apply Hseen in Hj. lia. }
  cbn [last_seen]. destruct (Z.eqb_spec (last_seen a) 0) as [E|E].
  { split_and!; cbn; try done; [apply Hins; lia|lia|]. right. split_and!; [done|lia|done]. }
  destruct (Z.leb_spec id (last_seen a)) as [Hle|Hgt].
  { split_and!; cbn; try done; try lia. right. by split_and!. }
  case_bool_decide as Hdup; [destruct Hdup as [t Ht]; apply Hseen in Ht; lia|].
  split_and!; cbn; try done; [by apply Hins|lia|]. right. by split_and!.
Qed.

Definition ids_nonneg (es : list event) : Prop :=
  Forall (fun e => match e with EvCheck _ _ id => 0 <= id | _ => True end) es.

Lemma session_step es acc a :
  ids_nonneg es -> replay_inv a -> StronglySorted Z.gt acc -> Forall (fun x => x <= last_seen a) acc ->
  let '(acc', a') := session es acc a in
  replay_inv a' /\ StronglySorted Z.gt acc' /\ Forall (fun x => x <= last_seen a') acc'.
Proof.
  revert acc a. induction es as [|e es IH]; intros acc a Hes Hinv Hsort Hle; [done|].
  apply Forall_cons in Hes as [He Hes]. destruct e as [id| |now now' id]; cbn [session].
  - apply IH; try done. by destruct Hinv.
  - apply IH; try done. by destruct Hinv.
  - pose proof (check_id_step now now' id a He Hinv) as Hstep.
    destruct (check_id now now' id a) as [[u|e] a']; destruct Hstep as (Hinv' & Hmono & _ & Hres).
    + destruct Hres as [[Hact ->]|(Hact & Hlt & Hnew)].
      * rewrite bool_decide_true by done. by apply IH.
      * rewrite bool_decide_false by done. apply IH; try done.
        -- constructor; [done|]. eapply Forall_impl; [exact Hle|]. cbn. intros x Hx. lia.
        -- constructor; [lia|]. eapply Forall_impl; [exact Hle|]. cbn. intros x Hx. lia.
    + apply IH; try done. eapply Forall_impl; [exact Hle|]. cbn. intros x Hx. lia.
Qed.

(** C32: over a whole session, the message ids accepted outside an active stream are
    strictly increasing, so none is accepted twice, however old the first time is and
    whatever the clock does. *)
Theorem no_replay es :
  ids_nonneg es -> let '(accepted, _) := session es [] anti_replay_new in
  StronglySorted Z.gt accepted /\ NoDup accepted.
Proof.
  intros Hes. pose proof (session_step es [] anti_replay_new Hes) as H.
  destruct (session es [] anti_replay_new) as [acc a].
  destruct H as (_ & Hsort & _); [by split|constructor|constructor|].
  split; [done|]. induction Hsort as [|x l Hs IH Hall]; [constructor|]. constructor; [|done].
  intros Hin. rewrite Forall_forall in Hall. specialize (Hall x Hin). lia.
Qed.

(** a refused id is one the window must refuse: 0, or an id not above the last one
    accepted; the refusal changes nothing the window decides by, and the cache of recent
    ids never decides: an id above the last one accepted is always accepted. *)
Theorem refusals_are_replays now now' id a :
  0 <= id -> replay_inv a -> active_stream_id a <> Some id ->
  (exists e, fst (check_id now now' id a) = Err e) <-> (id = 0 \/ (last_seen a <> 0 /\ id <= last_seen a)).
Proof.
  intros Hid Hinv Hact. pose proof (check_id_step now now' id a Hid Hinv) as Hstep.
  destruct (check_id now now' id a) as [[u|e] a']; destruct Hstep as (_ & _ & _ & Hres); cbn; split.
  - by intros [e ?].
  - destruct Hres as [[? _]|(_ & Hlt & _)]; [done|]. destruct Hinv. lia.
  - intros _. destruct Hres as (_ & [?|(_ & ? & ?)]); tauto.
  - by eauto.
Qed.

(** ** At concrete values *)

Lemma no_replay_witness :
  fst (session [EvCheck 0 0 5; EvCheck 1 1 5; EvCheck 2 2 7; EvCheck 900 900 5] [] anti_replay_new) = [7; 5]
  /\ NoDup [7; 5].
Proof.
  split; [vm_compute; reflexivity|].
  pose proof (no_replay [EvCheck 0 0 5; EvCheck 1 1 5; EvCheck 2 2 7; EvCheck 900 900 5]) as H.
  assert (ids_nonneg [EvCheck 0 0 5; EvCheck 1 1 5; EvCheck 2 2 7; EvCheck 900 900 5]) as Hn
    by (repeat constructor; lia).
  specialize (H Hn). vm_compute in H. exact (proj2 H).
Defined.

Lemma refusals_are_replays_witness :
  exists e, fst (check_id 0 0 5 (snd (check_id 0 0 5 anti_replay_new))) = Err e.
Proof.
  assert (replay_inv (snd (check_id 0 0 5 anti_replay_new))) as Hinv.
  { pose proof (check_id_step 0 0 5 anti_replay_new ltac:(lia)) as H.
    destruct (check_id 0 0 5 anti_replay_new). apply H. by split. }
  apply (refusals_are_replays 0 0 5 (snd (check_id 0 0 5 anti_replay_new)));
    [lia|exact Hinv|discriminate|right; vm_compute; split; discriminate].
Defined.
