(* ===== verification/CatalogSession.v ===== *)
(** * Catalog commands on a vault session

    Models the handlers of the catalog commands that change the tree,
    [crates/core/src/rpc/commands/catalog/crud.rs] (create, rename),
    [crates/core/src/rpc/commands/catalog/mutate.rs] (delete, move),
    [crates/core/src/rpc/commands/catalog/exchange.rs] and
    [crates/core/src/rpc/commands/catalog/trash.rs], with the path and
    system-shard guards of [crates/core/src/rpc/commands/guards.rs] and the parts of
    [crates/core/src/vault/session.rs] they work on: the catalog, the dirty flag, the
    pending deltas per shard and the chunk cache. Requests are the parsed ones. An
    error's text is the error itself, [RespErr]; [bypass] is the thread-local counter
    that internal callers raise to pass the guards. The trash commands first read the trash
    shard from the storage; what they read is an argument, [loaded]. *)

From Stdlib Require Import Ascii String.
From stdpp Require Import base gmap strings list.
From S2P Require Import Prelude.
From S2P Require Import CatalogNode.
From S2P Require Import CatalogManager.
From S2P Require Import CatalogTree.
From S2P Require Import CatalogInvariant.
From S2P Require Import CatalogOps.
From S2P Require Import CatalogMove.
From S2P Require Import CatalogTrash.
From S2P Require Import CatalogExchange.
From S2P Require Import CatalogDelta.
From S2P Require Import CatalogReplay.
From S2P Require Import CatalogShard.
From S2P Require Import ChunkCache.
Open Scope Z_scope.

(** ** The session *)

Record VaultSession := mkSession {
  catalog : CatalogManager;
  dirty : bool;
  pending_deltas : gmap string (list DeltaEntry);
  chunk_cache : DecryptedChunkCache;
  bypass : Z;
}.

Definition catalog_mut {A} (f : M A) (s : VaultSession) : result Error A * VaultSession :=
  let '(r, m) := f (catalog s) in
  (r, mkSession m true (pending_deltas s) (chunk_cache s) (bypass s)).

(** [ensure_shard_loaded], given what [load_shard_from_storage] returns. *)
Definition ensure_shard_loaded (loaded : result Error (option Shard)) (s : VaultSession) : result Error VaultSession :=
  match loaded with
  | Err e => Err e
  | Ok None => Ok s
  | Ok (Some shard) =>
      Ok (mkSession (upsert_root_child (sh_root shard) (catalog s)) (dirty s) (pending_deltas s) (chunk_cache s) (bypass s))
  end.

Definition record_delta (shard_id : string) (d : DeltaEntry) (s : VaultSession) : VaultSession :=
  mkSession (catalog s) (dirty s)
    (<[shard_id := default [] (pending_deltas s !! shard_id) ++ [d]]> (pending_deltas s))
    (chunk_cache s) (bypass s).

Definition invalidate_chunks (ids : list Z) (s : VaultSession) : VaultSession :=
  mkSession (catalog s) (dirty s) (pending_deltas s)
    (foldl (fun c id => invalidate_node id c) (chunk_cache s) ids) (bypass s).

(** ** Responses *)

Inductive ErrorCode :=
  EmptyPayload | CodeNodeNotFound | NameExist | NotADir | AccessDenied | InternalError
  | InvalidInput | CodeInvalidPath | DeltasLost.

Record CatalogTrashListItem := mkTrashItem {
  ti_node_id : Z;
  ti_name : string;
  ti_is_dir : bool;
  ti_size : option Z;
  ti_mime_type : option string;
  ti_media_info : option CatalogMediaInfo;
  ti_media_inspected_revision : Z;
  ti_source_revision : Z;
  ti_created_at : Z;
  ti_updated_at : Z;
  ti_original_path : string;
  ti_deleted_at : Z;
  ti_trash_name : string;
}.

Inductive RpcResponse :=
  | RespNull
  | RespNode (id : Z)
  | RespTrashed (id : Z) (original_path : string) (deleted_at : Z) (trash_name : string)
  | RespRestored (id : Z) (restored_path : string)
  | RespRemoved (removed : Z)
  | RespTrashList (items : list CatalogTrashListItem)
  | RespMissing (what : string) (code : ErrorCode)
  | RespErr (e : Error) (code : ErrorCode)
  | RespDenied (code : ErrorCode).

Definition system_shard_denied : RpcResponse := RespDenied AccessDenied.

Definition create_error_code (e : Error) : ErrorCode :=
  match e with
  | NameExists _ => NameExist
  | InvalidName _ => EmptyPayload
  | InvalidPath _ => CodeNodeNotFound
  | NotADirectory _ => NotADir
  | _ => InternalError
  end.

Definition rename_error_code (e : Error) : ErrorCode :=
  match e with
  | NodeNotFound _ => CodeNodeNotFound
  | NameExists _ => NameExist
  | InvalidName _ => EmptyPayload
  | CannotModifyRoot => CodeNodeNotFound
  | InvalidPath _ => CodeNodeNotFound
  | _ => InternalError
  end.

Definition move_error_code (e : Error) : ErrorCode :=
  match e with
  | NodeNotFound _ => CodeNodeNotFound
  | NameExists _ => NameExist
  | InvalidName _ => EmptyPayload
  | InvalidPath _ => CodeNodeNotFound
  | NotADirectory _ => NotADir
  | CannotModifyRoot => CodeNodeNotFound
  | _ => InternalError
  end.

(** [catalog_error_response] of exchange.rs and of trash.rs. *)
Definition exchange_error_code (e : Error) : ErrorCode :=
  match e with
  | NodeNotFound _ => CodeNodeNotFound
  | NameExists _ => NameExist
  | InvalidName _ => EmptyPayload
  | InvalidPath message => if str_contains "same node type" message then InvalidInput else CodeInvalidPath
  | NotADirectory _ => NotADir
  | CannotModifyRoot => CodeNodeNotFound
  | _ => InternalError
  end.

Definition trash_error_code (e : Error) : ErrorCode :=
  match e with
  | NodeNotFound _ => CodeNodeNotFound
  | NameExists _ => NameExist
  | InvalidName _ => EmptyPayload
  | InvalidPath _ => CodeInvalidPath
  | NotADirectory _ => NotADir
  | CannotModifyRoot => CodeNodeNotFound
  | _ => InternalError
  end.

(** ** Paths (guards.rs) *)

Definition normalize_path (path : string) : string :=
  match List.filter (fun s => negb (string_is_empty s)) (split_char slash path) with
  | [] => "/"
  | parts => String.append "/" (str_join "/" parts)
  end.

(** The components of a normalized path. *)
Definition norm_parts (path : string) : list string :=
  List.filter (fun s => negb (string_is_empty s)) (split_char slash (normalize_path path)).

(** [guards::shard_id_from_path]. *)
Definition path_shard_id (path : string) : option string := head (norm_parts path).

Definition shard_relative_path (shard_id path : string) : option string :=
  match norm_parts path with
  | [] => Some "/"%string
  | part :: rest =>
      if negb (String.eqb part shard_id) then None
      else match rest with
           | [] => Some "/"%string
           | _ => Some (String.append "/" (str_join "/" rest))
           end
  end.

Definition parent_dir (path : string) : string :=
  if String.eqb (normalize_path path) "/" then "/"%string
  else let parts := norm_parts path in
       if bool_decide (length parts <= 1)%nat then "/"%string
       else String.append "/" (str_join "/" (take (length parts - 1) parts)).

Definition join_catalog_path (parent_path nm : string) : string :=
  let parent := normalize_path parent_path in
  if String.eqb parent "/" then String.append "/" nm
  else String.append parent (String.append "/" nm).

Definition is_system_node (s : VaultSession) (id : Z) : bool :=
  if 0 <? bypass s then false
  else match get_path (catalog s) id with
       | Some path => is_system_path path
       | None => false
       end.

Definition is_system_path_guarded (s : VaultSession) (path : string) : bool :=
  if 0 <? bypass s then false else is_system_path path.

(** [collect_file_node_ids]: the files of a subtree. *)
Fixpoint collect_file_node_ids (n : CatalogNode) : list Z :=
  match n with
  | mkNode id ty _ _ _ _ _ _ _ _ _ _ _ co =>
      if bool_decide (ty = File) then [id]
      else match co with
           | None => []
           | Some cs => concat (map collect_file_node_ids cs)
           end
  end.

(** ** Create (crud.rs) *)

(** The delta the handler records for a node created under [parent_path]; [ts] is the
    delta's own clock reading. *)
Definition record_created (ts : Z) (parent_path : string) (id : Z) (s : VaultSession) : VaultSession :=
  let parent_norm := normalize_path parent_path in
  if String.eqb parent_norm "/" then s else
  match path_shard_id parent_norm with
  | None => s
  | Some shard_id =>
      match shard_relative_path shard_id parent_norm, find_by_id (catalog s) id with
      | Some rel_parent, Some node => record_delta shard_id (de_create ts 0 rel_parent node) s
      | _, _ => s
      end
  end.

Definition create_catalog_dir (clk : clock) (parent_path nm : string) (s : VaultSession)
    : RpcResponse * VaultSession :=
  if is_system_path_guarded s parent_path then (system_shard_denied, s) else
  if String.eqb parent_path "/" && is_system_path_guarded s (String.append "/" nm)
  then (system_shard_denied, s) else
  match catalog_mut (create_dir clk parent_path nm) s with
  | (Ok id, s) => (RespNode id, record_created (clk 2%nat) parent_path id s)
  | (Err e, s) => (RespErr e (create_error_code e), s)
  end.

(** ** Rename (crud.rs) *)

Definition record_renamed (ts : Z) (old_path : option string) (id : Z) (new_name : string)
    (s : VaultSession) : VaultSession :=
  match old_path with
  | None => s
  | Some old_path =>
      match path_shard_id old_path with
      | None => s
      | Some shard_id =>
          match shard_relative_path shard_id old_path with
          | None => s
          | Some rel_path =>
              if String.eqb rel_path "/" then s
              else record_delta shard_id
                     (with_node_id id (de_move ts 0 rel_path (parent_dir rel_path) (Some new_name))) s
          end
      end
  end.

Definition rename_catalog_node (clk : clock) (id : Z) (new_name : string) (s : VaultSession)
    : RpcResponse * VaultSession :=
  if is_system_node s id then (system_shard_denied, s) else
  let old_path := normalize_path <$> get_path (catalog s) id in
  match catalog_mut (rename clk id new_name) s with
  | (Ok _, s) => (RespNull, record_renamed (clk 1%nat) old_path id new_name s)
  | (Err e, s) => (RespErr e (rename_error_code e), s)
  end.

(** ** Delete (mutate.rs) *)

Definition record_deleted (ts : Z) (old_path : option string) (id : Z) (s : VaultSession) : VaultSession :=
  match old_path with
  | None => s
  | Some old_path =>
      match path_shard_id old_path with
      | None => s
      | Some shard_id =>
          match shard_relative_path shard_id old_path with
          | None => s
          | Some rel_path =>
              if String.eqb rel_path "/" then s
              else record_delta shard_id (with_node_id id (de_delete ts 0 rel_path)) s
          end
      end
  end.

(** The response, the files whose derivatives the caller deletes, and the session. *)
Definition delete_catalog_node (clk : clock) (id : Z) (s : VaultSession)
    : RpcResponse * list Z * VaultSession :=
  if is_system_node s id then (system_shard_denied, [], s) else
  let file_node_ids := match find_by_id (catalog s) id with
                       | Some n => collect_file_node_ids n
                       | None => []
                       end in
  let old_path := normalize_path <$> get_path (catalog s) id in
  match catalog_mut (delete_node clk id) s with
  | (Ok _, s) =>
      (RespNull, file_node_ids, invalidate_chunks file_node_ids (record_deleted (clk 1%nat) old_path id s))
  | (Err e, s) =>
      match e with
      | NodeNotFound _ => (RespNull, [], invalidate_chunks [id] s)
      | CannotModifyRoot => (RespErr e CodeNodeNotFound, [], s)
      | _ => (RespErr e InternalError, [], s)
      end
  end.

(** ** Move (mutate.rs) *)

(** The deltas of a move that happened: within a shard, across shards, or out of one. *)
Definition record_moved (ts ts' : Z) (old_path new_parent_norm : string) (id : Z) (new_name : option string)
    (node : CatalogNode) (s : VaultSession) : VaultSession :=
  match path_shard_id old_path, path_shard_id new_parent_norm with
  | Some old_shard, Some new_shard =>
      if String.eqb old_shard new_shard then
        match shard_relative_path old_shard old_path, shard_relative_path old_shard new_parent_norm with
        | Some rel_path, Some rel_parent =>
            if String.eqb rel_path "/" then s
            else record_delta old_shard (with_node_id id (de_move ts 0 rel_path rel_parent new_name)) s
        | _, _ => s
        end
      else
        match shard_relative_path old_shard old_path, shard_relative_path new_shard new_parent_norm with
        | Some rel_old, Some rel_new_parent =>
            let s := if String.eqb rel_old "/" then s
                     else record_delta old_shard (with_node_id id (de_delete ts 0 rel_old)) s in
            record_delta new_shard (de_create ts' 0 rel_new_parent node) s
        | _, _ => s
        end
  | Some old_shard, None =>
      match shard_relative_path old_shard old_path with
      | Some rel_old => if String.eqb rel_old "/" then s
                        else record_delta old_shard (with_node_id id (de_delete ts 0 rel_old)) s
      | None => s
      end
  | None, Some new_shard =>
      match shard_relative_path new_shard new_parent_norm with
      | Some rel_new_parent => record_delta new_shard (de_create ts' 0 rel_new_parent node) s
      | None => s
      end
  | None, None => s
  end.

(** [move_catalog_node_inner]. *)
Definition move_catalog_node (clk : clock) (id : Z) (new_parent_path : string)
    (new_name : option string) (replace_existing : bool) (s : VaultSession)
    : RpcResponse * list Z * VaultSession :=
  if is_system_node s id || is_system_path_guarded s new_parent_path
  then (system_shard_denied, [], s) else
  let m := catalog s in
  let old_path := normalize_path <$> get_path m id in
  let current_name := node_name <$> find_by_id m id in
  let destination_name := match new_name with Some n => Some n | None => current_name end in
  let destination_path := join_catalog_path new_parent_path <$> destination_name in
  let replaced_node :=
    if replace_existing then
      path ← destination_path;
      n ← find_by_path m path;
      if node_id n =? id then None else Some n
    else None in
  let replaced_path := normalize_path <$> (n ← replaced_node; get_path m (node_id n)) in
  let replaced_ids := match replaced_node with Some n => collect_file_node_ids n | None => [] end in
  match catalog_mut (move_node_with_options clk id new_parent_path new_name replace_existing) s with
  | (Err e, s) => (RespErr e (move_error_code e), [], s)
  | (Ok _, s) =>
      let s := match replaced_node with
               | Some n => record_deleted (clk 4%nat) replaced_path (node_id n) s
               | None => s
               end in
      let s := match old_path, find_by_id (catalog s) id with
               | Some old_path, Some node =>
                   record_moved (clk 5%nat) (clk 6%nat) old_path (normalize_path new_parent_path) id new_name node s
               | _, _ => s
               end in
      (RespNull, replaced_ids, invalidate_chunks replaced_ids s)
  end.

(** ** Deltas of commands that change several nodes (deltas.rs) *)

Definition record_delete_delta (ts : Z) (full_path : string) (id : Z) (s : VaultSession) : VaultSession :=
  let path := normalize_path full_path in
  match path_shard_id path with
  | None => s
  | Some shard_id =>
      match shard_relative_path shard_id path with
      | None => s
      | Some rel_path =>
          if negb (String.eqb rel_path "/") then record_delta shard_id (with_node_id id (de_delete ts 0 rel_path)) s else s
      end
  end.

Definition record_create_delta_for_path (ts : Z) (full_path : string) (node : CatalogNode) (s : VaultSession) : VaultSession :=
  let path := normalize_path full_path in
  let parent := parent_dir path in
  if String.eqb parent "/" then s else
  match path_shard_id path with
  | None => s
  | Some shard_id =>
      match shard_relative_path shard_id parent with
      | None => s
      | Some rel_parent => record_delta shard_id (de_create ts 0 rel_parent node) s
      end
  end.

(** ** Exchange (exchange.rs) *)

(** The node [id] as it is now, recorded where it is now. *)
Definition record_created_now (ts : Z) (id : Z) (s : VaultSession) : VaultSession :=
  match find_by_id (catalog s) id with
  | None => s
  | Some node =>
      match get_path (catalog s) id with
      | None => s
      | Some new_path => record_create_delta_for_path ts new_path node s
      end
  end.

Definition record_deleted_at (ts : Z) (old_path : option string) (id : Z) (s : VaultSession) : VaultSession :=
  match old_path with
  | None => s
  | Some old_path => record_delete_delta ts old_path id s
  end.

Definition exchange_catalog_nodes (clk : clock) (src dst : Z) (s : VaultSession) : RpcResponse * VaultSession :=
  if is_system_node s src || is_system_node s dst then (system_shard_denied, s) else
  let src_old_path := get_path (catalog s) src in
  let dst_old_path := get_path (catalog s) dst in
  match catalog_mut (exchange_nodes clk src dst) s with
  | (Ok _, s) =>
      let s := record_deleted_at (clk 6%nat) src_old_path src s in
      let s := record_deleted_at (clk 7%nat) dst_old_path dst s in
      let s := record_created_now (clk 8%nat) src s in
      (RespNull, record_created_now (clk 9%nat) dst s)
  | (Err e, s) => (RespErr e (exchange_error_code e), s)
  end.

(** ** Trash (trash.rs) *)

(** [ensure_trash_shard_loaded(..)?], then [k]. *)
Definition with_trash_shard {A} (loaded : result Error (option Shard)) (s : VaultSession)
    (failed : RpcResponse -> A) (k : VaultSession -> A) : A :=
  match ensure_shard_loaded loaded s with
  | Err e => failed (RespErr e DeltasLost)
  | Ok s => k s
  end.

Definition trash_catalog_node (clk : clock) (loaded : result Error (option Shard)) (id : Z) (s : VaultSession)
    : RpcResponse * VaultSession :=
  if is_system_node s id then (system_shard_denied, s) else
  with_trash_shard loaded s (fun resp => (resp, s)) (fun s =>
  let old_path := get_path (catalog s) id in
  match catalog_mut (trash_node clk id) s with
  | (Ok node, s) =>
      let s := record_deleted_at (clk 7%nat) old_path id s in
      let s := match get_path (catalog s) id with
               | Some new_path => record_create_delta_for_path (clk 8%nat) new_path node s
               | None => s
               end in
      (match node_trash node with
       | None => RespMissing "Trash metadata missing after trash operation" InternalError
       | Some metadata => RespTrashed id (original_path metadata) (deleted_at metadata) (trash_name metadata)
       end, s)
  | (Err e, s) => (RespErr e (trash_error_code e), s)
  end).

Definition restore_catalog_node (clk : clock) (loaded : result Error (option Shard)) (id : Z)
    (restore_parent_path new_name : option string) (s : VaultSession) : RpcResponse * VaultSession :=
  if from_option (is_system_path_guarded s) false restore_parent_path then (system_shard_denied, s) else
  with_trash_shard loaded s (fun resp => (resp, s)) (fun s =>
  let old_path := get_path (catalog s) id in
  match catalog_mut (restore_trashed_node clk id restore_parent_path new_name) s with
  | (Ok node, s) =>
      let s := record_deleted_at (clk 4%nat) old_path id s in
      let restored_path := default "/"%string (get_path (catalog s) id) in
      (RespRestored id restored_path, record_create_delta_for_path (clk 5%nat) restored_path node s)
  | (Err e, s) => (RespErr e (trash_error_code e), s)
  end).

(** The deltas for what was in the trash; [clk] is read once per node. *)
Fixpoint record_emptied (clk : clock) (old_nodes : list CatalogNode) (s : VaultSession) : VaultSession :=
  match old_nodes with
  | [] => s
  | node :: nodes =>
      record_emptied (later 1 clk) nodes
        (match node_trash node with
         | Some metadata => record_delete_delta (clk 0%nat) (String.append "/.trash/" (trash_name metadata)) (node_id node) s
         | None => s
         end)
  end.

(** The response, the files whose derivatives the caller deletes, and the session. *)
Definition empty_catalog_trash (clk : clock) (loaded : result Error (option Shard)) (s : VaultSession)
    : RpcResponse * list Z * VaultSession :=
  with_trash_shard loaded s (fun resp => (resp, [], s)) (fun s =>
  match list_trash (catalog s) with
  | Err e => (RespErr e (trash_error_code e), [], s)
  | Ok old_nodes =>
      match catalog_mut (empty_trash clk) s with
      | (Ok removed, s) =>
          let s := record_emptied (later (length old_nodes) clk) old_nodes s in
          let file_node_ids := concat (map collect_file_node_ids removed) in
          (RespRemoved (Z.of_nat (length removed)), file_node_ids, invalidate_chunks file_node_ids s)
      | (Err e, s) => (RespErr e (trash_error_code e), [], s)
      end
  end).

Definition path_basename (path : string) : option string :=
  last (List.filter (fun part => negb (string_is_empty part)) (split_char slash path)).

Definition trash_item_from_node (node : CatalogNode) : CatalogTrashListItem :=
  let original := from_option original_path (String.append "/.trash/" (node_name node)) (node_trash node) in
  let deleted := from_option deleted_at 0 (node_trash node) in
  let tname := from_option trash_name (node_name node) (node_trash node) in
  mkTrashItem (node_id node) (default (node_name node) (path_basename original)) (is_dir node)
    (if is_file node then Some (node_size node) else None) (mime_type node) (media_info node)
    (media_inspected_revision node) (source_revision node) (birthtime node) (modtime node) original deleted tname.

Definition list_catalog_trash (loaded : result Error (option Shard)) (s : VaultSession) : RpcResponse * VaultSession :=
  with_trash_shard loaded s (fun resp => (resp, s)) (fun s =>
  (match list_trash (catalog s) with
   | Ok nodes => RespTrashList (map trash_item_from_node nodes)
   | Err e => RespErr e (trash_error_code e)
   end, s)).

(** ** Facts about paths *)

Lemma parse_normalize path : parse_path (normalize_path path) = parse_path path.
Proof.
  unfold normalize_path. change (List.filter _ (split_char slash path)) with (parse_path path).
  pose proof (parse_path_parts path) as Hp. destruct (parse_path path) as [|q qs]; [done|].
  change (String.append "/" (str_join "/" (q :: qs))) with (String slash (str_join "/" (q :: qs))).
  rewrite parse_path_slash. by apply parse_path_join.
Qed.

Lemma norm_parts_eq path : norm_parts path = parse_path path.
Proof. unfold norm_parts. apply parse_normalize. Qed.

Lemma is_system_path_eq path :
  is_system_path path = match parse_path path with sh :: _ => is_system_shard_id sh | [] => false end.
Proof.
  unfold is_system_path, shard_id_from_path. change (List.filter _ _) with (parse_path path).
  by destruct (parse_path path).
Qed.

(** The shard of a path, and the path within it. *)
Lemma path_shard_split path shard rest :
  parse_path path = shard :: rest ->
  path_shard_id (normalize_path path) = Some shard
  /\ shard_relative_path shard (normalize_path path) = Some (String.append "/" (str_join "/" rest)).
Proof.
  intros Hp. unfold path_shard_id, shard_relative_path. rewrite norm_parts_eq, parse_normalize, Hp. split; [done|].
  rewrite String.eqb_refl. cbn [negb]. by destruct rest.
Qed.

(** A node of the catalog other than the root has a path with a shard. *)
Lemma file_path_parts m id ty p path n :
  catalog_inv m -> (id, ty, p) ∈ walk [] (root m) -> find_by_id m id = Some n -> is_file n = true -> get_path m id = Some path ->
  exists shard rest, p = "/"%string :: shard :: rest /\ parse_path path = shard :: rest.
Proof.
  intros Hinv Hin Hn Hfile Hpath. pose proof (inv_complete _ Hinv _ _ _ Hin) as Hi.
  destruct (inv_walk_find _ _ _ _ Hinv Hin) as (qs & n' & -> & Hqs & Hf & _).
  unfold get_path in Hpath. rewrite Hi in Hpath. injection Hpath as <-. apply name_ok_parts in Hqs.
  rewrite parse_path_string by done. destruct qs as [|shard rest]; [|eauto].
  exfalso. unfold find_by_id in Hn. rewrite Hi in Hn. 
  assert (n = root m) as ->.
  { revert Hn. vm_compute. by intros [= ->]. }
  pose proof (inv_root_dir _ Hinv) as Hd. unfold is_dir, is_file in *. apply bool_decide_eq_true in Hd, Hfile. congruence.
Qed.

(** A path of the index that lies at or below a system shard. *)
Definition system_entry (p : list string) : bool :=
  match p with
  | _ :: sh :: _ => is_system_shard_id sh
  | _ => false
  end.

Lemma system_node_entry s id qs :
  bypass s = 0 -> Forall part_ok qs -> node_index (catalog s) !! id = Some ("/"%string :: qs) ->
  is_system_node s id = false -> system_entry ("/"%string :: qs) = false.
Proof.
  intros Hb Hqs Hi. unfold is_system_node, get_path. rewrite Hb, Hi. cbn [Z.ltb Z.compare fmap option_fmap option_map].
  rewrite is_system_path_eq, parse_path_string by done. by destruct qs.
Qed.

(** Everything below a path that is not a system path is not below one either. *)
Lemma walk_not_system P c e :
  P <> [] -> system_entry (P ++ [node_name c]) = false -> e ∈ walk P c -> system_entry (snd e) = false.
Proof.
  intros HP Hs (rest & E)%walk_prefix. rewrite E. destruct P as [|r P]; [done|].
  destruct P as [|sh P]; [|done]. cbn in *. by destruct rest.
Qed.

(** ** The commands *)

Inductive cmd :=
  | CmdCreateDir (parent_path nm : string)
  | CmdRename (id : Z) (new_name : string)
  | CmdDelete (id : Z)
  | CmdMove (id : Z) (new_parent_path : string) (new_name : option string) (replace_existing : bool)
  | CmdExchange (src dst : Z)
  | CmdTrash (loaded : result Error (option Shard)) (id : Z)
  | CmdTrashList (loaded : result Error (option Shard))
  | CmdTrashRestore (loaded : result Error (option Shard)) (id : Z) (restore_parent_path new_name : option string)
  | CmdTrashEmpty (loaded : result Error (option Shard)).

Definition run_cmd (clk : clock) (c : cmd) (s : VaultSession) : VaultSession :=
  match c with
  | CmdCreateDir p nm => snd (create_catalog_dir clk p nm s)
  | CmdRename id nm => snd (rename_catalog_node clk id nm s)
  | CmdDelete id => snd (delete_catalog_node clk id s)
  | CmdMove id p nm r => snd (move_catalog_node clk id p nm r s)
  | CmdExchange src dst => snd (exchange_catalog_nodes clk src dst s)
  | CmdTrash loaded id => snd (trash_catalog_node clk loaded id s)
  | CmdTrashList loaded => snd (list_catalog_trash loaded s)
  | CmdTrashRestore loaded id p nm => snd (restore_catalog_node clk loaded id p nm s)
  | CmdTrashEmpty loaded => snd (empty_catalog_trash clk loaded s)
  end.

(** The catalog once the trash shard was read. *)
Definition loaded_catalog (loaded : result Error (option Shard)) (m : CatalogManager) : CatalogManager :=
  match loaded with
  | Ok (Some shard) => upsert_root_child (sh_root shard) m
  | _ => m
  end.

(** What was read is a trash shard, and it fits into the catalog: no id is used twice. *)
Definition trash_fits (loaded : result Error (option Shard)) (m : CatalogManager) : Prop :=
  match loaded with
  | Ok (Some shard) => node_name (sh_root shard) = TRASH_SHARD_ID
  | _ => True
  end /\ catalog_inv (loaded_catalog loaded m) /\ next_node_id (loaded_catalog loaded m) < U64_MAX.

(** The id a command names is not a stale one, ids are left, and the trash shard on the
    storage fits. *)
Definition cmd_ok (s : VaultSession) (c : cmd) : Prop :=
  next_node_id (catalog s) < U64_MAX /\
  match c with
  | CmdCreateDir _ _ => True
  | CmdRename id _ | CmdDelete id | CmdMove id _ _ _ => id_coherent (catalog s) id
  | CmdExchange src dst => id_coherent (catalog s) src /\ id_coherent (catalog s) dst
  | CmdTrash loaded id | CmdTrashRestore loaded id _ _ =>
      trash_fits loaded (catalog s) /\ id_coherent (loaded_catalog loaded (catalog s)) id
  | CmdTrashList loaded | CmdTrashEmpty loaded => trash_fits loaded (catalog s)
  end.

(** The commands that work on the trash shard. *)
Definition uses_trash (c : cmd) : bool :=
  match c with
  | CmdTrash _ _ | CmdTrashList _ | CmdTrashRestore _ _ _ _ | CmdTrashEmpty _ => true
  | _ => false
  end.

Lemma record_created_catalog ts p id s : catalog (record_created ts p id s) = catalog s.
Proof. unfold record_created. repeat case_match; done. Qed.
Lemma record_renamed_catalog ts p id nm s : catalog (record_renamed ts p id nm s) = catalog s.
Proof. unfold record_renamed. repeat case_match; done. Qed.
Lemma record_deleted_catalog ts p id s : catalog (record_deleted ts p id s) = catalog s.
Proof. unfold record_deleted. repeat case_match; done. Qed.
Lemma record_moved_catalog t t' o n id nn node s : catalog (record_moved t t' o n id nn node s) = catalog s.
Proof. unfold record_moved. repeat case_match; done. Qed.
Lemma record_delete_delta_catalog ts p id s : catalog (record_delete_delta ts p id s) = catalog s.
Proof. unfold record_delete_delta. repeat case_match; done. Qed.
Lemma record_deleted_at_catalog ts p id s : catalog (record_deleted_at ts p id s) = catalog s.
Proof. destruct p; [apply record_delete_delta_catalog|done]. Qed.
Lemma record_create_for_path_catalog ts p n s : catalog (record_create_delta_for_path ts p n s) = catalog s.
Proof. unfold record_create_delta_for_path. repeat case_match; done. Qed.
Lemma record_created_now_catalog ts id s : catalog (record_created_now ts id s) = catalog s.
Proof. unfold record_created_now. repeat case_match; rewrite ?record_create_for_path_catalog; done. Qed.
Lemma record_emptied_catalog clk ns s : catalog (record_emptied clk ns s) = catalog s.
Proof.
  revert clk s. induction ns as [|n ns IH]; intros clk s; [done|]. cbn. rewrite IH.
  destruct (node_trash n); [apply record_delete_delta_catalog|done].
Qed.
Lemma invalidate_chunks_catalog ids s : catalog (invalidate_chunks ids s) = catalog s.
Proof. done. Qed.

Lemma ensure_loaded_catalog loaded s :
  (exists e, ensure_shard_loaded loaded s = Err e)
  \/ exists s', ensure_shard_loaded loaded s = Ok s' /\ catalog s' = loaded_catalog loaded (catalog s).
Proof. destruct loaded as [[sh|]|e]; cbn; eauto. Qed.

(** The catalog a command leaves: denied and unchanged, or the manager's operation. *)
Lemma run_cmd_catalog clk c s :
  catalog (run_cmd clk c s) = catalog s \/
  match c with
  | CmdCreateDir p nm => is_system_path_guarded s p = false
      /\ catalog (run_cmd clk c s) = snd (create_dir clk p nm (catalog s))
  | CmdRename id nm => is_system_node s id = false
      /\ catalog (run_cmd clk c s) = snd (rename clk id nm (catalog s))
  | CmdDelete id => is_system_node s id = false
      /\ catalog (run_cmd clk c s) = snd (delete_node clk id (catalog s))
  | CmdMove id p nm r => is_system_node s id = false /\ is_system_path_guarded s p = false
      /\ catalog (run_cmd clk c s) = snd (move_node_with_options clk id p nm r (catalog s))
  | CmdExchange src dst => is_system_node s src = false /\ is_system_node s dst = false
      /\ catalog (run_cmd clk c s) = snd (exchange_nodes clk src dst (catalog s))
  | CmdTrash loaded id => is_system_node s id = false
      /\ catalog (run_cmd clk c s) = snd (trash_node clk id (loaded_catalog loaded (catalog s)))
  | CmdTrashList loaded => catalog (run_cmd clk c s) = loaded_catalog loaded (catalog s)
  | CmdTrashRestore loaded id p nm =>
      catalog (run_cmd clk c s) = snd (restore_trashed_node clk id p nm (loaded_catalog loaded (catalog s)))
  | CmdTrashEmpty loaded =>
      catalog (run_cmd clk c s) = loaded_catalog loaded (catalog s)
      \/ catalog (run_cmd clk c s) = snd (empty_trash clk (loaded_catalog loaded (catalog s)))
  end.
Proof.
  destruct c as [p nm|id nm|id|id p nm r|src dst|ld id|ld|ld id p nm|ld]; cbn [run_cmd].
  - unfold create_catalog_dir. destruct (is_system_path_guarded s p); [by left|].
    destruct (_ && _); [by left|]. right. split; [done|]. unfold catalog_mut.
    destruct (create_dir clk p nm (catalog s)) as [[i|e] m]; cbn; [by rewrite record_created_catalog|done].
  - unfold rename_catalog_node. destruct (is_system_node s id); [by left|]. right. split; [done|]. unfold catalog_mut.
    destruct (rename clk id nm (catalog s)) as [[i|e] m]; cbn; [by rewrite record_renamed_catalog|done].
  - unfold delete_catalog_node. destruct (is_system_node s id); [by left|]. right. split; [done|]. unfold catalog_mut.
    destruct (delete_node clk id (catalog s)) as [[i|e] m]; cbn; [by rewrite record_deleted_catalog|by destruct e].
  - unfold move_catalog_node. destruct (is_system_node s id); [by left|].
    destruct (is_system_path_guarded s p); [by left|]. right. split_and!; [done..|]. unfold catalog_mut. cbn [orb].
    destruct (move_node_with_options clk id p nm r (catalog s)) as [[i|e] m]; cbn [snd]; [|done].
    rewrite invalidate_chunks_catalog.
    repeat case_match; rewrite ?record_moved_catalog, ?record_deleted_catalog; done.
  - unfold exchange_catalog_nodes. destruct (is_system_node s src); [by left|].
    destruct (is_system_node s dst); [by left|]. right. split_and!; [done..|]. unfold catalog_mut. cbn [orb].
    destruct (exchange_nodes clk src dst (catalog s)) as [[i|e] m]; cbn [snd]; [|done].
    by rewrite !record_created_now_catalog, !record_deleted_at_catalog.
  - unfold trash_catalog_node. destruct (is_system_node s id); [by left|].
    unfold with_trash_shard. destruct (ensure_loaded_catalog ld s) as [[e ->]|(s' & -> & Ec)]; [by left|]. right. split; [done|].
    unfold catalog_mut. rewrite Ec. destruct (trash_node clk id _) as [[n|e] m]; cbn [snd]; [|done].
    repeat case_match; rewrite ?record_create_for_path_catalog, ?record_deleted_at_catalog; done.
  - unfold list_catalog_trash, with_trash_shard. destruct (ensure_loaded_catalog ld s) as [[e ->]|(s' & -> & Ec)]; [by left|]. by right.
  - unfold restore_catalog_node. destruct (from_option _ _ _); [by left|].
    unfold with_trash_shard. destruct (ensure_loaded_catalog ld s) as [[e ->]|(s' & -> & Ec)]; [by left|]. right.
    unfold catalog_mut. rewrite Ec. destruct (restore_trashed_node clk id p nm _) as [[n|e] m]; cbn [snd]; [|done].
    by rewrite record_create_for_path_catalog, record_deleted_at_catalog.
  - unfold empty_catalog_trash, with_trash_shard. destruct (ensure_loaded_catalog ld s) as [[e ->]|(s' & -> & Ec)]; [by left|]. right.
    rewrite Ec. destruct (list_trash _) as [old|e]; [right|by left].
    unfold catalog_mut. rewrite Ec. destruct (empty_trash clk _) as [[n|e] m]; cbn [snd]; [|done].
    by rewrite invalidate_chunks_catalog, record_emptied_catalog.
Qed.

(** *** Reading the trash shard *)

(** An entry whose shard is not the trash. *)
Definition outside_trash (p : list string) : Prop := p !! 1%nat <> Some TRASH_SHARD_ID.

Lemma update_first_other {A B} (q : A -> bool) (y : A) (b : B) cs cs' x :
  update_first q (fun _ => Some (b, y)) cs = Some (b, cs') -> q x = false -> q y = true -> x ∈ cs' <-> x ∈ cs.
Proof.
  intros Hu Hx Hy. revert cs' Hu. induction cs as [|z cs IH]; intros cs' Hu; [done|]. cbn in Hu.
  destruct (q z) eqn:Hz.
  - injection Hu as <-. rewrite !elem_of_cons. split; intros [->|?]; auto; congruence.
  - destruct (update_first q _ cs) as [[b' cs'']|] eqn:E; [|done]. injection Hu as -> <-.
    rewrite !elem_of_cons, (IH cs'') by done. done.
Qed.

Lemma upsert_other m n i ty p :
  catalog_inv m -> (2 <= length p)%nat -> p !! 1%nat <> Some (node_name n) ->
  (i, ty, p) ∈ walk [] (root (upsert_root_child n m)) <-> (i, ty, p) ∈ walk [] (root m).
Proof.
  intros Hinv Hlen Hp. unfold upsert_root_child. match goal with |- context [set_root ?t m] => set (r := t) end.
  assert (root (rebuild_index (set_root r m)) = r) as ->
    by (unfold rebuild_index; by destruct (collect_entries_into _ _ _)).
  destruct (wf_is_dir _ (inv_wf _ Hinv) (inv_root_dir _ Hinv)) as [cs Hcs].
  assert (exists cs', r = set_children (Some cs') (root m)
            /\ forall c, node_name c <> node_name n -> c ∈ cs' <-> c ∈ cs) as (cs' & -> & Hother).
  { unfold r. rewrite Hcs. destruct (update_first _ _ cs) as [[[] cs']|] eqn:Eu.
    - exists cs'. split; [done|]. intros c Hc. apply (update_first_other _ _ _ _ _ _ Eu).
      + by apply String.eqb_neq.
      + by apply has_name_true.
    - exists (cs ++ [n]). split; [done|]. intros c Hc. rewrite elem_of_app, list_elem_of_singleton. split; [|tauto].
      intros [?| ->]; done. }
  rewrite !walk_eq, (children_Some _ _ Hcs). cbn [node_id node_type node_name].
  assert (children (set_children (Some cs') (root m)) = cs') as -> by done. cbn [app].
  assert (node_name (set_children (Some cs') (root m)) = node_name (root m)) as -> by (by destruct (root m)).
  rewrite !elem_of_cons, !elem_of_walk_list.
  assert (forall c, (i, ty, p) ∈ walk [node_name (root m)] c -> node_name c <> node_name n) as Hne.
  { intros c (rest & E)%walk_prefix. cbn in E. subst p. cbn in Hp. congruence. }
  split; (intros [[= -> -> ->]|(c & Hc & Hin)]; [cbn in Hlen; lia|]); right; exists c;
    (split; [|done]); apply Hother; eauto.
Qed.

Lemma loaded_other loaded m i ty p :
  catalog_inv m -> trash_fits loaded m -> (2 <= length p)%nat -> outside_trash p ->
  (i, ty, p) ∈ walk [] (root (loaded_catalog loaded m)) <-> (i, ty, p) ∈ walk [] (root m).
Proof.
  intros Hinv [Hn _] Hlen Hp. destruct loaded as [[sh|]|e]; [|done..]. cbn in *. apply upsert_other; [done..|].
  by rewrite Hn.
Qed.

(** The manager's operations leave the entries of system shards alone when the node they
    are given is not in one. *)
Lemma rename_keeps_system clk id nm m i ty p :
  catalog_inv m -> id_coherent m id ->
  (forall qs x, node_index m !! id = Some ("/"%string :: qs ++ [x]) -> system_entry ("/"%string :: qs ++ [x]) = false) ->
  (i, ty, p) ∈ walk [] (root m) -> system_entry p = true -> (i, ty, p) ∈ walk [] (root (snd (rename clk id nm m))).
Proof.
  intros Hinv Hco Hns Hin Hsys. destruct (rename_run clk id nm m Hinv Hco)
    as [(e & -> & _)|[(qs & parent & c & Hl & ->)|
        (qs & x & parent & c & r' & W & ix & Hl & _ & _ & _ & _ & _ & Hw & Hw' & _ & ->)]]; [done|done|].
  cbn [snd root]. rewrite Hw' . rewrite Hw in Hin. apply elem_of_app in Hin as [Hin|Hin]; [apply elem_of_app; by left|].
  exfalso. apply (walk_not_system ("/"%string :: qs)) in Hin; [cbn in Hin; congruence|done|].
  rewrite (lc_name _ _ _ _ _ _ Hl). apply Hns, Hl.
Qed.

Lemma delete_keeps_system clk id m i ty p :
  catalog_inv m -> id_coherent m id ->
  (forall qs x, node_index m !! id = Some ("/"%string :: qs ++ [x]) -> system_entry ("/"%string :: qs ++ [x]) = false) ->
  (i, ty, p) ∈ walk [] (root m) -> system_entry p = true -> (i, ty, p) ∈ walk [] (root (snd (delete_node clk id m))).
Proof.
  intros Hinv Hco Hns Hin Hsys. destruct (delete_node_run clk id m Hinv Hco)
    as [(e & -> & _)|(qs & x & parent & c & r' & Hl & _ & _ & Hw & ->)]; [done|].
  cbn [snd root]. rewrite Hw in Hin. apply elem_of_app in Hin as [Hin|Hin]; [done|].
  exfalso. apply (walk_not_system ("/"%string :: qs)) in Hin; [cbn in Hin; congruence|done|].
  rewrite (lc_name _ _ _ _ _ _ Hl). apply Hns, Hl.
Qed.

Lemma move_keeps_system clk id npp nn repl m i ty p :
  catalog_inv m -> id_coherent m id ->
  (forall qs x, node_index m !! id = Some ("/"%string :: qs ++ [x]) -> system_entry ("/"%string :: qs ++ [x]) = false) ->
  is_system_path npp = false ->
  (i, ty, p) ∈ walk [] (root m) -> system_entry p = true -> ty = Dir \/ (2 < length p)%nat ->
  (i, ty, p) ∈ walk [] (root (snd (move_node_with_options clk id npp nn repl m))).
Proof.
  intros Hinv Hco Hns Hnp Hin Hsys Hkind. unfold move_node_with_options, atomically.
  destruct (move_run clk id npp nn repl m Hinv Hco)
    as [[e ->]|[(qs & x & parent & c & _ & _ & _ & ->)|(qs & c & W & gone & m' & Hmv & Hgone & _ & _ & ->)]]; [done|done|].
  cbn [snd]. rewrite (mv_before _ _ _ _ _ _ _ _ _ _ Hmv) in Hin. rewrite (mv_after _ _ _ _ _ _ _ _ _ _ Hmv).
  rewrite !elem_of_app in Hin. destruct Hin as [Hin|[Hin|Hin]]; [apply elem_of_app; by left| |].
  - exfalso. apply (walk_not_system ("/"%string :: qs)) in Hin; [cbn in Hin; congruence|done|].
    apply Hns, Hmv.
  - exfalso. destruct Hgone as [->|(_ & rid & rty & Hrty & ->)]; [by apply not_elem_of_nil in Hin|].
    apply list_elem_of_singleton in Hin as [= -> -> ->]. rewrite is_system_path_eq in Hnp.
    destruct Hkind as [->|Hlen]; [done|]. destruct (parse_path npp) as [|sh qs'] eqn:Hparse.
    + cbn in Hlen. lia.
    + cbn in Hsys. congruence.
Qed.

Lemma exchange_keeps_system clk src dst m i ty p :
  catalog_inv m -> id_coherent m src -> id_coherent m dst ->
  (forall id qs x, id = src \/ id = dst -> node_index m !! id = Some ("/"%string :: qs ++ [x]) ->
     system_entry ("/"%string :: qs ++ [x]) = false) ->
  (i, ty, p) ∈ walk [] (root m) -> system_entry p = true ->
  (i, ty, p) ∈ walk [] (root (snd (exchange_nodes clk src dst m))).
Proof.
  intros Hinv Hcs Hcd Hns Hin Hsys. unfold exchange_nodes, atomically.
  destruct (exchange_run clk src dst m Hinv Hcs Hcd) as [[e ->]|[[_ ->]|(r' & P & Q & x & y & Hsw & ->)]]; [done..|].
  destruct (sw_walk _ _ _ _ _ _ _ _ Hsw) as (W & c & c' & d & d' & _ & _ & Hic & Hid & Hnc & Hnd & _ & _ & Hw & Hw').
  assert (forall pre n, n = c /\ pre = P \/ n = d /\ pre = Q -> (i, ty, p) ∉ walk ("/"%string :: pre) n) as Hout.
  { intros pre n Hn Hi. apply (walk_not_system ("/"%string :: pre)) in Hi; [cbn in Hi; congruence|done|].
    assert ((node_id n, node_type n, "/"%string :: pre ++ [node_name n]) ∈ walk [] (root m)) as Hself.
    { rewrite Hw, !elem_of_app. right. destruct Hn as [[-> ->]|[-> ->]]; [left|right]; rewrite walk_eq; by left. }
    apply (inv_complete _ Hinv) in Hself. eapply Hns; [|exact Hself]. destruct Hn as [[-> _]|[-> _]]; auto. }
  cbn [snd]. assert (forall m0, root (rebuild_index m0) = root m0) as ->
    by (intros m0; unfold rebuild_index; by destruct (collect_entries_into _ _ _)).
  cbn [root]. rewrite Hw', elem_of_app. left. rewrite Hw, !elem_of_app in Hin. destruct Hin as [?|[Hin|Hin]]; [done|..];
    exfalso; eapply Hout; [|exact Hin| |exact Hin]; auto.
Qed.

Lemma trash_keeps_system clk id m i ty p :
  catalog_inv m -> id_coherent m id -> next_node_id m < U64_MAX ->
  (forall qs x, node_index m !! id = Some ("/"%string :: qs ++ [x]) -> outside_trash ("/"%string :: qs ++ [x]) ->
     system_entry ("/"%string :: qs ++ [x]) = false) ->
  (i, ty, p) ∈ walk [] (root m) -> system_entry p = true -> outside_trash p ->
  (i, ty, p) ∈ walk [] (root (snd (trash_node clk id m))).
Proof.
  intros Hinv Hco Hnx Hns Hin Hsys Hout. unfold trash_node, atomically.
  destruct (trash_node_inner clk id m) as [[n|e] m'] eqn:E; [|done].
  destruct (trash_node_run clk id m n m' Hinv Hco Hnx E) as (m2 & qs & x & c & tname & extra & W & Ht).
  pose proof (tr_moved _ _ _ _ _ _ _ _ _ _ _ _ Ht) as Hmv. cbn [snd]. rewrite (mv_after _ _ _ _ _ _ _ _ _ _ Hmv).
  assert ((i, ty, p) ∈ walk [] (root m2)) as Hin2.
  { rewrite (tr_prep _ _ _ _ _ _ _ _ _ _ _ _ Ht), elem_of_app. by right. }
  rewrite (mv_before _ _ _ _ _ _ _ _ _ _ Hmv), app_nil_r, elem_of_app in Hin2. destruct Hin2 as [?|Hin2]; [apply elem_of_app; by left|].
  exfalso. pose proof Hin2 as (rest & Ep)%walk_prefix. rewrite (tr_name _ _ _ _ _ _ _ _ _ _ _ _ Ht) in Ep. cbn [snd] in Ep. subst p.
  apply (walk_not_system ("/"%string :: qs)) in Hin2; [cbn [snd] in Hin2; congruence|done|].
  rewrite (tr_name _ _ _ _ _ _ _ _ _ _ _ _ Ht). apply Hns; [apply Ht|].
  unfold outside_trash in *. intros Ex. apply Hout. rewrite <- Ex. symmetry. by destruct qs as [|? [|]].
Qed.

Lemma restore_keeps_others clk id rp rn m i ty p :
  catalog_inv m -> id_coherent m id -> (i, ty, p) ∈ walk [] (root m) -> outside_trash p ->
  (i, ty, p) ∈ walk [] (root (snd (restore_trashed_node clk id rp rn m))).
Proof.
  intros Hinv Hco Hin Hout. unfold restore_trashed_node, atomically.
  destruct (restore_trashed_node_inner clk id rp rn m) as [[n|e] m'] eqn:E; [|done].
  destruct (restore_run clk id rp rn m n m' Hinv Hco E) as (m2 & qs & c & W & par & dest & Hw & Hh & Hmv & _).
  cbn [snd]. rewrite (mv_after _ _ _ _ _ _ _ _ _ _ Hmv). rewrite <- Hw, (mv_before _ _ _ _ _ _ _ _ _ _ Hmv), app_nil_r in Hin.
  apply elem_of_app in Hin as [?|(rest & Ep)%walk_prefix]; [apply elem_of_app; by left|].
  exfalso. cbn [snd] in Ep. subst p. apply Hout. destruct qs as [|q qs]; [done|]. injection Hh as ->. done.
Qed.

Lemma empty_keeps_others clk m i ty p :
  catalog_inv m -> (i, ty, p) ∈ walk [] (root m) -> outside_trash p -> (i, ty, p) ∈ walk [] (root (snd (empty_trash clk m))).
Proof.
  intros Hinv Hin Hout. destruct (find_by_path m TRASH_ROOT_PATH) as [n|] eqn:Hn.
  2:{ unfold empty_trash, atomically, empty_trash_inner. by rewrite M_bind_self, Hn. }
  destruct (is_dir n) eqn:Hd.
  2:{ unfold empty_trash, atomically, empty_trash_inner. by rewrite M_bind_self, Hn, Hd. }
  destruct (empty_trash_run clk m n Hinv Hn Hd) as (removed & m' & -> & _ & _ & _ & Hw). cbn [snd].
  rewrite Hw in Hin. apply elem_of_app in Hin as [?|(c & _ & (rest & Ep)%walk_prefix)%elem_of_walk_list]; [done|].
  exfalso. cbn [snd] in Ep. subst p. by apply Hout.
Qed.

Lemma create_keeps clk p nm m e :
  catalog_inv m -> e ∈ walk [] (root m) -> e ∈ walk [] (root (snd (create_dir clk p nm m))).
Proof.
  intros Hinv He. destruct (create_dir_run clk p nm m Hinv)
    as [[err ->]|(parent & r' & _ & _ & _ & _ & _ & _ & Hw & _ & ->)]; [done|].
  cbn [snd root]. rewrite Hw. by right.
Qed.

Lemma guard_covers s id :
  bypass s = 0 -> catalog_inv (catalog s) -> id_coherent (catalog s) id -> is_system_node s id = false ->
  forall qs x, node_index (catalog s) !! id = Some ("/"%string :: qs ++ [x]) ->
  system_entry ("/"%string :: qs ++ [x]) = false.
Proof.
  intros Hb Hinv Hco Hg qs x Hi. apply (system_node_entry s id); try done.
  destruct (Hco _ Hi) as [ty Hin]. destruct (inv_walk_find _ _ _ _ Hinv Hin) as (qs' & n & [= <-] & Hok & _).
  by apply name_ok_parts.
Qed.

(** The guard saw the node of the catalog as it was before the trash shard was read. *)
Lemma guard_covers_loaded loaded s id :
  bypass s = 0 -> catalog_inv (catalog s) -> trash_fits loaded (catalog s) ->
  id_coherent (loaded_catalog loaded (catalog s)) id -> is_system_node s id = false ->
  forall qs x, node_index (loaded_catalog loaded (catalog s)) !! id = Some ("/"%string :: qs ++ [x]) ->
  outside_trash ("/"%string :: qs ++ [x]) -> system_entry ("/"%string :: qs ++ [x]) = false.
Proof.
  intros Hb Hinv Hfit Hco Hg qs x Hi Hout. destruct (Hco _ Hi) as [ty Hin].
  apply (loaded_other _ _ _ _ _ Hinv Hfit) in Hin; [|cbn; rewrite length_app; cbn; lia|done].
  pose proof (inv_complete _ Hinv _ _ _ Hin) as Hi'.
  destruct (inv_walk_find _ _ _ _ Hinv Hin) as (qs' & n & [= <-] & Hok & _).
  apply (system_node_entry s id); try done. by apply name_ok_parts.
Qed.

(** C28: with the guards up, none of the commands that create, rename, delete, move, exchange,
    trash or restore nodes or empty or list the trash, whether it succeeds, fails or is
    denied, removes, renames or moves anything in a system shard: every entry of a system
    shard, its root directory included, is still there under the same id and path. The ids
    the command names are in the tree or unknown to the index; the trash commands may change the
    trash shard, and read one that fits the catalog; a top-level file with the name of a system
    shard is not an entry of one. *)
Theorem system_shards_protected clk c s i ty p :
  bypass s = 0 -> catalog_inv (catalog s) -> cmd_ok s c ->
  (i, ty, p) ∈ walk [] (root (catalog s)) -> system_entry p = true -> ty = Dir \/ (2 < length p)%nat ->
  (uses_trash c = true -> outside_trash p) ->
  (i, ty, p) ∈ walk [] (root (catalog (run_cmd clk c s))).
Proof.
  intros Hb Hinv [Hnx Hok] Hin Hsys Hkind Htr.
  assert (forall path, is_system_path_guarded s path = is_system_path path) as Hguard
    by (intros path; unfold is_system_path_guarded; by rewrite Hb).
  assert (2 <= length p)%nat as Hlen by (destruct p as [|? [|]]; cbn in *; [done..|lia]).
  assert (forall ld, uses_trash c = true -> trash_fits ld (catalog s) ->
            (i, ty, p) ∈ walk [] (root (loaded_catalog ld (catalog s)))) as Hld by (intros; apply loaded_other; auto).
  destruct (run_cmd_catalog clk c s) as [->|H]; [done|].
  destruct c as [par nm|id nm|id|id par nm r|src dst|ld id|ld|ld id par nm|ld]; cbn [cmd_ok uses_trash] in *.
  - destruct H as [_ ->]. by apply create_keeps.
  - destruct H as [Hg ->]. apply rename_keeps_system; try done. by apply guard_covers.
  - destruct H as [Hg ->]. apply delete_keeps_system; try done. by apply guard_covers.
  - destruct H as (Hg & Hp & ->). rewrite Hguard in Hp. apply move_keeps_system; try done. by apply guard_covers.
  - destruct H as (Hg & Hg' & ->), Hok. apply exchange_keeps_system; try done.
    intros id qs x [->| ->]; by apply guard_covers.
  - destruct H as (Hg & ->), Hok as [Hfit Hco]. apply trash_keeps_system; auto; [apply Hfit..|]. by apply guard_covers_loaded.
  - rewrite H. auto.
  - destruct Hok as [Hfit Hco]. rewrite H. apply restore_keeps_others; auto. apply Hfit.
  - destruct H as [->| ->]; [auto|]. apply empty_keeps_others; auto. apply Hok.
Qed.

(** the commands keep the catalog's invariant. *)
Theorem commands_keep_inv clk c s :
  catalog_inv (catalog s) -> cmd_ok s c -> catalog_inv (catalog (run_cmd clk c s)).
Proof.
  intros Hinv [Hnx Hok]. destruct (run_cmd_catalog clk c s) as [->|H]; [done|].
  destruct c as [par nm|id nm|id|id par nm r|src dst|ld id|ld|ld id par nm|ld].
  - destruct H as [_ ->]. by apply create_dir_inv.
  - destruct H as [_ ->]. by apply rename_inv.
  - destruct H as [_ ->]. by apply delete_node_inv.
  - destruct H as (_ & _ & ->). by apply move_inv.
  - destruct H as (_ & _ & ->), Hok. by apply exchange_nodes_inv.
  - destruct H as (_ & ->), Hok as [(_ & ? & ?) ?]. by apply trash_node_inv.
  - rewrite H. apply Hok.
  - destruct Hok as [(_ & ? & ?) ?]. rewrite H. by apply restore_trashed_node_inv.
  - destruct Hok as (_ & ? & ?). destruct H as [->| ->]; [done|by apply empty_trash_inv].
Qed.

(** ** Concrete sessions *)

Definition fresh_session (m : CatalogManager) : VaultSession :=
  mkSession m false ∅ new_default 0.

(** A user directory and the password manager's shard. *)
Definition demo_session : VaultSession :=
  fresh_session (snd (create_dir (fun _ => 6) "/" ".passmanager"
    (snd (create_dir (fun _ => 5) "/" "docs" (new 0))))).

Lemma demo_session_inv : catalog_inv (catalog demo_session).
Proof. apply catalog_inv_check_sound. vm_compute. reflexivity. Qed.

Definition has_path (s : VaultSession) (path : string) : bool :=
  match find_by_path (catalog s) path with Some _ => true | None => false end.

(** the guards do not keep the generic commands from making system shards: a
    directory created under the parent path given as the empty string, a top-level
    directory renamed, and one moved to the root under a new name, all end up as the
    root of a system shard, although creating it under the parent path "/" is denied. *)
Theorem system_shards_can_be_forged :
  bypass demo_session = 0 /\ has_path demo_session "/.wallet" = false
  /\ fst (create_catalog_dir (fun _ => 9) "/" ".wallet" demo_session) = system_shard_denied
  /\ has_path (run_cmd (fun _ => 9) (CmdCreateDir "" ".wallet") demo_session) "/.wallet" = true
  /\ has_path (run_cmd (fun _ => 9) (CmdRename 2 ".wallet") demo_session) "/.wallet" = true
  /\ has_path (run_cmd (fun _ => 9) (CmdMove 2 "/" (Some ".wallet"%string) false) demo_session) "/.wallet" = true.
Proof. vm_compute. repeat split; reflexivity. Qed.

Lemma system_shards_protected_witness :
  (3, Dir, ["/"; ".passmanager"]%string) ∈ walk [] (root (catalog (run_cmd (fun _ => 9) (CmdExchange 2 3) demo_session))).
Proof.
  apply (system_shards_protected (fun _ => 9) (CmdExchange 2 3) demo_session 3 Dir ["/"; ".passmanager"]%string
           eq_refl demo_session_inv).
  - split; [vm_compute; reflexivity|]. split; apply (in_tree_coherent (catalog demo_session) _ demo_session_inv).
    + apply (bool_decide_eq_true_1 (2 ∈ _)). vm_compute. reflexivity.
    + apply (bool_decide_eq_true_1 (3 ∈ _)). vm_compute. reflexivity.
  - apply (bool_decide_eq_true_1 (_ ∈ _)). vm_compute. reflexivity.
  - vm_compute. reflexivity.
  - left. reflexivity.
  - discriminate.
Defined.

Lemma commands_keep_inv_witness :
  catalog_inv (catalog (run_cmd (fun _ => 9) (CmdCreateDir "/docs" "sub") demo_session)).
Proof.
  apply (commands_keep_inv (fun _ => 9) (CmdCreateDir "/docs" "sub") demo_session demo_session_inv).
  split; [vm_compute; reflexivity|exact I].
Defined.
