(* ===== verification/PagedList.v ===== *)
(** * Paged folder listings

    crates/core/src/rpc/commands/catalog/paged_list.rs and the list handler of crud.rs: what a
    folder shows, filtered, sorted and cut into pages, and a batch of pages. The request is
    the parsed one. Parameters: [to_lowercase] (Unicode case folding), [text_matches] (the
    search in the contents of a file, which reads its blob), [request_key] and
    [payload_bytes] (the JSON of a request and of a response).
    Theorems: following the offsets of the pages gives every entry exactly once and ends,
    the entries are sorted, no page shows an entry of a system shard, and the limits
    of a batch hold. *)

From Stdlib Require Import Ascii String.
From stdpp Require Import base gmap strings list sorting.
From S2P Require Import Prelude.
From S2P Require Import CatalogNode.
From S2P Require Import CatalogManager.
From S2P Require Import CatalogTree.
From S2P Require Import CatalogInvariant.
From S2P Require Import CatalogShard.
From S2P Require Import CatalogSession.
From S2P Require Import Text.
Open Scope Z_scope.

(** ** Requests and responses *)

Record CatalogFolderSort := mkSort { fs_by : string; fs_direction : string }.

Record CatalogFolderFilter := mkFilter {
  ff_query : option string; ff_include_hidden : option bool; ff_recursive : option bool;
  ff_include_text_content : option bool; ff_file_types : list string;
}.

Record CatalogFolderPageRequest := mkPageRequest {
  fr_path : string; fr_offset : Z; fr_limit : option Z; fr_expected_version : option Z;
  fr_sort : option CatalogFolderSort; fr_filter : option CatalogFolderFilter;
}.

Record CatalogFolderFilterCounts := mkCounts { fc_all : Z; fc_markdown : Z; fc_images : Z }.

Record CatalogListItem := mkItem {
  li_node_id : Z; li_name : string; li_path : option string; li_parent_path : option string; li_is_dir : bool;
  li_size : option Z; li_mime_type : option string; li_media_info : option CatalogMediaInfo;
  li_media_inspected_revision : Z; li_source_revision : Z; li_created_at : Z; li_updated_at : Z;
}.

Record CatalogFolderPageResponse := mkPage {
  fp_current_path : string; fp_version : Z; fp_total_count : Z; fp_offset : Z; fp_limit : Z;
  fp_next_offset : option Z; fp_reload_required : bool; fp_filter_counts : CatalogFolderFilterCounts;
  fp_items : list CatalogListItem;
}.

Record CatalogFolderBatchResponse := mkBatch {
  fb_pages : list CatalogFolderPageResponse; fb_truncated : bool; fb_warnings : list string;
}.

Definition CATALOG_FOLDER_PAGE_DEFAULT_ITEMS : Z := 200.
Definition CATALOG_FOLDER_PAGE_MAX_ITEMS : Z := 500.
Definition CATALOG_FOLDER_BATCH_MAX_PAGES : nat := 4.
Definition CATALOG_FOLDER_BATCH_MAX_ITEMS : Z := 1000.
Definition CATALOG_FOLDER_BATCH_SOFT_BYTES : Z := 512 * 1024.

Definition clamp_limit (limit : option Z) : Z :=
  Z.min (Z.max (default CATALOG_FOLDER_PAGE_DEFAULT_ITEMS limit) 1) CATALOG_FOLDER_PAGE_MAX_ITEMS.

Definition catalog_list_item_from_node_with_location (node : CatalogNode) (path parent_path : option string)
    : CatalogListItem :=
  mkItem (node_id node) (node_name node) path parent_path (is_dir node)
    (if is_file node then Some (node_size node) else None) (mime_type node) (media_info node)
    (media_inspected_revision node) (source_revision node) (birthtime node) (modtime node).

(** ** Strings *)

(** [to_ascii_lowercase]. *)
Fixpoint to_ascii_lowercase (s : string) : string :=
  match s with
  | EmptyString => EmptyString
  | String a s' => String (if is_ascii_uppercase (code a) then byte_char (code a + 32) else a) (to_ascii_lowercase s')
  end.

Definition ends_with (suffix s : string) : bool :=
  (string_len suffix <=? string_len s)%nat
  && String.eqb (String.substring (string_len s - string_len suffix) (string_len suffix) s) suffix.

(** [name.rfind('.')]; a leading dot does not count. *)
Definition node_extension (name : string) : string :=
  match rsplit_once "."%char name with
  | Some (stem, ext) => if string_is_empty stem then EmptyString else ext
  | None => EmptyString
  end.

(** [s.trim_end_matches('/')]. *)
Fixpoint trim_end_slash (s : string) : string :=
  match s with
  | EmptyString => EmptyString
  | String a s' =>
      match trim_end_slash s' with
      | EmptyString => if Ascii.eqb a slash then EmptyString else String a EmptyString
      | t => String a t
      end
  end.

Definition join_child_path (parent_path name : string) : string :=
  if String.eqb parent_path "/" then String.append "/" name
  else String.append (trim_end_slash parent_path) (String.append "/" name).

(** ** File types *)

Definition IMAGE_EXTENSIONS : list string :=
  ["jpg"; "jpeg"; "png"; "gif"; "webp"; "svg"; "bmp"; "ico"; "avif"; "heic"; "heif"; "tif"; "tiff"]%string.
Definition VIDEO_EXTENSIONS : list string := ["mp4"; "webm"; "mov"; "avi"; "mkv"; "wmv"; "flv"]%string.
Definition AUDIO_EXTENSIONS : list string := ["mp3"; "wav"; "ogg"; "m4a"; "aac"; "flac"; "wma"]%string.
Definition MARKDOWN_EXTENSIONS : list string := ["md"; "markdown"]%string.
Definition TEXT_DOCUMENT_EXTENSIONS : list string := ["txt"; "csv"; "log"]%string.
Definition DOCUMENT_EXTENSIONS : list string :=
  ["pdf"; "doc"; "docx"; "rtf"; "odt"; "xls"; "xlsx"; "ppt"; "pptx"]%string.
Definition CODE_EXTENSIONS : list string :=
  ["json"; "xml"; "html"; "css"; "js"; "ts"; "jsx"; "tsx"; "scss"; "less"; "py"; "java"; "cpp";
   "c"; "h"; "go"; "rs"; "php"; "rb"; "swift"; "kt"; "yaml"; "yml"; "toml"; "ini"; "sh"; "bash"]%string.
Definition ARCHIVE_EXTENSIONS : list string := ["zip"; "rar"; "7z"; "tar"; "gz"; "bz2"; "xz"; "dmg"; "iso"]%string.
Definition TEXT_MIME_TYPES : list string :=
  ["application/json"; "application/ld+json"; "application/xml"; "application/x-yaml"; "application/yaml";
   "application/toml"; "application/x-sh"; "application/javascript"; "application/x-javascript"; "text/csv"]%string.

Definition extension_matches (extension : string) (candidates : list string) : bool :=
  existsb (String.eqb extension) candidates.

Definition mime_matches_document_group (mime : string) : bool :=
  starts_with "text/" mime || existsb (String.eqb mime) TEXT_MIME_TYPES
  || ends_with "+json" mime || ends_with "+xml" mime || String.eqb mime "application/pdf".

Definition groups_from_mime (mime : string) : list string :=
  if String.eqb mime "text/markdown" then ["markdown"; "documents"]%string
  else if starts_with "image/" mime then ["images"]%string
  else if starts_with "video/" mime then ["videos"]%string
  else if starts_with "audio/" mime then ["audio"]%string
  else if mime_matches_document_group mime then ["documents"]%string
  else [].

Definition lower_extension (node : CatalogNode) : string := to_ascii_lowercase (node_extension (node_name node)).
Definition lower_mime (node : CatalogNode) : string := to_ascii_lowercase (default ""%string (mime_type node)).

Definition node_filter_groups (node : CatalogNode) : list string :=
  if negb (is_file node) then [] else
  match media_info node with
  | Some info => match kind info with Audio => ["audio"]%string | Video => ["videos"]%string end
  | None =>
      let extension := lower_extension node in
      let mime := lower_mime node in
      if extension_matches extension MARKDOWN_EXTENSIONS || String.eqb mime "text/markdown"
      then ["markdown"; "documents"]%string else
      if negb (string_is_empty extension) && extension_matches extension IMAGE_EXTENSIONS then ["images"]%string else
      if negb (string_is_empty extension) && extension_matches extension VIDEO_EXTENSIONS then ["videos"]%string else
      if negb (string_is_empty extension) && extension_matches extension AUDIO_EXTENSIONS then ["audio"]%string else
      if negb (string_is_empty extension)
         && (extension_matches extension TEXT_DOCUMENT_EXTENSIONS || extension_matches extension DOCUMENT_EXTENSIONS)
      then ["documents"]%string else
      if negb (string_is_empty extension) && extension_matches extension CODE_EXTENSIONS then ["code"]%string else
      if negb (string_is_empty extension) && extension_matches extension ARCHIVE_EXTENSIONS then ["archives"]%string else
      groups_from_mime mime
  end.

Definition KNOWN_GROUPS : list string :=
  ["audio"; "videos"; "images"; "markdown"; "documents"; "code"; "archives"]%string.

Definition node_matches_filter_group (node : CatalogNode) (group : string) : bool :=
  let group := to_ascii_lowercase group in
  if existsb (fun candidate => String.eqb candidate group) (node_filter_groups node) then true else
  if existsb (String.eqb group) KNOWN_GROUPS then false else
  String.eqb (lower_extension node) group || str_contains group (lower_mime node).

Definition file_type_matches (node : CatalogNode) (file_types : list string) (include_directories : bool) : bool :=
  if bool_decide (file_types = []) || include_directories && is_dir node then true else
  if is_dir node then false else
  existsb (node_matches_filter_group node) file_types.

Definition is_text_searchable_node (node : CatalogNode) : bool :=
  if negb (is_file node) then false else
  let extension := lower_extension node in
  let mime := lower_mime node in
  extension_matches extension MARKDOWN_EXTENSIONS || extension_matches extension TEXT_DOCUMENT_EXTENSIONS
  || extension_matches extension CODE_EXTENSIONS || String.eqb mime "text/markdown" || starts_with "text/" mime
  || existsb (String.eqb mime) TEXT_MIME_TYPES || ends_with "+json" mime || ends_with "+xml" mime.

(** ** Candidates *)

Record FolderListCandidate := mkCandidate { fl_node : CatalogNode; fl_path : string; fl_parent_path : string }.

Definition filter_query (filter : option CatalogFolderFilter) : option string :=
  f ← filter;
  q ← ff_query f;
  let q := trim q in
  if string_is_empty q then None else Some q.

Definition include_hidden (filter : option CatalogFolderFilter) : bool := default false (f ← filter; ff_include_hidden f).
Definition should_search_recursively (filter : option CatalogFolderFilter) : bool :=
  default false (f ← filter; ff_recursive f).

Definition is_hidden (node : CatalogNode) : bool := starts_with "." (node_name node).

Definition compute_filter_counts (nodes : list CatalogNode) : CatalogFolderFilterCounts :=
  foldl (fun c node =>
    if negb (is_file node) then c else
    mkCounts (u64_add (fc_all c) 1)
      (if node_matches_filter_group node "markdown" then u64_add (fc_markdown c) 1 else fc_markdown c)
      (if node_matches_filter_group node "images" then u64_add (fc_images c) 1 else fc_images c))
    (mkCounts 0 0 0) nodes.

Definition direct_folder_candidates (path : string) (nodes : list CatalogNode) : list FolderListCandidate :=
  map (fun node => mkCandidate node (join_child_path path (node_name node)) path)
    (List.filter (fun node => negb (String.eqb path "/") || negb (is_system_shard_id (node_name node))) nodes).

(** What [collect_recursive_candidates] pushes for the children of a node. *)
Fixpoint collect_recursive_candidates (hidden : bool) (current_path : string) (node : CatalogNode)
    : list FolderListCandidate :=
  match node with
  | mkNode _ _ _ _ _ _ _ _ _ _ _ _ _ None => []
  | mkNode _ _ _ _ _ _ _ _ _ _ _ _ _ (Some cs) =>
      concat (map (fun child =>
        if String.eqb current_path "/" && is_system_shard_id (node_name child) then [] else
        if negb hidden && is_hidden child then [] else
        let child_path := join_child_path current_path (node_name child) in
        mkCandidate child child_path current_path
        :: (if is_dir child then collect_recursive_candidates hidden child_path child else [])) cs)
  end.

Definition recursive_folder_candidates (m : CatalogManager) (path : string) (hidden : bool)
    : result RpcResponse (list FolderListCandidate) :=
  root ← ok_or (find_by_path m path) (RespErr (InvalidPath path) CodeNodeNotFound);
  Ok (collect_recursive_candidates hidden path root).

(** ** Order *)

Definition compare_names (x y : string) : comparison := String.compare x y.

Definition compare_nodes (a b : CatalogNode) (sort : option CatalogFolderSort) : comparison :=
  if negb (Bool.eqb (is_dir a) (is_dir b)) then (if is_dir a then Lt else Gt) else
  let sort_by := from_option fs_by "name"%string sort in
  let ordering :=
    if String.eqb sort_by "size" then Z.compare (node_size a) (node_size b)
    else if String.eqb sort_by "date" then Z.compare (modtime a) (modtime b)
    else if String.eqb sort_by "type" then compare_names (node_extension (node_name a)) (node_extension (node_name b))
    else compare_names (to_ascii_lowercase (node_name a)) (to_ascii_lowercase (node_name b)) in
  let ordering := match ordering with Eq => compare_names (node_name a) (node_name b) | o => o end in
  if from_option (fun s => String.eqb (to_ascii_lowercase (fs_direction s)) "desc") false sort
  then CompOpp ordering else ordering.

Definition candidate_le (sort : option CatalogFolderSort) (a b : FolderListCandidate) : bool :=
  match compare_nodes (fl_node a) (fl_node b) sort with Gt => false | _ => true end.

(** ** Pages *)

Section Pages.
Context (to_lowercase : string -> string) (text_matches : CatalogNode -> string -> bool).

Definition TEXT_SEARCH_MAX_BYTES : Z := 1048576.

Definition text_content_matches_query (node : CatalogNode) (folded_query : string) : bool :=
  if (TEXT_SEARCH_MAX_BYTES <? node_size node) || negb (is_text_searchable_node node) then false else
  if U32_MAX <? node_id node then false else text_matches node folded_query.

Definition node_matches_base_filter (filter : option CatalogFolderFilter) (candidate : FolderListCandidate) : bool :=
  if negb (include_hidden filter) && is_hidden (fl_node candidate) then false else
  match filter_query filter with
  | Some query =>
      let folded_query := to_lowercase query in
      if str_contains folded_query (to_lowercase (node_name (fl_node candidate)))
         || str_contains folded_query (to_lowercase (fl_path candidate)) then true else
      default false (f ← filter; ff_include_text_content f) && text_content_matches_query (fl_node candidate) folded_query
  | None => true
  end.

Definition item_of (c : FolderListCandidate) : CatalogListItem :=
  catalog_list_item_from_node_with_location (fl_node c) (Some (fl_path c)) (Some (fl_parent_path c)).

(** The entries a request asks for, sorted, and the counts shown with them. *)
Definition folder_entries (s : VaultSession) (path : string) (sort : option CatalogFolderSort)
    (filter : option CatalogFolderFilter) : result RpcResponse (list FolderListCandidate * CatalogFolderFilterCounts) :=
  nodes ← map_err (fun e => RespErr e CodeNodeNotFound) (list_path (catalog s) path);
  let recursive := should_search_recursively filter in
  let hidden := include_hidden filter in
  candidates ← (if recursive then recursive_folder_candidates (catalog s) path hidden
                else Ok (direct_folder_candidates path nodes));
  let base_candidates := List.filter (node_matches_base_filter filter) candidates in
  filter_counts ← (if recursive then Ok (compute_filter_counts (map fl_node base_candidates))
                   else all ← recursive_folder_candidates (catalog s) path hidden;
                        Ok (compute_filter_counts (map fl_node (List.filter (node_matches_base_filter filter) all))));
  let file_types := from_option ff_file_types [] filter in
  let nodes := List.filter (fun c => file_type_matches (fl_node c) file_types (negb recursive)) base_candidates in
  Ok (stable_sort (candidate_le sort) nodes, filter_counts).

(** The part of [build_folder_page] that cuts a page out of the sorted entries. *)
Definition cut_page (path : string) (version offset limit : Z) (counts : CatalogFolderFilterCounts)
    (nodes : list FolderListCandidate) : CatalogFolderPageResponse :=
  let total_count := Z.of_nat (length nodes) in
  let start := Z.to_nat (Z.min offset total_count) in
  let stop := Z.to_nat (Z.min (u64_saturating_add offset limit) total_count) in
  let items := map item_of (take (stop - start) (drop start nodes)) in
  let next_offset := if (stop <? length nodes)%nat then Some (Z.of_nat stop) else None in
  mkPage path version total_count offset limit next_offset false counts items.

Definition build_folder_page (s : VaultSession) (request : CatalogFolderPageRequest)
    : result RpcResponse CatalogFolderPageResponse :=
  let path := normalize_path (fr_path request) in
  if is_system_path_guarded s path then Err system_shard_denied else
  let version := version (catalog s) in
  let limit := clamp_limit (fr_limit request) in
  if from_option (fun expected => negb (expected =? version)) false (fr_expected_version request)
  then Ok (mkPage path version 0 (fr_offset request) limit None true (mkCounts 0 0 0) []) else
  entries ← folder_entries s path (fr_sort request) (fr_filter request);
  let '(nodes, filter_counts) := (entries : list FolderListCandidate * CatalogFolderFilterCounts) in
  Ok (cut_page path version (fr_offset request) limit filter_counts nodes).

(** ** A batch of pages *)

Context (request_key : CatalogFolderPageRequest -> string) (payload_bytes : CatalogFolderBatchResponse -> Z).

Definition with_limit (limit : Z) (r : CatalogFolderPageRequest) : CatalogFolderPageRequest :=
  mkPageRequest (fr_path r) (fr_offset r) (Some limit) (fr_expected_version r) (fr_sort r) (fr_filter r).

(** The loop over the requests: the pages, and whether it was cut short. *)
Fixpoint batch_from (s : VaultSession) (seen : gset string) (pages : list CatalogFolderPageResponse)
    (remaining_items : Z) (requests : list CatalogFolderPageRequest)
    : result RpcResponse (list CatalogFolderPageResponse * bool) :=
  match requests with
  | [] => Ok (pages, false)
  | page_request :: requests' =>
      if (CATALOG_FOLDER_BATCH_MAX_PAGES <=? length pages)%nat || (remaining_items =? 0) then Ok (pages, true) else
      let key := request_key page_request in
      if bool_decide (key ∈ seen) then batch_from s seen pages remaining_items requests' else
      let seen := {[key]} ∪ seen in
      let capped_limit := Z.min (clamp_limit (fr_limit page_request)) remaining_items in
      page ← build_folder_page s (with_limit capped_limit page_request);
      let remaining_items := u64_saturating_sub remaining_items (Z.of_nat (length (fp_items page))) in
      let pages' := pages ++ [page] in
      if (CATALOG_FOLDER_BATCH_SOFT_BYTES <? payload_bytes (mkBatch pages' false [])) && (1 <? length pages')%nat
      then Ok (pages, true)
      else batch_from s seen pages' remaining_items requests'
  end.

Definition handle_catalog_folder_batch (s : VaultSession) (requests : list CatalogFolderPageRequest)
    : result RpcResponse CatalogFolderBatchResponse :=
  out ← batch_from s ∅ [] CATALOG_FOLDER_BATCH_MAX_ITEMS requests;
  let '(pages, truncated) := (out : list CatalogFolderPageResponse * bool) in
  Ok (mkBatch pages truncated (if truncated then ["BATCH_TRUNCATED"%string] else [])).
End Pages.

(** ** The list handler of crud.rs, on a loaded shard *)

Definition catalog_list (s : VaultSession) (path : string) : result RpcResponse (list CatalogListItem) :=
  if is_system_path_guarded s path then Err system_shard_denied else
  nodes ← map_err (fun e => RespErr e CodeNodeNotFound) (list_path (catalog s) path);
  let nodes := if String.eqb path "/" then List.filter (fun n => negb (is_system_shard_id (node_name n))) nodes else nodes in
  Ok (map (fun n => catalog_list_item_from_node_with_location n None None) nodes).

(** ** The order is a total order *)

(** A comparison function that is a total preorder. *)
Record Ordered {A} (cmp : A -> A -> comparison) : Prop := {
  or_sym x y : cmp y x = CompOpp (cmp x y);
  or_trans x y z : cmp x y = Lt -> cmp y z = Lt -> cmp x z = Lt;
  or_eq x y z : cmp x y = Eq -> cmp x z = cmp y z;
}.

Lemma ordered_eq_r {A} (cmp : A -> A -> comparison) x y z : Ordered cmp -> cmp y z = Eq -> cmp x y = cmp x z.
Proof. intros Ho E. rewrite (or_sym _ Ho y x), (or_sym _ Ho z x). by rewrite (or_eq _ Ho y z x E). Qed.

Lemma ordered_on {A B} (f : A -> B) cmp : Ordered cmp -> Ordered (fun x y => cmp (f x) (f y)).
Proof. intros [H1 H2 H3]. split; intros *; [apply H1|apply H2|apply H3]. Qed.

Lemma ordered_opp {A} (cmp : A -> A -> comparison) : Ordered cmp -> Ordered (fun x y => CompOpp (cmp x y)).
Proof.
  intros Ho. split.
  - intros x y. by rewrite (or_sym _ Ho x y).
  - intros x y z. rewrite <- !(or_sym _ Ho). intros H1 H2. by apply (or_trans _ Ho z y x).
  - intros x y z E. f_equal. apply (or_eq _ Ho). by destruct (cmp x y).
Qed.

Definition lex {A} (c1 c2 : A -> A -> comparison) (x y : A) : comparison :=
  match c1 x y with Eq => c2 x y | o => o end.

Lemma ordered_lex {A} (c1 c2 : A -> A -> comparison) : Ordered c1 -> Ordered c2 -> Ordered (lex c1 c2).
Proof.
  intros H1 H2. unfold lex. split.
  - intros x y. rewrite (or_sym _ H1 x y), (or_sym _ H2 x y). by destruct (c1 x y).
  - intros x y z. destruct (c1 x y) eqn:E1; [|destruct (c1 y z) eqn:E2|done].
    + rewrite (or_eq _ H1 x y z E1). destruct (c1 y z); [apply (or_trans _ H2)|done|done].
    + rewrite <- (ordered_eq_r _ x y z H1 E2), E1. done.
    + by rewrite (or_trans _ H1 x y z E1 E2).
    + done.
  - intros x y z. destruct (c1 x y) eqn:E1; [|done|done]. intros E2.
    rewrite (or_eq _ H1 x y z E1). by rewrite (or_eq _ H2 x y z E2).
Qed.

Lemma ordered_Z : Ordered Z.compare.
Proof.
  split; intros *; [apply Z.compare_antisym|rewrite !Z.compare_lt_iff; lia|]. by intros ->%Z.compare_eq_iff.
Qed.

Lemma ascii_compare_N a b : Ascii.compare a b = N.compare (N_of_ascii a) (N_of_ascii b).
Proof. done. Qed.

Lemma ordered_string : Ordered compare_names.
Proof.
  unfold compare_names. split.
  - intros x y. by rewrite String.compare_antisym.
  - intros x. induction x as [|a x IH]; intros [|b y] [|c z]; cbn; try done. rewrite !ascii_compare_N.
    destruct (N.compare_spec (N_of_ascii a) (N_of_ascii b)) as [E1|L1|], (N.compare_spec (N_of_ascii b) (N_of_ascii c)) as [E2|L2|];
      try done.
    + rewrite E1, E2, N.compare_refl. apply IH.
    + rewrite E1. apply N.compare_lt_iff in L2. by rewrite L2.
    + rewrite <- E2. apply N.compare_lt_iff in L1. by rewrite L1.
    + intros _ _. assert (N_of_ascii a < N_of_ascii c)%N as L by (etrans; eassumption).
      apply N.compare_lt_iff in L. by rewrite L.
  - intros x y z E. by apply String.compare_eq_iff in E as ->.
Qed.

(** The comparison by kind: directories first. *)
Definition compare_kind (a b : CatalogNode) : comparison :=
  if Bool.eqb (is_dir a) (is_dir b) then Eq else if is_dir a then Lt else Gt.

Lemma ordered_kind : Ordered compare_kind.
Proof.
  unfold compare_kind. split; [intros x y|intros x y z..]; destruct (is_dir x), (is_dir y);
    try done; destruct (is_dir z); cbn; congruence.
Qed.

Definition sort_key (sort : option CatalogFolderSort) (a b : CatalogNode) : comparison :=
  let sort_by := from_option fs_by "name"%string sort in
  if String.eqb sort_by "size" then Z.compare (node_size a) (node_size b)
  else if String.eqb sort_by "date" then Z.compare (modtime a) (modtime b)
  else if String.eqb sort_by "type" then compare_names (node_extension (node_name a)) (node_extension (node_name b))
  else compare_names (to_ascii_lowercase (node_name a)) (to_ascii_lowercase (node_name b)).

Definition sort_desc (sort : option CatalogFolderSort) : bool :=
  from_option (fun s => String.eqb (to_ascii_lowercase (fs_direction s)) "desc") false sort.

Definition sort_order (sort : option CatalogFolderSort) (a b : CatalogNode) : comparison :=
  lex (sort_key sort) (fun a b => compare_names (node_name a) (node_name b)) a b.

Lemma compare_nodes_lex a b sort :
  compare_nodes a b sort =
  lex compare_kind (fun a b => if sort_desc sort then CompOpp (sort_order sort a b) else sort_order sort a b) a b.
Proof.
  unfold compare_nodes, lex, compare_kind. destruct (Bool.eqb (is_dir a) (is_dir b)); cbn [negb]; [|by destruct (is_dir a)].
  unfold sort_order, lex. fold (sort_key sort a b). fold (sort_desc sort). by destruct (sort_key sort a b).
Qed.

Lemma ordered_sort_key sort : Ordered (sort_key sort).
Proof.
  unfold sort_key. cbn zeta. destruct (String.eqb _ "size"); [apply (ordered_on node_size), ordered_Z|].
  destruct (String.eqb _ "date"); [apply (ordered_on modtime), ordered_Z|].
  destruct (String.eqb _ "type"); [apply (ordered_on (fun a => node_extension (node_name a))), ordered_string|].
  apply (ordered_on (fun a => to_ascii_lowercase (node_name a))), ordered_string.
Qed.

(** Sizes, times, types or names, in either direction: the order of a listing is total. *)
Lemma ordered_compare_nodes sort : Ordered (fun a b => compare_nodes a b sort).
Proof.
  assert (Ordered (sort_order sort)) as Hs
    by apply (ordered_lex _ _ (ordered_sort_key sort)), (ordered_on node_name), ordered_string.
  destruct (sort_desc sort) eqn:E.
  - destruct (ordered_lex _ _ ordered_kind (ordered_opp _ Hs)) as [H1 H2 H3].
    split; intros *; rewrite !compare_nodes_lex, E; [apply H1|apply H2|apply H3].
  - destruct (ordered_lex _ _ ordered_kind Hs) as [H1 H2 H3].
    split; intros *; rewrite !compare_nodes_lex, E; [apply H1|apply H2|apply H3].
Qed.

Lemma ordered_le {A} (cmp : A -> A -> comparison) : Ordered cmp ->
  let le x y := match cmp x y with Gt => false | _ => true end in
  (forall x y, le x y = false -> le y x = true) /\ (forall x y z, le x y = true -> le y z = true -> le x z = true).
Proof.
  intros Ho. split.
  - intros x y. rewrite (or_sym _ Ho x y). by destruct (cmp x y).
  - intros x y z. destruct (cmp x y) eqn:E1; [|destruct (cmp y z) eqn:E2|done].
    + by rewrite (or_eq _ Ho x y z E1).
    + by rewrite <- (ordered_eq_r _ x y z Ho E2), E1.
    + by rewrite (or_trans _ Ho x y z E1 E2).
    + done.
Qed.

Lemma candidate_le_total sort a b : candidate_le sort a b = false -> candidate_le sort b a = true.
Proof. apply (ordered_le _ (ordered_on fl_node _ (ordered_compare_nodes sort))). Qed.

Lemma candidate_le_trans sort a b c :
  candidate_le sort a b = true -> candidate_le sort b c = true -> candidate_le sort a c = true.
Proof. apply (ordered_le _ (ordered_on fl_node _ (ordered_compare_nodes sort))). Qed.

(** ** Paths of candidates *)

(** A path is what trimming leaves and some slashes. *)
Lemma trim_end_slash_app s :
  exists n, s = String.append (trim_end_slash s) (String.concat "" (replicate n (String slash EmptyString))).
Proof.
  induction s as [|a s [n IH]]; [by exists 0%nat|]. cbn [trim_end_slash].
  destruct (trim_end_slash s) as [|b t] eqn:Et.
  - destruct (Ascii.eqb a slash) eqn:Ea.
    + apply Ascii.eqb_eq in Ea as ->. exists (S n). cbn in IH |- *. rewrite IH at 1. by destruct n.
    + exists n. by rewrite IH at 1.
  - exists n. by rewrite IH at 1.
Qed.

Lemma parse_slashes s n :
  parse_path (String.append s (String.concat "" (replicate n (String slash EmptyString)))) = parse_path s.
Proof.
  induction n as [|n IH]; [cbn; by rewrite string_append_nil_r|].
  assert (String.concat "" (replicate (S n) (String slash EmptyString))
          = String.append (String.concat "" (replicate n (String slash EmptyString))) (String slash EmptyString)) as ->.
  { clear. induction n as [|n IH]; [done|]. cbn in *. rewrite IH at 1. by destruct n. }
  rewrite <- string_append_assoc. unfold parse_path in *. rewrite split_char_sep, List.filter_app. cbn. by rewrite app_nil_r, IH.
Qed.

Lemma parse_trim_end_slash s : parse_path (trim_end_slash s) = parse_path s.
Proof. destruct (trim_end_slash_app s) as [n E]. rewrite E at 2. by rewrite parse_slashes. Qed.

Lemma parse_join_child path nm : part_ok nm -> parse_path (join_child_path path nm) = parse_path path ++ [nm].
Proof.
  intros Hok. unfold join_child_path. destruct (String.eqb_spec path "/") as [->|Hne].
  - apply (parse_path_sep "" nm Hok).
  - change (String.append "/" nm) with (String slash nm). rewrite parse_path_sep by done. by rewrite parse_trim_end_slash.
Qed.

(** [c] is a node below [node], at [path] joined with the way to it, and not in a system shard
    when [path] is the root. *)
Definition candidate_below (path : string) (node : CatalogNode) (c : FolderListCandidate) : Prop :=
  exists q qs, parse_path (fl_path c) = parse_path path ++ q :: qs
    /\ find_by_parts (q :: qs) node = Some (fl_node c)
    /\ (path = "/"%string -> is_system_shard_id q = false).

Lemma find_child_wf node cs c :
  wf_node node = true -> children_opt node = Some cs -> c ∈ cs ->
  find_child (node_name c) node = Some c /\ part_ok (node_name c) /\ wf_node c = true.
Proof.
  intros Hwf Ecs Hc. destruct (proj1 (wf_node_dir node cs Ecs) Hwf) as (_ & Hok & Hnd & Hwfs).
  rewrite Forall_forall in Hok, Hwfs. split_and!; [|by apply name_ok_part, Hok|by apply Hwfs].
  unfold find_child. rewrite (children_Some _ _ Ecs). by apply find_by_name.
Qed.

Lemma find_by_parts_wf qs r n : wf_node r = true -> find_by_parts qs r = Some n -> wf_node n = true.
Proof.
  revert r. induction qs as [|q qs IH]; intros r Hwf; cbn; [by intros [= <-]|].
  destruct (skip_part q); [by apply IH|]. destruct (find_child q r) as [c|] eqn:Ec; [|done]. apply IH.
  apply find_child_Some in Ec as [_ (cs & Ecs & Hc)%children_in_opt].
  by destruct (find_child_wf r cs c Hwf Ecs Hc) as (_ & _ & ?).
Qed.

Lemma direct_below path node c :
  wf_node node = true -> c ∈ direct_folder_candidates path (children node) -> candidate_below path node c.
Proof.
  intros Hwf (n & -> & [Hin Hf]%list_elem_of_In%filter_In)%list_elem_of_fmap. apply list_elem_of_In in Hin.
  destruct (children_in_opt _ _ Hin) as (cs & Ecs & Hcs).
  destruct (find_child_wf node cs n Hwf Ecs Hcs) as (Hfc & Hok & _).
  exists (node_name n), []. cbn [fl_path fl_node]. split; [by apply parse_join_child|]. split.
  - cbn. by rewrite part_ok_skip, Hfc.
  - intros ->. by apply negb_true_iff in Hf.
Qed.

Lemma collect_recursive_eq hidden path node :
  collect_recursive_candidates hidden path node =
  concat (map (fun child =>
    if String.eqb path "/" && is_system_shard_id (node_name child) then [] else
    if negb hidden && is_hidden child then [] else
    let child_path := join_child_path path (node_name child) in
    mkCandidate child child_path path
    :: (if is_dir child then collect_recursive_candidates hidden child_path child else [])) (children node)).
Proof. by destruct node as [?????????????[]]. Qed.

Lemma elem_concat_map {A B} (f : A -> list B) l y : y ∈ concat (map f l) <-> exists x, x ∈ l /\ y ∈ f x.
Proof.
  rewrite !list_elem_of_In, in_concat. setoid_rewrite in_map_iff. setoid_rewrite list_elem_of_In. split.
  - intros (? & (x & <- & Hx) & Hy). eauto.
  - intros (x & Hx & Hy). eauto.
Qed.

Lemma recursive_below hidden path node c :
  wf_node node = true -> c ∈ collect_recursive_candidates hidden path node -> candidate_below path node c.
Proof.
  revert path c. induction node as [node IH] using node_ind. intros path c Hwf. rewrite collect_recursive_eq.
  intros (n & Hin & Hc)%elem_concat_map. destruct (children_in_opt _ _ Hin) as (cs & Ecs & Hcs).
  destruct (find_child_wf node cs n Hwf Ecs Hcs) as (Hfc & Hok & Hwfn).
  destruct (String.eqb path "/" && is_system_shard_id (node_name n)) eqn:Esys; [by apply elem_of_nil in Hc|].
  destruct (negb hidden && is_hidden n); [by apply elem_of_nil in Hc|]. cbn zeta in Hc.
  assert (path = "/"%string -> is_system_shard_id (node_name n) = false) as Hsys.
  { intros ->. by rewrite String.eqb_refl in Esys. }
  apply elem_of_cons in Hc as [->|Hc].
  - exists (node_name n), []. cbn [fl_path fl_node]. split; [by apply parse_join_child|]. split; [|done].
    cbn. by rewrite part_ok_skip, Hfc.
  - destruct (is_dir n); [|by apply elem_of_nil in Hc]. rewrite Forall_forall in IH.
    destruct (IH n Hin _ c Hwfn Hc) as (q & qs & Hp & Hf & _). rewrite parse_join_child in Hp by done.
    exists (node_name n), (q :: qs). split; [by rewrite Hp, <- app_assoc|]. split; [|done].
    cbn [find_by_parts]. by rewrite part_ok_skip, Hfc.
Qed.

Lemma StronglySorted_weaken {A} (R S : A -> A -> Prop) l :
  (forall x y, R x y -> S x y) -> StronglySorted R l -> StronglySorted S l.
Proof. intros HRS. induction 1; constructor; [done|]. eapply Forall_impl; [eassumption|]. auto. Qed.

Section PageTheorems.
Context (lower : string -> string) (text : CatalogNode -> string -> bool).
Abbreviation entries := (folder_entries lower text).
Abbreviation page := (build_folder_page lower text).

Lemma entries_below s path sort filter nodes counts c :
  catalog_inv (catalog s) -> entries s path sort filter = Ok (nodes, counts) -> c ∈ nodes ->
  exists node, find_by_path (catalog s) path = Some node /\ candidate_below path node c.
Proof.
  intros Hinv. unfold folder_entries. intros He Hc. apply bind_Ok_inv in He as (children' & Hl & He).
  apply bind_Ok_inv in He as (cands & Hcands & He). apply bind_Ok_inv in He as (cnts & _ & [= <- <-]).
  rewrite stable_sort_perm, list_elem_of_In, filter_In in Hc. destruct Hc as [[Hc _]%filter_In _].
  apply list_elem_of_In in Hc. unfold list_path in Hl.
  destruct (find_by_path (catalog s) path) as [node|] eqn:Ef; [|done]. exists node. split; [done|].
  assert (wf_node node = true) as Hwf by (eapply find_by_parts_wf; [apply Hinv|exact Ef]).
  destruct (should_search_recursively filter).
  - unfold recursive_folder_candidates in Hcands. rewrite Ef in Hcands. injection Hcands as <-. by eapply recursive_below.
  - injection Hcands as <-. cbn in Hl. destruct (negb (is_dir node)); [done|]. injection Hl as <-. by eapply direct_below.
Qed.

(** C16: Every entry a page shows is a node of the catalog: it is found at the path shown, with the id,
    name, kind and size shown; and it does not lie in a system shard, whatever the spelling of the requested
    path, the filter and the recursion. *)
Theorem pages_are_sound s request p :
  catalog_inv (catalog s) -> bypass s = 0 -> page s request = Ok p ->
  Forall (fun item => exists path n, li_path item = Some path /\ find_by_path (catalog s) path = Some n
            /\ item = catalog_list_item_from_node_with_location n (Some path) (li_parent_path item)
            /\ is_system_path path = false) (fp_items p).
Proof.
  intros Hinv Hb. unfold build_folder_page. unfold is_system_path_guarded. rewrite Hb. cbn [Z.ltb Z.compare].
  set (path := normalize_path (fr_path request)). destruct (is_system_path path) eqn:Esys; [done|].
  destruct (from_option _ false (fr_expected_version request)); [by intros [= <-]|]. intros Hp.
  apply bind_Ok_inv in Hp as ([nodes counts] & He & [= <-]). unfold cut_page. cbn [fp_items].
  apply Forall_forall. intros item (c & -> & Hc)%list_elem_of_fmap.
  assert (c ∈ nodes) as Hin by (by apply elem_of_take in Hc as (? & [Hc _]); eapply list_elem_of_lookup_2; rewrite lookup_drop in Hc).
  destruct (entries_below s path _ _ nodes counts c Hinv He Hin) as (node & Hf & q & qs & Hparse & Hq & Hroot).
  exists (fl_path c), (fl_node c). split; [done|]. split.
  { unfold find_by_path in *. by rewrite Hparse, find_by_parts_app, Hf. }
  split; [done|]. rewrite is_system_path_eq, Hparse. rewrite is_system_path_eq in Esys.
  destruct (parse_path path) as [|sh rest] eqn:Epp; [|done]. cbn. apply Hroot. unfold path in *.
  rewrite parse_normalize in Epp. unfold normalize_path. unfold parse_path in Epp. by rewrite Epp.
Qed.

(** *** Following the offsets *)

Definition at_offset (o : Z) (r : CatalogFolderPageRequest) : CatalogFolderPageRequest :=
  mkPageRequest (fr_path r) o (fr_limit r) (fr_expected_version r) (fr_sort r) (fr_filter r).

(** A client that asks for page after page; [None] when the fuel runs out. *)
Fixpoint follow (fuel : nat) (s : VaultSession) (r : CatalogFolderPageRequest) (o : Z)
    : option (result RpcResponse (list CatalogListItem)) :=
  match fuel with
  | O => None
  | S fuel' =>
      match page s (at_offset o r) with
      | Err e => Some (Err e)
      | Ok p =>
          match fp_next_offset p with
          | None => Some (Ok (fp_items p))
          | Some o' =>
              match follow fuel' s r o' with
              | Some (Ok rest) => Some (Ok (fp_items p ++ rest))
              | other => other
              end
          end
      end
  end.

Lemma clamp_limit_range l : 1 <= clamp_limit l <= 500.
Proof. unfold clamp_limit, CATALOG_FOLDER_PAGE_MAX_ITEMS. lia. Qed.

Lemma clamp_limit_some l : 1 <= l <= 500 -> clamp_limit (Some l) = l.
Proof. unfold clamp_limit, CATALOG_FOLDER_PAGE_MAX_ITEMS. cbn. lia. Qed.

Lemma page_at s r o nodes counts :
  is_system_path_guarded s (normalize_path (fr_path r)) = false ->
  (forall v, fr_expected_version r = Some v -> v = version (catalog s)) ->
  entries s (normalize_path (fr_path r)) (fr_sort r) (fr_filter r) = Ok (nodes, counts) ->
  page s (at_offset o r)
  = Ok (cut_page (normalize_path (fr_path r)) (version (catalog s)) o (clamp_limit (fr_limit r)) counts nodes).
Proof.
  intros Hg Hv He. unfold build_folder_page. cbn [at_offset fr_path fr_limit fr_expected_version fr_sort fr_filter fr_offset].
  rewrite Hg. replace (from_option _ false (fr_expected_version r)) with false; [by rewrite He|].
  destruct (fr_expected_version r) as [v|]; [|done]. cbn. by rewrite (Hv v eq_refl), Z.eqb_refl.
Qed.

Lemma follow_from s r nodes counts fuel o :
  is_system_path_guarded s (normalize_path (fr_path r)) = false ->
  (forall v, fr_expected_version r = Some v -> v = version (catalog s)) ->
  entries s (normalize_path (fr_path r)) (fr_sort r) (fr_filter r) = Ok (nodes, counts) ->
  Z.of_nat (length nodes) + 500 <= U64_MAX -> (o <= length nodes)%nat -> (length nodes - o < fuel)%nat ->
  follow fuel s r (Z.of_nat o) = Some (Ok (map item_of (drop o nodes))).
Proof.
  intros Hg Hv He Hm. revert o. induction fuel as [|fuel IH]; intros o Ho Hf; [lia|]. cbn [follow].
  rewrite (page_at s r (Z.of_nat o) nodes counts Hg Hv He). unfold cut_page. cbn [fp_next_offset fp_items].
  pose proof (clamp_limit_range (fr_limit r)) as Hl. set (l := clamp_limit (fr_limit r)) in *.
  replace (Z.to_nat (Z.min (Z.of_nat o) (Z.of_nat (length nodes)))) with o by lia.
  set (stop := Z.to_nat (Z.min (u64_saturating_add (Z.of_nat o) l) (Z.of_nat (length nodes)))).
  assert (stop = Nat.min (o + Z.to_nat l) (length nodes)) as Estop by (unfold stop, u64_saturating_add; lia).
  destruct (stop <? length nodes)%nat eqn:Elt.
  - apply Nat.ltb_lt in Elt. rewrite IH by lia. rewrite <- map_app. do 3 f_equal.
    rewrite <- (take_drop (stop - o) (drop o nodes)) at 2. f_equal. rewrite drop_drop. f_equal. lia.
  - apply Nat.ltb_ge in Elt. do 3 f_equal. apply take_ge. rewrite length_drop. lia.
Qed.

(** C17: A client that follows the offsets of a folder's pages from the start, with any page size,
    gets every entry of the listing exactly once and in order, and comes to an end after at most one request per entry and one
    more, as long as the catalog does not change. The entries are sorted by the requested order, which is total, directories
    first, equal ones in the order of the folder. *)
Theorem pages_cover_listing s r nodes counts :
  is_system_path_guarded s (normalize_path (fr_path r)) = false ->
  (forall v, fr_expected_version r = Some v -> v = version (catalog s)) ->
  entries s (normalize_path (fr_path r)) (fr_sort r) (fr_filter r) = Ok (nodes, counts) ->
  Z.of_nat (length nodes) + 500 <= U64_MAX ->
  follow (S (length nodes)) s r 0 = Some (Ok (map item_of nodes))
  /\ StronglySorted (fun a b => compare_nodes (fl_node a) (fl_node b) (fr_sort r) <> Gt) nodes.
Proof.
  intros Hg Hv He Hm. split; [apply (follow_from s r nodes counts _ 0 Hg Hv He Hm); lia|].
  unfold folder_entries in He. apply bind_Ok_inv in He as (? & _ & He). apply bind_Ok_inv in He as (? & _ & He).
  apply bind_Ok_inv in He as (? & _ & [= <- _]).
  eapply StronglySorted_weaken; [|apply stable_sort_sorted; [apply candidate_le_total|apply candidate_le_trans]].
  intros a b. unfold candidate_le. by destruct (compare_nodes _ _ _).
Qed.

(** *** Batches *)

Context (key : CatalogFolderPageRequest -> string) (bytes : CatalogFolderBatchResponse -> Z).
Abbreviation batch := (handle_catalog_folder_batch lower text key bytes).

Definition batch_items (pages : list CatalogFolderPageResponse) : Z :=
  foldr (fun p n => Z.of_nat (length (fp_items p)) + n) 0 pages.

Lemma batch_items_app ps qs : batch_items (ps ++ qs) = batch_items ps + batch_items qs.
Proof. unfold batch_items. induction ps as [|p ps IH]; cbn; [done|]. rewrite IH. lia. Qed.

Lemma page_items_limit s r p : page s r = Ok p -> Z.of_nat (length (fp_items p)) <= clamp_limit (fr_limit r).
Proof.
  pose proof (clamp_limit_range (fr_limit r)). unfold build_folder_page.
  destruct (is_system_path_guarded _ _); [done|]. destruct (from_option _ false _); [intros [= <-]; cbn; lia|].
  intros Hp. apply bind_Ok_inv in Hp as ([nodes counts] & _ & [= <-]). unfold cut_page. cbn [fp_items].
  rewrite length_map, length_take, length_drop. unfold u64_saturating_add. lia.
Qed.

Lemma batch_from_limits s seen pages remaining rs out :
  (length pages <= CATALOG_FOLDER_BATCH_MAX_PAGES)%nat -> 0 <= remaining ->
  batch_items pages + remaining <= CATALOG_FOLDER_BATCH_MAX_ITEMS ->
  batch_from lower text key bytes s seen pages remaining rs = Ok out ->
  (length out.1 <= CATALOG_FOLDER_BATCH_MAX_PAGES)%nat /\ batch_items out.1 <= CATALOG_FOLDER_BATCH_MAX_ITEMS.
Proof.
  revert seen pages remaining. induction rs as [|r rs IH]; intros seen pages remaining Hl Hr Hi; cbn [batch_from].
  { intros [= <-]. cbn [fst]. split; [done|lia]. }
  destruct (_ || _) eqn:Estop; [intros [= <-]; cbn [fst]; split; [done|lia]|].
  apply orb_false_iff in Estop as [Hlt%Nat.leb_gt Hne%Z.eqb_neq].
  destruct (bool_decide _); [by apply IH|]. intros H. apply bind_Ok_inv in H as (p & Hp & H).
  apply page_items_limit in Hp. cbn [with_limit fr_limit] in Hp.
  set (cap := Z.min (clamp_limit (fr_limit r)) remaining) in *. pose proof (clamp_limit_range (fr_limit r)).
  assert (Z.of_nat (length (fp_items p)) <= remaining) as Hfit.
  { rewrite clamp_limit_some in Hp by lia. lia. }
  destruct (_ && _); [injection H as <-; cbn [fst]; split; [done|lia]|].
  eapply (IH _ _ _ _ _ _ H). Unshelve.
  - rewrite length_app. cbn. lia.
  - unfold u64_saturating_sub. lia.
  - rewrite batch_items_app. unfold u64_saturating_sub. cbn. lia.
Qed.

(** A batch never holds more than four pages or a thousand entries, whatever is requested. *)
Theorem batch_bounded s rs b :
  batch s rs = Ok b -> (length (fb_pages b) <= 4)%nat /\ batch_items (fb_pages b) <= 1000.
Proof.
  intros Hb. unfold handle_catalog_folder_batch in Hb. apply bind_Ok_inv in Hb as ([pages truncated] & Hb & [= <-]).
  apply batch_from_limits in Hb; [done|cbn; lia|done|done].
Qed.
End PageTheorems.

(** ** A concrete folder *)

Definition demo_lower (s : string) : string := to_ascii_lowercase s.
Definition demo_text (_ : CatalogNode) (_ : string) : bool := false.
Definition demo_key (r : CatalogFolderPageRequest) : string := String.append (fr_path r) (show_u64 (fr_offset r)).
Definition demo_bytes (b : CatalogFolderBatchResponse) : Z := 1000 * Z.of_nat (length (fb_pages b)).

Definition listed_catalog : CatalogManager :=
  foldl (fun m op => snd (op m)) (new 0)
    [fun m => (tt, snd (create_dir (fun _ => 1) "/" ".passmanager" m));
     fun m => (tt, snd (create_dir (fun _ => 2) "/.passmanager" "bank" m));
     fun m => (tt, snd (create_dir (fun _ => 3) "/" "docs" m));
     fun m => (tt, snd (create_file (fun _ => 4) "/docs" "B.txt" 10 None m));
     fun m => (tt, snd (create_file (fun _ => 5) "/docs" "a.md" 20 None m));
     fun m => (tt, snd (create_file (fun _ => 6) "/docs" "c.png" 30 None m))].
Definition listed_session : VaultSession := fresh_session listed_catalog.

Definition list_request (path : string) (limit : Z) : CatalogFolderPageRequest :=
  mkPageRequest path 0 (Some limit) None (Some (mkSort "name" "asc"))
    (Some (mkFilter None (Some true) (Some true) None [])).

Definition demo_page (path : string) (limit : Z) : result RpcResponse CatalogFolderPageResponse :=
  build_folder_page demo_lower demo_text listed_session (list_request path limit).

Example demo_page_names :
  match demo_page "//" 2 with
  | Ok p => (map li_name (fp_items p), fp_next_offset p) = (["docs"; "a.md"]%string, Some 2)
  | Err _ => False
  end.
Proof. vm_compute. reflexivity. Qed.

Lemma listed_catalog_inv : catalog_inv listed_catalog.
Proof. apply catalog_inv_check_sound. vm_compute. reflexivity. Qed.

Lemma pages_are_sound_witness :
  exists p, build_folder_page demo_lower demo_text listed_session (list_request "//" 3) = Ok p
    /\ Forall (fun item => exists path n, li_path item = Some path /\ find_by_path (catalog listed_session) path = Some n
            /\ item = catalog_list_item_from_node_with_location n (Some path) (li_parent_path item)
            /\ is_system_path path = false) (fp_items p).
Proof.
  destruct (build_folder_page demo_lower demo_text listed_session (list_request "//" 3)) as [p|] eqn:E;
    [|vm_compute in E; discriminate]. exists p. split; [reflexivity|].
  exact (pages_are_sound demo_lower demo_text listed_session (list_request "//" 3) p listed_catalog_inv eq_refl E).
Defined.

Definition demo_entries : list FolderListCandidate :=
  match folder_entries demo_lower demo_text listed_session "/docs" (Some (mkSort "name" "asc"))
          (Some (mkFilter None (Some true) (Some true) None [])) with
  | Ok (nodes, _) => nodes
  | Err _ => []
  end.

Lemma pages_cover_listing_witness :
  map (fun c => node_name (fl_node c)) demo_entries = ["a.md"; "B.txt"; "c.png"]%string
  /\ follow demo_lower demo_text (S (length demo_entries)) listed_session (list_request "docs/" 2) 0
     = Some (Ok (map item_of demo_entries)).
Proof.
  split; [vm_compute; reflexivity|].
  refine (proj1 (pages_cover_listing demo_lower demo_text listed_session (list_request "docs/" 2) demo_entries
                   (mkCounts 3 1 1) _ _ _ _)); [reflexivity|discriminate|vm_compute; reflexivity|vm_compute; discriminate].
Defined.

Lemma batch_bounded_witness :
  exists b, handle_catalog_folder_batch demo_lower demo_text demo_key demo_bytes listed_session
              [list_request "/" 2; list_request "/docs" 2; list_request "/" 2] = Ok b
    /\ (length (fb_pages b) <= 4)%nat /\ batch_items (fb_pages b) <= 1000.
Proof.
  destruct (handle_catalog_folder_batch _ _ _ _ _ _) as [b|] eqn:E; [|vm_compute in E; discriminate]. exists b.
  split; [reflexivity|]. exact (batch_bounded _ _ _ _ _ _ b E).
Defined.

(** The older list handler compares the path it was given with the slash alone: a doubled slash
    lists the root with its system shards, which the paged listing never shows. *)
Theorem doubled_slash_lists_system_shards :
  match catalog_list listed_session "/", catalog_list listed_session "//" with
  | Ok one, Ok two => map li_name one = ["docs"]%string /\ map li_name two = [".passmanager"; "docs"]%string
  | _, _ => False
  end.
Proof. vm_compute. split; reflexivity. Qed.
