(* ===== verification/DerivativeIndex.v ===== *)
(** * The index of derivatives

    Models [crates/core/src/rpc/derivative_index.rs]: previews and other derivatives of
    files are stored in chunks of their own, and an encrypted index chunk lists them. The
    router keeps the index in memory, with a flag for access times that are not yet
    written ([DerivativeIndexCacheState], behind a mutex: each method is one step). The
    free functions work on the index chunk itself. Clock readings are arguments. *)

From Stdlib Require Import Strings.Byte Ascii String.
From stdpp Require Import base gmap strings list sorting.
From S2P Require Import Prelude.
From S2P Require Import CatalogNode.
From S2P Require Import Bytes.
From S2P Require Import Storage.
From S2P Require Import Crypto.
From S2P Require Import IoLogic.
Open Scope Z_scope.

(** ** Data *)

Record DerivativeIndexEntry := mkEntry {
  e_node_id : Z;
  e_source_revision : Z;
  e_tier : string;
  e_storage_version : Z;
  e_meta_chunk_name : string;
  e_part_count : Z;
  e_total_bytes : Z;
  e_created_at : Z;
  e_last_accessed_at : Z;
}.

#[export] Instance entry_eq_dec : EqDecision DerivativeIndexEntry.
Proof. solve_decision. Defined.

Record DerivativeIndexRecord := mkIndex { entries : list DerivativeIndexEntry }.

Record DerivativeIndexStats := mkStats { indexed_count : Z; indexed_bytes : Z }.

Record DerivativeIndexCacheState := mkIndexCache {
  ic_record : option DerivativeIndexRecord;
  ic_touch_dirty : bool;
}.

(** [DerivativeEntryKey]: node, revision, tier and storage version. *)
Definition DerivativeEntryKey : Type := Z * Z * string * Z.

Definition key (e : DerivativeIndexEntry) : DerivativeEntryKey :=
  (e_node_id e, e_source_revision e, e_tier e, e_storage_version e).

(** ** Pure operations on a record *)

Definition index_default : DerivativeIndexRecord := mkIndex [].

Definition index_bytes (es : list DerivativeIndexEntry) : Z :=
  foldl (fun sum e => u64_saturating_add sum (e_total_bytes e)) 0 es.

Definition stats (r : DerivativeIndexRecord) : DerivativeIndexStats :=
  mkStats (Z.of_nat (length (entries r))) (index_bytes (entries r)).

Definition derivative_entry_matches (e : DerivativeIndexEntry) (node_id source_revision : Z)
    (tier : string) (storage_version : Z) : bool :=
  (e_node_id e =? node_id) && (e_source_revision e =? source_revision)
  && String.eqb (e_tier e) tier && (e_storage_version e =? storage_version).

Definition get_entry (node_id source_revision : Z) (tier : string) (storage_version : Z)
    (r : DerivativeIndexRecord) : option DerivativeIndexEntry :=
  List.find (fun e => derivative_entry_matches e node_id source_revision tier storage_version) (entries r).

(** Replaces the first entry with the key of [e], or appends [e]. *)
Fixpoint upsert_in (e : DerivativeIndexEntry) (es : list DerivativeIndexEntry) : list DerivativeIndexEntry :=
  match es with
  | [] => [e]
  | c :: es' => if bool_decide (key c = key e) then e :: es' else c :: upsert_in e es'
  end.

Definition upsert_entry (e : DerivativeIndexEntry) (r : DerivativeIndexRecord) : DerivativeIndexRecord :=
  mkIndex (upsert_in e (entries r)).

Definition build_derivative_entry (now : Z) (r : DerivativeIndexRecord) (node_id source_revision : Z)
    (tier : string) (storage_version : Z) (meta_chunk_name : string) (part_count total_bytes : Z)
    : DerivativeIndexEntry :=
  let created_at := from_option e_created_at now (get_entry node_id source_revision tier storage_version r) in
  mkEntry node_id source_revision tier storage_version meta_chunk_name part_count total_bytes created_at now.

Definition set_last_accessed (now : Z) (e : DerivativeIndexEntry) : DerivativeIndexEntry :=
  mkEntry (e_node_id e) (e_source_revision e) (e_tier e) (e_storage_version e) (e_meta_chunk_name e)
    (e_part_count e) (e_total_bytes e) (e_created_at e) now.

(** [entries.iter_mut().find(..)] and the update of what is found. *)
Fixpoint touch_in (now node_id source_revision : Z) (tier : string) (storage_version : Z)
    (es : list DerivativeIndexEntry) : option (list DerivativeIndexEntry) :=
  match es with
  | [] => None
  | e :: es' =>
      if derivative_entry_matches e node_id source_revision tier storage_version
      then Some (set_last_accessed now e :: es')
      else (cons e) <$> touch_in now node_id source_revision tier storage_version es'
  end.

Definition is_protected (protected : gmap Z Z) (e : DerivativeIndexEntry) : bool :=
  match protected !! e_node_id e with
  | Some revision => revision =? e_source_revision e
  | None => false
  end.

(** An entry of a protected node at another revision. *)
Definition is_stale (protected : gmap Z Z) (e : DerivativeIndexEntry) : bool :=
  match protected !! e_node_id e with
  | Some revision => negb (revision =? e_source_revision e)
  | None => false
  end.

(** [(last_accessed_at, created_at)], compared lexicographically. *)
Definition older_or_same (a b : DerivativeIndexEntry) : bool :=
  (e_last_accessed_at a <? e_last_accessed_at b)
  || (e_last_accessed_at a =? e_last_accessed_at b) && (e_created_at a <=? e_created_at b).

(** The loop that collects keys until enough bytes are gone. *)
Fixpoint choose_removals (max_bytes indexed : Z) (candidates : list DerivativeIndexEntry)
    : Z * list DerivativeEntryKey :=
  match candidates with
  | [] => (indexed, [])
  | e :: cs =>
      if indexed <=? max_bytes then (indexed, [])
      else let '(rest, ks) := choose_removals max_bytes (u64_saturating_sub indexed (e_total_bytes e)) cs in
           (rest, key e :: ks)
  end.

(** ** The index chunk *)

Section Index.
Context `{cr : Crypto} `{Serde DerivativeIndexRecord}.
Context (vault_key : list byte).

Definition index_chunk_name : string := derivative_index_chunk_name vault_key.

Definition load_index : IO DerivativeIndexRecord :=
  encrypted ← attempt (read_chunk index_chunk_name);
  match encrypted with
  | Err (ChunkNotFound _) => mret index_default
  | Err e => io_throw e
  | Ok encrypted =>
      decrypted ← io_lift (decrypt encrypted vault_key (as_bytes index_chunk_name));
      io_lift (ok_or (from_slice decrypted) (InvalidDataFormat "invalid derivative index"))
  end.

Definition save_index (r : DerivativeIndexRecord) : IO unit :=
  match entries r with
  | [] => delete_chunk index_chunk_name;; sync
  | _ =>
      serialized ← io_lift (ok_or (to_vec r) (InvalidDataFormat "invalid derivative index"));
      encrypted ← encrypt serialized vault_key (as_bytes index_chunk_name);
      write_chunk_atomic index_chunk_name encrypted;;
      sync
  end.

Definition entry_part_names (e : DerivativeIndexEntry) : list string :=
  map (derivative_chunk_name vault_key (e_node_id e) (e_source_revision e) (e_tier e) (e_storage_version e))
    (seqZ 0 (e_part_count e)).

Fixpoint delete_all (names : list string) : IO unit :=
  match names with
  | [] => mret tt
  | n :: names' => delete_chunk n;; delete_all names'
  end.

Definition delete_entry_chunks (e : DerivativeIndexEntry) : IO unit :=
  delete_chunk (e_meta_chunk_name e);;
  delete_all (entry_part_names e).

(** The loop of [remove_entries_by_key]: the entries retained. *)
Fixpoint drain_entries (remove_keys : list DerivativeEntryKey) (es : list DerivativeIndexEntry)
    : IO (bool * list DerivativeIndexEntry) :=
  match es with
  | [] => mret (false, [])
  | e :: es' =>
      if bool_decide (key e ∈ remove_keys)
      then delete_entry_chunks e;;
           '(_, retained) ← drain_entries remove_keys es';
           mret (true, retained)
      else '(removed, retained) ← drain_entries remove_keys es';
           mret (removed, e :: retained)
  end.

(** [record.entries.drain(..)]: a failing deletion leaves the loop with the record
    drained. *)
Definition remove_entries_by_key (remove_keys : list DerivativeEntryKey) : StIO DerivativeIndexRecord bool :=
  match remove_keys with
  | [] => mret false
  | _ =>
      r ← st_get;
      st_put (mkIndex []);;
      '(removed, retained) ← io (drain_entries remove_keys (entries r));
      st_put (mkIndex retained);;
      mret removed
  end.

Definition compact_record (max_bytes : Z) (protected : gmap Z Z) : StIO DerivativeIndexRecord bool :=
  r ← st_get;
  if indexed_bytes (stats r) <=? max_bytes then mret false else
  let '(rest, ks) := choose_removals max_bytes (indexed_bytes (stats r))
                       (stable_sort older_or_same (List.filter (is_stale protected) (entries r))) in
  removed ← remove_entries_by_key ks;
  if negb (rest <=? max_bytes) then
    r ← st_get;
    let '(_, ks) := choose_removals max_bytes rest
                      (stable_sort older_or_same
                         (List.filter (fun e => negb (is_protected protected e)) (entries r))) in
    removed' ← remove_entries_by_key ks;
    mret (removed' || removed)
  else mret removed.

(** The keys [delete_indexed_derivatives_for_node] and
    [delete_stale_derivatives_for_node] remove. *)
Definition node_keys (node_id : Z) (r : DerivativeIndexRecord) : list DerivativeEntryKey :=
  map key (List.filter (fun e => e_node_id e =? node_id) (entries r)).

Definition stale_keys (node_id current_revision : Z) (r : DerivativeIndexRecord) : list DerivativeEntryKey :=
  map key (List.filter (fun e => (e_node_id e =? node_id) && negb (e_source_revision e =? current_revision))
             (entries r)).

Definition remove_keys_of (f : DerivativeIndexRecord -> list DerivativeEntryKey) : StIO DerivativeIndexRecord bool :=
  r ← st_get; remove_entries_by_key (f r).

Definition live_derivative_chunk_names : IO (gset string) :=
  e ← chunk_exists index_chunk_name;
  let live : gset string := if (e : bool) then {[index_chunk_name]} else ∅ in
  r ← load_index;
  let live := foldl (fun live e => list_to_set (entry_part_names e) ∪ ({[e_meta_chunk_name e]} ∪ live))
                live (entries r) in
  let tx := derivative_write_tx_marker_name vault_key in
  e ← chunk_exists tx;
  mret (if (e : bool) then {[tx]} ∪ live else live).

(** ** The index in memory *)

Abbreviation CIO := (StIO DerivativeIndexCacheState).

(** [cached_record_mut] and a computation [c] on the record it returns. *)
Definition on_record {A} (c : StIO DerivativeIndexRecord A) : CIO A := fun s w =>
  let run r w :=
    let '(x, r', w') := c r w in (x, mkIndexCache (Some r') (ic_touch_dirty s), w') in
  match ic_record s with
  | Some r => run r w
  | None =>
      match load_index w with
      | (Ok r, w') => run r w'
      | (Err e, w') => (Err e, s, w')
      end
  end.

Definition set_touch_dirty (b : bool) (s : DerivativeIndexCacheState) : DerivativeIndexCacheState :=
  mkIndexCache (ic_record s) b.

Definition invalidate : DerivativeIndexCacheState := mkIndexCache None false.

Definition flush : CIO unit :=
  s ← st_get;
  if negb (ic_touch_dirty s) then mret tt else
  (match ic_record s with
   | Some r => io (save_index r)
   | None => mret tt
   end);;
  st_modify (set_touch_dirty false).

Definition cached_stats : CIO DerivativeIndexStats := on_record (r ← st_get; mret (stats r)).

Definition cached_get_derivative_entry (node_id source_revision : Z) (tier : string) (storage_version : Z)
    : CIO (option DerivativeIndexEntry) :=
  on_record (r ← st_get; mret (get_entry node_id source_revision tier storage_version r)).

Definition cached_save_derivative_entry (now node_id source_revision : Z) (tier : string) (storage_version : Z)
    (meta_chunk_name : string) (part_count total_bytes : Z) : CIO DerivativeIndexStats :=
  st ← on_record (
    r ← st_get;
    let e := build_derivative_entry now r node_id source_revision tier storage_version meta_chunk_name
               part_count total_bytes in
    let r' := upsert_entry e r in
    st_put r';;
    io (save_index r');;
    mret (stats r'));
  st_modify (set_touch_dirty false);;
  mret st.

Definition cached_touch_derivative_entry (now node_id source_revision : Z) (tier : string) (storage_version : Z)
    : CIO bool :=
  found ← on_record (
    r ← st_get;
    match touch_in now node_id source_revision tier storage_version (entries r) with
    | None => mret false
    | Some es => st_put (mkIndex es);; mret true
    end);
  if negb found then mret false else
  st_modify (set_touch_dirty true);;
  mret true.

(** What the removals share: change the record, and write it if it changed or access
    times are waiting. *)
Definition change_and_save (change : StIO DerivativeIndexRecord bool) : CIO DerivativeIndexStats :=
  s ← st_get;
  let touch_dirty := ic_touch_dirty s in
  '(changed, st) ← on_record (
    removed ← change;
    r ← st_get;
    (if removed || touch_dirty then io (save_index r) else mret tt);;
    mret (removed || touch_dirty, stats r));
  (if (changed : bool) then st_modify (set_touch_dirty false) else mret tt);;
  mret st.

Definition cached_delete_indexed_derivatives_for_node (node_id : Z) : CIO DerivativeIndexStats :=
  change_and_save (remove_keys_of (node_keys node_id)).

Definition cached_delete_stale_derivatives_for_node (node_id current_revision : Z) : CIO DerivativeIndexStats :=
  change_and_save (remove_keys_of (stale_keys node_id current_revision)).

Definition cached_compact_derivatives (max_bytes : Z) (protected : gmap Z Z) : CIO DerivativeIndexStats :=
  change_and_save (compact_record max_bytes protected).

(** ** The free functions *)

(** [let mut record = load_index(..)?] and a computation on it. *)
Definition with_loaded {A} (c : StIO DerivativeIndexRecord A) : IO A :=
  r ← load_index; st_run r c.

Definition load_stats : IO DerivativeIndexStats := r ← load_index; mret (stats r).

Definition touch_derivative_entry (now node_id source_revision : Z) (tier : string) (storage_version : Z) : IO bool :=
  r ← load_index;
  match touch_in now node_id source_revision tier storage_version (entries r) with
  | None => mret false
  | Some es => save_index (mkIndex es);; mret true
  end.

Definition put_derivative_entry (e : DerivativeIndexEntry) : IO DerivativeIndexStats :=
  r ← load_index;
  save_index (upsert_entry e r);;
  mret (stats (upsert_entry e r)).

Definition save_derivative_entry (now node_id source_revision : Z) (tier : string) (storage_version : Z)
    (meta_chunk_name : string) (part_count total_bytes : Z) : IO DerivativeIndexStats :=
  r ← load_index;
  let e := build_derivative_entry now r node_id source_revision tier storage_version meta_chunk_name
             part_count total_bytes in
  save_index (upsert_entry e r);;
  mret (stats (upsert_entry e r)).

Definition get_derivative_entry (node_id source_revision : Z) (tier : string) (storage_version : Z)
    : IO (option DerivativeIndexEntry) :=
  r ← load_index;
  mret (get_entry node_id source_revision tier storage_version r).

Definition remove_derivative_entry (node_id source_revision : Z) (tier : string) (storage_version : Z)
    : IO DerivativeIndexStats :=
  r ← load_index;
  let r' := mkIndex (List.filter (fun e =>
              negb (derivative_entry_matches e node_id source_revision tier storage_version)) (entries r)) in
  (if negb (length (entries r') =? length (entries r))%nat then save_index r' else mret tt);;
  mret (stats r').

(** A removal on the index chunk: it is written when something was removed. *)
Definition remove_and_save (change : StIO DerivativeIndexRecord bool) : IO DerivativeIndexStats :=
  with_loaded (
    removed ← change;
    r ← st_get;
    (if (removed : bool) then io (save_index r) else mret tt);;
    mret (stats r)).

Definition delete_indexed_derivatives_for_node (node_id : Z) : IO DerivativeIndexStats :=
  remove_and_save (remove_keys_of (node_keys node_id)).

Definition delete_stale_derivatives_for_node (node_id current_revision : Z) : IO DerivativeIndexStats :=
  remove_and_save (remove_keys_of (stale_keys node_id current_revision)).

Definition compact_derivatives (max_bytes : Z) (protected : gmap Z Z) : IO DerivativeIndexStats :=
  remove_and_save (compact_record max_bytes protected).
End Index.

(** ** Choosing what to remove *)

Definition bytes_of (es : list DerivativeIndexEntry) : Z := foldr (fun e n => e_total_bytes e + n) 0 es.

Lemma bytes_of_cons e es : bytes_of (e :: es) = e_total_bytes e + bytes_of es.
Proof. done. Qed.

Lemma entry_bytes_app es es' : bytes_of (es ++ es') = bytes_of es + bytes_of es'.
Proof. induction es as [|e es IH]; [done|]. cbn [app]. rewrite !bytes_of_cons, IH. lia. Qed.

Lemma bytes_of_nonneg es : Forall (fun e => 0 <= e_total_bytes e) es -> 0 <= bytes_of es.
Proof. induction 1; [done|]. rewrite bytes_of_cons. lia. Qed.

Lemma bytes_of_perm es es' : es ≡ₚ es' -> bytes_of es = bytes_of es'.
Proof. induction 1; rewrite ?bytes_of_cons; lia. Qed.

Lemma bytes_of_filter f es :
  bytes_of es = bytes_of (List.filter f es) + bytes_of (List.filter (fun e => negb (f e)) es).
Proof.
  induction es as [|e es IH]; cbn [List.filter]; [done|]. destruct (f e); cbn [negb]; rewrite !bytes_of_cons; lia.
Qed.

(** The saturating sum is the sum, or the largest [u64]. *)
Lemma index_bytes_sum es :
  Forall (fun e => 0 <= e_total_bytes e) es -> index_bytes es = Z.min (bytes_of es) U64_MAX.
Proof.
  intros Hes. unfold index_bytes.
  assert (forall s, 0 <= s <= U64_MAX ->
    foldl (fun sum e => u64_saturating_add sum (e_total_bytes e)) s es = Z.min (s + bytes_of es) U64_MAX) as H.
  { induction Hes as [|e es He Hes IH]; intros s Hs; cbn [foldl]; [cbn; lia|].
    rewrite bytes_of_cons. unfold u64_saturating_add at 2. rewrite IH; [|unfold U64_MAX in *; lia].
    pose proof (bytes_of_nonneg es Hes). lia. }
  rewrite H by (unfold U64_MAX; lia). f_equal.
Qed.

(** The loop takes candidates from the front until the rest fits, or takes all. *)
Lemma choose_removals_spec max_bytes ix cs :
  Forall (fun e => 0 <= e_total_bytes e) cs -> bytes_of cs <= ix ->
  exists taken rest, cs = taken ++ rest
    /\ choose_removals max_bytes ix cs = (ix - bytes_of taken, map key taken)
    /\ (rest <> [] -> ix - bytes_of taken <= max_bytes)
    /\ (forall t last, taken = t ++ [last] -> max_bytes < ix - bytes_of t).
Proof.
  intros Hcs. revert ix. induction Hcs as [|e cs He Hcs IH]; intros ix Hix; cbn [choose_removals].
  - exists [], []. split_and!; [done| |done|by intros [|] last]. cbn. by rewrite Z.sub_0_r.
  - rewrite bytes_of_cons in Hix. destruct (Z.leb_spec ix max_bytes) as [Hle|Hgt].
    + exists [], (e :: cs). split_and!; [done|by rewrite Z.sub_0_r|cbn; lia|by intros [|] last].
    + pose proof (bytes_of_nonneg cs Hcs) as H0.
      destruct (IH (ix - e_total_bytes e)) as (taken & rest & -> & E & Hr & Hlast); [lia|].
      exists (e :: taken), rest. split; [done|].
      replace (u64_saturating_sub ix (e_total_bytes e)) with (ix - e_total_bytes e)
        by (unfold u64_saturating_sub; lia).
      rewrite E, bytes_of_cons.
      replace (ix - (e_total_bytes e + bytes_of taken)) with (ix - e_total_bytes e - bytes_of taken) by lia.
      split_and!; [done|done|]. intros [|e' t] last Et; [cbn; lia|]. injection Et as <- Et.
      rewrite bytes_of_cons. pose proof (Hlast t last Et). lia.
Qed.

Lemma older_total a b : older_or_same a b = false -> older_or_same b a = true.
Proof. unfold older_or_same. intros H. destruct (Z.ltb_spec (e_last_accessed_at a) (e_last_accessed_at b)); [done|].
  destruct (Z.eqb_spec (e_last_accessed_at a) (e_last_accessed_at b)) as [E|E]; cbn in *.
  - rewrite E, Z.ltb_irrefl, Z.eqb_refl. cbn. apply Z.leb_le. apply Z.leb_gt in H. lia.
  - apply orb_true_iff. left. apply Z.ltb_lt. lia.
Qed.

Lemma older_trans a b c : older_or_same a b = true -> older_or_same b c = true -> older_or_same a c = true.
Proof.
  unfold older_or_same. rewrite !orb_true_iff, !andb_true_iff, !Z.ltb_lt, !Z.eqb_eq, !Z.leb_le. lia.
Qed.

(** Of sorted candidates, the ones taken are no younger than the ones left. *)
Lemma taken_are_oldest es taken rest :
  stable_sort older_or_same es = taken ++ rest ->
  forall a b, a ∈ taken -> b ∈ rest -> older_or_same a b = true.
Proof.
  intros E a b Ha Hb. pose proof (stable_sort_sorted _ older_total older_trans es) as Hs. rewrite E in Hs.
  exact (StronglySorted_app_1_elem_of _ _ _ a b Hs Ha Hb).
Qed.

Lemma older_refl a : older_or_same a a = true.
Proof. unfold older_or_same. rewrite Z.eqb_refl, Z.leb_refl. apply orb_true_r. Qed.

(** The last one taken is the youngest of them. *)
Lemma last_is_youngest es t last rest :
  stable_sort older_or_same es = (t ++ [last]) ++ rest -> forall a, a ∈ t ++ [last] -> older_or_same a last = true.
Proof.
  rewrite <- app_assoc. intros E a [Ha|Ha]%elem_of_app; [|apply list_elem_of_singleton in Ha as ->; apply older_refl].
  eapply taken_are_oldest; [exact E|done|]. set_solver.
Qed.

(** ** Removing entries *)

Definition removing (ks : list DerivativeEntryKey) (e : DerivativeIndexEntry) : bool := bool_decide (key e ∈ ks).

Lemma removing_taken es taken :
  NoDup (map key es) -> taken ⊆ es -> forall e, e ∈ es -> removing (map key taken) e = bool_decide (e ∈ taken).
Proof.
  intros Hnd Hsub e He. apply bool_decide_ext. rewrite list_elem_of_fmap. split; [|by eauto].
  intros (e' & Ek & He'). destruct (list_elem_of_lookup_1 _ _ He) as [i Hi].
  destruct (list_elem_of_lookup_1 _ _ (Hsub _ He')) as [j Hj].
  assert (i = j) as ->; [|congruence].
  apply (NoDup_lookup (map key es) i j (key e)); [done| |]; rewrite list_lookup_fmap; [by rewrite Hi|].
  rewrite Hj. cbn. by rewrite Ek.
Qed.

Lemma removing_nil es :
  List.filter (removing []) es = [] /\ existsb (removing []) es = false
  /\ List.filter (fun e => negb (removing [] e)) es = es.
Proof.
  assert (forall e, removing [] e = false) as H by (intros e; apply bool_decide_eq_false, not_elem_of_nil).
  induction es as [|e es (IH1 & IH2 & IH3)]; [done|]. cbn. rewrite H. cbn. by rewrite IH1, IH2, IH3.
Qed.

Section Removal.
Context `{cr : Crypto} {crl : CryptoLaws cr} `{SerdeLaw DerivativeIndexRecord}.
Context (vk : list byte).

(** The chunks of a derivative. *)
Definition entry_chunks (e : DerivativeIndexEntry) : list string :=
  e_meta_chunk_name e :: entry_part_names vk e.

Definition entry_ok (e : DerivativeIndexEntry) : Prop :=
  valid_name (e_meta_chunk_name e) = true /\ 0 <= e_total_bytes e.

Lemma part_names_valid e n : n ∈ entry_part_names vk e -> valid_name n = true.
Proof. unfold entry_part_names. intros (i & -> & _)%list_elem_of_fmap. apply chunk_name_valid. Qed.

Lemma triple_delete_all ns d :
  (forall n, n ∈ ns -> valid_name n = true) ->
  triple (eq d) (delete_all ns) (fun _ d' => d' = without ns d) (fun _ => True).
Proof.
  revert d. induction ns as [|n ns IH]; intros d Hv; cbn [delete_all].
  - apply triple_ret. by intros ? <-.
  - apply (triple_seq _ _ _ (eq (delete n d))).
    + apply triple_delete; [apply Hv; set_solver|done|]. by intros ? <-.
    + apply IH. intros m Hm. apply Hv. set_solver.
Qed.

Lemma triple_delete_entry e d :
  entry_ok e ->
  triple (eq d) (delete_entry_chunks vk e) (fun _ d' => d' = without (entry_chunks e) d) (fun _ => True).
Proof.
  intros [Hv _]. apply (triple_delete_all (entry_chunks e)).
  intros n [->|Hn]%elem_of_cons; [done|]. by eapply part_names_valid.
Qed.

Definition removed_chunks (ks : list DerivativeEntryKey) (es : list DerivativeIndexEntry) : list string :=
  concat (map entry_chunks (List.filter (removing ks) es)).

Lemma triple_drain ks es d :
  Forall entry_ok es ->
  triple (eq d) (drain_entries vk ks es)
    (fun x d' => x = (existsb (removing ks) es, List.filter (fun e => negb (removing ks e)) es)
                 /\ d' = without (removed_chunks ks es) d)
    (fun _ => True).
Proof.
  intros Hes. revert d. induction Hes as [|e es He Hes IH]; intros d; cbn [drain_entries existsb List.filter].
  - apply triple_ret. by intros ? <-.
  - unfold removed_chunks. cbn [List.filter]. change (bool_decide (key e ∈ ks)) with (removing ks e).
    destruct (removing ks e); cbn [negb orb map concat].
    + apply (triple_seq _ _ _ (eq (without (entry_chunks e) d))).
      { eapply triple_conseq; [by apply triple_delete_entry|done| |done]. by intros ?? ->. }
      eapply triple_bind; [apply IH|]. intros [b kept]. apply triple_pure. intros [= -> ->].
      apply triple_ret. intros ? ->. split; [done|]. by rewrite without_app.
    + eapply triple_bind; [apply IH|]. intros [b kept]. apply triple_pure. intros [= -> ->].
      by apply triple_ret.
Qed.

(** What [remove_entries_by_key] does to the record and the disk; when it fails the
    record is empty. *)
Lemma remove_entries_spec ks r d :
  Forall entry_ok (entries r) ->
  st_triple (fun r0 d0 => r0 = r /\ d0 = d) (remove_entries_by_key vk ks)
    (fun b r' d' => b = existsb (removing ks) (entries r)
                    /\ r' = mkIndex (List.filter (fun e => negb (removing ks e)) (entries r))
                    /\ d' = without (removed_chunks ks (entries r)) d)
    (fun r' _ => r' = mkIndex []).
Proof.
  intros Hok. unfold remove_entries_by_key. destruct ks as [|k0 ks'] eqn:Eks.
  - apply st_triple_ret. intros ? ? [-> ->].
    destruct (removing_nil (entries r)) as (E1 & E2 & E3). unfold removed_chunks. rewrite E1, E2, E3. by destruct r.
  - rewrite <- Eks. clear Eks. apply st_triple_get. intros r0. apply st_triple_known. intros ? ? (-> & E0 & ->). subst r0.
    apply (st_triple_seq _ _ _ (fun r' d' => r' = mkIndex [] /\ d' = d)).
    { apply st_triple_modify. by intros ? ? [_ ->]. }
    apply (st_triple_bind _ _ _ (fun x r' d' => r' = mkIndex [] /\
             x = (existsb (removing ks) (entries r), List.filter (fun e => negb (removing ks e)) (entries r))
             /\ d' = without (removed_chunks ks (entries r)) d)).
    { apply st_triple_io. intros s. apply triple_pure. intros ->.
      eapply triple_conseq; [by apply (triple_drain ks (entries r) d)| |by intros ?? []|done].
      by intros ? ->. }
    intros [b kept]. apply st_triple_known. intros ? ? (-> & [= -> ->] & ->).
    apply (st_triple_seq _ _ _ (fun r' d' => r' = mkIndex (List.filter (fun e => negb (removing ks e)) (entries r))
             /\ d' = without (removed_chunks ks (entries r)) d)).
    + apply st_triple_modify. by intros ? ? [_ ->].
    + by apply st_triple_ret; intros ? ? [-> ->].
Qed.

Lemma remove_entries_weak ks r d :
  Forall entry_ok (entries r) ->
  st_triple (fun r0 d0 => r0 = r /\ d0 = d) (remove_entries_by_key vk ks)
    (fun b r' d' => b = existsb (removing ks) (entries r)
                    /\ r' = mkIndex (List.filter (fun e => negb (removing ks e)) (entries r))
                    /\ d' = without (removed_chunks ks (entries r)) d)
    (fun _ _ => True).
Proof.
  intros Hok. eapply st_triple_conseq; [by apply (remove_entries_spec ks r d)|by intros|by intros|by intros].
Qed.
End Removal.

(** ** Compaction *)

Lemma NoDup_filter_keys f es : NoDup (map key es) -> NoDup (map key (List.filter f es)).
Proof.
  induction es as [|e es IH]; cbn; [done|]. intros [Hn Hd]%NoDup_cons. destruct (f e); cbn; [|by apply IH].
  constructor; [|by apply IH]. rewrite list_elem_of_fmap. intros (e' & Ek & He').
  apply list_elem_of_In, filter_In in He' as [He' _]. apply Hn. rewrite Ek.
  apply list_elem_of_fmap_2. by apply list_elem_of_In.
Qed.

Lemma elem_of_lfilter {A} (f : A -> bool) x (l : list A) : x ∈ List.filter f l <-> x ∈ l /\ f x = true.
Proof. by rewrite !list_elem_of_In, filter_In. Qed.

Lemma Forall_lfilter {A} (P : A -> Prop) f (l : list A) : Forall P l -> Forall P (List.filter f l).
Proof. rewrite !Forall_forall. intros H x [Hx _]%elem_of_lfilter. auto. Qed.

(** One round: among the entries with [f], the oldest are removed until the rest fits. *)
Lemma round_spec f max_bytes es ks rest :
  NoDup (map key es) -> Forall (fun e => 0 <= e_total_bytes e) es ->
  choose_removals max_bytes (bytes_of es) (stable_sort older_or_same (List.filter f es)) = (rest, ks) ->
  let kept := List.filter (fun e => negb (removing ks e)) es in
  rest = bytes_of kept
  /\ (forall e, e ∈ es -> removing ks e = true -> f e = true)
  /\ (rest <= max_bytes \/ forall e, e ∈ kept -> f e = false)
  /\ (forall a b, a ∈ es -> removing ks a = true -> b ∈ kept -> f b = true -> older_or_same a b = true)
  /\ ((forall e, e ∈ es -> removing ks e = false)
     \/ exists last, last ∈ es /\ removing ks last = true /\ max_bytes < rest + e_total_bytes last
        /\ forall a, a ∈ es -> removing ks a = true -> older_or_same a last = true).
Proof.
  intros Hnd Hpos E kept.
  pose proof (stable_sort_perm older_or_same (List.filter f es)) as Hperm.
  destruct (choose_removals_spec max_bytes (bytes_of es) (stable_sort older_or_same (List.filter f es)))
    as (taken & left_ & Es & Ec & Hr & Hlast).
  { rewrite Hperm. by apply Forall_lfilter. }
  { rewrite (bytes_of_perm _ _ Hperm), (bytes_of_filter f es).
    pose proof (bytes_of_nonneg (List.filter (fun e => negb (f e)) es) (Forall_lfilter _ _ _ Hpos)). lia. }
  rewrite Ec in E. injection E as <- <-. rewrite Es in Hperm.
  assert (forall e, e ∈ taken ++ left_ <-> e ∈ es /\ f e = true) as Hin by (intros e; by rewrite Hperm, elem_of_lfilter).
  assert (taken ⊆ es) as Hsub by (intros e He; apply Hin; set_solver).
  pose proof (removing_taken es taken Hnd Hsub) as Hrm.
  assert (List.filter (removing (map key taken)) es ≡ₚ taken) as Htaken.
  { apply NoDup_Permutation.
    - by apply (NoDup_fmap_1 key), NoDup_filter_keys.
    - apply (NoDup_app taken left_). rewrite Hperm. by apply (NoDup_fmap_1 key), NoDup_filter_keys.
    - intros e. rewrite elem_of_lfilter. split.
      + intros [He Hk]. rewrite Hrm in Hk by done. by apply bool_decide_eq_true in Hk.
      + intros He. split; [auto|]. rewrite Hrm by auto. by apply bool_decide_eq_true. }
  split_and!.
  - rewrite (bytes_of_filter (removing (map key taken)) es), (bytes_of_perm _ _ Htaken). fold kept. lia.
  - intros e He Hk. rewrite Hrm in Hk by done. apply bool_decide_eq_true in Hk. apply Hin. set_solver.
  - destruct left_ as [|b left_]; [right|left; by apply Hr]. intros e [He Hk]%elem_of_lfilter.
    rewrite Hrm in Hk by done. destruct (f e) eqn:Ef; [|done]. rewrite app_nil_r in Hin.
    rewrite bool_decide_true in Hk by (by apply Hin). done.
  - intros a b Ha Hka [Hb Hkb]%elem_of_lfilter Hfb. rewrite Hrm in Hka, Hkb by done.
    apply bool_decide_eq_true in Hka. apply negb_true_iff, bool_decide_eq_false in Hkb.
    eapply taken_are_oldest; [exact Es|done|]. assert (b ∈ taken ++ left_) as [?|?]%elem_of_app by (by apply Hin); done.
  - destruct taken as [|x t _] using rev_ind; [left|right].
    { intros e He. rewrite Hrm by done. apply bool_decide_eq_false. apply not_elem_of_nil. }
    exists x. assert (x ∈ t ++ [x]) as Hx by set_solver. split_and!; [auto| | |].
    + rewrite Hrm by auto. by apply bool_decide_eq_true.
    + pose proof (Hlast t x eq_refl). rewrite entry_bytes_app, bytes_of_cons. change (bytes_of []) with 0. lia.
    + intros a Ha Hk. rewrite Hrm in Hk by done. apply bool_decide_eq_true in Hk. by eapply last_is_youngest.
Qed.

(** An index whose keys are unique, whose chunk names are valid and whose sizes add up to
    a [u64]. *)
Record index_ok (r : DerivativeIndexRecord) : Prop := {
  io_keys : NoDup (map key (entries r));
  io_entries : Forall entry_ok (entries r);
  io_total : bytes_of (entries r) <= U64_MAX;
}.

Lemma index_ok_sizes r : index_ok r -> Forall (fun e => 0 <= e_total_bytes e) (entries r).
Proof. intros [_ H _]. eapply Forall_impl; [exact H|]. by intros e []. Qed.

Lemma index_ok_filter f r : index_ok r -> index_ok (mkIndex (List.filter f (entries r))).
Proof.
  intros Hr. pose proof (index_ok_sizes r Hr) as Hs. destruct Hr as [H1 H2 H3]. split; cbn [entries].
  - by apply NoDup_filter_keys.
  - by apply Forall_lfilter.
  - rewrite (bytes_of_filter f) in H3.
    pose proof (bytes_of_nonneg _ (Forall_lfilter _ (fun e => negb (f e)) _ Hs)). lia.
Qed.

Lemma index_ok_bytes r : index_ok r -> index_bytes (entries r) = bytes_of (entries r).
Proof. intros Hr. rewrite index_bytes_sum by (by apply index_ok_sizes). apply Z.min_l, Hr. Qed.

Lemma filter_bytes f r : index_ok r -> index_bytes (List.filter f (entries r)) = bytes_of (List.filter f (entries r)).
Proof. intros Hr. exact (index_ok_bytes _ (index_ok_filter f r Hr)). Qed.

(** The effect of a compaction that removes the entries with [gone]. It removes no more than
    needed: with the last of them, in the order of removal, the rest would not fit. *)
Record compacted `{Crypto} (vk : list byte) (max_bytes : Z) (protected : gmap Z Z) (r : DerivativeIndexRecord)
    (d : Disk) (gone : DerivativeIndexEntry -> bool) (r' : DerivativeIndexRecord) (d' : Disk) : Prop := {
  cp_kept : entries r' = List.filter (fun e => negb (gone e)) (entries r);
  cp_protected e : e ∈ entries r -> gone e = true -> is_protected protected e = false;
  cp_fits : index_bytes (entries r') <= max_bytes \/ Forall (fun e => is_protected protected e = true) (entries r');
  cp_stale_first a b : a ∈ entries r -> gone a = true -> is_stale protected a = false ->
    b ∈ entries r' -> is_stale protected b = false;
  cp_oldest a b : a ∈ entries r -> gone a = true -> b ∈ entries r' -> is_protected protected b = false ->
    is_stale protected a = is_stale protected b -> older_or_same a b = true;
  cp_needed : (forall e, e ∈ entries r -> gone e = false)
    \/ exists last, last ∈ entries r /\ gone last = true /\ max_bytes < index_bytes (entries r') + e_total_bytes last
       /\ forall a, a ∈ entries r -> gone a = true ->
          (is_stale protected a = false -> is_stale protected last = false)
          /\ (is_stale protected a = is_stale protected last -> older_or_same a last = true);
  cp_disk n : d' !! n = if bool_decide (n ∈ concat (map (entry_chunks vk) (List.filter gone (entries r))))
                        then None else d !! n;
}.

Lemma stale_not_protected protected e : is_stale protected e = true -> is_protected protected e = false.
Proof. unfold is_stale, is_protected. destruct (protected !! _); [|done]. by intros ->%negb_true_iff. Qed.

Lemma filter_andb {A} (f g : A -> bool) l : List.filter f (List.filter g l) = List.filter (fun x => g x && f x) l.
Proof. induction l as [|x l IH]; cbn; [done|]. destruct (g x); cbn; [|done]. destruct (f x); by rewrite IH. Qed.

Lemma filter_none {A} (f : A -> bool) l : existsb f l = false -> List.filter (fun x => negb (f x)) l = l.
Proof. induction l as [|x l IH]; cbn; [done|]. intros [-> H]%orb_false_iff. cbn. by rewrite IH. Qed.

Lemma removed_none `{Crypto} vk ks es : existsb (removing ks) es = false -> removed_chunks vk ks es = [].
Proof.
  unfold removed_chunks. induction es as [|e es IH]; cbn; [done|]. by intros [-> H0]%orb_false_iff; auto.
Qed.

Section Compaction.
Context `{cr : Crypto} {crl : CryptoLaws cr} `{SerdeLaw DerivativeIndexRecord}.
Context (vk : list byte) (max_bytes : Z) (protected : gmap Z Z) (r : DerivativeIndexRecord) (d : Disk).
Context (Hok : index_ok r).

Lemma elem_of_chunks f es n :
  n ∈ concat (map (entry_chunks vk) (List.filter f es)) <-> exists e, e ∈ es /\ f e = true /\ n ∈ entry_chunks vk e.
Proof.
  rewrite list_elem_of_In, in_concat. split.
  - intros (l & (e & <- & [He Hf]%filter_In)%in_map_iff & Hn). exists e. by rewrite !list_elem_of_In.
  - intros (e & He & Hf & Hn). exists (entry_chunks vk e). rewrite !list_elem_of_In in *.
    split; [|done]. apply in_map, filter_In. by split.
Qed.

(** Nothing to do. *)
Lemma compacted_nothing : index_bytes (entries r) <= max_bytes ->
  compacted vk max_bytes protected r d (fun _ => false) r d.
Proof.
  intros Hle. split; try done.
  - symmetry. apply (filter_none (fun _ => false)). clear. induction (entries r) as [|e es IH]; [done|exact IH].
  - by left.
  - by left.
  - intros n. rewrite bool_decide_false; [done|]. by intros (e & _ & ? & _)%elem_of_chunks.
Qed.

Lemma compacted_round ks rest :
  choose_removals max_bytes (bytes_of (entries r)) (stable_sort older_or_same (List.filter (is_stale protected) (entries r)))
    = (rest, ks) ->
  rest <= max_bytes ->
  compacted vk max_bytes protected r d (removing ks)
    (mkIndex (List.filter (fun e => negb (removing ks e)) (entries r)))
    (without (removed_chunks vk ks (entries r)) d).
Proof.
  intros E Hle. destruct (round_spec _ _ _ _ _ (io_keys _ Hok) (index_ok_sizes _ Hok) E) as (Hb & Hf & _ & Hold & Hneed).
  split; cbn [entries].
  - done.
  - intros e He Hg. by apply stale_not_protected, Hf.
  - left. rewrite filter_bytes by done. lia.
  - intros a b Ha Hg Hs. by rewrite Hf in Hs.
  - intros a b Ha Hg Hb' _ Es. apply Hold; try done. rewrite <- Es. by apply Hf.
  - destruct Hneed as [?|(last & Hl & Hk & Hm & Ho)]; [by left|right]. exists last. rewrite filter_bytes, <- Hb by done.
    split_and!; [done..|]. intros a Ha Hg. split; [by rewrite (Hf a Ha Hg)|auto].
  - intros n. apply lookup_without.
Qed.

Lemma compacted_two_rounds ks rest ks' rest' :
  let r1 := mkIndex (List.filter (fun e => negb (removing ks e)) (entries r)) in
  choose_removals max_bytes (bytes_of (entries r)) (stable_sort older_or_same (List.filter (is_stale protected) (entries r)))
    = (rest, ks) ->
  max_bytes < rest ->
  choose_removals max_bytes rest (stable_sort older_or_same (List.filter (fun e => negb (is_protected protected e)) (entries r1)))
    = (rest', ks') ->
  compacted vk max_bytes protected r d (fun e => removing ks e || removing ks' e)
    (mkIndex (List.filter (fun e => negb (removing ks' e)) (entries r1)))
    (without (removed_chunks vk ks' (entries r1)) (without (removed_chunks vk ks (entries r)) d)).
Proof.
  intros r1 E Hgt E'. destruct (round_spec _ _ _ _ _ (io_keys _ Hok) (index_ok_sizes _ Hok) E) as (Hb & Hf & Hall & _ & Hneed).
  assert (index_ok r1) as Hok1 by (by apply index_ok_filter).
  destruct Hall as [?|Hall]; [lia|]. rewrite Hb in E'. cbn [entries r1] in E', Hall.
  destruct (round_spec _ _ _ _ _ (io_keys _ Hok1) (index_ok_sizes _ Hok1) E') as (Hb' & Hf' & Hall' & Hold' & Hneed').
  cbn [entries r1] in *. set (es1 := List.filter _ _) in *.
  assert (forall e, e ∈ es1 <-> e ∈ entries r /\ removing ks e = false) as Hes1
    by (intros e; unfold es1; by rewrite elem_of_lfilter, negb_true_iff).
  assert (forall b, b ∈ List.filter (fun e => negb (removing ks' e)) es1 -> b ∈ es1) as Hsub
    by (by intros b [? _]%elem_of_lfilter).
  split; cbn [entries].
  - unfold es1. rewrite filter_andb. apply filter_ext. intros e. by rewrite negb_orb.
  - intros e He [Hg|Hg]%orb_true_iff; [by apply stale_not_protected, Hf|].
    destruct (removing ks e) eqn:Ek; [by apply stale_not_protected, Hf|].
    apply negb_true_iff, Hf'; [by apply Hes1|done].
  - rewrite (filter_bytes _ r1 Hok1 : index_bytes (List.filter _ es1) = _). cbn [entries r1]. fold es1. rewrite <- Hb'.
    destruct Hall' as [?|Hall']; [by left|right]. apply Forall_forall. intros e He.
    apply negb_false_iff. by apply Hall'.
  - intros a b _ _ _ Hb1. by apply Hall, Hsub.
  - intros a b Ha Hg Hb1 Hp Es. rewrite (Hall b) in Es by auto.
    destruct (removing ks a) eqn:Ek; [by rewrite (Hf a Ha Ek) in Es|].
    apply Hold'; [by apply Hes1|done..|by apply negb_true_iff].
  - rewrite (filter_bytes _ r1 Hok1 : index_bytes (List.filter _ es1) = _). cbn [entries r1]. fold es1. rewrite <- Hb'.
    assert (forall e, e ∈ entries r -> removing ks e = false -> is_stale protected e = false) as Hfresh
      by (intros e He Hk; apply Hall, Hes1; done).
    destruct Hneed' as [Hnone|(last & Hl & Hk & Hm & Ho)].
    + assert (List.filter (fun e => negb (removing ks' e)) es1 = es1) as Ekeep.
      { apply filter_none. apply not_true_iff_false. intros (e & He & Hk)%existsb_exists. rewrite <- list_elem_of_In in He.
        by rewrite Hnone in Hk. }
      assert (forall e, e ∈ entries r -> removing ks e || removing ks' e = removing ks e) as Eg.
      { intros e He. destruct (removing ks e) eqn:Ek; [done|]. apply Hnone, Hes1. done. }
      destruct Hneed as [Hn1|(last & Hl & Hk & Hm & Ho)]; [left|right].
      { intros e He. rewrite Eg by done. auto. }
      exists last. rewrite Eg by done. split_and!; [done|done| |].
      * rewrite Hb', Ekeep, <- Hb. pose proof (index_ok_sizes r Hok) as Hsz.
        rewrite Forall_forall in Hsz. specialize (Hsz last Hl). cbn in Hsz. lia.
      * intros a Ha. rewrite Eg by done. intros Hga. split; [by rewrite (Hf a Ha Hga)|auto].
    + right. exists last. apply Hes1 in Hl as [Hl Hkl]. rewrite Hk, orb_true_r. split_and!; [done..|].
      intros a Ha Hga. split; [by rewrite (Hfresh last)|]. rewrite (Hfresh last) by done. intros Es.
      destruct (removing ks a) eqn:Ek; [by rewrite (Hf a Ha Ek) in Es|]. apply Ho; [by apply Hes1|done].
  - intros n. rewrite !lookup_without. unfold removed_chunks.
    destruct (bool_decide_reflect (n ∈ concat (map (entry_chunks vk) (List.filter (removing ks') es1)))) as [H1|H1].
    { rewrite bool_decide_true; [done|]. apply elem_of_chunks in H1 as (e & [He _]%Hes1 & Hk & Hn).
      apply elem_of_chunks. exists e. by rewrite Hk, orb_true_r. }
    rewrite (bool_decide_ext (n ∈ concat (map (entry_chunks vk) (List.filter (removing ks) (entries r))))
               (n ∈ concat (map (entry_chunks vk) (List.filter (fun e => removing ks e || removing ks' e) (entries r))))); [done|].
    rewrite !elem_of_chunks. split.
    + intros (e & He & Hk & Hn). exists e. by rewrite Hk.
    + intros (e & He & Hk & Hn). exists e. destruct (removing ks e) eqn:Ek; [done|]. destruct H1.
      apply elem_of_chunks. exists e. split; [by apply Hes1|done].
Qed.

(** A compaction without faults; with faults, if it returns. *)
Lemma compact_record_spec :
  st_triple (fun r0 d0 => r0 = r /\ d0 = d) (compact_record vk max_bytes protected)
    (fun b r' d' => index_ok r' /\ (b = false -> r' = r /\ d' = d)
                    /\ exists gone, compacted vk max_bytes protected r d gone r' d')
    (fun _ _ => True).
Proof.
  unfold compact_record. apply st_triple_get. intros r0. apply st_triple_known. intros ? ? (-> & E0 & ->). subst r0.
  cbn [stats indexed_bytes]. rewrite (index_ok_bytes r Hok).
  destruct (Z.leb_spec (bytes_of (entries r)) max_bytes) as [Hle|Hgt].
  { apply st_triple_ret. intros ? ? [-> ->]. split_and!; [done..|]. eexists. apply compacted_nothing.
    by rewrite index_ok_bytes. }
  destruct (choose_removals _ _ _) as [rest ks] eqn:E1.
  eapply st_triple_bind; [by apply remove_entries_weak, Hok|].
  intros b. apply st_triple_known. intros r1 d1 (-> & -> & ->).
  destruct (Z.leb_spec rest max_bytes) as [Hr|Hr]; cbn [negb].
  { apply st_triple_ret. intros ? ? [-> ->]. split_and!.
    - by apply index_ok_filter.
    - intros Hb. rewrite (filter_none _ _ Hb), (removed_none vk _ _ Hb). by destruct r.
    - eexists. by eapply compacted_round. }
  apply st_triple_get. intros r0. apply st_triple_known. intros ? ? (-> & E0 & ->). subst r0.
  set (r1 := mkIndex _) in *. assert (index_ok r1) as Hok1 by (by apply index_ok_filter).
  destruct (choose_removals _ rest _) as [rest' ks'] eqn:E2.
  eapply st_triple_bind; [by apply remove_entries_weak, Hok1|].
  intros b. apply st_triple_ret. intros ? ? (-> & -> & ->). split_and!.
  - by apply index_ok_filter.
  - intros [Hb1 Hb2]%orb_false_iff. rewrite (filter_none _ _ Hb1), (removed_none vk _ _ Hb1). unfold r1.
    cbn [entries]. rewrite (filter_none _ _ Hb2), (removed_none vk _ _ Hb2). by destruct r.
  - eexists. by eapply compacted_two_rounds.
Qed.
End Compaction.

(** C36: without faults the compaction of the derivative index returns, with the total
    within the bound or nothing but protected derivatives left; it removes no protected
    one, stale ones before others and older ones before younger, no more of them than
    needed, and exactly their chunks. *)
Theorem compaction_correct `{CryptoLaws} `{SerdeLaw DerivativeIndexRecord} vk max_bytes protected r d k :
  index_ok r ->
  exists b r' w' gone,
    compact_record vk max_bytes protected r (mkWorld d [] k) = (Ok b, r', w')
    /\ compacted vk max_bytes protected r d gone r' (disk w').
Proof.
  intros Hok. pose proof (compact_record_spec vk max_bytes protected r d Hok r (mkWorld d [] k) (conj eq_refl eq_refl)) as Hs.
  destruct (compact_record _ _ _ _ _) as [[[b|e] r'] w']; [|by destruct Hs as [_ []%faulted_nil]].
  destruct Hs as [(_ & _ & gone & Hc) _]. by exists b, r', w', gone.
Qed.
