(* ===== verification/DerivativeCache.v ===== *)
(** * The derivative index in memory

    The theory of the cached operations of [DerivativeIndex.v]: what the router holds in
    memory agrees with the index chunk, and what happens to it when a deletion fails. *)

From Stdlib Require Import Strings.Byte Ascii String.
From stdpp Require Import base countable gmap strings list sorting.
From S2P Require Import Prelude.
From S2P Require Import CatalogNode.
From S2P Require Import Bytes.
From S2P Require Import Storage.
From S2P Require Import Crypto.
From S2P Require Import IoLogic.
From S2P Require Import Encoding.
From S2P Require Import DerivativeIndex.
Open Scope Z_scope.

(** ** The index in memory and on disk *)

(** The invariant of an index: its keys are unique and its chunk names valid. *)
Definition index_wf (r : DerivativeIndexRecord) : Prop :=
  NoDup (map key (entries r)) /\ Forall entry_ok (entries r).

Lemma index_wf_filter f r : index_wf r -> index_wf (mkIndex (List.filter f (entries r))).
Proof. intros [H1 H2]. split; cbn [entries]; [by apply NoDup_filter_keys|by apply Forall_lfilter]. Qed.

Lemma upsert_keys e es : map key (upsert_in e es) = map key es \/ map key (upsert_in e es) = map key es ++ [key e] /\ key e ∉ map key es.
Proof.
  induction es as [|c es IH]; cbn; [right; split; [done|apply not_elem_of_nil]|].
  destruct (bool_decide_reflect (key c = key e)) as [E|E]; cbn; [left; by rewrite E|].
  destruct IH as [->|[-> Hn]]; [by left|right]. split; [done|]. intros [?|?]%elem_of_cons; congruence.
Qed.

Lemma upsert_wf e r : entry_ok e -> index_wf r -> index_wf (upsert_entry e r).
Proof.
  intros He [H1 H2]. split; cbn [upsert_entry entries].
  - destruct (upsert_keys e (entries r)) as [->|[-> Hn]]; [done|]. apply NoDup_app. split_and!; [done| |apply NoDup_singleton].
    intros k Hk ->%list_elem_of_singleton. done.
  - clear H1. induction H2 as [|c es Hc Hes IH]; cbn; [by apply Forall_singleton|].
    destruct (bool_decide _); by apply Forall_cons.
Qed.

(** An entry that was put is found, and the others are as before. *)
Lemma matches_key e n rv t v : derivative_entry_matches e n rv t v = true <-> key e = (n, rv, t, v).
Proof.
  unfold derivative_entry_matches, key. rewrite !andb_true_iff, !Z.eqb_eq, String.eqb_eq.
  split; [by intros [[[-> ->] ->] ->]|by intros [= -> -> -> ->]].
Qed.

Lemma get_upsert e r n rv t v :
  get_entry n rv t v (upsert_entry e r) = if bool_decide (key e = (n, rv, t, v)) then Some e else get_entry n rv t v r.
Proof.
  unfold get_entry, upsert_entry. cbn [entries]. induction (entries r) as [|c es IH]; cbn [upsert_in List.find].
  - destruct (derivative_entry_matches e n rv t v) eqn:E.
    + apply matches_key in E. by rewrite bool_decide_true.
    + rewrite bool_decide_false; [done|]. by intros ?%matches_key; congruence.
  - destruct (bool_decide_reflect (key c = key e)) as [Ek|Ek]; cbn [List.find].
    + destruct (derivative_entry_matches e n rv t v) eqn:E.
      * apply matches_key in E. by rewrite bool_decide_true.
      * rewrite bool_decide_false by (by intros ?%matches_key; congruence).
        destruct (derivative_entry_matches c n rv t v) eqn:E'; [|done]. apply matches_key in E'.
        rewrite Ek in E'. apply matches_key in E'. congruence.
    + rewrite IH. destruct (derivative_entry_matches c n rv t v) eqn:E'; [|done]. apply matches_key in E'.
      rewrite bool_decide_false; congruence.
Qed.

Definition same_entry (a b : DerivativeIndexEntry) : Prop := set_last_accessed 0 a = set_last_accessed 0 b.

Section Coherence.
Context `{cr : Crypto} {crl : CryptoLaws cr} `{SerdeLaw DerivativeIndexRecord}.
Context (vk : list byte).

Definition index_on_disk (r : DerivativeIndexRecord) (d : Disk) : Prop :=
  match d !! index_chunk_name vk with
  | None => r = index_default
  | Some bs => opens_to vk (as_bytes (index_chunk_name vk)) bs r
  end.

(** What the cache holds is what is on disk, up to access times that wait for a flush. *)
Definition coherent (s : DerivativeIndexCacheState) (d : Disk) : Prop :=
  exists r0, index_on_disk r0 d /\ index_wf r0 /\
  match ic_record s with
  | None => True
  | Some r => index_wf r /\ if ic_touch_dirty s then Forall2 same_entry (entries r0) (entries r) else r = r0
  end.

Lemma index_name_valid : valid_name (index_chunk_name vk) = true.
Proof. apply chunk_name_valid. Qed.

Lemma triple_load_index r (P C : Disk -> Prop) :
  (forall d, P d -> index_on_disk r d) -> (forall d, P d -> C d) ->
  triple P (load_index vk) (fun r' d => r' = r /\ P d) C.
Proof.
  intros Hr HC w Hw. specialize (Hr _ Hw). unfold index_on_disk in Hr.
  destruct (chunk_path_ok _ index_name_valid) as [p Hp].
  unfold load_index, attempt, read_chunk, mbind, IO_bind, io_lift. rewrite Hp. unfold call.
  destruct (fates w) as [|[] fs]; cbn; try (split; [by apply HC|by apply faulted_head]).
  all: destruct (disk w !! index_chunk_name vk) as [bs|] eqn:E; cbn;
    [destruct Hr as (plain & Hd & Hf); unfold io_lift; rewrite Hd; cbn; rewrite Hf; cbn|rewrite Hr].
  all: split; [done|]; first [apply uses_refl|by exists [Runs]].
Qed.

(** A record that can be written. *)
Definition index_seals : Prop := forall x : DerivativeIndexRecord, sealable vk (as_bytes (index_chunk_name vk)) x.
Context (seals : index_seals).

Lemma triple_save_index r (P C : Disk -> Prop) :
  (forall d, C d) ->
  triple P (save_index vk r) (fun _ => index_on_disk r) C.
Proof.
  intros HC. unfold save_index. destruct (entries r) as [|e es] eqn:Ee.
  - apply (triple_seq _ _ _ (index_on_disk r)); [|by apply triple_sync].
    apply triple_delete; [apply index_name_valid|done|]. intros d _. split; [done|].
    unfold index_on_disk. rewrite lookup_delete_eq. destruct r. cbn in Ee. by subst.
  - destruct (seals r) as (plain & Hv & Hc). rewrite Hv.
    apply (triple_bind _ _ _ (fun p d => p = plain /\ P d)); [by eapply triple_lift|]. intros p.
    apply triple_pure. intros ->. eapply triple_bind; [by apply (triple_encrypt plain _ _ P C)|]. intros bs.
    apply triple_pure. intros Hd. apply (triple_seq _ _ _ (index_on_disk r)); [|by apply triple_sync].
    apply triple_write; [apply index_name_valid|done|]. intros d _. split; [done|].
    unfold index_on_disk. rewrite lookup_insert_eq. exists plain. split; [done|by apply from_to_vec].
Qed.

Definition agrees (touch_dirty : bool) (r0 r : DerivativeIndexRecord) : Prop :=
  if touch_dirty then Forall2 same_entry (entries r0) (entries r) else r = r0.

Lemma agrees_refl t r : agrees t r r.
Proof. destruct t; [|done]. cbn. induction (entries r); by constructor. Qed.

Lemma on_record_spec {A} s0 (c : StIO DerivativeIndexRecord A) (Q : A -> DerivativeIndexCacheState -> Disk -> Prop) :
  (forall r0 r, index_wf r0 -> index_wf r -> agrees (ic_touch_dirty s0) r0 r ->
   st_triple (fun r' d => r' = r /\ index_on_disk r0 d) c
     (fun a r' d => Q a (mkIndexCache (Some r') (ic_touch_dirty s0)) d) (fun _ _ => True)) ->
  st_triple (fun s d => s = s0 /\ coherent s d) (on_record vk c) Q (fun _ _ => True).
Proof.
  intros Hc s w [-> (r0 & Hd & Hwf & Hs)]. unfold on_record. destruct (ic_record s0) as [r|].
  - destruct Hs as [Hr Ha]. specialize (Hc r0 r Hwf Hr Ha r w (conj eq_refl Hd)).
    by destruct (c r w) as [[[a|e] r'] w'].
  - pose proof (triple_load_index r0 (index_on_disk r0) (fun _ => True) ltac:(done) ltac:(done) w Hd) as Hl.
    destruct (load_index vk w) as [[r|e] w1]; [|by destruct Hl].
    destruct Hl as [[-> Hd1] Hn]. specialize (Hc r0 r0 Hwf Hwf (agrees_refl _ _) r0 w1 (conj eq_refl Hd1)).
    destruct (c r0 w1) as [[[a|e] r'] w']; destruct Hc as [? Hc]; (split; [done|]); [by eapply uses_trans|by eapply uses_faulted].
Qed.

Lemma coherent_saved r d t : index_wf r -> index_on_disk r d -> coherent (mkIndexCache (Some r) t) d.
Proof. intros Hr Hd. exists r. split_and!; [done..|]. split; [done|]. apply (agrees_refl t r). Qed.

Lemma st_triple_save_index r :
  st_triple (fun r' _ => r' = r) (io (save_index vk r)) (fun _ r' d => r' = r /\ index_on_disk r d) (fun _ _ => True).
Proof.
  apply st_triple_io. intros s. apply (triple_pre _ (fun d => s = r /\ True)); [|done].
  apply triple_pure. intros ->. eapply triple_conseq; [by apply (triple_save_index r (fun _ => True) (fun _ => True))|done..].
Qed.

(** A change of the record keeps it well-formed and says whether it changed anything. *)
Definition well_behaved (change : StIO DerivativeIndexRecord bool) : Prop :=
  forall r d, index_wf r ->
  st_triple (fun r' d' => r' = r /\ d' = d) change
    (fun b r' d' => index_wf r' /\ (b = false -> r' = r /\ d' = d)) (fun _ _ => True).

Lemma change_and_save_spec change :
  well_behaved change -> st_triple coherent (change_and_save vk change) (fun _ => coherent) (fun _ _ => True).
Proof.
  intros Hch. unfold change_and_save. apply st_triple_get. intros s0.
  set (t := ic_touch_dirty s0).
  apply (st_triple_bind _ _ _ (fun x s d => ic_touch_dirty s = t /\
           match x with
           | (true, _) => exists r, ic_record s = Some r /\ index_wf r /\ index_on_disk r d
           | (false, _) => coherent s d
           end)).
  - apply on_record_spec. intros r0 r Hwf0 Hwf Hag. apply st_triple_known. intros ? d [-> Hd].
    eapply st_triple_bind; [by apply (Hch r d)|]. intros b. apply st_triple_get. intros r1.
    apply st_triple_known. intros ? d1 (-> & Hr1 & Hb). destruct (b || t) eqn:Ebt.
    + apply (st_triple_seq _ _ _ (fun r' d' => r' = r1 /\ index_on_disk r1 d')).
      { eapply st_triple_conseq; [apply (st_triple_save_index r1)|by intros ? ? []|by intros|by intros]. }
      apply st_triple_ret. intros ? ? [-> Hs]. split; [done|]. by exists r1.
    + apply orb_false_iff in Ebt as [-> Et]. destruct (Hb eq_refl) as [-> ->].
      apply (st_triple_seq _ _ _ (fun s d' => s = r /\ d' = d)); [by apply st_triple_ret|].
      apply st_triple_ret. intros ? ? [-> ->]. split; [done|]. exists r0. split_and!; [done..|].
      by split.
  - intros [b st]. apply st_triple_known. intros s1 d1 [Et Hx]. destruct b.
    + destruct Hx as (r & Er & Hr & Hd). eapply st_triple_seq.
      { apply (st_triple_modify _ _ (fun s d => coherent s d)). intros s d [-> ->].
        unfold set_touch_dirty. rewrite Er. by apply coherent_saved. }
      by apply st_triple_ret.
    + apply (st_triple_seq _ _ _ coherent); [by apply st_triple_ret; intros ? ? [-> ->]|].
      by apply st_triple_ret.
Qed.

Lemma remove_well_behaved ks : well_behaved (remove_entries_by_key vk ks).
Proof.
  intros r d [H1 H2]. eapply st_triple_conseq; [by apply (remove_entries_weak vk ks r d)|by intros| |by intros].
  intros b r' d' (-> & -> & ->). split; [by apply index_wf_filter|]. intros Hb.
  rewrite (filter_none _ _ Hb), (removed_none vk _ _ Hb). by destruct r.
Qed.

Lemma remove_keys_well_behaved f : well_behaved (remove_keys_of vk f).
Proof.
  intros r d Hr. unfold remove_keys_of. apply st_triple_get. intros r0. apply st_triple_known.
  intros ? ? (-> & E & ->). subst r0. by apply remove_well_behaved.
Qed.

Lemma compact_well_behaved max_bytes protected : well_behaved (compact_record vk max_bytes protected).
Proof.
  intros r d Hr. unfold compact_record. apply st_triple_get. intros r0. apply st_triple_known.
  intros ? ? (-> & E & ->). subst r0. destruct (_ <=? _); [by apply st_triple_ret; intros ? ? [-> ->]|].
  destruct (choose_removals _ _ _) as [rest ks].
  eapply st_triple_bind; [by apply (remove_well_behaved ks r d)|]. intros b.
  apply st_triple_known. intros r1 d1 [Hr1 Hb]. destruct (negb _); [|by apply st_triple_ret; intros ? ? [-> ->]].
  apply st_triple_get. intros r2. apply st_triple_known. intros ? ? (-> & E & ->). subst r2.
  destruct (choose_removals _ rest _) as [rest' ks'].
  eapply st_triple_bind; [by apply (remove_well_behaved ks' r1 d1)|]. intros b'.
  apply st_triple_ret. intros r' d' [Hr' Hb']. split; [done|].
  intros [E1 E2]%orb_false_iff. destruct (Hb' E1) as [-> ->]. by apply Hb.
Qed.

(** *** Sequences of operations *)

Inductive index_op :=
  | OpFlush
  | OpInvalidate
  | OpGet (node_id source_revision : Z) (tier : string) (storage_version : Z)
  | OpSave (now node_id source_revision : Z) (tier : string) (storage_version : Z) (meta_chunk_name : string)
      (part_count total_bytes : Z)
  | OpTouch (now node_id source_revision : Z) (tier : string) (storage_version : Z)
  | OpDeleteNode (node_id : Z)
  | OpDeleteStale (node_id current_revision : Z)
  | OpCompact (max_bytes : Z) (protected : gmap Z Z).

Definition run_index_op (op : index_op) : StIO DerivativeIndexCacheState unit :=
  match op with
  | OpFlush => flush vk
  | OpInvalidate => st_put invalidate
  | OpGet n rv t v => cached_get_derivative_entry vk n rv t v;; mret tt
  | OpSave now n rv t v meta parts bytes => cached_save_derivative_entry vk now n rv t v meta parts bytes;; mret tt
  | OpTouch now n rv t v => cached_touch_derivative_entry vk now n rv t v;; mret tt
  | OpDeleteNode n => cached_delete_indexed_derivatives_for_node vk n;; mret tt
  | OpDeleteStale n rv => cached_delete_stale_derivatives_for_node vk n rv;; mret tt
  | OpCompact max_bytes protected => cached_compact_derivatives vk max_bytes protected;; mret tt
  end.

Fixpoint run_index_ops (ops : list index_op) : StIO DerivativeIndexCacheState unit :=
  match ops with
  | [] => mret tt
  | op :: ops' => run_index_op op;; run_index_ops ops'
  end.

(** New entries have a valid chunk name and a size. *)
Definition index_op_ok (op : index_op) : Prop :=
  match op with
  | OpSave _ _ _ _ _ meta _ bytes => valid_name meta = true /\ 0 <= bytes
  | _ => True
  end.

Lemma touch_in_spec now n rv t v es es' :
  touch_in now n rv t v es = Some es' -> Forall2 same_entry es es' /\ map key es' = map key es
  /\ (Forall entry_ok es -> Forall entry_ok es').
Proof.
  revert es'. induction es as [|e es IH]; intros es'; cbn; [done|].
  destruct (derivative_entry_matches e n rv t v).
  - intros [= <-]. split_and!.
    + constructor; [done|]. clear. by induction es; constructor.
    + done.
    + by intros [? ?]%Forall_cons; apply Forall_cons.
  - destruct (touch_in now n rv t v es) as [es1|]; [|done]. cbn. intros [= <-].
    destruct (IH es1 eq_refl) as (G1 & G2 & G3). split_and!.
    + by constructor.
    + cbn. by rewrite G2.
    + intros [? ?]%Forall_cons. apply Forall_cons. auto.
Qed.

Lemma same_entries_trans a b c : Forall2 same_entry a b -> Forall2 same_entry b c -> Forall2 same_entry a c.
Proof.
  intros Hab. revert c. induction Hab as [|x y l k Hxy _ IH]; intros c Hbc; inversion Hbc; subst; constructor; [|auto].
  by etransitivity.
Qed.

Lemma read_spec {A} (f : DerivativeIndexRecord -> A) :
  st_triple coherent (on_record vk (r ← st_get; mret (f r)) : StIO _ A) (fun _ => coherent) (fun _ _ => True).
Proof.
  intros s w Hs. refine (on_record_spec s _ (fun _ => coherent) _ s w (conj eq_refl Hs)).
  intros r0 r G0 Hr Ha. apply st_triple_get. intros r1. apply st_triple_known. intros ? ? (-> & E & Hd). subst r1.
  apply st_triple_ret. intros ? ? [-> ->]. exists r0. split_and!; [done..|]. by split.
Qed.

Lemma flush_spec : st_triple coherent (flush vk) (fun _ => coherent) (fun _ _ => True).
Proof.
  unfold flush. apply st_triple_get. intros s0. apply st_triple_known. intros ? d (-> & Hs).
  destruct (ic_touch_dirty s0) eqn:Et; cbn [negb]; [|by apply st_triple_ret; intros ? ? [-> ->]].
  destruct Hs as (r0 & Hd & Hwf & Hs). destruct (ic_record s0) as [r|] eqn:Er.
  - destruct Hs as [Hr _]. apply (st_triple_seq _ _ _ (fun s d' => s = s0 /\ index_on_disk r d')).
    + apply st_triple_io. intros s. apply triple_pure. intros ->.
      eapply triple_conseq; [by apply (triple_save_index r (fun _ => True) (fun _ => True))|by intros..].
    + apply st_triple_modify. intros ? ? [-> ?]. unfold set_touch_dirty. rewrite Er. by apply coherent_saved.
  - apply (st_triple_seq _ _ _ (fun s d' => s = s0 /\ d' = d)); [by apply st_triple_ret|].
    apply st_triple_modify. intros ? ? [-> ->]. exists r0. cbn. by rewrite Er.
Qed.

Lemma save_spec now n rv t v meta parts bytes :
  valid_name meta = true -> 0 <= bytes ->
  st_triple coherent (cached_save_derivative_entry vk now n rv t v meta parts bytes) (fun _ => coherent) (fun _ _ => True).
Proof.
  intros Hv Hb. unfold cached_save_derivative_entry.
  apply (st_triple_bind _ _ _ (fun _ s d => exists r, ic_record s = Some r /\ index_wf r /\ index_on_disk r d)).
  - intros s w Hs. refine (on_record_spec s _ (fun _ s d => exists r, ic_record s = Some r /\ index_wf r /\ index_on_disk r d)
      _ s w (conj eq_refl Hs)).
    intros r0 r G0 Hr Ha. apply st_triple_get. intros r1. apply st_triple_known. intros ? ? (-> & E & Hd). subst r1.
    cbv zeta. set (e := build_derivative_entry _ _ _ _ _ _ _ _ _).
    apply (st_triple_seq _ _ _ (fun r' _ => r' = upsert_entry e r)); [by apply st_triple_modify|].
    apply (st_triple_seq _ _ _ (fun r' d' => r' = upsert_entry e r /\ index_on_disk (upsert_entry e r) d')).
    { eapply st_triple_conseq; [apply (st_triple_save_index (upsert_entry e r))|by intros..]. }
    apply st_triple_ret. intros ? ? [-> ?]. eexists. split_and!; [done| |done]. by apply upsert_wf.
  - intros st. apply (st_triple_seq _ _ _ coherent); [|by apply st_triple_ret].
    apply st_triple_modify. intros s d (r & Er & Hr & Hd). unfold set_touch_dirty. rewrite Er. by apply coherent_saved.
Qed.

Lemma touch_spec now n rv t v :
  st_triple coherent (cached_touch_derivative_entry vk now n rv t v) (fun _ => coherent) (fun _ _ => True).
Proof.
  unfold cached_touch_derivative_entry.
  set (mid := fun (found : bool) s d => if found then coherent (set_touch_dirty true s) d else coherent s d).
  apply (st_triple_bind _ _ _ mid).
  - intros s w Hs. refine (on_record_spec s _ mid _ s w (conj eq_refl Hs)).
    intros r0 r G0 Hr Ha. apply st_triple_get. intros r1. apply st_triple_known. intros ? d (-> & E & Hd). subst r1.
    destruct (touch_in now n rv t v (entries r)) as [es|] eqn:Et.
    + destruct (touch_in_spec _ _ _ _ _ _ _ Et) as (G1 & G2 & G3).
      apply (st_triple_seq _ _ _ (fun r' d' => r' = mkIndex es /\ d' = d)); [by apply st_triple_modify; intros ? ? [_ ->]|].
      apply st_triple_ret. intros ? ? [-> ->]. exists r0. split_and!; [done..|]. destruct Hr as [Hn Hf]. split.
      * split; cbn [entries]; [by rewrite G2|auto].
      * cbn. destruct (ic_touch_dirty s); cbn in Ha; [by eapply same_entries_trans|by subst].
    + apply st_triple_ret. intros ? ? [-> ->]. exists r0. split_and!; [done..|]. by split.
  - intros [|]; cbn [negb mid].
    + apply (st_triple_seq _ _ _ coherent); [by apply st_triple_modify|by apply st_triple_ret].
    + by apply st_triple_ret.
Qed.

Lemma index_op_spec op :
  index_op_ok op -> st_triple coherent (run_index_op op) (fun _ => coherent) (fun _ _ => True).
Proof.
  intros Hop. destruct op; cbn [run_index_op];
    try (apply (st_triple_seq _ _ _ coherent); [|by apply st_triple_ret]).
  - apply flush_spec.
  - apply st_triple_modify. intros s d (r0 & Hd & Hwf & _). by exists r0.
  - apply read_spec.
  - destruct Hop. by apply save_spec.
  - apply touch_spec.
  - by apply change_and_save_spec, remove_keys_well_behaved.
  - by apply change_and_save_spec, remove_keys_well_behaved.
  - by apply change_and_save_spec, compact_well_behaved.
Qed.

Lemma index_ops_spec ops :
  Forall index_op_ok ops -> st_triple coherent (run_index_ops ops) (fun _ => coherent) (fun _ _ => True).
Proof.
  induction 1 as [|op ops Hop _ IH]; cbn [run_index_ops]; [by apply st_triple_ret|].
  apply (st_triple_seq _ _ _ coherent); [by apply index_op_spec|done].
Qed.

Lemma find_same n rv t v es es' :
  Forall2 same_entry es es' ->
  option_Forall2 same_entry (get_entry n rv t v (mkIndex es)) (get_entry n rv t v (mkIndex es')).
Proof.
  unfold get_entry. cbn [entries]. induction 1 as [|e e' es es' He _ IH]; cbn [List.find]; [constructor|].
  assert (derivative_entry_matches e n rv t v = derivative_entry_matches e' n rv t v) as ->.
  { destruct e, e'. unfold same_entry, set_last_accessed in He. cbn in He. inversion He. reflexivity. }
  destruct (derivative_entry_matches e' n rv t v); [by constructor|done].
Qed.
End Coherence.

(** C37: the index in memory reads like the one on disk. After any sequence of operations
    without faults, which all return, a lookup in memory gives what a lookup in the index
    chunk gives, up to the time of last access, which may wait for a flush. *)
Theorem cached_lookup_agrees `{CryptoLaws} `{SerdeLaw DerivativeIndexRecord} vk ops s d k :
  index_seals vk -> coherent vk s d -> Forall index_op_ok ops ->
  exists s' d' k', run_index_ops vk ops s (mkWorld d [] k) = (Ok tt, s', mkWorld d' [] k')
    /\ forall n rv t v, exists o o',
         fst (fst (cached_get_derivative_entry vk n rv t v s' (mkWorld d' [] k'))) = Ok o
         /\ fst (get_derivative_entry vk n rv t v (mkWorld d' [] k')) = Ok o'
         /\ option_Forall2 same_entry o' o.
Proof.
  intros Hseal Hs Hops.
  pose proof (index_ops_spec vk Hseal ops Hops s (mkWorld d [] k) Hs) as Hrun.
  destruct (run_index_ops _ _ _ _) as [[[[]|e] s'] [d' fs k']]; [|by destruct Hrun as [_ []%faulted_nil]].
  destruct Hrun as [Hc Hf]. cbn in Hf. apply uses_nil in Hf as ->. exists s', d', k'. split; [done|].
  intros n rv t v. destruct Hc as (r0 & Hd & Hwf & Hrec). cbn in Hd.
  pose proof (triple_load_index vk r0 (eq d') (fun _ => True) ltac:(by intros ? <-) ltac:(done) (mkWorld d' [] k') eq_refl) as Hl.
  unfold get_derivative_entry, cached_get_derivative_entry, on_record, mbind, IO_bind, StIO_bind, st_get.
  destruct (load_index vk _) as [[r|e] w']; [|by destruct Hl as [_ []%faulted_nil]]. destruct Hl as [[-> _] _].
  destruct (ic_record s') as [r|].
  - destruct Hrec as [Hr Ha]. exists (get_entry n rv t v r), (get_entry n rv t v r0). split_and!; [done..|].
    destruct r0 as [es0], r as [es]. apply find_same. destruct (ic_touch_dirty s'); [done|]. injection Ha as ->.
    clear. by induction es0; constructor.
  - exists (get_entry n rv t v r0), (get_entry n rv t v r0). split_and!; [done..|].
    destruct (get_entry n rv t v r0); by constructor.
Qed.

(** ** A failing deletion *)

Section FailingRemoval.
Context `{cr : Crypto} {crl : CryptoLaws cr} `{SerdeLaw DerivativeIndexRecord}.
Context (vk : list byte).

(** The first deletion meets the fault; nothing was deleted before it. *)
Lemma drain_fails ks es d fs k :
  Forall entry_ok es -> existsb (removing ks) es = true ->
  exists e, drain_entries vk ks es (mkWorld d (FailsBefore :: fs) k) = (Err (Failed e), mkWorld d fs k).
Proof.
  induction 1 as [|e es [Hv _] _ IH]; cbn [existsb drain_entries]; [done|]. intros Hex.
  change (bool_decide (key e ∈ ks)) with (removing ks e). destruct (removing ks e).
  - destruct (chunk_path_ok _ Hv) as [p Hp]. eexists.
    unfold delete_entry_chunks, delete_chunk, mbind, IO_bind, io_lift. rewrite Hp. reflexivity.
  - destruct (IH Hex) as [er Her]. exists er. unfold mbind, IO_bind in *. by rewrite Her.
Qed.

Lemma stale_removal_fails node_id revision r t d fs k :
  index_wf r -> stale_keys node_id revision r <> [] ->
  exists e, cached_delete_stale_derivatives_for_node vk node_id revision (mkIndexCache (Some r) t)
              (mkWorld d (FailsBefore :: fs) k)
            = (Err (Failed e), mkIndexCache (Some (mkIndex [])) t, mkWorld d fs k).
Proof.
  intros [_ Hok] Hne. set (ks := stale_keys node_id revision r) in *.
  assert (existsb (removing ks) (entries r) = true) as Hex.
  { unfold ks, stale_keys in Hne |- *. destruct (List.filter _ _) as [|e es] eqn:Ef; [done|].
    apply existsb_exists. exists e. assert (In e (e :: es)) as He by (by left). rewrite <- Ef in He.
    apply filter_In in He as [He _]. split; [done|]. apply bool_decide_eq_true. cbn [map]. set_solver. }
  destruct (drain_fails ks (entries r) d fs k Hok Hex) as [e He]. exists e.
  unfold cached_delete_stale_derivatives_for_node, change_and_save, on_record, remove_keys_of, remove_entries_by_key.
  unfold mbind, StIO_bind, st_get, st_put, st_modify. cbn [ic_record ic_touch_dirty]. fold ks.
  destruct ks as [|k0 ks']; [done|]. unfold io. by rewrite He.
Qed.
End FailingRemoval.

(** when one deletion fails while the stale derivatives of a file are removed, the whole
    index in memory is lost, the entries of all other files included: the next derivative
    that is saved overwrites the index on disk with itself alone, and the chunks of all
    the others are no longer listed anywhere. *)
Theorem failed_removal_forgets_index `{CryptoLaws} `{SerdeLaw DerivativeIndexRecord}
    vk r t d k node_id revision now n rv tr v meta parts bytes :
  index_seals vk -> index_wf r -> stale_keys node_id revision r <> [] ->
  exists e s' w',
    cached_delete_stale_derivatives_for_node vk node_id revision (mkIndexCache (Some r) t) (mkWorld d [FailsBefore] k)
    = (Err (Failed e), s', w')
    /\ disk w' = d
    /\ exists st s'' w'', cached_save_derivative_entry vk now n rv tr v meta parts bytes s' w' = (Ok st, s'', w'')
    /\ index_on_disk vk (mkIndex [mkEntry n rv tr v meta parts bytes now now]) (disk w'').
Proof.
  intros Hseal Hwf Hne. destruct (stale_removal_fails vk node_id revision r t d [] k Hwf Hne) as [e He].
  exists e, (mkIndexCache (Some (mkIndex [])) t), (mkWorld d [] k). split_and!; [done..|].
  unfold cached_save_derivative_entry, on_record, mbind, StIO_bind, st_get, st_put, st_modify, io. cbn [ic_record].
  pose proof (triple_save_index vk Hseal (mkIndex [mkEntry n rv tr v meta parts bytes now now]) (fun _ => True) (fun _ => True)
                ltac:(done) (mkWorld d [] k) I) as Hs.
  change (upsert_entry _ _) with (mkIndex [mkEntry n rv tr v meta parts bytes now now]).
  destruct (save_index vk _ _) as [[[]|e'] w'']; [|by destruct Hs as [_ []%faulted_nil]]. destruct Hs as [Hd _].
  do 3 eexists. split; [reflexivity|done].
Qed.

(** ** Concrete runs *)

Definition of_entry (e : DerivativeIndexEntry) : json :=
  GenNode 3 [eZ (e_node_id e); eZ (e_source_revision e); eS (e_tier e); eZ (e_storage_version e);
             eS (e_meta_chunk_name e); eZ (e_part_count e); eZ (e_total_bytes e); eZ (e_created_at e);
             eZ (e_last_accessed_at e)].
Definition to_entry (t : json) : DerivativeIndexEntry :=
  match t with
  | GenNode _ [a; b; c; d; e; f; g; h; i] =>
      mkEntry (dZ a) (dZ b) (dS c) (dZ d) (dS e) (dZ f) (dZ g) (dZ h) (dZ i)
  | _ => mkEntry 0 0 "" 0 "" 0 0 0 0
  end.
Definition of_index (r : DerivativeIndexRecord) : json := eL of_entry (entries r).
Definition to_index (t : json) : DerivativeIndexRecord := mkIndex (dL to_entry t).

Lemma to_of_index r : to_index (of_index r) = r.
Proof.
  unfold to_index, of_index. rewrite dL_eL_all; [by destruct r|]. by intros [].
Qed.

Definition index_serde : Serde DerivativeIndexRecord := view_serde of_index to_index.
Lemma index_serde_law : @SerdeLaw _ index_serde.
Proof. apply view_serde_law, to_of_index. Qed.

#[local] Existing Instances toy_crypto toy_crypto_laws index_serde index_serde_law.

Definition demo_vk : list byte := replicate KEY_SIZE x07.
Definition demo_name (n : Z) : string := derivative_meta_chunk_name demo_vk n 1 "thumb" 1.
Definition demo_entry (n accessed : Z) : DerivativeIndexEntry :=
  mkEntry n 1 "thumb" 1 (demo_name n) 2 100 5 accessed.
Definition demo_index : DerivativeIndexRecord := mkIndex [demo_entry 7 10; demo_entry 8 20; demo_entry 9 30].

Lemma demo_seals : index_seals demo_vk.
Proof. intros x. apply toy_sealable. Qed.

Lemma demo_index_wf : index_wf demo_index.
Proof.
  split.
  - apply (bool_decide_unpack _). vm_compute. exact I.
  - repeat (apply Forall_cons; split; [split; [vm_compute; reflexivity|cbn; lia]|]). by apply Forall_nil.
Qed.

Lemma compaction_correct_witness :
  exists b r' w' gone,
    compact_record demo_vk 150 {[9 := 1; 8 := 2]} demo_index (mkWorld ∅ [] 0) = (Ok b, r', w')
    /\ compacted demo_vk 150 {[9 := 1; 8 := 2]} demo_index ∅ gone r' (disk w').
Proof.
  apply (compaction_correct demo_vk 150 {[9 := 1; 8 := 2]} demo_index ∅ 0%nat).
  destruct demo_index_wf as [Hk He]. split; [exact Hk|exact He|]. vm_compute. discriminate.
Defined.

Definition demo_ops : list index_op :=
  [OpSave 5 7 1 "thumb" 1 (demo_name 7) 2 100; OpSave 6 8 1 "thumb" 1 (demo_name 8) 2 100;
   OpTouch 9 7 1 "thumb" 1; OpDeleteStale 8 2; OpFlush; OpTouch 11 7 1 "thumb" 1].

Lemma cached_lookup_agrees_witness :
  exists s' d' k', run_index_ops demo_vk demo_ops invalidate (mkWorld ∅ [] 0) = (Ok tt, s', mkWorld d' [] k')
    /\ forall n rv t v, exists o o',
         fst (fst (cached_get_derivative_entry demo_vk n rv t v s' (mkWorld d' [] k'))) = Ok o
         /\ fst (get_derivative_entry demo_vk n rv t v (mkWorld d' [] k')) = Ok o'
         /\ option_Forall2 same_entry o' o.
Proof.
  apply (cached_lookup_agrees demo_vk demo_ops invalidate ∅ 0%nat).
  - apply demo_seals.
  - exists index_default. split_and!; [reflexivity| |exact I]. split; [apply NoDup_nil_2|apply Forall_nil; exact I].
  - repeat (apply Forall_cons; split; [first [exact I|split; vm_compute; [reflexivity|discriminate]]|]). apply Forall_nil. exact I.
Defined.

Lemma failed_removal_forgets_index_witness :
  exists e s' w',
    cached_delete_stale_derivatives_for_node demo_vk 8 2 (mkIndexCache (Some demo_index) false) (mkWorld ∅ [FailsBefore] 0)
    = (Err (Failed e), s', w')
    /\ disk w' = ∅
    /\ exists st s'' w'', cached_save_derivative_entry demo_vk 50 3 1 "thumb" 1 (demo_name 3) 1 10 s' w' = (Ok st, s'', w'')
    /\ index_on_disk demo_vk (mkIndex [mkEntry 3 1 "thumb" 1 (demo_name 3) 1 10 50 50]) (disk w'').
Proof.
  apply (failed_removal_forgets_index demo_vk demo_index false ∅ 0%nat 8 2 50 3 1 "thumb" 1 (demo_name 3) 1 10).
  - apply demo_seals.
  - apply demo_index_wf.
  - discriminate.
Defined.
