(* ===== verification/FileReplace.v ===== *)
(** * Replacing the content of a file

    Models [crates/core/src/rpc/router/catalog_streams/file_replace_tx.rs] and
    [file_streams/replace/chunks.rs]: the new chunks are staged, the old ones backed up,
    a marker written, and only then the chunks of the file are overwritten. After a
    crash the revision of the file in the catalog decides whether the old chunks are put
    back. The clock readings (the operation's nanoseconds, the new modification time)
    are arguments. *)

From Stdlib Require Import Strings.Byte Ascii String.
From stdpp Require Import base countable gmap strings list.
From S2P Require Import Prelude.
From S2P Require Import CatalogNode.
From S2P Require Import CatalogManager.
From S2P Require Import Bytes.
From S2P Require Import Storage.
From S2P Require Import Crypto.
From S2P Require Import IoLogic.
From S2P Require Import DurableTx.
Open Scope Z_scope.

Definition FILE_REPLACE_TX_VERSION : Z := 1.
Definition FILE_REPLACE_TX_KIND : string := "catalog_file_replace".
Definition FILE_REPLACE_TX_MARKER_CONTEXT : string := "catalog:file:replace:tx:v1".

Record FileReplaceChunkBackup := mkBackup { b_canonical_name : string; b_backup_name : option string }.

Record FileReplaceStagedChunk := mkStaged { s_canonical_name : string; s_stage_name : string }.

Record FileReplaceTransaction := mkReplaceTx {
  r_version : Z;
  r_node_id : Z;
  r_old_source_revision : Z;
  r_new_source_revision : Z;
  r_backups : list FileReplaceChunkBackup;
  r_staged_chunks : list FileReplaceStagedChunk;
}.

Record FileReplaceParticipant := mkReplaceParticipant { current_revision : option Z }.

Definition valid_payload (t : FileReplaceTransaction) : bool :=
  (r_version t =? FILE_REPLACE_TX_VERSION) && (0 <? r_new_source_revision t).

(** The backup chunks a transaction names. *)
Definition backup_names (bs : list FileReplaceChunkBackup) : list string := omap b_backup_name bs.

(** [let _ = storage.delete_chunk(..)] for each name. *)
Fixpoint delete_ignoring (names : list string) : IO unit :=
  match names with
  | [] => mret tt
  | n :: names' => ignore (delete_chunk n);; delete_ignoring names'
  end.

Definition cleanup_file_replace_temporary_chunks (t : FileReplaceTransaction) : IO unit :=
  delete_ignoring (map s_stage_name (r_staged_chunks t));;
  delete_ignoring (backup_names (r_backups t)).

Fixpoint restore_backups (bs : list FileReplaceChunkBackup) : IO unit :=
  match bs with
  | [] => mret tt
  | b :: bs' =>
      (match b_backup_name b with
       | Some backup_name =>
           bytes ← read_chunk backup_name;
           write_chunk_atomic (b_canonical_name b) bytes
       | None => delete_chunk (b_canonical_name b)
       end);;
      restore_backups bs'
  end.

Definition restore_file_replace_marker_payload (t : FileReplaceTransaction) : IO unit :=
  restore_backups (r_backups t);;
  sync.

Fixpoint restore_all (backups : list (string * option (list byte))) : IO unit :=
  match backups with
  | [] => mret tt
  | (name, bytes) :: bs =>
      (match bytes with
       | Some bytes => write_chunk_atomic name bytes
       | None => delete_chunk name
       end);;
      restore_all bs
  end.

Definition restore_chunks (backups : list (string * option (list byte))) : IO unit :=
  restore_all backups;;
  sync.

Definition cleanup_staged_chunks (names : list string) : IO unit :=
  delete_ignoring names;;
  ignore sync.

Definition next_source_revision (previous now : Z) : Z :=
  Z.max (Z.max now (u64_saturating_add previous 1)) 1.

(** Errors of the command; an internal one has a text, and the error it reports. *)
Inductive ReplaceCommandError :=
  | ReplaceInternal (message : string)
  | ReplaceInternalBy (message : string) (e : Error)
  | ReplaceNoStream
  | ReplaceNodeNotFound
  | ReplaceAccessDenied
  | ReplaceNotFile
  | ReplaceStaleSource
  | ReplaceSizeMismatch.

Abbreviation RIO A := (IO (result ReplaceCommandError A)).

(** [c?] on the command's own results. *)
Definition rbind {A B} (c : RIO A) (k : A -> RIO B) : RIO B :=
  r ← c;
  match r with
  | Ok x => k x
  | Err e => mret (Err e)
  end.

Definition chunk_count (size chunk_size : Z) : result ReplaceCommandError Z :=
  if size =? 0 then Ok 0 else
  let count := if chunk_size =? 0 then 0
               else u64_saturating_add size (u64_saturating_sub chunk_size 1) / chunk_size in
  if count <=? U32_MAX then Ok count else Err (ReplaceInternal "Invalid chunk count").

Record ChunkReplacement := mkReplacement {
  cr_backups : list (string * option (list byte));
  cr_transaction : FileReplaceTransaction;
  cr_modtime : Z;
  cr_source_revision : Z;
}.

Section Replace.
Context `{cr : Crypto} `{Serde FileReplaceTransaction, Serde (DurableTxRecord FileReplaceTransaction)}.

Definition file_replace_tx_marker_name (vault_key : list byte) : string :=
  chunk_name_u64 vault_key (as_bytes FILE_REPLACE_TX_MARKER_CONTEXT) 0.

Definition file_replace_temp_chunk_name (vault_key : list byte) (node_id operation_id : Z) (kind : string)
    (index : Z) : string :=
  chunk_name_u64 vault_key
    (as_bytes (String.append "blob-replace-" (String.append kind (String.append ":"
       (String.append (show_u64 node_id) (String.append ":" (show_u64 operation_id))))))) index.

#[export] Instance file_replace_participant : DurableTxParticipant FileReplaceParticipant FileReplaceTransaction := {
  KIND := FILE_REPLACE_TX_KIND;
  VERSION := FILE_REPLACE_TX_VERSION;
  marker_context _ := FILE_REPLACE_TX_MARKER_CONTEXT;
  marker_name _ vault_key := file_replace_tx_marker_name vault_key;
  validate_payload _ t := valid_payload t;
  rollback_staging _ _ _ := mret tt;
  recover_committing p _ record :=
    if from_option (fun revision => r_new_source_revision (tx_payload record) <=? revision) false (current_revision p)
    then mret tt
    else restore_file_replace_marker_payload (tx_payload record);
  cleanup _ _ record :=
    cleanup_file_replace_temporary_chunks (tx_payload record);; sync;
}.

Context (vault_key : list byte).

(** [tx_store]: the participant knows no revision. *)
Definition replace_store : FileReplaceParticipant := mkReplaceParticipant None.

Definition replace_tx_id (t : FileReplaceTransaction) : string :=
  String.append "file-replace-" (String.append (show_u64 (r_node_id t))
    (String.append "-" (show_u64 (r_new_source_revision t)))).

Definition write_file_replace_marker (t : FileReplaceTransaction) : IO unit :=
  write_record vault_key replace_store (replace_tx_id t) Committing t.

Record PendingFileReplaceTransaction := mkPending {
  p_phase : DurableTxPhase;
  p_payload : FileReplaceTransaction;
}.

Definition read_file_replace_marker : IO (option PendingFileReplaceTransaction) :=
  record ← read_record (P:=FileReplaceParticipant) (T:=FileReplaceTransaction) vault_key replace_store;
  match (record : option (DurableTxRecord FileReplaceTransaction)) with
  | Some record =>
      mret (if valid_payload (tx_payload record)
            then Some (mkPending (tx_phase record) (tx_payload record)) else None)
  | None =>
      legacy ← read_legacy_payload vault_key replace_store;
      match (legacy : option FileReplaceTransaction) with
      | None => mret None
      | Some legacy => mret (if negb (valid_payload legacy) then None else Some (mkPending Committing legacy))
      end
  end.

Definition cleanup_file_replace_marker (t : FileReplaceTransaction) : IO unit :=
  cleanup_file_replace_temporary_chunks t;;
  store_delete vault_key replace_store.

(** The revision of a node in the catalog; 0 when it is gone. *)
Definition node_revision (m : CatalogManager) (node_id : Z) : Z :=
  from_option source_revision 0 (find_by_id m node_id).

Definition recover_file_replace_transaction (catalog : CatalogManager) : IO unit :=
  record ← read_participant_record vault_key replace_store;
  match (record : option (DurableTxRecord FileReplaceTransaction)) with
  | Some record =>
      recover_participant vault_key
        (mkReplaceParticipant (Some (node_revision catalog (r_node_id (tx_payload record)))))
  | None =>
      pending ← read_file_replace_marker;
      match pending with
      | None => mret tt
      | Some pending =>
          let t := p_payload pending in
          if (match p_phase pending with Committing => true | Staging => false end)
             && (r_new_source_revision t <=? node_revision catalog (r_node_id t))
          then cleanup_file_replace_marker t
          else restore_file_replace_marker_payload t;;
               cleanup_file_replace_marker t
      end
  end.

(** ** The replacement (chunks.rs) *)

Definition restore_replace_failure (backups : list (string * option (list byte)))
    (transaction : option FileReplaceTransaction) (transient_names : list string) : IO ReplaceCommandError :=
  catch (restore_chunks backups)
    (fun e => mret (ReplaceInternalBy "File replace failed and restore failed" e))
    (fun _ =>
       (match transaction with
        | Some t => ignore (cleanup_file_replace_marker t)
        | None => cleanup_staged_chunks transient_names
        end);;
       mret (ReplaceInternal "File replace failed")).

(** [return Err(restore_replace_failure(..))]. *)
Definition fail_replace {A} (backups : list (string * option (list byte)))
    (transaction : option FileReplaceTransaction) (transient_names : list string) : RIO A :=
  e ← restore_replace_failure backups transaction transient_names;
  mret (Err e).

Fixpoint read_old_chunks (names : list string) : RIO (list (string * option (list byte))) :=
  match names with
  | [] => mret (Ok [])
  | n :: names' =>
      let next backup := rbind (read_old_chunks names') (fun bs => mret (Ok ((n, backup) :: bs))) in
      catch (chunk_exists n) (fun e => mret (Err (ReplaceInternalBy "Storage lookup failed" e))) (fun found =>
        if (found : bool)
        then catch (read_chunk n) (fun e => mret (Err (ReplaceInternalBy "Storage read failed" e)))
               (fun bytes => next (Some bytes))
        else next None)
  end.

Fixpoint encrypt_chunks (node_id32 index : Z) (parts : list (list byte)) : RIO (list (string * list byte)) :=
  match parts with
  | [] => mret (Ok [])
  | plaintext :: parts' =>
      if negb (index <=? U32_MAX) then mret (Err (ReplaceInternal "Invalid chunk index")) else
      let name := blob_chunk_name vault_key node_id32 index in
      catch (encrypt plaintext vault_key (as_bytes name))
        (fun e => mret (Err (ReplaceInternalBy "Encryption failed" e)))
        (fun encrypted => rbind (encrypt_chunks node_id32 (index + 1) parts') (fun cs => mret (Ok ((name, encrypted) :: cs))))
  end.

(** Writes the backup chunks; [transient] are the temporary chunks written before. *)
Fixpoint write_backups (all : list (string * option (list byte))) (node_id32 operation_id index : Z)
    (todo : list (string * option (list byte))) (transient : list string)
    : RIO (list string * list FileReplaceChunkBackup) :=
  match todo with
  | [] => mret (Ok (transient, []))
  | (canonical_name, backup) :: todo' =>
      if negb (index <=? U32_MAX) then mret (Err (ReplaceInternal "Invalid chunk index")) else
      match backup with
      | Some bytes =>
          let backup_name := file_replace_temp_chunk_name vault_key node_id32 operation_id "backup" index in
          catch (write_chunk_atomic backup_name bytes)
            (fun _ => fail_replace all None transient)
            (fun _ => rbind (write_backups all node_id32 operation_id (index + 1) todo' (transient ++ [backup_name]))
                        (fun '(tr, bs) => mret (Ok (tr, mkBackup canonical_name (Some backup_name) :: bs))))
      | None =>
          rbind (write_backups all node_id32 operation_id (index + 1) todo' transient)
            (fun '(tr, bs) => mret (Ok (tr, mkBackup canonical_name None :: bs)))
      end
  end.

Fixpoint write_staged (all : list (string * option (list byte))) (node_id32 operation_id index : Z)
    (todo : list (string * list byte)) (transient : list string)
    : RIO (list string * list FileReplaceStagedChunk) :=
  match todo with
  | [] => mret (Ok (transient, []))
  | (canonical_name, encrypted) :: todo' =>
      if negb (index <=? U32_MAX) then mret (Err (ReplaceInternal "Invalid chunk index")) else
      let stage_name := file_replace_temp_chunk_name vault_key node_id32 operation_id "stage" index in
      catch (write_chunk_atomic stage_name encrypted)
        (fun _ => fail_replace all None transient)
        (fun _ => rbind (write_staged all node_id32 operation_id (index + 1) todo' (transient ++ [stage_name]))
                    (fun '(tr, ss) => mret (Ok (tr, mkStaged canonical_name stage_name :: ss))))
  end.

Fixpoint install_staged (all : list (string * option (list byte))) (t : FileReplaceTransaction)
    (staged : list FileReplaceStagedChunk) : RIO unit :=
  match staged with
  | [] => mret (Ok tt)
  | s :: staged' =>
      catch (read_chunk (s_stage_name s)) (fun _ => fail_replace all (Some t) []) (fun encrypted =>
      catch (write_chunk_atomic (s_canonical_name s) encrypted) (fun _ => fail_replace all (Some t) []) (fun _ =>
      install_staged all t staged'))
  end.

Fixpoint delete_tail (all : list (string * option (list byte))) (t : FileReplaceTransaction)
    (names : list string) : RIO unit :=
  match names with
  | [] => mret (Ok tt)
  | n :: names' =>
      catch (delete_chunk n) (fun _ => fail_replace all (Some t) []) (fun _ => delete_tail all t names')
  end.

(** [(from..to).map(chunk_name)]. *)
Definition part_names (node_id32 from to : Z) : list string :=
  map (blob_chunk_name vault_key node_id32) (seqZ from (to - from)).

Definition replace_chunks (operation_id now node_id32 old_size new_size old_chunk_size new_chunk_size : Z)
    (content : list byte) (old_source_revision : Z) : RIO ChunkReplacement :=
  rbind (mret (chunk_count old_size old_chunk_size)) (fun old_count =>
  rbind (mret (chunk_count new_size new_chunk_size)) (fun new_count =>
  let max_count := Z.max old_count new_count in
  rbind (read_old_chunks (part_names node_id32 0 max_count)) (fun backups =>
  rbind (encrypt_chunks node_id32 0 (chunks_of (Z.to_nat new_chunk_size) content)) (fun encrypted_chunks =>
  rbind (write_backups backups node_id32 operation_id 0 backups []) (fun '(transient, transaction_backups) =>
  rbind (write_staged backups node_id32 operation_id 0 encrypted_chunks transient) (fun '(transient, staged_chunks) =>
  catch sync (fun _ => fail_replace backups None transient) (fun _ =>
  let modtime := now in
  let source_revision := next_source_revision old_source_revision modtime in
  let t := mkReplaceTx FILE_REPLACE_TX_VERSION node_id32 old_source_revision source_revision
             transaction_backups staged_chunks in
  catch (write_file_replace_marker t) (fun _ => fail_replace backups (Some t) []) (fun _ =>
  rbind (install_staged backups t staged_chunks) (fun _ =>
  rbind (delete_tail backups t (part_names node_id32 new_count max_count)) (fun _ =>
  catch sync (fun _ => fail_replace backups (Some t) []) (fun _ =>
  mret (Ok (mkReplacement backups t modtime source_revision))))))))))))).

End Replace.
