(* ===== verification/FileReplaceSafe.v ===== *)
(** * A replacement is atomic up to one fault

    The theory of [FileReplace.v]: with at most one fault of any kind, in the replacement or
    as its end, the recovery at the next unlock leaves the file with its old chunks, or
    with the new ones where the catalog has the new revision. A recovery that is
    itself interrupted after it removed the backups can never succeed again. *)

From Stdlib Require Import Strings.Byte Ascii String.
From stdpp Require Import base countable gmap strings list.
From S2P Require Import Prelude.
From S2P Require Import CatalogNode.
From S2P Require Import CatalogManager.
From S2P Require Import Bytes.
From S2P Require Import Storage.
From S2P Require Import Crypto.
From S2P Require Import IoLogic.
From S2P Require Import DurableTx.
From S2P Require Import FileReplace.
Open Scope Z_scope.

(** ** Results of the command *)

Section ResultRules.
Context {A B : Type}.

Lemma triple_rbind P (c : RIO A) (k : A -> RIO B) Q E (R : result ReplaceCommandError B -> Disk -> Prop) C :
  triple P c (fun r d => match r with Ok x => Q x d | Err _ => E d end) C ->
  (forall x, triple (Q x) (k x) R C) -> (forall e d, E d -> R (Err e) d) -> triple P (rbind c k) R C.
Proof.
  intros Hc Hk HE. eapply triple_bind; [exact Hc|]. intros [x|e]; [apply Hk|]. apply triple_ret. auto.
Qed.

Lemma single_rbind P (c : RIO A) (k : A -> RIO B) Q E (R : result ReplaceCommandError B -> Disk -> Prop) F C :
  single P c (fun r d => match r with Ok x => Q x d | Err _ => E d end) F C ->
  (forall x, single (Q x) (k x) R F C) -> (forall e d, E d -> R (Err e) d) -> single P (rbind c k) R F C.
Proof.
  intros Hc Hk HE. eapply single_bind; [exact Hc|]. intros [x|e]; [apply Hk|]. apply single_ret. auto.
Qed.
End ResultRules.

(** ** Deleting a list of chunks *)

Lemma triple_delete_ignoring (I C : Disk -> Prop) ns :
  (forall n, n ∈ ns -> valid_name n = true) -> (forall d, I d -> C d) ->
  (forall n d, n ∈ ns -> I d -> I (delete n d)) ->
  triple I (delete_ignoring ns) (fun _ => I) C.
Proof.
  intros Hv HC Hd. induction ns as [|n ns IH]; cbn [delete_ignoring]; [by apply triple_ret|].
  apply (triple_seq _ _ _ I); [|apply IH; intros; [apply Hv|apply Hd]; by try constructor].
  eapply (triple_ignore _ _ (fun _ => I)); [|done|done].
  apply triple_delete; [apply Hv; constructor|done|]. intros d HI. split; apply Hd; by try constructor.
Qed.

Section Atomicity.
Context `{cr : Crypto} {crl : CryptoLaws cr}.
Context `{Serde FileReplaceTransaction} `{SerdeLaw (DurableTxRecord FileReplaceTransaction)}.
Context (key : list byte) (node op count : Z) (D0 : Disk).

Abbreviation mk := (file_replace_tx_marker_name key).
Abbreviation canonical := (part_names key node 0 count).
Abbreviation bname := (file_replace_temp_chunk_name key node op "backup").
Abbreviation sname := (file_replace_temp_chunk_name key node op "stage").

(** The temporary chunks the operation may use. *)
Definition temps : list string := map bname (seqZ 0 count) ++ map sname (seqZ 0 count).

(** No two of the names involved are the same, and no transaction is pending. *)
Record replace_ready : Prop := {
  rr_distinct : NoDup (canonical ++ temps ++ [mk]);
  rr_no_marker : D0 !! mk = None;
}.
Context (ready : replace_ready).

Lemma mk_valid : valid_name mk = true.
Proof. apply chunk_name_u64_valid. Qed.
Lemma bname_valid i : valid_name (bname i) = true.
Proof. apply chunk_name_u64_valid. Qed.
Lemma sname_valid i : valid_name (sname i) = true.
Proof. apply chunk_name_u64_valid. Qed.
Lemma canonical_valid n : n ∈ canonical -> valid_name n = true.
Proof. intros (i & -> & _)%list_elem_of_fmap. apply chunk_name_u64_valid. Qed.

Lemma distinct_parts : NoDup canonical /\ NoDup temps
  /\ (forall n, n ∈ canonical -> n ∉ temps) /\ (mk ∉ canonical) /\ (mk ∉ temps).
Proof.
  destruct ready as [Hd _]. apply NoDup_app in Hd as (G1 & G2 & G3). apply NoDup_app in G3 as (G3 & G4 & _).
  split_and!; [done..| | |].
  - intros n Hn Ht. apply (G2 n Hn). apply elem_of_app. by left.
  - intros Hn. apply (G2 _ Hn). apply elem_of_app. right. by apply list_elem_of_singleton.
  - intros Hn. apply (G4 _ Hn). by apply list_elem_of_singleton.
Qed.

Lemma in_range i : 0 <= i < count -> i ∈ seqZ 0 count.
Proof. intros Hi. apply elem_of_seqZ. lia. Qed.

Lemma bname_temp i : 0 <= i < count -> bname i ∈ temps.
Proof. intros Hi. apply elem_of_app. left. by apply list_elem_of_fmap_2, in_range. Qed.
Lemma sname_temp i : 0 <= i < count -> sname i ∈ temps.
Proof. intros Hi. apply elem_of_app. right. by apply list_elem_of_fmap_2, in_range. Qed.

Lemma NoDup_map_inj {X} (f : Z -> X) i j :
  NoDup (map f (seqZ 0 count)) -> 0 <= i < count -> 0 <= j < count -> f i = f j -> i = j.
Proof.
  intros Hnd Hi Hj E.
  assert (forall k, 0 <= k < count -> map f (seqZ 0 count) !! Z.to_nat k = Some (f k)) as Hl.
  { intros k Hk. rewrite list_lookup_fmap, (lookup_seqZ_lt 0 count (Z.to_nat k)) by lia. cbn. do 2 f_equal. lia. }
  assert (Z.to_nat i = Z.to_nat j); [|lia].
  eapply NoDup_lookup; [exact Hnd|by apply Hl|]. rewrite E. by apply Hl.
Qed.

Lemma bname_inj i j : 0 <= i < count -> 0 <= j < count -> bname i = bname j -> i = j.
Proof. destruct distinct_parts as (_ & (Hb & _ & _)%NoDup_app & _). by apply NoDup_map_inj. Qed.
Lemma sname_inj i j : 0 <= i < count -> 0 <= j < count -> sname i = sname j -> i = j.
Proof. destruct distinct_parts as (_ & (_ & _ & Hb)%NoDup_app & _). by apply NoDup_map_inj. Qed.
Lemma bname_sname i j : 0 <= i < count -> 0 <= j < count -> bname i <> sname j.
Proof.
  intros Hi Hj E. destruct distinct_parts as (_ & (_ & Hb & _)%NoDup_app & _).
  apply (Hb (bname i)); [by apply list_elem_of_fmap_2, in_range|]. rewrite E. by apply list_elem_of_fmap_2, in_range.
Qed.

(** ** Before the marker is written *)

(** Nothing but temporary chunks differs from the disk at the start. *)
Definition untouched (d : Disk) : Prop := forall n, n ∉ temps -> d !! n = D0 !! n.

Lemma untouched_insert d n bs : n ∈ temps -> untouched d -> untouched (<[n := bs]> d).
Proof. intros Hn Hd m Hm. rewrite lookup_insert_ne by congruence. auto. Qed.
Lemma untouched_delete d n : n ∈ temps -> untouched d -> untouched (delete n d).
Proof. intros Hn Hd m Hm. rewrite lookup_delete_ne by congruence. auto. Qed.

Lemma untouched_canonical d n : n ∈ canonical -> untouched d -> d !! n = D0 !! n.
Proof. intros Hn Hd. apply Hd. by apply distinct_parts. Qed.

(** The old chunks, as the operation reads them. *)
Definition old_chunks (names : list string) : list (string * option (list byte)) := map (fun n => (n, D0 !! n)) names.

Lemma read_old_spec names :
  (forall n, n ∈ names -> n ∈ canonical) ->
  triple untouched (read_old_chunks names)
    (fun r d => match r with Ok bs => bs = old_chunks names /\ untouched d | Err _ => untouched d end) untouched.
Proof.
  intros Hc. induction names as [|n names IH]; cbn [read_old_chunks]; [by apply triple_ret|].
  assert (forall backup, backup = D0 !! n ->
    triple untouched (rbind (read_old_chunks names) (fun bs => mret (Ok ((n, backup) :: bs))))
      (fun r d => match r with Ok bs => bs = old_chunks (n :: names) /\ untouched d | Err _ => untouched d end) untouched) as Hnext.
  { intros backup ->. eapply triple_rbind; [apply IH; intros; apply Hc; by constructor|..].
    - intros bs. apply triple_ret. by intros d [-> ?].
    - done. }
  assert (n ∈ canonical) as Hn by (apply Hc; constructor).
  eapply (triple_catch _ _ _ _ (fun b d => b = bool_decide (is_Some (D0 !! n)) /\ untouched d) untouched).
  - apply triple_chunk_exists; [by apply canonical_valid|done|]. intros d Hd. by rewrite (untouched_canonical d n Hn Hd).
  - done.
  - intros e. by apply triple_ret.
  - intros b. apply triple_pure. intros ->. destruct (bool_decide_reflect (is_Some (D0 !! n))) as [[bs Hbs]|Hno].
    + eapply (triple_catch _ _ _ _ (fun x d => x = bs /\ untouched d) untouched).
      * apply triple_read; [by apply canonical_valid|done|]. intros d Hd. exists bs.
        by rewrite (untouched_canonical d n Hn Hd).
      * done.
      * intros e. by apply triple_ret.
      * intros x. apply triple_pure. intros ->. by apply Hnext.
    + apply Hnext. by apply eq_None_not_Some in Hno.
Qed.

(** Writing the old chunks back, from a disk with [P] to one with [Q]. *)
Definition put_back (d : Disk) (n : string) : Disk :=
  match D0 !! n with
  | Some bs => <[n := bs]> d
  | None => delete n d
  end.

Lemma lookup_put_back d n m : put_back d n !! m = if bool_decide (m = n) then D0 !! n else d !! m.
Proof.
  unfold put_back. destruct (bool_decide_reflect (m = n)) as [->|Hm]; destruct (D0 !! n).
  - apply lookup_insert_eq.
  - apply lookup_delete_eq.
  - by apply lookup_insert_ne.
  - by apply lookup_delete_ne.
Qed.

Lemma restore_all_spec names d C :
  (forall n, n ∈ names -> valid_name n = true) ->
  (forall k, C (foldl put_back d (take k names))) ->
  triple (eq d) (restore_all (old_chunks names)) (fun _ d' => d' = foldl put_back d names) C.
Proof.
  revert d. induction names as [|n names IH]; intros d Hv HC; cbn [old_chunks map restore_all]; [by apply triple_ret; intros ? <-|].
  apply (triple_seq _ _ _ (eq (put_back d n))).
  - pose proof (HC 0%nat) as C0. pose proof (HC 1%nat) as C1. cbn in C0, C1. rewrite take_0 in C1. cbn in C1.
    assert (valid_name n = true) as Hn by (apply Hv; constructor).
    unfold put_back in *. destruct (D0 !! n).
    + apply triple_write; [done|by intros ? <-|]. by intros ? <-.
    + apply triple_delete; [done|by intros ? <-|]. by intros ? <-.
  - apply IH; [intros m Hm; apply Hv; by constructor|]. intros k. by apply (HC (S k)).
Qed.

Lemma foldl_put_back names d m :
  foldl put_back d names !! m = if bool_decide (m ∈ names) then D0 !! m else d !! m.
Proof.
  revert d. induction names as [|n names IH]; intros d; cbn [foldl].
  - by rewrite bool_decide_false by apply not_elem_of_nil.
  - rewrite IH, lookup_put_back. destruct (bool_decide_reflect (m ∈ names)) as [Hm|Hm].
    + rewrite bool_decide_true; [done|by constructor].
    + destruct (bool_decide_reflect (m = n)) as [->|Hne].
      * rewrite bool_decide_true; [done|constructor].
      * rewrite bool_decide_false; [done|]. by intros [?|?]%elem_of_cons.
Qed.

(** Restoring before the marker changes nothing. *)
Lemma put_back_untouched names d : (forall n, n ∈ names -> n ∈ canonical) -> untouched d -> untouched (foldl put_back d names).
Proof.
  intros Hc Hd m Hm. rewrite foldl_put_back. destruct (bool_decide_reflect (m ∈ names)); [done|auto].
Qed.

Lemma restore_untouched :
  triple untouched (restore_chunks (old_chunks canonical)) (fun _ => untouched) untouched.
Proof.
  apply (triple_seq _ _ _ untouched); [|by apply triple_sync]. apply triple_known. intros d0 Hd.
  eapply triple_conseq; [apply (restore_all_spec canonical d0 untouched canonical_valid)|done| |done].
  - intros k. apply put_back_untouched; [|done]. intros n Hn. by apply elem_of_take in Hn as (i & Hi%list_elem_of_lookup_2 & _).
  - intros _ d ->. by apply put_back_untouched.
Qed.

Lemma temps_valid n : n ∈ temps -> valid_name n = true.
Proof. intros [(i & -> & _)%list_elem_of_fmap|(i & -> & _)%list_elem_of_fmap]%elem_of_app; [apply bname_valid|apply sname_valid]. Qed.

(** A failure before the marker leaves the disk untouched, whatever happens meanwhile. *)
Lemma fail_early {A} tr (R : result ReplaceCommandError A -> Disk -> Prop) :
  (forall n, n ∈ tr -> n ∈ temps) -> (forall e d, untouched d -> R (Err e) d) ->
  triple untouched (fail_replace key (old_chunks canonical) None tr) R untouched.
Proof.
  intros Htr HR. apply (triple_bind _ _ _ (fun _ => untouched)); [|intros e; by apply triple_ret; intros; apply HR].
  apply (triple_catch _ _ _ _ (fun _ => untouched) untouched); [apply restore_untouched|done|by intros e; apply triple_ret|]. intros [].
  apply (triple_seq _ _ _ untouched); [|by apply triple_ret].
  apply (triple_seq _ _ _ untouched).
  - apply triple_delete_ignoring; [auto using temps_valid|done|]. intros n d Hn. by apply untouched_delete, Htr.
  - eapply (triple_ignore _ _ (fun _ => untouched)); [by apply triple_sync|done|done].
Qed.

Lemma bnames_temps n : n ∈ map bname (seqZ 0 count) -> n ∈ temps.
Proof. intros Hn. apply elem_of_app. by left. Qed.

(** The backup chunks of [bs] are on the disk. *)
Definition backed_up (bs : list FileReplaceChunkBackup) (d : Disk) : Prop :=
  forall b, b ∈ bs -> match b_backup_name b with
                      | Some n => n ∈ map bname (seqZ 0 count) /\ d !! n = D0 !! b_canonical_name b /\ is_Some (d !! n)
                      | None => D0 !! b_canonical_name b = None
                      end.

(** [K] is kept by writes to the names [f j] with [j] at least [i]. *)
Definition stable (f : Z -> string) (i : Z) (K : Disk -> Prop) : Prop :=
  forall j bs d, i <= j < count -> K d -> K (<[f j := bs]> d).

Lemma write_backups_spec names i tr (K : Disk -> Prop) :
  0 <= i -> i + Z.of_nat (length names) <= count -> (forall n, n ∈ tr -> n ∈ temps) -> stable bname i K ->
  triple (fun d => untouched d /\ K d)
    (write_backups key (old_chunks canonical) node op i (old_chunks names) tr)
    (fun r d => match r with
                | Ok (tr', bs) => (map b_canonical_name bs = names /\ forall n, n ∈ tr' -> n ∈ temps)
                                  /\ untouched d /\ K d /\ backed_up bs d
                | Err _ => untouched d
                end) untouched.
Proof.
  intros Hi Hlen. revert i tr K Hi Hlen. induction names as [|n names IH]; intros i tr K Hi Hlen Htr HK;
    cbn [old_chunks map write_backups].
  { apply triple_ret. intros d [? ?]. split_and!; try done. by intros b Hb%elem_of_nil. }
  cbn [length] in Hlen. destruct (negb (i <=? U32_MAX)); [by apply triple_ret; intros d []|].
  destruct (D0 !! n) as [bytes|] eqn:En.
  - assert (0 <= i < count) as Hir by lia.
    apply (triple_catch _ _ _ _ (fun _ d => untouched d /\ K d /\ d !! bname i = Some bytes) untouched); [|done|..].
    + apply triple_write; [apply bname_valid|by intros d []|]. intros d [Hu Hk].
      assert (untouched (<[bname i := bytes]> d)) by (by apply untouched_insert; [apply bname_temp|]).
      split_and!; [done..|apply HK; [lia|done]|apply lookup_insert_eq].
    + intros e. by apply fail_early.
    + intros []. eapply triple_rbind.
      * apply (IH (i + 1) (tr ++ [bname i]) (fun d => K d /\ d !! bname i = Some bytes)); [lia..| |].
        -- intros m [?| ->%list_elem_of_singleton]%elem_of_app; [auto|by apply bname_temp].
        -- intros j bs d Hj [Hk Hb]. split; [apply HK; [lia|done]|].
           rewrite lookup_insert_ne; [done|]. intros E%bname_inj; lia.
      * intros [tr' bs]. apply triple_ret. intros d ((Hn & Ht) & Hu & (Hk & Hb) & Hbk).
        split_and!; try done; [cbn; by rewrite Hn|].
        intros b [->|Hb']%elem_of_cons; [|by apply Hbk]. cbn. split_and!; [by apply list_elem_of_fmap_2, in_range|by rewrite Hb, En|by rewrite Hb].
      * done.
  - eapply triple_rbind.
    + apply (IH (i + 1) tr K); [lia..|done|]. intros j bs d Hj. apply HK. lia.
    + intros [tr' bs]. apply triple_ret. intros d ((Hn & Ht) & Hu & Hk & Hbk).
      split_and!; try done; [cbn; by rewrite Hn|].
      intros b [->|Hb']%elem_of_cons; [done|by apply Hbk].
    + done.
Qed.

Lemma backups_stable bs : stable sname 0 (backed_up bs).
Proof.
  intros j x d Hj Hd b Hb. specialize (Hd b Hb). destruct (b_backup_name b) as [n|]; [|done].
  destruct Hd as ((i & -> & Hi%elem_of_seqZ)%list_elem_of_fmap & E & Hs). rewrite lookup_insert_ne; [|].
  - split_and!; [apply list_elem_of_fmap_2, elem_of_seqZ; lia|done..].
  - intros En. symmetry in En. revert En. apply bname_sname; lia.
Qed.

(** The chunks [ss] are staged with the contents [encs]. *)
Definition staged_as (encs : list (string * list byte)) (ss : list FileReplaceStagedChunk) (d : Disk) : Prop :=
  Forall2 (fun c s => s_canonical_name s = fst c /\ s_stage_name s ∈ temps /\ d !! s_stage_name s = Some (snd c)) encs ss.

Lemma write_staged_spec encs i tr (K : Disk -> Prop) :
  0 <= i -> i + Z.of_nat (length encs) <= count -> (forall n, n ∈ tr -> n ∈ temps) -> stable sname i K ->
  triple (fun d => untouched d /\ K d)
    (write_staged key (old_chunks canonical) node op i encs tr)
    (fun r d => match r with
                | Ok (tr', ss) => (forall n, n ∈ tr' -> n ∈ temps) /\ untouched d /\ K d /\ staged_as encs ss d
                | Err _ => untouched d
                end) untouched.
Proof.
  intros Hi Hlen. revert i tr K Hi Hlen. induction encs as [|[n enc] encs IH]; intros i tr K Hi Hlen Htr HK;
    cbn [write_staged].
  { apply triple_ret. intros d [? ?]. split_and!; try done. constructor. }
  cbn [length] in Hlen. destruct (negb (i <=? U32_MAX)); [by apply triple_ret; intros d []|].
  assert (0 <= i < count) as Hir by lia.
  apply (triple_catch _ _ _ _ (fun _ d => untouched d /\ K d /\ d !! sname i = Some enc) untouched); [|done|..].
  - apply triple_write; [apply sname_valid|by intros d []|]. intros d [Hu Hk].
    assert (untouched (<[sname i := enc]> d)) by (by apply untouched_insert; [apply sname_temp|]).
    split_and!; [done..|apply HK; [lia|done]|apply lookup_insert_eq].
  - intros e. by apply fail_early.
  - intros []. eapply triple_rbind.
    + apply (IH (i + 1) (tr ++ [sname i]) (fun d => K d /\ d !! sname i = Some enc)); [lia..| |].
      * intros m [?| ->%list_elem_of_singleton]%elem_of_app; [auto|by apply sname_temp].
      * intros j bs d Hj [Hk Hb]. split; [apply HK; [lia|done]|].
        rewrite lookup_insert_ne; [done|]. intros E%sname_inj; lia.
    + intros [tr' ss]. apply triple_ret. intros d (Ht & Hu & (Hk & Hb) & Hss).
      split_and!; try done. constructor; [|done]. cbn. split_and!; [done|by apply sname_temp|done].
    + done.
Qed.

(** The encrypted chunks for [parts], from index [i]. *)
Definition encs_of (i : Z) (parts : list (list byte)) (encs : list (string * list byte)) : Prop :=
  map fst encs = map (blob_chunk_name key node) (seqZ i (Z.of_nat (length parts)))
  /\ Forall2 (fun p c => decrypt (snd c) key (as_bytes (fst c)) = Ok p) parts encs.

(** The cipher takes the parts. *)
Definition parts_seal (parts : list (list byte)) : Prop :=
  forall part name nonce, part ∈ parts -> is_Some (aead_encrypt key nonce (as_bytes name) part).

Lemma encrypt_chunks_spec parts i :
  parts_seal parts ->
  triple untouched (encrypt_chunks key node i parts)
    (fun r d => match r with Ok encs => encs_of i parts encs /\ untouched d | Err _ => untouched d end) untouched.
Proof.
  revert i. induction parts as [|part parts IH]; intros i Hs; cbn [encrypt_chunks].
  { apply triple_ret. intros d Hd. split; [|done]. split; [done|constructor]. }
  destruct (negb (i <=? U32_MAX)); [by apply triple_ret|].
  eapply triple_catch; [apply (triple_encrypt part key _ untouched untouched); [|done]|done|..].
  - intros nonce. apply Hs. constructor.
  - intros e. by apply triple_ret.
  - intros bs. cbv beta. apply triple_pure. intros Hd. eapply triple_rbind.
    + apply (IH (i + 1)). intros p n nonce Hp. apply Hs. by constructor.
    + intros encs. apply triple_ret. intros d [[E Hf] Hu]. split; [|done]. split; [|by constructor].
      cbn [length map fst]. rewrite E, Nat2Z.inj_succ, (seqZ_cons i) by lia. cbn. do 3 f_equal. lia.
    + done.
Qed.

(** ** After the marker is written *)

(** Everything but the chunks of the file, the temporary ones and the marker is as before. *)
Definition framed (d : Disk) : Prop := forall n, n ∉ temps -> n ∉ canonical -> n <> mk -> d !! n = D0 !! n.

Context (t : FileReplaceTransaction).

(** The transaction the operation writes. *)
Record replace_tx : Prop := {
  rt_valid : valid_payload t = true;
  rt_backups : map b_canonical_name (r_backups t) = canonical;
  rt_staged s : s ∈ r_staged_chunks t -> s_stage_name s ∈ temps;
  rt_seals : sealable key (as_bytes mk) (tx_record (P:=FileReplaceParticipant) (replace_tx_id t) Committing t);
}.

Abbreviation record := (tx_record (P:=FileReplaceParticipant) (replace_tx_id t) Committing t).

(** A crash may leave the disk like this: the marker tells how to get the old chunks back. *)
Definition doubt (d : Disk) : Prop := marked key replace_store record d /\ backed_up (r_backups t) d /\ framed d.

(** The disk while a failure is handled. *)
Definition failing (d : Disk) : Prop := backed_up (r_backups t) d /\ framed d.

(** The old state again, without a marker. *)
Definition old_state (d : Disk) : Prop := untouched d /\ d !! mk = None.

Lemma untouched_framed d : untouched d -> framed d.
Proof. intros Hd n Hn _ _. auto. Qed.

Lemma untouched_no_marker d : untouched d -> d !! mk = None.
Proof. intros Hd. rewrite (Hd mk) by apply distinct_parts. apply ready. Qed.

Lemma backup_names_temps d n : backed_up (r_backups t) d -> n ∈ backup_names (r_backups t) -> n ∈ temps.
Proof.
  intros Hb (b & Hin & E)%list_elem_of_omap. specialize (Hb b Hin). rewrite E in Hb. destruct Hb as [? _]. by apply bnames_temps.
Qed.

Context (Ht : replace_tx).

Lemma cleanup_temps_spec (I C : Disk -> Prop) :
  (forall n, n ∈ backup_names (r_backups t) -> n ∈ temps) -> (forall d, I d -> C d) ->
  (forall n d, n ∈ temps -> I d -> I (delete n d)) ->
  triple I (cleanup_file_replace_temporary_chunks t) (fun _ => I) C.
Proof.
  intros Hb HC HI. apply (triple_seq _ _ _ I).
  - apply triple_delete_ignoring; [|done|].
    + intros n (s & -> & Hs)%list_elem_of_fmap. apply temps_valid. by apply (rt_staged Ht).
    + intros n d (s & -> & Hs)%list_elem_of_fmap. apply HI. by apply (rt_staged Ht).
  - apply triple_delete_ignoring; [|done|].
    + intros n Hn. apply temps_valid. auto.
    + intros n d Hn. apply HI. auto.
Qed.

Lemma cleanup_marker_spec (I R C : Disk -> Prop) :
  (forall n, n ∈ backup_names (r_backups t) -> n ∈ temps) -> (forall d, I d -> C d) -> (forall d, R d -> C d) ->
  (forall n d, n ∈ temps -> I d -> I (delete n d)) -> (forall d, I d -> R (delete mk d)) ->
  triple I (cleanup_file_replace_marker key t) (fun _ => R) C.
Proof.
  intros Hb HC HR HI Hm. apply (triple_seq _ _ _ I); [by apply cleanup_temps_spec|].
  apply triple_store_delete; [apply mk_valid|done..].
Qed.

(** The chunks of the file are the old ones; the marker may still be there. *)
Definition restored (d : Disk) : Prop := forall n, n ∉ temps -> n <> mk -> d !! n = D0 !! n.

Lemma restore_failing : calm failing (restore_chunks (old_chunks canonical)) (fun _ => restored).
Proof.
  apply calm_known. intros d0 [_ Hf]. apply (calm_triple _ _ _ (fun _ => True)).
  apply (triple_seq _ _ _ restored); [|by apply triple_sync].
  eapply triple_conseq; [apply (restore_all_spec canonical d0 (fun _ => True) canonical_valid); done|done| |done].
  intros _ d -> n Hn Hm. rewrite foldl_put_back. destruct (bool_decide_reflect (n ∈ canonical)); [done|auto].
Qed.

Lemma clean_restored :
  (forall n, n ∈ backup_names (r_backups t) -> n ∈ temps) ->
  calm restored (cleanup_file_replace_marker key t) (fun _ => old_state).
Proof.
  intros Hb. apply (calm_triple _ _ _ (fun _ => True)). apply (cleanup_marker_spec restored); [done..| |].
  - intros n d Hn Hd m Hm Hmk. rewrite lookup_delete_ne by congruence. auto.
  - intros d Hd. split; [|apply lookup_delete_eq]. intros n Hn. destruct (decide (n = mk)) as [->|Hne].
    + rewrite lookup_delete_eq. by destruct ready.
    + rewrite lookup_delete_ne by done. auto.
Qed.

(** Handling a failure after the marker, without a further fault. *)
Lemma fail_late {A} (R : result ReplaceCommandError A -> Disk -> Prop) :
  (forall e d, old_state d -> R (Err e) d) ->
  calm failing (fail_replace key (old_chunks canonical) (Some t) []) R.
Proof.
  intros HR. apply calm_known. intros d0 Hd0. pose proof Hd0 as [Hb _].
  apply (calm_bind _ _ _ (fun _ => old_state)); [|intros e; apply calm_ret; auto].
  apply (calm_catch _ _ _ _ (fun _ => restored)).
  - eapply calm_conseq; [apply restore_failing|by intros d <-|done].
  - intros []. apply (calm_seq _ _ _ old_state); [|by apply calm_ret]. apply calm_ignore, clean_restored.
    intros n. by eapply backup_names_temps.
Qed.

(** What a crash leaves behind. *)
Definition crashed (d : Disk) : Prop := old_state d \/ doubt d.

Lemma doubt_failing d : doubt d -> failing d.
Proof. by intros (_ & ? & ?). Qed.

(** A step that keeps the transaction in doubt may fail or crash. *)
Lemma single_doubt {A} P (c : IO A) Q : triple P c Q doubt -> single P c Q failing crashed.
Proof.
  intros Hc. eapply single_conseq; [apply single_triple, Hc|done|done|apply doubt_failing|by right].
Qed.

Lemma doubt_change d d' n :
  n ∈ canonical -> (forall m, m <> n -> d' !! m = d !! m) -> doubt d -> doubt d'.
Proof.
  intros Hn E (Hm & Hb & Hf). destruct distinct_parts as (_ & _ & Hct & Hmc & _).
  split_and!.
  - destruct Hm as (Ha & bs & Ebs & Ho). split; [done|]. exists bs. rewrite E; [done|]. intros <-. exact (Hmc Hn).
  - intros b Hb'. specialize (Hb b Hb'). destruct (b_backup_name b) as [bn|]; [|done]. destruct Hb as (Htm & Eb & Hs).
    assert (bn <> n) by (intros ->; by apply (Hct n Hn), bnames_temps). rewrite E by done. done.
  - intros m Hm1 Hm2 Hm3. rewrite E; [by apply Hf|]. by intros ->.
Qed.

Lemma staged_change d d' n encs ss :
  n ∈ canonical -> (forall m, m <> n -> d' !! m = d !! m) -> staged_as encs ss d -> staged_as encs ss d'.
Proof.
  intros Hn E Hs. destruct distinct_parts as (_ & _ & Hct & _ & _). eapply Forall2_impl; [exact Hs|].
  intros c s (E1 & E2 & E3). split_and!; [done..|]. rewrite E; [done|]. intros Es. apply (Hct n); [done|]. by rewrite <- Es.
Qed.

Lemma install_spec encs ss (K : Disk -> Prop) :
  (forall n, n ∈ map fst encs -> n ∈ canonical) -> NoDup (map fst encs) ->
  (forall n bs d, n ∈ map fst encs -> K d -> K (<[n := bs]> d)) ->
  single (fun d => doubt d /\ staged_as encs ss d /\ K d) (install_staged key (old_chunks canonical) t ss)
    (fun r d => match r with
                | Ok _ => doubt d /\ K d /\ Forall (fun c => d !! fst c = Some (snd c)) encs
                | Err _ => old_state d
                end) (fun _ => False) crashed.
Proof.
  revert ss K. induction encs as [|[n enc] encs IH]; intros ss K Hc Hnd HK; destruct ss as [|s ss]; cbn [install_staged].
  { apply single_ret. by intros d (? & _ & ?). }
  1,2: intros w _ (_ & Hs & _); by inversion Hs.
  set (P0 (d : Disk) := doubt d /\ staged_as ((n, enc) :: encs) (s :: ss) d /\ K d).
  assert (n ∈ canonical) as Hn by (apply Hc; constructor).
  apply (single_catch _ _ _ _ (fun x d => (x = enc /\ s_canonical_name s = n) /\ P0 d) failing).
  - apply single_doubt. apply triple_known. intros d0 (Hd & Hs & Hk).
    inversion Hs as [|? ? ? ? (E1 & E2 & E3) Hs']; subst.
    apply triple_read; [by apply temps_valid|by intros ? <-|]. intros d <-. exists enc. by split.
  - intros e. by apply fail_late.
  - intros x. cbv beta. apply single_pure. intros [-> En].
    apply (single_catch _ _ _ _ (fun _ d => doubt d /\ staged_as encs ss d /\ K d /\ d !! n = Some enc) failing).
    + apply single_doubt. rewrite En. apply triple_write; [by apply canonical_valid|by intros d []|].
      intros d (Hd & Hs & Hk). inversion Hs as [|? ? ? ? _ Hs']; subst.
      assert (forall m, m <> s_canonical_name s -> <[s_canonical_name s := enc]> d !! m = d !! m) as E
        by (intros m Hm; by apply lookup_insert_ne).
      split_and!; [by eapply doubt_change..|by eapply staged_change|apply HK; [constructor|done]|apply lookup_insert_eq].
    + intros e. by apply fail_late.
    + intros []. apply NoDup_cons in Hnd as [Hnn Hnd].
      eapply single_conseq; [apply (IH ss (fun d => K d /\ d !! n = Some enc))|..].
      * intros m Hm. apply Hc. by constructor.
      * done.
      * intros m bs d Hm [Hk Hx]. split; [apply HK; [by constructor|done]|].
        rewrite lookup_insert_ne; [done|]. intros ->. done.
      * by intros d (? & ? & ? & ?).
      * intros [[]|e] d; [|done]. intros (? & (? & ?) & ?). split_and!; [done..|]. by constructor.
      * done.
      * done.
Qed.

Lemma tail_spec names (K : Disk -> Prop) :
  (forall n, n ∈ names -> n ∈ canonical) -> (forall n d, n ∈ names -> K d -> K (delete n d)) ->
  single (fun d => doubt d /\ K d) (delete_tail key (old_chunks canonical) t names)
    (fun r d => match r with
                | Ok _ => doubt d /\ K d /\ Forall (fun n => d !! n = None) names
                | Err _ => old_state d
                end) (fun _ => False) crashed.
Proof.
  revert K. induction names as [|n names IH]; intros K Hc HK; cbn [delete_tail].
  { apply single_ret. by intros d []. }
  assert (n ∈ canonical) as Hn by (apply Hc; constructor).
  apply (single_catch _ _ _ _ (fun _ d => doubt d /\ K d /\ d !! n = None) failing).
  - apply single_doubt. apply triple_delete; [by apply canonical_valid|by intros d []|]. intros d [Hd Hk].
    assert (doubt (delete n d)) by (eapply (doubt_change d _ n); [done|by intros; apply lookup_delete_ne|done]).
    split_and!; [done..|apply HK; [constructor|done]|apply lookup_delete_eq].
  - intros e. by apply fail_late.
  - intros []. eapply single_conseq; [apply (IH (fun d => K d /\ d !! n = None))|..].
    + intros m Hm. apply Hc. by constructor.
    + intros m d Hm [Hk Hx]. split; [apply HK; [by constructor|done]|].
      destruct (decide (m = n)) as [->|Hne]; [apply lookup_delete_eq|by rewrite lookup_delete_ne].
    + by intros d (? & ? & ?).
    + intros [[]|e] d; [|done]. intros (? & (? & ?) & ?). split_and!; [done..|]. by constructor.
    + done.
    + done.
Qed.

(** Writing the marker. *)
Lemma marker_spec encs ss :
  r_staged_chunks t = ss ->
  single (fun d => untouched d /\ backed_up (r_backups t) d /\ staged_as encs ss d)
    (write_file_replace_marker key t)
    (fun _ d => doubt d /\ staged_as encs ss d) failing crashed.
Proof.
  intros Ess. set (P (d : Disk) := untouched d /\ backed_up (r_backups t) d /\ staged_as encs ss d).
  assert (forall d d', P d -> delete mk d' = delete mk d -> backed_up (r_backups t) d' /\ framed d' /\ staged_as encs ss d') as Hkeep.
  { intros d d' (Hu & Hb & Hs) E. destruct distinct_parts as (_ & _ & _ & _ & Hmt).
    assert (forall n, n <> mk -> d' !! n = d !! n) as El.
    { intros n Hn. apply (f_equal (lookup n)) in E. by rewrite !lookup_delete_ne in E. }
    split_and!.
    - intros b Hb'. specialize (Hb b Hb'). destruct (b_backup_name b) as [bn|]; [|done]. destruct Hb as (Htm & Eb & Hsm).
      rewrite El by (intros ->; by apply bnames_temps in Htm). done.
    - intros n Hn Hc Hm. rewrite El by done. by apply Hu.
    - eapply Forall2_impl; [exact Hs|]. intros c s (E1 & E2 & E3). split_and!; [done..|].
      rewrite El; [done|]. intros Em. apply Hmt. by rewrite <- Em. }
  set (X (d : Disk) := failing d /\ crashed d).
  eapply single_conseq; [apply single_triple, (triple_write_record key replace_store _ _ t P X)|done|..].
  - apply mk_valid.
  - apply (rt_seals Ht).
  - done.
  - apply (rt_valid Ht).
  - intros d Hd. pose proof Hd as (Hu & Hb & Hs). split; [split; [done|by apply untouched_framed]|].
    left. split; [done|by apply untouched_no_marker].
  - intros d d' Hd E Hm. destruct (Hkeep d d' Hd E) as (Hb & Hf & _). split; [done|]. by right.
  - intros _ d' (Hm & d & Hd & E). destruct (Hkeep d d' Hd E) as (Hb & Hf & Hs). done.
  - by intros d [].
  - by intros d [].
Qed.
End Atomicity.

(** ** The whole replacement *)

Section Whole.
Context `{cr : Crypto} {crl : CryptoLaws cr}.
Context `{Serde FileReplaceTransaction} `{SerdeLaw (DurableTxRecord FileReplaceTransaction)}.
Context (key : list byte) (op now node old_size new_size old_chunk_size new_chunk_size : Z) (content : list byte)
  (old_revision : Z) (D0 : Disk).

Definition counts_to (size chunk_size count : Z) : Prop := chunk_count size chunk_size = Ok count.

(** What the operation is called with: the content has the announced size, the counts fit,
    the cipher takes the data, the names are distinct and no transaction is pending. *)
Record replace_call (old_count new_count : Z) : Prop := {
  rc_old : counts_to old_size old_chunk_size old_count;
  rc_new : counts_to new_size new_chunk_size new_count;
  rc_size : Z.of_nat (length content) = new_size;
  rc_chunk : 0 < new_chunk_size;
  rc_bound : new_size + new_chunk_size <= U64_MAX;
  rc_counts : 0 <= old_count;
  rc_seals : parts_seal key (chunks_of (Z.to_nat new_chunk_size) content);
  rc_marker : forall x : DurableTxRecord FileReplaceTransaction, sealable key (as_bytes (file_replace_tx_marker_name key)) x;
  rc_ready : replace_ready key node op (Z.max old_count new_count) D0;
}.

Context (old_count new_count : Z) (call : replace_call old_count new_count).
Abbreviation count := (Z.max old_count new_count).
Abbreviation parts := (chunks_of (Z.to_nat new_chunk_size) content).
Abbreviation new_revision := (next_source_revision old_revision now).

Lemma parts_count : Z.of_nat (length parts) = new_count.
Proof.
  destruct call as [_ Hn Hs Hc Hb _ _ _ _]. unfold counts_to, chunk_count in Hn.
  rewrite length_chunks by lia. rewrite Z2Nat.id by lia.
  destruct (Z.eqb_spec new_size 0) as [E|E].
  - injection Hn as <-. rewrite E in *. apply Z.div_small. lia.
  - destruct (Z.eqb_spec new_chunk_size 0); [lia|].
    replace (u64_saturating_add new_size (u64_saturating_sub new_chunk_size 1)) with (new_size + (new_chunk_size - 1)) in Hn
      by (unfold u64_saturating_add, u64_saturating_sub; lia).
    destruct (_ <=? U32_MAX); [|done]. injection Hn as <-. by rewrite Hs.
Qed.

(** The chunks of the file hold the new content. *)
Definition new_state (d : Disk) : Prop :=
  (forall i part, parts !! i = Some part -> exists bs, d !! blob_chunk_name key node (Z.of_nat i) = Some bs
     /\ decrypt bs key (as_bytes (blob_chunk_name key node (Z.of_nat i))) = Ok part)
  /\ (forall i, new_count <= i < count -> d !! blob_chunk_name key node i = None).

(** The transaction of this call. *)
Definition own_tx (t : FileReplaceTransaction) : Prop :=
  replace_tx key node op count t /\ r_node_id t = node /\ r_new_source_revision t = new_revision.

Definition may_crash (d : Disk) : Prop :=
  old_state key node op count D0 d \/ exists t, own_tx t /\ doubt key node op count D0 t d.

Lemma encs_installed encs (d : Disk) :
  encs_of key node 0 parts encs -> Forall (fun c => d !! fst c = Some (snd c)) encs ->
  forall i part, parts !! i = Some part -> exists bs, d !! blob_chunk_name key node (Z.of_nat i) = Some bs
     /\ decrypt bs key (as_bytes (blob_chunk_name key node (Z.of_nat i))) = Ok part.
Proof.
  intros [En Hf] Hd i part Hi. destruct (Forall2_lookup_l _ _ _ _ _ Hf Hi) as ([n bs] & Ei & Hdec). cbn in Hdec.
  assert (n = blob_chunk_name key node (Z.of_nat i)) as ->.
  { apply (f_equal (fun l : list string => l !! i)) in En. rewrite !list_lookup_fmap, Ei in En. cbn in En.
    rewrite (lookup_seqZ_lt 0) in En by (apply lookup_lt_Some in Hi; lia). cbn in En. injection En as ->. done. }
  exists bs. split; [|done]. rewrite Forall_forall in Hd. by apply (Hd _ (list_elem_of_lookup_2 _ _ _ Ei)).
Qed.

Lemma part_names_elem i from to : from <= i < to -> blob_chunk_name key node i ∈ part_names key node from to.
Proof. intros Hi. apply list_elem_of_fmap_2, elem_of_seqZ. lia. Qed.

(** From the marker on. *)
Definition commit (backups : list (string * option (list byte))) (t : FileReplaceTransaction) : RIO ChunkReplacement :=
  catch (write_file_replace_marker key t) (fun _ => fail_replace key backups (Some t) []) (fun _ =>
  rbind (install_staged key backups t (r_staged_chunks t)) (fun _ =>
  rbind (delete_tail key backups t (part_names key node new_count count)) (fun _ =>
  catch sync (fun _ => fail_replace key backups (Some t) []) (fun _ =>
  mret (Ok (mkReplacement backups t now new_revision)))))).

Abbreviation canonical := (part_names key node 0 count).
Abbreviation outcome := (fun (r : result ReplaceCommandError ChunkReplacement) (d : Disk) =>
  match r with
  | Ok rep => own_tx (cr_transaction rep) /\ doubt key node op count D0 (cr_transaction rep) d /\ new_state d
              /\ rep = mkReplacement (old_chunks D0 canonical) (cr_transaction rep) now new_revision
  | Err _ => old_state key node op count D0 d
  end).

Lemma canonical_inj i j :
  0 <= i < count -> 0 <= j < count -> blob_chunk_name key node i = blob_chunk_name key node j -> i = j.
Proof.
  pose proof (distinct_parts _ _ _ _ _ (rc_ready _ _ call)) as (Hnd & _). apply NoDup_map_inj.
  unfold part_names in Hnd. by rewrite Z.sub_0_r in Hnd.
Qed.

(** The names of the new chunks. *)
Lemma encs_names encs n :
  encs_of key node 0 parts encs -> n ∈ map fst encs -> exists i, n = blob_chunk_name key node i /\ 0 <= i < new_count.
Proof.
  intros [-> _] (i & -> & Hi%elem_of_seqZ)%list_elem_of_fmap. exists i. pose proof parts_count. split; [done|lia].
Qed.

Lemma encs_distinct encs : encs_of key node 0 parts encs -> NoDup (map fst encs).
Proof.
  intros [-> _]. pose proof parts_count. pose proof (distinct_parts _ _ _ _ _ (rc_ready _ _ call)) as (Hnd & _).
  unfold part_names in Hnd. rewrite Z.sub_0_r in Hnd.
  replace count with (Z.of_nat (length parts) + (count - Z.of_nat (length parts))) in Hnd by lia.
  rewrite seqZ_app, fmap_app in Hnd by lia. by apply NoDup_app in Hnd as (? & _).
Qed.

Lemma tail_elem n : n ∈ part_names key node new_count count -> exists i, n = blob_chunk_name key node i /\ new_count <= i < count.
Proof. intros (i & -> & Hi%elem_of_seqZ)%list_elem_of_fmap. exists i. split; [done|lia]. Qed.

Lemma new_count_nonneg : 0 <= new_count.
Proof. rewrite <- parts_count. lia. Qed.

Lemma tail_keeps encs n (d : Disk) :
  encs_of key node 0 parts encs -> n ∈ part_names key node new_count count ->
  Forall (fun c => d !! fst c = Some (snd c)) encs -> Forall (fun c => delete n d !! fst c = Some (snd c)) encs.
Proof.
  intros He (i & -> & Hi)%tail_elem Hd. pose proof new_count_nonneg. apply Forall_forall. intros c Hc. rewrite Forall_forall in Hd.
  rewrite lookup_delete_ne; [by apply Hd|]. intros E.
  destruct (encs_names encs (fst c) He) as (j & Ej & Hj); [by apply list_elem_of_fmap_2|].
  rewrite Ej in E. apply canonical_inj in E; lia.
Qed.

Lemma commit_spec t encs :
  own_tx t -> encs_of key node 0 parts encs ->
  single (fun d => untouched key node op count D0 d /\ backed_up key node op count D0 (r_backups t) d
                   /\ staged_as key node op count encs (r_staged_chunks t) d)
    (commit (old_chunks D0 canonical) t) outcome (fun _ => False) may_crash.
Proof.
  intros Hown Henc. pose proof (rc_ready _ _ call) as Hr. pose proof Hown as [Htx _]. pose proof new_count_nonneg.
  eapply (single_conseq _ _ _ outcome outcome (fun _ => False) (fun _ => False) _ (crashed key node op count D0 t));
    [|intros d Hd; exact Hd|done|done|intros d [?|?]; [by left|right; eauto]].
  eapply single_catch; [by apply marker_spec| |].
  { intros e. by apply fail_late. }
  intros []. eapply (single_rbind _ _ _ (fun _ d => doubt key node op count D0 t d /\ Forall (fun c => d !! fst c = Some (snd c)) encs)
    (old_state key node op count D0)); [|intros []|done].
  { eapply single_conseq; [apply (install_spec _ _ _ _ _ Hr _ Htx encs (r_staged_chunks t) (fun _ => True))|..].
    - intros n (i & -> & Hi)%(encs_names _ _ Henc). apply part_names_elem. lia.
    - by apply encs_distinct.
    - done.
    - by intros d [? ?].
    - intros [[]|e] d; [|done]. by intros (? & _ & ?).
    - done.
    - done. }
  eapply (single_rbind _ _ _ (fun _ d => doubt key node op count D0 t d /\ new_state d)
    (old_state key node op count D0)); [|intros []|done].
  - eapply single_conseq; [apply (tail_spec _ _ _ _ _ Hr _ Htx (part_names key node new_count count)
        (fun d => Forall (fun c => d !! fst c = Some (snd c)) encs))|..].
    + intros n (i & -> & Hi)%tail_elem. apply part_names_elem. lia.
    + intros n d. by apply tail_keeps.
    + done.
    + intros [[]|e] d; [|done]. intros (Hd & Hin & Htl). split; [done|]. split; [by eapply encs_installed|].
      intros i Hi. rewrite Forall_forall in Htl. apply Htl, part_names_elem. lia.
    + done.
    + done.
  - eapply single_catch; [eapply (single_doubt key node op count D0 t); apply (triple_sync (fun d => doubt key node op count D0 t d /\ new_state d))| |].
    + by intros d [].
    + intros e. by apply fail_late.
    + intros []. apply single_ret. intros d [Hd Hn]. by split_and!.
Qed.

Lemma next_revision_pos a b : 0 < next_source_revision a b.
Proof. unfold next_source_revision. lia. Qed.

(** A step before the marker. *)
Lemma single_early {A} P (c : IO A) Q :
  triple P c Q (untouched key node op count D0) -> single P c Q may_crash may_crash.
Proof.
  intros Hc. assert (forall d, untouched key node op count D0 d -> may_crash d) as Hu.
  { intros d Hd. left. split; [done|]. eapply untouched_no_marker; [apply call|done]. }
  eapply single_conseq; [apply single_triple, Hc|auto..].
Qed.

(** From the sync of the staged chunks on. *)
Lemma staged_spec tr encs bs ss :
  (forall n, n ∈ tr -> n ∈ temps key node op count) -> encs_of key node 0 parts encs ->
  let t := mkReplaceTx FILE_REPLACE_TX_VERSION node old_revision new_revision bs ss in
  own_tx t ->
  single (fun d => untouched key node op count D0 d /\ backed_up key node op count D0 bs d
                   /\ staged_as key node op count encs ss d)
    (catch sync (fun _ => fail_replace key (old_chunks D0 canonical) None tr)
       (fun _ => commit (old_chunks D0 canonical) t)) outcome may_crash may_crash.
Proof.
  intros Htr Henc t Ht. pose proof (rc_ready _ _ call) as Hr.
  set (P (d : Disk) := untouched key node op count D0 d /\ backed_up key node op count D0 bs d /\ staged_as key node op count encs ss d).
  apply (single_catch _ _ _ _ (fun _ => P) (untouched key node op count D0)).
  - eapply single_conseq; [apply single_triple, (triple_sync P (untouched key node op count D0))|..]; try done.
    + by intros d [].
    + intros d Hd. left. split; [done|]. by eapply untouched_no_marker.
  - intros e. eapply calm_triple, fail_early; [done..|]. intros e' d Hd. split; [done|]. by eapply untouched_no_marker.
  - intros []. eapply single_conseq; [by apply (commit_spec t encs)|done..].
Qed.

Lemma replace_spec :
  single (eq D0)
    (replace_chunks key op now node old_size new_size old_chunk_size new_chunk_size content old_revision)
    outcome may_crash may_crash.
Proof.
  pose proof call as [Eo En Hs Hc Hb Hcnt Hseal Hmk Hr]. pose proof new_count_nonneg. pose proof parts_count.
  assert (forall d, untouched key node op count D0 d -> old_state key node op count D0 d) as Hold.
  { intros d Hd. split; [done|]. by eapply untouched_no_marker. }
  set (U := untouched key node op count D0) in *.
  unfold counts_to in Eo, En. unfold replace_chunks. rewrite Eo, En.
  eapply (single_conseq _ U); [|by intros d <- n _|intros ? ? Hd; exact Hd|intros ? Hd; exact Hd..].
  apply (single_rbind _ _ _ (fun x d => x = old_count /\ U d) U); [by apply single_ret| |auto].
  intros x. apply single_pure. intros ->.
  apply (single_rbind _ _ _ (fun x d => x = new_count /\ U d) U); [by apply single_ret| |auto].
  intros x. apply single_pure. intros ->. cbv zeta.
  apply (single_rbind _ _ _ (fun bs d => bs = old_chunks D0 canonical /\ U d) U); [by eapply single_early, read_old_spec| |auto].
  intros backups. apply single_pure. intros ->.
  apply (single_rbind _ _ _ (fun encs d => encs_of key node 0 parts encs /\ U d) U); [by eapply single_early, encrypt_chunks_spec| |auto].
  intros encs. apply single_pure. intros Henc.
  apply (single_rbind _ _ _ (fun x d => (map b_canonical_name x.2 = canonical /\ forall n, n ∈ x.1 -> n ∈ temps key node op count)
      /\ U d /\ backed_up key node op count D0 x.2 d) U); [| |auto].
  { eapply single_early. eapply triple_conseq; [apply (write_backups_spec _ _ _ _ _ Hr canonical 0 [] (fun _ => True))|..].
    - lia.
    - unfold part_names. rewrite length_map, length_seqZ. lia.
    - by intros n Hn%elem_of_nil.
    - done.
    - by intros d Hd.
    - intros [[tr bs]|e] d; [|done]. by intros (? & ? & _ & ?).
    - done. }
  intros [tr bs]. apply single_pure. cbn [fst snd]. intros [Ebs Htr].
  apply (single_rbind _ _ _ (fun x d => (forall n, n ∈ x.1 -> n ∈ temps key node op count)
      /\ U d /\ backed_up key node op count D0 bs d /\ staged_as key node op count encs x.2 d) U); [| |auto].
  { eapply single_early. eapply triple_conseq; [apply (write_staged_spec _ _ _ _ _ Hr encs 0 tr (backed_up key node op count D0 bs))|..].
    - lia.
    - destruct Henc as [Hn _]. apply (f_equal length) in Hn. rewrite !length_map, length_seqZ in Hn. lia.
    - done.
    - by apply backups_stable.
    - done.
    - intros [[tr' ss]|e] d; [|done]. by intros (? & ? & ? & ?).
    - done. }
  intros [tr' ss]. apply single_pure. cbn [fst snd]. intros Htr'.
  apply (single_fact (forall s, s ∈ ss -> s_stage_name s ∈ temps key node op count)).
  { intros d (_ & _ & Hss) s Hin. apply list_elem_of_lookup in Hin as [i Hi].
    by destruct (Forall2_lookup_r _ _ _ _ _ Hss Hi) as (c & _ & _ & ? & _). }
  intros Hss. apply (staged_spec tr' encs bs ss); [done..|].
  split_and!; [|done..]. split; cbn; [|done|done|apply Hmk].
  unfold valid_payload. cbn. apply Z.ltb_lt, next_revision_pos.
Qed.
End Whole.
