(* ===== verification/FileReplaceRecover.v ===== *)
(** * Recovery of a replacement

    The recovery at the next unlock, after a replacement that met at most one fault, leaves
    the file with its old chunks, or with the new ones where the catalog has the new
    revision. A recovery that is itself interrupted after it removed the backups can never
    succeed again. *)

From Stdlib Require Import Strings.Byte Ascii String.
From stdpp Require Import base countable gmap strings list.
From S2P Require Import Prelude.
From S2P Require Import CatalogNode.
From S2P Require Import CatalogManager.
From S2P Require Import Bytes.
From S2P Require Import Storage.
From S2P Require Import Crypto.
From S2P Require Import IoLogic.
From S2P Require Import DurableTx.
From S2P Require Import Encoding.
From S2P Require Import FileReplace.
From S2P Require Import FileReplaceSafe.
Open Scope Z_scope.

Section Recovery.
Context `{cr : Crypto} {crl : CryptoLaws cr}.
Context `{Serde FileReplaceTransaction} `{SerdeLaw (DurableTxRecord FileReplaceTransaction)}.
Context (key : list byte) (node op count : Z) (D0 : Disk) (ready : replace_ready key node op count D0).
Context (catalog : CatalogManager).

Abbreviation mk := (file_replace_tx_marker_name key).
Abbreviation canonical := (part_names key node 0 count).
Abbreviation temporary := (temps key node op count).
Abbreviation untouched := (untouched key node op count D0).
Abbreviation framed := (framed key node op count D0).
Abbreviation backed_up := (backed_up key node op count D0).
Abbreviation doubt := (doubt key node op count D0).
Abbreviation recover := (recover_file_replace_transaction key catalog).
Abbreviation record t := (tx_record (P:=FileReplaceParticipant) (replace_tx_id t) Committing t).
Abbreviation revision t := (node_revision catalog (r_node_id t)).
Abbreviation participant t := (mkReplaceParticipant (Some (revision t))).

(** Nothing pending: nothing to do. *)
Lemma recover_none : triple (fun d => d !! mk = None /\ d = D0) recover (fun _ d => d = D0) (fun _ => True).
Proof.
  set (P (d : Disk) := d !! mk = None /\ d = D0).
  assert (forall d, P d -> d !! mk = None) as Hp by (by intros d []).
  unfold recover_file_replace_transaction, read_file_replace_marker, read_record, read_legacy_payload.
  eapply triple_bind; [apply (triple_read_unmarked _ _ P); [apply mk_valid|done..]|].
  intros o. apply triple_pure. intros ->.
  apply (triple_bind _ _ _ (fun o d => o = None /\ P d)).
  - apply (triple_bind _ _ _ (fun o d => o = None /\ P d)).
    + eapply triple_bind; [apply (triple_read_plain_unmarked _ _ P); [apply mk_valid|done..]|].
      intros o. apply triple_pure. intros ->. by apply triple_ret.
    + intros o. apply triple_pure. intros ->. apply (triple_bind _ _ _ (fun o d => o = None /\ P d)).
      * eapply triple_bind; [apply (triple_read_plain_unmarked _ _ P); [apply mk_valid|done..]|].
        intros o. apply triple_pure. intros ->. by apply triple_ret.
      * intros o. apply triple_pure. intros ->. by apply triple_ret.
  - intros o. apply triple_pure. intros ->. apply triple_ret. by intros d [].
Qed.

Lemma put_back_backed_up bs d n : n ∈ canonical -> backed_up bs d -> backed_up bs (put_back D0 d n).
Proof.
  intros Hn Hd b Hb. specialize (Hd b Hb). destruct (b_backup_name b) as [bn|]; [|done].
  destruct Hd as (Ht & E & Hs). rewrite lookup_put_back, bool_decide_false; [done|].
  intros ->. destruct (distinct_parts _ _ _ _ _ ready) as (_ & _ & Hct & _). by apply (Hct n Hn), bnames_temps.
Qed.

Lemma restore_backups_spec bs d :
  (forall n, n ∈ map b_canonical_name bs -> n ∈ canonical) -> backed_up bs d ->
  triple (eq d) (restore_backups bs) (fun _ d' => d' = foldl (put_back D0) d (map b_canonical_name bs)) (fun _ => True).
Proof.
  revert d. induction bs as [|b bs IH]; intros d Hc Hd; cbn [restore_backups map foldl]; [by apply triple_ret|].
  assert (b_canonical_name b ∈ canonical) as Hn by (apply Hc; constructor).
  pose proof (Hd b ltac:(constructor)) as Hb.
  apply (triple_seq _ _ _ (eq (put_back D0 d (b_canonical_name b)))).
  - unfold put_back. destruct (b_backup_name b) as [bn|].
    + destruct Hb as (Ht & E & [bytes Hs]). rewrite <- E, Hs.
      apply (triple_bind _ _ _ (fun x d' => x = bytes /\ d = d')).
      * apply triple_read; [apply (temps_valid key node op count), bnames_temps, Ht|done|]. intros ? <-. eauto.
      * intros x. apply triple_pure. intros ->. apply triple_write; [by eapply canonical_valid|done|]. by intros ? <-.
    + rewrite Hb. apply triple_delete; [by eapply canonical_valid|done|]. by intros ? <-.
  - apply IH; [intros n ?; apply Hc; by constructor|]. apply put_back_backed_up; [done|].
    intros b' Hb'. apply Hd. by constructor.
Qed.

(** A pending transaction: the chunks are decided on, the temporary ones deleted, then the
    marker. *)
Lemma recover_marked t d0 (M R : Disk -> Prop) :
  replace_tx key node op count t -> marked key replace_store (record t) d0 ->
  (forall n, n ∈ backup_names (r_backups t) -> n ∈ temporary) ->
  triple (eq d0) (recover_committing (participant t) (Some key) (record t)) (fun _ => M) (fun _ => True) ->
  (forall n d, n ∈ temporary -> M d -> M (delete n d)) -> (forall d, M d -> R (delete mk d)) ->
  triple (eq d0) recover (fun _ => R) (fun _ => True).
Proof.
  intros Ht Hm Hb Hrec HM HR. unfold recover_file_replace_transaction.
  eapply triple_bind; [apply (triple_read_marked _ _ (record t) (eq d0)); [apply mk_valid|by intros ? <-|done]|].
  intros o. apply triple_pure. intros ->. unfold recover_participant.
  eapply triple_bind; [apply (triple_read_marked _ (participant t) (record t) (eq d0)); [apply mk_valid|by intros ? <-|done]|].
  intros o. apply triple_pure. intros ->. apply (triple_seq _ _ _ M).
  - apply (triple_seq _ _ _ M); [exact Hrec|]. apply (triple_seq _ _ _ M); [|by apply triple_sync].
    by apply (cleanup_temps_spec key node op count t Ht M).
  - apply triple_store_delete; [apply mk_valid|done..].
Qed.

Lemma recover_old t d0 :
  replace_tx key node op count t -> revision t < r_new_source_revision t -> doubt t d0 ->
  triple (eq d0) recover (fun _ => untouched) (fun _ => True).
Proof.
  intros Ht Hr Hd. pose proof Hd as (Hmd & Hb & Hf). pose proof (rt_backups _ _ _ _ _ Ht) as Ec.
  apply (recover_marked t d0 (fun d => forall n, n ∉ temporary -> n <> mk -> d !! n = D0 !! n)); [done..| | | |].
  - intros n. by eapply backup_names_temps.
  - cbn. rewrite (proj2 (Z.leb_gt _ _)) by lia. apply (triple_seq _ _ _ (fun d => forall n, n ∉ temporary -> n <> mk -> d !! n = D0 !! n)); [|by apply triple_sync].
    eapply triple_conseq; [apply (restore_backups_spec (r_backups t) d0); [by rewrite Ec|done]|done| |done].
    intros _ d -> n Hn Hm. rewrite Ec, foldl_put_back. destruct (bool_decide_reflect (n ∈ canonical)); [done|by apply Hf].
  - intros n d Hn Hd' m Hm Hmk. rewrite lookup_delete_ne by congruence. auto.
  - intros d Hd' n Hn. destruct (decide (n = mk)) as [->|Hne].
    + rewrite lookup_delete_eq. symmetry. apply ready.
    + rewrite lookup_delete_ne by done. auto.
Qed.

(** With the new revision in the catalog the chunks stay as they are; the backups are not
    needed. *)
Lemma recover_new t d0 :
  replace_tx key node op count t -> r_new_source_revision t <= revision t ->
  marked key replace_store (record t) d0 -> (forall n, n ∈ backup_names (r_backups t) -> n ∈ temporary) ->
  triple (eq d0) recover
    (fun _ d => d !! mk = None /\ forall n, n ∉ temporary -> n <> mk -> d !! n = d0 !! n) (fun _ => True).
Proof.
  intros Ht Hr Hm Hb. apply (recover_marked t d0 (fun d => forall n, n ∉ temporary -> n <> mk -> d !! n = d0 !! n)); [done..| | |].
  - cbn. rewrite (proj2 (Z.leb_le _ _)) by lia. apply triple_ret. by intros ? <-.
  - intros n d Hn Hk m Hm' Hmk. rewrite lookup_delete_ne by congruence. auto.
  - intros d Hk. split; [apply lookup_delete_eq|]. intros m Hm' Hmk. rewrite lookup_delete_ne by congruence. auto.
Qed.
End Recovery.

(** ** The replacement and the next recovery *)

Section Atomic.
Context `{cr : Crypto} {crl : CryptoLaws cr}.
Context `{Serde FileReplaceTransaction} `{SerdeLaw (DurableTxRecord FileReplaceTransaction)}.
Context (key : list byte) (op now node old_size new_size old_chunk_size new_chunk_size : Z) (content : list byte)
  (old_revision : Z) (D0 : Disk) (old_count new_count : Z).
Abbreviation call := (replace_call key op node old_size new_size old_chunk_size new_chunk_size content D0 old_count new_count).
Abbreviation count := (Z.max old_count new_count).
Abbreviation mk := (file_replace_tx_marker_name key).
Abbreviation canonical := (part_names key node 0 count).
Abbreviation new_revision := (next_source_revision old_revision now).

(** What the recovery makes of the disk [d1] the replacement left with the result [r]. *)
Record recovered (catalog : CatalogManager) (r : result stop (result ReplaceCommandError ChunkReplacement))
    (d2 : Disk) : Prop := {
  rv_marker : d2 !! mk = None;
  rv_frame n : n ∉ temps key node op count -> n ∉ canonical -> d2 !! n = D0 !! n;
  rv_old n : node_revision catalog node < new_revision -> n ∈ canonical -> d2 !! n = D0 !! n;
  rv_failed n e : r = Ok (Err e) -> n ∈ canonical -> d2 !! n = D0 !! n;
  rv_new rep : r = Ok (Ok rep) -> new_revision <= node_revision catalog node ->
    new_state key node new_chunk_size content old_count new_count d2;
}.

Lemma recovered_untouched catalog r d :
  call -> untouched key node op count D0 d -> (forall rep, r = Ok (Ok rep) -> node_revision catalog node < new_revision) ->
  recovered catalog r d.
Proof.
  intros Hc Hd Hr. pose proof (rc_ready _ _ _ _ _ _ _ _ _ _ _ Hc) as Hrr.
  split; intros; try (by apply Hd); try (by eapply untouched_canonical).
  - by eapply untouched_no_marker.
  - specialize (Hr rep ltac:(done)). lia.
Qed.

Abbreviation recover catalog := (recover_file_replace_transaction key catalog).

(** [c] from the disk [d], without faults, gives [recovered]. *)
Lemma recovers_old catalog r d k :
  call -> old_state key node op count D0 d -> (forall rep, r <> Ok (Ok rep)) ->
  exists d2, run_io [] k (recover catalog) d = (Ok tt, d2) /\ recovered catalog r d2.
Proof.
  intros Hc [Hu Hm] Hr. destruct (triple_run_ok _ _ _ _ k d (recover_none key d catalog) (conj Hm eq_refl)) as ([] & d2 & E & ->).
  exists d. split; [done|]. apply recovered_untouched; [done..|]. intros rep Er. by apply Hr in Er.
Qed.

Lemma recovers_doubt catalog r t d k :
  call -> own_tx key op now node old_revision old_count new_count t -> doubt key node op count D0 t d ->
  (forall e, r <> Ok (Err e)) ->
  (forall rep, r = Ok (Ok rep) -> new_state key node new_chunk_size content old_count new_count d) ->
  exists d2, run_io [] k (recover catalog) d = (Ok tt, d2) /\ recovered catalog r d2.
Proof.
  intros Hc (Ht & En & Er) Hd Hre Hrn. pose proof (rc_ready _ _ _ _ _ _ _ _ _ _ _ Hc) as Hrr.
  destruct (decide (node_revision catalog node < new_revision)) as [Hlt|Hge].
  - rewrite <- Er, <- En in Hlt.
    destruct (triple_run_ok _ _ _ _ k d (recover_old key node op count D0 Hrr catalog t d Ht Hlt Hd) eq_refl) as ([] & d2 & E & Hu).
    exists d2. split; [done|]. apply recovered_untouched; [done..|]. intros. by rewrite <- Er, <- En.
  - assert (r_new_source_revision t <= node_revision catalog (r_node_id t)) as Hle by (rewrite Er, En; lia).
    pose proof Hd as (Hmd & Hb & Hf). destruct (distinct_parts _ _ _ _ _ Hrr) as (_ & _ & Hct & Hmc & _).
    destruct (triple_run_ok _ _ _ _ k d (recover_new key node op count catalog t d Ht Hle Hmd ltac:(intros n; by eapply backup_names_temps)) eq_refl)
      as ([] & d2 & E & Hm & Hk').
    assert (forall n, n ∈ canonical -> d2 !! n = d !! n) as Hk.
    { intros n Hn. apply Hk'; [by apply Hct|]. by intros ->. }
    exists d2. split; [done|]. split.
    + done.
    + intros n Hn Hcn. destruct (decide (n = mk)) as [->|Hne]; [rewrite Hm; symmetry; apply Hrr|].
      rewrite Hk' by done. by apply Hf.
    + intros. lia.
    + intros n e Ee. by apply Hre in Ee.
    + intros rep Ee _. apply Hrn in Ee as [Hp Htl]. pose proof (new_count_nonneg _ _ _ _ _ _ _ _ _ _ _ Hc).
      pose proof (parts_count _ _ _ _ _ _ _ _ _ _ _ Hc). split.
      * intros i part Hi. destruct (Hp i part Hi) as (bs & E1 & E2). exists bs. rewrite Hk; [done|].
        apply part_names_elem. apply lookup_lt_Some in Hi. lia.
      * intros i Hi. rewrite Hk; [by apply Htl|]. apply part_names_elem. lia.
Qed.

(** C35: a replacement of the content of a file with at most one fault of any kind (a call
    that fails before or after its effect, or a crash), followed by the recovery of the next
    unlock: the recovery succeeds and leaves no transaction; all other chunks are as
    before; the chunks of the file are the old ones if the catalog still has the old
    revision or the replacement reported an error, and hold the new content (and
    nothing beyond it) if it succeeded and the catalog has the new revision. *)
Theorem replace_atomic fs k catalog k' :
  call -> one_fault fs ->
  let '(r, d1) := run_io fs k
    (replace_chunks key op now node old_size new_size old_chunk_size new_chunk_size content old_revision) D0 in
  exists d2, run_io [] k' (recover_file_replace_transaction key catalog) d1 = (Ok tt, d2) /\ recovered catalog r d2.
Proof.
  intros Hc Hf. pose proof (replace_spec _ op now _ _ _ _ _ _ old_revision _ _ _ Hc (mkWorld D0 fs k) Hf eq_refl) as Hs.
  unfold run_io at 1. destruct (replace_chunks _ _ _ _ _ _ _ _ _ _ _) as [[[rep|e]|[e|]] w]; destruct Hs as [Hs _].
  - destruct Hs as (Ht & Hd & Hn & _). by eapply recovers_doubt.
  - by apply recovers_old.
  - destruct Hs as [Ho|(t & Ht & Hd)]; [by apply recovers_old|by eapply recovers_doubt].
  - destruct Hs as [Ho|(t & Ht & Hd)]; [by apply recovers_old|by eapply recovers_doubt].
Qed.
End Atomic.

(** ** A recovery that was interrupted *)

Section Stuck.
Context `{cr : Crypto} {crl : CryptoLaws cr}.
Context `{Serde FileReplaceTransaction} `{SerdeLaw (DurableTxRecord FileReplaceTransaction)}.
Context (key : list byte) (t : FileReplaceTransaction) (lost : string).
Abbreviation record := (tx_record (P:=FileReplaceParticipant) (replace_tx_id t) Committing t).
Abbreviation mk := (file_replace_tx_marker_name key).

(** The marker is there, the backup [lost] is not. *)
Definition stuck (d : Disk) : Prop := marked key replace_store record d /\ d !! lost = None.

(** A change of a chunk of the file. *)
Lemma stuck_change d d' n :
  n <> lost -> n <> mk -> (forall m, m <> n -> d' !! m = d !! m) -> stuck d -> stuck d'.
Proof.
  intros Hl Hm E [(Ha & bs & Eb & Ho) El]. split; [split; [done|]; exists bs|]; (rewrite E; [done|by intros <-]).
Qed.

Lemma restore_stuck bs :
  lost ∈ backup_names bs -> lost ∉ map b_canonical_name bs -> mk ∉ map b_canonical_name bs ->
  ensures stuck (restore_backups bs) (fun _ _ => False) stuck.
Proof.
  induction bs as [|b bs IH]; intros Hin Hl Hm; cbn [restore_backups]; [by apply elem_of_nil in Hin|].
  cbn [map] in Hl, Hm. rewrite not_elem_of_cons in Hl, Hm. destruct Hl as [Hl1 Hl2], Hm as [Hm1 Hm2].
  assert (forall d x, stuck d -> stuck (<[b_canonical_name b := x]> d)) as Hw.
  { intros d x. apply (stuck_change d _ (b_canonical_name b)); [done..|]. intros m Hne. by apply lookup_insert_ne. }
  assert (forall d, stuck d -> stuck (delete (b_canonical_name b) d)) as Hdel.
  { intros d. apply (stuck_change d _ (b_canonical_name b)); [done..|]. intros m Hne. by apply lookup_delete_ne. }
  destruct (decide (b_backup_name b = Some lost)) as [E|Hne].
  - rewrite E. apply (ensures_bind _ _ _ (fun _ _ => False)); [|by intros ? ? ?].
    eapply ensures_bind; [by apply (ensures_read stuck)|]. intros x w [[_ Hx] Ex]. by rewrite Hx in Ex.
  - assert (lost ∈ backup_names bs) as Hin'.
    { apply list_elem_of_omap in Hin as (b' & Hb' & E'). apply list_elem_of_omap. exists b'. split; [|done].
      apply elem_of_cons in Hb' as [->|?]; [by rewrite E' in Hne|done]. }
    apply (ensures_bind _ _ _ (fun _ => stuck)); [|intros _; by apply IH].
    destruct (b_backup_name b) as [n|].
    + eapply ensures_bind; [by apply (ensures_read stuck)|]. intros x.
      eapply (ensures_conseq _ stuck); [apply (ensures_write stuck); auto|by intros d []|].
      intros _ d (d0 & Hd & ->). auto.
    + apply ensures_named. intros d Hd. cbn. split_and!; auto.
Qed.

(** once a recovery removed a backup chunk and stopped before it deleted the marker, no
    later recovery with the old catalog succeeds, whatever faults it meets: it fails and
    leaves the vault in the same state. *)
Theorem interrupted_recovery_is_stuck catalog :
  lost ∈ backup_names (r_backups t) -> lost ∉ map b_canonical_name (r_backups t) ->
  mk ∉ map b_canonical_name (r_backups t) -> node_revision catalog (r_node_id t) < r_new_source_revision t ->
  forall w, stuck (disk w) ->
  exists e w', recover_file_replace_transaction key catalog w = (Err e, w') /\ stuck (disk w').
Proof.
  intros Hin Hl Hm Hr. assert (ensures stuck (recover_file_replace_transaction key catalog) (fun _ _ => False) stuck) as He.
  2:{ intros w Hw. specialize (He w Hw). destruct (recover_file_replace_transaction key catalog w) as [[a|e] w']; [done|eauto]. }
  unfold recover_file_replace_transaction.
  eapply ensures_bind.
  { apply ensures_triple, (triple_read_marked _ _ record stuck); [apply mk_valid|by intros d []|done]. }
  intros o. apply ensures_when. intros ->. unfold recover_participant.
  eapply (ensures_bind stuck).
  { apply ensures_triple, (triple_read_marked _ (mkReplaceParticipant (Some (node_revision catalog (r_node_id t)))) record stuck);
      [apply mk_valid|by intros d []|done]. }
  intros o. apply ensures_when. intros ->. apply (ensures_bind stuck _ _ (fun _ _ => False)); [|by intros ? ? ?].
  apply (ensures_bind stuck _ _ (fun _ _ => False)); [|by intros ? ? ?].
  cbn. rewrite (proj2 (Z.leb_gt _ _)) by done.
  apply (ensures_bind stuck _ _ (fun _ _ => False)); [by apply restore_stuck|by intros ? ? ?].
Qed.
End Stuck.

(** ** Concrete runs *)

Definition of_backup (b : FileReplaceChunkBackup) : json :=
  GenNode 3 [eS (b_canonical_name b); eO eS (b_backup_name b)].
Definition to_backup (t : json) : FileReplaceChunkBackup :=
  match t with GenNode _ [a; b] => mkBackup (dS a) (dO dS b) | _ => mkBackup "" None end.
Definition of_staged (s : FileReplaceStagedChunk) : json := GenNode 3 [eS (s_canonical_name s); eS (s_stage_name s)].
Definition to_staged (t : json) : FileReplaceStagedChunk :=
  match t with GenNode _ [a; b] => mkStaged (dS a) (dS b) | _ => mkStaged "" "" end.
Definition of_replace (t : FileReplaceTransaction) : json :=
  GenNode 3 [eZ (r_version t); eZ (r_node_id t); eZ (r_old_source_revision t); eZ (r_new_source_revision t);
             eL of_backup (r_backups t); eL of_staged (r_staged_chunks t)].
Definition to_replace (t : json) : FileReplaceTransaction :=
  match t with
  | GenNode _ [a; b; c; d; e; f] => mkReplaceTx (dZ a) (dZ b) (dZ c) (dZ d) (dL to_backup e) (dL to_staged f)
  | _ => mkReplaceTx 0 0 0 0 [] []
  end.

Lemma to_of_replace t : to_replace (of_replace t) = t.
Proof.
  unfold to_replace, of_replace. rewrite !dL_eL_all; [by destruct t|by intros []|].
  intros [n o]. unfold to_backup, of_backup. cbn. by destruct o.
Qed.

Definition replace_serde : Serde FileReplaceTransaction := view_serde of_replace to_replace.
Definition replace_tx_serde : Serde (DurableTxRecord FileReplaceTransaction) := tx_serde_of of_replace to_replace.
Lemma replace_tx_serde_law : @SerdeLaw _ replace_tx_serde.
Proof. apply tx_serde_of_law, to_of_replace. Qed.

#[local] Existing Instances toy_crypto toy_crypto_laws replace_serde replace_tx_serde replace_tx_serde_law.

Definition demo_key : list byte := replicate KEY_SIZE x07.
(** A file of two chunks, and a third chunk of another node. *)
Definition demo_disk : Disk :=
  list_to_map [(blob_chunk_name demo_key 5 0, [x01; x02]); (blob_chunk_name demo_key 5 1, [x03]);
               (blob_chunk_name demo_key 6 0, [x04])].
Definition demo_content : list byte := [x0a; x0b; x0c; x0d; x0e].
Definition demo_replace : RIO ChunkReplacement := replace_chunks demo_key 99 1000 5 3 5 2 2 demo_content 7.

(** The catalog before and after the save. *)
Definition demo_catalog (revision : Z) : CatalogManager :=
  from_root (set_children (Some [mkNode 5 File "a" 3 2 0 0 None None 0 revision None None None]) (new_root 0)).

Lemma demo_call : replace_call demo_key 99 5 3 5 2 2 demo_content demo_disk 2 3.
Proof.
  split.
  - reflexivity.
  - reflexivity.
  - reflexivity.
  - lia.
  - vm_compute. discriminate.
  - lia.
  - intros part name nonce _. by eexists.
  - intros x. apply toy_sealable_tx.
  - split; [apply (bool_decide_unpack _); vm_compute; exact I|vm_compute; reflexivity].
Qed.

(** The replacement dies while it overwrites the chunks; the next unlock has the old catalog. *)
Lemma replace_atomic_witness :
  let '(r, d1) := run_io (replicate 20 Runs ++ [Crashes]) 0 demo_replace demo_disk in
  exists d2, run_io [] 50 (recover_file_replace_transaction demo_key (demo_catalog 7)) d1 = (Ok tt, d2)
    /\ recovered demo_key 99 1000 5 2 demo_content 7 demo_disk 2 3 (demo_catalog 7) r d2.
Proof.
  apply (replace_atomic demo_key 99 1000 5 3 5 2 2 demo_content 7 demo_disk 2 3
           (replicate 20 Runs ++ [Crashes]) 0 (demo_catalog 7) 50 demo_call).
  right. exists 20%nat, Crashes. reflexivity.
Defined.

Definition demo_done : Disk := snd (run_io [] 0 demo_replace demo_disk).
Definition demo_tx : FileReplaceTransaction :=
  match fst (run_io [] 0 demo_replace demo_disk) with
  | Ok (Ok rep) => cr_transaction rep
  | _ => mkReplaceTx 0 0 0 0 [] []
  end.
(** The catalog was not saved, and the recovery dies before its last step. *)
Definition demo_recovery : result stop unit * Disk :=
  run_io (replicate 16 Runs ++ [Crashes]) 50 (recover_file_replace_transaction demo_key (demo_catalog 7)) demo_done.
Definition demo_lost : string := file_replace_temp_chunk_name demo_key 5 99 "backup" 0.

Lemma interrupted_recovery_is_stuck_witness :
  fst demo_recovery = Err Crashed
  /\ exists e w', recover_file_replace_transaction demo_key (demo_catalog 7) (mkWorld (snd demo_recovery) [] 80) = (Err e, w')
       /\ stuck demo_key demo_tx demo_lost (disk w').
Proof.
  split; [vm_compute; reflexivity|].
  apply (interrupted_recovery_is_stuck demo_key demo_tx demo_lost (demo_catalog 7)).
  - apply (bool_decide_unpack _). vm_compute. exact I.
  - apply (bool_decide_unpack _). vm_compute. exact I.
  - apply (bool_decide_unpack _). vm_compute. exact I.
  - vm_compute. reflexivity.
  - split; [|vm_compute; reflexivity]. split; [by split_and!; vm_compute|].
    eexists. split; [vm_compute; reflexivity|]. eexists. split; vm_compute; reflexivity.
Defined.
