(* ===== verification/BlobReader.v ===== *)
(** * Reading files and derivatives

    Models [crates/core/src/rpc/router/blob_range_reader.rs] (ranges of a file, through
    the cache of decrypted chunks, and the seekable source) and [blob_reader.rs] (whole
    files and derivatives). A reader is a value in memory; [read n] is [Read::read] with
    a buffer of [n] bytes and returns the bytes it copied. The loop takes fuel and
    returns [None] when it is used up. The reader holds the shared cache as a field.
    Zeroizing is left out. *)

From Stdlib Require Import Strings.Byte Ascii String.
From stdpp Require Import base countable gmap strings list.
From S2P Require Import Prelude.
From S2P Require Import CatalogNode.
From S2P Require Import Bytes.
From S2P Require Import Storage.
From S2P Require Import Crypto.
From S2P Require Import IoLogic.
From S2P Require Import ChunkCache.
Open Scope Z_scope.

(** [io::Error::new(kind, message)], with the error the message quotes. *)
Inductive ErrorKind := InvalidInput | UnexpectedEof | NotFound | InvalidData.

Record IoError := mkIoError { io_kind : ErrorKind; io_message : string; io_cause : option Error }.

Definition io_error (k : ErrorKind) (message : string) : IoError := mkIoError k message None.

(** Computations on a reader that return an [io::Result]. *)
Abbreviation Rd S A := (StIO S (result IoError A)).

(** ** Ranges *)

Record CatalogBlobRangeReader := mkRange {
  rr_node_id : Z;
  rr_chunk_size : Z;
  rr_chunk_size_key : Z;
  rr_file_size : Z;
  rr_cursor : Z;
  rr_end : Z;
  rr_buf : option (list byte);
  rr_buf_len : Z;
  rr_buf_chunk_index : option Z;
  rr_pos : Z;
  rr_cache : option DecryptedChunkCache;
  rr_source_revision : Z;
  rr_cache_generation : Z;
}.

Definition new_cached (node_id source_revision : Z) (cache : DecryptedChunkCache) (cache_generation offset length
    chunk_size file_size : Z) : CatalogBlobRangeReader :=
  mkRange node_id chunk_size chunk_size file_size offset (u64_saturating_add offset length) None 0 None 0
    (Some cache) source_revision cache_generation.

(** The position in the chunk that is loaded, and the loaded chunk. *)
Definition set_position (cursor pos : Z) (r : CatalogBlobRangeReader) : CatalogBlobRangeReader :=
  mkRange (rr_node_id r) (rr_chunk_size r) (rr_chunk_size_key r) (rr_file_size r) cursor (rr_end r)
    (rr_buf r) (rr_buf_len r) (rr_buf_chunk_index r) pos (rr_cache r) (rr_source_revision r) (rr_cache_generation r).

Definition set_buffer (buf : option (list byte)) (buf_len : Z) (index : option Z) (pos : Z)
    (r : CatalogBlobRangeReader) : CatalogBlobRangeReader :=
  mkRange (rr_node_id r) (rr_chunk_size r) (rr_chunk_size_key r) (rr_file_size r) (rr_cursor r) (rr_end r)
    buf buf_len index pos (rr_cache r) (rr_source_revision r) (rr_cache_generation r).

Definition set_cache (cache : option DecryptedChunkCache) (r : CatalogBlobRangeReader) : CatalogBlobRangeReader :=
  mkRange (rr_node_id r) (rr_chunk_size r) (rr_chunk_size_key r) (rr_file_size r) (rr_cursor r) (rr_end r)
    (rr_buf r) (rr_buf_len r) (rr_buf_chunk_index r) (rr_pos r) cache (rr_source_revision r) (rr_cache_generation r).

(** [self.cache.get(&key)]. *)
Definition lookup_cache (key : DecryptedChunkCacheKey) : StIO CatalogBlobRangeReader (option (list byte)) :=
  r ← st_get;
  match rr_cache r with
  | None => mret None
  | Some c =>
      let '(found, c') := cache_get key c in
      st_modify (set_cache (Some c'));;
      mret found
  end.

(** [self.cache.insert_shared(generation, key, plaintext)]. *)
Definition fill_cache (key : DecryptedChunkCacheKey) (p : list byte) : StIO CatalogBlobRangeReader unit :=
  r ← st_get;
  match rr_cache r with
  | None => mret tt
  | Some c => st_modify (set_cache (Some (cache_insert (rr_cache_generation r) key p c)))
  end.

Section RangeReader.
Context `{cr : Crypto} (vault_key : list byte).

(** The chunk of the cursor, decrypted, from the disk. *)
Definition fetch_chunk (node_id index expected_len : Z) : Rd CatalogBlobRangeReader (list byte) :=
  let chunk_name := blob_chunk_name vault_key node_id index in
  encrypted ← io (attempt (read_chunk chunk_name));
  match encrypted with
  | Err e => mret (Err (mkIoError NotFound "chunk read failed" (Some e)))
  | Ok encrypted =>
      match decrypt encrypted vault_key (as_bytes chunk_name) with
      | Err e => mret (Err (mkIoError InvalidData "decryption failed" (Some e)))
      | Ok plaintext =>
          if len plaintext <? expected_len
          then mret (Err (io_error UnexpectedEof "short decrypted chunk"))
          else mret (Ok (take (Z.to_nat expected_len) plaintext))
      end
  end.

Definition load_chunk_for_cursor : Rd CatalogBlobRangeReader unit :=
  r ← st_get;
  if rr_chunk_size r =? 0 then mret (Err (io_error InvalidInput "invalid chunk size")) else
  let chunk_index := rr_cursor r / rr_chunk_size r in
  if bool_decide (rr_buf_chunk_index r = Some chunk_index) && (rr_pos r <? rr_buf_len r) then mret (Ok tt) else
  if negb (chunk_index <=? U32_MAX) then mret (Err (io_error InvalidInput "invalid chunk index")) else
  let chunk_start := u64_saturating_mul chunk_index (rr_chunk_size r) in
  let expected_len := Z.min (rr_chunk_size r) (u64_saturating_sub (rr_file_size r) chunk_start) in
  if expected_len =? 0 then mret (Err (io_error UnexpectedEof "range points past end of file")) else
  let cache_key := mkKey (rr_node_id r) (rr_source_revision r) chunk_index (rr_chunk_size_key r) in
  let place p := st_modify (set_buffer (Some p) expected_len (Some chunk_index)
                              (u64_saturating_sub (rr_cursor r) chunk_start));; mret (Ok tt) in
  cached ← lookup_cache cache_key;
  match cached with
  | Some plaintext =>
      if len plaintext <? expected_len then mret (Err (io_error UnexpectedEof "short cached chunk"))
      else place plaintext
  | None =>
      st_rbind (fetch_chunk (rr_node_id r) chunk_index expected_len) (fun plaintext =>
      fill_cache cache_key plaintext;;
      place plaintext)
  end.

(** The bytes [buf[pos..pos + n]]. *)
Definition slice (pos n : Z) (buf : list byte) : list byte := take (Z.to_nat n) (drop (Z.to_nat pos) buf).

(** The loop of [read]; [todo] is the space left in the buffer, [out] what was copied. *)
Fixpoint range_loop (fuel : nat) (todo : Z) (out : list byte) : Rd CatalogBlobRangeReader (option (list byte)) :=
  match fuel with
  | O => mret (Ok None)
  | S fuel =>
      r ← st_get;
      if negb ((0 <? todo) && (rr_cursor r <? rr_end r)) then mret (Ok (Some out)) else
      st_rbind load_chunk_for_cursor (fun _ =>
      r ← st_get;
      if rr_buf_len r <=? rr_pos r then
        st_modify (fun r => set_buffer None 0 None (rr_pos r) r);;
        range_loop fuel todo out
      else
      match rr_buf r with
      | None => range_loop fuel todo out
      | Some buf =>
          let available := rr_buf_len r - rr_pos r in
          let remaining := u64_saturating_sub (rr_end r) (rr_cursor r) in
          let to_copy := Z.min (Z.min todo available) remaining in
          if to_copy =? 0 then mret (Ok (Some out)) else
          st_modify (fun r => set_position (u64_saturating_add (rr_cursor r) to_copy)
                                (u64_saturating_add (rr_pos r) to_copy) r);;
          range_loop fuel (todo - to_copy) (out ++ slice (rr_pos r) to_copy buf)
      end)
  end.

(** [Read::read]. One round copies at least a byte, so there are at most [n + 1] rounds
    ([range_read_correct]). *)
Definition range_read (n : Z) : Rd CatalogBlobRangeReader (option (list byte)) :=
  r ← st_get;
  if (n =? 0) || (rr_end r <=? rr_cursor r) then mret (Ok (Some [])) else
  range_loop (S (Z.to_nat n)) n [].
End RangeReader.

(** [Seek] of the source reader; the offset of [SeekFrom]. *)
Inductive SeekFrom := SeekStart (offset : Z) | SeekCurrent (offset : Z) | SeekEnd (offset : Z).

Definition stream_position (r : CatalogBlobRangeReader) : Z := rr_cursor r.

Definition seek (position : SeekFrom) : Rd CatalogBlobRangeReader Z :=
  r ← st_get;
  let next := match position with
              | SeekStart offset => offset
              | SeekCurrent offset => rr_cursor r + offset
              | SeekEnd offset => rr_file_size r + offset
              end in
  if negb ((0 <=? next) && (next <=? U64_MAX))
  then mret (Err (io_error InvalidInput "invalid source seek")) else
  st_modify (fun r => set_buffer None 0 None 0 (set_position next (rr_pos r) r));;
  mret (Ok next).

(** ** Whole files and derivatives *)

Record CatalogBlobReader := mkBlobReader {
  cb_part_index : Z;
  cb_buf : list byte;
  cb_pos : Z;
  cb_done : bool;
}.

Definition blob_reader_new : CatalogBlobReader := mkBlobReader 0 [] 0 false.

Definition set_done (r : CatalogBlobReader) : CatalogBlobReader := mkBlobReader (cb_part_index r) (cb_buf r) (cb_pos r) true.
Definition set_read_pos (pos : Z) (r : CatalogBlobReader) : CatalogBlobReader :=
  mkBlobReader (cb_part_index r) (cb_buf r) pos (cb_done r).
Definition drop_buffer (r : CatalogBlobReader) : CatalogBlobReader := mkBlobReader (cb_part_index r) [] 0 (cb_done r).

Section BlobReader.
Context `{cr : Crypto} (vault_key : list byte).
(** The two readers differ in the names of the chunks. *)
Context (name_of : Z -> string).

Definition load_next_chunk : Rd CatalogBlobReader unit :=
  r ← st_get;
  let chunk_name := name_of (cb_part_index r) in
  encrypted ← io (attempt (read_chunk chunk_name));
  match encrypted with
  | Err _ => st_modify set_done;; mret (Ok tt)
  | Ok encrypted =>
      match decrypt encrypted vault_key (as_bytes chunk_name) with
      | Err e => mret (Err (mkIoError InvalidData "Decryption failed" (Some e)))
      | Ok plaintext =>
          st_put (mkBlobReader (Z.min (cb_part_index r + 1) U32_MAX) plaintext 0 (cb_done r));;
          mret (Ok tt)
      end
  end.

Fixpoint blob_loop (fuel : nat) (todo : Z) (out : list byte) : Rd CatalogBlobReader (option (list byte)) :=
  match fuel with
  | O => mret (Ok None)
  | S fuel =>
      if negb (0 <? todo) then mret (Ok (Some out)) else
      r ← st_get;
      if cb_done r then mret (Ok (Some out)) else
      if len (cb_buf r) <=? cb_pos r then
        st_modify drop_buffer;;
        st_rbind load_next_chunk (fun _ => blob_loop fuel todo out)
      else
        let available := len (cb_buf r) - cb_pos r in
        let to_copy := Z.min todo available in
        st_modify (set_read_pos (u64_saturating_add (cb_pos r) to_copy));;
        blob_loop fuel (todo - to_copy) (out ++ slice (cb_pos r) to_copy (cb_buf r))
  end.

(** Without empty chunks there are at most two rounds for a byte and two more
    ([blob_read_correct]). *)
Definition blob_read (n : Z) : Rd CatalogBlobReader (option (list byte)) :=
  if n =? 0 then mret (Ok (Some [])) else blob_loop (2 * Z.to_nat n + 2) n [].
End BlobReader.

Section Readers.
Context `{cr : Crypto} (vault_key : list byte).

(** [CatalogBlobReader::read] and [DerivativeBlobReader::read]. *)
Definition catalog_blob_read (node_id n : Z) : Rd CatalogBlobReader (option (list byte)) :=
  blob_read vault_key (blob_chunk_name vault_key node_id) n.

Definition derivative_blob_read (node_id source_version : Z) (tier : string) (version n : Z)
    : Rd CatalogBlobReader (option (list byte)) :=
  blob_read vault_key (derivative_chunk_name vault_key node_id source_version tier version) n.
End Readers.
