(* ===== verification/BlobReadSpec.v ===== *)
(** * Readers return the content

    The theory of [BlobReader.v]: a range reader returns exactly the bytes of its range,
    from the cache or from the disk, in reads of any sizes, and never other bytes; a
    storage failure is an error. A reader of a whole file takes a failure for the end. *)

From Stdlib Require Import Strings.Byte Ascii String.
From stdpp Require Import base countable gmap strings list.
From S2P Require Import Prelude.
From S2P Require Import CatalogNode.
From S2P Require Import Bytes.
From S2P Require Import Storage.
From S2P Require Import Crypto.
From S2P Require Import IoLogic.
From S2P Require Import ChunkCache.
From S2P Require Import BlobReader.
Open Scope Z_scope.

(** ** A logic for readers

    From [P], [c] returns with [Q]; with a fault it may return an error or stop, with the
    reader and the disk in [E]. *)

Definition reads {S A} (P : S -> Disk -> Prop) (c : Rd S A) (Q : A -> S -> Disk -> Prop) (E : S -> Disk -> Prop) : Prop :=
  forall s w, P s (disk w) ->
  match c s w with
  | (Ok (Ok a), s', w') => Q a s' (disk w') /\ uses (fates w) (fates w')
  | (Ok (Err _), s', w') | (Err _, s', w') => E s' (disk w') /\ faulted (fates w) (fates w')
  end.

Section ReadRules.
Context {S A B : Type}.
Implicit Types (P E : S -> Disk -> Prop) (Q : A -> S -> Disk -> Prop).

Lemma reads_ret P (a : A) Q E : (forall s d, P s d -> Q a s d) -> reads P (mret (Ok a)) Q E.
Proof. intros H s w Hw. split; [auto|apply uses_refl]. Qed.

Lemma reads_bind P (c : Rd S A) (k : A -> Rd S B) Q (R : B -> S -> Disk -> Prop) E :
  reads P c Q E -> (forall a, reads (Q a) (k a) R E) -> reads P (st_rbind c k) R E.
Proof.
  intros Hc Hk s w Hw. specialize (Hc s w Hw). unfold st_rbind, mbind, StIO_bind.
  destruct (c s w) as [[[[a|e]|e] s1] w1]; [|done..]. destruct Hc as [Hq Hu]. specialize (Hk a s1 w1 Hq).
  destruct (k a s1 w1) as [[[[b|e]|e] s2] w2]; destruct Hk; (split; [done|]);
    [by eapply uses_trans|by eapply uses_faulted..].
Qed.

Lemma reads_get P (f : S -> Rd S A) Q E :
  (forall s0, reads (fun s d => s = s0 /\ P s d) (f s0) Q E) -> reads P (st_get ≫= f) Q E.
Proof. intros H s w Hw. unfold mbind, StIO_bind, st_get. by apply (H s). Qed.

Lemma reads_step {X} P (c : StIO S X) (f : X -> Rd S A) Q R E :
  st_triple P c R (fun _ _ => False) -> (forall x, reads (R x) (f x) Q E) -> reads P (c ≫= f) Q E.
Proof.
  intros Hc Hf s w Hw. specialize (Hc s w Hw). unfold mbind, StIO_bind.
  destruct (c s w) as [[[x|e] s1] w1]; destruct Hc as [Hq Hu]; [|done]. specialize (Hf x s1 w1 Hq).
  destruct (f x s1 w1) as [[[[b|e]|e] s2] w2]; destruct Hf; (split; [done|]);
    [by eapply uses_trans|by eapply uses_faulted..].
Qed.

Lemma reads_modify P g (k : Rd S A) (P' : S -> Disk -> Prop) Q E :
  (forall s d, P s d -> P' (g s) d) -> reads P' k Q E -> reads P (st_modify g;; k) Q E.
Proof.
  intros Hg Hk s w Hw. unfold mbind, StIO_bind, st_modify. by apply Hk, Hg.
Qed.

Lemma reads_pure (phi : Prop) P (c : Rd S A) Q E : (phi -> reads P c Q E) -> reads (fun s d => phi /\ P s d) c Q E.
Proof. intros H s w [Hp Hw]. by apply H. Qed.

Lemma reads_pre P P' (c : Rd S A) Q E : reads P' c Q E -> (forall s d, P s d -> P' s d) -> reads P c Q E.
Proof. intros H HP s w Hw. by apply H, HP. Qed.

Lemma reads_post P (c : Rd S A) Q Q' E : reads P c Q' E -> (forall a s d, Q' a s d -> Q a s d) -> reads P c Q E.
Proof. intros H HQ s w Hw. specialize (H s w Hw). destruct (c s w) as [[[[a|e]|e] s'] w']; [|done..]. destruct H; auto. Qed.

Lemma reads_fact (phi : Prop) P (c : Rd S A) Q E :
  (forall s d, P s d -> phi) -> (phi -> reads P c Q E) -> reads P c Q E.
Proof. intros Hp H s w Hw. apply H; eauto. Qed.

(** A read that is tried, of a chunk that is there. *)
Lemma reads_chunk P n bs (k : result Error (list byte) -> Rd S A) Q E :
  valid_name n = true -> (forall s d, P s d -> d !! n = Some bs /\ E s d) ->
  reads P (k (Ok bs)) Q E -> (forall e s w, E s (disk w) -> exists e', k (Err e) s w = (Ok (Err e'), s, w)) ->
  reads P (io (attempt (read_chunk n)) ≫= k) Q E.
Proof.
  intros Hv Hn Hk He s w Hw. destruct (Hn s _ Hw) as [En HE].
  pose proof (triple_read (fun d => d = disk w) n (fun x d => x = bs /\ d = disk w) (fun d => d = disk w) Hv) as Hr.
  specialize (Hr ltac:(done) ltac:(by intros d ->; eauto) w eq_refl).
  unfold mbind at 1, StIO_bind at 1, io, attempt.
  destruct (read_chunk n w) as [[x|[e|]] w1]; destruct Hr as [Hd Hf].
  - destruct Hd as [-> Hd]. rewrite <- Hd in Hw. specialize (Hk s w1 Hw).
    destruct (k (Ok bs) s w1) as [[[[b|e]|e] s2] w2]; destruct Hk; (split; [done|]);
      [by eapply uses_trans|by eapply uses_faulted..].
  - rewrite <- Hd in HE. destruct (He e s w1 HE) as [e' ->]. done.
  - rewrite <- Hd in HE. done.
Qed.
End ReadRules.

(** ** Slices *)

Lemma len_slice c n l : 0 <= c -> 0 <= n -> c + n <= len l -> len (slice c n l) = n.
Proof. intros Hc Hn Hl. unfold slice, len in *. rewrite length_take, length_drop. lia. Qed.

Lemma slice_app c n m l : 0 <= c -> 0 <= n -> 0 <= m -> slice c n l ++ slice (c + n) m l = slice c (n + m) l.
Proof.
  intros Hc Hn Hm. unfold slice. rewrite !Z2Nat.inj_add, <- drop_drop, take_take_drop by lia. done.
Qed.

Lemma slice_slice i n pos k l :
  0 <= i -> 0 <= pos -> 0 <= k -> pos + k <= n -> slice pos k (slice i n l) = slice (i + pos) k l.
Proof.
  intros Hi Hp Hk Hn. unfold slice. rewrite Z2Nat.inj_add, <- drop_drop by lia.
  replace (Z.to_nat n) with (Z.to_nat pos + Z.to_nat (n - pos))%nat by lia.
  rewrite <- take_drop_commute, take_take. f_equal. lia.
Qed.

(** ** The range reader *)

Lemma cache_get_found key c p c' :
  cache_get key c = (Some p, c') -> exists e, cs_entries (state c) !! key = Some e /\ plaintext e = p.
Proof.
  unfold cache_get. destruct (_ || _); [done|]. destruct (cs_entries (state c) !! key) as [e|]; [|done].
  intros [= <- _]. eauto.
Qed.

Lemma cache_get_entries key c k e :
  cs_entries (state (snd (cache_get key c))) !! k = Some e ->
  exists e0, cs_entries (state c) !! k = Some e0 /\ plaintext e0 = plaintext e.
Proof.
  unfold cache_get. destruct (_ || _); [eauto|]. destruct (cs_entries (state c) !! key) as [e1|] eqn:E; cbn; [|eauto].
  intros [[-> <-]|[Hne Hk]]%lookup_insert_Some; eauto.
Qed.

Lemma cache_insert_entries gen key p c k e :
  cs_entries (state (cache_insert gen key p c)) !! k = Some e ->
  cs_entries (state c) !! k = Some e \/ (k = key /\ plaintext e = p).
Proof.
  unfold cache_insert, insert_shared. destruct (_ || _); [by left|]. destruct (negb _); [by left|].
  cbn [snd with_state state]. unfold evict_over_capacity. intros Hk. eapply lookup_weaken in Hk; [|apply evict_loop_kept]. cbn in Hk.
  apply lookup_insert_Some in Hk as [[-> <-]|[Hne [_ Hk]%lookup_delete_Some]]; auto.
Qed.

Section Range.
Context `{cr : Crypto} {crl : CryptoLaws cr} (key : list byte).
Context (node rev cs : Z) (content : list byte).

Abbreviation size := (len content).

(** The [i]-th chunk of the content. *)
Definition part (i : Z) : list byte := slice (i * cs) cs content.

(** The file is on the disk. *)
Definition file_on_disk (d : Disk) : Prop :=
  forall i, 0 <= i -> i * cs < size -> exists bs, d !! blob_chunk_name key node i = Some bs
    /\ decrypt bs key (as_bytes (blob_chunk_name key node i)) = Ok (part i).

(** Sizes are what they are in the code. *)
Record file_sizes : Prop := {
  fs_chunk : 0 < cs;
  fs_size : size <= U64_MAX;
  fs_count i : 0 <= i -> i * cs < size -> i <= U32_MAX;
}.
Context (sizes : file_sizes).

(** What the cache holds of this file is right. *)
Definition cached_ok (c : DecryptedChunkCache) : Prop :=
  forall k e, cs_entries (state c) !! k = Some e ->
  key_node_id k = node -> key_source_revision k = rev -> key_chunk_size k = cs -> plaintext e = part (key_chunk_index k).

(** The loaded chunk is the one of the cursor. *)
Definition loaded (r : CatalogBlobRangeReader) : Prop :=
  exists i, rr_buf_chunk_index r = Some i /\ rr_buf r = Some (part i) /\ rr_buf_len r = len (part i)
    /\ 0 <= i /\ i * cs < size /\ 0 <= rr_pos r < len (part i) /\ rr_cursor r = i * cs + rr_pos r.

Record reader_ok (r : CatalogBlobRangeReader) : Prop := {
  ro_node : rr_node_id r = node;
  ro_chunk : rr_chunk_size r = cs;
  ro_key : rr_chunk_size_key r = cs;
  ro_size : rr_file_size r = size;
  ro_rev : rr_source_revision r = rev;
  ro_cursor : 0 <= rr_cursor r;
  ro_end : rr_end r <= size;
  ro_cache c : rr_cache r = Some c -> cached_ok c;
  ro_buf : (exists i, rr_buf_chunk_index r = Some i) -> rr_pos r < rr_buf_len r -> loaded r;
}.

Lemma len_part i : 0 <= i -> i * cs < size -> len (part i) = Z.min cs (size - i * cs).
Proof.
  intros Hi Hs. destruct sizes as [Hc _ _]. unfold part, slice, len in *. rewrite length_take, length_drop. lia.
Qed.

Lemma cached_ok_get k c : cached_ok c -> cached_ok (snd (cache_get k c)).
Proof. intros Hc k' e Hk Hn Hr Hs. apply cache_get_entries in Hk as (e0 & Hk & <-). by eapply Hc. Qed.

Lemma cached_ok_insert gen i c : cached_ok c -> cached_ok (cache_insert gen (mkKey node rev i cs) (part i) c).
Proof. intros Hc k e [Hk|[-> ->]]%cache_insert_entries; [by apply Hc|done]. Qed.

Lemma cursor_chunk c :
  0 <= c < size -> let i := c / cs in 0 <= i /\ i * cs <= c /\ c < (i + 1) * cs /\ i * cs < size /\ i <= U32_MAX.
Proof.
  intros Hc i. destruct sizes as [Hcs _ Hn]. pose proof (Z.div_mod c cs ltac:(lia)) as E.
  pose proof (Z.mod_pos_bound c cs Hcs). assert (0 <= i) by (apply Z.div_pos; lia). fold i in E.
  assert (i * cs <= c) by nia. split_and!; [done..|nia|lia|]. apply Hn; lia.
Qed.

(** A reader like [r] with a cache that is right. *)
Definition recached (r r' : CatalogBlobRangeReader) : Prop :=
  exists oc, r' = set_cache oc r /\ forall c, oc = Some c -> cached_ok c.

Lemma recached_ok r r' : reader_ok r -> recached r r' -> reader_ok r'.
Proof. intros Hr (oc & -> & Hc). destruct Hr. by split. Qed.

Lemma lookup_cache_spec r i :
  reader_ok r ->
  st_triple (fun s d => s = r /\ file_on_disk d) (lookup_cache (mkKey node rev i cs))
    (fun o s d => (forall p, o = Some p -> p = part i) /\ recached r s /\ file_on_disk d) (fun _ _ => False).
Proof.
  intros Hr s w [-> Hd]. unfold lookup_cache, mbind, StIO_bind, st_get, st_modify.
  destruct (rr_cache r) as [c|] eqn:Ec.
  - pose proof (cached_ok_get (mkKey node rev i cs) c (ro_cache _ Hr c Ec)) as Hok.
    destruct (cache_get (mkKey node rev i cs) c) as [o c'] eqn:E. split; [|apply uses_refl]. split_and!; [|by exists (Some c'); split; [|intros ? [= <-]]|done].
    intros p ->. apply cache_get_found in E as (e & He & <-). by apply (ro_cache _ Hr c Ec _ _ He).
  - split; [|apply uses_refl]. split_and!; [done| |done]. exists None. split; [|done]. by destruct r; cbn in Ec; subst.
Qed.

Lemma fill_cache_spec r i :
  reader_ok r ->
  st_triple (fun s d => recached r s /\ file_on_disk d) (fill_cache (mkKey node rev i cs) (part i))
    (fun _ s d => recached r s /\ file_on_disk d) (fun _ _ => False).
Proof.
  intros Hr s w [(oc & -> & Hc) Hd]. unfold fill_cache, mbind, StIO_bind, st_get, st_modify. cbn.
  destruct oc as [c|]; (split; [|apply uses_refl]); (split; [|done]).
  - eexists. split; [done|]. intros c' [= <-]. by apply cached_ok_insert, Hc.
  - by exists None.
Qed.

(** The chunk of the cursor in the buffer. *)
Lemma placed r s i pos :
  reader_ok r -> recached r s -> 0 <= i -> i * cs < size -> 0 <= pos < len (part i) -> rr_cursor r = i * cs + pos ->
  let s' := set_buffer (Some (part i)) (len (part i)) (Some i) pos s in
  reader_ok s' /\ loaded s' /\ rr_cursor s' = rr_cursor r /\ rr_end s' = rr_end r.
Proof.
  intros Hr (oc & -> & Hc) Hi Hs Hp Ecur. assert (loaded (set_buffer (Some (part i)) (len (part i)) (Some i) pos (set_cache oc r))) as Hl.
  { exists i. cbn. destruct Hp. by split_and!. }
  split_and!; [|done..]. destruct Hr. by split.
Qed.

Lemma fetch_spec r i :
  reader_ok r -> 0 <= i -> i * cs < size ->
  reads (fun s d => recached r s /\ file_on_disk d) (fetch_chunk key node i (len (part i)))
    (fun p s d => p = part i /\ recached r s /\ file_on_disk d) (fun s d => reader_ok s /\ file_on_disk d).
Proof.
  intros Hr Hi Hs s w [Hrc Hd]. destruct (Hd i Hi Hs) as (bs & Ebs & Edec). revert s w Hrc Hd Ebs.
  cut (reads (fun s d => d !! blob_chunk_name key node i = Some bs /\ recached r s /\ file_on_disk d)
         (fetch_chunk key node i (len (part i)))
         (fun p s d => p = part i /\ recached r s /\ file_on_disk d) (fun s d => reader_ok s /\ file_on_disk d)).
  { intros Hc s w Hrc Hd Ebs. by apply Hc. }
  apply (reads_chunk _ _ bs).
  - unfold blob_chunk_name. apply chunk_name_u64_valid.
  - intros s d (E & Hrc & Hd). split; [done|]. split; [by eapply recached_ok|done].
  - rewrite Edec, Z.ltb_irrefl. apply reads_ret. intros s d (_ & Hrc & Hd). split_and!; [|done..].
    unfold len. rewrite Nat2Z.id. apply take_ge. lia.
  - intros e s w _. eexists. reflexivity.
Qed.

(** From the look-up in the cache on. *)
Lemma load_placed r c en i :
  reader_ok r -> rr_cursor r = c -> rr_end r = en -> 0 <= i -> i * cs < size -> i * cs <= c < i * cs + len (part i) ->
  let place p := st_modify (set_buffer (Some p) (len (part i)) (Some i) (c - i * cs));; mret (Ok tt) in
  reads (fun s d => s = r /\ file_on_disk d)
    (cached ← lookup_cache (mkKey node rev i cs);
     match cached with
     | Some plaintext =>
         if len plaintext <? len (part i) then mret (Err (io_error UnexpectedEof "short cached chunk"))
         else place plaintext
     | None => st_rbind (fetch_chunk key node i (len (part i))) (fun plaintext =>
               fill_cache (mkKey node rev i cs) plaintext;; place plaintext)
     end)
    (fun _ r d => reader_ok r /\ file_on_disk d /\ loaded r /\ rr_cursor r = c /\ rr_end r = en)
    (fun r d => reader_ok r /\ file_on_disk d).
Proof.
  intros Hr Ec Ee Hi Hs Hc place.
  assert (reads (fun s d => recached r s /\ file_on_disk d) (place (part i))
    (fun _ r d => reader_ok r /\ file_on_disk d /\ loaded r /\ rr_cursor r = c /\ rr_end r = en)
    (fun r d => reader_ok r /\ file_on_disk d)) as Hplace.
  { apply (reads_modify _ _ _ (fun r d => reader_ok r /\ file_on_disk d /\ loaded r /\ rr_cursor r = c /\ rr_end r = en)).
    - intros s d [Hrc Hd]. destruct (placed r s i (c - i * cs)) as (? & ? & E1 & E2); [done..|lia|lia|].
      rewrite Ec in E1. rewrite Ee in E2. done.
    - by apply reads_ret. }
  eapply reads_step; [by apply lookup_cache_spec|]. intros [p|].
  - apply reads_pure. intros Hp. rewrite (Hp p eq_refl), Z.ltb_irrefl. exact Hplace.
  - apply reads_pure. intros _. eapply reads_bind; [by apply fetch_spec|]. intros p. apply reads_pure. intros ->.
    eapply reads_step; [by apply fill_cache_spec|]. intros []. exact Hplace.
Qed.

Lemma load_spec c en :
  reads (fun r d => reader_ok r /\ file_on_disk d /\ rr_cursor r = c /\ rr_end r = en /\ c < en)
    (load_chunk_for_cursor key)
    (fun _ r d => reader_ok r /\ file_on_disk d /\ loaded r /\ rr_cursor r = c /\ rr_end r = en)
    (fun r d => reader_ok r /\ file_on_disk d).
Proof.
  unfold load_chunk_for_cursor. apply reads_get. intros r.
  apply (reads_fact (reader_ok r /\ rr_cursor r = c /\ rr_end r = en /\ c < en)); [intros s d (-> & ? & _ & ?); done|].
  intros (Hr & Hc & He & Hlt). apply (reads_pre _ (fun s d => s = r /\ file_on_disk d)); [|by intros s d (-> & _ & ? & _)].
  pose proof Hr as [Hnode Hch Hkey Hsz Hrev Hcur Hend Hcache Hbuf]. rewrite Hch, Hkey, Hsz, Hrev, Hnode, Hc.
  pose proof sizes as [Hcs Hmax _]. destruct (Z.eqb_spec cs 0) as [?|_]; [lia|].
  destruct (cursor_chunk c ltac:(lia)) as (Hi & Hlo & Hhi & Hin & Hu32). set (i := c / cs) in *.
  destruct (bool_decide_reflect (rr_buf_chunk_index r = Some i)) as [Eb|Eb]; cbn [andb];
    [destruct (Z.ltb_spec (rr_pos r) (rr_buf_len r)) as [Hp|Hp]|].
  { apply reads_ret. intros s d (-> & Hd). split_and!; [done..| |done|done]. apply Hbuf; [by exists i|done]. }
  all: rewrite (proj2 (Z.leb_le i U32_MAX)) by done; cbn [negb];
    replace (u64_saturating_mul i cs) with (i * cs) by (unfold u64_saturating_mul; lia);
    replace (u64_saturating_sub size (i * cs)) with (size - i * cs) by (unfold u64_saturating_sub; lia);
    rewrite <- (len_part i Hi Hin);
    replace (u64_saturating_sub c (i * cs)) with (c - i * cs) by (unfold u64_saturating_sub; lia);
    pose proof (len_part i Hi Hin) as Hlen; destruct (Z.eqb_spec (len (part i)) 0) as [?|_]; [lia|];
    apply (load_placed r c en i); done || lia.
Qed.

(** The bytes copied so far. *)
Definition copied (c0 en : Z) (out : list byte) (r : CatalogBlobRangeReader) : Prop :=
  0 <= c0 /\ rr_end r = en /\ rr_cursor r = c0 + len out /\ c0 + len out <= en /\ out = slice c0 (len out) content.

Lemma copy_step c0 en out todo r :
  reader_ok r -> loaded r -> copied c0 en out r -> rr_cursor r < en -> 0 < todo ->
  let k := Z.min (Z.min todo (rr_buf_len r - rr_pos r)) (u64_saturating_sub (rr_end r) (rr_cursor r)) in
  exists b, rr_buf r = Some b /\ rr_pos r < rr_buf_len r /\ 0 < k <= todo
    /\ (let r' := set_position (u64_saturating_add (rr_cursor r) k) (u64_saturating_add (rr_pos r) k) r in
        reader_ok r' /\ copied c0 en (out ++ slice (rr_pos r) k b) r').
Proof.
  intros Hr (i & Ei & Eb & El & Hi & Hin & Hpos & Ecur) (Hc0 & Een & Ec & Hle & Eout) Hlt Htodo k.
  pose proof Hr as [_ _ _ _ _ _ Hend _ _]. pose proof sizes as [Hcs Hmax _]. pose proof (len_part i Hi Hin) as Hlen.
  assert (k = Z.min (Z.min todo (len (part i) - rr_pos r)) (en - rr_cursor r)) as Ek
    by (unfold k, u64_saturating_sub; rewrite El, Een; lia).
  assert (slice (rr_pos r) k (part i) = slice (rr_cursor r) k content) as Es.
  { unfold part. rewrite slice_slice by lia. by rewrite Ecur. }
  assert (len (slice (rr_cursor r) k content) = k) as Elen by (apply len_slice; lia).
  exists (part i). split_and!; [done|lia..|]. cbn zeta. rewrite Es.
  replace (u64_saturating_add (rr_cursor r) k) with (rr_cursor r + k) by (unfold u64_saturating_add; lia).
  replace (u64_saturating_add (rr_pos r) k) with (rr_pos r + k) by (unfold u64_saturating_add; lia).
  assert (len (out ++ slice (rr_cursor r) k content) = len out + k) as Eo by (unfold len in *; rewrite length_app; lia).
  split.
  - destruct Hr. split; try done; cbn; [lia|]. intros _ Hp. exists i. cbn. split_and!; [done..|lia|lia|lia].
  - split_and!; cbn; [done..|lia|lia|]. rewrite Eo, <- slice_app, <- Eout, <- Ec by (lia || (pose proof (len_nonneg out); lia)). done.
Qed.

Lemma loop_spec c0 en fuel todo out :
  0 <= todo < Z.of_nat fuel ->
  reads (fun r d => reader_ok r /\ file_on_disk d /\ copied c0 en out r) (range_loop key fuel todo out)
    (fun o r d => exists out', o = Some out' /\ len out' = Z.min (len out + todo) (en - c0)
       /\ reader_ok r /\ file_on_disk d /\ copied c0 en out' r)
    (fun r d => reader_ok r /\ file_on_disk d).
Proof.
  revert todo out. induction fuel as [|fuel IH]; intros todo out Hf; [lia|]. cbn [range_loop].
  apply reads_get. intros r.
  apply (reads_fact (reader_ok r /\ copied c0 en out r)); [by intros s d (-> & ? & _ & ?)|].
  intros (Hr & Hcp). pose proof Hcp as (Hc0 & Een & Ec & Hle & _).
  destruct (Z.ltb_spec 0 todo) as [Ht|Ht]; cbn [negb andb];
    [destruct (Z.ltb_spec (rr_cursor r) (rr_end r)) as [Hlt|Hge]|]; cbn [negb].
  2,3: apply reads_ret; intros s d (-> & _ & Hd & _); exists out; split_and!; try done; lia.
  eapply (reads_pre _ (fun s d => reader_ok s /\ file_on_disk d /\ rr_cursor s = rr_cursor r /\ rr_end s = en /\ rr_cursor r < en));
    [|intros s d (-> & _ & Hd & _); split_and!; done || lia].
  eapply reads_bind; [apply load_spec|]. intros []. apply reads_get. intros r1.
  apply (reads_fact (reader_ok r1 /\ loaded r1 /\ rr_cursor r1 = rr_cursor r /\ rr_end r1 = en)); [by intros s d (-> & ? & _ & ?)|].
  intros (Hr1 & Hl1 & Ec1 & Ee1).
  assert (copied c0 en out r1) as Hcp1 by (destruct Hcp as (? & ? & ? & ? & ?); split_and!; congruence).
  destruct (copy_step c0 en out todo r1 Hr1 Hl1 Hcp1 ltac:(lia) Ht) as (b & Eb & Hp & Hk & Hr' & Hcp').
  destruct (Z.leb_spec (rr_buf_len r1) (rr_pos r1)) as [?|_]; [lia|]. rewrite Eb.
  set (k := Z.min (Z.min todo _) _) in *. destruct (Z.eqb_spec k 0) as [?|_]; [lia|].
  eapply reads_modify; [|eapply reads_post; [apply (IH (todo - k)); lia|]].
  - intros s d (-> & _ & Hd & _). done.
  - intros o s d (out' & -> & Elen & Hrest). exists out'. split; [done|]. split; [|done].
    assert (len (out ++ slice (rr_pos r1) k b) = len out + k) as Eo.
    { destruct Hcp' as (_ & _ & E & _). cbn in E. destruct Hr1 as [_ _ _ _ _ _ Hend1 _ _]. pose proof sizes as [_ Hmax _].
      replace (u64_saturating_add (rr_cursor r1) k) with (rr_cursor r1 + k) in E by (unfold u64_saturating_add, k, u64_saturating_sub in *; lia). lia. }
    lia.
Qed.

Lemma range_read_spec c0 en n :
  0 <= n ->
  reads (fun r d => reader_ok r /\ file_on_disk d /\ copied c0 en [] r) (range_read key n)
    (fun o r d => exists out, o = Some out /\ len out = Z.min n (en - c0)
       /\ reader_ok r /\ file_on_disk d /\ copied c0 en out r)
    (fun r d => reader_ok r /\ file_on_disk d).
Proof.
  intros Hn. unfold range_read. apply reads_get. intros r.
  apply (reads_fact (copied c0 en [] r)); [by intros s d (-> & _ & _ & ?)|].
  intros (Hc0 & Een & Ec & Hle & _). change (len []) with 0 in *.
  destruct (Z.eqb_spec n 0) as [->|Hn0]; cbn [orb]; [|destruct (Z.leb_spec (rr_end r) (rr_cursor r))].
  1,2: apply reads_ret; intros s d (-> & Hrest); exists []; split_and!; try apply Hrest; try done; change (len []) with 0; lia.
  eapply reads_pre; [eapply reads_post; [apply (loop_spec c0 en (S (Z.to_nat n)) n []); lia|]|by intros s d (_ & ?)].
  intros o s d (out & -> & El & Hrest). exists out. split; [done|]. split; [|done]. change (len []) with 0 in El. lia.
Qed.
End Range.

(** Reads of the sizes [ns], one after the other; the bytes they returned. *)
Fixpoint range_reads `{Crypto} (key : list byte) (ns : list Z) : Rd CatalogBlobRangeReader (option (list byte)) :=
  match ns with
  | [] => mret (Ok (Some []))
  | n :: ns' =>
      st_rbind (range_read key n) (fun o =>
      match o with
      | None => mret (Ok None)
      | Some b => st_rbind (range_reads key ns') (fun o' => mret (Ok (app b <$> o')))
      end)
  end.

Section Reads.
Context `{cr : Crypto} {crl : CryptoLaws cr} (key : list byte).
Context (node rev cs : Z) (content : list byte).

Lemma copied_restart c0 en out r : copied content c0 en out r -> copied content (c0 + len out) en [] r.
Proof.
  intros (? & ? & ? & ? & ?). pose proof (len_nonneg out). change (len []) with 0. split_and!; try done; try lia.
  change (len []) with 0. lia. change (len []) with 0. lia.
Qed.

Lemma range_reads_spec ns c0 en :
  file_sizes cs content -> Forall (fun n => 0 <= n) ns ->
  reads (fun r d => reader_ok node rev cs content r /\ file_on_disk key node cs content d /\ copied content c0 en [] r) (range_reads key ns)
    (fun o r d => o = Some (slice c0 (Z.min (foldr Z.add 0 ns) (en - c0)) content)
       /\ reader_ok node rev cs content r /\ file_on_disk key node cs content d)
    (fun r d => reader_ok node rev cs content r /\ file_on_disk key node cs content d).
Proof.
  intros Hs Hns. revert c0. induction Hns as [|n ns Hn Hns IH]; intros c0; cbn [range_reads foldr].
  { apply reads_ret. intros r d (Hr & Hd & (? & ? & ? & ? & _)). change (len []) with 0 in *. split_and!; [|done..].
    rewrite Z.min_l by lia. done. }
  eapply reads_bind; [by apply range_read_spec|]. intros o s w (out & -> & Elen & Hrest). revert s w Hrest.
  cut (reads (fun r d => reader_ok node rev cs content r /\ file_on_disk key node cs content d /\ copied content c0 en out r)
    (st_rbind (range_reads key ns) (fun o' => mret (Ok (app out <$> o'))))
    (fun o r d => o = Some (slice c0 (Z.min (n + foldr Z.add 0 ns) (en - c0)) content)
       /\ reader_ok node rev cs content r /\ file_on_disk key node cs content d)
    (fun r d => reader_ok node rev cs content r /\ file_on_disk key node cs content d)); [by intros Hc s w; apply Hc|].
  apply (reads_fact (0 <= c0 /\ c0 + len out <= en /\ out = slice c0 (len out) content)); [by intros s d (_ & _ & ? & _ & _ & ? & ?)|].
  intros (Hc0 & Hle & Eout). pose proof (len_nonneg out). assert (0 <= foldr Z.add 0 ns) as Hsum by (clear IH; induction Hns; cbn; lia).
  eapply reads_bind; [eapply reads_pre; [apply (IH (c0 + len out))|]|].
  - intros r d (? & ? & ?). split_and!; [done..|by apply copied_restart].
  - intros o'. apply reads_ret. intros r d (-> & ? & ?). split_and!; [|done..]. cbn. f_equal.
    rewrite Eout at 1. rewrite slice_app by lia. f_equal; lia.
Qed.

(** C39: a range of a file, opened with a cache whose entries for this revision are right
    and read in pieces of any sizes, gives exactly the bytes of the range: every result is
    the corresponding part of the content, whatever comes from the cache and whatever
    faults the storage has; only after a fault is there an error. The loop of a read
    never runs out of its fuel. *)
Theorem range_reads_exact cache gen offset length ns w :
  file_sizes cs content -> cached_ok node rev cs content cache -> file_on_disk key node cs content (disk w) ->
  0 <= offset -> 0 <= length -> offset + length <= len content -> Forall (fun n => 0 <= n) ns ->
  match range_reads key ns (new_cached node rev cache gen offset length cs (len content)) w with
  | (Ok (Ok o), r', w') =>
      o = Some (slice offset (Z.min (foldr Z.add 0 ns) length) content)
      /\ (forall c, rr_cache r' = Some c -> cached_ok node rev cs content c)
  | (Ok (Err _), _, w') | (Err _, _, w') => faulted (fates w) (fates w')
  end.
Proof.
  intros Hs Hc Hd Ho Hl Hle Hns. pose proof (fs_size _ _ Hs) as Hmax.
  set (r := new_cached node rev cache gen offset length cs (len content)).
  assert (rr_end r = offset + length) as Een by (cbn; unfold u64_saturating_add; lia).
  assert (reader_ok node rev cs content r) as Hr.
  { split; try done; [rewrite Een; lia|by intros c [= <-]]. }
  assert (copied content offset (offset + length) [] r) as Hcp by (split_and!; try done; change (len []) with 0; cbn; lia).
  pose proof (range_reads_spec ns offset (offset + length) Hs Hns r w (conj Hr (conj Hd Hcp))) as H.
  destruct (range_reads key ns r w) as [[[[o|e]|e] r'] w']; destruct H as [H Hu]; [|done..].
  destruct H as (-> & Hr' & _). split; [|by apply Hr']. do 2 f_equal. lia.
Qed.
End Reads.

(** ** Whole files *)

(** Without faults, from [P], [c] returns with [Q]. *)
Definition reads_calm {S A} (P : S -> Disk -> Prop) (c : Rd S A) (Q : A -> S -> Disk -> Prop) : Prop :=
  forall s w, fates w = [] -> P s (disk w) ->
  exists a s' w', c s w = (Ok (Ok a), s', w') /\ fates w' = [] /\ Q a s' (disk w').

Lemma reads_calm_bind {S A B} P (c : Rd S A) (k : A -> Rd S B) Q R :
  reads_calm P c Q -> (forall a, reads_calm (Q a) (k a) R) -> reads_calm P (st_rbind c k) R.
Proof.
  intros Hc Hk s w Hf Hw. destruct (Hc s w Hf Hw) as (a & s1 & w1 & E & Hf1 & Hq).
  unfold st_rbind, mbind, StIO_bind. rewrite E. by apply Hk.
Qed.

Section Whole.
Context `{cr : Crypto} {crl : CryptoLaws cr} (key : list byte) (name_of : Z -> string) (parts : list (list byte)).

(** The chunks hold the [parts], none of them is empty, and there is no further chunk. *)
Record parts_on_disk (d : Disk) : Prop := {
  pd_part i p : parts !! i = Some p -> exists bs, d !! name_of (Z.of_nat i) = Some bs
    /\ decrypt bs key (as_bytes (name_of (Z.of_nat i))) = Ok p;
  pd_end : d !! name_of (Z.of_nat (length parts)) = None;
  pd_nonempty : [] ∉ parts;
  pd_count : Z.of_nat (length parts) <= U32_MAX;
  pd_names i : valid_name (name_of i) = true;
}.

(** [rest] is what the reader still has to give. *)
Definition remaining (rest : list byte) (r : CatalogBlobReader) : Prop :=
  0 <= cb_pos r /\ exists i, cb_part_index r = Z.of_nat i /\ (i <= length parts)%nat
  /\ len (cb_buf r) <= U64_MAX
  /\ rest = drop (Z.to_nat (cb_pos r)) (cb_buf r) ++ (if cb_done r then [] else concat (drop i parts))
  /\ (cb_done r = true -> rest = []).

Lemma run_read_none n w :
  valid_name n = true -> fates w = [] -> disk w !! n = None ->
  exists e w', read_chunk n w = (Err (Failed e), w') /\ fates w' = [] /\ disk w' = disk w.
Proof.
  intros [p Hp]%chunk_path_ok Hf Hn. unfold read_chunk, mbind, IO_bind, io_lift, call. rewrite Hp. cbn. rewrite Hf, Hn. cbn. eauto 10.
Qed.

Lemma run_read_some n w bs :
  valid_name n = true -> fates w = [] -> disk w !! n = Some bs ->
  exists w', read_chunk n w = (Ok bs, w') /\ fates w' = [] /\ disk w' = disk w.
Proof.
  intros [p Hp]%chunk_path_ok Hf Hn. unfold read_chunk, mbind, IO_bind, io_lift, call. rewrite Hp. cbn. rewrite Hf, Hn. cbn. eauto 10.
Qed.

Lemma run_read_fails n w fs :
  valid_name n = true -> fates w = FailsBefore :: fs ->
  exists e w', read_chunk n w = (Err (Failed e), w') /\ disk w' = disk w.
Proof.
  intros [p Hp]%chunk_path_ok Hf. unfold read_chunk, mbind, IO_bind, io_lift, call. rewrite Hp. cbn. rewrite Hf. cbn. eauto.
Qed.

Lemma load_next_calm rest :
  (forall p, p ∈ parts -> len p <= U64_MAX) ->
  reads_calm (fun r d => parts_on_disk d /\ remaining rest r /\ cb_done r = false /\ cb_buf r = [])
    (load_next_chunk key name_of)
    (fun _ r d => parts_on_disk d /\ remaining rest r /\ (cb_done r = true \/ cb_pos r < len (cb_buf r))).
Proof.
  intros Hmax r w Hf (Hd & (Hp & i & Ei & Hi & _ & Erest & _) & Hnd & Hbuf).
  pose proof Hd as [Hpart Hend Hne Hcnt Hnames]. rewrite Hnd, Hbuf, drop_nil in Erest. cbn in Erest.
  unfold load_next_chunk, mbind, StIO_bind, st_get, io, attempt. rewrite Ei.
  destruct (parts !! i) as [p|] eqn:Ep.
  - destruct (Hpart i p Ep) as (bs & Ebs & Edec).
    destruct (run_read_some _ w bs (Hnames (Z.of_nat i)) Hf Ebs) as (w' & -> & Hf' & Ed). rewrite Edec.
    do 3 eexists. split; [reflexivity|]. split; [done|]. rewrite Ed. pose proof (lookup_lt_Some _ _ _ Ep).
    assert (0 < len p) as Hlp.
    { destruct p as [|b p]; [|unfold len; cbn; lia]. exfalso. apply Hne. by eapply list_elem_of_lookup_2. }
    split_and!; [done| |by right]. split; [cbn; lia|]. exists (S i). cbn.
    split_and!; [rewrite Z.min_l; lia|lia|apply Hmax; by eapply list_elem_of_lookup_2| |by rewrite Hnd].
    rewrite Hnd, drop_0, Erest. by rewrite (drop_S _ _ _ Ep).
  - apply lookup_ge_None in Ep. assert (i = length parts) as -> by lia.
    destruct (run_read_none _ w (Hnames _) Hf Hend) as (e & w' & -> & Hf' & Ed).
    do 3 eexists. split; [reflexivity|]. split; [done|]. rewrite Ed. rewrite drop_ge in Erest by lia. cbn in Erest.
    split_and!; [done| |by left]. split; [done|]. exists (length parts). cbn. rewrite Hbuf, drop_nil. by split_and!.
Qed.

(** Rounds needed to start with. *)
Definition rounds (todo : Z) (r : CatalogBlobReader) : Z := 2 * todo + (if len (cb_buf r) <=? cb_pos r then 2 else 1).

Lemma copy_calm rest todo r :
  remaining rest r -> cb_done r = false -> cb_pos r < len (cb_buf r) -> 0 < todo ->
  let k := Z.min todo (len (cb_buf r) - cb_pos r) in
  0 < k <= todo /\ slice (cb_pos r) k (cb_buf r) = take (Z.to_nat k) rest
  /\ remaining (drop (Z.to_nat k) rest) (set_read_pos (u64_saturating_add (cb_pos r) k) r).
Proof.
  intros (Hp & i & Ei & Hi & Hmax & Erest & _) Hnd Hlt Ht k. assert (0 < k <= todo) as Hk by lia.
  assert (Z.to_nat k <= length (drop (Z.to_nat (cb_pos r)) (cb_buf r)))%nat as Hl by (rewrite length_drop; unfold len in *; lia).
  rewrite Hnd in Erest. split_and!; [lia|lia| |].
  - unfold slice. rewrite Erest, take_app_le by done. done.
  - assert (u64_saturating_add (cb_pos r) k = cb_pos r + k) as -> by (unfold u64_saturating_add; lia).
    split; [cbn; lia|]. exists i. cbn. rewrite Hnd. split_and!; [done..| |done].
    rewrite Erest, drop_app_le, drop_drop by done. do 2 f_equal. lia.
Qed.

Lemma blob_loop_calm fuel todo out rest :
  (forall p, p ∈ parts -> len p <= U64_MAX) -> 0 <= todo ->
  reads_calm (fun r d => parts_on_disk d /\ remaining rest r /\ rounds todo r <= Z.of_nat fuel)
    (blob_loop key name_of fuel todo out)
    (fun o r d => o = Some (out ++ take (Z.to_nat todo) rest) /\ parts_on_disk d /\ remaining (drop (Z.to_nat todo) rest) r).
Proof.
  intros Hmax. revert todo out rest. induction fuel as [|fuel IH]; intros todo out rest Htodo r w Hf (Hd & Hr & Hfuel).
  { unfold rounds in Hfuel. destruct (_ <=? _); lia. }
  cbn [blob_loop]. destruct (Z.ltb_spec 0 todo) as [Ht|Ht]; cbn [negb].
  2:{ assert (todo = 0) as -> by lia. exists (Some out), r, w. rewrite take_0, app_nil_r, drop_0. done. }
  unfold mbind at 1, StIO_bind at 1, st_get. destruct (cb_done r) eqn:Hdone.
  { pose proof Hr as (_ & i & _ & _ & _ & _ & Hnil). rewrite (Hnil Hdone) in Hr |- *.
    exists (Some out), r, w. rewrite take_nil, drop_nil, app_nil_r. done. }
  unfold rounds in Hfuel. destruct (Z.leb_spec (len (cb_buf r)) (cb_pos r)) as [Hle|Hlt].
  - unfold mbind at 1, StIO_bind at 1, st_modify.
    assert (reads_calm (fun r d => parts_on_disk d /\ remaining rest r /\ cb_done r = false /\ cb_buf r = [])
      (st_rbind (load_next_chunk key name_of) (fun _ => blob_loop key name_of fuel todo out))
      (fun o r d => o = Some (out ++ take (Z.to_nat todo) rest) /\ parts_on_disk d /\ remaining (drop (Z.to_nat todo) rest) r)) as Hload.
    2:{ apply Hload; [done|]. destruct Hr as (Hp & i & Ei & Hi & _ & Erest & Hnil). split_and!; [done| |done|done].
      split; [done|]. exists i. cbn. split_and!; try done.
      rewrite Erest. rewrite drop_ge by (unfold len in Hle; lia). done. }
    eapply reads_calm_bind; [by apply load_next_calm|]. intros [] s w1 Hf1 (Hd1 & Hr1 & [Hdn|Hpos]).
      + destruct fuel as [|fuel]; [lia|]. pose proof Hr1 as (_ & i & _ & _ & _ & _ & Hnil). rewrite (Hnil Hdn) in Hr1 |- *.
        exists (Some out), s, w1. cbn [blob_loop]. rewrite (proj2 (Z.ltb_lt 0 todo) Ht). unfold mbind, StIO_bind, st_get. cbn [negb].
        rewrite Hdn, take_nil, drop_nil, app_nil_r. done.
      + apply IH; [lia|done|]. split_and!; [done..|]. unfold rounds. destruct (Z.leb_spec (len (cb_buf s)) (cb_pos s)); lia.
  - destruct (copy_calm rest todo r Hr Hdone Hlt Ht) as (Hk & Es & Hr'). set (k := Z.min todo _) in *.
    unfold mbind at 1, StIO_bind at 1, st_modify.
    destruct (IH (todo - k) (out ++ slice (cb_pos r) k (cb_buf r)) (drop (Z.to_nat k) rest) ltac:(lia)
                (set_read_pos (u64_saturating_add (cb_pos r) k) r) w Hf) as (o & r' & w' & E & Hf' & -> & Hd' & Hrem).
    { split_and!; [done..|]. unfold rounds. destruct (_ <=? _); lia. }
    do 3 eexists. split; [exact E|]. split; [done|]. split_and!; [|done|].
    + f_equal. rewrite Es, <- app_assoc. f_equal. rewrite take_take_drop. f_equal. lia.
    + rewrite drop_drop in Hrem. by replace (Z.to_nat todo) with (Z.to_nat k + Z.to_nat (todo - k))%nat by lia.
Qed.

Lemma blob_read_calm n rest :
  (forall p, p ∈ parts -> len p <= U64_MAX) -> 0 <= n ->
  reads_calm (fun r d => parts_on_disk d /\ remaining rest r) (blob_read key name_of n)
    (fun o r d => o = Some (take (Z.to_nat n) rest) /\ parts_on_disk d /\ remaining (drop (Z.to_nat n) rest) r).
Proof.
  intros Hmax Hn r w Hf [Hd Hr]. unfold blob_read. destruct (Z.eqb_spec n 0) as [->|Hn0].
  - exists (Some []), r, w. rewrite take_0, drop_0. done.
  - apply (blob_loop_calm _ n [] rest Hmax Hn r w Hf). split_and!; [done..|]. unfold rounds. destruct (_ <=? _); lia.
Qed.

(** a storage failure while a file or a derivative is streamed ends the stream without
    an error: when the next chunk cannot be read, the reader reports the end of the
    file, and does so for good, whatever chunks are on the disk. *)
Theorem failed_read_truncates r w fs n :
  cb_done r = false -> len (cb_buf r) <= cb_pos r -> valid_name (name_of (cb_part_index r)) = true ->
  fates w = FailsBefore :: fs -> 0 < n ->
  exists r' w', blob_read key name_of n r w = (Ok (Ok (Some [])), r', w') /\ disk w' = disk w
    /\ forall m w2, blob_read key name_of m r' w2 = (Ok (Ok (Some [])), r', w2).
Proof.
  intros Hnd Hle Hv Hf Hn. destruct (run_read_fails _ w fs Hv Hf) as (e & w' & Er & Ed). unfold blob_read at 1. destruct (Z.eqb_spec n 0) as [?|_]; [lia|].
  assert (exists f, (2 * Z.to_nat n + 2 = S f /\ 0 < f)%nat) as (f & -> & Hf0) by (exists (2 * Z.to_nat n + 1)%nat; lia).
  assert (forall r0 : CatalogBlobReader, cb_done r0 = true -> forall fuel m out w2, (0 < fuel)%nat ->
    blob_loop key name_of fuel m out r0 w2 = (Ok (Ok (Some out)), r0, w2)) as Hdone.
  { intros r0 H0 [|fuel] m out w2 Hfu; [lia|]. cbn [blob_loop]. destruct (negb (0 <? m)); [done|].
    unfold mbind, StIO_bind, st_get. by rewrite H0. }
  cbn [blob_loop]. rewrite (proj2 (Z.ltb_lt 0 n) Hn). cbn [negb].
  unfold mbind at 1, StIO_bind at 1, st_get at 1. rewrite Hnd, (proj2 (Z.leb_le _ _) Hle).
  assert (load_next_chunk key name_of (drop_buffer r) w = (Ok (Ok tt), set_done (drop_buffer r), w')) as El.
  { unfold load_next_chunk, mbind, StIO_bind, st_get, st_modify, io, attempt. cbn [cb_part_index drop_buffer]. by rewrite Er. }
  unfold mbind at 1, StIO_bind at 1, st_modify at 1, st_rbind at 1, mbind at 1, StIO_bind at 1. rewrite El.
  do 2 eexists. split; [apply (Hdone (set_done (drop_buffer r))); [done|lia]|]. split; [done|].
  intros m w2. unfold blob_read. destruct (m =? 0); [done|]. apply Hdone; [done|lia].
Qed.
End Whole.

(** Reads of the sizes [ns], one after the other. *)
Fixpoint blob_reads `{Crypto} (key : list byte) (name_of : Z -> string) (ns : list Z) : Rd CatalogBlobReader (option (list byte)) :=
  match ns with
  | [] => mret (Ok (Some []))
  | n :: ns' =>
      st_rbind (blob_read key name_of n) (fun o =>
      match o with
      | None => mret (Ok None)
      | Some b => st_rbind (blob_reads key name_of ns') (fun o' => mret (Ok (app b <$> o')))
      end)
  end.

(** C40: without storage failures a file or a derivative that is streamed in pieces of any
    sizes arrives complete and in order: the pieces are the content of its chunks up to
    the first missing one. *)
Theorem whole_file_reads `{cr : Crypto} {crl : CryptoLaws cr} key name_of parts ns w :
  parts_on_disk key name_of parts (disk w) -> fates w = [] -> (forall p, p ∈ parts -> len p <= U64_MAX) ->
  Forall (fun n => 0 <= n) ns ->
  exists r' w', blob_reads key name_of ns blob_reader_new w
    = (Ok (Ok (Some (take (Z.to_nat (foldr Z.add 0 ns)) (concat parts)))), r', w').
Proof.
  intros Hd Hf Hmax Hns.
  assert (forall rest, reads_calm (fun r d => parts_on_disk key name_of parts d /\ remaining parts rest r) (blob_reads key name_of ns)
    (fun o _ _ => o = Some (take (Z.to_nat (foldr Z.add 0 ns)) rest))) as Hall.
  { clear Hd Hf w. induction Hns as [|n ns Hn Hns IH]; intros rest; cbn [blob_reads foldr].
    { intros r w Hf _. do 3 eexists. split; [reflexivity|]. split; [done|]. by rewrite take_0. }
    assert (0 <= foldr Z.add 0 ns) by (clear IH; induction Hns; cbn; lia).
    eapply reads_calm_bind; [by apply blob_read_calm|]. intros o r w Hf (-> & Hd & Hr).
    destruct (IH (drop (Z.to_nat n) rest) r w Hf (conj Hd Hr)) as (o' & r' & w' & E & Hf' & ->).
    unfold st_rbind, mbind, StIO_bind. rewrite E. do 3 eexists. split; [reflexivity|]. split; [done|].
    cbn. f_equal. rewrite take_take_drop. f_equal. lia. }
  destruct (Hall (concat parts) blob_reader_new w Hf) as (o & r' & w' & E & _ & ->); [|eauto].
  split; [done|]. split; [done|]. exists 0%nat. cbn. split_and!; try done; lia.
Qed.

(** ** Concrete runs *)

#[local] Existing Instances toy_crypto toy_crypto_laws.

Definition demo_key : list byte := replicate KEY_SIZE x07.
Definition demo_name (i : Z) : string := blob_chunk_name demo_key 5 i.
Definition demo_enc (p : list byte) : list byte := to_be_bytes NONCE_SIZE 0 ++ p ++ replicate TAG_SIZE x00.
Definition demo_content : list byte := [x01; x02; x03; x04; x05].
Definition demo_parts : list (list byte) := [[x01; x02]; [x03; x04]; [x05]].
Definition demo_disk : Disk :=
  list_to_map [(demo_name 0, demo_enc [x01; x02]); (demo_name 1, demo_enc [x03; x04]); (demo_name 2, demo_enc [x05])].
(** The second chunk is cached. *)
Definition demo_cache : DecryptedChunkCache := cache_insert 0 (mkKey 5 9 1 2) [x03; x04] (cache_new 100 10).

Lemma demo_on_disk : file_on_disk demo_key 5 2 demo_content demo_disk.
Proof.
  intros i H0 H1. change (len demo_content) with 5 in H1.
  assert (i = 0 \/ i = 1 \/ i = 2) as [->|[->| ->]] by lia; eexists; (split; [vm_compute; reflexivity|vm_compute; reflexivity]).
Qed.

Lemma range_reads_exact_witness :
  match range_reads demo_key [1; 0; 7] (new_cached 5 9 demo_cache 0 1 3 2 5) (mkWorld demo_disk [] 0) with
  | (Ok (Ok o), r', w') =>
      o = Some (slice 1 (Z.min 8 3) demo_content) /\ (forall c, rr_cache r' = Some c -> cached_ok 5 9 2 demo_content c)
  | (Ok (Err _), _, w') | (Err _, _, w') => faulted [] (fates w')
  end.
Proof.
  apply (range_reads_exact demo_key 5 9 2 demo_content demo_cache 0 1 3 [1; 0; 7] (mkWorld demo_disk [] 0)).
  - split; [lia|vm_compute; discriminate|]. intros i _ H1. change (len demo_content) with 5 in H1. unfold U32_MAX. lia.
  - intros k e [Hk|[-> ->]]%cache_insert_entries _ _ _; [done|]. reflexivity.
  - apply demo_on_disk.
  - lia.
  - lia.
  - vm_compute. discriminate.
  - repeat (apply Forall_cons_2; [lia|]). apply Forall_nil_2.
Defined.

Lemma demo_parts_on_disk : parts_on_disk demo_key demo_name demo_parts demo_disk.
Proof.
  split.
  - intros [|[|[|i]]] p; [intros [= <-]..|intros H1; destruct i; discriminate H1]; eexists; (split; vm_compute; reflexivity).
  - vm_compute. reflexivity.
  - intros Hin. unfold demo_parts in Hin. by repeat (apply elem_of_cons in Hin as [?|Hin]; [done|]); apply elem_of_nil in Hin.
  - vm_compute. discriminate.
  - intros i. unfold demo_name, blob_chunk_name. apply chunk_name_u64_valid.
Qed.

Lemma whole_file_reads_witness :
  exists r' w', blob_reads demo_key demo_name [1; 3; 9] blob_reader_new (mkWorld demo_disk [] 0)
    = (Ok (Ok (Some (take 13 (concat demo_parts)))), r', w').
Proof.
  apply (whole_file_reads demo_key demo_name demo_parts [1; 3; 9] (mkWorld demo_disk [] 0)).
  - apply demo_parts_on_disk.
  - reflexivity.
  - intros p Hp. repeat (apply elem_of_cons in Hp as [->|Hp]; [vm_compute; discriminate|]). by apply elem_of_nil in Hp.
  - repeat (apply Forall_cons_2; [lia|]). apply Forall_nil_2.
Defined.

(** The first chunk arrived, the second cannot be read. *)
Definition demo_reader : CatalogBlobReader := mkBlobReader 1 [x01; x02] 2 false.

Lemma failed_read_truncates_witness :
  exists r' w', blob_read demo_key demo_name 4 demo_reader (mkWorld demo_disk [FailsBefore] 0) = (Ok (Ok (Some [])), r', w')
    /\ disk w' = demo_disk /\ forall m w2, blob_read demo_key demo_name m r' w2 = (Ok (Ok (Some [])), r', w2).
Proof.
  apply (failed_read_truncates demo_key demo_name demo_reader (mkWorld demo_disk [FailsBefore] 0) [] 4).
  - reflexivity.
  - vm_compute. discriminate.
  - vm_compute. reflexivity.
  - reflexivity.
  - lia.
Defined.
