(* ===== verification/BlobFinalize.v ===== *)
(** * Finishing a change of a file

    Models [crates/core/src/rpc/router/blob_finalize.rs] (what every change of a file's
    content does to the catalog, the caches and the pending deltas),
    [VaultSession::save] and [RpcRouter::save]. The state of the router is the session and
    the cached derivative index; clock readings are arguments. *)

From Stdlib Require Import Strings.Byte Ascii String.
From stdpp Require Import base countable gmap strings list.
From S2P Require Import Prelude.
From S2P Require Import CatalogNode.
From S2P Require Import CatalogManager.
From S2P Require Import CatalogDelta.
From S2P Require Import CatalogShard.
From S2P Require Import Bytes.
From S2P Require Import Storage.
From S2P Require Import Crypto.
From S2P Require Import IoLogic.
From S2P Require Import DurableTx.
From S2P Require Import CatalogCommit.
From S2P Require Import CatalogSave.
From S2P Require Import ChunkCache.
From S2P Require Import CatalogSession.
From S2P Require Import DerivativeIndex.
Open Scope Z_scope.

(** ** The router's state *)

Record RpcRouter := mkRouter {
  session : VaultSession;
  derivative_index_state : DerivativeIndexCacheState;
}.

Definition set_session (s : VaultSession) (r : RpcRouter) : RpcRouter := mkRouter s (derivative_index_state r).

Abbreviation Rt A := (StIO RpcRouter A).

(** A pure change of the session. *)
Definition on_session {A} (f : VaultSession -> A * VaultSession) : Rt A := fun r w =>
  let '(a, s) := f (session r) in (Ok a, set_session s r, w).

Definition modify_session (f : VaultSession -> VaultSession) : Rt unit := on_session (fun s => (tt, f s)).

(** A computation on the session, and one on the cached index. *)
Definition in_session {A} (c : StIO VaultSession A) : Rt A := fun r w =>
  let '(a, s, w') := c (session r) w in (a, set_session s r, w').

Definition in_index {A} (c : StIO DerivativeIndexCacheState A) : Rt A := fun r w =>
  let '(a, i, w') := c (derivative_index_state r) w in (a, mkRouter (session r) i, w').

Definition with_catalog (m : CatalogManager) (s : VaultSession) : VaultSession :=
  mkSession m true (pending_deltas s) (chunk_cache s) (bypass s).

(** [session.catalog_mut().find_by_id_mut(id)], then code under the borrow. *)
Definition node_mut {A} (id : Z) (k : CatalogNode -> A * CatalogNode) (s : VaultSession) : option A * VaultSession :=
  match with_id_mut id k (catalog s) with
  | (Ok a, m) => (Some a, with_catalog m s)
  | (Err _, m) => (None, with_catalog m s)
  end.

(** ** Finalization *)

Inductive BlobFinalizationDelta :=
  | SourceRevisionOnly
  | FinalizeReplace (size : Z) (mime : string)
  | FinalizeUpload (size : Z) (mime : option string).

Record BlobFinalizationInput := mkFinalization {
  bf_node_id : Z;
  bf_size : option Z;
  bf_mime_type : option string;
  bf_modtime : option Z;
  bf_source_revision : option Z;
  bf_delta : BlobFinalizationDelta;
}.

Record BlobFinalizationOutcome := mkOutcome { bo_modtime : Z; bo_source_revision : Z }.

Inductive BlobFinalizeError := FinalizeNodeNotFound | FinalizeIndexFailed (e : Error).

(** The fields of the delta that is recorded. *)
Definition finalization_fields (delta : BlobFinalizationDelta) (modtime revision : Z) : PartialNode :=
  let '(size, mime) := match delta with
                       | SourceRevisionOnly => (None, None)
                       | FinalizeReplace size mime => (Some size, Some mime)
                       | FinalizeUpload size mime => (Some size, mime)
                       end in
  mkPartial None size mime (Some None) (Some 0) (Some modtime) (Some revision).

(** [record_source_revision_delta], [record_file_replace_delta], [record_upload_delta]. *)
Definition record_finalization (ts : Z) (id : Z) (path : string) (fields : PartialNode) (s : VaultSession) : VaultSession :=
  let normalized := normalize_path path in
  match path_shard_id normalized with
  | None => s
  | Some shard_id =>
      match shard_relative_path shard_id normalized with
      | None => s
      | Some rel_path => record_delta shard_id (with_node_id id (de_update ts 0 rel_path fields)) s
      end
  end.

(** The change of the node; the modification time and the revision it has afterwards. *)
Definition finalize_node (clk : clock) (input : BlobFinalizationInput) (n : CatalogNode) : (Z * Z) * CatalogNode :=
  let n := from_option (fun size => set_node_size size n) n (bf_size input) in
  let n := from_option (fun mime => set_mime_type (Some mime) n) n (bf_mime_type input) in
  let '(modtime, revision, n) :=
    match bf_modtime input, bf_source_revision input with
    | Some modtime, Some revision => (modtime, revision, set_source_revision revision (set_modtime modtime n))
    | _, _ =>
        let n := touch (clk 0%nat) n in
        let '(revision, n) := bump_source_revision (clk 1%nat) n in
        (CatalogNode.modtime n, revision, n)
    end in
  ((modtime, revision), set_media_inspected_revision 0 (set_media_info None n)).

Section Finalize.
Context `{cr : Crypto} `{Serde DerivativeIndexRecord} (vault_key : list byte) (clk : clock).

(** [cached] says whether the caller has the cached index (the domain writer has not). *)
Definition finalize_blob_write (cached : bool) (input : BlobFinalizationInput)
    : Rt (result BlobFinalizeError BlobFinalizationOutcome) :=
  r ← st_get;
  let path := get_path (catalog (session r)) (bf_node_id input) in
  changed ← on_session (node_mut (bf_node_id input) (finalize_node clk input));
  match changed with
  | None => mret (Err FinalizeNodeNotFound)
  | Some (modtime, revision) =>
      modify_session (invalidate_chunks [bf_node_id input]);;
      removed ← st_attempt (
        if cached then in_index (cached_delete_stale_derivatives_for_node vault_key (bf_node_id input) revision)
        else io (delete_stale_derivatives_for_node vault_key (bf_node_id input) revision));
      match removed with
      | Err e => mret (Err (FinalizeIndexFailed e))
      | Ok _ =>
          (match path with
           | None => mret tt
           | Some path =>
               modify_session (record_finalization (clk 2%nat) (bf_node_id input) path
                                 (finalization_fields (bf_delta input) modtime revision))
           end);;
          mret (Ok (mkOutcome modtime revision))
      end
  end.
End Finalize.

(** ** Saving *)

Section SaveRouter.
Context `{cr : Crypto}.
Context `{Serde RootIndex, Serde Shard, Serde DeltaEntry,
          Serde CatalogCommitRecord, Serde (DurableTxRecord CatalogCommitRecord), Serde DerivativeIndexRecord}.
Context (vault_key : list byte) (clk : clock) (clks : string -> clock).

Definition with_pending (p : gmap string (list DeltaEntry)) (s : VaultSession) : VaultSession :=
  mkSession (catalog s) (dirty s) p (chunk_cache s) (bypass s).
Definition set_dirty (b : bool) (s : VaultSession) : VaultSession :=
  mkSession (catalog s) b (pending_deltas s) (chunk_cache s) (bypass s).

(** [VaultSession::save]: what a failing save left of the pending deltas stays. *)
Definition session_save : StIO VaultSession (list (string * DeltaEntry)) := fun s w =>
  if negb (dirty s) then (Ok [], s, w) else
  let '(r, pending, persisted, w') := run_save vault_key clk clks (catalog s) (pending_deltas s) w in
  match r with
  | Ok _ => (Ok persisted, set_dirty false (with_pending ∅ s), w')
  | Err e => (Err e, with_pending pending s, w')
  end.

(** [RpcRouter::save] with an open session; the events for the deltas are left out. *)
Definition router_save : Rt unit :=
  in_index (flush vault_key);;
  r ← st_get;
  if dirty (session r) then in_session session_save;; mret tt else mret tt.
End SaveRouter.
