(* ===== verification/FileReplaceService.v ===== *)
(** * The replace command

    Models [crates/core/src/rpc/router/catalog_streams/file_streams/replace/service.rs]
    and the reading of its input stream ([crates/core/src/rpc/stream.rs]): the checks of
    the target, the replacement of the chunks, the update of the catalog, the save and the
    removal of the marker. Requests are the parsed ones and the session is open. *)

From Stdlib Require Import Strings.Byte Ascii String.
From stdpp Require Import base countable gmap strings list.
From S2P Require Import Prelude.
From S2P Require Import CatalogNode.
From S2P Require Import CatalogManager.
From S2P Require Import CatalogDelta.
From S2P Require Import CatalogShard.
From S2P Require Import Bytes.
From S2P Require Import Storage.
From S2P Require Import Crypto.
From S2P Require Import IoLogic.
From S2P Require Import DurableTx.
From S2P Require Import CatalogCommit.
From S2P Require Import CatalogSave.
From S2P Require Import ChunkCache.
From S2P Require Import CatalogSession.
From S2P Require Import DerivativeIndex.
From S2P Require Import FileReplace.
From S2P Require Import BlobReader.
From S2P Require Import BlobFinalize.
Open Scope Z_scope.

(** ** Input streams *)

(** What a stream delivers before its end, or before a failure of the transport (of another
    kind than an unexpected end or invalid data). *)
Record RpcInputStream := mkInput { in_bytes : list byte; in_failure : option Error }.

Definition MAX_SINGLE_RPC_STREAM_BYTES : Z := 512 * 1024 * 1024.

(** The error kind of a failing transport. *)
Inductive StreamError := StreamError_of (e : IoError) | StreamFailed (e : Error).

(** [reader.read_exact] and what is left of the stream. *)
Definition read_exact (n : Z) (s : RpcInputStream) : result StreamError (list byte * RpcInputStream) :=
  if len (in_bytes s) <? n then
    Err (match in_failure s with
         | Some e => StreamFailed e
         | None => StreamError_of (io_error UnexpectedEof "failed to fill whole buffer")
         end)
  else Ok (take (Z.to_nat n) (in_bytes s), mkInput (drop (Z.to_nat n) (in_bytes s)) (in_failure s)).

Definition read_exact_limited (s : RpcInputStream) (expected_size max_size : Z)
    : result StreamError (list byte * RpcInputStream) :=
  if max_size <? expected_size then Err (StreamError_of (io_error InvalidInput "stream size exceeds limit"))
  else read_exact expected_size s.

Definition read_stream_exact_limited (s : RpcInputStream) (expected_size max_size : Z) : result StreamError (list byte) :=
  '(bytes, rest) ← read_exact_limited s expected_size max_size;
  match in_bytes rest, in_failure rest with
  | _ :: _, _ => Err (StreamError_of (io_error InvalidData "stream contains extra bytes"))
  | [], Some e => Err (StreamFailed e)
  | [], None => Ok bytes
  end.

(** ** The command *)

Record ReplaceRequest := mkReplaceRequest {
  rq_node_id : Z;
  rq_size : Z;
  rq_mime_type : option string;
  rq_expected_source_revision : option Z;
  rq_overwrite : bool;
}.

Record CatalogFileReplaceResponse := mkReplaceResponse {
  rp_node_id : Z;
  rp_size : Z;
  rp_mime_type : string;
  rp_modtime : Z;
  rp_source_revision : Z;
  rp_media_info : option CatalogMediaInfo;
  rp_media_inspected_revision : Z;
}.

Record ReplaceTargetSnapshot := mkTarget {
  tg_old_size : Z;
  tg_old_mime_type : option string;
  tg_old_media_info : option CatalogMediaInfo;
  tg_old_media_inspected_revision : Z;
  tg_old_modtime : Z;
  tg_old_source_revision : Z;
  tg_old_node_chunk_size : Z;
  tg_chunk_size : Z;
}.

Definition replacement_chunk_size (current : Z) : Z := Z.max current DEFAULT_CHUNK_SIZE.

(** The snapshot of the node. *)
Definition target_of (node : CatalogNode) : ReplaceTargetSnapshot :=
  mkTarget (node_size node) (mime_type node) (media_info node) (media_inspected_revision node) (modtime node)
    (source_revision node) (chunk_size node)
    (if chunk_size node =? 0 then DEFAULT_CHUNK_SIZE else chunk_size node).

Definition validate_target (s : VaultSession) (request : ReplaceRequest) : result ReplaceCommandError ReplaceTargetSnapshot :=
  match get_path (catalog s) (rq_node_id request) with
  | None => Err ReplaceNodeNotFound
  | Some path =>
      if is_system_path_guarded s (normalize_path path) then Err ReplaceAccessDenied else
      match find_by_id (catalog s) (rq_node_id request) with
      | None => Err ReplaceNodeNotFound
      | Some node =>
          if negb (is_file node) then Err ReplaceNotFile else
          if from_option (fun expected => negb (rq_overwrite request) && negb (source_revision node =? expected))
               false (rq_expected_source_revision request)
          then Err ReplaceStaleSource else
          Ok (target_of node)
      end
  end.

Definition stream_error (e : StreamError) : ReplaceCommandError :=
  match e with
  | StreamError_of io =>
      match io_kind io with
      | UnexpectedEof | InvalidData => ReplaceSizeMismatch
      | _ => ReplaceInternal "Failed to read stream"
      end
  | StreamFailed e => ReplaceInternalBy "Failed to read stream" e
  end.

Definition from_blob_finalize_error (e : BlobFinalizeError) : ReplaceCommandError :=
  match e with
  | FinalizeNodeNotFound => ReplaceNodeNotFound
  | FinalizeIndexFailed e => ReplaceInternalBy "Derivative index update failed" e
  end.

(** The node with its old fields. *)
Definition restore_node (t : ReplaceTargetSnapshot) (n : CatalogNode) : CatalogNode :=
  set_node_chunk_size (tg_old_node_chunk_size t)
    (set_source_revision (tg_old_source_revision t) (set_modtime (tg_old_modtime t)
      (set_media_inspected_revision (tg_old_media_inspected_revision t) (set_media_info (tg_old_media_info t)
        (set_mime_type (tg_old_mime_type t) (set_node_size (tg_old_size t) n)))))).

Section Service.
Context `{cr : Crypto}.
Context `{Serde RootIndex, Serde Shard, Serde DeltaEntry,
          Serde CatalogCommitRecord, Serde (DurableTxRecord CatalogCommitRecord), Serde DerivativeIndexRecord,
          Serde FileReplaceTransaction, Serde (DurableTxRecord FileReplaceTransaction)}.
Context (vault_key : list byte).
(** The clock of the finalization, of the save and of the shards it replays. *)
Context (fclk clk : clock) (clks : string -> clock).

Definition restore_after_finalization_failure (node_id : Z) (t : ReplaceTargetSnapshot) (replacement : ChunkReplacement)
    : Rt unit :=
  io (ignore (restore_chunks (cr_backups replacement)));;
  io (ignore (cleanup_file_replace_marker vault_key (cr_transaction replacement)));;
  on_session (node_mut node_id (fun n => (tt, restore_node t n)));;
  mret tt.

(** From the replaced chunks on. *)
Definition commit_replacement (request : ReplaceRequest) (t : ReplaceTargetSnapshot) (new_chunk_size : Z)
    (replacement : ChunkReplacement) : Rt (result ReplaceCommandError CatalogFileReplaceResponse) :=
  (if negb (new_chunk_size =? tg_chunk_size t)
   then on_session (node_mut (rq_node_id request) (fun n => (tt, set_node_chunk_size new_chunk_size n)));; mret tt
   else mret tt);;
  let result_mime_type :=
    default "application/octet-stream"
      (match rq_mime_type request with Some m => Some m | None => tg_old_mime_type t end) in
  finalized ← finalize_blob_write vault_key fclk true
    (mkFinalization (rq_node_id request) (Some (rq_size request)) (rq_mime_type request)
       (Some (cr_modtime replacement)) (Some (cr_source_revision replacement))
       (FinalizeReplace (rq_size request) result_mime_type));
  match finalized with
  | Err e =>
      restore_after_finalization_failure (rq_node_id request) t replacement;;
      mret (Err (from_blob_finalize_error e))
  | Ok _ =>
      saved ← st_attempt (router_save vault_key clk clks);
      match saved with
      | Err e => mret (Err (ReplaceInternalBy "Catalog save failed" e))
      | Ok _ =>
          io (ignore (cleanup_file_replace_marker vault_key (cr_transaction replacement)));;
          mret (Ok (mkReplaceResponse (rq_node_id request) (rq_size request) result_mime_type
                      (cr_modtime replacement) (cr_source_revision replacement) None 0))
      end
  end.

Definition replace_file (operation_id now : Z) (request : ReplaceRequest) (stream : option RpcInputStream)
    : Rt (result ReplaceCommandError CatalogFileReplaceResponse) :=
  r ← st_get;
  match validate_target (session r) request with
  | Err e => mret (Err e)
  | Ok target =>
      match stream with
      | None => mret (Err ReplaceNoStream)
      | Some stream =>
          match read_stream_exact_limited stream (rq_size request) MAX_SINGLE_RPC_STREAM_BYTES with
          | Err e => mret (Err (stream_error e))
          | Ok content =>
              modify_session (invalidate_chunks [rq_node_id request]);;
              if tg_chunk_size target =? 0 then mret (Err (ReplaceInternal "Invalid chunk size")) else
              let new_chunk_size := replacement_chunk_size (tg_chunk_size target) in
              if negb (rq_node_id request <=? U32_MAX) then mret (Err (ReplaceInternal "Invalid node_id")) else
              st_rbind (io (replace_chunks vault_key operation_id now (rq_node_id request) (tg_old_size target)
                              (rq_size request) (tg_chunk_size target) new_chunk_size content
                              (tg_old_source_revision target)))
                (commit_replacement request target new_chunk_size)
          end
      end
  end.
End Service.
