(* ===== verification/Footprint.v ===== *)
(** * What a computation may touch

    [footprint N c Q]: whatever faults it meets, [c] leaves every chunk whose name is not in
    [N] as it is, and what it returns satisfies [Q]; [st_footprint] is the same for
    computations with a value in memory. The rules, and the tactic [fp] that applies them. *)

From Stdlib Require Import Strings.Byte Ascii String.
From stdpp Require Import base countable gmap strings list sorting.
From S2P Require Import Prelude.
From S2P Require Import CatalogNode.
From S2P Require Import Storage.
From S2P Require Import Crypto.
From S2P Require Import IoLogic.
From S2P Require Import DurableTx.
From S2P Require Import CatalogCommit.
Open Scope Z_scope.

Definition same_outside (N : string -> Prop) (d d' : Disk) : Prop := forall n, ~ N n -> d' !! n = d !! n.

#[export] Instance same_outside_preorder N : PreOrder (same_outside N).
Proof. split; [by intros d n|]. intros d1 d2 d3 H1 H2 n Hn. by rewrite H2, H1. Qed.

Definition footprint {A} (N : string -> Prop) (c : IO A) (Q : A -> Prop) : Prop :=
  forall w, let '(r, w') := c w in same_outside N (disk w) (disk w') /\ forall a, r = Ok a -> Q a.

(** The same with a value in memory that keeps [I]. *)
Definition st_footprint {S A} (N : string -> Prop) (I : S -> Prop) (c : StIO S A) (Q : A -> Prop) : Prop :=
  forall s w, I s -> let '(r, s', w') := c s w in same_outside N (disk w) (disk w') /\ I s' /\ forall a, r = Ok a -> Q a.

Section Rules.
Context {A B : Type} (N : string -> Prop).

Lemma fp_ret (a : A) (Q : A -> Prop) : Q a -> footprint N (mret a) Q.
Proof. intros Ha w. split; [reflexivity|]. by intros ? [= <-]. Qed.

Lemma fp_bind (c : IO A) (k : A -> IO B) P Q :
  footprint N c P -> (forall a, P a -> footprint N (k a) Q) -> footprint N (c ≫= k) Q.
Proof.
  intros Hc Hk w. specialize (Hc w). unfold mbind, IO_bind. destruct (c w) as [[a|e] w1]; destruct Hc as [H1 Ha]; [|done].
  specialize (Hk a (Ha a eq_refl) w1). destruct (k a w1) as [r w2]. destruct Hk. split; [by etransitivity|done].
Qed.

Lemma fp_weak (c : IO A) (P Q : A -> Prop) : footprint N c P -> (forall a, P a -> Q a) -> footprint N c Q.
Proof. intros Hc HPQ w. specialize (Hc w). destruct (c w) as [r w']. destruct Hc. split; auto. Qed.

Lemma fp_wider (N' : string -> Prop) (c : IO A) Q : (forall n, N' n -> N n) -> footprint N' c Q -> footprint N c Q.
Proof.
  intros HN Hc w. specialize (Hc w). destruct (c w) as [r w']. destruct Hc as [Hs Hq]. split; [|done].
  intros n Hn. apply Hs. auto.
Qed.

Lemma fp_attempt (c : IO A) Q : footprint N c Q -> footprint N (attempt c) (fun r => forall a, r = Ok a -> Q a).
Proof.
  intros Hc w. specialize (Hc w). unfold attempt. destruct (c w) as [[a|[e|]] w']; destruct Hc as [Hs Hq]; (split; [done|]).
  - intros r [= <-] a' [= <-]. auto.
  - by intros r [= <-].
  - done.
Qed.

Lemma fp_call (eff : Disk -> result Error A * Disk) (Q : A -> Prop) :
  (forall d, same_outside N d (snd (eff d))) -> (forall d a, fst (eff d) = Ok a -> Q a) -> footprint N (call eff) Q.
Proof.
  intros He Hq w. unfold call. destruct (fates w) as [|[] fs]; cbn;
    (split; [first [apply He|reflexivity]|]); try done; intros a; destruct (fst (eff (disk w))) eqn:E; cbn; try done;
    intros [= <-]; by eapply Hq.
Qed.

Lemma fp_lift (r : result Error A) : footprint N (io_lift r) (fun a => r = Ok a).
Proof. intros w. split; [reflexivity|]. destruct r; cbn; [|done]. by intros ? [= <-]. Qed.

Lemma st_fp_ret {S} (I : S -> Prop) (a : A) (Q : A -> Prop) : Q a -> st_footprint N I (mret a) Q.
Proof. intros Ha s w Hs. split; [reflexivity|]. split; [done|]. by intros ? [= <-]. Qed.

Lemma st_fp_bind {S} (I : S -> Prop) (c : StIO S A) (k : A -> StIO S B) P Q :
  st_footprint N I c P -> (forall a, P a -> st_footprint N I (k a) Q) -> st_footprint N I (c ≫= k) Q.
Proof.
  intros Hc Hk s w Hs. specialize (Hc s w Hs). unfold mbind, StIO_bind.
  destruct (c s w) as [[[a|e] s1] w1]; destruct Hc as (H1 & Hi & Ha); [|done].
  specialize (Hk a (Ha a eq_refl) s1 w1 Hi). destruct (k a s1 w1) as [[r s2] w2]. destruct Hk as (? & ? & ?).
  split; [by etransitivity|done].
Qed.

Lemma st_fp_io {S} (I : S -> Prop) (c : IO A) Q : footprint N c Q -> st_footprint N I (io c) Q.
Proof. intros Hc s w Hs. specialize (Hc w). unfold io. destruct (c w) as [r w']. destruct Hc. done. Qed.

Lemma st_fp_get {S} (I : S -> Prop) (k : S -> StIO S A) Q :
  (forall s, I s -> st_footprint N I (k s) Q) -> st_footprint N I (st_get ≫= k) Q.
Proof. intros Hk s w Hs. unfold mbind, StIO_bind, st_get. by apply Hk. Qed.
End Rules.

Lemma st_fp_modify {S} (N : string -> Prop) (I : S -> Prop) f : (forall s, I s -> I (f s)) -> st_footprint N I (st_modify f) (fun _ => True).
Proof. intros Hf s w Hs. split; [reflexivity|]. auto. Qed.

Lemma st_fp_seq {S A B} (N : string -> Prop) (I : S -> Prop) (c : StIO S A) (k : StIO S B) Q :
  st_footprint N I c (fun _ => True) -> st_footprint N I k Q -> st_footprint N I (c;; k) Q.
Proof. intros Hc Hk. by apply (st_fp_bind _ _ _ _ (fun _ => True)). Qed.

Lemma fp_seq {A B} (N : string -> Prop) (c : IO A) (k : IO B) Q :
  footprint N c (fun _ => True) -> footprint N k Q -> footprint N (c;; k) Q.
Proof. intros Hc Hk. by apply (fp_bind _ _ _ (fun _ => True)). Qed.

Section Calls.
Context (N : string -> Prop).

Lemma fp_named {A} n (eff : Disk -> result Error A * Disk) :
  (forall d, same_outside N d (snd (eff d))) -> footprint N (io_lift (chunk_path n);; call eff) (fun _ => True).
Proof. intros He. apply (fp_bind _ _ _ (fun _ => True)); [eapply fp_weak; [apply fp_lift|done]|]. intros _ _. by apply fp_call. Qed.

Lemma fp_read n : footprint N (read_chunk n) (fun _ => True).
Proof. apply fp_named. by intros d m. Qed.
Lemma fp_exists n : footprint N (chunk_exists n) (fun _ => True).
Proof. apply fp_named. by intros d m. Qed.
Lemma fp_sync : footprint N sync (fun _ => True).
Proof. apply fp_call; [by intros d m|done]. Qed.
Lemma fp_write n bs : N n -> footprint N (write_chunk_atomic n bs) (fun _ => True).
Proof. intros Hn. apply fp_named. intros d m Hm. cbn. apply lookup_insert_ne. by intros ->. Qed.
Lemma fp_delete n : N n -> footprint N (delete_chunk n) (fun _ => True).
Proof. intros Hn. apply fp_named. intros d m Hm. cbn. apply lookup_delete_ne. by intros ->. Qed.

Lemma fp_encrypt `{cr : Crypto} plain key aad : footprint N (encrypt plain key aad) (fun _ => True).
Proof.
  apply (fp_bind _ _ _ (fun _ => True)); [|intros nonce _; apply (fp_bind _ _ _ (fun _ => True));
    [eapply fp_weak; [apply fp_lift|done]|intros; by apply fp_ret]].
  intros w. unfold io_map_err, attempt, mbind, IO_bind, getrandom.
  pose proof (fp_call N (fun d => (Ok (random_nonce (draws w)), d)) (fun _ => True) ltac:(by intros d m) ltac:(done) w) as Hc.
  destruct (call _ w) as [[a|[e|]] w']; cbn; destruct Hc; done.
Qed.

Lemma fp_seal `{cr : Crypto} {A} `{Serde A} (x : A) key aad : footprint N (seal x key aad) (fun _ => True).
Proof. apply (fp_bind _ _ _ (fun _ => True)); [eapply fp_weak; [apply fp_lift|done]|]. intros p _. apply fp_encrypt. Qed.
End Calls.

(** ** Automation *)

Section More.
Context (N : string -> Prop).

Lemma fp_then {A B} (c : IO A) (k : A -> IO B) Q :
  footprint N c (fun _ => True) -> (forall a, footprint N (k a) Q) -> footprint N (c ≫= k) Q.
Proof. intros Hc Hk. by apply (fp_bind _ _ _ (fun _ => True)). Qed.

Lemma fp_any {A} (c : IO A) Q : footprint N c Q -> footprint N c (fun _ => True).
Proof. intros Hc. by eapply fp_weak. Qed.

Lemma fp_lift_any {A} (r : result Error A) : footprint N (io_lift r) (fun _ => True).
Proof. eapply fp_any, fp_lift. Qed.

Lemma fp_throw {A} e (Q : A -> Prop) : footprint N (io_throw e) Q.
Proof. intros w. by split. Qed.

Lemma fp_map_err {A} f (c : IO A) Q : footprint N c Q -> footprint N (io_map_err f c) Q.
Proof.
  intros Hc. eapply fp_bind; [apply fp_attempt, Hc|]. intros r Hr. eapply fp_weak; [apply fp_lift|].
  intros a Ha. apply Hr. destruct r; [|done]. cbn in Ha. by injection Ha as ->.
Qed.

Lemma fp_attempt_any {A} (c : IO A) : footprint N c (fun _ => True) -> footprint N (attempt c) (fun _ => True).
Proof. intros Hc. eapply fp_any, fp_attempt, Hc. Qed.

Lemma fp_ignore {A} (c : IO A) : footprint N c (fun _ => True) -> footprint N (ignore c) (fun _ => True).
Proof. intros Hc. apply fp_then; [by apply fp_attempt_any|]. intros. by apply fp_ret. Qed.
End More.

Create HintDb footprint.
#[export] Hint Resolve fp_read fp_exists fp_sync fp_encrypt fp_seal fp_lift_any fp_throw : footprint.

(** Takes a computation apart; leaves the writes, the deletions and the calls of other
    operations. *)
Ltac fp :=
  repeat first
    [ match goal with
      | |- forall _, _ => intros
      | |- footprint _ (_ ≫= _) _ => apply fp_then
      | |- footprint _ (mret _) _ => apply fp_ret; solve [auto]
      | |- footprint _ (io_map_err _ _) _ => apply fp_map_err
      | |- footprint _ (attempt _) _ => apply fp_attempt_any
      | |- footprint _ (ignore _) _ => apply fp_ignore
      end
    | solve [auto with footprint]
    | match goal with |- footprint _ (match ?x with _ => _ end) _ => destruct x end
    | progress cbn beta iota zeta ].

Section Chunks.
Context (N : string -> Prop).

Lemma fp_delete_chunks ns : (forall n, n ∈ ns -> N n) -> footprint N (delete_chunks ns) (fun _ => True).
Proof.
  induction ns as [|n ns IH]; intros Hn; cbn [delete_chunks]; fp.
  - apply fp_delete, Hn. left.
  - apply IH. intros m Hm. apply Hn. by right.
Qed.

(** The marker of a transaction. *)
Context `{cr : Crypto} {P T : Type} `{DurableTxParticipant P T, Serde (DurableTxRecord T)} (key : list byte) (p : P).

Lemma fp_write_record id phase (t : T) : N (store_marker key p) -> footprint N (write_record key p id phase t) (fun _ => True).
Proof. intros Hn. unfold write_record. fp. by apply fp_write. Qed.

Lemma fp_store_delete : N (store_marker key p) -> footprint N (store_delete key p) (fun _ => True).
Proof. intros Hn. unfold store_delete, delete_record. fp. by apply fp_delete. Qed.
End Chunks.
