(* ===== verification/SaveFootprint.v ===== *)
(** * A save touches only the catalog

    Whatever is on the disk, whatever the catalog and whatever faults it meets, a save that
    finds no commit pending writes and deletes only the root index, the commit marker, and
    snapshots and deltas of the shards in play: those of the root index on the disk, of the
    catalog and of the pending deltas. The chunks of files and of derivatives are safe. *)

From Stdlib Require Import Strings.Byte Ascii String.
From stdpp Require Import base countable gmap strings list sorting.
From S2P Require Import Prelude.
From S2P Require Import CatalogNode.
From S2P Require Import CatalogManager.
From S2P Require Import CatalogDelta.
From S2P Require Import CatalogShard.
From S2P Require Import Storage.
From S2P Require Import Crypto.
From S2P Require Import IoLogic.
From S2P Require Import DurableTx.
From S2P Require Import CatalogCommit.
From S2P Require Import CatalogLoad.
From S2P Require Import CatalogCompact.
From S2P Require Import CatalogSave.
From S2P Require Import Encoding.
From S2P Require Import SaveSafety.
From S2P Require Import SaveSpec.
From S2P Require Import Footprint.
Open Scope Z_scope.

(** The chunks of the shards [ids], and the two that every catalog has. *)
Definition in_play (ids : list string) (r : chunk_ref) : Prop :=
  match r with
  | RootRef | CommitRef => True
  | SnapshotRef id _ | DeltaRef id _ => id ∈ ids
  end.

Section SaveFootprint.
Context `{cr : Crypto}.
Context `{Serde RootIndex, Serde Shard, Serde DeltaEntry,
          Serde CatalogCommitRecord, Serde (DurableTxRecord CatalogCommitRecord)}.
Context (key : list byte) (clk : clock) (clks : string -> clock) (ids : list string).

Definition catalog_name (n : string) : Prop := exists r, in_play ids r /\ n = ref_name key r.

Lemma root_in_play : catalog_name (root_index_chunk_name key 0).
Proof. by exists RootRef. Qed.
Lemma marker_in_play : catalog_name (catalog_commit_chunk_name key).
Proof. by exists CommitRef. Qed.
Lemma snapshot_in_play id q : id ∈ ids -> catalog_name (shard_snapshot_chunk_name key id q).
Proof. by exists (SnapshotRef id q). Qed.
Lemma delta_in_play id q : id ∈ ids -> catalog_name (delta_chunk_name key id q).
Proof. by exists (DeltaRef id q). Qed.
Local Hint Resolve root_in_play marker_in_play snapshot_in_play delta_in_play : footprint.
Local Hint Resolve fp_write fp_delete : footprint.

Lemma meta_in_play m n : sm_shard_id m ∈ ids -> n ∈ chunks_for_meta key m -> catalog_name n.
Proof.
  intros Hid. unfold chunks_for_meta. rewrite elem_of_cons. intros [->|Hn]; [by apply snapshot_in_play|].
  destruct (sm_has_deltas m); [|by apply elem_of_nil in Hn].
  apply list_elem_of_fmap in Hn as (q & -> & _). by apply delta_in_play.
Qed.

(** An index all of whose metadata are of shards in play. *)
Definition known (ri : RootIndex) : Prop := map_Forall (fun _ m => sm_shard_id m ∈ ids) (ri_shards ri).

Lemma known_alter id f ri :
  (forall m, sm_shard_id (f m) = sm_shard_id m) -> known ri -> known (with_shard_meta id f ri).
Proof.
  intros Hf Hk id' m. cbn. destruct (decide (id = id')) as [<-|Hne].
  - rewrite lookup_alter_eq. intros (m' & Hm & ->)%fmap_Some. rewrite Hf. by eapply Hk.
  - rewrite lookup_alter_ne by done. apply Hk.
Qed.

Lemma known_set id m ri : sm_shard_id m ∈ ids -> known ri -> known (with_shard_meta id (fun _ => m) ri).
Proof.
  intros Hm Hk id' m'. cbn. destruct (decide (id = id')) as [<-|Hne].
  - rewrite lookup_alter_eq. by intros (m0 & _ & ->)%fmap_Some.
  - rewrite lookup_alter_ne by done. apply Hk.
Qed.

Lemma known_fresh v now : known (set_root_version v (index_new now)).
Proof. intros id m E. exact (False_ind _ (lookup_empty_Some id m E)). Qed.

(** The state of a save. *)
Record inside (s : SaveState) : Prop := {
  in_known : known (sv_root_index s);
  in_old n : n ∈ sv_old_chunks s -> catalog_name n;
  in_pending id : is_Some (sv_pending s !! id) -> id ∈ ids;
}.

Lemma inside_index ri s : known ri -> inside s -> inside (set_root_index ri s).
Proof. intros Hk []. by split. Qed.
Lemma inside_old cs s : (forall n, n ∈ cs -> catalog_name n) -> inside s -> inside (push_old cs s).
Proof. intros Hc []. split; [done| |done]. cbn. intros n [?|?]%elem_of_app; auto. Qed.
Lemma inside_new cs s : inside s -> inside (push_new cs s).
Proof. by intros []. Qed.
Lemma inside_persisted p s : inside s -> inside (push_persisted p s).
Proof. by intros []. Qed.
Lemma inside_set_pending id ds s : id ∈ ids -> inside s -> inside (set_pending id ds s).
Proof.
  intros Hid [? ? Hp]. split; [done..|]. cbn. intros id'. destruct (decide (id = id')) as [<-|Hne]; [done|].
  rewrite lookup_insert_ne by done. apply Hp.
Qed.

Abbreviation fpr c Q := (footprint catalog_name c Q).
Abbreviation sfp c Q := (st_footprint catalog_name inside c Q).

Lemma sfp_then {A B} (c : SIO A) (k : A -> SIO B) Q : sfp c (fun _ => True) -> (forall a, sfp (k a) Q) -> sfp (c ≫= k) Q.
Proof. intros Hc Hk. by apply (st_fp_bind _ _ _ _ (fun _ => True)). Qed.

Lemma sfp_on {A} f (k : SIO A) Q : (forall s, inside s -> inside (f s)) -> sfp k Q -> sfp (on_save f;; k) Q.
Proof. intros Hf Hk. apply st_fp_seq; [by apply st_fp_modify|done]. Qed.

(** *** Snapshots *)

Lemma fp_snapshot_check n s : fpr (snapshot_check key n s) (fun _ => True).
Proof. unfold snapshot_check. fp. Qed.

Lemma old_chunks_in_play (previous : option RootIndex) id n :
  (forall ri, previous = Some ri -> known ri) ->
  n ∈ from_option (chunks_for_meta key) [] (ri ← previous; ri_shards ri !! id) -> catalog_name n.
Proof.
  intros Hp. destruct previous as [ri|]; cbn; [|by intros ?%elem_of_nil].
  destruct (ri_shards ri !! id) eqn:E; cbn; [|by intros ?%elem_of_nil]. apply meta_in_play. by eapply (Hp ri).
Qed.

Context (previous : option RootIndex) (Hprev : forall ri, previous = Some ri -> known ri).

Lemma sfp_save_snapshot s : sh_id s ∈ ids -> sfp (save_snapshot key previous s) (fun _ => True).
Proof.
  intros Hid. unfold save_snapshot. apply sfp_then; [apply st_fp_io, fp_snapshot_check|].
  intros [needs changed]. destruct needs; cbn [negb]; [|by apply st_fp_ret].
  apply st_fp_get. intros st Hst. destruct (get_shard_meta _ _) as [meta|] eqn:Em; [|by apply st_fp_ret].
  assert (sm_shard_id meta ∈ ids) by (by apply (in_known _ Hst _ _ Em)).
  apply sfp_on; [intros ?; apply inside_old; intros n; by apply old_chunks_in_play|].
  apply sfp_on.
  { intros s' Hs'. apply inside_index; [|done]. apply known_set; [by destruct changed|apply Hs']. }
  apply sfp_then; [apply st_fp_io; fp|]. intros enc.
  apply sfp_on; [intros ?; apply inside_new|].
  apply st_fp_seq; [apply st_fp_io; auto with footprint|by apply st_fp_ret].
Qed.

Lemma sfp_save_snapshots ss : (forall s, s ∈ ss -> sh_id s ∈ ids) -> sfp (save_snapshots key previous ss) (fun _ => True).
Proof.
  induction ss as [|s ss IH]; intros Hss; cbn [save_snapshots]; [by apply st_fp_ret|].
  apply sfp_then; [apply sfp_save_snapshot, Hss; left|]. intros b.
  apply sfp_then; [apply IH; intros x Hx; apply Hss; by right|]. intros. by apply st_fp_ret.
Qed.

Lemma sfp_full_snapshot s id v :
  sh_id s ∈ ids -> sfp (write_full_snapshot_for_shard key s (ri ← previous; ri_shards ri !! id) v) (fun _ => True).
Proof.
  intros Hid. unfold write_full_snapshot_for_shard. apply st_fp_get. intros st Hst.
  destruct (get_shard_meta _ _) as [meta|] eqn:Em; [|by apply st_fp_ret].
  apply sfp_on; [intros ?; apply inside_old; intros n; by apply old_chunks_in_play|].
  apply sfp_on; [intros s' Hs'; apply inside_index; [by apply known_alter, Hs'|done]|].
  apply sfp_then; [apply st_fp_io; fp|]. intros enc.
  apply st_fp_seq; [apply st_fp_io; auto with footprint|]. apply st_fp_modify. apply inside_new.
Qed.

(** *** Deltas *)

Lemma sfp_write_deltas id written ds q : id ∈ ids -> sfp (write_deltas key id written ds q) (fun _ => True).
Proof.
  intros Hid. revert written q. induction ds as [|d ds IH]; intros written q; cbn [write_deltas]; [by apply st_fp_ret|].
  apply sfp_on; [intros ?; by apply inside_set_pending|].
  apply sfp_then; [apply st_fp_io; fp|]. intros plain. apply sfp_then; [apply st_fp_io; fp|]. intros enc.
  apply st_fp_seq; [apply st_fp_io; auto with footprint|].
  apply sfp_on; [intros ?; apply inside_new|]. apply sfp_on; [intros ?; apply inside_persisted|].
  apply sfp_on; [intros s' Hs'; apply inside_index; [by apply known_alter, Hs'|done]|]. apply IH.
Qed.

Lemma fp_read_delta_log id qs : fpr (read_delta_log key id qs) (fun _ => True).
Proof. induction qs as [|q qs IH]; cbn [read_delta_log]; fp. Qed.

Lemma fp_compaction c ri id :
  known ri -> id ∈ ids ->
  fpr (prepare_shard_compaction key c ri id) (fun x => known x.2 /\ forall n, n ∈ pc_old_chunks x.1 -> catalog_name n).
Proof.
  intros Hri Hid. unfold prepare_shard_compaction.
  apply (fp_bind _ _ _ (fun x => known x.2 /\ sm_shard_id x.1 ∈ ids)).
  { eapply fp_weak; [apply fp_lift|]. intros [m ri']. unfold meta_to_compact, get_shard_meta.
    destruct (ri_shards ri !! id) as [m0|] eqn:E; [intros [= <- <-]; split; [done|by eapply (Hri id)]|].
    destruct (is_eager_system_shard_id id); [|done]. cbn. rewrite lookup_insert_eq. intros [= <- <-]. cbn.
    split; [|done]. by apply map_Forall_insert_2. }
  intros [m ri'] [Hk Hm]. cbn [fst snd] in *. destruct (sm_has_deltas m); cbn [negb].
  2:{ apply fp_ret. split; [done|]. by intros n ?%elem_of_nil. }
  fp; try solve [apply fp_read_delta_log|auto with footprint].
  apply fp_ret. split; [by apply known_alter|]. intros n. by apply meta_in_play.
Qed.

Lemma sfp_compact_if_full id : id ∈ ids -> sfp (compact_if_full key clks id) (fun _ => True).
Proof.
  intros Hid. unfold compact_if_full. apply st_fp_get. intros st Hst.
  destruct (get_shard_meta _ _) as [meta|]; [|by apply st_fp_ret].
  destruct (_ && _); [|by apply st_fp_ret].
  eapply st_fp_bind; [apply st_fp_io, fp_compaction; [apply Hst|done]|]. intros [p ri] [Hk Ho]. cbn [fst snd] in *.
  apply sfp_on; [intros ?; by apply inside_index|]. apply sfp_on; [intros ?; apply inside_new|].
  apply st_fp_modify. intros s Hs. by apply inside_old.
Qed.

Context (shards : list Shard) (Hshards : forall s, s ∈ shards -> sh_id s ∈ ids).

Lemma sfp_save_deltas rw fb id : sfp (save_deltas key clks previous shards rw fb id) (fun _ => True).
Proof.
  unfold save_deltas. apply st_fp_get. intros st Hst. destruct (sv_pending st !! id) as [[|d ds]|] eqn:Ep; try by apply st_fp_ret.
  assert (id ∈ ids) as Hid by (by apply (in_pending _ Hst); rewrite Ep).
  assert (sfp (on_save (set_pending id [])) (fun _ => True)) as Hclear.
  { apply st_fp_modify. intros s. by apply inside_set_pending. }
  destruct (bool_decide _); [done|]. destruct (bool_decide _).
  - destruct (List.find _ _) as [s|] eqn:Ef; [|done]. apply st_fp_seq; [|done].
    apply sfp_full_snapshot, Hshards. apply find_some in Ef as [Hs _]. by apply list_elem_of_In.
  - destruct (get_shard_meta _ _); [|done]. apply st_fp_seq; [by apply sfp_write_deltas|].
    apply st_fp_seq; [done|by apply sfp_compact_if_full].
Qed.

Lemma sfp_save_all_deltas rw fb l : sfp (save_all_deltas key clks previous shards rw fb l) (fun _ => True).
Proof.
  induction l as [|id l IH]; cbn [save_all_deltas]; [by apply st_fp_ret|]. apply st_fp_seq; [apply sfp_save_deltas|done].
Qed.

Lemma fp_read_deltas id qs : fpr (read_delta_chunks key id qs) (fun _ => True).
Proof. induction qs as [|q qs IH]; cbn [read_delta_chunks]; fp. Qed.

Lemma fp_needs_fallback m ds s : fpr (pending_delta_chain_needs_snapshot_fallback key clks m ds s) (fun _ => True).
Proof.
  unfold pending_delta_chain_needs_snapshot_fallback, read_shard_snapshot, read_persisted_deltas. fp; apply fp_read_deltas.
Qed.

Lemma fp_fallback_shards ri rw pending : fpr (fallback_shards key clks shards ri rw pending) (fun _ => True).
Proof.
  induction pending as [|[id ds] pending IH]; cbn [fallback_shards]; [by apply fp_ret|]. fp; apply fp_needs_fallback.
Qed.

Lemma fp_existing cs : fpr (existing_chunks cs) (fun _ => True).
Proof. induction cs as [|c cs IH]; cbn [existing_chunks]; fp. Qed.

(** *** The commit *)

Lemma fp_commit ri new old id :
  (forall n, n ∈ old -> catalog_name n) -> fpr (commit_root_index_update key ri new old id) (fun _ => True).
Proof.
  intros Ho. unfold commit_root_index_update, write_commit_record, delete_commit_record, write_root_index. cbn [cc_phase cc_set_phase].
  fp; auto with footprint.
  - apply (fp_write_record _ key TheCatalogCommit), marker_in_play.
  - apply (fp_write_record _ key TheCatalogCommit), marker_in_play.
  - apply (fp_store_delete _ key TheCatalogCommit), marker_in_play.
  - apply fp_delete_chunks. intros n Hn. by apply Ho, elem_of_unique.
Qed.

(** The part of [prepare_save] after the root index was read. *)
Definition prepare_rest (m : CatalogManager) : SIO (list string) :=
  let root_index := set_root_version (version m) (default (index_new (clk 0%nat)) previous) in
  let new_shards := new_shard_metas root_index shards in
  on_save (push_old (from_option (fun ri => removed_shard_chunks key ri new_shards) [] previous));;
  on_save (set_root_index (set_shards new_shards root_index));;
  rewritten ← save_snapshots key previous shards;
  st ← save_state;
  io (io_lift (check_delta_sizes (concat (map snd (map_to_list (sv_pending st))))));;
  fallback ← io (fallback_shards key clks shards (sv_root_index st) rewritten (map_to_list (sv_pending st)));
  save_all_deltas key clks previous shards rewritten fallback
    (merge_sort delta_shard_le (map fst (map_to_list (sv_pending st))));;
  st ← save_state;
  io (existing_chunks (sv_new_chunks st)).

Lemma known_new ri ss :
  known ri -> (forall s, s ∈ ss -> sh_id s ∈ ids) -> forall m0 : gmap string ShardMeta, map_Forall (fun _ m => sm_shard_id m ∈ ids) m0 ->
  map_Forall (fun _ m => sm_shard_id m ∈ ids)
    (foldl (fun m s => let meta := meta_for_shard ri s in <[sm_shard_id meta := meta]> m) m0 ss).
Proof.
  intros Hri. induction ss as [|s ss IH]; intros Hss m0 Hm; [done|]. cbn [foldl]. apply IH; [intros x Hx; apply Hss; by right|].
  apply map_Forall_insert_2; [|done]. cbn. destruct (ri_shards ri !! sh_id s) as [m|] eqn:E; cbn.
  - by eapply (Hri (sh_id s)).
  - apply Hss. left.
Qed.

Lemma sfp_prepare_rest m : sfp (prepare_rest m) (fun _ => True).
Proof.
  unfold prepare_rest. apply sfp_on.
  { intros s. apply inside_old. destruct previous as [ri|]; cbn; [|by intros n ?%elem_of_nil].
    unfold removed_shard_chunks. intros n (meta & Hm & Hn)%elem_of_concat_map. case_bool_decide; [by apply elem_of_nil in Hn|].
    apply list_elem_of_fmap in Hm as ([id m'] & -> & Hm%elem_of_map_to_list). cbn in Hn.
    by eapply meta_in_play; [eapply (Hprev ri eq_refl id)|]. }
  apply sfp_on.
  { intros s. apply inside_index. apply known_new; [|done|by intros ? ? ?%lookup_empty_Some].
    destruct previous as [ri|]; cbn; [exact (Hprev ri eq_refl)|apply known_fresh]. }
  apply sfp_then; [by apply sfp_save_snapshots|]. intros rw. apply st_fp_get. intros st Hst.
  apply st_fp_seq; [apply st_fp_io; fp|]. apply sfp_then; [apply st_fp_io, fp_fallback_shards|]. intros fb.
  apply st_fp_seq; [apply sfp_save_all_deltas|]. apply st_fp_get. intros st' Hst'.
  apply st_fp_io, fp_existing.
Qed.

Lemma sfp_commit m durable :
  sfp (st ← save_state;
       io (commit_root_index_update key (sv_root_index st) durable (sv_old_chunks st)
             (String.append "catalog-" (show_u64 (version m))));;
       mret (ri_root_version (sv_root_index st), Z.of_nat (size (ri_shards (sv_root_index st))))) (fun _ => True).
Proof.
  apply st_fp_get. intros st Hst. apply st_fp_seq; [|by apply st_fp_ret]. apply st_fp_io, fp_commit. apply Hst.
Qed.
End SaveFootprint.

(** ** The whole save *)

Section WholeSave.
Context `{cr : Crypto} {crl : CryptoLaws cr}.
Context `{Serde RootIndex, Serde Shard, Serde DeltaEntry,
          Serde CatalogCommitRecord, SerdeLaw (DurableTxRecord CatalogCommitRecord)}.
Context (key : list byte) (clk : clock) (clks : string -> clock).

(** The root index that is on the disk. *)
Definition disk_root_index (d : Disk) : option RootIndex :=
  let rn := root_index_chunk_name key 0 in
  bs ← d !! rn;
  match open_sealed bs key (as_bytes rn) with
  | Ok ri => if is_sharded ri then Some ri else None
  | Err _ => None
  end.

Lemma read_root_index_is d :
  ensures (eq d) (read_root_index key (root_index_chunk_name key 0)) (fun o d' => d' = d /\ o = disk_root_index d) (eq d).
Proof.
  unfold read_root_index. eapply ensures_bind; [by apply ensures_exists|]. intros b. cbn beta.
  apply ensures_known. intros ? [<- ->]. unfold disk_root_index.
  case_bool_decide as He; cbn [negb].
  - destruct He as [bs0 He]. eapply ensures_bind; [by apply (ensures_read (eq d))|]. intros bs. cbn beta.
    apply ensures_known. intros ? [<- Eb]. rewrite He in Eb. injection Eb as <-.
    eapply ensures_bind; [by apply (ensures_lift (eq d))|]. intros ri. apply ensures_pure. intros Eo.
    apply ensures_ret. intros ? <-. split; [done|]. rewrite He. cbn. by rewrite Eo.
  - apply ensures_ret. intros ? <-. split; [done|]. apply eq_None_not_Some in He. by rewrite He.
Qed.

(** The shards a save is concerned with. *)
Definition shards_in_play (d : Disk) (m : CatalogManager) (pending : gmap string (list DeltaEntry)) : list string :=
  map (fun x => sm_shard_id x.2) (map_to_list (from_option ri_shards ∅ (disk_root_index d)))
  ++ map sh_id (persistence_shards (later 1 clk) m) ++ map fst (map_to_list pending).

Lemma in_play_previous d m pending ri : disk_root_index d = Some ri -> known (shards_in_play d m pending) ri.
Proof.
  intros E id meta Hm. unfold shards_in_play. rewrite E. apply elem_of_app. left.
  apply list_elem_of_fmap. exists (id, meta). split; [done|]. by apply elem_of_map_to_list.
Qed.

Lemma in_play_start d m pending : inside key (shards_in_play d m pending) (mkSave (index_new (clk 0%nat)) [] [] pending []).
Proof.
  split; cbn; [apply known_fresh|by intros n ?%elem_of_nil|]. intros id [ds Hds].
  unfold shards_in_play. rewrite !elem_of_app. do 2 right. apply list_elem_of_fmap. exists (id, ds).
  split; [done|]. by apply elem_of_map_to_list.
Qed.

Lemma prepare_inside m pending ids s w :
  disk w !! catalog_commit_chunk_name key = None -> ids = shards_in_play (disk w) m pending -> inside key ids s ->
  let '(_, s', w') := prepare_save key clk clks m s w in same_outside (catalog_name key ids) (disk w) (disk w') /\ inside key ids s'.
Proof.
  intros Hm -> Hs. unfold prepare_save, mbind at 1, StIO_bind at 1, io at 1.
  assert (triple (eq (disk w)) (recover_incomplete_commit key) (fun _ => eq (disk w)) (eq (disk w))) as Hr
    by (apply recover_unmarked; [by intros d <-|done]).
  specialize (Hr w eq_refl).
  destruct (recover_incomplete_commit key w) as [[[]|e] w1]; destruct Hr as [E1 _]; [|rewrite <- E1; by split].
  unfold mbind at 1, StIO_bind at 1, io at 1.
  pose proof (read_root_index_is (disk w) w1 E1) as Hp.
  destruct (read_root_index _ _ w1) as [[previous|e] w2]; [destruct Hp as [E2 Ep]|rewrite <- Hp; by split].
  pose proof (sfp_prepare_rest key clk clks (shards_in_play (disk w) m pending) previous
    ltac:(intros ri ->; by apply in_play_previous) (persistence_shards (later 1 clk) m)
    ltac:(intros x Hx; unfold shards_in_play; rewrite !elem_of_app; right; left; by apply list_elem_of_fmap_2) m s w2 Hs) as Hrest.
  rewrite E2 in Hrest. unfold prepare_rest in Hrest. cbv zeta in *.
  match type of Hrest with let '(_, _) := ?c in _ => destruct c as [[r s'] w'] end. by destruct Hrest as (? & ? & _).
Qed.

Lemma save_inside m pending w :
  disk w !! catalog_commit_chunk_name key = None ->
  let '(_, _, _, w') := run_save key clk clks m pending w in
  same_outside (catalog_name key (shards_in_play (disk w) m pending)) (disk w) (disk w').
Proof.
  intros Hm. unfold run_save, save, mbind at 1, StIO_bind at 1.
  pose proof (prepare_inside m pending _ _ w Hm eq_refl (in_play_start _ m pending)) as Hp.
  destruct (prepare_save _ _ _ _ _ w) as [[[durable|e] s1] w1]; destruct Hp as [Hp Hs]; [|exact Hp].
  pose proof (sfp_commit key _ m durable s1 w1 Hs) as Hc.
  match type of Hc with let '(_, _) := ?c in _ => destruct c as [[r s'] w'] end.
  destruct Hc as (Hc & _). intros n Hn. by rewrite Hc, Hp.
Qed.

(** C12: whatever is on the disk, whatever the catalog and the pending deltas, and whatever
    faults it meets, a save that finds no pending commit leaves alone every chunk that is not the root
    index, the commit marker, or a snapshot or delta of a shard in play: of the root
    index on the disk, the catalog or the pending deltas. *)
Theorem save_stays_inside m pending w :
  disk w !! catalog_commit_chunk_name key = None ->
  let '(_, _, _, w') := run_save key clk clks m pending w in
  forall n, ~ catalog_name key (shards_in_play (disk w) m pending) n -> disk w' !! n = disk w !! n.
Proof.
  intros Hm. pose proof (save_inside m pending w Hm) as Hs.
  destruct (run_save _ _ _ _ _ _) as [[[x p] pp] w']. exact Hs.
Qed.
End WholeSave.

(** ** A concrete save, with a fault in its commit *)

#[local] Existing Instances toy_crypto toy_crypto_laws root_serde commit_serde tx_serde
  tx_serde_law shard_serde delta_serde.

Definition demo_world : World := mkWorld demo_saved_disk (repeat Runs 16 ++ [FailsBefore]) 0.

Lemma save_stays_inside_witness :
  disk demo_world !! catalog_commit_chunk_name demo_key = None
  /\ let '(_, _, _, w') := run_save demo_key demo_clock (fun _ => demo_clock) demo_after demo_pending demo_world in
     forall n, ~ catalog_name demo_key (shards_in_play demo_key demo_clock (disk demo_world) demo_after demo_pending) n ->
       disk w' !! n = disk demo_world !! n.
Proof.
  assert (disk demo_world !! catalog_commit_chunk_name demo_key = None) as Hm by (vm_compute; reflexivity).
  pose proof (save_stays_inside demo_key demo_clock (fun _ => demo_clock) demo_after demo_pending demo_world Hm) as Hw.
  split; [exact Hm|]. exact Hw.
Defined.
