(* ===== verification/BlobFinalizeSpec.v ===== *)
(** * What finishing a change touches

    The footprints of the derivative index and of [RpcRouter::save], that they fail only
    at a fault, and what the change of a node does to the session. *)

From Stdlib Require Import Strings.Byte Ascii String.
From stdpp Require Import base countable gmap strings list.
From S2P Require Import Prelude.
From S2P Require Import CatalogNode.
From S2P Require Import CatalogManager.
From S2P Require Import CatalogTree.
From S2P Require Import CatalogInvariant.
From S2P Require Import CatalogOps.
From S2P Require Import CatalogDelta.
From S2P Require Import CatalogShard.
From S2P Require Import Bytes.
From S2P Require Import Storage.
From S2P Require Import Crypto.
From S2P Require Import IoLogic.
From S2P Require Import DurableTx.
From S2P Require Import CatalogCommit.
From S2P Require Import CatalogSave.
From S2P Require Import ChunkCache.
From S2P Require Import CatalogSession.
From S2P Require Import DerivativeIndex.
From S2P Require Import BlobFinalize.
From S2P Require Import Footprint.
From S2P Require Import SaveFootprint.
Open Scope Z_scope.

(** ** The derivative index *)

Section Index.
Context `{cr : Crypto} {crl : CryptoLaws cr} `{SerdeLaw DerivativeIndexRecord}.
Context (vk : list byte) (r : DerivativeIndexRecord).
Abbreviation idx := (derivative_index_chunk_name vk).

(** The chunks of the index [r]. *)
Definition index_name (n : string) : Prop := n = idx \/ exists e, e ∈ entries r /\ n ∈ entry_chunks vk e.

(** The index chunk holds [r]. *)
Definition index_on (d : Disk) : Prop :=
  match d !! idx with
  | None => r = index_default
  | Some bs => opens_to vk (as_bytes idx) bs r
  end.

(** The router's index is [r]. *)
Definition index_at (s : DerivativeIndexCacheState) (d : Disk) : Prop :=
  match ic_record s with
  | Some r' => r' = r
  | None => index_on d
  end.

Lemma load_index_spec d : index_on d -> triple (eq d) (load_index vk) (fun r' d' => r' = r /\ d' = d) (eq d).
Proof.
  intros Hon w Ed. subst d. unfold load_index, attempt, read_chunk, mbind, IO_bind. fold idx. unfold index_on in Hon.
  destruct (chunk_path_ok idx (chunk_name_valid _ _ _)) as [p Ep]. unfold io_lift at 1.
  change (chunk_path (index_chunk_name vk)) with (chunk_path idx). rewrite Ep. cbn [map_err].
  change (index_chunk_name vk) with idx.
  unfold call. destruct (fates w) as [|[] fs] eqn:Ef; cbn [fst snd disk fates map_err];
    try (split; [done|]; by apply faulted_head).
  all: destruct (disk w !! idx) as [bs|]; cbn; [destruct Hon as (plain & -> & E); cbn; rewrite E; cbn|subst r];
    (split; [done|]); by (apply uses_refl || exists [Runs]).
Qed.

(** *** Footprints *)

Abbreviation within := (fun r0 => entries r0 ⊆ entries r).
Abbreviation fpi c Q := (footprint index_name c Q).
Local Hint Resolve fp_write fp_delete : footprint.

Lemma fp_save_index r' : fpi (save_index vk r') (fun _ => True).
Proof. assert (index_name idx) by (by left). unfold save_index. fp; auto with footprint. Qed.

Lemma fp_delete_all ns : (forall n, n ∈ ns -> index_name n) -> fpi (delete_all ns) (fun _ => True).
Proof.
  induction ns as [|n ns IH]; intros Hn; cbn [delete_all]; fp.
  - apply fp_delete, Hn. left.
  - apply IH. intros m Hm. apply Hn. by right.
Qed.

Lemma fp_drain ks es : es ⊆ entries r -> fpi (drain_entries vk ks es) (fun x => x.2 ⊆ es).
Proof.
  induction es as [|e es IH]; intros Hs; cbn [drain_entries]; [by apply fp_ret|].
  assert (es ⊆ entries r) as Hs' by set_solver. assert (e ∈ entries r) as He by set_solver.
  assert (forall n, n ∈ entry_chunks vk e -> index_name n) as Hn by (intros n ?; right; eauto).
  destruct (bool_decide _).
  - apply fp_then.
    + unfold delete_entry_chunks. apply fp_then; [apply fp_delete, Hn; left|]. intros _.
      apply fp_delete_all. intros n ?. apply Hn. by right.
    + intros _. eapply fp_bind; [by apply IH|]. intros [b kept] ?. apply fp_ret. set_solver.
  - eapply fp_bind; [by apply IH|]. intros [b kept] ?. apply fp_ret. cbn in *. set_solver.
Qed.

Lemma fp_remove_entries ks : st_footprint index_name within (remove_entries_by_key vk ks) (fun _ => True).
Proof.
  unfold remove_entries_by_key. destruct ks as [|k0 ks]; [by apply st_fp_ret|]. apply st_fp_get. intros r0 Hr0.
  apply st_fp_seq; [apply st_fp_modify; cbn; set_solver|].
  eapply st_fp_bind; [by apply st_fp_io, fp_drain|]. intros [b kept] Hk. cbn in Hk.
  apply st_fp_seq; [apply st_fp_modify; cbn; set_solver|by apply st_fp_ret].
Qed.

(** *** Only faults make it fail *)

Context (entries_ok : Forall (entry_ok) (entries r)).
Context (index_seals : forall x : DerivativeIndexRecord, sealable vk (as_bytes idx) x).

Lemma save_index_faults r' : triple (fun _ => True) (save_index vk r') (fun _ _ => True) (fun _ => True).
Proof.
  unfold save_index. change (index_chunk_name vk) with idx. destruct (entries r').
  - eapply triple_seq; [apply (triple_delete (fun _ => True) _ (fun _ => True)); [apply chunk_name_valid|done..]|by apply triple_sync].
  - destruct (index_seals r') as (plain & Ev & Hs).
    apply (triple_bind _ _ _ (fun p _ => p = plain)); [apply (triple_lift _ _ plain); [by rewrite Ev|done]|]. intros p.
    apply (triple_pre _ (fun _ => p = plain /\ True)); [|done]. apply triple_pure. intros ->.
    eapply triple_bind; [by apply (triple_encrypt plain vk (as_bytes idx) (fun _ => True))|]. intros bs.
    apply (triple_seq _ _ _ (fun _ => True)); [|by apply triple_sync].
    apply triple_write; [apply chunk_name_valid|done..].
Qed.

Context (node revision : Z).
Abbreviation body td := (removed ← remove_keys_of vk (stale_keys node revision);
  r ← st_get;
  (if (removed : bool) || td then io (save_index vk r) else mret tt);;
  mret (removed || td, stats r)).

Lemma body_faults td : st_triple (fun r0 _ => r0 = r) (body td) (fun _ _ _ => True) (fun _ _ => True).
Proof.
  apply (st_triple_bind _ _ _ (fun _ _ _ => True)).
  - apply st_triple_get. intros r0. apply st_triple_known. intros r1 d [-> ->].
    eapply st_triple_conseq; [apply (remove_entries_weak vk (stale_keys node revision r) r d entries_ok)|done..].
  - intros removed. apply st_triple_get. intros r0. apply (st_triple_seq _ _ _ (fun _ _ => True)); [|by apply st_triple_ret].
    destruct (_ || _); [|by apply st_triple_ret]. apply st_triple_io. intros s0.
    eapply triple_conseq; [apply save_index_faults|done..].
Qed.

Lemma body_inside td : st_footprint index_name within (body td) (fun _ => True).
Proof.
  apply (st_fp_bind _ _ _ _ (fun _ => True)); [apply st_fp_get; intros; apply fp_remove_entries|].
  intros removed _. apply st_fp_get. intros r0 Hr0. apply st_fp_seq; [|by apply st_fp_ret].
  destruct (_ || _); [apply st_fp_io, fp_save_index|by apply st_fp_ret].
Qed.

Definition stops_at_fault {A} (w : World) (x : result stop A) (w' : World) : Prop :=
  match x with Ok _ => uses (fates w) (fates w') | Err _ => faulted (fates w) (fates w') end.

Lemma on_record_body s w td :
  index_at s (disk w) ->
  let '(x, _, w') := on_record vk (body td) s w in
  same_outside index_name (disk w) (disk w') /\ stops_at_fault w x w'.
Proof.
  assert (forall w, let '(x, _, w') := body td r w in same_outside index_name (disk w) (disk w') /\ stops_at_fault w x w') as Hb.
  { intros w1. pose proof (body_faults td r w1 eq_refl) as Hf. pose proof (body_inside td r w1 (fun _ Hx => Hx)) as Hi.
    destruct (body td r w1) as [[[x|e] r'] w']; destruct Hi as (? & _), Hf; done. }
  unfold index_at, on_record. destruct (ic_record s) as [r'|].
  - intros ->. specialize (Hb w). by destruct (body td r w) as [[x r'] w'].
  - intros Hon. pose proof (load_index_spec (disk w) Hon w eq_refl) as Hl.
    destruct (load_index vk w) as [[r'|e] w1].
    + destruct Hl as [[-> Ed] Hu]. specialize (Hb w1). destruct (body td r w1) as [[x r'] w']. rewrite Ed in Hb.
      destruct Hb as [? Hx]. split; [done|]. destruct x; cbn in *; [by eapply uses_trans|by eapply uses_faulted].
    + destruct Hl as [<- Hf]. by split.
Qed.

Lemma stale_removal s w :
  index_at s (disk w) ->
  let '(x, _, w') := cached_delete_stale_derivatives_for_node vk node revision s w in
  same_outside index_name (disk w) (disk w') /\ stops_at_fault w x w'.
Proof.
  intros Hs. unfold cached_delete_stale_derivatives_for_node, change_and_save, mbind at 1, StIO_bind at 1, st_get at 1.
  pose proof (on_record_body s w (ic_touch_dirty s) Hs) as Hb. unfold mbind at 1, StIO_bind at 1.
  destruct (on_record vk _ s w) as [[[[ch st]|e] s'] w']; [|done]. by destruct ch.
Qed.

Lemma flush_inside s w :
  let '(_, s', w') := flush vk s w in same_outside index_name (disk w) (disk w').
Proof.
  unfold flush, mbind at 1, StIO_bind at 1, st_get. destruct (ic_touch_dirty s); cbn [negb]; [|cbn; reflexivity].
  destruct (ic_record s) as [r'|]; [|exact (fun n _ => eq_refl)]. unfold io, mbind, StIO_bind.
  pose proof (fp_save_index r' w) as Hs. destruct (save_index vk r' w) as [[x|e] w']; by destruct Hs.
Qed.
End Index.

(** ** The session *)

(** A change of fields of nodes: the tree and the pending deltas are as before. *)
Record edited (s s' : VaultSession) : Prop := {
  ed_inv : catalog_inv (catalog s');
  ed_walk : walk [] (root (catalog s')) = walk [] (root (catalog s));
  ed_index : node_index (catalog s') = node_index (catalog s);
  ed_pending : pending_deltas s' = pending_deltas s;
}.

Lemma edited_trans s1 s2 s3 : edited s1 s2 -> edited s2 s3 -> edited s1 s3.
Proof. intros [] []. split; congruence. Qed.

Lemma node_mut_run {A} s id ty p (k : CatalogNode -> A * CatalogNode) :
  catalog_inv (catalog s) -> (id, ty, p) ∈ walk [] (root (catalog s)) -> (forall n, same_shape n (snd (k n))) ->
  exists n s', find_by_id (catalog s) id = Some n /\ node_mut id k s = (Some (fst (k n)), s')
    /\ edited s s' /\ find_by_id (catalog s') id = Some (snd (k n)) /\ dirty s' = true.
Proof.
  intros Hinv Hin Hk.
  destruct (with_id_mut_run (catalog s) id ty p k Hinv Hin Hk) as (n & r' & Hn & _ & Hrun & Hwf & Hsr & Hw & Hf).
  destruct (same_walk_inv _ r' Hinv Hsr Hwf Hw) as [Hinv' _].
  exists n, (with_catalog (set_root r' (catalog s)) s). split_and!; [done| |by split|done|done].
  unfold node_mut. by rewrite Hrun.
Qed.

(** The names of the shards are those of the top level of the tree, and the eager ones. *)
Lemma add_eager_ids clk es ss next id :
  id ∈ map sh_id (add_eager_shards clk es ss next) -> id ∈ map sh_id ss \/ id ∈ es.
Proof.
  revert clk ss next. induction es as [|e es IH]; intros clk ss next; cbn [add_eager_shards]; [by left|].
  destruct (existsb _ _); intros [Hi|Hi]%IH; try (right; by right); [by left|].
  rewrite map_app, elem_of_app in Hi. destruct Hi as [Hi|Hi]; [by left|]. right. cbn in Hi.
  apply list_elem_of_singleton in Hi as ->. left.
Qed.

Definition top_level (m : CatalogManager) : list string := map node_name (children (root m)).

Lemma persistence_ids clk m id :
  id ∈ map sh_id (persistence_shards clk m) -> id ∈ top_level m ++ EAGER_SYSTEM_SHARD_IDS.
Proof.
  intros [Hi|Hi]%add_eager_ids; apply elem_of_app; [left|by right]. unfold split_into_shards in Hi. by rewrite map_map in Hi.
Qed.

Lemma top_level_walk m x :
  x ∈ top_level m <-> exists i ty, (i, ty, [node_name (root m); x]) ∈ walk [] (root m).
Proof.
  unfold top_level. rewrite walk_eq. cbn [app]. split.
  - intros (c & -> & Hc)%list_elem_of_fmap. exists (node_id c), (node_type c). right. apply elem_of_walk_list.
    exists c. split; [done|]. rewrite walk_eq. left.
  - intros (i & ty & [[= ? ? ?]|Hi]%elem_of_cons). apply elem_of_walk_list in Hi as (c & Hc & Hw).
    apply walk_prefix in Hw as (qs & E). cbn in E. injection E as -> _. by apply list_elem_of_fmap_2.
Qed.

Lemma edited_top_level s s' x :
  catalog_inv (catalog s) -> edited s s' -> x ∈ top_level (catalog s') -> x ∈ top_level (catalog s).
Proof.
  intros Hinv [Hinv' Hw _ _]. rewrite !top_level_walk, Hw. by rewrite !(inv_root_name _ Hinv), (inv_root_name _ Hinv').
Qed.

(** ** Saving *)

Section Saving.
Context `{cr : Crypto} {crl : CryptoLaws cr}.
Context `{Serde RootIndex, Serde Shard, Serde DeltaEntry, Serde CatalogCommitRecord,
          SerdeLaw (DurableTxRecord CatalogCommitRecord), SerdeLaw DerivativeIndexRecord}.
Context (key : list byte) (clk : clock) (clks : string -> clock) (r : DerivativeIndexRecord) (ids : list string).

Definition scope (n : string) : Prop := index_name key r n \/ catalog_name key ids n.

(** The index is apart from the two chunks every catalog has, and [ids] are the shards. *)
Record save_scope (rt : RpcRouter) (d : Disk) : Prop := {
  sc_unmarked : d !! catalog_commit_chunk_name key = None;
  sc_root : ~ index_name key r (root_index_chunk_name key 0);
  sc_marker : ~ index_name key r (catalog_commit_chunk_name key);
  sc_ids id : id ∈ shards_in_play key clk d (catalog (session rt)) (pending_deltas (session rt)) -> id ∈ ids;
}.

Lemma catalog_name_mono ids' n : (forall id, id ∈ ids' -> id ∈ ids) -> catalog_name key ids' n -> catalog_name key ids n.
Proof. intros Hs (ref & Hp & ->). exists ref. split; [|done]. destruct ref; cbn in *; auto. Qed.

Lemma shards_in_play_same d d' m p :
  d' !! root_index_chunk_name key 0 = d !! root_index_chunk_name key 0 -> shards_in_play key clk d' m p = shards_in_play key clk d m p.
Proof. intros E. unfold shards_in_play, disk_root_index. by rewrite E. Qed.

Lemma session_save_inside s w :
  disk w !! catalog_commit_chunk_name key = None ->
  (forall id, id ∈ shards_in_play key clk (disk w) (catalog s) (pending_deltas s) -> id ∈ ids) ->
  let '(x, s', w') := session_save key clk clks s w in
  same_outside (catalog_name key ids) (disk w) (disk w') /\ catalog s' = catalog s
  /\ match x with Ok _ => dirty s' = false | Err _ => dirty s' = dirty s end.
Proof.
  intros Hm Hids. unfold session_save. destruct (dirty s) eqn:Ed; cbn [negb]; [|by split].
  pose proof (save_inside key clk clks (catalog s) (pending_deltas s) w Hm) as Hs.
  destruct (run_save _ _ _ _ _ w) as [[[x p] pp] w'].
  assert (same_outside (catalog_name key ids) (disk w) (disk w')) as Hin.
  { intros n Hn. apply Hs. intros Hc. apply Hn. by eapply catalog_name_mono. }
  destruct x; by split_and!.
Qed.

(** A save of the router leaves everything outside [scope] alone; it clears [dirty] if
    and only if it succeeds. *)
Lemma router_save_inside rt w :
  save_scope rt (disk w) -> dirty (session rt) = true ->
  let '(x, rt', w') := router_save key clk clks rt w in
  same_outside scope (disk w) (disk w') /\ catalog (session rt') = catalog (session rt)
  /\ dirty (session rt') = negb (is_ok x).
Proof.
  intros [Hm Hr Hk Hi] Hd. unfold router_save, mbind at 1, StIO_bind at 1, in_index at 1.
  pose proof (flush_inside key r (derivative_index_state rt) w) as Hf.
  destruct (flush key (derivative_index_state rt) w) as [[[[]|e] i'] w1].
  2:{ split_and!; [|done|cbn; by rewrite Hd]. intros n Hn. apply Hf. intros ?. apply Hn. by left. }
  unfold mbind at 1, StIO_bind at 1, st_get at 1. cbn [session]. rewrite Hd.
  pose proof (session_save_inside (session rt) w1) as Hs. rewrite (Hf _ Hk) in Hs.
  rewrite (shards_in_play_same (disk w) (disk w1)) in Hs by (by apply Hf). specialize (Hs Hm Hi).
  unfold in_session, mbind, StIO_bind. cbn [session].
  destruct (session_save _ _ _ _ w1) as [[[x|e] s'] w2]; destruct Hs as (Hs & Hc & Hdd); cbn.
  all: split_and!; [|done|rewrite Hdd; by rewrite ?Hd].
  all: intros n Hn; rewrite (Hs n), (Hf n); [done|..]; intros ?; apply Hn; first [by left|by right].
Qed.
End Saving.
