(* ===== verification/FileReplaceCommand.v ===== *)
(** * The replace command and the catalog

    The whole command with at most one fault anywhere, and the next unlock, which loads the
    catalog and settles a pending replacement: the chunks of the file agree with the revision the
    loaded catalog has for it. *)

From Stdlib Require Import Strings.Byte Ascii String.
From stdpp Require Import base countable gmap strings list.
From S2P Require Import Prelude.
From S2P Require Import CatalogNode.
From S2P Require Import CatalogManager.
From S2P Require Import CatalogTree.
From S2P Require Import CatalogInvariant.
From S2P Require Import CatalogOps.
From S2P Require Import CatalogTrash.
From S2P Require Import CatalogDelta.
From S2P Require Import CatalogShard.
From S2P Require Import Bytes.
From S2P Require Import Storage.
From S2P Require Import Crypto.
From S2P Require Import IoLogic.
From S2P Require Import DurableTx.
From S2P Require Import CatalogCommit.
From S2P Require Import CatalogSave.
From S2P Require Import SaveLogic.
From S2P Require Import SaveSafety.
From S2P Require Import SaveSpec.
From S2P Require Import SaveFound.
From S2P Require Import ChunkCache.
From S2P Require Import CatalogSession.
From S2P Require Import DerivativeIndex.
From S2P Require Import FileReplace.
From S2P Require Import FileReplaceSafe.
From S2P Require Import FileReplaceRecover.
From S2P Require Import BlobReader.
From S2P Require Import BlobFinalize.
From S2P Require Import FileReplaceService.
From S2P Require Import Footprint.
From S2P Require Import SaveFootprint.
From S2P Require Import BlobFinalizeSpec.
From S2P Require Import CatalogSpec.
From S2P Require Import Encoding.
From S2P Require Import CatalogLoad.
From S2P Require Import CatalogCompact.
From S2P Require Import DerivativeCache.
Open Scope Z_scope.

(** ** Recovery, whatever happened to other chunks *)

Section Settle.
Context `{cr : Crypto} {crl : CryptoLaws cr}.
Context `{Serde FileReplaceTransaction} `{SerdeLaw (DurableTxRecord FileReplaceTransaction)}.
Context (key : list byte) (op now node : Z) (content : list byte) (new_chunk_size old_revision : Z) (D0 : Disk)
  (old_count new_count : Z).
Abbreviation count := (Z.max old_count new_count).
Abbreviation mk := (file_replace_tx_marker_name key).
Abbreviation canonical := (part_names key node 0 count).
Abbreviation temporary := (temps key node op count).
Abbreviation new_revision := (next_source_revision old_revision now).
Abbreviation own_tx := (own_tx key op now node old_revision old_count new_count).
Abbreviation new_state := (new_state key node new_chunk_size content old_count new_count).
Abbreviation record t := (tx_record (P:=FileReplaceParticipant) (replace_tx_id t) Committing t).
Abbreviation recover found := (recover_file_replace_transaction key found).
Context (distinct : NoDup (canonical ++ temporary ++ [mk])).
Context (counted : Z.of_nat (length (chunks_of (Z.to_nat new_chunk_size) content)) = new_count).

(** The names of the file. *)
Definition file_name (n : string) : Prop := n ∈ canonical ++ temporary ++ [mk].

(** The transaction [t] is pending and the old chunks can be had back. *)
Definition pending_tx (t : FileReplaceTransaction) (d : Disk) : Prop :=
  own_tx t /\ marked key replace_store (record t) d /\ backed_up key node op count D0 (r_backups t) d.

(** The marker goes or has gone; the backups are not needed any more. *)
Definition cleaning (t : FileReplaceTransaction) (d : Disk) : Prop :=
  own_tx t /\ (forall n, n ∈ backup_names (r_backups t) -> n ∈ temporary)
  /\ (marked key replace_store (record t) d \/ d !! mk = None) /\ new_state d.

Definition old_chunks_there (d : Disk) : Prop := forall n, n ∈ canonical -> d !! n = D0 !! n.

Lemma canonical_file n : n ∈ canonical -> file_name n.
Proof. intros ?. by apply elem_of_app; left. Qed.
Lemma temporary_file n : n ∈ temporary -> file_name n.
Proof. intros ?. apply elem_of_app; right. by apply elem_of_app; left. Qed.
Lemma marker_file : file_name mk.
Proof. apply elem_of_app; right. apply elem_of_app; right. left. Qed.

Lemma apart_names : (forall n, n ∈ canonical -> n ∉ temporary) /\ (mk ∉ canonical) /\ mk ∉ temporary.
Proof.
  apply NoDup_app in distinct as (_ & Hc & (_ & Ht & _)%NoDup_app). split_and!.
  - intros n Hn Hi. apply (Hc n Hn), elem_of_app. by left.
  - intros Hi. apply (Hc _ Hi), elem_of_app. right. left.
  - intros Hi. apply (Ht _ Hi). left.
Qed.

Lemma new_state_same d d' : (forall n, n ∈ canonical -> d' !! n = d !! n) -> new_state d -> new_state d'.
Proof.
  intros E [Hp Ht]. split.
  - intros i part Hi. rewrite E; [by apply Hp|]. apply part_names_elem. apply lookup_lt_Some in Hi. lia.
  - intros i Hi. rewrite E; [by apply Ht|]. apply part_names_elem. lia.
Qed.

Lemma pending_backups t d : pending_tx t d -> forall n, n ∈ backup_names (r_backups t) -> n ∈ temporary.
Proof. intros (_ & _ & Hb) n. by eapply backup_names_temps. Qed.

(** What is not a name of the file does not matter. *)
Lemma pending_same t d d' : (forall n, file_name n -> d' !! n = d !! n) -> pending_tx t d -> pending_tx t d'.
Proof.
  intros E (Ht & (Ha & bs & Eb & Ho) & Hb). split_and!; [done|split; [done|]; exists bs|].
  - rewrite E; [done|apply marker_file].
  - intros b Hin. specialize (Hb b Hin). destruct (b_backup_name b) as [n|]; [|done]. destruct Hb as (Hn & Hb).
    rewrite E; [done|]. by apply temporary_file, bnames_temps.
Qed.

Lemma cleaning_same t d d' : (forall n, file_name n -> d' !! n = d !! n) -> cleaning t d -> cleaning t d'.
Proof.
  intros E (Ht & Hb & Hm & Hn). split_and!; [done..| |].
  - rewrite E by apply marker_file. destruct Hm as [(Ha & bs & Eb & Ho)|Hm]; [left|by right].
    split; [done|]. exists bs. split; [|done]. rewrite E; [done|apply marker_file].
  - eapply new_state_same; [|exact Hn]. intros n Hc. by apply E, canonical_file.
Qed.

(** The disk [d] as it would be had the replacement not begun. *)
Definition rebased (d : Disk) : Disk := foldl (put_back D0) (delete mk d) canonical.

Lemma lookup_rebased d n :
  rebased d !! n = if bool_decide (n ∈ canonical) then D0 !! n else if bool_decide (n = mk) then None else d !! n.
Proof.
  unfold rebased. rewrite foldl_put_back. destruct (bool_decide _); [done|].
  case_bool_decide as E; [rewrite E; apply lookup_delete_eq|by rewrite lookup_delete_ne by congruence].
Qed.

Lemma rebased_marker d : rebased d !! mk = None.
Proof.
  destruct apart_names as (_ & Hmc & _). by rewrite lookup_rebased, bool_decide_false, bool_decide_true.
Qed.

Lemma rebased_ready d : replace_ready key node op count (rebased d).
Proof. split; [apply distinct|apply rebased_marker]. Qed.

Lemma rebased_old_chunks d : old_chunks (rebased d) canonical = old_chunks D0 canonical.
Proof.
  apply list_fmap_ext. intros i n Hn. f_equal. rewrite lookup_rebased, bool_decide_true; [done|]. by eapply list_elem_of_lookup_2.
Qed.

Lemma rebased_doubt t d : pending_tx t d -> doubt key node op count (rebased d) t d.
Proof.
  intros ((Ht & _) & Hm & Hb). split_and!; [done| |].
  - intros b Hin. specialize (Hb b Hin).
    assert (b_canonical_name b ∈ canonical) as Hc.
    { rewrite <- (rt_backups _ _ _ _ _ Ht). by apply list_elem_of_fmap_2. }
    rewrite lookup_rebased, bool_decide_true by done. exact Hb.
  - intros n Hn Hc Hne. by rewrite lookup_rebased, !bool_decide_false by done.
Qed.

Lemma rebased_untouched d d2 :
  untouched key node op count (rebased d) d2 -> d2 !! mk = None /\ old_chunks_there d2.
Proof.
  intros Hu. destruct apart_names as (Hct & _ & Hmt). split; [rewrite (Hu mk Hmt); apply rebased_marker|].
  intros n Hn. rewrite (Hu n) by (by apply Hct). by rewrite lookup_rebased, bool_decide_true.
Qed.

Lemma rebased_frame d d2 n : untouched key node op count (rebased d) d2 -> ~ file_name n -> d2 !! n = d !! n.
Proof.
  intros Hu Hn. rewrite Hu by (intros ?; apply Hn; by apply temporary_file). rewrite lookup_rebased, !bool_decide_false; [done|..].
  - intros ->. apply Hn, marker_file.
  - intros ?. apply Hn. by apply canonical_file.
Qed.

Lemma settle_old t d found k :
  pending_tx t d -> node_revision found node < new_revision ->
  exists d2, run_io [] k (recover found) d = (Ok tt, d2) /\ d2 !! mk = None /\ old_chunks_there d2.
Proof.
  intros Hp Hlt. pose proof Hp as ((Ht & En & Er) & _). rewrite <- Er, <- En in Hlt.
  destruct (triple_run_ok _ _ _ _ k d (recover_old key node op count (rebased d) (rebased_ready d) found t d Ht Hlt (rebased_doubt t d Hp))
              eq_refl) as ([] & d2 & E & Hu).
  exists d2. split; [done|]. by apply (rebased_untouched d).
Qed.

(** Undoing a replacement, without a fault. *)
Lemma undo_calm t d :
  pending_tx t d ->
  calm (eq d) (ignore (restore_chunks (old_chunks D0 canonical));; ignore (cleanup_file_replace_marker key t))
    (fun _ d2 => (d2 !! mk = None /\ old_chunks_there d2) /\ forall n, ~ file_name n -> d2 !! n = d !! n).
Proof.
  intros Hp. pose proof Hp as ((Ht & _) & _). apply (calm_seq _ _ _ (restored key node op count (rebased d))).
  - apply calm_ignore. rewrite <- (rebased_old_chunks d).
    eapply calm_conseq; [apply (restore_failing key node op count (rebased d) t)| |done].
    intros ? <-. by apply doubt_failing, rebased_doubt.
  - apply calm_ignore. eapply calm_conseq; [apply (clean_restored key node op count (rebased d) (rebased_ready d) t Ht)|done|].
    + by eapply pending_backups.
    + intros _ d2 [Hu _]. split; [by apply (rebased_untouched d)|]. intros n. by apply rebased_frame.
Qed.

Lemma settle_none d found k : d !! mk = None -> exists d2, run_io [] k (recover found) d = (Ok tt, d2) /\ d2 = d.
Proof.
  intros Hm. destruct (triple_run_ok _ _ _ _ k d (recover_none key d found) (conj Hm eq_refl)) as ([] & d2 & E & ->). eauto.
Qed.

Lemma settle_new t d found k :
  cleaning t d -> new_revision <= node_revision found node ->
  exists d2, run_io [] k (recover found) d = (Ok tt, d2) /\ d2 !! mk = None /\ new_state d2.
Proof.
  intros ((Ht & En & Er) & Hb & [Hm|Hm] & Hn) Hle.
  - destruct apart_names as (Hct & Hmc & Hmt). rewrite <- Er, <- En in Hle.
    destruct (triple_run_ok _ _ _ _ k d (recover_new key node op count found t d Ht Hle Hm Hb) eq_refl) as ([] & d2 & E & Hk & Hs).
    exists d2. split_and!; [done..|]. eapply new_state_same; [|exact Hn]. intros n Hc. apply Hs; [by apply Hct|by intros ->].
  - destruct (settle_none d found k Hm) as (d2 & E & ->). by exists d.
Qed.

(** Removing the temporary chunks and the marker, with whatever faults. *)
Lemma clean_up t (d0 : Disk) :
  let I (d : Disk) := cleaning t d /\ forall n, ~ file_name n -> d !! n = d0 !! n in
  triple I (ignore (cleanup_file_replace_marker key t)) (fun _ => I) I.
Proof.
  intros I. destruct apart_names as (Hct & Hmc & Hmt).
  apply (triple_pre _ (fun d => (own_tx t /\ forall n, n ∈ backup_names (r_backups t) -> n ∈ temporary) /\ I d));
    [|by intros d [(? & ? & ? & ?) ?]].
  apply triple_pure. intros [[Ht _] Hb]. eapply (triple_ignore _ _ (fun _ => I)); [|done..].
  apply (cleanup_marker_spec key node op count t Ht I); [done..| |].
  - intros n d Hn [(? & ? & Hm & Hnew) Hfr]. split; [split_and!; [done..| |]|].
    + destruct Hm as [(Ha & bs & E & Ho)|Hm]; [left; split; [done|]; exists bs|right];
        (rewrite lookup_delete_ne; [done|by intros ->]).
    + eapply new_state_same; [|exact Hnew]. intros m Hm'. rewrite lookup_delete_ne; [done|]. intros ->. by apply (Hct m).
    + intros n' Hn'. rewrite lookup_delete_ne; [by apply Hfr|]. intros <-. by apply Hn', temporary_file.
  - intros d [(? & ? & _ & Hnew) Hfr]. split; [split_and!; [done..|right; apply lookup_delete_eq|]|].
    + eapply new_state_same; [|exact Hnew]. intros m Hm'. rewrite lookup_delete_ne; [done|]. by intros <-.
    + intros n' Hn'. rewrite lookup_delete_ne; [by apply Hfr|]. intros <-. apply Hn', marker_file.
Qed.
End Settle.

(** ** The command *)

Section Command.
Context `{cr : Crypto} {crl : CryptoLaws cr}.
Context `{SerdeLaw RootIndex, SerdeLaw Shard, SerdeLaw DeltaEntry, Serde CatalogCommitRecord,
          SerdeLaw (DurableTxRecord CatalogCommitRecord), SerdeLaw DerivativeIndexRecord,
          Serde FileReplaceTransaction, SerdeLaw (DurableTxRecord FileReplaceTransaction)}.
Context (key : list byte) (fclk clk : clock) (clks : string -> clock) (op now : Z) (request : ReplaceRequest)
  (stream : RpcInputStream) (content : list byte) (rt0 : RpcRouter) (D0 : Disk)
  (index : DerivativeIndexRecord) (ids : list string) (n0 : CatalogNode) (p0 : list string) (old_count new_count : Z).

Abbreviation node := (rq_node_id request).
Abbreviation target := (target_of n0).
Abbreviation old_revision := (source_revision n0).
Abbreviation new_revision := (next_source_revision old_revision now).
Abbreviation new_chunk_size := (replacement_chunk_size (tg_chunk_size target)).
Abbreviation count := (Z.max old_count new_count).
Abbreviation mk := (file_replace_tx_marker_name key).
Abbreviation canonical := (part_names key node 0 count).
Abbreviation own_tx := (own_tx key op now node old_revision old_count new_count).
Abbreviation pending_tx := (pending_tx key op now node old_revision D0 old_count new_count).
Abbreviation cleaning := (cleaning key op now node content new_chunk_size old_revision old_count new_count).
Abbreviation new_state := (new_state key node new_chunk_size content old_count new_count).
Abbreviation old_chunks_there := (old_chunks_there key node D0 old_count new_count).
Abbreviation file_name := (file_name key op node old_count new_count).
Abbreviation scope := (scope key index ids).
Abbreviation m0 := (catalog (session rt0)).

(** What the command starts from: a valid request for the node [n0] of a well-formed
    catalog; a readable derivative index; no transaction pending; chunk names that
    do not collide: those of the file, of the index, and of the catalog's shards [ids]. *)
Record command_ready : Prop := {
  cm_inv : catalog_inv m0;
  cm_node : find_by_id m0 node = Some n0 /\ (node, File, p0) ∈ walk [] (root m0);
  cm_valid : validate_target (session rt0) request = Ok target;
  cm_stream : read_stream_exact_limited stream (rq_size request) MAX_SINGLE_RPC_STREAM_BYTES = Ok content;
  cm_id : node <= U32_MAX;
  cm_revision : old_revision < U64_MAX;
  cm_call : replace_call key op node (node_size n0) (rq_size request) (tg_chunk_size target) new_chunk_size content D0 old_count new_count;
  cm_index : index_at key index (derivative_index_state rt0) D0;
  cm_entries : Forall entry_ok (entries index);
  cm_seals : forall x : DerivativeIndexRecord, sealable key (as_bytes (derivative_index_chunk_name key)) x;
  cm_unmarked : D0 !! catalog_commit_chunk_name key = None;
  cm_apart n : file_name n -> ~ scope n;
  cm_root : ~ index_name key index (root_index_chunk_name key 0);
  cm_marker : ~ index_name key index (catalog_commit_chunk_name key);
  cm_ids id : id ∈ map (fun x => sm_shard_id x.2) (map_to_list (from_option ri_shards ∅ (disk_root_index key D0)))
                   ++ top_level m0 ++ EAGER_SYSTEM_SHARD_IDS ++ map fst (map_to_list (pending_deltas (session rt0)))
                   ++ option_list (path ← get_path m0 node; path_shard_id (normalize_path path)) -> id ∈ ids;
}.

(** The vault as it is stored: it opens, with a catalog that is no newer than the session's;
    a save of the session is in order ([save_ready]), also with one more delta; the chunks of the derivative
    index are apart from the catalog's; the ids of the nodes, those of new eager shards
    included, are different. *)
Record synced (prev : option RootIndex) (B : Z) (clk' : clock) (clks' : nat -> clock) : Prop := {
  sy_found : exists o, unlocked key clk' clks' 0 D0 = Ok o /\ node_revision (lo_catalog o) node <= old_revision;
  sy_ready : save_ready key D0 prev (persistence_shards (later 1 clk) m0) (pending_deltas (session rt0)) B;
  sy_slack s : s ∈ persistence_shards (later 1 clk) m0 ->
    sm_version (base_meta prev s) + Z.of_nat (length (pending_of (pending_deltas (session rt0)) (sh_id s))) + 2 < B;
  sy_apart n : index_name key index n -> ~ catalog_name key ids n;
  sy_ids : NoDup (ROOT_NODE_ID :: concat (map (fun s => CatalogTree.ids (sh_root s)) (persistence_shards (later 1 clk) m0)));
  sy_root : forall x : RootIndex, sealable key (as_bytes (root_index_chunk_name key 0)) x;
  sy_record : forall x : DurableTxRecord CatalogCommitRecord, sealable key (as_bytes (catalog_commit_chunk_name key)) x;
}.

Context (ready : command_ready).
Context (prev : option RootIndex) (B : Z) (clk' : clock) (clks' : nat -> clock) (sync : synced prev B clk' clks').

Lemma ready_distinct : NoDup (canonical ++ temps key node op count ++ [mk]).
Proof. apply (rc_ready _ _ _ _ _ _ _ _ _ _ _ (cm_call ready)). Qed.

Lemma ready_counted : Z.of_nat (length (chunks_of (Z.to_nat new_chunk_size) content)) = new_count.
Proof. exact (parts_count _ _ _ _ _ _ _ _ _ _ _ (cm_call ready)). Qed.

Lemma newer : old_revision < new_revision.
Proof. pose proof (cm_revision ready). unfold next_source_revision, u64_saturating_add, U64_MAX in *. lia. Qed.

Lemma out_of_scope d d' n : same_outside scope d d' -> file_name n -> d' !! n = d !! n.
Proof. intros Hs Hn. apply Hs. by apply (cm_apart ready). Qed.

Lemma pending_scope t d d' : same_outside scope d d' -> pending_tx t d -> pending_tx t d'.
Proof. intros Hs. apply pending_same. intros n. by apply out_of_scope. Qed.

Lemma new_scope d d' : same_outside scope d d' -> new_state d -> new_state d'.
Proof.
  intros Hs. apply new_state_same; [apply ready_counted|]. intros n Hn. apply (out_of_scope _ _ _ Hs). by apply canonical_file.
Qed.

(** An unlock of [d] loads a catalog in which the revision of the file is as [P] says, and leaves
    the chunks of the file alone. *)
Definition opens_with (d : Disk) (P : Z -> Prop) : Prop :=
  forall k, exists o d3 k3, load_for_unlock key clk' clks' (mkWorld d [] k) = (Ok o, mkWorld d3 [] k3)
    /\ (forall n, file_name n -> d3 !! n = d !! n) /\ P (node_revision (lo_catalog o) node).

(** How the command may end: nothing was done or it was undone; the transaction is still
    pending; or the catalog was saved. *)
Inductive ends (res : result stop (result ReplaceCommandError CatalogFileReplaceResponse)) (d : Disk) : Prop :=
  | ends_undone : d !! mk = None -> old_chunks_there d -> opens_with d (fun rev => rev <= old_revision) ->
      (forall resp, res <> Ok (Ok resp)) -> ends res d
  | ends_pending t : pending_tx t d -> (forall resp, res <> Ok (Ok resp)) ->
      opens_with d (fun rev => rev <= old_revision \/ rev = new_revision /\ new_state d) -> ends res d
  | ends_saved t : cleaning t d -> opens_with d (eq new_revision) -> ends res d.

Lemma opens_weaken d (P Q : Z -> Prop) : opens_with d P -> (forall rev, P rev -> Q rev) -> opens_with d Q.
Proof. intros Hd HPQ k. destruct (Hd k) as (o & d3 & k3 & ? & ? & ?). exists o, d3, k3. auto. Qed.

(** The next unlock: the catalog is loaded, then a pending replacement is settled, as the
    first step of [recover_after_vault_unlock] does. *)
Definition reopen : IO CatalogManager :=
  o ← load_for_unlock key clk' clks';
  recover_file_replace_transaction key (lo_catalog o);;
  mret (lo_catalog o).

(** The chunks of the file agree with the catalog that was found. *)
Definition agrees (found : CatalogManager) (d : Disk) : Prop :=
  d !! mk = None /\ (node_revision found node = new_revision -> new_state d)
  /\ (node_revision found node <> new_revision -> old_chunks_there d).

Lemma ends_agrees res d k :
  ends res d ->
  exists found d2, run_io [] k reopen d = (Ok found, d2) /\ agrees found d2
    /\ (forall resp, res = Ok (Ok resp) -> node_revision found node = new_revision).
Proof.
  intros He. pose proof newer as Hlt. pose proof ready_distinct as Hnd. pose proof ready_counted as Hct.
  assert (exists o d3 k3, load_for_unlock key clk' clks' (mkWorld d [] k) = (Ok o, mkWorld d3 [] k3)
    /\ (forall resp, res = Ok (Ok resp) -> node_revision (lo_catalog o) node = new_revision)
    /\ exists d2, run_io [] k3 (recover_file_replace_transaction key (lo_catalog o)) d3 = (Ok tt, d2) /\ agrees (lo_catalog o) d2)
    as (o & d3 & k3 & El & Hok & d2 & E2 & Ha).
  { destruct He as [Hm Ho Hop Hno|t Hp Hno Hop|t Hc Hop]; destruct (Hop k) as (o & d3 & k3 & El & Hsame & Hrev);
      exists o, d3, k3; (split; [done|]).
    - split; [intros resp ->; by destruct (Hno resp)|].
      assert (d3 !! mk = None) as Hm3 by (rewrite Hsame; [done|apply marker_file]).
      destruct (settle_none key d3 (lo_catalog o) k3 Hm3) as (d2 & E & ->). exists d3. split; [done|]. split_and!; [done|lia|].
      intros _ n Hn. rewrite Hsame by (by apply canonical_file). by apply Ho.
    - split; [intros resp ->; by destruct (Hno resp)|].
      pose proof (pending_same _ _ _ _ _ _ _ _ t d d3 Hsame Hp) as Hp3. destruct Hrev as [Hle|[Heq Hn]].
      + destruct (settle_old key op now node old_revision D0 old_count new_count Hnd t d3 (lo_catalog o) k3 Hp3) as (d2 & E2 & Hm & Ho); [lia|].
        exists d2. split; [done|]. split_and!; [done|lia|done].
      + assert (cleaning t d3) as Hcl.
        { pose proof Hp3 as (Ht & Hm & Hb). split_and!; [done|by eapply pending_backups|by left|].
          eapply new_state_same; [done| |exact Hn]. intros n Hc. by apply Hsame, canonical_file. }
        destruct (settle_new key op now node content new_chunk_size old_revision old_count new_count Hnd Hct t d3 (lo_catalog o) k3 Hcl)
          as (d2 & E2 & Hm & Hn2); [lia|]. exists d2. split; [done|]. split_and!; [done..|lia].
    - split; [done|]. assert (cleaning t d3) as Hcl by (eapply cleaning_same; [exact Hct|exact Hsame|exact Hc]).
      destruct (settle_new key op now node content new_chunk_size old_revision old_count new_count Hnd Hct t d3 (lo_catalog o) k3 Hcl)
        as (d2 & E2 & Hm & Hn2); [lia|]. exists d2. split; [done|]. split_and!; [done..|lia]. }
  exists (lo_catalog o), d2. split_and!; [|done..]. unfold run_io, reopen, mbind, IO_bind in *. rewrite El.
  destruct (recover_file_replace_transaction _ _ _) as [r2 w2]. by injection E2 as -> <-.
Qed.

(** *** The session along the way *)

(** The shard of the file. *)
Abbreviation shard := (default ""%string (p0 !! 1%nat)).
Abbreviation pending0 := (pending_deltas (session rt0)).

Lemma path_split : exists rest, p0 = "/"%string :: shard :: rest /\ Forall part_ok (shard :: rest)
  /\ get_path m0 node = Some (path_string ("/"%string :: shard :: rest)).
Proof.
  destruct (cm_node ready) as [Hn Hin]. pose proof (cm_inv ready) as Hinv. pose proof (inv_complete _ Hinv _ _ _ Hin) as Hi.
  destruct (inv_walk_find _ _ _ _ Hinv Hin) as (qs & n' & E & Hqs%name_ok_parts & Hf & _ & Ht).
  destruct qs as [|q rest].
  { injection Hf as <-. pose proof (inv_root_dir _ Hinv) as Hd. unfold is_dir in Hd. by rewrite Ht in Hd. }
  rewrite E in *. exists rest. cbn. split_and!; [done..|]. unfold get_path. by rewrite Hi.
Qed.

(** [recorded]: one delta was added for the shard of the file. *)
Record session_at (recorded : bool) (rev : Z) (s : VaultSession) : Prop := {
  sa_inv : catalog_inv (catalog s);
  sa_walk : walk [] (root (catalog s)) = walk [] (root m0);
  sa_index : node_index (catalog s) = node_index m0;
  sa_node : exists n, find_by_id (catalog s) node = Some n /\ source_revision n = rev;
  sa_edit : top_edit shard (root m0) (root (catalog s));
  sa_pending : if recorded then exists de, pending_deltas s = <[shard := pending_of pending0 shard ++ [de]]> pending0
               else pending_deltas s = pending0;
}.

Lemma session_start : session_at false old_revision (session rt0).
Proof. destruct (cm_node ready) as [Hn _]. split; [apply ready|done|done|by exists n0|reflexivity|done]. Qed.

Lemma session_invalidate b rev ns s : session_at b rev s -> session_at b rev (invalidate_chunks ns s).
Proof. by intros []. Qed.

Lemma session_edit {A} b rev rev' s (k : CatalogNode -> A * CatalogNode) :
  session_at b rev s -> (forall n, same_shape n (snd (k n))) ->
  (forall n, source_revision n = rev -> source_revision (snd (k n)) = rev') ->
  exists n s', node_mut node k s = (Some (fst (k n)), s') /\ session_at b rev' s' /\ dirty s' = true.
Proof.
  intros [Hi Hw Hx (n1 & Hn1 & Hr) He Hp] Hk Hrev. destruct (cm_node ready) as [_ Hin]. rewrite <- Hw in Hin.
  destruct (node_mut_run s node _ _ k Hi Hin Hk) as (n & s' & Hn & Hrun & [Hi' Hw' Hx' Hp'] & Hf & Hd).
  exists n, s'. split_and!; [done| |done]. split; [done|congruence..| | |].
  - exists (snd (k n)). split; [done|]. apply Hrev. congruence.
  - etrans; [exact He|]. destruct path_split as (rest & Ep & Hok & _).
    unfold node_mut, with_id_mut, with_path_mut in Hrun. rewrite (inv_complete _ Hi _ _ _ Hin), Ep, parse_index_path in Hrun by done.
    destruct (find_by_parts_mut _ _ _) as [[a r']|] eqn:Em; [|done]. injection Hrun as _ <-.
    apply Forall_cons in Hok as [Hq _]. by eapply find_mut_top.
  - by rewrite Hp'.
Qed.

Lemma session_record ts path fields rev s :
  get_path m0 node = Some path -> session_at false rev s -> session_at true rev (record_finalization ts node path fields s).
Proof.
  intros Hg Hs. destruct path_split as (rest & _ & Hok & Hg'). rewrite Hg in Hg'. injection Hg' as ->.
  destruct (path_shard_split (path_string ("/"%string :: shard :: rest)) shard rest) as [E1 E2]; [by apply parse_path_string|].
  unfold record_finalization. rewrite E1, E2. destruct Hs as [? ? ? ? ? Hp]. split; [done..|]. cbn.
  eexists. by rewrite Hp.
Qed.

Lemma session_ids b rev s id : session_at b rev s -> is_Some (pending_deltas s !! id) -> id ∈ ids.
Proof.
  intros Hs Hid. assert (is_Some (pending0 !! id) \/ id = shard) as [[ds Hds]| ->].
  { pose proof (sa_pending _ _ _ Hs) as Hp. destruct b; [destruct Hp as [de Hp]|]; rewrite Hp in Hid; [|by left].
    destruct (decide (shard = id)) as [->|Hne]; [by right|]. rewrite lookup_insert_ne in Hid by done. by left. }
  - apply (cm_ids ready). rewrite !elem_of_app. do 3 right. left.
    apply list_elem_of_fmap. exists (id, ds). split; [done|]. by apply elem_of_map_to_list.
  - destruct path_split as (rest & _ & Hok & Hg). apply (cm_ids ready). rewrite !elem_of_app. do 4 right. rewrite Hg. cbn.
    destruct (path_shard_split (path_string ("/"%string :: shard :: rest)) shard rest) as [-> _]; [by apply parse_path_string|].
    left.
Qed.

Lemma session_scope b rev rt d :
  session_at b rev (session rt) -> (forall n, ~ file_name n -> ~ index_name key index n -> d !! n = D0 !! n) ->
  save_scope key clk index ids rt d.
Proof.
  intros Hs Hd. pose proof (fun id => session_ids _ _ _ id Hs) as Hp. destruct Hs as [Hi Hw Hx _ _ _].
  assert (forall n, catalog_name key ids n -> ~ file_name n) as Hc by (intros n Hn Hf; apply (cm_apart ready n Hf); by right).
  split; [|apply ready..|].
  - rewrite Hd; [apply ready|apply Hc, marker_in_play|apply ready].
  - intros id. rewrite (shards_in_play_same key clk D0) by (apply Hd; [apply Hc, root_in_play|apply ready]).
    unfold shards_in_play. rewrite !elem_of_app. intros [Hid|[Hid|Hid]].
    + apply (cm_ids ready). rewrite !elem_of_app. by left.
    + apply persistence_ids, elem_of_app in Hid as [Hid|Hid]; apply (cm_ids ready); rewrite !elem_of_app; right; [left|right; by left].
      apply top_level_walk. apply top_level_walk in Hid. rewrite Hw, (inv_root_name _ Hi) in Hid.
      by rewrite (inv_root_name _ (cm_inv ready)).
    + apply list_elem_of_fmap in Hid as ([id' ds] & -> & Hds%elem_of_map_to_list). apply Hp. by exists ds.
Qed.

(** *** Finalization *)

Abbreviation input size mime delta := (mkFinalization node size mime (Some now) (Some new_revision) delta).

Lemma index_inside d d' n : same_outside (index_name key index) d d' -> ~ index_name key index n -> d' !! n = d !! n.
Proof. auto. Qed.

Lemma finalize_run size mime delta rt w :
  session_at false old_revision (session rt) -> index_at key index (derivative_index_state rt) (disk w) ->
  let '(x, rt', w') := finalize_blob_write key fclk true (input size mime delta) rt w in
  same_outside (index_name key index) (disk w) (disk w')
  /\ session_at (match x with Ok (Ok _) => true | _ => false end) new_revision (session rt') /\ dirty (session rt') = true
  /\ match x with Ok (Ok _) => uses (fates w) (fates w') | _ => faulted (fates w) (fates w') end.
Proof.
  intros Hs Hi. unfold finalize_blob_write. cbn [bf_node_id bf_modtime bf_source_revision bf_delta].
  unfold mbind at 1, StIO_bind at 1, st_get at 1, mbind at 1, StIO_bind at 1, on_session at 1.
  destruct (session_edit false old_revision new_revision (session rt) (finalize_node fclk (input size mime delta)) Hs)
    as (n & s' & -> & Hs' & Hd).
  { intros n. unfold finalize_node. cbn. by destruct size, mime. }
  { intros n _. unfold finalize_node. cbn. by destruct size, mime. }
  replace (fst (finalize_node fclk (input size mime delta) n)) with (now, new_revision)
    by (unfold finalize_node; cbn; by destruct size, mime).
  cbn beta iota. unfold mbind at 1, StIO_bind at 1, modify_session at 1, on_session at 1. cbn beta iota.
  unfold mbind at 1, StIO_bind at 1, st_attempt at 1, in_index at 1. cbn [session derivative_index_state set_session].
  pose proof (stale_removal key index (cm_entries ready) (cm_seals ready) node new_revision (derivative_index_state rt) w Hi) as Hr.
  destruct (cached_delete_stale_derivatives_for_node _ _ _ _ w) as [[[st|[e|]] i'] w']; destruct Hr as [Hin Hf]; cbn in Hf.
  - destruct path_split as (rest & _ & _ & Eg). pose proof Eg as Eg0. unfold get_path in Eg. rewrite <- (sa_index _ _ _ Hs) in Eg.
    change (get_path (catalog (session rt)) node = Some (path_string ("/"%string :: shard :: rest))) in Eg. rewrite Eg.
    cbn. split_and!; try done.
    + apply session_record; [done|by apply session_invalidate].
    + unfold record_finalization. destruct (path_shard_id _); [|done]. by destruct (shard_relative_path _ _).
  - cbn. split_and!; try done. by apply session_invalidate.
  - cbn. split_and!; try done. by apply session_invalidate.
Qed.

Lemma resize_run (b : bool) rt w :
  session_at false old_revision (session rt) ->
  exists rt', (if b then on_session (node_mut node (fun n => (tt, set_node_chunk_size new_chunk_size n)));; mret tt else mret tt) rt w
      = (Ok tt, rt', w)
    /\ session_at false old_revision (session rt') /\ derivative_index_state rt' = derivative_index_state rt.
Proof.
  intros Hs. destruct b; [|by exists rt].
  destruct (session_edit false old_revision old_revision (session rt) (fun n => (tt, set_node_chunk_size new_chunk_size n)) Hs)
    as (n & s' & E & Hs' & _); [done..|].
  exists (set_session s' rt). unfold mbind, StIO_bind, on_session. by rewrite E.
Qed.

(** Undoing after a failed finalization. *)
Lemma undo_run rep t rt w :
  rep = mkReplacement (old_chunks D0 canonical) t now new_revision -> pending_tx t (disk w) -> fates w = [] ->
  session_at false new_revision (session rt) ->
  exists rt' w', restore_after_finalization_failure key node target rep rt w = (Ok tt, rt', w')
    /\ disk w' !! mk = None /\ old_chunks_there (disk w') /\ forall n, ~ file_name n -> disk w' !! n = disk w !! n.
Proof.
  intros -> Hp Hf Hs. unfold restore_after_finalization_failure. cbn [cr_backups cr_transaction].
  destruct (undo_calm key op now node old_revision D0 old_count new_count ready_distinct t (disk w) Hp w Hf eq_refl)
    as (a & w2 & E & [[Hm Ho] Hfr] & _).
  destruct (session_edit false new_revision old_revision (session rt) (fun n => (tt, restore_node target n)) Hs)
    as (n & s' & En & _); [done..|].
  exists (set_session s' rt), w2. split_and!; [|done..].
  unfold mbind, StIO_bind, IO_bind, io in *.
  destruct (ignore (restore_chunks _) w) as [[[]|e] w1]; [|done].
  destruct (ignore (cleanup_file_replace_marker key t) w1) as [[[]|e] w2']; [|done]. injection E as _ ->.
  unfold on_session. by rewrite En.
Qed.

(** *** What an unlock loads *)

Abbreviation shards0 := (persistence_shards (later 1 clk) m0).

Lemma catalog_apart n : catalog_name key ids n -> ~ file_name n /\ ~ index_name key index n.
Proof. intros Hn. split; intros Hf; [apply (cm_apart ready n Hf); by right|by eapply (sy_apart _ _ _ _ sync)]. Qed.

Lemma disk_root : disk_root_index key D0 = prev.
Proof.
  pose proof (sr_prev _ _ _ _ _ _ (sy_ready _ _ _ _ sync)) as Hp. unfold disk_root_index. destruct prev as [ri|].
  - destruct Hp as [(bs & -> & Ho) Hsh]. cbn. by rewrite (open_sealed_opens key bs _ ri Ho), Hsh.
  - by rewrite Hp.
Qed.

Lemma scope_catalog r : in_scope prev shards0 B r -> catalog_name key ids (ref_name key r).
Proof.
  intros Hr. exists r. split; [|done].
  assert (forall id, id ∈ save_ids prev shards0 -> id ∈ ids) as Hids; [|destruct r; [done..| |]; by apply Hids, Hr].
  intros id [Hid|Hid]%elem_of_app; apply (cm_ids ready); rewrite !elem_of_app.
  - apply persistence_ids, elem_of_app in Hid as [Hid|Hid]; auto.
  - left. rewrite disk_root. apply list_elem_of_fmap in Hid as ([id' meta] & -> & Hin). apply list_elem_of_fmap.
    exists (id', meta). split; [|done]. apply elem_of_map_to_list in Hin. destruct prev as [ri|]; [|cbn in Hin; by rewrite lookup_empty in Hin].
    by destruct (sr_metas _ _ _ _ _ _ (sy_ready _ _ _ _ sync) id' meta Hin).
Qed.

Lemma protected_catalog n : protected key prev n -> catalog_name key ids n.
Proof.
  pose proof (sy_ready _ _ _ _ sync) as Hr. intros [->|[->|(id & meta & Hm & Hn)]]; [apply marker_in_play|apply root_in_play|].
  destruct (old_meta_facts key D0 prev shards0 pending0 B Hr id meta Hm) as (Hid & Hwf & Hb & Hu).
  apply chunks_of_meta in Hn as (r & Hc & ->); [|done..]. apply scope_catalog.
  eapply chunk_in_scope; [rewrite Hid; by eapply old_in_ids|done..].
Qed.

(** With the catalog as it was at the start. *)
Lemma opens_start d : (forall n, catalog_name key ids n -> d !! n = D0 !! n) -> opens_with d (fun rev => rev <= old_revision).
Proof.
  intros Hd k. destruct (sy_found _ _ _ _ sync) as (o & Ho & Hle).
  assert (d !! catalog_commit_chunk_name key = None) as Hm by (rewrite Hd by apply marker_in_play; apply ready).
  destruct (load_runs_unmarked key clk' clks' k 0 d Hm) as (k3 & E). exists o, d, k3. split_and!; [|done..].
  rewrite E. f_equal. rewrite <- Ho.
  apply (safe_unlocked key clk D0 prev m0 pending0 B (sy_ready _ _ _ _ sync)). intros n Hn. by apply Hd, protected_catalog.
Qed.

(** *** What the save of the session stores *)

Section Saved.
Context (s : VaultSession) (at_new : session_at true new_revision s) (d : Disk).
Context (same_catalog : forall n, catalog_name key ids n -> d !! n = D0 !! n).
Abbreviation shards1 := (persistence_shards (later 1 clk) (catalog s)).

Lemma saved_edits : Forall2 (shard_edit shard) shards0 shards1.
Proof. apply persistence_edit; apply at_new. Qed.

Lemma session_save_ready : save_ready key d prev shards1 (pending_deltas s) B.
Proof.
  destruct (sa_pending _ _ _ at_new) as [de Hp].
  apply (save_ready_edited key D0 d prev shards0 shards1 pending0 (pending_deltas s) B shard (sy_ready _ _ _ _ sync) saved_edits).
  - intros r Hr. by apply same_catalog, scope_catalog.
  - intros id Hne. rewrite Hp. unfold pending_of. by rewrite lookup_insert_ne by congruence.
  - rewrite Hp. unfold pending_of at 1. rewrite lookup_insert_eq. cbn. by intros [_ ?]%app_eq_nil.
  - rewrite Hp. unfold pending_of at 1. rewrite lookup_insert_eq. cbn. rewrite length_app. cbn. lia.
  - intros s' Hs' <-. by apply (sy_slack _ _ _ _ sync).
Qed.

Lemma saved_revision recorded o : saved_as recorded shards1 (catalog s) (Ok o) -> node_revision (lo_catalog o) node = new_revision.
Proof.
  intros Hsaved. destruct at_new as [Hi Hw _ (n & Hn & Hr) _ _]. destruct path_split as (rest & Ep & _).
  destruct (cm_node ready) as [_ Hin]. rewrite <- Hw, Ep in Hin.
  destruct (saved_node recorded (later 1 clk) (catalog s) o node File shard rest n Hi Hin Hn) as (n' & Hn' & Hc); [|done|].
  - assert (map (fun s => CatalogTree.ids (sh_root s)) shards1 = map (fun s => CatalogTree.ids (sh_root s)) shards0) as ->;
      [|apply sync]. pose proof saved_edits as He. clear -He. induction He as [|a b l l' (_ & (_ & Hwalk & _) & _) _ IH]; [done|].
    cbn. rewrite IH. f_equal. unfold CatalogTree.ids. by rewrite Hwalk.
  - unfold node_revision. rewrite Hn'. rewrite <- Hr. apply (content_fields _ _ _ Hc).
Qed.

(** The scope of the save is that of the session before. *)
Lemma saved_scope r : in_scope prev shards1 B r -> catalog_name key ids (ref_name key r).
Proof.
  intros Hr. apply scope_catalog. unfold in_scope, save_ids in *. by rewrite (edit_ids shards0 shards1 shard saved_edits) in Hr.
Qed.

Lemma save_run fs k :
  let '(x, _, _, w') := run_save key clk clks (catalog s) (pending_deltas s) (mkWorld d fs k) in
  (forall n, ~ catalog_name key ids n -> disk w' !! n = d !! n) ->
  opens_with (disk w') (fun rev => rev <= old_revision \/ rev = new_revision)
  /\ (is_ok x = true -> forall d', (forall n, catalog_name key ids n -> d' !! n = disk w' !! n) -> opens_with d' (eq new_revision)).
Proof.
  pose proof (fun k' => save_settles key clk clks d prev (catalog s) (pending_deltas s) B session_save_ready
    (sy_root _ _ _ _ sync) (sy_record _ _ _ _ sync) fs k [] clk' clks' k') as Hs.
  destruct (run_save _ _ _ _ _ _) as [[[x p] ps] w']. cbv zeta in Hs. cbn [interrupted] in Hs. intros Hframe. split.
  - intros k'. destruct (Hs k') as (d3 & k3 & E & [Hm Hf _ _ Hfr]).
    pose proof (load_runs key clk' clks' k' 0 k3 (disk w') d3 E Hm) as El.
    assert (forall n, file_name n -> d3 !! n = disk w' !! n) as Hfile.
    { destruct Hfr as [->|Hfr]; [done|]. intros n Hn. rewrite Hframe by (intros Hc; by apply catalog_apart in Hc as [? _]).
      apply Hfr. intros r Hr ->. by apply saved_scope, catalog_apart in Hr as [? _]. }
    destruct (Hf 0%nat) as [E0|Hsaved].
    + destruct (sy_found _ _ _ _ sync) as (o & Ho & Hle). exists o, d3, k3. split_and!; [|done|by left].
      rewrite El, E0. f_equal. rewrite <- Ho.
      apply (safe_unlocked key clk D0 prev m0 pending0 B (sy_ready _ _ _ _ sync)). intros n Hn. by apply same_catalog, protected_catalog.
    + pose proof Hsaved as (o & Eo & _). exists o, d3, k3. rewrite Eo in Hsaved, El. split_and!; [done..|right].
      by eapply saved_revision.
  - intros Hok d' Hd' k'. destruct (Hs k') as (d3 & k3 & E & [_ _ Hsv Hlive _]).
    destruct (Hsv Hok) as (-> & [Hm Hcur] & Hsaved). pose proof (Hsaved 0%nat) as (o & Eo & _).
    assert (d' !! catalog_commit_chunk_name key = None) as Hm' by (rewrite Hd'; [done|apply marker_in_play]).
    destruct (load_runs_unmarked key clk' clks' k' 0 d' Hm') as (k4 & El).
    assert (unlocked key clk' clks' 0 d' = Ok o) as Eu.
    { rewrite <- Eo. symmetry. apply same_unlocked; [|done..]. apply same_load.
      - symmetry. apply Hd', root_in_play.
      - intros ri n Hri _ Hn. destruct (Hlive Hok ri n Hri Hn) as (r & Hr & ->). symmetry. by apply Hd', saved_scope. }
    exists o, d', k4. rewrite El, Eu. split_and!; [done..|]. specialize (Hsaved 0%nat). rewrite Eo in Hsaved. symmetry. by eapply saved_revision.
Qed.
End Saved.

(** The save of the router. *)
Lemma router_save_run rt w :
  session_at true new_revision (session rt) -> dirty (session rt) = true -> save_scope key clk index ids rt (disk w) ->
  (forall n, catalog_name key ids n -> disk w !! n = D0 !! n) ->
  let '(x, _, w') := router_save key clk clks rt w in
  opens_with (disk w') (fun rev => rev <= old_revision \/ rev = new_revision)
  /\ (is_ok x = true -> forall d', (forall n, catalog_name key ids n -> d' !! n = disk w' !! n) -> opens_with d' (eq new_revision)).
Proof.
  intros Hs Hd [Hm _ Hk Hi] Hsame. unfold router_save, mbind at 1, StIO_bind at 1, in_index at 1.
  pose proof (flush_inside key index (derivative_index_state rt) w) as Hf.
  destruct (flush key (derivative_index_state rt) w) as [[[[]|e] i'] w1].
  all: assert (forall n, catalog_name key ids n -> disk w1 !! n = D0 !! n) as Hsame1
    by (intros n Hn; rewrite Hf; [by apply Hsame|by apply catalog_apart in Hn as [_ ?]]).
  2:{ split; [|done]. intros k. destruct (opens_start _ Hsame1 k) as (o & d3 & k3 & ? & ? & ?). exists o, d3, k3. split_and!; [done..|by left]. }
  unfold mbind at 1, StIO_bind at 1, st_get at 1. cbn [session]. rewrite Hd.
  unfold in_session, session_save, mbind, StIO_bind. cbn [session]. rewrite Hd. cbn [negb].
  pose proof (session_save_inside key clk clks ids (session rt) w1) as Hin. rewrite (Hf _ Hk) in Hin.
  rewrite (shards_in_play_same key clk (disk w) (disk w1)) in Hin by (by apply Hf, catalog_apart, root_in_play). specialize (Hin Hm Hi).
  unfold session_save in Hin. rewrite Hd in Hin. cbn [negb] in Hin.
  destruct w1 as [d1 fs1 k1]. pose proof (save_run (session rt) Hs d1 Hsame1 fs1 k1) as Hr. cbn [disk] in *.
  destruct (run_save _ _ _ _ _ _) as [[[[x|e] p] ps] w2]; destruct Hin as (Hin & _); apply Hr; exact Hin.
Qed.

(** *** From the replaced chunks on *)

Lemma commit_run rep t rt w :
  rep = mkReplacement (old_chunks D0 canonical) t now new_revision -> pending_tx t (disk w) -> new_state (disk w) ->
  (forall n, ~ file_name n -> disk w !! n = D0 !! n) -> one_fault (fates w) ->
  session_at false old_revision (session rt) -> derivative_index_state rt = derivative_index_state rt0 ->
  let '(x, rt', w') := commit_replacement key fclk clk clks request target new_chunk_size rep rt w in ends x (disk w').
Proof.
  intros -> Hp Hn Hfr Hof Hs Hi. unfold commit_replacement. unfold mbind at 1, StIO_bind at 1.
  destruct (resize_run (negb (new_chunk_size =? tg_chunk_size target)) rt w Hs) as (rt1 & -> & Hs1 & Hi1).
  cbv zeta. unfold mbind at 1, StIO_bind at 1. cbn [cr_modtime cr_source_revision].
  assert (index_at key index (derivative_index_state rt1) (disk w)) as Hix.
  { rewrite Hi1, Hi. pose proof (cm_index ready) as Hix. unfold index_at, index_on in *. destruct (ic_record _); [done|].
    rewrite Hfr; [done|]. intros Hf. apply (cm_apart ready _ Hf). left. by left. }
  match goal with |- context [finalize_blob_write _ _ _ ?inp _ _] =>
    pose proof (finalize_run (bf_size inp) (bf_mime_type inp) (bf_delta inp) rt1 w Hs1 Hix) as Hfin end.
  cbn [bf_size bf_mime_type bf_delta] in Hfin.
  destruct (finalize_blob_write _ _ _ _ rt1 w) as [[[[o|e]|e] rt2] w2]; destruct Hfin as (Hin & Hs2 & Hd2 & Hf).
  all: assert (same_outside scope (disk w) (disk w2)) as Hsc by (intros n Hn'; apply Hin; intros ?; apply Hn'; by left).
  all: pose proof (pending_scope t _ _ Hsc Hp) as Hp2; pose proof (new_scope _ _ Hsc Hn) as Hn2.
  all: assert (forall n, catalog_name key ids n -> disk w2 !! n = D0 !! n) as Hsame
    by (intros n [? ?]%catalog_apart; rewrite Hin by done; by apply Hfr).
  2:{ destruct (undo_run _ t rt2 w2 eq_refl Hp2 (one_fault_faulted _ _ Hof Hf) Hs2) as (rt3 & w3 & E & Hm & Ho & Hfr3).
      unfold mbind, StIO_bind. rewrite E. apply ends_undone; [done..| |done]. apply opens_start. intros n Hc.
      rewrite Hfr3; [by apply Hsame|by apply catalog_apart in Hc as [? _]]. }
  2:{ apply (ends_pending _ _ t); [done..|]. eapply opens_weaken; [by apply opens_start|by left]. }
  unfold mbind at 1, StIO_bind at 1, st_attempt at 1.
  assert (save_scope key clk index ids rt2 (disk w2)) as Hss.
  { apply (session_scope _ _ _ _ Hs2). intros n Hf' Hidx. rewrite Hin by done. by apply Hfr. }
  pose proof (router_save_inside key clk clks index ids rt2 w2 Hss Hd2) as Hsave.
  pose proof (router_save_run rt2 w2 Hs2 Hd2 Hss Hsame) as Hopen.
  destruct (router_save key clk clks rt2 w2) as [[[[]|[e|]] rt3] w3]; destruct Hsave as (Hin3 & _), Hopen as [Hopen Hsaved].
  all: pose proof (pending_scope t _ _ Hin3 Hp2) as Hp3; pose proof (new_scope _ _ Hin3 Hn2) as Hn3.
  2,3: apply (ends_pending _ _ t); [done..|]; (eapply opens_weaken; [exact Hopen|]); cbn; tauto.
  assert (cleaning t (disk w3)) as Hcl.
  { pose proof Hp3 as (? & ? & ?). split_and!; [done|by eapply pending_backups|by left|done]. }
  unfold mbind at 1, StIO_bind at 1, io at 1. cbn [cr_transaction].
  pose proof (clean_up key op now node content new_chunk_size old_revision old_count new_count ready_distinct ready_counted t (disk w3)
    w3 (conj Hcl (fun _ _ => eq_refl))) as Hu.
  destruct (ignore _ w3) as [[[]|e] w4]; destruct Hu as [[Hu Hfr4] _]; (apply (ends_saved _ _ t); [done|]);
    (apply Hsaved; [done|]); intros n [? _]%catalog_apart; by apply Hfr4.
Qed.

Lemma doubt_pending t d : own_tx t -> doubt key node op count D0 t d -> pending_tx t d.
Proof. by intros ? (? & ? & _). Qed.

Lemma framed_file d n : framed key node op count D0 d -> ~ file_name n -> d !! n = D0 !! n.
Proof.
  intros Hf Hn. apply Hf; intros Hi; apply Hn; [by apply temporary_file|by apply canonical_file|subst n; apply marker_file].
Qed.

Lemma old_state_undone d : old_state key node op count D0 d -> d !! mk = None /\ old_chunks_there d.
Proof.
  intros [Hu Hm]. split; [done|]. intros n Hn. apply Hu. pose proof (apart_names key op node old_count new_count ready_distinct) as (Hct & _).
  by apply Hct.
Qed.

(** The start of the command, up to the replacement of the chunks. *)
Definition rt1 : RpcRouter := set_session (invalidate_chunks [node] (session rt0)) rt0.

Lemma replace_file_start w :
  replace_file key fclk clk clks op now request (Some stream) rt0 w
  = st_rbind (io (replace_chunks key op now node (node_size n0) (rq_size request) (tg_chunk_size target) new_chunk_size
                    content old_revision))
      (commit_replacement key fclk clk clks request target new_chunk_size) rt1 w.
Proof.
  unfold replace_file, mbind at 1, StIO_bind at 1, st_get. rewrite (cm_valid ready), (cm_stream ready).
  unfold mbind at 1, StIO_bind at 1, modify_session, on_session. cbn beta iota.
  assert ((tg_chunk_size target =? 0) = false) as ->.
  { apply Z.eqb_neq. unfold target_of. cbn. destruct (Z.eqb_spec (chunk_size n0) 0); [unfold DEFAULT_CHUNK_SIZE|]; lia. }
  by rewrite (proj2 (Z.leb_le _ _) (cm_id ready)).
Qed.

Lemma command_ends fs k :
  one_fault fs ->
  let '(res, _, w') := replace_file key fclk clk clks op now request (Some stream) rt0 (mkWorld D0 fs k) in ends res (disk w').
Proof.
  intros Hof. rewrite replace_file_start. unfold st_rbind, mbind, StIO_bind, io.
  pose proof (replace_spec _ op now _ _ _ _ _ _ old_revision _ _ _ (cm_call ready) (mkWorld D0 fs k) Hof eq_refl) as Hs.
  pose proof (session_invalidate _ _ [node] _ session_start) as Hst.
  assert (forall d, old_state key node op count D0 d -> opens_with d (fun rev => rev <= old_revision)) as Hold.
  { intros d [Hu _]. apply opens_start. intros n [Hn _]%catalog_apart. apply Hu. intros ?. by apply Hn, temporary_file. }
  assert (forall d, may_crash key op now node old_revision D0 old_count new_count d ->
            ends (Err Crashed) d /\ forall e, ends (Err (Failed e)) d) as Hcr.
  { intros d [Ho|(t & Ht & Hd)].
    - pose proof (Hold d Ho). apply old_state_undone in Ho as [Hm Ho]. split; intros; by apply ends_undone.
    - assert (opens_with d (fun rev => rev <= old_revision \/ rev = new_revision /\ new_state d)) as Hop.
      { eapply opens_weaken; [apply opens_start|by left]. intros n [Hn _]%catalog_apart. destruct Hd as (_ & _ & Hfr). by apply framed_file. }
      split; intros; (apply (ends_pending _ _ t); [by apply doubt_pending|done|done]). }
  destruct (replace_chunks _ _ _ _ _ _ _ _ _ _ _) as [[[rep|e]|[e|]] w1]; destruct Hs as [Hs Hu].
  - destruct Hs as (Ht & Hd & Hn & Er). pose proof Hd as (_ & _ & Hfr).
    apply (commit_run rep (cr_transaction rep)); [done|by apply doubt_pending|done| | |done|done].
    + intros n. by apply framed_file.
    + by eapply one_fault_uses.
  - pose proof (Hold _ Hs). apply old_state_undone in Hs as [Hm Ho]. by apply ends_undone.
  - by apply Hcr.
  - by apply Hcr.
Qed.
End Command.

(** C5: the replace command keeps a file and the catalog together. Let the command run from
    a well-formed state, with a readable derivative index and a session whose save is in order, with at most one
    fault anywhere: in the replacement of the chunks,
    the removal of stale derivatives, the save or the clean-up, a call may fail before or
    after its effect, or everything may stop. The next unlock then succeeds: it loads a catalog and
    settles a pending replacement, no transaction is left, and the chunks of the file
    are the new content if the catalog that was loaded has the new revision, and the old chunks
    otherwise; after a command that reported success, it has the new revision. *)
Theorem replace_command_agrees `{CryptoLaws} `{SerdeLaw RootIndex, SerdeLaw Shard, SerdeLaw DeltaEntry, Serde CatalogCommitRecord,
    SerdeLaw (DurableTxRecord CatalogCommitRecord), SerdeLaw DerivativeIndexRecord,
    Serde FileReplaceTransaction, SerdeLaw (DurableTxRecord FileReplaceTransaction)}
    key fclk clk clks op now request stream content rt0 D0 index ids n0 p0 old_count new_count prev B clk' clks' fs k k' :
  command_ready key op request stream content rt0 D0 index ids n0 p0 old_count new_count ->
  synced key clk request rt0 D0 index ids n0 prev B clk' clks' -> one_fault fs ->
  let '(res, _, w') := replace_file key fclk clk clks op now request (Some stream) rt0 (mkWorld D0 fs k) in
  exists found d2, run_io [] k' (reopen key clk' clks') (disk w') = (Ok found, d2)
    /\ agrees key now request content D0 n0 old_count new_count found d2
    /\ (forall resp, res = Ok (Ok resp) ->
          node_revision found (rq_node_id request) = next_source_revision (source_revision n0) now).
Proof.
  intros Hready Hsync Hof. pose proof (command_ends key fclk clk clks op now request stream content rt0 D0 index ids n0 p0
    old_count new_count Hready prev B clk' clks' Hsync fs k Hof) as He.
  destruct (replace_file _ _ _ _ _ _ _ _ _ _) as [[res rt'] w']. by eapply ends_agrees.
Qed.

(** ** A concrete command

    A hash that keeps the shards' chunks apart from all others. *)

#[local] Instance byte_eq_dec : EqDecision byte := Byte.byte_eq_dec.

Definition shard_preimage (m : list byte) : bool :=
  let ctx := take 6 (drop KEY_SIZE m) in
  bool_decide (ctx = as_bytes "shard:") || bool_decide (ctx = as_bytes "delta:").

Definition kind_crypto : Crypto := {|
  blake3 m := (if shard_preimage m then x01 else x00) :: tail (toy_hash m);
  random_nonce := @random_nonce toy_crypto;
  aead_encrypt := @aead_encrypt toy_crypto;
  aead_decrypt := @aead_decrypt toy_crypto;
|}.

Lemma kind_crypto_laws : CryptoLaws kind_crypto.
Proof.
  destruct toy_crypto_laws as [Hh Hn Hl Hd]. split; [|exact Hn|exact Hl|exact Hd].
  intros m. specialize (Hh m). cbn in *. by destruct (toy_hash m).
Qed.

#[local] Existing Instances kind_crypto kind_crypto_laws root_serde root_serde_law shard_serde shard_serde_law
  delta_serde delta_serde_law commit_serde tx_serde tx_serde_law
  index_serde index_serde_law replace_serde replace_tx_serde replace_tx_serde_law.

Lemma shard_names_kind key ids n :
  length key = KEY_SIZE -> catalog_name key ids n ->
  String.prefix "01" n = true \/ n = root_index_chunk_name key 0 \/ n = catalog_commit_chunk_name key.
Proof.
  intros Hk (ref & _ & ->). destruct ref as [| |id q|id q]; [auto..| |]; left; rewrite ref_name_eq; unfold ref_preimage; cbn [ref_context].
  all: rewrite as_bytes_app; cbn [blake3 kind_crypto]; unfold shard_preimage; rewrite drop_app_length' by done; reflexivity.
Qed.

Definition demo_m : CatalogManager := history [OpCreateDir "/" "docs"; OpCreateFile "/docs" "a.txt" 10 None].
Definition demo_rt : RpcRouter := mkRouter (mkSession demo_m false ∅ new_default 0) (mkIndexCache None false).
Definition demo_request : ReplaceRequest := mkReplaceRequest 3 5 None None true.
Definition demo_node : CatalogNode := default (new_root 0) (find_by_id demo_m 3).
Definition demo_start : Disk := {[blob_chunk_name demo_key 3 0 := [x01; x02]]}.
Definition demo_ids : list string := ["docs"; ".passmanager"; ".passkeys"]%string.

(** The vault on disk: the root index, a snapshot of every shard, and the file. *)
Definition demo_stored : list Shard := persistence_shards (later 1 (fun _ => 8)) demo_m.
Definition demo_vault : Disk :=
  <[root_index_chunk_name demo_key 0 := toy_seal demo_saved_root]>
  (list_to_map (map (fun s => (shard_snapshot_chunk_name demo_key (sh_id s) 0, toy_seal s)) demo_stored) ∪ demo_start).

(** Neither of the index, nor of the catalog. *)
Definition other_kind (n : string) : bool :=
  negb (String.eqb n (derivative_index_chunk_name demo_key)) && negb (String.prefix "01" n)
  && negb (String.eqb n (root_index_chunk_name demo_key 0)) && negb (String.eqb n (catalog_commit_chunk_name demo_key)).

Lemma demo_replace_ready :
  command_ready demo_key 99 demo_request (mkInput demo_content None) demo_content demo_rt demo_vault index_default demo_ids
    demo_node ["/"; "docs"; "a.txt"]%string 1 1.
Proof.
  split.
  - apply catalog_inv_check_sound. vm_compute. reflexivity.
  - split; [vm_compute; reflexivity|]. apply (bool_decide_unpack _). vm_compute. exact I.
  - vm_compute. reflexivity.
  - vm_compute. reflexivity.
  - vm_compute. discriminate.
  - vm_compute. reflexivity.
  - split.
    + vm_compute. reflexivity.
    + vm_compute. reflexivity.
    + reflexivity.
    + vm_compute. reflexivity.
    + vm_compute. discriminate.
    + lia.
    + intros part name nonce _. by eexists.
    + intros x. apply (toy_sealable_tx (of_replace) to_replace).
    + split; [apply (bool_decide_unpack _); vm_compute; exact I|vm_compute; reflexivity].
  - cbn. unfold index_on. replace (demo_vault !! _) with (@None (list byte)) by (vm_compute; reflexivity). reflexivity.
  - constructor.
  - intros x. apply (toy_sealable of_index to_index).
  - vm_compute. reflexivity.
  - intros n Hn. assert (other_kind n = true) as Hk.
    { revert n Hn. apply Forall_forall. apply (bool_decide_unpack _). vm_compute. exact I. }
    intros [[->|(e & He & _)]|Hc]; [by vm_compute in Hk|by apply elem_of_nil in He|].
    apply shard_names_kind in Hc; [|reflexivity]. unfold other_kind in Hk.
    destruct Hc as [Hc|[Hc|Hc]]; rewrite Hc in Hk; [by rewrite andb_false_r in Hk|by vm_compute in Hk..].
  - intros [E|(e & He & _)]; [by vm_compute in E|by apply elem_of_nil in He].
  - intros [E|(e & He & _)]; [by vm_compute in E|by apply elem_of_nil in He].
  - apply Forall_forall. apply (bool_decide_unpack _). vm_compute. exact I.
Qed.

Lemma demo_save_in_order : save_ready demo_key demo_vault (Some demo_saved_root) demo_stored ∅ 4.
Proof.
  split.
  - vm_compute. reflexivity.
  - split; [|done]. exists (toy_seal demo_saved_root). split; [apply lookup_insert_eq|].
    exact (toy_seal_opens of_root to_root demo_key (as_bytes (root_index_chunk_name demo_key 0)) demo_saved_root to_of_root).
  - intros id m Hm. by destruct (demo_prev_meta id m Hm) as (_ & ? & ? & _).
  - apply (bool_decide_unpack _). vm_compute. exact I.
  - lia.
  - intros id m Hm. destruct (demo_prev_meta id m Hm) as (_ & _ & _ & [? ?]). split; lia.
  - assert (forallb (fun s => bool_decide (sm_version (base_meta (Some demo_saved_root) s)
      + Z.of_nat (length (pending_of ∅ (sh_id s))) + 1 < 4)) demo_stored = true) as Hb by (vm_compute; reflexivity).
    intros s Hs. rewrite forallb_forall in Hb. rewrite list_elem_of_In in Hs. by apply (bool_decide_eq_true_1 _), Hb.
  - assert (forallb (fun i => negb (contains_char nul i)) (save_ids (Some demo_saved_root) demo_stored) = true) as Hb
      by (vm_compute; reflexivity).
    intros i Hi. rewrite forallb_forall in Hb. rewrite list_elem_of_In in Hi. by apply negb_true_iff, Hb.
  - apply collision_free_sound. vm_compute. reflexivity.
  - assert (forallb (fun s => let m := base_meta (Some demo_saved_root) s in
      bool_decide (demo_vault !! shard_snapshot_chunk_name demo_key (sm_shard_id m) (sm_snapshot_seq m) = Some (toy_seal s))
      && negb (sm_has_deltas m)) demo_stored = true) as Hb by (vm_compute; reflexivity).
    intros s Hs _ _. rewrite forallb_forall in Hb. rewrite list_elem_of_In in Hs. set (m := base_meta (Some demo_saved_root) s).
    apply Hb, andb_true_iff in Hs as [Hd%bool_decide_eq_true Hn%negb_true_iff].
    apply (stored_snapshot demo_key _ _ _ s); [|done|done]. exists (toy_seal s). split; [done|].
    exact (toy_seal_opens of_shard to_shard demo_key (as_bytes (shard_snapshot_chunk_name demo_key (sm_shard_id m) (sm_snapshot_seq m))) s to_of_shard).
Qed.

Lemma demo_synced :
  synced demo_key (fun _ => 8) demo_request demo_rt demo_vault index_default demo_ids demo_node (Some demo_saved_root) 4
    (fun _ => 10) (fun _ _ => 11).
Proof.
  split.
  - eexists. split; [vm_compute; reflexivity|]. vm_compute. discriminate.
  - exact demo_save_in_order.
  - assert (forallb (fun s => bool_decide (sm_version (base_meta (Some demo_saved_root) s)
      + Z.of_nat (length (pending_of (pending_deltas (session demo_rt)) (sh_id s))) + 2 < 4)) demo_stored = true) as Hb
      by (vm_compute; reflexivity).
    intros s Hs. rewrite forallb_forall in Hb. rewrite list_elem_of_In in Hs. by apply (bool_decide_eq_true_1 _), Hb.
  - intros n [->|(e & He & _)]; [|by apply elem_of_nil in He]. intros Hc.
    apply shard_names_kind in Hc; [|reflexivity]. destruct Hc as [Hc|[Hc|Hc]]; by vm_compute in Hc.
  - apply (bool_decide_unpack _). vm_compute. exact I.
  - intros x. apply (toy_sealable of_root to_root).
  - intros x. apply (toy_sealable_tx of_commit to_commit).
Qed.

(** The save is reported to have failed, at a call of its commit that fails after its effect:
    the next unlock finds the new revision and keeps the new chunks. *)
Lemma replace_command_agrees_witness :
  one_fault (replicate 33 Runs ++ [FailsAfter])
  /\ let '(res, _, w') := replace_file demo_key (fun _ => 7) (fun _ => 8) (fun _ _ => 9) 99 1000 demo_request
                             (Some (mkInput demo_content None)) demo_rt (mkWorld demo_vault (replicate 33 Runs ++ [FailsAfter]) 0) in
     exists found d2, run_io [] 70 (reopen demo_key (fun _ => 10) (fun _ _ => 11)) (disk w') = (Ok found, d2)
       /\ agrees demo_key 1000 demo_request demo_content demo_vault demo_node 1 1 found d2
       /\ (forall resp, res = Ok (Ok resp) ->
             node_revision found (rq_node_id demo_request) = next_source_revision (source_revision demo_node) 1000).
Proof.
  assert (one_fault (replicate 33 Runs ++ [FailsAfter])) as Hof by (right; by exists 33%nat, FailsAfter).
  split; [exact Hof|].
  pose proof (replace_command_agrees demo_key (fun _ => 7) (fun _ => 8) (fun _ _ => 9) 99 1000 demo_request
                (mkInput demo_content None) demo_content demo_rt demo_vault index_default demo_ids demo_node
                ["/"; "docs"; "a.txt"]%string 1 1 (Some demo_saved_root) 4 (fun _ => 10) (fun _ _ => 11)
                (replicate 33 Runs ++ [FailsAfter]) 0 70 demo_replace_ready demo_synced Hof) as Hw.
  exact Hw.
Defined.

(** ** An undo that fails

    With a derivative index that cannot be read the command fails after it replaced the
    chunks, and a single fault meets the undo. *)
Definition demo_unreadable : Disk := <[derivative_index_chunk_name demo_key := []]> demo_start.

Definition demo_undo : result stop (result ReplaceCommandError CatalogFileReplaceResponse) * RpcRouter * World :=
  replace_file demo_key (fun _ => 7) (fun _ => 8) (fun _ _ => 9) 99 1000 demo_request (Some (mkInput demo_content None))
    demo_rt (mkWorld demo_unreadable (replicate 13 Runs ++ [FailsBefore]) 0).

(** The undo ignores that the old chunks could not be written back and goes on to delete
    the backups and the marker: the command reports an error and the catalog keeps
    the old revision, but the file holds the new content and the old one is gone. *)
Theorem failed_undo_loses_content :
  let '(res, rt', w') := demo_undo in
  is_ok (res ≫= map_err (fun _ => Crashed)) = false
  /\ node_revision (catalog (session rt')) 3 = source_revision demo_node
  /\ (bs ← disk w' !! blob_chunk_name demo_key 3 0; match decrypt bs demo_key (as_bytes (blob_chunk_name demo_key 3 0)) with Ok p => Some p | Err _ => None end)
     = Some demo_content
  /\ disk w' !! file_replace_tx_marker_name demo_key = None
  /\ disk w' !! file_replace_temp_chunk_name demo_key 3 99 "backup" 0 = None.
Proof. vm_compute. repeat split; reflexivity. Qed.
