(* ===== verification/ChunkBatch.v ===== *)
(** * Batches of chunk writes

    Models [crates/core/src/storage/flat/batch.rs]: the chunks of a batch are written to
    temporary files next to their places and synced, then renamed one by one. Temporary
    files are no chunks, so they do not show in the disk; every call of the backend has a
    fate. *)

From Stdlib Require Import Strings.Byte Ascii String.
From stdpp Require Import base countable gmap strings list.
From S2P Require Import Prelude.
From S2P Require Import CatalogNode.
From S2P Require Import Storage.
From S2P Require Import IoLogic.
From S2P Require Import Footprint.
Open Scope Z_scope.

Record ChunkWriteBatch := mkBatch {
  wb_pending : list (string * list byte);
  wb_temps : list (string * list byte);
  wb_written_names : list string;
  wb_committed : bool;
}.

Abbreviation BIO A := (StIO ChunkWriteBatch A).

Definition begin_chunk_write_batch : ChunkWriteBatch := mkBatch [] [] [] false.

Definition push_pending (c : string * list byte) (b : ChunkWriteBatch) : ChunkWriteBatch :=
  mkBatch (wb_pending b ++ [c]) (wb_temps b) (wb_written_names b) (wb_committed b).
Definition push_temp (c : string * list byte) (b : ChunkWriteBatch) : ChunkWriteBatch :=
  mkBatch (wb_pending b) (wb_temps b ++ [c]) (wb_written_names b) (wb_committed b).
Definition push_written (n : string) (b : ChunkWriteBatch) : ChunkWriteBatch :=
  mkBatch (wb_pending b) (wb_temps b) (wb_written_names b ++ [n]) (wb_committed b).
Definition drop_temps (b : ChunkWriteBatch) : ChunkWriteBatch :=
  mkBatch (wb_pending b) [] (wb_written_names b) (wb_committed b).
Definition finish (b : ChunkWriteBatch) : ChunkWriteBatch := mkBatch [] [] (wb_written_names b) true.

Definition batch_write_chunk (name : string) (bytes : list byte) : BIO unit :=
  io (io_lift (validate_chunk_name name));;
  st_modify (push_pending (name, bytes)).

(** A call of the backend that changes no chunk. *)
Definition backend_call : IO unit := call (fun d => (Ok tt, d)).

Definition write_chunk_batch_temp (name : string) : IO unit := io_lift (chunk_path name);; backend_call.
Definition sync_chunk_batch_temp : IO unit := backend_call.
Definition rename_chunk_batch_temp (name : string) (bytes : list byte) : IO unit :=
  call (fun d => (Ok tt, <[name := bytes]> d)).
Definition sync_chunk_batch_parent : IO unit := backend_call.
Definition remove_chunk_batch_temp : IO unit := backend_call.

(** The directory of a chunk. *)
Definition chunk_parent (name : string) : string * string := (substring 0 1 name, substring 1 2 name).

Fixpoint write_temps (cs : list (string * list byte)) : BIO unit :=
  match cs with
  | [] => mret tt
  | (name, bytes) :: cs' =>
      io (write_chunk_batch_temp name);;
      st_modify (push_temp (name, bytes));;
      io sync_chunk_batch_temp;;
      write_temps cs'
  end.

Fixpoint rename_temps (cs : list (string * list byte)) : BIO unit :=
  match cs with
  | [] => mret tt
  | (name, bytes) :: cs' =>
      io (rename_chunk_batch_temp name bytes);;
      st_modify (push_written name);;
      rename_temps cs'
  end.

Fixpoint sync_parents (ps : list (string * string)) : IO unit :=
  match ps with
  | [] => mret tt
  | _ :: ps' => sync_chunk_batch_parent;; sync_parents ps'
  end.

(** The names that were written. *)
Definition batch_commit : BIO (list string) :=
  b ← st_get;
  write_temps (wb_pending b);;
  b ← st_get;
  rename_temps (wb_temps b);;
  io (sync_parents (remove_dups (map (fun c => chunk_parent (fst c)) (wb_pending b))));;
  io sync;;
  st_modify finish;;
  b ← st_get;
  mret (wb_written_names b).

Fixpoint remove_temps (n : nat) : IO unit :=
  match n with
  | O => mret tt
  | S n' => ignore remove_chunk_batch_temp;; remove_temps n'
  end.

Definition rollback_temps : BIO unit :=
  b ← st_get;
  io (remove_temps (length (wb_temps b)));;
  st_modify drop_temps.

(** ** Footprints *)

Section BatchFootprint.
Context (N : string -> Prop).

Lemma fp_backend_call : footprint N backend_call (fun _ => True).
Proof. apply fp_call; [by intros d n|done]. Qed.

Lemma fp_write_temp n : footprint N (write_chunk_batch_temp n) (fun _ => True).
Proof. unfold write_chunk_batch_temp. fp; apply fp_backend_call. Qed.

Lemma fp_sync_parents ps : footprint N (sync_parents ps) (fun _ => True).
Proof. induction ps as [|p ps IH]; cbn [sync_parents]; fp; apply fp_backend_call. Qed.

Lemma fp_remove_temps n : footprint N (remove_temps n) (fun _ => True).
Proof. induction n as [|n IH]; cbn [remove_temps]; fp; apply fp_backend_call. Qed.

(** All chunks of the batch are in [N]. *)
Definition batch_in (b : ChunkWriteBatch) : Prop :=
  Forall (fun c => N (fst c)) (wb_pending b) /\ Forall (fun c => N (fst c)) (wb_temps b).
Abbreviation sfp c := (st_footprint N batch_in c (fun _ => True)).

Lemma sfp_batch_write n bs : N n -> sfp (batch_write_chunk n bs).
Proof.
  intros Hn. apply st_fp_seq; [apply st_fp_io; fp|]. apply st_fp_modify. intros b [Hp Ht]. split; [|done].
  by apply Forall_app_2; [|constructor].
Qed.

Lemma sfp_write_temps cs : Forall (fun c => N (fst c)) cs -> sfp (write_temps cs).
Proof.
  induction 1 as [|[n bs] cs Hn _ IH]; cbn [write_temps]; [by apply st_fp_ret|].
  apply st_fp_seq; [apply st_fp_io, fp_write_temp|]. apply st_fp_seq.
  - apply st_fp_modify. intros b [Hp Ht]. split; [done|]. by apply Forall_app_2; [|constructor].
  - apply st_fp_seq; [apply st_fp_io, fp_backend_call|done].
Qed.

Lemma sfp_rename_temps cs : Forall (fun c => N (fst c)) cs -> sfp (rename_temps cs).
Proof.
  induction 1 as [|[n bs] cs Hn _ IH]; cbn [rename_temps]; [by apply st_fp_ret|]. cbn in Hn.
  apply st_fp_seq; [apply st_fp_io, fp_call; [|done]; intros d m Hm; apply lookup_insert_ne; by intros ->|].
  apply st_fp_seq; [by apply st_fp_modify|done].
Qed.

Lemma sfp_batch_commit : sfp batch_commit.
Proof.
  apply st_fp_get. intros b [Hp _]. apply st_fp_seq; [by apply sfp_write_temps|].
  apply st_fp_get. intros b' [_ Ht]. apply st_fp_seq; [by apply sfp_rename_temps|].
  apply st_fp_seq; [apply st_fp_io, fp_sync_parents|]. apply st_fp_seq; [apply st_fp_io, fp_sync|].
  apply st_fp_seq; [apply st_fp_modify; intros ? _; by split|]. apply st_fp_get. intros. by apply st_fp_ret.
Qed.

Lemma sfp_rollback : sfp rollback_temps.
Proof.
  apply st_fp_get. intros b _. apply st_fp_seq; [apply st_fp_io, fp_remove_temps|].
  apply st_fp_modify. intros ? [Hp _]. by split.
Qed.

Lemma st_fp_attempt {S A} (I : S -> Prop) (c : StIO S A) Q : st_footprint N I c Q -> st_footprint N I (st_attempt c) (fun _ => True).
Proof.
  intros Hc s w Hs. specialize (Hc s w Hs). unfold st_attempt. destruct (c s w) as [[[a|[e|]] s'] w']; destruct Hc as (? & ? & _); done.
Qed.

Lemma fp_st_run {S A} (I : S -> Prop) s (c : StIO S A) Q : I s -> st_footprint N I c Q -> footprint N (st_run s c) Q.
Proof. intros Hs Hc w. specialize (Hc s w Hs). unfold st_run. destruct (c s w) as [[x s'] w']. destruct Hc as (? & _ & ?). done. Qed.
End BatchFootprint.
