(* ===== verification/StorageGc.v ===== *)
(** * Storage garbage collection

    Models [crates/core/src/rpc/router/storage_gc]: the chunks an open vault needs
    ([live_set.rs]), the scan for the others ([scan_service.rs]), their deletion under
    a manifest ([delete_service.rs], [manifest.rs]), the scans a router remembers
    ([registry.rs]), and the two commands ([mod.rs]) on parsed requests. SHA-256 is a
    parameter, clock readings are arguments. *)

From Stdlib Require Import Strings.Byte Ascii String.
From stdpp Require Import base countable gmap strings list sorting.
From S2P Require Import Prelude.
From S2P Require Import CatalogNode.
From S2P Require Import CatalogManager.
From S2P Require Import CatalogDelta.
From S2P Require Import CatalogShard.
From S2P Require Import Bytes.
From S2P Require Import Storage.
From S2P Require Import Crypto.
From S2P Require Import IoLogic.
From S2P Require Import CatalogCommit.
From S2P Require Import CatalogSession.
From S2P Require Import DerivativeIndex.
From S2P Require Import BlobFinalize.
From S2P Require Import ChunkBatch.
Open Scope Z_scope.

(** ** More of the storage *)

(** The digest of the [sha2] crate. *)
Class Sha256 := sha256 : list byte -> list byte.

Definition sha256_hex `{Sha256} (data : list byte) : string := hex_encode (sha256 data).

(** The names of all chunk files, in the order of the directories. *)
Definition list_chunks : IO (list string) :=
  call (fun d => (Ok (List.filter valid_name (map fst (map_to_list d))), d)).

Definition chunk_len (name : string) : IO Z :=
  io_lift (chunk_path name);;
  call (fun d => (match d !! name with Some bs => Ok (Z.of_nat (length bs)) | None => Err (ChunkNotFound name) end, d)).

(** ** Types *)

Record StorageGcCandidate := mkCandidate { gc_name : string; gc_bytes : Z; gc_sha256 : string }.

Record StorageGcScanSession := mkScan {
  gs_id : string;
  gs_candidates : list StorageGcCandidate;
  gs_total_bytes : Z;
  gs_created_at_ms : Z;
  gs_last_accessed_at_ms : Z;
}.

Record StorageGcDeleteManifest := mkManifest { gm_version : Z; gm_gc_id : string; gm_candidates : list StorageGcCandidate }.

Inductive StorageGcDeleteManifestRead := ManifestMissing | ManifestValid (m : StorageGcDeleteManifest) | ManifestCorrupt.

Record StorageGcDeleteResult := mkDeleteResult {
  gd_gc_id : string;
  gd_deleted_chunks : list string;
  gd_deleted_bytes : Z;
  gd_skipped_chunks : list string;
}.

(** ** The live set (live_set.rs) *)

Definition STORAGE_GC_MANIFEST_CONTEXT : string := "admin-storage-gc-delete-manifest:v1".

Section Live.
Context `{cr : Crypto}.
Context `{Serde RootIndex, Serde DerivativeIndexRecord}.
Context (vault_key : list byte).

Definition durable_marker_names : list string :=
  map (fun context => chunk_name_u64 vault_key (as_bytes context) 0)
    ["catalog:file:replace:tx:v1"; "blob-write-tx:v1"; "otp-sidecar-tx:v1"; "domain-uow-tx:v1";
     STORAGE_GC_MANIFEST_CONTEXT]%string.

(** [if storage.chunk_exists(&name)? { live.insert(name) }] for each name. *)
Fixpoint insert_existing (names : list string) (live : gset string) : IO (gset string) :=
  match names with
  | [] => mret live
  | n :: names' =>
      e ← chunk_exists n;
      insert_existing names' (if (e : bool) then {[n]} ∪ live else live)
  end.

(** The indices of the chunks a file may have; the loop stops where an index is no [u32]. *)
Definition blob_indices (node : CatalogNode) : list Z :=
  let chunk_size := Z.max (chunk_size node) 1 in
  let expected := u64_saturating_add (node_size node) (chunk_size - 1) `div` chunk_size in
  seqZ 0 (Z.min (Z.max expected 1) (U32_MAX + 1)).

Definition collect_blob_chunks (node : CatalogNode) (live : gset string) : IO (gset string) :=
  if is_file node then
    if negb (node_id node <=? U32_MAX) then io_throw (InvalidDataFormat "invalid node_id")
    else insert_existing (map (blob_chunk_name vault_key (node_id node)) (blob_indices node)) live
  else mret live.

Fixpoint collect_node_chunks (node : CatalogNode) (live : gset string) : IO (gset string) :=
  live ← collect_blob_chunks node live;
  live ← insert_existing [otp_chunk_name vault_key (node_id node)] live;
  match children_opt node with
  | None => mret live
  | Some cs =>
      (fix go (cs : list CatalogNode) (live : gset string) {struct cs} : IO (gset string) :=
         match cs with
         | [] => mret live
         | c :: cs' => live ← collect_node_chunks c live; go cs' live
         end) cs live
  end.

Definition live_blob_and_otp_chunks (session : VaultSession) : IO (gset string) :=
  collect_node_chunks (root (catalog session)) ∅.

Definition collect (session : VaultSession) : IO (gset string) :=
  live ← live_catalog_chunk_names vault_key;
  blobs ← live_blob_and_otp_chunks session;
  derivatives ← live_derivative_chunk_names vault_key;
  insert_existing durable_marker_names (live ∪ blobs ∪ derivatives).
End Live.

Section Gc.
Context `{cr : Crypto} `{Sha256}.
Context `{Serde RootIndex, Serde DerivativeIndexRecord, Serde StorageGcDeleteManifest}.
Context (vault_key : list byte).

(** ** Scanning (scan_service.rs) *)

Fixpoint scan_candidates (live : gset string) (names : list string) : IO (list StorageGcCandidate) :=
  match names with
  | [] => mret []
  | name :: names' =>
      if bool_decide (name ∈ live) then scan_candidates live names' else
      bytes ← chunk_len name;
      data ← read_chunk name;
      rest ← scan_candidates live names';
      mret (mkCandidate name bytes (sha256_hex data) :: rest)
  end.

Definition candidate_le (a b : StorageGcCandidate) : Prop := string_le (gc_name a) (gc_name b).
#[global] Instance candidate_le_dec : RelDecision candidate_le.
Proof. intros a b. unfold candidate_le. apply _. Defined.

Definition scan (session : VaultSession) (operation_id : string) (now_ms : Z) : IO StorageGcScanSession :=
  live ← collect vault_key session;
  names ← list_chunks;
  candidates ← scan_candidates live names;
  let candidates := merge_sort candidate_le candidates in
  let total_bytes := foldl (fun sum c => u64_saturating_add sum (gc_bytes c)) 0 candidates in
  mret (mkScan (String.append "storage-gc-" operation_id) candidates total_bytes now_ms now_ms).

(** ** The manifest (manifest.rs) *)

Definition storage_gc_manifest_chunk_name : string := chunk_name_u64 vault_key (as_bytes STORAGE_GC_MANIFEST_CONTEXT) 0.

Definition read_delete_manifest : IO StorageGcDeleteManifestRead :=
  let name := storage_gc_manifest_chunk_name in
  e ← chunk_exists name;
  if negb e then mret ManifestMissing else
  encrypted ← attempt (read_chunk name);
  match encrypted with
  | Err (ChunkNotFound _) => mret ManifestMissing
  | Err error => io_throw error
  | Ok encrypted =>
      match open_sealed encrypted vault_key (as_bytes name) with
      | Err _ => mret ManifestCorrupt
      | Ok manifest =>
          if negb (gm_version manifest =? 1) || string_is_empty (gm_gc_id manifest)
          then mret ManifestCorrupt else mret (ManifestValid manifest)
      end
  end.

Definition write_delete_manifest (gc_id : string) (candidates : list StorageGcCandidate) : IO unit :=
  let name := storage_gc_manifest_chunk_name in
  encrypted ← seal (mkManifest 1 gc_id candidates) vault_key (as_bytes name);
  st_run begin_chunk_write_batch (
    batch_write_chunk name encrypted;;
    r ← st_attempt batch_commit;
    match r with
    | Ok _ => mret tt
    | Err error => rollback_temps;; io (io_throw error)
    end).

Definition delete_storage_gc_manifest : IO unit :=
  let manifest_name := storage_gc_manifest_chunk_name in
  e ← chunk_exists manifest_name;
  if (e : bool) then delete_chunk manifest_name;; sync else mret tt.

(** ** Deleting (delete_service.rs) *)

Inductive CandidateReadFailure := SkipFailure | ReturnFailure.

Definition candidate_matches_for_delete (live : gset string) (candidate : StorageGcCandidate)
    (read_failure : CandidateReadFailure) : IO bool :=
  if bool_decide (gc_name candidate ∈ live) then mret false else
  data ← attempt (read_chunk (gc_name candidate));
  match data with
  | Err (ChunkNotFound _) => mret false
  | Err error => match read_failure with SkipFailure => mret false | ReturnFailure => io_throw error end
  | Ok data => mret ((Z.of_nat (length data) =? gc_bytes candidate) && String.eqb (sha256_hex data) (gc_sha256 candidate))
  end.

(** The candidates to delete and the names of those skipped. *)
Fixpoint verify_candidates (live : gset string) (cs : list StorageGcCandidate) : IO (list StorageGcCandidate * list string) :=
  match cs with
  | [] => mret ([], [])
  | c :: cs' =>
      verified ← candidate_matches_for_delete live c SkipFailure;
      '(deletes, skipped) ← verify_candidates live cs';
      mret (if (verified : bool) then (c :: deletes, skipped) else (deletes, gc_name c :: skipped))
  end.

(** The loop of the deletion: what was deleted, its bytes, and what was skipped. *)
Fixpoint delete_candidates (live : gset string) (cs : list StorageGcCandidate) (bytes : Z) : IO (list string * Z * list string) :=
  match cs with
  | [] => mret ([], bytes, [])
  | c :: cs' =>
      if bool_decide (gc_name c ∈ live) then
        '(deleted, bytes, skipped) ← delete_candidates live cs' bytes;
        mret (deleted, bytes, gc_name c :: skipped)
      else
        delete_chunk (gc_name c);;
        '(deleted, bytes, skipped) ← delete_candidates live cs' (u64_saturating_add bytes (gc_bytes c));
        mret (gc_name c :: deleted, bytes, skipped)
  end.

Definition delete_scan (session : VaultSession) (scan : StorageGcScanSession) : IO StorageGcDeleteResult :=
  live ← collect vault_key session;
  '(to_delete, skipped) ← verify_candidates live (gs_candidates scan);
  write_delete_manifest (gs_id scan) to_delete;;
  '(deleted, bytes, skipped') ← delete_candidates live to_delete 0;
  sync;;
  delete_storage_gc_manifest;;
  mret (mkDeleteResult (gs_id scan) deleted bytes (skipped ++ skipped')).

Fixpoint recover_candidates (live : gset string) (cs : list StorageGcCandidate) : IO unit :=
  match cs with
  | [] => mret tt
  | c :: cs' =>
      matches ← candidate_matches_for_delete live c ReturnFailure;
      (if negb matches then mret tt else delete_chunk (gc_name c));;
      recover_candidates live cs'
  end.

Definition recover_manifest (session : VaultSession) : IO unit :=
  manifest ← read_delete_manifest;
  match manifest with
  | ManifestMissing => mret tt
  | ManifestCorrupt => delete_storage_gc_manifest
  | ManifestValid manifest =>
      live ← collect vault_key session;
      recover_candidates live (gm_candidates manifest);;
      sync;;
      delete_storage_gc_manifest
  end.
End Gc.

(** ** The scans a router remembers (registry.rs) *)

Definition LONG_RUNNING_SESSION_IDLE_TTL_MS : Z := 60 * 60 * 1000.

Record StorageGcScanRegistry := mkRegistry { rg_scans : gmap string StorageGcScanSession; rg_idle_ttl_ms : Z }.

Definition registry_default : StorageGcScanRegistry := mkRegistry ∅ LONG_RUNNING_SESSION_IDLE_TTL_MS.
Definition set_idle_ttl_ms (ttl : Z) (r : StorageGcScanRegistry) : StorageGcScanRegistry := mkRegistry (rg_scans r) ttl.

Definition expire_idle (now_ms : Z) (r : StorageGcScanRegistry) : StorageGcScanRegistry :=
  mkRegistry (filter (fun x => u64_saturating_sub now_ms (gs_last_accessed_at_ms (snd x)) <= rg_idle_ttl_ms r) (rg_scans r))
    (rg_idle_ttl_ms r).

Definition registry_insert (scan : StorageGcScanSession) (r : StorageGcScanRegistry) : StorageGcScanRegistry :=
  mkRegistry (<[gs_id scan := scan]> (rg_scans r)) (rg_idle_ttl_ms r).

Definition touch_scan (now_ms : Z) (s : StorageGcScanSession) : StorageGcScanSession :=
  mkScan (gs_id s) (gs_candidates s) (gs_total_bytes s) (gs_created_at_ms s) now_ms.

Definition get_refresh_cloned (gc_id : string) (now_ms : Z) (r : StorageGcScanRegistry)
    : option StorageGcScanSession * StorageGcScanRegistry :=
  match rg_scans r !! gc_id with
  | None => (None, r)
  | Some scan => let scan := touch_scan now_ms scan in (Some scan, mkRegistry (<[gc_id := scan]> (rg_scans r)) (rg_idle_ttl_ms r))
  end.

Definition registry_remove (gc_id : string) (r : StorageGcScanRegistry) : StorageGcScanRegistry :=
  mkRegistry (delete gc_id (rg_scans r)) (rg_idle_ttl_ms r).
Definition registry_clear (r : StorageGcScanRegistry) : StorageGcScanRegistry := mkRegistry ∅ (rg_idle_ttl_ms r).

(** ** The commands (mod.rs) *)

Inductive StorageGcError :=
  | GcVaultRequired
  | GcConfirmDeleteRequiredTrue
  | GcScanNotFound
  | GcInternal (context : string) (e : Error).

(** An open session or none, the cached derivative index and the scans. *)
Record GcRouter := mkGcRouter {
  gr_session : option VaultSession;
  gr_index : DerivativeIndexCacheState;
  gr_scans : StorageGcScanRegistry;
}.

Abbreviation GcIO A := (StIO GcRouter (result StorageGcError A)).

Definition with_scans (r : StorageGcScanRegistry) (g : GcRouter) : GcRouter := mkGcRouter (gr_session g) (gr_index g) r.

(** [c.map_err(..)?]. *)
Definition gc_try {A B} (context : string) (c : IO A) (k : A -> GcIO B) : GcIO B :=
  r ← io (attempt c);
  match r with
  | Ok a => k a
  | Err e => mret (Err (GcInternal context e))
  end.

Section Commands.
Context `{cr : Crypto} `{Sha256}.
Context `{Serde RootIndex, Serde DerivativeIndexRecord, Serde StorageGcDeleteManifest}.
Context (vault_key : list byte).

Definition recover_manifest_for_command (context : string) {A} (k : GcIO A) : GcIO A :=
  g ← st_get;
  match gr_session g with
  | None => k
  | Some session => gc_try context (recover_manifest vault_key session) (fun _ => k)
  end.

Definition recover_manifest_best_effort (session : option VaultSession) : IO unit :=
  match session with
  | None => mret tt
  | Some session => ignore (recover_manifest vault_key session)
  end.

(** [self.derivative_index_state.flush(..)?]. *)
Definition flush_index {A} (k : GcIO A) : GcIO A := fun g w =>
  let '(r, i, w') := flush vault_key (gr_index g) w in
  let g := mkGcRouter (gr_session g) i (gr_scans g) in
  match r with
  | Ok _ => k g w'
  | Err (Failed e) => (Ok (Err (GcInternal "" e)), g, w')
  | Err Crashed => (Err Crashed, g, w')
  end.

(** [expired_ms] and [now_ms] are two readings of the clock. *)
Definition admin_storage_gc_scan (operation_id : string) (expired_ms now_ms : Z) : GcIO StorageGcScanSession :=
  recover_manifest_for_command "Storage GC scan failed" (
  st_modify (fun g => with_scans (expire_idle expired_ms (gr_scans g)) g);;
  g ← st_get;
  match gr_session g with
  | None => mret (Err GcVaultRequired)
  | Some session =>
      flush_index (
      gc_try "Storage GC scan failed" (scan vault_key session operation_id now_ms) (fun s =>
      st_modify (fun g => with_scans (registry_insert s (gr_scans g)) g);;
      mret (Ok s)))
  end).

Definition admin_storage_gc_delete (gc_id : string) (confirm_delete : bool) (expired_ms now_ms : Z) : GcIO StorageGcDeleteResult :=
  recover_manifest_for_command "Storage GC delete failed" (
  st_modify (fun g => with_scans (expire_idle expired_ms (gr_scans g)) g);;
  if negb confirm_delete then mret (Err GcConfirmDeleteRequiredTrue) else
  g ← st_get;
  match gr_session g with
  | None => mret (Err GcVaultRequired)
  | Some session =>
      flush_index (
      g ← st_get;
      let '(found, scans) := get_refresh_cloned gc_id now_ms (gr_scans g) in
      st_modify (with_scans scans);;
      match found with
      | None => mret (Err GcScanNotFound)
      | Some s =>
          gc_try "Storage GC delete failed" (delete_scan vault_key session s) (fun result =>
          st_modify (fun g => with_scans (registry_remove gc_id (gr_scans g)) g);;
          mret (Ok result))
      end)
  end).
End Commands.
