(* ===== verification/StorageGcSpec.v ===== *)
(** * Garbage collection spares what the vault needs

    [live] is what an open vault needs, read off the disk and the catalog: the chunks that
    hold the bytes of its files, its passwords, derivatives, shards and transaction markers.
    The set the collector computes ([listed]) has exactly these chunks, so whatever scan it is
    given and whatever faults it meets it deletes none of them, and the next unlock finds the same
    catalog; without faults it deletes all others, including those of other vaults and
    the backups that the records of pending transactions name. *)

From Stdlib Require Import Strings.Byte Ascii String.
From stdpp Require Import base countable gmap strings list sorting.
From S2P Require Import Prelude.
From S2P Require Import CatalogNode.
From S2P Require Import CatalogManager.
From S2P Require Import CatalogTree.
From S2P Require Import CatalogDelta.
From S2P Require Import CatalogShard.
From S2P Require Import Bytes.
From S2P Require Import Storage.
From S2P Require Import Crypto.
From S2P Require Import IoLogic.
From S2P Require Import DurableTx.
From S2P Require Import CatalogCommit.
From S2P Require Import CatalogLoad.
From S2P Require Import CatalogSession.
From S2P Require Import DerivativeIndex.
From S2P Require Import Footprint.
From S2P Require Import SaveFootprint.
From S2P Require Import BlobFinalizeSpec.
From S2P Require Import FileReplace.
From S2P Require Import ChunkBatch.
From S2P Require Import StorageGc.
Open Scope Z_scope.

(** ** What the collector lists *)

(** [n] is a node of the tree [t]. *)
Inductive subnode (n : CatalogNode) : CatalogNode -> Prop :=
  | subnode_here : subnode n n
  | subnode_below t c : c ∈ children t -> subnode n c -> subnode n t.

Section Live.
Context `{cr : Crypto} {crl : CryptoLaws cr}.
Context `{Serde RootIndex, Serde DerivativeIndexRecord}.
Context (key : list byte).
Abbreviation manifest := (storage_gc_manifest_chunk_name key).

(** The chunks listed for a node itself. *)
Definition listed_chunk (t : CatalogNode) (n : string) : Prop :=
  (is_file t = true /\ n ∈ map (blob_chunk_name key (node_id t)) (blob_indices t)) \/ n = otp_chunk_name key (node_id t).

(** The chunks listed for an open vault with the catalog [m] on the disk [d]. *)
Inductive listed (m : CatalogManager) (d : Disk) (n : string) : Prop :=
  | listed_root : n = root_index_chunk_name key 0 -> listed m d n
  | listed_commit : n = catalog_commit_chunk_name key -> listed m d n
  | listed_shard ri : disk_root_index key d = Some ri -> live_chunk key ri n -> listed m d n
  | listed_node t : subnode t (root m) -> listed_chunk t n -> listed m d n
  | listed_index r : index_on key r d -> index_name key r n -> listed m d n
  | listed_index_tx : n = derivative_write_tx_marker_name key -> listed m d n
  | listed_marker : n ∈ durable_marker_names key -> listed m d n.

(** [L] has the chunks with [P] that are on the disk, and what was in [L0]. *)
Abbreviation adds d L0 P L := (forall n, n ∈ L <-> n ∈ L0 \/ (P n /\ is_Some (d !! n))).

Lemma insert_existing_is d ns L0 :
  ensures (eq d) (insert_existing ns L0) (fun L d' => d' = d /\ adds d L0 (fun n => n ∈ ns) L) (eq d).
Proof.
  revert L0. induction ns as [|x ns IH]; intros L0; cbn [insert_existing].
  - apply ensures_ret. intros ? <-. split; [done|]. intros n. rewrite elem_of_nil. tauto.
  - eapply ensures_bind; [by apply ensures_exists|]. intros b. apply ensures_known. intros ? [<- ->].
    eapply ensures_conseq; [apply IH|by intros ? <-|]. intros L d' [-> HL]. split; [done|]. intros n.
    rewrite HL, elem_of_cons. case_bool_decide as Hx.
    + rewrite elem_of_union, elem_of_singleton. split; [|tauto]. intros [[->|?]|[? ?]]; auto.
    + split; [tauto|]. intros [?|[[->|?] ?]]; auto; done.
Qed.

Lemma collect_blob_is d t L0 :
  ensures (eq d) (collect_blob_chunks key t L0)
    (fun L d' => d' = d /\ adds d L0 (fun n => is_file t = true /\ n ∈ map (blob_chunk_name key (node_id t)) (blob_indices t)) L) (eq d).
Proof.
  unfold collect_blob_chunks. destruct (is_file t).
  - destruct (node_id t <=? U32_MAX); cbn [negb].
    + eapply ensures_conseq; [apply insert_existing_is|done|]. intros L d' [-> HL]. split; [done|]. intros n. rewrite HL. tauto.
    + intros w Hw. exact Hw.
  - apply ensures_ret. intros ? <-. split; [done|]. intros n. split; [tauto|]. by intros [?|[[? _] _]].
Qed.

Fixpoint collect_children (cs : list CatalogNode) (live : gset string) : IO (gset string) :=
  match cs with
  | [] => mret live
  | c :: cs' => live ← collect_node_chunks key c live; collect_children cs' live
  end.

Lemma collect_node_eq t L0 :
  collect_node_chunks key t L0
  = (live ← collect_blob_chunks key t L0; live ← insert_existing [otp_chunk_name key (node_id t)] live; collect_children (children t) live).
Proof. by destruct t as [?????????????[cs|]]. Qed.

(** A chunk of a node below [cs]. *)
Definition below (cs : list CatalogNode) (n : string) : Prop := exists c u, c ∈ cs /\ subnode u c /\ listed_chunk u n.

Lemma below_cons c cs n : below (c :: cs) n <-> (exists u, subnode u c /\ listed_chunk u n) \/ below cs n.
Proof.
  unfold below. split.
  - intros (c' & u & [->|?]%elem_of_cons & ? & ?); [left|right]; eauto.
  - intros [(u & ? & ?)|(c' & u & ? & ? & ?)]; [exists c, u|exists c', u]; rewrite elem_of_cons; auto.
Qed.

Lemma below_node t n : (exists u, subnode u t /\ listed_chunk u n) <-> listed_chunk t n \/ below (children t) n.
Proof.
  split.
  - intros (u & Hu & Ho). inversion Hu as [|? c Hc Hu']; subst; [by left|right; by exists c, u].
  - intros [Ho|(c & u & Hc & Hu & Ho)]; [exists t|exists u]; (split; [|done]); [constructor|by econstructor].
Qed.

Lemma collect_nodes_is d t L0 :
  ensures (eq d) (collect_node_chunks key t L0)
    (fun L d' => d' = d /\ adds d L0 (fun n => exists u, subnode u t /\ listed_chunk u n) L) (eq d).
Proof.
  revert L0. induction t as [t IH] using node_ind. intros L0. rewrite Forall_forall in IH.
  assert (forall cs L1, (forall c, c ∈ cs -> c ∈ children t) ->
    ensures (eq d) (collect_children cs L1) (fun L d' => d' = d /\ adds d L1 (below cs) L) (eq d)) as Hgo.
  { induction cs as [|c cs IHcs]; intros L1 Hcs; cbn [collect_children].
    - apply ensures_ret. intros ? <-. split; [done|]. intros n. split; [tauto|]. intros [?|[(c & u & Hc & _) _]]; [done|].
      by apply elem_of_nil in Hc.
    - eapply ensures_bind; [apply (IH c), Hcs; left|]. intros L2. apply ensures_known. intros ? [<- HL2].
      eapply ensures_conseq; [apply IHcs; intros; apply Hcs; by right|by intros ? <-|].
      intros L d' [-> HL]. split; [done|]. intros n. rewrite HL, HL2, below_cons. tauto. }
  rewrite collect_node_eq.
  eapply ensures_bind; [apply collect_blob_is|]. intros L1. apply ensures_known. intros ? [<- HL1].
  eapply ensures_bind; [eapply ensures_conseq; [apply insert_existing_is|by intros ? <-|done]|]. intros L2.
  apply ensures_known. intros ? [<- HL2].
  eapply ensures_conseq; [by apply (Hgo (children t))|by intros ? <-|]. intros L d' [-> HL]. split; [done|].
  intros n. rewrite HL, HL2, HL1, list_elem_of_singleton, below_node. unfold listed_chunk. tauto.
Qed.

Lemma elem_of_unions {A} (f : A -> list string) xs (L : gset string) n :
  n ∈ foldl (fun live x => live ∪ list_to_set (f x)) L xs <-> n ∈ L \/ exists x, x ∈ xs /\ n ∈ f x.
Proof.
  revert L. induction xs as [|x xs IH]; intros L; cbn [foldl].
  - split; [tauto|]. intros [?|(x & Hx & _)]; [done|by apply elem_of_nil in Hx].
  - rewrite IH, elem_of_union, elem_of_list_to_set. setoid_rewrite elem_of_cons. split.
    + intros [[?|?]|(y & ? & ?)]; eauto.
    + intros [?|(y & [->|?] & ?)]; eauto.
Qed.

(** What a set of names holds of the chunks that are on the disk. *)
Definition holds_live (d : Disk) (P : string -> Prop) (L : gset string) : Prop := forall n, is_Some (d !! n) -> n ∈ L <-> P n.

Lemma holds_live_iff d P Q L : (forall n, is_Some (d !! n) -> P n <-> Q n) -> holds_live d P L -> holds_live d Q L.
Proof. intros HPQ HL n Hn. rewrite (HL n Hn). by apply HPQ. Qed.

Definition catalog_live (d : Disk) (n : string) : Prop :=
  n = root_index_chunk_name key 0 \/ n = catalog_commit_chunk_name key
  \/ exists ri, disk_root_index key d = Some ri /\ live_chunk key ri n.

Lemma live_catalog_is d :
  ensures (eq d) (live_catalog_chunk_names key) (fun L d' => d' = d /\ holds_live d (catalog_live d) L) (eq d).
Proof.
  unfold live_catalog_chunk_names.
  eapply ensures_bind; [by apply ensures_exists|]. intros b1. apply ensures_known. intros d1 [E1 ->]. subst d1.
  eapply ensures_bind; [apply (ensures_exists (eq d)); by intros ? <-|]. intros b2. apply ensures_known. intros d1 [E1 ->]. subst d1.
  eapply ensures_bind; [eapply ensures_conseq; [apply read_root_index_is|by intros ? <-|done]|]. intros o.
  apply ensures_known. intros d1 [-> ->]. set (L1 := (if bool_decide _ then _ else _) : gset string).
  assert (holds_live d (fun n => n = root_index_chunk_name key 0 \/ n = catalog_commit_chunk_name key) L1) as HL1.
  { intros n Hn. unfold L1. repeat case_bool_decide; set_solver. }
  unfold catalog_live. destruct (disk_root_index key d) as [ri|] eqn:E; apply ensures_ret; intros ? <-; (split; [done|]); intros n Hn.
  - rewrite elem_of_unions, (HL1 n Hn). unfold live_chunk. split.
    + intros [[?|?]|(meta & ? & ?)]; [auto..|]. right. right. exists ri. eauto.
    + intros [?|[?|(ri' & [= <-] & meta & ? & ?)]]; eauto.
  - rewrite (HL1 n Hn). split; [tauto|]. by intros [?|[?|(ri & ? & _)]]; auto.
Qed.

Lemma load_index_is d : ensures (eq d) (load_index key) (fun r d' => d' = d /\ index_on key r d) (eq d).
Proof.
  unfold load_index. change (index_chunk_name key) with (derivative_index_chunk_name key).
  apply (ensures_bind _ _ _ (fun x d' => d' = d /\ match x with
    | Ok bs => d !! derivative_index_chunk_name key = Some bs
    | Err (ChunkNotFound _) => d !! derivative_index_chunk_name key = None
    | Err _ => True end)).
  - intros w Ed. subst d. unfold attempt, read_chunk, mbind, IO_bind, io_lift at 1.
    destruct (chunk_path_ok (derivative_index_chunk_name key) (chunk_name_valid _ _ _)) as [p ->]. cbn [map_err].
    unfold call. destruct (fates w) as [|[] fs]; cbn; try done; by destruct (disk w !! _) eqn:E.
  - intros x. apply ensures_known. intros d1 [-> Hx]. unfold index_on. destruct x as [bs|[]]; try (intros w Hw; exact Hw).
    + eapply ensures_bind; [by apply (ensures_lift (eq d))|]. intros plain. apply ensures_pure. intros Hd.
      eapply ensures_conseq; [by apply (ensures_lift (eq d))|done|]. intros r d' [<- Hr]. split; [done|]. rewrite Hx.
      exists plain. split; [done|]. by apply ok_or_Ok_inv in Hr.
    + apply ensures_ret. intros ? <-. by rewrite Hx.
Qed.

Lemma elem_of_entries r (L : gset string) n :
  n ∈ foldl (fun live e => list_to_set (entry_part_names key e) ∪ ({[e_meta_chunk_name e]} ∪ live)) L (entries r)
  <-> n ∈ L \/ exists e, e ∈ entries r /\ n ∈ entry_chunks key e.
Proof.
  revert L. induction (entries r) as [|e es IH]; intros L; cbn [foldl].
  - split; [tauto|]. intros [?|(x & Hx & _)]; [done|by apply elem_of_nil in Hx].
  - rewrite IH, !elem_of_union, elem_of_list_to_set, elem_of_singleton. setoid_rewrite elem_of_cons. split.
    + intros [[?|[->|?]]|(y & ? & ?)]; [right; exists e; split; [by left|auto]..|by left|right; exists y; auto].
    + intros [?|(y & [->|?] & Hy)]; [auto| |right; exists y; auto]. tauto.
Qed.

Definition derivatives_live (d : Disk) (n : string) : Prop :=
  n = derivative_write_tx_marker_name key \/ exists r, index_on key r d /\ index_name key r n.

Lemma index_on_fun r r' d : index_on key r d -> index_on key r' d -> r = r'.
Proof.
  unfold index_on. destruct (d !! _); [|congruence]. intros (p & E1 & E2) (p' & E1' & E2'). congruence.
Qed.

Lemma live_derivatives_is d :
  ensures (eq d) (live_derivative_chunk_names key) (fun L d' => d' = d /\ holds_live d (derivatives_live d) L) (eq d).
Proof.
  unfold live_derivative_chunk_names. change (index_chunk_name key) with (derivative_index_chunk_name key).
  eapply ensures_bind; [by apply ensures_exists|]. intros b1. apply ensures_known. intros d1 [E1 ->]. subst d1.
  eapply ensures_bind; [apply load_index_is|]. intros r. apply ensures_known. intros d1 [-> Hr].
  eapply ensures_bind; [apply (ensures_exists (eq d)); by intros ? <-|]. intros b2. apply ensures_known. intros d1 [E1 ->]. subst d1.
  apply ensures_ret. intros ? <-. split; [done|]. intros n Hn.
  assert (derivatives_live d n <-> n = derivative_write_tx_marker_name key \/ index_name key r n) as ->.
  { unfold derivatives_live. split; [|intros [?|?]; eauto]. intros [?|(r' & Hr' & ?)]; [by left|right].
    by rewrite (index_on_fun r r' d). }
  unfold index_name. set (L1 := foldl _ _ _).
  assert (n ∈ L1 <-> n = derivative_index_chunk_name key \/ exists e, e ∈ entries r /\ n ∈ entry_chunks key e) as HL1.
  { unfold L1. rewrite elem_of_entries. case_bool_decide; rewrite ?elem_of_singleton, ?elem_of_empty; [done|].
    split; [tauto|]. intros [->|?]; [done|by right]. }
  case_bool_decide as Hb; rewrite ?elem_of_union, ?elem_of_singleton, HL1; [done|]. split; [tauto|]. intros [->|?]; [done|tauto].
Qed.

(** The set the collector computes holds, of the chunks on the disk, exactly those
    listed. *)
Lemma collect_is s d :
  ensures (eq d) (collect key s) (fun L d' => d' = d /\ holds_live d (listed (catalog s) d) L) (eq d).
Proof.
  unfold collect, live_blob_and_otp_chunks.
  eapply ensures_bind; [apply live_catalog_is|]. intros L1. apply ensures_known. intros d1 [-> H1].
  eapply ensures_bind; [apply collect_nodes_is|]. intros L2. apply ensures_known. intros d1 [-> H2].
  eapply ensures_bind; [apply live_derivatives_is|]. intros L3. apply ensures_known. intros d1 [-> H3].
  eapply ensures_conseq; [apply insert_existing_is|done|]. intros L d' [-> HL]. split; [done|]. intros n Hn.
  rewrite HL, !elem_of_union, (H1 n Hn), (H3 n Hn), H2. unfold catalog_live, derivatives_live. split.
  - intros [[[[?|[?|(ri & ? & ?)]]|[[]%elem_of_empty|[(t & ? & ?) _]]]|[?|(r & ? & ?)]]|[? _]]; 
      [by constructor 1|by constructor 2|by econstructor 3|by econstructor 4|by constructor 6|by econstructor 5|by constructor 7].
  - intros [?|?|ri ? ?|t ? ?|r ? ?|?|?]; [left; left; left; eauto 6..|left; left; right; eauto 6|left; right; eauto 6|left; right; eauto 6|by right].
Qed.
End Live.

(** ** What a vault needs *)

(** The markers of transactions, by the names their modules give them. *)
Definition blob_write_tx_marker_name `{Crypto} (vault_key : list byte) : string :=
  chunk_name_u64 vault_key (as_bytes "blob-write-tx:v1") 0.

Definition otp_sidecar_tx_marker_name `{Crypto} (vault_key : list byte) : string :=
  chunk_name_u64 vault_key (as_bytes "otp-sidecar-tx:v1") 0.

Definition domain_uow_tx_marker_name `{Crypto} (vault_key : list byte) : string :=
  chunk_name_u64 vault_key (as_bytes "domain-uow-tx:v1") 0.

Section Needs.
Context `{cr : Crypto} {crl : CryptoLaws cr}.
Context `{Serde RootIndex, Serde DerivativeIndexRecord}.
Context (key : list byte).

(** Chunk [i] of a file: the first one, or one in which a byte of the file lies, while its
    number is a [u32]. *)
Definition file_chunk (t : CatalogNode) (i : Z) : Prop :=
  0 <= i <= U32_MAX
  /\ (i = 0 \/ exists offset, 0 <= offset < node_size t /\ i = offset `div` Z.max (chunk_size t) 1).

(** The chunks an open vault with the catalog [m] needs on the disk [d]. *)
Inductive live (m : CatalogManager) (d : Disk) : string -> Prop :=
  | live_root : live m d (root_index_chunk_name key 0)
  | live_commit : live m d (catalog_commit_chunk_name key)
  | live_snapshot ri id meta : disk_root_index key d = Some ri -> ri_shards ri !! id = Some meta ->
      live m d (shard_snapshot_chunk_name key (sm_shard_id meta) (sm_snapshot_seq meta))
  | live_delta ri id meta q : disk_root_index key d = Some ri -> ri_shards ri !! id = Some meta ->
      sm_has_deltas meta = true -> u64_saturating_add (sm_base_version meta) 1 <= q <= sm_last_delta_seq meta ->
      live m d (delta_chunk_name key (sm_shard_id meta) q)
  | live_blob t i : subnode t (root m) -> is_file t = true -> file_chunk t i -> live m d (blob_chunk_name key (node_id t) i)
  | live_otp t : subnode t (root m) -> live m d (otp_chunk_name key (node_id t))
  | live_index r : index_on key r d -> live m d (derivative_index_chunk_name key)
  | live_derivative r e : index_on key r d -> e ∈ entries r -> live m d (e_meta_chunk_name e)
  | live_derivative_part r e i : index_on key r d -> e ∈ entries r -> 0 <= i < e_part_count e ->
      live m d (derivative_chunk_name key (e_node_id e) (e_source_revision e) (e_tier e) (e_storage_version e) i)
  | live_derivative_tx : live m d (derivative_write_tx_marker_name key)
  | live_replace_tx : live m d (file_replace_tx_marker_name key)
  | live_blob_tx : live m d (blob_write_tx_marker_name key)
  | live_otp_tx : live m d (otp_sidecar_tx_marker_name key)
  | live_uow_tx : live m d (domain_uow_tx_marker_name key)
  | live_manifest : live m d (storage_gc_manifest_chunk_name key).

(** Sizes are [u64], chunk sizes [u32]. *)
Definition widths (t : CatalogNode) : Prop :=
  forall u, subnode u t -> 0 <= node_size u <= U64_MAX /\ 0 <= chunk_size u <= U32_MAX.

(** The loop of the collector runs over exactly the chunks of the file. *)
Lemma file_chunk_indices t i :
  0 <= node_size t <= U64_MAX -> 0 <= chunk_size t <= U32_MAX -> i ∈ blob_indices t <-> file_chunk t i.
Proof.
  intros Hs Hc. unfold blob_indices, file_chunk, u64_saturating_add. set (c := Z.max (chunk_size t) 1).
  assert (1 <= c <= U32_MAX) as Hc' by (unfold c, U32_MAX in *; lia). clearbody c. clear Hc. rewrite elem_of_seqZ.
  set (e := Z.min (node_size t + (c - 1)) U64_MAX `div` c).
  assert (0 < i -> i <= U32_MAX -> i < e <-> i * c < node_size t) as Hi.
  { intros Hi Hu. unfold e. destruct (Z.le_gt_cases (node_size t + (c - 1)) U64_MAX) as [Hle|Hgt].
    - rewrite Z.min_l by done. split; intros Hlt.
      + assert (c * (i + 1) <= node_size t + (c - 1)); [|lia].
        etransitivity; [apply Z.mul_le_mono_nonneg_l; [lia|apply Z.le_succ_l, Hlt]|]. apply Z.mul_div_le. lia.
      + apply Z.lt_le_trans with (i + 1); [lia|]. apply Z.div_le_lower_bound; lia.
    - rewrite Z.min_r by lia. unfold U64_MAX, U32_MAX in *. split; intros _; [nia|].
      apply Z.lt_le_trans with (i + 1); [lia|]. apply Z.div_le_lower_bound; nia. }
  assert ((exists offset, 0 <= offset < node_size t /\ i = offset `div` c) <-> 0 <= i /\ i * c < node_size t) as ->.
  { split.
    - intros (o & Ho & ->). pose proof (Z.mul_div_le o c). pose proof (Z.div_pos o c). lia.
    - intros [Hi0 Hlt]. exists (i * c). split; [nia|]. rewrite Z.div_mul by lia. done. }
  destruct (decide (i = 0)) as [->|Hne]; [unfold U32_MAX; lia|].
  split; [intros [H1 H2]|intros [[H1 H2] [?|[_ H3]]]; [done|]].
  - assert (0 < i) by lia. assert (i <= U32_MAX) by lia. split; [lia|]. right. split; [lia|]. apply Hi; lia.
  - assert (0 < i) by lia. split; [lia|]. apply Hi in H3; lia.
Qed.

(** The collector lists what is needed, and nothing else. *)
Lemma listed_live m d n : widths (root m) -> listed key m d n <-> live m d n.
Proof.
  intros Hw. split.
  - intros [->| ->|ri Hri (meta & Hm & Hn)|t Ht [[Hf Hn]| ->]|r Hr [->|(e & He & Hn)]| ->|Hn]; try by econstructor.
    + apply list_elem_of_fmap in Hm as ([id meta'] & -> & Hm%elem_of_map_to_list).
      unfold chunks_for_meta in Hn. cbn [snd] in *. apply elem_of_cons in Hn as [->|Hn]; [by eapply live_snapshot|].
      destruct (sm_has_deltas meta') eqn:Hd; [|by apply elem_of_nil in Hn].
      apply list_elem_of_fmap in Hn as (q & -> & Hq). unfold seq_inclusive in Hq. apply elem_of_seqZ in Hq.
      eapply live_delta; [done..|lia].
    + apply list_elem_of_fmap in Hn as (i & -> & Hi). destruct (Hw t Ht). apply live_blob; [done..|]. by apply file_chunk_indices.
    + unfold entry_chunks in Hn. apply elem_of_cons in Hn as [->|Hn]; [by eapply live_derivative|].
      apply list_elem_of_fmap in Hn as (i & -> & Hi%elem_of_seqZ). eapply live_derivative_part; [done..|lia].
    + unfold durable_marker_names in Hn. cbn [map] in Hn. rewrite !elem_of_cons in Hn.
      destruct Hn as [->|[->|[->|[->|[->|Hn%elem_of_nil]]]]]; [apply live_replace_tx|apply live_blob_tx|apply live_otp_tx|apply live_uow_tx|apply live_manifest|done].
  - assert (forall ri id (meta : ShardMeta), ri_shards ri !! id = Some meta -> meta ∈ map snd (map_to_list (ri_shards ri))) as Hin.
    { intros ri id meta Hm. apply list_elem_of_fmap. exists (id, meta). split; [done|]. by apply elem_of_map_to_list. }
    assert (forall c, c ∈ ["catalog:file:replace:tx:v1"; "blob-write-tx:v1"; "otp-sidecar-tx:v1"; "domain-uow-tx:v1";
              STORAGE_GC_MANIFEST_CONTEXT]%string -> listed key m d (chunk_name_u64 key (as_bytes c) 0)) as Hmk.
    { intros c Hc. apply listed_marker. unfold durable_marker_names. by apply (list_elem_of_fmap_2 (fun c => chunk_name_u64 key (as_bytes c) 0)). }
    destruct 1 as [| |ri id meta Hri Hm|ri id meta q Hri Hm Hd Hq|t i Ht Hf Hi|t Ht|r Hr|r e Hr He|r e i Hr He Hi| | | | | |];
      try (by constructor); try (apply Hmk; rewrite !elem_of_cons; tauto).
    + eapply listed_shard; [done|]. exists meta. split; [by eapply Hin|left].
    + eapply listed_shard; [done|]. exists meta. split; [by eapply Hin|]. right. rewrite Hd.
      apply list_elem_of_fmap_2. unfold seq_inclusive. apply elem_of_seqZ. lia.
    + eapply listed_node; [done|]. left. split; [done|]. apply list_elem_of_fmap_2. destruct (Hw t Ht). by apply file_chunk_indices.
    + eapply listed_node; [done|]. by right.
    + eapply listed_index; [done|by left].
    + eapply listed_index; [done|]. right. exists e. split; [done|left].
    + eapply listed_index; [done|]. right. exists e. split; [done|]. right.
      apply (list_elem_of_fmap_2 (derivative_chunk_name key _ _ _ _)). apply elem_of_seqZ. lia.
Qed.
End Needs.

(** ** What a collection deletes *)

Section Collect.
Context `{cr : Crypto} {crl : CryptoLaws cr} `{Sha256}.
Context `{Serde RootIndex, Serde DerivativeIndexRecord, Serde StorageGcDeleteManifest}.
Context (key : list byte).
Abbreviation manifest := (storage_gc_manifest_chunk_name key).

(** From [d] to [d'] at most chunks that are not in [L], and the manifest, changed, and
    those were deleted. *)
Definition spared (L : gset string) (d d' : Disk) : Prop :=
  forall n, n <> manifest -> d' !! n = d !! n \/ (n ∉ L /\ d' !! n = None).

Lemma keeps_bind {A B} I (c : IO A) (k : A -> IO B) :
  ensures I c (fun _ => I) I -> (forall a, ensures I (k a) (fun _ => I) I) -> ensures I (c ≫= k) (fun _ => I) I.
Proof. intros Hc Hk. by apply (ensures_bind _ _ _ (fun _ => I)). Qed.

Lemma spared_refl L d : spared L d d.
Proof. intros n _. by left. Qed.

Lemma spared_delete L d d' n : n ∉ L \/ n = manifest -> spared L d d' -> spared L d (delete n d').
Proof.
  intros Hn Hd m Hm. destruct (decide (n = m)) as [<-|Hne].
  - destruct Hn as [Hn|?]; [|done]. right. split; [done|apply lookup_delete_eq].
  - rewrite lookup_delete_ne by done. by apply Hd.
Qed.

Lemma spared_outside L d d1 d2 : spared L d d1 -> same_outside (fun n => n = manifest) d1 d2 -> spared L d d2.
Proof. intros Hd Ho n Hn. rewrite Ho by done. by apply Hd. Qed.

Lemma ensures_footprint {A} L d (c : IO A) :
  footprint (fun n => n = manifest) c (fun _ => True) -> ensures (spared L d) c (fun _ => spared L d) (spared L d).
Proof. intros Hc w Hw. specialize (Hc w). destruct (c w) as [[a|e] w']; destruct Hc as [Ho _]; by eapply spared_outside. Qed.

Lemma ensures_delete_spared L d n :
  n ∉ L \/ n = manifest -> ensures (spared L d) (delete_chunk n) (fun _ => spared L d) (spared L d).
Proof.
  intros Hn. apply ensures_named. intros d' Hd'. cbn. split_and!; [done|by apply spared_delete|]. intros _ _. by apply spared_delete.
Qed.

Lemma fp_matches N L c f : footprint N (candidate_matches_for_delete L c f) (fun _ => True).
Proof. unfold candidate_matches_for_delete. fp. Qed.

Lemma fp_verify N L cs : footprint N (verify_candidates L cs) (fun _ => True).
Proof.
  induction cs as [|c cs IH]; cbn [verify_candidates]; [by apply fp_ret|]. apply fp_then; [apply fp_matches|]. intros b.
  apply fp_then; [done|]. intros [x y]. by apply fp_ret.
Qed.

Lemma fp_write_manifest id cs : footprint (fun n => n = manifest) (write_delete_manifest key id cs) (fun _ => True).
Proof.
  unfold write_delete_manifest. apply fp_then; [apply fp_seal|]. intros bs. eapply (fp_st_run _ (batch_in _)); [by split|].
  apply st_fp_seq; [by apply sfp_batch_write|]. apply (st_fp_bind _ _ _ _ (fun _ => True)); [eapply st_fp_attempt, sfp_batch_commit|]. intros [ns|e] _; [by apply st_fp_ret|].
  apply st_fp_seq; [apply sfp_rollback|]. apply st_fp_io. fp.
Qed.

Lemma fp_delete_manifest : footprint (fun n => n = manifest) (delete_storage_gc_manifest key) (fun _ => True).
Proof. unfold delete_storage_gc_manifest. fp. by apply fp_delete. Qed.

Lemma fp_read_manifest N : footprint N (read_delete_manifest key) (fun _ => True).
Proof. unfold read_delete_manifest. fp. Qed.

Lemma delete_candidates_spares L d cs bytes :
  ensures (spared L d) (delete_candidates L cs bytes) (fun _ => spared L d) (spared L d).
Proof.
  revert bytes. induction cs as [|c cs IH]; intros bytes; cbn [delete_candidates]; [by apply ensures_ret|].
  case_bool_decide as Hc.
  - apply keeps_bind; [apply IH|]. intros [[x y] z]. by apply ensures_ret.
  - apply keeps_bind; [apply ensures_delete_spared; by left|]. intros _.
    apply keeps_bind; [apply IH|]. intros [[x y] z]. by apply ensures_ret.
Qed.

Lemma recover_candidates_spares L d cs :
  ensures (spared L d) (recover_candidates L cs) (fun _ => spared L d) (spared L d).
Proof.
  induction cs as [|c cs IH]; cbn [recover_candidates]; [by apply ensures_ret|].
  apply (ensures_bind _ _ _ (fun b d' => spared L d d' /\ (b = true -> gc_name c ∉ L))).
  - unfold candidate_matches_for_delete. case_bool_decide as Hc; [by apply ensures_ret|].
    intros w Hw. pose proof (ensures_footprint L d _ (fp_matches _ L c ReturnFailure) w Hw) as Hf.
    unfold candidate_matches_for_delete in Hf. rewrite bool_decide_false in Hf by done.
    match type of Hf with match ?x with _ => _ end => destruct x as [[b|e] w'] end; auto.
  - intros b. apply ensures_pure. intros Hb. apply keeps_bind; [|intros _; apply IH].
    destruct b; cbn [negb]; [|by apply ensures_ret]. apply ensures_delete_spared. auto.
Qed.

(** From [d] to [d'] only chunks that are not listed went. *)
Definition collected (m : CatalogManager) (d d' : Disk) : Prop :=
  forall n, n <> manifest -> d' !! n = d !! n \/ (~ listed key m d n /\ d' !! n = None).

Lemma collected_refl m d : collected m d d.
Proof. intros n _. by left. Qed.

Lemma spared_collected m L d d' : holds_live d (listed key m d) L -> spared L d d' -> collected m d d'.
Proof.
  intros HL Hs n Hn. destruct (Hs n Hn) as [?|[Hl E]]; [by left|]. destruct (d !! n) as [bs|] eqn:Ed.
  - right. split; [|done]. by rewrite <- (HL n).
  - left. congruence.
Qed.

(** A computation that starts by collecting the live set [L] and then spares it. *)
Lemma ensures_collecting {A} s d (k : gset string -> IO A) :
  (forall L, ensures (spared L d) (k L) (fun _ => spared L d) (spared L d)) ->
  ensures (eq d) (L ← collect key s; k L) (fun _ => collected (catalog s) d) (collected (catalog s) d).
Proof.
  intros Hk. eapply ensures_bind.
  - eapply ensures_crash; [apply collect_is|]. intros ? <-. apply collected_refl.
  - intros L. apply ensures_known. intros d1 [-> HL].
    eapply ensures_crash; [eapply ensures_conseq; [apply (Hk L)|intros ? <-; apply spared_refl|]|];
      intros; by eapply spared_collected.
Qed.

Lemma delete_scan_spares s scan d :
  ensures (eq d) (delete_scan key s scan) (fun _ => collected (catalog s) d) (collected (catalog s) d).
Proof.
  apply ensures_collecting. intros L.
  apply keeps_bind; [apply ensures_footprint, fp_verify|]. intros [to_delete skipped].
  apply keeps_bind; [apply ensures_footprint, fp_write_manifest|]. intros _.
  apply keeps_bind; [apply delete_candidates_spares|]. intros [[x y] z].
  apply keeps_bind; [apply ensures_footprint, fp_sync|]. intros _.
  apply keeps_bind; [apply ensures_footprint, fp_delete_manifest|]. intros _. by apply ensures_ret.
Qed.

Lemma footprint_collected {A} m d (c : IO A) :
  footprint (fun n => n = manifest) c (fun _ => True) -> ensures (eq d) c (fun _ => collected m d) (collected m d).
Proof. intros Hc w E. subst d. specialize (Hc w). destruct (c w) as [[a|e] w']; destruct Hc as [Ho _]; intros n Hn; left; by apply Ho. Qed.

Lemma recover_manifest_spares s d :
  ensures (eq d) (recover_manifest key s) (fun _ => collected (catalog s) d) (collected (catalog s) d).
Proof.
  unfold recover_manifest. apply (ensures_bind _ _ _ (fun _ => eq d)).
  { intros w Hw. pose proof (fp_read_manifest (fun _ => False) w) as Hf.
    destruct (read_delete_manifest key w) as [r w']; destruct Hf as [Ho _].
    assert (disk w' = d) as -> by (apply map_eq; intros n; rewrite Hw; apply Ho; tauto).
    destruct r; [done|apply collected_refl]. }
  intros [|mf|].
  - apply ensures_ret. intros ? <-. apply collected_refl.
  - apply ensures_collecting. intros L. apply keeps_bind; [apply recover_candidates_spares|]. intros _.
    apply keeps_bind; [apply ensures_footprint, fp_sync|]. intros _. apply ensures_footprint, fp_delete_manifest.
  - apply footprint_collected, fp_delete_manifest.
Qed.

Lemma fp_list_chunks N : footprint N list_chunks (fun _ => True).
Proof. apply fp_call; [by intros d n|done]. Qed.

Lemma fp_scan_candidates N L ns : footprint N (scan_candidates L ns) (fun _ => True).
Proof.
  induction ns as [|n ns IH]; cbn [scan_candidates]; [by apply fp_ret|]. case_bool_decide; [done|].
  apply fp_then; [apply fp_named; by intros d m|]. intros len. fp.
Qed.

Lemma scan_spares s op now d :
  ensures (eq d) (scan key s op now) (fun _ => collected (catalog s) d) (collected (catalog s) d).
Proof.
  apply ensures_collecting. intros L. apply keeps_bind; [apply ensures_footprint, fp_list_chunks|]. intros names.
  apply keeps_bind; [apply ensures_footprint, fp_scan_candidates|]. intros cs. by apply ensures_ret.
Qed.
End Collect.
