(* ===== verification/StorageGcSafe.v ===== *)
(** * The collection commands are safe

    Sequences of scan and delete commands, with whatever scans the router remembers,
    whatever manifest is on the disk and whatever faults they meet, keep every chunk the
    open vault needs, and the next unlock finds the same catalog. *)

From Stdlib Require Import Strings.Byte Ascii String.
From stdpp Require Import base countable gmap strings list sorting.
From S2P Require Import Prelude.
From S2P Require Import CatalogNode.
From S2P Require Import CatalogManager.
From S2P Require Import CatalogDelta.
From S2P Require Import CatalogShard.
From S2P Require Import Bytes.
From S2P Require Import Storage.
From S2P Require Import Crypto.
From S2P Require Import IoLogic.
From S2P Require Import DurableTx.
From S2P Require Import CatalogCommit.
From S2P Require Import CatalogLoad.
From S2P Require Import CatalogSession.
From S2P Require Import DerivativeIndex.
From S2P Require Import DerivativeCache.
From S2P Require Import Footprint.
From S2P Require Import SaveFootprint.
From S2P Require Import BlobFinalizeSpec.
From S2P Require Import ChunkBatch.
From S2P Require Import StorageGc.
From S2P Require Import StorageGcSpec.
Open Scope Z_scope.

(** ** Sequences of commands *)

Inductive gc_command :=
  | GcScan (operation_id : string) (expired_ms now_ms : Z)
  | GcDelete (gc_id : string) (confirm_delete : bool) (expired_ms now_ms : Z)
  | GcRecover.

Section Run.
Context `{cr : Crypto} `{Sha256}.
Context `{Serde RootIndex, Serde DerivativeIndexRecord, Serde StorageGcDeleteManifest}.
Context (key : list byte).

Definition run_gc_command (c : gc_command) : StIO GcRouter unit :=
  match c with
  | GcScan op expired now => admin_storage_gc_scan key op expired now;; mret tt
  | GcDelete id confirm expired now => admin_storage_gc_delete key id confirm expired now;; mret tt
  | GcRecover => g ← st_get; io (recover_manifest_best_effort key (gr_session g))
  end.

Fixpoint run_gc_commands (cs : list gc_command) : StIO GcRouter unit :=
  match cs with
  | [] => mret tt
  | c :: cs' => run_gc_command c;; run_gc_commands cs'
  end.
End Run.

Section Safe.
Context `{cr : Crypto} {crl : CryptoLaws cr} `{Sha256}.
Context `{Serde RootIndex, SerdeLaw DerivativeIndexRecord, Serde StorageGcDeleteManifest}.
Context (key : list byte).
Abbreviation manifest := (storage_gc_manifest_chunk_name key).
Abbreviation idx := (derivative_index_chunk_name key).

(** The names of the manifest and of the derivative index are not those of the catalog on [d]. *)
Definition names_apart (d : Disk) : Prop :=
  manifest <> idx /\ forall n, catalog_live key d n -> n <> manifest /\ n <> idx.

Context (s : VaultSession) (d0 : Disk) (r0 : DerivativeIndexRecord).
Context (apart : names_apart d0).

(** The chunks listed on [d0] are on [d] as they were; the derivative index
    differs in access times only. *)
Record kept (d : Disk) : Prop := {
  kp_chunks n : listed key (catalog s) d0 n -> n <> manifest -> n <> idx -> d !! n = d0 !! n;
  kp_index : exists r, index_on key r d /\ Forall2 same_entry (entries r0) (entries r);
}.

Lemma same_entry_chunks es es' n :
  Forall2 same_entry es es' -> (exists e, e ∈ es /\ n ∈ entry_chunks key e) -> exists e, e ∈ es' /\ n ∈ entry_chunks key e.
Proof.
  intros Hes (e & He & Hn). apply list_elem_of_lookup in He as [i Hi].
  destruct (Forall2_lookup_l _ _ _ _ _ Hes Hi) as (e' & Hi' & E). exists e'. split; [by eapply list_elem_of_lookup_2|].
  destruct e, e'. unfold same_entry, set_last_accessed in E. cbn in E. injection E as -> -> -> -> -> -> ->. exact Hn.
Qed.

Context (index0 : index_on key r0 d0).

(** What was listed still is. *)
Lemma kept_listed d n : kept d -> listed key (catalog s) d0 n -> listed key (catalog s) d n.
Proof.
  intros [Hc (r & Hr & Hs)] [?|?|ri Hri ?|t ? ?|r' Hr' Hn|?|?];
    [by constructor 1|by constructor 2| |by econstructor 4| |by constructor 6|by constructor 7].
  - econstructor 3; [|done]. rewrite <- Hri. unfold disk_root_index. rewrite Hc; [done|by constructor 1|..];
      apply apart; by left.
  - rewrite (index_on_fun key r' r0 d0 Hr' index0) in Hn. econstructor 5; [done|].
    destruct Hn as [?|?]; [by left|right]. by eapply same_entry_chunks.
Qed.

Lemma collected_kept d d' : kept d -> collected key (catalog s) d d' -> kept d' /\ d' !! idx = d !! idx.
Proof.
  intros Hk Hc. assert (forall n, listed key (catalog s) d n -> n <> manifest -> d' !! n = d !! n) as Hl.
  { intros n Hn Hm. destruct (Hc n Hm) as [?|[? _]]; [done|tauto]. }
  destruct (kp_index d Hk) as (r & Hr & Hs).
  assert (d' !! idx = d !! idx) as Ei. { apply Hl; [econstructor 5; [done|by left]|]. intros E. by destruct apart. }
  split; [|done]. split.
  - intros n Hn Hm Hi. rewrite Hl by (by try apply kept_listed). by apply Hk.
  - exists r. split; [|done]. unfold index_on in *. by rewrite Ei.
Qed.

(** The state of the router between steps. *)
Definition sound (g : GcRouter) (d : Disk) : Prop :=
  gr_session g = Some s /\ coherent key (gr_index g) d /\ kept d.

Lemma coherent_same_index i d d' : d' !! idx = d !! idx -> coherent key i d -> coherent key i d'.
Proof.
  intros E (r & Hr & Hrest). exists r. split; [|done]. unfold index_on_disk in *.
  change (index_chunk_name key) with idx in *. by rewrite E.
Qed.

Lemma sound_collected g d d' : sound g d -> collected key (catalog s) d d' -> sound g d'.
Proof.
  intros (Hs & Hi & Hk) Hc. destruct (collected_kept d d' Hk Hc) as [Hk' E].
  split; [done|]. split; [by eapply coherent_same_index|done].
Qed.
Abbreviation safe c := (saves sound c (fun _ => sound) kept).

Lemma sound_kept g d : sound g d -> kept d.
Proof. by intros (_ & _ & ?). Qed.

Lemma safe_gc_try {A B} context (c : IO A) (k : A -> GcIO B) :
  (forall d, ensures (eq d) c (fun _ => collected key (catalog s) d) (collected key (catalog s) d)) ->
  (forall a, safe (k a)) -> safe (gc_try context c k).
Proof.
  intros Hc Hk g w Hg. unfold gc_try, attempt, io, mbind, StIO_bind. specialize (Hc (disk w) w eq_refl).
  destruct (c w) as [[a|[e|]] w'].
  - apply Hk. by eapply sound_collected.
  - cbn. by eapply sound_collected.
  - by eapply sound_kept, sound_collected.
Qed.

Lemma safe_modify {A} f (k : GcIO A) :
  (forall g, gr_session (f g) = gr_session g /\ gr_index (f g) = gr_index g) -> safe k -> safe (st_modify f;; k).
Proof.
  intros Hf Hk. apply (saves_seq _ _ _ sound); [|done]. apply saves_on. intros g d. unfold sound.
  by destruct (Hf g) as [-> ->].
Qed.

Lemma safe_get {A} (k : GcRouter -> GcIO A) : (forall g, gr_session g = Some s -> safe (k g)) -> safe (st_get ≫= k).
Proof. intros Hk g w Hg. unfold mbind, StIO_bind, st_get. apply (Hk g); [apply Hg|done]. Qed.

Lemma safe_ret {A} (x : result StorageGcError A) : safe (mret x).
Proof. by apply saves_ret. Qed.

(** Writing the index leaves the old or the new one. *)
Lemma save_index_ends (rd r : DerivativeIndexRecord) :
  ensures (fun d => index_on key rd d) (save_index key r) (fun _ => index_on key r) (fun d => index_on key rd d \/ index_on key r d).
Proof.
  unfold save_index. change (index_chunk_name key) with idx. destruct (entries r) as [|e es] eqn:Ee.
  - assert (forall d, index_on key r (delete idx d)) as Hd.
    { intros d. unfold index_on. rewrite lookup_delete_eq. destruct r. cbn in Ee. by subst. }
    apply (ensures_bind _ _ _ (fun _ => index_on key r)).
    + apply ensures_named. intros d Hd0. cbn. split_and!; auto.
    + intros _. apply ensures_call. intros d Hd0. cbn. auto.
  - eapply ensures_bind; [apply (ensures_lift (fun d => index_on key rd d)); auto|]. intros plain.
    apply ensures_pure. intros Hp%ok_or_Ok_inv.
    eapply ensures_bind; [apply (ensures_encrypt plain key (as_bytes idx) (fun d => index_on key rd d)); auto|].
    intros bs. apply ensures_pure. intros Hb.
    assert (forall d, index_on key r (<[idx := bs]> d)) as Hd.
    { intros d. unfold index_on. rewrite lookup_insert_eq. exists plain. split; [done|by apply from_to_vec]. }
    apply (ensures_bind _ _ _ (fun _ => index_on key r)).
    + apply ensures_named. intros d Hd0. cbn. split_and!; auto.
    + intros _. apply ensures_call. intros d Hd0. cbn. auto.
Qed.

Lemma fp_save_index_only r : footprint (fun n => n = idx) (save_index key r) (fun _ => True).
Proof. unfold save_index. change (index_chunk_name key) with idx. fp; by (apply fp_write || apply fp_delete). Qed.

Lemma kept_flushed r1 r d d' :
  kept d -> index_on key r1 d -> Forall2 same_entry (entries r1) (entries r) ->
  same_outside (fun n => n = idx) d d' -> index_on key r1 d' \/ index_on key r d' -> kept d'.
Proof.
  intros [Hc (rk & Hk & Hs)] Hr1 Hes Ho Hd'. rewrite (index_on_fun key rk r1 d Hk Hr1) in Hs. split.
  - intros n Hn Hm Hi. rewrite Ho by done. by apply Hc.
  - destruct Hd' as [?|?]; [exists r1|exists r]; (split; [done|]); [done|by eapply same_entries_trans].
Qed.

(** A flush of the index is sound, whether it succeeds, fails or dies. *)
Lemma flush_sound i w :
  coherent key i (disk w) -> kept (disk w) ->
  let '(_, i', w') := flush key i w in coherent key i' (disk w') /\ kept (disk w').
Proof.
  intros Hi Hk. pose proof Hi as (r1 & Hr1 & Hwf1 & Hm). unfold flush, mbind, StIO_bind, st_get.
  destruct (ic_touch_dirty i) eqn:Et; cbn [negb]; [|done].
  destruct (ic_record i) as [r|] eqn:Er; [|by split; [exists r1; cbn; rewrite Er|]].
  destruct Hm as [Hwf Hs]. change (index_on key r1 (disk w)) in Hr1. unfold io.
  pose proof (save_index_ends r1 r w Hr1) as He. pose proof (fp_save_index_only r w) as Hf.
  assert (forall d', index_on key r1 d' \/ index_on key r d' -> coherent key i d') as Hco.
  { intros d' [Hd'|Hd']; [exists r1|exists r]; rewrite Er, Et; (split; [done|]); (split; [done|]); (split; [done|]);
      [done|by apply (agrees_refl true r)]. }
  destruct (save_index key r w) as [[[]|e] w']; destruct Hf as [Ho _].
  - cbn. split; [|by eapply kept_flushed; eauto]. unfold set_touch_dirty. rewrite Er. by apply coherent_saved.
  - split; [by apply Hco|]. by eapply kept_flushed; eauto.
Qed.

Lemma safe_flush {A} (k : GcIO A) : safe k -> safe (flush_index key k).
Proof.
  intros Hk g w (Hs & Hi & Hkept). pose proof (flush_sound _ w Hi Hkept) as Hf. unfold flush_index.
  destruct (flush key (gr_index g) w) as [[r i] w']. destruct Hf as [Hi' Hk'].
  destruct r as [u|[e|]]; [by apply Hk|cbn; split; [|split]; done|done].
Qed.

Lemma safe_recover {A} context (k : GcIO A) : safe k -> safe (recover_manifest_for_command key context k).
Proof.
  intros Hk. apply safe_get. intros g ->. apply safe_gc_try; [apply recover_manifest_spares|done].
Qed.

Lemma safe_best_effort : safe (g ← st_get; io (recover_manifest_best_effort key (gr_session g))).
Proof.
  intros g w Hg. unfold mbind, StIO_bind, st_get, io. rewrite (proj1 Hg). cbn [recover_manifest_best_effort].
  pose proof (recover_manifest_spares key s (disk w) w eq_refl) as Hr. unfold ignore, attempt, mbind, IO_bind.
  destruct (recover_manifest key s w) as [[[]|[e|]] w']; cbn; [by eapply sound_collected..|].
  by eapply sound_kept, sound_collected.
Qed.

Lemma safe_command c : safe (run_gc_command key c).
Proof.
  destruct c as [op expired now|id confirm expired now|]; cbn [run_gc_command]; [..|apply safe_best_effort];
    (apply (saves_seq _ _ _ sound); [|by apply saves_ret]); apply safe_recover, safe_modify; try done.
  - apply safe_get. intros g ->. apply safe_flush, safe_gc_try; [apply scan_spares|]. intros sc.
    apply safe_modify; [done|apply safe_ret].
  - destruct confirm; cbn [negb]; [|apply safe_ret]. apply safe_get. intros g ->. apply safe_flush, safe_get. intros g' _.
    destruct (get_refresh_cloned id now (gr_scans g')) as [[sc|] scans]; (apply safe_modify; [done|]); [|apply safe_ret].
    apply safe_gc_try; [apply delete_scan_spares|]. intros res. apply safe_modify; [done|apply safe_ret].
Qed.

Lemma safe_commands cs : safe (run_gc_commands key cs).
Proof.
  induction cs as [|c cs IH]; cbn [run_gc_commands]; [by apply saves_ret|]. apply (saves_seq _ _ _ sound); [apply safe_command|done].
Qed.
End Safe.

(** ** The next unlock *)

Section Unlock.
Context `{cr : Crypto} {crl : CryptoLaws cr} `{Sha256}.
Context `{SerdeLaw RootIndex, Serde Shard, Serde DeltaEntry, Serde CatalogCommitRecord,
          SerdeLaw (DurableTxRecord CatalogCommitRecord)}.
Context `{SerdeLaw DerivativeIndexRecord, Serde StorageGcDeleteManifest}.
Context (key : list byte) (clk : clock) (clks : nat -> clock).

Lemma root_disk_index ri d : root_is key ri d -> is_sharded ri = true -> disk_root_index key d = Some ri.
Proof.
  intros (bs & E & plain & Hd & Hf) Hs.
  assert (open_sealed bs key (as_bytes (root_index_chunk_name key 0)) = Ok ri) as Eo.
  { unfold open_sealed. rewrite Hd. cbn. by rewrite Hf. }
  unfold disk_root_index. rewrite E. unfold mbind, option_bind. by rewrite Eo, Hs.
Qed.

Lemma kept_unlocks s d0 r0 k k' d :
  names_apart key d0 -> d0 !! catalog_commit_chunk_name key = None -> kept key s d0 r0 d ->
  unlocked key clk clks k d = unlocked key clk clks k' d0.
Proof.
  intros Hap Hm [Hc _]. symmetry.
  assert (forall n, catalog_live key d0 n -> d0 !! n = d !! n) as Hcat.
  { intros n Hn. symmetry. destruct Hap as [_ Hap]. destruct (Hap n Hn). apply Hc; [|done..].
    destruct Hn as [?|[?|(ri & ? & ?)]]; [by constructor 1|by constructor 2|by econstructor 3]. }
  apply same_unlocked; [|done|].
  - apply same_load; [apply Hcat; by left|]. intros ri n Hri Hs Hn. apply Hcat. right. right. exists ri.
    split; [by apply root_disk_index|done].
  - rewrite <- Hm. symmetry. apply Hcat. right. by left.
Qed.

End Unlock.
