(* ===== verification/StorageGcCollect.v ===== *)
(** * Collection without faults removes all the rest

    When every chunk can be read, a scan finds exactly the chunks the open vault does not
    need, and the deletion of that scan deletes exactly these. *)

From Stdlib Require Import Strings.Byte Ascii String.
From stdpp Require Import base countable gmap strings list sorting.
From S2P Require Import Prelude.
From S2P Require Import CatalogNode.
From S2P Require Import CatalogManager.
From S2P Require Import CatalogTree.
From S2P Require Import CatalogDelta.
From S2P Require Import CatalogShard.
From S2P Require Import Bytes.
From S2P Require Import Storage.
From S2P Require Import Crypto.
From S2P Require Import IoLogic.
From S2P Require Import CatalogCommit.
From S2P Require Import CatalogLoad.
From S2P Require Import CatalogSession.
From S2P Require Import DerivativeIndex.
From S2P Require Import SaveFootprint.
From S2P Require Import BlobFinalizeSpec.
From S2P Require Import ChunkBatch.
From S2P Require Import StorageGc.
From S2P Require Import StorageGcSpec.
Open Scope Z_scope.

(** ** Computations that only read *)

(** Without faults [c] returns and leaves the disk [d] as it is. *)
Definition looks {A} (d : Disk) (c : IO A) : Prop := calm (eq d) c (fun _ => eq d).

Lemma looks_bind {A B} d (c : IO A) (k : A -> IO B) : looks d c -> (forall a, looks d (k a)) -> looks d (c ≫= k).
Proof. intros Hc Hk. by eapply calm_bind. Qed.

Lemma looks_ret {A} d (a : A) : looks d (mret a).
Proof. by apply calm_ret. Qed.

Lemma looks_exists d n : valid_name n = true -> looks d (chunk_exists n).
Proof. intros Hn. eapply calm_triple. apply (triple_chunk_exists _ _ _ (fun _ => True)); by try done; intros ? <-. Qed.

Lemma looks_sync d : looks d sync.
Proof. eapply calm_triple. by apply (triple_sync (eq d) (fun _ => True)). Qed.

(** What holds whenever [c] returns holds when it returns without faults. *)
Lemma calm_ensures {A} P (c : IO A) Q Q' C : calm P c Q' -> ensures P c Q C -> calm P c Q.
Proof.
  intros Hc He w Hf Hw. destruct (Hc w Hf Hw) as (a & w' & E & _ & Hf'). specialize (He w Hw). rewrite E in He. eauto 10.
Qed.

Section Collectable.
Context `{cr : Crypto} {crl : CryptoLaws cr}.
Context `{Serde RootIndex, SerdeLaw DerivativeIndexRecord}.
Context (key : list byte).

(** What the collector reads can be read: the root index and the derivative index open, and
    the ids of files are [u32]. *)
Record collectable (s : VaultSession) (d : Disk) : Prop := {
  co_root bs : d !! root_index_chunk_name key 0 = Some bs ->
    exists ri : RootIndex, opens_to key (as_bytes (root_index_chunk_name key 0)) bs ri;
  co_index : exists r, index_on key r d;
  co_ids u : subnode u (root (catalog s)) -> is_file u = true -> node_id u <= U32_MAX;
}.

Lemma looks_insert_existing d ns L : (forall n, n ∈ ns -> valid_name n = true) -> looks d (insert_existing ns L).
Proof.
  revert L. induction ns as [|n ns IH]; intros L Hn; cbn [insert_existing]; [apply looks_ret|].
  apply looks_bind; [apply looks_exists, Hn; left|]. intros b. apply IH. intros m Hm. apply Hn. by right.
Qed.

Lemma looks_collect_node d t L :
  (forall u, subnode u t -> is_file u = true -> node_id u <= U32_MAX) -> looks d (collect_node_chunks key t L).
Proof.
  revert L. induction t as [t IH] using node_ind. intros L Hids. rewrite Forall_forall in IH.
  rewrite collect_node_eq. apply looks_bind.
  { unfold collect_blob_chunks. destruct (is_file t) eqn:Ef; [|apply looks_ret].
    pose proof (Hids t (subnode_here t) Ef) as Hid%Z.leb_le. rewrite Hid. cbn [negb].
    apply looks_insert_existing. intros n (i & -> & _)%list_elem_of_fmap. apply chunk_name_u64_valid. }
  intros L1. apply looks_bind; [apply looks_insert_existing; intros n ->%list_elem_of_singleton; apply chunk_name_valid|].
  intros L2. assert (forall c, c ∈ children t -> forall L, looks d (collect_node_chunks key c L)) as Hc.
  { intros c Hc L0. apply (IH c Hc). intros u Hu. apply Hids. by econstructor. }
  clear -Hc. revert L2 Hc. induction (children t) as [|c cs IHcs]; intros L Hc; cbn [collect_children]; [apply looks_ret|].
  apply looks_bind; [apply Hc; left|]. intros L1. apply IHcs. intros c' Hc'. apply Hc. by right.
Qed.

Lemma looks_live_catalog s d : collectable s d -> looks d (live_catalog_chunk_names key).
Proof.
  intros Hco. unfold live_catalog_chunk_names. apply looks_bind; [apply looks_exists, chunk_name_valid|]. intros b1.
  apply looks_bind; [apply looks_exists, chunk_name_valid|]. intros b2.
  apply looks_bind; [|intros o; destruct o; apply looks_ret]. unfold read_root_index.
  eapply (calm_bind _ _ _ (fun b d' => b = bool_decide (is_Some (d !! root_index_chunk_name key 0)) /\ eq d d')).
  { eapply calm_triple. apply (triple_chunk_exists _ _ _ (fun _ => True)); [apply chunk_name_valid|done|]. by intros ? <-. }
  intros b. apply calm_pure. intros ->. case_bool_decide as Hb; cbn [negb]; [|apply looks_ret]. destruct Hb as [bs Hb].
  destruct (co_root s d Hco bs Hb) as (ri & plain & Hd & Hf).
  eapply (calm_bind _ _ _ (fun x d' => x = bs /\ eq d d')).
  { eapply calm_triple. apply (triple_read _ _ _ (fun _ => True)); [apply chunk_name_valid|done|]. intros ? <-. eauto. }
  intros x. apply calm_pure. intros ->. apply looks_bind; [|intros; apply looks_ret].
  intros w Hw Ew. exists ri, w. unfold io_lift, open_sealed. rewrite Hd. cbn. by rewrite Hf.
Qed.

Lemma looks_live_derivatives s d : collectable s d -> looks d (live_derivative_chunk_names key).
Proof.
  intros Hco. destruct (co_index s d Hco) as [r Hr]. unfold live_derivative_chunk_names.
  apply looks_bind; [apply looks_exists, chunk_name_valid|]. intros b1. apply looks_bind.
  { eapply calm_conseq; [eapply calm_triple, load_index_spec, Hr|done|]. by intros ? ? [_ ->]. }
  intros r'. apply looks_bind; [apply looks_exists, chunk_name_valid|]. intros b2. apply looks_ret.
Qed.

(** The collector finds what is listed. *)
Lemma collect_calm s d :
  collectable s d -> calm (eq d) (collect key s) (fun L d' => d' = d /\ holds_live d (listed key (catalog s) d) L).
Proof.
  intros Hco. eapply (calm_ensures _ _ _ (fun _ => eq d)); [|apply collect_is].
  apply looks_bind; [by eapply looks_live_catalog|]. intros L1.
  apply looks_bind; [apply looks_collect_node, Hco|]. intros L2.
  apply looks_bind; [by eapply looks_live_derivatives|]. intros L3. apply looks_insert_existing.
  intros n (c & -> & _)%list_elem_of_fmap. apply chunk_name_u64_valid.
Qed.
End Collectable.

(** ** Scanning and deleting *)

Section Rest.
Context `{cr : Crypto} {crl : CryptoLaws cr} `{Sha256}.
Context `{Serde RootIndex, SerdeLaw DerivativeIndexRecord, SerdeLaw StorageGcDeleteManifest}.
Context (key : list byte).
Abbreviation manifest := (storage_gc_manifest_chunk_name key).

(** The candidate for a chunk of the disk. *)
Definition candidate_of (d : Disk) (n : string) : StorageGcCandidate :=
  let data := default [] (d !! n) in mkCandidate n (Z.of_nat (length data)) (sha256_hex data).

Definition chunk_names (d : Disk) : list string := List.filter valid_name (map fst (map_to_list d)).

Lemma elem_of_chunk_names d n : n ∈ chunk_names d <-> valid_name n = true /\ is_Some (d !! n).
Proof.
  unfold chunk_names. rewrite list_elem_of_In, filter_In, <- list_elem_of_In, list_elem_of_fmap. split.
  - intros [([n' bs] & -> & Hn%elem_of_map_to_list) ?]. split; [done|by exists bs].
  - intros [? [bs Hbs]]. split; [|done]. exists (n, bs). split; [done|by apply elem_of_map_to_list].
Qed.

Lemma calm_read d n bs : valid_name n = true -> d !! n = Some bs -> calm (eq d) (read_chunk n) (fun x d' => x = bs /\ eq d d').
Proof.
  intros Hv Hn. eapply calm_triple. apply (triple_read _ _ _ (fun _ => True)); [done..|]. intros ? <-. eauto.
Qed.

Lemma scan_candidates_calm L d ns :
  (forall n, n ∈ ns -> valid_name n = true /\ is_Some (d !! n)) ->
  calm (eq d) (scan_candidates L ns)
    (fun cs d' => cs = map (candidate_of d) (List.filter (fun n => negb (bool_decide (n ∈ L))) ns) /\ eq d d').
Proof.
  induction ns as [|n ns IH]; intros Hns; cbn [scan_candidates List.filter]; [by apply calm_ret; intros ? <-|].
  assert (forall m, m ∈ ns -> valid_name m = true /\ is_Some (d !! m)) as Hns' by (intros m Hm; apply Hns; by right).
  destruct (bool_decide (n ∈ L)); cbn [negb map]; [by apply IH|].
  destruct (Hns n) as [Hv [bs Hbs]]; [left|].
  apply (calm_bind _ _ _ (fun x d' => x = Z.of_nat (length bs) /\ eq d d')).
  { intros w Hw Ed. exists (Z.of_nat (length bs)), w. unfold chunk_len, mbind, IO_bind, io_lift.
    destruct (chunk_path_ok n Hv) as [p ->]. unfold call. rewrite Hw, <- Ed. cbn. rewrite Hbs.
    split_and!; [|done..]. destruct w; cbn in *; by subst. }
  intros x. apply calm_pure. intros ->. eapply calm_bind; [by apply (calm_read d n bs)|]. intros data. apply calm_pure. intros ->.
  eapply calm_bind; [by apply IH|]. intros cs. apply calm_pure. intros ->. apply calm_ret. intros ? <-. split; [|done].
  unfold candidate_of at 2. by rewrite Hbs.
Qed.

(** A candidate that describes what is on [d]. *)
Definition describes (L : gset string) (d : Disk) (c : StorageGcCandidate) : Prop :=
  gc_name c ∉ L /\ valid_name (gc_name c) = true /\ is_Some (d !! gc_name c) /\ c = candidate_of d (gc_name c).

Lemma verify_calm L d cs :
  Forall (describes L d) cs -> calm (eq d) (verify_candidates L cs) (fun x d' => x = (cs, []) /\ eq d d').
Proof.
  induction 1 as [|c cs (Hl & Hv & [bs Hbs] & Hc) _ IH]; cbn [verify_candidates]; [by apply calm_ret; intros ? <-|].
  apply (calm_bind _ _ _ (fun b d' => b = true /\ eq d d')).
  - unfold candidate_matches_for_delete. rewrite bool_decide_false by done.
    intros w Hw Ed. destruct (calm_read d _ bs Hv Hbs w Hw Ed) as (x & w' & E & [-> Ew] & Hf).
    exists true, w'. unfold attempt, mbind, IO_bind. rewrite E. split_and!; [|done..].
    rewrite Hc. cbn. unfold candidate_of. rewrite Hbs. cbn. by rewrite Z.eqb_refl, String.eqb_refl.
  - intros b. apply calm_pure. intros ->. eapply calm_bind; [apply IH|]. intros x. apply calm_pure. intros ->.
    apply calm_ret. by intros ? <-.
Qed.

Lemma delete_candidates_calm L cs d bytes :
  Forall (fun c => gc_name c ∉ L /\ valid_name (gc_name c) = true) cs ->
  calm (eq d) (delete_candidates L cs bytes)
    (fun x d' => fst (fst x) = map gc_name cs /\ snd x = [] /\ d' = without (map gc_name cs) d).
Proof.
  intros Hcs. revert d bytes. induction Hcs as [|c cs [Hl Hv] _ IH]; intros d bytes; cbn [delete_candidates].
  - apply calm_ret. intros ? <-. done.
  - rewrite bool_decide_false by done. apply (calm_seq _ _ _ (eq (delete (gc_name c) d))).
    { eapply calm_triple. apply (triple_delete _ _ _ (fun _ => True)); [done..|]. by intros ? <-. }
    eapply calm_bind; [apply IH|]. intros [[deleted b] sk]. apply calm_ret. intros d' (E1 & E2 & ->). cbn in *. by subst.
Qed.

Lemma write_manifest_calm id cs d :
  sealable key (as_bytes manifest) (mkManifest 1 id cs) ->
  calm (eq d) (write_delete_manifest key id cs) (fun _ d' => exists bs, d' = <[manifest := bs]> d).
Proof.
  intros Hseal. unfold write_delete_manifest.
  apply (calm_bind _ _ _ (fun _ => eq d)).
  { eapply calm_conseq; [eapply calm_triple, (triple_seal _ _ _ (eq d) (fun _ => True)); done|done|]. by intros ? ? [_ ?]. }
  intros bs w Hw Ed. destruct (chunk_path_ok manifest (chunk_name_u64_valid _ _ _)) as [p Hp].
  assert (validate_chunk_name manifest = Ok tt) as Hv by (apply valid_name_ok, chunk_name_u64_valid).
  exists tt, (mkWorld (<[manifest := bs]> d) [] (draws w)). destruct w as [dw fw kw]. cbn in Hw, Ed. subst.
  split_and!; [|by exists bs|done].
  unfold st_run, batch_write_chunk, batch_commit, st_attempt, mbind, StIO_bind, io, io_lift. rewrite Hv. cbn.
  unfold write_chunk_batch_temp, mbind, IO_bind, io_lift. rewrite Hp. cbn. reflexivity.
Qed.

Lemma delete_manifest_calm d bs :
  d !! manifest = Some bs -> calm (eq d) (delete_storage_gc_manifest key) (fun _ d' => d' = delete manifest d).
Proof.
  intros Hm. unfold delete_storage_gc_manifest. apply (calm_bind _ _ _ (fun b d' => b = true /\ eq d d')).
  { eapply calm_triple. apply (triple_chunk_exists _ _ _ (fun _ => True)); [apply chunk_name_u64_valid|done|].
    intros ? <-. split; [by apply bool_decide_eq_true|done]. }
  intros b. apply calm_pure. intros ->. apply (calm_seq _ _ _ (eq (delete manifest d))).
  { eapply calm_triple. apply (triple_delete _ _ _ (fun _ => True)); [apply chunk_name_u64_valid|done|]. by intros ? <-. }
  eapply calm_conseq; [apply (looks_sync (delete manifest d))|done|]. by intros ? ? <-.
Qed.

Definition garbage (L : gset string) (d : Disk) : list StorageGcCandidate :=
  map (candidate_of d) (List.filter (fun n => negb (bool_decide (n ∈ L))) (chunk_names d)).

Lemma elem_of_garbage L d c : c ∈ garbage L d <-> describes L d c.
Proof.
  unfold garbage, describes. rewrite list_elem_of_fmap. split.
  - intros (n & -> & Hn). rewrite list_elem_of_In, filter_In, <- list_elem_of_In in Hn.
    destruct Hn as [[Hv Hd]%elem_of_chunk_names Hl%negb_true_iff%bool_decide_eq_false]. done.
  - intros (Hl & Hv & Hd & Hc). exists (gc_name c). split; [done|]. rewrite list_elem_of_In, filter_In, <- list_elem_of_In.
    split; [by apply elem_of_chunk_names|]. by apply negb_true_iff, bool_decide_eq_false.
Qed.

Lemma scan_calm s op now d :
  collectable key s d ->
  calm (eq d) (scan key s op now)
    (fun sc d' => d' = d /\ exists L, holds_live d (listed key (catalog s) d) L /\ gs_candidates sc ≡ₚ garbage L d).
Proof.
  intros Hco. eapply calm_bind; [by apply collect_calm|]. intros L. apply calm_known. intros ? [-> HL].
  apply (calm_bind _ _ _ (fun ns d' => ns = chunk_names d /\ eq d d')).
  { intros [dw fw kw] Hw Ed. cbn in Hw, Ed. subst. by eexists _, _. }
  intros ns. apply calm_pure. intros ->. eapply calm_bind; [apply scan_candidates_calm; by intros n ?%elem_of_chunk_names|].
  intros cs. apply calm_pure. intros ->. apply calm_ret. intros ? <-. split; [done|]. exists L. split; [done|].
  apply merge_sort_Permutation.
Qed.

Lemma delete_scan_calm s sc d L :
  collectable key s d -> (forall x : StorageGcDeleteManifest, sealable key (as_bytes manifest) x) ->
  d !! manifest = None -> holds_live d (listed key (catalog s) d) L -> gs_candidates sc ≡ₚ garbage L d ->
  calm (eq d) (delete_scan key s sc)
    (fun res d' => gd_deleted_chunks res = map gc_name (gs_candidates sc) /\ gd_skipped_chunks res = []
                   /\ d' = without (map gc_name (gs_candidates sc)) d).
Proof.
  intros Hco Hseal Hm HL Hperm. set (cs := gs_candidates sc) in *.
  eapply calm_bind; [by apply collect_calm|]. intros L'. apply calm_known. intros ? [-> HL'].
  assert (Forall (describes L' d) cs) as Hcs.
  { rewrite Forall_forall. intros c Hc. rewrite Hperm in Hc. apply elem_of_garbage in Hc as (Hl & Hv & Hd & Hc).
    split_and!; [|done..]. by rewrite (HL' _ Hd), <- (HL _ Hd). }
  assert (manifest ∉ map gc_name cs) as Hnm.
  { intros (c & Ec & Hc)%list_elem_of_fmap. rewrite Forall_forall in Hcs. destruct (Hcs c Hc) as (_ & _ & [bs Hbs] & _).
    rewrite <- Ec, Hm in Hbs. done. }
  eapply calm_bind; [by apply verify_calm|]. intros x. apply calm_pure. intros ->. cbv iota beta.
  eapply calm_bind; [by apply write_manifest_calm|]. intros _u. apply calm_known. intros d1 [bs ->]. clear _u.
  eapply calm_bind; [apply (delete_candidates_calm L' cs); eapply Forall_impl; [exact Hcs|]; by intros c (? & ? & _)|].
  intros [[deleted b] sk]. apply calm_known. intros d2 (Ed & Es & ->). cbn in Ed, Es.
  apply (calm_seq _ _ _ (eq (without (map gc_name cs) (<[manifest := bs]> d)))).
  { apply looks_sync. }
  apply (calm_bind _ _ _ (fun _ d' => d' = without (map gc_name cs) d)).
  { eapply calm_conseq; [apply (delete_manifest_calm (without (map gc_name cs) (<[manifest := bs]> d)) bs)|done|].
    - by rewrite lookup_without, bool_decide_false, lookup_insert_eq.
    - intros _u ? ->. apply map_eq. intros n. destruct (decide (n = manifest)) as [->|Hn].
      + by rewrite lookup_delete_eq, lookup_without, bool_decide_false.
      + rewrite lookup_delete_ne, !lookup_without, lookup_insert_ne by done. done. }
  intros _u. apply calm_ret. intros d' ->. cbn. by rewrite Ed, Es.
Qed.

End Rest.
