(* ===== verification/StorageGcDemo.v ===== *)
(** * Collections on concrete disks

    Witnesses for the theorems on garbage collection, and what it deletes: the other vaults
    of the storage and the backups of a pending file replacement. *)

From Stdlib Require Import Strings.Byte Ascii String.
From stdpp Require Import base countable gmap strings list sorting.
From S2P Require Import Prelude.
From S2P Require Import CatalogNode.
From S2P Require Import CatalogManager.
From S2P Require Import CatalogTree.
From S2P Require Import CatalogDelta.
From S2P Require Import CatalogShard.
From S2P Require Import Bytes.
From S2P Require Import Storage.
From S2P Require Import Crypto.
From S2P Require Import IoLogic.
From S2P Require Import DurableTx.
From S2P Require Import Encoding.
From S2P Require Import ChunkCache.
From S2P Require Import CatalogCommit.
From S2P Require Import CatalogLoad.
From S2P Require Import SaveSpec.
From S2P Require Import CatalogSession.
From S2P Require Import DerivativeIndex.
From S2P Require Import DerivativeCache.
From S2P Require Import SaveFootprint.
From S2P Require Import BlobFinalizeSpec.
From S2P Require Import BlobFinalize.
From S2P Require Import CatalogSave.
From S2P Require Import FileReplace.
From S2P Require Import FileReplaceRecover.
From S2P Require Import FileReplaceService.
From S2P Require Import FileReplaceCommand.
From S2P Require Import StorageGc.
From S2P Require Import StorageGcSpec.
From S2P Require Import StorageGcSafe.
From S2P Require Import StorageGcCollect.
Open Scope Z_scope.

Definition of_candidate (c : StorageGcCandidate) : json := GenNode 3 [eS (gc_name c); eZ (gc_bytes c); eS (gc_sha256 c)].
Definition to_candidate (t : json) : StorageGcCandidate :=
  match t with
  | GenNode _ [a; b; c] => mkCandidate (dS a) (dZ b) (dS c)
  | _ => mkCandidate "" 0 ""
  end.
Definition of_manifest (m : StorageGcDeleteManifest) : json :=
  GenNode 3 [eZ (gm_version m); eS (gm_gc_id m); eL of_candidate (gm_candidates m)].
Definition to_manifest (t : json) : StorageGcDeleteManifest :=
  match t with
  | GenNode _ [a; b; c] => mkManifest (dZ a) (dS b) (dL to_candidate c)
  | _ => mkManifest 0 "" []
  end.

Lemma to_of_manifest m : to_manifest (of_manifest m) = m.
Proof. destruct m as [v id cs]. unfold to_manifest, of_manifest. cbn [gm_version gm_gc_id gm_candidates]. rewrite dL_eL_all; [done|]. by intros []. Qed.

Definition manifest_serde : Serde StorageGcDeleteManifest := view_serde of_manifest to_manifest.
Lemma manifest_serde_law : @SerdeLaw _ manifest_serde.
Proof. apply view_serde_law, to_of_manifest. Qed.

Definition toy_sha256 : Sha256 := blake3 (Crypto:=toy_crypto).

#[local] Existing Instances toy_crypto toy_crypto_laws root_serde commit_serde tx_serde root_serde_law tx_serde_law
  shard_serde delta_serde index_serde index_serde_law manifest_serde manifest_serde_law toy_sha256.

(** Two vaults in one storage, a chunk of the file of the first, and one of nobody. *)
Definition other_key : list byte := replicate KEY_SIZE x09.
Definition vault_disk (key : list byte) : Disk :=
  <[root_index_chunk_name key 0 := toy_seal demo_saved_root]>
  (list_to_map (map (fun s => (shard_snapshot_chunk_name key (sh_id s) 0, toy_seal s)) (demo_docs :: tail demo_shards))).
Definition gc_disk : Disk :=
  <[blob_chunk_name demo_key 3 0 := [x01; x02]]> (<[chunk_name demo_key [x00] 0 := [x03]]> (vault_disk demo_key ∪ vault_disk other_key)).

Definition gc_session : VaultSession := mkSession demo_before false ∅ new_default 0.
Definition gc_router : GcRouter := mkGcRouter (Some gc_session) invalidate registry_default.
Definition gc_commands : list gc_command := [GcScan "1" 90 100; GcDelete "storage-gc-1" true 190 200].

Definition kinds (key : list byte) (d : Disk) : option CatalogLoadKind :=
  match unlocked key (fun _ => 0) (fun _ _ => 0) 0 d with Ok o => Some (lo_kind o) | Err _ => None end.

(** A scan and its deletion in one vault, without faults, make every other vault of the
    storage disappear. *)
Theorem gc_deletes_other_vaults :
  let w' := snd (run_gc_commands demo_key gc_commands gc_router (mkWorld gc_disk [] 0)) in
  kinds other_key gc_disk = Some LoadedSharded /\ kinds other_key (disk w') = Some NoCatalog
  /\ kinds demo_key (disk w') = Some LoadedSharded.
Proof. vm_compute. repeat split; reflexivity. Qed.

(** ** The theorems on this disk *)

Lemma gc_root : disk_root_index demo_key gc_disk = Some demo_saved_root.
Proof. vm_compute. reflexivity. Qed.

Lemma gc_index : index_on demo_key index_default gc_disk.
Proof. unfold index_on. replace (gc_disk !! _) with (@None (list byte)) by (vm_compute; reflexivity). reflexivity. Qed.

Lemma gc_coherent : coherent demo_key invalidate gc_disk.
Proof. exists index_default. split; [exact gc_index|]. split; [|exact I]. split; [apply NoDup_nil_2|by apply Forall_nil]. Qed.

(** The names of the catalog on a disk. *)
Definition catalog_names (key : list byte) (ri : RootIndex) : list string :=
  root_index_chunk_name key 0 :: catalog_commit_chunk_name key
  :: concat (map (chunks_for_meta key) (map snd (map_to_list (ri_shards ri)))).

Lemma catalog_live_names key d ri n : disk_root_index key d = Some ri -> catalog_live key d n -> n ∈ catalog_names key ri.
Proof.
  unfold catalog_names. rewrite !elem_of_cons. intros Hd [?|[?|(ri' & Hri & meta & Hm & Hn)]]; [auto..|].
  right. right. rewrite Hd in Hri. injection Hri as <-. rewrite list_elem_of_In, in_concat.
  exists (chunks_for_meta key meta). rewrite <- !list_elem_of_In. split; [by apply list_elem_of_fmap_2|done].
Qed.

Lemma gc_names_apart : names_apart demo_key gc_disk.
Proof.
  split; [apply (bool_decide_unpack _); vm_compute; exact I|]. intros n Hn%(catalog_live_names _ _ _ _ gc_root).
  revert n Hn. apply Forall_forall. apply (bool_decide_unpack _). vm_compute. exact I.
Qed.

Lemma subnode_walk u t pre : subnode u t -> exists path, (node_id u, node_type u, path) ∈ walk pre t.
Proof.
  intros Hu. revert pre. induction Hu as [|t c Hc Hu IH]; intros pre.
  - exists (pre ++ [node_name u]). rewrite walk_eq. by left.
  - destruct (IH (pre ++ [node_name t])) as [path Hp]. exists path. rewrite walk_eq. right. apply elem_of_walk_list. eauto.
Qed.

(** All nodes of a tree. *)
Fixpoint nodes (t : CatalogNode) : list CatalogNode :=
  t :: match children_opt t with None => [] | Some cs => concat (map nodes cs) end.

Lemma subnode_nodes u t : subnode u t -> u ∈ nodes t.
Proof.
  induction 1 as [|t c Hc Hu IH]; [destruct u; left|]. unfold children in Hc. destruct t as [? ? ? ? ? ? ? ? ? ? ? ? ? [cs|]]; cbn in *; [|by apply elem_of_nil in Hc].
  right. rewrite list_elem_of_In, in_concat. exists (nodes c). rewrite <- !list_elem_of_In. split; [by apply list_elem_of_fmap_2|done].
Qed.

Lemma gc_widths : widths (root demo_before).
Proof.
  intros u Hu%subnode_nodes. revert u Hu. apply Forall_forall. apply (bool_decide_unpack _). vm_compute. exact I.
Qed.

Definition gc_faults : list fate := repeat Runs 30 ++ [FailsAfter; FailsBefore; Crashes].


Lemma gc_collectable : collectable demo_key gc_session gc_disk.
Proof.
  split.
  - intros bs Hbs. exists demo_saved_root. replace (gc_disk !! _) with (Some (toy_seal demo_saved_root)) in Hbs by (vm_compute; reflexivity).
    injection Hbs as <-. apply toy_seal_opens, to_of_root.
  - exists index_default. exact gc_index.
  - intros u Hu _. destruct (subnode_walk u _ [] Hu) as [path Hp].
    assert (Forall (fun e => e.1.1 <= U32_MAX) (walk [] (root demo_before))) as Hall by (apply (bool_decide_unpack _); vm_compute; exact I).
    rewrite Forall_forall in Hall. exact (Hall _ Hp).
Qed.


(** ** A collection between a failed replacement and its recovery *)

Module Pending.
#[local] Existing Instances kind_crypto kind_crypto_laws root_serde commit_serde tx_serde shard_serde delta_serde
  index_serde manifest_serde toy_sha256 replace_serde replace_tx_serde.

(** A saved vault with one file. *)
Definition saved : Disk := disk (snd (run_save demo_key (fun _ => 7) (fun _ _ => 9) demo_m ∅ (mkWorld demo_start [] 0))).

(** The file is replaced, but the catalog cannot be saved. *)
Definition replaced : result stop (result ReplaceCommandError CatalogFileReplaceResponse) * RpcRouter * World :=
  replace_file demo_key (fun _ => 7) (fun _ => 8) (fun _ _ => 9) 99 1000 demo_request (Some (mkInput demo_content None))
    demo_rt (mkWorld saved (repeat Runs 25 ++ [FailsBefore]) 0).

(** Then garbage is collected in the same session. *)
Definition collected_after : result stop unit * GcRouter * World :=
  let rt := snd (fst replaced) in
  run_gc_commands demo_key gc_commands
    (mkGcRouter (Some (session rt)) (derivative_index_state rt) registry_default) (mkWorld (disk (snd replaced)) [] 0).

(** The first two steps of the next unlock. *)
Definition reopen (d : Disk) : result stop unit :=
  fst (run_io [] 0 (o ← load_for_unlock demo_key (fun _ => 7) (fun _ _ => 9);
                    recover_file_replace_transaction demo_key (lo_catalog o)) d).

(** After a replacement whose save failed the vault can be unlocked: the recovery restores
    the old chunks from their backups. A collection keeps the marker of the replacement
    and deletes the backups, and from then on the recovery, hence the unlock, fails. *)
Theorem gc_breaks_pending_replacement :
  (exists e, fst (fst replaced) = Ok (Err e)) /\ reopen (disk (snd replaced)) = Ok tt
  /\ fst (fst collected_after) = Ok tt
  /\ exists n, reopen (disk (snd collected_after)) = Err (Failed (ChunkNotFound n)).
Proof. vm_compute. split; [by eexists|]. split; [reflexivity|]. split; [reflexivity|by eexists]. Qed.
End Pending.
