(* ===== verification/Artifacts.v ===== *)
(** * Artifacts and the transactions kept in them

    Models the single files beside the chunks ([crates/core/src/storage/flat/artifacts.rs],
    [StorageArtifact] of [backend.rs], [write_artifact_durable] of [flat.rs]) and the
    transaction store on them ([crates/core/src/durable_tx/artifact_store.rs]). An artifact is
    an entry of the disk under its file name, which is no chunk name; its temporary files
    do not show; every call of the backend has a fate. *)

From Stdlib Require Import Strings.Byte Ascii String.
From stdpp Require Import base countable gmap strings list.
From S2P Require Import Prelude.
From S2P Require Import CatalogNode.
From S2P Require Import Storage.
From S2P Require Import Crypto.
From S2P Require Import IoLogic.
From S2P Require Import DurableTx.
From S2P Require Import Footprint.
From S2P Require Import ChunkBatch.
Open Scope Z_scope.

Inductive StorageArtifact :=
  | FormatVersion | Salt | MasterSalt | MasterVerify | MasterVerifyRekeyTemp
  | RekeyTransactionMarker | RekeyTransactionV2 | MasterRekeyTransaction | RestoreTransaction.

Definition file_name (a : StorageArtifact) : string :=
  match a with
  | FormatVersion => "format.version"
  | Salt => "salt"
  | MasterSalt => "master.salt"
  | MasterVerify => "master.verify"
  | MasterVerifyRekeyTemp => ".master.verify.master-rekey.tmp"
  | RekeyTransactionMarker => "rekey.transaction.json"
  | RekeyTransactionV2 => "rekey.transaction.bin"
  | MasterRekeyTransaction => "master.rekey.transaction.json"
  | RestoreTransaction => "restore.transaction.json"
  end.

Lemma artifact_no_chunk a : valid_name (file_name a) = false.
Proof. by destruct a. Qed.

Lemma chunk_no_artifact n a : valid_name n = true -> n <> file_name a.
Proof. intros Hn ->. by rewrite artifact_no_chunk in Hn. Qed.

(** ** Files *)

Definition read_artifact (a : StorageArtifact) : IO (option (list byte)) := call (fun d => (Ok (d !! file_name a), d)).
Definition artifact_exists (a : StorageArtifact) : IO bool := call (fun d => (Ok (bool_decide (is_Some (d !! file_name a))), d)).

Definition write_artifact_temp : IO unit := backend_call.
Definition sync_artifact_temp : IO unit := backend_call.
Definition rename_artifact_temp (a : StorageArtifact) (bytes : list byte) : IO unit :=
  call (fun d => (Ok tt, <[file_name a := bytes]> d)).
Definition sync_artifact_parent : IO unit := backend_call.
Definition remove_artifact_temp : IO unit := backend_call.

Record StorageArtifactWriteError := mkArtifactError { aw_error : Error; aw_committed : bool }.

(** A step that fails with [committed], after some clean-up. *)
Definition artifact_step (c cleanup : IO unit) (committed : bool)
    (k : IO (result StorageArtifactWriteError StorageArtifact)) : IO (result StorageArtifactWriteError StorageArtifact) :=
  catch c (fun e => cleanup;; mret (Err (mkArtifactError e committed))) (fun _ => k).

Definition write_artifact_durable (a : StorageArtifact) (bytes : list byte)
    : IO (result StorageArtifactWriteError StorageArtifact) :=
  artifact_step write_artifact_temp (mret tt) false (
  artifact_step sync_artifact_temp (ignore remove_artifact_temp) false (
  artifact_step (rename_artifact_temp a bytes) (ignore remove_artifact_temp) false (
  artifact_step sync_artifact_parent (mret tt) true (
  artifact_step sync (mret tt) true (
  mret (Ok a)))))).

Definition write_artifact_atomic (a : StorageArtifact) (bytes : list byte) : IO unit :=
  r ← write_artifact_durable a bytes;
  match r with
  | Ok _ => mret tt
  | Err e => io_throw (aw_error e)
  end.

Definition remove_artifact (a : StorageArtifact) : IO unit :=
  call (fun d => (Ok tt, delete (file_name a) d));;
  sync_artifact_parent;;
  sync.

(** ** The transaction store *)

Section ArtifactStore.
Context {P T : Type} `{DurableTxParticipant P T}.
Context (artifact : StorageArtifact) (participant : P).

Definition artifact_store_exists : IO bool := artifact_exists artifact.

Definition artifact_read_record {TP} `{Serde (DurableTxRecord TP)} : IO (option (DurableTxRecord TP)) :=
  bytes ← read_artifact artifact;
  match bytes with
  | Some bytes => mret (decode_record (P:=P) (T:=T) bytes)
  | None => mret None
  end.

Definition artifact_read_participant_record `{Serde (DurableTxRecord T)} : IO (option (DurableTxRecord T)) :=
  record ← artifact_read_record;
  match record with
  | Some record => mret (validate_participant_record participant record)
  | None => mret None
  end.

Definition artifact_read_legacy_payload_strict {TP} `{Serde TP} : IO (option TP) :=
  bytes ← read_artifact artifact;
  match bytes with
  | Some bytes => x ← io_lift (ok_or (from_slice bytes) (SerializationError "from_slice")); mret (Some x)
  | None => mret None
  end.

Definition artifact_write_record {TP} `{Serde (DurableTxRecord TP)} (id : string) (phase : DurableTxPhase) (payload : TP) : IO unit :=
  bytes ← io_lift (encode_record (P:=P) (T:=T) id phase payload);
  write_artifact_atomic artifact bytes.

Definition artifact_write_staging `{Serde (DurableTxRecord T)} (id : string) (payload : T) : IO unit :=
  artifact_write_record id Staging payload.
Definition artifact_write_committing `{Serde (DurableTxRecord T)} (id : string) (payload : T) : IO unit :=
  artifact_write_record id Committing payload.

Definition artifact_write_legacy_payload {TP} `{Serde TP} (payload : TP) : IO unit :=
  bytes ← io_lift (ok_or (to_vec payload) (SerializationError "to_vec"));
  write_artifact_atomic artifact bytes.

Definition artifact_delete : IO unit := remove_artifact artifact.

Definition artifact_recover_record (record : DurableTxRecord T) : IO unit :=
  match validate_participant_record participant record with
  | None => mret tt
  | Some record => recover_participant_record participant None record;; artifact_delete
  end.

Definition artifact_recover_participant `{Serde (DurableTxRecord T)} : IO unit :=
  record ← artifact_read_participant_record;
  match record with
  | None => mret tt
  | Some record => artifact_recover_record record
  end.
End ArtifactStore.

(** ** What they do to the disk *)

(** Whatever happens, the artifact is as it was or as it was to be written, and nothing
    else changed. *)
Lemma write_artifact_ends a bs (P C : Disk -> Prop) :
  (forall d, P d -> C d /\ C (<[file_name a := bs]> d)) ->
  ensures P (write_artifact_atomic a bs) (fun _ d => exists d0, P d0 /\ d = <[file_name a := bs]> d0) C.
Proof.
  intros HC w Hw. unfold write_artifact_atomic, write_artifact_durable, artifact_step, catch.
  unfold write_artifact_temp, sync_artifact_temp, rename_artifact_temp, sync_artifact_parent, remove_artifact_temp, ignore, sync, backend_call.
  unfold attempt, mbind, IO_bind, call. destruct (HC _ Hw) as [H1 H2].
  repeat (cbn; match goal with |- context [match ?fs with [] => _ | _ :: _ => _ end] => destruct fs as [|[] ?] end); cbn; eauto.
Qed.

Lemma remove_artifact_ends a (P C : Disk -> Prop) :
  (forall d, P d -> C d /\ C (delete (file_name a) d)) ->
  ensures P (remove_artifact a) (fun _ d => exists d0, P d0 /\ d = delete (file_name a) d0) C.
Proof.
  intros HC w Hw. unfold remove_artifact, sync_artifact_parent, sync, backend_call, mbind, IO_bind, call. destruct (HC _ Hw) as [H1 H2].
  repeat (cbn; match goal with |- context [match ?fs with [] => _ | _ :: _ => _ end] => destruct fs as [|[] ?] end); cbn; eauto.
Qed.

Lemma read_artifact_is a d : ensures (eq d) (read_artifact a) (fun o d' => d' = d /\ o = d !! file_name a) (eq d).
Proof. apply ensures_call. intros ? <-. cbn. split_and!; [done..|]. by intros o [= <-]. Qed.
