(* ===== verification/Rekey.v ===== *)
(** * Changing the password of a vault

    Models [crates/core/src/vault/rekey]: the manifest of the chunks of a vault
    ([manifest.rs]), their copies under the new key ([chunks.rs], [catalog_io.rs]), the marker
    that both keys open and its recovery ([transaction.rs]), the checks on the passwords
    ([password.rs]) and the whole change ([service.rs]). Argon2 and the keystore are
    parameters, the callback for cancelling is a function of how often it was asked; the
    progress reports are left out. *)

From Stdlib Require Import Strings.Byte Ascii String.
From stdpp Require Import base countable gmap strings list sorting.
From S2P Require Import Prelude.
From S2P Require Import CatalogNode.
From S2P Require Import CatalogManager.
From S2P Require Import CatalogDelta.
From S2P Require Import CatalogShard.
From S2P Require Import Bytes.
From S2P Require Import Storage.
From S2P Require Import Crypto.
From S2P Require Import IoLogic.
From S2P Require Import DurableTx.
From S2P Require Import ChunkCache.
From S2P Require Import CatalogCommit.
From S2P Require Import CatalogLoad.
From S2P Require Import CatalogSave.
From S2P Require Import CatalogSession.
From S2P Require Import BlobFinalize.
From S2P Require Import FileReplace.
From S2P Require Import StorageGc.
From S2P Require Import Artifacts.
Open Scope Z_scope.

(** ** Types *)

Record ChunkPair := mkPair { cp_old : string; cp_new : string }.

Record RekeyManifest := mkRekeyManifest {
  rm_old_catalog : list string;
  rm_new_catalog : list string;
  rm_blobs : list ChunkPair;
  rm_otps : list ChunkPair;
  rm_derivatives : list string;
}.

Record RekeyTransaction := mkRekeyTx {
  rk_version : Z;
  rk_phase : DurableTxPhase;
  rk_old_chunks : list string;
  rk_new_chunks : list string;
  rk_derivative_chunks : list string;
}.

Record EncryptedRekeyMarkerV2 := mkMarkerV2 {
  mv_version : Z;
  mv_kind : string;
  mv_old_recipient : list byte;
  mv_new_recipient : list byte;
}.

Record RekeyMarkerPayloadV2 := mkPayloadV2 {
  pv_version : Z;
  pv_phase : DurableTxPhase;
  pv_old_chunks : list string;
  pv_new_chunks : list string;
  pv_derivative_chunks : list string;
}.

(** What the rekey reads of a derivative index. *)
Record RekeyDerivativeEntry := mkRekeyEntry {
  re_node_id : Z;
  re_source_revision : Z;
  re_tier : string;
  re_storage_version : Z;
  re_meta_chunk_name : string;
  re_part_count : Z;
}.
Record RekeyDerivativeRecord := mkRekeyIndex { re_entries : list RekeyDerivativeEntry }.

Record VaultRekeyRequest := mkRekeyRequest { rq_current_password : string; rq_new_password : string }.

Record VaultRekeyResult := mkRekeyResult {
  vr_migrated_chunks : Z;
  vr_deleted_old_chunks : Z;
  vr_preserved_unknown_chunks : Z;
  vr_deleted_derivative_chunks : Z;
  vr_duration_ms : Z;
  vr_backup_recommended : bool;
}.

(** ** Chunks (chunks.rs) *)

(** Through a [BTreeSet]. *)
Definition unique (names : list string) : list string := merge_sort string_le (remove_dups names).

Section Chunks.
Context `{cr : Crypto}.

Definition copy_chunk (old_key new_key : list byte) (pair : ChunkPair) : IO unit :=
  encrypted ← read_chunk (cp_old pair);
  plain ← io_lift (decrypt encrypted old_key (as_bytes (cp_old pair)));
  next ← encrypt plain new_key (as_bytes (cp_new pair));
  write_chunk_atomic (cp_new pair) next.

Definition rollback_staged_chunks (chunk_names : list string) : IO unit := delete_ignoring chunk_names.

Fixpoint delete_existing (names : list string) (deleted : Z) : IO Z :=
  match names with
  | [] => mret deleted
  | n :: names' =>
      e ← chunk_exists n;
      if (e : bool) then delete_chunk n;; delete_existing names' (u64_saturating_add deleted 1)
      else delete_existing names' deleted
  end.

Definition rekey_delete_chunks (chunk_names : list string) : IO Z := delete_existing (unique chunk_names) 0.
End Chunks.

(** ** The manifest (manifest.rs) *)

Definition old_durable_chunks (m : RekeyManifest) : list string :=
  unique (rm_old_catalog m ++ map cp_old (rm_blobs m) ++ map cp_old (rm_otps m)).
Definition new_durable_chunks (m : RekeyManifest) : list string :=
  unique (rm_new_catalog m ++ map cp_new (rm_blobs m) ++ map cp_new (rm_otps m)).
Definition durable_pair_count (m : RekeyManifest) : Z :=
  Z.of_nat (length (rm_new_catalog m) + length (rm_blobs m) + length (rm_otps m)).

Definition rekey_persistence_shards (clk : clock) (root : CatalogNode) : list Shard :=
  add_eager_shards clk EAGER_SYSTEM_SHARD_IDS (split_into_shards root None)
    (u64_saturating_add (max_catalog_node_id root) 1).

Section Manifest.
Context `{cr : Crypto}.
Context `{Serde RootIndex, Serde RekeyDerivativeRecord}.

(** [if storage.chunk_exists(&name)? { names.push(name) }] for each name. *)
Fixpoint push_existing (candidates : list string) : IO (list string) :=
  match candidates with
  | [] => mret []
  | n :: candidates' =>
      e ← chunk_exists n;
      rest ← push_existing candidates';
      mret (if (e : bool) then n :: rest else rest)
  end.

(** [from..=to] is empty when [from] is greater. *)
Definition meta_chunk_names (key : list byte) (meta : ShardMeta) : list string :=
  shard_snapshot_chunk_name key (sm_shard_id meta) (sm_snapshot_seq meta)
  :: if sm_has_deltas meta
     then let from := u64_saturating_add (sm_base_version meta) 1 in
          map (delta_chunk_name key (sm_shard_id meta)) (seqZ from (sm_last_delta_seq meta - from + 1))
     else [].

Definition old_catalog_chunk_names (key : list byte) : IO (list string) :=
  catalog ← push_existing [catalog_chunk_name key 0];
  let root_name := root_index_chunk_name key 0 in
  e ← chunk_exists root_name;
  if negb e then mret catalog else
  encrypted ← attempt (read_chunk root_name);
  shards ← match (encrypted ≫= fun encrypted => open_sealed encrypted key (as_bytes root_name)) with
           | Ok root_index => push_existing (concat (map (meta_chunk_names key) (map snd (map_to_list (ri_shards root_index)))))
           | Err _ => mret []
           end;
  mret (catalog ++ root_name :: shards).

Definition new_catalog_chunk_names (clk : clock) (root : CatalogNode) (key : list byte) : list string :=
  unique (root_index_chunk_name key 0 :: map (fun s => shard_chunk_name key (sh_id s) 0) (rekey_persistence_shards clk root)).

(** [x as u32]. *)
Definition as_u32 (x : Z) : Z := x `mod` 2 ^ 32.

Definition part_count (node : CatalogNode) : Z :=
  let chunk_size := if chunk_size node =? 0 then DEFAULT_CHUNK_SIZE else chunk_size node in
  if node_size node =? 0 then 0 else u64_saturating_add (node_size node) (chunk_size - 1) `div` chunk_size.

(** [if storage.chunk_exists(&old_name)? { pairs.push(pair) }]. *)
Fixpoint push_pairs (pairs : list ChunkPair) : IO (list ChunkPair) :=
  match pairs with
  | [] => mret []
  | p :: pairs' =>
      e ← chunk_exists (cp_old p);
      rest ← push_pairs pairs';
      mret (if (e : bool) then p :: rest else rest)
  end.

Definition blob_pair (old_key new_key : list byte) (node : CatalogNode) (part_index : Z) : ChunkPair :=
  let name key := blob_chunk_name key (as_u32 (node_id node)) (as_u32 part_index) in mkPair (name old_key) (name new_key).

Fixpoint collect_pairs (old_key new_key : list byte) (node : CatalogNode) : IO (list ChunkPair * list ChunkPair) :=
  blobs ← (if is_file node then push_pairs (map (blob_pair old_key new_key node) (seqZ 0 (part_count node))) else mret []);
  otps ← push_pairs [mkPair (otp_chunk_name old_key (node_id node)) (otp_chunk_name new_key (node_id node))];
  match children_opt node with
  | None => mret (blobs, otps)
  | Some cs =>
      (fix go (cs : list CatalogNode) (blobs otps : list ChunkPair) {struct cs} : IO (list ChunkPair * list ChunkPair) :=
         match cs with
         | [] => mret (blobs, otps)
         | c :: cs' => '(bs, os) ← collect_pairs old_key new_key c; go cs' (blobs ++ bs) (otps ++ os)
         end) cs blobs otps
  end.

Definition rekey_entry_names (key : list byte) (e : RekeyDerivativeEntry) : list string :=
  re_meta_chunk_name e
  :: map (derivative_chunk_name key (re_node_id e) (re_source_revision e) (re_tier e) (re_storage_version e)) (seqZ 0 (re_part_count e)).

Definition derivative_chunk_names (key : list byte) : IO (list string) :=
  let index_name := derivative_index_chunk_name key in
  e ← chunk_exists index_name;
  if negb e then mret [] else
  encrypted ← attempt (read_chunk index_name);
  match (encrypted ≫= fun encrypted => open_sealed encrypted key (as_bytes index_name)) with
  | Ok record => mret (index_name :: concat (map (rekey_entry_names key) (re_entries record)))
  | Err _ => mret [index_name]
  end.

Definition build_manifest (clk : clock) (root : CatalogNode) (old_key new_key : list byte) : IO RekeyManifest :=
  old_catalog ← old_catalog_chunk_names old_key;
  derivatives ← derivative_chunk_names old_key;
  '(blobs, otps) ← collect_pairs old_key new_key root;
  mret (mkRekeyManifest (unique old_catalog) (unique (new_catalog_chunk_names clk root new_key)) blobs otps (unique derivatives)).
End Manifest.

(** ** The catalog under the new key (catalog_io.rs) *)

Section CatalogIo.
Context `{cr : Crypto}.
Context `{Serde RootIndex, Serde Shard, Serde DeltaEntry}.

Definition rekey_meta (v : Z) (shard : Shard) : ShardMeta :=
  let strategy := if is_eager_system_shard_id (sh_id shard) then Eager else Lazy in
  let meta := meta_new (sh_id shard) strategy in
  let meta := mkMeta (sm_shard_id meta) (sm_context meta) v v (sm_size meta) (sm_node_count meta) (sm_strategy meta)
                (sm_has_deltas meta) (sm_delta_count meta) v (sm_snapshot_seq meta) (sm_root_summary meta) in
  meta_update_root_summary (sh_root shard) (meta_update_stats (shard_node_count shard) (shard_size shard) meta).

Definition rekey_shard (v : Z) (shard : Shard) : Shard := mkShard (sh_v shard) (sh_id shard) v v (sh_root shard).

Fixpoint write_rekey_shards (vault_key : list byte) (v : Z) (shards : list Shard) (root_index : RootIndex) : IO RootIndex :=
  match shards with
  | [] => mret root_index
  | shard :: shards' =>
      let meta := rekey_meta v shard in
      let shard_name := shard_chunk_name vault_key (sh_id shard) 0 in
      encrypted ← seal (rekey_shard v shard) vault_key (as_bytes shard_name);
      write_chunk_atomic shard_name encrypted;;
      write_rekey_shards vault_key v shards' (set_shards (<[sm_shard_id meta := meta]> (ri_shards root_index)) root_index)
  end.

Definition write_full_catalog_for_rekey (clk : clock) (vault_key : list byte) (catalog : CatalogManager) : IO unit :=
  let root_index := set_root_version (version catalog) (index_new (clk 0%nat)) in
  root_index ← write_rekey_shards vault_key (version catalog) (rekey_persistence_shards (later 1 clk) (root catalog)) root_index;
  let root_name := root_index_chunk_name vault_key 0 in
  root_enc ← seal root_index vault_key (as_bytes root_name);
  write_chunk_atomic root_name root_enc.

Definition validate_rekeyed_catalog (clk : clock) (clks : nat -> clock) (session : VaultSession) (new_key : list byte) : IO unit :=
  candidate ← try_load_sharded_catalog new_key clk clks;
  match candidate with
  | None => io_throw (InvalidDataFormat "rekey validation failed: new catalog did not load")
  | Some candidate =>
      if (count_nodes (root candidate) <? count_nodes (root (catalog session)))
         || negb (total_size (root candidate) =? total_size (root (catalog session)))
      then io_throw (InvalidDataFormat "rekey validation failed: catalog stats changed")
      else mret tt
  end.
End CatalogIo.

(** ** The marker (transaction.rs) *)

Definition REKEY_TX_VERSION : Z := 1.
Definition REKEY_TX_KIND : string := "vault_rekey".
Definition REKEY_MARKER_V2_VERSION : Z := 2.
Definition REKEY_MARKER_V2_KIND : string := "vault_rekey_marker".
Definition REKEY_MARKER_V2_AAD : list byte := as_bytes "vault:rekey:v2".

Definition payload_from (t : RekeyTransaction) : RekeyMarkerPayloadV2 :=
  mkPayloadV2 (rk_version t) (rk_phase t) (rk_old_chunks t) (rk_new_chunks t) (rk_derivative_chunks t).

Definition into_transaction (p : RekeyMarkerPayloadV2) : result Error RekeyTransaction :=
  if negb (pv_version p =? REKEY_TX_VERSION)
  then Err (InvalidDataFormat (String.append "unsupported rekey transaction version: " (show_u64 (pv_version p))))
  else Ok (mkRekeyTx (pv_version p) (pv_phase p) (pv_old_chunks p) (pv_new_chunks p) (pv_derivative_chunks p)).

Section Participant.
Context `{cr : Crypto}.

Inductive RekeyParticipant := mkRekeyParticipant.

(** [for name in &new_chunks { if !storage.chunk_exists(name)? { return Err(..) } }]. *)
Fixpoint require_chunks (names : list string) : IO unit :=
  match names with
  | [] => mret tt
  | n :: names' =>
      e ← chunk_exists n;
      if negb e then io_throw (InvalidDataFormat (String.append "rekey committing marker references missing new chunk: " n))
      else require_chunks names'
  end.

#[global] Instance rekey_participant : DurableTxParticipant RekeyParticipant RekeyTransaction := {|
  KIND := REKEY_TX_KIND;
  VERSION := REKEY_TX_VERSION;
  marker_context := fun _ => "vault:rekey:tx:v1"%string;
  marker_name := fun _ vault_key => chunk_name_u64 vault_key (as_bytes "vault:rekey:tx:v1") 0;
  validate_payload := fun _ payload => rk_version payload =? REKEY_TX_VERSION;
  rollback_staging := fun _ _ record => rollback_staged_chunks (rk_new_chunks (tx_payload record));
  recover_committing := fun _ _ record =>
    require_chunks (rk_new_chunks (tx_payload record));;
    rekey_delete_chunks (rk_old_chunks (tx_payload record));;
    rekey_delete_chunks (rk_derivative_chunks (tx_payload record));;
    mret tt;
  cleanup := fun _ _ _ => sync;
|}.

Context `{Serde EncryptedRekeyMarkerV2, Serde RekeyMarkerPayloadV2, Serde RekeyTransaction}.

Definition load_legacy_rekey_marker : IO (option RekeyTransaction) :=
  o ← artifact_read_legacy_payload_strict RekeyTransactionMarker;
  match (o : option RekeyTransaction) with
  | None => mret None
  | Some t =>
      if rk_version t =? REKEY_TX_VERSION then mret (Some t)
      else io_throw (InvalidDataFormat (String.append "unsupported rekey transaction version: " (show_u64 (rk_version t))))
  end.

(** The loop over the two recipients. *)
Fixpoint open_recipient (vault_key : list byte) (ciphertexts : list (list byte)) : result Error (option RekeyTransaction) :=
  match ciphertexts with
  | [] => Ok None
  | c :: cs =>
      match decrypt c vault_key REKEY_MARKER_V2_AAD with
      | Err _ => open_recipient vault_key cs
      | Ok payload_bytes =>
          ok_or (from_slice payload_bytes) (SerializationError "from_slice") ≫= fun payload =>
          into_transaction payload ≫= fun t => Ok (Some t)
      end
  end.

Definition load_encrypted_rekey_marker_for_key (vault_key : list byte) : IO (option RekeyTransaction) :=
  bytes ← read_artifact RekeyTransactionV2;
  match bytes with
  | None => mret None
  | Some bytes =>
      match from_slice bytes with
      | None => mret None
      | Some marker =>
          if negb (mv_version marker =? REKEY_MARKER_V2_VERSION) || negb (String.eqb (mv_kind marker) REKEY_MARKER_V2_KIND)
          then mret None
          else io_lift (open_recipient vault_key [mv_old_recipient marker; mv_new_recipient marker])
      end
  end.

Definition load_rekey_marker_for_key (vault_key : list byte) : IO (option RekeyTransaction) :=
  o ← load_encrypted_rekey_marker_for_key vault_key;
  match o with
  | Some t => mret (Some t)
  | None => load_legacy_rekey_marker
  end.

Definition write_rekey_marker (old_key new_key : list byte) (t : RekeyTransaction) : IO unit :=
  payload ← io_lift (ok_or (to_vec (payload_from t)) (SerializationError "to_vec"));
  old_recipient ← encrypt payload old_key REKEY_MARKER_V2_AAD;
  new_recipient ← encrypt payload new_key REKEY_MARKER_V2_AAD;
  bytes ← io_lift (ok_or (to_vec (mkMarkerV2 REKEY_MARKER_V2_VERSION REKEY_MARKER_V2_KIND old_recipient new_recipient))
                     (SerializationError "to_vec"));
  write_artifact_atomic RekeyTransactionV2 bytes.

Definition delete_rekey_marker : IO unit :=
  artifact_delete RekeyTransactionMarker;;
  remove_artifact RekeyTransactionV2.

Definition recover_transaction_record (t : RekeyTransaction) : IO unit :=
  artifact_recover_record RekeyTransactionMarker mkRekeyParticipant
    (mkTxRecord REKEY_TX_VERSION REKEY_TX_KIND "vault-rekey" (rk_phase t) t);;
  delete_rekey_marker.

Definition recover_rekey_marker_for_key (vault_key : list byte) : IO unit :=
  o ← load_encrypted_rekey_marker_for_key vault_key;
  match o with
  | None => mret tt
  | Some t => recover_transaction_record t
  end.

Definition recover_rekey_transaction (vault_key : list byte) : IO unit :=
  o ← load_rekey_marker_for_key vault_key;
  match o with
  | None => mret tt
  | Some t => if negb (rk_version t =? REKEY_TX_VERSION) then mret tt else recover_transaction_record t
  end.
End Participant.

(** ** Passwords (password.rs) *)

(** Argon2 of the [argon2] crate with the parameters of the program. *)
Class Argon2 := derive_vault_key_with_salt : string -> list byte -> result Error (list byte).

Definition SALT_SIZE : nat := 16.
Definition VAULT_PASSWORD_MIN_LEN : nat := 8.

Section Password.
Context `{cr : Crypto} `{Argon2}.

Definition derive_stretched_salt (vault_salt storage_pepper : list byte) : list byte :=
  blake3 (vault_salt ++ storage_pepper ++ as_bytes "vault-salt-v2").

Definition derive_vault_key_v2 (password : string) (vault_salt storage_pepper : list byte) : result Error (list byte) :=
  derive_vault_key_with_salt password (derive_stretched_salt vault_salt storage_pepper).

Definition read_salt : IO (option (list byte)) :=
  o ← read_artifact Salt;
  match o with
  | None => mret None
  | Some bytes =>
      if (length bytes =? SALT_SIZE)%nat then mret (Some bytes)
      else io_throw (InvalidDataFormat (String.append "invalid vault salt length: expected " (String.append (show_u64 (Z.of_nat SALT_SIZE))
             (String.append ", got " (show_u64 (Z.of_nat (length bytes)))))))
  end.

Definition validate_new_password (current_password new_password : string) : result Error unit :=
  if (string_len new_password <? VAULT_PASSWORD_MIN_LEN)%nat
  then Err (RekeyPasswordPolicy "new vault password must be at least 8 characters")
  else if String.eqb current_password new_password
  then Err (RekeyPasswordPolicy "new vault password must differ from current password")
  else Ok tt.

(** [pepper] is what the keystore says. *)
Definition derive_session_key (pepper : result Error (option (list byte))) (password : string) : IO (list byte) :=
  pepper ← io_lift (pepper ≫= fun o => ok_or o StoragePepperRequired);
  salt ← read_salt;
  salt ← io_lift (ok_or salt (InvalidDataFormat "vault salt is missing during password rekey"));
  io_lift (derive_vault_key_v2 password salt pepper).

Definition reject_existing_target_vault (new_key : list byte) : IO unit :=
  e1 ← chunk_exists (catalog_chunk_name new_key 0);
  if (e1 : bool) then io_throw (RekeyPasswordPolicy "new vault password is not allowed") else
  e2 ← chunk_exists (root_index_chunk_name new_key 0);
  if (e2 : bool) then io_throw (RekeyPasswordPolicy "new vault password is not allowed") else mret tt.
End Password.

(** ** The change (service.rs) *)

(** A session with its key. *)
Record KeyedSession := mkKeyed { ks_key : list byte; ks_session : VaultSession }.

#[export] Instance byte_eq_decision : EqDecision byte := Byte.byte_eq_dec.

Definition constant_time_eq (left right : list byte) : bool := bool_decide (left = right).

Definition check_cancel (requested : bool) : result Error unit := if requested then Err RekeyCancelled else Ok tt.

(** [self.vault_key = new_key; ...; self.decrypted_chunk_cache.clear(..)]. *)
Definition adopt_key (new_key : list byte) (s : KeyedSession) : KeyedSession :=
  let x := ks_session s in
  mkKeyed new_key (mkSession (catalog x) false ∅ (cache_clear (chunk_cache x)) (bypass x)).

(** [self.save(..)] under the key of the session. *)
Definition keyed {A} (c : list byte -> StIO VaultSession A) : StIO KeyedSession A := fun s w =>
  let '(r, x, w') := c (ks_key s) (ks_session s) w in (r, mkKeyed (ks_key s) x, w').

Section Service.
Context `{cr : Crypto} `{Argon2}.
Context `{Serde RootIndex, Serde Shard, Serde DeltaEntry, Serde CatalogCommitRecord,
          Serde (DurableTxRecord CatalogCommitRecord)}.
Context `{Serde RekeyDerivativeRecord, Serde EncryptedRekeyMarkerV2, Serde RekeyMarkerPayloadV2, Serde RekeyTransaction}.
Context (clk : clock) (clks : nat -> clock) (save_clks : string -> clock).
(** The answers of [cancel_requested]. *)
Context (cancel : nat -> bool).

Fixpoint copy_pairs (old_key new_key : list byte) (pairs : list ChunkPair) (asked : nat) : IO nat :=
  match pairs with
  | [] => mret asked
  | p :: pairs' =>
      copy_chunk old_key new_key p;;
      io_lift (check_cancel (cancel asked));;
      copy_pairs old_key new_key pairs' (S asked)
  end.

Definition write_new_chunks (old_key new_key : list byte) (catalog : CatalogManager) (manifest : RekeyManifest) : IO unit :=
  io_lift (check_cancel (cancel 0%nat));;
  write_full_catalog_for_rekey clk new_key catalog;;
  io_lift (check_cancel (cancel 1%nat));;
  asked ← copy_pairs old_key new_key (rm_blobs manifest) 2;
  copy_pairs old_key new_key (rm_otps manifest) asked;;
  mret tt.

(** The part of the change that the save leads up to. *)
Definition rekey_migrate (new_key : list byte) (duration_ms : Z) : StIO KeyedSession VaultRekeyResult :=
  s ← st_get;
  let old_key := ks_key s in
  let session := ks_session s in
  manifest ← io (build_manifest clk (root (catalog session)) old_key new_key);
  let old_chunks := old_durable_chunks manifest in
  let new_chunks := new_durable_chunks manifest in
  let derivative_chunks := unique (rm_derivatives manifest) in
  let marker phase := mkRekeyTx REKEY_TX_VERSION phase old_chunks new_chunks derivative_chunks in
  io (write_rekey_marker old_key new_key (marker Staging));;
  io (catch (write_new_chunks old_key new_key (catalog session) manifest)
        (fun error => rollback_staged_chunks new_chunks;; ignore delete_rekey_marker;; io_throw error)
        mret);;
  io (validate_rekeyed_catalog clk clks session new_key);;
  io (write_rekey_marker old_key new_key (marker Committing));;
  st_modify (adopt_key new_key);;
  deleted_old ← io (rekey_delete_chunks old_chunks);
  deleted_derivatives ← io (rekey_delete_chunks derivative_chunks);
  io delete_rekey_marker;;
  io sync;;
  known_after ← io list_chunks;
  mret (mkRekeyResult (durable_pair_count manifest) deleted_old
          (u64_saturating_sub (Z.of_nat (length known_after)) (Z.of_nat (length new_chunks))) deleted_derivatives duration_ms true).

Definition rekey_password (keystore : nat -> result Error (option (list byte))) (request : VaultRekeyRequest) (duration_ms : Z)
    : StIO KeyedSession VaultRekeyResult :=
  s ← st_get;
  io (recover_rekey_transaction (ks_key s));;
  io (io_lift (validate_new_password (rq_current_password request) (rq_new_password request)));;
  old_key ← io (derive_session_key (keystore 0%nat) (rq_current_password request));
  if negb (constant_time_eq old_key (ks_key s)) then io (io_throw RekeyInvalidCurrentPassword) else
  new_key ← io (derive_session_key (keystore 1%nat) (rq_new_password request));
  if constant_time_eq new_key (ks_key s)
  then io (io_throw (RekeyPasswordPolicy "new vault password must derive a different key")) else
  io (reject_existing_target_vault new_key);;
  keyed (fun key => session_save key clk save_clks);;
  rekey_migrate new_key duration_ms.

End Service.
