(* ===== verification/RekeySpec.v ===== *)
(** * What a change of the password writes

    The chunks of a vault under its two keys, what the copies must hold, and what the steps
    of the change do to the disk whatever faults they meet. *)

From Stdlib Require Import Strings.Byte Ascii String.
From stdpp Require Import base countable gmap strings list sorting.
From S2P Require Import Prelude.
From S2P Require Import CatalogNode.
From S2P Require Import CatalogManager.
From S2P Require Import CatalogTree.
From S2P Require Import CatalogDelta.
From S2P Require Import CatalogShard.
From S2P Require Import Bytes.
From S2P Require Import Storage.
From S2P Require Import Crypto.
From S2P Require Import IoLogic.
From S2P Require Import DurableTx.
From S2P Require Import CatalogCommit.
From S2P Require Import CatalogLoad.
From S2P Require Import CatalogSave.
From S2P Require Import CatalogSession.
From S2P Require Import Footprint.
From S2P Require Import FileReplace.
From S2P Require Import Artifacts.
From S2P Require Import Rekey.
Open Scope Z_scope.

Lemma elem_of_unique_names n ns : n ∈ unique ns <-> n ∈ ns.
Proof. unfold unique. rewrite merge_sort_Permutation. apply elem_of_remove_dups. Qed.

Lemma ensures_seq {A B} P (c : IO A) (k : IO B) (Q : Disk -> Prop) R C :
  ensures P c (fun _ => Q) C -> ensures Q k R C -> ensures P (c;; k) R C.
Proof. intros Hc Hk. by apply (ensures_bind _ _ _ (fun _ => Q)). Qed.

Lemma ensures_check {A} (P : Disk -> Prop) (r : result Error A) C : (forall d, P d -> C d) -> ensures P (io_lift r) (fun _ => P) C.
Proof. intros HC. eapply ensures_conseq; [by apply ensures_lift|done|]. by intros ? ? [? _]. Qed.

(** ** The manifest *)

Definition present (d : Disk) (n : string) : bool := bool_decide (is_Some (d !! n)).

Lemma push_existing_is d ns :
  ensures (eq d) (push_existing ns) (fun l d' => d' = d /\ l = List.filter (present d) ns) (eq d).
Proof.
  induction ns as [|n ns IH]; cbn [push_existing List.filter]; [by apply ensures_ret; intros ? <-|].
  eapply ensures_bind; [by apply ensures_exists|]. intros b. apply ensures_known. intros d1 [E ->]. subst d1.
  eapply ensures_bind; [apply IH|]. intros l. apply ensures_known. intros d1 [-> ->].
  apply ensures_ret. intros ? <-. by destruct (present d n) eqn:E; unfold present in E; rewrite E.
Qed.

Lemma push_pairs_is d ps :
  ensures (eq d) (push_pairs ps) (fun l d' => d' = d /\ l = List.filter (fun p => present d (cp_old p)) ps) (eq d).
Proof.
  induction ps as [|p ps IH]; cbn [push_pairs List.filter]; [by apply ensures_ret; intros ? <-|].
  eapply ensures_bind; [by apply ensures_exists|]. intros b. apply ensures_known. intros d1 [E ->]. subst d1.
  eapply ensures_bind; [apply IH|]. intros l. apply ensures_known. intros d1 [-> ->].
  apply ensures_ret. intros ? <-. by destruct (present d (cp_old p)) eqn:E; unfold present in E; rewrite E.
Qed.

Section Spec.
Context `{cr : Crypto} {crl : CryptoLaws cr}.
Context `{Serde RootIndex, Serde RekeyDerivativeRecord}.
Context (old_key new_key : list byte).

(** All pairs of a tree, whether they are on the disk or not. *)
Definition own_blob_pairs (t : CatalogNode) : list ChunkPair :=
  if is_file t then map (blob_pair old_key new_key t) (seqZ 0 (part_count t)) else [].
Definition own_otp_pair (t : CatalogNode) : ChunkPair :=
  mkPair (otp_chunk_name old_key (node_id t)) (otp_chunk_name new_key (node_id t)).

Fixpoint tree_pairs (own : CatalogNode -> list ChunkPair) (t : CatalogNode) : list ChunkPair :=
  own t ++ match children_opt t with
           | None => []
           | Some cs => concat (map (tree_pairs own) cs)
           end.

Definition on_disk (d : Disk) (ps : list ChunkPair) : list ChunkPair := List.filter (fun p => present d (cp_old p)) ps.

Lemma on_disk_app d ps qs : on_disk d (ps ++ qs) = on_disk d ps ++ on_disk d qs.
Proof. apply List.filter_app. Qed.

Definition blob_pairs_of (d : Disk) (t : CatalogNode) : list ChunkPair := on_disk d (tree_pairs own_blob_pairs t).
Definition otp_pairs_of (d : Disk) (t : CatalogNode) : list ChunkPair := on_disk d (tree_pairs (fun t => [own_otp_pair t]) t).

Fixpoint collect_pairs_list (cs : list CatalogNode) (blobs otps : list ChunkPair) : IO (list ChunkPair * list ChunkPair) :=
  match cs with
  | [] => mret (blobs, otps)
  | c :: cs' => '(bs, os) ← collect_pairs old_key new_key c; collect_pairs_list cs' (blobs ++ bs) (otps ++ os)
  end.

Lemma collect_pairs_eq t :
  collect_pairs old_key new_key t
  = (blobs ← (if is_file t then push_pairs (map (blob_pair old_key new_key t) (seqZ 0 (part_count t))) else mret []);
     otps ← push_pairs [own_otp_pair t]; collect_pairs_list (children t) blobs otps).
Proof. by destruct t as [?????????????[cs|]]. Qed.

Lemma tree_pairs_eq own t : tree_pairs own t = own t ++ concat (map (tree_pairs own) (children t)).
Proof. by destruct t as [?????????????[cs|]]. Qed.

Lemma collect_pairs_is d t :
  ensures (eq d) (collect_pairs old_key new_key t) (fun x d' => d' = d /\ x = (blob_pairs_of d t, otp_pairs_of d t)) (eq d).
Proof.
  induction t as [t IH] using node_ind. rewrite Forall_forall in IH. rewrite collect_pairs_eq.
  unfold blob_pairs_of, otp_pairs_of. rewrite !tree_pairs_eq.
  apply (ensures_bind _ _ _ (fun l d' => d' = d /\ l = on_disk d (own_blob_pairs t))).
  { unfold own_blob_pairs. destruct (is_file t); [apply push_pairs_is|]. apply ensures_ret. by intros ? <-. }
  intros blobs. apply ensures_known. intros d1 [-> ->].
  eapply ensures_bind; [apply push_pairs_is|]. intros otps. apply ensures_known. intros d1 [-> ->].
  fold (on_disk d [own_otp_pair t]). rewrite !on_disk_app.
  generalize (on_disk d (own_blob_pairs t)) (on_disk d [own_otp_pair t]).
  induction (children t) as [|c cs IHcs]; intros bs os; cbn [collect_pairs_list map concat].
  - apply ensures_ret. intros ? <-. by rewrite !app_nil_r.
  - eapply ensures_bind; [apply IH; left|]. intros [bs' os']. apply ensures_known. intros d1 [-> [= -> ->]].
    eapply ensures_conseq; [apply IHcs; intros; apply IH; by right|by intros ? <-|].
    intros x d' [-> ->]. rewrite !on_disk_app, <- !app_assoc. done.
Qed.

(** The names the old catalog may have on [d], and those of its derivatives. *)
Definition old_catalog_of (d : Disk) : list string :=
  catalog_chunk_name old_key 0 :: root_index_chunk_name old_key 0
  :: match d !! root_index_chunk_name old_key 0 with
     | Some bs => match open_sealed bs old_key (as_bytes (root_index_chunk_name old_key 0)) with
                  | Ok ri => concat (map (meta_chunk_names old_key) (map snd (map_to_list (ri_shards ri))))
                  | Err _ => []
                  end
     | None => []
     end.
Definition derivatives_of (d : Disk) : list string :=
  derivative_index_chunk_name old_key
  :: match d !! derivative_index_chunk_name old_key with
     | Some bs => match open_sealed bs old_key (as_bytes (derivative_index_chunk_name old_key)) with
                  | Ok r => concat (map (rekey_entry_names old_key) (re_entries r))
                  | Err _ => []
                  end
     | None => []
     end.

(** What the manifest of a vault with tree [t] on the disk [d] is, where a failed read may
    have left out names of the old catalog and of derivatives. *)
Record fits (clk : clock) (t : CatalogNode) (d : Disk) (mf : RekeyManifest) : Prop := {
  ft_new : rm_new_catalog mf = unique (new_catalog_chunk_names clk t new_key);
  ft_blobs : rm_blobs mf = blob_pairs_of d t;
  ft_otps : rm_otps mf = otp_pairs_of d t;
  ft_old n : n ∈ rm_old_catalog mf -> n ∈ old_catalog_of d;
  ft_root : is_Some (d !! root_index_chunk_name old_key 0) -> root_index_chunk_name old_key 0 ∈ rm_old_catalog mf;
  ft_derivatives n : n ∈ rm_derivatives mf -> n ∈ derivatives_of d;
}.

Lemma filter_subset {A} (f : A -> bool) l x : x ∈ List.filter f l -> x ∈ l.
Proof. rewrite !list_elem_of_In, filter_In. tauto. Qed.

Lemma old_catalog_fits d :
  ensures (eq d) (old_catalog_chunk_names old_key)
    (fun l d' => d' = d /\ (forall n, n ∈ l -> n ∈ old_catalog_of d)
       /\ (is_Some (d !! root_index_chunk_name old_key 0) -> root_index_chunk_name old_key 0 ∈ l)) (eq d).
Proof.
  unfold old_catalog_chunk_names.
  eapply ensures_bind; [apply push_existing_is|]. intros l0. apply ensures_known. intros d1 [-> ->].
  eapply ensures_bind; [apply (ensures_exists (eq d)); by intros ? <-|]. intros b. apply ensures_known. intros d1 [E ->]. subst d1.
  assert (forall n, n ∈ List.filter (present d) [catalog_chunk_name old_key 0] -> n ∈ old_catalog_of d) as H0'.
  { intros n ->%filter_subset%list_elem_of_singleton. left. }
  case_bool_decide as Hb; cbn [negb]; [|by apply ensures_ret; intros ? <-].
  eapply ensures_bind; [apply (ensures_try_read (eq d)); by intros ? <-|]. intros r. apply ensures_known. intros d1 [E Hr]. subst d1.
  apply (ensures_bind _ _ _ (fun shards d' => d' = d /\ forall n, n ∈ shards -> n ∈ old_catalog_of d)).
  - destruct r as [bs|e]; cbn [mbind result_bind]; [|apply ensures_ret; intros ? <-; split; [done|]; by intros n ?%elem_of_nil].
    destruct (open_sealed bs old_key _) as [ri|e] eqn:Eo; [|apply ensures_ret; intros ? <-; split; [done|]; by intros n ?%elem_of_nil].
    eapply ensures_conseq; [apply push_existing_is|done|]. intros l d' [-> ->]. split; [done|].
    intros n Hn%filter_subset. unfold old_catalog_of. rewrite (Hr bs eq_refl), Eo. do 2 right. exact Hn.
  - intros shards. apply ensures_known. intros d1 [-> Hs]. apply ensures_ret. intros ? <-. split_and!; [done| |].
    + intros n [?|[->|?]%elem_of_cons]%elem_of_app; [auto|right; left|auto].
    + intros _. apply elem_of_app. right. left.
Qed.

Lemma derivatives_fit d :
  ensures (eq d) (derivative_chunk_names old_key) (fun l d' => d' = d /\ forall n, n ∈ l -> n ∈ derivatives_of d) (eq d).
Proof.
  unfold derivative_chunk_names.
  eapply ensures_bind; [by apply ensures_exists|]. intros b. apply ensures_known. intros d1 [E ->]. subst d1.
  case_bool_decide as Hb; cbn [negb]; [|apply ensures_ret; intros ? <-; split; [done|]; by intros n ?%elem_of_nil].
  eapply ensures_bind; [apply (ensures_try_read (eq d)); by intros ? <-|]. intros r. apply ensures_known. intros d1 [E Hr]. subst d1.
  destruct r as [bs|e]; cbn [mbind result_bind].
  2: { apply ensures_ret. intros ? <-. split; [done|]. intros n ->%list_elem_of_singleton. left. }
  destruct (open_sealed bs old_key _) as [ri|e] eqn:Eo; apply ensures_ret; intros ? <-; (split; [done|]); intros n.
  - unfold derivatives_of. by rewrite (Hr bs eq_refl), Eo.
  - intros ->%list_elem_of_singleton. left.
Qed.

Lemma build_manifest_fits clk t d :
  ensures (eq d) (build_manifest clk t old_key new_key) (fun mf d' => d' = d /\ fits clk t d mf) (eq d).
Proof.
  unfold build_manifest.
  eapply ensures_bind; [apply old_catalog_fits|]. intros l1. apply ensures_known. intros d1 (-> & H1' & Hr').
  eapply ensures_bind; [apply derivatives_fit|]. intros l2. apply ensures_known. intros d1 [-> H2'].
  eapply ensures_bind; [apply collect_pairs_is|]. intros [bs os]. apply ensures_known. intros d1 [-> [= -> ->]].
  apply ensures_ret. intros ? <-. split; [done|]. split; cbn; try done; try intros n; rewrite elem_of_unique_names; auto.
Qed.
End Spec.

(** ** Writing the copies *)

(** A chunk to write and what it must hold. *)
Abbreviation job := (string * (list byte -> Prop))%type.

Definition written (d : Disk) (jobs : list job) : Prop := Forall (fun j => exists bs, d !! fst j = Some bs /\ snd j bs) jobs.

Lemma written_insert d jobs n bs : n ∉ map fst jobs -> written d jobs -> written (<[n := bs]> d) jobs.
Proof.
  intros Hn. unfold written. rewrite !Forall_forall. intros Hd j Hj. destruct (Hd j Hj) as (b & Eb & HQ). exists b.
  split; [|done]. rewrite lookup_insert_ne; [done|]. intros ->. apply Hn. by apply list_elem_of_fmap_2.
Qed.

Lemma written_same d d' jobs : (forall n, n ∈ map fst jobs -> d' !! n = d !! n) -> written d jobs -> written d' jobs.
Proof.
  intros Hs. unfold written. rewrite !Forall_forall. intros Hd j Hj. destruct (Hd j Hj) as (b & Eb & HQ). exists b.
  split; [|done]. rewrite Hs; [done|]. by apply list_elem_of_fmap_2.
Qed.

Section Write.
Context `{cr : Crypto} {crl : CryptoLaws cr}.
Context `{SerdeLaw RootIndex, SerdeLaw Shard}.
Context (old_key new_key : list byte) (D0 : Disk).

Definition shard_job (v : Z) (s : Shard) : job :=
  let n := shard_chunk_name new_key (sh_id s) 0 in (n, fun bs => opens_to new_key (as_bytes n) bs (rekey_shard v s)).
Definition root_job (ri : RootIndex) : job :=
  let n := root_index_chunk_name new_key 0 in (n, fun bs => opens_to new_key (as_bytes n) bs ri).
Definition pair_job (p : ChunkPair) : job :=
  (cp_new p, fun bs => exists obs plain, D0 !! cp_old p = Some obs
     /\ decrypt obs old_key (as_bytes (cp_old p)) = Ok plain /\ decrypt bs new_key (as_bytes (cp_new p)) = Ok plain).

Definition add_rekeyed (v : Z) (ri : RootIndex) (s : Shard) : RootIndex :=
  set_shards (<[sh_id s := rekey_meta v s]> (ri_shards ri)) ri.
Definition rekeyed_index (clk : clock) (m : CatalogManager) : RootIndex :=
  foldl (add_rekeyed (version m)) (set_root_version (version m) (index_new (clk 0%nat)))
    (rekey_persistence_shards (later 1 clk) (root m)).

(** Everything the change writes for the catalog [m] and the chunks on [D0]. *)
Definition rekey_jobs (clk : clock) (m : CatalogManager) : list job :=
  map (shard_job (version m)) (rekey_persistence_shards (later 1 clk) (root m)) ++ [root_job (rekeyed_index clk m)]
  ++ map pair_job (blob_pairs_of old_key new_key D0 (root m)) ++ map pair_job (otp_pairs_of old_key new_key D0 (root m)).

(** Disks on which the chunks [N] may be anything, and the old ones are as on [D0]. *)
Context (N : list string) (stage : Disk -> Prop).
Context (stage_insert : forall d n bs, n ∈ N -> stage d -> stage (<[n := bs]> d)).

Abbreviation at_job done := (fun d => stage d /\ written d done).

Lemma ensures_job done n bs (Q : list byte -> Prop) :
  n ∈ N -> n ∉ map fst done -> Q bs ->
  ensures (at_job done) (write_chunk_atomic n bs) (fun _ => at_job (done ++ [(n, Q)])) stage.
Proof.
  intros HN Hn HQ. apply ensures_named. intros d [Hs Hw]. cbn. split_and!; [done|by apply stage_insert|]. intros _ _.
  split; [by apply stage_insert|]. apply Forall_app. split; [by apply written_insert|].
  apply Forall_singleton. exists bs. cbn. by rewrite lookup_insert_eq.
Qed.

Lemma ensures_seal_job {A} `{SerdeLaw A} done n (x : A) :
  n ∈ N -> n ∉ map fst done ->
  ensures (at_job done) (bs ← seal x new_key (as_bytes n); write_chunk_atomic n bs)
    (fun _ => at_job (done ++ [(n, fun bs => opens_to new_key (as_bytes n) bs x)])) stage.
Proof.
  intros HN Hn. eapply ensures_bind; [apply (ensures_seal x new_key (as_bytes n) (at_job done)); by intros d [? _]|].
  intros bs. apply ensures_pure. intros Ho. by apply ensures_job.
Qed.

(** The names of the jobs to come are fresh, and allowed. *)
Definition fresh_jobs (done todo : list job) : Prop :=
  NoDup (map fst (done ++ todo)) /\ forall n, n ∈ map fst todo -> n ∈ N.

Lemma fresh_head done j todo : fresh_jobs done (j :: todo) -> fst j ∈ N /\ fst j ∉ map fst done /\ fresh_jobs (done ++ [j]) todo.
Proof.
  intros [Hnd HN]. split_and!.
  - apply HN. left.
  - rewrite map_app in Hnd. apply NoDup_app in Hnd as (_ & Hd & _). intros Hj. apply (Hd _ Hj). left.
  - split; [by rewrite <- app_assoc|]. intros n Hn. apply HN. by right.
Qed.

Lemma write_shards_ends v shards done ri todo :
  fresh_jobs done (map (shard_job v) shards ++ todo) ->
  ensures (at_job done) (write_rekey_shards new_key v shards ri)
    (fun ri' d => ri' = foldl (add_rekeyed v) ri shards /\ at_job (done ++ map (shard_job v) shards) d) stage.
Proof.
  revert done ri. induction shards as [|s shards IH]; intros done ri Hf; cbn [write_rekey_shards map foldl].
  - apply ensures_ret. intros d Hd. by rewrite app_nil_r.
  - cbn [map app] in Hf. apply fresh_head in Hf as (HN & Hn & Hf).
    set (n := shard_chunk_name new_key (sh_id s) 0) in *.
    pose proof (ensures_seal_job done n (rekey_shard v s) HN Hn) as Hj.
    intros w Hw. specialize (Hj w Hw). unfold mbind, IO_bind in *.
    destruct (seal _ _ _ w) as [[bs|e] w1]; [|done]. destruct (write_chunk_atomic n bs w1) as [[[]|e] w2]; [|done].
    specialize (IH _ (add_rekeyed v ri s) Hf w2 Hj). rewrite <- app_assoc in IH. exact IH.
Qed.

Lemma write_catalog_ends clk m done todo :
  let jobs := map (shard_job (version m)) (rekey_persistence_shards (later 1 clk) (root m)) ++ [root_job (rekeyed_index clk m)] in
  fresh_jobs done (jobs ++ todo) ->
  ensures (at_job done) (write_full_catalog_for_rekey clk new_key m) (fun _ => at_job (done ++ jobs)) stage.
Proof.
  cbv zeta. rewrite <- app_assoc. intros Hf. unfold write_full_catalog_for_rekey.
  eapply ensures_bind; [by eapply write_shards_ends|]. intros ri. apply ensures_when. intros ->. fold (rekeyed_index clk m).
  assert (fresh_jobs (done ++ map (shard_job (version m)) (rekey_persistence_shards (later 1 clk) (root m)))
            (root_job (rekeyed_index clk m) :: todo)) as Hf'.
  { destruct Hf as [Hnd HN]. split; [by rewrite <- app_assoc|]. intros n Hn. apply HN. rewrite map_app, elem_of_app. by right. }
  apply fresh_head in Hf' as (HN & Hn & _). rewrite app_assoc. by apply ensures_seal_job.
Qed.

Context (stage_old : forall d n, stage d -> n ∉ N -> valid_name n = true -> d !! n = D0 !! n).

Lemma copy_chunk_ends done p :
  cp_new p ∈ N -> cp_new p ∉ map fst done -> cp_old p ∉ N -> valid_name (cp_old p) = true ->
  ensures (at_job done) (copy_chunk old_key new_key p) (fun _ => at_job (done ++ [pair_job p])) stage.
Proof.
  intros HN Hn Ho Hv. unfold copy_chunk.
  eapply ensures_bind; [apply (ensures_read (at_job done)); by intros d [? _]|]. intros enc.
  apply ensures_known. intros d [[Hs Hw] Hd]. rewrite (stage_old d _ Hs Ho Hv) in Hd.
  eapply ensures_bind; [apply (ensures_lift (eq d)); by intros ? <-|]. intros plain. apply ensures_pure. intros Hp.
  eapply ensures_bind; [apply (ensures_encrypt plain new_key (as_bytes (cp_new p)) (eq d)); by intros ? <-|]. intros bs.
  apply ensures_pure. intros Hb. eapply (ensures_conseq _ (at_job done)); [apply (ensures_job done _ _ (snd (pair_job p))); [done..|]|by intros ? <-|done].
  cbn. eauto 10.
Qed.

Lemma copy_pairs_ends cancel ps done asked todo :
  fresh_jobs done (map pair_job ps ++ todo) -> (forall p, p ∈ ps -> cp_old p ∉ N /\ valid_name (cp_old p) = true) ->
  ensures (at_job done) (copy_pairs cancel old_key new_key ps asked) (fun _ => at_job (done ++ map pair_job ps)) stage.
Proof.
  revert done asked. induction ps as [|p ps IH]; intros done asked Hf Hps; cbn [copy_pairs map].
  - apply ensures_ret. intros d Hd. by rewrite app_nil_r.
  - cbn [map app] in Hf. apply fresh_head in Hf as (HN & Hn & Hf). destruct (Hps p) as [Ho Hd]; [left|].
    eapply ensures_seq; [by apply copy_chunk_ends|]. eapply ensures_seq; [apply ensures_check; by intros d [? _]|].
    eapply ensures_conseq; [apply (IH (done ++ [pair_job p]))|done|].
    + done.
    + intros q Hq. apply Hps. by right.
    + intros a d Hx. by rewrite <- app_assoc in Hx.
Qed.

Lemma write_new_chunks_ends `{Serde RekeyDerivativeRecord} clk cancel m mf :
  fits old_key new_key clk (root m) D0 mf -> fresh_jobs [] (rekey_jobs clk m) ->
  (forall p, p ∈ rm_blobs mf ++ rm_otps mf -> cp_old p ∉ N /\ valid_name (cp_old p) = true) ->
  ensures stage (write_new_chunks clk cancel old_key new_key m mf) (fun _ => at_job (rekey_jobs clk m)) stage.
Proof.
  intros Hft Hf Hps. rewrite (ft_blobs _ _ _ _ _ _ Hft), (ft_otps _ _ _ _ _ _ Hft) in Hps.
  unfold write_new_chunks. rewrite (ft_blobs _ _ _ _ _ _ Hft), (ft_otps _ _ _ _ _ _ Hft).
  unfold rekey_jobs in Hf |- *. set (js := map (shard_job (version m)) _) in *. set (rj := root_job _) in *.
  set (bp := blob_pairs_of _ _ _ _) in *. set (op := otp_pairs_of _ _ _ _) in *.
  apply (ensures_seq _ _ _ stage); [by apply ensures_check|].
  apply (ensures_seq _ _ _ (at_job (js ++ [rj]))).
  { eapply ensures_conseq; [apply (write_catalog_ends clk m [] (map pair_job bp ++ map pair_job op))| |done].
    - fold js rj. by rewrite <- app_assoc.
    - intros d Hs. split; [done|apply Forall_nil; exact I]. }
  apply (ensures_seq _ _ _ (at_job (js ++ [rj]))); [apply ensures_check; by intros d [? _]|].
  eapply ensures_bind; [apply (copy_pairs_ends cancel bp (js ++ [rj]) 2 (map pair_job op))|].
  { destruct Hf as [Hnd HN]. split; [by rewrite <- app_assoc|]. intros n Hn. apply HN. rewrite !map_app, !elem_of_app in *. tauto. }
  { intros p Hp. apply Hps, elem_of_app. by left. }
  intros asked. cbn beta. eapply ensures_seq.
  { eapply (copy_pairs_ends cancel op ((js ++ [rj]) ++ map pair_job bp) asked []).
    - destruct Hf as [Hnd HN]. split; [by rewrite app_nil_r, <- !app_assoc|]. intros n Hn. apply HN.
      rewrite app_nil_r in Hn. rewrite !map_app, !elem_of_app. tauto.
    - intros p Hp. apply Hps, elem_of_app. by right. }
  apply ensures_ret. intros d [Hs Hw]. split; [done|]. by rewrite <- !app_assoc in Hw.
Qed.
End Write.
