(* ===== verification/RekeySafe.v ===== *)
(** * A change of the password survives faults and crashes

    Wherever the change stops, and however often the recovery that an unlock with the old or
    the new key runs is interrupted, the vault is whole under one of the keys: under the old
    one as it was before, or under the new one with a catalog and chunks of the same
    content. *)

From Stdlib Require Import Strings.Byte Ascii String.
From stdpp Require Import base countable gmap strings list sorting.
From S2P Require Import Prelude.
From S2P Require Import CatalogNode.
From S2P Require Import CatalogManager.
From S2P Require Import CatalogTree.
From S2P Require Import CatalogDelta.
From S2P Require Import CatalogShard.
From S2P Require Import Bytes.
From S2P Require Import Storage.
From S2P Require Import Crypto.
From S2P Require Import IoLogic.
From S2P Require Import DurableTx.
From S2P Require Import CatalogCommit.
From S2P Require Import CatalogLoad.
From S2P Require Import CatalogCompact.
From S2P Require Import CatalogSave.
From S2P Require Import SaveSafety.
From S2P Require Import SaveSpec.
From S2P Require Import CatalogSession.
From S2P Require Import Footprint.
From S2P Require Import FileReplace.
From S2P Require Import ChunkBatch.
From S2P Require Import StorageGc.
From S2P Require Import Artifacts.
From S2P Require Import Rekey.
From S2P Require Import RekeySpec.
Open Scope Z_scope.

Abbreviation bin := (file_name RekeyTransactionV2).
Abbreviation legacy := (file_name RekeyTransactionMarker).

(** ** The marker *)

Section Marker.
Context `{cr : Crypto} {crl : CryptoLaws cr}.
Context `{SerdeLaw EncryptedRekeyMarkerV2, SerdeLaw RekeyMarkerPayloadV2, Serde RekeyTransaction}.

(** What a key makes of the bytes of a marker. *)
Definition marker_of (key bs : list byte) : result Error (option RekeyTransaction) :=
  match from_slice bs with
  | None => Ok None
  | Some marker =>
      if negb (mv_version marker =? REKEY_MARKER_V2_VERSION) || negb (String.eqb (mv_kind marker) REKEY_MARKER_V2_KIND)
      then Ok None else open_recipient key [mv_old_recipient marker; mv_new_recipient marker]
  end.

Lemma load_marker_is key d :
  ensures (eq d) (load_encrypted_rekey_marker_for_key key)
    (fun o d' => d' = d /\ match d !! bin with None => o = None | Some bs => marker_of key bs = Ok o end) (eq d).
Proof.
  unfold load_encrypted_rekey_marker_for_key. eapply ensures_bind; [apply read_artifact_is|]. intros o.
  apply ensures_known. intros d1 [-> ->]. destruct (d !! bin) as [bs|]; [|by apply ensures_ret; intros ? <-].
  unfold marker_of. destruct (from_slice bs) as [marker|]; [|by apply ensures_ret; intros ? <-].
  destruct (_ || _); [by apply ensures_ret; intros ? <-|].
  eapply ensures_conseq; [by apply (ensures_lift (eq d))|done|]. by intros o d' [<- ?].
Qed.

(** A message sealed under one key does not open under another. *)
Definition foreign (key other : list byte) : Prop :=
  forall nonce msg c, aead_encrypt key nonce REKEY_MARKER_V2_AAD msg = Some c -> aead_decrypt other nonce REKEY_MARKER_V2_AAD c = None.

Lemma ensures_encrypt_foreign plain key other (P C : Disk -> Prop) :
  foreign key other -> (forall d, P d -> C d) ->
  ensures P (encrypt plain key REKEY_MARKER_V2_AAD)
    (fun bs d => P d /\ decrypt bs key REKEY_MARKER_V2_AAD = Ok plain /\ is_ok (decrypt bs other REKEY_MARKER_V2_AAD) = false) C.
Proof.
  intros Hfo HC. unfold encrypt.
  apply (ensures_bind _ _ _ (fun nonce d => P d /\ length nonce = NONCE_SIZE)).
  { intros w Hw. pose proof (triple_getrandom P C HC w Hw) as Hr. unfold io_map_err, attempt, mbind, IO_bind.
    destruct (getrandom w) as [[n|[e|]] w']; cbn; destruct Hr as [Hr ?]; try done. by destruct Hr. }
  intros nonce. apply ensures_pure. intros Hn. eapply ensures_bind; [by apply ensures_lift|].
  intros c. apply ensures_pure. intros Hc%ok_or_Ok_inv. apply ensures_ret. intros d Hd. split; [done|].
  split; [by apply decrypt_of_encrypted|]. unfold decrypt. destruct (_ <? _)%nat; [done|].
  rewrite take_app_length', drop_app_length' by done. by rewrite (Hfo _ _ _ Hc).
Qed.

(** Both keys find [t] in the marker. *)
Definition marks (old_key new_key bs : list byte) (t : RekeyTransaction) : Prop :=
  marker_of old_key bs = Ok (Some t) /\ marker_of new_key bs = Ok (Some t).

Lemma write_marker_ends old_key new_key t (P C : Disk -> Prop) :
  foreign old_key new_key -> rk_version t = REKEY_TX_VERSION ->
  (forall d, P d -> C d) -> (forall d bs, P d -> marks old_key new_key bs t -> C (<[bin := bs]> d)) ->
  ensures P (write_rekey_marker old_key new_key t)
    (fun _ d => exists d0 bs, P d0 /\ d = <[bin := bs]> d0 /\ marks old_key new_key bs t) C.
Proof.
  intros Hfo Hv HC HC'. unfold write_rekey_marker.
  eapply ensures_bind; [by apply ensures_lift|]. intros payload. apply ensures_pure. intros Hp%ok_or_Ok_inv%from_to_vec.
  eapply ensures_bind; [by apply (ensures_encrypt_foreign payload old_key new_key P)|]. intros c1.
  apply ensures_pure. intros [Ho1 Ho2].
  eapply ensures_bind; [by apply (ensures_encrypt payload new_key REKEY_MARKER_V2_AAD P)|]. intros c2. apply ensures_pure. intros Hn.
  eapply ensures_bind; [by apply ensures_lift|]. intros bytes. apply ensures_pure. intros Hb%ok_or_Ok_inv%from_to_vec.
  assert (marks old_key new_key bytes t) as Hm.
  { assert (into_transaction (payload_from t) = Ok t) as Hi.
    { unfold into_transaction, payload_from. cbn. rewrite Hv. by destruct t; cbn in *; subst. }
    unfold marks, marker_of. rewrite Hb. cbn [mv_version mv_kind mv_old_recipient mv_new_recipient].
    rewrite Z.eqb_refl, String.eqb_refl. cbn [negb orb open_recipient]. rewrite Ho1, Hn.
    destruct (decrypt c1 new_key _); [done|]. cbn [mbind result_bind]. rewrite Hp. cbn. by rewrite Hi. }
  eapply ensures_conseq; [apply (write_artifact_ends RekeyTransactionV2 bytes P C); auto|done|].
  intros _u d (d0 & Hd & ->). eauto 10.
Qed.
End Marker.

(** ** Footprints *)

Lemma ensures_fp {A} F (c : IO A) (P R : Disk -> Prop) :
  footprint F c (fun _ => True) -> (forall d d', P d -> same_outside F d d' -> R d') -> ensures P c (fun _ => R) R.
Proof. intros Hc HR w Hw. specialize (Hc w). destruct (c w) as [[a|e] w']; destruct Hc as [Ho _]; eauto. Qed.

(** A name that is no chunk name is refused, so nothing happens to it. *)
Lemma fp_delete_valid (F : string -> Prop) n : (valid_name n = true -> F n) -> footprint F (delete_chunk n) (fun _ => True).
Proof.
  intros Hn. destruct (valid_name n) eqn:E; [by apply fp_delete, Hn|].
  intros w. unfold valid_name in E. unfold delete_chunk, chunk_path, mbind, IO_bind, io_lift.
  destruct (validate_chunk_name n); [done|]. cbn. by split.
Qed.

Lemma fp_delete_ignoring (F : string -> Prop) ns :
  (forall n, n ∈ ns -> valid_name n = true -> F n) -> footprint F (delete_ignoring ns) (fun _ => True).
Proof.
  induction ns as [|n ns IH]; intros Hn; cbn [delete_ignoring]; fp.
  - apply fp_delete_valid, Hn. left.
  - apply IH. intros m Hm. apply Hn. by right.
Qed.

Lemma fp_delete_existing (F : string -> Prop) ns k :
  (forall n, n ∈ ns -> valid_name n = true -> F n) -> footprint F (delete_existing ns k) (fun _ => True).
Proof.
  revert k. induction ns as [|n ns IH]; intros k Hn; cbn [delete_existing]; fp.
  - apply fp_delete_valid, Hn. left.
  - apply IH. intros m Hm. apply Hn. by right.
  - apply IH. intros m Hm. apply Hn. by right.
Qed.

Lemma fp_rekey_delete (F : string -> Prop) ns :
  (forall n, n ∈ ns -> valid_name n = true -> F n) -> footprint F (rekey_delete_chunks ns) (fun _ => True).
Proof. intros Hn. apply fp_delete_existing. intros n Hin Hv. apply Hn; [by apply elem_of_unique_names|done]. Qed.

Lemma fp_require F ns : footprint F (require_chunks ns) (fun _ => True).
Proof. induction ns as [|n ns IH]; cbn [require_chunks]; fp. Qed.

Lemma fp_artifact_delete (F : string -> Prop) a : F (file_name a) -> footprint F (remove_artifact a) (fun _ => True).
Proof.
  intros Ha. unfold remove_artifact, sync_artifact_parent, backend_call.
  apply fp_then; [|intros _u; apply fp_then; [by apply fp_call|intros _v; apply fp_sync]].
  apply fp_call; [|done]. intros d n Hn. cbn. apply lookup_delete_ne. intros E. by rewrite <- E in Hn.
Qed.

(** What [rekey_delete_chunks] is asked to delete is gone afterwards, if it says so. *)
Lemma delete_existing_ends (P : Disk -> Prop) ns k gone :
  (forall d n, n ∈ ns -> valid_name n = true -> P d -> P (delete n d)) ->
  ensures (fun d => P d /\ forall n, n ∈ gone -> d !! n = None) (delete_existing ns k)
    (fun _ d => P d /\ forall n, n ∈ gone ++ ns -> d !! n = None) P.
Proof.
  revert k gone. induction ns as [|n ns IH]; intros k gone HP; cbn [delete_existing].
  { apply ensures_ret. intros d Hd. by rewrite app_nil_r. }
  assert (forall k', ensures (fun d => P d /\ forall x, x ∈ gone ++ [n] -> d !! x = None) (delete_existing ns k')
       (fun _ d => P d /\ forall x, x ∈ gone ++ n :: ns -> d !! x = None) P) as Hrest.
  { intros k'. eapply ensures_conseq; [apply (IH k' (gone ++ [n]))|done|].
    - intros d x Hx. apply HP. by right.
    - intros _u d Hd. by rewrite <- app_assoc in Hd. }
  eapply ensures_bind; [apply ensures_exists; by intros d [? _]|]. intros b.
  apply ensures_known. intros d [[Hd Hg] ->]. case_bool_decide as Hb.
  - apply (ensures_seq _ _ _ (fun d => P d /\ forall x, x ∈ gone ++ [n] -> d !! x = None)); [|apply Hrest].
    unfold delete_chunk. eapply ensures_bind; [apply (ensures_lift (eq d)); by intros ? <-|]. intros p. apply ensures_pure. intros Hp.
    assert (valid_name n = true) as Hv.
    { unfold valid_name, chunk_path in *. by destruct (validate_chunk_name n). }
    apply ensures_call. intros ? <-. cbn. assert (P (delete n d)) by (apply HP; [left|done..]). split_and!; [done..|].
    intros _ _. split; [done|]. intros x [Hx| ->%list_elem_of_singleton]%elem_of_app; [|apply lookup_delete_eq].
    destruct (decide (x = n)) as [->|]; [apply lookup_delete_eq|]. rewrite lookup_delete_ne by done. auto.
  - eapply ensures_conseq; [apply (Hrest k)| |done]. intros ? <-. split; [done|].
    intros x [Hx| ->%list_elem_of_singleton]%elem_of_app; [auto|]. by apply eq_None_not_Some.
Qed.

(** ** Names *)

Section Names.
Context `{cr : Crypto} {crl : CryptoLaws cr}.
Context `{Serde RootIndex, Serde Shard, Serde RekeyDerivativeRecord}.
Context (old_key new_key : list byte) (D0 : Disk) (clk : clock) (m : CatalogManager).

(** The chunks to copy. *)
Definition rekey_pairs : list ChunkPair :=
  blob_pairs_of old_key new_key D0 (root m) ++ otp_pairs_of old_key new_key D0 (root m).
(** What the change may write, and what it may delete. *)
Definition new_names : list string := map fst (rekey_jobs old_key new_key D0 clk m).
Definition old_names : list string := old_catalog_of old_key D0 ++ map cp_old rekey_pairs ++ derivatives_of old_key D0.

Lemma tree_pairs_all (P : ChunkPair -> Prop) own t :
  (forall t p, p ∈ own t -> P p) -> forall p, p ∈ tree_pairs own t -> P p.
Proof.
  intros Hown. induction t as [t IH] using node_ind. rewrite Forall_forall in IH. intros p. rewrite tree_pairs_eq.
  intros [Hp|(c & Hc & Hp)%elem_of_concat_map]%elem_of_app; eauto.
Qed.

Lemma rekey_pair_valid p : p ∈ rekey_pairs -> valid_name (cp_old p) = true /\ valid_name (cp_new p) = true.
Proof.
  intros [Hp%filter_subset|Hp%filter_subset]%elem_of_app; revert p Hp; apply tree_pairs_all; intros t p.
  - unfold own_blob_pairs. destruct (is_file t); [|by intros ?%elem_of_nil].
    intros (i & -> & _)%list_elem_of_fmap. split; apply chunk_name_u64_valid.
  - intros ->%list_elem_of_singleton. cbn [own_otp_pair cp_new cp_old]. split; apply chunk_name_valid.
Qed.

Lemma new_names_are n :
  n ∈ new_names <-> n = root_index_chunk_name new_key 0
    \/ (exists s, s ∈ rekey_persistence_shards (later 1 clk) (root m) /\ n = shard_chunk_name new_key (sh_id s) 0)
    \/ exists p, p ∈ rekey_pairs /\ n = cp_new p.
Proof.
  unfold new_names, rekey_jobs, rekey_pairs. rewrite !map_app, !map_map.
  change (map fst [root_job new_key (rekeyed_index clk m)]) with [root_index_chunk_name new_key 0].
  rewrite !elem_of_app, list_elem_of_singleton, !list_elem_of_fmap. setoid_rewrite elem_of_app.
  cbn [shard_job pair_job fst]. naive_solver.
Qed.

Lemma new_name_valid n : n ∈ new_names -> valid_name n = true.
Proof.
  intros [->|[(s & _ & ->)|(p & Hp & ->)]]%new_names_are; [apply chunk_name_valid..|by apply rekey_pair_valid].
Qed.

Lemma eager_ids_clock clk1 clk2 ids next ss1 ss2 :
  map sh_id ss1 = map sh_id ss2 ->
  map sh_id (add_eager_shards clk1 ids ss1 next) = map sh_id (add_eager_shards clk2 ids ss2 next).
Proof.
  revert clk1 clk2 next ss1 ss2. induction ids as [|id ids IH]; intros clk1 clk2 next ss1 ss2 E; cbn [add_eager_shards]; [done|].
  assert (forall ss, existsb (fun s => String.eqb (sh_id s) id) ss = existsb (fun i => String.eqb i id) (map sh_id ss)) as Hb.
  { induction ss as [|x ss IHs]; cbn; [done|]. by rewrite IHs. }
  rewrite !Hb, E. destruct (existsb _ _); [by apply IH|]. apply IH. rewrite !map_app, E. done.
Qed.

Lemma shard_ids_clock clk1 clk2 t :
  map sh_id (rekey_persistence_shards clk1 t) = map sh_id (rekey_persistence_shards clk2 t).
Proof. by apply eager_ids_clock. Qed.

(** The manifest names what the change writes. *)
Lemma fits_new mf n : fits old_key new_key clk (root m) D0 mf -> n ∈ new_durable_chunks mf <-> n ∈ new_names.
Proof.
  intros Hf. unfold new_durable_chunks. rewrite elem_of_unique_names, (ft_new _ _ _ _ _ _ Hf), (ft_blobs _ _ _ _ _ _ Hf), (ft_otps _ _ _ _ _ _ Hf).
  rewrite <- map_app, elem_of_app, elem_of_unique_names. unfold new_catalog_chunk_names. rewrite elem_of_unique_names, elem_of_cons.
  assert (map (fun s => shard_chunk_name new_key (sh_id s) 0) (rekey_persistence_shards clk (root m))
          = map (fun s => shard_chunk_name new_key (sh_id s) 0) (rekey_persistence_shards (later 1 clk) (root m))) as ->.
  { rewrite <- !(map_map sh_id (fun i => shard_chunk_name new_key i 0)). by rewrite (shard_ids_clock clk (later 1 clk)). }
  rewrite new_names_are, !list_elem_of_fmap. unfold rekey_pairs. naive_solver.
Qed.

Lemma fits_old mf n : fits old_key new_key clk (root m) D0 mf -> n ∈ old_durable_chunks mf -> n ∈ old_names.
Proof.
  intros Hf. unfold old_durable_chunks, old_names. rewrite elem_of_unique_names, (ft_blobs _ _ _ _ _ _ Hf), (ft_otps _ _ _ _ _ _ Hf), <- map_app.
  rewrite !elem_of_app. intros [?%(ft_old _ _ _ _ _ _ Hf)|?]; auto.
Qed.

Lemma fits_gone mf n :
  fits old_key new_key clk (root m) D0 mf ->
  (n = root_index_chunk_name old_key 0 /\ is_Some (D0 !! n)) \/ n ∈ map cp_old rekey_pairs -> n ∈ old_durable_chunks mf.
Proof.
  intros Hf. unfold old_durable_chunks. rewrite elem_of_unique_names, (ft_blobs _ _ _ _ _ _ Hf), (ft_otps _ _ _ _ _ _ Hf), <- map_app.
  rewrite elem_of_app. intros [[-> Hr]|Hn]; [left; by apply (ft_root _ _ _ _ _ _ Hf)|by right].
Qed.

Lemma fits_derivative mf n : fits old_key new_key clk (root m) D0 mf -> n ∈ unique (rm_derivatives mf) -> n ∈ old_names.
Proof. intros Hf. rewrite elem_of_unique_names. intros ?%(ft_derivatives _ _ _ _ _ _ Hf). unfold old_names. rewrite !elem_of_app. auto. Qed.
End Names.

(** ** The states of a change *)

Section Change.
Context `{cr : Crypto} {crl : CryptoLaws cr}.
Context `{SerdeLaw RootIndex, SerdeLaw Shard, SerdeLaw DeltaEntry,
          Serde CatalogCommitRecord, SerdeLaw (DurableTxRecord CatalogCommitRecord)}.
Context `{Serde RekeyDerivativeRecord, SerdeLaw EncryptedRekeyMarkerV2, SerdeLaw RekeyMarkerPayloadV2, Serde RekeyTransaction}.
Context (old_key new_key : list byte) (D0 : Disk) (clk : clock) (m : CatalogManager).
Abbreviation JOBS := (rekey_jobs old_key new_key D0 clk m).
Abbreviation NEW := (new_names old_key new_key D0 clk m).
Abbreviation OLD := (old_names old_key new_key D0 m).

(** No other change is pending, the vault was saved, no save was interrupted, the names do not collide, and
    the keys are really different. *)
Record rekey_ready : Prop := {
  rr_foreign : foreign old_key new_key;
  rr_idle : D0 !! bin = None;
  rr_root : is_Some (D0 !! root_index_chunk_name old_key 0);
  rr_fresh : NoDup NEW;
  rr_apart n : n ∈ OLD -> n ∉ NEW;
  rr_saved key : key = old_key \/ key = new_key ->
    D0 !! catalog_commit_chunk_name key = None /\ catalog_commit_chunk_name key ∉ NEW ++ OLD;
  rr_version : 0 <= version m < U64_MAX;
}.
Context (ready : rekey_ready).

Definition is_marker (n : string) : Prop := n = bin \/ n = legacy.

(** The marker, if any, holds a transaction with [good]. *)
Definition marked_by (good : RekeyTransaction -> Prop) (d : Disk) : Prop :=
  forall bs, d !! bin = Some bs -> exists t, marks old_key new_key bs t /\ good t.

Definition may_roll_back (t : RekeyTransaction) : Prop :=
  rk_version t = REKEY_TX_VERSION /\ rk_phase t = Staging /\ forall n, n ∈ rk_new_chunks t -> n ∈ NEW.
Definition may_clean (t : RekeyTransaction) : Prop :=
  rk_version t = REKEY_TX_VERSION /\ rk_phase t = Committing
  /\ (forall n, n ∈ rk_new_chunks t -> n ∈ NEW) /\ forall n, n ∈ rk_old_chunks t ++ rk_derivative_chunks t -> n ∈ OLD.

(** Only new chunks and the markers differ. *)
Definition Staged (d : Disk) : Prop :=
  same_outside (fun n => n ∈ NEW \/ is_marker n) D0 d /\ marked_by may_roll_back d.
(** All new chunks are written; old ones may be gone. *)
Definition Done (d : Disk) : Prop :=
  same_outside (fun n => n ∈ NEW \/ n ∈ OLD \/ is_marker n) D0 d /\ marked_by may_clean d /\ written d JOBS.

Lemma new_no_marker n : n ∈ NEW -> ~ is_marker n.
Proof. intros Hn%new_name_valid [->| ->]; by eapply chunk_no_artifact. Qed.

Lemma marked_same good d d' : d' !! bin = d !! bin -> marked_by good d -> marked_by good d'.
Proof. intros E Hm bs Hbs. apply Hm. by rewrite <- E. Qed.

Lemma marked_none good d : d !! bin = None -> marked_by good d.
Proof. intros E bs Hbs. by rewrite E in Hbs. Qed.

(** A step of the roll back or of the writing. *)
Lemma Staged_step d d' : Staged d -> same_outside (fun n => n ∈ NEW \/ n = legacy) d d' -> Staged d'.
Proof.
  intros [Hs Hm] Hd. split.
  - intros n Hn. rewrite Hd by (unfold is_marker in Hn; tauto). by apply Hs.
  - eapply marked_same; [|done]. apply Hd. intros [Hn%new_no_marker|?]; [|done]. apply Hn. by left.
Qed.

Lemma Staged_insert d n bs : n ∈ NEW -> Staged d -> Staged (<[n := bs]> d).
Proof.
  intros Hn Hd. eapply Staged_step; [done|]. intros x Hx. apply lookup_insert_ne. intros ->. tauto.
Qed.

Lemma Staged_old d n : Staged d -> n ∉ NEW -> valid_name n = true -> d !! n = D0 !! n.
Proof. intros [Hs _] Hn Hv. apply Hs. intros [?|[->| ->]]; [done|by eapply chunk_no_artifact..]. Qed.

Lemma Staged_unmark d : Staged d -> Staged (delete bin d).
Proof.
  intros [Hs Hm]. split; [|apply marked_none, lookup_delete_eq].
  intros n Hn. rewrite lookup_delete_ne; [by apply Hs|]. intros <-. apply Hn. right. by left.
Qed.

Lemma Staged_mark d bs t : Staged d -> marks old_key new_key bs t -> may_roll_back t -> Staged (<[bin := bs]> d).
Proof.
  intros [Hs Hm] Ht Hr. split.
  - intros n Hn. rewrite lookup_insert_ne; [by apply Hs|]. intros <-. apply Hn. right. by left.
  - intros b Hb. rewrite lookup_insert_eq in Hb. injection Hb as <-. eauto.
Qed.

(** A step of the clean up. *)
Lemma Done_step d d' : Done d -> same_outside (fun n => (n ∈ OLD /\ valid_name n = true) \/ n = legacy) d d' -> Done d'.
Proof.
  intros (Hs & Hm & Hw) Hd. split_and!.
  - intros n Hn. rewrite Hd by (unfold is_marker in Hn; tauto). by apply Hs.
  - eapply marked_same; [|done]. apply Hd. intros [[_ Hv]|?]; [|done]. by eapply chunk_no_artifact.
  - eapply written_same; [|done]. intros n Hn. apply Hd. intros [[Ho _]| ->]; [by eapply (rr_apart ready)|].
    eapply new_no_marker; [done|by right].
Qed.

Lemma Done_unmark d : Done d -> Done (delete bin d).
Proof.
  intros (Hs & Hm & Hw). split_and!; [|apply marked_none, lookup_delete_eq|].
  - intros n Hn. rewrite lookup_delete_ne; [by apply Hs|]. intros <-. apply Hn. do 2 right. by left.
  - eapply written_same; [|done]. intros n Hn. apply lookup_delete_ne. intros <-. eapply new_no_marker; [done|by left].
Qed.

Lemma Staged_Done d bs t :
  Staged d -> written d JOBS -> marks old_key new_key bs t -> may_clean t -> Done (<[bin := bs]> d).
Proof.
  intros [Hs Hm] Hw Ht Hr. split_and!.
  - intros n Hn. rewrite lookup_insert_ne; [apply Hs; tauto|]. intros <-. apply Hn. do 2 right. by left.
  - intros b Hb. rewrite lookup_insert_eq in Hb. injection Hb as <-. eauto.
  - apply written_insert; [|done]. intros Hn. eapply new_no_marker; [done|by left].
Qed.

(** ** Recovery *)

Lemma delete_marker_ends (St : Disk -> Prop) :
  (forall d d', St d -> same_outside (fun n => n = legacy) d d' -> St d') -> (forall d, St d -> St (delete bin d)) ->
  ensures St delete_rekey_marker (fun _ d => St d /\ d !! bin = None) St.
Proof.
  intros Hl Hb. unfold delete_rekey_marker, artifact_delete. apply (ensures_seq _ _ _ St).
  - apply (ensures_fp (fun n => n = legacy)); [by apply fp_artifact_delete|done].
  - eapply ensures_conseq; [apply remove_artifact_ends|done|].
    + intros d Hd. split; [done|by apply Hb].
    + intros _u d (d0 & Hd & ->). split; [by apply Hb|apply lookup_delete_eq].
Qed.

Lemma recover_record_ends (F : string -> Prop) (St : Disk -> Prop) t :
  rk_version t = REKEY_TX_VERSION -> F legacy ->
  (match rk_phase t with
   | Staging => forall n, n ∈ rk_new_chunks t -> valid_name n = true -> F n
   | Committing => forall n, n ∈ rk_old_chunks t ++ rk_derivative_chunks t -> valid_name n = true -> F n
   end) ->
  (forall d d', St d -> same_outside F d d' -> St d') -> (forall d, St d -> St (delete bin d)) ->
  ensures St (recover_transaction_record t) (fun _ d => St d /\ d !! bin = None) St.
Proof.
  intros Hv Hl Hn HF Hb. unfold recover_transaction_record. apply (ensures_seq _ _ _ St).
  - eapply ensures_fp; [|done]. unfold artifact_recover_record, validate_participant_record, recover_participant_record.
    cbn -[REKEY_TX_VERSION]. rewrite Hv. cbn -[unique]. apply fp_then; [apply fp_then|].
    + destruct (rk_phase t); [by apply fp_delete_ignoring|]. setoid_rewrite elem_of_app in Hn.
      apply fp_then; [apply fp_require|]. intros _u. apply fp_then; [apply fp_rekey_delete; eauto|]. intros _v.
      apply fp_then; [apply fp_rekey_delete; eauto|]. intros _w. by apply fp_ret.
    + intros _u. apply fp_sync.
    + intros _u. by apply fp_artifact_delete.
  - apply delete_marker_ends; [|done]. intros d d' Hd Hs. apply (HF d); [done|].
    intros n HnF. apply Hs. by intros ->.
Qed.

Lemma recover_keeps (St : Disk -> Prop) (good : RekeyTransaction -> Prop) key :
  key = old_key \/ key = new_key ->
  (forall d, St d -> marked_by good d) ->
  (forall t, good t -> ensures St (recover_transaction_record t) (fun _ d => St d /\ d !! bin = None) St) ->
  ensures St (recover_rekey_marker_for_key key) (fun _ d => St d /\ d !! bin = None) St.
Proof.
  intros Hk Hm Hr. unfold recover_rekey_marker_for_key. apply ensures_known. intros d Hd.
  eapply ensures_bind; [eapply ensures_crash; [apply load_marker_is|by intros ? <-]|]. intros o.
  apply ensures_known. intros d1 [-> Ho]. destruct (d !! bin) as [bs|] eqn:E.
  - destruct (Hm d Hd bs E) as (t & [Ho1 Ho2] & Hg).
    assert (o = Some t) as -> by (destruct Hk as [->| ->]; congruence).
    eapply ensures_conseq; [by apply Hr|by intros ? <-|done].
  - subst o. apply ensures_ret. by intros ? <-.
Qed.

Lemma recover_Staged key :
  key = old_key \/ key = new_key -> ensures Staged (recover_rekey_marker_for_key key) (fun _ d => Staged d /\ d !! bin = None) Staged.
Proof.
  intros Hk. apply (recover_keeps _ may_roll_back); [done|by intros d [_ ?]|].
  intros t (Hv & Hp & Hn). apply (recover_record_ends (fun n => n ∈ NEW \/ n = legacy)); [done|by right| | |apply Staged_unmark].
  - rewrite Hp. auto.
  - apply Staged_step.
Qed.

Lemma recover_Done key :
  key = old_key \/ key = new_key -> ensures Done (recover_rekey_marker_for_key key) (fun _ d => Done d /\ d !! bin = None) Done.
Proof.
  intros Hk. apply (recover_keeps _ may_clean); [done|by intros d (_ & ? & _)|].
  intros t (Hv & Hp & _ & Hn). apply (recover_record_ends (fun n => (n ∈ OLD /\ valid_name n = true) \/ n = legacy)); [done|by right| | |apply Done_unmark].
  - rewrite Hp. auto.
  - apply Done_step.
Qed.
(** ** The change *)

Lemma fp_try_load F key clk' clks : footprint F (try_load_sharded_catalog key clk' clks) (fun _ => True).
Proof.
  assert (forall id from to qs l, footprint F (read_deltas key id from to qs l) (fun _ => True)) as Hd.
  { intros id from to qs. induction qs as [|q qs IH]; intros l; cbn [read_deltas]; fp. }
  assert (forall metas clks, footprint F (load_shards key clks metas) (fun _ => True)) as Hs.
  { intros metas. induction metas as [|meta metas IH]; intros clks'; cbn [load_shards];
      unfold load_full_shard_from_meta, read_shard_snapshot_strict, apply_persisted_deltas_with_guard; fp; first [apply Hd|apply IH]. }
  unfold try_load_sharded_catalog, read_sharded_root_index_strict. fp.
Qed.

Lemma fp_validate F clk' clks s : footprint F (validate_rekeyed_catalog clk' clks s new_key) (fun _ => True).
Proof. unfold validate_rekeyed_catalog. apply fp_then; [apply fp_try_load|]. fp. Qed.

Abbreviation Safe := (fun d => Staged d \/ Done d).

Lemma write_ends mf cancel :
  fits old_key new_key clk (root m) D0 mf ->
  ensures Staged (write_new_chunks clk cancel old_key new_key m mf) (fun _ d => Staged d /\ written d JOBS) Staged.
Proof.
  intros Hf. eapply (write_new_chunks_ends old_key new_key D0 NEW Staged); [|by intros; apply Staged_old|exact Hf| |].
  - intros d n bs. apply Staged_insert.
  - split; [apply ready|done].
  - rewrite (ft_blobs _ _ _ _ _ _ Hf), (ft_otps _ _ _ _ _ _ Hf). intros p Hp. split; [|by apply (rekey_pair_valid old_key new_key D0 m)].
    apply ready. unfold old_names. rewrite !elem_of_app. right. left. by apply list_elem_of_fmap_2.
Qed.

(** The copies, with the roll back when one fails. *)
Lemma copy_or_roll_back mf cancel :
  fits old_key new_key clk (root m) D0 mf ->
  ensures Staged
    (catch (write_new_chunks clk cancel old_key new_key m mf)
       (fun error => rollback_staged_chunks (new_durable_chunks mf);; ignore delete_rekey_marker;; io_throw error) mret)
    (fun _ d => Staged d /\ written d JOBS) Staged.
Proof.
  intros Hf. unfold catch. eapply ensures_bind; [apply ensures_attempt, (write_ends mf cancel Hf)|].
  intros [[]|e]; [by apply ensures_ret|].
  apply (ensures_seq _ _ _ Staged).
  { apply (ensures_fp (fun n => n ∈ NEW \/ n = legacy)); [|apply Staged_step].
    apply fp_delete_ignoring. intros n Hn _. left. by apply (fits_new _ _ _ _ _ mf). }
  apply (ensures_seq _ _ _ Staged); [|by intros w Hw].
  unfold ignore. eapply ensures_bind; [apply ensures_attempt, delete_marker_ends|].
  - intros d d' Hd Hs. apply (Staged_step d); [done|]. intros n Hn. apply Hs. tauto.
  - apply Staged_unmark.
  - intros [u|e']; apply ensures_ret; [by intros d [? _]|done].
Qed.

(** What is gone after a change that succeeds. *)
Definition old_gone (d : Disk) : Prop :=
  d !! root_index_chunk_name old_key 0 = None /\ forall p, p ∈ rekey_pairs old_key new_key D0 m -> d !! cp_old p = None.

Lemma Done_delete d n : Done d -> n ∈ OLD -> valid_name n = true -> Done (delete n d).
Proof. intros Hd Hn Hv. eapply Done_step; [done|]. intros x Hx. apply lookup_delete_ne. intros ->. tauto. Qed.

Lemma gone_step d d' : old_gone d -> same_outside (fun n => is_marker n) d d' -> old_gone d'.
Proof.
  intros [Hr Hp] Hs. assert (forall n, valid_name n = true -> d' !! n = d !! n) as Hv.
  { intros n Hn. apply Hs. intros [->| ->]; by eapply chunk_no_artifact. }
  split; [rewrite Hv; [done|apply chunk_name_valid]|]. intros p Hin. rewrite Hv; [auto|by apply (rekey_pair_valid _ _ _ _ p Hin)].
Qed.

(** The clean up of a change that is decided. *)
Definition clean_up (mf : RekeyManifest) : IO (Z * Z * list string) :=
  deleted_old ← rekey_delete_chunks (old_durable_chunks mf);
  deleted_derivatives ← rekey_delete_chunks (unique (rm_derivatives mf));
  delete_rekey_marker;; sync;; known_after ← list_chunks;
  mret (deleted_old, deleted_derivatives, known_after).

Lemma clean_up_ends mf :
  fits old_key new_key clk (root m) D0 mf ->
  ensures Done (clean_up mf) (fun _ d => Done d /\ d !! bin = None /\ old_gone d) Done.
Proof.
  intros Hf. unfold clean_up. set (gone1 := fun d : Disk => forall n, n ∈ old_durable_chunks mf -> d !! n = None).
  assert (forall d, gone1 d -> old_gone d) as Hgone.
  { intros d Hd. split; [apply Hd, (fits_gone old_key new_key D0 clk m mf); [done|left; split; [done|apply ready]]|].
    intros p Hp. apply Hd, (fits_gone old_key new_key D0 clk m mf); [done|right]. by apply list_elem_of_fmap_2. }
  apply (ensures_bind _ _ _ (fun _ d => Done d /\ gone1 d)).
  { unfold rekey_delete_chunks. eapply ensures_conseq; [apply (delete_existing_ends Done _ 0 [])| |].
    - intros d n Hn Hv Hd. apply Done_delete; [done| |done]. eapply fits_old; [exact Hf|exact (proj1 (elem_of_unique_names _ _) Hn)].
    - intros d Hd. split; [done|]. by intros n ?%elem_of_nil.
    - intros k d [Hd Hn]. split; [done|]. intros n Hin. apply Hn. exact (proj2 (elem_of_unique_names _ _) Hin). }
  intros deleted_old. apply (ensures_bind _ _ _ (fun _ d => Done d /\ gone1 d)).
  { unfold rekey_delete_chunks. eapply (ensures_crash _ _ _ _ (fun d => Done d /\ gone1 d)); [|by intros d [? _]].
    eapply ensures_conseq; [apply (delete_existing_ends (fun d => Done d /\ gone1 d) _ 0 [])| |by intros k d [? _]].
    - intros d n Hn Hv [Hd Hg]. split.
      + apply Done_delete; [done| |done]. eapply fits_derivative; [exact Hf|exact (proj1 (elem_of_unique_names _ _) Hn)].
      + intros x Hx. destruct (decide (x = n)) as [->|]; [apply lookup_delete_eq|]. rewrite lookup_delete_ne by done. by apply Hg.
    - intros d Hd. split; [done|]. by intros n ?%elem_of_nil. }
  intros deleted_derivatives. eapply ensures_conseq with (P' := fun d => Done d /\ old_gone d);
    [|intros d [? ?]; split; [done|by apply Hgone]|intros a d Hd; exact Hd].
  apply (ensures_crash _ _ _ _ (fun d => Done d /\ old_gone d)); [|by intros d [? _]].
  apply (ensures_seq _ _ _ (fun d => (Done d /\ old_gone d) /\ d !! bin = None)).
  { apply delete_marker_ends.
    - intros d d' [Hd Hg] Hs. split; [apply (Done_step d); [done|]; intros n Hn; apply Hs; tauto|].
      apply (gone_step d); [done|]. intros n Hn. apply Hs. unfold is_marker in Hn. tauto.
    - intros d [Hd Hg]. split; [by apply Done_unmark|]. apply (gone_step d); [done|].
      intros n Hn. apply lookup_delete_ne. intros <-. apply Hn. by left. }
  intros w [[Hd Hg] Hb].
  assert (footprint (fun _ => False) (sync;; known_after ← list_chunks; mret (deleted_old, deleted_derivatives, known_after)) (fun _ => True)) as Hfp.
  { apply fp_then; [apply fp_sync|]. intros _u. apply fp_then; [apply fp_call; [by intros d n|done]|]. intros l. by apply fp_ret. }
  specialize (Hfp w).
  assert (forall d', same_outside (fun _ => False) (disk w) d' -> d' = disk w) as Heq by (intros d' Ho; apply map_eq; intros n; exact (Ho n (fun f => f))).
  destruct ((sync;; _) w) as [[a|e] w']; destruct Hfp as [->%Heq _]; done.
Qed.

Lemma migrate_ends clks cancel duration s :
  ks_key s = old_key -> catalog (ks_session s) = m ->
  saves (at_state s (eq D0)) (rekey_migrate clk clks cancel new_key duration)
    (fun _ s' d => Done d /\ d !! bin = None /\ old_gone d /\ ks_key s' = new_key) Safe.
Proof.
  intros Hk Hm. unfold rekey_migrate. apply at_get. cbv zeta. rewrite Hk, Hm.
  assert (Staged D0) as HD0 by (split; [reflexivity|apply marked_none, ready]).
  eapply at_io; [eapply ensures_crash; [apply build_manifest_fits|intros ? <-; by left]|]. intros mf.
  apply at_known. intros d [-> Hf].
  set (tx phase := mkRekeyTx REKEY_TX_VERSION phase (old_durable_chunks mf) (new_durable_chunks mf) (unique (rm_derivatives mf))).
  assert (may_roll_back (tx Staging)) as Hroll.
  { split_and!; [done..|]. intros n Hn. by apply (fits_new old_key new_key D0 clk m mf). }
  assert (may_clean (tx Committing)) as Hclean.
  { split_and!; [done..| |].
    - intros n Hn. by apply (fits_new old_key new_key D0 clk m mf).
    - intros n [Hn|Hn]%elem_of_app; [by eapply fits_old|by eapply fits_derivative]. }
  apply (at_io _ _ _ _ (fun _ => Staged)).
  { eapply ensures_conseq; [apply (write_marker_ends old_key new_key (tx Staging) (eq D0) Safe)|done|].
    - apply ready.
    - done.
    - intros ? <-. by left.
    - intros ? bs <- Hb. left. by eapply Staged_mark.
    - intros _u d (d0 & bs & <- & -> & Hb). by eapply Staged_mark. }
  intros _u. apply (at_io _ _ _ _ (fun _ d => Staged d /\ written d JOBS)).
  { eapply ensures_crash; [by apply copy_or_roll_back|]. by left. }
  intros _v. apply (at_io _ _ _ _ (fun _ d => Staged d /\ written d JOBS)).
  { apply (ensures_crash _ _ _ _ (fun d => Staged d /\ written d JOBS)); [|intros d [? _]; by left].
    apply (ensures_fp (fun _ => False)); [apply fp_validate|]. intros d d' Hd Ho.
    assert (d' = d) as -> by (apply map_eq; intros n; exact (Ho n (fun f => f))). done. }
  intros _w. apply (at_io _ _ _ _ (fun _ => Done)).
  { eapply ensures_conseq; [apply (write_marker_ends old_key new_key (tx Committing) (fun d => Staged d /\ written d JOBS) Safe)|done|].
    - apply ready.
    - done.
    - intros d [? _]. by left.
    - intros d bs [Hd Hw] Hb. right. by eapply Staged_Done.
    - intros _x d (d0 & bs & [Hd Hw] & -> & Hb). by eapply Staged_Done. }
  intros _x. apply at_on. intros s' w [-> Hw].
  pose proof (clean_up_ends mf Hf w Hw) as Hc. unfold clean_up, mbind, StIO_bind, IO_bind, io in *.
  destruct (rekey_delete_chunks (old_durable_chunks mf) w) as [[a|e] w1]; [|by right].
  destruct (rekey_delete_chunks (unique (rm_derivatives mf)) w1) as [[b|e] w2]; [|by right].
  destruct (delete_rekey_marker w2) as [[c|e] w3]; [|by right].
  destruct (sync w3) as [[c'|e] w4]; [|by right]. destruct (list_chunks w4) as [[l|e] w5]; [|by right].
  cbn in *. by destruct Hc as (? & ? & ?).
Qed.

(** ** What an unlock finds *)

Lemma live_old ri n : root_is old_key ri D0 -> live_chunk old_key ri n -> n ∈ OLD /\ valid_name n = true.
Proof.
  intros (bs & Hbs & plain & Hd & Hp) (meta & Hmeta & Hn). split.
  - unfold old_names, old_catalog_of. rewrite Hbs. unfold open_sealed. rewrite Hd. cbn [mbind result_bind]. rewrite Hp.
    cbn [ok_or]. apply elem_of_app. left. do 2 right. apply elem_of_concat_map. by exists meta.
  - unfold chunks_for_meta in Hn. apply elem_of_cons in Hn as [->|Hn]; [apply snapshot_valid|].
    destruct (sm_has_deltas meta); [|by apply elem_of_nil in Hn]. apply list_elem_of_fmap in Hn as (q & -> & _). apply chunk_name_u64_valid.
Qed.

Lemma Staged_unlocked clk' clks' k k' d : Staged d -> unlocked old_key clk' clks' k d = unlocked old_key clk' clks' k' D0.
Proof.
  intros Hd. assert (forall n, n ∈ OLD -> valid_name n = true -> D0 !! n = d !! n) as Ho.
  { intros n Hn Hv. symmetry. apply Staged_old; [done| |done]. by apply ready. }
  destruct (rr_saved ready old_key) as [Hc Hin]; [by left|]. rewrite elem_of_app in Hin. symmetry. apply same_unlocked.
  - apply same_load.
    + apply Ho; [|apply chunk_name_valid]. apply elem_of_app. left. right. left.
    + intros ri n Hri _ Hl. by apply Ho; apply (live_old ri).
  - done.
  - rewrite <- Hc. apply Staged_old; [done|tauto|apply chunk_name_valid].
Qed.

Lemma rekeyed_metas v ri ss :
  NoDup (map sh_id ss) -> (forall s, s ∈ ss -> ri_shards ri !! sh_id s = None) ->
  map_to_list (ri_shards (foldl (add_rekeyed v) ri ss)) ≡ₚ map (fun s => (sh_id s, rekey_meta v s)) ss ++ map_to_list (ri_shards ri).
Proof.
  revert ri. induction ss as [|s ss IH]; intros ri Hnd Hn; [done|]. cbn [map] in Hnd. apply NoDup_cons in Hnd as [Hs Hnd].
  cbn [foldl map app]. rewrite IH; [|done|].
  - cbn [add_rekeyed set_shards ri_shards]. rewrite map_to_list_insert by (apply Hn; left). by rewrite Permutation_middle.
  - intros s' Hs'. cbn [add_rekeyed set_shards ri_shards]. rewrite lookup_insert_ne; [apply Hn; by right|].
    intros E. apply Hs. rewrite E. by apply list_elem_of_fmap_2.
Qed.

Abbreviation SHARDS := (persistence_shards (later 1 clk) m).

Lemma shard_ids_nodup : NoDup (map sh_id SHARDS).
Proof.
  pose proof (rr_fresh ready) as Hnd. unfold new_names, rekey_jobs in Hnd. rewrite map_app in Hnd.
  apply NoDup_app in Hnd as (Hnd & _). rewrite map_map in Hnd. cbn [shard_job fst] in Hnd.
  rewrite <- (map_map sh_id (fun i => shard_chunk_name new_key i 0)) in Hnd. by apply NoDup_fmap_1 in Hnd.
Qed.

Lemma rekeyed_index_is :
  is_sharded (rekeyed_index clk m) = true /\ ri_root_version (rekeyed_index clk m) = version m.
Proof.
  unfold rekeyed_index. set (ri := set_root_version _ _).
  assert (is_sharded ri = true /\ ri_root_version ri = version m) as Hri by done. revert Hri. generalize ri.
  induction (rekey_persistence_shards (later 1 clk) (root m)) as [|s ss IH]; intros ri0 Hri; [done|]. by apply IH.
Qed.

Lemma rekey_meta_wf s : meta_wf (rekey_meta (version m) s).
Proof. pose proof (rr_version ready). unfold rekey_meta. by split; cbn; try lia. Qed.

Lemma Done_unlocked clk' clks' k d : Done d -> saved_as (fun _ => True) SHARDS m (unlocked new_key clk' clks' k d).
Proof.
  intros (Hs & _ & Hw). unfold written, rekey_jobs in Hw. rewrite !Forall_app in Hw. destruct Hw as (Hsh & Hr & _).
  apply Forall_singleton in Hr as (bs & Hbs & Ho). cbn [root_job fst snd] in *.
  destruct (rr_saved ready new_key) as [Hc Hin]; [by right|]. rewrite elem_of_app in Hin. destruct rekeyed_index_is as [His Hv].
  pose proof (rekeyed_metas (version m) (set_root_version (version m) (index_new (clk 0%nat))) SHARDS shard_ids_nodup
    ltac:(intros; apply lookup_empty)) as Hmetas.
  cbn [set_root_version index_new ri_shards] in Hmetas. rewrite map_to_list_empty, app_nil_r in Hmetas.
  apply (Permutation_map snd) in Hmetas. rewrite map_map in Hmetas. cbn [snd] in Hmetas.
  apply Permutation_map_inv in Hmetas as (ss & Hss & Hperm).
  eapply stored_catalog_loads; [|exact Hbs|exact Ho|exact His|exact Hv|symmetry; exact Hperm|].
  { rewrite <- Hc. apply Hs. intros [?|[?|[E|E]]]; [tauto..| |]; revert E; apply chunk_no_artifact, chunk_name_valid. }
  change (foldl _ _ SHARDS) with (rekeyed_index clk m) in Hss. rewrite Hss. apply Forall2_fmap_l, Forall_Forall2_diag.
  rewrite Forall_forall in Hsh. apply Forall_forall. intros s Hin'. rewrite <- Hperm in Hin'. split_and!; [|apply rekey_meta_wf|apply ready].
  destruct (Hsh (shard_job new_key (version m) s)) as (b & Hb & Hop); [by apply list_elem_of_fmap_2|].
  eapply (stored_snapshot new_key d _ _ (rekey_shard (version m) s)); [|done..]. by exists b.
Qed.
End Change.

(** ** The guarantee *)

Section Guarantee.
Context `{cr : Crypto} {crl : CryptoLaws cr}.
Context `{SerdeLaw RootIndex, SerdeLaw Shard, SerdeLaw DeltaEntry,
          Serde CatalogCommitRecord, SerdeLaw (DurableTxRecord CatalogCommitRecord)}.
Context `{Serde RekeyDerivativeRecord, SerdeLaw EncryptedRekeyMarkerV2, SerdeLaw RekeyMarkerPayloadV2, Serde RekeyTransaction}.
Context (old_key new_key : list byte) (D0 : Disk) (clk : clock) (m : CatalogManager).

(** Runs of the recovery, each with the new or the old key and with faults of its own. *)
Fixpoint rekey_recoveries (schedule : list (bool * list fate * nat)) (d : Disk) : Disk :=
  match schedule with
  | [] => d
  | (with_new, fs, k) :: schedule' =>
      rekey_recoveries schedule' (snd (run_io fs k (recover_rekey_marker_for_key (if with_new : bool then new_key else old_key)) d))
  end.

Lemma recoveries_keep (St : Disk -> Prop) schedule d :
  (forall key, key = old_key \/ key = new_key -> ensures St (recover_rekey_marker_for_key key) (fun _ d => St d /\ d !! bin = None) St) ->
  St d -> St (rekey_recoveries schedule d).
Proof.
  intros Hr. revert d. induction schedule as [|[[b fs] k] schedule IH]; intros d Hd; [done|]. cbn [rekey_recoveries]. apply IH.
  specialize (Hr (if b then new_key else old_key) ltac:(destruct b; auto) (mkWorld d fs k) Hd). unfold run_io.
  destruct (recover_rekey_marker_for_key _ _) as [[[]|e] w']; [by destruct Hr|done].
Qed.

(** Without a marker a recovery does nothing. *)
Lemma recoveries_idle schedule d : d !! bin = None -> rekey_recoveries schedule d = d.
Proof.
  intros Hb. revert d Hb. induction schedule as [|[[b fs] k] schedule IH]; intros d Hb; [done|]. cbn [rekey_recoveries].
  set (key := if b then new_key else old_key).
  assert (snd (run_io fs k (recover_rekey_marker_for_key key) d) = d) as ->; [|by apply IH].
  assert (ensures (eq d) (recover_rekey_marker_for_key key) (fun _ => eq d) (eq d)) as Hi.
  { unfold recover_rekey_marker_for_key. eapply ensures_bind; [apply load_marker_is|]. intros o.
    apply ensures_known. intros d1 [-> Ho]. rewrite Hb in Ho. subst o. by apply ensures_ret. }
  specialize (Hi (mkWorld d fs k) eq_refl). unfold run_io. by destruct (recover_rekey_marker_for_key _ _) as [[[]|e] w'].
Qed.

Context (clk' : clock) (clks' : nat -> clock) (k : nat).

(** The vault opens with the old key as before, and its chunks and all others are untouched. *)
Definition vault_kept (d : Disk) : Prop :=
  unlocked old_key clk' clks' k d = unlocked old_key clk' clks' k D0
  /\ forall n, n ∉ new_names old_key new_key D0 clk m -> ~ is_marker n -> d !! n = D0 !! n.

(** The vault opens with the new key, with the catalog [m]; every blob and OTP chunk that
    there was for a node of [m] has a copy of the same content under the new key; the chunks
    that are not of this vault are untouched. *)
Definition vault_moved (d : Disk) : Prop :=
  saved_as (fun _ => True) (persistence_shards (later 1 clk) m) m (unlocked new_key clk' clks' k d)
  /\ (forall p, p ∈ rekey_pairs old_key new_key D0 m -> exists old_bytes plain new_bytes,
        D0 !! cp_old p = Some old_bytes /\ decrypt old_bytes old_key (as_bytes (cp_old p)) = Ok plain
        /\ d !! cp_new p = Some new_bytes /\ decrypt new_bytes new_key (as_bytes (cp_new p)) = Ok plain)
  /\ forall n, n ∉ new_names old_key new_key D0 clk m -> n ∉ old_names old_key new_key D0 m -> ~ is_marker n -> d !! n = D0 !! n.

Context (ready : rekey_ready old_key new_key D0 clk m).

Lemma Staged_kept d : Staged old_key new_key D0 clk m d -> vault_kept d.
Proof.
  intros Hd. split; [by eapply Staged_unlocked|]. intros n Hn Hm. destruct Hd as [Hs _]. apply Hs. tauto.
Qed.

Lemma Done_moved d : Done old_key new_key D0 clk m d -> vault_moved d.
Proof.
  intros Hd. split_and!; [by eapply Done_unlocked| |].
  - intros p Hp. destruct Hd as (_ & _ & Hw). unfold written in Hw. rewrite Forall_forall in Hw.
    destruct (Hw (pair_job old_key new_key D0 p)) as (bs & Hbs & obs & plain & Hobs & Ho & Hn).
    { unfold rekey_jobs. rewrite !elem_of_app. do 2 right. apply elem_of_app in Hp as [Hp|Hp]; [left|right]; by apply list_elem_of_fmap_2. }
    by exists obs, plain, bs.
  - intros n Hn Ho Hm. destruct Hd as [Hs _]. apply Hs. tauto.
Qed.
End Guarantee.

(** C3: A change of the password is all or nothing. Whatever calls to the storage fail or
    are cut off by a crash, whatever the answers to the question for cancelling, and however
    often the recovery an unlock runs first is itself interrupted afterwards, with the old
    or the new key: the vault opens with the old key as it was, every chunk but the new ones
    unchanged, or it opens with the new key with the same catalog, and every blob and OTP
    secret of its nodes has a copy under the new key that decrypts to the same content. When
    the change reports success it is the latter, no recovery changes anything any more, the
    session has the new key, and the root index, the blobs and the OTP secrets under the old
    key are gone. *)
Theorem rekey_crash_safe `{CryptoLaws} `{SerdeLaw RootIndex, SerdeLaw Shard, SerdeLaw DeltaEntry,
    Serde CatalogCommitRecord, SerdeLaw (DurableTxRecord CatalogCommitRecord)}
  `{Serde RekeyDerivativeRecord, SerdeLaw EncryptedRekeyMarkerV2, SerdeLaw RekeyMarkerPayloadV2, Serde RekeyTransaction}
  new_key clk clks cancel duration s w schedule clk' clks' k :
  let old_key := ks_key s in
  let m := catalog (ks_session s) in
  let D0 := disk w in
  rekey_ready old_key new_key D0 clk m ->
  let '(r, s', w') := rekey_migrate clk clks cancel new_key duration s w in
  let d := rekey_recoveries old_key new_key schedule (disk w') in
  (vault_kept old_key new_key D0 clk m clk' clks' k d \/ vault_moved old_key new_key D0 clk m clk' clks' k d)
  /\ (forall x, r = Ok x ->
        vault_moved old_key new_key D0 clk m clk' clks' k d /\ d = disk w' /\ ks_key s' = new_key /\ old_gone old_key new_key D0 m d).
Proof.
  intros old_key m D0 ready.
  pose proof (migrate_ends old_key new_key D0 clk m ready clks cancel duration s eq_refl eq_refl s w (conj eq_refl eq_refl)) as Hm.
  destruct (rekey_migrate _ _ _ _ _ s w) as [[[x|e] s'] w'].
  - destruct Hm as (Hd & Hb & Hg & Hk). cbv zeta. rewrite recoveries_idle by done.
    assert (vault_moved old_key new_key D0 clk m clk' clks' k (disk w')) by by apply Done_moved. auto 10.
  - split; [|done]. destruct Hm as [Hd|Hd]; [left; apply Staged_kept|right; apply Done_moved]; try done;
      eapply recoveries_keep; try done; intros key; [by apply recover_Staged|by apply recover_Done].
Qed.
