(* ===== verification/RekeyPassword.v ===== *)
(** * Requests for a change of the password that are refused

    A request that does not know the current password, breaks the rules for the new one or
    names the password of another vault changes nothing. *)

From Stdlib Require Import Strings.Byte Ascii String.
From stdpp Require Import base countable gmap strings list sorting.
From S2P Require Import Prelude.
From S2P Require Import CatalogNode.
From S2P Require Import CatalogManager.
From S2P Require Import CatalogTree.
From S2P Require Import CatalogDelta.
From S2P Require Import CatalogShard.
From S2P Require Import Bytes.
From S2P Require Import Storage.
From S2P Require Import Crypto.
From S2P Require Import IoLogic.
From S2P Require Import DurableTx.
From S2P Require Import CatalogCommit.
From S2P Require Import CatalogLoad.
From S2P Require Import CatalogCompact.
From S2P Require Import CatalogSave.
From S2P Require Import SaveSafety.
From S2P Require Import SaveSpec.
From S2P Require Import CatalogSession.
From S2P Require Import Footprint.
From S2P Require Import FileReplace.
From S2P Require Import ChunkBatch.
From S2P Require Import StorageGc.
From S2P Require Import Artifacts.
From S2P Require Import Rekey.
From S2P Require Import RekeySpec.
From S2P Require Import RekeySafe.
Open Scope Z_scope.

(** [c] stops with an error, and with the memory and the disk as they were. *)
Definition refuses {S A} (d : Disk) (s : S) (c : StIO S A) : Prop :=
  forall w, disk w = d -> let '(r, s', w') := c s w in is_ok r = false /\ s' = s /\ disk w' = d.

Section Rules.
Context {S A B : Type} (d : Disk) (s : S).

Lemma refuses_get (k : S -> StIO S A) : refuses d s (k s) -> refuses d s (st_get ≫= k).
Proof. done. Qed.

Lemma refuses_throw e : refuses d s (io (io_throw e) : StIO S A).
Proof. intros w Hw. by cbn. Qed.

Lemma refuses_io (P : A -> Prop) (c : IO A) (k : A -> StIO S B) :
  ensures (eq d) c (fun a d' => P a /\ d' = d) (eq d) -> (forall a, P a -> refuses d s (k a)) -> refuses d s (io c ≫= k).
Proof.
  intros Hc Hk w Hw. specialize (Hc w (eq_sym Hw)). unfold mbind, StIO_bind, io. destruct (c w) as [[a|e] w'].
  - destruct Hc as [Ha Hd]. by apply Hk.
  - by rewrite Hc.
Qed.
End Rules.

Section Refused.
Context `{cr : Crypto} {crl : CryptoLaws cr} `{Argon2}.
Context `{Serde RootIndex, Serde Shard, Serde DeltaEntry, Serde CatalogCommitRecord,
          Serde (DurableTxRecord CatalogCommitRecord)}.
Context `{Serde RekeyDerivativeRecord, SerdeLaw EncryptedRekeyMarkerV2, SerdeLaw RekeyMarkerPayloadV2, Serde RekeyTransaction}.
Context (d : Disk).

(** The key of a password, by the salt on the disk. *)
Definition key_on (pepper : result Error (option (list byte))) (password : string) (key : list byte) : Prop :=
  exists p salt, pepper = Ok (Some p) /\ d !! file_name Salt = Some salt /\ derive_vault_key_v2 password salt p = Ok key.

Lemma read_salt_is :
  ensures (eq d) read_salt (fun o d' => (forall salt, o = Some salt -> d !! file_name Salt = Some salt) /\ d' = d) (eq d).
Proof.
  unfold read_salt. eapply ensures_bind; [apply read_artifact_is|]. intros o. apply ensures_known. intros d1 [-> ->].
  destruct (d !! file_name Salt) as [bytes|].
  - destruct (length bytes =? SALT_SIZE)%nat; [|by intros w Hw]. apply ensures_ret. intros ? <-. split; [|done]. by intros salt [= <-].
  - apply ensures_ret. intros ? <-. split; [|done]. by intros salt ?.
Qed.

Lemma derive_key_is pepper password :
  ensures (eq d) (derive_session_key pepper password) (fun key d' => key_on pepper password key /\ d' = d) (eq d).
Proof.
  unfold derive_session_key. eapply ensures_bind; [apply (ensures_lift (eq d)); by intros ? <-|]. intros p.
  apply ensures_pure. intros Hp. eapply ensures_bind; [apply read_salt_is|]. intros o. apply ensures_when. intros Ho.
  apply ensures_known. intros d1 ->.
  eapply ensures_bind; [apply (ensures_lift (eq d)); by intros ? <-|]. intros salt.
  apply ensures_pure. intros Hs%ok_or_Ok_inv. eapply ensures_conseq; [apply (ensures_lift (eq d)); by intros ? <-|done|].
  intros key d' [<- Hk]. split; [|done]. exists p, salt. split_and!; [|by apply Ho|done].
  destruct pepper as [[x|]|]; try done. cbn in Hp. by injection Hp as ->.
Qed.

Lemma recover_idle key :
  d !! bin = None -> d !! legacy = None ->
  ensures (eq d) (recover_rekey_transaction key) (fun _ d' => True /\ d' = d) (eq d).
Proof.
  intros Hb Hl. unfold recover_rekey_transaction, load_rekey_marker_for_key.
  eapply ensures_bind; [eapply ensures_bind; [apply load_marker_is|]|].
  - intros o. apply ensures_known. intros d1 [-> Ho]. rewrite Hb in Ho. subst o. unfold load_legacy_rekey_marker, artifact_read_legacy_payload_strict.
    apply (ensures_bind _ _ _ (fun o d' => o = None /\ d' = d)).
    + eapply ensures_bind; [apply read_artifact_is|]. intros o. apply ensures_known. intros d1 [-> ->]. rewrite Hl.
      apply ensures_ret. by intros ? <-.
    + intros o. apply ensures_when. intros ->. apply (ensures_ret _ _ (fun o d' => o = None /\ d' = d)). auto.
  - intros o. apply ensures_when. intros ->. apply ensures_ret. auto.
Qed.

(** Why a request is refused: its new password, a wrong current password, or a new password
    that is the one of this or another vault. *)
Definition refusable (keystore : nat -> result Error (option (list byte))) (request : VaultRekeyRequest) (key : list byte) : Prop :=
  is_ok (validate_new_password (rq_current_password request) (rq_new_password request)) = false
  \/ ~ key_on (keystore 0%nat) (rq_current_password request) key
  \/ forall new_key, key_on (keystore 1%nat) (rq_new_password request) new_key ->
       new_key = key \/ is_Some (d !! catalog_chunk_name new_key 0) \/ is_Some (d !! root_index_chunk_name new_key 0).

Lemma reject_existing_is new_key :
  ensures (eq d) (reject_existing_target_vault new_key)
    (fun _ d' => (d !! catalog_chunk_name new_key 0 = None /\ d !! root_index_chunk_name new_key 0 = None) /\ d' = d) (eq d).
Proof.
  unfold reject_existing_target_vault. eapply ensures_bind; [by apply (ensures_exists (eq d))|].
  intros b. apply ensures_known. intros d1 [<- ->]. case_bool_decide as H1'; [by intros w Hw|].
  eapply ensures_bind; [by apply (ensures_exists (eq d))|].
  intros b. apply ensures_known. intros d2 [<- ->]. case_bool_decide as H2'; [by intros w Hw|].
  apply ensures_ret. intros ? <-. split; [|done]. by rewrite !eq_None_not_Some.
Qed.
End Refused.

(** C24: A request to change the password that is not in order changes nothing, whatever
    faults the storage has: when the new password is too short or equal to the current one,
    when the current password does not derive the key of the session, or when the new
    password derives the key of the session or one under which the storage has a vault,
    the request fails, and the session and every chunk and file are as they were. (No
    earlier change is pending.) *)
Theorem rekey_refused `{CryptoLaws, Argon2} `{Serde RootIndex, Serde Shard, Serde DeltaEntry, Serde CatalogCommitRecord,
    Serde (DurableTxRecord CatalogCommitRecord)}
  `{Serde RekeyDerivativeRecord, SerdeLaw EncryptedRekeyMarkerV2, SerdeLaw RekeyMarkerPayloadV2, Serde RekeyTransaction}
  clk clks save_clks cancel keystore request duration s w :
  disk w !! file_name RekeyTransactionV2 = None -> disk w !! file_name RekeyTransactionMarker = None ->
  refusable (disk w) keystore request (ks_key s) ->
  let '(r, s', w') := rekey_password clk clks save_clks cancel keystore request duration s w in
  is_ok r = false /\ s' = s /\ disk w' = disk w.
Proof.
  intros Hb Hl Href. set (d := disk w) in *. enough (refuses d s (rekey_password clk clks save_clks cancel keystore request duration)) as Hr by by apply Hr.
  unfold rekey_password. apply refuses_get. eapply refuses_io; [by apply recover_idle|]. intros _u _.
  eapply (refuses_io _ _ (fun _ => is_ok (validate_new_password (rq_current_password request) (rq_new_password request)) = true)).
  { eapply ensures_conseq; [apply (ensures_lift (eq d)); by intros ? <-|done|]. intros a d' [<- ->]. done. }
  intros _v Hv. eapply refuses_io; [apply derive_key_is|]. intros old_key Hold.
  unfold constant_time_eq. case_bool_decide as Hk; cbn [negb]; [|apply refuses_throw]. subst old_key.
  destruct Href as [Hf|[Hf|Hf]]; [congruence|done|].
  eapply refuses_io; [apply derive_key_is|]. intros new_key Hnew. case_bool_decide as Hne; [apply refuses_throw|].
  eapply refuses_io; [apply reject_existing_is|]. intros _x [Hc Hr]. exfalso.
  destruct (Hf new_key Hnew) as [?|[[x Hx]|[x Hx]]]; congruence.
Qed.
