(* ===== verification/RekeyRecover.v ===== *)
(** * The recovery of a change of the password runs to its end

    However a change ended and however often its recovery was interrupted, a recovery that
    is not interrupted succeeds, with either key, and leaves no marker. *)

From Stdlib Require Import Strings.Byte Ascii String.
From stdpp Require Import base countable gmap strings list sorting.
From S2P Require Import Prelude.
From S2P Require Import CatalogNode.
From S2P Require Import CatalogManager.
From S2P Require Import CatalogTree.
From S2P Require Import CatalogDelta.
From S2P Require Import CatalogShard.
From S2P Require Import Bytes.
From S2P Require Import Storage.
From S2P Require Import Crypto.
From S2P Require Import IoLogic.
From S2P Require Import DurableTx.
From S2P Require Import CatalogCommit.
From S2P Require Import CatalogLoad.
From S2P Require Import CatalogCompact.
From S2P Require Import CatalogSave.
From S2P Require Import SaveSafety.
From S2P Require Import SaveSpec.
From S2P Require Import CatalogSession.
From S2P Require Import Footprint.
From S2P Require Import FileReplace.
From S2P Require Import ChunkBatch.
From S2P Require Import StorageGc.
From S2P Require Import Artifacts.
From S2P Require Import Rekey.
From S2P Require Import RekeySpec.
From S2P Require Import RekeySafe.
Open Scope Z_scope.

(** Without faults [c] returns. *)
Definition unfailing {A} (c : IO A) : Prop := forall d k, exists a d' k', c (mkWorld d [] k) = (Ok a, mkWorld d' [] k').
(** The same from the disk [d], which it leaves as it is. *)
Definition reads {A} (d : Disk) (c : IO A) (a : A) : Prop := forall k, c (mkWorld d [] k) = (Ok a, mkWorld d [] k).

Section Rules.
Context {A B : Type}.

Lemma unfailing_ret (a : A) : unfailing (mret a).
Proof. intros d k. by exists a, d, k. Qed.

Lemma unfailing_bind (c : IO A) (f : A -> IO B) : unfailing c -> (forall a, unfailing (f a)) -> unfailing (c ≫= f).
Proof. intros Hc Hf d k. destruct (Hc d k) as (a & d' & k' & E). unfold mbind, IO_bind. rewrite E. apply Hf. Qed.

Lemma unfailing_call (eff : Disk -> result Error A * Disk) : (forall d, is_ok (fst (eff d)) = true) -> unfailing (call eff).
Proof. intros He d k. specialize (He d). unfold call. cbn. destruct (fst (eff d)) as [a|]; [|done]. by exists a, (snd (eff d)), k. Qed.

Lemma unfailing_ignore (c : IO A) : (forall d k, exists r d' k', c (mkWorld d [] k) = (r, mkWorld d' [] k') /\ r <> Err Crashed) -> unfailing (ignore c).
Proof.
  intros Hc d k. destruct (Hc d k) as (r & d' & k' & E & Hr). unfold ignore, attempt, mbind, IO_bind. rewrite E.
  destruct r as [a|[e|]]; [..|done]; by exists tt, d', k'.
Qed.
End Rules.

Lemma unfailing_named {A} n (eff : Disk -> result Error A * Disk) :
  valid_name n = true -> (forall d, is_ok (fst (eff d)) = true) -> unfailing (io_lift (chunk_path n);; call eff).
Proof. intros [p Hp]%chunk_path_ok He. rewrite Hp. apply unfailing_bind; [apply unfailing_ret|]. intros _. by apply unfailing_call. Qed.

Lemma unfailing_delete_existing ns k : (forall n, n ∈ ns -> valid_name n = true) -> unfailing (delete_existing ns k).
Proof.
  revert k. induction ns as [|n ns IH]; intros k Hv; cbn [delete_existing]; [apply unfailing_ret|].
  assert (forall k, unfailing (delete_existing ns k)) as IH' by (intros; apply IH; intros; apply Hv; by right).
  apply unfailing_bind; [by apply unfailing_named; [apply Hv; left|]|]. intros []; [|apply IH'].
  apply unfailing_bind; [by apply unfailing_named; [apply Hv; left|]|]. intros _. apply IH'.
Qed.

Lemma unfailing_rekey_delete ns : (forall n, n ∈ ns -> valid_name n = true) -> unfailing (rekey_delete_chunks ns).
Proof. intros Hv. apply unfailing_delete_existing. intros n Hn. apply Hv. by apply elem_of_unique_names. Qed.

Lemma unfailing_delete_ignoring ns : unfailing (delete_ignoring ns).
Proof.
  induction ns as [|n ns IH]; cbn [delete_ignoring]; [apply unfailing_ret|]. apply unfailing_bind; [|done].
  apply unfailing_ignore. intros d k. unfold delete_chunk, mbind, IO_bind, io_lift.
  destruct (chunk_path n) as [p|e]; cbn; eexists _, _, _; (split; [reflexivity|done]).
Qed.

Lemma unfailing_sync : unfailing sync.
Proof. by apply unfailing_call. Qed.

Lemma unfailing_remove a : unfailing (remove_artifact a).
Proof.
  apply unfailing_bind; [by apply unfailing_call|]. intros _. apply unfailing_bind; [by apply unfailing_call|]. intros _. apply unfailing_sync.
Qed.

Lemma reads_require d ns : (forall n, n ∈ ns -> valid_name n = true /\ is_Some (d !! n)) -> reads d (require_chunks ns) tt.
Proof.
  induction ns as [|n ns IH]; intros Hn k; cbn [require_chunks]; [done|].
  destruct (Hn n) as [Hv [bs Hbs]]; [left|]. unfold mbind, IO_bind. rewrite (chunk_exists_run d k n bs Hv Hbs). cbn [negb].
  apply IH. intros x Hx. apply Hn. by right.
Qed.

Section Complete.
Context `{cr : Crypto} {crl : CryptoLaws cr}.
Context `{SerdeLaw RootIndex, SerdeLaw Shard, SerdeLaw DeltaEntry,
          Serde CatalogCommitRecord, SerdeLaw (DurableTxRecord CatalogCommitRecord)}.
Context `{Serde RekeyDerivativeRecord, SerdeLaw EncryptedRekeyMarkerV2, SerdeLaw RekeyMarkerPayloadV2, Serde RekeyTransaction}.
Context (old_key new_key : list byte) (D0 : Disk) (clk : clock) (m : CatalogManager).
Abbreviation NEW := (new_names old_key new_key D0 clk m).
Abbreviation OLD := (old_names old_key new_key D0 m).
Abbreviation STAGED := (Staged old_key new_key D0 clk m).
Abbreviation DONE := (Done old_key new_key D0 clk m).
Context (ready : rekey_ready old_key new_key D0 clk m).
Context (valid : forall n, n ∈ OLD -> valid_name n = true).

(** The record has what its recovery needs on the disk. *)
Definition recoverable (d : Disk) (t : RekeyTransaction) : Prop :=
  rk_version t = REKEY_TX_VERSION /\
  match rk_phase t with
  | Staging => True
  | Committing => (forall n, n ∈ rk_new_chunks t -> valid_name n = true /\ is_Some (d !! n))
                  /\ forall n, n ∈ rk_old_chunks t ++ rk_derivative_chunks t -> valid_name n = true
  end.

Lemma recover_record_returns d k t :
  recoverable d t -> exists d' k', recover_transaction_record t (mkWorld d [] k) = (Ok tt, mkWorld d' [] k').
Proof.
  intros [Hv Ht].
  assert (exists d' k', (match rk_phase t with
            | Staging => rollback_staged_chunks (rk_new_chunks t)
            | Committing => require_chunks (rk_new_chunks t);; rekey_delete_chunks (rk_old_chunks t);;
                            rekey_delete_chunks (rk_derivative_chunks t);; mret tt
            end) (mkWorld d [] k) = (Ok tt, mkWorld d' [] k')) as (d1 & k1 & E).
  { destruct (rk_phase t).
    - destruct (unfailing_delete_ignoring (rk_new_chunks t) d k) as ([] & d1 & k1 & E). eauto.
    - destruct Ht as [Hn Ho]. unfold mbind at 1, IO_bind at 1. rewrite (reads_require d _ Hn k).
      assert (unfailing (rekey_delete_chunks (rk_old_chunks t);; rekey_delete_chunks (rk_derivative_chunks t);; mret tt)) as Hdel.
      { apply unfailing_bind; [apply unfailing_rekey_delete; intros; apply Ho, elem_of_app; by left|]. intros _.
        apply unfailing_bind; [apply unfailing_rekey_delete; intros; apply Ho, elem_of_app; by right|]. intros _. apply unfailing_ret. }
      destruct (Hdel d k) as ([] & d1 & k1 & E). eauto. }
  assert (unfailing (sync;; remove_artifact RekeyTransactionMarker;; delete_rekey_marker)) as Hrest.
  { apply unfailing_bind; [apply unfailing_sync|]. intros _. apply unfailing_bind; [apply unfailing_remove|]. intros _.
    apply unfailing_bind; [apply unfailing_remove|]. intros _. apply unfailing_remove. }
  destruct (Hrest d1 k1) as ([] & d2 & k2 & E2). exists d2, k2.
  unfold recover_transaction_record, artifact_recover_record, validate_participant_record, recover_participant_record, artifact_delete.
  cbn [validate_payload rollback_staging recover_committing cleanup rekey_participant tx_payload tx_phase].
  rewrite Hv, Z.eqb_refl. cbn [rollback_staging recover_committing cleanup rekey_participant tx_payload tx_phase].
  unfold mbind, IO_bind in *. destruct (rk_phase t); rewrite E.
  all: destruct (sync (mkWorld d1 [] k1)) as [[[]|e] w2]; [|discriminate E2].
  all: destruct (remove_artifact RekeyTransactionMarker w2) as [[[]|e] w3]; [|discriminate E2]; exact E2.
Qed.

Lemma recover_returns key d k good :
  key = old_key \/ key = new_key -> marked_by old_key new_key good d -> (forall t, good t -> recoverable d t) ->
  exists d' k', recover_rekey_marker_for_key key (mkWorld d [] k) = (Ok tt, mkWorld d' [] k').
Proof.
  intros Hk Hm Hg. unfold recover_rekey_marker_for_key, load_encrypted_rekey_marker_for_key, read_artifact.
  unfold mbind, IO_bind. unfold call. cbn [fates disk fst snd tail].
  destruct (d !! bin) as [bs|] eqn:E; cbn -[open_recipient from_slice recover_transaction_record]; [|by exists d, k].
  destruct (Hm bs E) as (t & [Ho Hn] & Ht).
  assert (marker_of key bs = Ok (Some t)) as Hkey by (by destruct Hk as [->| ->]).
  unfold marker_of in Hkey. destruct (from_slice bs) as [mk|]; [|discriminate Hkey].
  destruct (_ || _); [discriminate Hkey|]. unfold io_lift. rewrite Hkey. cbn -[recover_transaction_record]. apply recover_record_returns, Hg, Ht.
Qed.

Lemma recovers key d k :
  key = old_key \/ key = new_key -> STAGED d \/ DONE d ->
  exists d' k', recover_rekey_marker_for_key key (mkWorld d [] k) = (Ok tt, mkWorld d' [] k') /\ d' !! bin = None.
Proof.
  intros Hk Hd.
  assert (exists d' k', recover_rekey_marker_for_key key (mkWorld d [] k) = (Ok tt, mkWorld d' [] k')) as (d' & k' & E).
  { destruct Hd as [[_ Hm]|(_ & Hm & Hw)]; (eapply recover_returns; [done|exact Hm|]); intros t Ht.
    - destruct Ht as (Hv & Hp & _). split; [done|]. by rewrite Hp.
    - destruct Ht as (Hv & Hp & Hn & Ho). split; [done|]. rewrite Hp. split; [|auto]. intros n Hin%Hn.
      split; [by eapply new_name_valid|]. unfold new_names in Hin. apply list_elem_of_fmap in Hin as (j & -> & Hj).
      unfold written in Hw. rewrite Forall_forall in Hw. destruct (Hw j Hj) as (b & Hb & _). by exists b. }
  exists d', k'. split; [done|]. destruct Hd as [Hd|Hd].
  - pose proof (recover_Staged old_key new_key D0 clk m key Hk (mkWorld d [] k) Hd) as Hr. rewrite E in Hr. by destruct Hr.
  - pose proof (recover_Done old_key new_key D0 clk m ready key Hk (mkWorld d [] k) Hd) as Hr. rewrite E in Hr. by destruct Hr.
Qed.
End Complete.

(** C11: The recovery of a change of the password cannot get stuck. Whatever faults or crash
    ended the change, and however often its recovery was interrupted since, with either key:
    one recovery without faults, with the old or with the new key, succeeds and removes the
    marker, and leaves the vault whole under the old or under the new key. (Provided nothing
    else used the storage in between; the names in the derivative index are chunk names.) *)
Theorem rekey_recovery_completes `{CryptoLaws} `{SerdeLaw RootIndex, SerdeLaw Shard, SerdeLaw DeltaEntry,
    Serde CatalogCommitRecord, SerdeLaw (DurableTxRecord CatalogCommitRecord)}
  `{Serde RekeyDerivativeRecord, SerdeLaw EncryptedRekeyMarkerV2, SerdeLaw RekeyMarkerPayloadV2, Serde RekeyTransaction}
  new_key clk clks cancel duration s w schedule key k clk' clks' k' :
  let old_key := ks_key s in
  let m := catalog (ks_session s) in
  let D0 := disk w in
  rekey_ready old_key new_key D0 clk m -> Forall (fun n => valid_name n = true) (old_names old_key new_key D0 m) ->
  key = old_key \/ key = new_key ->
  let '(_, _, w') := rekey_migrate clk clks cancel new_key duration s w in
  let d := rekey_recoveries old_key new_key schedule (disk w') in
  exists d' k2, recover_rekey_marker_for_key key (mkWorld d [] k) = (Ok tt, mkWorld d' [] k2)
    /\ d' !! file_name RekeyTransactionV2 = None
    /\ (vault_kept old_key new_key D0 clk m clk' clks' k' d' \/ vault_moved old_key new_key D0 clk m clk' clks' k' d').
Proof.
  intros old_key m D0 ready valid Hk. rewrite Forall_forall in valid.
  pose proof (migrate_ends old_key new_key D0 clk m ready clks cancel duration s eq_refl eq_refl s w (conj eq_refl eq_refl)) as Hm.
  destruct (rekey_migrate _ _ _ _ _ s w) as [[r s'] w']. cbv zeta. set (d := rekey_recoveries _ _ _ _).
  assert (Staged old_key new_key D0 clk m d \/ Done old_key new_key D0 clk m d) as Hd.
  { assert (Staged old_key new_key D0 clk m (disk w') \/ Done old_key new_key D0 clk m (disk w')) as [Hd|Hd].
    { destruct r; [right; by destruct Hm|exact Hm]. }
    - left. eapply recoveries_keep; [|done]. intros. by apply recover_Staged.
    - right. eapply recoveries_keep; [|done]. intros. by apply recover_Done. }
  destruct (recovers old_key new_key D0 clk m ready valid key d k Hk Hd) as (d' & k2 & E & Hb).
  exists d', k2. split_and!; [done..|]. destruct Hd as [Hd|Hd]; [left|right].
  - pose proof (recover_Staged old_key new_key D0 clk m key Hk (mkWorld d [] k) Hd) as Hr. rewrite E in Hr. apply Staged_kept; [done|by destruct Hr].
  - pose proof (recover_Done old_key new_key D0 clk m ready key Hk (mkWorld d [] k) Hd) as Hr. rewrite E in Hr. apply Done_moved; [done|by destruct Hr].
Qed.
