(* ===== verification/RekeyDemo.v ===== *)
(** * Changes of the password on a concrete vault

    A cipher that checks its key, serializations of the marker, and a vault with a file and
    an OTP secret: the hypotheses of the guarantee hold for it, and runs on it show two ways
    in which a change that stops at a fault loses data later. *)

From Stdlib Require Import Strings.Byte Ascii String.
From stdpp Require Import base countable gmap strings list sorting.
From S2P Require Import Prelude.
From S2P Require Import CatalogNode.
From S2P Require Import CatalogManager.
From S2P Require Import CatalogTree.
From S2P Require Import CatalogDelta.
From S2P Require Import CatalogShard.
From S2P Require Import Bytes.
From S2P Require Import Storage.
From S2P Require Import Crypto.
From S2P Require Import IoLogic.
From S2P Require Import DurableTx.
From S2P Require Import Encoding.
From S2P Require Import ChunkCache.
From S2P Require Import CatalogCommit.
From S2P Require Import CatalogLoad.
From S2P Require Import CatalogSave.
From S2P Require Import SaveSafety.
From S2P Require Import SaveSpec.
From S2P Require Import CatalogSession.
From S2P Require Import BlobFinalize.
From S2P Require Import FileReplace.
From S2P Require Import Artifacts.
From S2P Require Import Rekey.
From S2P Require Import RekeySpec.
From S2P Require Import RekeySafe.
From S2P Require Import RekeyPassword.
From S2P Require Import RekeyRecover.
Open Scope Z_scope.

(** ** Instances *)

Definition key_tag (key : list byte) : list byte := drop TAG_SIZE (toy_hash key).

Lemma key_tag_length key : length (key_tag key) = TAG_SIZE.
Proof. unfold key_tag. rewrite length_drop. unfold toy_hash. by rewrite length_to_be_bytes. Qed.

(** The tag of a message is the hash of its key. *)
Definition keyed_crypto : Crypto := {|
  blake3 := toy_hash;
  random_nonce k := to_be_bytes NONCE_SIZE (Z.of_nat k);
  aead_encrypt key _ _ msg := Some (msg ++ key_tag key);
  aead_decrypt key _ _ c :=
    let n := (length c - TAG_SIZE)%nat in if bool_decide (drop n c = key_tag key) then Some (take n c) else None;
|}.

Lemma keyed_crypto_laws : CryptoLaws keyed_crypto.
Proof.
  split; cbn [blake3 random_nonce aead_encrypt aead_decrypt keyed_crypto].
  - intros m. exact (length_to_be_bytes KEY_SIZE _).
  - intros k. exact (length_to_be_bytes NONCE_SIZE _).
  - intros key _ _ msg c [= <-]. by rewrite length_app, key_tag_length.
  - intros key _ _ msg c [= <-]. cbv zeta. rewrite length_app, key_tag_length, Nat.add_sub, drop_app_length, take_app_length.
    by rewrite bool_decide_true.
Qed.

Lemma keyed_foreign key other : key_tag key <> key_tag other -> @foreign keyed_crypto key other.
Proof.
  intros Hne nonce msg c. cbn [aead_encrypt aead_decrypt keyed_crypto]. intros [= <-]. cbv zeta.
  rewrite length_app, key_tag_length, Nat.add_sub, drop_app_length. by rewrite bool_decide_false.
Qed.

Definition of_payload (p : RekeyMarkerPayloadV2) : Z * bool * list string * list string * list string :=
  (pv_version p, phase_code (pv_phase p), pv_old_chunks p, pv_new_chunks p, pv_derivative_chunks p).
Definition to_payload (x : Z * bool * list string * list string * list string) : RekeyMarkerPayloadV2 :=
  let '(v, ph, o, n, d) := x in mkPayloadV2 v (code_phase ph) o n d.
Definition payload_serde : Serde RekeyMarkerPayloadV2 := view_serde of_payload to_payload.
Lemma payload_serde_law : @SerdeLaw _ payload_serde.
Proof. apply view_serde_law. by intros [v [] o n d]. Qed.

Definition rekey_tx_serde : Serde RekeyTransaction := view_serde (fun t => of_payload (payload_from t))
  (fun x => let p := to_payload x in mkRekeyTx (pv_version p) (pv_phase p) (pv_old_chunks p) (pv_new_chunks p) (pv_derivative_chunks p)).

(** Two messages, the length of the first in front. *)
Definition marker_serde : Serde EncryptedRekeyMarkerV2 := {|
  to_vec x :=
    let n := Z.of_nat (length (mv_old_recipient x)) in
    if (mv_version x =? REKEY_MARKER_V2_VERSION) && String.eqb (mv_kind x) REKEY_MARKER_V2_KIND && (n <? 2 ^ 32)
    then Some (to_be_bytes 4 n ++ mv_old_recipient x ++ mv_new_recipient x) else None;
  from_slice bs :=
    let n := Z.to_nat (from_be_bytes (take 4 bs)) in
    Some (mkMarkerV2 REKEY_MARKER_V2_VERSION REKEY_MARKER_V2_KIND (take n (drop 4 bs)) (drop n (drop 4 bs)));
|}.

Lemma marker_serde_law : @SerdeLaw _ marker_serde.
Proof.
  intros [v kd o n] bs. unfold to_vec, from_slice, marker_serde. cbn [mv_version mv_kind mv_old_recipient mv_new_recipient].
  destruct (Z.eqb_spec v REKEY_MARKER_V2_VERSION) as [->|]; [|done].
  destruct (String.eqb_spec kd REKEY_MARKER_V2_KIND) as [->|]; [|done].
  destruct (Z.ltb_spec (Z.of_nat (length o)) (2 ^ 32)) as [Hl|]; [|done]. cbn [andb]. intros E. apply (inj Some) in E as <-.
  assert (length (to_be_bytes 4 (Z.of_nat (length o))) = 4%nat) as H4 by apply length_to_be_bytes.
  rewrite take_app_length', drop_app_length' by done. rewrite from_to_be_bytes by (cbn -[Z.pow] in *; lia).
  by rewrite Nat2Z.id, take_app_length, drop_app_length.
Qed.

Definition of_rekey_entry (e : RekeyDerivativeEntry) : Z * Z * string * Z * string * Z :=
  (re_node_id e, re_source_revision e, re_tier e, re_storage_version e, re_meta_chunk_name e, re_part_count e).
Definition to_rekey_entry (x : Z * Z * string * Z * string * Z) : RekeyDerivativeEntry :=
  let '(a, b, c, d, e, f) := x in mkRekeyEntry a b c d e f.
Definition derivative_serde : Serde RekeyDerivativeRecord :=
  view_serde (fun r => map of_rekey_entry (re_entries r)) (fun l => mkRekeyIndex (map to_rekey_entry l)).

Definition toy_argon2 : Argon2 := fun password salt => Ok (toy_hash (as_bytes password ++ salt)).

#[local] Existing Instances keyed_crypto keyed_crypto_laws root_serde commit_serde tx_serde root_serde_law tx_serde_law
  shard_serde delta_serde shard_serde_law delta_serde_law payload_serde payload_serde_law rekey_tx_serde marker_serde
  marker_serde_law derivative_serde toy_argon2.

(** ** A vault *)

Definition demo_salt : list byte := replicate SALT_SIZE x05.
Definition demo_pepper : list byte := [x01; x02; x03].
Definition password_key (password : string) : list byte := toy_hash (as_bytes password ++ derive_stretched_salt demo_salt demo_pepper).
Definition key1 : list byte := password_key "first password".
Definition key2 : list byte := password_key "second password".
Definition keystore (_ : nat) : result Error (option (list byte)) := Ok (Some demo_pepper).

Definition sealed_chunk (key plain : list byte) (n : string) : list byte :=
  to_be_bytes NONCE_SIZE 0 ++ plain ++ key_tag key.

(** Its file has a chunk, a node has an OTP secret, there is a derivative index and a
    chunk of another vault. *)
Definition demo_chunks : Disk :=
  list_to_map [(file_name Salt, demo_salt);
               (blob_chunk_name key1 3 0, sealed_chunk key1 [x0a; x0b] "");
               (otp_chunk_name key1 3, sealed_chunk key1 [x0c] "");
               (derivative_index_chunk_name key1, [x00]);
               (blob_chunk_name demo_key 3 0, [x0d])].

Definition demo_clk : clock := fun _ => 7.
Definition demo_clks : nat -> clock := fun _ _ => 7.
Definition demo_save_clks : string -> clock := fun _ _ => 7.
Definition never (_ : nat) : bool := false.
Definition vault1 : KeyedSession := mkKeyed key1 (mkSession demo_before true ∅ new_default 0).
Definition change : VaultRekeyRequest := mkRekeyRequest "first password" "second password".

Definition run_change (fs : list fate) (d : Disk) : result stop VaultRekeyResult * KeyedSession * World :=
  rekey_password demo_clk demo_clks demo_save_clks never keystore change 5 vault1 (mkWorld d fs 0).

(** The vault after a save, which is what a change starts from. *)
Definition saved1 : result stop (list (string * DeltaEntry)) * KeyedSession * World :=
  keyed (fun key => session_save key demo_clk demo_save_clks) vault1 (mkWorld demo_chunks [] 0).
Definition session1 : KeyedSession := mkKeyed key1 (ks_session (snd (fst saved1))).
Definition disk1 : Disk := disk (snd saved1).

Lemma demo_rekey_ready : rekey_ready (ks_key session1) key2 disk1 demo_clk (catalog (ks_session session1)).
Proof.
  change (ks_key session1) with key1. split.
  - apply keyed_foreign. vm_compute. discriminate.
  - vm_compute. reflexivity.
  - apply (bool_decide_unpack _). vm_compute. exact I.
  - apply (bool_decide_unpack _). vm_compute. exact I.
  - apply Forall_forall. apply (bool_decide_unpack _). vm_compute. exact I.
  - intros key [->| ->]; (split; [vm_compute; reflexivity|]); apply (bool_decide_unpack _); vm_compute; exact I.
  - apply (bool_decide_unpack _). vm_compute. exact I.
Qed.

Definition demo_rekey_faults : list fate := repeat Runs 25 ++ [FailsAfter; FailsBefore; Crashes].
Definition demo_rekey_schedule : list (bool * list fate * nat) :=
  [(true, [Runs; Runs; FailsBefore], 0%nat); (false, [Runs; Runs; Crashes], 0%nat)].

Definition world1 : World := mkWorld disk1 demo_rekey_faults 0.

Lemma rekey_crash_safe_witness :
  rekey_ready (ks_key session1) key2 (disk world1) demo_clk (catalog (ks_session session1))
  /\ let '(r, s', w') := rekey_migrate demo_clk demo_clks never key2 5 session1 world1 in
     let d := rekey_recoveries (ks_key session1) key2 demo_rekey_schedule (disk w') in
     (vault_kept (ks_key session1) key2 (disk world1) demo_clk (catalog (ks_session session1)) demo_clk demo_clks 0 d
      \/ vault_moved (ks_key session1) key2 (disk world1) demo_clk (catalog (ks_session session1)) demo_clk demo_clks 0 d)
     /\ (forall x, r = Ok x ->
           vault_moved (ks_key session1) key2 (disk world1) demo_clk (catalog (ks_session session1)) demo_clk demo_clks 0 d
           /\ d = disk w' /\ ks_key s' = key2 /\ old_gone (ks_key session1) key2 (disk world1) (catalog (ks_session session1)) d).
Proof.
  split; [exact demo_rekey_ready|].
  pose proof (rekey_crash_safe key2 demo_clk demo_clks never 5 session1 world1 demo_rekey_schedule
                demo_clk demo_clks 0 demo_rekey_ready) as Hw.
  exact Hw.
Defined.

(** The change crashes in the middle of its clean up, and so does a first recovery. *)
Definition world2 : World := mkWorld disk1 (repeat Runs 58 ++ [Crashes]) 0.

Lemma demo_old_names_valid : Forall (fun n => valid_name n = true) (old_names (ks_key session1) key2 (disk world2) (catalog (ks_session session1))).
Proof. apply (bool_decide_unpack _). vm_compute. exact I. Qed.

Lemma rekey_recovery_completes_witness :
  rekey_ready (ks_key session1) key2 (disk world2) demo_clk (catalog (ks_session session1))
  /\ let '(_, _, w') := rekey_migrate demo_clk demo_clks never key2 5 session1 world2 in
     let d := rekey_recoveries (ks_key session1) key2 demo_rekey_schedule (disk w') in
     exists d' k2, recover_rekey_marker_for_key key2 (mkWorld d [] 0) = (Ok tt, mkWorld d' [] k2)
       /\ d' !! file_name RekeyTransactionV2 = None
       /\ (vault_kept (ks_key session1) key2 (disk world2) demo_clk (catalog (ks_session session1)) demo_clk demo_clks 0 d'
           \/ vault_moved (ks_key session1) key2 (disk world2) demo_clk (catalog (ks_session session1)) demo_clk demo_clks 0 d').
Proof.
  split; [exact demo_rekey_ready|].
  pose proof (rekey_recovery_completes key2 demo_clk demo_clks never 5 session1 world2 demo_rekey_schedule key2 0 demo_clk demo_clks 0
                demo_rekey_ready demo_old_names_valid (or_intror eq_refl)) as Hw.
  exact Hw.
Defined.

Definition wrong_password : VaultRekeyRequest := mkRekeyRequest "wrong password" "second password".
Definition faulty_world : World := mkWorld disk1 [Runs; Runs; FailsAfter] 0.

Lemma wrong_password_refusable : refusable (disk faulty_world) keystore wrong_password (ks_key session1).
Proof.
  right. left. intros (p & salt & Hp & Hs & Hk). injection Hp as <-.
  assert (disk faulty_world !! file_name Salt = Some demo_salt) as E by (vm_compute; reflexivity).
  rewrite E in Hs. injection Hs as <-. vm_compute in Hk. discriminate Hk.
Qed.

Lemma rekey_refused_witness :
  refusable (disk faulty_world) keystore wrong_password (ks_key session1)
  /\ let '(r, s', w') := rekey_password demo_clk demo_clks demo_save_clks never keystore wrong_password 5 session1 faulty_world in
     is_ok r = false /\ s' = session1 /\ disk w' = disk faulty_world.
Proof.
  assert (disk faulty_world !! file_name RekeyTransactionV2 = None) as Hb by (vm_compute; reflexivity).
  assert (disk faulty_world !! file_name RekeyTransactionMarker = None) as Hl by (vm_compute; reflexivity).
  split; [exact wrong_password_refusable|].
  pose proof (rekey_refused demo_clk demo_clks demo_save_clks never keystore wrong_password 5 session1 faulty_world
                Hb Hl wrong_password_refusable) as Hw.
  exact Hw.
Defined.

(** ** Work that goes on after an error *)

(** The change meets one fault; the session goes on with a command and saves. *)
Definition change_then (fs : list fate) (c : cmd) : bool * list byte * bool * Disk :=
  let '(r, s, w) := run_change fs demo_chunks in
  let s := mkKeyed (ks_key s) (run_cmd demo_clk c (ks_session s)) in
  let '(r', s', w') := keyed (fun key => session_save key demo_clk demo_save_clks) s (mkWorld (disk w) [] 0) in
  (is_ok r, ks_key s, is_ok r', disk w').

(** What an unlock finds after its recovery, which may fail. *)
Definition unlock (key : list byte) (d : Disk) : result stop CatalogLoadOutcome :=
  fst ((recover_rekey_marker_for_key key;; load_for_unlock key demo_clk demo_clks) (mkWorld d [] 0)).

Definition kind_of (r : result stop CatalogLoadOutcome) : option CatalogLoadKind :=
  match r with Ok o => Some (lo_kind o) | Err _ => None end.
Definition has_name (n : string) (r : result stop CatalogLoadOutcome) : bool :=
  match r with Ok o => existsb (fun c => String.eqb (node_name c) n) (children (root (lo_catalog o))) | Err _ => false end.

(** The deletion of the first old chunk fails: the change reports an error, but the session
    has the new key already and the marker stays. It goes on working; when a save removes a
    chunk that the marker lists as new, here that of a deleted folder, no unlock succeeds
    any more, with either password. *)
Theorem rekey_error_locks_out :
  let '(changed, key, saved, d) := change_then (repeat Runs 83 ++ [FailsBefore]) (CmdDelete 2) in
  changed = false /\ key = key2 /\ saved = true
  /\ kind_of (unlock key1 d) = None /\ kind_of (unlock key2 d) = None.
Proof. vm_compute. repeat split; reflexivity. Qed.

(** The marker that decides the change is in place, but the sync after it fails: the change
    reports an error and the session goes on with the old key and saves. The next unlock
    with the old password finds an empty vault: it finished the change and deleted what was
    saved. The new password finds the vault without it. *)
Theorem rekey_error_loses_saves :
  let '(changed, key, saved, d) := change_then (repeat Runs 81 ++ [FailsBefore]) (CmdCreateDir "/" "new") in
  changed = false /\ key = key1 /\ saved = true
  /\ kind_of (unlock key1 d) = Some NoCatalog
  /\ has_name "docs" (unlock key2 d) = true /\ has_name "new" (unlock key2 d) = false.
Proof. vm_compute. repeat split; reflexivity. Qed.

(** ** Two vaults, one marker *)

Definition other_change : VaultRekeyRequest := mkRekeyRequest "other password" "another password".
Definition other_vault : KeyedSession := mkKeyed (password_key "other password") (mkSession demo_before true ∅ new_default 0).

(** A change of one vault crashes once it is decided; then the password of another vault in
    the same storage is changed, without faults. *)
Definition crashed_change : Disk := disk (snd (run_change (repeat Runs 83 ++ [Crashes]) demo_chunks)).
Definition two_changes : Disk :=
  disk (snd (rekey_password demo_clk demo_clks demo_save_clks never keystore other_change 5 other_vault (mkWorld crashed_change [] 0))).

(** The second change drops the marker of the first: the recovery of the first vault never
    runs, and both its old and its new password open it. *)
Theorem rekey_marker_overwritten :
  is_Some (crashed_change !! file_name RekeyTransactionV2)
  /\ two_changes !! file_name RekeyTransactionV2 = None
  /\ kind_of (unlock key1 two_changes) = Some LoadedSharded /\ kind_of (unlock key2 two_changes) = Some LoadedSharded.
Proof. split; [apply (bool_decide_unpack _); vm_compute; exact I|]. vm_compute. repeat split; reflexivity. Qed.
