(* ===== verification/MasterKey.v ===== *)
(** * The master password and its change

    Models [crates/core/src/rpc/router/master_material.rs] and [master_rekey.rs] with its
    directory: the salt and the verifier of the master password as artifacts, and the change
    of the password, a transaction on the verifier that survives crashes. Of the router only
    the fields are kept that the change touches; an error has its code, its message and the
    error it was made from, whose text the code appends to the message. *)

From Stdlib Require Import Strings.Byte Ascii String.
From stdpp Require Import base countable gmap strings list.
From S2P Require Import Prelude.
From S2P Require Import CatalogNode.
From S2P Require Import Bytes.
From S2P Require Import Storage.
From S2P Require Import Crypto.
From S2P Require Import IoLogic.
From S2P Require Import DurableTx.
From S2P Require Import Artifacts.
From S2P Require Import Rekey.
Open Scope Z_scope.

(** ** Errors *)

Inductive MasterCode :=
  | MasterRekeyPasswordPolicy | MasterRekeyInvalidCurrentPassword | MasterRekeyArtifactUnsupported
  | MasterRekeyIntegrityFailed | InvalidMasterPassword | MasterInternal.

Record MasterRekeyError := mkMasterError { me_code : MasterCode; me_message : string; me_cause : option Error }.

Definition password_policy (message : string) : MasterRekeyError := mkMasterError MasterRekeyPasswordPolicy message None.
Definition invalid_current_password : MasterRekeyError :=
  mkMasterError MasterRekeyInvalidCurrentPassword "Current master password is invalid" None.
Definition artifact_unsupported (message : string) (cause : option Error) : MasterRekeyError :=
  mkMasterError MasterRekeyArtifactUnsupported message cause.
Definition integrity_failed (message : string) (cause : option Error) : MasterRekeyError :=
  mkMasterError MasterRekeyIntegrityFailed message cause.
Definition master_internal (message : string) (cause : option Error) : MasterRekeyError :=
  mkMasterError MasterInternal message cause.
Definition invalid_master_password : MasterRekeyError := mkMasterError InvalidMasterPassword "Invalid master password" None.

Abbreviation MIO A := (IO (result MasterRekeyError A)).

(** [c.map_err(f)?; k]. *)
Definition m_try {A B} (f : Error -> MasterRekeyError) (c : IO A) (k : A -> MIO B) : MIO B :=
  r ← attempt c;
  match r with
  | Ok a => k a
  | Err e => mret (Err (f e))
  end.

(** [c?; k] for a computation with the same errors. *)
Definition m_bind {A B} (c : MIO A) (k : A -> MIO B) : MIO B :=
  r ← c;
  match r with
  | Ok a => k a
  | Err e => mret (Err e)
  end.

(** [storage.write_artifact_durable(artifact, bytes).map_err(f)?]. *)
Definition m_write_durable (f : Error -> MasterRekeyError) (a : StorageArtifact) (bytes : list byte) : MIO unit :=
  r ← write_artifact_durable a bytes;
  match r with
  | Ok _ => mret (Ok tt)
  | Err e => mret (Err (f (aw_error e)))
  end.

(** ** Types (types.rs) *)

Definition MASTER_REKEY_TX_KIND : string := "master_rekey".

Inductive MasterRekeyArtifactKind := KindMasterVerify.

Record MasterRekeyArtifact := mkMasterArtifact {
  ma_name : string;
  ma_file_name : string;
  ma_target_artifact : StorageArtifact;
  ma_temp_artifact : StorageArtifact;
  ma_kind : MasterRekeyArtifactKind;
}.

Definition MASTER_REKEY_ARTIFACTS : list MasterRekeyArtifact :=
  [mkMasterArtifact "master.verify" "master.verify" MasterVerify MasterVerifyRekeyTemp KindMasterVerify].

Record MasterRekeyTransactionArtifact := mkTxArtifact { ta_name : string; ta_target_name : string; ta_temp_name : string }.

Record MasterRekeyTransaction := mkMasterTx {
  mt_version : Z;
  mt_phase : DurableTxPhase;
  mt_artifacts : list MasterRekeyTransactionArtifact;
}.

Definition master_rekey_temp_name (a : MasterRekeyArtifact) : string :=
  String.append "." (String.append (ma_file_name a) ".master-rekey.tmp").

(** ** The service (service.rs) *)

(** [record.name == artifact.name && ...]. *)
Definition matches_record (record : MasterRekeyTransactionArtifact) (a : MasterRekeyArtifact) : bool :=
  String.eqb (ta_name record) (ma_name a) && String.eqb (ta_target_name record) (ma_file_name a)
  && String.eqb (ta_temp_name record) (master_rekey_temp_name a).

Definition registry_artifact_for_record (record : MasterRekeyTransactionArtifact) : result MasterRekeyError MasterRekeyArtifact :=
  ok_or (List.find (matches_record record) MASTER_REKEY_ARTIFACTS)
    (integrity_failed (String.append "Master rekey transaction artifact " (String.append (ta_name record) " does not match registry")) None).

(** The loop over the registry. *)
Fixpoint validate_artifacts (records : list MasterRekeyTransactionArtifact) (artifacts : list MasterRekeyArtifact)
    : result MasterRekeyError unit :=
  match artifacts with
  | [] => Ok tt
  | a :: artifacts' =>
      match List.find (fun r => String.eqb (ta_name r) (ma_name a)) records with
      | None => Err (integrity_failed (String.append "Master rekey transaction missing artifact: " (ma_name a)) None)
      | Some r =>
          if negb (String.eqb (ta_target_name r) (ma_file_name a)) || negb (String.eqb (ta_temp_name r) (master_rekey_temp_name a))
          then Err (integrity_failed (String.append "Master rekey transaction artifact " (String.append (ma_name a) " does not match registry")) None)
          else validate_artifacts records artifacts'
      end
  end.

Definition validate_transaction_payload (t : MasterRekeyTransaction) : result MasterRekeyError unit :=
  if negb (mt_version t =? 1)
  then Err (integrity_failed (String.append "Unsupported master rekey transaction version: " (show_u64 (mt_version t))) None)
  else if negb (length (mt_artifacts t) =? length MASTER_REKEY_ARTIFACTS)%nat
  then Err (integrity_failed "Master rekey transaction artifact registry mismatch" None)
  else validate_artifacts (mt_artifacts t) MASTER_REKEY_ARTIFACTS.

Definition write_master_rekey_temp_durable (a : MasterRekeyArtifact) (bytes : list byte) : MIO unit :=
  m_write_durable (fun e => integrity_failed "Failed to stage master.verify" (Some e)) (ma_temp_artifact a) bytes.
Definition write_master_rekey_target_durable (a : MasterRekeyArtifact) (bytes : list byte) : MIO unit :=
  m_write_durable (fun e => integrity_failed (String.append "Failed to commit master rekey artifact " (ma_name a)) (Some e))
    (ma_target_artifact a) bytes.

Fixpoint rollback_artifacts (records : list MasterRekeyTransactionArtifact) : MIO unit :=
  match records with
  | [] => mret (Ok tt)
  | record :: records' =>
      m_bind (mret (registry_artifact_for_record record)) (fun a =>
      m_try (fun e => integrity_failed "Failed to remove staged master rekey artifact" (Some e)) (remove_artifact (ma_temp_artifact a)) (fun _ =>
      rollback_artifacts records'))
  end.
Definition rollback_staged_artifacts (t : MasterRekeyTransaction) : MIO unit := rollback_artifacts (mt_artifacts t).

(** One round of the loop below. *)
Definition commit_artifact (record : MasterRekeyTransactionArtifact) (a : MasterRekeyArtifact) : MIO unit :=
  m_try (fun e => integrity_failed (String.append "Failed to read staged master rekey artifact " (ta_name record)) (Some e))
    (read_artifact (ma_temp_artifact a)) (fun staged =>
  match staged with
  | Some staged =>
      m_bind (write_master_rekey_target_durable a staged) (fun _ =>
      m_try (fun e => integrity_failed (String.append "Failed to remove staged master rekey artifact " (ta_name record)) (Some e))
        (remove_artifact (ma_temp_artifact a)) (fun _ => mret (Ok tt)))
  | None =>
      m_try (fun e => integrity_failed (String.append "Failed to check committed master rekey artifact " (ta_name record)) (Some e))
        (artifact_exists (ma_target_artifact a)) (fun e =>
      if negb e
      then mret (Err (integrity_failed (String.append "Master rekey artifact "
             (String.append (ta_name record) " is missing both staged and committed files")) None))
      else mret (Ok tt))
  end).

Fixpoint commit_artifacts (records : list MasterRekeyTransactionArtifact) : MIO unit :=
  match records with
  | [] => mret (Ok tt)
  | record :: records' =>
      m_bind (mret (registry_artifact_for_record record)) (fun a =>
      m_bind (commit_artifact record a) (fun _ => commit_artifacts records'))
  end.
Definition recover_committing_artifacts (t : MasterRekeyTransaction) : MIO unit := commit_artifacts (mt_artifacts t).

(** ** The participant (participant.rs) *)

Inductive MasterRekeyParticipant := mkMasterParticipant.

(** [.map_err(|error| std::io::Error::other(error.into_message()))?]. *)
Definition into_io (c : MIO unit) : IO unit :=
  r ← c;
  match r with
  | Ok _ => mret tt
  | Err e => io_throw (StorageIo (me_message e))
  end.

#[global] Instance master_participant `{Crypto} : DurableTxParticipant MasterRekeyParticipant MasterRekeyTransaction := {|
  KIND := MASTER_REKEY_TX_KIND;
  VERSION := 1;
  marker_context := fun _ => "master:rekey:tx:v1"%string;
  marker_name := fun _ vault_key => chunk_name_u64 vault_key (as_bytes "master:rekey:tx:v1") 0;
  validate_payload := fun _ payload => is_ok (validate_transaction_payload payload);
  rollback_staging := fun _ _ record => into_io (rollback_staged_artifacts (tx_payload record));
  recover_committing := fun _ _ record => into_io (recover_committing_artifacts (tx_payload record));
  cleanup := fun _ _ _ => mret tt;
|}.

Section Service.
Context `{cr : Crypto} `{Serde MasterRekeyTransaction, Serde (DurableTxRecord MasterRekeyTransaction)}.

Definition persist_legacy_phase (t : MasterRekeyTransaction) : MIO unit :=
  m_try (fun e => integrity_failed "Failed to write master rekey transaction" (Some e))
    (artifact_write_legacy_payload Artifacts.MasterRekeyTransaction t) (fun _ => mret (Ok tt)).

Definition cleanup_artifact_temps (artifacts : list MasterRekeyArtifact) : IO unit :=
  fold_right (fun a k => ignore (remove_artifact (ma_temp_artifact a));; k) (mret tt) artifacts.
Definition cleanup_orphaned_temps : IO unit := cleanup_artifact_temps MASTER_REKEY_ARTIFACTS.

Definition recover_failed (e : Error) : MasterRekeyError := integrity_failed "Failed to recover master rekey transaction" (Some e).
Definition read_failed (e : Error) : MasterRekeyError := integrity_failed "Failed to read master rekey transaction" (Some e).

Definition master_recover : MIO unit :=
  m_try read_failed (artifact_read_participant_record Artifacts.MasterRekeyTransaction mkMasterParticipant) (fun o =>
  match o with
  | Some record =>
      m_try recover_failed (artifact_recover_record Artifacts.MasterRekeyTransaction mkMasterParticipant record) (fun _ => mret (Ok tt))
  | None =>
      m_try read_failed (artifact_read_legacy_payload_strict Artifacts.MasterRekeyTransaction) (fun o =>
      match o with
      | None => cleanup_orphaned_temps;; mret (Ok tt)
      | Some t =>
          m_bind (mret (validate_transaction_payload t)) (fun _ =>
          m_try recover_failed
            (artifact_recover_record Artifacts.MasterRekeyTransaction mkMasterParticipant
               (mkTxRecord 1 MASTER_REKEY_TX_KIND "master-rekey" (mt_phase t) t)) (fun _ => mret (Ok tt)))
      end)
  end).

#[local] Instance byte_eq : EqDecision byte := Byte.byte_eq_dec.

Definition validate_master_verify_stage (temp_artifact : StorageArtifact) (new_verify : list byte) : MIO unit :=
  m_try (fun e => integrity_failed "Failed to read staged master.verify" (Some e)) (read_artifact temp_artifact) (fun o =>
  m_bind (mret (ok_or o (integrity_failed "Failed to read staged master.verify: not found" None))) (fun staged =>
  if bool_decide (staged = new_verify) then mret (Ok tt)
  else mret (Err (integrity_failed "Staged master.verify failed validation" None)))).

(** The loop over the registry: stages each artifact and records it. *)
Fixpoint stage_artifacts (new_verify : list byte) (artifacts : list MasterRekeyArtifact)
    : MIO (list MasterRekeyTransactionArtifact * list string) :=
  match artifacts with
  | [] => mret (Ok ([], []))
  | a :: artifacts' =>
      m_bind (match ma_kind a with
              | KindMasterVerify =>
                  m_bind (write_master_rekey_temp_durable a new_verify) (fun _ => validate_master_verify_stage (ma_temp_artifact a) new_verify)
              end) (fun _ =>
      m_try (fun e => artifact_unsupported (String.append "Failed to check registered master rekey artifact " (ma_name a)) (Some e))
        (artifact_exists (ma_target_artifact a)) (fun target_exists =>
      if negb target_exists
      then mret (Err (artifact_unsupported (String.append "Registered master rekey artifact missing: " (ma_name a)) None))
      else
      m_bind (stage_artifacts new_verify artifacts') (fun '(records, rewrapped) =>
      mret (Ok (mkTxArtifact (ma_name a) (ma_file_name a) (master_rekey_temp_name a) :: records, ma_name a :: rewrapped)))))
  end.

Definition stage_and_commit_verify (new_verify : list byte) : MIO (list string) :=
  m_bind (stage_artifacts new_verify MASTER_REKEY_ARTIFACTS) (fun '(artifacts, rewrapped) =>
  m_bind (persist_legacy_phase (mkMasterTx 1 Staging artifacts)) (fun _ =>
  let t := mkMasterTx 1 Committing artifacts in
  m_bind (persist_legacy_phase t) (fun _ =>
  m_bind (recover_committing_artifacts t) (fun _ =>
  m_try (fun e => integrity_failed "Failed to remove master rekey transaction" (Some e))
    (artifact_delete Artifacts.MasterRekeyTransaction) (fun _ => mret (Ok rewrapped)))))).
End Service.

(** ** The material (master_material.rs) *)

Record MasterMaterial := mkMaterial { mm_salt : list byte; mm_verify : list byte }.
Record MasterSetupOutcome := mkSetupOutcome { ms_created : bool }.

Definition fixed_array (n : nat) (bytes : list byte) (name : string) : result MasterRekeyError (list byte) :=
  if (length bytes =? n)%nat then Ok bytes else Err (master_internal (String.append "Invalid " name) None).

Definition read_fixed_artifact (n : nat) (a : StorageArtifact) (name : string) : MIO (list byte) :=
  m_try (fun e => master_internal (String.append "Failed to read " name) (Some e)) (read_artifact a) (fun o =>
  match o with
  | None => mret (Err (master_internal (String.append "Failed to read " (String.append name ": not found")) None))
  | Some bytes => mret (fixed_array n bytes name)
  end).

Definition read_master_salt : MIO (list byte) := read_fixed_artifact 16 MasterSalt "master.salt".
Definition read_master_verify : MIO (list byte) := read_fixed_artifact 32 MasterVerify "master.verify".
Definition read_master_material : MIO MasterMaterial :=
  m_bind read_master_salt (fun salt => m_bind read_master_verify (fun verify => mret (Ok (mkMaterial salt verify)))).

Definition master_verify_exists : MIO bool :=
  m_try (fun e => master_internal "Failed to check master.verify" (Some e)) (artifact_exists MasterVerify) (fun b => mret (Ok b)).

Definition write_master_salt_durable (salt : list byte) : MIO unit :=
  m_write_durable (fun e => master_internal "Failed to create master.salt" (Some e)) MasterSalt salt.
Definition write_master_verify (verify : list byte) : MIO unit :=
  m_write_durable (fun e => master_internal "Failed to write master.verify" (Some e)) MasterVerify verify.

(** [salt] is what [getrandom] draws, if it is asked. *)
Definition get_or_create_master_salt (salt : list byte) : MIO (list byte) :=
  r ← attempt (read_artifact MasterSalt);
  match r with
  | Ok (Some bytes) => mret (fixed_array 16 bytes "master.salt")
  | Ok None =>
      m_try (fun e => master_internal "Failed to create master.salt" (Some e)) (call (fun d => (Ok tt, d))) (fun _ =>
      m_bind (write_master_salt_durable salt) (fun _ => mret (Ok salt)))
  | Err e => mret (Err (master_internal "Failed to read master.salt" (Some e)))
  end.

Definition remove_master_material_best_effort : IO unit :=
  ignore (remove_artifact MasterSalt);;
  ignore (remove_artifact MasterVerify);;
  ignore (remove_artifact MasterVerifyRekeyTemp);;
  ignore (remove_artifact Artifacts.MasterRekeyTransaction).

Section Material.
Context `{cr : Crypto} `{Argon2}.
#[local] Existing Instance byte_eq.

(** [derive_vault_key(password, salt).map_err(..)] and its hash. *)
Definition master_hash (f : Error -> MasterRekeyError) (password : string) (salt : list byte) : result MasterRekeyError (list byte) :=
  map_err f (derive_vault_key_with_salt password salt) ≫= fun key => Ok (blake3 key).

Definition verify_master_password_with_material (password : string) (salt expected_verify : list byte) : result MasterRekeyError unit :=
  master_hash (fun e => master_internal "" (Some e)) password salt ≫= fun actual =>
  if bool_decide (actual = expected_verify) then Ok tt else Err invalid_master_password.

Definition verify_master_password (password : string) : MIO unit :=
  m_bind read_master_material (fun material => mret (verify_master_password_with_material password (mm_salt material) (mm_verify material))).

Definition ensure_master_setup (salt : list byte) (password : string) : MIO MasterSetupOutcome :=
  m_bind master_verify_exists (fun e =>
  if (e : bool) then m_bind (verify_master_password password) (fun _ => mret (Ok (mkSetupOutcome false))) else
  m_bind (get_or_create_master_salt salt) (fun salt =>
  m_bind (mret (master_hash (fun e => master_internal "Failed to derive master key" (Some e)) password salt)) (fun verify_hash =>
  m_bind (write_master_verify verify_hash) (fun _ => mret (Ok (mkSetupOutcome true)))))).

Definition derive_backup_key_v2 (password : string) (salt : list byte) : result MasterRekeyError (list byte) :=
  map_err (fun e => master_internal "" (Some e)) (derive_vault_key_with_salt password salt) ≫= fun key =>
  Ok (blake3 (key ++ as_bytes "local-backup-v2")).

Definition derive_backup_key_v2_for_password (password : string) : MIO (list byte) :=
  m_bind (verify_master_password password) (fun _ =>
  m_bind read_master_salt (fun salt => mret (derive_backup_key_v2 password salt))).
End Material.

(** ** The change (master_rekey.rs) *)

(** What the change touches of the router. *)
Record MasterRouter := mkMasterRouter {
  master_key : option string;
  backup_local : option string;
  restore_local : option string;
  erase_token : option string;
  vault_export : option string;
  credential_import : option string;
  credential_sessions : list string;
}.

Record MasterRekeyRequest := mkMasterRequest { mq_current_password : string; mq_new_master_password : string }.
Record MasterRekeyResponse := mkMasterResponse { mr_rewrapped_artifacts : list string; mr_backup_recommended : bool }.

Definition MASTER_REKEY_MIN_PASSWORD_LEN : nat := 12.

Definition set_master_key (k : option string) (r : MasterRouter) : MasterRouter :=
  mkMasterRouter k (backup_local r) (restore_local r) (erase_token r) (vault_export r) (credential_import r) (credential_sessions r).

(** What a successful change does to the router. *)
Definition after_master_rekey (new_master_password : string) (r : MasterRouter) : MasterRouter :=
  let r := mkMasterRouter (master_key r) None None None None None [] in
  match master_key r with
  | Some _ => set_master_key (Some new_master_password) r
  | None => r
  end.

(** [with_transient_master]: the operation may change the router, the key is put back. *)
Definition with_transient_master {A} (password : string) (operation : StIO MasterRouter A) : StIO MasterRouter A := fun r w =>
  let previous := master_key r in
  let '(x, r', w') := operation (set_master_key (Some password) r) w in (x, set_master_key previous r', w').

Section Change.
Context `{cr : Crypto} `{Argon2}.

(** [derive_backup_key_v2] of the router, with the password it keeps. *)
Definition derive_router_backup_key_v2 (r : MasterRouter) : MIO (list byte) :=
  m_bind (mret (ok_or (master_key r) (master_internal "Master password not loaded" None))) (fun password =>
  derive_backup_key_v2_for_password password).

Context `{Serde MasterRekeyTransaction, Serde (DurableTxRecord MasterRekeyTransaction)}.
#[local] Existing Instance byte_eq.

Definition check_new_master_password (request : MasterRekeyRequest) : result MasterRekeyError unit :=
  if (string_len (mq_new_master_password request) <? MASTER_REKEY_MIN_PASSWORD_LEN)%nat
  then Err (password_policy "New master password must be at least 12 characters")
  else if String.eqb (mq_new_master_password request) (mq_current_password request)
  then Err (password_policy "New master password must be different from the current master password")
  else Ok tt.

(** The verifier of the new password, for someone who knows the current one. *)
Definition new_master_verify (request : MasterRekeyRequest) (material : MasterMaterial) : result MasterRekeyError (list byte) :=
  master_hash (fun e => master_internal "" (Some e)) (mq_current_password request) (mm_salt material) ≫= fun old_verify =>
  if negb (bool_decide (old_verify = mm_verify material)) then Err invalid_current_password
  else master_hash (fun e => master_internal "" (Some e)) (mq_new_master_password request) (mm_salt material).

Definition rewrap_master (request : MasterRekeyRequest) : MIO MasterRekeyResponse :=
  m_bind (mret (check_new_master_password request)) (fun _ =>
  m_bind read_master_material (fun material =>
  m_bind (mret (new_master_verify request material)) (fun new_verify =>
  m_bind (stage_and_commit_verify new_verify) (fun rewrapped => mret (Ok (mkMasterResponse rewrapped true)))))).

Definition handle_master_rekey_result (request : MasterRekeyRequest) : StIO MasterRouter (result MasterRekeyError MasterRekeyResponse) :=
  r ← io (rewrap_master request);
  match r with
  | Ok response => st_modify (after_master_rekey (mq_new_master_password request));; mret (Ok response)
  | Err e => mret (Err e)
  end.

Definition handle_master_rekey (request : MasterRekeyRequest) : StIO MasterRouter (result MasterRekeyError MasterRekeyResponse) :=
  r ← io master_recover;
  match r with
  | Ok _ => handle_master_rekey_result request
  | Err e => mret (Err e)
  end.
End Change.
