(* ===== verification/MasterKeySafe.v ===== *)
(** * A change of the master password survives faults and crashes

    Wherever the change stops, and however often its recovery is interrupted, one recovery
    without faults succeeds, and then exactly the passwords are accepted that were before, or
    the new one is; the latter after a change that reported success. *)

From Stdlib Require Import Strings.Byte Ascii String.
From stdpp Require Import base countable gmap strings list.
From S2P Require Import Prelude.
From S2P Require Import CatalogNode.
From S2P Require Import Bytes.
From S2P Require Import Storage.
From S2P Require Import Crypto.
From S2P Require Import IoLogic.
From S2P Require Import DurableTx.
From S2P Require Import Encoding.
From S2P Require Import Footprint.
From S2P Require Import ChunkBatch.
From S2P Require Import Artifacts.
From S2P Require Import Rekey.
From S2P Require Import RekeySpec.
From S2P Require Import MasterKey.
Open Scope Z_scope.

Abbreviation ver := (file_name MasterVerify).
Abbreviation tmp := (file_name MasterVerifyRekeyTemp).
Abbreviation txn := (file_name Artifacts.MasterRekeyTransaction).

(** ** Computations with errors of their own *)

Definition ensures_m {A} (P : Disk -> Prop) (c : IO (result MasterRekeyError A)) (Q : A -> Disk -> Prop) (C : Disk -> Prop) : Prop :=
  ensures P c (fun r d => match r with Ok a => Q a d | Err _ => C d end) C.

Section Rules.
Context {A B : Type}.
Implicit Types (P C : Disk -> Prop).

Lemma ensures_m_ret P (r : result MasterRekeyError A) Q C :
  (forall a d, P d -> r = Ok a -> Q a d) -> (forall d, P d -> C d) -> ensures_m P (mret r) Q C.
Proof. intros HQ HC. apply ensures_ret. intros d Hd. destruct r; eauto. Qed.

Lemma ensures_m_bind P (c : MIO A) (k : A -> MIO B) Q R C :
  ensures_m P c Q C -> (forall a, ensures_m (Q a) (k a) R C) -> ensures_m P (m_bind c k) R C.
Proof.
  intros Hc Hk. unfold m_bind. eapply ensures_bind; [exact Hc|]. intros [a|e]; [apply Hk|]. by apply ensures_ret.
Qed.

Lemma ensures_m_pure P (r : result MasterRekeyError A) (k : A -> MIO B) R C :
  (forall d, P d -> C d) -> (forall a, r = Ok a -> ensures_m P (k a) R C) -> ensures_m P (m_bind (mret r) k) R C.
Proof.
  intros HC Hk. unfold m_bind, ensures_m. destruct r as [a|e]; [exact (Hk a eq_refl)|]. intros w Hw. cbn. by apply HC.
Qed.

Lemma ensures_m_try P f (c : IO A) (k : A -> MIO B) Q R C :
  ensures P c Q C -> (forall a, ensures_m (Q a) (k a) R C) -> ensures_m P (m_try f c k) R C.
Proof.
  intros Hc Hk. unfold m_try. eapply ensures_bind; [apply ensures_attempt, Hc|]. intros [a|e]; [apply Hk|]. by apply ensures_ret.
Qed.

Lemma ensures_m_conseq P P' (c : MIO A) Q Q' C :
  ensures_m P' c Q' C -> (forall d, P d -> P' d) -> (forall a d, Q' a d -> Q a d) -> ensures_m P c Q C.
Proof. intros Hc HP HQ. eapply ensures_conseq; [exact Hc|done|]. intros [a|e] d; auto. Qed.
End Rules.

Lemma ensures_m_write f a bs (P C : Disk -> Prop) :
  (forall d, P d -> C d /\ C (<[file_name a := bs]> d)) ->
  ensures_m P (m_write_durable f a bs) (fun _ d => exists d0, P d0 /\ d = <[file_name a := bs]> d0) C.
Proof.
  intros HC w Hw. unfold m_write_durable, write_artifact_durable, artifact_step, catch.
  unfold write_artifact_temp, sync_artifact_temp, rename_artifact_temp, sync_artifact_parent, remove_artifact_temp, ignore, sync, backend_call.
  unfold attempt, mbind, IO_bind, call. destruct (HC _ Hw) as [H1 H2].
  repeat (cbn; match goal with |- context [match ?fs with [] => _ | _ :: _ => _ end] => destruct fs as [|[] ?] end); cbn; eauto.
Qed.

(** ** The states of a change *)

Definition verify_record : MasterRekeyTransactionArtifact := mkTxArtifact "master.verify" "master.verify" ".master.verify.master-rekey.tmp".
Definition master_tx (phase : DurableTxPhase) : MasterRekeyTransaction := mkMasterTx 1 phase [verify_record].

Section States.
Context `{cr : Crypto} {crl : CryptoLaws cr}.
Context `{SerdeLaw MasterRekeyTransaction, Serde (DurableTxRecord MasterRekeyTransaction)}.

(** A bare payload lacks the fields of a record, so that it is not read as one. *)
Definition legacy_is_no_record : Prop :=
  forall (t : MasterRekeyTransaction) bs, to_vec t = Some bs -> @from_slice (DurableTxRecord MasterRekeyTransaction) _ bs = None.
Context (legacy : legacy_is_no_record).
Context (D0 : Disk) (new_verify : list byte).

Definition tx_is (phase : DurableTxPhase) (d : Disk) : Prop := exists bs, d !! txn = Some bs /\ to_vec (master_tx phase) = Some bs.

(** The verifier is the old one. *)
Definition Before (d : Disk) : Prop :=
  same_outside (fun n => n = tmp \/ n = txn) D0 d /\ (d !! txn = None \/ tx_is Staging d).

(** The change is decided: the new verifier is there, or staged, as long as the transaction
    says so. *)
Definition After (d : Disk) : Prop :=
  same_outside (fun n => n = tmp \/ n = txn \/ n = ver) D0 d
  /\ ((tx_is Committing d /\ (d !! tmp = Some new_verify \/ (d !! tmp = None /\ d !! ver = Some new_verify)))
      \/ (d !! txn = None /\ d !! ver = Some new_verify)).

Lemma same_outside_insert N d n (bs : list byte) : N n -> same_outside N D0 d -> same_outside N D0 (<[n := bs]> d).
Proof. intros Hn Hs x Hx. rewrite lookup_insert_ne; [by apply Hs|]. by intros <-. Qed.

Lemma same_outside_delete N (d : Disk) n : N n -> same_outside N D0 d -> same_outside N D0 (delete n d).
Proof. intros Hn Hs x Hx. rewrite lookup_delete_ne; [by apply Hs|]. by intros <-. Qed.

Lemma tx_is_other phase d d' : d' !! txn = d !! txn -> tx_is phase d -> tx_is phase d'.
Proof. intros E (bs & Hb & Ho). exists bs. by rewrite E. Qed.

Lemma Before_temp d o : Before d -> (forall n, n <> tmp -> o !! n = d !! n) -> Before o.
Proof.
  intros [Hs Ht] Ho. split.
  - intros n Hn. rewrite Ho by tauto. by apply Hs.
  - rewrite Ho by done. destruct Ht as [?|Ht]; [by left|right]. eapply tx_is_other; [|done]. by apply Ho.
Qed.

Lemma Before_unmark d : Before d -> Before (delete txn d).
Proof. intros [Hs _]. split; [apply same_outside_delete; auto|]. left. apply lookup_delete_eq. Qed.

Lemma Before_mark d bs : Before d -> to_vec (master_tx Staging) = Some bs -> Before (<[txn := bs]> d).
Proof. intros [Hs _] Hb. split; [apply same_outside_insert; auto|]. right. exists bs. by rewrite lookup_insert_eq. Qed.

Lemma Before_decide d bs :
  Before d -> d !! tmp = Some new_verify -> to_vec (master_tx Committing) = Some bs -> After (<[txn := bs]> d).
Proof.
  intros [Hs _] Ht Hb. split.
  - apply same_outside_insert; [auto|]. intros n Hn. apply Hs. tauto.
  - left. split; [exists bs; by rewrite lookup_insert_eq|]. left. by rewrite lookup_insert_ne.
Qed.

(** ** Recovery *)

Lemma verify_artifact_found phase :
  validate_transaction_payload (master_tx phase) = Ok tt /\ registry_artifact_for_record verify_record
    = Ok (mkMasterArtifact "master.verify" "master.verify" MasterVerify MasterVerifyRekeyTemp KindMasterVerify).
Proof. split; reflexivity. Qed.

(** What recovery finds. *)
Lemma read_tx_ends d :
  (d !! txn = None \/ tx_is Staging d \/ tx_is Committing d) ->
  ensures (eq d) (artifact_read_participant_record Artifacts.MasterRekeyTransaction mkMasterParticipant) (fun o d' => d' = d /\ o = None) (eq d).
Proof.
  intros Ht. unfold artifact_read_participant_record, artifact_read_record.
  apply (ensures_bind _ _ _ (fun o d' => d' = d /\ o = None)).
  - eapply ensures_bind; [apply read_artifact_is|]. intros o. apply ensures_known. intros d1 [-> ->].
    destruct (d !! txn) as [bs|] eqn:E; [|by apply ensures_ret; intros ? <-].
    apply ensures_ret. intros ? <-. split; [done|]. unfold decode_record.
    destruct Ht as [Ht|[(b & Hb & Ho)|(b & Hb & Ho)]]; [congruence| |]; rewrite Hb in E; injection E as ->; by rewrite (legacy _ _ Ho).
  - intros o. apply ensures_known. intros d1 [-> ->]. apply ensures_ret. by intros ? <-.
Qed.

Lemma read_legacy_ends d phase :
  tx_is phase d ->
  ensures (eq d) (artifact_read_legacy_payload_strict Artifacts.MasterRekeyTransaction) (fun o d' => d' = d /\ o = Some (master_tx phase)) (eq d).
Proof.
  intros (bs & Hb & Ho). unfold artifact_read_legacy_payload_strict. eapply ensures_bind; [apply read_artifact_is|].
  intros o. apply ensures_known. intros d1 [-> ->]. rewrite Hb.
  eapply ensures_bind; [apply (ensures_lift (eq d)); by intros ? <-|]. intros t. apply ensures_pure. intros Ht%ok_or_Ok_inv.
  rewrite (from_to_vec _ _ Ho) in Ht. injection Ht as <-. apply ensures_ret. by intros ? <-.
Qed.

Lemma read_no_legacy_ends d :
  d !! txn = None ->
  ensures (eq d) (artifact_read_legacy_payload_strict Artifacts.MasterRekeyTransaction)
    (fun (o : option MasterRekeyTransaction) d' => d' = d /\ o = None) (eq d).
Proof.
  intros Hb. unfold artifact_read_legacy_payload_strict. eapply ensures_bind; [apply read_artifact_is|].
  intros o. apply ensures_known. intros d1 [-> ->]. rewrite Hb. apply ensures_ret. by intros ? <-.
Qed.

Lemma remove_temp_ends (St : Disk -> Prop) :
  (forall d, St d -> St (delete tmp d)) ->
  ensures St (remove_artifact MasterVerifyRekeyTemp) (fun _ d => St d /\ d !! tmp = None) St.
Proof.
  intros Hd. eapply ensures_conseq; [apply (remove_artifact_ends MasterVerifyRekeyTemp St St); auto|done|].
  intros _u d (d0 & Hd0 & ->). split; [auto|apply lookup_delete_eq].
Qed.

(** Deleting the staged verifier is harmless without a transaction that needs it. *)
Lemma cleanup_temps_ends (St : Disk -> Prop) :
  (forall d, St d -> St (delete tmp d)) -> ensures St cleanup_orphaned_temps (fun _ => St) St.
Proof.
  intros Hd. unfold cleanup_orphaned_temps, cleanup_artifact_temps. cbn [fold_right MASTER_REKEY_ARTIFACTS ma_temp_artifact].
  apply (ensures_seq _ _ _ St); [|by apply ensures_ret]. unfold ignore.
  eapply ensures_bind; [apply ensures_attempt, remove_temp_ends, Hd|].
  intros [u|e]; apply ensures_ret; [|done]. by intros d [? _].
Qed.

Lemma rollback_ends (St : Disk -> Prop) :
  (forall d, St d -> St (delete tmp d)) -> ensures_m St (rollback_staged_artifacts (master_tx Staging)) (fun _ => St) St.
Proof.
  intros Hd. unfold rollback_staged_artifacts. cbn [mt_artifacts master_tx rollback_artifacts]. apply ensures_m_pure; [done|].
  intros a Ha. rewrite (proj2 (verify_artifact_found Staging)) in Ha. injection Ha as <-. cbn [ma_temp_artifact].
  eapply ensures_m_try; [apply remove_temp_ends, Hd|]. intros _u. cbn beta. apply ensures_m_ret; [by intros a d [? _]|by intros d [? _]].
Qed.

(** The staged verifier, if it is there, becomes the verifier. *)
Definition Committed (d : Disk) : Prop := After d /\ tx_is Committing d /\ d !! ver = Some new_verify.

Lemma After_delete_temp d : After d -> d !! ver = Some new_verify -> After (delete tmp d).
Proof.
  intros [Hs Ht] Hv. split; [apply same_outside_delete; auto|].
  destruct Ht as [[Ht _]|[Ht _]]; [left; split|right]; rewrite ?lookup_delete_ne by done; try done.
  - eapply tx_is_other; [|done]. by apply lookup_delete_ne.
  - right. split; [apply lookup_delete_eq|]. rewrite ?lookup_delete_ne by done. done.
Qed.

Lemma After_write d : After d -> d !! tmp = Some new_verify -> tx_is Committing d -> Committed (<[ver := new_verify]> d).
Proof.
  intros [Hs Ht] Htm Htx. assert (tx_is Committing (<[ver := new_verify]> d)) as Htx'.
  { eapply tx_is_other; [|done]. by apply lookup_insert_ne. }
  split_and!; [|done|apply lookup_insert_eq]. split; [apply same_outside_insert; auto|]. left. split; [done|left].
  by rewrite lookup_insert_ne.
Qed.

Lemma commit_ends :
  ensures_m (fun d => After d /\ tx_is Committing d) (recover_committing_artifacts (master_tx Committing)) (fun _ => Committed) After.
Proof.
  unfold recover_committing_artifacts. cbn [mt_artifacts master_tx commit_artifacts]. apply ensures_m_pure; [by intros d [? _]|].
  intros a Ha. rewrite (proj2 (verify_artifact_found Committing)) in Ha. injection Ha as <-.
  apply (ensures_m_bind _ _ _ (fun _ => Committed)); [|intros _u; by apply ensures_m_ret; [|intros d [? _]]].
  unfold commit_artifact. cbn [ma_temp_artifact ma_target_artifact]. apply ensures_known. intros d [Hd Htx].
  assert (d !! tmp = Some new_verify \/ (d !! tmp = None /\ d !! ver = Some new_verify)) as Ht.
  { destruct Hd as [_ [[_ Ht]|[Hn _]]]; [done|]. destruct Htx as (bs & Hb & _). congruence. }
  eapply ensures_m_try; [eapply ensures_crash; [apply read_artifact_is|by intros ? <-]|]. intros o. apply ensures_known. intros d1 [-> ->].
  destruct Ht as [Ht|[Ht Hv]]; rewrite Ht.
  - apply (ensures_m_bind _ _ _ (fun _ => Committed)).
    + eapply ensures_m_conseq; [apply (ensures_m_write _ MasterVerify new_verify (eq d) After)|done|].
      * intros ? <-. split; [done|]. by apply After_write.
      * intros _u d2 (d0 & <- & ->). by apply After_write.
    + intros _u. eapply ensures_m_try; [eapply ensures_crash; [apply (remove_temp_ends Committed)|by intros d' [? _]]|].
      * intros d' (Ha & Hx & Hv). split_and!; [by apply After_delete_temp| |by rewrite lookup_delete_ne].
        eapply tx_is_other; [|done]. by apply lookup_delete_ne.
      * intros _v. cbn beta. apply ensures_m_ret; [by intros ? d' [? _]|by intros d' [[? _] _]].
  - eapply ensures_m_try.
    + apply (ensures_call (eq d) _ (fun b d' => d' = d /\ b = true)). intros ? <-. cbn. split_and!; [done..|].
      intros b [= <-]. split; [done|]. apply bool_decide_true. exact (mk_is_Some _ _ Hv).
    + intros b. apply ensures_known. intros d1 [-> ->]. cbn [negb]. apply ensures_m_ret; [|by intros ? <-].
      intros ? ? <- _. done.
Qed.

Lemma ensures_into_io P (c : MIO unit) (Q : Disk -> Prop) C : ensures_m P c (fun _ => Q) C -> ensures P (into_io c) (fun _ => Q) C.
Proof. intros Hc. unfold into_io. eapply ensures_bind; [exact Hc|]. intros [[]|e]; [by apply ensures_ret|by intros w Hw]. Qed.

Lemma remove_tx_ends (P St : Disk -> Prop) :
  (forall d, P d -> St d) -> (forall d, P d -> St (delete txn d)) ->
  ensures P (artifact_delete Artifacts.MasterRekeyTransaction) (fun _ d => St d /\ d !! txn = None) St.
Proof.
  intros HP Hd. eapply ensures_conseq; [apply (remove_artifact_ends Artifacts.MasterRekeyTransaction P St); auto|done|].
  intros _u d (d0 & Hd0 & ->). split; [auto|apply lookup_delete_eq].
Qed.

(** The recovery of a record, by what its phase does. *)
Lemma recover_record_by phase (P Q St : Disk -> Prop) :
  (forall d, Q d -> St d) -> (forall d, Q d -> St (delete txn d)) ->
  ensures_m P (match phase with
               | Staging => rollback_staged_artifacts (master_tx Staging)
               | Committing => recover_committing_artifacts (master_tx Committing)
               end) (fun _ => Q) St ->
  ensures P (artifact_recover_record Artifacts.MasterRekeyTransaction mkMasterParticipant
               (mkTxRecord 1 MASTER_REKEY_TX_KIND "master-rekey" phase (master_tx phase)))
    (fun _ d => St d /\ d !! txn = None) St.
Proof.
  intros HQ Hd Hc. unfold artifact_recover_record, validate_participant_record, recover_participant_record.
  cbn [validate_payload rollback_staging recover_committing cleanup master_participant tx_payload tx_phase].
  rewrite (proj1 (verify_artifact_found phase)). cbn [is_ok].
  cbn [rollback_staging recover_committing cleanup master_participant tx_payload tx_phase].
  apply (ensures_seq _ _ _ Q); [|by apply remove_tx_ends].
  apply (ensures_seq _ _ _ Q); [|by apply ensures_ret]. destruct phase; by apply ensures_into_io.
Qed.

Lemma After_unmark d : After d -> d !! ver = Some new_verify -> After (delete txn d).
Proof.
  intros [Hs _] Hv. split; [apply same_outside_delete; auto|]. right. split; [apply lookup_delete_eq|by rewrite lookup_delete_ne].
Qed.

Lemma recover_by (P St : Disk -> Prop) :
  (forall d, P d -> St d) -> (forall d, P d -> d !! txn = None \/ tx_is Staging d \/ tx_is Committing d) ->
  ensures (fun d => P d /\ d !! txn = None) cleanup_orphaned_temps (fun _ d => St d /\ d !! txn = None) St ->
  (forall phase, ensures (fun d => P d /\ tx_is phase d)
     (artifact_recover_record Artifacts.MasterRekeyTransaction mkMasterParticipant
        (mkTxRecord 1 MASTER_REKEY_TX_KIND "master-rekey" phase (master_tx phase))) (fun _ d => St d /\ d !! txn = None) St) ->
  ensures_m P master_recover (fun _ d => St d /\ d !! txn = None) St.
Proof.
  intros HS Ht Hc Hr. unfold master_recover. apply ensures_known. intros d Hd.
  eapply ensures_m_try; [eapply ensures_crash; [apply read_tx_ends; auto|intros ? <-; auto]|]. intros o.
  apply ensures_known. intros d1 [-> ->]. destruct (Ht d Hd) as [Hn|Hx].
  - eapply ensures_m_try; [eapply ensures_crash; [by apply read_no_legacy_ends|intros ? <-; auto]|]. intros o.
    apply ensures_known. intros d1 [-> ->]. eapply (ensures_bind _ _ _ (fun _ d => St d /\ d !! txn = None)).
    + eapply ensures_conseq; [exact Hc|by intros ? <-|done].
    + intros _u. by apply ensures_m_ret; [|intros d' [? _]].
  - assert (exists phase, tx_is phase d) as [phase Hp] by (destruct Hx; eauto).
    eapply ensures_m_try; [eapply ensures_crash; [by apply (read_legacy_ends d phase)|intros ? <-; auto]|]. intros o.
    apply ensures_known. intros d1 [-> ->]. apply ensures_m_pure; [intros ? <-; auto|]. intros _u _.
    eapply ensures_m_try; [eapply ensures_conseq; [apply (Hr phase)|by intros ? <-|intros a d' Hx'; exact Hx']|].
    intros _v. cbn beta. by apply ensures_m_ret; [|intros d' [? _]].
Qed.

Lemma recover_Before : ensures_m Before master_recover (fun _ d => Before d /\ d !! txn = None) Before.
Proof.
  assert (forall d, Before d -> Before (delete tmp d)) as Htmp.
  { intros d Hd. eapply Before_temp; [done|]. intros n Hn. by apply lookup_delete_ne. }
  apply recover_by; [done| | |].
  - intros d [_ [?|?]]; auto.
  - eapply ensures_crash; [apply (cleanup_temps_ends (fun d => Before d /\ d !! txn = None))|by intros d [? _]].
    intros d [Hd Hn]. split; [auto|by rewrite lookup_delete_ne].
  - intros phase. destruct phase.
    + eapply ensures_conseq; [apply (recover_record_by Staging Before Before Before); [done|apply Before_unmark|by apply rollback_ends]|by intros d [? _]|done].
    + intros w [[_ [Hn|(b & Hb & Ho)]] (b' & Hb' & Ho')]; [congruence|].
      exfalso. rewrite Hb in Hb'. injection Hb' as <-.
      pose proof (from_to_vec _ _ Ho) as E1. rewrite (from_to_vec _ _ Ho') in E1. discriminate E1.
Qed.

Lemma recover_After : ensures_m After master_recover (fun _ d => After d /\ d !! txn = None) After.
Proof.
  assert (forall d, After d -> d !! txn = None -> d !! ver = Some new_verify) as Hver.
  { intros d [_ [[(b & Hb & _) _]|[_ Hv]]] Hn; [congruence|done]. }
  apply recover_by; [done| | |].
  - intros d [_ [[? _]|[? _]]]; auto.
  - eapply ensures_crash; [apply (cleanup_temps_ends (fun d => After d /\ d !! txn = None))|by intros d [? _]].
    intros d [Hd Hn]. split; [apply After_delete_temp; auto|by rewrite lookup_delete_ne].
  - intros phase. destruct phase.
    + intros w [[_ [[(b & Hb & Ho) _]|[Hn _]]] (b' & Hb' & Ho')]; [|congruence].
      exfalso. rewrite Hb in Hb'. injection Hb' as <-.
      pose proof (from_to_vec _ _ Ho) as E1. rewrite (from_to_vec _ _ Ho') in E1. discriminate E1.
    + apply (recover_record_by Committing (fun d => After d /\ tx_is Committing d) Committed After); [by intros d [? _]| |apply commit_ends].
      intros d (Ha & _ & Hv). by apply After_unmark.
Qed.

(** ** The change *)

Lemma stage_ends :
  ensures_m Before (stage_artifacts new_verify MASTER_REKEY_ARTIFACTS)
    (fun x d => fst x = [verify_record] /\ Before d /\ d !! tmp = Some new_verify) Before.
Proof.
  cbn [stage_artifacts MASTER_REKEY_ARTIFACTS ma_kind ma_temp_artifact ma_target_artifact].
  set (staged := fun d => Before d /\ d !! tmp = Some new_verify).
  assert (forall d, Before d -> staged (<[tmp := new_verify]> d)) as Hst.
  { intros d Hd. split; [|apply lookup_insert_eq]. eapply Before_temp; [done|]. intros n Hn. by apply lookup_insert_ne. }
  apply (ensures_m_bind _ _ _ (fun _ => staged)).
  - apply (ensures_m_bind _ _ _ (fun _ => staged)).
    + eapply ensures_m_conseq; [apply (ensures_m_write _ MasterVerifyRekeyTemp new_verify Before Before)|done|].
      * intros d Hd. split; [done|]. by apply Hst.
      * intros _u d (d0 & Hd & ->). by apply Hst.
    + intros _u. unfold validate_master_verify_stage. apply ensures_known. intros d Hd.
      eapply ensures_m_try; [eapply ensures_crash; [apply read_artifact_is|intros ? <-; apply Hd]|]. intros o.
      apply ensures_known. intros d1 [-> ->]. destruct Hd as [Hd Ht]. rewrite Ht. apply ensures_m_pure; [by intros ? <-|].
      intros bs [= <-]. rewrite bool_decide_true by done. apply ensures_m_ret; [by intros ? ? <- _|by intros ? <-].
  - intros _u. apply (ensures_m_try _ _ _ _ (fun _ => staged)).
    + apply ensures_call. intros d Hd. cbn. split_and!; [apply Hd..|done].
    + intros b. destruct b; cbn [negb]; [|by apply ensures_m_ret; [|intros d [? _]]].
      unfold m_bind. intros w [Hd Ht]. cbn. done.
Qed.

Lemma persist_ends phase (P C : Disk -> Prop) :
  (forall d, P d -> C d) -> (forall d bs, P d -> to_vec (master_tx phase) = Some bs -> C (<[txn := bs]> d)) ->
  ensures_m P (persist_legacy_phase (master_tx phase))
    (fun _ d => exists d0 bs, P d0 /\ to_vec (master_tx phase) = Some bs /\ d = <[txn := bs]> d0) C.
Proof.
  intros HC HC'. unfold persist_legacy_phase, artifact_write_legacy_payload.
  eapply (ensures_m_try _ _ _ _ (fun _ d => exists d0 bs, P d0 /\ to_vec (master_tx phase) = Some bs /\ d = <[txn := bs]> d0)).
  - eapply ensures_bind; [by apply ensures_lift|]. intros bs. apply ensures_pure. intros Hb%ok_or_Ok_inv.
    eapply ensures_conseq; [apply (write_artifact_ends Artifacts.MasterRekeyTransaction bs P C); auto|done|].
    intros _u d (d0 & Hd & ->). eauto 10.
  - intros _u. apply ensures_m_ret; [done|]. intros d (d0 & bs & Hd & Hb & ->). auto.
Qed.

Lemma stage_and_commit_ends :
  ensures_m Before (stage_and_commit_verify new_verify)
    (fun _ d => After d /\ d !! txn = None) (fun d => Before d \/ After d).
Proof.
  unfold stage_and_commit_verify. eapply ensures_m_bind.
  { eapply ensures_crash; [eapply ensures_conseq; [apply stage_ends|done|]|by left].
    intros [x|e] d Hx; [exact Hx|by left]. }
  intros [artifacts rewrapped]. cbn [fst].
  apply ensures_when. intros ->. fold (master_tx Staging). fold (master_tx Committing).
  eapply ensures_m_bind; [apply (persist_ends Staging)|].
  { intros d [Hd _]. by left. }
  { intros d bs [Hd _] Hb. left. by eapply Before_mark. }
  intros _u. cbn beta. apply (ensures_m_bind _ _ _ (fun _ d => After d /\ tx_is Committing d)).
  { eapply ensures_m_conseq; [apply (persist_ends Committing (fun d => Before d /\ d !! tmp = Some new_verify))| |].
    - intros d [? _]. by left.
    - intros d bs [Hd Ht] Hb. right. by apply Before_decide.
    - intros d (d0 & bs & [Hd Ht] & Hb & ->). split; [by eapply Before_mark|by rewrite lookup_insert_ne].
    - intros _v d (d0 & bs & [Hd Ht] & Hb & ->). split; [by apply Before_decide|]. exists bs. by rewrite lookup_insert_eq. }
  intros _v. eapply ensures_m_bind.
  { eapply ensures_crash; [eapply ensures_conseq; [apply commit_ends|done|]|by right]. intros [x|e] d Hx; [exact Hx|by right]. }
  intros _w. cbn beta. eapply ensures_m_try.
  { eapply ensures_crash; [apply (remove_tx_ends Committed After)|by right].
    - by intros d [? _].
    - intros d (Ha & _ & Hv). by apply After_unmark. }
  intros _x. cbn beta. apply ensures_m_ret; [done|]. intros d [? _]. by right.
Qed.

(** ** Recovery without faults *)

(** Without faults, [c] returns on [d], with [Q]. *)
Definition quietly {A} (c : IO A) (d : Disk) (Q : A -> Disk -> Prop) : Prop :=
  forall k, exists a d' k', c (mkWorld d [] k) = (Ok a, mkWorld d' [] k') /\ Q a d'.

Lemma quietly_ret {A} (a : A) d (Q : A -> Disk -> Prop) : Q a d -> quietly (mret a) d Q.
Proof. intros Ha k. by exists a, d, k. Qed.

Lemma quietly_bind {A B} (c : IO A) (f : A -> IO B) d Q (R : B -> Disk -> Prop) :
  quietly c d Q -> (forall a d', Q a d' -> quietly (f a) d' R) -> quietly (c ≫= f) d R.
Proof.
  intros Hc Hf k. destruct (Hc k) as (a & d' & k' & E & Ha). unfold mbind, IO_bind. rewrite E. by apply Hf.
Qed.

Lemma quietly_call {A} (eff : Disk -> result Error A * Disk) a d (Q : A -> Disk -> Prop) :
  fst (eff d) = Ok a -> Q a (snd (eff d)) -> quietly (call eff) d Q.
Proof. intros He Ha k. exists a, (snd (eff d)), k. unfold call. cbn. by rewrite He. Qed.

Lemma quietly_try {A B} f (c : IO A) (k : A -> MIO B) d Q (R : result MasterRekeyError B -> Disk -> Prop) :
  quietly c d Q -> (forall a d', Q a d' -> quietly (k a) d' R) -> quietly (m_try f c k) d R.
Proof.
  intros Hc Hk. unfold m_try. eapply quietly_bind.
  - intros j. destruct (Hc j) as (a & d' & k' & E & Ha). unfold attempt. rewrite E. exists (Ok a), d', k'. split; [done|].
    instantiate (1 := fun r d' => exists a, r = Ok a /\ Q a d'). cbn. eauto.
  - intros r d' (a & -> & Ha). by apply Hk.
Qed.

Lemma quietly_m_bind {A B} (c : MIO A) (k : A -> MIO B) d (Q : A -> Disk -> Prop) R :
  quietly c d (fun r d' => exists a, r = Ok a /\ Q a d') -> (forall a d', Q a d' -> quietly (k a) d' R) -> quietly (m_bind c k) d R.
Proof. intros Hc Hk. eapply quietly_bind; [exact Hc|]. intros r d' (a & -> & Ha). by apply Hk. Qed.

Lemma quietly_remove a d : quietly (remove_artifact a) d (fun _ d' => d' = delete (file_name a) d).
Proof. intros k. by exists tt, (delete (file_name a) d), k. Qed.

Lemma quietly_read a d : quietly (read_artifact a) d (fun o d' => o = d !! file_name a /\ d' = d).
Proof. by eapply quietly_call. Qed.

Lemma quietly_write f a bs d : quietly (m_write_durable f a bs) d (fun r d' => exists u, r = Ok u /\ d' = <[file_name a := bs]> d).
Proof. intros k. by exists (Ok tt), (<[file_name a := bs]> d), k; eauto. Qed.

Lemma quietly_record phase d :
  quietly (match phase with
           | Staging => rollback_staged_artifacts (master_tx Staging)
           | Committing => recover_committing_artifacts (master_tx Committing)
           end) d (fun r _ => r = Ok tt) ->
  quietly (artifact_recover_record Artifacts.MasterRekeyTransaction mkMasterParticipant
             (mkTxRecord 1 MASTER_REKEY_TX_KIND "master-rekey" phase (master_tx phase))) d (fun _ _ => True).
Proof.
  intros Hc. unfold artifact_recover_record, validate_participant_record, recover_participant_record.
  cbn [validate_payload rollback_staging recover_committing cleanup master_participant tx_payload tx_phase].
  rewrite (proj1 (verify_artifact_found phase)). cbn [is_ok].
  cbn [rollback_staging recover_committing cleanup master_participant tx_payload tx_phase].
  apply (quietly_bind _ _ _ (fun _ _ => True)); [|intros _ d' _; intros k; eexists _, _, _; by split; [|]].
  apply (quietly_bind _ _ _ (fun _ _ => True)); [|intros _ d' _; by apply quietly_ret].
  destruct phase; unfold into_io; (eapply quietly_bind; [exact Hc|]); intros r d' ->; by apply quietly_ret.
Qed.

Lemma quietly_rollback d : quietly (rollback_staged_artifacts (master_tx Staging)) d (fun r _ => r = Ok tt).
Proof.
  unfold rollback_staged_artifacts. cbn [mt_artifacts master_tx rollback_artifacts].
  apply (quietly_m_bind _ _ _ (fun _ _ => True)); [apply quietly_ret; by eexists|]. intros a d' _.
  eapply quietly_try; [apply quietly_remove|]. intros _u d2 _. by apply quietly_ret.
Qed.

Lemma quietly_commit d :
  (d !! tmp = Some new_verify \/ (d !! tmp = None /\ d !! ver = Some new_verify)) ->
  quietly (recover_committing_artifacts (master_tx Committing)) d (fun r _ => r = Ok tt).
Proof.
  intros Ht. unfold recover_committing_artifacts. cbn [mt_artifacts master_tx commit_artifacts].
  eapply (quietly_m_bind _ _ _ (fun a d' => a = mkMasterArtifact "master.verify" "master.verify" MasterVerify MasterVerifyRekeyTemp KindMasterVerify /\ d' = d)).
  { apply quietly_ret. by eexists. }
  intros a d' [-> ->]. apply (quietly_m_bind _ _ _ (fun _ _ => True)); [|intros _u d' _; by apply quietly_ret].
  unfold commit_artifact. cbn [ma_temp_artifact ma_target_artifact].
  eapply quietly_try; [apply quietly_read|]. intros o d' [-> ->]. destruct Ht as [Ht|[Ht Hv]]; rewrite Ht.
  - apply (quietly_m_bind _ _ _ (fun _ _ => True)).
    + intros k. destruct (quietly_write (fun e => integrity_failed (String.append "Failed to commit master rekey artifact " "master.verify") (Some e))
        MasterVerify new_verify d k) as (r & d2 & k2 & E & u & -> & ->). eexists _, _, _. split; [exact E|]. eauto.
    + intros _u d' _. eapply quietly_try; [apply quietly_remove|]. intros _v d2 _. apply quietly_ret. by eexists.
  - eapply quietly_try; [by eapply (quietly_call _ true _ (fun b _ => b = true)); [cbn; by rewrite bool_decide_true by (exact (mk_is_Some _ _ Hv))|]|].
    intros b d' ->. cbn [negb]. apply quietly_ret. by eexists.
Qed.

Lemma quietly_read_tx d :
  (d !! txn = None \/ exists phase, tx_is phase d) ->
  quietly (artifact_read_participant_record Artifacts.MasterRekeyTransaction mkMasterParticipant) d (fun o d' => o = None /\ d' = d).
Proof.
  intros Ht. unfold artifact_read_participant_record, artifact_read_record.
  apply (quietly_bind _ _ _ (fun o d' => o = None /\ d' = d)); [|intros o d' [-> ->]; by apply quietly_ret].
  eapply quietly_bind; [apply quietly_read|]. intros o d' [-> ->]. destruct (d !! txn) as [bs|] eqn:E; [|by apply quietly_ret].
  apply quietly_ret. split; [|done]. unfold decode_record. destruct Ht as [|(ph & b & Hb & Ho)]; [done|].
  rewrite E in Hb. injection Hb as <-. by rewrite (legacy _ _ Ho).
Qed.

Lemma recover_runs d : Before d \/ After d -> quietly master_recover d (fun r _ => r = Ok tt).
Proof.
  intros Hd. unfold master_recover.
  assert (d !! txn = None \/ exists phase, tx_is phase d /\ quietly (match phase with
           | Staging => rollback_staged_artifacts (master_tx Staging)
           | Committing => recover_committing_artifacts (master_tx Committing)
           end) d (fun r _ => r = Ok tt)) as Ht.
  { destruct Hd as [[_ [?|?]]|[_ [[? ?]|[? _]]]]; [by left| | |by left]; right.
    - exists Staging. split; [done|apply quietly_rollback].
    - exists Committing. split; [done|by apply quietly_commit]. }
  eapply quietly_try; [apply quietly_read_tx; destruct Ht as [?|(ph & ? & _)]; eauto|]. intros o d' [-> ->].
  destruct Ht as [Hn|(phase & (bs & Hb & Ho) & Hq)].
  - apply (quietly_try _ _ _ _ (fun o d' => o = None /\ d' = d)).
    { unfold artifact_read_legacy_payload_strict. eapply quietly_bind; [apply quietly_read|]. intros o d' [-> ->]. rewrite Hn. by apply quietly_ret. }
    intros o d' [-> ->]. apply (quietly_bind _ _ _ (fun _ _ => True)); [|intros _u d' _; by apply quietly_ret].
    intros k. by eexists _, _, _.
  - apply (quietly_try _ _ _ _ (fun o d' => o = Some (master_tx phase) /\ d' = d)).
    { unfold artifact_read_legacy_payload_strict. eapply quietly_bind; [apply quietly_read|]. intros o d' [-> ->]. rewrite Hb.
      rewrite (from_to_vec _ _ Ho). apply (quietly_bind _ _ _ (fun t d' => t = master_tx phase /\ d' = d)); [intros k; by eexists _, _, _|].
      intros t d' [-> ->]. by apply quietly_ret. }
    intros o d' [-> ->]. apply (quietly_m_bind _ _ _ (fun _ d' => d' = d)).
    { rewrite (proj1 (verify_artifact_found phase)). apply quietly_ret. by eexists. }
    intros _u d' ->. eapply quietly_try; [by apply (quietly_record phase)|]. intros _v d' _. by apply quietly_ret.
Qed.
End States.

(** ** Passwords *)

Section Passwords.
Context `{cr : Crypto} {crl : CryptoLaws cr} `{Argon2}.

(** What the check of a password says on a disk. *)
Definition verdict (password : string) (d : Disk) : result stop (result MasterRekeyError unit) :=
  fst (verify_master_password password (mkWorld d [] 0)).
Definition accepts (d : Disk) (password : string) : Prop := verdict password d = Ok (Ok tt).

(** Reading an artifact of a fixed size without faults. *)
Definition fixed_on (d : Disk) (n : nat) (a : StorageArtifact) (name : string) : result MasterRekeyError (list byte) :=
  match d !! file_name a with
  | None => Err (master_internal (String.append "Failed to read " (String.append name ": not found")) None)
  | Some bytes => fixed_array n bytes name
  end.

Lemma read_fixed_run d k n a name : read_fixed_artifact n a name (mkWorld d [] k) = (Ok (fixed_on d n a name), mkWorld d [] k).
Proof.
  unfold read_fixed_artifact, m_try, attempt, read_artifact, call, mbind, IO_bind, fixed_on. cbn [fates disk fst snd].
  by destruct (d !! file_name a).
Qed.

Lemma verdict_is password d :
  verdict password d = Ok (fixed_on d 16 MasterSalt "master.salt" ≫= fun salt => fixed_on d 32 MasterVerify "master.verify" ≫= fun verify =>
                           verify_master_password_with_material password salt verify).
Proof.
  unfold verdict, verify_master_password, read_master_material, read_master_salt, read_master_verify.
  unfold m_bind, mbind at 1 2 3, IO_bind. rewrite read_fixed_run. destruct (fixed_on d 16 _ _) as [salt|e]; [|done].
  rewrite read_fixed_run. by destruct (fixed_on d 32 _ _).
Qed.

Lemma verdict_same password d d' :
  d' !! file_name MasterSalt = d !! file_name MasterSalt -> d' !! ver = d !! ver -> verdict password d' = verdict password d.
Proof. intros Es Ev. rewrite !verdict_is. unfold fixed_on. by rewrite Es, Ev. Qed.

(** [password] has the verifier [v] with the salt on [d]. *)
Definition has_verifier (d : Disk) (password : string) (v : list byte) : Prop :=
  exists salt key, d !! file_name MasterSalt = Some salt /\ length salt = 16%nat
    /\ derive_vault_key_with_salt password salt = Ok key /\ v = blake3 key.

Lemma accepts_verifier d password v : has_verifier d password v -> d !! ver = Some v -> accepts d password.
Proof.
  intros (salt & key & Hs & Hl & Hk & ->) Hv. unfold accepts. rewrite verdict_is. unfold fixed_on. rewrite Hs, Hv.
  unfold fixed_array. rewrite Hl, blake3_length. cbn [mbind result_bind Nat.eqb].
  unfold verify_master_password_with_material, master_hash. rewrite Hk. cbn. by rewrite bool_decide_true.
Qed.

Lemma has_verifier_same d d' password v :
  d' !! file_name MasterSalt = d !! file_name MasterSalt -> has_verifier d password v -> has_verifier d' password v.
Proof. intros E (salt & key & Hs & Hr). exists salt, key. by rewrite E. Qed.

(** What was read when the material was read. *)
Lemma read_material_ends d :
  ensures_m (eq d) read_master_material
    (fun m d' => d' = d /\ d !! file_name MasterSalt = Some (mm_salt m) /\ length (mm_salt m) = 16%nat /\ d !! ver = Some (mm_verify m)) (eq d).
Proof.
  assert (forall n a name, ensures_m (eq d) (read_fixed_artifact n a name)
            (fun bs d' => d' = d /\ d !! file_name a = Some bs /\ length bs = n) (eq d)) as Hf.
  { intros n a name. unfold read_fixed_artifact. eapply ensures_m_try; [apply read_artifact_is|]. intros o.
    apply ensures_known. intros d1 [-> ->]. destruct (d !! file_name a) as [bs|] eqn:E; [|by apply ensures_m_ret].
    apply ensures_m_ret; [|done]. intros x ? <-. unfold fixed_array. destruct (Nat.eqb_spec (length bs) n); [|done]. by intros [= <-]. }
  unfold read_master_material. eapply ensures_m_bind; [apply Hf|]. intros salt. apply ensures_known. intros d1 (-> & Hs & Hl).
  eapply ensures_m_bind; [apply Hf|]. intros v. apply ensures_known. intros d1 (-> & Hv & _).
  apply ensures_m_ret; [|done]. intros m ? <- [= <-]. done.
Qed.
End Passwords.

(** ** The guarantee *)

Section Guarantee.
Context `{cr : Crypto} {crl : CryptoLaws cr} `{Argon2}.
Context `{SerdeLaw MasterRekeyTransaction, Serde (DurableTxRecord MasterRekeyTransaction)}.
Context (legacy : legacy_is_no_record).
Context (D0 : Disk) (request : MasterRekeyRequest).
Abbreviation current := (mq_current_password request).
Abbreviation new := (mq_new_master_password request).

(** The request knows the current password, and [v] is the verifier of the new one. *)
Definition entitled (v : list byte) : Prop := (exists v0, has_verifier D0 current v0 /\ D0 !! ver = Some v0) /\ has_verifier D0 new v.

Definition Outcome (d : Disk) : Prop := Before D0 d \/ exists v, entitled v /\ After D0 v d.

Lemma Before_keeps d n : Before D0 d -> n <> tmp -> n <> txn -> d !! n = D0 !! n.
Proof. intros [Hs _] Ht Hx. apply Hs. tauto. Qed.

Lemma rewrap_ends :
  ensures_m (Before D0) (rewrap_master request) (fun _ d => exists v, entitled v /\ After D0 v d /\ d !! txn = None) Outcome.
Proof.
  unfold rewrap_master. apply ensures_m_pure; [by left|]. intros _u _. apply ensures_known. intros d Hd.
  eapply ensures_m_bind.
  { eapply ensures_crash; [eapply ensures_conseq; [apply read_material_ends|done|]|intros ? <-; by left].
    intros [x|e] d' Hx; [exact Hx|]. subst d'. by left. }
  intros material. apply ensures_known. intros d1 (-> & Hs & Hl & Hv).
  rewrite (Before_keeps d) in Hs by done. rewrite (Before_keeps d) in Hv by done.
  apply ensures_m_pure; [intros ? <-; by left|]. intros v Hnew.
  assert (entitled v) as He.
  { unfold new_master_verify, master_hash in Hnew.
    destruct (derive_vault_key_with_salt current (mm_salt material)) as [k1|] eqn:E1; [|done]. cbn in Hnew.
    case_bool_decide as Hk; [|done]. cbn in Hnew.
    destruct (derive_vault_key_with_salt new (mm_salt material)) as [k2|] eqn:E2; [|done]. cbn in Hnew. injection Hnew as <-.
    split; [exists (mm_verify material); split; [|done]|]; [exists (mm_salt material), k1|exists (mm_salt material), k2]; done. }
  eapply ensures_m_bind.
  { eapply ensures_crash; [eapply ensures_conseq; [apply (stage_and_commit_ends D0 v)|intros ? <-; exact Hd|]|].
    - intros [x|e] d' Hx; [exact Hx|]. destruct Hx as [?|?]; [by left|right; eauto].
    - intros d' [?|?]; [by left|right; eauto]. }
  intros rewrapped. cbn beta. apply ensures_m_ret; [|intros d' [? _]; right; eauto]. intros a d' [? ?] _. eauto.
Qed.

Lemma recover_Outcome : ensures_m Outcome master_recover (fun _ d => Outcome d /\ d !! txn = None) Outcome.
Proof.
  intros w [Hb|(v & He & Ha)].
  - pose proof (recover_Before legacy D0 w Hb) as Hr.
    destruct (master_recover w) as [[[x|e]|e] w']; [destruct Hr; split; [by left|done]|by left..].
  - pose proof (recover_After legacy D0 v w Ha) as Hr.
    destruct (master_recover w) as [[[x|e]|e] w']; [destruct Hr; split; [right; eauto|done]|right; eauto..].
Qed.

(** The same for a disk on which the change succeeded. *)
Lemma recover_success v :
  ensures_m (fun d => After D0 v d) master_recover (fun _ d => After D0 v d /\ d !! txn = None) (After D0 v).
Proof. apply (recover_After legacy). Qed.

Lemma interrupted_keeps (St : Disk -> Prop) schedule d :
  ensures_m St master_recover (fun _ d => St d /\ d !! txn = None) St -> St d -> St (interrupted schedule (master_recover;; mret tt) d).
Proof.
  intros Hr. revert d. induction schedule as [|[fs k] schedule IH]; intros d Hd; [done|]. cbn [interrupted]. apply IH.
  specialize (Hr (mkWorld d fs k) Hd). unfold run_io, mbind, IO_bind.
  destruct (master_recover (mkWorld d fs k)) as [[[x|e]|e] w']; cbn; [by destruct Hr|done..].
Qed.

Lemma handle_ends router w :
  disk w = D0 -> D0 !! txn = None ->
  let '(x, router', w') := handle_master_rekey request router w in
  Outcome (disk w') /\ forall response, x = Ok (Ok response) ->
    router' = after_master_rekey new router /\ disk w' !! txn = None /\ exists v, entitled v /\ After D0 v (disk w').
Proof.
  intros Hw Hn. assert (Before D0 (disk w)) as Hb by (rewrite Hw; split; [reflexivity|by left]).
  unfold handle_master_rekey, handle_master_rekey_result, io, mbind, StIO_bind.
  pose proof (recover_Before legacy D0 w Hb) as Hr.
  destruct (master_recover w) as [[[x|e]|e] w1]; [|split; [by left|done]..]. destruct Hr as [Hr _].
  pose proof (rewrap_ends w1 Hr) as Hc. destruct (rewrap_master request w1) as [[[x'|e]|e] w2]; [|split; done..].
  destruct Hc as (v & He & Ha & Ht). cbn. split; [right; eauto|]. intros response _. eauto 10.
Qed.
Lemma Outcome_others d n : Outcome d -> n ∉ [ver; tmp; txn] -> d !! n = D0 !! n.
Proof.
  intros Hd Hn. rewrite !not_elem_of_cons in Hn. destruct Hn as (Hv & Ht & Hx & _).
  destruct Hd as [Hb|(v & _ & [Hs _])]; [by apply Before_keeps|]. apply Hs. tauto.
Qed.

Lemma After_accepts v d : entitled v -> After D0 v d -> d !! txn = None -> accepts D0 current /\ accepts d new.
Proof.
  intros [(v0 & Hc & Hv0) Hnew] [Hs Ha] Hn. split; [by eapply accepts_verifier|]. eapply accepts_verifier.
  - eapply has_verifier_same; [|exact Hnew]. apply Hs. by intros [?|[?|?]].
  - destruct Ha as [[(b & Hb & _) _]|[_ Hv]]; [congruence|done].
Qed.

Lemma Outcome_verdict d :
  Outcome d -> d !! txn = None -> (forall p, verdict p d = verdict p D0) \/ (accepts D0 current /\ accepts d new).
Proof.
  intros [Hb|(v & He & Ha)] Hn; [left|right; by eapply After_accepts].
  intros p. apply verdict_same; by apply Before_keeps.
Qed.
End Guarantee.

(** C8: A change of the master password is all or nothing. Whatever calls to the storage
    fail or are cut off by a crash, and however often the recovery is interrupted
    afterwards: one recovery without faults succeeds, leaves no pending change, and then the
    storage says of every password what it said before, or the new password is accepted and
    the request had given an accepted current one; nothing but the verifier and the files of
    the transaction differs. When the change reports success it is the latter, also
    before any recovery, and the router keeps the new password if it kept one. *)
Theorem master_rekey_atomic `{CryptoLaws, Argon2} `{SerdeLaw MasterRekeyTransaction, Serde (DurableTxRecord MasterRekeyTransaction)}
  request router w schedule k :
  legacy_is_no_record -> disk w !! file_name Artifacts.MasterRekeyTransaction = None ->
  let current := mq_current_password request in
  let new := mq_new_master_password request in
  let '(x, router', w') := handle_master_rekey request router w in
  let d := interrupted schedule (master_recover;; mret tt) (disk w') in
  (exists d' k', master_recover (mkWorld d [] k) = (Ok (Ok tt), mkWorld d' [] k')
     /\ d' !! file_name Artifacts.MasterRekeyTransaction = None
     /\ (forall n, n ∉ [file_name MasterVerify; file_name MasterVerifyRekeyTemp; file_name Artifacts.MasterRekeyTransaction] ->
           d' !! n = disk w !! n)
     /\ ((forall p, verdict p d' = verdict p (disk w)) \/ (accepts (disk w) current /\ accepts d' new))
     /\ (forall response, x = Ok (Ok response) -> accepts d' new))
  /\ (forall response, x = Ok (Ok response) ->
        accepts (disk w) current /\ accepts (disk w') new /\ router' = after_master_rekey new router).
Proof.
  intros legacy Hn current new. pose proof (handle_ends legacy (disk w) request router w eq_refl Hn) as Hh.
  destruct (handle_master_rekey request router w) as [[x router'] w']. cbv zeta. destruct Hh as [Ho Hok].
  set (d := interrupted _ _ _). split.
  - assert (forall St : Disk -> Prop, (forall d0, St d0 -> Outcome (disk w) request d0) -> St (disk w') ->
      ensures_m St master_recover (fun _ d => St d /\ d !! txn = None) St ->
      exists d' k', master_recover (mkWorld d [] k) = (Ok (Ok tt), mkWorld d' [] k') /\ d' !! txn = None /\ St d') as Hrec.
    { intros St Hst Hd Hr. pose proof (interrupted_keeps St schedule _ Hr Hd) as Hd'. fold d in Hd'.
      assert (quietly master_recover d (fun r _ => r = Ok tt)) as Hq.
      { destruct (Hst d Hd') as [Hb|(v & _ & Ha)]; [apply (recover_runs legacy (disk w) []); by left|].
        apply (recover_runs legacy (disk w) v). by right. }
      destruct (Hq k) as (r & d' & k' & E & ->). exists d', k'. specialize (Hr (mkWorld d [] k) Hd'). rewrite E in Hr. by destruct Hr. }
    destruct x as [[response|e]|e].
    + destruct (Hok response eq_refl) as (_ & _ & v & He & Ha).
      destruct (Hrec (After (disk w) v)) as (d' & k' & E & Ht & Hd'); [intros; right; eauto|done|by apply recover_success|].
      destruct (After_accepts _ _ _ _ He Hd' Ht) as [Hc Hnew]. exists d', k'. split_and!; [done..| | |done].
      * intros n. apply (Outcome_others (disk w) request). right. eauto.
      * by right.
    + destruct (Hrec (Outcome (disk w) request)) as (d' & k' & E & Ht & Hd'); [done..|by apply recover_Outcome|].
      exists d', k'. split_and!; [done..| | |done]; [intros n; by apply (Outcome_others (disk w) request)|by apply Outcome_verdict].
    + destruct (Hrec (Outcome (disk w) request)) as (d' & k' & E & Ht & Hd'); [done..|by apply recover_Outcome|].
      exists d', k'. split_and!; [done..| | |done]; [intros n; by apply (Outcome_others (disk w) request)|by apply Outcome_verdict].
  - intros response Hx. destruct (Hok response Hx) as (Hr & Ht & v & He & Ha).
    destruct (After_accepts _ _ _ _ He Ha Ht). done.
Qed.

(** ** A concrete change *)

Abbreviation tx_view := (Z * bool * list (string * string * string))%type.
Definition of_master_tx (t : MasterRekeyTransaction) : tx_view :=
  (mt_version t, phase_code (mt_phase t), map (fun a => (ta_name a, ta_target_name a, ta_temp_name a)) (mt_artifacts t)).
Definition to_master_tx (x : tx_view) : MasterRekeyTransaction :=
  let '(v, ph, l) := x in mkMasterTx v (code_phase ph) (map (fun '(a, b, c) => mkTxArtifact a b c) l).

Lemma to_of_master_tx t : to_master_tx (of_master_tx t) = t.
Proof.
  destruct t as [v ph l]. unfold to_master_tx, of_master_tx. cbn [mt_version mt_phase mt_artifacts]. rewrite map_map.
  assert (map (fun a => mkTxArtifact (ta_name a) (ta_target_name a) (ta_temp_name a)) l = l) as ->.
  { induction l as [|[] l IH]; [done|]. cbn. by rewrite IH. }
  by destruct ph.
Qed.

Definition master_tx_serde : Serde MasterRekeyTransaction := view_serde of_master_tx to_master_tx.
Lemma master_tx_serde_law : @SerdeLaw _ master_tx_serde.
Proof. apply view_serde_law, to_of_master_tx. Qed.

(** Records start with a byte of their own. *)
Definition master_record_serde : Serde (DurableTxRecord MasterRekeyTransaction) := {|
  to_vec r := Some (x02 :: bits_of_pos (encode (tx_version r, tx_kind r, tx_id r, phase_code (tx_phase r), of_master_tx (tx_payload r))));
  from_slice bs :=
    match bs with
    | x02 :: bs' =>
        '(v, kd, id, ph, p) ← (decode (pos_of_bits bs') : option (Z * string * string * bool * tx_view));
        Some (mkTxRecord v kd id (code_phase ph) (to_master_tx p))
    | _ => None
    end;
|}.

Lemma demo_legacy : @legacy_is_no_record master_tx_serde master_record_serde.
Proof. intros t bs [= <-]. cbn [from_slice master_record_serde]. by destruct (encode (of_master_tx t)). Qed.

#[local] Existing Instances toy_crypto toy_crypto_laws master_tx_serde master_tx_serde_law master_record_serde.
Definition master_argon2 : Argon2 := fun password salt => Ok (toy_hash (as_bytes password ++ salt)).
#[local] Existing Instance master_argon2.

Definition demo_master_salt : list byte := replicate 16 x05.
Definition demo_master_disk : Disk :=
  list_to_map [(file_name MasterSalt, demo_master_salt);
               (file_name MasterVerify, toy_hash (toy_hash (as_bytes "first master password" ++ demo_master_salt)))].
Definition demo_master_request : MasterRekeyRequest := mkMasterRequest "first master password" "second master password".
Definition demo_router : MasterRouter := mkMasterRouter (Some "first master password"%string) None None None None None [].
(** The change crashes when the verifier is in place and the staged one is not removed. *)
Definition demo_master_world : World := mkWorld demo_master_disk (repeat Runs 29 ++ [Crashes]) 0.

Definition demo_master_schedule : list (list fate * nat) := [([Runs; Runs; FailsBefore], 0%nat); (repeat Runs 5 ++ [Crashes], 0%nat)].

Lemma master_rekey_atomic_witness :
  demo_master_disk !! file_name Artifacts.MasterRekeyTransaction = None
  /\ let '(x, router', w') := handle_master_rekey demo_master_request demo_router demo_master_world in
     let d := interrupted demo_master_schedule (master_recover;; mret tt) (disk w') in
     (exists d' k', master_recover (mkWorld d [] 0) = (Ok (Ok tt), mkWorld d' [] k')
        /\ d' !! file_name Artifacts.MasterRekeyTransaction = None
        /\ (forall n, n ∉ [file_name MasterVerify; file_name MasterVerifyRekeyTemp; file_name Artifacts.MasterRekeyTransaction] ->
              d' !! n = disk demo_master_world !! n)
        /\ ((forall p, verdict p d' = verdict p (disk demo_master_world))
            \/ (accepts (disk demo_master_world) (mq_current_password demo_master_request)
                /\ accepts d' (mq_new_master_password demo_master_request)))
        /\ (forall response, x = Ok (Ok response) -> accepts d' (mq_new_master_password demo_master_request)))
     /\ (forall response, x = Ok (Ok response) ->
           accepts (disk demo_master_world) (mq_current_password demo_master_request)
           /\ accepts (disk w') (mq_new_master_password demo_master_request)
           /\ router' = after_master_rekey (mq_new_master_password demo_master_request) demo_router).
Proof.
  assert (disk demo_master_world !! file_name Artifacts.MasterRekeyTransaction = None) as Hn by (vm_compute; reflexivity).
  split; [exact Hn|].
  pose proof (master_rekey_atomic demo_master_request demo_router demo_master_world demo_master_schedule 0 demo_legacy Hn) as Hw.
  exact Hw.
Defined.
