(* ===== verification/MediaInspect.v ===== *)
(** * Media inspection

    Models [crates/core/src/media_inspector/mod.rs] and [iso_bmff.rs]: a file is scanned
    for the boxes of the ISO base media format, whose headers say which tracks it has. A
    reader is any type with [read_range]. A scan is a computation on the reader, the
    counted tracks and the state of the scanner; it stops with an error, and the model
    also lets it stop where the code would panic (an index or a subtraction out of range),
    when its fuel is used up, or when the process dies in the reader. *)

From Stdlib Require Import Strings.Byte Ascii String.
From stdpp Require Import base countable gmap strings list.
From S2P Require Import Prelude.
From S2P Require Import CatalogNode.
From S2P Require Import Bytes.
From S2P Require Import Text.
From S2P Require Import Storage.
From S2P Require Import Crypto.
From S2P Require Import ChunkCache.
From S2P Require Import PagedList.
Open Scope Z_scope.

(** ** The interface of readers (mod.rs) *)

Definition MAX_MEDIA_INSPECTION_READ_BYTES : Z := 8 * 1024 * 1024.
Definition MAX_ISO_BMFF_BOX_DEPTH : nat := 8.
Definition MAX_ISO_BMFF_BOX_HEADER_SCAN : Z := 512 * 1024.

Inductive MediaInspectionError := Cancelled | ReadFailed (message : string) | ReadLimitExceeded | InvalidRange.

(** Why a scan stops: an [Err] of the code, a panic, the end of the process in the reader,
    or the end of the fuel. *)
Inductive scan_stop := Rejected (e : MediaInspectionError) | Panicked | Halted | NoFuel.

(** The result of a call of the trait: a reader returns an error, or the process ends there. *)
Definition read_result := option (result MediaInspectionError (list byte)).

Class MediaByteReader (R : Type) := read_range : Z -> Z -> R -> read_result * R.

(** ** The bounded reader *)

Record BoundedMediaReader (R : Type) := mkBounded { bm_inner : R; bm_bytes_read : Z }.
Arguments mkBounded {R}.
Arguments bm_inner {R}.
Arguments bm_bytes_read {R}.

Definition bounded_new {R} (inner : R) : BoundedMediaReader R := mkBounded inner 0.

#[export] Instance bounded_read_range {R} `{MediaByteReader R} : MediaByteReader (BoundedMediaReader R) :=
  fun offset length b =>
  match u64_checked_add (bm_bytes_read b) length with
  | None => (Some (Err ReadLimitExceeded), b)
  | Some next_total =>
      if MAX_MEDIA_INSPECTION_READ_BYTES <? next_total then (Some (Err ReadLimitExceeded), b) else
      let '(x, inner) := read_range offset length (bm_inner b) in
      match x with
      | Some (Ok bytes) =>
          if negb (len bytes =? length) then (Some (Err InvalidRange), mkBounded inner (bm_bytes_read b))
          else (Some (Ok bytes), mkBounded inner next_total)
      | _ => (x, mkBounded inner (bm_bytes_read b))
      end
  end.

(** ** The scanner (iso_bmff.rs) *)

Record BoxHeader := mkBoxHeader {
  bh_kind : list byte;
  bh_size : Z;
  bh_header_size : Z;
  bh_payload_offset : Z;
  bh_end : Z;
}.

Record TrackStats := mkTrackStats { ts_audio : Z; ts_video : Z }.

Record ScannerState := mkScanner {
  sc_header_bytes : Z;
  sc_moov_offset : option Z;
  sc_first_mdat_offset : option Z;
  sc_has_moof : bool;
}.

Record ScanState (R : Type) := mkScan { ss_reader : R; ss_stats : TrackStats; ss_scanner : ScannerState }.
Arguments mkScan {R}.
Arguments ss_reader {R}.
Arguments ss_stats {R}.
Arguments ss_scanner {R}.

Definition Scan (R A : Type) : Type := ScanState R -> result scan_stop A * ScanState R.

#[export] Instance scan_ret R : MRet (Scan R) := fun A a s => (Ok a, s).
#[export] Instance scan_bind R : MBind (Scan R) := fun A B f c s =>
  match c s with
  | (Ok a, s') => f a s'
  | (Err e, s') => (Err e, s')
  end.

Section Scanner.
Context {R : Type} `{MediaByteReader R}.

Definition halt {A} (e : scan_stop) : Scan R A := fun s => (Err e, s).
Definition reject {A} (e : MediaInspectionError) : Scan R A := halt (Rejected e).

(** [reader.read_range(offset, length)?]. *)
Definition scan_read (offset length : Z) : Scan R (list byte) := fun s =>
  let '(x, r) := read_range offset length (ss_reader s) in
  (match x with
   | Some x => map_err Rejected x
   | None => Err Halted
   end, mkScan r (ss_stats s) (ss_scanner s)).

Definition modify_stats (f : TrackStats -> TrackStats) : Scan R unit := fun s =>
  (Ok tt, mkScan (ss_reader s) (f (ss_stats s)) (ss_scanner s)).
Definition modify_scanner (f : ScannerState -> ScannerState) : Scan R unit := fun s =>
  (Ok tt, mkScan (ss_reader s) (ss_stats s) (f (ss_scanner s))).

(** [bytes[i..i + n]] of an array or vector: a panic when it is shorter. *)
Definition bytes_at (i n : nat) (bytes : list byte) : Scan R (list byte) :=
  if (i + n <=? length bytes)%nat then mret (take n (drop i bytes)) else halt Panicked.

(** [a - b] on [u64]. *)
Definition u64_minus (a b : Z) : Scan R Z := if b <=? a then mret (a - b) else halt Panicked.

Definition set_header_bytes (n : Z) (sc : ScannerState) : ScannerState :=
  mkScanner n (sc_moov_offset sc) (sc_first_mdat_offset sc) (sc_has_moof sc).

Definition add_header_bytes (bytes : Z) : Scan R unit := fun s =>
  match u64_checked_add (sc_header_bytes (ss_scanner s)) bytes with
  | None => (Err (Rejected ReadLimitExceeded), s)
  | Some n =>
      let s := mkScan (ss_reader s) (ss_stats s) (set_header_bytes n (ss_scanner s)) in
      if MAX_ISO_BMFF_BOX_HEADER_SCAN <? n then (Err (Rejected ReadLimitExceeded), s) else (Ok tt, s)
  end.

Definition payload_size (h : BoxHeader) : Scan R Z := u64_minus (bh_size h) (bh_header_size h).

(** The size in the header and the size of the header. *)
Definition box_size (offset parent_end size32 : Z) : Scan R (Z * Z) :=
  if size32 =? 0 then size ← u64_minus parent_end offset; mret (size, 8)
  else if size32 =? 1 then
    add_header_bytes 8;;
    extended ← scan_read (u64_add offset 8) 8;
    size ← bytes_at 0 8 extended;
    mret (from_be_bytes size, 16)
  else mret (size32, 8).

Definition read_box_header (offset parent_end : Z) : Scan R BoxHeader :=
  add_header_bytes 8;;
  bytes ← scan_read offset 8;
  size32 ← bytes_at 0 4 bytes;
  kind ← bytes_at 4 4 bytes;
  '(size, header_size) ← box_size offset parent_end (from_be_bytes size32);
  match u64_checked_add offset size, u64_checked_add offset header_size with
  | Some end_, Some payload_offset => mret (mkBoxHeader kind size header_size payload_offset end_)
  | _, _ => reject InvalidRange
  end.

Definition u16_saturating_add (x y : Z) : Z := Z.min (x + y) U16_MAX.

#[local] Instance byte_eq : EqDecision byte := Byte.byte_eq_dec.
Definition kind_is (name : string) (kind : list byte) : bool := bool_decide (kind = as_bytes name).

Definition count_handler (handler : list byte) (st : TrackStats) : TrackStats :=
  if kind_is "soun" handler then mkTrackStats (u16_saturating_add (ts_audio st) 1) (ts_video st)
  else if kind_is "vide" handler then mkTrackStats (ts_audio st) (u16_saturating_add (ts_video st) 1)
  else st.

Definition scan_handler (h : BoxHeader) : Scan R unit :=
  n ← payload_size h;
  if n <? 12 then reject InvalidRange else
  bytes ← scan_read (u64_add (bh_payload_offset h) 8) 4;
  modify_stats (count_handler bytes).

(** What the scanner keeps of a [moov], [moof] or [mdat] box at [offset]. *)
Definition see_moov (offset : Z) (sc : ScannerState) : ScannerState :=
  match sc_moov_offset sc with
  | Some _ => sc
  | None => mkScanner (sc_header_bytes sc) (Some offset) (sc_first_mdat_offset sc) (sc_has_moof sc)
  end.

Definition see_moof (sc : ScannerState) : ScannerState :=
  mkScanner (sc_header_bytes sc) (sc_moov_offset sc) (sc_first_mdat_offset sc) true.

Definition see_mdat (offset : Z) (sc : ScannerState) : ScannerState :=
  match sc_first_mdat_offset sc with
  | Some _ => sc
  | None => mkScanner (sc_header_bytes sc) (sc_moov_offset sc) (Some offset) (sc_has_moof sc)
  end.

(** The check at the start of [scan_boxes]. *)
Definition check_scope (start end_ : Z) (depth : nat) : Scan R unit :=
  if (MAX_ISO_BMFF_BOX_DEPTH <? depth)%nat || (end_ <? start) then reject InvalidRange else mret tt.

(** The match on the kind of a box; [nested] scans the boxes inside. *)
Definition scan_box (nested : Z -> Z -> nat -> Scan R unit) (offset : Z) (depth : nat) (h : BoxHeader) : Scan R unit :=
  if kind_is "moov" (bh_kind h) then
    modify_scanner (see_moov offset);;
    n ← payload_size h;
    if MAX_ISO_BMFF_BOX_HEADER_SCAN <? n then reject ReadLimitExceeded
    else nested (bh_payload_offset h) (bh_end h) (S depth)
  else if kind_is "moof" (bh_kind h) then modify_scanner see_moof
  else if kind_is "trak" (bh_kind h) || kind_is "mdia" (bh_kind h) then nested (bh_payload_offset h) (bh_end h) (S depth)
  else if kind_is "hdlr" (bh_kind h) then scan_handler h
  else if kind_is "mdat" (bh_kind h) then modify_scanner (see_mdat offset)
  else mret tt.

(** The loop of [scan_boxes]. *)
Fixpoint scan_loop (fuel : nat) (offset end_ : Z) (depth : nat) : Scan R unit :=
  match fuel with
  | O => halt NoFuel
  | S fuel =>
      if negb (offset <? end_) then mret tt else
      if end_ - offset <? 8 then reject InvalidRange else
      header ← read_box_header offset end_;
      if (end_ <? bh_end header) || (bh_size header <? bh_header_size header) then reject InvalidRange else
      scan_box (fun start end_ depth => check_scope start end_ depth;; scan_loop fuel start end_ depth) offset depth header;;
      if bh_end header <=? offset then reject InvalidRange else
      scan_loop fuel (bh_end header) end_ depth
  end.

Definition scan_boxes (fuel : nat) (start end_ : Z) (depth : nat) : Scan R unit :=
  check_scope start end_ depth;; scan_loop fuel start end_ depth.

(** [scanner.moov_offset.map(..)] of [streaming_metadata]. *)
Definition moov_first (sc : ScannerState) : option bool :=
  moov ← sc_moov_offset sc;
  Some (match sc_first_mdat_offset sc with
        | Some mdat => moov <? mdat
        | None => true
        end).

Definition scan_streaming_metadata (sc : ScannerState) : option CatalogMediaStreamingMetadata :=
  let moov_at_start := moov_first sc in
  if bool_decide (moov_at_start = None) && negb (sc_has_moof sc) then None
  else Some (mkStreaming None None None None None moov_at_start None None).

(** The media info of the code after a scan. *)
Definition media_info_of (st : TrackStats) (sc : ScannerState) : option CatalogMediaInfo :=
  let fragmented := if sc_has_moof sc then Some true else None in
  if 0 <? ts_video st then
    Some (mkMediaInfo Video (ts_audio st) (ts_video st) (Some "video/mp4"%string) None fragmented (scan_streaming_metadata sc))
  else if 0 <? ts_audio st then
    Some (mkMediaInfo Audio (ts_audio st) 0 (Some "audio/mp4"%string) None fragmented (scan_streaming_metadata sc))
  else None.

(** Every box costs at least eight bytes of the limit on headers, so the scan goes through at
    most this many of them ([scan_total]). *)
Definition SCAN_FUEL : nat := Z.to_nat (MAX_ISO_BMFF_BOX_HEADER_SCAN / 8 + 1).

(** An error of the scan is no media info. *)
Definition inspect_iso_bmff (size : Z) (reader : R) : result scan_stop (option CatalogMediaInfo) * R :=
  if size <? 8 then (Ok None, reader) else
  let s := scan_boxes SCAN_FUEL 0 size 0 (mkScan reader (mkTrackStats 0 0) (mkScanner 0 None None false)) in
  (match fst s with
   | Ok _ => Ok (media_info_of (ss_stats (snd s)) (ss_scanner (snd s)))
   | Err (Rejected _) => Ok None
   | Err e => Err e
   end, ss_reader (snd s)).
End Scanner.

(** ** The entry (mod.rs) *)

Definition is_iso_bmff_candidate (file_name : string) (mime_type : option string) : bool :=
  let by_mime :=
    match mime_type with
    | Some mime =>
        let normalized := to_ascii_lowercase (trim (default EmptyString (head (split_char ";"%char mime)))) in
        existsb (String.eqb normalized) ["video/mp4"; "audio/mp4"; "video/quicktime"]%string
    | None => false
    end in
  by_mime
  || match rsplit_once "."%char file_name with
     | Some (_, extension) => existsb (String.eqb (to_ascii_lowercase extension)) ["mp4"; "m4a"; "mov"]%string
     | None => false
     end.

Record MediaInspectionInput (R : Type) := mkInput {
  in_file_name : string;
  in_mime_type : option string;
  in_size : Z;
  in_reader : R;
}.
Arguments mkInput {R}.
Arguments in_file_name {R}.
Arguments in_mime_type {R}.
Arguments in_size {R}.
Arguments in_reader {R}.

(** The reader is consumed; the model returns what became of it. *)
Definition inspect_media_info {R} `{MediaByteReader R} (input : MediaInspectionInput R)
    : result scan_stop (option CatalogMediaInfo) * R :=
  if negb (is_iso_bmff_candidate (in_file_name input) (in_mime_type input)) then (Ok None, in_reader input) else
  let '(x, b) := inspect_iso_bmff (in_size input) (bounded_new (in_reader input)) in (x, bm_inner b).
