(* ===== verification/MediaInspectTree.v ===== *)
(** * Media inspection reads a tree of boxes

    A file in the ISO base media format is a tree of boxes. [encode_boxes] writes one with
    the three forms of a size; the scan of [MediaInspect.v] finds on it what plain functions
    on the tree say: the tracks by their handlers, whether there are fragments, and whether
    the index comes before the data. *)

From Stdlib Require Import Strings.Byte Ascii String.
From stdpp Require Import base countable gmap strings list.
From S2P Require Import Prelude.
From S2P Require Import CatalogNode.
From S2P Require Import Bytes.
From S2P Require Import Crypto.
From S2P Require Import ChunkCache.
From S2P Require Import BlobReader.
From S2P Require Import BlobReadSpec.
From S2P Require Import MediaInspect.
From S2P Require Import MediaInspectSpec.
Open Scope Z_scope.

(** ** Trees of boxes *)

(** How a box gives its size: in 32 bits, in 64 bits, or not, up to the end of what it is in. *)
Inductive size_form := Size32 | Size64 | ToEnd.

(** The boxes of a level: a box with data, or one with boxes inside, and the rest. *)
Inductive boxes :=
  | NoBox
  | DataBox (form : size_form) (kind : list byte) (payload : list byte) (rest : boxes)
  | TreeBox (form : size_form) (kind : list byte) (inner rest : boxes).

Definition header_len (form : size_form) : Z := match form with Size64 => 16 | _ => 8 end.

Definition encode_header (form : size_form) (kind : list byte) (n : Z) : list byte :=
  match form with
  | Size32 => to_be_bytes 4 (n + 8) ++ kind
  | Size64 => to_be_bytes 4 1 ++ kind ++ to_be_bytes 8 (n + 16)
  | ToEnd => to_be_bytes 4 0 ++ kind
  end.

Fixpoint encode_boxes (bs : boxes) : list byte :=
  match bs with
  | NoBox => []
  | DataBox form kind payload rest => encode_header form kind (len payload) ++ payload ++ encode_boxes rest
  | TreeBox form kind inner rest =>
      encode_header form kind (len (encode_boxes inner)) ++ encode_boxes inner ++ encode_boxes rest
  end.

Definition box_bytes (bs : boxes) : Z := len (encode_boxes bs).

(** ** What a tree says *)

#[local] Existing Instance byte_eq.

Definition is_tree_kind (kind : list byte) : bool := kind_is "moov" kind || kind_is "trak" kind || kind_is "mdia" kind.

(** The handler of a [hdlr] box: four bytes behind the version, the flags and a reserved field. *)
Definition handler_of (payload : list byte) : list byte := slice 8 4 payload.

(** The number of tracks with the handler. *)
Fixpoint tracks (handler : string) (bs : boxes) : Z :=
  match bs with
  | NoBox => 0
  | DataBox _ kind payload rest =>
      (if kind_is "hdlr" kind && kind_is handler (handler_of payload) then 1 else 0) + tracks handler rest
  | TreeBox _ _ inner rest => tracks handler inner + tracks handler rest
  end.

(** The offset of the first box of a kind, in the order of the file. *)
Fixpoint first_box (name : string) (offset : Z) (bs : boxes) : option Z :=
  match bs with
  | NoBox => None
  | DataBox form kind payload rest =>
      if kind_is name kind then Some offset else first_box name (offset + header_len form + len payload) rest
  | TreeBox form kind inner rest =>
      if kind_is name kind then Some offset
      else match first_box name (offset + header_len form) inner with
           | Some o => Some o
           | None => first_box name (offset + header_len form + box_bytes inner) rest
           end
  end.

Fixpoint has_box (name : string) (bs : boxes) : bool :=
  match bs with
  | NoBox => false
  | DataBox _ kind _ rest => kind_is name kind || has_box name rest
  | TreeBox _ kind inner rest => kind_is name kind || has_box name inner || has_box name rest
  end.

(** ** Trees within the limits *)

Fixpoint header_cost (bs : boxes) : Z :=
  match bs with
  | NoBox => 0
  | DataBox form _ _ rest => header_len form + header_cost rest
  | TreeBox form _ inner rest => header_len form + header_cost inner + header_cost rest
  end.

Definition form_fits (form : size_form) (n : Z) (rest : boxes) : bool :=
  match form with
  | Size32 => n + 8 <? 2 ^ 32
  | Size64 => n + 16 <? 2 ^ 64
  | ToEnd => match rest with NoBox => true | _ => false end
  end.

(** Boxes at [depth]: the fields fit, boxes are inside the known containers only, a [hdlr] has
    its handler, a [moov] is not too long, and the tree is not too deep. *)
Fixpoint within_limits (depth : nat) (bs : boxes) : bool :=
  match bs with
  | NoBox => true
  | DataBox form kind payload rest =>
      form_fits form (len payload) rest && (length kind =? 4)%nat && negb (is_tree_kind kind)
      && (negb (kind_is "hdlr" kind) || (12 <=? len payload)) && within_limits depth rest
  | TreeBox form kind inner rest =>
      form_fits form (box_bytes inner) rest && is_tree_kind kind
      && (negb (kind_is "moov" kind) || (box_bytes inner <=? MAX_ISO_BMFF_BOX_HEADER_SCAN))
      && (S depth <=? MAX_ISO_BMFF_BOX_DEPTH)%nat && within_limits (S depth) inner && within_limits depth rest
  end.

(** ** The expected result *)

Definition tree_streaming (bs : boxes) : option CatalogMediaStreamingMetadata :=
  let moov_at_start :=
    match first_box "moov" 0 bs, first_box "mdat" 0 bs with
    | Some moov, Some mdat => Some (moov <? mdat)
    | Some _, None => Some true
    | None, _ => None
    end in
  match moov_at_start with
  | None => if has_box "moof" bs then Some (mkStreaming None None None None None None None None) else None
  | Some b => Some (mkStreaming None None None None None (Some b) None None)
  end.

Definition tree_media_info (bs : boxes) : option CatalogMediaInfo :=
  let audio := Z.min (tracks "soun" bs) U16_MAX in
  let video := Z.min (tracks "vide" bs) U16_MAX in
  let fragmented := if has_box "moof" bs then Some true else None in
  if 0 <? video then Some (mkMediaInfo Video audio video (Some "video/mp4"%string) None fragmented (tree_streaming bs))
  else if 0 <? audio then Some (mkMediaInfo Audio audio 0 (Some "audio/mp4"%string) None fragmented (tree_streaming bs))
  else None.

(** ** Readers of a file *)

(** A reader that returns the bytes of [file] in every state that satisfies [P]. *)
Class ReadsFile (R : Type) `{MediaByteReader R} (file : list byte) (P : R -> Prop) : Prop :=
  reads_file : forall r offset length, P r -> 0 <= offset -> 0 < length -> offset + length <= len file ->
    exists r', read_range offset length r = (Some (Ok (slice offset length file)), r') /\ P r'.

(** ** Parts of a file *)

Definition at_ (file : list byte) (offset : Z) (bytes : list byte) : Prop :=
  0 <= offset /\ offset + len bytes <= len file /\ slice offset (len bytes) file = bytes.

Lemma len_app (a b : list byte) : len (a ++ b) = len a + len b.
Proof. unfold len. rewrite length_app. lia. Qed.

Lemma slice_prefix (a b : list byte) : slice 0 (len a) (a ++ b) = a.
Proof. unfold slice, len. by rewrite Nat2Z.id, drop_0, take_app_length. Qed.

Lemma slice_suffix (a b : list byte) : slice (len a) (len b) (a ++ b) = b.
Proof. unfold slice, len. rewrite !Nat2Z.id, drop_app_length. by apply take_ge. Qed.

Lemma at_app file offset a b : at_ file offset (a ++ b) -> at_ file offset a /\ at_ file (offset + len a) b.
Proof.
  intros (Ho & Hl & E). rewrite len_app in Hl, E. pose proof (len_nonneg a). pose proof (len_nonneg b). split.
  - split_and!; [lia..|]. etransitivity; [|apply (slice_prefix a b)]. rewrite <- E, slice_slice by lia. f_equal; lia.
  - split_and!; [lia..|]. etransitivity; [|apply (slice_suffix a b)]. by rewrite <- E, slice_slice by lia.
Qed.

Lemma at_slice file offset bytes i n :
  at_ file offset bytes -> 0 <= i -> 0 <= n -> i + n <= len bytes -> slice (offset + i) n file = slice i n bytes.
Proof. intros (Ho & Hl & E) Hi Hn Hle. rewrite <- E. by rewrite slice_slice by lia. Qed.

Lemma len_encode_header form kind n : length kind = 4%nat -> len (encode_header form kind n) = header_len form.
Proof. intros Hk. unfold len. destruct form; cbn [encode_header header_len]; rewrite !length_app, !length_to_be_bytes; lia. Qed.

(** ** The scan on a tree *)

Section Tree.
Context {R : Type} `{HR : MediaByteReader R} (file : list byte) (P : R -> Prop) `{!ReadsFile R file P}.
Hypothesis file_size : len file <= U64_MAX.
Notation BState := (ScanState (BoundedMediaReader R)).
Notation MAX := MAX_ISO_BMFF_BOX_HEADER_SCAN.

(** A state before a step: the reader reads the file and has read little. *)
Definition Ready (read : Z) (s : BState) : Prop :=
  P (bm_inner (ss_reader s)) /\ 0 <= bm_bytes_read (ss_reader s) <= read.

Lemma run_read offset length bytes i read s :
  at_ file offset bytes -> 0 <= i -> 0 < length -> i + length <= len bytes -> Ready read s ->
  read + length <= MAX_MEDIA_INSPECTION_READ_BYTES ->
  exists r, scan_read (offset + i) length s = (Ok (slice i length bytes), mkScan r (ss_stats s) (ss_scanner s))
    /\ Ready (read + length) (mkScan r (ss_stats s) (ss_scanner s)).
Proof.
  intros Hat Hi Hl Hle [HP Hb] Hm. pose proof (at_slice _ _ _ i length Hat) as Es. pose proof Hat as (Ho & Hf & _).
  destruct (reads_file (bm_inner (ss_reader s)) (offset + i) length HP) as (r & E & HP'); [lia..|].
  exists (mkBounded r (bm_bytes_read (ss_reader s) + length)). unfold scan_read, read_range at 1, bounded_read_range.
  unfold u64_checked_add. unfold MAX_MEDIA_INSPECTION_READ_BYTES in *.
  replace (_ <=? _) with true by (symmetry; apply Z.leb_le; unfold U64_MAX; lia).
  replace (_ <? _) with false by lia. rewrite E, Es by lia.
  assert (len (slice i length bytes) = length) as El by (apply len_slice; lia).
  rewrite El, Z.eqb_refl. cbn. split; [done|]. split; cbn; [done|lia].
Qed.

Lemma run_add n (s : BState) :
  0 <= n -> 0 <= sc_header_bytes (ss_scanner s) -> sc_header_bytes (ss_scanner s) + n <= MAX ->
  add_header_bytes n s =
    (Ok tt, mkScan (ss_reader s) (ss_stats s) (set_header_bytes (sc_header_bytes (ss_scanner s) + n) (ss_scanner s))).
Proof.
  intros Hn Hs Hm. unfold add_header_bytes, u64_checked_add, MAX_ISO_BMFF_BOX_HEADER_SCAN in *.
  replace (_ <=? _) with true by (symmetry; apply Z.leb_le; unfold U64_MAX; lia). by replace (_ <? _) with false by lia.
Qed.

Lemma run_bytes_at i n bytes (s : BState) :
  (i + n <= length bytes)%nat -> bytes_at i n bytes s = (Ok (take n (drop i bytes)), s).
Proof. intros Hn. unfold bytes_at. by replace (_ <=? _)%nat with true by (symmetry; by apply Nat.leb_le). Qed.

(** The bytes of a header, in the parts the scanner reads. *)
Lemma first_part form kind n :
  length kind = 4%nat ->
  slice 0 8 (encode_header form kind n)
    = to_be_bytes 4 (match form with Size32 => n + 8 | Size64 => 1 | ToEnd => 0 end) ++ kind.
Proof.
  intros Hk. unfold slice. rewrite drop_0.
  assert (forall x, take 8 (to_be_bytes 4 x ++ kind) = to_be_bytes 4 x ++ kind) as Ht
    by (intros x; apply take_ge; rewrite length_app, length_to_be_bytes, Hk; done).
  destruct form; cbn [encode_header]; [apply Ht| |apply Ht].
  rewrite app_assoc, take_app_length'; [done|]. by rewrite length_app, length_to_be_bytes, Hk.
Qed.

Lemma second_part kind n : length kind = 4%nat -> slice 8 8 (encode_header Size64 kind n) = to_be_bytes 8 (n + 16).
Proof.
  intros Hk. unfold slice. cbn [encode_header]. rewrite app_assoc, drop_app_length' by (by rewrite length_app, length_to_be_bytes, Hk).
  apply take_ge. by rewrite length_to_be_bytes.
Qed.

Definition with_headers (n : Z) (s : BState) (r : BoundedMediaReader R) : BState :=
  mkScan r (ss_stats s) (set_header_bytes (sc_header_bytes (ss_scanner s) + n) (ss_scanner s)).

Lemma run_header form kind n rest offset parent_end read s :
  at_ file offset (encode_header form kind n) -> length kind = 4%nat -> 0 <= n -> form_fits form n rest = true ->
  (form = ToEnd -> parent_end = offset + 8 + n) -> offset + header_len form + n <= len file ->
  Ready read s -> 0 <= sc_header_bytes (ss_scanner s) -> sc_header_bytes (ss_scanner s) + header_len form <= MAX ->
  read + header_len form <= MAX_MEDIA_INSPECTION_READ_BYTES ->
  exists r, read_box_header offset parent_end s
      = (Ok (mkBoxHeader kind (n + header_len form) (header_len form) (offset + header_len form) (offset + header_len form + n)),
         with_headers (header_len form) s r)
    /\ Ready (read + header_len form) (with_headers (header_len form) s r).
Proof.
  intros Hat Hk Hn Hf Hend Hle Hr Hs Hm Hrd. pose proof (len_encode_header form kind n Hk) as Hlen.
  assert (8 <= header_len form <= 16) as Hh by (destruct form; cbn; lia). pose proof Hat as (Ho & _).
  unfold read_box_header, mbind, scan_bind. rewrite run_add by lia.
  set (s1 := mkScan (ss_reader s) _ _). assert (Ready read s1) as Hr1 by done.
  destruct (run_read offset 8 _ 0 read s1 Hat) as (r & E & Hr2); [lia..|done|lia|]. rewrite Z.add_0_r, first_part in E by done.
  rewrite E. rewrite !run_bytes_at by (rewrite length_app, length_to_be_bytes, Hk; lia).
  rewrite drop_0, take_app_length', drop_app_length', (take_ge kind) by (rewrite ?length_to_be_bytes, ?Hk; lia).
  change (ss_stats s1) with (ss_stats s) in *.
  change (ss_scanner s1) with (set_header_bytes (sc_header_bytes (ss_scanner s) + 8) (ss_scanner s)) in *.
  assert (u64_checked_add offset (n + header_len form) = Some (offset + header_len form + n)
    /\ u64_checked_add offset (header_len form) = Some (offset + header_len form)) as [Ea Eb].
  { unfold u64_checked_add. split; (rewrite (proj2 (Z.leb_le _ _)) by lia); f_equal; lia. }
  destruct form; cbn [form_fits header_len] in *.
  - rewrite from_to_be_bytes by (change (256 ^ Z.of_nat 4) with (2 ^ 32); lia). unfold box_size.
    replace (n + 8 =? 0) with false by lia. replace (n + 8 =? 1) with false by lia.
    unfold mret, scan_ret. rewrite Ea, Eb. by exists r.
  - change (from_be_bytes (to_be_bytes 4 1)) with 1. unfold box_size. cbn [Z.eqb Pos.eqb].
    unfold mbind, scan_bind. rewrite run_add by (cbn; lia). cbn [ss_scanner ss_stats ss_reader sc_header_bytes set_header_bytes].
    set (s3 := mkScan r _ _). assert (Ready (read + 8) s3) as Hr3 by done.
    destruct (run_read offset 8 _ 8 (read + 8) s3 Hat) as (r' & E' & Hr4); [lia..|done|lia|].
    rewrite u64_add_small by (unfold is_u64; lia). rewrite E', second_part by done.
    rewrite run_bytes_at by (rewrite length_to_be_bytes; lia). rewrite drop_0, take_ge by (rewrite length_to_be_bytes; lia).
    rewrite from_to_be_bytes by (change (256 ^ Z.of_nat 8) with (2 ^ 64); lia).
    unfold mret, scan_ret. rewrite Ea, Eb. exists r'. unfold with_headers, s3 in *. cbn in *.
    replace (sc_header_bytes (ss_scanner s) + 16) with (sc_header_bytes (ss_scanner s) + 8 + 8) by lia.
    split; [done|]. destruct Hr4 as [? ?]. split; cbn in *; [done|lia].
  - change (from_be_bytes (to_be_bytes 4 0)) with 0. unfold box_size. cbn [Z.eqb].
    rewrite (Hend eq_refl). unfold mbind, scan_bind, u64_minus. rewrite (proj2 (Z.leb_le _ _)) by lia.
    unfold mret, scan_ret. replace (offset + 8 + n - offset) with (n + 8) by lia. rewrite Ea, Eb. by exists r.
Qed.

(** ** What the scan keeps *)

Definition or_else (o p : option Z) : option Z := match o with Some x => Some x | None => p end.

Definition add_tracks (bs : boxes) (st : TrackStats) : TrackStats :=
  mkTrackStats (Z.min (ts_audio st + tracks "soun" bs) U16_MAX) (Z.min (ts_video st + tracks "vide" bs) U16_MAX).

Definition see_boxes (offset : Z) (bs : boxes) (sc : ScannerState) : ScannerState :=
  mkScanner (sc_header_bytes sc + header_cost bs) (or_else (sc_moov_offset sc) (first_box "moov" offset bs))
    (or_else (sc_first_mdat_offset sc) (first_box "mdat" offset bs)) (sc_has_moof sc || has_box "moof" bs).

Definition in_u16 (st : TrackStats) : Prop := 0 <= ts_audio st <= U16_MAX /\ 0 <= ts_video st <= U16_MAX.

(** A state between boxes. *)
Definition Between (s : BState) : Prop :=
  P (bm_inner (ss_reader s)) /\ 0 <= bm_bytes_read (ss_reader s)
  /\ 2 * bm_bytes_read (ss_reader s) <= 3 * sc_header_bytes (ss_scanner s)
  /\ 0 <= sc_header_bytes (ss_scanner s) /\ in_u16 (ss_stats s).

(** One round of the loop, for a box with [n] bytes of content. *)
Lemma run_round fuel form kind n rest offset end_ depth (s : BState) (Q : BState -> Prop) :
  let h := mkBoxHeader kind (n + header_len form) (header_len form) (offset + header_len form) (offset + header_len form + n) in
  let nested start stop depth := check_scope start stop depth;; scan_loop fuel start stop depth in
  at_ file offset (encode_header form kind n) -> length kind = 4%nat -> 0 <= n -> form_fits form n rest = true ->
  (form = ToEnd -> end_ = offset + 8 + n) -> offset + header_len form + n <= end_ -> end_ <= len file ->
  Between s -> sc_header_bytes (ss_scanner s) + header_len form <= MAX ->
  (forall r, P (bm_inner r) -> 0 <= bm_bytes_read r <= bm_bytes_read (ss_reader s) + header_len form ->
     exists s2, scan_box nested offset depth h (with_headers (header_len form) s r) = (Ok tt, s2) /\ Q s2) ->
  exists s2, scan_loop (S fuel) offset end_ depth s = scan_loop fuel (offset + header_len form + n) end_ depth s2 /\ Q s2.
Proof.
  intros h nested Hat Hk Hn Hf Hend Hle Hfile (HP & Hb & Hp & Hs & _) Hm Hbox.
  assert (8 <= header_len form <= 16) as Hh by (destruct form; cbn; lia).
  destruct (run_header form kind n rest offset end_ (bm_bytes_read (ss_reader s)) s Hat Hk Hn Hf Hend ltac:(lia)
    (conj HP (conj Hb (Z.le_refl _))) Hs Hm) as (r & E & HP' & Hb').
  { unfold MAX_ISO_BMFF_BOX_HEADER_SCAN, MAX_MEDIA_INSPECTION_READ_BYTES in *. lia. }
  destruct (Hbox r HP' Hb') as (s2 & E2 & HQ). exists s2. split; [|done].
  cbn [scan_loop]. replace (offset <? end_) with true by lia. cbn [negb]. replace (end_ - offset <? 8) with false by lia.
  unfold mbind at 1, scan_bind at 1. rewrite E. cbn [bh_end bh_size bh_header_size].
  replace (_ || _) with false by lia. fold h. fold nested. unfold mbind at 1, scan_bind at 1. rewrite E2.
  by replace (_ <=? offset) with false by lia.
Qed.

(** What one box of data does. *)
Definition data_tracks (kind payload : list byte) (st : TrackStats) : TrackStats :=
  if kind_is "hdlr" kind then count_handler (handler_of payload) st else st.

Definition data_seen (offset : Z) (kind : list byte) (sc : ScannerState) : ScannerState :=
  if kind_is "moof" kind then see_moof sc else if kind_is "mdat" kind then see_mdat offset sc else sc.

Lemma kind_is_true name kind : kind_is name kind = true -> kind = as_bytes name.
Proof. unfold kind_is. by rewrite bool_decide_eq_true. Qed.

Lemma run_data nested offset depth form kind payload s :
  let n := len payload in
  let h := mkBoxHeader kind (n + header_len form) (header_len form) (offset + header_len form) (offset + header_len form + n) in
  at_ file (offset + header_len form) payload -> 0 <= offset -> is_tree_kind kind = false ->
  (kind_is "hdlr" kind = true -> 12 <= n) -> P (bm_inner (ss_reader s)) -> 0 <= bm_bytes_read (ss_reader s) ->
  2 * bm_bytes_read (ss_reader s) + 8 <= 3 * sc_header_bytes (ss_scanner s) -> sc_header_bytes (ss_scanner s) <= MAX ->
  exists r, scan_box nested offset depth h s
      = (Ok tt, mkScan r (data_tracks kind payload (ss_stats s)) (data_seen offset kind (ss_scanner s)))
    /\ P (bm_inner r) /\ 0 <= bm_bytes_read r /\ 2 * bm_bytes_read r <= 3 * sc_header_bytes (ss_scanner s).
Proof.
  intros n h Hat Ho Hk Hh HP Hb Hp Hm. assert (8 <= header_len form <= 16) as Hhl by (destruct form; cbn; lia).
  unfold is_tree_kind in Hk. apply orb_false_iff in Hk as [Hk K3]. apply orb_false_iff in Hk as [K1 K2].
  unfold scan_box, data_tracks, data_seen. cbn [bh_kind h]. rewrite K1, K2, K3. cbn [orb].
  destruct (kind_is "moof" kind) eqn:K4.
  { apply kind_is_true in K4 as ->. change (kind_is "hdlr" (as_bytes "moof")) with false. exists (ss_reader s). cbn. split_and!; (done || lia). }
  destruct (kind_is "hdlr" kind) eqn:K5.
  - specialize (Hh eq_refl). apply kind_is_true in K5 as ->. change (kind_is "mdat" (as_bytes "hdlr")) with false.
    unfold scan_handler, payload_size, u64_minus, mbind, scan_bind, mret, scan_ret. cbn [h bh_size bh_header_size bh_payload_offset].
    rewrite (proj2 (Z.leb_le _ _)) by lia. replace (_ <? 12) with false by lia. pose proof Hat as (_ & Hle & _). fold n in Hle.
    rewrite u64_add_small by (unfold is_u64; lia).
    destruct (run_read (offset + header_len form) 4 payload 8 (bm_bytes_read (ss_reader s)) s Hat) as (r & E & HP' & Hb');
      [lia..|by split| |].
    { unfold MAX_ISO_BMFF_BOX_HEADER_SCAN, MAX_MEDIA_INSPECTION_READ_BYTES in *. lia. }
    rewrite E. exists r. cbn in *. split_and!; (done || lia).
  - destruct (kind_is "mdat" kind); exists (ss_reader s); destruct s; cbn in *; split_and!; (done || lia).
Qed.

(** The scan of a level: its boxes are counted and seen. *)
Lemma tracks_nonneg handler bs : 0 <= tracks handler bs.
Proof. induction bs; cbn; [lia| |lia]. destruct (_ && _); lia. Qed.

Lemma header_cost_nonneg bs : 0 <= header_cost bs.
Proof. induction bs as [|[] ? ? ? IH|[] ? ? IH1 ? IH2]; cbn; lia. Qed.

Lemma count_handler_u16 handler st : in_u16 st -> in_u16 (count_handler handler st).
Proof.
  unfold in_u16, count_handler, u16_saturating_add. destruct (kind_is "soun" _); [cbn; lia|].
  destruct (kind_is "vide" _); cbn; lia.
Qed.

Lemma data_tracks_u16 kind payload st : in_u16 st -> in_u16 (data_tracks kind payload st).
Proof. intros Hu. unfold data_tracks. destruct (kind_is _ _); [by apply count_handler_u16|done]. Qed.

Lemma data_seen_headers offset kind sc : sc_header_bytes (data_seen offset kind sc) = sc_header_bytes sc.
Proof.
  unfold data_seen, see_moof, see_mdat. destruct (kind_is "moof" kind); [done|]. destruct (kind_is "mdat" kind); [|done].
  by destruct (sc_first_mdat_offset sc).
Qed.

Lemma data_tracks_rest form kind payload rest st :
  in_u16 st -> add_tracks rest (data_tracks kind payload st) = add_tracks (DataBox form kind payload rest) st.
Proof.
  intros [Ha Hv]. unfold data_tracks, add_tracks. cbn [tracks]. pose proof (tracks_nonneg "soun" rest). pose proof (tracks_nonneg "vide" rest).
  destruct (kind_is "hdlr" kind); cbn [andb]; [|f_equal; lia].
  unfold count_handler, u16_saturating_add. destruct (kind_is "soun" (handler_of payload)) eqn:K1.
  - apply kind_is_true in K1 as ->. change (kind_is "vide" (as_bytes "soun")) with false. cbn [ts_audio ts_video]. f_equal; lia.
  - destruct (kind_is "vide" _); cbn [ts_audio ts_video]; f_equal; lia.
Qed.

Lemma data_seen_rest offset form kind payload rest sc :
  is_tree_kind kind = false ->
  see_boxes (offset + header_len form + len payload) rest
    (data_seen offset kind (set_header_bytes (sc_header_bytes sc + header_len form) sc))
  = see_boxes offset (DataBox form kind payload rest) sc.
Proof.
  intros Hk. unfold is_tree_kind in Hk. apply orb_false_iff in Hk as [Hk _]. apply orb_false_iff in Hk as [K1 _].
  unfold data_seen, see_boxes. cbn [first_box has_box header_cost]. rewrite K1.
  destruct (kind_is "moof" kind) eqn:K2.
  - apply kind_is_true in K2 as ->. change (kind_is "mdat" (as_bytes "moof")) with false. cbn.
    rewrite orb_true_r. f_equal; lia.
  - unfold see_mdat, set_header_bytes. destruct (kind_is "mdat" kind); cbn [sc_first_mdat_offset];
      [destruct (sc_first_mdat_offset sc) eqn:Em|]; cbn; rewrite ?Em; cbn; f_equal; lia.
Qed.

Lemma or_else_assoc a b c : or_else (or_else a b) c = or_else a (or_else b c).
Proof. by destruct a. Qed.

(** What a box with boxes inside does before they are scanned. *)
Definition tree_seen (offset : Z) (kind : list byte) (sc : ScannerState) : ScannerState :=
  if kind_is "moov" kind then see_moov offset sc else sc.

Lemma tree_seen_rest offset form kind inner rest sc :
  is_tree_kind kind = true ->
  see_boxes (offset + header_len form + box_bytes inner) rest
    (see_boxes (offset + header_len form) inner
      (tree_seen offset kind (set_header_bytes (sc_header_bytes sc + header_len form) sc)))
  = see_boxes offset (TreeBox form kind inner rest) sc.
Proof.
  intros Hk. assert (kind_is "mdat" kind = false /\ kind_is "moof" kind = false) as [K1 K2].
  { unfold is_tree_kind in Hk. apply orb_true_iff in Hk as [Hk|K]; [apply orb_true_iff in Hk as [K|K]|]; by apply kind_is_true in K as ->. }
  unfold tree_seen, see_boxes. cbn [first_box has_box header_cost]. rewrite K1, K2. unfold see_moov, set_header_bytes.
  cbn [orb]. destruct (kind_is "moov" kind); [cbn [sc_moov_offset]; destruct (sc_moov_offset sc) eqn:Em|];
    cbn [sc_header_bytes sc_moov_offset sc_first_mdat_offset sc_has_moof]; rewrite ?Em, ?or_else_assoc, orb_assoc; f_equal; lia.
Qed.

Lemma run_tree fuel offset depth form kind inner (s : BState) :
  let n := box_bytes inner in
  let h := mkBoxHeader kind (n + header_len form) (header_len form) (offset + header_len form) (offset + header_len form + n) in
  let nested start stop depth := check_scope start stop depth;; scan_loop fuel start stop depth in
  is_tree_kind kind = true -> (kind_is "moov" kind = true -> n <= MAX) -> (S depth <= MAX_ISO_BMFF_BOX_DEPTH)%nat ->
  scan_box nested offset depth h s
    = scan_loop fuel (offset + header_len form) (offset + header_len form + n) (S depth)
        (mkScan (ss_reader s) (ss_stats s) (tree_seen offset kind (ss_scanner s))).
Proof.
  intros n h nested Hk Hm Hd. assert (0 <= n) as Hn by apply len_nonneg.
  assert (forall s', nested (offset + header_len form) (offset + header_len form + n) (S depth) s'
    = scan_loop fuel (offset + header_len form) (offset + header_len form + n) (S depth) s') as Hnest.
  { intros s'. unfold nested, check_scope. replace (_ <? _)%nat with false by (symmetry; apply Nat.ltb_ge; done).
    cbn [orb]. by replace (_ <? _) with false by lia. }
  unfold scan_box, tree_seen. cbn [bh_kind h bh_payload_offset bh_end]. destruct (kind_is "moov" kind) eqn:K1.
  - specialize (Hm eq_refl). unfold payload_size, u64_minus, mbind, scan_bind. cbn [modify_scanner h bh_size bh_header_size].
    rewrite (proj2 (Z.leb_le _ _)) by lia. unfold mret, scan_ret. replace (MAX <? _) with false by lia. apply Hnest.
  - assert (kind_is "moof" kind = false) as ->.
    { destruct (kind_is "moof" kind) eqn:K; [|done]. by apply kind_is_true in K as ->. }
    unfold is_tree_kind in Hk. rewrite K1 in Hk. cbn [orb] in Hk. rewrite Hk, Hnest. by destruct s.
Qed.

Lemma add_tracks_u16 bs st : in_u16 st -> in_u16 (add_tracks bs st).
Proof.
  unfold in_u16, add_tracks. pose proof (tracks_nonneg "soun" bs). pose proof (tracks_nonneg "vide" bs).
  assert (0 <= U16_MAX) by done. cbn. lia.
Qed.

Lemma add_tracks_tree form kind inner rest st :
  in_u16 st -> add_tracks rest (add_tracks inner st) = add_tracks (TreeBox form kind inner rest) st.
Proof.
  intros [Ha Hv]. unfold add_tracks. cbn [tracks ts_audio ts_video].
  pose proof (tracks_nonneg "soun" rest). pose proof (tracks_nonneg "vide" rest). f_equal; lia.
Qed.

Lemma form_fits_rest form n rest end_ offset :
  form_fits form n rest = true -> end_ = offset + header_len form + n + box_bytes rest -> form = ToEnd -> end_ = offset + 8 + n.
Proof. intros Hf -> ->. cbn [form_fits header_len] in *. destruct rest; [change (box_bytes NoBox) with 0; lia|done..]. Qed.

Lemma fuel_left bs (s : BState) fuel :
  sc_header_bytes (ss_scanner s) + header_cost bs <= MAX -> MAX - sc_header_bytes (ss_scanner s) < 8 * Z.of_nat fuel ->
  exists fuel', fuel = S fuel'.
Proof. intros Hm Hf. pose proof (header_cost_nonneg bs). destruct fuel as [|fuel]; [lia|eauto]. Qed.

(** A level within the limits, scanned from its start. *)
Definition scanned (bs : boxes) : Prop := forall fuel offset depth (s : BState),
  at_ file offset (encode_boxes bs) -> within_limits depth bs = true -> Between s ->
  sc_header_bytes (ss_scanner s) + header_cost bs <= MAX -> MAX - sc_header_bytes (ss_scanner s) < 8 * Z.of_nat fuel ->
  exists r, scan_loop fuel offset (offset + box_bytes bs) depth s
      = (Ok tt, mkScan r (add_tracks bs (ss_stats s)) (see_boxes offset bs (ss_scanner s)))
    /\ Between (mkScan r (add_tracks bs (ss_stats s)) (see_boxes offset bs (ss_scanner s))).

Lemma scanned_none : scanned NoBox.
Proof.
  intros fuel offset depth s _ _ Hs Hm Hf. destruct (fuel_left _ _ _ Hm Hf) as [fuel' ->]. exists (ss_reader s).
  assert (mkScan (ss_reader s) (add_tracks NoBox (ss_stats s)) (see_boxes offset NoBox (ss_scanner s)) = s) as ->.
  { destruct s as [r [a v] [hb m d f]], Hs as (_ & _ & _ & _ & Hu). unfold in_u16 in Hu. cbn in Hu. unfold add_tracks, see_boxes. cbn.
    rewrite orb_false_r, !Z.add_0_r, !Z.min_l by lia. by destruct m, d. }
  split; [|done]. cbn [scan_loop]. change (box_bytes NoBox) with 0. by rewrite Z.add_0_r, Z.ltb_irrefl.
Qed.

Lemma scanned_data form kind payload rest : scanned rest -> scanned (DataBox form kind payload rest).
Proof.
  intros IH fuel offset depth s Hat Hl Hs Hm Hf. destruct (fuel_left _ _ _ Hm Hf) as [fuel' ->].
  cbn [within_limits] in Hl. rewrite !andb_true_iff, orb_true_iff, !negb_true_iff, Nat.eqb_eq, Z.leb_le in Hl.
  destruct Hl as ((((Hfit & Hk) & Htk) & Hh) & Hrest).
  pose proof (len_nonneg payload) as Hn. pose proof (len_nonneg (encode_boxes rest)) as Hnr. pose proof (header_cost_nonneg rest) as Hc.
  cbn [encode_boxes] in Hat. pose proof Hat as (Ho & Hlen & _). apply at_app in Hat as [Hat1 Hat2]. apply at_app in Hat2 as [Hat2 Hat3].
  rewrite !len_app, !len_encode_header in * by done.
  assert (box_bytes (DataBox form kind payload rest) = header_len form + len payload + box_bytes rest) as Eb.
  { unfold box_bytes. cbn [encode_boxes]. rewrite !len_app, len_encode_header by done. lia. }
  assert (8 <= header_len form <= 16) as Hhl by (destruct form; cbn; lia). cbn [header_cost] in Hm.
  destruct (run_round fuel' form kind (len payload) rest offset (offset + box_bytes (DataBox form kind payload rest)) depth s
    (fun s2 => exists r, s2 = mkScan r (data_tracks kind payload (ss_stats s))
        (data_seen offset kind (set_header_bytes (sc_header_bytes (ss_scanner s) + header_len form) (ss_scanner s)))
      /\ Between s2)) as (s2 & E & r & -> & Hb); try done; try (unfold box_bytes in *; lia).
  { intros Hto. eapply (form_fits_rest form (len payload) rest); [done| |done]. lia. }
  { intros r HP Hrd. destruct Hs as (_ & _ & Hp & Hs & Hu).
    destruct (run_data (fun start stop depth => check_scope start stop depth;; scan_loop fuel' start stop depth)
      offset depth form kind payload (with_headers (header_len form) s r)) as (r' & E & HP' & Hrd' & Hp'); try done; try (cbn; lia).
    { intros K. destruct Hh; congruence. }
    eexists. split; [exact E|]. eexists. split; [done|].
    split_and!; cbn [ss_reader ss_stats ss_scanner]; [done|done| | |by apply data_tracks_u16];
      rewrite data_seen_headers; cbn in *; lia. }
  rewrite E, Eb. destruct (IH fuel' (offset + header_len form + len payload) depth _ Hat3 Hrest Hb) as (r' & E' & Hb').
  { cbn [ss_scanner]. rewrite data_seen_headers. cbn. lia. }
  { cbn [ss_scanner]. rewrite data_seen_headers. cbn. lia. }
  cbn [ss_stats ss_scanner] in *. rewrite (data_tracks_rest form), (data_seen_rest offset form) in * by (try done; apply Hs).
  exists r'. split; [|done]. rewrite <- E'. f_equal; lia.
Qed.

Lemma tree_seen_headers offset kind sc : sc_header_bytes (tree_seen offset kind sc) = sc_header_bytes sc.
Proof. unfold tree_seen, see_moov. destruct (kind_is _ _); [|done]. by destruct (sc_moov_offset sc). Qed.

Lemma tree_kind_len kind : is_tree_kind kind = true -> length kind = 4%nat.
Proof.
  unfold is_tree_kind. intros [[K|K]%orb_true_iff|K]%orb_true_iff; by apply kind_is_true in K as ->.
Qed.

Lemma scanned_tree form kind inner rest : scanned inner -> scanned rest -> scanned (TreeBox form kind inner rest).
Proof.
  intros IHi IHr fuel offset depth s Hat Hl Hs Hm Hf. destruct (fuel_left _ _ _ Hm Hf) as [fuel' ->].
  cbn [within_limits] in Hl. rewrite !andb_true_iff, orb_true_iff, !negb_true_iff, Nat.leb_le, Z.leb_le in Hl.
  destruct Hl as (((((Hfit & Htk) & Hmoov) & Hd) & Hinner) & Hrest). pose proof (tree_kind_len _ Htk) as Hk.
  pose proof (len_nonneg (encode_boxes inner)) as Hn. pose proof (len_nonneg (encode_boxes rest)) as Hnr.
  pose proof (header_cost_nonneg rest) as Hc. pose proof (header_cost_nonneg inner) as Hci.
  cbn [encode_boxes] in Hat. pose proof Hat as (Ho & Hlen & _). apply at_app in Hat as [Hat1 Hat2]. apply at_app in Hat2 as [Hat2 Hat3].
  rewrite !len_app, !len_encode_header in * by done.
  assert (box_bytes (TreeBox form kind inner rest) = header_len form + box_bytes inner + box_bytes rest) as Eb.
  { unfold box_bytes. cbn [encode_boxes]. rewrite !len_app, len_encode_header by done. lia. }
  assert (8 <= header_len form <= 16) as Hhl by (destruct form; cbn; lia). cbn [header_cost] in Hm.
  set (sc1 := set_header_bytes (sc_header_bytes (ss_scanner s) + header_len form) (ss_scanner s)).
  destruct (run_round fuel' form kind (box_bytes inner) rest offset (offset + box_bytes (TreeBox form kind inner rest)) depth s
    (fun s2 => exists r, s2 = mkScan r (add_tracks inner (ss_stats s)) (see_boxes (offset + header_len form) inner (tree_seen offset kind sc1))
      /\ Between s2)) as (s2 & E & r & -> & Hb); try done; try (unfold box_bytes in *; lia).
  { intros Hto. eapply (form_fits_rest form (box_bytes inner) rest); [done| |done]. lia. }
  { intros r HP Hrd. destruct Hs as (_ & _ & Hp & Hs & Hu).
    pose proof (run_tree fuel' offset depth form kind inner (with_headers (header_len form) s r) Htk
      ltac:(intros K; destruct Hmoov; [congruence|done]) Hd) as Et.
    destruct (IHi fuel' (offset + header_len form) (S depth) (mkScan r (ss_stats s) (tree_seen offset kind sc1))) as (r' & E & Hb); try done.
    { split_and!; cbn [ss_reader ss_stats ss_scanner]; rewrite ?tree_seen_headers; cbn in *; (done || lia). }
    { cbn [ss_scanner]. rewrite tree_seen_headers. cbn. lia. }
    { cbn [ss_scanner]. rewrite tree_seen_headers. cbn. lia. }
    eexists. split; [etransitivity; [exact Et|exact E]|]. eauto. }
  rewrite E, Eb. destruct (IHr fuel' (offset + header_len form + box_bytes inner) depth _ Hat3 Hrest Hb) as (r' & E' & Hb').
  { cbn [ss_scanner sc_header_bytes see_boxes]. rewrite tree_seen_headers. cbn. lia. }
  { cbn [ss_scanner sc_header_bytes see_boxes]. rewrite tree_seen_headers. cbn. lia. }
  unfold sc1 in *. cbn [ss_stats ss_scanner] in *. rewrite (add_tracks_tree form kind), (tree_seen_rest offset form) in * by (try done; apply Hs).
  exists r'. split; [|done]. rewrite <- E'. f_equal; lia.
Qed.

Lemma scanned_all bs : scanned bs.
Proof. induction bs; auto using scanned_none, scanned_data, scanned_tree. Qed.
End Tree.

(** ** Whole files *)

Lemma short_tree bs : within_limits 0 bs = true -> box_bytes bs < 8 -> bs = NoBox.
Proof.
  unfold box_bytes. destruct bs as [|form kind payload rest|form kind inner rest]; [done|..]; cbn [within_limits encode_boxes];
    rewrite !len_app, !andb_true_iff, ?Nat.eqb_eq; intros Hl Hs; exfalso.
  - destruct Hl as ((((_ & Hk) & _) & _) & _). rewrite len_encode_header in Hs by done.
    pose proof (len_nonneg payload). pose proof (len_nonneg (encode_boxes rest)). destruct form; cbn in Hs; lia.
  - destruct Hl as (((((_ & Hk) & _) & _) & _) & _). rewrite len_encode_header in Hs by (by apply tree_kind_len).
    pose proof (len_nonneg (encode_boxes inner)). pose proof (len_nonneg (encode_boxes rest)). destruct form; cbn in Hs; lia.
Qed.

Lemma tree_result bs :
  media_info_of (add_tracks bs (mkTrackStats 0 0)) (see_boxes 0 bs (mkScanner 0 None None false)) = tree_media_info bs.
Proof.
  unfold media_info_of, tree_media_info, add_tracks, see_boxes, scan_streaming_metadata, tree_streaming, moov_first. cbn.
  destruct (first_box "moov" 0 bs), (first_box "mdat" 0 bs), (has_box "moof" bs); reflexivity.
Qed.

Lemma tree_inspection {R} `{MediaByteReader R} (file : list byte) (P : R -> Prop) `{!ReadsFile R file P} bs name mime r :
  file = encode_boxes bs -> within_limits 0 bs = true -> header_cost bs <= MAX_ISO_BMFF_BOX_HEADER_SCAN -> len file <= U64_MAX ->
  is_iso_bmff_candidate name mime = true -> P r ->
  exists r', inspect_media_info (mkInput name mime (len file) r) = (Ok (tree_media_info bs), r') /\ P r'.
Proof.
  intros Ef Hl Hc Hsize Hcand HP. unfold inspect_media_info. cbn [in_file_name in_mime_type in_size in_reader]. rewrite Hcand. cbn [negb].
  unfold inspect_iso_bmff. destruct (len file <? 8) eqn:E8.
  { rewrite (short_tree bs) by (unfold box_bytes; rewrite <- ?Ef; (done || lia)). by exists r. }
  set (s0 := mkScan _ _ _).
  assert (Between P s0) as Hs0 by (split_and!; (done || cbn; lia)).
  assert (at_ file 0 (encode_boxes bs)) as Hat.
  { split_and!; [done|rewrite <- Ef; lia|]. rewrite <- Ef. unfold slice, len. by rewrite Nat2Z.id, drop_0, take_ge. }
  destruct (scanned_all file P Hsize bs SCAN_FUEL 0 0%nat s0 Hat Hl Hs0) as (r' & E & Hb); [cbn; lia|done|].
  unfold scan_boxes, check_scope. cbn [Nat.ltb Nat.leb orb]. replace (len file <? 0) with false by lia.
  rewrite Z.add_0_l in E. unfold box_bytes in E. rewrite <- Ef in E.
  exists (bm_inner r'). unfold mbind, scan_bind, mret, scan_ret. rewrite E. cbn [fst snd ss_stats ss_scanner ss_reader].
  rewrite <- tree_result. split; [done|]. apply Hb.
Qed.

(** C21: a file that is a tree of boxes within the limits of the scanner, and whose name or type
    makes it a candidate, is described as its tree says: the number of audio and of video
    tracks by the handlers, the kind, whether it has fragments and whether the index comes
    first. So for every reader that returns the bytes of the file, and any of the three ways
    in which boxes give their sizes. *)
Theorem inspection_exact {R} `{MediaByteReader R} (file : list byte) (P : R -> Prop) `{!ReadsFile R file P} bs name mime r :
  file = encode_boxes bs -> within_limits 0 bs = true -> header_cost bs <= MAX_ISO_BMFF_BOX_HEADER_SCAN -> len file <= U64_MAX ->
  is_iso_bmff_candidate name mime = true -> P r ->
  exists r', inspect_media_info (mkInput name mime (len file) r) = (Ok (tree_media_info bs), r') /\ P r'.
Proof. by apply tree_inspection. Qed.
