(* ===== verification/MediaCommand.v ===== *)
(** * The media inspection command

    Models [crates/core/src/rpc/router/catalog_media_inspect/mod.rs]: the reader of the
    inspector over the chunks of a file and the cache, the snapshot of a file, the policy
    for the result, and its commit to the catalog unless the file changed meanwhile. The
    session is open and requests are the parsed ones; the clock and the answers of the
    callback for cancelling are arguments. The cache is the one of the session; a reader
    holds it, the world and the number of times the callback was asked. *)

From Stdlib Require Import Strings.Byte Ascii String.
From stdpp Require Import base countable gmap strings list.
From S2P Require Import Prelude.
From S2P Require Import CatalogNode.
From S2P Require Import CatalogManager.
From S2P Require Import CatalogDelta.
From S2P Require Import CatalogShard.
From S2P Require Import Bytes.
From S2P Require Import Storage.
From S2P Require Import Crypto.
From S2P Require Import IoLogic.
From S2P Require Import DurableTx.
From S2P Require Import CatalogCommit.
From S2P Require Import ChunkCache.
From S2P Require Import CatalogSession.
From S2P Require Import DerivativeIndex.
From S2P Require Import BlobReader.
From S2P Require Import BlobFinalize.
From S2P Require Import MediaInspect.
Open Scope Z_scope.

(** [PartialEq] of the media info. *)
#[export] Instance media_kind_eq : EqDecision CatalogMediaKind.
Proof. solve_decision. Defined.
#[export] Instance byte_range_eq : EqDecision CatalogMediaByteRange.
Proof. solve_decision. Defined.
#[export] Instance segment_range_eq : EqDecision CatalogMediaSegmentRange.
Proof. solve_decision. Defined.
#[export] Instance streaming_eq : EqDecision CatalogMediaStreamingMetadata.
Proof. solve_decision. Defined.
#[export] Instance media_info_eq : EqDecision CatalogMediaInfo.
Proof. solve_decision. Defined.

(** ** Errors and answers *)

Inductive MediaInspectCommandError :=
  | MediaNodeNotFound | MediaAccessDenied | MediaNotFile | MediaInvalidNodeId | MediaSaveFailed (e : Error).

(** The JSON of the answer; [stale] is the field that is there when the file changed. *)
Record MediaInspectAnswer := mkAnswer {
  an_node_id : Z;
  an_media_info : option CatalogMediaInfo;
  an_source_revision : Z;
  an_media_inspected_revision : Z;
  an_stale : bool;
}.

Record CatalogMediaInspectSnapshot := mkSnapshot {
  sn_node_id : Z;
  sn_node_id32 : Z;
  sn_path : string;
  sn_name : string;
  sn_mime_type : option string;
  sn_size : Z;
  sn_chunk_size : Z;
  sn_source_revision : Z;
  sn_cache_generation : Z;
  sn_media_info : option CatalogMediaInfo;
  sn_media_inspected_revision : Z;
  sn_inspection_candidate : bool;
  sn_inspection_complete : bool;
}.

(** ** The reader *)

(** [Read::read_exact] of the standard library on a range reader: reads until the buffer is
    full, a read returns nothing, or an error. *)
Fixpoint range_read_exact `{Crypto} (vault_key : list byte) (fuel : nat) (n : Z) : Rd CatalogBlobRangeReader (option (list byte)) :=
  match fuel with
  | O => mret (Ok None)
  | S fuel =>
      if n =? 0 then mret (Ok (Some [])) else
      st_rbind (range_read vault_key n) (fun o =>
      match o with
      | None => mret (Ok None)
      | Some [] => mret (Err (io_error UnexpectedEof "failed to fill whole buffer"))
      | Some b => st_rbind (range_read_exact vault_key fuel (n - len b)) (fun o' => mret (Ok (app b <$> o')))
      end)
  end.

Record CancellableCatalogMediaByteReader := mkMediaReader { md_cache : DecryptedChunkCache; md_world : World; md_asked : nat }.

Section Reader.
Context `{cr : Crypto} (vault_key : list byte) (snapshot : CatalogMediaInspectSnapshot) (is_cancelled : nat -> bool).

(** A call of the callback. *)
Definition ask (r : CancellableCatalogMediaByteReader) : bool * CancellableCatalogMediaByteReader :=
  (is_cancelled (md_asked r), mkMediaReader (md_cache r) (md_world r) (S (md_asked r))).

Definition media_read_range : MediaByteReader CancellableCatalogMediaByteReader := fun offset length r =>
  let '(cancelled, r) := ask r in
  if cancelled : bool then (Some (Err Cancelled), r) else
  let reader := new_cached (sn_node_id32 snapshot) (sn_source_revision snapshot) (md_cache r) (sn_cache_generation snapshot)
                  offset length (sn_chunk_size snapshot) (sn_size snapshot) in
  let '(x, reader, w) := range_read_exact vault_key (S (Z.to_nat length)) length reader (md_world r) in
  let r := mkMediaReader (default (md_cache r) (rr_cache reader)) w (md_asked r) in
  match x with
  | Ok (Ok (Some bytes)) =>
      let '(cancelled, r) := ask r in
      if cancelled : bool then (Some (Err Cancelled), r) else (Some (Ok bytes), r)
  | Ok (Ok None) | Err _ => (None, r)
  | Ok (Err e) => (Some (Err (ReadFailed (io_message e))), r)
  end.

(** ** The policy *)

Definition inspect_catalog_media_snapshot (r : CancellableCatalogMediaByteReader)
    : result scan_stop (option CatalogMediaInfo) * CancellableCatalogMediaByteReader :=
  @inspect_media_info _ media_read_range (mkInput (sn_name snapshot) (sn_mime_type snapshot) (sn_size snapshot) r).

(** The media info and the revision it is for. *)
Definition inspect_metadata (r : CancellableCatalogMediaByteReader)
    : result scan_stop (option CatalogMediaInfo * Z) * CancellableCatalogMediaByteReader :=
  if sn_inspection_complete snapshot then (Ok (sn_media_info snapshot, sn_media_inspected_revision snapshot), r) else
  let '(x, r) := inspect_catalog_media_snapshot r in
  (match x with
   | Ok media_info =>
       Ok (media_info,
           if bool_decide (is_Some media_info) || sn_inspection_candidate snapshot then sn_source_revision snapshot else 0)
   | Err (Rejected _) => Ok (None, 0)
   | Err e => Err e
   end, r).
End Reader.

(** ** The catalog *)

Definition record_media_inspection_delta (ts id : Z) (path : string) (source_revision : option Z)
    (media_info : option (option CatalogMediaInfo)) (media_inspected_revision : option Z) (s : VaultSession) : VaultSession :=
  let normalized := normalize_path path in
  match path_shard_id normalized with
  | None => s
  | Some shard_id =>
      match shard_relative_path shard_id normalized with
      | None => s
      | Some rel_path =>
          let fields := mkPartial None None None media_info media_inspected_revision None source_revision in
          record_delta shard_id (with_node_id id (de_update ts 0 rel_path fields)) s
      end
  end.

(** [if node.chunk_size == 0 { DEFAULT_CHUNK_SIZE } else { node.chunk_size }]. *)
Definition effective_chunk_size (n : CatalogNode) : Z := if chunk_size n =? 0 then DEFAULT_CHUNK_SIZE else chunk_size n.

(** Whether a file needs no inspection. *)
Definition inspection_done (n : CatalogNode) : bool :=
  bool_decide (is_Some (media_info n))
  || (is_iso_bmff_candidate (node_name n) (mime_type n) && negb (source_revision n =? 0)
      && (media_inspected_revision n =? source_revision n)).

Definition snapshot_of (id : Z) (path : string) (gen : Z) (complete : bool) (n : CatalogNode) : CatalogMediaInspectSnapshot :=
  mkSnapshot id id path (node_name n) (mime_type n) (node_size n) (effective_chunk_size n) (source_revision n) gen
    (media_info n) (media_inspected_revision n) (is_iso_bmff_candidate (node_name n) (mime_type n)) complete.

(** The block under the borrow of the node in [snapshot_catalog_media_inspect]: the revision
    before, whether the inspected revision changed, and the node. *)
Definition settle_revisions (now : Z) (n : CatalogNode) : (Z * bool) * CatalogNode :=
  let previous := source_revision n in
  let '(revision, n) := ensure_source_revision now n in
  if bool_decide (is_Some (media_info n)) && negb (revision =? 0) && negb (media_inspected_revision n =? revision)
  then ((previous, true), set_media_inspected_revision revision n)
  else ((previous, false), n).

Section Command.
Context `{cr : Crypto}.
Context `{Serde RootIndex, Serde Shard, Serde DeltaEntry,
          Serde CatalogCommitRecord, Serde (DurableTxRecord CatalogCommitRecord), Serde DerivativeIndexRecord}.
Context (vault_key : list byte) (clk : clock) (clks : string -> clock).

(** [clk 0] is for the revision, [clk 1] for the delta. *)
Definition snapshot_catalog_media_inspect (id : Z) (s : VaultSession)
    : result MediaInspectCommandError CatalogMediaInspectSnapshot * VaultSession :=
  match get_path (catalog s) id with
  | None => (Err MediaNodeNotFound, s)
  | Some path =>
      let path := normalize_path path in
      if is_system_path_guarded s path then (Err MediaAccessDenied, s) else
      if negb (id <=? U32_MAX) then (Err MediaInvalidNodeId, s) else
      let '(o, s) := node_mut id (fun n =>
                       if negb (is_file n) then (None, n)
                       else let '(x, n) := settle_revisions (clk 0%nat) n in (Some (x, n), n)) s in
      match o with
      | None => (Err MediaNodeNotFound, s)
      | Some None => (Err MediaNotFile, s)
      | Some (Some ((previous, changed), n)) =>
          let first := (previous =? 0) && negb (source_revision n =? 0) in
          let s := if first || changed
                   then record_media_inspection_delta (clk 1%nat) id path
                          (if first then Some (source_revision n) else None) None
                          (if changed then Some (media_inspected_revision n) else None) s
                   else s in
          (Ok (snapshot_of id path (generation (chunk_cache s)) (inspection_done n) n), s)
      end
  end.

(** The block under the borrow of the node in [commit_catalog_media_inspect]: the answer for
    a file that changed, or whether the node changes. *)
Definition commit_node (snapshot : CatalogMediaInspectSnapshot) (info : option CatalogMediaInfo) (revision : Z) (n : CatalogNode)
    : (MediaInspectAnswer + bool) * CatalogNode :=
  if negb (source_revision n =? sn_source_revision snapshot) then
    (inl (mkAnswer (sn_node_id snapshot) (media_info n) (source_revision n) (media_inspected_revision n) true), n)
  else if bool_decide (media_info n = info) && (media_inspected_revision n =? revision) then (inr false, n)
  else (inr true, set_media_inspected_revision revision (set_media_info info n)).

Definition commit_catalog_media_inspect (snapshot : CatalogMediaInspectSnapshot) (info : option CatalogMediaInfo) (revision : Z)
    : Rt (result MediaInspectCommandError MediaInspectAnswer) :=
  o ← on_session (node_mut (sn_node_id snapshot) (commit_node snapshot info revision));
  match o with
  | None => mret (Err MediaNodeNotFound)
  | Some (inl answer) => mret (Ok answer)
  | Some (inr changed) =>
      let answer := mkAnswer (sn_node_id snapshot) info (sn_source_revision snapshot) revision false in
      if negb changed then mret (Ok answer) else
      modify_session (record_media_inspection_delta (clk 1%nat) (sn_node_id snapshot) (sn_path snapshot) None (Some info) (Some revision));;
      saved ← st_attempt (router_save vault_key (later 2 clk) clks);
      match saved with
      | Err e => mret (Err (MediaSaveFailed e))
      | Ok _ => mret (Ok answer)
      end
  end.

Definition with_cache (c : DecryptedChunkCache) (s : VaultSession) : VaultSession :=
  mkSession (catalog s) (dirty s) (pending_deltas s) c (bypass s).

(** [snapshot.inspect_metadata(is_cancelled)] on the router: the cache is the one of the session.
    A panic and the end of the fuel, which do not happen ([inspection_bounded]), end the process. *)
Definition run_inspection (snapshot : CatalogMediaInspectSnapshot) (is_cancelled : nat -> bool)
    : Rt (option CatalogMediaInfo * Z) := fun r w =>
  let '(x, rd) := inspect_metadata vault_key snapshot is_cancelled (mkMediaReader (chunk_cache (session r)) w 0) in
  (match x with Ok a => Ok a | Err _ => Err Crashed end,
   set_session (with_cache (md_cache rd) (session r)) r, md_world rd).

Definition inspect_catalog_media (id : Z) : Rt (result MediaInspectCommandError MediaInspectAnswer) :=
  r ← st_get;
  let s := session r in
  match get_path (catalog s) id with
  | None => mret (Err MediaNodeNotFound)
  | Some path =>
      let path := normalize_path path in
      if is_system_path_guarded s path then mret (Err MediaAccessDenied) else
      match find_by_id (catalog s) id with
      | None => mret (Err MediaNodeNotFound)
      | Some n =>
          if negb (is_file n) then mret (Err MediaNotFile) else
          if negb (id <=? U32_MAX) then mret (Err MediaInvalidNodeId) else
          if inspection_done n
          then mret (Ok (mkAnswer id (media_info n) (source_revision n) (media_inspected_revision n) false)) else
          let snapshot := snapshot_of id path (generation (chunk_cache s)) false n in
          '(info, revision) ← run_inspection snapshot (fun _ => false);
          commit_catalog_media_inspect snapshot info revision
      end
  end.
End Command.
