(* ===== verification/MediaCommandSpec.v ===== *)
(** * Media inspection of stored files

    The theory of [MediaCommand.v]: the reader of the command returns the bytes of a stored
    file, so that an inspection describes the file as its tree of boxes says. *)

From Stdlib Require Import Strings.Byte Ascii String.
From stdpp Require Import base countable gmap strings list.
From S2P Require Import Prelude.
From S2P Require Import CatalogNode.
From S2P Require Import CatalogManager.
From S2P Require Import CatalogTree.
From S2P Require Import CatalogInvariant.
From S2P Require Import CatalogDelta.
From S2P Require Import CatalogShard.
From S2P Require Import Bytes.
From S2P Require Import Storage.
From S2P Require Import Crypto.
From S2P Require Import IoLogic.
From S2P Require Import DurableTx.
From S2P Require Import CatalogCommit.
From S2P Require Import CatalogSave.
From S2P Require Import ChunkCache.
From S2P Require Import CatalogSession.
From S2P Require Import BlobReader.
From S2P Require Import BlobReadSpec.
From S2P Require Import DerivativeIndex.
From S2P Require Import BlobFinalize.
From S2P Require Import BlobFinalizeSpec.
From S2P Require Import MediaInspect.
From S2P Require Import MediaInspectSpec.
From S2P Require Import MediaInspectTree.
From S2P Require Import MediaCommand.
Open Scope Z_scope.

Section Stored.
Context `{cr : Crypto} {crl : CryptoLaws cr} (key : list byte) (content : list byte).
Context (snapshot : CatalogMediaInspectSnapshot).
Notation node := (sn_node_id32 snapshot).
Notation rev := (sn_source_revision snapshot).
Notation cs := (sn_chunk_size snapshot).
Hypothesis sizes : file_sizes cs content.
Hypothesis snapshot_size : sn_size snapshot = len content.

(** A reader on a storage without faults that has the file. *)
Definition Stored (r : CancellableCatalogMediaByteReader) : Prop :=
  fates (md_world r) = [] /\ file_on_disk key node cs content (disk (md_world r)) /\ cached_ok node rev cs content (md_cache r).

Lemma exact_read offset length cache gen w :
  cached_ok node rev cs content cache -> file_on_disk key node cs content (disk w) -> fates w = [] ->
  0 <= offset -> 0 < length -> offset + length <= len content ->
  exists r' w', range_read_exact key (S (Z.to_nat length)) length
      (new_cached node rev cache gen offset length cs (len content)) w
    = (Ok (Ok (Some (slice offset length content))), r', w')
    /\ (forall c, rr_cache r' = Some c -> cached_ok node rev cs content c)
    /\ file_on_disk key node cs content (disk w') /\ fates w' = [].
Proof.
  intros Hc Hd Hf Ho Hl Hle. set (r := new_cached _ _ _ _ _ _ _ _).
  pose proof (fs_size _ _ sizes) as Hmax.
  assert (rr_end r = offset + length) as Een by (cbn; unfold u64_saturating_add; lia).
  assert (reader_ok node rev cs content r) as Hr by (split; try done; [rewrite Een; lia|by intros c [= <-]]).
  assert (copied content offset (offset + length) [] r) as Hcp by (split_and!; try done; change (len []) with 0; cbn; lia).
  pose proof (range_read_spec key node rev cs content sizes offset (offset + length) length ltac:(lia) r w (conj Hr (conj Hd Hcp))) as Hrd.
  cbn [range_read_exact]. replace (length =? 0) with false by lia. unfold st_rbind at 1, mbind at 1, StIO_bind at 1.
  destruct (range_read key length r w) as [[[[o|e]|e] r'] w']; rewrite Hf in Hrd; destruct Hrd as [Hrd Hu]; try by apply faulted_nil in Hu.
  apply uses_nil in Hu. destruct Hrd as (out & -> & Elen & Hr' & Hd' & (_ & _ & _ & _ & Eout)).
  replace (Z.min length (offset + length - offset)) with length in Elen by lia. rewrite Elen in Eout.
  exists r', w'. split_and!; [|by apply Hr'|done|done].
  destruct out as [|b out]; [change (len []) with 0 in Elen; lia|].
  replace (length - len (b :: out)) with 0 by lia. destruct (Z.to_nat length) eqn:E; [lia|].
  cbn [range_read_exact]. unfold st_rbind, mbind, StIO_bind, mret, StIO_ret. cbn. rewrite app_nil_r. by rewrite Eout.
Qed.

(** A callback that never cancels. *)
Context (is_cancelled : nat -> bool) (never : forall n, is_cancelled n = false).

#[local] Instance media_reader : MediaByteReader CancellableCatalogMediaByteReader := media_read_range key snapshot is_cancelled.

#[local] Instance media_reader_reads : ReadsFile CancellableCatalogMediaByteReader content Stored.
Proof.
  intros r offset length (Hf & Hd & Hc) Ho Hl Hle. unfold read_range, media_reader, media_read_range, ask. rewrite never.
  cbn [md_cache md_world md_asked]. rewrite snapshot_size.
  destruct (exact_read offset length (md_cache r) (sn_cache_generation snapshot) (md_world r) Hc Hd Hf Ho Hl Hle)
    as (r' & w' & E & Hc' & Hd' & Hf'). rewrite E, never. eexists. split; [done|].
  split_and!; [done..|]. cbn [md_cache]. destruct (rr_cache r') as [c|]; cbn; [by apply Hc'|done].
Qed.

Lemma stored_inspection bs r :
  content = encode_boxes bs -> within_limits 0 bs = true -> header_cost bs <= MAX_ISO_BMFF_BOX_HEADER_SCAN ->
  is_iso_bmff_candidate (sn_name snapshot) (sn_mime_type snapshot) = true -> Stored r ->
  exists r', inspect_catalog_media_snapshot key snapshot is_cancelled r = (Ok (tree_media_info bs), r') /\ Stored r'.
Proof.
  intros Eb Hl Hc Hcand Hs. unfold inspect_catalog_media_snapshot. rewrite snapshot_size.
  assert (len content <= U64_MAX) as Hsize by apply (fs_size _ _ sizes).
  exact (tree_inspection content Stored bs _ _ r Eb Hl Hc Hsize Hcand Hs).
Qed.
End Stored.

(** ** The command *)

(** The catalog has [n] as a file under [id] that is open to the command, needs an inspection
    and may be a media file, and the storage has its content. *)
Record media_file `{Crypto} (key : list byte) (s : VaultSession) (d : Disk) (id : Z) (path : string) (n : CatalogNode)
    (content : list byte) : Prop := {
  mf_inv : catalog_inv (catalog s);
  mf_walk : exists p, (id, node_type n, p) ∈ walk [] (root (catalog s));
  mf_node : find_by_id (catalog s) id = Some n;
  mf_path : get_path (catalog s) id = Some path;
  mf_open : is_system_path_guarded s (normalize_path path) = false;
  mf_file : is_file n = true;
  mf_id : id <= U32_MAX;
  mf_todo : inspection_done n = false;
  mf_candidate : is_iso_bmff_candidate (node_name n) (mime_type n) = true;
  mf_size : node_size n = len content;
  mf_sizes : file_sizes (effective_chunk_size n) content;
  mf_disk : file_on_disk key id (effective_chunk_size n) content d;
  mf_cache : cached_ok id (source_revision n) (effective_chunk_size n) content (chunk_cache s);
}.

Section Command.
Context `{cr : Crypto} {crl : CryptoLaws cr}.
Context `{Serde RootIndex, Serde Shard, Serde DeltaEntry,
          Serde CatalogCommitRecord, Serde (DurableTxRecord CatalogCommitRecord), Serde DerivativeIndexRecord}.
Context (key : list byte) (clk : clock) (clks : string -> clock).

Lemma run_stored r w id path n content bs :
  media_file key (session r) (disk w) id path n content -> fates w = [] ->
  content = encode_boxes bs -> within_limits 0 bs = true -> header_cost bs <= MAX_ISO_BMFF_BOX_HEADER_SCAN ->
  let snapshot := snapshot_of id (normalize_path path) (generation (chunk_cache (session r))) false n in
  exists c w', run_inspection key snapshot (fun _ => false) r w
    = (Ok (tree_media_info bs, source_revision n), set_session (with_cache c (session r)) r, w') /\ fates w' = [].
Proof.
  intros Hm Hf Eb Hl Hc snapshot. unfold run_inspection, inspect_metadata. cbn [sn_inspection_complete snapshot snapshot_of].
  destruct Hm as [Hinv Hwalk Hn Hp Ho Hfile Hid Htodo Hcand Hsize Hsizes Hdisk Hcache].
  destruct (stored_inspection key content snapshot Hsizes Hsize (fun _ => false) (fun _ => eq_refl) bs
    (mkMediaReader (chunk_cache (session r)) w 0) Eb Hl Hc Hcand) as (rd & E & Hrd); [done|].
  rewrite E. destruct Hrd as [Hfw _]. exists (md_cache rd), (md_world rd). cbn [sn_inspection_candidate sn_source_revision snapshot snapshot_of].
  rewrite Hcand, orb_true_r. done.
Qed.

Lemma commit_node_shape snapshot info revision n : same_shape n (snd (commit_node snapshot info revision n)).
Proof. unfold commit_node. destruct (negb _); [done|]. by destruct (_ && _). Qed.

(** The save leaves the catalog in memory as it is. *)
Lemma router_save_catalog clk' rt w : let '(_, rt', _) := router_save key clk' clks rt w in catalog (session rt') = catalog (session rt).
Proof.
  unfold router_save, in_index, in_session, session_save, mbind, StIO_bind, st_get, mret, StIO_ret.
  destruct (flush key _ w) as [[[x|e] i] w1]; [|done]. cbn [session]. destruct (dirty (session rt)) eqn:Ed; [|done].
  cbn [session]. rewrite Ed. cbn [negb]. destruct (run_save _ _ _ _ _ _) as [[[y pending] persisted] w2]. by destruct y.
Qed.

(** The node as the inspection describes it, and the answer that says so. *)
Definition described (n : CatalogNode) (info : option CatalogMediaInfo) : CatalogNode :=
  set_media_inspected_revision (source_revision n) (set_media_info info n).
Definition description (id : Z) (n : CatalogNode) (info : option CatalogMediaInfo) : MediaInspectAnswer :=
  mkAnswer id info (source_revision n) (source_revision n) false.

(** The delta that carries the description, for the path [rest] within a shard. *)
Definition described_delta (id : Z) (n : CatalogNode) (info : option CatalogMediaInfo) (rest : list string) : DeltaEntry :=
  with_node_id id (de_update (clk 1%nat) 0 (String.append "/" (str_join "/" rest))
    (mkPartial None None None (Some info) (Some (source_revision n)) None None)).

(** The description was already there; or it is in the session, dirty and with the delta for
    its shard pending, a save of that session was run from [w1], and the outcome is the
    save's. *)
Inductive committed_description (r : RpcRouter) (w1 : World) (id : Z) (path : string) (n : CatalogNode) (info : option CatalogMediaInfo)
    : result stop (result MediaInspectCommandError MediaInspectAnswer) * RpcRouter * World -> Prop :=
  | nothing_new r' : described n info = n -> find_by_id (catalog (session r')) id = Some n ->
      pending_deltas (session r') = pending_deltas (session r) ->
      committed_description r w1 id path n info (Ok (Ok (description id n info)), r', w1)
  | saved_description shard rest s1 y r' w' :
      parse_path path = shard :: rest -> find_by_id (catalog s1) id = Some (described n info) -> dirty s1 = true ->
      pending_deltas s1 = <[shard := default [] (pending_deltas (session r) !! shard) ++ [described_delta id n info rest]]>
                            (pending_deltas (session r)) ->
      router_save key (later 2 clk) clks (mkRouter s1 (derivative_index_state r)) w1 = (y, r', w') ->
      committed_description r w1 id path n info
        (match y with Ok _ => Ok (Ok (description id n info)) | Err (Failed e) => Ok (Err (MediaSaveFailed e)) | Err Crashed => Err Crashed end,
         r', w').

Lemma described_catalog r w1 id path n info x :
  committed_description r w1 id path n info x ->
  find_by_id (catalog (session (snd (fst x)))) id = Some (described n info).
Proof.
  intros [r' Hd Hc _|shard rest s1 y r' w' Hp Hf Hdirty Hpend Hsave]; cbn [fst snd].
  - by rewrite Hd.
  - pose proof (router_save_catalog (later 2 clk) (mkRouter s1 (derivative_index_state r)) w1) as Hs.
    rewrite Hsave in Hs. by rewrite Hs.
Qed.

(** The commit of a result for the revision the file has. *)
Lemma commit_fresh rt w id path gen info n p :
  catalog_inv (catalog (session rt)) -> (id, node_type n, p) ∈ walk [] (root (catalog (session rt))) ->
  find_by_id (catalog (session rt)) id = Some n -> is_file n = true -> get_path (catalog (session rt)) id = Some path ->
  committed_description rt w id path n info
    (commit_catalog_media_inspect key clk clks (snapshot_of id (normalize_path path) gen false n) info (source_revision n) rt w).
Proof.
  intros Hinv Hin Hn Hfile Hpath. set (snapshot := snapshot_of _ _ _ _ _). set (revision := source_revision n).
  destruct (file_path_parts _ _ _ _ _ _ Hinv Hin Hn Hfile Hpath) as (shard & rest & -> & Hparse).
  unfold commit_catalog_media_inspect, mbind at 1, StIO_bind at 1, on_session at 1. cbn [sn_node_id snapshot snapshot_of].
  destruct (node_mut_run (session rt) _ _ _ (commit_node snapshot info revision) Hinv Hin (commit_node_shape _ _ _))
    as (n' & s' & Hn' & E & Hed & Hf & Hdirty). rewrite Hn in Hn'. injection Hn' as <-. rewrite E.
  revert Hf. unfold commit_node. cbn [sn_source_revision snapshot snapshot_of]. rewrite Z.eqb_refl. cbn [negb].
  destruct (_ && _) eqn:Ec; cbn [fst snd negb]; intros Hf.
  - apply andb_true_iff in Ec as [Ei%bool_decide_eq_true Er%Z.eqb_eq]. apply nothing_new.
    + unfold described. rewrite <- Ei. fold revision. rewrite <- Er. by destruct n.
    + exact Hf.
    + apply Hed.
  - set (s2 := record_media_inspection_delta (clk 1%nat) id (normalize_path path) None (Some info) (Some revision) s').
    assert (s2 = record_delta shard (described_delta id n info rest) s') as Es2.
    { unfold s2, record_media_inspection_delta. destruct (path_shard_split path shard rest Hparse) as [H1' H2'].
      destruct (path_shard_split (normalize_path path) shard rest) as [-> ->]; [by rewrite parse_normalize|]. done. }
    unfold modify_session, on_session, mbind, StIO_bind, st_attempt, mret, StIO_ret. cbn [session set_session derivative_index_state sn_path snapshot snapshot_of].
    fold s2. change (set_session s2 (set_session s' rt)) with (mkRouter s2 (derivative_index_state rt)).
    destruct (router_save key (later 2 clk) clks (mkRouter s2 (derivative_index_state rt)) w) as [[y rt'] w'] eqn:Es.
    assert (committed_description rt w id path n info
        (match y with Ok _ => Ok (Ok (description id n info)) | Err (Failed e) => Ok (Err (MediaSaveFailed e)) | Err Crashed => Err Crashed end,
         rt', w')) as Hgoal.
    { eapply saved_description; [exact Hparse| | | |exact Es]; rewrite Es2; [exact Hf|exact Hdirty|].
      cbn. by rewrite (ed_pending _ _ Hed). }
    destruct y as [y|[e|]]; exact Hgoal.
Qed.


(** An error of the reader, a cancelled read included, is no media info for the current
    revision of a candidate: the file counts as inspected, and is not inspected again. *)
Theorem failed_read_counts_as_inspected snapshot is_cancelled rd e rd' :
  sn_inspection_complete snapshot = false -> sn_inspection_candidate snapshot = true ->
  is_iso_bmff_candidate (sn_name snapshot) (sn_mime_type snapshot) = true -> 8 <= sn_size snapshot ->
  media_read_range key snapshot is_cancelled 0 8 rd = (Some (Err e), rd') ->
  inspect_metadata key snapshot is_cancelled rd = (Ok (None, sn_source_revision snapshot), rd').
Proof.
  intros Hd Hk Hc Hs E. unfold inspect_metadata, inspect_catalog_media_snapshot, inspect_media_info. rewrite Hd.
  revert E. generalize (media_read_range key snapshot is_cancelled) as reader. intros reader E.
  cbn [in_file_name in_mime_type in_size in_reader]. rewrite Hc. cbn [negb]. unfold inspect_iso_bmff.
  replace (sn_size snapshot <? 8) with false by lia. unfold scan_boxes, check_scope. cbn [Nat.ltb Nat.leb orb].
  replace (sn_size snapshot <? 0) with false by lia. destruct SCAN_FUEL as [|fuel] eqn:Ef; [by apply (f_equal (Nat.eqb 0)) in Ef|].
  unfold mbind at 1, scan_bind at 1, mret at 1, scan_ret at 1. cbn [scan_loop]. replace (0 <? sn_size snapshot) with true by lia. cbn [negb].
  replace (sn_size snapshot - 0 <? 8) with false by lia. unfold read_box_header, mbind, scan_bind, add_header_bytes, scan_read, read_range.
  cbn. change (u64_checked_add 0 8) with (Some 8). cbv beta iota. change (MAX_ISO_BMFF_BOX_HEADER_SCAN <? 8) with false. cbn.
  unfold bounded_read_range. cbn. change (u64_checked_add 0 8) with (Some 8). cbv beta iota.
  change (MAX_MEDIA_INSPECTION_READ_BYTES <? 8) with false. cbv beta iota. unfold read_range. rewrite E. cbn. by rewrite Hk.
Qed.
End Command.
