(* ===== verification/MediaDemo.v ===== *)
(** * Concrete media files

    A small media file, in memory and stored, for the theorems of [MediaInspectSpec.v],
    [MediaInspectTree.v] and [MediaCommandSpec.v]. *)

From Stdlib Require Import Strings.Byte Ascii String.
From stdpp Require Import base countable gmap strings list.
From S2P Require Import Prelude.
From S2P Require Import CatalogNode.
From S2P Require Import CatalogManager.
From S2P Require Import CatalogTree.
From S2P Require Import CatalogInvariant.
From S2P Require Import CatalogSpec.
From S2P Require Import CatalogDelta.
From S2P Require Import CatalogShard.
From S2P Require Import Bytes.
From S2P Require Import Storage.
From S2P Require Import Crypto.
From S2P Require Import IoLogic.
From S2P Require Import DurableTx.
From S2P Require Import CatalogCommit.
From S2P Require Import ChunkCache.
From S2P Require Import CatalogSession.
From S2P Require Import Encoding.
From S2P Require Import DerivativeIndex.
From S2P Require Import DerivativeCache.
From S2P Require Import BlobReader.
From S2P Require Import BlobReadSpec.
From S2P Require Import BlobFinalize.
From S2P Require Import MediaInspect.
From S2P Require Import MediaInspectSpec.
From S2P Require Import MediaInspectTree.
From S2P Require Import MediaCommand.
From S2P Require Import MediaCommandSpec.
Open Scope Z_scope.

(** ** A file in memory *)

#[local] Instance memory_reader : MediaByteReader (list byte) := fun offset length file =>
  (Some (if (0 <=? offset) && (offset + length <=? len file) then Ok (slice offset length file) else Err InvalidRange), file).

#[local] Instance memory_reads file : ReadsFile (list byte) file (eq file).
Proof.
  intros r offset length <- Ho Hl Hle. exists file. split; [|done]. unfold read_range, memory_reader.
  by rewrite (proj2 (Z.leb_le _ _) Ho), (proj2 (Z.leb_le _ _) Hle).
Qed.

(** A track with a handler, and a file with an audio track behind its data, with sizes in all
    three forms. *)
Definition track (handler : string) : boxes :=
  TreeBox Size32 (as_bytes "trak")
    (TreeBox Size64 (as_bytes "mdia")
       (DataBox ToEnd (as_bytes "hdlr") (replicate 8 x00 ++ as_bytes handler ++ replicate 12 x00) NoBox) NoBox) NoBox.

Definition demo_tree : boxes :=
  DataBox Size32 (as_bytes "ftyp") (as_bytes "isom")
    (DataBox Size64 (as_bytes "mdat") (replicate 5 x2a) (TreeBox ToEnd (as_bytes "moov") (track "soun") NoBox)).

Definition demo_info : option CatalogMediaInfo :=
  Some (mkMediaInfo Audio 1 0 (Some "audio/mp4"%string) None None
          (Some (mkStreaming None None None None None (Some false) None None))).

Example demo_tree_info : tree_media_info demo_tree = demo_info.
Proof. vm_compute. reflexivity. Qed.

Lemma inspection_exact_witness :
  within_limits 0 demo_tree = true
  /\ exists r', inspect_media_info (mkInput "podcast.m4a" None (len (encode_boxes demo_tree)) (encode_boxes demo_tree))
                = (Ok (tree_media_info demo_tree), r') /\ encode_boxes demo_tree = r'.
Proof.
  assert (within_limits 0 demo_tree = true) as Hl by (vm_compute; reflexivity). split; [exact Hl|].
  pose proof (inspection_exact (encode_boxes demo_tree) (eq (encode_boxes demo_tree)) demo_tree "podcast.m4a" None (encode_boxes demo_tree)
                eq_refl Hl ltac:(vm_compute; discriminate) ltac:(vm_compute; discriminate) ltac:(vm_compute; reflexivity) eq_refl) as Hw.
  exact Hw.
Defined.

(** A reader that always fails. *)
Definition broken_reader : MediaByteReader unit := fun _ _ r => (Some (Err (ReadFailed "broken")), r).

Lemma inspection_bounded_witness :
  is_u64 100
  /\ let '(x, r) := @inspect_media_info _ broken_reader (mkInput "a.mp4" None 100 tt) in
     ((exists info, x = Ok info) \/ x = Err Halted)
     /\ exists total, @requested _ broken_reader (100 + 8) total tt r /\ total <= 768 * 1024.
Proof.
  assert (is_u64 (in_size (mkInput "a.mp4" None 100 tt))) as Hs by (split; vm_compute; discriminate). split; [exact Hs|].
  pose proof (@inspection_bounded _ broken_reader (mkInput "a.mp4" None 100 tt) Hs) as Hw. exact Hw.
Defined.

(** ** A stored file *)

#[local] Existing Instances toy_crypto toy_crypto_laws root_serde shard_serde delta_serde commit_serde tx_serde index_serde.

Definition media_content : list byte := encode_boxes demo_tree.
Definition media_catalog : CatalogManager :=
  history [OpCreateDir "/" "docs"; OpCreateFile "/docs" "a.m4a" (len media_content) None].
Definition media_router : RpcRouter := mkRouter (mkSession media_catalog false ∅ new_default 0) (mkIndexCache None false).
Definition media_node : CatalogNode := default (new_root 0) (find_by_id media_catalog 3).
Definition media_disk : Disk := {[blob_chunk_name demo_key 3 0 := demo_enc media_content]}.
Definition media_world : World := mkWorld media_disk [] 0.

Lemma demo_media_file :
  media_file demo_key (session media_router) (disk media_world) 3 "/docs/a.m4a" media_node media_content.
Proof.
  assert (len media_content = 97 /\ effective_chunk_size media_node = 16384) as [El Ec].
  { split; vm_compute; reflexivity. }
  split.
  - apply catalog_inv_check_sound. vm_compute. reflexivity.
  - exists ["/"; "docs"; "a.m4a"]%string. apply (bool_decide_unpack _). vm_compute. exact I.
  - vm_compute. reflexivity.
  - vm_compute. reflexivity.
  - vm_compute. reflexivity.
  - vm_compute. reflexivity.
  - vm_compute. discriminate.
  - vm_compute. reflexivity.
  - vm_compute. reflexivity.
  - vm_compute. reflexivity.
  - rewrite Ec. split; rewrite ?El; [lia|vm_compute; discriminate|unfold U32_MAX; lia].
  - rewrite Ec. intros i Hi Hlt. rewrite El in Hlt. assert (i = 0) as -> by lia.
    eexists. split; vm_compute; reflexivity.
  - intros k e He. cbn in He. by rewrite lookup_empty in He.
Qed.


(** On a storage that fails once, the same file counts as inspected without media info. *)
Example failed_read_example :
  let '(x, _, w') := run_inspection demo_key
      (snapshot_of 3 "/docs/a.m4a" 0 false media_node) (fun _ => false) media_router (mkWorld media_disk [FailsBefore] 0) in
  x = Ok (None, source_revision media_node) /\ fates w' = [].
Proof. vm_compute. split; reflexivity. Qed.
